(* ===== verification/_CoqProject ===== *)
-Q . S2P
Prelude.v
EventJournal.v
Protocol.v
StoreState.v
StoreValid.v
StoreInvariant.v
StoreBackend.v
StoreConfig.v
StoreRuntime.v
Samples.v
StoreGuarantees.v
StoreSweep.v
SessionViews.v
ViewJournal.v
ViewLaws.v
ViewRecords.v
ViewRegistry.v
ViewWindow.v
SdkViews.v
SdkFollow.v
ViewGuarantees.v
SessionManagement.v
SessionCatalog.v
HistoryArchive.v
ManagementProjection.v
ManagementLaws.v
ManagementOps.v
SessionServer.v
LanesLaws.v
NotifierLaws.v
CatalogLaws.v
ManagementGuarantees.v
CoreContext.v
CoreSession.v
ModelStep.v
Coordinator.v
Engine.v
EngineLegal.v
Adapters.v
AnthropicAdapter.v
ResponsesAdapter.v
ChatAdapter.v
AdapterLaws.v
AdapterSteps.v
ResponsesLaws.v
AdapterContent.v
AdapterRequests.v
Providers.v
Interactions.v
InteractionRecord.v
InteractionServer.v
InteractionLaws.v
InteractionBlocks.v
InteractionInvariant.v
InteractionSteps.v
InteractionShown.v
InteractionHistory.v
InteractionGuarantees.v
CoreGuarantees.v
AdapterGuarantees.v
RunRegistry.v
DaemonRuns.v
RunSteps.v
RunProjection.v
RunIdentity.v
RunTurn.v
RunGuarantees.v
SdkManagement.v
SdkFollowV2.v
SdkRuns.v
SdkRoutes.v
SdkSessions.v
SdkSessionLaws.v
SdkSessionFence.v
SdkGuarantees.v
SdkInteractions.v
Approvals.v
