(* ===== verification/Prelude.v ===== *)
(** * Verification library of the Whale agent runtime

    The Whale SDK is a Rust workspace ([src/crates]): [whale-protocol] (the
    canonical items and the RPC contracts), [whale-adapters] (HTTP model APIs),
    [whale-core] (the agent engine), [whale-store] (durable sessions),
    [whale-daemon] (the JSON-RPC server that owns sessions, runs and views) and
    [whale-sdk-rust] (the client). A turn goes from the daemon to
    [AgentEngine::run_turn_with_context]; the engine asks a context policy for a
    projection of the session's history, streams one model step, runs the tool calls
    of the step through the coordinator, and repeats. With a journal every item,
    intent and outcome is committed to the store before the engine goes on.

    ** Files

    Shared:
    - [Prelude]: the [Result] monad, the monad [eff] of fallible operations on a
      state with its [triple]s, u64 arithmetic, hash-set and B-tree loops, strings,
      tactics and hint databases.
    - [Protocol]: [serde_json::Value]; the data of [canonical.rs], [contexts.rs], [events.rs], [rpc.rs],
      [runs.rs], [recovery.rs] and [retention.rs] with their validators.
    - [Samples]: concrete values for the witnesses.

    The store ([crates/whale-store/src]):
    - [StoreState]: [SessionRecord] and its transitions [begin], [mutate],
      [finalize], [recover] and the validator ([state.rs]).
    - [StoreValid]: the declarative predicate [Valid] and its equivalence with the
      validator.
    - [StoreInvariant]: the invariant [Inv] of the records, the order [Evolves] of
      their changes, and that each transition keeps them.
    - [StoreSweep]: the retention sweep of a whole store ([retention.rs]).
    - [StoreBackend]: timestamps, migration of old schemas, tombstones ([retention.rs]);
      the trait [SessionStore] as a type class with the checks every
      backend runs, its contract [SessionStoreSpec], and the in-memory backend as an
      instance of both ([backend.rs]).
    - [StoreConfig]: persisted configurations, versions 1 to 3 ([configuration.rs]).
    - [StoreRuntime]: opening, creating, attaching, forgetting, and the journal
      worker with its lease and poison ([runtime.rs]), over any [SessionStore].
    - [StoreGuarantees]: the theorems about the store and their witnesses.

    The core ([crates/whale-core/src]):
    - [CoreContext]: validation and pruning of model contexts ([context.rs]), with
      the grammar [Conversation] of what the validator accepts.
    - [CoreSession]: thread sessions, admission limits, repair of interrupted turns
      ([session.rs], [error.rs]).
    - [ModelStep]: requests, capabilities ([capabilities.rs] of the adapters), model
      events and the step check [ModelStepState] of [engine.rs].
    - [Coordinator]: the tool registry and a batch of concurrent tool calls
      ([coordinator.rs]) as a transition system; the type class [Journal] is what it
      needs of a journal.
    - [Engine]: the turn engine ([engine.rs]), and the journal of [StoreRuntime] as an
      instance of [Journal]; [EngineLegal]: the proof that turns keep the history legal.
    - [CoreGuarantees]: the theorems about the core and their witnesses.

    The adapters ([crates/whale-adapters/src]) and the providers of the core:
    - [Adapters]: the trait and its errors ([traits.rs]); a [try_stream!] block as a
      computation [gen] that yields events, with the weakest preconditions [wp].
    - [AnthropicAdapter], [ChatAdapter], [ResponsesAdapter]: the three wire formats
      ([anthropic.rs], [openai.rs], [responses.rs]): requests, and the decoders of the
      streams with all their variables.
    - [Providers]: the choice of an adapter, the registry of providers and the provider
      over HTTP ([provider.rs], [http_provider.rs], [agents.rs]).
    - [AdapterLaws]: how the streams end ([Settles]); [AdapterSteps]: what the step check
      of the engine makes of them ([StepAccepted]), and the order of the items of a Chat
      step; [ResponsesLaws]: the output items of Responses and the terminal
      output; [AdapterContent]: items and their deltas; [AdapterRequests]: how the
      encoders group a conversation into messages.
    - [AdapterGuarantees]: the theorems and their witnesses.

    Session views ([whale-protocol/src/session_views.rs], [whale-daemon/src/session_views.rs],
    [whale-sdk-rust/src/session_views.rs]):
    - [SessionViews]: snapshots, events, the reducer [apply], validators of frames
      and of replay pages.
    - [ViewJournal]: the daemon's [ViewJournal] and [SessionViewRegistry]: [prepare],
      publication, eviction, [replay], retirement of a run.
    - [ViewLaws], [ViewRecords], [ViewRegistry]: cursors and reductions; the record of
      everything ever published ([History]); the registry as a step relation [serves]
      with the invariant [RegistryOk], and the interface [publishes].
    - [ViewWindow]: pages of bounded size, and what fits into a frame.
    - [SdkViews]: the client: options, checks of the daemon's answers, the
      subscription [Worker] as a state machine, its streams. [SdkFollow]: client and
      daemon composed, and the loop that fetches a window page by page.
    - [ViewGuarantees]: concrete registries; the theorems.

    Session management ([whale-protocol/src/session_management.rs] and the
    [session_*.rs] files of [whale-daemon/src]):
    - [SessionManagement]: the second version of snapshots and events with its reducer,
      requests and answers with the validators both sides run.
    - [SessionCatalog]: failures, and the signed cursors of lists and histories
      ([session_catalog.rs]); [HistoryArchive]: the bounded archive of items and its
      pages ([session_history.rs]), the archive against the log of everything it was given,
      and reading back page by page.
    - [ManagementProjection]: the second view of a session, its journal, replay and
      retirement, and the notifier ([session_management.rs]) with the calls that publish
      on it, step by step; [ManagementLaws]: its invariant [ProjectionOk] and the replay
      contract; [NotifierLaws]: the order of notifications.
    - [ManagementOps]: records, owner catalogs, pruning; lists,
      dual publication, retirement, metadata, closing. [CatalogLaws]: paging.
    - [SessionServer]: phases of session identities ([session_lifecycle.rs]); all of this as one system with the step relation [lives];
      [LanesLaws]: its invariant [WorldOk].
    - [ManagementGuarantees]: a daemon with a session; the theorems.

    Interactions: questions that a run asks its client ([interactions.rs] of
    [whale-protocol] and of [whale-daemon], [interaction.rs] of [whale-core]):
    - [EventJournal]: what the journals of the daemon have in common: eviction from the
      front, and the chains [leads] of events over the class [EventStream].
    - [Interactions]: the protocol: requests, snapshots, events, the reducer, validators.
    - [InteractionRecord]: the record of a session and each block that a method runs
      under its lock; [InteractionServer]: the registry, the response transactions
      [ResponseCommit], and both interleaved lock by lock as the step relation [lives_on].
    - [InteractionLaws], [InteractionBlocks]: the reducer, the
      invariant [RecordOk] of a record, one specification per block, the replay contract.
    - [InteractionInvariant], [InteractionSteps]: the invariant [WorldOk] of the registry
      with the channels of every continuation and response, kept by every step.
    - [InteractionShown]: what a session shows ([ShownOk]); [InteractionHistory]: what its
      events tell a [client].
    - [InteractionGuarantees]: a question answered twice; the theorems.
    - [Approvals]: the gate of tool approvals ([approval.rs] of [whale-core]) and the
      responses that decisions become; the gate with its waiting requests ([gate_step]),
      what is read back, and the theorem.

    Runs ([whale-daemon/src/server.rs] from [StartAcceptanceGuard] on, and
    [whale-daemon/src/retention.rs]):
    - [RunRegistry]: the live and the expired runs, and which ones a sweep retires.
    - [DaemonRuns]: the record of a run and its snapshot; admission, the gates of its
      start, publication, cancellation, execution, the terminal commit, retirement. The
      engine is that of [Engine]; [RunJournal] is what a run needs of its journal.
    - [RunSteps]: all runs interleaved as the step relation [runs_step], and one run by
      itself as [local_step]; what a run keeps: its numbers, its end, its publications;
      [RunProjection]: each step of the system is a step of one
      run ([Moves]), so that what [local_step] keeps holds of every run, and who holds a session.
    - [RunIdentity]: what each step does to the registry, key by key, and the life of an
      identity from its admission on.
    - [RunTurn]: what the engine leaves of a run, and its view.
    - [RunGuarantees]: a run from its admission to its retirement; the
      theorems.

    The Rust client ([crates/whale-sdk-rust/src]), besides [SdkViews]:
    - [SdkManagement]: errors, options, requests and the subscription worker of the
      second view ([session_management.rs]); [SdkFollowV2]: worker and daemon composed
      ([system_step_v2]) with the log of a projection.
    - [SdkRuns]: a run's channel, its reader and its result, and the registry that routes
      events to runs ([run.rs], [lib.rs]), and one run with its reader under any
      delivery ([run_step]); [SdkRoutes]: the registry with its leases and starts
      ([route_step]).
    - [SdkSessions]: the phases of a session, its close transaction and release
      ([sessions.rs], [tool_packs.rs]) with the tables they fence ([lib.rs],
      [contexts.rs]); [SdkSessionLaws], [SdkSessionFence]: the steps of a connection
      ([client_step]), what ties phases to close attempts ([PhasesOk]), and that nothing
      is left of a closed session ([QuietOk]).
    - [SdkInteractions]: the client of interactions ([interactions.rs]): requests, the
      subscription worker, and that it hands over a contiguous chain of events whatever
      it is sent ([interactions_are_contiguous]).
    - [SdkGuarantees]: a watched session, a run that is read, a session
      that is closed; the theorems.

    ** How the model corresponds to the code

    [u64] and [i64] values are [N] with the overflow checks written out, [usize] is
    [nat], strings are the bytes of their UTF-8 encoding. A method on [&mut self]
    returns the new value. [Result] is [result]; an [async fn] on a store or a run is
    an [eff], whose error case keeps the state that was reached. Error messages are
    the literal texts of the code. Clocks, uuids and other-crate functions
    (hashing, serde lengths and decoders, JSON Schema) are arguments or the classes
    [Externals], [RecordExternals], [ToolExternals], [EngineExternals], [ViewExternals],
    [ManagementExternals], [CodecExternals], [Serde], [Supply], [SchemaExternals],
    [EventExternals], [DigestExternals], [AdapterExternals] (JSON text and header values),
    [ProviderExternals] (the environment and URLs), [HttpClient], [RunExternals], and
    [MapOrder] and [KeyOrder] (the order of hash maps and sets). What a provider streams is a list: the data of each
    Server-Sent Event, or the text of an error.
    A run may be cancelled at each [await]: [rn_polls] counts the points it still
    passes. The tasks of a tool batch interleave at their [await] points: the labels
    of [Coordinator.Label] are the choices of the scheduler and of the environment,
    and theorems quantify over all label sequences. The tool batch of the engine is
    a schedule of that system. The interaction registry interleaves at its locks: a
    response is looked up, claimed, staged, checked and released in separate steps. The
    runs of the daemon interleave at their locks and gates, except that the lock of a
    snapshot is not modelled, which only allows more interleavings; the turn of a run is
    computed at once, and its events are published one by one after that.

    ** What the theorems show

    - Records: the validator is equivalent to [Valid]; every transition keeps [Inv]
      and only evolves the record; a turn is admitted once; a call is dispatched at
      most once; finalizing answers every call and names the lost ones.
    - Store: on every backend, across I/O failures, all stored records stay good;
      revisions identify records; a released lease never comes back and its journal
      is fenced; tombstones are final; opening recovers everything; the sweep
      terminates and retires, oldest first, exactly what its policy asks for.
    - Configuration: reading and writing is stable.
    - Core: the context validator is equivalent to a grammar; pruning keeps whole
      turns; accepted model steps are well formed and storable; a batch answers in
      call order, never stalls, runs exclusive tools alone and executes nothing
      without a committed intent; a turn only appends, however it ends, and leaves a
      legal conversation when it found one that its input continued and the model emits
      messages before tool calls, an assumption that is necessary.
    - Adapters: whatever arrives, a decoded stream ends exactly once and never takes a
      broken connection for a completed turn; the engine accepts what the decoders
      yield if call and item identities are new; completed items carry their deltas;
      Responses emits its terminal output; a turn without a journal over Chat Completions
      keeps a legal history legal with no assumption on the server. Requests say what the conversation says, block by block.
    - Views: every answer of the registry meets the replay contract of the protocol;
      a subscribed client observes each published event exactly once and in order,
      with gaps only where the daemon announced them; folding the reducer over them
      rebuilds the daemon's snapshot; the page loop of a window terminates and
      returns the whole window; journals keep within their bound; retirement of a
      run leaves no item of it behind.
    - Session management: the two views of a session agree in every reachable state;
      a publication is all or nothing, and goes to the session it names; what a client
      reads back of the history is what the archive was given; paging the catalog shows
      each session once; notifications are in order, and the newest is sent unless two
      calls that found the queue full write the slot in the wrong order ([newest_is_lost]);
      answers meet the client's contract.
    - Interactions: the first response to a request wins and every acknowledged one says
      the same; a session shows exactly the requests that wait or are being answered; a
      client that follows the replay holds the daemon's snapshot; clearing a run ends its
      requests and nothing else; answers to readers meet the contract; at most one decision
      of an approval counts and it arrives as it was made ([Approvals]).
    - Runs: the events of a run are numbered without a gap and end with one terminal
      event; an accepted cancellation decides its outcome; a finished run reports exactly
      what its turn left in the session; a session runs one turn at a time; nothing of a
      run is published before its start was acknowledged; an identity is used once, for as
      long as its session is there; a sweep retires exactly what is due; the view of the session follows the run.
    - Client: a subscriber of the second view sees every event once and in order, and
      finishes only when the session is closed; the reader of a run returns its events
      without a hole and then says why it ended; routes lead to runs that a start, a query
      or an event has given a reason;
      an acknowledged close is final and leaves nothing of the session behind.

    ** Bounds and fuel

    - The paging loop of the retention sweep has fuel [size m + 1], and
      [metadata_terminates] shows that it is enough.
    - [trim] strips with the length of the string as fuel; each step removes a byte.
    - The engine's loop is bounded by [max_steps] in the code, so it is structural.
    - A batch of [n] calls takes at most [6 * n] turns ([batch_never_stalls]), cancellations
      not counted.

    ** What is not modelled

    - The SQLite backend ([sqlite.rs]): SQL and threads around the checks modelled
      in [StoreBackend].
    - The framing of Server-Sent Events, JSON text and the HTTP client: other crates.
    - What the approval gate answers to a batch of tool calls is a label of the batch, so
      the theorems about it hold for every answer; the gate itself is in [Approvals].
    - The task that writes interaction events to the transport: the queue of a record is
      everything that was handed to it.
    - Of the runs: the notifications of the legacy protocol, the log of approval
      decisions, and the waking of tasks.
    - The read-write lock of parallel and exclusive tools belongs to the tool registry,
      which several batches may share; the model has the lock of one batch, so that waiting
      for the tools of another batch is only a delay.
    - The text of an error that a cancelled run leaves inside the engine: the two messages
      of the code are one [run_cancelled], which the daemon replaces in either case.
    - The event numbers of a run ([stream_snapshot], [terminal_snapshot]) are unbounded.
    - The JSON-RPC server loop, transports, the command line: I/O around the
      components above.
    - Of the Rust client: the hubs that fan live events out to subscriptions (their
      channels are what a worker observes), the registration locks of tools (a release
      waits for them before it ends what it fences, [release_end]), the bodies
      of host callbacks, the processes and transports of a connection and the agent
      builders.

    ** Plan

    Left to model: the task that closes a session and the other request handlers of
    [server.rs], the event hubs, processes and transports of the Rust client, its agent
    builders, and the SQLite backend as an instance of
    [SessionStore]. *)

From Stdlib Require Export Ascii String.
From stdpp Require Export base tactics option gmap strings sorting numbers list.

(** ** Notations: Rust's Boolean equality tests *)

Declare Scope rust_scope.
Delimit Scope rust_scope with rust.
Notation "x == y" := (bool_decide (x = y)) (at level 70, no associativity) : rust_scope.
Notation "x != y" := (negb (bool_decide (x = y))) (at level 70, no associativity) : rust_scope.
Open Scope rust_scope.

(** ** Hint databases of the development *)

Create HintDb whale discriminated.
Create HintDb whale_rw.

(** ** Machine integers: [u64] values are [N]; the width is explicit where the
    code checks or saturates. *)

Definition u64_max : N := 18446744073709551615.

(** [u64::checked_add] *)
Definition checked_add (a b : N) : option N :=
  if (a + b <=? u64_max)%N then Some (a + b)%N else None.

(** [u64::saturating_add] *)
Definition saturating_add (a b : N) : N := N.min (a + b) u64_max.

(** [u64::saturating_sub]: subtraction of [N] truncates at zero. *)
Definition saturating_sub (a b : N) : N := (a - b)%N.

(** [u64::checked_sub] *)
Definition checked_sub (a b : N) : option N :=
  if (b <=? a)%N then Some (a - b)%N else None.

(** [PartialOrd] of [Option<u64>]: [None] is below every [Some]. *)
Definition opt_ltb (a b : option N) : bool :=
  match a, b with
  | None, Some _ => true
  | Some x, Some y => (x <? y)%N
  | _, None => false
  end.

Lemma checked_add_Some a b c :
  checked_add a b = Some c ↔ c = (a + b)%N ∧ (a + b <= u64_max)%N.
Proof. unfold checked_add. destruct (N.leb_spec (a + b) u64_max); naive_solver lia. Qed.

Lemma checked_add_None a b : checked_add a b = None ↔ (u64_max < a + b)%N.
Proof.
  unfold checked_add.
  destruct (N.leb_spec (a + b) u64_max); split; intros; [discriminate|lia|lia|done].
Qed.

Lemma checked_sub_Some a b c : checked_sub a b = Some c ↔ c = (a - b)%N ∧ (b <= a)%N.
Proof. unfold checked_sub. destruct (N.leb_spec b a); naive_solver lia. Qed.

(** ** The [Result] type and its monad *)

Inductive result (E A : Type) : Type :=
  | Ok (a : A)
  | Err (e : E).
Arguments Ok {E A} a.
Arguments Err {E A} e.

#[export] Instance result_ret E : MRet (result E) := λ A a, Ok a.
#[export] Instance result_bind E : MBind (result E) := λ A B f m,
  match m with Ok a => f a | Err e => Err e end.
#[export] Instance result_fmap E : FMap (result E) := λ A B f m,
  match m with Ok a => Ok (f a) | Err e => Err e end.
#[export] Instance result_eq_dec E A `{EqDecision E, EqDecision A} : EqDecision (result E A).
Proof. solve_decision. Defined.

Definition is_ok {E A} (m : result E A) : bool := match m with Ok _ => true | Err _ => false end.
Definition is_err {E A} (m : result E A) : bool := negb (is_ok m).

(** [if b { return Err(e) }] *)
Definition reject_if {E} (b : bool) (e : E) : result E () := if b then Err e else Ok ().

(** [Option::ok_or] *)
Definition ok_or {E A} (o : option A) (e : E) : result E A :=
  match o with Some a => Ok a | None => Err e end.

(** [Result::map_err] *)
Definition map_err {E F A} (f : E → F) (m : result E A) : result F A :=
  match m with Ok a => Ok a | Err e => Err (f e) end.

(** A [for] loop whose body threads a state and may return early with an error. *)
Fixpoint fold_res {E S A} (f : S → A → result E S) (s : S) (l : list A) : result E S :=
  match l with
  | [] => Ok s
  | a :: l => s' ← f s a; fold_res f s' l
  end.

Section result_lemmas.
Context {E : Type}.

Lemma bind_Ok {A B} (m : result E A) (f : A → result E B) b :
  (m ≫= f) = Ok b ↔ ∃ a, m = Ok a ∧ f a = Ok b.
Proof. destruct m; simpl; naive_solver. Qed.

Lemma bind_Err {A B} (m : result E A) (f : A → result E B) e :
  (m ≫= f) = Err e ↔ m = Err e ∨ ∃ a, m = Ok a ∧ f a = Err e.
Proof. destruct m; simpl; naive_solver. Qed.

Lemma reject_if_Ok b (e : E) u : reject_if b e = Ok u ↔ b = false.
Proof. destruct b, u; simpl; naive_solver. Qed.

Lemma reject_if_Err b (e e' : E) : reject_if b e = Err e' ↔ b = true ∧ e = e'.
Proof. destruct b; simpl; naive_solver. Qed.

Lemma reject_bind_Ok {A} b (e : E) (m : () → result E A) x :
  (reject_if b e ≫= m) = Ok x ↔ b = false ∧ m () = Ok x.
Proof. destruct b; simpl; naive_solver. Qed.

Lemma reject_if_false b (e : E) : b = false → reject_if b e = Ok ().
Proof. by intros ->. Qed.
Lemma reject_if_true b (e : E) : b = true → reject_if b e = Err e.
Proof. by intros ->. Qed.

Lemma bind_unit_ok {A} (m : result E ()) (f : () → result E A) x : m = Ok () → f () = x → (m ≫= f) = x.
Proof. by intros ->. Qed.

Lemma ok_or_Ok {A} (o : option A) (e : E) a : ok_or o e = Ok a ↔ o = Some a.
Proof. destruct o; simpl; naive_solver. Qed.

Lemma map_err_Ok {F A} (f : E → F) (m : result E A) a : map_err f m = Ok a ↔ m = Ok a.
Proof. destruct m; simpl; naive_solver. Qed.

Lemma fold_res_app {S A} (f : S → A → result E S) l1 l2 s :
  fold_res f s (l1 ++ l2) = (s' ← fold_res f s l1; fold_res f s' l2).
Proof. revert s. induction l1 as [|a l1 IH]; intros s; simpl; [done|]. destruct (f s a); simpl; auto. Qed.

(** Invariant rule of the early-return loop. *)
Lemma fold_res_ind {S A} (P : list A → S → Prop) (f : S → A → result E S) l s s' :
  fold_res f s l = Ok s' → P [] s →
  (∀ done a s1 s2, P done s1 → a ∈ l → f s1 a = Ok s2 → P (done ++ [a]) s2) →
  P l s'.
Proof.
  intros Hf H0 Hstep.
  enough (∀ pre suf s, l = pre ++ suf → P pre s → fold_res f s suf = Ok s' → P l s')
    as Hgen by (eapply (Hgen [] l); eauto).
  intros pre suf. revert pre. clear H0 Hf s.
  induction suf as [|a suf IH]; intros pre s -> HP Hf; simpl in Hf.
  - simplify_eq. by rewrite app_nil_r.
  - apply bind_Ok in Hf as (s2 & Ha & Hf).
    eapply (IH (pre ++ [a])); [by rewrite <-app_assoc| |done].
    eapply Hstep; [done| |done]. set_solver.
Qed.
End result_lemmas.

(** ** Fallible operations on a shared state *)

(** An [async fn] on a store: the state is threaded through, and an error leaves
    whatever state the operation reached. *)
Definition eff (S E A : Type) : Type := S → result E A * S.

#[export] Instance eff_ret S E : MRet (eff S E) := λ A a s, (Ok a, s).
#[export] Instance eff_bind S E : MBind (eff S E) := λ A B f m s,
  match m s with
  | (Ok a, s) => f a s
  | (Err e, s) => (Err e, s)
  end.

(** A pure fallible computation as an operation. *)
Definition lift {S E A} (m : result E A) : eff S E A := λ s, (m, s).

(** An assignment to the state. *)
Definition modify {S E} (f : S → S) : eff S E () := λ s, (Ok (), f s).
(** Reading the state. *)
Definition gets {S E A} (f : S → A) : eff S E A := λ s, (Ok (f s), s).

Section eff_lemmas.
Context {S E : Type}.

Lemma eff_bind_Ok {A B} (m : eff S E A) (f : A → eff S E B) s b s' :
  (m ≫= f) s = (Ok b, s') ↔ ∃ a s1, m s = (Ok a, s1) ∧ f a s1 = (Ok b, s').
Proof. unfold mbind, eff_bind. destruct (m s) as [[] ?]; naive_solver. Qed.

Lemma eff_bind_ok {A B} (m : eff S E A) (f : A → eff S E B) s a s1 :
  m s = (Ok a, s1) → (m ≫= f) s = f a s1.
Proof. unfold mbind, eff_bind. by intros ->. Qed.

Lemma eff_bind_err {A B} (m : eff S E A) (f : A → eff S E B) s e s1 :
  m s = (Err e, s1) → (m ≫= f) s = (Err e, s1).
Proof. unfold mbind, eff_bind. by intros ->. Qed.

(** Whatever an operation answers, its final state is related to the first. *)
Definition steps_in (R : S → S → Prop) {A} (m : eff S E A) : Prop :=
  ∀ s, R s (m s).2.

Lemma steps_in_ret (R : S → S → Prop) `{!Reflexive R} {A} (a : A) : steps_in R (mret a : eff S E A).
Proof. intros s. simpl. reflexivity. Qed.
Lemma steps_in_lift (R : S → S → Prop) `{!Reflexive R} {A} (m : result E A) : steps_in R (lift m : eff S E A).
Proof. intros s. simpl. reflexivity. Qed.
Lemma steps_in_bind (R : S → S → Prop) `{!Transitive R} {A B} (m : eff S E A) (f : A → eff S E B) :
  steps_in R m → (∀ a, steps_in R (f a)) → steps_in R (m ≫= f).
Proof.
  intros Hm Hf s. specialize (Hm s). unfold mbind, eff_bind.
  destruct (m s) as [[a|e] s1]; simpl in *; [|done]. etrans; [done|apply Hf].
Qed.

(** From [P], the operation [m] ends in [Q] when it succeeds and in [R] when it fails. *)
Definition triple {A} (P : S → Prop) (m : eff S E A) (Q : A → S → Prop) (R : S → Prop) : Prop :=
  ∀ s, P s → match m s with (Ok a, s') => Q a s' | (Err _, s') => R s' end.

Lemma triple_ret {A} (a : A) (Q : A → S → Prop) R : triple (Q a) (mret a) Q R.
Proof. by intros s. Qed.

Lemma triple_bind {A B} P (m : eff S E A) (f : A → eff S E B) Q1 Q R :
  triple P m Q1 R → (∀ a, triple (Q1 a) (f a) Q R) → triple P (m ≫= f) Q R.
Proof.
  intros Hm Hf s Hs. specialize (Hm s Hs). unfold mbind, eff_bind.
  destruct (m s) as [[a|e] s1]; [by apply Hf|done].
Qed.

Lemma triple_conseq {A} (P P' : S → Prop) (m : eff S E A) (Q Q' : A → S → Prop) (R R' : S → Prop) :
  triple P' m Q' R' → (∀ s, P s → P' s) → (∀ a s, Q' a s → Q a s) → (∀ s, R' s → R s) → triple P m Q R.
Proof.
  intros Hm HP HQ HR s Hs. specialize (Hm s (HP s Hs)). destruct (m s) as [[a|e] s1]; auto.
Qed.

Lemma triple_pre {A} (P P' : S → Prop) (m : eff S E A) (Q : A → S → Prop) (R : S → Prop) :
  triple P' m Q R → (∀ s, P s → P' s) → triple P m Q R.
Proof. intros Hm HP. by eapply triple_conseq. Qed.

Lemma triple_lift {A} (m : result E A) P (R : S → Prop) :
  (∀ s, P s → R s) → triple P (lift m) (λ a s, m = Ok a ∧ P s) R.
Proof. intros HR s Hs. unfold lift. destruct m; auto. Qed.

(** A fact that holds at the start may be used for the rest of the operation. *)
Lemma triple_intro {A} (P : S → Prop) (m : eff S E A) Q R :
  (∀ s0, P s0 → triple (λ s, s = s0) m Q R) → triple P m Q R.
Proof. intros Hm s Hs. by apply (Hm s Hs). Qed.

Lemma triple_pure {A} (φ : Prop) (P : S → Prop) (m : eff S E A) Q R :
  (φ → triple P m Q R) → triple (λ s, φ ∧ P s) m Q R.
Proof. intros Hm s [Hφ Hs]. by apply Hm. Qed.
End eff_lemmas.

(** ** Predicates on [Option] *)

Definition is_some {A} (o : option A) : bool := match o with Some _ => true | None => false end.
Definition is_none {A} (o : option A) : bool := negb (is_some o).
(** [Option::is_some_and] *)
Definition is_some_and {A} (o : option A) (p : A → bool) : bool :=
  match o with Some a => p a | None => false end.
(** [Option::is_none_or] *)
Definition is_none_or {A} (o : option A) (p : A → bool) : bool :=
  match o with Some a => p a | None => true end.

(** ** Tactics *)

(** Turns an equation [computation = Ok v] into the facts it stands for. *)
Ltac inv_result_step :=
  match goal with
  | H : Ok _ = Ok _ |- _ => injection H as H; try subst
  | H : Err _ = Ok _ |- _ => discriminate H
  | H : Ok _ = Err _ |- _ => discriminate H
  | H : mret _ = Ok _ |- _ => unfold mret, result_ret in H
  | H : (_ ≫= _) = Ok _ |- _ => apply bind_Ok in H as (? & ? & ?)
  | H : reject_if _ _ = Ok _ |- _ => apply reject_if_Ok in H
  | H : ok_or _ _ = Ok _ |- _ => apply ok_or_Ok in H
  | H : map_err _ _ = Ok _ |- _ => apply map_err_Ok in H
  | H : checked_add _ _ = Some _ |- _ => apply checked_add_Some in H as [-> ?]
  | H : (let '(_, _) := ?x in _) = Ok _ |- _ => is_var x; destruct x
  end.
Ltac inv_result := repeat (inv_result_step; simpl in * ).

(** Turns Boolean guards into propositions. *)
Ltac inv_bool_step :=
  match goal with
  | H : _ || _ = false |- _ => apply orb_false_iff in H as [? ?]
  | H : _ && _ = true |- _ => apply andb_true_iff in H as [? ?]
  | H : negb _ = false |- _ => apply negb_false_iff in H
  | H : negb _ = true |- _ => apply negb_true_iff in H
  | H : bool_decide _ = true |- _ => apply bool_decide_eq_true in H
  | H : bool_decide _ = false |- _ => apply bool_decide_eq_false in H
  | H : (_ =? _)%N = true |- _ => apply N.eqb_eq in H
  | H : (_ =? _)%N = false |- _ => apply N.eqb_neq in H
  | H : (_ <? _)%N = true |- _ => apply N.ltb_lt in H
  | H : (_ <? _)%N = false |- _ => apply N.ltb_ge in H
  | H : (_ <=? _)%N = true |- _ => apply N.leb_le in H
  | H : (_ <=? _)%N = false |- _ => apply N.leb_gt in H
  end.
Ltac inv_bool := repeat inv_bool_step.

(** Proves a Boolean guard from the facts it stands for. *)
Ltac prove_bool :=
  repeat match goal with
  | |- _ || _ = false => apply orb_false_iff; split
  | |- _ && _ = true => apply andb_true_iff; split
  | |- negb _ = false => apply negb_false_iff
  | |- negb _ = true => apply negb_true_iff
  | |- bool_decide _ = true => apply bool_decide_eq_true
  | |- bool_decide _ = false => apply bool_decide_eq_false
  | |- (_ <? _)%N = true => apply N.ltb_lt
  | |- (_ <? _)%N = false => apply N.ltb_ge
  | |- (_ <=? _)%N = true => apply N.leb_le
  | |- (_ <=? _)%N = false => apply N.leb_gt
  end; try first [done | lia | congruence].

(** Passes a sequence of guards, one goal for each that is not evident. *)
Ltac pass_guards :=
  repeat first [ done | lazymatch goal with
                        | |- (_ ≫= _) = _ => apply bind_unit_ok
                        | |- reject_if _ _ = Ok () => apply reject_if_false; prove_bool
                        end ].

(** Builds the record [r] with the one field [get] replaced by [v]. *)
Ltac update_field eta get v r :=
  let e := eval cbv beta delta [eta] in (eta r) in
  let e := eval pattern (get r) in e in
  match e with
  | ?h _ => let t := eval cbv beta in (h v) in exact t
  end.

(** ** [HashSet]-based loops *)

Section hash_sets.
Context {A : Type} `{Countable A}.

(** [iter.any(|x| !set.insert(x))], starting from the set [seen]. *)
Fixpoint any_reinserted (seen : gset A) (l : list A) : bool :=
  match l with
  | [] => false
  | x :: l => bool_decide (x ∈ seen) || any_reinserted ({[x]} ∪ seen) l
  end.

Lemma any_reinserted_false seen l :
  any_reinserted seen l = false ↔ NoDup l ∧ (∀ x, x ∈ l → x ∉ seen).
Proof.
  revert seen. induction l as [|x l IH]; intros seen; simpl.
  - split; [intros _; split; [constructor|set_solver]|done].
  - rewrite orb_false_iff, bool_decide_eq_false, IH, NoDup_cons. set_solver.
Qed.

Lemma any_reinserted_empty l : any_reinserted ∅ l = false ↔ NoDup l.
Proof. rewrite any_reinserted_false. set_solver. Qed.
End hash_sets.

(** ** In-place update of the first matching element ([iter_mut().find(p)]) *)

Fixpoint update_first {A} (p : A → bool) (f : A → A) (l : list A) : list A :=
  match l with
  | [] => []
  | x :: l => if p x then f x :: l else x :: update_first p f l
  end.

(** [iter().find(p)] *)
Fixpoint find_first {A} (p : A → bool) (l : list A) : option A :=
  match l with
  | [] => None
  | x :: l => if p x then Some x else find_first p l
  end.

Section find_update.
Context {A : Type} (p : A → bool).

Lemma find_first_Some l x :
  find_first p l = Some x →
  ∃ l1 l2, l = l1 ++ x :: l2 ∧ p x = true ∧ (∀ y, y ∈ l1 → p y = false).
Proof.
  induction l as [|y l IH]; simpl; [done|]. destruct (p y) eqn:Hy; intros; simplify_eq.
  - exists [], l. split_and!; [done..|set_solver].
  - destruct IH as (l1 & l2 & -> & Hx & Hl1); [done|].
    exists (y :: l1), l2. split_and!; [done..|]. intros z [->|]%elem_of_cons; auto.
Qed.

Lemma find_first_None l : find_first p l = None ↔ ∀ x, x ∈ l → p x = false.
Proof.
  induction l as [|y l IH]; simpl; [set_solver|].
  destruct (p y) eqn:Hy; split.
  - done.
  - intros Hall. specialize (Hall y ltac:(set_solver)). congruence.
  - intros Hn x [->|]%elem_of_cons; [done|]. by apply IH.
  - intros Hall. apply IH. set_solver.
Qed.

Lemma update_first_split f l1 x l2 :
  p x = true → (∀ y, y ∈ l1 → p y = false) →
  update_first p f (l1 ++ x :: l2) = l1 ++ f x :: l2.
Proof.
  intros Hx. induction l1 as [|y l1 IH]; intros Hl; simpl; [by rewrite Hx|].
  rewrite (Hl y) by set_solver. f_equal. apply IH. set_solver.
Qed.

Lemma fmap_update_first {B} (g : A → B) f l :
  (∀ x, p x = true → g (f x) = g x) → g <$> update_first p f l = g <$> l.
Proof.
  intros Hg. induction l as [|x l IH]; simpl; [done|].
  destruct (p x) eqn:Hx; csimpl; f_equal; auto.
Qed.

Lemma elem_of_update_first f l y :
  y ∈ update_first p f l → y ∈ l ∨ ∃ x, find_first p l = Some x ∧ y = f x.
Proof.
  induction l as [|x l IH]; simpl; [set_solver|].
  destruct (p x); intros [->|Hy]%elem_of_cons; set_solver.
Qed.
End find_update.

(** [Vec<T>]: the last element and an update of it ([last_mut]) *)
Definition update_last {A} (f : A → A) (l : list A) : list A :=
  match reverse l with
  | [] => []
  | x :: r => reverse (f x :: r)
  end.

Lemma update_last_snoc {A} (f : A → A) l x : update_last f (l ++ [x]) = l ++ [f x].
Proof. unfold update_last. by rewrite reverse_snoc, reverse_cons, reverse_involutive. Qed.

Lemma last_Some_snoc {A} (l : list A) x : last l = Some x → ∃ l', l = l' ++ [x].
Proof. intros Hl. apply last_Some in Hl as [l' ->]. eauto. Qed.

(** [starts_with] on slices *)
Definition starts_with {A} `{EqDecision A} (l pre : list A) : bool := bool_decide (pre `prefix_of` l).

(** ** Strings are the bytes of their UTF-8 encoding *)

Definition str_is_empty (s : string) : bool := match s with EmptyString => true | _ => false end.

(** The encodings of the characters with the Unicode property [White_Space]. *)
Definition white_space : list (list nat) :=
  [[9]; [10]; [11]; [12]; [13]; [32]; [194; 133]; [194; 160]; [225; 154; 128];
   [226; 128; 128]; [226; 128; 129]; [226; 128; 130]; [226; 128; 131]; [226; 128; 132];
   [226; 128; 133]; [226; 128; 134]; [226; 128; 135]; [226; 128; 136]; [226; 128; 137];
   [226; 128; 138]; [226; 128; 168]; [226; 128; 169]; [226; 128; 175]; [226; 129; 159];
   [227; 128; 128]].

Fixpoint strip_prefix (pre l : list nat) : option (list nat) :=
  match pre, l with
  | [], _ => Some l
  | x :: pre, y :: l => if decide (x = y) then strip_prefix pre l else None
  | _ :: _, [] => None
  end.

(** One leading character of [set] removed, if there is one. *)
Fixpoint strip_any (set : list (list nat)) (l : list nat) : option (list nat) :=
  match set with
  | [] => None
  | c :: set => match strip_prefix c l with Some r => Some r | None => strip_any set l end
  end.

(** Every step removes at least one byte, so the length is enough fuel. *)
Fixpoint strip_all (fuel : nat) (set : list (list nat)) (l : list nat) : list nat :=
  match fuel with
  | O => l
  | S fuel => match strip_any set l with Some r => strip_all fuel set r | None => l end
  end.

Definition bytes_of (s : string) : list nat := nat_of_ascii <$> list_ascii_of_string s.
Definition of_bytes (l : list nat) : string := string_of_list_ascii (ascii_of_nat <$> l).

(** [str::trim] *)
Definition trim (s : string) : string :=
  let l := strip_all (String.length s) white_space (bytes_of s) in
  of_bytes (reverse (strip_all (length l) (reverse <$> white_space) (reverse l))).

(** [value.trim().is_empty()] *)
Definition blank (s : string) : bool := str_is_empty (trim s).

(** [value.trim().is_empty() || value.trim() != value] *)
Definition padded_or_blank (s : string) : bool := blank s || (trim s != s).

(** [u8::is_ascii_hexdigit] *)
Definition is_ascii_hexdigit (n : nat) : bool :=
  ((48 <=? n) && (n <=? 57)) || ((65 <=? n) && (n <=? 70)) || ((97 <=? n) && (n <=? 102)).

Definition all_hex (s : string) : bool := forallb is_ascii_hexdigit (bytes_of s).

Example trim_example : trim " a b  " = "a b".
Proof. reflexivity. Qed.
Example blank_example : blank (String (ascii_of_nat 194) (String (ascii_of_nat 160) " ")) = true.
Proof. reflexivity. Qed.

(** [a < b] on strings: byte order *)
Definition str_ltb (a b : string) : bool := negb (bool_decide (String.le b a)).

(** ** [BTreeMap<String, V>]: a finite map read in the order of its keys *)

Section btree.
Context {V : Type}.

Definition key_le (x y : string * V) : Prop := String.le x.1 y.1.
#[export] Instance key_le_dec x y : Decision (key_le x y).
Proof. unfold key_le. apply _. Defined.
#[export] Instance key_le_trans : Transitive key_le.
Proof. intros x y z. unfold key_le. apply transitivity. Qed.
#[export] Instance key_le_total : Total key_le.
Proof. intros x y. unfold key_le. apply total, _. Qed.

(** [iter()] *)
Definition btree_iter (m : gmap string V) : list (string * V) :=
  merge_sort key_le (map_to_list m).
(** [values()] *)
Definition btree_values (m : gmap string V) : list V := (btree_iter m).*2.

Lemma btree_iter_permutation m : btree_iter m ≡ₚ map_to_list m.
Proof. apply merge_sort_Permutation. Qed.

Lemma btree_iter_sorted m : StronglySorted key_le (btree_iter m).
Proof. apply (StronglySorted_merge_sort _). Qed.

Lemma elem_of_btree_iter m k v : (k, v) ∈ btree_iter m ↔ m !! k = Some v.
Proof. rewrite btree_iter_permutation. apply elem_of_map_to_list. Qed.

Lemma elem_of_btree_values m v : v ∈ btree_values m ↔ ∃ k, m !! k = Some v.
Proof.
  unfold btree_values. rewrite list_elem_of_fmap. split.
  - intros ([k v'] & -> & Hkv). exists k. by apply elem_of_btree_iter.
  - intros [k Hk]. exists (k, v). split; [done|]. by apply elem_of_btree_iter.
Qed.

Lemma NoDup_btree_keys m : NoDup (btree_iter m).*1.
Proof. rewrite btree_iter_permutation. apply NoDup_fst_map_to_list. Qed.

Lemma btree_values_empty : btree_values ∅ = [].
Proof. reflexivity. Qed.
End btree.

(** The lists [f v] of the values [v] of a map have no element twice, neither
    within one value nor in two different values. *)
Definition spread_distinct {V A} (f : V → list A) (m : gmap string V) : Prop :=
  (∀ k v, m !! k = Some v → NoDup (f v)) ∧
  (∀ k1 k2 v1 v2 x, m !! k1 = Some v1 → m !! k2 = Some v2 → x ∈ f v1 → x ∈ f v2 → k1 = k2).

Section spread_distinct.
Context {V A : Type} (f : V → list A).
Implicit Types (m : gmap string V) (v : V).

Lemma spread_distinct_empty : spread_distinct f ∅.
Proof. split; intros; simplify_map_eq. Qed.

(** The keys with a common value are equal, after an update that adds at most
    elements nobody else has. *)
Lemma spread_distinct_insert m k v :
  spread_distinct f m → NoDup (f v) →
  (∀ k' v' x, k' ≠ k → m !! k' = Some v' → x ∈ f v' → x ∉ f v) →
  spread_distinct f (<[k:=v]> m).
Proof.
  intros [H1 H2] Hv Hother. split.
  - intros k' v'. destruct (decide (k' = k)) as [->|]; intros; simplify_map_eq; eauto.
  - intros k1 k2 v1 v2 x. destruct (decide (k1 = k)) as [->|], (decide (k2 = k)) as [->|];
      intros; simplify_map_eq; eauto; exfalso; by eapply Hother.
Qed.

Lemma spread_distinct_update m k v0 v :
  spread_distinct f m → m !! k = Some v0 → f v = f v0 → spread_distinct f (<[k:=v]> m).
Proof.
  intros [H1 H2] Hk Hf. apply spread_distinct_insert; [done|rewrite Hf; eauto|].
  intros k' v' x Hne Hk' Hx. rewrite Hf. naive_solver.
Qed.

Lemma spread_distinct_snoc m k v0 v x :
  spread_distinct f m → m !! k = Some v0 → f v = f v0 ++ [x] →
  (∀ k' v', m !! k' = Some v' → x ∉ f v') → spread_distinct f (<[k:=v]> m).
Proof.
  intros [H1 H2] Hk Hf Hx. apply spread_distinct_insert; [done| |].
  - rewrite Hf. apply NoDup_app. split_and!; [eauto| |apply NoDup_singleton]. set_solver.
  - intros k' v' y Hne Hk' Hy. rewrite Hf. set_solver.
Qed.
End spread_distinct.

#[export] Hint Resolve spread_distinct_empty : whale.

(** Elements that are new to a set and met once: what a loop over
    [set.insert(x)] accepts. *)
Section fresh_lists.
Context {A : Type} `{Countable A}.
Implicit Types (s : gset A) (l : list A).

Definition fresh_list s l : Prop := NoDup l ∧ ∀ x, x ∈ l → x ∉ s.
Definition add_list l s : gset A := list_to_set l ∪ s.

Lemma fresh_list_nil s : fresh_list s [].
Proof. split; [constructor|set_solver]. Qed.

Lemma fresh_list_cons s x l : fresh_list s (x :: l) ↔ x ∉ s ∧ fresh_list ({[x]} ∪ s) l.
Proof. unfold fresh_list. rewrite NoDup_cons. set_solver. Qed.

Lemma add_list_cons x l s : add_list (x :: l) s = add_list l ({[x]} ∪ s).
Proof. unfold add_list. set_solver. Qed.

Lemma fresh_list_app s l k : fresh_list s (l ++ k) ↔ fresh_list s l ∧ fresh_list (add_list l s) k.
Proof. unfold fresh_list, add_list. rewrite NoDup_app. set_solver. Qed.

Lemma add_list_app l k s : add_list (l ++ k) s = add_list k (add_list l s).
Proof. unfold add_list. set_solver. Qed.

Lemma fresh_list_empty l : fresh_list ∅ l ↔ NoDup l.
Proof. unfold fresh_list. set_solver. Qed.
End fresh_lists.

(** The lists of the values of a map, read in key order, have no element twice
    exactly when they are [spread_distinct]. *)
Lemma NoDup_bind_values {V A} (f : V → list A) (m : gmap string V) :
  NoDup (btree_values m ≫= f) ↔ spread_distinct f m.
Proof.
  assert (∀ l : list (string * V), NoDup l.*1 →
    NoDup (l.*2 ≫= f) ↔
      (∀ k v, (k, v) ∈ l → NoDup (f v)) ∧
      (∀ k1 k2 v1 v2 x, (k1, v1) ∈ l → (k2, v2) ∈ l → x ∈ f v1 → x ∈ f v2 → k1 = k2)) as Hl.
  { induction l as [|[k v] l IH]; csimpl; intros Hk.
    { split; [intros _; split; set_solver|intros _; constructor]. }
    apply NoDup_cons in Hk as [Hnot Hk]. rewrite NoDup_app, IH by done.
    assert (∀ x, x ∈ l.*2 ≫= f ↔ ∃ k v, (k, v) ∈ l ∧ x ∈ f v) as Hin.
    { intros x. rewrite list_elem_of_bind. split.
      - intros (v' & ? & ([??] & -> & ?)%list_elem_of_fmap). eauto.
      - intros (k' & v' & ? & ?). exists v'. split; [done|].
        apply list_elem_of_fmap. by exists (k', v'). }
    assert (∀ k' v', (k', v') ∈ l → k' ≠ k) as Hne.
    { intros k' v' Hin' ->. apply Hnot, list_elem_of_fmap. by exists (k, v'). }
    split.
    - intros (Hv & Hx & H1 & H2). setoid_rewrite Hin in Hx. split.
      + intros k' v' [?|?]%elem_of_cons; naive_solver.
      + intros k1 k2 v1 v2 x [?|?]%elem_of_cons [?|?]%elem_of_cons ??; naive_solver.
    - intros [H1 H2]. split_and!.
      + eapply H1, list_elem_of_here.
      + intros x Hx (k' & v' & Hkv & Hx')%Hin. apply (Hne k' v'); [done|].
        eapply (H2 k' k v' v x); [by right|by left|done..].
      + intros; eapply H1; by right.
      + intros; eapply H2; [by right|by right|done..]. }
  unfold btree_values. rewrite Hl by apply NoDup_btree_keys.
  unfold spread_distinct. setoid_rewrite elem_of_btree_iter. done.
Qed.

Lemma existsb_false {A} (p : A → bool) l : existsb p l = false ↔ ∀ x, x ∈ l → p x = false.
Proof.
  induction l as [|x l IH]; simpl; [set_solver|]. rewrite orb_false_iff, IH.
  split; [intros [??] y [->|?]%elem_of_cons; auto|]. intros Hl. split; [|intros]; apply Hl; set_solver.
Qed.
Lemma existsb_true {A} (p : A → bool) l : existsb p l = true ↔ ∃ x, x ∈ l ∧ p x = true.
Proof. rewrite existsb_exists. by setoid_rewrite list_elem_of_In. Qed.
Lemma elem_of_filter_b {A} (p : A → bool) l x : x ∈ List.filter p l ↔ x ∈ l ∧ p x = true.
Proof. rewrite !list_elem_of_In. apply filter_In. Qed.

Lemma list_filter_nil_b {A} (p : A → bool) l : (∀ x, x ∈ l → p x = false) → List.filter p l = [].
Proof.
  induction l as [|x l IH]; simpl; [done|]. intros Hl. rewrite (Hl x) by set_solver. apply IH. set_solver.
Qed.
Lemma list_filter_all_b {A} (p : A → bool) l : (∀ x, x ∈ l → p x = true) → List.filter p l = l.
Proof.
  induction l as [|x l IH]; simpl; [done|]. intros Hl. rewrite (Hl x) by set_solver. f_equal. apply IH. set_solver.
Qed.

Lemma NoDup_fmap_filter_b {A B} (g : A → B) (p : A → bool) l :
  NoDup (g <$> l) → NoDup (g <$> List.filter p l).
Proof.
  induction l as [|x l IH]; csimpl; [done|]. intros [Hx Hl]%NoDup_cons.
  destruct (p x); csimpl; [|auto]. apply NoDup_cons. split; [|auto].
  intros (y & Heq & [Hy _]%elem_of_filter_b)%list_elem_of_fmap. apply Hx.
  rewrite Heq. by apply list_elem_of_fmap_2.
Qed.

(** A list has no repetition exactly when its set has as many elements. *)
Lemma size_list_to_set_iff {A} `{Countable A} (l : list A) :
  size (list_to_set l : gset A) = length l ↔ NoDup l.
Proof.
  split; [|apply size_list_to_set].
  assert (∀ k : list A, size (list_to_set k : gset A) <= length k) as Hle.
  { induction k as [|x k IH]; [done|]. rewrite list_to_set_cons, length_cons.
    destruct (decide (x ∈ (list_to_set k : gset A))) as [Hx|Hx].
    - rewrite (subseteq_union_1_L {[x]}) by set_solver. lia.
    - rewrite size_union, size_singleton by set_solver. lia. }
  induction l as [|x l IH]; [constructor|]. rewrite list_to_set_cons, length_cons.
  intros Hs. specialize (Hle l).
  destruct (decide (x ∈ l)) as [Hx|Hx].
  - rewrite (subseteq_union_1_L {[x]}) in Hs by set_solver. lia.
  - apply NoDup_cons. split; [done|]. apply IH. rewrite size_union, size_singleton in Hs by set_solver. lia.
Qed.

(** Strings are determined by their bytes. *)
Lemma bytes_of_inj a b : bytes_of a = bytes_of b → a = b.
Proof.
  unfold bytes_of. intros Heq. apply (f_equal (fmap ascii_of_nat)) in Heq.
  rewrite <-!list_fmap_compose in Heq.
  assert (∀ l : list ascii, ascii_of_nat ∘ nat_of_ascii <$> l = l) as Hid.
  { induction l as [|c l IH]; csimpl; [done|]. by rewrite IH, ascii_nat_embedding. }
  rewrite !Hid in Heq. by rewrite <-(string_of_list_ascii_of_string a), Heq, string_of_list_ascii_of_string.
Qed.

Lemma length_bytes_of s : length (bytes_of s) = String.length s.
Proof. unfold bytes_of. rewrite length_fmap. induction s; simpl; congruence. Qed.

Lemma prefix_app_intro {A} (l k : list A) : l `prefix_of` l ++ k.
Proof. by exists k. Qed.
#[export] Hint Resolve prefix_app_intro : whale.

(** ** Positions of a log: position [n] is after [n] entries *)

Section segments.
Context {A : Type}.
Implicit Types (log : list A) (a b c : N).

(** The entries between two positions. *)
Definition segment log (from to : N) : list A :=
  take (N.to_nat to - N.to_nat from) (drop (N.to_nat from) log).

Lemma segment_app log a b c : (a <= b <= c)%N → segment log a c = segment log a b ++ segment log b c.
Proof.
  intros Hle. unfold segment. replace (N.to_nat b) with (N.to_nat a + (N.to_nat b - N.to_nat a)) at 3 by lia.
  rewrite <-drop_drop, take_take_drop. f_equal. lia.
Qed.

Lemma segment_nil log a b : (b <= a)%N → segment log a b = [].
Proof. intros Hle. unfold segment. by replace (N.to_nat b - N.to_nat a) with 0 by lia. Qed.

Lemma segment_lookup log a e : log !! N.to_nat a = Some e → segment log a (a + 1) = [e].
Proof.
  intros Hl. unfold segment. rewrite (drop_S _ _ _ Hl). by replace (N.to_nat (a + 1) - N.to_nat a) with 1 by lia.
Qed.

Lemma take_segment log a b n : take n (segment log a b) = segment log a (N.min b (a + N.of_nat n)).
Proof. unfold segment. rewrite take_take. f_equal. lia. Qed.

Lemma segment_prefix log more a b : (b <= N.of_nat (length log))%N → segment (log ++ more) a b = segment log a b.
Proof.
  intros Hle. unfold segment. destruct (decide (N.to_nat a <= length log)).
  - rewrite drop_app_le by done. apply take_app_le. rewrite length_drop. lia.
  - by replace (N.to_nat b - N.to_nat a) with 0 by lia.
Qed.

Lemma segment_to_end log start : segment log start (N.of_nat (length log)) = drop (N.to_nat start) log.
Proof. unfold segment. rewrite Nat2N.id. apply take_ge. rewrite length_drop. lia. Qed.

Lemma length_segment log a b :
  (a <= b)%N → (b <= N.of_nat (length log))%N → N.of_nat (length (segment log a b)) = (b - a)%N.
Proof. intros ??. unfold segment. rewrite length_take, length_drop. lia. Qed.

(** One more entry at the front. *)
Lemma segment_cons log a b e :
  (a < b)%N → log !! N.to_nat a = Some e → segment log a b = e :: segment log (a + 1) b.
Proof. intros Hlt Hl. rewrite (segment_app _ a (a + 1) b) by lia. by rewrite (segment_lookup _ _ _ Hl). Qed.
End segments.
