(* ===== verification/EventJournal.v ===== *)
(** * Streams of numbered events and their bounded journals

    The daemon keeps several streams of events: each event carries the cursor after it,
    a journal retains the last events within two limits, and the replay floor is the
    cursor before the first of them. This file has the loops that such a journal runs
    and their laws, for any type of cursors, events and journal entries. *)

From S2P Require Import Prelude.

(** ** The loops of a journal *)

Section runs.
Context {X : Type} (seq_of : X → N) (of_run : X → bool).

(** [filter(of_run).map(seq).max()] *)
Definition max_seq_of_run (journal : list X) : option N :=
  foldl (λ acc e, if of_run e then Some (N.max (default 0%N acc) (seq_of e)) else acc) None journal.

Lemma max_seq_None journal e : max_seq_of_run journal = None → e ∈ journal → of_run e = false.
Proof.
  unfold max_seq_of_run. induction journal as [|x journal IH] using rev_ind; [by intros _ ?%elem_of_nil|].
  rewrite foldl_app. simpl. destruct (of_run x) eqn:Hx; [done|].
  intros Hn [He| ->%list_elem_of_singleton]%elem_of_app; [by apply IH|done].
Qed.

Lemma max_seq_Some journal t :
  max_seq_of_run journal = Some t →
  (∃ e, e ∈ journal ∧ of_run e = true ∧ seq_of e = t) ∧ ∀ e, e ∈ journal → of_run e = true → (seq_of e <= t)%N.
Proof.
  unfold max_seq_of_run. revert t. induction journal as [|x journal IH] using rev_ind; intros t; [done|].
  rewrite foldl_app. simpl. setoid_rewrite elem_of_app. setoid_rewrite list_elem_of_singleton.
  destruct (of_run x) eqn:Hx; simpl.
  2:{ intros Hf. destruct (IH t Hf) as [(e & He & Hr & Hs) Hall]. split; [by exists e; auto|].
      intros e' [He'| ->] Hr'; [by apply Hall|congruence]. }
  destruct (foldl _ None journal) as [n|] eqn:Hf; simpl; intros [= <-].
  - destruct (IH n eq_refl) as [(e & He & Hr & Hs) Hall]. split.
    + destruct (N.max_spec n (seq_of x)) as [[? ->]|[? ->]]; [exists x|exists e]; naive_solver.
    + intros e' [He'| ->] Hr'; [specialize (Hall e' He' Hr'); lia|lia].
  - split; [exists x; split_and!; [by right|done|lia]|].
    intros e' [He'| ->] Hr'; [|lia]. pose proof (max_seq_None journal e' Hf He'). congruence.
Qed.
End runs.

Section loops.
Context {C X : Type} (size : X → nat) (after : X → C) (seq_of : X → N).

(** [while journal.len() > max_events || bytes > max_bytes { pop_front }], where the floor
    moves to the evicted entry. *)
Fixpoint evict_front (max_events max_bytes : nat) (journal : list X) (bytes : nat) (floor : C) : list X * nat * C :=
  match journal with
  | [] => ([], bytes, floor)
  | e :: rest =>
      if bool_decide (max_events < length journal) || bool_decide (max_bytes < bytes)
      then evict_front max_events max_bytes rest (bytes - size e) (after e)
      else (journal, bytes, floor)
  end.

(** [while front.seq <= through { pop_front }] *)
Fixpoint pop_front_through (through : N) (journal : list X) (bytes : nat) : list X * nat :=
  match journal with
  | [] => ([], bytes)
  | e :: rest =>
      if (seq_of e <=? through)%N then pop_front_through through rest (bytes - size e) else (journal, bytes)
  end.

Definition total_size (journal : list X) : nat := sum_list (size <$> journal).

Lemma total_size_cons e journal : total_size (e :: journal) = size e + total_size journal.
Proof. done. Qed.
Lemma total_size_app j1 j2 : total_size (j1 ++ j2) = total_size j1 + total_size j2.
Proof. induction j1 as [|e j1 IH]; [done|]. simpl. rewrite !total_size_cons, IH. lia. Qed.
End loops.

(** ** Streams *)

(** Cursors have a place (the stream they belong to) and a number in it; [es_next] is the
    checked successor. *)
Class EventStream (C E : Type) := {
  es_seq : C → N;
  es_place : relation C;
  es_next : C → result string C;
  es_cursor : E → C;
  es_valid : E → Prop;
}.

Class EventStreamLaws (C E : Type) `{!EventStream C E} := {
  es_place_equivalence : Equivalence (es_place (C := C) (E := E));
  es_cursor_eq (c c' : C) : es_place c c' → es_seq c = es_seq c' → c = c';
  es_next_Ok (c c' : C) : es_next c = Ok c' → es_place c c' ∧ es_seq c' = (es_seq c + 1)%N;
}.
#[export] Existing Instance es_place_equivalence.

Section chains.
Context {C E : Type} `{EventStreamLaws C E}.
Implicit Types (c a m : C) (e : E) (es : list E).
Let place : relation C := es_place (E := E).
Let seq : C → N := es_seq (E := E).

(** The events lead from [c] to [c'], one cursor after the other. *)
Fixpoint leads c es c' : Prop :=
  match es with
  | [] => c = c'
  | e :: es => es_next (E := E) c = Ok (es_cursor e) ∧ es_valid e ∧ leads (es_cursor e) es c'
  end.

Lemma leads_app c es1 es2 c' : leads c (es1 ++ es2) c' ↔ ∃ m, leads c es1 m ∧ leads m es2 c'.
Proof. revert c. induction es1 as [|e es1 IH]; intros c; simpl; [naive_solver|]. rewrite IH. naive_solver. Qed.

Lemma leads_place c es c' : leads c es c' → place c c'.
Proof.
  revert c. induction es as [|e es IH]; intros c; simpl; [intros ->; unfold place; reflexivity|].
  intros (Hn & _ & Hch). apply es_next_Ok in Hn as [Hp _]. unfold place in *. etrans; [exact Hp|by apply IH].
Qed.

Lemma leads_seq c es c' : leads c es c' → seq c' = (seq c + N.of_nat (length es))%N.
Proof.
  revert c. induction es as [|e es IH]; intros c; simpl; [intros ->; lia|].
  intros (Hn & _ & Hch). apply es_next_Ok in Hn as [_ Hs]. rewrite (IH _ Hch). unfold seq. lia.
Qed.

Lemma leads_bounds c es c' e :
  leads c es c' → e ∈ es →
  (seq c < seq (es_cursor e) <= seq c')%N ∧ place c (es_cursor e) ∧ es_valid e.
Proof.
  intros Hch [es1 [es2 ->]]%list_elem_of_split. apply leads_app in Hch as (m & H1 & Hn & Hv & H2).
  apply es_next_Ok in Hn as [Hp Hs]. apply leads_seq in H1 as Hs1. apply leads_seq in H2. apply leads_place in H1.
  unfold seq, place in *. split_and!; [lia|lia|by etrans|done].
Qed.

(** The chain passes every cursor between its ends. *)
Lemma leads_split c es c' m :
  leads c es c' → place c m → (seq c <= seq m <= seq c')%N →
  ∃ es1 es2, es = es1 ++ es2 ∧ leads c es1 m ∧ leads m es2 c'.
Proof.
  revert c. induction es as [|e es IH]; intros c; simpl.
  - intros <- Hp Hle. exists [], []. assert (c = m) as -> by (apply (es_cursor_eq (E := E)); [done|unfold seq in *; lia]). done.
  - intros (Hn & Hv & Hch) Hp Hle. apply es_next_Ok in Hn as Hn'. destruct Hn' as [Hp' Hs].
    destruct (decide (seq m = seq c)) as [Heq|Hne].
    + exists [], (e :: es). assert (c = m) as -> by (by apply (es_cursor_eq (E := E))). done.
    + destruct (IH (es_cursor e)) as (es1 & es2 & -> & H1 & H2); [done| |unfold seq in *; lia|].
      { unfold place in *. etrans; [by symmetry|done]. }
      exists (e :: es1), es2. done.
Qed.

(** The filter of a replay page selects the part of the chain between two cursors. *)
Lemma leads_filter c es c' a (t : C) :
  leads c es c' → place c a → place c t → (seq c <= seq a <= seq t)%N → (seq t <= seq c')%N →
  leads a (List.filter (λ e, (seq a <? seq (es_cursor e))%N && (seq (es_cursor e) <=? seq t)%N) es) t.
Proof.
  intros Hch Ha Ht H1 H3. unfold place in *.
  destruct (leads_split _ _ _ a Hch) as (es1 & r & -> & Hca & Har); [done|lia|].
  destruct (leads_split _ _ _ t Har) as (es2 & es3 & -> & Hat & Htc); [by etrans; [symmetry|]|lia|].
  rewrite !List.filter_app, (list_filter_nil_b _ es1), (list_filter_all_b _ es2), (list_filter_nil_b _ es3).
  - by rewrite app_nil_r.
  - intros e He. destruct (leads_bounds _ _ _ _ Htc He) as [? _]. apply andb_false_iff. right. apply N.leb_gt. lia.
  - intros e He. destruct (leads_bounds _ _ _ _ Hat He) as [? _]. prove_bool.
  - intros e He. destruct (leads_bounds _ _ _ _ Hca He) as [? _]. apply andb_false_iff. left. apply N.ltb_ge. lia.
Qed.

Lemma leads_last c es c' : leads c es c' → default c (es_cursor <$> last es) = c'.
Proof.
  destruct es as [|e es] using rev_ind; [done|]. rewrite last_snoc. simpl. by intros (m & _ & _ & _ & Hch)%leads_app.
Qed.

Lemma leads_take c es c' n : leads c es c' → leads c (take n es) (default c (es_cursor <$> last (take n es))).
Proof.
  intros Hch. rewrite <-(take_drop n es) in Hch. apply leads_app in Hch as (m & Hch & _).
  by rewrite (leads_last _ _ _ Hch).
Qed.

(** ** Journals *)

Context {X : Type} (event : X → E) (size : X → nat).
Let after (x : X) : C := es_cursor (event x).
Let seq_of (x : X) : N := seq (after x).

Lemma evict_front_leads max_events max_bytes journal floor cur :
  leads floor (event <$> journal) cur →
  let '(journal', bytes', floor') := evict_front size after max_events max_bytes journal (total_size size journal) floor in
  leads floor' (event <$> journal') cur ∧ bytes' = total_size size journal'
  ∧ length journal' <= max_events ∧ bytes' <= max_bytes ∧ ∃ pre, journal = pre ++ journal'.
Proof.
  revert floor. induction journal as [|e journal IH]; intros floor Hch; simpl.
  { split_and!; [done|done|lia|unfold total_size; simpl; lia|by exists []]. }
  destruct (_ || _) eqn:Hc.
  - destruct Hch as (_ & _ & Hch). rewrite total_size_cons.
    replace (size e + total_size size journal - size e) with (total_size size journal) by lia.
    specialize (IH (after e) Hch). destruct (evict_front _ _ _ _ _ _ _) as [[j' b'] f'].
    destruct IH as (? & ? & ? & ? & pre & ->). split_and!; try done. by exists (e :: pre).
  - apply orb_false_iff in Hc as [H1 H2]. apply bool_decide_eq_false in H1, H2.
    split_and!; [done|done|simpl in *; lia|lia|by exists []].
Qed.

Lemma pop_front_app (t : N) pre post :
  (∀ x, x ∈ pre → (seq_of x <= t)%N) → (∀ x, x ∈ post → (t < seq_of x)%N) →
  pop_front_through size seq_of t (pre ++ post) (total_size size (pre ++ post)) = (post, total_size size post).
Proof.
  intros Hpre Hpost. induction pre as [|e pre IH]; simpl.
  - destruct post as [|e post]; [done|]. simpl. rewrite (proj2 (N.leb_gt _ _)); [done|]. apply Hpost. left.
  - rewrite (proj2 (N.leb_le _ _)) by (apply Hpre; left). rewrite total_size_cons.
    replace (_ + _ - _) with (total_size size (pre ++ post)) by lia. apply IH. intros x ?. apply Hpre. by right.
Qed.

(** Popping through an entry leaves the chain after it, which starts at [floor']. *)
Lemma pop_front_leads (t : N) journal floor floor' cur x :
  leads floor (event <$> journal) cur → x ∈ journal → seq_of x = t → place floor floor' → seq floor' = t →
  ∃ pre post, journal = pre ++ post ∧
    pop_front_through size seq_of t journal (total_size size journal) = (post, total_size size post) ∧
    leads floor' (event <$> post) cur ∧ (seq floor <= t <= seq cur)%N ∧
    (∀ y, y ∈ pre → (seq_of y <= t)%N) ∧ (∀ y, y ∈ post → (t < seq_of y)%N).
Proof.
  intros Hch [l1 [l2 ->]]%list_elem_of_split Ht Hp' Hs'. rewrite fmap_app in Hch. simpl in Hch.
  apply leads_app in Hch as (m & H1 & Hn & _ & H2). apply es_next_Ok in Hn as [Hp Hs].
  assert (floor' = es_cursor (event x)) as ->.
  { apply (es_cursor_eq (E := E)); [|unfold seq_of, seq, after in *; congruence].
    apply leads_place in H1. unfold place in *. etrans; [by symmetry|]. etrans; [exact H1|exact Hp]. }
  assert (∀ y, y ∈ l2 → (t < seq_of y)%N) as Hpost.
  { intros y He. rewrite <-Ht. eapply leads_bounds; [exact H2|]. by apply list_elem_of_fmap_2. }
  assert (∀ y, y ∈ l1 ++ [x] → (seq_of y <= t)%N) as Hpre.
  { intros y [He| ->%list_elem_of_singleton]%elem_of_app; [|lia].
    eapply (leads_bounds _ _ _ (event y)) in H1; [|by apply list_elem_of_fmap_2].
    unfold seq_of, seq, after in *. lia. }
  exists (l1 ++ [x]), l2. split_and!; [by rewrite <-app_assoc| |done| | |done|done].
  - rewrite (app_assoc l1 [x] l2 : l1 ++ x :: l2 = _). by apply pop_front_app.
  - apply leads_seq in H1. unfold seq_of, seq, after in *. lia.
  - apply leads_seq in H2. unfold seq_of, seq, after in *. lia.
Qed.
End chains.
