(* ===== verification/Protocol.v ===== *)
(** * JSON values and the data of the protocol

    The documented data type [serde_json::Value] and the accessors of it that
    the modelled code calls; after it the data of [crates/whale-protocol/src] with
    their validators.  An object is a finite map: [serde_json] compares
    objects without regard to the order of their members.  A number keeps the
    three-way representation of [serde_json::Number]; a finite [f64] is named by
    the bits of its value (with [-0.0] read as [0.0]), so that equality of the
    model is [==] of the code. *)

From S2P Require Import Prelude.

Inductive Number :=
  | PosInt (n : N)
  | NegInt (z : Z)
  | Float (bits : N).

#[export] Instance Number_eq_dec : EqDecision Number.
Proof. solve_decision. Defined.

Inductive Value :=
  | Null
  | Bool (b : bool)
  | Num (n : Number)
  | Str (s : string)
  | Array (l : list Value)
  | Object (m : gmap string Value).

#[export] Instance Value_eq_dec : EqDecision Value.
Proof.
  refine (fix go (v1 v2 : Value) {struct v1} : Decision (v1 = v2) :=
    let _ : EqDecision Value := go in
    match v1, v2 with
    | Null, Null => left _
    | Bool b1, Bool b2 => cast_if (decide (b1 = b2))
    | Num n1, Num n2 => cast_if (decide (n1 = n2))
    | Str s1, Str s2 => cast_if (decide (s1 = s2))
    | Array l1, Array l2 => cast_if (decide (l1 = l2))
    | Object m1, Object m2 => cast_if (decide (m1 = m2))
    | _, _ => right _
    end);
    repeat match goal with H : EqDecision _ |- _ => clear H end; clear go; abstract congruence.
Defined.

(** [serde_json::Map<String, Value>] *)
Abbreviation Map := (gmap string Value).

Definition is_null (v : Value) : bool := match v with Null => true | _ => false end.
Definition is_object (v : Value) : bool := match v with Object _ => true | _ => false end.
Definition as_u64 (v : Value) : option N := match v with Num (PosInt n) => Some n | _ => None end.
Definition as_bool (v : Value) : option bool := match v with Bool b => Some b | _ => None end.
Definition as_array (v : Value) : option (list Value) := match v with Array l => Some l | _ => None end.
Definition as_object (v : Value) : option Map := match v with Object m => Some m | _ => None end.

(** [Value::get] with a string key *)
Definition get (key : string) (v : Value) : option Value :=
  match v with Object m => m !! key | _ => None end.

(** [Value::pointer]; the tokens used by the code are no array indices. *)
Fixpoint pointer (tokens : list string) (v : Value) : option Value :=
  match tokens with
  | [] => Some v
  | t :: tokens => w ← get t v; pointer tokens w
  end.

(** [Map::remove]: the removed member and the map without it. *)
Definition remove (key : string) (m : Map) : option Value * Map := (m !! key, delete key m).

Definition map_is_empty (m : Map) : bool := m == ∅.
Definition contains_key (key : string) (m : Map) : bool := bool_decide (is_Some (m !! key)).

Definition u64_value (n : N) : Value := Num (PosInt n).

Lemma as_u64_value n : as_u64 (u64_value n) = Some n.
Proof. reflexivity. Qed.
Lemma as_object_Some v m : as_object v = Some m ↔ v = Object m.
Proof. destruct v; naive_solver. Qed.

Example pointer_example :
  pointer ["session"; "limits"]
    (Object {["session" := Object {["limits" := u64_value 3]}]}) = Some (u64_value 3).
Proof. vm_compute. reflexivity. Qed.
Example value_eq_example :
  (Object {["a" := Array [Null; Bool true]; "b" := Str "x"]} ==
   Object {["b" := Str "x"; "a" := Array [Null; Bool true]]}) = true.
Proof. vm_compute. reflexivity. Qed.

(** ** Protocol data: canonical items, runs, recovery and retention contracts

    The data types of [crates/whale-protocol/src] that the store, the core and
    the daemon share ([canonical.rs], [contexts.rs], [events.rs], [rpc.rs],
    [runs.rs], [recovery.rs], [retention.rs]) and the validators of these files.
    Struct fields carry a short prefix per struct and enum constructors a prefix
    per enum, because Rocq has one name space where Rust has one per type. *)

(** A floating-point number by the bits of its value ([-0.0] read as [0.0]);
    decoded JSON holds no NaN. *)
Definition f32 := N.
Definition f64 := N.

(** ** [canonical.rs] *)

Definition ItemId := string.

Inductive MessagePhase := Commentary | FinalAnswer.

Inductive CanonicalContent :=
  | ContentText (text : string)
  | ContentImage (mime_type : string) (data : option string) (uri : option string)
  | ContentAudio (mime_type : string) (data : option string) (uri : option string).

Inductive CanonicalToolOutput :=
  | OutputText (text : string)
  | OutputStructured (data : Value)
  | OutputBlocks (blocks : list CanonicalContent).

Inductive CanonicalItem :=
  | UserMessage (id : ItemId) (content : list CanonicalContent)
  | AssistantMessage (id : ItemId) (content : list CanonicalContent) (phase : MessagePhase)
  | Reasoning (id : ItemId) (thinking : string) (signature : option string)
      (encrypted_content : option string)
  | ToolCall (id : ItemId) (call_id : string) (namespace : option string) (name : string)
      (arguments : option Value) (raw_arguments : string)
  | ToolResult (id : ItemId) (call_id : string) (output : CanonicalToolOutput) (is_error : bool).

#[export] Instance MessagePhase_eq_dec : EqDecision MessagePhase.
Proof. solve_decision. Defined.
#[export] Instance CanonicalContent_eq_dec : EqDecision CanonicalContent.
Proof. solve_decision. Defined.
#[export] Instance CanonicalToolOutput_eq_dec : EqDecision CanonicalToolOutput.
Proof. solve_decision. Defined.
#[export] Instance CanonicalItem_eq_dec : EqDecision CanonicalItem.
Proof. solve_decision. Defined.

(** [CanonicalItem::id] *)
Definition item_id (self : CanonicalItem) : string :=
  match self with
  | UserMessage id _ => id
  | AssistantMessage id _ _ => id
  | Reasoning id _ _ _ => id
  | ToolCall id _ _ _ _ _ => id
  | ToolResult id _ _ _ => id
  end.

(** The convenience constructors; [new_item_id()] is the argument [id]. *)
Definition user_text (id : ItemId) (text : string) : CanonicalItem := UserMessage id [ContentText text].
Definition assistant_text (id : ItemId) (text : string) (phase : MessagePhase) : CanonicalItem :=
  AssistantMessage id [ContentText text] phase.
Definition tool_result (id : ItemId) (call_id : string) (output : CanonicalToolOutput)
    (is_error : bool) : CanonicalItem :=
  ToolResult id call_id output is_error.

Definition is_user_message (i : CanonicalItem) : bool :=
  match i with UserMessage _ _ => true | _ => false end.
Definition is_tool_call (i : CanonicalItem) : bool :=
  match i with ToolCall _ _ _ _ _ _ => true | _ => false end.
Definition is_tool_result (i : CanonicalItem) : bool :=
  match i with ToolResult _ _ _ _ => true | _ => false end.

(** The identity and the tool name of a call item. *)
Definition tool_call_id (i : CanonicalItem) : option string :=
  match i with ToolCall _ call_id _ _ _ _ => Some call_id | _ => None end.
Definition tool_call_name (i : CanonicalItem) : option string :=
  match i with ToolCall _ _ _ name _ _ => Some name | _ => None end.
(** The call a result item answers. *)
Definition tool_result_call (i : CanonicalItem) : option string :=
  match i with ToolResult _ call_id _ _ => Some call_id | _ => None end.

(** ** [contexts.rs] *)

Record RunContextInfo := {
  ctx_agent_name : option string;
  ctx_thread_id : string;
  ctx_turn_id : string;
  ctx_deadline_unix_ms : option N;
}.

Inductive ContextPolicyConfig := FullHistory | RecentTurns (max_turns : nat) | HostPolicy.

Definition ContextPolicyConfig_validate (self : ContextPolicyConfig) : result string () :=
  match self with
  | RecentTurns 0 => Err "Context policy max_turns must be positive"
  | _ => Ok ()
  end.

Record ContextBuildRequest := {
  cbr_context : RunContextInfo;
  cbr_step_index : nat;
  cbr_model : string;
  cbr_system_prompt : option string;
  cbr_history : list CanonicalItem;
}.

Record ModelContext := {
  mc_system_prompt : option string;
  mc_items : list CanonicalItem;
}.

Record ToolExecutionRecord := {
  exec_call_id : string;
  exec_original_arguments : Value;
  exec_arguments : Value;
}.
#[export] Instance ToolExecutionRecord_eq_dec : EqDecision ToolExecutionRecord.
Proof. solve_decision. Defined.

(** ** [events.rs] *)

Record UsageMetrics := {
  input_tokens : N;
  output_tokens : N;
  reasoning_tokens : N;
  cache_creation_input_tokens : N;
  cache_read_input_tokens : N;
}.
#[export] Instance UsageMetrics_eq_dec : EqDecision UsageMetrics.
Proof. solve_decision. Defined.

Definition usage_default : UsageMetrics :=
  {| input_tokens := 0; output_tokens := 0; reasoning_tokens := 0;
     cache_creation_input_tokens := 0; cache_read_input_tokens := 0 |}.

Inductive AgentStreamEvent :=
  | EvToolProgress (turn_id call_id message : string) (progress : option f64)
  | EvToolExecutionStarted (turn_id call_id : string) (original_arguments arguments : Value)
  | EvTurnStarted (turn_id thread_id : string)
  | EvItemStarted (turn_id : string) (item_id : ItemId) (item_type : string)
      (phase : option MessagePhase)
  | EvTextDelta (turn_id : string) (item_id : ItemId) (delta : string)
  | EvReasoningDelta (turn_id : string) (item_id : ItemId) (delta : string)
  | EvReasoningSignature (turn_id : string) (item_id : ItemId) (signature : string)
  | EvToolCallDelta (turn_id : string) (item_id : ItemId) (call_id delta : string)
  | EvItemCompleted (turn_id : string) (item : CanonicalItem)
  | EvApprovalRequested (turn_id request_id : string) (tool_call : CanonicalItem)
      (reason : option string)
  | EvTurnCompleted (turn_id thread_id : string) (usage : UsageMetrics)
  | EvTurnFailed (turn_id thread_id error_code error_message : string).
#[export] Instance AgentStreamEvent_eq_dec : EqDecision AgentStreamEvent.
Proof. solve_decision. Defined.

(** ** [rpc.rs]: turn options and results *)

Record RunTurnOptions := {
  opt_model : option string;
  opt_temperature : option f32;
  opt_max_tokens : option N;
  opt_reasoning_effort : option string;
  opt_thinking_budget : option N;
  opt_prompt_caching : option bool;
}.
#[export] Instance RunTurnOptions_eq_dec : EqDecision RunTurnOptions.
Proof. solve_decision. Defined.

Inductive TurnStatus :=
  | TurnStatusCompleted
  | TurnStatusFailed
  | TurnStatusInterrupted
  | TurnStatusRequiresApproval.
#[export] Instance TurnStatus_eq_dec : EqDecision TurnStatus.
Proof. solve_decision. Defined.

Record RunTurnResult := {
  res_turn_id : string;
  res_thread_id : string;
  res_status : TurnStatus;
  res_items : list CanonicalItem;
  res_usage : UsageMetrics;
}.
#[export] Instance RunTurnResult_eq_dec : EqDecision RunTurnResult.
Proof. solve_decision. Defined.

(** ** [runs.rs] *)

Record StartTurnParams := {
  turn_thread_id : string;
  turn_turn_id : string;
  turn_input_items : list CanonicalItem;
  turn_options : option RunTurnOptions;
  turn_max_steps : nat;
  turn_timeout_ms : option N;
}.
#[export] Instance StartTurnParams_eq_dec : EqDecision StartTurnParams.
Proof. solve_decision. Defined.

Inductive RunStatus :=
  | RunRunning
  | RunWaitingApproval
  | RunCancelling
  | RunCompleted
  | RunFailed
  | RunCancelled.
#[export] Instance RunStatus_eq_dec : EqDecision RunStatus.
Proof. solve_decision. Defined.

Definition is_terminal (self : RunStatus) : bool :=
  match self with RunCompleted | RunFailed | RunCancelled => true | _ => false end.

Record RunFailure := { fail_code : string; fail_message : string }.
#[export] Instance RunFailure_eq_dec : EqDecision RunFailure.
Proof. solve_decision. Defined.

Record PendingApproval := {
  pa_request_id : string;
  pa_tool_call : CanonicalItem;
  pa_reason : option string;
}.
#[export] Instance PendingApproval_eq_dec : EqDecision PendingApproval.
Proof. solve_decision. Defined.

Record RunSnapshot := {
  snap_tool_executions : list ToolExecutionRecord;
  snap_thread_id : string;
  snap_turn_id : string;
  snap_status : RunStatus;
  snap_items : list CanonicalItem;
  snap_usage : UsageMetrics;
  snap_pending_approvals : list PendingApproval;
  snap_last_seq : N;
  snap_result : option RunTurnResult;
  snap_error : option RunFailure;
}.
#[export] Instance RunSnapshot_eq_dec : EqDecision RunSnapshot.
Proof. solve_decision. Defined.

Inductive RunEventPayload :=
  | RunStream (event : AgentStreamEvent)
  | RunFinished (snapshot : RunSnapshot).
#[export] Instance RunEventPayload_eq_dec : EqDecision RunEventPayload.
Proof. solve_decision. Defined.

Record RunEvent := {
  re_thread_id : string;
  re_turn_id : string;
  re_seq : N;
  re_payload : RunEventPayload;
}.
#[export] Instance RunEvent_eq_dec : EqDecision RunEvent.
Proof. solve_decision. Defined.

(** ** [recovery.rs] *)

Record RecoveryKey := { key_recovery_id : string; key_secret : string }.
#[export] Instance RecoveryKey_eq_dec : EqDecision RecoveryKey.
Proof. solve_decision. Defined.

Record SessionRunDefaults := { def_max_steps : nat; def_timeout_ms : option N }.

Definition SessionRunDefaults_validate (self : SessionRunDefaults) : result string () :=
  reject_if ((def_max_steps self == 0) || (def_timeout_ms self == Some 0%N))
    "Run defaults must be positive".

Definition validate_revision (revision : N) : result string () :=
  reject_if (revision == 0%N) "expected_revision must be positive".

Record InspectRecoveryParams := { inspect_key : RecoveryKey }.
Record AcknowledgeUnknownParams := {
  ack_key : RecoveryKey;
  ack_expected_revision : N;
  ack_execution_ids : list string;
}.
Record ForgetRecoveryParams := { forget_key : RecoveryKey; forget_expected_revision : N }.
Record ForgetRecoveryResult := { forgot_recovery_id : string; forgot_forgotten : bool }.

Record ModelInputRecord := {
  step_id : string;
  step_index : nat;
  history_revision : N;
  request : Value;
  completed : bool;
  usage : option UsageMetrics;
}.
#[export] Instance ModelInputRecord_eq_dec : EqDecision ModelInputRecord.
Proof. solve_decision. Defined.

Record RecoveredRun := {
  rr_snapshot : RunSnapshot;
  rr_model_inputs : list ModelInputRecord;
  rr_effective_options : Value;
}.

Record UnknownExecution := {
  unk_execution_id : string;
  unk_turn_id : string;
  unk_call_id : string;
  unk_tool_name : string;
  unk_original_arguments : option Value;
  unk_arguments : option Value;
  unk_reason : string;
  unk_acknowledged : bool;
}.
#[export] Instance UnknownExecution_eq_dec : EqDecision UnknownExecution.
Proof. solve_decision. Defined.

Record RecoverySnapshot := {
  rs_recovery_id : string;
  rs_revision : N;
  rs_epoch : N;
  rs_attached : bool;
  rs_configuration : Value;
  rs_history : list CanonicalItem;
  rs_runs : list RecoveredRun;
  rs_unknown_executions : list UnknownExecution;
}.

(** ** [retention.rs] *)

Record RunRetentionPolicy := {
  terminal_ttl_ms : option N;
  max_terminal_runs_per_session : option N;
}.
Record StoreRetentionPolicy := {
  detached_ttl_ms : option N;
  max_retained_sessions : option N;
  max_retained_payload_bytes : option N;
}.
Record RetentionPolicy := {
  sweep_interval_ms : N;
  policy_runs : RunRetentionPolicy;
  policy_store : StoreRetentionPolicy;
}.
Record SessionLimits := {
  max_accepted_turns : option N;
  max_history_bytes : option N;
  max_model_request_bytes : option N;
}.

(** One arm of the macro [validate_options!] *)
Definition positive_option (field : option N) (name : string) : result string () :=
  reject_if (field == Some 0%N) (name +:+ " must be positive").

Definition RunRetentionPolicy_validate (self : RunRetentionPolicy) : result string () :=
  positive_option (terminal_ttl_ms self) "terminal_ttl_ms";;
  positive_option (max_terminal_runs_per_session self) "max_terminal_runs_per_session".
Definition StoreRetentionPolicy_validate (self : StoreRetentionPolicy) : result string () :=
  positive_option (detached_ttl_ms self) "detached_ttl_ms";;
  positive_option (max_retained_sessions self) "max_retained_sessions";;
  positive_option (max_retained_payload_bytes self) "max_retained_payload_bytes".
Definition SessionLimits_validate (self : SessionLimits) : result string () :=
  positive_option (max_accepted_turns self) "max_accepted_turns";;
  positive_option (max_history_bytes self) "max_history_bytes";;
  positive_option (max_model_request_bytes self) "max_model_request_bytes".

Definition RunRetentionPolicy_is_enabled (self : RunRetentionPolicy) : bool :=
  is_some (terminal_ttl_ms self) || is_some (max_terminal_runs_per_session self).
Definition StoreRetentionPolicy_is_enabled (self : StoreRetentionPolicy) : bool :=
  is_some (detached_ttl_ms self) || is_some (max_retained_sessions self) ||
  is_some (max_retained_payload_bytes self).

Definition RetentionPolicy_validate (self : RetentionPolicy) : result string () :=
  reject_if (sweep_interval_ms self == 0%N) "sweep_interval_ms must be positive";;
  RunRetentionPolicy_validate (policy_runs self);;
  StoreRetentionPolicy_validate (policy_store self).
Definition RetentionPolicy_is_enabled (self : RetentionPolicy) : bool :=
  RunRetentionPolicy_is_enabled (policy_runs self) || StoreRetentionPolicy_is_enabled (policy_store self).

(** ** What the code takes from other crates

    [uuid_parse_ok s] is [uuid::Uuid::parse_str(s).is_ok()], [sha256_hex s] is
    [format!("{:x}", Sha256::digest(s))], [item_json_len] and [value_json_len]
    are the numbers of bytes [serde_json] writes for an item and for a value, and
    the decoders are the [Deserialize] instances that serde derives, with the
    text of the error. *)
Class Externals := {
  uuid_parse_ok : string → bool;
  sha256_hex : string → string;
  item_json_len : CanonicalItem → N;
  value_json_len : Value → N;
  decode_session_limits : Value → result string SessionLimits;
  decode_run_defaults : Value → result string SessionRunDefaults;
}.

Section with_externals.
Context `{Externals}.

(** [RecoveryKey::validate] *)
Definition RecoveryKey_validate (self : RecoveryKey) : result string () :=
  reject_if (negb (uuid_parse_ok (key_recovery_id self)) ||
             (String.length (key_recovery_id self) != 36))
    "Recovery ID must be a UUID";;
  reject_if ((String.length (key_secret self) != 64) || negb (all_hex (key_secret self)))
    "Recovery secret must contain 64 hexadecimal characters".

(** The check of [StartThreadParams::session_id] of a persistent session. *)
Definition validate_fresh_thread (session_id : option string) : result string () :=
  reject_if (is_none_or session_id (λ id,
      negb (uuid_parse_ok id) || (String.length id != 36)))
    "Persistent sessions require a fresh client-generated UUID session_id".

Definition InspectRecoveryParams_validate (self : InspectRecoveryParams) : result string () :=
  RecoveryKey_validate (inspect_key self).

Definition AcknowledgeUnknownParams_validate (self : AcknowledgeUnknownParams) : result string () :=
  RecoveryKey_validate (ack_key self);;
  validate_revision (ack_expected_revision self);;
  reject_if ((ack_execution_ids self == []) ||
             existsb (λ id, str_is_empty id || (trim id != id)) (ack_execution_ids self) ||
             any_reinserted ∅ (ack_execution_ids self))
    "execution_ids must be nonempty, unique and unpadded".

Definition ForgetRecoveryParams_validate (self : ForgetRecoveryParams) : result string () :=
  RecoveryKey_validate (forget_key self);;
  validate_revision (forget_expected_revision self).

(** The byte counter of [serialized_bytes]: it overflows past [u64::MAX]. *)
Definition serialized_bytes (json_len : N) : result string N :=
  if (json_len <=? u64_max)%N then Ok json_len else Err "Serialized byte count overflow".

(** A JSON array: the brackets, the elements and the commas between them. *)
Definition array_json_len (lens : list N) : N :=
  (2 + foldr N.add 0 lens + N.of_nat (length lens - 1))%N.

(** [history_bytes]: the proposed history as one JSON array *)
Definition history_bytes (history input : list CanonicalItem) : result string N :=
  serialized_bytes (array_json_len (item_json_len <$> history ++ input)).

Lemma history_bytes_app history input : history_bytes history input = history_bytes (history ++ input) [].
Proof. unfold history_bytes. by rewrite app_nil_r. Qed.

Lemma array_json_len_mono l k : (array_json_len l <= array_json_len (l ++ k))%N.
Proof.
  unfold array_json_len. rewrite foldr_app, length_app.
  enough (foldr N.add 0 l <= foldr N.add (foldr N.add 0 k) l)%N by lia.
  induction l as [|x l IH]; simpl; lia.
Qed.
End with_externals.
