(* ===== verification/StoreState.v ===== *)
(** * The durable session record ([crates/whale-store/src/state.rs])

    [SessionRecord] with its validator and its four transitions [begin],
    [mutate], [finalize] and [recover].  A method taking [&mut self] is a
    function that returns the new record; on an error the callers of the code
    drop the record they were mutating, so an error carries none.  The two
    [Uuid::new_v4()] of [mutate] are arguments. *)

From S2P Require Import Prelude Protocol.

(** ** [lib.rs]: the error type *)

Inductive StoreError :=
  | LimitExceeded (what : string)
  | Invalid (what : string)
  | NotFound
  | Unauthorized
  | Conflict
  | Active
  | UnknownExecutions
  | StaleLease
  | Forgotten
  | Io (what : string)
  | Poisoned (what : string).
#[export] Instance StoreError_eq_dec : EqDecision StoreError.
Proof. solve_decision. Defined.

Abbreviation Result := (result StoreError).

(** ** Data *)

Record StoredCall := {
  sc_call_id : string;
  sc_step_id : string;
  sc_tool_name : string;
  sc_result_item_id : string;
  sc_execution_id : string;
  sc_intent : option ToolExecutionRecord;
  sc_outcome : option CanonicalItem;
  sc_committed : bool;
}.

Record StoredRun := {
  run_params : StartTurnParams;
  run_snapshot : RunSnapshot;
  run_effective_options : Value;
  run_history_start : nat;
  run_model_inputs : list ModelInputRecord;
  run_calls : list StoredCall;
}.

Record SessionRecord := {
  sr_schema_version : N;
  sr_created_at_ms : option N;
  sr_updated_at_ms : option N;
  sr_detached_since_ms : option N;
  sr_retired_at_ms : option N;
  sr_retirement_reason : option string;
  sr_recovery_id : string;
  sr_secret_digest : string;
  sr_revision : N;
  sr_epoch : N;
  sr_owner : option string;
  sr_thread_id : option string;
  sr_historical_thread_ids : list string;
  sr_forgotten : bool;
  sr_configuration : Value;
  sr_history : list CanonicalItem;
  sr_runs : gmap string StoredRun;
  sr_unknown_executions : list UnknownExecution;
}.

#[export] Instance StoredCall_eq_dec : EqDecision StoredCall.
Proof. solve_decision. Defined.
#[export] Instance StoredRun_eq_dec : EqDecision StoredRun.
Proof. solve_decision. Defined.
#[export] Instance SessionRecord_eq_dec : EqDecision SessionRecord.
Proof. solve_decision. Defined.

Inductive RunMutation :=
  | ModelInput (step_id : string) (step_index : nat) (request : Value)
  | ModelItem (step_id : string) (item : CanonicalItem)
  | ModelStepFinished (step_id : string) (usage : UsageMetrics)
  | DispatchIntent (call_id : string) (execution : ToolExecutionRecord)
  | ToolOutcome (call_id : string) (result : CanonicalItem)
  | ToolBatch (call_ids : list string).

Record CommitReceipt := { receipt_revision : N; receipt_result_item : option CanonicalItem }.
Record FinalizedRun := { fin_snapshot : RunSnapshot; fin_history : list CanonicalItem }.

(** Field updates *)

Definition sc_eta (c : StoredCall) : StoredCall :=
  {| sc_call_id := sc_call_id c; sc_step_id := sc_step_id c; sc_tool_name := sc_tool_name c;
     sc_result_item_id := sc_result_item_id c; sc_execution_id := sc_execution_id c;
     sc_intent := sc_intent c; sc_outcome := sc_outcome c; sc_committed := sc_committed c |}.
Definition set_intent (v : option ToolExecutionRecord) (c : StoredCall) : StoredCall :=
  ltac:(update_field sc_eta sc_intent v c).
Definition set_outcome (v : option CanonicalItem) (c : StoredCall) : StoredCall :=
  ltac:(update_field sc_eta sc_outcome v c).
Definition set_committed (v : bool) (c : StoredCall) : StoredCall :=
  ltac:(update_field sc_eta sc_committed v c).

Definition run_eta (r : StoredRun) : StoredRun :=
  {| run_params := run_params r; run_snapshot := run_snapshot r;
     run_effective_options := run_effective_options r; run_history_start := run_history_start r;
     run_model_inputs := run_model_inputs r; run_calls := run_calls r |}.
Definition set_snapshot (v : RunSnapshot) (r : StoredRun) : StoredRun :=
  ltac:(update_field run_eta run_snapshot v r).
Definition set_model_inputs (v : list ModelInputRecord) (r : StoredRun) : StoredRun :=
  ltac:(update_field run_eta run_model_inputs v r).
Definition set_calls (v : list StoredCall) (r : StoredRun) : StoredRun :=
  ltac:(update_field run_eta run_calls v r).

Definition snap_eta (s : RunSnapshot) : RunSnapshot :=
  {| snap_tool_executions := snap_tool_executions s; snap_thread_id := snap_thread_id s;
     snap_turn_id := snap_turn_id s; snap_status := snap_status s; snap_items := snap_items s;
     snap_usage := snap_usage s; snap_pending_approvals := snap_pending_approvals s;
     snap_last_seq := snap_last_seq s; snap_result := snap_result s; snap_error := snap_error s |}.
Definition set_items (v : list CanonicalItem) (s : RunSnapshot) : RunSnapshot :=
  ltac:(update_field snap_eta snap_items v s).
Definition set_status (v : RunStatus) (s : RunSnapshot) : RunSnapshot :=
  ltac:(update_field snap_eta snap_status v s).
Definition set_error (v : option RunFailure) (s : RunSnapshot) : RunSnapshot :=
  ltac:(update_field snap_eta snap_error v s).

Definition sr_eta (r : SessionRecord) : SessionRecord :=
  {| sr_schema_version := sr_schema_version r; sr_created_at_ms := sr_created_at_ms r;
     sr_updated_at_ms := sr_updated_at_ms r; sr_detached_since_ms := sr_detached_since_ms r;
     sr_retired_at_ms := sr_retired_at_ms r; sr_retirement_reason := sr_retirement_reason r;
     sr_recovery_id := sr_recovery_id r; sr_secret_digest := sr_secret_digest r;
     sr_revision := sr_revision r; sr_epoch := sr_epoch r; sr_owner := sr_owner r;
     sr_thread_id := sr_thread_id r; sr_historical_thread_ids := sr_historical_thread_ids r;
     sr_forgotten := sr_forgotten r; sr_configuration := sr_configuration r;
     sr_history := sr_history r; sr_runs := sr_runs r;
     sr_unknown_executions := sr_unknown_executions r |}.
Definition set_updated_at_ms (v : option N) (r : SessionRecord) : SessionRecord :=
  ltac:(update_field sr_eta sr_updated_at_ms v r).
Definition set_detached_since_ms (v : option N) (r : SessionRecord) : SessionRecord :=
  ltac:(update_field sr_eta sr_detached_since_ms v r).
Definition set_revision (v : N) (r : SessionRecord) : SessionRecord :=
  ltac:(update_field sr_eta sr_revision v r).
Definition set_epoch (v : N) (r : SessionRecord) : SessionRecord :=
  ltac:(update_field sr_eta sr_epoch v r).
Definition set_owner (v : option string) (r : SessionRecord) : SessionRecord :=
  ltac:(update_field sr_eta sr_owner v r).
Definition set_thread_id (v : option string) (r : SessionRecord) : SessionRecord :=
  ltac:(update_field sr_eta sr_thread_id v r).
Definition set_historical_thread_ids (v : list string) (r : SessionRecord) : SessionRecord :=
  ltac:(update_field sr_eta sr_historical_thread_ids v r).
Definition set_configuration (v : Value) (r : SessionRecord) : SessionRecord :=
  ltac:(update_field sr_eta sr_configuration v r).
Definition set_history (v : list CanonicalItem) (r : SessionRecord) : SessionRecord :=
  ltac:(update_field sr_eta sr_history v r).
Definition set_runs (v : gmap string StoredRun) (r : SessionRecord) : SessionRecord :=
  ltac:(update_field sr_eta sr_runs v r).
Definition set_unknown_executions (v : list UnknownExecution) (r : SessionRecord) : SessionRecord :=
  ltac:(update_field sr_eta sr_unknown_executions v r).

(** ** Queries *)

Definition terminal (run : StoredRun) : bool := is_terminal (snap_status (run_snapshot run)).

Definition unresolved (self : SessionRecord) : bool :=
  existsb (λ u, negb (unk_acknowledged u)) (sr_unknown_executions self).

Definition active (self : SessionRecord) : bool :=
  existsb (λ r, negb (terminal r)) (btree_values (sr_runs self)).

Definition snapshot (self : SessionRecord) : RecoverySnapshot :=
  {| rs_recovery_id := sr_recovery_id self;
     rs_revision := sr_revision self;
     rs_epoch := sr_epoch self;
     rs_attached := is_some (sr_owner self);
     rs_configuration := sr_configuration self;
     rs_history := sr_history self;
     rs_runs := (λ run, {| rr_snapshot := run_snapshot run;
                           rr_model_inputs := run_model_inputs run;
                           rr_effective_options := run_effective_options run |})
                  <$> btree_values (sr_runs self);
     rs_unknown_executions := sr_unknown_executions self |}.

(** ** [checked_usage] *)

Definition usage_overflow : StoreError := Invalid "Model usage exceeds u64 range".

Definition checked_usage_step (total usage : UsageMetrics) : Result UsageMetrics :=
  i ← ok_or (checked_add (input_tokens total) (input_tokens usage)) usage_overflow;
  o ← ok_or (checked_add (output_tokens total) (output_tokens usage)) usage_overflow;
  r ← ok_or (checked_add (reasoning_tokens total) (reasoning_tokens usage)) usage_overflow;
  c ← ok_or (checked_add (cache_creation_input_tokens total)
                         (cache_creation_input_tokens usage)) usage_overflow;
  d ← ok_or (checked_add (cache_read_input_tokens total)
                         (cache_read_input_tokens usage)) usage_overflow;
  Ok {| input_tokens := i; output_tokens := o; reasoning_tokens := r;
        cache_creation_input_tokens := c; cache_read_input_tokens := d |}.

Definition checked_usage (usages : list UsageMetrics) : Result UsageMetrics :=
  fold_res checked_usage_step usage_default usages.

(** The recorded usages of the steps of a run. *)
Definition step_usages (steps : list ModelInputRecord) : list UsageMetrics := omap usage steps.

(** ** [SessionRecord::validate] *)

(** The status a result must carry for a run status. *)
Definition result_status (status : RunStatus) : TurnStatus :=
  match status with
  | RunCompleted => TurnStatusCompleted
  | RunCancelled => TurnStatusInterrupted
  | _ => TurnStatusFailed
  end.

Definition check_run_identity (history : list CanonicalItem) (entry : string * StoredRun) : Result () :=
  let '(id, run) := entry in
  reject_if
    ((id != turn_turn_id (run_params run)) ||
     (id != snap_turn_id (run_snapshot run)) ||
     (turn_thread_id (run_params run) != snap_thread_id (run_snapshot run)) ||
     (length history <? run_history_start run) ||
     (terminal run && is_none (snap_result (run_snapshot run))))
    (Invalid "Malformed run record").

Definition check_step (revision : N) (acc : nat * gset string) (step : ModelInputRecord)
    : Result (nat * gset string) :=
  let '(index, steps) := acc in
  reject_if
    ((step_index step != index) ||
     str_is_empty (step_id step) ||
     bool_decide (step_id step ∈ steps) ||
     negb (is_object (request step)) ||
     (completed step != is_some (usage step)) ||
     (revision <? history_revision step)%N)
    (Invalid "Malformed model input ledger");;
  Ok (S index, {[step_id step]} ∪ steps).

(** Is [item] the call item of [call]? *)
Definition names_call (call : StoredCall) (item : CanonicalItem) : bool :=
  match item with
  | ToolCall _ call_id _ name _ _ => (call_id == sc_call_id call) && (name == sc_tool_name call)
  | _ => false
  end.

(** Is [item] a result under the identity that [call] reserved? *)
Definition answers_call (call : StoredCall) (item : CanonicalItem) : bool :=
  match item with
  | ToolResult id call_id _ _ => (id == sc_result_item_id call) && (call_id == sc_call_id call)
  | _ => false
  end.

(** The identities met so far: calls, executions, result items. *)
Definition LedgerIds : Type := gset string * gset string * gset string.

Definition check_call (history : list CanonicalItem) (steps : gset string) (seen : LedgerIds)
    (call : StoredCall) : Result LedgerIds :=
  let '(call_ids, execution_ids, result_ids) := seen in
  reject_if
    (str_is_empty (sc_call_id call) ||
     bool_decide (sc_call_id call ∈ call_ids) ||
     bool_decide (sc_execution_id call ∈ execution_ids) ||
     bool_decide (sc_result_item_id call ∈ result_ids) ||
     negb (bool_decide (sc_step_id call ∈ steps)) ||
     negb (existsb (names_call call) history))
    (Invalid "Malformed tool ledger identity");;
  reject_if
    (is_some_and (sc_intent call) (λ intent, exec_call_id intent != sc_call_id call) ||
     (sc_committed call && is_none (sc_outcome call)))
    (Invalid "Malformed tool ledger state");;
  reject_if
    (is_some_and (sc_outcome call) (λ outcome,
       negb (answers_call call outcome) ||
       (sc_committed call && negb (bool_decide (outcome ∈ history)))))
    (Invalid "Malformed stored tool result");;
  Ok ({[sc_call_id call]} ∪ call_ids, {[sc_execution_id call]} ∪ execution_ids,
      {[sc_result_item_id call]} ∪ result_ids).

Definition check_result (snap : RunSnapshot) : Result () :=
  reject_if
    (is_some_and (snap_result snap) (λ result,
       (res_thread_id result != snap_thread_id snap) ||
       (res_turn_id result != snap_turn_id snap) ||
       (res_status result != result_status (snap_status snap)) ||
       (res_items result != snap_items snap) ||
       (res_usage result != snap_usage snap)))
    (Invalid "Malformed terminal result").

Definition check_run (history : list CanonicalItem) (revision : N) (seen : LedgerIds)
    (run : StoredRun) : Result LedgerIds :=
  '(_, steps) ← fold_res (check_step revision) (0, ∅) (run_model_inputs run);
  seen ← fold_res (check_call history steps) seen (run_calls run);
  check_result (run_snapshot run);;
  Ok seen.

Definition unknown_backed (runs : gmap string StoredRun) (u : UnknownExecution) : bool :=
  is_some_and (runs !! unk_turn_id u) (λ run,
    existsb (λ call,
      (sc_execution_id call == unk_execution_id u) && (sc_call_id call == unk_call_id u) &&
      is_some (sc_intent call) && is_some (sc_outcome call)) (run_calls run)).

Definition check_unknown (runs : gmap string StoredRun) (seen : gset string)
    (u : UnknownExecution) : Result (gset string) :=
  reject_if (bool_decide (unk_execution_id u ∈ seen) || negb (unknown_backed runs u))
    (Invalid "Malformed unknown execution");;
  Ok ({[unk_execution_id u]} ∪ seen).

Definition record_malformed `{Externals} (self : SessionRecord) : bool :=
  negb ((sr_schema_version self == 1%N) || (sr_schema_version self == 2%N)) ||
  negb (uuid_parse_ok (sr_recovery_id self)) ||
  (String.length (sr_secret_digest self) != 64) ||
  negb (all_hex (sr_secret_digest self)) ||
  (sr_revision self == 0%N) ||
  (is_some (sr_owner self) != is_some (sr_thread_id self)) ||
  negb (is_object (sr_configuration self)) ||
  (sr_epoch self == 0%N).

Definition retention_malformed (self : SessionRecord) : bool :=
  (sr_schema_version self == 2%N) &&
  (is_none (sr_created_at_ms self) ||
   opt_ltb (sr_updated_at_ms self) (sr_created_at_ms self) ||
   (is_some (sr_owner self) && is_some (sr_detached_since_ms self)) ||
   (negb (sr_forgotten self) && is_none (sr_owner self) && is_none (sr_detached_since_ms self)) ||
   (sr_forgotten self != is_some (sr_retired_at_ms self)) ||
   (sr_forgotten self != is_some (sr_retirement_reason self))).

Definition tombstone_malformed (self : SessionRecord) : bool :=
  sr_forgotten self &&
  (is_some (sr_owner self) || (sr_history self != []) || (sr_runs self != ∅) ||
   (sr_unknown_executions self != [])).

Definition attachment_malformed (self : SessionRecord) : bool :=
  is_some_and (sr_owner self) blank ||
  is_some_and (sr_thread_id self) (λ v,
    blank v || negb (bool_decide (v ∈ sr_historical_thread_ids self))) ||
  (active self && is_none (sr_owner self)).

Definition validate `{Externals} (self : SessionRecord) : Result () :=
  reject_if (record_malformed self) (Invalid "Malformed session record");;
  reject_if (retention_malformed self) (Invalid "Malformed retention metadata");;
  reject_if (tombstone_malformed self) (Invalid "Malformed tombstone");;
  reject_if (attachment_malformed self) (Invalid "Malformed live attachment");;
  reject_if (existsb str_is_empty (sr_historical_thread_ids self) ||
             any_reinserted ∅ (sr_historical_thread_ids self))
    (Invalid "Duplicate attachment identity");;
  reject_if (any_reinserted ∅ (item_id <$> sr_history self)) (Invalid "Duplicate history item ID");;
  fold_res (λ _, check_run_identity (sr_history self)) () (btree_iter (sr_runs self));;
  fold_res (check_run (sr_history self) (sr_revision self)) (∅, ∅, ∅) (btree_values (sr_runs self));;
  fold_res (check_unknown (sr_runs self)) ∅ (sr_unknown_executions self);;
  Ok ().

(** ** [SessionRecord::begin] *)

(** The limits under [/session/limits] of the configuration, decoded and checked. *)
Definition configured_limits `{Externals} (context : string) (configuration : Value)
    : Result (option SessionLimits) :=
  match pointer ["session"; "limits"] configuration with
  | Some value =>
      if is_null value then Ok None else
      limits ← map_err (λ error, Invalid (context +:+ error)) (decode_session_limits value);
      map_err Invalid (SessionLimits_validate limits);;
      Ok (Some limits)
  | None => Ok None
  end.

Definition begin_limits `{Externals} (self : SessionRecord) (params : StartTurnParams) : Result () :=
  limits ← configured_limits "Invalid session limits: " (sr_configuration self);
  match limits with
  | Some limits =>
      reject_if (is_some_and (max_accepted_turns limits) (λ max,
          (max <=? N.of_nat (size (sr_runs self)))%N))
        (LimitExceeded "max_accepted_turns");;
      match max_history_bytes limits with
      | Some max =>
          bytes ← map_err Invalid (history_bytes (sr_history self) (turn_input_items params));
          reject_if (max <? bytes)%N (LimitExceeded "max_history_bytes")
      | None => Ok ()
      end
  | None => Ok ()
  end.

Definition acceptance_malformed (self : SessionRecord) (params : StartTurnParams)
    (snapshot : RunSnapshot) : bool :=
  (sr_thread_id self != Some (turn_thread_id params)) ||
  str_is_empty (turn_turn_id params) ||
  (turn_max_steps params == 0) ||
  (turn_timeout_ms params == Some 0%N) ||
  (snap_thread_id snapshot != turn_thread_id params) ||
  (snap_turn_id snapshot != turn_turn_id params) ||
  is_terminal (snap_status snapshot) ||
  is_some (snap_result snapshot).

Definition begin `{Externals} (self : SessionRecord) (params : StartTurnParams)
    (snapshot : RunSnapshot) (effective_options : Value) : Result (SessionRecord * bool) :=
  match sr_runs self !! turn_turn_id params with
  | Some old =>
      if (run_params old == params) && (run_effective_options old == effective_options)
      then Ok (self, false) else Err Conflict
  | None =>
      reject_if (active self) Active;;
      reject_if (unresolved self) UnknownExecutions;;
      reject_if (acceptance_malformed self params snapshot) (Invalid "Invalid run acceptance");;
      begin_limits self params;;
      reject_if (any_reinserted (list_to_set (item_id <$> sr_history self))
                   (item_id <$> turn_input_items params))
        (Invalid "Duplicate input item ID");;
      let run :=
        {| run_params := params;
           run_snapshot := set_items (turn_input_items params) snapshot;
           run_effective_options := effective_options;
           run_history_start := length (sr_history self);
           run_model_inputs := [];
           run_calls := [] |} in
      Ok (set_runs (<[turn_turn_id params := run]> (sr_runs self))
            (set_history (sr_history self ++ turn_input_items params) self), true)
  end.

(** ** [SessionRecord::mutate] *)

(** The limits checked before a model input and before a tool dispatch. *)
Definition mutate_limits `{Externals} (self : SessionRecord) (op : RunMutation) : Result () :=
  match op with
  | ModelInput _ _ _ | DispatchIntent _ _ =>
      limits ← configured_limits "" (sr_configuration self);
      match limits with
      | Some limits =>
          match max_history_bytes limits with
          | Some max =>
              bytes ← map_err Invalid (history_bytes (sr_history self) []);
              reject_if (max <? bytes)%N (LimitExceeded "max_history_bytes")
          | None => Ok ()
          end;;
          match max_model_request_bytes limits, op with
          | Some max, ModelInput _ _ request =>
              bytes ← map_err Invalid (serialized_bytes (value_json_len request));
              reject_if (max <? bytes)%N (LimitExceeded "max_model_request_bytes")
          | _, _ => Ok ()
          end
      | None => Ok ()
      end
  | _ => Ok ()
  end.

Definition op_model_input (revision : N) (run : StoredRun) (step : string) (index : nat)
    (request : Value) : Result StoredRun :=
  reject_if
    (str_is_empty step || (index != length (run_model_inputs run)) || negb (is_object request) ||
     is_some_and (last (run_model_inputs run)) (λ s, negb (completed s)) ||
     existsb (λ c, negb (sc_committed c)) (run_calls run) ||
     existsb (λ s, step_id s == step) (run_model_inputs run))
    (Invalid "Invalid model step order");;
  Ok (set_model_inputs (run_model_inputs run ++
        [{| step_id := step; step_index := index; history_revision := revision;
            request := request; completed := false; usage := None |}]) run).

Definition op_model_item (history : list CanonicalItem) (run : StoredRun) (step : string)
    (item : CanonicalItem) (fresh_result fresh_execution : string)
    : Result (list CanonicalItem * StoredRun) :=
  current ← ok_or (last (run_model_inputs run)) (Invalid "Missing model input");
  reject_if
    ((step_id current != step) || completed current || is_user_message item ||
     is_tool_result item || existsb (λ i, item_id i == item_id item) history)
    (Invalid "Invalid model item");;
  run ← match item with
        | ToolCall _ call_id _ name _ _ =>
            reject_if (str_is_empty call_id ||
                       existsb (λ i, tool_call_id i == Some call_id) history)
              (Invalid "Duplicate model call ID");;
            Ok (set_calls (run_calls run ++
                  [{| sc_call_id := call_id; sc_step_id := step; sc_tool_name := name;
                      sc_result_item_id := fresh_result; sc_execution_id := fresh_execution;
                      sc_intent := None; sc_outcome := None; sc_committed := false |}]) run)
        | _ => Ok run
        end;
  Ok (history ++ [item], run).

Definition finish_step (reported : UsageMetrics) (s : ModelInputRecord) : ModelInputRecord :=
  {| step_id := step_id s; step_index := step_index s; history_revision := history_revision s;
     request := request s; completed := true; usage := Some reported |}.

Definition op_step_finished (run : StoredRun) (step : string) (reported : UsageMetrics)
    : Result StoredRun :=
  checked_usage (step_usages (run_model_inputs run) ++ [reported]);;
  current ← ok_or (last (run_model_inputs run)) (Invalid "Missing model input");
  reject_if ((step_id current != step) || completed current) (Invalid "Invalid model completion");;
  Ok (set_model_inputs (update_last (finish_step reported) (run_model_inputs run)) run).

Definition step_completed (run : StoredRun) (step : string) : bool :=
  existsb (λ s, (step_id s == step) && completed s) (run_model_inputs run).

Definition op_dispatch (run : StoredRun) (call_id : string) (execution : ToolExecutionRecord)
    : Result StoredRun :=
  call ← ok_or (find_first (λ c, sc_call_id c == call_id) (run_calls run))
           (Invalid "Unknown tool call");
  reject_if
    ((exec_call_id execution != call_id) || is_some (sc_intent call) || is_some (sc_outcome call) ||
     negb (step_completed run (sc_step_id call)))
    (Invalid "Tool dispatch cannot be repeated or precede step completion");;
  Ok (set_calls (update_first (λ c, sc_call_id c == call_id) (set_intent (Some execution))
                   (run_calls run)) run).

Definition op_tool_outcome (run : StoredRun) (call_id : string) (reported : CanonicalItem)
    : Result (StoredRun * CanonicalItem) :=
  call ← ok_or (find_first (λ c, sc_call_id c == call_id) (run_calls run))
           (Invalid "Unknown tool call");
  reject_if (negb (step_completed run (sc_step_id call)))
    (Invalid "Tool outcome precedes model step completion");;
  match reported with
  | ToolResult _ result_call output is_error =>
      reject_if (result_call != call_id) (Invalid "Wrong outcome identity");;
      let item := ToolResult (sc_result_item_id call) call_id output is_error in
      reject_if (is_some_and (sc_outcome call) (λ old, old != item)) Conflict;;
      Ok (set_calls (update_first (λ c, sc_call_id c == call_id) (set_outcome (Some item))
                       (run_calls run)) run, item)
  | _ => Err (Invalid "Expected tool result")
  end.

(** The loop of [ToolBatch]: every uncommitted call appends its outcome. *)
Definition commit_call (acc : list CanonicalItem * list StoredCall) (call : StoredCall)
    : list CanonicalItem * list StoredCall :=
  let '(history, calls) := acc in
  if sc_committed call then (history, calls ++ [call])
  else (history ++ option_list (sc_outcome call), calls ++ [set_committed true call]).

Definition uncommitted (calls : list StoredCall) : list StoredCall :=
  List.filter (λ c, negb (sc_committed c)) calls.

Definition op_tool_batch (history : list CanonicalItem) (run : StoredRun) (call_ids : list string)
    : Result (list CanonicalItem * StoredRun) :=
  let calls := uncommitted (run_calls run) in
  reject_if (((sc_call_id <$> calls) != call_ids) || existsb (λ c, is_none (sc_outcome c)) calls)
    (Invalid "Incomplete or out-of-order tool batch");;
  let '(history, calls) := foldl commit_call (history, []) (run_calls run) in
  Ok (history, set_calls calls run).

Definition mutate_run (revision : N) (history : list CanonicalItem) (run : StoredRun)
    (op : RunMutation) (fresh_result fresh_execution : string)
    : Result (list CanonicalItem * StoredRun * option CanonicalItem) :=
  match op with
  | ModelInput step index request =>
      run ← op_model_input revision run step index request;
      Ok (history, run, None)
  | ModelItem step item =>
      '(history, run) ← op_model_item history run step item fresh_result fresh_execution;
      Ok (history, run, None)
  | ModelStepFinished step reported =>
      run ← op_step_finished run step reported;
      Ok (history, run, None)
  | DispatchIntent call_id execution =>
      run ← op_dispatch run call_id execution;
      Ok (history, run, None)
  | ToolOutcome call_id reported =>
      '(run, item) ← op_tool_outcome run call_id reported;
      Ok (history, run, Some item)
  | ToolBatch call_ids =>
      '(history, run) ← op_tool_batch history run call_ids;
      Ok (history, run, None)
  end.

(** [self.history[run.history_start..]]; a validated record has the start
    within the history, where the slice and [drop] agree. *)
Definition run_items (history : list CanonicalItem) (run : StoredRun) : list CanonicalItem :=
  drop (run_history_start run) history.

Definition mutate `{Externals} (self : SessionRecord) (turn : string) (op : RunMutation)
    (fresh_result fresh_execution : string) : Result (SessionRecord * option CanonicalItem) :=
  mutate_limits self op;;
  run ← ok_or (sr_runs self !! turn) NotFound;
  reject_if (terminal run) (Invalid "Run is terminal");;
  '(history, run, returned) ←
    mutate_run (sr_revision self) (sr_history self) run op fresh_result fresh_execution;
  let run := set_snapshot (set_items (run_items history run) (run_snapshot run)) run in
  Ok (set_runs (<[turn := run]> (sr_runs self)) (set_history history self), returned).

(** ** [SessionRecord::finalize] *)

Definition dispatched_reason : string :=
  "Tool execution was dispatched but no result was durably recorded. External side effects are unknown; the call was not retried.".
Definition undispatched_reason : string :=
  "Tool was not dispatched before the run ended; the call was not retried.".

(** The state of the loop over the calls: the calls already treated, the
    history, the unknown executions and the flag [incomplete]. *)
Record Settlement := {
  st_calls : list StoredCall;
  st_history : list CanonicalItem;
  st_unknown : list UnknownExecution;
  st_incomplete : bool;
}.

Definition unknown_of (turn : string) (call : StoredCall) : UnknownExecution :=
  {| unk_execution_id := sc_execution_id call;
     unk_turn_id := turn;
     unk_call_id := sc_call_id call;
     unk_tool_name := sc_tool_name call;
     unk_original_arguments := exec_original_arguments <$> sc_intent call;
     unk_arguments := exec_arguments <$> sc_intent call;
     unk_reason := dispatched_reason;
     unk_acknowledged := false |}.

Definition missing_result (call : StoredCall) : CanonicalItem :=
  ToolResult (sc_result_item_id call) (sc_call_id call)
    (OutputText (if is_some (sc_intent call) then dispatched_reason else undispatched_reason)) true.

Definition settle_call (turn : string) (st : Settlement) (call : StoredCall) : Settlement :=
  let missing := is_none (sc_outcome call) in
  let answered := if missing then set_outcome (Some (missing_result call)) call else call in
  {| st_calls := st_calls st ++ [if sc_committed call then answered else set_committed true answered];
     st_history := st_history st ++
                     (if sc_committed call then [] else option_list (sc_outcome answered));
     st_unknown := st_unknown st ++
                     (if missing && is_some (sc_intent call) then [unknown_of turn call] else []);
     st_incomplete := st_incomplete st || missing |}.

Definition incomplete_failure : RunFailure :=
  {| fail_code := "INCOMPLETE_EXECUTION";
     fail_message := "Completed candidate contains unfinished calls" |}.

Definition finalize (self : SessionRecord) (turn : string) (candidate : RunSnapshot)
    : Result (SessionRecord * FinalizedRun) :=
  run ← ok_or (sr_runs self !! turn) NotFound;
  if terminal run then
    Ok (self, {| fin_snapshot := run_snapshot run; fin_history := sr_history self |})
  else
    reject_if
      ((snap_thread_id candidate != turn_thread_id (run_params run)) ||
       (snap_turn_id candidate != turn) || negb (is_terminal (snap_status candidate)))
      (Invalid "Invalid terminal identity/status");;
    let st := foldl (settle_call turn)
                {| st_calls := []; st_history := sr_history self;
                   st_unknown := sr_unknown_executions self; st_incomplete := false |}
                (run_calls run) in
    let downgrade := st_incomplete st && (snap_status candidate == RunCompleted) in
    let status := if downgrade then RunFailed else snap_status candidate in
    let items := run_items (st_history st) run in
    total ← checked_usage (step_usages (run_model_inputs run));
    let final :=
      {| snap_tool_executions := omap sc_intent (st_calls st);
         snap_thread_id := snap_thread_id candidate;
         snap_turn_id := snap_turn_id candidate;
         snap_status := status;
         snap_items := items;
         snap_usage := total;
         snap_pending_approvals := [];
         snap_last_seq := N.max (snap_last_seq candidate)
                            (saturating_add (snap_last_seq (run_snapshot run)) 1);
         snap_result := Some {| res_turn_id := turn; res_thread_id := snap_thread_id candidate;
                                res_status := result_status status; res_items := items;
                                res_usage := total |};
         snap_error := if downgrade then Some incomplete_failure else snap_error candidate |} in
    let run := set_snapshot final (set_calls (st_calls st) run) in
    Ok (set_unknown_executions (st_unknown st)
          (set_runs (<[turn := run]> (sr_runs self)) (set_history (st_history st) self)),
        {| fin_snapshot := final; fin_history := st_history st |}).

(** ** [SessionRecord::recover] *)

Definition active_turns (self : SessionRecord) : list string :=
  (List.filter (λ e, negb (terminal e.2)) (btree_iter (sr_runs self))).*1.

Definition interrupted_failure : RunFailure :=
  {| fail_code := "RECOVERY_INTERRUPTED";
     fail_message := "Daemon stopped before the run was durably finalized; execution was not resumed" |}.

(** [self.runs[&turn]] panics on a missing key; the loop meets only keys of the
    map, so the error of [ok_or] is never the outcome. *)
Definition recover_run (self : SessionRecord) (turn : string) : Result SessionRecord :=
  run ← ok_or (sr_runs self !! turn) NotFound;
  let candidate := set_error (Some interrupted_failure) (set_status RunFailed (run_snapshot run)) in
  '(self, _) ← finalize self turn candidate;
  Ok self.

Definition recover (self : SessionRecord) : Result (SessionRecord * bool) :=
  if sr_forgotten self then Ok (self, false) else
  let turns := active_turns self in
  let changed := is_some (sr_owner self) || (turns != []) in
  self ← fold_res recover_run self turns;
  Ok (set_thread_id None (set_owner None self), changed).
