(* ===== verification/StoreValid.v ===== *)
(** * What [SessionRecord::validate] accepts

    The declarative reading of the validator: [Valid] lists the facts one by
    one, with the loops over hash sets read as "no identity occurs twice". *)

From S2P Require Import Prelude Protocol StoreState.

(** ** The declarative specification *)

Record StepsOk (revision : N) (steps : list ModelInputRecord) : Prop := {
  steps_indexed : ∀ i s, steps !! i = Some s → step_index s = i;
  steps_wf : ∀ s, s ∈ steps →
    step_id s ≠ "" ∧ is_object (request s) = true ∧ completed s = is_some (usage s) ∧
    (history_revision s <= revision)%N;
  steps_distinct : NoDup (step_id <$> steps);
}.

Record CallOk (history : list CanonicalItem) (steps : list string) (c : StoredCall) : Prop := {
  call_named : sc_call_id c ≠ "";
  call_step : sc_step_id c ∈ steps;
  call_item : ∃ item, item ∈ history ∧ names_call c item = true;
  call_intent : ∀ i, sc_intent c = Some i → exec_call_id i = sc_call_id c;
  call_outcome : ∀ o, sc_outcome c = Some o → answers_call c o = true;
  call_committed : sc_committed c = true → ∃ o, sc_outcome c = Some o ∧ o ∈ history;
}.

(** The result of a snapshot repeats the snapshot. *)
Definition result_of (snap : RunSnapshot) : RunTurnResult :=
  {| res_turn_id := snap_turn_id snap; res_thread_id := snap_thread_id snap;
     res_status := result_status (snap_status snap); res_items := snap_items snap;
     res_usage := snap_usage snap |}.

Record RunOk (history : list CanonicalItem) (revision : N) (id : string) (run : StoredRun) : Prop := {
  run_turn : turn_turn_id (run_params run) = id;
  run_snap_turn : snap_turn_id (run_snapshot run) = id;
  run_thread : snap_thread_id (run_snapshot run) = turn_thread_id (run_params run);
  run_start : run_history_start run <= length history;
  run_finished : terminal run = true → is_Some (snap_result (run_snapshot run));
  run_result : ∀ r, snap_result (run_snapshot run) = Some r → r = result_of (run_snapshot run);
  run_steps : StepsOk revision (run_model_inputs run);
  run_calls_ok : ∀ c, c ∈ run_calls run →
    CallOk history (step_id <$> run_model_inputs run) c;
}.

Record RetentionOk (r : SessionRecord) : Prop := {
  ret_times : ∃ c u, sr_created_at_ms r = Some c ∧ sr_updated_at_ms r = Some u ∧ (c <= u)%N;
  ret_attached : is_Some (sr_owner r) → sr_detached_since_ms r = None;
  ret_detached : sr_forgotten r = false → sr_owner r = None → is_Some (sr_detached_since_ms r);
  ret_retired : is_some (sr_retired_at_ms r) = sr_forgotten r;
  ret_reason : is_some (sr_retirement_reason r) = sr_forgotten r;
}.

Definition call_ids (run : StoredRun) : list string := sc_call_id <$> run_calls run.
Definition execution_ids (run : StoredRun) : list string := sc_execution_id <$> run_calls run.
Definition result_ids (run : StoredRun) : list string := sc_result_item_id <$> run_calls run.

Definition UnknownBacked (runs : gmap string StoredRun) (u : UnknownExecution) : Prop :=
  ∃ run c, runs !! unk_turn_id u = Some run ∧ c ∈ run_calls run ∧
    sc_execution_id c = unk_execution_id u ∧ sc_call_id c = unk_call_id u ∧
    is_Some (sc_intent c) ∧ is_Some (sc_outcome c).

Record Valid `{Externals} (r : SessionRecord) : Prop := {
  v_schema : sr_schema_version r = 1%N ∨ sr_schema_version r = 2%N;
  v_id : uuid_parse_ok (sr_recovery_id r) = true;
  v_digest : String.length (sr_secret_digest r) = 64 ∧ all_hex (sr_secret_digest r) = true;
  v_revision : sr_revision r ≠ 0%N;
  v_epoch : sr_epoch r ≠ 0%N;
  v_configuration : is_object (sr_configuration r) = true;
  v_attached : is_some (sr_owner r) = is_some (sr_thread_id r);
  v_retention : sr_schema_version r = 2%N → RetentionOk r;
  v_tombstone : sr_forgotten r = true →
    sr_owner r = None ∧ sr_history r = [] ∧ sr_runs r = ∅ ∧ sr_unknown_executions r = [];
  v_owner : ∀ o, sr_owner r = Some o → blank o = false;
  v_thread : ∀ t, sr_thread_id r = Some t → blank t = false ∧ t ∈ sr_historical_thread_ids r;
  v_active : active r = true → is_Some (sr_owner r);
  v_threads : NoDup (sr_historical_thread_ids r) ∧ "" ∉ sr_historical_thread_ids r;
  v_history : NoDup (item_id <$> sr_history r);
  v_runs : map_Forall (RunOk (sr_history r) (sr_revision r)) (sr_runs r);
  v_call_ids : spread_distinct call_ids (sr_runs r);
  v_execution_ids : spread_distinct execution_ids (sr_runs r);
  v_result_ids : spread_distinct result_ids (sr_runs r);
  v_unknown_ids : NoDup (unk_execution_id <$> sr_unknown_executions r);
  v_unknown : ∀ u, u ∈ sr_unknown_executions r → UnknownBacked (sr_runs r) u;
}.

(** ** Boolean guards read as propositions *)

Lemma is_some_true {A} (o : option A) : is_some o = true ↔ is_Some o.
Proof. destruct o; simpl; split; try done; eauto; by intros [? [=]]. Qed.
Lemma is_some_false {A} (o : option A) : is_some o = false ↔ o = None.
Proof. by destruct o. Qed.
Lemma is_none_true {A} (o : option A) : is_none o = true ↔ o = None.
Proof. by destruct o. Qed.
Lemma is_none_false {A} (o : option A) : is_none o = false ↔ is_Some o.
Proof. destruct o; simpl; split; try done; eauto; by intros [? [=]]. Qed.
Lemma is_some_and_false {A} (o : option A) p :
  is_some_and o p = false ↔ ∀ a, o = Some a → p a = false.
Proof. destruct o; simpl; naive_solver. Qed.
Lemma str_is_empty_false s : str_is_empty s = false ↔ s ≠ "".
Proof. destruct s; simpl; naive_solver. Qed.

Lemma active_false r :
  active r = false ↔ map_Forall (λ _ run, terminal run = true) (sr_runs r).
Proof.
  unfold active. rewrite existsb_false. setoid_rewrite elem_of_btree_values. unfold map_Forall.
  setoid_rewrite negb_false_iff. naive_solver.
Qed.

Lemma active_true r :
  active r = true ↔ ∃ id run, sr_runs r !! id = Some run ∧ terminal run = false.
Proof.
  unfold active. rewrite existsb_true. setoid_rewrite elem_of_btree_values.
  setoid_rewrite negb_true_iff. naive_solver.
Qed.

Create HintDb guards discriminated.
#[export] Hint Rewrite @orb_false_iff @andb_true_iff @negb_false_iff @negb_true_iff @bool_decide_eq_true
  @bool_decide_eq_false N.ltb_ge N.leb_gt N.leb_le @is_some_true @is_some_false @is_none_true
  @is_none_false @is_some_and_false @existsb_false @existsb_true str_is_empty_false
  Nat.ltb_ge : guards.

(** ** The loops of the validator *)

Lemma check_step_Ok revision i s step acc :
  check_step revision (i, s) step = Ok acc ↔
    (step_index step = i ∧ step_id step ≠ "" ∧ is_object (request step) = true ∧
     completed step = is_some (usage step) ∧ (history_revision step <= revision)%N) ∧
    step_id step ∉ s ∧ acc = (S i, {[step_id step]} ∪ s).
Proof.
  unfold check_step. rewrite reject_bind_Ok. autorewrite with guards.
  split; [intros [? [= <-]]|intros (?&?&->)]; naive_solver.
Qed.

Lemma check_steps_from revision l i s acc :
  fold_res (check_step revision) (i, s) l = Ok acc ↔
    (∀ j x, l !! j = Some x → step_index x = i + j) ∧
    (∀ x, x ∈ l → step_id x ≠ "" ∧ is_object (request x) = true ∧
      completed x = is_some (usage x) ∧ (history_revision x <= revision)%N) ∧
    fresh_list s (step_id <$> l) ∧ acc = (i + length l, add_list (step_id <$> l) s).
Proof.
  revert i s. induction l as [|x l IH]; intros i s; csimpl.
  - rewrite Nat.add_0_r. unfold add_list; simpl. rewrite union_empty_l_L. split.
    + intros [= <-]. split_and!; [done|set_solver|apply fresh_list_nil|done].
    + by intros (_ & _ & _ & ->).
  - rewrite bind_Ok. setoid_rewrite check_step_Ok. rewrite fresh_list_cons, add_list_cons.
    split.
    + intros (acc' & ((Hi & Hwf) & Hnot & ->) & (Hj & Hl & Hs & ->)%IH). split_and!; try done.
      * intros [|j] y Hy; simplify_eq/=; [lia|]. rewrite (Hj j y Hy). lia.
      * intros y [->|?]%elem_of_cons; eauto.
      * f_equal; lia.
    + intros (Hj & Hl & [Hnot Hs] & ->). eexists. split.
      * split_and!; [..|done|reflexivity]; try (eapply Hl; by left).
        rewrite (Hj 0 x eq_refl). lia.
      * apply IH. split_and!; try done.
        -- intros j y Hy. rewrite (Hj (S j) y Hy). lia.
        -- intros y ?. apply Hl. by right.
        -- f_equal; lia.
Qed.

Lemma check_steps_Ok revision l acc :
  fold_res (check_step revision) (0, ∅) l = Ok acc ↔
    StepsOk revision l ∧ acc = (length l, list_to_set (step_id <$> l)).
Proof.
  rewrite check_steps_from, fresh_list_empty. unfold add_list. rewrite union_empty_r_L. simpl.
  split; [intros (?&?&?&->); by split|intros [[]->]; done].
Qed.

Definition ledger_fresh (seen : LedgerIds) (l : list StoredCall) : Prop :=
  fresh_list seen.1.1 (sc_call_id <$> l) ∧ fresh_list seen.1.2 (sc_execution_id <$> l) ∧
  fresh_list seen.2 (sc_result_item_id <$> l).
Definition ledger_add (l : list StoredCall) (seen : LedgerIds) : LedgerIds :=
  (add_list (sc_call_id <$> l) seen.1.1, add_list (sc_execution_id <$> l) seen.1.2,
   add_list (sc_result_item_id <$> l) seen.2).

Lemma check_call_Ok history steps seen c seen' :
  check_call history (list_to_set steps) seen c = Ok seen' ↔
    CallOk history steps c ∧ ledger_fresh seen [c] ∧ seen' = ledger_add [c] seen.
Proof.
  destruct seen as [[s1 s2] s3]. unfold check_call, ledger_fresh, ledger_add. csimpl.
  rewrite !reject_bind_Ok. rewrite !fresh_list_cons, !add_list_cons. unfold add_list. simpl. rewrite !union_empty_l_L.
  split.
  - intros (H1 & H2 & H3 & [= <-]). autorewrite with guards in H1, H2, H3.
    destruct H1 as (((((Hn & Hc) & He) & Hr) & Hs) & Hitem), H2 as [Hint Hcom].
    assert (∀ o, sc_outcome c = Some o → answers_call c o = true ∧
      (sc_committed c = true → o ∈ history)) as Hout.
    { intros o Ho. specialize (H3 o Ho). autorewrite with guards in H3. destruct H3 as [Ha Hb].
      split; [done|]. intros Hc'. rewrite Hc' in Hb. simpl in Hb. by autorewrite with guards in Hb. }
    split_and!; auto using fresh_list_nil. split; try done.
    + by apply elem_of_list_to_set in Hs.
    + intros i Hi. specialize (Hint i Hi). by autorewrite with guards in Hint.
    + naive_solver.
    + intros Hc'. rewrite Hc' in Hcom. simpl in Hcom. autorewrite with guards in Hcom.
      destruct Hcom as [o Ho]. naive_solver.
  - intros ([Hn Hs Hitem Hint Hout Hcom] & ([Hc _] & [He _] & [Hr _]) & ->).
    split_and!; [..|done].
    + autorewrite with guards. rewrite elem_of_list_to_set. naive_solver.
    + autorewrite with guards. split.
      * intros i Hi. autorewrite with guards. eauto.
      * destruct (sc_committed c); simpl; [|done]. autorewrite with guards.
        destruct Hcom as (o & -> & _); eauto.
    + autorewrite with guards. intros o Ho. autorewrite with guards. split; [eauto|].
      destruct (sc_committed c); simpl; [|done]. autorewrite with guards.
      destruct Hcom as (o' & ? & ?); [done|]. by simplify_eq.
Qed.

Lemma ledger_fresh_app seen l k :
  ledger_fresh seen (l ++ k) ↔ ledger_fresh seen l ∧ ledger_fresh (ledger_add l seen) k.
Proof. unfold ledger_fresh, ledger_add. rewrite !fmap_app, !fresh_list_app. simpl. tauto. Qed.

Lemma ledger_add_app seen l k : ledger_add (l ++ k) seen = ledger_add k (ledger_add l seen).
Proof. unfold ledger_add. by rewrite !fmap_app, !add_list_app. Qed.

Lemma ledger_fresh_nil seen : ledger_fresh seen [].
Proof. split_and!; apply fresh_list_nil. Qed.

Lemma ledger_add_nil seen : ledger_add [] seen = seen.
Proof.
  destruct seen as [[??]?]. unfold ledger_add, add_list. csimpl. by rewrite !union_empty_l_L.
Qed.

Lemma check_calls_Ok history steps l seen seen' :
  fold_res (check_call history (list_to_set steps)) seen l = Ok seen' ↔
    (∀ c, c ∈ l → CallOk history steps c) ∧ ledger_fresh seen l ∧ seen' = ledger_add l seen.
Proof.
  revert seen. induction l as [|c l IH]; intros seen; simpl.
  - rewrite ledger_add_nil. split; [|by intros (_&_&->)].
    intros [= <-]. split_and!; [set_solver|apply ledger_fresh_nil|done].
  - rewrite bind_Ok. setoid_rewrite check_call_Ok. setoid_rewrite IH.
    change (c :: l) with ([c] ++ l). rewrite ledger_fresh_app, ledger_add_app. split.
    + intros (? & (Hc & Hf & ->) & Hl & Hf' & ->). split_and!; try done.
      intros c' [->%list_elem_of_singleton|?]%elem_of_app; auto.
    + intros (Hl & [Hf Hf'] & ->). eexists. split_and!; [apply Hl; set_solver|done..| |done|done].
      intros c' ?. apply Hl. set_solver.
Qed.

Lemma check_result_Ok snap :
  check_result snap = Ok () ↔ ∀ r, snap_result snap = Some r → r = result_of snap.
Proof.
  unfold check_result. rewrite reject_if_Ok, is_some_and_false. split; intros Hr r Hs;
    specialize (Hr r Hs).
  - autorewrite with guards in Hr. destruct r; unfold result_of; simpl in *. naive_solver.
  - subst r. autorewrite with guards. done.
Qed.

Lemma check_run_identity_Ok history id run :
  check_run_identity history (id, run) = Ok () ↔
    turn_turn_id (run_params run) = id ∧ snap_turn_id (run_snapshot run) = id ∧
    snap_thread_id (run_snapshot run) = turn_thread_id (run_params run) ∧
    run_history_start run <= length history ∧
    (terminal run = true → is_Some (snap_result (run_snapshot run))).
Proof.
  unfold check_run_identity. rewrite reject_if_Ok, !orb_false_iff, andb_false_iff.
  autorewrite with guards. destruct (terminal run); naive_solver.
Qed.

(** The part of [RunOk] that the second loop over the runs checks. *)
Definition RunLedgerOk (history : list CanonicalItem) (revision : N) (run : StoredRun) : Prop :=
  StepsOk revision (run_model_inputs run) ∧
  (∀ c, c ∈ run_calls run → CallOk history (step_id <$> run_model_inputs run) c) ∧
  (∀ r, snap_result (run_snapshot run) = Some r → r = result_of (run_snapshot run)).

Lemma check_run_Ok history revision seen run seen' :
  check_run history revision seen run = Ok seen' ↔
    RunLedgerOk history revision run ∧ ledger_fresh seen (run_calls run) ∧
    seen' = ledger_add (run_calls run) seen.
Proof.
  unfold check_run, RunLedgerOk. rewrite bind_Ok. setoid_rewrite check_steps_Ok. split.
  - intros ([n s] & (Hs & [= -> ->]) & Hrest).
    apply bind_Ok in Hrest as (seen2 & (?&?&->)%check_calls_Ok & Hrest).
    apply bind_Ok in Hrest as ([] & Hr & [= <-]).
    by rewrite check_result_Ok in Hr.
  - intros ((Hs & Hc & Hr) & Hf & ->). eexists. split; [done|]. simpl.
    rewrite (proj2 (check_calls_Ok _ _ _ _ _)) by done. simpl.
    by rewrite (proj2 (check_result_Ok _)).
Qed.

Lemma check_runs_Ok history revision l seen seen' :
  fold_res (check_run history revision) seen l = Ok seen' ↔
    (∀ run, run ∈ l → RunLedgerOk history revision run) ∧
    ledger_fresh seen (l ≫= run_calls) ∧ seen' = ledger_add (l ≫= run_calls) seen.
Proof.
  revert seen. induction l as [|run l IH]; intros seen; csimpl.
  - rewrite ledger_add_nil. split; [|by intros (_&_&->)].
    intros [= <-]. split_and!; [set_solver|apply ledger_fresh_nil|done].
  - rewrite bind_Ok. setoid_rewrite check_run_Ok. setoid_rewrite IH.
    rewrite ledger_fresh_app, ledger_add_app. split.
    + intros (? & (Hc & Hf & ->) & Hl & Hf' & ->). split_and!; try done.
      intros c' [->|?]%elem_of_cons; auto.
    + intros (Hl & [Hf Hf'] & ->). eexists. split_and!; [apply Hl; set_solver|done..| |done|done].
      intros c' ?. apply Hl. set_solver.
Qed.

Lemma fmap_all_calls {B} (g : StoredCall → B) (l : list StoredRun) :
  g <$> (l ≫= run_calls) = l ≫= (λ run, g <$> run_calls run).
Proof. induction l as [|run l IH]; csimpl; [done|]. by rewrite fmap_app, IH. Qed.

Lemma check_identities_Ok history (l : list (string * StoredRun)) :
  fold_res (λ _, check_run_identity history) () l = Ok () ↔
    ∀ e, e ∈ l → check_run_identity history e = Ok ().
Proof.
  induction l as [|e l IH]; simpl; [set_solver|]. rewrite bind_Ok. split.
  - intros ([] & He & Hl) e' [->|?]%elem_of_cons; [done|]. by apply IH.
  - intros Hl. exists (). split; [apply Hl; set_solver|]. apply IH. set_solver.
Qed.

Lemma unknown_backed_true runs u : unknown_backed runs u = true ↔ UnknownBacked runs u.
Proof.
  unfold unknown_backed, UnknownBacked, is_some_and. destruct (runs !! _) as [run|] eqn:Hu.
  - autorewrite with guards. setoid_rewrite andb_true_iff. setoid_rewrite andb_true_iff.
    setoid_rewrite andb_true_iff. setoid_rewrite bool_decide_eq_true. setoid_rewrite is_some_true.
    naive_solver.
  - naive_solver.
Qed.

Lemma check_unknowns_Ok runs l seen seen' :
  fold_res (check_unknown runs) seen l = Ok seen' ↔
    fresh_list seen (unk_execution_id <$> l) ∧ (∀ u, u ∈ l → UnknownBacked runs u) ∧
    seen' = add_list (unk_execution_id <$> l) seen.
Proof.
  revert seen. induction l as [|u l IH]; intros seen; csimpl.
  - unfold add_list; simpl. rewrite union_empty_l_L. split; [|by intros (_&_&->)].
    intros [= <-]. split_and!; [apply fresh_list_nil|set_solver|done].
  - rewrite bind_Ok. setoid_rewrite IH. rewrite fresh_list_cons, add_list_cons.
    unfold check_unknown. setoid_rewrite reject_bind_Ok. setoid_rewrite orb_false_iff.
    setoid_rewrite bool_decide_eq_false. setoid_rewrite negb_false_iff.
    setoid_rewrite unknown_backed_true. split.
    + intros (? & ((Hn & Hb) & [= <-]) & Hf & Hl & ->). split_and!; try done.
      intros u' [->|?]%elem_of_cons; auto.
    + intros ((Hn & Hf) & Hl & ->). eexists. split_and!; [done|apply Hl; set_solver|done..| |done].
      intros u' ?. apply Hl. set_solver.
Qed.

(** ** The guards on the record itself *)

Section with_externals.
Context `{Externals}.

Lemma record_malformed_false r :
  record_malformed r = false ↔
    (sr_schema_version r = 1%N ∨ sr_schema_version r = 2%N) ∧
    uuid_parse_ok (sr_recovery_id r) = true ∧
    (String.length (sr_secret_digest r) = 64 ∧ all_hex (sr_secret_digest r) = true) ∧
    sr_revision r ≠ 0%N ∧ sr_epoch r ≠ 0%N ∧ is_object (sr_configuration r) = true ∧
    is_some (sr_owner r) = is_some (sr_thread_id r).
Proof.
  unfold record_malformed. rewrite !orb_false_iff, !negb_false_iff, !orb_true_iff.
  rewrite !bool_decide_eq_true, !bool_decide_eq_false. tauto.
Qed.

Lemma retention_malformed_false r :
  retention_malformed r = false ↔ (sr_schema_version r = 2%N → RetentionOk r).
Proof.
  unfold retention_malformed. rewrite andb_false_iff, bool_decide_eq_false.
  destruct (decide (sr_schema_version r = 2%N)) as [Hv|]; [|tauto].
  rewrite !orb_false_iff, !andb_false_iff. autorewrite with guards. split.
  - intros [?|(((((Hc & Hu) & Ha) & Hd) & Hr) & Hs)] _; [done|]. split.
    + destruct (sr_created_at_ms r) as [c|], (sr_updated_at_ms r) as [u|]; simpl in *;
        try done; try (by destruct Hc).
      exists c, u. split_and!; [done..|]. by apply N.ltb_ge in Hu.
    + intros [? Ho]. rewrite Ho in Ha. naive_solver.
    + intros Hf Ho. rewrite Hf, Ho in Hd. simpl in Hd. naive_solver.
    + done.
    + done.
  - intros [(c & u & Hc & Hu & Hle) Ha Hd Hr Hs]%(λ f, f Hv). right. split_and!; auto.
    + rewrite Hc, Hu. simpl. by apply N.ltb_ge.
    + destruct (sr_owner r); [right|by left]. eauto.
    + destruct (sr_forgotten r); [by left; left|]. destruct (sr_owner r); [by left; right; eauto|]. eauto.
Qed.

Lemma tombstone_malformed_false r :
  tombstone_malformed r = false ↔
    (sr_forgotten r = true → sr_owner r = None ∧ sr_history r = [] ∧ sr_runs r = ∅ ∧
      sr_unknown_executions r = []).
Proof.
  unfold tombstone_malformed. rewrite andb_false_iff. autorewrite with guards.
  destruct (sr_forgotten r); naive_solver.
Qed.

Lemma attachment_malformed_false r :
  attachment_malformed r = false ↔
    (∀ o, sr_owner r = Some o → blank o = false) ∧
    (∀ t, sr_thread_id r = Some t → blank t = false ∧ t ∈ sr_historical_thread_ids r) ∧
    (active r = true → is_Some (sr_owner r)).
Proof.
  unfold attachment_malformed. rewrite !orb_false_iff, andb_false_iff, !is_some_and_false, is_none_false.
  setoid_rewrite orb_false_iff. setoid_rewrite negb_false_iff. setoid_rewrite bool_decide_eq_true.
  destruct (active r); naive_solver.
Qed.

Lemma threads_distinct r :
  existsb str_is_empty (sr_historical_thread_ids r) ||
    any_reinserted ∅ (sr_historical_thread_ids r) = false ↔
  NoDup (sr_historical_thread_ids r) ∧ "" ∉ sr_historical_thread_ids r.
Proof.
  rewrite orb_false_iff, existsb_false, any_reinserted_empty.
  setoid_rewrite str_is_empty_false. naive_solver.
Qed.

(** The validator accepts exactly the valid records. *)
Lemma validate_Ok r : validate r = Ok () ↔ Valid r.
Proof.
  unfold validate. rewrite !reject_bind_Ok.
  rewrite record_malformed_false, retention_malformed_false, tombstone_malformed_false,
    attachment_malformed_false, threads_distinct, any_reinserted_empty.
  split.
  - intros ((?&?&?&?&?&?&?) & ? & ? & (?&?&?) & ? & ? & Hrest).
    apply bind_Ok in Hrest as ([] & Hid & Hrest).
    rewrite check_identities_Ok in Hid.
    apply bind_Ok in Hrest as (? & (Hrun & (Hf1 & Hf2 & Hf3) & _)%check_runs_Ok & Hrest).
    apply bind_Ok in Hrest as (? & (Hunk & Hback & _)%check_unknowns_Ok & _).
    simpl in *. rewrite fresh_list_empty in Hunk, Hf1, Hf2, Hf3. 
    rewrite fmap_all_calls in Hf1, Hf2, Hf3.
    split; try done; try by apply NoDup_bind_values.
    intros id run Hlook.
    destruct (proj1 (check_run_identity_Ok _ _ _) (Hid (id, run) (proj2 (elem_of_btree_iter _ _ _) Hlook)))
      as (?&?&?&?&?).
    destruct (Hrun run) as (?&?&?); [apply elem_of_btree_values; eauto|]. by split.
  - intros []. split_and!; try done; try apply v_digest0; try apply v_threads0.
    rewrite (proj2 (check_identities_Ok _ _)); simpl.
    2:{ intros [id run] Hin%elem_of_btree_iter. apply check_run_identity_Ok.
        by destruct (v_runs0 id run Hin). }
    erewrite (proj2 (check_runs_Ok _ _ _ _ _)); simpl.
    2:{ split_and!; [..|reflexivity].
        - intros run [id Hin]%elem_of_btree_values. by destruct (v_runs0 id run Hin).
        - unfold ledger_fresh. simpl. rewrite !fresh_list_empty, !fmap_all_calls.
          split_and!; by apply NoDup_bind_values. }
    erewrite (proj2 (check_unknowns_Ok _ _ _ _)); simpl; [done|].
    split_and!; [by apply fresh_list_empty|done|reflexivity].
Qed.
End with_externals.
