(* ===== verification/StoreInvariant.v ===== *)
(** * The invariant of the session record and its preservation

    [Inv] is what holds of every record the runtime stores: [Valid], and the
    facts about unfinished runs that the validator does not look at but that the
    transitions rely on.  [Evolves] says what a transition may do to a record:
    histories grow, runs keep their identity, terminal snapshots and recorded
    tool outcomes stay. *)

From S2P Require Import Prelude Protocol StoreState StoreValid.

(** ** Definitions *)

(** What holds of an unfinished run. *)
Record LiveOk (history : list CanonicalItem) (run : StoredRun) : Prop := {
  live_result : snap_result (run_snapshot run) = None;
  live_usage : is_ok (checked_usage (step_usages (run_model_inputs run))) = true;
  live_reserved : ∀ c item, c ∈ run_calls run → sc_committed c = false → item ∈ history →
    item_id item ≠ sc_result_item_id c;
}.

Definition all_committed (run : StoredRun) : Prop :=
  ∀ c, c ∈ run_calls run → sc_committed c = true.

Record Inv `{Externals} (r : SessionRecord) : Prop := {
  inv_valid : Valid r;
  inv_schema : sr_schema_version r = 2%N;
  inv_live : ∀ id run, sr_runs r !! id = Some run → terminal run = false →
    LiveOk (sr_history r) run;
  inv_done : ∀ id run, sr_runs r !! id = Some run → terminal run = true → all_committed run;
  inv_single : ∀ id1 id2 run1 run2, sr_runs r !! id1 = Some run1 → sr_runs r !! id2 = Some run2 →
    terminal run1 = false → terminal run2 = false → id1 = id2;
}.

(** A call keeps its identity and never loses an intent, an outcome or its commitment. *)
Record CallEvolves (c c' : StoredCall) : Prop := {
  ce_call : sc_call_id c' = sc_call_id c;
  ce_step : sc_step_id c' = sc_step_id c;
  ce_tool : sc_tool_name c' = sc_tool_name c;
  ce_result : sc_result_item_id c' = sc_result_item_id c;
  ce_execution : sc_execution_id c' = sc_execution_id c;
  ce_intent : ∀ i, sc_intent c = Some i → sc_intent c' = Some i;
  ce_outcome : ∀ o, sc_outcome c = Some o → sc_outcome c' = Some o;
  ce_committed : sc_committed c = true → sc_committed c' = true;
}.

Record RunEvolves (run run' : StoredRun) : Prop := {
  re_params : run_params run' = run_params run;
  re_options : run_effective_options run' = run_effective_options run;
  re_start : run_history_start run' = run_history_start run;
  re_done : terminal run = true → run_snapshot run' = run_snapshot run;
  re_calls : ∃ kept added, run_calls run' = kept ++ added ∧ Forall2 CallEvolves (run_calls run) kept;
}.

Definition RunsEvolve (runs runs' : gmap string StoredRun) : Prop :=
  ∀ id run, runs !! id = Some run → ∃ run', runs' !! id = Some run' ∧ RunEvolves run run'.

Record Evolves (r r' : SessionRecord) : Prop := {
  ev_history : sr_history r `prefix_of` sr_history r';
  ev_threads : sr_historical_thread_ids r `prefix_of` sr_historical_thread_ids r';
  ev_runs : RunsEvolve (sr_runs r) (sr_runs r');
}.

(** Everything of a record but its history, its runs and its unknown executions. *)
Definition frame (r : SessionRecord) :=
  (sr_schema_version r, sr_created_at_ms r, sr_updated_at_ms r, sr_detached_since_ms r,
   sr_retired_at_ms r, sr_retirement_reason r, sr_recovery_id r, sr_secret_digest r,
   sr_revision r, sr_epoch r, sr_owner r, sr_thread_id r, sr_historical_thread_ids r,
   sr_forgotten r, sr_configuration r).

(** The two fresh identities of a model item, and the item itself, collide with
    nothing recorded. *)
Definition fresh_for (r : SessionRecord) (op : RunMutation) (fresh_result fresh_execution : string) : Prop :=
  match op with
  | ModelItem _ item =>
      (∀ id run, sr_runs r !! id = Some run → item_id item ∉ result_ids run) ∧
      (∀ i, i ∈ sr_history r → item_id i ≠ fresh_result) ∧ item_id item ≠ fresh_result ∧
      (∀ id run, sr_runs r !! id = Some run →
         fresh_result ∉ result_ids run ∧ fresh_execution ∉ execution_ids run)
  | _ => True
  end.

(** ** Evolution is a preorder *)

#[export] Instance CallEvolves_preorder : PreOrder CallEvolves.
Proof. split; [by split|]. intros c1 c2 c3 [] []. split; intros; try congruence; eauto. Qed.

#[export] Instance RunEvolves_preorder : PreOrder RunEvolves.
Proof.
  split.
  - intros run. split; try done. exists (run_calls run), []. by rewrite app_nil_r.
  - intros r1 r2 r3 [?? ? Hd (k1 & a1 & H1 & F1)] [?? ? Hd' (k2 & a2 & H2 & F2)].
    split; try congruence.
    { intros Ht. rewrite Hd', Hd; [done..|]. unfold terminal in *. by rewrite Hd. }
    rewrite H1 in F2. apply Forall2_app_inv_l in F2 as (k1' & a1' & F2 & F3 & ->).
    exists k1', (a1' ++ a2). rewrite H2, app_assoc. split; [done|]. by etrans.
Qed.

#[export] Instance RunsEvolve_preorder : PreOrder RunsEvolve.
Proof.
  split; [intros runs id run ?; by exists run|].
  intros m1 m2 m3 H1 H2 id run Hrun. destruct (H1 id run Hrun) as (run2 & Hrun2 & ?).
  destruct (H2 id run2 Hrun2) as (run3 & ? & ?). exists run3. split; [done|]. by etrans.
Qed.

#[export] Instance Evolves_preorder : PreOrder Evolves.
Proof. split; [by split|]. intros ??? [] []. split; by etrans. Qed.

Lemma RunsEvolve_insert runs id run run' :
  runs !! id = Some run → RunEvolves run run' → RunsEvolve runs (<[id := run']> runs).
Proof.
  intros Hrun Hev id' run0 Hrun0. destruct (decide (id' = id)) as [->|].
  - exists run'. by simplify_map_eq.
  - exists run0. by simplify_map_eq.
Qed.

Lemma CallEvolves_set_intent c i : sc_intent c = None → CallEvolves c (set_intent (Some i) c).
Proof. intros. split; simpl; congruence. Qed.
Lemma CallEvolves_set_outcome c o :
  (∀ o', sc_outcome c = Some o' → o' = o) → CallEvolves c (set_outcome (Some o) c).
Proof. intros Ho. split; simpl; try congruence. intros o' ?. f_equal. symmetry. eauto. Qed.
Lemma CallEvolves_set_committed c : CallEvolves c (set_committed true c).
Proof. by split. Qed.

Lemma Forall2_fmap_eq {A B} (g : A → B) (R : A → A → Prop) l k :
  (∀ x y, R x y → g y = g x) → Forall2 R l k → g <$> k = g <$> l.
Proof. intros Hg. induction 1; csimpl; f_equal; auto. Qed.

Lemma CallsEvolve_ids l k : Forall2 CallEvolves l k →
  sc_call_id <$> k = sc_call_id <$> l ∧ sc_execution_id <$> k = sc_execution_id <$> l ∧
  sc_result_item_id <$> k = sc_result_item_id <$> l.
Proof.
  intros HF. split_and!; (apply (Forall2_fmap_eq _ CallEvolves); [|done]); by intros ?? [].
Qed.

(** ** Monotonicity of the well-formedness of a run *)

Lemma CallOk_mono h h' steps steps' c :
  h ⊆ h' → steps ⊆ steps' → CallOk h steps c → CallOk h' steps' c.
Proof.
  intros Hh Hs [? ? (i & ? & ?) ? ? Hc]. split; auto.
  - exists i. auto.
  - intros (o & ? & ?)%Hc. exists o. auto.
Qed.

Lemma StepsOk_mono rev rev' steps : (rev <= rev')%N → StepsOk rev steps → StepsOk rev' steps.
Proof.
  intros ? [? Hwf ?]. split; auto. intros s Hs. destruct (Hwf s Hs) as (?&?&?&?).
  split_and!; auto. lia.
Qed.

Lemma RunOk_mono h h' rev rev' id run :
  h `prefix_of` h' → (rev <= rev')%N → RunOk h rev id run → RunOk h' rev' id run.
Proof.
  intros [k ->] ? []. split; auto.
  - rewrite length_app. lia.
  - by eapply StepsOk_mono.
  - intros c ?. eapply CallOk_mono; [..|auto]; [set_solver|done].
Qed.

Lemma UnknownBacked_evolves runs runs' u :
  RunsEvolve runs runs' → UnknownBacked runs u → UnknownBacked runs' u.
Proof.
  intros Hev (run & c & Hrun & Hc & He & Hi & [i Hint] & [o Hout]).
  destruct (Hev _ _ Hrun) as (run' & Hrun' & [_ _ _ _ (kept & added & Heq & HF)]).
  apply list_elem_of_lookup in Hc as [j Hj].
  destruct (Forall2_lookup_l _ _ _ _ _ HF Hj) as (c' & Hj' & [? ? ? ? ? Hi' Ho' ?]).
  exists run', c'. split_and!; try done; try congruence.
  - rewrite Heq. apply elem_of_app. left. by eapply list_elem_of_lookup_2.
  - rewrite (Hi' i Hint). eauto.
  - rewrite (Ho' o Hout). eauto.
Qed.

(** ** One run of the record changes *)

Section with_externals.
Context `{Externals}.

(** A transition that replaces one run, appends to the history and to the
    unknown executions keeps the record valid. *)
Lemma Valid_update r turn run run' added unknown :
  Valid r → sr_runs r !! turn = Some run →
  (terminal run = true → terminal run' = true) →
  NoDup (item_id <$> sr_history r ++ added) →
  RunEvolves run run' →
  RunOk (sr_history r ++ added) (sr_revision r) turn run' →
  spread_distinct call_ids (<[turn := run']> (sr_runs r)) →
  spread_distinct execution_ids (<[turn := run']> (sr_runs r)) →
  spread_distinct result_ids (<[turn := run']> (sr_runs r)) →
  NoDup (unk_execution_id <$> sr_unknown_executions r ++ unknown) →
  (∀ u, u ∈ unknown → UnknownBacked (<[turn := run']> (sr_runs r)) u) →
  Valid (set_unknown_executions (sr_unknown_executions r ++ unknown)
           (set_runs (<[turn := run']> (sr_runs r)) (set_history (sr_history r ++ added) r))).
Proof.
  intros HV Hrun Hterm Hh Hev Hok Hc He Hr Hu Hb. split; try by destruct HV.
  - intros Hs. by destruct (v_retention r HV Hs).
  - simpl. intros Hf. destruct (v_tombstone r HV Hf) as (_ & _ & Hempty & _).
    rewrite Hempty in Hrun. by simplify_map_eq.
  - intros (id & run0 & Hrun0 & Ht)%active_true. simpl in *. apply (v_active r HV), active_true.
    destruct (decide (id = turn)) as [->|]; simplify_map_eq; [|by eauto].
    exists turn, run. split; [done|]. destruct (terminal run); [|done]. rewrite Hterm in Ht; done.
  - simpl. apply map_Forall_insert_2; [done|]. intros id run0 Hrun0.
    eapply RunOk_mono; [by eexists|reflexivity|by apply (v_runs r HV)].
  - simpl. intros u [Hu'|Hu']%elem_of_app; [|auto].
    eapply UnknownBacked_evolves; [by eapply RunsEvolve_insert|by apply (v_unknown r HV)].
Qed.
End with_externals.

(** ** The operations of [mutate] on one run *)

(** What an operation on an unfinished run establishes; [new] are the calls it adds. *)
Record OpOk (rev : N) (history : list CanonicalItem) (run : StoredRun)
    (history' : list CanonicalItem) (run' : StoredRun) (new : list StoredCall) : Prop := {
  op_params : run_params run' = run_params run;
  op_snapshot : run_snapshot run' = run_snapshot run;
  op_options : run_effective_options run' = run_effective_options run;
  op_start : run_history_start run' = run_history_start run;
  op_history : ∃ added, history' = history ++ added ∧ NoDup (item_id <$> history');
  op_calls : ∃ kept, run_calls run' = kept ++ new ∧ Forall2 CallEvolves (run_calls run) kept;
  op_steps : StepsOk rev (run_model_inputs run');
  op_calls_ok : ∀ c, c ∈ run_calls run' → CallOk history' (step_id <$> run_model_inputs run') c;
  op_usage : is_ok (checked_usage (step_usages (run_model_inputs run'))) = true;
  op_reserved : ∀ c item, c ∈ run_calls run' → sc_committed c = false → item ∈ history' →
    item_id item ≠ sc_result_item_id c;
}.

Lemma names_call_tool_id c item : names_call c item = true → tool_call_id item = Some (sc_call_id c).
Proof. destruct item; simpl; try done. intros. inv_bool. by subst. Qed.

Lemma answers_call_id c item : answers_call c item = true → item_id item = sc_result_item_id c.
Proof. destruct item; simpl; try done. intros. by inv_bool. Qed.

Lemma step_completed_true run s :
  step_completed run s = true ↔ ∃ x, x ∈ run_model_inputs run ∧ step_id x = s ∧ completed x = true.
Proof.
  unfold step_completed. rewrite existsb_true. setoid_rewrite andb_true_iff.
  by setoid_rewrite bool_decide_eq_true.
Qed.

Lemma elem_of_uncommitted c calls : c ∈ uncommitted calls ↔ c ∈ calls ∧ sc_committed c = false.
Proof. unfold uncommitted. by rewrite elem_of_filter_b, negb_true_iff. Qed.

Section one_run.
Context (rev : N) (turn : string) (history : list CanonicalItem) (run : StoredRun).
Context (Hrun : RunOk history rev turn run) (Hlive : LiveOk history run).
Context (Hids : NoDup (item_id <$> history)).

Lemma kept_all (new : list StoredCall) :
  ∃ kept, run_calls run ++ new = kept ++ new ∧ Forall2 CallEvolves (run_calls run) kept.
Proof. by exists (run_calls run). Qed.

Lemma op_model_input_ok step index request run' :
  op_model_input rev run step index request = Ok run' → OpOk rev history run history run' [].
Proof.
  unfold op_model_input. rewrite reject_bind_Ok. intros [Hg [= <-]].
  autorewrite with guards in Hg. destruct Hg as (((((Hs & Hi) & Hr) & _) & _) & Hnew).
  destruct Hrun as [_ _ _ _ _ _ [Hidx Hwf Hd] Hc], Hlive. split; simpl; try done.
  - exists []. by rewrite app_nil_r.
  - exists (run_calls run). by rewrite app_nil_r.
  - split.
    + intros i s [Hl|[-> <-]]%lookup_snoc_Some; [naive_solver|done].
    + intros s [?| ->%list_elem_of_singleton]%elem_of_app; [auto|]. simpl. by split_and!.
    + rewrite fmap_app. apply NoDup_app. split_and!; [done| |apply NoDup_singleton].
      intros x (s & -> & Hin)%list_elem_of_fmap Heq%list_elem_of_singleton. simpl in Heq.
      specialize (Hnew s Hin). by apply bool_decide_eq_false in Hnew.
  - intros c ?. eapply CallOk_mono; [done| |auto]. rewrite fmap_app. set_solver.
  - unfold step_usages in *. rewrite omap_app. simpl. by rewrite app_nil_r.
Qed.

Lemma op_model_item_ok step item fr fe history' run' :
  op_model_item history run step item fr fe = Ok (history', run') →
  (item_id item ∉ result_ids run) → (∀ i, i ∈ history → item_id i ≠ fr) → item_id item ≠ fr →
  ∃ new, OpOk rev history run history' run' new ∧
    (new = [] ∨ ∃ c, new = [c] ∧ sc_result_item_id c = fr ∧ sc_execution_id c = fe ∧
       ∀ i, i ∈ history → tool_call_id i ≠ Some (sc_call_id c)).
Proof.
  unfold op_model_item. intros Hop Hnotres Hfr Hfr'. inv_result.
  match goal with H : last _ = Some ?s |- _ => rename H into Hlast; rename s into current end.
  match goal with H : _ || _ = false |- _ => rename H into Hg end.
  autorewrite with guards in Hg. destruct Hg as ((((Hcur & Hnc) & Huser) & Hres) & Hdup).
  assert (NoDup (item_id <$> history ++ [item])) as Hnd.
  { rewrite fmap_app. apply NoDup_app. split_and!; [done| |apply NoDup_singleton].
    intros y (i & -> & Hin)%list_elem_of_fmap Heq%list_elem_of_singleton.
    specialize (Hdup i Hin). by apply bool_decide_eq_false in Hdup. }
  destruct Hrun as [_ _ _ _ _ _ Hsteps Hc], Hlive as [_ Husage Hreserved].
  assert (∀ c i, c ∈ run_calls run → sc_committed c = false → i ∈ history ++ [item] →
    item_id i ≠ sc_result_item_id c) as Hres'.
  { intros c i Hin Hcom [?| ->%list_elem_of_singleton]%elem_of_app; [by apply Hreserved|].
    intros Heq. apply Hnotres. rewrite Heq. unfold result_ids. by apply list_elem_of_fmap_2. }
  assert (∀ c, c ∈ run_calls run → CallOk (history ++ [item]) (step_id <$> run_model_inputs run) c)
    as Hc' by (intros c ?; eapply CallOk_mono; [..|auto]; set_solver).
  assert (∃ added : list CanonicalItem, history ++ [item] = history ++ added ∧
    NoDup (item_id <$> history ++ [item])) as Hadd by eauto.
  destruct item as [| | |id call_id ns name args raw|]; simpl in *; inv_result; try done;
    [exists []; split; [|by left]; split; simpl; try done;
     eexists; rewrite app_nil_r; by split ..|].
  autorewrite with guards in *.
  match goal with H : _ ∧ _ |- _ => destruct H as [Hcall Hold] end.
  eexists. split; [|right; eexists; split; [reflexivity|]].
  - split; simpl; try done.
    + apply kept_all.
    + intros c [?| ->%list_elem_of_singleton]%elem_of_app; [auto|]. split; simpl; try done.
      * apply list_elem_of_fmap_2. apply last_Some_snoc in Hlast as [? ->]. set_solver.
      * exists (ToolCall id call_id ns name args raw). split; [set_solver|]. simpl.
        by rewrite !bool_decide_eq_true_2.
    + intros c i [?| ->%list_elem_of_singleton]%elem_of_app; [auto|]. simpl.
      intros _ [?| ->%list_elem_of_singleton]%elem_of_app; auto.
  - simpl. split_and!; [done..|]. intros i Hin Heq. specialize (Hold i Hin).
    by apply bool_decide_eq_false in Hold.
Qed.

Lemma op_step_finished_ok step reported run' :
  op_step_finished run step reported = Ok run' → OpOk rev history run history run' [].
Proof.
  unfold op_step_finished. intros Hop. inv_result.
  match goal with H : last _ = Some ?s |- _ => rename H into Hlast; rename s into current end.
  match goal with H : checked_usage _ = Ok _ |- _ => rename H into Hu end.
  match goal with H : _ || _ = false |- _ => rename H into Hg end.
  autorewrite with guards in Hg. destruct Hg as [Hcur Hnc].
  apply last_Some_snoc in Hlast as [l Hl]. destruct Hrun as [_ _ _ _ _ _ [Hidx Hwf Hd] Hc], Hlive.
  rewrite Hl in *. rewrite update_last_snoc. destruct (Hwf current) as (?&?&Hcu&?); [set_solver|].
  rewrite Hnc in Hcu. symmetry in Hcu. apply is_some_false in Hcu.
  assert (step_id <$> l ++ [finish_step reported current] = step_id <$> l ++ [current]) as Hsame
    by by rewrite !fmap_app.
  split; simpl; try done.
  - exists []. by rewrite app_nil_r.
  - exists (run_calls run). by rewrite app_nil_r.
  - split.
    + intros i s [[_ Hls]|[-> <-]]%lookup_snoc_Some; [apply Hidx; by apply lookup_app_l_Some|].
      simpl. apply Hidx. by apply list_lookup_middle.
    + intros s [?| ->%list_elem_of_singleton]%elem_of_app; [apply Hwf; set_solver|done].
    + by rewrite Hsame.
  - by rewrite Hsame.
  - unfold step_usages in *. rewrite omap_app in *. simpl in *. rewrite Hcu in Hu.
    simpl in Hu. rewrite app_nil_r in Hu. by rewrite Hu.
Qed.

(** An update of one call. *)
Lemma op_update_call_ok call_id call f :
  find_first (λ c, sc_call_id c == call_id) (run_calls run) = Some call →
  CallEvolves call (f call) → (sc_committed call = true ∨ sc_committed (f call) = false) →
  CallOk history (step_id <$> run_model_inputs run) (f call) →
  OpOk rev history run history
    (set_calls (update_first (λ c, sc_call_id c == call_id) f (run_calls run)) run) [].
Proof.
  intros Hfind Hev Hcom Hok. destruct Hrun as [_ _ _ _ _ _ Hsteps Hc], Hlive as [_ Husage Hreserved].
  assert (∀ c, c ∈ update_first (λ c, sc_call_id c == call_id) f (run_calls run) →
    c ∈ run_calls run ∨ c = f call) as Hin.
  { intros c [?|(x & ? & ->)]%elem_of_update_first; [by left|right]. congruence. }
  split; simpl; try done.
  - exists []. by rewrite app_nil_r.
  - eexists. rewrite app_nil_r. split; [done|].
    apply find_first_Some in Hfind as (l1 & l2 & -> & Hp & Hl1).
    rewrite update_first_split by done. apply Forall2_app; [done|]. by constructor.
  - intros c [?| ->]%Hin; auto.
  - intros c item [?| ->]%Hin; [by apply Hreserved|]. intros Hf Hitem.
    rewrite (ce_result _ _ Hev). apply Hreserved; [|destruct Hcom as [Ht|]; [|]|done].
    + by apply find_first_Some in Hfind as (l1 & l2 & -> & _ & _); set_solver.
    + by rewrite (ce_committed _ _ Hev Ht) in Hf.
    + destruct (sc_committed call) eqn:Ht; [|done]. by rewrite (ce_committed _ _ Hev Ht) in Hf.
Qed.

Lemma found_call call_id call :
  find_first (λ c, sc_call_id c == call_id) (run_calls run) = Some call →
  call ∈ run_calls run ∧ sc_call_id call = call_id.
Proof.
  intros (l1 & l2 & -> & Hp & _)%find_first_Some. inv_bool. split; [set_solver|done].
Qed.

Lemma op_dispatch_ok call_id execution run' :
  op_dispatch run call_id execution = Ok run' → OpOk rev history run history run' [].
Proof.
  unfold op_dispatch. intros Hop. inv_result.
  match goal with H : find_first _ _ = Some ?c |- _ => rename H into Hfind; rename c into call end.
  match goal with H : _ || _ = false |- _ => rename H into Hg end.
  autorewrite with guards in Hg. destruct Hg as (((Hex & Hint) & Hout) & _).
  destruct (found_call _ _ Hfind) as [Hin <-].
  destruct (run_calls_ok _ _ _ _ Hrun call Hin).
  eapply op_update_call_ok; [done|by apply CallEvolves_set_intent| |].
  - simpl. destruct (sc_committed call); auto.
  - split; simpl; try done. by intros i [= <-].
Qed.

Lemma op_tool_outcome_ok call_id reported run' item :
  op_tool_outcome run call_id reported = Ok (run', item) → OpOk rev history run history run' [].
Proof.
  unfold op_tool_outcome. intros Hop. inv_result.
  match goal with H : find_first _ _ = Some ?c |- _ => rename H into Hfind; rename c into call end.
  destruct reported; try done. inv_result.
  match goal with H : is_some_and _ _ = false |- _ => rename H into Hold end.
  rewrite is_some_and_false in Hold.
  destruct (found_call _ _ Hfind) as [Hin <-].
  destruct (run_calls_ok _ _ _ _ Hrun call Hin) as [? ? ? ? Hout Hcom].
  eapply op_update_call_ok; [done| | |].
  - apply CallEvolves_set_outcome. intros o Ho. specialize (Hold o Ho). by inv_bool.
  - simpl. destruct (sc_committed call); auto.
  - split; simpl; try done.
    + intros o [= <-]. simpl. by rewrite !bool_decide_eq_true_2.
    + intros (o & Ho & ?)%Hcom. eexists. split; [done|]. specialize (Hold o Ho). inv_bool. by subst.
Qed.
End one_run.

(** ** Calls that are answered and committed *)

Arguments uncommitted : simpl never.

(** The item that ends up in the history for a call: its recorded outcome, or
    the error the finalizer makes up. *)
Definition answer (c : StoredCall) : CanonicalItem := default (missing_result c) (sc_outcome c).
Definition settled (c : StoredCall) : StoredCall :=
  set_committed true (set_outcome (Some (answer c)) c).
(** Dispatched, and no outcome recorded. *)
Definition lost (c : StoredCall) : bool := is_none (sc_outcome c) && is_some (sc_intent c).

Lemma set_committed_id c : sc_committed c = true → set_committed true c = c.
Proof. destruct c; simpl. by intros ->. Qed.
Lemma set_outcome_id c o : sc_outcome c = Some o → set_outcome (Some o) c = c.
Proof. destruct c; simpl. by intros ->. Qed.

Lemma settled_recorded c : is_Some (sc_outcome c) → settled c = set_committed true c.
Proof. intros [o Ho]. unfold settled, answer. rewrite Ho. simpl. by rewrite set_outcome_id. Qed.

Lemma CallEvolves_settled c : CallEvolves c (settled c).
Proof.
  split; simpl; auto. intros o Ho. unfold answer. by rewrite Ho.
Qed.

Lemma uncommitted_cons c l :
  uncommitted (c :: l) = (if sc_committed c then [] else [c]) ++ uncommitted l.
Proof. unfold uncommitted. simpl. by destruct (sc_committed c). Qed.

Lemma commit_calls_eq h k calls :
  (∀ c, c ∈ calls → is_Some (sc_outcome c)) →
  foldl commit_call (h, k) calls = (h ++ (answer <$> uncommitted calls), k ++ (settled <$> calls)).
Proof.
  revert h k. induction calls as [|c calls IH]; intros h k Hall; csimpl; [by rewrite !app_nil_r|].
  rewrite uncommitted_cons, fmap_app, settled_recorded by (apply Hall; set_solver).
  destruct (Hall c) as [o Ho]; [set_solver|]. destruct (sc_committed c) eqn:Hc.
  - rewrite IH by set_solver. rewrite set_committed_id by done. simpl. by rewrite <-app_assoc.
  - rewrite IH by set_solver. csimpl. unfold answer at 2. rewrite Ho. simpl. by rewrite <-!app_assoc.
Qed.

Lemma settle_calls_eq turn st calls :
  (∀ c, c ∈ calls → sc_committed c = true → is_Some (sc_outcome c)) →
  foldl (settle_call turn) st calls =
    {| st_calls := st_calls st ++ (settled <$> calls);
       st_history := st_history st ++ (answer <$> uncommitted calls);
       st_unknown := st_unknown st ++ (unknown_of turn <$> List.filter lost calls);
       st_incomplete := st_incomplete st || existsb (λ c, is_none (sc_outcome c)) calls |}.
Proof.
  revert st. induction calls as [|c calls IH]; intros st Hall; csimpl.
  { rewrite !app_nil_r, orb_false_r. by destruct st. }
  rewrite IH by set_solver. clear IH. rewrite uncommitted_cons, fmap_app.
  unfold settle_call, lost at 2. simpl. rewrite <-!app_assoc, orb_assoc.
  assert ((if sc_committed c
     then if is_none (sc_outcome c) then set_outcome (Some (missing_result c)) c else c
     else set_committed true (if is_none (sc_outcome c)
            then set_outcome (Some (missing_result c)) c else c)) = settled c) as ->.
  { unfold settled, answer. destruct (sc_outcome c) as [o|] eqn:Ho; simpl.
    - rewrite set_outcome_id by done. destruct (sc_committed c) eqn:?; [|done].
      by rewrite set_committed_id.
    - destruct (sc_committed c) eqn:Hc; [|done]. destruct (Hall c); [set_solver|done|]. congruence. }
  f_equal.
  - f_equal. f_equal. destruct (sc_committed c) eqn:Hc; [done|]. unfold answer.
    by destruct (sc_outcome c) eqn:Ho; csimpl; rewrite ?Ho.
  - f_equal. by destruct (is_none (sc_outcome c) && is_some (sc_intent c)).
Qed.

Section settle.
Context (rev : N) (turn : string) (history : list CanonicalItem) (run : StoredRun).
Context (Hrun : RunOk history rev turn run) (Hlive : LiveOk history run).
Context (Hids : NoDup (item_id <$> history)) (Hresults : NoDup (result_ids run)).

Lemma committed_recorded c : c ∈ run_calls run → sc_committed c = true → is_Some (sc_outcome c).
Proof.
  intros Hin Hc. destruct (run_calls_ok _ _ _ _ Hrun c Hin) as [_ _ _ _ _ Hcom].
  destruct (Hcom Hc) as (? & ? & _). eauto.
Qed.

Lemma answer_answers c : c ∈ run_calls run → answers_call c (answer c) = true.
Proof.
  intros Hin. destruct (run_calls_ok _ _ _ _ Hrun c Hin) as [_ _ _ _ Hout _]. unfold answer.
  destruct (sc_outcome c) eqn:Ho; simpl; [by apply Hout|]. by rewrite !bool_decide_eq_true_2.
Qed.

Lemma answers_distinct : NoDup (item_id <$> history ++ (answer <$> uncommitted (run_calls run))).
Proof.
  rewrite fmap_app. apply NoDup_app.
  assert (item_id <$> (answer <$> uncommitted (run_calls run)) =
    sc_result_item_id <$> uncommitted (run_calls run)) as ->.
  { rewrite <-list_fmap_compose. apply list_fmap_ext. intros i c Hc. simpl.
    apply list_elem_of_lookup_2, elem_of_uncommitted in Hc as [Hc _].
    apply answers_call_id, answer_answers, Hc. }
  split_and!; [done| |].
  - intros x (i & -> & Hi)%list_elem_of_fmap (c & Heq & [Hc Hu]%elem_of_uncommitted)%list_elem_of_fmap.
    by apply (live_reserved _ _ Hlive c i).
  - by apply NoDup_fmap_filter_b.
Qed.

Lemma CallOk_settled c :
  c ∈ run_calls run →
  CallOk (history ++ (answer <$> uncommitted (run_calls run))) (step_id <$> run_model_inputs run)
    (settled c).
Proof.
  intros Hin. pose proof (run_calls_ok _ _ _ _ Hrun c Hin) as [? ? (i & ? & ?) ? Hout Hcom].
  split; simpl; try done.
  - exists i. split; [set_solver|done].
  - intros o [= <-]. exact (answer_answers c Hin).
  - intros _. eexists. split; [done|]. apply elem_of_app. destruct (sc_committed c) eqn:Hc.
    + left. destruct (Hcom eq_refl) as (o & Ho & ?). unfold answer. by rewrite Ho.
    + right. by apply list_elem_of_fmap_2, elem_of_uncommitted.
Qed.

Lemma Forall2_settled : Forall2 CallEvolves (run_calls run) (settled <$> run_calls run).
Proof. apply Forall2_fmap_r, Forall_Forall2_diag, Forall_forall. intros. apply CallEvolves_settled. Qed.

Lemma op_tool_batch_ok call_ids history' run' :
  op_tool_batch history run call_ids = Ok (history', run') → OpOk rev history run history' run' [].
Proof.
  unfold op_tool_batch. rewrite reject_bind_Ok. intros [Hg Heq].
  autorewrite with guards in Hg. destruct Hg as [_ Hg].
  rewrite commit_calls_eq in Heq.
  2:{ intros c Hc. destruct (sc_committed c) eqn:Hcom; [by apply committed_recorded|].
      apply is_none_false, Hg. by apply elem_of_uncommitted. }
  injection Heq as <- <-. destruct Hrun as [_ _ _ _ _ _ Hsteps _], Hlive as [_ Husage _].
  split; simpl; try done.
  - eexists. split; [done|]. apply answers_distinct.
  - eexists. rewrite app_nil_r. split; [done|]. apply Forall2_settled.
  - intros c (c' & -> & ?)%list_elem_of_fmap. by apply CallOk_settled.
  - by intros c item (c' & -> & ?)%list_elem_of_fmap.
Qed.
End settle.

(** ** [mutate] preserves the invariant *)

(** The calls that an operation adds, none or one, collide with nothing. *)
Definition new_calls_fresh (r : SessionRecord) (new : list StoredCall) : Prop :=
  new = [] ∨ ∃ c, new = [c] ∧
    (∀ i, i ∈ sr_history r → tool_call_id i ≠ Some (sc_call_id c)) ∧
    (∀ id run, sr_runs r !! id = Some run →
       sc_result_item_id c ∉ result_ids run ∧ sc_execution_id c ∉ execution_ids run).

Section with_externals.
Context `{Externals}.

Lemma inv_run r id run : Inv r → sr_runs r !! id = Some run →
  RunOk (sr_history r) (sr_revision r) id run.
Proof. intros HI. apply (v_runs r (inv_valid r HI)). Qed.

Lemma mutate_run_ok r turn run op fr fe history' run' ret :
  Inv r → sr_runs r !! turn = Some run → terminal run = false → fresh_for r op fr fe →
  mutate_run (sr_revision r) (sr_history r) run op fr fe = Ok (history', run', ret) →
  ∃ new, OpOk (sr_revision r) (sr_history r) run history' run' new ∧ new_calls_fresh r new.
Proof.
  intros HI Hrun Ht Hfresh Hop.
  pose proof (inv_run r turn run HI Hrun) as HR. pose proof (inv_live r HI turn run Hrun Ht) as HL.
  pose proof (v_history r (inv_valid r HI)) as Hids.
  pose proof (proj1 (v_result_ids r (inv_valid r HI)) turn run Hrun) as Hres.
  destruct op; simpl in Hop; inv_result.
  - exists []. split; [by eapply op_model_input_ok|by left].
  - simpl in Hfresh. destruct Hfresh as (Hf1 & Hf2 & Hf3 & Hf4).
    match goal with H : op_model_item _ _ _ _ _ _ = _ |- _ =>
      eapply op_model_item_ok in H as (new & Hop & Hnew); eauto end.
    exists new. split; [done|]. destruct Hnew as [->|(c & -> & <- & <- & Hc)]; [by left|].
    right. exists c. eauto.
  - exists []. split; [by eapply op_step_finished_ok|by left].
  - exists []. split; [by eapply op_dispatch_ok|by left].
  - exists []. split; [by eapply op_tool_outcome_ok|by left].
  - exists []. split; [by eapply op_tool_batch_ok|by left].
Qed.

Lemma spread_new_calls {B : Type} (g : StoredCall → B) r turn run run' new :
  Valid r → sr_runs r !! turn = Some run →
  spread_distinct (λ run, g <$> run_calls run) (sr_runs r) →
  (g <$> run_calls run') = (g <$> run_calls run) ++ (g <$> new) →
  (new = [] ∨ ∃ c, new = [c] ∧ ∀ id run, sr_runs r !! id = Some run → g c ∉ g <$> run_calls run) →
  spread_distinct (λ run, g <$> run_calls run) (<[turn := run']> (sr_runs r)).
Proof.
  intros HV Hrun Hsp Heq [->|(c & -> & Hc)].
  - eapply spread_distinct_update; [done..|]. by rewrite Heq, app_nil_r.
  - eapply spread_distinct_snoc; [done..|]. eauto.
Qed.

(** No call item of the history names a call that no run records. *)
Lemma unrecorded_call r c : Valid r → (∀ i, i ∈ sr_history r → tool_call_id i ≠ Some (sc_call_id c)) →
  ∀ id run, sr_runs r !! id = Some run → sc_call_id c ∉ call_ids run.
Proof.
  intros HV Hc id run Hrun (c' & Heq & Hc')%list_elem_of_fmap.
  destruct (run_calls_ok _ _ _ _ (v_runs r HV id run Hrun) c' Hc') as [_ _ (i & Hi & Hn) _ _ _].
  apply (Hc i Hi). rewrite (names_call_tool_id _ _ Hn). congruence.
Qed.

Lemma OpOk_RunEvolves rev h run h' run' new snap :
  terminal run = false → OpOk rev h run h' run' new → RunEvolves run (set_snapshot snap run').
Proof.
  intros Ht []. split; simpl; try done; [by rewrite Ht|]. destruct op_calls0 as (kept & ? & ?).
  by exists kept, new.
Qed.

(** The record after an operation on the run [turn]. *)
Definition with_run (r : SessionRecord) (turn : string) (history : list CanonicalItem)
    (run : StoredRun) : SessionRecord :=
  set_runs (<[turn := run]> (sr_runs r)) (set_history history r).

Lemma with_run_unknown r turn h run :
  with_run r turn h run = set_unknown_executions (sr_unknown_executions r ++ []) (with_run r turn h run).
Proof. rewrite app_nil_r. by destruct r. Qed.

Lemma Inv_op r turn run history' run' new :
  Inv r → sr_runs r !! turn = Some run → terminal run = false →
  OpOk (sr_revision r) (sr_history r) run history' run' new → new_calls_fresh r new →
  let run2 := set_snapshot (set_items (run_items history' run') (run_snapshot run')) run' in
  Inv (with_run r turn history' run2) ∧ Evolves r (with_run r turn history' run2).
Proof.
  intros HI Hrun Ht Hop Hnew run2. pose proof (inv_valid r HI) as HV.
  pose proof (inv_run r turn run HI Hrun) as HR. pose proof (inv_live r HI turn run Hrun Ht) as HL.
  destruct (op_history _ _ _ _ _ _ Hop) as (added & -> & Hids).
  destruct (op_calls _ _ _ _ _ _ Hop) as (kept & Hcalls & HF).
  assert (RunEvolves run run2) as Hev by by eapply OpOk_RunEvolves.
  assert (terminal run2 = false) as Ht2.
  { unfold terminal, run2. simpl. by rewrite (op_snapshot _ _ _ _ _ _ Hop). }
  assert (∀ B (g : StoredCall → B), g <$> kept = g <$> run_calls run →
    g <$> run_calls run2 = (g <$> run_calls run) ++ (g <$> new)) as Hg.
  { intros B g Hk. simpl. by rewrite Hcalls, fmap_app, Hk. }
  destruct (CallsEvolve_ids _ _ HF) as (Hk1 & Hk2 & Hk3).
  assert (LiveOk (sr_history r ++ added) run2) as HL2.
  { split; simpl; [|by destruct Hop..].
    rewrite (op_snapshot _ _ _ _ _ _ Hop). by destruct HL. }
  split.
  - split; [rewrite with_run_unknown; eapply Valid_update; try done| | | |].
    + rewrite Ht. done.
    + destruct HR, Hop. split; simpl in *; try done; try congruence.
      * rewrite op_start0, length_app. lia.
      * rewrite op_snapshot0. by destruct HL as [-> _ _].
    + eapply spread_new_calls; [done..|by apply v_call_ids|by apply Hg|].
      destruct Hnew as [?|(c & ? & ? & ?)]; [by left|right]. exists c. split; [done|].
      by apply unrecorded_call.
    + eapply spread_new_calls; [done..|by apply v_execution_ids|by apply Hg|].
      destruct Hnew as [?|(c & ? & ? & Hf)]; [by left|right]. exists c. split; [done|].
      intros id run0 Hr. by apply (Hf id run0 Hr).
    + eapply spread_new_calls; [done..|by apply v_result_ids|by apply Hg|].
      destruct Hnew as [?|(c & ? & ? & Hf)]; [by left|right]. exists c. split; [done|].
      intros id run0 Hr. by apply (Hf id run0 Hr).
    + rewrite app_nil_r. by apply v_unknown_ids.
    + set_solver.
    + exact (inv_schema r HI).
    + simpl. intros id run0. destruct (decide (id = turn)) as [->|Hne]; intros Hl Ht0; simplify_map_eq; [done|].
      by destruct Hne; eapply (inv_single r HI).
    + simpl. intros id run0. destruct (decide (id = turn)) as [->|Hne]; intros Hl Ht0; simplify_map_eq; [congruence|].
      by eapply (inv_done r HI).
    + simpl. intros id1 id2 r1 r2. destruct (decide (id1 = turn)) as [->|], (decide (id2 = turn)) as [->|];
        intros; simplify_map_eq; try done; try (by eapply (inv_single r HI)).
  - split; simpl; [by eexists|done|]. by eapply RunsEvolve_insert.
Qed.

(** [mutate] keeps the invariant and only evolves the record. *)
Lemma mutate_Inv r turn op fr fe r' ret :
  Inv r → fresh_for r op fr fe → mutate r turn op fr fe = Ok (r', ret) → Inv r' ∧ Evolves r r'.
Proof.
  intros HI Hfresh Hm. unfold mutate in Hm. inv_result.
  match goal with H : mutate_run _ _ _ _ _ _ = Ok ?x |- _ =>
    rename H into Hop end.
  eapply mutate_run_ok in Hop as (new & Hop & Hnew); [|done..].
  by eapply Inv_op.
Qed.

(** ** [begin] *)

Lemma begin_Inv r params snap options r' b :
  Inv r → begin r params snap options = Ok (r', b) → Inv r' ∧ Evolves r r'.
Proof.
  intros HI Hb. pose proof (inv_valid r HI) as HV. unfold begin in Hb.
  destruct (sr_runs r !! turn_turn_id params) as [old|] eqn:Hold.
  { destruct (_ && _); [|done]. by injection Hb as <- <-. }
  rewrite !reject_bind_Ok in Hb. destruct Hb as (Hact & _ & Hacc & Hb).
  apply bind_Ok in Hb as ([] & _ & Hb). rewrite reject_bind_Ok in Hb.
  destruct Hb as [Hids [= <- <-]]. unfold acceptance_malformed in Hacc.
  autorewrite with guards in Hacc.
  destruct Hacc as (((((((Hthread & Hturn) & _) & _) & Hst) & Hsn) & Hterm) & Hres).
  apply any_reinserted_false in Hids as [Hids Hnew].
  assert (is_Some (sr_owner r)) as Howner.
  { apply is_some_true. by rewrite (v_attached r HV), Hthread. }
  assert (NoDup (item_id <$> sr_history r ++ turn_input_items params)) as Hnd.
  { rewrite fmap_app. apply NoDup_app. split_and!; [by apply v_history| |done].
    intros x Hx Hx'. apply (Hnew x Hx'). by apply elem_of_list_to_set. }
  assert (RunsEvolve (sr_runs r) (<[turn_turn_id params := 
      {| run_params := params; run_snapshot := set_items (turn_input_items params) snap;
         run_effective_options := options; run_history_start := length (sr_history r);
         run_model_inputs := []; run_calls := [] |}]> (sr_runs r))) as Hev.
  { intros id run Hrun. exists run. split; [|done]. rewrite lookup_insert_ne; congruence. }
  split; [|by split; [eexists|..]].
  assert (∀ B (g : StoredCall → B) run, run_calls run = [] →
    spread_distinct (λ run, g <$> run_calls run) (sr_runs r) →
    spread_distinct (λ run, g <$> run_calls run) (<[turn_turn_id params := run]> (sr_runs r))) as Hsp.
  { intros B g run Hnil Hsp. apply spread_distinct_insert; [done|rewrite Hnil; constructor|].
    intros. rewrite Hnil. set_solver. }
  rewrite active_false in Hact.
  split; [split; try by destruct HV| | | |].
  - intros Hs. by destruct (v_retention r HV Hs).
  - simpl. intros Hf. destruct (v_tombstone r HV Hf) as (Ho & _). rewrite Ho in Howner.
    by destruct Howner.
  - simpl. apply map_Forall_insert_2.
    + split; simpl; try done.
      * rewrite length_app. lia.
      * unfold terminal. simpl. by rewrite Hterm.
      * by rewrite Hres.
      * split; simpl; [done|set_solver|constructor].
      * set_solver.
    + intros id run Hrun. eapply RunOk_mono; [by eexists|reflexivity|by apply (v_runs r HV)].
  - by apply Hsp, v_call_ids.
  - by apply Hsp, v_execution_ids.
  - by apply Hsp, v_result_ids.
  - simpl. intros u Hu. eapply UnknownBacked_evolves; [done|by apply (v_unknown r HV)].
  - exact (inv_schema r HI).
  - simpl. intros id run [[<- <-]|[_ Hrun]]%lookup_insert_Some Ht.
    + split; simpl; [done..|set_solver].
    + rewrite (Hact id run Hrun) in Ht. done.
  - simpl. intros id run [[<- <-]|[_ Hrun]]%lookup_insert_Some Ht.
    + intros c. simpl. set_solver.
    + by eapply (inv_done r HI).
  - simpl. intros id1 id2 r1 r2 [[<- <-]|[_ H1]]%lookup_insert_Some
      [[<- <-]|[_ H2]]%lookup_insert_Some Ht1 Ht2; try done.
    + by rewrite (Hact id2 r2 H2) in Ht2.
    + by rewrite (Hact id1 r1 H1) in Ht1.
    + by rewrite (Hact id1 r1 H1) in Ht1.
Qed.

Lemma begin_frame r params snap options r' b :
  begin r params snap options = Ok (r', b) → frame r' = frame r.
Proof.
  unfold begin. intros Hb. destruct (sr_runs r !! _); [destruct (_ && _); by inv_result|].
  by inv_result.
Qed.

Lemma mutate_frame r turn op fr fe r' ret : mutate r turn op fr fe = Ok (r', ret) → frame r' = frame r.
Proof. unfold mutate. intros Hm. by inv_result. Qed.

(** ** [finalize] *)

Definition added_items (run : StoredRun) : list CanonicalItem := answer <$> uncommitted (run_calls run).
Definition unfinished (run : StoredRun) : bool :=
  existsb (λ c, is_none (sc_outcome c)) (run_calls run).
Definition lost_calls (turn : string) (run : StoredRun) : list UnknownExecution :=
  unknown_of turn <$> List.filter lost (run_calls run).

(** The closing snapshot of an unfinished run: the candidate completed with
    what the record knows. *)
Definition closed_snapshot (r : SessionRecord) (run : StoredRun) (candidate : RunSnapshot)
    (total : UsageMetrics) : RunSnapshot :=
  let downgrade := unfinished run && (snap_status candidate == RunCompleted) in
  let status := if downgrade then RunFailed else snap_status candidate in
  let items := run_items (sr_history r ++ added_items run) run in
  {| snap_tool_executions := omap sc_intent (run_calls run);
     snap_thread_id := snap_thread_id candidate; snap_turn_id := snap_turn_id candidate;
     snap_status := status; snap_items := items; snap_usage := total;
     snap_pending_approvals := [];
     snap_last_seq := N.max (snap_last_seq candidate)
                        (saturating_add (snap_last_seq (run_snapshot run)) 1);
     snap_result := Some {| res_turn_id := snap_turn_id candidate;
                            res_thread_id := snap_thread_id candidate;
                            res_status := result_status status; res_items := items;
                            res_usage := total |};
     snap_error := if downgrade then Some incomplete_failure else snap_error candidate |}.

Definition closed_record (r : SessionRecord) (turn : string) (run : StoredRun)
    (candidate : RunSnapshot) (total : UsageMetrics) : SessionRecord :=
  set_unknown_executions (sr_unknown_executions r ++ lost_calls turn run)
    (with_run r turn (sr_history r ++ added_items run)
       (set_snapshot (closed_snapshot r run candidate total)
          (set_calls (settled <$> run_calls run) run))).

(** A candidate that may close the run. *)
Definition closes (turn : string) (run : StoredRun) (candidate : RunSnapshot) : Prop :=
  snap_thread_id candidate = turn_thread_id (run_params run) ∧
  snap_turn_id candidate = turn ∧ is_terminal (snap_status candidate) = true.

Lemma omap_intent_settled (calls : list StoredCall) : omap sc_intent (settled <$> calls) = omap sc_intent calls.
Proof. induction calls as [|c calls IH]; csimpl; [done|]. by rewrite IH. Qed.

(** What [finalize] does to an unfinished run of a good record: with a candidate
    that may close it, it never fails. *)
Lemma finalize_live r turn run candidate :
  Inv r → sr_runs r !! turn = Some run → terminal run = false →
  ∃ total, checked_usage (step_usages (run_model_inputs run)) = Ok total ∧
    (closes turn run candidate →
       finalize r turn candidate = Ok (closed_record r turn run candidate total,
         {| fin_snapshot := closed_snapshot r run candidate total;
            fin_history := sr_history r ++ added_items run |})) ∧
    (¬ closes turn run candidate →
       finalize r turn candidate = Err (Invalid "Invalid terminal identity/status")).
Proof.
  intros HI Hrun Ht. pose proof (live_usage _ _ (inv_live r HI turn run Hrun Ht)) as Hu.
  destruct (checked_usage _) as [total|] eqn:Htotal; [|done]. exists total.
  split; [done|]. unfold finalize. rewrite Hrun. simpl. rewrite Ht. unfold closes. split.
  - intros (H1 & H2 & H3). rewrite reject_if_false.
    2:{ autorewrite with guards. done. }
    simpl. rewrite Htotal. simpl. rewrite settle_calls_eq.
    2:{ intros c ?. eapply committed_recorded; [by eapply inv_run|done]. }
    simpl. rewrite omap_intent_settled. unfold closed_record, closed_snapshot, lost_calls, added_items,
      unfinished, with_run. by rewrite H2.
  - intros Hn. rewrite reject_if_true; [done|]. apply not_false_iff_true. autorewrite with guards. tauto.
Qed.

Lemma closed_terminal r turn run candidate total :
  closes turn run candidate →
  terminal (set_snapshot (closed_snapshot r run candidate total)
              (set_calls (settled <$> run_calls run) run)) = true.
Proof. intros (_ & _ & Hs). unfold terminal. simpl. by destruct (unfinished run && _). Qed.

Lemma closed_Inv r turn run candidate total :
  Inv r → sr_runs r !! turn = Some run → terminal run = false →
  closes turn run candidate →
  Inv (closed_record r turn run candidate total) ∧ Evolves r (closed_record r turn run candidate total).
Proof.
  intros HI Hrun Ht Hcl. pose proof (inv_valid r HI) as HV.
  pose proof (closed_terminal r turn run candidate total Hcl) as Hterm.
  pose proof (inv_run r turn run HI Hrun) as HR. pose proof (inv_live r HI turn run Hrun Ht) as HL.
  pose proof (v_history r HV) as Hids.
  pose proof (proj1 (v_result_ids r HV) turn run Hrun) as Hres.
  assert (Forall2 CallEvolves (run_calls run) (settled <$> run_calls run)) as HF
    by (apply Forall2_settled).
  destruct (CallsEvolve_ids _ _ HF) as (Hk1 & Hk2 & Hk3).
  set (run' := set_snapshot (closed_snapshot r run candidate total)
                 (set_calls (settled <$> run_calls run) run)) in *.
  assert (RunEvolves run run') as Hev.
  { split; try done; [by rewrite Ht|]. exists (settled <$> run_calls run), [].
    by rewrite app_nil_r. }
  assert (RunOk (sr_history r ++ added_items run) (sr_revision r) turn run') as HR'.
  { destruct Hcl as (H1 & H2 & H3). pose proof HR as [? ? ? ? ? ? ? ?]. split; simpl; try done.
    - rewrite length_app. lia.
    - by intros res [= <-].
    - intros c (c' & -> & ?)%list_elem_of_fmap. by eapply CallOk_settled. }
  assert (RunsEvolve (sr_runs r) (<[turn := run']> (sr_runs r))) as Hevs
    by by eapply RunsEvolve_insert.
  split; [|by split; [eexists|..]].
  split; [eapply Valid_update; try done| | | |].
  - eapply answers_distinct; done.
  - eapply spread_distinct_update; [by apply v_call_ids|done..].
  - eapply spread_distinct_update; [by apply v_execution_ids|done..].
  - eapply spread_distinct_update; [by apply v_result_ids|done..].
  - rewrite fmap_app. unfold lost_calls. rewrite <-list_fmap_compose.
    apply NoDup_app. split_and!; [by apply v_unknown_ids| |].
    + intros x (u & -> & Hu)%list_elem_of_fmap (c & Heq & [Hc Hlost]%elem_of_filter_b)%list_elem_of_fmap.
      destruct (v_unknown r HV u Hu) as (run0 & c0 & Hrun0 & Hc0 & He0 & Hi0 & _ & Ho0).
      simpl in Heq. assert (unk_turn_id u = turn) as Hturn.
      { eapply (proj2 (v_execution_ids r HV)); [exact Hrun0|exact Hrun|by apply list_elem_of_fmap_2|].
        rewrite He0, Heq. by apply list_elem_of_fmap_2. }
      rewrite Hturn in Hrun0. simplify_eq.
      assert (c0 = c) as ->.
      { pose proof (proj1 (v_execution_ids r HV) _ _ Hrun) as Hnd.
        apply list_elem_of_lookup in Hc0 as [i Hi], Hc as [j Hj].
        assert (i = j) as ->.
        { apply (NoDup_lookup _ i j (sc_execution_id c) Hnd); unfold execution_ids;
            rewrite list_lookup_fmap; [rewrite Hi|rewrite Hj]; simpl; congruence. }
        congruence. }
      unfold lost in Hlost. apply andb_true_iff in Hlost as [Hno _].
      apply is_none_true in Hno. rewrite Hno in Ho0. by destruct Ho0.
    + apply (NoDup_fmap_filter_b sc_execution_id). apply (proj1 (v_execution_ids r HV) _ _ Hrun).
  - intros u (c & -> & [Hc Hlost]%elem_of_filter_b)%list_elem_of_fmap. exists run', (settled c).
    simpl. rewrite lookup_insert_eq. split_and!; try done; [by apply list_elem_of_fmap_2|].
    unfold lost in Hlost. apply andb_true_iff in Hlost as [_ Hi]. by apply is_some_true.
  - exact (inv_schema r HI).
  - simpl. intros id run0 [[<- <-]|[Hne Hrun0]]%lookup_insert_Some Ht0; [by change (terminal run' = false) in Ht0; rewrite Hterm in Ht0|].
    destruct Hne. by eapply (inv_single r HI).
  - simpl. intros id run0 [[<- <-]|[Hne Hrun0]]%lookup_insert_Some Ht0; [|by eapply (inv_done r HI)].
    by intros c (c' & -> & _)%list_elem_of_fmap.
  - simpl. intros id1 id2 r1 r2 [[<- <-]|[_ H1]]%lookup_insert_Some
      [[<- <-]|[_ H2]]%lookup_insert_Some Ht1 Ht2;
      try (by change (terminal run' = false) in Ht1; rewrite Hterm in Ht1);
      try (by change (terminal run' = false) in Ht2; rewrite Hterm in Ht2). by eapply (inv_single r HI).
Qed.

Lemma finalize_Inv r turn candidate r' fin :
  Inv r → finalize r turn candidate = Ok (r', fin) → Inv r' ∧ Evolves r r'.
Proof.
  intros HI Hf. destruct (sr_runs r !! turn) as [run|] eqn:Hrun.
  2:{ unfold finalize in Hf. by rewrite Hrun in Hf. }
  destruct (terminal run) eqn:Ht.
  { unfold finalize in Hf. rewrite Hrun in Hf. simpl in Hf. rewrite Ht in Hf.
    by injection Hf as <- <-. }
  destruct (finalize_live r turn run candidate HI Hrun Ht) as (total & _ & Hyes & Hno).
  assert (Decision (closes turn run candidate)) as [Hc|Hc] by (unfold closes; apply _).
  - rewrite Hyes in Hf by done. injection Hf as <- <-. by eapply closed_Inv.
  - by rewrite Hno in Hf.
Qed.

Lemma finalize_frame r turn candidate r' fin :
  finalize r turn candidate = Ok (r', fin) → frame r' = frame r.
Proof.
  unfold finalize. intros Hf. inv_result. destruct (terminal _); by inv_result.
Qed.

(** ** [recover] *)

Lemma elem_of_active_turns r id :
  id ∈ active_turns r ↔ ∃ run, sr_runs r !! id = Some run ∧ terminal run = false.
Proof.
  unfold active_turns. rewrite list_elem_of_fmap. setoid_rewrite elem_of_filter_b. split.
  - intros ([k v] & -> & Hin%elem_of_btree_iter & Ht). simpl in *. inv_bool. eauto.
  - intros (run & Hrun & Ht). exists (id, run). split_and!; [done|by apply elem_of_btree_iter|].
    simpl. by rewrite Ht.
Qed.

(** Recovery of one run of a good record cannot fail. *)
Lemma recover_run_Ok r turn run :
  Inv r → sr_runs r !! turn = Some run → terminal run = false →
  ∃ r', recover_run r turn = Ok r' ∧ Inv r' ∧ Evolves r r' ∧ frame r' = frame r ∧
    (∀ id run', sr_runs r' !! id = Some run' → terminal run' = false →
       id ≠ turn ∧ sr_runs r !! id = Some run').
Proof.
  intros HI Hrun Ht. unfold recover_run. rewrite Hrun. simpl.
  set (cand := set_error _ _).
  assert (closes turn run cand) as Hc.
  { destruct (inv_run r turn run HI Hrun). by split_and!. }
  destruct (finalize_live r turn run cand HI Hrun Ht) as (total & _ & Hyes & _).
  rewrite Hyes by done. simpl. eexists. split; [done|].
  destruct (closed_Inv r turn run cand total HI Hrun Ht Hc) as [HI' Hev].
  split_and!; [done..|]. intros id run'. unfold closed_record, with_run. simpl.
  intros [[<- <-]|[Hne ?]]%lookup_insert_Some Ht'; [|done].
  by rewrite (closed_terminal r turn run cand total Hc) in Ht'.
Qed.

Lemma active_turns_single r : Inv r →
  active_turns r = [] ∨ ∃ turn, active_turns r = [turn].
Proof.
  intros HI. assert (∀ x y, x ∈ active_turns r → y ∈ active_turns r → x = y) as Hall.
  { intros x y (rx & ? & ?)%elem_of_active_turns (ry & ? & ?)%elem_of_active_turns.
    by eapply (inv_single r HI). }
  assert (NoDup (active_turns r)) as Hnd.
  { apply NoDup_fmap_filter_b, NoDup_btree_keys. }
  destruct (active_turns r) as [|x [|y l]]; [by left|by right; exists x|exfalso].
  apply NoDup_cons in Hnd as [Hn _]. apply Hn. rewrite (Hall x y); set_solver.
Qed.

(** Recovery of a good record cannot fail: it closes the unfinished run, if
    there is one, and then releases the lease. *)
Lemma recover_Ok r :
  Inv r → ∃ r1, recover r = Ok (set_thread_id None (set_owner None r1),
                               is_some (sr_owner r) || active r) ∧
    Inv r1 ∧ Evolves r r1 ∧ active r1 = false ∧ frame r1 = frame r.
Proof.
  intros HI. unfold recover. destruct (sr_forgotten r) eqn:Hf.
  { destruct (v_tombstone r (inv_valid r HI) Hf) as (Ho & _ & Hruns & _). exists r.
    assert (sr_thread_id r = None) as Hth.
    { apply is_some_false. by rewrite <-(v_attached r (inv_valid r HI)), Ho. }
    assert (active r = false) as Hact by (unfold active; by rewrite Hruns).
    rewrite Ho, Hact. split_and!; try done. f_equal. f_equal. destruct r. simpl in *. by subst. }
  destruct (active_turns_single r HI) as [Hts|[turn Hts]]; rewrite Hts; simpl.
  - assert (active r = false) as Hact.
    { apply active_false. intros id run Hrun. destruct (terminal run) eqn:Ht; [done|].
      assert (id ∈ active_turns r) as Hin by (apply elem_of_active_turns; eauto).
      rewrite Hts in Hin. set_solver. }
    exists r. rewrite Hact. split_and!; done.
  - assert (turn ∈ active_turns r) as (run & Hrun & Ht)%elem_of_active_turns by (rewrite Hts; set_solver).
    destruct (recover_run_Ok r turn run HI Hrun Ht) as (r1 & -> & HI1 & Hev & Hfr & Hrest).
    assert (active r = true) as -> by (apply active_true; eauto).
    exists r1. simpl. split_and!; try done. apply active_false. intros id run' Hrun'.
    destruct (terminal run') eqn:Ht'; [done|]. destruct (Hrest id run' Hrun' Ht') as [Hne Hold].
    destruct Hne. by eapply (inv_single r HI).
Qed.
End with_externals.
