(* ===== verification/StoreBackend.v ===== *)
(** * Retention metadata and the backend contract

    First the record-level part of retention ([crates/whale-store/src/retention.rs]), then
    the trait of the backends and the in-memory backend ([backend.rs]). Retention: the timestamps, the migration of schema 1
    records, the tombstone and the checks before a detached session is retired.
    [now] is the value of [now_ms()].  The sweep over a whole store is in
    StoreSweep. *)

From S2P Require Import Prelude Protocol StoreState StoreValid StoreInvariant.

(** ** What serde writes for a record: the number of bytes of its JSON text, and
    [serde_json::to_value(record).ok()]. *)
Class RecordExternals := {
  record_json_len : SessionRecord → N;
  record_to_value : SessionRecord → option Value;
}.

(** ** Definitions *)

Record RetentionMetadata := {
  rm_recovery_id : string;
  rm_revision : N;
  rm_detached_since_ms : option N;
  rm_forgotten : bool;
  rm_protected_active : bool;
  rm_protected_unknown : bool;
  rm_payload_bytes : N;
}.
#[export] Instance RetentionMetadata_eq_dec : EqDecision RetentionMetadata.
Proof. solve_decision. Defined.

Definition touch (self : SessionRecord) (now : N) : SessionRecord :=
  set_updated_at_ms (Some (N.max now (default now (sr_updated_at_ms self)))) self.

Definition mark_detached (self : SessionRecord) (now : N) : SessionRecord :=
  let self := touch self now in
  set_detached_since_ms (sr_updated_at_ms self) self.

(** [b.then_some(v)] *)
Definition then_some {A} (b : bool) (v : A) : option A := if b then Some v else None.

Definition migrate_retention (self : SessionRecord) (now : N) : SessionRecord * bool :=
  if sr_schema_version self != 1%N then (self, false) else
  ({| sr_schema_version := 2;
      sr_created_at_ms := Some now;
      sr_updated_at_ms := Some now;
      sr_detached_since_ms :=
        if is_none (sr_owner self) && negb (sr_forgotten self) then Some now else None;
      sr_retired_at_ms := then_some (sr_forgotten self) now;
      sr_retirement_reason := then_some (sr_forgotten self) "legacy_forget";
      sr_recovery_id := sr_recovery_id self;
      sr_secret_digest := sr_secret_digest self;
      sr_revision := sr_revision self;
      sr_epoch := sr_epoch self;
      sr_owner := sr_owner self;
      sr_thread_id := sr_thread_id self;
      sr_historical_thread_ids := sr_historical_thread_ids self;
      sr_forgotten := sr_forgotten self;
      sr_configuration := sr_configuration self;
      sr_history := sr_history self;
      sr_runs := sr_runs self;
      sr_unknown_executions := sr_unknown_executions self |}, true).

Definition retire (self : SessionRecord) (now : N) (reason : string) : SessionRecord :=
  let self := touch self now in
  {| sr_schema_version := sr_schema_version self;
     sr_created_at_ms := sr_created_at_ms self;
     sr_updated_at_ms := sr_updated_at_ms self;
     sr_detached_since_ms := None;
     sr_retired_at_ms := sr_updated_at_ms self;
     sr_retirement_reason := Some reason;
     sr_recovery_id := sr_recovery_id self;
     sr_secret_digest := sr_secret_digest self;
     sr_revision := sr_revision self;
     sr_epoch := sr_epoch self;
     sr_owner := sr_owner self;
     sr_thread_id := sr_thread_id self;
     sr_historical_thread_ids := [];
     sr_forgotten := true;
     sr_configuration := Object ∅;
     sr_history := [];
     sr_runs := ∅;
     sr_unknown_executions := [] |}.

Section with_record_externals.
Context `{RecordExternals}.

Definition retention_metadata (self : SessionRecord) : Result RetentionMetadata :=
  bytes ← if sr_forgotten self then Ok 0%N
          else map_err Invalid (serialized_bytes (record_json_len self));
  Ok {| rm_recovery_id := sr_recovery_id self;
        rm_revision := sr_revision self;
        rm_detached_since_ms := sr_detached_since_ms self;
        rm_forgotten := sr_forgotten self;
        rm_protected_active := is_some (sr_owner self) || active self;
        rm_protected_unknown := unresolved self;
        rm_payload_bytes := bytes |}.
End with_record_externals.

Definition retirement_replacement `{Externals} (record : SessionRecord) (expected now : N)
    (reason : string) : Result (option SessionRecord) :=
  validate record;;
  reject_if (sr_revision record != expected) Conflict;;
  if sr_forgotten record then Ok None else
  reject_if (is_some (sr_owner record) || active record) Active;;
  reject_if (unresolved record) UnknownExecutions;;
  reject_if ((sr_schema_version record != 2%N) || is_none (sr_detached_since_ms record))
    (Invalid "Retention metadata requires migration");;
  next ← ok_or (checked_add expected 1) Conflict;
  Ok (Some (set_revision next (retire record now reason))).

(** ** Lemmas *)

Section with_externals.
Context `{Externals}.

(** A change of the bookkeeping fields only. *)
Lemma touch_Valid r now : Valid r → Valid (touch r now).
Proof.
  intros HV. split; try by destruct HV. intros Hs. destruct (v_retention r HV Hs) as [(c & u & Hc & Hu & Hle) Ha Hd Hr1 Hr2].
  split; try done. simpl. rewrite Hc, Hu. eexists _, _. split_and!; [done..|]. simpl. lia.
Qed.

Lemma touch_Inv r now : Inv r → Inv (touch r now).
Proof. intros []. split; try done. by apply touch_Valid. Qed.

Lemma Evolves_fields r r' :
  sr_history r' = sr_history r → sr_historical_thread_ids r' = sr_historical_thread_ids r →
  sr_runs r' = sr_runs r → Evolves r r'.
Proof. intros Hh Ht Hr. split; by rewrite ?Hh, ?Ht, ?Hr. Qed.

(** The lease given up: owner and thread cleared, the detachment dated. *)
Lemma detached_Inv r now :
  Inv r → active r = false → sr_forgotten r = false →
  Inv (mark_detached (set_thread_id None (set_owner None r)) now).
Proof.
  intros [HV Hs Hl Hd Hsi] Hact Hf. split; try done. split; try by destruct HV.
  - intros _. destruct (v_retention r HV Hs) as [(c & u & Hc & Hu & Hle) Ha Hde Hr1 Hr2].
    split; simpl; try done.
    + rewrite Hc, Hu. eexists _, _. split_and!; [done..|]. simpl. lia.
  - simpl. intros Hf'. congruence.
  - intros Hact'. change (active r = true) in Hact'. congruence.
Qed.

Lemma retire_Valid r now reason :
  Inv r → sr_owner r = None → Valid (retire r now reason).
Proof.
  intros [HV Hs _ _ _] Ho. split; simpl; try done; try by destruct HV.
  - intros _. destruct (v_retention r HV Hs) as [(c & u & Hc & Hu & Hle) Ha Hde Hr1 Hr2].
    split; simpl; try done.
    rewrite Hc, Hu. eexists _, _. split_and!; [done..|]. simpl. lia.
  - intros t Hth. pose proof (v_attached r HV) as Hat. by rewrite Ho, Hth in Hat.
  - split; [constructor|set_solver].
  - constructor.
  - constructor.
  - set_solver.
Qed.

Lemma retire_Inv r now reason : Inv r → sr_owner r = None → Inv (retire r now reason).
Proof.
  intros HI Ho. split; [by apply retire_Valid|by destruct HI|..]; simpl; intros; by simplify_map_eq.
Qed.

(** The migration of a schema 1 record. *)
Lemma migrate_Valid r now :
  Valid r → Valid (migrate_retention r now).1 ∧ sr_schema_version (migrate_retention r now).1 = 2%N.
Proof.
  intros HV. unfold migrate_retention. destruct (bool_decide_reflect (sr_schema_version r = 1%N)) as [Hs|Hs]; simpl.
  - split; [|done]. split; simpl; try by destruct HV; auto.
    intros _. split; simpl.
    + exists now, now. split_and!; done || lia.
    + intros [o Ho]. by rewrite Ho.
    + intros Hf Ho. rewrite Hf, Ho. simpl. eauto.
    + by destruct (sr_forgotten r).
    + by destruct (sr_forgotten r).
  - split; [done|]. by destruct (v_schema r HV).
Qed.
End with_externals.

(** ** The storage contract ([crates/whale-store/src/backend.rs])

    The trait [SessionStore] with its default methods, the checks every backend
    runs before it writes ([validate_create], [validate_replace]) and the
    in-memory backend.  [SessionStoreSpec] is the contract the runtime relies
    on; [MemoryStore] implements it. *)

(** The content of the in-memory backend: the records by recovery ID. *)
Abbreviation MemoryStore := (gmap string SessionRecord).

(** ** The checks of a replacement *)

Definition check_call_kept (replacement : StoredRun) (call : StoredCall) : Result () :=
  updated ← ok_or (find_first (λ c, sc_call_id c == sc_call_id call) (run_calls replacement))
              (Invalid "Call record was removed");
  reject_if
    ((sc_result_item_id updated != sc_result_item_id call) ||
     (sc_execution_id updated != sc_execution_id call) ||
     (sc_step_id updated != sc_step_id call) ||
     (sc_tool_name updated != sc_tool_name call) ||
     is_some_and (sc_intent call) (λ i, sc_intent updated != Some i) ||
     is_some_and (sc_outcome call) (λ i, sc_outcome updated != Some i) ||
     (sc_committed call && negb (sc_committed updated)))
    (Invalid "Committed tool outcome/identity was changed").

Definition check_run_kept (new : SessionRecord) (entry : string * StoredRun) : Result () :=
  let '(id, run) := entry in
  replacement ← ok_or (sr_runs new !! id) (Invalid "Run record was removed");
  reject_if
    ((run_params replacement != run_params run) ||
     (run_effective_options replacement != run_effective_options run) ||
     (run_history_start replacement != run_history_start run) ||
     (terminal run && (run_snapshot replacement != run_snapshot run)))
    (Invalid "Committed run identity/result was changed");;
  fold_res (λ _, check_call_kept replacement) () (run_calls run).

Definition check_lease (old new : SessionRecord) : Result () :=
  if (sr_owner new != sr_owner old) || (sr_thread_id new != sr_thread_id old) then
    (if is_some (sr_owner new) then
       if is_some (sr_owner old) then Err StaleLease else
       next ← ok_or (checked_add (sr_epoch old) 1) Conflict;
       reject_if (sr_epoch new != next) StaleLease
     else Ok ());;
    reject_if (is_none (sr_owner new) && (sr_epoch new != sr_epoch old)) StaleLease
  else reject_if (sr_epoch new != sr_epoch old) StaleLease.

Definition check_kept (old new : SessionRecord) : Result () :=
  reject_if
    (negb (starts_with (sr_history new) (sr_history old)) ||
     negb (starts_with (sr_historical_thread_ids new) (sr_historical_thread_ids old)))
    (Invalid "Committed history and attachment identities are append-only");;
  fold_res (λ _, check_run_kept new) () (btree_iter (sr_runs old));;
  check_lease old new.

Definition validate_create `{Externals} (record : SessionRecord) : Result () :=
  validate record;;
  reject_if (sr_revision record != 1%N) (Invalid "Initial revision must be one").

Section with_record_externals.
Context `{Externals, RecordExternals}.

Definition is_legacy_tombstone_migration (old new : SessionRecord) : bool :=
  if (sr_schema_version old != 1%N) || (sr_schema_version new != 2%N) then false else
  match sr_created_at_ms new with
  | None => false
  | Some now =>
      let expected := set_revision (sr_revision new) (migrate_retention old now).1 in
      record_to_value expected == record_to_value new
  end.

Definition validate_replace (old : SessionRecord) (id : string) (expected : N)
    (new : SessionRecord) : Result () :=
  validate new;;
  reject_if (sr_revision old != expected) Conflict;;
  next ← ok_or (checked_add expected 1) Conflict;
  reject_if
    ((sr_recovery_id new != id) || (sr_secret_digest new != sr_secret_digest old) ||
     (sr_revision new != next) || (sr_epoch new <? sr_epoch old)%N ||
     (sr_forgotten old && negb (is_legacy_tombstone_migration old new)))
    Conflict;;
  reject_if
    ((sr_schema_version old == 2%N) &&
     ((sr_schema_version new != 2%N) || (sr_created_at_ms new != sr_created_at_ms old) ||
      opt_ltb (sr_updated_at_ms new) (sr_updated_at_ms old)))
    (Invalid "Retention timestamps cannot be rewritten");;
  if negb (sr_forgotten new) then check_kept old new else Ok ().

(** ** The trait *)

Definition after_cursor (after_id : option string) (r : SessionRecord) : bool :=
  is_none_or after_id (λ id, str_ltb id (sr_recovery_id r)).

Definition recovery_id_le (a b : SessionRecord) : Prop :=
  String.le (sr_recovery_id a) (sr_recovery_id b).
#[export] Instance recovery_id_le_dec a b : Decision (recovery_id_le a b).
Proof. unfold recovery_id_le. apply _. Defined.

(** The default [metadata_page]. *)
Definition default_metadata_page {S} (list_records : eff S StoreError (list SessionRecord))
    (after_id : option string) (limit : nat) : eff S StoreError (list RetentionMetadata) :=
  records ← list_records;
  let records := merge_sort recovery_id_le records in
  lift (mapM retention_metadata (take limit (List.filter (after_cursor after_id) records))).

(** The default [retire_detached]. *)
Definition default_retire_detached {S}
    (load : string → eff S StoreError (option SessionRecord))
    (compare_exchange : string → N → SessionRecord → eff S StoreError ())
    (id : string) (expected_revision now_ms : N) (reason : string) : eff S StoreError bool :=
  found ← load id;
  old ← lift (ok_or found NotFound);
  replacement ← lift (retirement_replacement old expected_revision now_ms reason);
  match replacement with
  | None => mret false
  | Some new => compare_exchange id expected_revision new;; mret true
  end.

Class SessionStore (S : Type) := {
  durable : bool;
  create : SessionRecord → eff S StoreError ();
  load : string → eff S StoreError (option SessionRecord);
  compare_exchange : string → N → SessionRecord → eff S StoreError ();
  list_records : eff S StoreError (list SessionRecord);
  metadata_page : option string → nat → eff S StoreError (list RetentionMetadata);
  retire_detached : string → N → N → string → eff S StoreError bool;
}.

(** ** The in-memory backend *)

Definition memory_create (record : SessionRecord) : eff MemoryStore StoreError () := λ records,
  match validate_create record with
  | Err e => (Err e, records)
  | Ok _ =>
      if is_some (records !! sr_recovery_id record) then (Err Conflict, records)
      else (Ok (), <[sr_recovery_id record := record]> records)
  end.

Definition memory_load (id : string) : eff MemoryStore StoreError (option SessionRecord) := λ records,
  (Ok (records !! id), records).

Definition memory_compare_exchange (id : string) (expected : N) (new : SessionRecord)
    : eff MemoryStore StoreError () := λ records,
  match records !! id with
  | None => (Err NotFound, records)
  | Some old =>
      match validate_replace old id expected new with
      | Err e => (Err e, records)
      | Ok _ => (Ok (), <[id := new]> records)
      end
  end.

Definition memory_list : eff MemoryStore StoreError (list SessionRecord) := λ records,
  (Ok (btree_values records), records).

Definition memory_metadata_page (after_id : option string) (limit : nat)
    : eff MemoryStore StoreError (list RetentionMetadata) := λ records,
  (mapM retention_metadata (take limit (List.filter (after_cursor after_id) (btree_values records))),
   records).

#[export] Instance memory_session_store : SessionStore MemoryStore := {
  durable := false;
  create := memory_create;
  load := memory_load;
  compare_exchange := memory_compare_exchange;
  list_records := memory_list;
  metadata_page := memory_metadata_page;
  retire_detached := default_retire_detached memory_load memory_compare_exchange;
}.

(** ** The contract of a backend *)

Definition is_io {A} (res : Result A) : Prop := ∃ what, res = Err (Io what).

(** A create: refused with the content unchanged, done, or lost in an I/O
    failure after which either may be the case. *)
Definition create_outcome (record : SessionRecord) (m : gmap string SessionRecord) (res : Result ())
    (m' : gmap string SessionRecord) : Prop :=
  match validate_create record, m !! sr_recovery_id record with
  | Ok _, None =>
      (res = Ok () ∧ m' = <[sr_recovery_id record := record]> m) ∨
      (is_io res ∧ (m' = m ∨ m' = <[sr_recovery_id record := record]> m))
  | Ok _, Some _ => (res = Err Conflict ∨ is_io res) ∧ m' = m
  | Err e, _ => (res = Err e ∨ is_io res) ∧ m' = m
  end.

Definition cas_outcome (id : string) (expected : N) (new : SessionRecord)
    (m : gmap string SessionRecord) (res : Result ()) (m' : gmap string SessionRecord) : Prop :=
  match m !! id with
  | None => (res = Err NotFound ∨ is_io res) ∧ m' = m
  | Some old =>
      match validate_replace old id expected new with
      | Ok _ => (res = Ok () ∧ m' = <[id := new]> m) ∨
                (is_io res ∧ (m' = m ∨ m' = <[id := new]> m))
      | Err e => (res = Err e ∨ is_io res) ∧ m' = m
      end
  end.

(** A retirement writes only the tombstone that [retirement_replacement] builds. *)
Definition retire_outcome (id : string) (expected now : N) (reason : string)
    (m : gmap string SessionRecord) (res : Result bool) (m' : gmap string SessionRecord) : Prop :=
  (m' = m ∧ res ≠ Ok true) ∨
  ∃ old new, m !! id = Some old ∧ retirement_replacement old expected now reason = Ok (Some new) ∧
    validate_replace old id expected new = Ok () ∧ m' = <[id := new]> m ∧
    (res = Ok true ∨ is_io res).

Class SessionStoreSpec (S : Type) `{!SessionStore S} := {
  contents : S → gmap string SessionRecord;
  create_spec record s :
    create_outcome record (contents s) (create record s).1 (contents (create record s).2);
  load_contents id s : contents (load id s).2 = contents s;
  load_answer id s found : (load id s).1 = Ok found → found = contents s !! id;
  cas_spec id expected new s :
    cas_outcome id expected new (contents s) (compare_exchange id expected new s).1
      (contents (compare_exchange id expected new s).2);
  list_contents s : contents (list_records s).2 = contents s;
  list_answer s l : (list_records s).1 = Ok l → l ≡ₚ (map_to_list (contents s)).*2;
  page_contents after limit s : contents (metadata_page after limit s).2 = contents s;
  retire_spec id expected now reason s :
    retire_outcome id expected now reason (contents s) (retire_detached id expected now reason s).1
      (contents (retire_detached id expected now reason s).2);
}.

(** What a backend can do to its content. *)
Inductive backend_step (m : gmap string SessionRecord) : gmap string SessionRecord → Prop :=
  | step_create record :
      validate_create record = Ok () → m !! sr_recovery_id record = None →
      backend_step m (<[sr_recovery_id record := record]> m)
  | step_replace id expected old new :
      m !! id = Some old → validate_replace old id expected new = Ok () →
      backend_step m (<[id := new]> m).

(** The content of a store: valid records, each under its own identity. *)
Definition store_ok (m : gmap string SessionRecord) : Prop :=
  map_Forall (λ id r, sr_recovery_id r = id ∧ Valid r) m.

(** What the lease check accepts. *)
Inductive LeaseOk (old new : SessionRecord) : Prop :=
  | lease_same : sr_owner new = sr_owner old → sr_thread_id new = sr_thread_id old →
      sr_epoch new = sr_epoch old → LeaseOk old new
  | lease_release : sr_owner new = None → sr_epoch new = sr_epoch old → LeaseOk old new
  | lease_take : sr_owner old = None → is_Some (sr_owner new) →
      checked_add (sr_epoch old) 1 = Some (sr_epoch new) → LeaseOk old new.

(** What the replacement of a record keeps. *)
Record Replaces (old new : SessionRecord) : Prop := {
  rep_valid : Valid new;
  rep_id : sr_recovery_id new = sr_recovery_id old;
  rep_digest : sr_secret_digest new = sr_secret_digest old;
  rep_revision : checked_add (sr_revision old) 1 = Some (sr_revision new);
  rep_epoch : (sr_epoch old <= sr_epoch new)%N;
  rep_schema : sr_schema_version old = 2%N →
    sr_schema_version new = 2%N ∧ sr_created_at_ms new = sr_created_at_ms old ∧
    opt_ltb (sr_updated_at_ms new) (sr_updated_at_ms old) = false;
  rep_tombstone : sr_forgotten old = true → sr_schema_version old = 1%N;
  rep_history : sr_forgotten new = false → sr_history old `prefix_of` sr_history new;
  rep_threads : sr_forgotten new = false →
    sr_historical_thread_ids old `prefix_of` sr_historical_thread_ids new;
  rep_lease : sr_forgotten new = false → LeaseOk old new;
}.

(** ** Lemmas *)

#[export] Program Instance memory_store_spec : SessionStoreSpec MemoryStore := {
  contents := λ s, s;
}.
Next Obligation.
  intros record s. unfold create_outcome. simpl. unfold memory_create.
  destruct (validate_create record) as [[]|e]; simpl; [|eauto].
  destruct (s !! sr_recovery_id record); simpl; eauto.
Qed.
Next Obligation. done. Qed.
Next Obligation. simpl. intros id s found [= <-]. done. Qed.
Next Obligation.
  intros id expected new s. unfold cas_outcome. simpl. unfold memory_compare_exchange.
  destruct (s !! id) as [old|]; simpl; [|eauto].
  destruct (validate_replace old id expected new) as [[]|e]; simpl; eauto.
Qed.
Next Obligation. done. Qed.
Next Obligation.
  simpl. intros s l [= <-]. unfold btree_values. by rewrite btree_iter_permutation.
Qed.
Next Obligation. done. Qed.
Next Obligation.
  intros id expected now reason s. unfold retire_outcome. simpl.
  unfold default_retire_detached, mbind, eff_bind, lift, memory_load. simpl.
  destruct (s !! id) as [old|] eqn:Hs; simpl; [|by left].
  destruct (retirement_replacement old expected now reason) as [[new|]|e] eqn:Hr; simpl;
    [|by left..]. unfold memory_compare_exchange.
  rewrite Hs. destruct (validate_replace old id expected new) as [[]|e] eqn:Hv; simpl; [|by left].
  right. exists old, new. by split_and!; auto.
Qed.

(** *** The lease *)

Lemma check_lease_Ok old new : check_lease old new = Ok () ↔ LeaseOk old new.
Proof.
  unfold check_lease.
  destruct (bool_decide_reflect (sr_owner new = sr_owner old)) as [Ho|Ho];
  destruct (bool_decide_reflect (sr_thread_id new = sr_thread_id old)) as [Ht|Ht]; simpl.
  1: { rewrite reject_if_Ok. autorewrite with guards. split; [by apply lease_same|].
       intros [| |Hn [o Hs] _]; [done..|]. rewrite Hs in Ho. congruence. }
  all: destruct (sr_owner new) as [o|] eqn:Hn; simpl.
  all: try (rewrite reject_if_Ok; autorewrite with guards; split;
    [by intros; apply lease_release|
     intros [? ?|?|? [? ?] ?]; try done; congruence]).
  all: destruct (sr_owner old) as [o'|] eqn:Hold; simpl.
  all: try (split; [done|intros [? ?|?|? [? ?] ?]; congruence]).
  all: rewrite bind_Ok; split;
    [intros ([] & Hb & _); apply bind_Ok in Hb as (next & Hnext & Hb);
     apply ok_or_Ok in Hnext; apply reject_if_Ok in Hb; autorewrite with guards in Hb; subst next;
     apply lease_take; [done|rewrite Hn; eauto|done]
    |intros [? ?|?|? ? Hadd]; try congruence; exists (); rewrite Hadd; simpl;
     by rewrite bool_decide_eq_true_2].
Qed.

(** *** What an accepted replacement keeps *)

Lemma validate_replace_facts old id expected new :
  validate_replace old id expected new = Ok () →
  sr_recovery_id old = id →
  Replaces old new ∧ sr_revision old = expected ∧
  (sr_forgotten old = true → is_legacy_tombstone_migration old new = true) ∧
  (sr_forgotten new = false → check_kept old new = Ok ()).
Proof.
  unfold validate_replace. intros Hr <-. apply bind_Ok in Hr as ([] & Hv%validate_Ok & Hr).
  rewrite reject_bind_Ok in Hr. destruct Hr as [Hexp Hr].
  apply bind_Ok in Hr as (next & Hnext%ok_or_Ok & Hr).
  rewrite !reject_bind_Ok in Hr. destruct Hr as (Hg & Hs & Hk).
  autorewrite with guards in Hexp, Hg. subst expected.
  destruct Hg as ((((Hid & Hd) & Hrev) & He) & Hf). subst next.
  assert (sr_forgotten old = true → is_legacy_tombstone_migration old new = true) as Htomb.
  { intros Ht. rewrite Ht in Hf. by destruct (is_legacy_tombstone_migration old new). }
  assert (sr_forgotten new = false → check_kept old new = Ok ()) as Hkept.
  { intros Hn. by rewrite Hn in Hk. }
  split_and!; try done. split; try done.
  - intros H2. rewrite H2 in Hs. simpl in Hs. autorewrite with guards in Hs. tauto.
  - intros Ht%Htomb. unfold is_legacy_tombstone_migration in Ht.
    destruct (bool_decide_reflect (sr_schema_version old = 1%N)); [done|discriminate].
  - intros Hn%Hkept. unfold check_kept in Hn. rewrite reject_bind_Ok in Hn. destruct Hn as [Hn _].
    autorewrite with guards in Hn. by destruct Hn as [Hn%bool_decide_eq_true _].
  - intros Hn%Hkept. unfold check_kept in Hn. rewrite reject_bind_Ok in Hn. destruct Hn as [Hn _].
    autorewrite with guards in Hn. by destruct Hn as [_ Hn%bool_decide_eq_true].
  - intros Hn%Hkept. unfold check_kept in Hn. rewrite reject_bind_Ok in Hn. destruct Hn as [_ Hn].
    apply bind_Ok in Hn as ([] & _ & Hn). by apply check_lease_Ok.
Qed.

(** *** An evolution of the record is an accepted replacement *)

Lemma find_unique (c : StoredCall) (calls : list StoredCall) :
  c ∈ calls → NoDup (sc_call_id <$> calls) →
  find_first (λ c', sc_call_id c' == sc_call_id c) calls = Some c.
Proof.
  intros Hin Hnd. destruct (find_first _ calls) as [c'|] eqn:Hf.
  - apply find_first_Some in Hf as (l1 & l2 & -> & Heq & Hl1). inv_bool. f_equal.
    apply elem_of_app in Hin as [Hin|[->|Hin]%elem_of_cons]; [|done|].
    + specialize (Hl1 c Hin). by inv_bool.
    + rewrite fmap_app in Hnd. csimpl in Hnd. apply NoDup_app in Hnd as (_ & _ & [Hn _]%NoDup_cons).
      destruct Hn. rewrite Heq. by apply list_elem_of_fmap_2.
  - rewrite find_first_None in Hf. specialize (Hf c Hin). by inv_bool.
Qed.

Lemma check_call_kept_Ok run' c c' :
  c' ∈ run_calls run' → NoDup (call_ids run') → CallEvolves c c' →
  check_call_kept run' c = Ok ().
Proof.
  intros Hin Hnd [Hcall ? ? ? ? Hi Ho Hcm]. unfold check_call_kept. rewrite <-Hcall, find_unique by done. simpl.
  apply reject_if_false. autorewrite with guards. rewrite andb_false_iff, negb_false_iff.
  split_and!; try done.
  - intros i Hc. autorewrite with guards. auto.
  - intros o Hc. autorewrite with guards. auto.
  - destruct (sc_committed c); auto.
Qed.

Lemma check_run_kept_Ok new id run :
  (∃ run', sr_runs new !! id = Some run' ∧ RunEvolves run run' ∧ NoDup (call_ids run')) →
  check_run_kept new (id, run) = Ok ().
Proof.
  intros (run' & Hrun' & [Hp Ho Hs Hd (kept & added & Hc & HF)] & Hnd). unfold check_run_kept.
  rewrite Hrun'. simpl. rewrite reject_if_false.
  2:{ autorewrite with guards. rewrite andb_false_iff, negb_false_iff, bool_decide_eq_true.
      destruct (terminal run); auto. }
  simpl. assert (∀ c, c ∈ run_calls run → check_call_kept run' c = Ok ()) as Hall.
  { intros c [i Hi]%list_elem_of_lookup. destruct (Forall2_lookup_l _ _ _ _ _ HF Hi) as (c' & Hi' & ?).
    eapply check_call_kept_Ok; [|done..]. rewrite Hc. apply elem_of_app. left.
    by eapply list_elem_of_lookup_2. }
  clear -Hall. induction (run_calls run) as [|c l IH]; simpl; [done|].
  rewrite Hall by set_solver. simpl. apply IH. set_solver.
Qed.

Lemma validate_replace_evolves old new :
  Valid new → Evolves old new → LeaseOk old new →
  sr_recovery_id new = sr_recovery_id old → sr_secret_digest new = sr_secret_digest old →
  checked_add (sr_revision old) 1 = Some (sr_revision new) → sr_forgotten old = false →
  (sr_schema_version old = 2%N → sr_schema_version new = 2%N ∧
    sr_created_at_ms new = sr_created_at_ms old ∧
    opt_ltb (sr_updated_at_ms new) (sr_updated_at_ms old) = false) →
  validate_replace old (sr_recovery_id old) (sr_revision old) new = Ok ().
Proof.
  intros HV' [Hh Ht Hr] Hl Hid Hd Hrev Hf Hs. unfold validate_replace.
  rewrite (proj2 (validate_Ok new)) by done. simpl.
  rewrite reject_bind_Ok, Hrev. split; [by autorewrite with guards|]. simpl.
  rewrite !reject_bind_Ok, Hf. simpl. split_and!.
  - autorewrite with guards. split_and!; try done.
    destruct Hl as [? ? ->|? ->|_ _ [-> _]%checked_add_Some]; lia.
  - destruct (bool_decide_reflect (sr_schema_version old = 2%N)) as [H2|]; [simpl|done].
    destruct (Hs H2) as (-> & -> & ->). by autorewrite with guards.
  - destruct (sr_forgotten new); simpl; [done|]. unfold check_kept, starts_with.
    rewrite reject_bind_Ok. split; [by rewrite !bool_decide_eq_true_2|].
  assert (∀ e, e ∈ btree_iter (sr_runs old) → check_run_kept new e = Ok ()) as Hall.
  { intros [id run] Hin%elem_of_btree_iter. apply check_run_kept_Ok.
    destruct (Hr id run Hin) as (run' & Hrun' & ?). exists run'. split_and!; try done.
    apply (v_call_ids new HV') in Hrun' as ?; done. }
  replace (fold_res (λ _, check_run_kept new) () (btree_iter (sr_runs old))) with
    (Ok () : Result ()); [simpl; by apply check_lease_Ok|].
  clear -Hall. induction (btree_iter (sr_runs old)) as [|e l IH]; simpl; [done|].
  rewrite Hall by set_solver. simpl. apply IH. set_solver.
Qed.

(** A tombstone replaces any record that nobody holds. *)
Lemma validate_replace_retired old now reason next :
  Inv old → sr_owner old = None → sr_forgotten old = false →
  checked_add (sr_revision old) 1 = Some next →
  validate_replace old (sr_recovery_id old) (sr_revision old)
    (set_revision next (retire old now reason)) = Ok ().
Proof.
  intros HI Ho Hf Hrev. unfold validate_replace. rewrite (proj2 (validate_Ok _)).
  2:{ pose proof (retire_Valid old now reason HI Ho) as HV. apply checked_add_Some in Hrev as [-> _].
      split; try by destruct HV.
      - simpl. lia.
      - intros Hs. by destruct (v_retention _ HV Hs). }
  simpl. rewrite reject_bind_Ok, Hrev. split; [by autorewrite with guards|]. simpl.
  rewrite !reject_bind_Ok, Hf. simpl. split_and!; [autorewrite with guards; split_and!; lia || done| |done].
  rewrite (inv_schema old HI). simpl. autorewrite with guards. split; [done|].
  destruct (sr_updated_at_ms old); simpl; [|done]. apply N.ltb_ge. lia.
Qed.

(** *** The history of a record in a store *)

(** What relates a stored record to the record found later under its identity. *)
Record Later (r r' : SessionRecord) : Prop := {
  later_revision : r' = r ∨ (sr_revision r < sr_revision r')%N;
  later_epoch : (sr_epoch r <= sr_epoch r')%N;
  later_digest : sr_secret_digest r' = sr_secret_digest r;
  later_fence : sr_epoch r' = sr_epoch r →
    (sr_owner r' = sr_owner r ∧ sr_thread_id r' = sr_thread_id r) ∨ sr_owner r' = None;
  later_tombstone : sr_forgotten r = true → sr_schema_version r = 2%N → r' = r;
}.

#[export] Instance Later_preorder : PreOrder Later.
Proof.
  split; [intros r; split; auto; lia|].
  intros r1 r2 r3 [[->|Hr1] He1 Hd1 Hf1 Ht1] [Hr2 He2 Hd2 Hf2 Ht2]; [by split|].
  split; try congruence; try lia.
  - destruct Hr2 as [->|]; [by right|right; lia].
  - intros He. destruct (Hf2 ltac:(lia)) as [[-> ->]|]; [|by right]. apply Hf1. lia.
  - intros Hf Hs. pose proof (Ht1 Hf Hs) as ->. auto.
Qed.

Lemma Replaces_Later r r' : Replaces r r' → Later r r'.
Proof.
  intros [HV Hid Hd [Hr _]%checked_add_Some He Hs Ht _ _ Hl]. split; try done.
  - right. lia.
  - intros Heq. destruct (sr_forgotten r') eqn:Hf.
    { right. by destruct (v_tombstone r' HV Hf). }
    destruct (Hl eq_refl) as [? ? ?|? ?|_ _ [Hn _]%checked_add_Some]; auto. lia.
  - intros Hf Hs2. rewrite (Ht Hf) in Hs2. done.
Qed.

Lemma validate_create_Ok r : validate_create r = Ok () ↔ Valid r ∧ sr_revision r = 1%N.
Proof.
  unfold validate_create. rewrite bind_Ok. setoid_rewrite reject_if_Ok. split.
  - intros ([] & ?%validate_Ok & Hr). by autorewrite with guards in Hr.
  - intros [HV Hr]. exists (). rewrite validate_Ok. autorewrite with guards. done.
Qed.

Lemma backend_step_follows m m' id r :
  store_ok m → backend_step m m' → m !! id = Some r →
  ∃ r', m' !! id = Some r' ∧ (r' = r ∨ Replaces r r').
Proof.
  intros Hok [record Hc Hn|id' n old new Hold Hrep] Hr.
  - exists r. split; [|by left]. rewrite lookup_insert_ne; [done|congruence].
  - destruct (decide (id' = id)) as [->|].
    + exists new. rewrite lookup_insert_eq. split; [done|right]. simplify_eq.
      destruct (Hok id old Hold) as [Hid _]. by apply validate_replace_facts in Hrep as [? _].
    + exists r. rewrite lookup_insert_ne by done. auto.
Qed.

Lemma backend_step_ok m m' : store_ok m → backend_step m m' → store_ok m'.
Proof.
  intros Hok [record Hc Hn|id' n old new Hold Hrep]; apply map_Forall_insert_2; try done.
  - by apply validate_create_Ok in Hc as [? _].
  - destruct (Hok id' old Hold) as [Hid _]. apply validate_replace_facts in Hrep as ([] & _); [|done].
    split; [congruence|done].
Qed.

Lemma backend_steps_later m m' id r :
  store_ok m → rtc backend_step m m' → m !! id = Some r →
  store_ok m' ∧ ∃ r', m' !! id = Some r' ∧ Later r r'.
Proof.
  intros Hok Hsteps. revert r. induction Hsteps as [m|m1 m2 m3 Hstep _ IH]; intros r Hr.
  { split; [done|]. exists r. split; [done|reflexivity]. }
  destruct (backend_step_follows m1 m2 id r Hok Hstep Hr) as (r2 & Hr2 & Hrel).
  destruct (IH (backend_step_ok _ _ Hok Hstep) r2 Hr2) as (Hok3 & r3 & Hr3 & Hlater).
  split; [done|]. exists r3. split; [done|]. etrans; [|done].
  destruct Hrel as [->|?]; [reflexivity|by apply Replaces_Later].
Qed.

(** Every method of a backend moves its content by backend steps. *)
Section spec.
Context {S : Type} `{!SessionStore S, !SessionStoreSpec S}.

Lemma create_steps record s : rtc backend_step (contents s) (contents (create record s).2).
Proof.
  pose proof (create_spec record s) as Hc. unfold create_outcome in Hc.
  destruct (validate_create record) as [[]|] eqn:Hv; [|by destruct Hc as [_ ->]].
  destruct (contents s !! _) eqn:Hn; [by destruct Hc as [_ ->]|].
  destruct Hc as [[_ ->]|[_ [->| ->]]]; try reflexivity; by apply rtc_once, step_create.
Qed.

Lemma cas_steps id n new s :
  rtc backend_step (contents s) (contents (compare_exchange id n new s).2).
Proof.
  pose proof (cas_spec id n new s) as Hc. unfold cas_outcome in Hc.
  destruct (contents s !! id) as [old|] eqn:Hn; [|by destruct Hc as [_ ->]].
  destruct (validate_replace old id n new) as [[]|] eqn:Hv; [|by destruct Hc as [_ ->]].
  destruct Hc as [[_ ->]|[_ [->| ->]]]; try reflexivity; by eapply rtc_once, step_replace.
Qed.

Lemma retire_steps id n now reason s :
  rtc backend_step (contents s) (contents (retire_detached id n now reason s).2).
Proof.
  destruct (retire_spec id n now reason s) as [[-> _]|(old & new & Hold & _ & Hv & -> & _)];
    [reflexivity|]. by eapply rtc_once, step_replace.
Qed.
End spec.

(** ** Properties *)

(** Optimistic locking is sound: between two points of a store's history
    the revision of a record is equal exactly when the whole record is, so a
    compare-and-exchange prepared from an older record never overwrites an
    update it has not seen.  The secret never changes, the epoch never falls. *)
Theorem revision_identifies_record (m m' : gmap string SessionRecord) id r r' :
  store_ok m → rtc backend_step m m' → m !! id = Some r → m' !! id = Some r' →
  (sr_revision r' = sr_revision r ↔ r' = r) ∧
  (sr_revision r <= sr_revision r')%N ∧ (sr_epoch r <= sr_epoch r')%N ∧
  sr_secret_digest r' = sr_secret_digest r.
Proof.
  intros Hok Hs Hr Hr'. destruct (backend_steps_later m m' id r Hok Hs Hr) as (_ & r2 & Hr2 & HL).
  simplify_eq. destruct HL as [Hrev He Hd _ _].
  split_and!; try done; [split; [|by intros ->]|]; destruct Hrev as [->|]; try done; lia.
Qed.

(** A lease is fenced by its epoch: once the owner recorded with an epoch
    has released the session, or anybody has attached since, no later record
    of the store carries that epoch together with an owner again. *)
Theorem lease_never_returns (m1 m2 m3 : gmap string SessionRecord) id r1 r2 r3 :
  store_ok m1 → rtc backend_step m1 m2 → rtc backend_step m2 m3 →
  m1 !! id = Some r1 → m2 !! id = Some r2 → m3 !! id = Some r3 →
  is_Some (sr_owner r1) →
  sr_owner r2 = None ∨ (sr_epoch r1 < sr_epoch r2)%N →
  sr_epoch r3 = sr_epoch r1 → sr_owner r3 = None.
Proof.
  intros Hok H12 H23 H1 H2 H3 Ho Hgone He.
  destruct (backend_steps_later m1 m2 id r1 Hok H12 H1) as (Hok2 & ? & ? & HL1).
  destruct (backend_steps_later m2 m3 id r2 Hok2 H23 H2) as (_ & ? & ? & HL2). simplify_eq.
  destruct HL1 as [_ He1 _ Hf1 _], HL2 as [_ He2 _ Hf2 _].
  destruct Hgone as [Hn|]; [|lia]. assert (sr_epoch r3 = sr_epoch r2) as Heq by lia.
  destruct (Hf2 Heq) as [[-> _]|]; done.
Qed.

(** A tombstone of the current schema is final: nothing a backend does
    changes or removes it. *)
Theorem tombstone_is_final (m m' : gmap string SessionRecord) id r :
  store_ok m → rtc backend_step m m' → m !! id = Some r →
  sr_forgotten r = true → sr_schema_version r = 2%N → m' !! id = Some r.
Proof.
  intros Hok Hs Hr Hf H2. destruct (backend_steps_later m m' id r Hok Hs Hr) as (_ & r' & Hr' & HL).
  by rewrite Hr', (later_tombstone _ _ HL Hf H2).
Qed.
End with_record_externals.
