(* ===== verification/StoreConfig.v ===== *)
(** * The persisted session configuration ([crates/whale-store/src/configuration.rs])

    A session stores its configuration as a JSON object with a [version].  The
    current version is 3; versions 1 and 2 are migrated when they are read.
    Mutable metadata is kept apart from the part that an attachment must match. *)

From stdpp Require Import pretty.
From S2P Require Import Prelude Protocol StoreState.

(** ** [session_management.rs]: limits of a metadata replacement *)

Definition MAX_SESSION_METADATA_BYTES : N := 65536.
Definition MAX_SESSION_METADATA_KEYS : nat := 256.
Definition MAX_SESSION_METADATA_DEPTH : nat := 16.

(** [iter.max().unwrap_or(default)] *)
Definition max_or (d : nat) (l : list nat) : nat :=
  match l with [] => d | _ => foldr Nat.max 0 l end.

(** Depths stay far below [usize::MAX], where the addition would saturate. *)
Fixpoint value_depth (value : Value) (parent_depth : nat) : nat :=
  match value with
  | Array values => max_or (S parent_depth) (map (λ v, value_depth v (S parent_depth)) values)
  | Object values =>
      max_or (S parent_depth) (map_fold (λ _ v acc, value_depth v (S parent_depth) :: acc) [] values)
  | _ => parent_depth
  end.

Section with_externals.
Context `{Externals}.

Definition validate_session_metadata_replacement (metadata : Map) : result string () :=
  reject_if (MAX_SESSION_METADATA_KEYS <? size metadata)
    ("Session metadata exceeds " +:+ pretty MAX_SESSION_METADATA_KEYS +:+ " top-level keys");;
  bytes ← serialized_bytes (value_json_len (Object metadata));
  reject_if (MAX_SESSION_METADATA_BYTES <? bytes)%N
    ("Session metadata exceeds " +:+ pretty MAX_SESSION_METADATA_BYTES +:+ " serialized bytes");;
  let depth := max_or 1 ((λ v, value_depth v 1) <$> btree_values metadata) in
  reject_if (MAX_SESSION_METADATA_DEPTH <? depth)
    ("Session metadata exceeds nesting depth " +:+ pretty MAX_SESSION_METADATA_DEPTH).

(** ** [PersistedSessionConfigurationV2] *)

Record PersistedSessionConfigurationV2 := {
  cfg_session : Map;
  cfg_run_defaults : Value;
  cfg_metadata : Map;
  cfg_interactions_enabled : bool;
}.

Definition attachment_identity (self : PersistedSessionConfigurationV2) : Map * Value :=
  (cfg_session self, cfg_run_defaults self).

Definition into_value (self : PersistedSessionConfigurationV2) : Value :=
  Object (<["version" := u64_value 3]>
         (<["session" := Object (cfg_session self)]>
         (<["run_defaults" := cfg_run_defaults self]>
         (<["metadata" := Object (cfg_metadata self)]>
         (<["runtime_features" :=
              Object {["interactions_enabled" := Bool (cfg_interactions_enabled self)]}]> ∅))))).

Definition take_metadata (session : Map) (default_empty : bool) : Result (Map * Map) :=
  match session !! "metadata" with
  | Some (Object metadata) => Ok (delete "metadata" session, metadata)
  | Some _ => Err (Invalid "Persisted Session metadata must be an object")
  | None => if default_empty then Ok (session, ∅)
            else Err (Invalid "Persisted Session metadata is missing")
  end.

Definition validate_run_defaults (value : Value) : Result () :=
  defaults ← map_err (λ error, Invalid ("Invalid persisted Session run_defaults: " +:+ error))
               (decode_run_defaults value);
  map_err Invalid (SessionRunDefaults_validate defaults).

Definition check_tool (tool : Value) : Result () :=
  tool ← ok_or (as_object tool) (Invalid "Persisted Session tools must contain objects");
  reject_if (contains_key "binding_id" tool)
    (Invalid "Persisted Session tools cannot contain host binding_id").

Definition validate_session_identity (session : Map) : Result () :=
  reject_if (contains_key "session_id" session)
    (Invalid "Persisted Session attachment identity cannot contain session_id");;
  match session !! "tools" with
  | Some tools =>
      tools ← ok_or (as_array tools) (Invalid "Persisted Session tools must be an array");
      fold_res (λ _, check_tool) () tools
  | None => Ok ()
  end.

Definition v1_parts (root : Map) : Result (Map * Value) :=
  match root !! "session" with
  | Some (Object session) =>
      let root := delete "session" root in
      let run_defaults := default (Object ∅) (root !! "run_defaults") in
      reject_if (negb (map_is_empty (delete "run_defaults" root)))
        (Invalid "Persisted Session configuration V1 has unknown top-level fields");;
      Ok (session, run_defaults)
  | Some _ => Err (Invalid "Persisted Session configuration session must be an object")
  | None =>
      let run_defaults := default (Object ∅) (root !! "run_defaults") in
      Ok (delete "run_defaults" root, run_defaults)
  end.

Definition migrate_v1 (root : Map) : Result PersistedSessionConfigurationV2 :=
  '(session, run_defaults) ← v1_parts root;
  '(session, metadata) ← take_metadata session true;
  validate_run_defaults run_defaults;;
  validate_session_identity session;;
  Ok {| cfg_session := session; cfg_run_defaults := run_defaults; cfg_metadata := metadata;
        cfg_interactions_enabled := false |}.

(** [match root.remove(key) { Some(Value::Object(o)) => o, _ => return Err(..) }] *)
Definition remove_object (key : string) (root : Map) (message : string) : Result (Map * Map) :=
  match root !! key with
  | Some (Object o) => Ok (o, delete key root)
  | _ => Err (Invalid message)
  end.

Definition parse_v2 (root : Map) : Result PersistedSessionConfigurationV2 :=
  '(session, root) ← remove_object "session" root
    "Persisted Session configuration V2 requires an object session";
  run_defaults ← ok_or (root !! "run_defaults")
    (Invalid "Persisted Session configuration V2 requires run_defaults");
  let root := delete "run_defaults" root in
  '(metadata, root) ← remove_object "metadata" root
    "Persisted Session configuration V2 requires object metadata";
  reject_if (negb (map_is_empty root))
    (Invalid "Persisted Session configuration V2 has unknown top-level fields");;
  validate_run_defaults run_defaults;;
  validate_session_identity session;;
  reject_if (contains_key "metadata" session)
    (Invalid "Persisted Session configuration V2 metadata must be top-level");;
  Ok {| cfg_session := session; cfg_run_defaults := run_defaults; cfg_metadata := metadata;
        cfg_interactions_enabled := false |}.

Definition parse_features (features : Map) : Result bool :=
  enabled ← ok_or (v ← features !! "interactions_enabled"; as_bool v)
    (Invalid "Persisted Session configuration V3 requires boolean runtime_features.interactions_enabled");
  reject_if (negb (map_is_empty (delete "interactions_enabled" features)))
    (Invalid "Persisted Session configuration V3 has unknown runtime_features");;
  Ok enabled.

Definition parse_v3 (root : Map) : Result PersistedSessionConfigurationV2 :=
  '(session, root) ← remove_object "session" root
    "Persisted Session configuration V3 requires an object session";
  run_defaults ← ok_or (root !! "run_defaults")
    (Invalid "Persisted Session configuration V3 requires run_defaults");
  let root := delete "run_defaults" root in
  '(metadata, root) ← remove_object "metadata" root
    "Persisted Session configuration V3 requires object metadata";
  '(features, root) ← remove_object "runtime_features" root
    "Persisted Session configuration V3 requires object runtime_features";
  interactions_enabled ← parse_features features;
  reject_if (negb (map_is_empty root))
    (Invalid "Persisted Session configuration V3 has unknown top-level fields");;
  validate_run_defaults run_defaults;;
  validate_session_identity session;;
  reject_if (contains_key "metadata" session)
    (Invalid "Persisted Session configuration V3 metadata must be top-level");;
  Ok {| cfg_session := session; cfg_run_defaults := run_defaults; cfg_metadata := metadata;
        cfg_interactions_enabled := interactions_enabled |}.

Definition parse_and_migrate (value : Value) : Result (PersistedSessionConfigurationV2 * bool) :=
  root ← ok_or (as_object value) (Invalid "Persisted Session configuration must be an object");
  version ← ok_or (v ← root !! "version"; as_u64 v)
    (Invalid "Persisted Session configuration requires an integer version");
  let root := delete "version" root in
  match version with
  | 1%N => c ← migrate_v1 root; Ok (c, true)
  | 2%N => c ← parse_v2 root; Ok (c, true)
  | 3%N => c ← parse_v3 root; Ok (c, false)
  | other => Err (Invalid ("Unsupported persisted Session configuration version " +:+ pretty other))
  end.

Definition validate_metadata_replacement (metadata : Map) : Result () :=
  map_err Invalid (validate_session_metadata_replacement metadata).

Definition replace_metadata (self : PersistedSessionConfigurationV2) (metadata : Map)
    : Result PersistedSessionConfigurationV2 :=
  validate_metadata_replacement metadata;;
  Ok {| cfg_session := cfg_session self; cfg_run_defaults := cfg_run_defaults self;
        cfg_metadata := metadata; cfg_interactions_enabled := cfg_interactions_enabled self |}.

(** ** Well-formed configurations *)

Record ConfigurationOk (c : PersistedSessionConfigurationV2) : Prop := {
  cfg_defaults_ok : validate_run_defaults (cfg_run_defaults c) = Ok ();
  cfg_identity_ok : validate_session_identity (cfg_session c) = Ok ();
  cfg_no_metadata : cfg_session c !! "metadata" = None;
}.

Lemma contains_key_false key (m : Map) : contains_key key m = false ↔ m !! key = None.
Proof. unfold contains_key. rewrite bool_decide_eq_false. symmetry. apply eq_None_not_Some. Qed.

Lemma map_is_empty_true (m : Map) : map_is_empty m = true ↔ m = ∅.
Proof. apply bool_decide_eq_true. Qed.

Lemma remove_object_Ok key root message o root' :
  remove_object key root message = Ok (o, root') ↔ root !! key = Some (Object o) ∧ root' = delete key root.
Proof. unfold remove_object. destruct (root !! key) as [[]|]; naive_solver. Qed.

Lemma take_metadata_Ok session b session' metadata :
  take_metadata session b = Ok (session', metadata) → session' !! "metadata" = None.
Proof.
  unfold take_metadata. destruct (session !! "metadata") as [[]|] eqn:Hm; try done.
  - intros [= <- _]. apply lookup_delete_eq.
  - destruct b; [|done]. by intros [= <- _].
Qed.

(** Whatever [parse_and_migrate] returns is well formed; it reports a migration
    exactly for the versions before 3. *)
Lemma parse_configuration_ok v c b : parse_and_migrate v = Ok (c, b) → ConfigurationOk c.
Proof.
  unfold parse_and_migrate. intros Hp. apply bind_Ok in Hp as (root & _ & Hp).
  apply bind_Ok in Hp as (version & _ & Hp). simpl in Hp.
  assert (∃ root', migrate_v1 root' = Ok c ∨ parse_v2 root' = Ok c ∨ parse_v3 root' = Ok c)
    as (root' & Hc).
  { exists (delete "version" root).
    destruct version as [|[[]|[]|]]; try done; apply bind_Ok in Hp as (c' & Hc & [= -> _]); auto. }
  destruct Hc as [Hc|[Hc|Hc]].
  - unfold migrate_v1 in Hc. inv_result.
    match goal with H : take_metadata _ _ = Ok _ |- _ => apply take_metadata_Ok in H end.
    repeat match goal with x : () |- _ => destruct x end. by split.
  - unfold parse_v2 in Hc. inv_result. rewrite contains_key_false in *.
    repeat match goal with x : () |- _ => destruct x end. by split.
  - unfold parse_v3 in Hc. inv_result. rewrite contains_key_false in *.
    repeat match goal with x : () |- _ => destruct x end. by split.
Qed.

Lemma parse_v3_Ok root c :
  root !! "session" = Some (Object (cfg_session c)) →
  root !! "run_defaults" = Some (cfg_run_defaults c) →
  root !! "metadata" = Some (Object (cfg_metadata c)) →
  root !! "runtime_features" =
    Some (Object {["interactions_enabled" := Bool (cfg_interactions_enabled c)]}) →
  (∀ key, key ∉ ["session"; "run_defaults"; "metadata"; "runtime_features"] → root !! key = None) →
  ConfigurationOk c → parse_v3 root = Ok c.
Proof.
  intros H1 H2 H3 H4 Hrest [Hd Hs Hm]. unfold parse_v3, remove_object.
  rewrite H1. simpl.
  assert (delete "session" root !! "run_defaults" = Some (cfg_run_defaults c)) as ->
    by (by rewrite lookup_delete_ne).
  simpl. set (r2 := delete "run_defaults" _).
  assert (r2 !! "metadata" = Some (Object (cfg_metadata c))) as ->
    by (unfold r2; by rewrite !lookup_delete_ne).
  simpl. set (r3 := delete "metadata" r2).
  assert (r3 !! "runtime_features" =
    Some (Object {["interactions_enabled" := Bool (cfg_interactions_enabled c)]})) as ->
    by (unfold r3, r2; by rewrite !lookup_delete_ne).
  simpl.
  unfold parse_features. rewrite lookup_singleton_eq. simpl. rewrite delete_singleton_eq. simpl.
  rewrite (proj2 (map_is_empty_true _)).
  2:{ unfold r3, r2. apply map_eq. intros key. rewrite lookup_empty, !lookup_delete_None.
      destruct (decide (key ∈ ["session"; "run_defaults"; "metadata"; "runtime_features"])) as [Hk|];
        [|by auto 10].
      rewrite !elem_of_cons in Hk. destruct Hk as [->|[->|[->|[->|Hk]]]]; [by auto 10..|set_solver]. }
  simpl. rewrite Hd. simpl. rewrite Hs. simpl. rewrite (proj2 (contains_key_false _ _) Hm). simpl.
  by destruct c.
Qed.

Lemma parse_into_value c : ConfigurationOk c → parse_and_migrate (into_value c) = Ok (c, false).
Proof.
  intros HC. unfold parse_and_migrate, into_value. simpl. rewrite lookup_insert_eq. simpl.
  rewrite (parse_v3_Ok _ c); [done|..|done]; try (by simplify_map_eq).
  intros key Hkey. rewrite !not_elem_of_cons in Hkey. destruct (decide (key = "version")) as [->|].
  - apply lookup_delete_eq.
  - rewrite lookup_delete_ne, !lookup_insert_ne by naive_solver. done.
Qed.

Lemma replace_metadata_ok c metadata c' :
  replace_metadata c metadata = Ok c' → ConfigurationOk c →
  ConfigurationOk c' ∧ attachment_identity c' = attachment_identity c ∧ cfg_metadata c' = metadata ∧
  cfg_interactions_enabled c' = cfg_interactions_enabled c.
Proof. unfold replace_metadata. intros Hr []. inv_result. by split_and!. Qed.

(** Migration is idempotent and the current version round-trips: whatever
    version was read, writing the result and reading it again gives the same
    configuration and asks for no further migration. *)
Theorem configuration_round_trip v c b :
  parse_and_migrate v = Ok (c, b) → parse_and_migrate (into_value c) = Ok (c, false).
Proof. intros Hp. by eapply parse_into_value, parse_configuration_ok. Qed.

(** Metadata is outside the attachment identity: replacing it changes neither
    the session, nor the run defaults, nor the feature switch, and the new value is
    what a later read returns. *)
Theorem metadata_outside_identity v c b metadata c' :
  parse_and_migrate v = Ok (c, b) → replace_metadata c metadata = Ok c' →
  attachment_identity c' = attachment_identity c ∧
  cfg_interactions_enabled c' = cfg_interactions_enabled c ∧
  parse_and_migrate (into_value c') = Ok (c', false) ∧ cfg_metadata c' = metadata.
Proof.
  intros Hp Hr. apply replace_metadata_ok in Hr as (Hc & Hid & Hm & Hi); [|by eapply parse_configuration_ok].
  by rewrite parse_into_value.
Qed.
End with_externals.
