(* ===== verification/StoreRuntime.v ===== *)
(** * The store runtime and the session journal ([crates/whale-store/src/runtime.rs])

    [StoreRuntime]: opening a store, creating, authenticating, attaching and
    forgetting sessions.  [SessionJournal]: the worker that holds a lease on one
    session and turns each command into one compare-and-exchange.  The store is
    any instance of [SessionStore]; [now] is the value of [now_ms()]. *)

From S2P Require Import Prelude Protocol StoreState StoreValid StoreInvariant StoreBackend StoreConfig.

(** ** Definitions *)

(** The [Display] texts of [StoreError]. *)
Definition error_text (e : StoreError) : string :=
  match e with
  | LimitExceeded what => "Session admission limit exceeded: " +:+ what
  | Invalid what => "Invalid store operation: " +:+ what
  | NotFound => "Recovery record not found"
  | Unauthorized => "Invalid recovery credentials"
  | Conflict => "Store revision or identity conflict"
  | Active => "Recovery session is attached"
  | UnknownExecutions => "Unknown executions require acknowledgment"
  | StaleLease => "Stale session lease"
  | Forgotten => "Recovery record was forgotten"
  | Io what => "Store I/O failed: " +:+ what
  | Poisoned what => "Session journal is poisoned: " +:+ what
  end.

(** The fold of [check_key]: the XOR of the bytes, accumulated with OR. *)
Definition byte_difference (a b : string) : N :=
  foldl (λ n '(x, y), N.lor n (N.lxor (N.of_nat x) (N.of_nat y))) 0%N (zip (bytes_of a) (bytes_of b)).

Inductive Action :=
  | ActionRecord
  | ActionBegin (params : StartTurnParams) (snapshot : RunSnapshot) (options : Value)
  | ActionCommit (turn : string) (mutation : RunMutation)
  | ActionFinalize (turn : string) (candidate : RunSnapshot)
  | ActionReplace (configuration : Value)
  | ActionReplaceMetadata (metadata : Map)
  | ActionAcknowledge (expected : N) (ids : list string)
  | ActionDetach.

Inductive Response :=
  | ResponseRecord (record : SessionRecord)
  | ResponseBool (b : bool)
  | ResponseReceipt (receipt : CommitReceipt)
  | ResponseFinalized (run : FinalizedRun)
  | ResponseSnapshot (snap : RecoverySnapshot)
  | ResponseMetadata (metadata : Map)
  | ResponseUnit.

(** The worker of a journal: the lease it was spawned with and its poison. *)
Record SessionJournal := {
  worker_id : string;
  worker_owner : option string;
  worker_thread : option string;
  worker_epoch : N;
  worker_poison : option string;
}.

Definition spawn (record : SessionRecord) : SessionJournal :=
  {| worker_id := sr_recovery_id record; worker_owner := sr_owner record;
     worker_thread := sr_thread_id record; worker_epoch := sr_epoch record;
     worker_poison := None |}.

Definition poisoned_by (error : string) (w : SessionJournal) : SessionJournal :=
  {| worker_id := worker_id w; worker_owner := worker_owner w; worker_thread := worker_thread w;
     worker_epoch := worker_epoch w; worker_poison := Some error |}.

Definition acknowledge_one (u : UnknownExecution) : UnknownExecution :=
  {| unk_execution_id := unk_execution_id u; unk_turn_id := unk_turn_id u;
     unk_call_id := unk_call_id u; unk_tool_name := unk_tool_name u;
     unk_original_arguments := unk_original_arguments u; unk_arguments := unk_arguments u;
     unk_reason := unk_reason u; unk_acknowledged := true |}.

(** The execution identities that still require an acknowledgment. *)
Definition unacknowledged (self : SessionRecord) : list string :=
  unk_execution_id <$> List.filter (λ u, negb (unk_acknowledged u)) (sr_unknown_executions self).

Section with_externals.
Context `{Externals, RecordExternals}.

Definition digest (secret : string) : string := sha256_hex secret.

Definition check_key (record : SessionRecord) (key : RecoveryKey) : Result () :=
  map_err Invalid (RecoveryKey_validate key);;
  let expected := digest (key_secret key) in
  let difference := byte_difference expected (sr_secret_digest record) in
  reject_if
    ((sr_recovery_id record != key_recovery_id key) ||
     (String.length expected != String.length (sr_secret_digest record)) ||
     (difference != 0%N))
    Unauthorized.

Definition identity (owner thread : string) (configuration : Value) : Result () :=
  reject_if (blank owner || blank thread || negb (is_object configuration))
    (Invalid "Invalid attachment/configuration").

Definition parse_versioned_configuration (configuration : Value)
    : Result (option (PersistedSessionConfigurationV2 * bool)) :=
  if is_none (get "version" configuration) then Ok None
  else parsed ← parse_and_migrate configuration; Ok (Some parsed).

Definition normalize_new_configuration (configuration : Value) : Result Value :=
  parsed ← parse_versioned_configuration configuration;
  match parsed with
  | Some (configuration, _) => Ok (into_value configuration)
  | None => Ok configuration
  end.

Definition normalize_configuration_replacement (current replacement : Value) : Result Value :=
  replacement ← normalize_new_configuration replacement;
  stored ← parse_versioned_configuration current;
  proposed ← parse_versioned_configuration replacement;
  match stored, proposed with
  | Some (current, _), Some (proposed, _) =>
      reject_if (cfg_metadata current != cfg_metadata proposed)
        (Invalid "Use replace_metadata to change persisted Session metadata")
  | Some _, None =>
      Err (Invalid "Versioned persisted Session configuration cannot become unversioned")
  | _, _ => Ok ()
  end;;
  Ok replacement.

(** ** [apply]: a command on the record *)

Definition acknowledge (record : SessionRecord) (expected : N) (ids : list string)
    : Result SessionRecord :=
  reject_if (sr_revision record != expected) Conflict;;
  reject_if (active record) Active;;
  let supplied : gset string := list_to_set ids in
  let required : gset string := list_to_set (unacknowledged record) in
  reject_if ((size supplied != length ids) || (supplied != required))
    (Invalid "Acknowledgment must name the exact unresolved execution set");;
  Ok (set_unknown_executions (acknowledge_one <$> sr_unknown_executions record) record).

(** [ActionRecord] never reaches [apply]: the worker answers it first. *)
Definition apply (record : SessionRecord) (action : Action) (now : N) (fresh_result fresh_execution : string)
    : Result (SessionRecord * Response) :=
  match action with
  | ActionRecord => Err (Invalid "unreachable")
  | ActionBegin params snapshot options =>
      '(record, b) ← begin record params snapshot options;
      Ok (record, ResponseBool b)
  | ActionCommit turn mutation =>
      '(record', item) ← mutate record turn mutation fresh_result fresh_execution;
      Ok (record', ResponseReceipt {| receipt_revision := sr_revision record; receipt_result_item := item |})
  | ActionFinalize turn candidate =>
      '(record, closed) ← finalize record turn candidate;
      Ok (record, ResponseFinalized closed)
  | ActionReplace configuration =>
      reject_if (active record) Active;;
      reject_if (negb (is_object configuration)) (Invalid "Configuration must be an object");;
      replacement ← normalize_configuration_replacement (sr_configuration record) configuration;
      Ok (set_configuration replacement record, ResponseUnit)
  | ActionReplaceMetadata metadata =>
      '(configuration, _) ← parse_and_migrate (sr_configuration record);
      configuration ← replace_metadata configuration metadata;
      Ok (set_configuration (into_value configuration) record, ResponseMetadata metadata)
  | ActionAcknowledge expected ids =>
      record ← acknowledge record expected ids;
      Ok (record, ResponseSnapshot (snapshot record))
  | ActionDetach =>
      '(record, _) ← recover record;
      Ok (mark_detached record now, ResponseUnit)
  end.

(** ** The journal worker *)

Definition lease_mismatch (w : SessionJournal) (record : SessionRecord) : bool :=
  (sr_epoch record != worker_epoch w) || (sr_owner record != worker_owner w) ||
  (sr_thread_id record != worker_thread w) || is_none (sr_owner record) || sr_forgotten record.

(** The answer after the write: it carries the revision that was written. *)
Definition committed_response (record : SessionRecord) (response : Response) : Response :=
  match response with
  | ResponseReceipt r =>
      ResponseReceipt {| receipt_revision := sr_revision record;
                         receipt_result_item := receipt_result_item r |}
  | ResponseSnapshot _ => ResponseSnapshot (snapshot record)
  | other => other
  end.

Definition write_failure (error : StoreError) : StoreError :=
  match error with
  | Io _ | Poisoned _ => error
  | other => Poisoned (error_text other)
  end.

(** The record that a command writes, or the error answered without a write. *)
Definition next_record (record : SessionRecord) (action : Action) (now_apply now_touch : N)
    (fresh_result fresh_execution : string) : Result (SessionRecord * Response) :=
  '(record', response) ← apply record action now_apply fresh_result fresh_execution;
  next ← ok_or (checked_add (sr_revision record) 1) Conflict;
  Ok (set_revision next (touch record' now_touch), response).

Section store.
Context {S : Type} `{!SessionStore S}.

(** One turn of the worker's loop: a command taken from the channel. *)
Definition journal_step (w : SessionJournal) (action : Action) (now_apply now_touch : N)
    (fresh_result fresh_execution : string) (s : S) : Result Response * SessionJournal * S :=
  match worker_poison w with
  | Some error => (Err (Poisoned error), w, s)
  | None =>
      match load (worker_id w) s with
      | (Err error, s) => (Err error, poisoned_by (error_text error) w, s)
      | (Ok None, s) => (Err NotFound, poisoned_by "Record disappeared" w, s)
      | (Ok (Some record), s) =>
          if lease_mismatch w record then (Err StaleLease, w, s) else
          match action with
          | ActionRecord => (Ok (ResponseRecord record), w, s)
          | _ =>
              match next_record record action now_apply now_touch fresh_result fresh_execution with
              | Err error => (Err error, w, s)
              | Ok (new, response) =>
                  match compare_exchange (worker_id w) (sr_revision record) new s with
                  | (Ok _, s) => (Ok (committed_response new response), w, s)
                  | (Err error, s) => (Err (write_failure error), poisoned_by (error_text error) w, s)
                  end
              end
          end
      end
  end.

(** ** [StoreRuntime] *)

(** What [open] makes of one record: nothing to write, or its replacement. *)
Definition reopen (now : N) (record : SessionRecord) : Result (option SessionRecord) :=
  validate record;;
  let revision := sr_revision record in
  '(record, configuration_migrated) ←
    (if sr_forgotten record then Ok (record, false) else
     parsed ← parse_versioned_configuration (sr_configuration record);
     match parsed with
     | Some (configuration, migrated) =>
         Ok (if migrated : bool then set_configuration (into_value configuration) record else record,
             migrated)
     | None => Ok (record, false)
     end);
  let '(record, retention_migrated) := migrate_retention record now in
  let attached := is_some (sr_owner record) in
  '(record, recovered) ← recover record;
  let record := if attached : bool then mark_detached record now else record in
  if configuration_migrated || retention_migrated || recovered then
    next ← ok_or (checked_add revision 1) Conflict;
    Ok (Some (set_revision next record))
  else Ok None.

Fixpoint open_loop (now : N) (records : list SessionRecord) : eff S StoreError () :=
  match records with
  | [] => mret ()
  | record :: records =>
      replacement ← lift (reopen now record);
      match replacement with
      | Some new => compare_exchange (sr_recovery_id record) (sr_revision record) new
      | None => mret ()
      end;;
      open_loop now records
  end.

Definition open (now : N) : eff S StoreError () :=
  records ← list_records;
  open_loop now records.

Definition fresh_record (key : RecoveryKey) (configuration : Value) (owner thread_id : string)
    (now : N) : SessionRecord :=
  {| sr_schema_version := 2;
     sr_created_at_ms := Some now;
     sr_updated_at_ms := Some now;
     sr_detached_since_ms := None;
     sr_retired_at_ms := None;
     sr_retirement_reason := None;
     sr_recovery_id := key_recovery_id key;
     sr_secret_digest := digest (key_secret key);
     sr_revision := 1;
     sr_epoch := 1;
     sr_owner := Some owner;
     sr_thread_id := Some thread_id;
     sr_historical_thread_ids := [thread_id];
     sr_forgotten := false;
     sr_configuration := configuration;
     sr_history := [];
     sr_runs := ∅;
     sr_unknown_executions := [] |}.

Definition create_session (key : RecoveryKey) (configuration : Value) (owner thread_id : string)
    (now : N) : eff S StoreError SessionJournal :=
  lift (map_err Invalid (RecoveryKey_validate key));;
  lift (identity owner thread_id configuration);;
  configuration ← lift (normalize_new_configuration configuration);
  let record := fresh_record key configuration owner thread_id now in
  create record;;
  mret (spawn record).

Definition authenticated (key : RecoveryKey) : eff S StoreError SessionRecord :=
  lift (map_err Invalid (RecoveryKey_validate key));;
  found ← load (key_recovery_id key);
  record ← lift (ok_or found NotFound);
  lift (check_key record key);;
  lift (validate record);;
  mret record.

Definition inspect (key : RecoveryKey) : eff S StoreError RecoverySnapshot :=
  record ← authenticated key;
  if sr_forgotten record then lift (Err Forgotten) else mret (snapshot record).

Definition configuration_matches (stored caller : option (PersistedSessionConfigurationV2 * bool))
    (record_configuration configuration : Value) : bool :=
  match stored, caller with
  | Some (stored, _), Some (caller, _) =>
      (attachment_identity stored == attachment_identity caller) &&
      (cfg_interactions_enabled stored == cfg_interactions_enabled caller)
  | None, None => record_configuration == configuration
  | _, _ => false
  end.

(** The part of [attach] between the load and the write. *)
Definition attach_record (record : SessionRecord) (expected_revision : N) (configuration : Value)
    (owner fresh_thread_id : string) (now : N) : Result SessionRecord :=
  reject_if (sr_forgotten record) Forgotten;;
  reject_if (is_some (sr_owner record)) Active;;
  reject_if (sr_revision record != expected_revision) Conflict;;
  stored ← parse_versioned_configuration (sr_configuration record);
  caller ← parse_versioned_configuration configuration;
  reject_if
    (negb (configuration_matches stored caller (sr_configuration record) configuration) ||
     bool_decide (fresh_thread_id ∈ sr_historical_thread_ids record))
    (Invalid "Attachment configuration or fresh identity mismatch");;
  let record :=
    match stored with
    | Some (stored, true) => set_configuration (into_value stored) record
    | _ => record
    end in
  let record := set_thread_id (Some fresh_thread_id)
                  (set_owner (Some owner) (set_detached_since_ms None (touch record now))) in
  let record := set_historical_thread_ids (sr_historical_thread_ids record ++ [fresh_thread_id]) record in
  epoch ← ok_or (checked_add (sr_epoch record) 1) Conflict;
  revision ← ok_or (checked_add (sr_revision record) 1) Conflict;
  Ok (set_revision revision (set_epoch epoch record)).

Definition attach (key : RecoveryKey) (expected_revision : N) (configuration : Value)
    (owner fresh_thread_id : string) (now : N) : eff S StoreError SessionJournal :=
  lift (identity owner fresh_thread_id configuration);;
  record ← authenticated key;
  new ← lift (attach_record record expected_revision configuration owner fresh_thread_id now);
  compare_exchange (key_recovery_id key) expected_revision new;;
  mret (spawn new).

(** The part of [forget] between the load and the write; [None]: already forgotten. *)
Definition forget_record (record : SessionRecord) (expected_revision now : N)
    : Result (option SessionRecord) :=
  if sr_forgotten record then Ok None else
  reject_if (is_some (sr_owner record)) Active;;
  reject_if (sr_revision record != expected_revision) Conflict;;
  revision ← ok_or (checked_add (sr_revision record) 1) Conflict;
  Ok (Some (set_revision revision (retire record now "explicit_forget"))).

Definition forget (key : RecoveryKey) (expected_revision now : N) : eff S StoreError bool :=
  record ← authenticated key;
  replacement ← lift (forget_record record expected_revision now);
  match replacement with
  | None => mret false
  | Some new => compare_exchange (key_recovery_id key) expected_revision new;; mret true
  end.
End store.

(** ** Good records and good stores *)

(** The configuration is unversioned or of a version that can be read. *)
Definition config_readable (r : SessionRecord) : Prop :=
  is_ok (parse_versioned_configuration (sr_configuration r)) = true.

Definition Good (r : SessionRecord) : Prop := Inv r ∧ config_readable r.

Definition store_good (m : gmap string SessionRecord) : Prop :=
  map_Forall (λ id r, sr_recovery_id r = id ∧ Good r) m.

(** What a command of the journal needs of its fresh identities. *)
Definition fresh_action (r : SessionRecord) (action : Action) (fresh_result fresh_execution : string) : Prop :=
  match action with
  | ActionCommit _ mutation => fresh_for r mutation fresh_result fresh_execution
  | _ => True
  end.

(** What the runtime never changes between a load and its write. *)
Definition header (r : SessionRecord) :=
  (sr_schema_version r, sr_created_at_ms r, sr_recovery_id r, sr_secret_digest r, sr_revision r,
   sr_epoch r, sr_forgotten r).

Lemma store_good_ok m : store_good m → store_ok m.
Proof. intros Hg id r Hr. destruct (Hg id r Hr) as (? & [] & ?). done. Qed.

Lemma store_good_insert m id r :
  store_good m → sr_recovery_id r = id → Good r → store_good (<[id := r]> m).
Proof. intros. by apply map_Forall_insert_2. Qed.

Lemma NoDup_recovery_ids (m : gmap string SessionRecord) :
  map_Forall (λ id r, sr_recovery_id r = id) m → NoDup (sr_recovery_id <$> btree_values m).
Proof.
  intros Hm. unfold btree_values. rewrite <-list_fmap_compose.
  rewrite (list_fmap_ext _ fst); [apply NoDup_btree_keys|].
  intros i [id r] Hi%list_elem_of_lookup_2%elem_of_btree_iter. by apply Hm.
Qed.

(** *** Configurations *)

Lemma parse_versioned_into_value c :
  ConfigurationOk c → parse_versioned_configuration (into_value c) = Ok (Some (c, false)).
Proof.
  intros Hc. unfold parse_versioned_configuration.
  replace (is_none (get "version" (into_value c))) with false by reflexivity.
  by rewrite parse_into_value.
Qed.

Lemma parse_versioned_ok v c b :
  parse_versioned_configuration v = Ok (Some (c, b)) → ConfigurationOk c.
Proof.
  unfold parse_versioned_configuration. destruct (is_none _); [done|]. intros Hp.
  apply bind_Ok in Hp as ([c' b'] & Hp & [= <- <-]). by eapply parse_configuration_ok.
Qed.

Lemma normalize_new_Ok v v' :
  normalize_new_configuration v = Ok v' → is_object v = true →
  is_object v' = true ∧ is_ok (parse_versioned_configuration v') = true.
Proof.
  unfold normalize_new_configuration. intros Hn Hv. apply bind_Ok in Hn as ([[c b]|] & Hp & [= <-]).
  - by rewrite parse_versioned_into_value by by eapply parse_versioned_ok.
  - by rewrite Hp.
Qed.

Lemma normalize_replacement_Ok v w w' :
  normalize_configuration_replacement v w = Ok w' → is_object w = true →
  is_object w' = true ∧ is_ok (parse_versioned_configuration w') = true.
Proof.
  unfold normalize_configuration_replacement. intros Hn Hw.
  apply bind_Ok in Hn as (x & Hx & Hn). apply bind_Ok in Hn as (? & _ & Hn).
  apply bind_Ok in Hn as (? & _ & Hn). apply bind_Ok in Hn as (? & _ & [= <-]).
  by eapply normalize_new_Ok.
Qed.

Lemma Inv_configuration r v : Inv r → is_object v = true → Inv (set_configuration v r).
Proof.
  intros [HV ????] Hv. split; try done. split; try by destruct HV.
  intros Hs. by destruct (v_retention r HV Hs).
Qed.

(** *** The commands of a journal *)

Lemma acknowledge_Inv r expected ids r' :
  Inv r → acknowledge r expected ids = Ok r' → Inv r' ∧ Evolves r r' ∧ frame r' = frame r.
Proof.
  unfold acknowledge. rewrite !reject_bind_Ok. intros [HV ????] (_ & _ & _ & [= <-]).
  assert (unk_execution_id <$> (acknowledge_one <$> sr_unknown_executions r) =
    unk_execution_id <$> sr_unknown_executions r) as Hids.
  { rewrite <-list_fmap_compose. by apply list_fmap_ext. }
  split_and!; [|by apply Evolves_fields|done]. split; try done. split; try by destruct HV.
  - intros Hs. by destruct (v_retention r HV Hs).
  - intros Hf. destruct (v_tombstone r HV Hf) as (?&?&?&Hu). simpl. by rewrite Hu.
  - simpl. rewrite Hids. by apply v_unknown_ids.
  - simpl. intros u (u0 & -> & Hu)%list_elem_of_fmap. apply (v_unknown r HV u0 Hu).
Qed.

(** The lease may only stay or be given up; nothing else of the frame changes. *)
Record Commanded (r r' : SessionRecord) : Prop := {
  cmd_good : Good r';
  cmd_evolves : Evolves r r';
  cmd_lease : LeaseOk r r';
  cmd_header : header r' = header r;
  cmd_updated : opt_ltb (sr_updated_at_ms r') (sr_updated_at_ms r) = false;
}.

Lemma opt_ltb_irrefl o : opt_ltb o o = false.
Proof. destruct o; simpl; [apply N.ltb_irrefl|done]. Qed.

Lemma commanded_frame r r' :
  Good r → Inv r' → Evolves r r' → frame r' = frame r → Commanded r r'.
Proof.
  unfold frame. intros [HI Hc] HI' Hev Hfr. injection Hfr as ??? ???????? ????. split; try done.
  - split; [done|]. unfold config_readable. congruence.
  - by apply lease_same.
  - unfold header. congruence.
  - replace (sr_updated_at_ms r') with (sr_updated_at_ms r). apply opt_ltb_irrefl.
Qed.

Lemma touch_updated r now : opt_ltb (sr_updated_at_ms (touch r now)) (sr_updated_at_ms r) = false.
Proof. simpl. destruct (sr_updated_at_ms r); simpl; [|done]. apply N.ltb_ge. lia. Qed.

Lemma apply_commanded r action now fr fe r' response :
  Good r → sr_forgotten r = false → fresh_action r action fr fe →
  apply r action now fr fe = Ok (r', response) → Commanded r r'.
Proof.
  intros [HI Hc] Hf Hfresh Ha. assert (Good r) as HG by done. pose proof (inv_valid r HI) as HV.
  destruct action; simpl in Ha; inv_result; try done.
  - eapply commanded_frame; try done; [..|by eapply begin_frame];
      by edestruct begin_Inv.
  - eapply commanded_frame; try done; [..|by eapply mutate_frame];
      by edestruct mutate_Inv.
  - eapply commanded_frame; try done; [..|by eapply finalize_frame];
      by edestruct finalize_Inv.
  - match goal with H : normalize_configuration_replacement _ _ = _ |- _ =>
      apply normalize_replacement_Ok in H as [Hobj Hread]; [|by inv_bool] end.
    split; [split; [by apply Inv_configuration|done]|by apply Evolves_fields|by apply lease_same|done|].
    apply opt_ltb_irrefl.
  - match goal with H : replace_metadata _ _ = _ |- _ => apply replace_metadata_ok in H as (Hok & _);
      [|by eapply parse_configuration_ok] end.
    split; [split; [by apply Inv_configuration|]|by apply Evolves_fields|by apply lease_same|done|].
    + unfold config_readable. simpl. by rewrite parse_versioned_into_value.
    + apply opt_ltb_irrefl.
  - match goal with H : acknowledge _ _ _ = _ |- _ => apply acknowledge_Inv in H as (?&?&?); [|done] end.
    by apply commanded_frame.
  - destruct (recover_Ok r HI) as (r1 & Hr & HI1 & Hev & Hact & Hfr).
    match goal with H : recover r = Ok (?x, _) |- _ => rewrite Hr in H; injection H as <- _ end.
    unfold frame in Hfr. injection Hfr as ??? ???????? ????.
    assert (sr_forgotten r1 = false) as Hf1 by congruence.
    split; [split| | | |].
    + by apply detached_Inv.
    + unfold config_readable in *. simpl. congruence.
    + etrans; [exact Hev|]. by apply Evolves_fields.
    + apply lease_release; simpl; congruence.
    + unfold header. simpl. congruence.
    + assert (sr_updated_at_ms r = sr_updated_at_ms r1) as -> by congruence.
      apply (touch_updated r1).
Qed.

Lemma Inv_revision r rev : Inv r → (sr_revision r <= rev)%N → Inv (set_revision rev r).
Proof.
  intros [HV ????] Hle. split; try done. split; try by destruct HV.
  - simpl. pose proof (v_revision r HV). lia.
  - intros Hs. by destruct (v_retention r HV Hs).
  - intros id run Hrun. eapply RunOk_mono; [done|exact Hle|by apply (v_runs r HV)].
Qed.

Lemma opt_ltb_trans a b c : opt_ltb b a = false → opt_ltb c b = false → opt_ltb c a = false.
Proof.
  destruct a, b, c; simpl; try done. rewrite !N.ltb_ge. lia.
Qed.

(** The record that a command writes is good, evolves from the stored one, and
    is accepted by every backend. *)
Lemma next_record_Ok r action now1 now2 fr fe new response :
  Good r → sr_forgotten r = false → fresh_action r action fr fe →
  next_record r action now1 now2 fr fe = Ok (new, response) →
  Good new ∧ Evolves r new ∧ sr_recovery_id new = sr_recovery_id r ∧
  validate_replace r (sr_recovery_id r) (sr_revision r) new = Ok ().
Proof.
  intros HG Hf Hfresh Hn. unfold next_record in Hn. apply bind_Ok in Hn as ([r' resp] & Ha & Hn).
  apply bind_Ok in Hn as (next & Hnext%ok_or_Ok & [= <- <-]).
  destruct (apply_commanded _ _ _ _ _ _ _ HG Hf Hfresh Ha) as [[HI' Hc'] Hev Hl Hh Hu].
  unfold header in Hh. injection Hh as Hh1 Hh2 Hh3 Hh4 Hh5 Hh6 Hh7.
  pose proof Hnext as [-> Hmax]%checked_add_Some.
  assert (Inv (set_revision (sr_revision r + 1) (touch r' now2))) as HI2.
  { apply Inv_revision; [by apply touch_Inv|]. simpl. lia. }
  assert (Evolves r (set_revision (sr_revision r + 1) (touch r' now2))) as Hev2.
  { etrans; [exact Hev|]. by apply Evolves_fields. }
  split_and!; [done|done|done|]. apply validate_replace_evolves; try done; [apply HI2| |].
  - destruct Hl; [by apply lease_same|by apply lease_release|by apply lease_take].
  - intros _. split_and!; [apply HI2|done|]. eapply opt_ltb_trans; [exact Hu|]. apply (touch_updated r').
Qed.

(** *** Attach, forget, create *)

Lemma blank_empty : blank "" = true.
Proof. reflexivity. Qed.

Lemma attach_record_Ok r expected configuration owner thread now new :
  Good r → identity owner thread configuration = Ok () →
  attach_record r expected configuration owner thread now = Ok new →
  Good new ∧ Evolves r new ∧ sr_recovery_id new = sr_recovery_id r ∧ sr_revision r = expected ∧
  sr_owner r = None ∧ sr_owner new = Some owner ∧ sr_thread_id new = Some thread ∧
  sr_epoch new = (sr_epoch r + 1)%N ∧
  validate_replace r (sr_recovery_id r) (sr_revision r) new = Ok ().
Proof.
  intros [HI Hread] Hident Ha. unfold identity in Hident. rewrite reject_if_Ok in Hident.
  autorewrite with guards in Hident. destruct Hident as [[Howner Hthread] _].
  unfold attach_record in Ha. rewrite !reject_bind_Ok in Ha. destruct Ha as (Hf & Ho & Hrev & Ha).
  apply is_some_false in Ho. autorewrite with guards in Hrev.
  apply bind_Ok in Ha as (stored & Hstored & Ha). apply bind_Ok in Ha as (caller & _ & Ha).
  rewrite reject_bind_Ok in Ha. destruct Ha as [Hg Ha]. autorewrite with guards in Hg.
  destruct Hg as [_ Hnew].
  set (r1 := match stored with Some (stored, true) => _ | _ => _ end) in Ha.
  assert (Inv r1 ∧ config_readable r1 ∧ frame (set_configuration (sr_configuration r) r1) = frame r ∧
    Evolves r r1) as (HI1 & Hread1 & Hfr & Hev1).
  { unfold r1. destruct stored as [[c []]|]; [|by destruct r..].
    pose proof (parse_versioned_ok _ _ _ Hstored) as Hc.
    split_and!; [by apply Inv_configuration| |by destruct r|by apply Evolves_fields].
    unfold config_readable. simpl. by rewrite parse_versioned_into_value. }
  clearbody r1. unfold frame in Hfr. simpl in Hfr. injection Hfr as H1 H2 H3 H4 H5 H6 H7 H8 H9 H10 H11 H12 H13 H14.
  apply bind_Ok in Ha as (epoch & He%ok_or_Ok & Ha). apply bind_Ok in Ha as (rev & Hr%ok_or_Ok & [= <-]).
  simpl in He, Hr. pose proof He as [-> _]%checked_add_Some. pose proof Hr as [-> _]%checked_add_Some.
  match goal with |- Good ?n ∧ _ => set (new := n) end.
  assert (Inv new) as HInew.
  { pose proof HI1 as [HV Hs Hl Hd Hsi]. split; try done. split; try by destruct HV.
    - simpl. lia.
    - simpl. lia.
    - intros _. destruct (v_retention r1 HV Hs) as [(c & u & Hc & Hu & Hle) Hra Hde Hr1 Hr2].
      split; simpl; try done.
      rewrite Hc, Hu. eexists _, _. split_and!; [done..|]. simpl. lia.
    - simpl. congruence.
    - simpl. by intros o [= <-].
    - simpl. intros t [= <-]. split; [done|set_solver].
    - simpl. pose proof (v_threads r1 HV) as [Hnd He0]. rewrite H13 in *. split.
      + apply NoDup_app. split_and!; [done| |apply NoDup_singleton]. set_solver.
      + intros [?|Heq%list_elem_of_singleton]%elem_of_app; [done|]. subst thread. done.
    - simpl. intros id run Hrun. eapply RunOk_mono; [done| |by apply (v_runs r1 HV)]. lia. }
  assert (Evolves r new) as Hev.
  { etrans; [exact Hev1|]. split; simpl; [done|by eexists|done]. }
  split_and!; try done; simpl; try congruence.
  apply validate_replace_evolves; try done; simpl; try congruence.
  - apply HInew.
  - apply lease_take; simpl; [done|eauto|congruence].
  - intros _. split_and!; [|done|].
    + by rewrite (inv_schema r1 HI1).
    + rewrite <-H3. apply (touch_updated r1).
Qed.

Lemma tombstone_readable r : sr_configuration r = Object ∅ → config_readable r.
Proof. unfold config_readable. by intros ->. Qed.

Lemma retired_Good r now reason next :
  Inv r → sr_owner r = None → checked_add (sr_revision r) 1 = Some next →
  Good (set_revision next (retire r now reason)).
Proof.
  intros HI Ho [-> _]%checked_add_Some. split; [|by apply tombstone_readable].
  apply Inv_revision; [by apply retire_Inv|]. simpl. lia.
Qed.

Lemma forget_record_Ok r expected now new :
  Good r → forget_record r expected now = Ok (Some new) →
  Good new ∧ sr_forgotten new = true ∧ sr_recovery_id new = sr_recovery_id r ∧ sr_revision r = expected ∧
  validate_replace r (sr_recovery_id r) (sr_revision r) new = Ok ().
Proof.
  intros [HI _] Hr. unfold forget_record in Hr. destruct (sr_forgotten r) eqn:Hf; [done|].
  rewrite !reject_bind_Ok in Hr. destruct Hr as (Ho & Hrev & Hr). apply is_some_false in Ho.
  autorewrite with guards in Hrev. apply bind_Ok in Hr as (next & Hn%ok_or_Ok & [= <-]).
  split_and!; [by apply retired_Good|done..|by apply validate_replace_retired].
Qed.

Lemma retirement_Ok r expected now reason new :
  Good r → retirement_replacement r expected now reason = Ok (Some new) →
  Good new ∧ sr_forgotten new = true ∧ sr_recovery_id new = sr_recovery_id r.
Proof.
  intros [HI _] Hr. unfold retirement_replacement in Hr. apply bind_Ok in Hr as ([] & _ & Hr).
  rewrite reject_bind_Ok in Hr. destruct Hr as [Hrev Hr]. autorewrite with guards in Hrev.
  destruct (sr_forgotten r) eqn:Hf; [done|]. rewrite !reject_bind_Ok in Hr.
  destruct Hr as (Ho & _ & _ & Hr). autorewrite with guards in Ho. destruct Ho as [Ho _].
  apply bind_Ok in Hr as (next & Hn%ok_or_Ok & [= <-]). subst expected.
  split_and!; [by apply retired_Good|done..].
Qed.

Lemma fresh_record_Good key configuration owner thread now :
  is_ok (parse_versioned_configuration configuration) = true →
  Valid (fresh_record key configuration owner thread now) →
  Good (fresh_record key configuration owner thread now).
Proof.
  intros Hc HV. split; [|done]. split; simpl; intros; by simplify_map_eq.
Qed.

(** *** Opening a store *)

(** Nobody holds the session and no run is unfinished. *)
Definition quiet (r : SessionRecord) : Prop := sr_owner r = None ∧ active r = false.

(** A record that [open] can bring back: good once its retention data is migrated. *)
Record Reopenable (now : N) (r : SessionRecord) : Prop := {
  ro_valid : Valid r;
  ro_inv : Inv (migrate_retention r now).1;
  ro_readable : config_readable r;
}.

Lemma migrate_id r now : sr_schema_version r = 2%N → migrate_retention r now = (r, false).
Proof. intros Hs. unfold migrate_retention. by rewrite Hs. Qed.

Lemma Good_Reopenable now r : Good r → Reopenable now r.
Proof. intros [HI Hc]. split; [apply HI| |done]. by rewrite migrate_id by apply HI. Qed.

Lemma migrate_fields r now :
  let r' := (migrate_retention r now).1 in
  sr_history r' = sr_history r ∧ sr_historical_thread_ids r' = sr_historical_thread_ids r ∧
  sr_runs r' = sr_runs r ∧ sr_owner r' = sr_owner r ∧ sr_thread_id r' = sr_thread_id r ∧
  sr_recovery_id r' = sr_recovery_id r ∧ sr_secret_digest r' = sr_secret_digest r ∧
  sr_revision r' = sr_revision r ∧ sr_epoch r' = sr_epoch r ∧ sr_forgotten r' = sr_forgotten r ∧
  sr_configuration r' = sr_configuration r.
Proof. unfold migrate_retention. by destruct (sr_schema_version r != 1%N). Qed.

(** The configuration part of [reopen]. *)
Definition reopen_configuration (record : SessionRecord) : SessionRecord * bool :=
  if sr_forgotten record then (record, false) else
  match parse_versioned_configuration (sr_configuration record) with
  | Ok (Some (c, true)) => (set_configuration (into_value c) record, true)
  | _ => (record, false)
  end.

Lemma reopen_configuration_ok now r :
  Reopenable now r →
  let r' := (reopen_configuration r).1 in
  Inv (migrate_retention r' now).1 ∧ config_readable r' ∧
  (∃ v, r' = set_configuration v r) ∧ (sr_forgotten r = true → reopen_configuration r = (r, false)) ∧
  ((reopen_configuration r).2 = false → r' = r).
Proof.
  intros [HV HI Hc]. unfold reopen_configuration. destruct (sr_forgotten r) eqn:Hf; simpl.
  { split_and!; try done. exists (sr_configuration r). by destruct r. }
  destruct (parse_versioned_configuration (sr_configuration r)) as [[[c []]|]|] eqn:Hp; simpl.
  2-4: split_and!; try done; exists (sr_configuration r); by destruct r.
  pose proof (parse_versioned_ok _ _ _ Hp) as Hcok. split_and!; try done.
  - replace (migrate_retention (set_configuration (into_value c) r) now).1 with
      (set_configuration (into_value c) (migrate_retention r now).1).
    + by apply Inv_configuration.
    + unfold migrate_retention. simpl. by destruct (sr_schema_version r != 1%N).
  - unfold config_readable. simpl. by rewrite parse_versioned_into_value.
  - by eexists.
Qed.

Lemma reopen_tombstone now r :
  Reopenable now r → sr_forgotten r = true →
  reopen now r =
    if (migrate_retention r now).2
    then next ← ok_or (checked_add (sr_revision r) 1) Conflict;
         Ok (Some (set_revision next (migrate_retention r now).1))
    else Ok None.
Proof.
  intros [HV HI _] Hf. destruct (migrate_fields r now) as (_&_&_&Ho&_&_&_&_&_&Hf'&_).
  destruct (v_tombstone r HV Hf) as (Hown & _). unfold reopen.
  rewrite (proj2 (validate_Ok r)) by done. simpl. rewrite Hf. simpl.
  destruct (migrate_retention r now) as [r' b]. simpl in *. unfold recover.
  rewrite Hf', Hf. simpl. rewrite Ho, Hown, orb_false_r. done.
Qed.

(** The end of [reopen]: the lease is cleared and, if there was one, the
    detachment is dated. *)
Lemma released_ok r now :
  Inv r → active r = false → sr_forgotten r = false →
  let cleared := set_thread_id None (set_owner None r) in
  let r' := if is_some (sr_owner r) then mark_detached cleared now else cleared in
  Inv r' ∧ quiet r' ∧ Evolves r r' ∧ header r' = header r ∧
  sr_configuration r' = sr_configuration r ∧
  opt_ltb (sr_updated_at_ms r') (sr_updated_at_ms r) = false.
Proof.
  intros HI Hact Hf. simpl. destruct (sr_owner r) as [o|] eqn:Ho; simpl.
  - split_and!; [by apply detached_Inv|by split|by apply Evolves_fields|done|done|].
    apply (touch_updated r).
  - assert (sr_thread_id r = None) as Ht.
    { apply is_some_false. by rewrite <-(v_attached r (inv_valid r HI)), Ho. }
    assert (set_thread_id None (set_owner None r) = r) as -> by (destruct r; simpl in *; by subst).
    split_and!; try done. apply opt_ltb_irrefl.
Qed.

Lemma migrate_false r now : (migrate_retention r now).2 = false → (migrate_retention r now).1 = r.
Proof. unfold migrate_retention. by destruct (sr_schema_version r != 1%N). Qed.

(** [reopen] of a live record: closed, released, dated, and accepted by the backend. *)
Lemma reopen_live now r :
  Reopenable now r → sr_forgotten r = false → (sr_revision r < u64_max)%N →
  ∃ o, reopen now r = Ok o ∧
    match o with
    | None => Good r ∧ quiet r
    | Some new => Good new ∧ quiet new ∧ sr_recovery_id new = sr_recovery_id r ∧ Evolves r new ∧
        validate_replace r (sr_recovery_id r) (sr_revision r) new = Ok ()
    end.
Proof.
  intros HR Hf Hmax. pose proof (ro_valid _ _ HR) as HV.
  destruct (reopen_configuration_ok now r HR) as (HI & Hread & (v & Hv) & _ & Hsame).
  unfold reopen. rewrite (proj2 (validate_Ok r)) by done. simpl. rewrite Hf.
  replace (parsed ← parse_versioned_configuration (sr_configuration r);
     match parsed with
     | Some (configuration, migrated) =>
         Ok (if migrated : bool then set_configuration (into_value configuration) r else r, migrated)
     | None => Ok (r, false)
     end) with (Ok (reopen_configuration r) : Result _).
  2:{ unfold reopen_configuration. rewrite Hf. pose proof (ro_readable _ _ HR) as Hok.
      unfold config_readable in Hok.
      by destruct (parse_versioned_configuration (sr_configuration r)) as [[[c []]|]|]. }
  simpl. destruct (reopen_configuration r) as [r1 cm] eqn:Hrc. simpl in *.
  destruct (migrate_fields r1 now) as (M1&M2&M3&M4&M5&M6&M7&M8&M9&M10&M11).
  destruct (migrate_retention r1 now) as [r2 rm] eqn:Hrm. simpl in *.
  destruct (recover_Ok r2 HI) as (r3 & -> & HI3 & Hev & Hact & Hfr). simpl.
  pose proof Hfr as Hfr'. unfold frame in Hfr'.
  injection Hfr' as F1 F2 F3 F4 F5 F6 F7 F8 F9 F10 F11 F12 F13 F14 F15.
  assert (sr_revision r2 = sr_revision r) as Hrev by (rewrite M8, Hv; done).
  assert (sr_forgotten r2 = false) as Hf2 by (rewrite M10, Hv; done).
  rewrite <-F11. assert (sr_forgotten r3 = false) as Hf3 by congruence.
  destruct (released_ok r3 now HI3 Hact Hf3) as (HI4 & Hq & Hev4 & Hh4 & Hc4 & Hu4).
  simpl in *. set (r4 := if is_some (sr_owner r3) then _ else _) in *. clearbody r4.
  unfold header in Hh4. injection Hh4 as G1 G2 G3 G4 G5 G6 G7.
  destruct (cm || rm || (is_some (sr_owner r3) || active r2)) eqn:Hflags.
  - destruct (checked_add (sr_revision r) 1) as [next|] eqn:Hnext;
      [|apply checked_add_None in Hnext; lia]. simpl.
    pose proof Hnext as [-> _]%checked_add_Some.
    exists (Some (set_revision (sr_revision r + 1) r4)). split; [done|].
    assert (Evolves r (set_revision (sr_revision r + 1) r4)) as Hevr.
    { etrans; [|etrans; [exact Hev|etrans; [exact Hev4|by apply Evolves_fields]]].
      apply Evolves_fields; rewrite ?M1, ?M2, ?M3, Hv; done. }
    assert (Inv (set_revision (sr_revision r + 1) r4)) as HInew.
    { apply Inv_revision; [done|]. lia. }
    split_and!; try done.
    + split; [done|]. unfold config_readable in *. change (is_ok (parse_versioned_configuration (sr_configuration r4)) = true).
      by rewrite Hc4, F15, M11.
    + simpl. rewrite G3, F7, M6, Hv. done.
    + apply validate_replace_evolves; try done; simpl.
      * apply HInew.
      * apply lease_release; simpl; [apply Hq|]. rewrite G6, F10, M9, Hv. done.
      * rewrite G3, F7, M6, Hv. done.
      * rewrite G4, F8, M7, Hv. done.
      * intros H2. assert (r2 = r1) as ->.
        { rewrite migrate_id in Hrm by by rewrite Hv. by injection Hrm. }
        split_and!; [by rewrite G1; apply HI3| |].
        -- rewrite G2, F2, Hv. done.
        -- replace (sr_updated_at_ms r) with (sr_updated_at_ms r3); [done|]. rewrite F3, Hv. done.
  - exists None. split; [done|]. rewrite !orb_false_iff in Hflags.
    destruct Hflags as [[-> ->] [Ho3 Hact2]]. rewrite (Hsame eq_refl) in *.
    assert (r2 = r) as ->.
    { pose proof (migrate_false r now) as Hm. rewrite Hrm in Hm. by apply Hm. }
    split; [by split|]. split; [|done]. apply is_some_false in Ho3. congruence.
Qed.

Lemma legacy_tombstone_accepted now r next :
  Reopenable now r → sr_forgotten r = true → sr_schema_version r = 1%N →
  checked_add (sr_revision r) 1 = Some next →
  let new := set_revision next (migrate_retention r now).1 in
  Good new ∧ quiet new ∧ sr_recovery_id new = sr_recovery_id r ∧
  validate_replace r (sr_recovery_id r) (sr_revision r) new = Ok ().
Proof.
  intros HR Hf Hs Hnext new. destruct (migrate_fields r now) as (M1&M2&M3&M4&M5&M6&M7&M8&M9&M10&M11).
  pose proof (ro_valid _ _ HR) as HV. pose proof Hnext as [-> Hmax]%checked_add_Some.
  destruct (v_tombstone r HV Hf) as (Ho & Hh & Hruns & Hu).
  assert (Inv new) as HInew by (apply Inv_revision; [apply HR|rewrite M8; lia]).
  assert (sr_created_at_ms new = Some now) as Hc by (unfold new, migrate_retention; by rewrite Hs).
  split_and!.
  - split; [done|]. unfold config_readable. simpl. rewrite M11. apply HR.
  - split; [by simpl; rewrite M4|]. apply active_false. simpl. rewrite M3, Hruns.
    intros ???. by simplify_map_eq.
  - done.
  - unfold validate_replace. rewrite (proj2 (validate_Ok new)) by apply HInew. simpl.
    rewrite reject_bind_Ok, Hnext. split; [by autorewrite with guards|]. simpl.
    rewrite !reject_bind_Ok, Hf. simpl. split_and!.
    + autorewrite with guards. rewrite M9. split_and!; try done; try lia.
      unfold is_legacy_tombstone_migration. rewrite Hs, Hc.
      rewrite (inv_schema new HInew). simpl. by autorewrite with guards.
    + by rewrite Hs.
    + simpl. by rewrite M10, Hf.
Qed.

Lemma reopen_ok now r :
  Reopenable now r → (sr_revision r < u64_max)%N →
  ∃ o, reopen now r = Ok o ∧
    match o with
    | None => Good r ∧ quiet r
    | Some new => Good new ∧ quiet new ∧ sr_recovery_id new = sr_recovery_id r ∧
        validate_replace r (sr_recovery_id r) (sr_revision r) new = Ok ()
    end.
Proof.
  intros HR Hmax. destruct (sr_forgotten r) eqn:Hf.
  - rewrite reopen_tombstone by done. destruct (migrate_retention r now) as [r' b] eqn:Hm. simpl.
    pose proof (ro_valid _ _ HR) as HV. destruct b.
    + assert (sr_schema_version r = 1%N) as Hs.
      { unfold migrate_retention in Hm. by destruct (bool_decide_reflect (sr_schema_version r = 1%N)). }
      destruct (checked_add (sr_revision r) 1) as [next|] eqn:Hnext;
        [|apply checked_add_None in Hnext; lia]. simpl. eexists. split; [done|].
      pose proof (legacy_tombstone_accepted now r next HR Hf Hs Hnext) as Hacc.
      by rewrite Hm in Hacc.
    + exists None. split; [done|]. pose proof (migrate_false r now) as Hid.
      pose proof (ro_inv _ _ HR) as HI. rewrite Hm in Hid, HI. simpl in *. rewrite Hid in HI by done.
      destruct (v_tombstone r HV Hf) as (Ho & _ & Hruns & _).
      split; [split; [done|apply HR]|]. split; [done|]. unfold active. by rewrite Hruns.
  - destruct (reopen_live now r HR Hf Hmax) as (o & -> & Ho). exists o. split; [done|].
    destruct o as [new|]; [|done]. naive_solver.
Qed.

(** *** The steps of the runtime *)

Section steps.
Context {S : Type} `{!SessionStore S, !SessionStoreSpec S}.

(** Any operation of the runtime, of a journal, or of the retention sweep. *)
Inductive runtime_step (s : S) : S → Prop :=
  | rt_open now : runtime_step s (open now s).2
  | rt_create key configuration owner thread now :
      runtime_step s (create_session key configuration owner thread now s).2
  | rt_inspect key : runtime_step s (inspect key s).2
  | rt_attach key expected configuration owner thread now :
      runtime_step s (attach key expected configuration owner thread now s).2
  | rt_forget key expected now : runtime_step s (forget key expected now s).2
  | rt_command w action now1 now2 fr fe :
      (∀ r, contents s !! worker_id w = Some r → fresh_action r action fr fe) →
      runtime_step s (journal_step w action now1 now2 fr fe s).2
  | rt_retire id expected now reason : runtime_step s (retire_detached id expected now reason s).2
  | rt_page after limit : runtime_step s (metadata_page after limit s).2.

Lemma cas_good id n new s :
  store_good (contents s) →
  (∀ old, contents s !! id = Some old → validate_replace old id n new = Ok () →
     Good new ∧ sr_recovery_id new = id) →
  store_good (contents (compare_exchange id n new s).2).
Proof.
  intros Hg Hnew. pose proof (cas_spec id n new s) as Hc. unfold cas_outcome in Hc.
  destruct (contents s !! id) as [old|] eqn:Hold; [|by destruct Hc as [_ ->]].
  destruct (validate_replace old id n new) as [[]|] eqn:Hv; [|by destruct Hc as [_ ->]].
  destruct (Hnew old eq_refl Hv). destruct Hc as [[_ ->]|[_ [->| ->]]];
    by try apply store_good_insert.
Qed.

Lemma authenticated_loads key s record s' :
  authenticated key s = (Ok record, s') →
  contents s' = contents s ∧ contents s !! key_recovery_id key = Some record ∧
  check_key record key = Ok () ∧ Valid record.
Proof.
  unfold authenticated. intros Ha. apply eff_bind_Ok in Ha as ([] & s1 & Hk & Ha).
  injection Hk as _ <-. apply eff_bind_Ok in Ha as (found & s2 & Hl & Ha).
  apply eff_bind_Ok in Ha as (r & s3 & Hr & Ha). injection Hr as Hr <-. apply ok_or_Ok in Hr as ->.
  apply eff_bind_Ok in Ha as ([] & s4 & Hc & Ha). injection Hc as Hc <-.
  apply eff_bind_Ok in Ha as ([] & s5 & Hv & Ha). injection Hv as Hv%validate_Ok <-.
  injection Ha as <- <-.
  pose proof (load_contents (key_recovery_id key) s) as Hs.
  pose proof (load_answer (key_recovery_id key) s (Some r)) as Hans. rewrite Hl in Hs, Hans.
  split_and!; try done. symmetry. by apply Hans.
Qed.

Lemma authenticated_contents key s : contents (authenticated key s).2 = contents s.
Proof.
  unfold authenticated, mbind, eff_bind, lift. simpl.
  destruct (map_err Invalid (RecoveryKey_validate key)); simpl; [|done].
  pose proof (load_contents (key_recovery_id key) s) as Hs. destruct (load _ s) as [[[r|]|] s1]; simpl in *;
    [|done..]. destruct (check_key r key); simpl; [|done]. by destruct (validate r).
Qed.

Lemma open_loop_good now l s :
  store_good (contents s) → (∀ r, r ∈ l → Good r) → store_good (contents (open_loop now l s).2).
Proof.
  revert s. induction l as [|r l IH]; intros s Hg Hl; simpl; [done|].
  unfold mbind, eff_bind, lift. simpl. destruct (reopen now r) as [[new|]|] eqn:Hr; simpl; [| |done].
  2:{ apply IH; [done|set_solver]. }
  assert (Good r) as HGr by (apply Hl; set_solver).
  assert (store_good (contents (compare_exchange (sr_recovery_id r) (sr_revision r) new s).2)) as Hg'.
  { apply cas_good; [done|]. intros old Hold Hv. destruct (decide (sr_revision r < u64_max)%N) as [Hmax|Hmax].
    - destruct (reopen_ok now r (Good_Reopenable now r HGr) Hmax) as (o & Hr' & Ho).
      rewrite Hr in Hr'. injection Hr' as <-. naive_solver.
    - unfold validate_replace in Hv. apply bind_Ok in Hv as (? & _ & Hv).
      rewrite reject_bind_Ok in Hv. destruct Hv as [_ Hv].
      apply bind_Ok in Hv as (next & [_ Hle]%ok_or_Ok%checked_add_Some & _). lia. }
  destruct (compare_exchange (sr_recovery_id r) (sr_revision r) new s) as [[[]|] s1]; simpl in *; [|done].
  apply IH; [done|set_solver].
Qed.

Lemma create_good record s :
  store_good (contents s) → (Valid record → Good record) → store_good (contents (create record s).2).
Proof.
  intros Hg Hnew. pose proof (create_spec record s) as Hc. unfold create_outcome in Hc.
  destruct (validate_create record) as [[]|] eqn:Hv; [|by destruct Hc as [_ ->]].
  apply validate_create_Ok in Hv as [HV _].
  destruct (contents s !! _) eqn:Hn; [by destruct Hc as [_ ->]|].
  destruct Hc as [[_ ->]|[_ [->| ->]]]; try done; apply store_good_insert; auto.
Qed.

(** Every step of the runtime keeps the store good. *)
Lemma runtime_step_good s s' :
  store_good (contents s) → runtime_step s s' → store_good (contents s').
Proof.
  intros Hg Hstep. destruct Hstep as [now|key cfg owner thread now|key|key expected cfg owner thread now
    |key expected now|w action now1 now2 fr fe Hfresh|id expected now reason|after limit].
  - unfold open, mbind, eff_bind. destruct (list_records s) as [[l|] s1] eqn:Hl; simpl.
    + pose proof (list_contents s) as Hs. pose proof (list_answer s l) as Hans. rewrite Hl in Hs, Hans.
      simpl in *. apply open_loop_good; [by rewrite Hs|]. intros r Hr. rewrite (Hans eq_refl) in Hr.
      apply list_elem_of_fmap in Hr as ([id r'] & -> & Hr%elem_of_map_to_list). apply (Hg id r' Hr).
    + pose proof (list_contents s) as Hs. rewrite Hl in Hs. simpl in Hs. by rewrite Hs.
  - unfold create_session, mbind, eff_bind, lift. simpl.
    destruct (map_err _ _); simpl; [|done]. destruct (identity _ _ _) as [[]|] eqn:Hi; simpl; [|done].
    destruct (normalize_new_configuration cfg) as [cfg'|] eqn:Hn; simpl; [|done].
    unfold identity in Hi. rewrite reject_if_Ok in Hi. autorewrite with guards in Hi.
    destruct Hi as [_ Hobj]. apply normalize_new_Ok in Hn as [_ Hread]; [|done].
    assert (store_good (contents (create (fresh_record key cfg' owner thread now) s).2)) as Hgood.
    { apply create_good; [done|]. by apply fresh_record_Good. }
    by destruct (create _ s) as [[[]|] s1].
  - unfold inspect, mbind, eff_bind. pose proof (authenticated_contents key s) as Hs.
    destruct (authenticated key s) as [[r|] s1]; simpl in *; [|by rewrite Hs].
    destruct (sr_forgotten r); simpl; by rewrite Hs.
  - unfold attach, mbind, eff_bind, lift. simpl.
    destruct (identity _ _ _) as [[]|] eqn:Hi; simpl; [|done].
    destruct (authenticated key s) as [[r|] s1] eqn:Ha; simpl.
    2:{ pose proof (authenticated_contents key s) as Hs. rewrite Ha in Hs. simpl in Hs. by rewrite Hs. }
    apply authenticated_loads in Ha as (Hs & Hr & _ & _).
    destruct (attach_record _ _ _ _ _ _) as [new|] eqn:Hat; simpl; [|by rewrite Hs].
    assert (store_good (contents (compare_exchange (key_recovery_id key) expected new s1).2)) as Hgood.
    { apply cas_good; [by rewrite Hs|]. intros old _ _. destruct (Hg _ _ Hr) as [Hid HGr].
      destruct (attach_record_Ok _ _ _ _ _ _ _ HGr Hi Hat) as (? & _ & Hid' & _). split; congruence. }
    by destruct (compare_exchange _ _ _ s1) as [[[]|] s2].
  - unfold forget, mbind, eff_bind, lift. simpl.
    destruct (authenticated key s) as [[r|] s1] eqn:Ha; simpl.
    2:{ pose proof (authenticated_contents key s) as Hs. rewrite Ha in Hs. simpl in Hs. by rewrite Hs. }
    apply authenticated_loads in Ha as (Hs & Hr & _ & _).
    destruct (forget_record _ _ _) as [[new|]|] eqn:Hf; simpl; [|by rewrite Hs..].
    assert (store_good (contents (compare_exchange (key_recovery_id key) expected new s1).2)) as Hgood.
    { apply cas_good; [by rewrite Hs|]. intros old _ _. destruct (Hg _ _ Hr) as [Hid HGr].
      destruct (forget_record_Ok _ _ _ _ HGr Hf) as (? & _ & Hid' & _). split; congruence. }
    by destruct (compare_exchange _ _ _ s1) as [[[]|] s2].
  - unfold journal_step. destruct (worker_poison w); [done|].
    pose proof (load_contents (worker_id w) s) as Hs. pose proof (load_answer (worker_id w) s) as Hans.
    destruct (load (worker_id w) s) as [[[r|]|] s1]; simpl in *; [|by rewrite Hs..].
    specialize (Hans _ eq_refl). symmetry in Hans.
    destruct (lease_mismatch w r) eqn:Hlease; simpl; [by rewrite Hs|].
    assert (sr_forgotten r = false) as Hf.
    { unfold lease_mismatch in Hlease. by apply orb_false_iff in Hlease as [_ ?]. }
    destruct (Hg _ _ Hans) as [Hid HGr].
    destruct action; simpl; [by rewrite Hs|..];
      match goal with |- context [next_record r ?a now1 now2 fr fe] =>
        destruct (next_record r a now1 now2 fr fe) as [[new response]|] eqn:Hn; [|simpl; by rewrite Hs] end;
      (assert (store_good (contents (compare_exchange (worker_id w) (sr_revision r) new s1).2)) as Hgood;
        [apply cas_good; [by rewrite Hs|]; intros old _ _;
         apply next_record_Ok in Hn as (? & _ & Hid' & _); [split; congruence|done..|by apply Hfresh]
        |by destruct (compare_exchange _ _ _ s1) as [[[]|] s2]]).
  - destruct (retire_spec id expected now reason s) as [[-> _]|(old & new & Hold & Hr & _ & -> & _)]; [done|].
    destruct (Hg _ _ Hold) as [Hid HG]. apply retirement_Ok in Hr as (? & _ & ?); [|done].
    apply store_good_insert; [done|congruence|done].
  - by rewrite page_contents.
Qed.
End steps.
End with_externals.
