(* ===== verification/Samples.v ===== *)
(** * Sample data

    Concrete values at which the theorems of the development are applied: one
    choice of the external functions, a session, and the record of that session
    after each step of a short run. *)

From S2P Require Import Prelude Protocol StoreState StoreValid StoreInvariant StoreBackend StoreConfig StoreRuntime.

(** ** External functions *)

Definition zeros : string := of_bytes (replicate 64 48).
Definition ones : string := of_bytes (replicate 64 49).

#[export] Instance sample_externals : Externals := {
  uuid_parse_ok := λ s, String.length s =? 36;
  sha256_hex := λ s, if (String.length s =? 64) && all_hex s then s else zeros;
  item_json_len := λ _, 100%N;
  value_json_len := λ _, 20%N;
  decode_session_limits := λ v,
    if is_object v then
      Ok {| max_accepted_turns := get "max_accepted_turns" v ≫= as_u64;
            max_history_bytes := get "max_history_bytes" v ≫= as_u64;
            max_model_request_bytes := get "max_model_request_bytes" v ≫= as_u64 |}
    else Err "expected an object";
  decode_run_defaults := λ v,
    if is_object v then Ok {| def_max_steps := 10; def_timeout_ms := get "timeout_ms" v ≫= as_u64 |}
    else Err "expected an object";
}.

#[export] Instance sample_record_externals : RecordExternals := {
  record_json_len := λ r, (100 + 50 * N.of_nat (length (sr_history r)))%N;
  record_to_value := λ r, Some (Object {["history" := Array (Str ∘ item_id <$> sr_history r)]});
}.

(** ** A session *)

Definition session_id : string := "00000000-0000-4000-8000-000000000001".
Definition sample_key : RecoveryKey := {| key_recovery_id := session_id; key_secret := ones |}.
Definition sample_configuration : Value :=
  Object {["version" := u64_value 3; "session" := Object {["agent" := Str "demo"]};
           "run_defaults" := Object ∅; "metadata" := Object ∅;
           "runtime_features" := Object {["interactions_enabled" := Bool false]}]}.

(** The record of a session just created and attached. *)
Definition sample_session : SessionRecord :=
  fresh_record sample_key sample_configuration "owner" "thread" 1000.

Definition sample_params : StartTurnParams :=
  {| turn_thread_id := "thread"; turn_turn_id := "turn";
     turn_input_items := [user_text "user-item" "hello"]; turn_options := None;
     turn_max_steps := 8; turn_timeout_ms := None |}.
Definition sample_snapshot : RunSnapshot :=
  {| snap_tool_executions := []; snap_thread_id := "thread"; snap_turn_id := "turn";
     snap_status := RunRunning; snap_items := []; snap_usage := usage_default;
     snap_pending_approvals := []; snap_last_seq := 0; snap_result := None; snap_error := None |}.

Definition sample_call_item : CanonicalItem :=
  ToolCall "call-item" "call" None "shell" (Some (Object ∅)) "{}".
Definition sample_usage : UsageMetrics :=
  {| input_tokens := 11; output_tokens := 7; reasoning_tokens := 0;
     cache_creation_input_tokens := 0; cache_read_input_tokens := 3 |}.
Definition sample_execution : ToolExecutionRecord :=
  {| exec_call_id := "call"; exec_original_arguments := Object ∅; exec_arguments := Object ∅ |}.

Definition value_of {A B} (m : result StoreError (A * B)) (default : A) : A :=
  match m with Ok (a, _) => a | Err _ => default end.

(** A turn accepted; its model step requested; a tool call received; the step
    finished; the call dispatched. *)
Definition sample_begun : SessionRecord :=
  value_of (begin sample_session sample_params sample_snapshot Null) sample_session.
Definition sample_requested : SessionRecord :=
  value_of (mutate sample_begun "turn" (ModelInput "step" 0 (Object ∅)) "" "") sample_begun.
Definition sample_called : SessionRecord :=
  value_of (mutate sample_requested "turn" (ModelItem "step" sample_call_item) "result" "execution")
    sample_requested.
Definition sample_finished_step : SessionRecord :=
  value_of (mutate sample_called "turn" (ModelStepFinished "step" sample_usage) "" "") sample_called.
Definition sample_dispatched : SessionRecord :=
  value_of (mutate sample_finished_step "turn" (DispatchIntent "call" sample_execution) "" "")
    sample_finished_step.

Definition sample_candidate : RunSnapshot := set_status RunCompleted sample_snapshot.
Definition sample_closed : SessionRecord :=
  value_of (finalize sample_dispatched "turn" sample_candidate) sample_dispatched.

(** The run of a record, and the record of a detached and of a forgotten session. *)
Definition sample_run (r : SessionRecord) : StoredRun :=
  match sr_runs r !! "turn" with
  | Some run => run
  | None => {| run_params := sample_params; run_snapshot := sample_snapshot;
               run_effective_options := Null; run_history_start := 0; run_model_inputs := [];
               run_calls := [] |}
  end.

Definition sample_worker : SessionJournal := spawn sample_session.
Definition sample_detached : SessionRecord :=
  match next_record sample_session ActionDetach 2000 2000 "" "" with Ok (r, _) => r | Err _ => sample_session end.
Definition sample_forgotten : SessionRecord :=
  set_revision 3 (retire sample_detached 3000 "explicit_forget").

(** A configuration as version 1 stored it. *)
Definition legacy_configuration : Value :=
  Object {["version" := u64_value 1; "agent" := Str "demo";
           "metadata" := Object {["title" := Str "old"]}]}.
Definition migrated_configuration : PersistedSessionConfigurationV2 :=
  match parse_and_migrate legacy_configuration with
  | Ok (c, _) => c
  | Err _ => {| cfg_session := ∅; cfg_run_defaults := Null; cfg_metadata := ∅;
                cfg_interactions_enabled := true |}
  end.

(** ** They are good *)

Lemma Inv_no_runs r : validate r = Ok () → sr_schema_version r = 2%N → sr_runs r = ∅ → Inv r.
Proof.
  intros HV%validate_Ok Hs Hr. split; try done; rewrite Hr; intros; by simplify_map_eq.
Qed.

Lemma sample_session_Inv : Inv sample_session.
Proof. apply Inv_no_runs; reflexivity. Qed.

Lemma value_of_Ok {A B} (m : result StoreError (A * B)) (d : A) (b : B) :
  is_ok m = true → ∃ b, m = Ok (value_of m d, b).
Proof. destruct m as [[a b']|e]; simpl; [eauto|done]. Qed.

Lemma sample_begun_Inv : Inv sample_begun.
Proof.
  destruct (value_of_Ok (begin sample_session sample_params sample_snapshot Null) sample_session false)
    as [b Hb]; [reflexivity|]. by eapply begin_Inv; [apply sample_session_Inv|].
Qed.

Lemma mutated_Inv r op fr fe :
  Inv r → is_ok (mutate r "turn" op fr fe) = true → fresh_for r op fr fe →
  Inv (value_of (mutate r "turn" op fr fe) r).
Proof.
  intros HI Hok Hf. destruct (value_of_Ok (mutate r "turn" op fr fe) r None Hok) as [b Hb].
  by eapply mutate_Inv.
Qed.

Lemma sample_requested_Inv : Inv sample_requested.
Proof. apply mutated_Inv; [apply sample_begun_Inv|reflexivity|done]. Qed.

(** The only run of the sample. *)
Lemma sample_only_run r (P : string → StoredRun → Prop) :
  (∀ id run, (id, run) ∈ map_to_list (sr_runs r) → P id run) → map_Forall P (sr_runs r).
Proof. intros Hl id run Hrun. by apply Hl, elem_of_map_to_list. Qed.

Lemma sample_called_fresh :
  fresh_for sample_requested (ModelItem "step" sample_call_item) "result" "execution".
Proof.
  assert (map_Forall (λ _ run, run_calls run = []) (sr_runs sample_requested)) as Hnone.
  { apply sample_only_run. intros id run Hin. vm_compute in Hin.
    apply list_elem_of_singleton in Hin. by injection Hin as _ ->. }
  split_and!.
  - intros id run Hrun. unfold result_ids. rewrite (Hnone id run Hrun). set_solver.
  - intros i Hi. vm_compute in Hi. apply list_elem_of_singleton in Hi. by subst.
  - done.
  - intros id run Hrun. unfold result_ids, execution_ids. rewrite (Hnone id run Hrun). set_solver.
Qed.

Lemma sample_called_Inv : Inv sample_called.
Proof. apply mutated_Inv; [apply sample_requested_Inv|reflexivity|apply sample_called_fresh]. Qed.
Lemma sample_finished_step_Inv : Inv sample_finished_step.
Proof. apply mutated_Inv; [apply sample_called_Inv|reflexivity|done]. Qed.
Lemma sample_dispatched_Inv : Inv sample_dispatched.
Proof. apply mutated_Inv; [apply sample_finished_step_Inv|reflexivity|done]. Qed.

Example sample_closed_history :
  item_id <$> sr_history sample_closed = ["user-item"; "call-item"; "result"].
Proof. vm_compute. reflexivity. Qed.
Example sample_closed_unknown : unacknowledged sample_closed = ["execution"].
Proof. vm_compute. reflexivity. Qed.

(** A store that holds the sample. *)
Definition sample_store (r : SessionRecord) : MemoryStore := {[session_id := r]}.

Lemma sample_store_good r : Inv r → sr_recovery_id r = session_id → config_readable r →
  store_good (sample_store r).
Proof.
  unfold sample_store. intros HI Hid Hc id r' Hl. apply lookup_singleton_Some in Hl as [<- <-].
  by split.
Qed.

Lemma sample_store_ok r : Inv r → sr_recovery_id r = session_id → store_ok (sample_store r).
Proof.
  unfold sample_store. intros HI Hid id r' Hl. apply lookup_singleton_Some in Hl as [<- <-].
  split; [done|apply HI].
Qed.

Lemma sample_session_Good : Good sample_session.
Proof. split; [apply sample_session_Inv|reflexivity]. Qed.

Lemma sample_detached_Good : Good sample_detached.
Proof.
  apply (next_record_Ok sample_session ActionDetach 2000 2000 "" "" sample_detached ResponseUnit);
    [apply sample_session_Good|reflexivity|done|reflexivity].
Qed.

Lemma sample_detach_step :
  backend_step (sample_store sample_session) (sample_store sample_detached).
Proof.
  unfold sample_store. rewrite <-(insert_singleton_eq session_id sample_detached sample_session).
  eapply step_replace; [apply lookup_singleton_eq|].
  by apply (next_record_Ok sample_session ActionDetach 2000 2000 "" "" sample_detached ResponseUnit
    sample_session_Good).
Qed.
