(* ===== verification/StoreGuarantees.v ===== *)
(** * What the store guarantees

    The theorems about the durable session record, the storage contract, the
    runtime and the journal, each with its application to the sample session. *)

From S2P Require Import Prelude Protocol StoreState StoreValid StoreInvariant StoreBackend StoreConfig StoreRuntime Samples.

(** ** The record *)

Section record.
Context `{Externals}.

(** [SessionRecord::validate] accepts a record exactly when it is [Valid]:
    the hash-set loops find a repetition exactly when an identity is repeated
    anywhere in the record, in one run or across runs. *)
Theorem validate_decides_valid r : validate r = Ok () ↔ Valid r.
Proof. apply validate_Ok. Qed.

(** An accepted mutation keeps the record invariant; it only evolves the
    record: the history is extended, every run keeps its parameters, calls keep
    identity, intent, outcome and commitment, terminal snapshots stay. *)
Theorem mutate_preserves_invariant r turn op fr fe r' item :
  Inv r → fresh_for r op fr fe → mutate r turn op fr fe = Ok (r', item) →
  Inv r' ∧ Evolves r r'.
Proof. apply mutate_Inv. Qed.

(** The result item of a call is in the history. *)
Definition answered (r : SessionRecord) (c : StoredCall) : Prop :=
  ∃ item, item ∈ sr_history r ∧ answers_call c item = true.

(** C4: A candidate that names the run and is terminal always closes an
    unfinished run of a good record: the run becomes terminal, every one of its
    calls is answered in the history, the calls that were dispatched without an
    outcome are exactly the new unknown executions, the reported usage is the sum
    of the recorded step usages, and closing again changes nothing. *)
Theorem finalize_closes_run r turn run candidate :
  Inv r → sr_runs r !! turn = Some run → terminal run = false → closes turn run candidate →
  ∃ r' closed, finalize r turn candidate = Ok (r', closed) ∧ Inv r' ∧ Evolves r r' ∧
    (∃ run', sr_runs r' !! turn = Some run' ∧ terminal run' = true ∧
       run_snapshot run' = fin_snapshot closed ∧
       (∀ c, c ∈ run_calls run' → answered r' c)) ∧
    sr_unknown_executions r' = sr_unknown_executions r ++
      (unknown_of turn <$> List.filter lost (run_calls run)) ∧
    checked_usage (step_usages (run_model_inputs run)) = Ok (snap_usage (fin_snapshot closed)) ∧
    (snap_status (fin_snapshot closed) = RunCompleted ↔
       snap_status candidate = RunCompleted ∧ ∀ c, c ∈ run_calls run → is_Some (sc_outcome c)) ∧
    ∀ again, finalize r' turn again = Ok (r', closed).
Proof.
  intros HI Hrun Ht Hc. destruct (finalize_live r turn run candidate HI Hrun Ht) as (total & Hu & Hyes & _).
  rewrite Hyes by done. destruct (closed_Inv r turn run candidate total HI Hrun Ht Hc) as [HI' Hev].
  pose proof (closed_terminal r turn run candidate total Hc) as Hterm.
  eexists _, _. split; [done|]. split_and!; try done.
  - eexists. split; [apply lookup_insert_eq|]. split_and!; [done..|].
    intros c (c' & -> & Hc')%list_elem_of_fmap.
    assert (CallOk (sr_history r ++ added_items run) (step_id <$> run_model_inputs run) (settled c'))
      as [_ _ _ _ Hout Hcom] by
      (eapply CallOk_settled; eauto using inv_run, inv_live, v_history, inv_valid;
       by apply (v_result_ids r (inv_valid r HI)) in Hrun).
    destruct (Hcom eq_refl) as (o & Ho & Hin). exists o. split; [done|]. by apply Hout.
  - simpl. destruct (unfinished run) eqn:Hun; simpl.
    + apply existsb_true in Hun as (c & Hin & Hno%is_none_true).
      destruct (bool_decide_reflect (snap_status candidate = RunCompleted)); simpl;
        (split; [done|]); intros [? Hall]; [|done]. specialize (Hall c Hin). rewrite Hno in Hall.
      by destruct Hall.
    + unfold unfinished in Hun. rewrite existsb_false in Hun. split; [|by intros [? _]].
      intros Hs. split; [done|]. intros c Hin. by apply is_none_false, Hun.
  - intros again. unfold finalize. unfold closed_record, with_run in *. simpl in *.
    rewrite lookup_insert_eq. simpl in *. by rewrite Hterm.
Qed.

(** Recovery of a good record never fails and leaves no unfinished run and
    no lease; what was recorded is kept. *)
Theorem recover_releases r :
  Inv r → ∃ r' changed, recover r = Ok (r', changed) ∧ active r' = false ∧
    sr_owner r' = None ∧ sr_thread_id r' = None ∧ Evolves r r' ∧
    changed = (is_some (sr_owner r) || active r).
Proof.
  intros HI. destruct (recover_Ok r HI) as (r1 & -> & _ & Hev & Hact & _).
  eexists _, _. split; [done|]. split_and!; try done. etrans; [exact Hev|]. by apply Evolves_fields.
Qed.

(** Accepting a turn is idempotent per turn identity: the same parameters and
    options are a no-op whatever happened since, others are a conflict, and a new
    turn is admitted only when no run is unfinished and no unknown execution
    waits for an acknowledgment; then it is the only unfinished run. *)
Theorem begin_admission r params snap options :
  Inv r →
  match sr_runs r !! turn_turn_id params with
  | Some old =>
      begin r params snap options =
        if decide (run_params old = params ∧ run_effective_options old = options)
        then Ok (r, false) else Err Conflict
  | None =>
      ∀ r' b, begin r params snap options = Ok (r', b) →
        b = true ∧ active r = false ∧ unresolved r = false ∧ Inv r' ∧ Evolves r r' ∧
        sr_history r' = sr_history r ++ turn_input_items params ∧
        (∀ id run, sr_runs r' !! id = Some run → terminal run = false → id = turn_turn_id params)
  end.
Proof.
  intros HI. destruct (sr_runs r !! turn_turn_id params) as [old|] eqn:Hold.
  - unfold begin. rewrite Hold.
    destruct (bool_decide_reflect (run_params old = params)),
      (bool_decide_reflect (run_effective_options old = options)); simpl; case_decide; tauto.
  - intros r' b Hb. destruct (begin_Inv _ _ _ _ _ _ HI Hb) as [HI' Hev].
    unfold begin in Hb. rewrite Hold in Hb. rewrite !reject_bind_Ok in Hb.
    destruct Hb as (Hact & Hun & _ & Hb). apply bind_Ok in Hb as ([] & _ & Hb).
    rewrite reject_bind_Ok in Hb. destruct Hb as [_ [= <- <-]]. split_and!; try done.
    intros id run Hrun Ht. simpl in Hrun. apply lookup_insert_Some in Hrun as [[<- _]|[_ Hrun]]; [done|].
    rewrite active_false in Hact. by rewrite (Hact id run Hrun) in Ht.
Qed.

Lemma mutate_dispatch_inv r turn call_id execution fr fe r1 item :
  mutate r turn (DispatchIntent call_id execution) fr fe = Ok (r1, item) →
  ∃ run call run1, sr_runs r !! turn = Some run ∧
    find_first (λ c, sc_call_id c == call_id) (run_calls run) = Some call ∧
    sc_intent call = None ∧ sr_runs r1 !! turn = Some run1 ∧
    run_calls run1 = update_first (λ c, sc_call_id c == call_id) (set_intent (Some execution)) (run_calls run).
Proof.
  unfold mutate. intros Hm. inv_result.
  match goal with H : op_dispatch _ _ _ = Ok _ |- _ => unfold op_dispatch in H; inv_result end.
  match goal with H : _ || _ = false |- _ => autorewrite with guards in H; rename H into Hg end.
  do 3 eexists. rewrite lookup_insert_eq. split_and!; try done. apply Hg.
Qed.

(** A recorded intent survives every evolution of the record. *)
Lemma intent_survives r1 r2 turn run c i :
  Inv r2 → Evolves r1 r2 → sr_runs r1 !! turn = Some run → c ∈ run_calls run → sc_intent c = Some i →
  ∃ run2 c2, sr_runs r2 !! turn = Some run2 ∧
    find_first (λ c', sc_call_id c' == sc_call_id c) (run_calls run2) = Some c2 ∧ sc_intent c2 = Some i.
Proof.
  intros HI2 [_ _ Hev] Hrun Hc Hi.
  destruct (Hev turn run Hrun) as (run2 & Hrun2 & [_ _ _ _ (kept & added & Hcalls & HF)]).
  apply list_elem_of_lookup in Hc as [j Hj].
  destruct (Forall2_lookup_l _ _ _ _ _ HF Hj) as (c2 & Hj2 & [Hid2 _ _ _ _ Hint2 _ _]).
  exists run2, c2. split_and!; [done| |auto]. rewrite <-Hid2. apply find_unique.
  - rewrite Hcalls. apply elem_of_app. left. by eapply list_elem_of_lookup_2.
  - apply (v_call_ids r2 (inv_valid r2 HI2) ) in Hrun2 as ?. done.
Qed.

(** A dispatch is recorded at most once: after an accepted dispatch of a call,
    a further one is refused in every record that evolves from the result. *)
Theorem dispatch_at_most_once r turn call_id execution fr fe r1 item r2 again fr' fe' :
  mutate r turn (DispatchIntent call_id execution) fr fe = Ok (r1, item) →
  Evolves r1 r2 → Inv r2 →
  is_err (mutate r2 turn (DispatchIntent call_id again) fr' fe') = true.
Proof.
  intros Hm Hev HI2. destruct (mutate r2 turn _ fr' fe') as [[r3 x]|] eqn:Hm2; [exfalso|done].
  apply mutate_dispatch_inv in Hm as (run & call & run1 & _ & Hfind & _ & Hrun1 & Hcalls).
  apply mutate_dispatch_inv in Hm2 as (run2 & call2 & _ & Hrun2 & Hfind2 & Hnone & _).
  apply find_first_Some in Hfind as (l1 & l2 & Heq & Hp & Hl1).
  rewrite Heq, update_first_split in Hcalls by done. apply bool_decide_eq_true in Hp.
  destruct (intent_survives r1 r2 turn run1 (set_intent (Some execution) call) execution)
    as (run2' & c2 & Hrun2' & Hfind2' & Hint); try done.
  { rewrite Hcalls. apply elem_of_app. right. by left. }
  simpl in Hfind2'. rewrite Hp in Hfind2'. simplify_eq.
Qed.
End record.

(** ** The runtime *)

Section runtime.
Context `{Externals, RecordExternals}.

(** C1: Whatever sequence of operations the runtime, its journals and its sweeps
    perform on a store, on whatever backend and whether or not I/O fails with the
    outcome unknown, every stored record stays good. *)
Theorem runtime_keeps_store_good {S : Type} `{!SessionStore S, !SessionStoreSpec S} (s s' : S) :
  store_good (contents s) → rtc runtime_step s s' → store_good (contents s').
Proof.
  intros Hg Hs. induction Hs as [s|s1 s2 s3 Hstep _ IH]; [done|]. by eapply IH, runtime_step_good.
Qed.

(** The worker of a journal that holds the lease of the record [r]. *)
Definition holds_lease (w : SessionJournal) (r : SessionRecord) : Prop :=
  worker_id w = sr_recovery_id r ∧ worker_owner w = sr_owner r ∧ worker_thread w = sr_thread_id r ∧
  worker_epoch w = sr_epoch r ∧ is_Some (sr_owner r) ∧ sr_forgotten r = false.

Lemma lease_mismatch_false w r :
  lease_mismatch w r = false ↔
    worker_owner w = sr_owner r ∧ worker_thread w = sr_thread_id r ∧
    worker_epoch w = sr_epoch r ∧ is_Some (sr_owner r) ∧ sr_forgotten r = false.
Proof. unfold lease_mismatch. autorewrite with guards. naive_solver. Qed.

(** C2: On the in-memory backend a journal that holds the lease is never poisoned:
    a command is either refused with the store untouched, or everything it
    computed is written as the next revision. *)
Theorem journal_commits_or_refuses (m : MemoryStore) w r action now1 now2 fr fe :
  store_good m → m !! worker_id w = Some r → holds_lease w r → worker_poison w = None →
  action ≠ ActionRecord → fresh_action r action fr fe →
  journal_step w action now1 now2 fr fe m =
    match next_record r action now1 now2 fr fe with
    | Err error => (Err error, w, m)
    | Ok (new, response) => (Ok (committed_response new response), w, <[worker_id w := new]> m)
    end.
Proof.
  intros Hg Hr (Hid & Ho & Hth & He & Hown & Hf) Hp Hact Hfresh. unfold journal_step. rewrite Hp. simpl.
  rewrite Hr. rewrite (proj2 (lease_mismatch_false w r)) by done.
  assert (match next_record r action now1 now2 fr fe with
    | Err error => (Err error, w, m)
    | Ok (new, response) =>
        match memory_compare_exchange (worker_id w) (sr_revision r) new m with
        | (Ok _, s) => (Ok (committed_response new response), w, s)
        | (Err error, s) => (Err (write_failure error), poisoned_by (error_text error) w, s)
        end
    end = match next_record r action now1 now2 fr fe with
    | Err error => (Err error, w, m)
    | Ok (new, response) => (Ok (committed_response new response), w, <[worker_id w := new]> m)
    end) as Hstep; [|by destruct action].
  destruct (next_record r action now1 now2 fr fe) as [[new response]|] eqn:Hn; [|done].
  unfold memory_compare_exchange. rewrite Hr. destruct (Hg _ _ Hr) as [Hrid HG].
  apply next_record_Ok in Hn as (_ & _ & _ & Hv); [|done..]. rewrite Hid. by rewrite Hv.
Qed.

(** C3: A stale journal is fenced for good: once its lease was released or the
    session was attached again, every later command is refused and the store is
    not touched, whatever happens in between. *)
Theorem stale_journal_is_fenced {S : Type} `{!SessionStore S, !SessionStoreSpec S}
    (s1 s2 s3 : S) r1 r2 action now1 now2 fr fe :
  store_ok (contents s1) →
  rtc backend_step (contents s1) (contents s2) → rtc backend_step (contents s2) (contents s3) →
  contents s1 !! sr_recovery_id r1 = Some r1 → contents s2 !! sr_recovery_id r1 = Some r2 →
  is_Some (sr_owner r1) → sr_owner r2 = None ∨ (sr_epoch r1 < sr_epoch r2)%N →
  let '(reply, _, s4) := journal_step (spawn r1) action now1 now2 fr fe s3 in
  is_err reply = true ∧ contents s4 = contents s3.
Proof.
  intros Hok H12 H23 H1 H2 Hown Hgone. unfold journal_step. simpl.
  pose proof (load_contents (sr_recovery_id r1) s3) as Hs. pose proof (load_answer (sr_recovery_id r1) s3) as Hans.
  destruct (load (sr_recovery_id r1) s3) as [[[r3|]|] s4]; simpl in *; [|done..].
  specialize (Hans _ eq_refl). symmetry in Hans.
  destruct (lease_mismatch (spawn r1) r3) eqn:Hlease; [done|exfalso].
  apply lease_mismatch_false in Hlease as (_ & _ & He & [o Ho] & _). simpl in He.
  destruct (backend_steps_later _ _ _ r1 Hok H12 H1) as (Hok2 & ? & ? & HL1).
  destruct (backend_steps_later _ _ _ r2 Hok2 H23 H2) as (_ & ? & ? & HL2). simplify_eq.
  destruct HL1 as [_ He1 _ _ _], HL2 as [_ He2 _ Hf2 _]. destruct Hgone as [Hn|]; [|lia].
  destruct (Hf2 ltac:(lia)) as [[? _]|]; congruence.
Qed.

Lemma open_loop_memory now l (m0 : MemoryStore) :
  NoDup (sr_recovery_id <$> l) →
  (∀ r, r ∈ l → m0 !! sr_recovery_id r = Some r ∧ Reopenable now r ∧ (sr_revision r < u64_max)%N) →
  ∃ m', open_loop now l m0 = (Ok (), m') ∧ dom m' = dom m0 ∧
    (∀ id, id ∉ sr_recovery_id <$> l → m' !! id = m0 !! id) ∧
    (∀ id, id ∈ sr_recovery_id <$> l → ∃ r, m' !! id = Some r ∧ sr_recovery_id r = id ∧ Good r ∧ quiet r).
Proof.
  revert m0. induction l as [|r l IH]; intros m0 Hnd Hl.
  { exists m0. split_and!; try done. set_solver. }
  csimpl in Hnd. apply NoDup_cons in Hnd as [Hnot Hnd].
  destruct (Hl r) as (Hr & HR & Hmax); [by left|].
  destruct (reopen_ok now r HR Hmax) as (o & Ho & Hspec). simpl.
  rewrite (eff_bind_ok _ _ _ o m0) by by (unfold lift; rewrite Ho).
  set (m1 := match o with Some new => <[sr_recovery_id r := new]> m0 | None => m0 end).
  assert (∃ r1, m1 !! sr_recovery_id r = Some r1 ∧ sr_recovery_id r1 = sr_recovery_id r ∧ Good r1 ∧ quiet r1)
    as (r1 & Hr1 & Hid1 & HG1 & Hq1).
  { unfold m1. destruct o as [new|]; [|by exists r; naive_solver].
    exists new. rewrite lookup_insert_eq. naive_solver. }
  assert (dom m1 = dom m0 ∧ ∀ id, id ≠ sr_recovery_id r → m1 !! id = m0 !! id) as [Hdom1 Hout1].
  { unfold m1. destruct o; [|done]. rewrite dom_insert_L. apply elem_of_dom_2 in Hr. split; [set_solver|].
    intros id Hne. by rewrite lookup_insert_ne. }
  rewrite (eff_bind_ok _ _ _ () m1).
  2:{ unfold m1. destruct o as [new|]; [|done]. simpl. unfold memory_compare_exchange.
      destruct Hspec as (_ & _ & _ & Hv). by rewrite Hr, Hv. }
  clearbody m1. destruct (IH m1 Hnd) as (m' & -> & Hdom & Hout & Hin).
  { intros r' Hr'. destruct (Hl r') as (? & ? & ?); [by right|]. split_and!; try done.
    rewrite Hout1; [done|]. intros Heq. apply Hnot. rewrite <-Heq. by apply list_elem_of_fmap_2. }
  exists m'. split_and!; [done|by rewrite Hdom| |]; csimpl.
  - intros id [? ?]%not_elem_of_cons. by rewrite Hout, Hout1.
  - intros id. destruct (decide (id ∈ sr_recovery_id <$> l)); [intros; by apply Hin|].
    intros [->|?]%elem_of_cons; [|done]. exists r1. by rewrite Hout.
Qed.

(** C5: Opening an in-memory store succeeds and recovers every session: legacy
    records are migrated, unfinished runs are closed and every lease is released. *)
Theorem open_recovers_all (m : MemoryStore) now :
  (∀ id r, m !! id = Some r → sr_recovery_id r = id ∧ Reopenable now r ∧ (sr_revision r < u64_max)%N) →
  ∃ m', open now m = (Ok (), m') ∧ store_good m' ∧ map_Forall (λ _ r, quiet r) m' ∧ dom m' = dom m.
Proof.
  intros Hm. unfold open. rewrite (eff_bind_ok _ _ _ (btree_values m) m) by done.
  assert (∀ r, r ∈ btree_values m → m !! sr_recovery_id r = Some r) as Hvals.
  { intros r [id Hr]%elem_of_btree_values. by destruct (Hm id r Hr) as [-> _]. }
  destruct (open_loop_memory now (btree_values m) m) as (m' & Hopen & Hdom & Hout & Hin).
  - apply NoDup_recovery_ids. intros id r Hr. by destruct (Hm id r Hr).
  - intros r Hr. split; [by apply Hvals|]. apply elem_of_btree_values in Hr as [id Hr].
    by destruct (Hm id r Hr).
  - exists m'. split_and!; [done| | |done].
    all: intros id r Hr; assert (id ∈ sr_recovery_id <$> btree_values m) as Hid;
      [assert (id ∈ dom m) as [r0 Hr0]%elem_of_dom by (rewrite <-Hdom; by eapply elem_of_dom_2);
       apply list_elem_of_fmap; exists r0; destruct (Hm id r0 Hr0) as [<- _];
       split; [done|]; apply elem_of_btree_values; by eexists
      |destruct (Hin id Hid) as (r' & ? & ? & ? & ?); by simplify_eq].
Qed.

Lemma byte_difference_zero a b :
  String.length a = String.length b → byte_difference a b = 0%N ↔ a = b.
Proof.
  intros Hlen. rewrite <-!length_bytes_of in Hlen. unfold byte_difference.
  assert (∀ (l k : list nat) n, length l = length k →
    foldl (λ n '(x, y), N.lor n (N.lxor (N.of_nat x) (N.of_nat y))) n (zip l k) = 0%N ↔
    n = 0%N ∧ l = k) as Hfold.
  { induction l as [|x l IH]; intros [|y k] n Hl; simpl in *; try done; [tauto|].
    rewrite IH by lia. rewrite N.lor_eq_0_iff, N.lxor_eq_0_iff, Nat2N.inj_iff.
    split; [intros [[-> ->] ->]|intros [-> [= -> ->]]]; done. }
  rewrite Hfold by done. split; [|by intros ->]. by intros [_ ?%bytes_of_inj].
Qed.

(** The comparison of the credentials, although written to look at every
    byte, accepts exactly the key with the identity and the secret of the record. *)
Theorem check_key_accepts_owner record key :
  check_key record key = Ok () ↔
    RecoveryKey_validate key = Ok () ∧ sr_recovery_id record = key_recovery_id key ∧
    sr_secret_digest record = digest (key_secret key).
Proof.
  unfold check_key. rewrite bind_Ok. setoid_rewrite map_err_Ok. setoid_rewrite reject_if_Ok. split.
  - intros ([] & Hk & Hg). autorewrite with guards in Hg. destruct Hg as [[Hid Hlen] Hdiff].
    by apply byte_difference_zero in Hdiff.
  - intros (Hk & Hid & Hd). exists (). split; [done|]. autorewrite with guards. rewrite Hd.
    split_and!; [done..|]. by apply byte_difference_zero.
Qed.

(** An acknowledgment is accepted exactly for the current revision, with no
    run unfinished, and with every unresolved execution named once and nothing
    else; afterwards nothing is unresolved and nothing else has changed. *)
Theorem acknowledge_exact r expected ids :
  NoDup (unk_execution_id <$> sr_unknown_executions r) →
  (is_ok (acknowledge r expected ids) = true ↔
     sr_revision r = expected ∧ active r = false ∧ ids ≡ₚ unacknowledged r) ∧
  (∀ r', acknowledge r expected ids = Ok r' → unresolved r' = false ∧ frame r' = frame r ∧
     sr_history r' = sr_history r ∧ sr_runs r' = sr_runs r).
Proof.
  intros Hnd. assert (NoDup (unacknowledged r)) as Hnd' by by apply NoDup_fmap_filter_b.
  assert (∀ r', acknowledge r expected ids = Ok r' ↔ (sr_revision r = expected ∧ active r = false ∧
    ids ≡ₚ unacknowledged r) ∧
    r' = set_unknown_executions (acknowledge_one <$> sr_unknown_executions r) r) as Hack.
  { intros r'. unfold acknowledge. rewrite !reject_bind_Ok.
    assert ((size (list_to_set ids : gset string) != length ids) ||
      ((list_to_set ids : gset string) != list_to_set (unacknowledged r)) = false ↔
      ids ≡ₚ unacknowledged r) as ->.
    { autorewrite with guards. rewrite size_list_to_set_iff. split.
      - intros [Hsize Hsets]. apply NoDup_Permutation; [done..|].
        intros x. rewrite <-!(elem_of_list_to_set (C:=gset string)). by rewrite Hsets.
      - intros Hp. split; [by rewrite Hp|]. by rewrite Hp. }
    autorewrite with guards. split; [intros (?&?&?&[= <-])|intros ((?&?&?)&->)]; done. }
  split.
  - split.
    + destruct (acknowledge r expected ids) as [r'|]; [|done]. intros _.
      by destruct (proj1 (Hack r') eq_refl).
    + intros Hall. by rewrite (proj2 (Hack _) (conj Hall eq_refl)).
  - intros r' [_ ->]%Hack. split_and!; try done.
    unfold unresolved. apply existsb_false. simpl. by intros u (u0 & -> & _)%list_elem_of_fmap.
Qed.
End runtime.

(** ** The theorems at the sample session *)

Lemma mutate_preserves_invariant_witness : Inv sample_called ∧ Evolves sample_requested sample_called.
Proof.
  apply (mutate_preserves_invariant sample_requested "turn" (ModelItem "step" sample_call_item)
    "result" "execution" sample_called None);
    [apply sample_requested_Inv|apply sample_called_fresh|vm_compute; reflexivity].
Defined.

Lemma finalize_closes_run_witness :
  ∃ r' closed, finalize sample_dispatched "turn" sample_candidate = Ok (r', closed) ∧
    unacknowledged r' = ["execution"] ∧ snap_status (fin_snapshot closed) = RunFailed.
Proof.
  destruct (finalize_closes_run sample_dispatched "turn" (sample_run sample_dispatched) sample_candidate)
    as (r' & closed & Hf & _); [apply sample_dispatched_Inv|reflexivity|reflexivity|by split_and!|].
  exists r', closed. split; [exact Hf|]. vm_compute in Hf. injection Hf as <- <-. by vm_compute.
Defined.

Lemma recover_releases_witness :
  ∃ r' changed, recover sample_dispatched = Ok (r', changed) ∧ active r' = false.
Proof.
  destruct (recover_releases sample_dispatched sample_dispatched_Inv) as (r' & b & ? & ? & _). eauto.
Defined.

Lemma begin_admission_witness :
  sr_history sample_begun = sr_history sample_session ++ turn_input_items sample_params ∧
  begin sample_begun sample_params sample_snapshot (Bool true) = Err Conflict.
Proof.
  split.
  - eapply (begin_admission sample_session sample_params sample_snapshot Null sample_session_Inv sample_begun true).
    vm_compute. reflexivity.
  - apply (begin_admission sample_begun sample_params sample_snapshot (Bool true) sample_begun_Inv).
Defined.

Lemma dispatch_at_most_once_witness :
  is_err (mutate sample_dispatched "turn" (DispatchIntent "call" sample_execution) "" "") = true.
Proof.
  apply (dispatch_at_most_once sample_finished_step "turn" "call" sample_execution "" "" sample_dispatched
    None sample_dispatched); [vm_compute; reflexivity|reflexivity|apply sample_dispatched_Inv].
Defined.

Lemma runtime_keeps_store_good_witness : store_good (sample_store sample_detached).
Proof.
  refine (runtime_keeps_store_good (S:=MemoryStore) (sample_store sample_session) (sample_store sample_detached) _ _).
  - by apply sample_store_good; [apply sample_session_Inv|..].
  - apply rtc_once.
    replace (sample_store sample_detached) with
      (journal_step sample_worker ActionDetach 2000 2000 "" "" (sample_store sample_session)).2
      by (vm_compute; reflexivity).
    by apply rt_command.
Defined.

Lemma journal_commits_or_refuses_witness :
  (journal_step sample_worker (ActionBegin sample_params sample_snapshot Null) 2000 2000 "" ""
    (sample_store sample_session)).1.2 = sample_worker.
Proof.
  rewrite (journal_commits_or_refuses (sample_store sample_session) sample_worker sample_session);
    [vm_compute; reflexivity|by apply sample_store_good; [apply sample_session_Inv|..]|..];
    [reflexivity| |reflexivity|done|done].
  by split_and!; try by eexists.
Defined.

Lemma stale_journal_is_fenced_witness :
  is_err (journal_step (spawn sample_session) ActionDetach 3000 3000 "" "" (sample_store sample_detached)).1.1
    = true.
Proof.
  pose proof (stale_journal_is_fenced (S:=MemoryStore) (sample_store sample_session)
    (sample_store sample_detached) (sample_store sample_detached) sample_session sample_detached
    ActionDetach 3000 3000 "" "") as Hf.
  destruct (journal_step (spawn sample_session) ActionDetach 3000 3000 "" "" (sample_store sample_detached))
    as [[reply w] m].
  apply Hf; [apply sample_store_ok; [apply sample_session_Inv|done]|apply rtc_once, sample_detach_step|
    reflexivity|reflexivity|reflexivity|by eexists|by left].
Defined.

Lemma open_recovers_all_witness :
  ∃ m', open 5000 (sample_store sample_dispatched) = (Ok (), m') ∧ map_Forall (λ _ r, quiet r) m'.
Proof.
  destruct (open_recovers_all (sample_store sample_dispatched) 5000) as (m' & ? & _ & ? & _); [|by eauto].
  unfold sample_store. intros id r Hl. apply lookup_singleton_Some in Hl as [<- <-].
  split_and!; [reflexivity|apply Good_Reopenable; split; [apply sample_dispatched_Inv|reflexivity]|
    vm_compute; reflexivity].
Defined.

Lemma acknowledge_exact_witness :
  is_ok (acknowledge sample_closed (sr_revision sample_closed) ["execution"]) = true ∧
  is_ok (acknowledge sample_closed (sr_revision sample_closed) ["execution"; "execution"]) = false.
Proof.
  split.
  - apply (acknowledge_exact sample_closed (sr_revision sample_closed) ["execution"]); [|by vm_compute].
    vm_compute. repeat constructor. set_solver.
  - vm_compute. reflexivity.
Defined.

Lemma revision_identifies_record_witness :
  sr_revision sample_detached ≠ sr_revision sample_session.
Proof.
  intros Heq.
  apply (revision_identifies_record (sample_store sample_session) (sample_store sample_detached) session_id
    sample_session sample_detached) in Heq; [discriminate Heq|apply sample_store_ok; [apply sample_session_Inv|done]|
    apply rtc_once, sample_detach_step|reflexivity|reflexivity].
Defined.

Lemma lease_never_returns_witness : sr_owner sample_detached = None.
Proof.
  apply (lease_never_returns (sample_store sample_session) (sample_store sample_detached)
    (sample_store sample_detached) session_id sample_session sample_detached sample_detached);
    [apply sample_store_ok; [apply sample_session_Inv|done]|apply rtc_once, sample_detach_step|
     reflexivity|reflexivity|reflexivity|reflexivity|by eexists|by left|reflexivity].
Defined.

Lemma tombstone_is_final_witness :
  sample_store sample_forgotten !! session_id = Some sample_forgotten.
Proof.
  apply (tombstone_is_final (sample_store sample_forgotten) (sample_store sample_forgotten) session_id
    sample_forgotten); [|reflexivity..].
  apply sample_store_ok; [|done]. apply Inv_no_runs; vm_compute; reflexivity.
Defined.

Lemma configuration_round_trip_witness :
  parse_and_migrate (into_value migrated_configuration) = Ok (migrated_configuration, false).
Proof. apply (configuration_round_trip legacy_configuration _ true). vm_compute. reflexivity. Defined.

Lemma metadata_outside_identity_witness :
  ∃ c', replace_metadata migrated_configuration ∅ = Ok c' ∧
    attachment_identity c' = attachment_identity migrated_configuration.
Proof.
  eexists. split; [vm_compute; reflexivity|].
  apply (metadata_outside_identity legacy_configuration migrated_configuration true ∅);
    vm_compute; reflexivity.
Defined.
