(* ===== verification/StoreSweep.v ===== *)
(** * The retention sweep ([StoreRuntime::sweep_retention], [retention.rs])

    Reads the metadata of the store page by page, retires the expired sessions
    and, oldest first, as many more as the budgets ask for.  Accepted sweeps are
    serialized by a lock; [sweep_owned] is one of them.

    The paging loop has no bound of its own: it runs until a page is empty.  The
    model gives it fuel, [None] being "still running"; [metadata_terminates]
    shows that one more step than the store has records is enough. *)

From S2P Require Import Prelude Protocol StoreState StoreValid StoreInvariant StoreBackend StoreConfig StoreRuntime Samples.

(** ** Definitions *)

Record RetentionReport := {
  rep_examined : N;
  rep_retired : N;
  rep_protected_active : N;
  rep_protected_unknown : N;
  rep_remaining_sessions : N;
  rep_remaining_payload_bytes : N;
  rep_unmet_sessions : N;
  rep_unmet_payload_bytes : N;
}.

Definition PAGE : nat := 128.

(** One row of a page: the cursor must advance; tombstones are left out. *)
Definition collect_row (acc : option string * list RetentionMetadata) (row : RetentionMetadata)
    : Result (option string * list RetentionMetadata) :=
  let '(cursor, rows) := acc in
  reject_if (is_some_and cursor (λ old, bool_decide (String.le (rm_recovery_id row) old)))
    (Invalid "Retention metadata pages must increase by ID");;
  Ok (Some (rm_recovery_id row), if rm_forgotten row then rows else rows ++ [row]).

(** [(a.detached_since_ms, &a.recovery_id).cmp(..)] *)
Definition sweep_le (a b : RetentionMetadata) : Prop :=
  opt_ltb (rm_detached_since_ms a) (rm_detached_since_ms b) = true ∨
  (rm_detached_since_ms a = rm_detached_since_ms b ∧ String.le (rm_recovery_id a) (rm_recovery_id b)).
#[export] Instance sweep_le_dec a b : Decision (sweep_le a b).
Proof. unfold sweep_le. apply _. Defined.

Definition expired (policy : StoreRetentionPolicy) (now : N) (row : RetentionMetadata) : bool :=
  is_some_and (detached_ttl_ms policy) (λ ttl,
    is_some_and (since ← rm_detached_since_ms row; checked_sub now since) (λ age, (ttl <=? age)%N)).

Definition over_budget (policy : StoreRetentionPolicy) (sessions bytes : N) : bool :=
  is_some_and (max_retained_sessions policy) (λ max, (max <? sessions)%N) ||
  is_some_and (max_retained_payload_bytes policy) (λ max, (max <? bytes)%N).

Definition protected (row : RetentionMetadata) : bool :=
  rm_forgotten row || rm_protected_active row || rm_protected_unknown row.

(** The counters of the sweep: retired so far, sessions and bytes left. *)
Record SweepState := { sw_retired : N; sw_sessions : N; sw_bytes : N }.

Definition initial_totals (rows : list RetentionMetadata) : SweepState :=
  foldl (λ st row,
      if rm_forgotten row then st else
      {| sw_retired := sw_retired st; sw_sessions := sw_sessions st + 1;
         sw_bytes := saturating_add (sw_bytes st) (rm_payload_bytes row) |})
    {| sw_retired := 0; sw_sessions := 0; sw_bytes := 0 |} rows.

Definition final_report (policy : StoreRetentionPolicy) (examined retired : N)
    (rows : list RetentionMetadata) : RetentionReport :=
  let live := List.filter (λ row, negb (rm_forgotten row)) rows in
  let sessions := N.of_nat (length live) in
  let bytes := foldl (λ n row, saturating_add n (rm_payload_bytes row)) 0%N live in
  {| rep_examined := examined;
     rep_retired := retired;
     rep_protected_active := N.of_nat (length (List.filter rm_protected_active live));
     rep_protected_unknown := N.of_nat (length (List.filter rm_protected_unknown live));
     rep_remaining_sessions := sessions;
     rep_remaining_payload_bytes := bytes;
     rep_unmet_sessions :=
       match max_retained_sessions policy with Some max => saturating_sub sessions max | None => 0 end;
     rep_unmet_payload_bytes :=
       match max_retained_payload_bytes policy with Some max => saturating_sub bytes max | None => 0 end |}.

Section store.
Context {S : Type} `{!SessionStore S}.

Fixpoint metadata_loop (fuel : nat) (acc : option string * list RetentionMetadata) (s : S)
    : option (Result (list RetentionMetadata) * S) :=
  match fuel with
  | O => None
  | Datatypes.S fuel =>
      match metadata_page acc.1 PAGE s with
      | (Err e, s) => Some (Err e, s)
      | (Ok [], s) => Some (Ok acc.2, s)
      | (Ok page, s) =>
          match fold_res collect_row acc page with
          | Err e => Some (Err e, s)
          | Ok acc => metadata_loop fuel acc s
          end
      end
  end.

Definition metadata (fuel : nat) (s : S) : option (Result (list RetentionMetadata) * S) :=
  metadata_loop fuel (None, []) s.

Definition sweep_row (policy : StoreRetentionPolicy) (now : N) (st : SweepState)
    (row : RetentionMetadata) : eff S StoreError SweepState :=
  if protected row then mret st else
  let ttl := expired policy now row in
  let excess := over_budget policy (sw_sessions st) (sw_bytes st) in
  if negb ttl && negb excess then mret st else λ s,
  match retire_detached (rm_recovery_id row) (rm_revision row) now
          (if ttl then "detached_ttl" else "retention_budget") s with
  | (Ok true, s) =>
      (Ok {| sw_retired := sw_retired st + 1; sw_sessions := saturating_sub (sw_sessions st) 1;
             sw_bytes := saturating_sub (sw_bytes st) (rm_payload_bytes row) |}, s)
  | (Ok false, s) | (Err (Conflict | Active | UnknownExecutions | NotFound | Forgotten), s) => (Ok st, s)
  | (Err error, s) => (Err error, s)
  end.

Fixpoint sweep_rows (policy : StoreRetentionPolicy) (now : N) (st : SweepState)
    (rows : list RetentionMetadata) : eff S StoreError SweepState :=
  match rows with
  | [] => mret st
  | row :: rows => st ← sweep_row policy now st row; sweep_rows policy now st rows
  end.

Definition sweep_owned (fuel : nat) (policy : StoreRetentionPolicy) (now : N) (s : S)
    : option (Result RetentionReport * S) :=
  match metadata fuel s with
  | None => None
  | Some (Err e, s) => Some (Err e, s)
  | Some (Ok rows, s) =>
      let totals := initial_totals rows in
      match sweep_rows policy now totals (merge_sort sweep_le rows) s with
      | (Err e, s) => Some (Err e, s)
      | (Ok st, s) =>
          match metadata fuel s with
          | None => None
          | Some (Err e, s) => Some (Err e, s)
          | Some (Ok rows, s) =>
              Some (Ok (final_report policy (sw_sessions totals) (sw_retired st) rows), s)
          end
      end
  end.

(** [sweep_retention]: the policy is checked before a sweep is accepted. *)
Definition sweep_retention (fuel : nat) (policy : StoreRetentionPolicy) (now : N) (s : S)
    : option (Result RetentionReport * S) :=
  match map_err Invalid (StoreRetentionPolicy_validate policy) with
  | Err e => Some (Err e, s)
  | Ok _ => sweep_owned fuel policy now s
  end.
End store.

(** ** Paging over the in-memory store *)

Section memory.
Context `{Externals, RecordExternals}.

(** The row of a record whose serialized size is within [u64]. *)
Definition row_of (r : SessionRecord) : RetentionMetadata :=
  {| rm_recovery_id := sr_recovery_id r; rm_revision := sr_revision r;
     rm_detached_since_ms := sr_detached_since_ms r; rm_forgotten := sr_forgotten r;
     rm_protected_active := is_some (sr_owner r) || active r;
     rm_protected_unknown := unresolved r;
     rm_payload_bytes := if sr_forgotten r then 0 else record_json_len r |}.

Definition fits (r : SessionRecord) : Prop :=
  sr_forgotten r = false → (record_json_len r <= u64_max)%N.

Lemma retention_metadata_fits r : fits r → retention_metadata r = Ok (row_of r).
Proof.
  unfold retention_metadata, row_of, fits, serialized_bytes. intros Hf.
  destruct (sr_forgotten r); simpl; [done|]. by rewrite (proj2 (N.leb_le _ _) (Hf eq_refl)).
Qed.

Lemma rows_fit l : Forall fits l → mapM retention_metadata l = Ok (row_of <$> l).
Proof.
  induction 1 as [|r l Hr _ IH]; [done|].
  change (mapM retention_metadata (r :: l)) with
    (y ← retention_metadata r; k ← mapM retention_metadata l; mret (y :: k) : Result _).
  by rewrite retention_metadata_fits, IH.
Qed.

(** Strictly increasing identities. *)
Definition id_lt (a b : SessionRecord) : Prop := str_ltb (sr_recovery_id a) (sr_recovery_id b) = true.

Lemma str_ltb_true a b : str_ltb a b = true ↔ ¬ String.le b a.
Proof. unfold str_ltb. by rewrite negb_true_iff, bool_decide_eq_false. Qed.

Lemma btree_values_increasing (m : MemoryStore) :
  map_Forall (λ id r, sr_recovery_id r = id) m → StronglySorted id_lt (btree_values m).
Proof.
  intros Hm. unfold btree_values.
  assert (∀ l : list (string * SessionRecord), StronglySorted key_le l → NoDup l.*1 →
    (∀ k r, (k, r) ∈ l → sr_recovery_id r = k) → StronglySorted id_lt l.*2) as Hl.
  { induction 1 as [|[k r] l Hs IH Hk]; csimpl; intros Hnd Hid; [constructor|].
    apply NoDup_cons in Hnd as [Hnot Hnd]. constructor; [apply IH; [done|intros; apply Hid; by right]|].
    apply Forall_fmap, Forall_forall. intros [k' r'] Hin. unfold id_lt. simpl.
    rewrite Forall_forall in Hk. specialize (Hk _ Hin). unfold key_le in Hk. simpl in Hk.
    rewrite (Hid k r), (Hid k' r') by set_solver. apply str_ltb_true. intros Hle.
    apply Hnot. rewrite (anti_symm String.le k k' Hk Hle). apply list_elem_of_fmap. by exists (k', r'). }
  apply Hl; [apply btree_iter_sorted|apply NoDup_btree_keys|].
  intros k r Hin%elem_of_btree_iter. by apply Hm.
Qed.

Lemma StronglySorted_app_lt (l k : list SessionRecord) a b :
  StronglySorted id_lt (l ++ k) → a ∈ l → b ∈ k → id_lt a b.
Proof.
  induction l as [|x l IH]; simpl; [set_solver|].
  intros [Hs Hx]%StronglySorted_inv [->|Ha]%elem_of_cons Hb; [|by apply IH].
  rewrite Forall_forall in Hx. apply Hx. set_solver.
Qed.

(** After the last record of a prefix the filter of a page leaves the rest. *)
Lemma filter_after_prefix (l k : list SessionRecord) x :
  StronglySorted id_lt ((l ++ [x]) ++ k) →
  List.filter (after_cursor (Some (sr_recovery_id x))) ((l ++ [x]) ++ k) = k.
Proof.
  intros Hs. rewrite List.filter_app.
  assert (List.filter (after_cursor (Some (sr_recovery_id x))) (l ++ [x]) = []) as ->.
  { apply list_filter_nil_b. intros y Hy. unfold after_cursor. simpl.
    unfold str_ltb. rewrite negb_false_iff, bool_decide_eq_true.
    apply elem_of_app in Hy as [Hy| ->%list_elem_of_singleton]; [|reflexivity].
    rewrite <-app_assoc in Hs. pose proof (StronglySorted_app_lt _ _ y x Hs Hy ltac:(set_solver)) as Hlt.
    apply str_ltb_true in Hlt. destruct (total String.le (sr_recovery_id y) (sr_recovery_id x)); done. }
  simpl. apply list_filter_all_b. intros y Hy. unfold after_cursor. simpl.
  apply (StronglySorted_app_lt _ _ x y Hs); set_solver.
Qed.

Definition live_rows (l : list SessionRecord) : list RetentionMetadata :=
  List.filter (λ row, negb (rm_forgotten row)) (row_of <$> l).

(** One page of increasing rows passes the check of the cursor. *)
Lemma collect_page pre page acc :
  StronglySorted id_lt (pre ++ page) →
  acc.1 = (sr_recovery_id <$> last pre) →
  fold_res collect_row acc (row_of <$> page) =
    Ok (sr_recovery_id <$> last (pre ++ page), acc.2 ++ live_rows page).
Proof.
  revert pre acc. induction page as [|r page IH]; intros pre [cursor rows] Hs Hc; csimpl.
  { unfold live_rows. simpl in *. by rewrite !app_nil_r, Hc. }
  simpl in Hc. rewrite reject_if_false.
  2:{ apply is_some_and_false. intros old Ho. rewrite Ho in Hc.
      destruct (last pre) as [x|] eqn:Hl; [|done]. injection Hc as ->.
      apply bool_decide_eq_false, str_ltb_true.
      apply last_Some_snoc in Hl as [pre' ->]. apply (StronglySorted_app_lt _ _ x r Hs); set_solver. }
  simpl. rewrite (IH (pre ++ [r])).
  - f_equal. rewrite <-app_assoc. simpl. f_equal. unfold live_rows. csimpl.
    destruct (sr_forgotten r); simpl; [done|]. by rewrite <-app_assoc.
  - by rewrite <-app_assoc.
  - simpl. by rewrite last_snoc.
Qed.

Lemma metadata_loop_rest (m : MemoryStore) pre rest acc fuel :
  btree_values m = pre ++ rest → StronglySorted id_lt (pre ++ rest) → Forall fits rest →
  acc = (sr_recovery_id <$> last pre, live_rows pre) → length rest < fuel →
  metadata_loop fuel acc m = Some (Ok (live_rows (pre ++ rest)), m).
Proof.
  revert pre rest acc. induction fuel as [|fuel IH]; intros pre rest acc Hm Hs Hf -> Hlen; [lia|].
  simpl. unfold memory_metadata_page. rewrite Hm.
  assert (List.filter (after_cursor (sr_recovery_id <$> last pre)) (pre ++ rest) = rest) as ->.
  { destruct (last pre) as [x|] eqn:Hl.
    - apply last_Some_snoc in Hl as [pre' ->]. by apply filter_after_prefix.
    - apply last_None in Hl as ->. simpl. by apply list_filter_all_b. }
  rewrite rows_fit by by apply Forall_take.
  destruct rest as [|r rest]; [by rewrite app_nil_r|].
  set (page := take PAGE (r :: rest)).
  assert (r :: rest = page ++ drop PAGE (r :: rest)) as Hsplit by (symmetry; apply take_drop).
  assert (page ≠ []) as Hne by done.
  destruct (row_of <$> page) as [|row rows] eqn:Hrows; [done|]. rewrite <-Hrows.
  rewrite Hsplit in *. rewrite app_assoc in *.
  erewrite (collect_page pre page); [|by apply StronglySorted_app_1_l in Hs|done].
  simpl. apply IH; try done.
  - by apply Forall_app in Hf as [_ ?].
  - f_equal. unfold live_rows. by rewrite fmap_app, List.filter_app.
  - rewrite length_app in Hlen. destruct page; [done|]. simpl in *. lia.
Qed.

Definition live_count (m : MemoryStore) : nat := length (live_rows (btree_values m)).

(** One more step than the store has records is enough fuel for the paging loop. *)
Lemma metadata_memory (m : MemoryStore) fuel :
  map_Forall (λ id r, sr_recovery_id r = id ∧ fits r) m → size m < fuel →
  metadata fuel m = Some (Ok (live_rows (btree_values m)), m).
Proof.
  intros Hm Hfuel. unfold metadata. rewrite <-(app_nil_l (btree_values m)) at 1.
  apply (metadata_loop_rest m [] (btree_values m)); try done.
  - apply btree_values_increasing. intros id r Hr. by destruct (Hm id r Hr).
  - apply Forall_forall. intros r [id Hr]%elem_of_btree_values. by destruct (Hm id r Hr).
  - unfold btree_values. rewrite length_fmap, btree_iter_permutation, length_map_to_list. done.
Qed.

(** ** One row *)

Definition tombstone_of (r : SessionRecord) (now : N) (reason : string) : SessionRecord :=
  set_revision (sr_revision r + 1) (retire r now reason).

(** Records a sweep can work on. *)
Definition sweepable (id : string) (r : SessionRecord) : Prop :=
  sr_recovery_id r = id ∧ Good r ∧ (sr_revision r < u64_max)%N ∧ fits r.

Lemma protected_row r :
  protected (row_of r) = false ↔
    sr_forgotten r = false ∧ sr_owner r = None ∧ active r = false ∧ unresolved r = false.
Proof. unfold protected. simpl. rewrite !orb_false_iff, is_some_false. tauto. Qed.

Lemma retire_memory (m : MemoryStore) id r now reason :
  m !! id = Some r → sweepable id r → protected (row_of r) = false →
  retire_detached id (sr_revision r) now reason m = (Ok true, <[id := tombstone_of r now reason]> m).
Proof.
  intros Hr (Hid & [HI _] & Hmax & _) (Hf & Ho & Hact & Hun)%protected_row. simpl.
  unfold default_retire_detached. rewrite (eff_bind_ok _ _ _ (Some r) m) by (simpl; by unfold memory_load; rewrite Hr).
  rewrite (eff_bind_ok _ _ _ r m) by done.
  assert (retirement_replacement r (sr_revision r) now reason = Ok (Some (tombstone_of r now reason))) as Hrep.
  { unfold retirement_replacement. rewrite (proj2 (validate_Ok r)) by apply HI. simpl.
    rewrite (bool_decide_eq_true_2 (sr_revision r = _)) by done. simpl. rewrite Hf, Ho, Hact, Hun, (inv_schema r HI). simpl.
    destruct (v_retention r (inv_valid r HI) (inv_schema r HI)) as [_ _ Hd _ _].
    destruct (Hd Hf Ho) as [d ->]. simpl. unfold checked_add.
    by rewrite (proj2 (N.leb_le _ _)) by lia. }
  rewrite (eff_bind_ok _ _ _ (Some (tombstone_of r now reason)) m) by (unfold lift; by rewrite Hrep).
  assert (validate_replace r id (sr_revision r) (tombstone_of r now reason) = Ok ()) as Hv.
  { rewrite <-Hid. apply validate_replace_retired; try done. apply checked_add_Some. split; [done|lia]. }
  rewrite (eff_bind_ok _ _ _ () (<[id := tombstone_of r now reason]> m)); [done|].
  unfold memory_compare_exchange. by rewrite Hr, Hv.
Qed.

Lemma tombstone_Good r now reason :
  Inv r → sr_owner r = None → (sr_revision r < u64_max)%N → Good (tombstone_of r now reason).
Proof. intros. apply retired_Good; try done. apply checked_add_Some. split; [done|lia]. Qed.

Lemma live_rows_permutation l k : l ≡ₚ k → live_rows l ≡ₚ live_rows k.
Proof.
  intros Hp. unfold live_rows. induction Hp as [|x l k Hp IH|x y l|l k m Hp IH Hp' IH']; csimpl; [done|..].
  - destruct (negb _); by rewrite IH.
  - repeat destruct (negb _); try done. constructor.
  - by etrans.
Qed.

(** The sessions and the serialized bytes of a store that are no tombstones *)
Definition payloads (rows : list RetentionMetadata) : N := foldr (λ row n, rm_payload_bytes row + n)%N 0%N rows.
Definition live_bytes (m : MemoryStore) : N := payloads (live_rows (btree_values m)).

Lemma payloads_permutation rows rows' : rows ≡ₚ rows' → payloads rows = payloads rows'.
Proof. induction 1; simpl; lia. Qed.

Lemma live_rows_retire (m : MemoryStore) id r t :
  m !! id = Some r → sr_forgotten r = false → sr_forgotten t = true →
  live_rows (btree_values m) ≡ₚ row_of r :: live_rows (btree_values (<[id := t]> m)).
Proof.
  intros Hr Hf Ht.
  assert (∀ m' : MemoryStore, live_rows (btree_values m') ≡ₚ live_rows (map_to_list m').*2) as Hlc.
  { intros m'. apply live_rows_permutation. unfold btree_values. by rewrite btree_iter_permutation. }
  rewrite !Hlc, (live_rows_permutation _ _ (fmap_Permutation _ _ _ (symmetry (map_to_list_delete m id r Hr)))).
  rewrite <-insert_delete_eq.
  rewrite (live_rows_permutation _ _ (fmap_Permutation _ _ _
    (map_to_list_insert (delete id m) id t (lookup_delete_eq _ _)))).
  unfold live_rows. csimpl. by rewrite Hf, Ht.
Qed.

Lemma live_count_retire (m : MemoryStore) id r t :
  m !! id = Some r → sr_forgotten r = false → sr_forgotten t = true →
  live_count m = live_count (<[id := t]> m) + 1.
Proof. intros Hr Hf Ht. unfold live_count. rewrite (live_rows_retire m id r t) by done. simpl. lia. Qed.

Lemma live_bytes_retire (m : MemoryStore) id r t :
  m !! id = Some r → sr_forgotten r = false → sr_forgotten t = true →
  live_bytes m = (rm_payload_bytes (row_of r) + live_bytes (<[id := t]> m))%N.
Proof. intros Hr Hf Ht. unfold live_bytes. by rewrite (payloads_permutation _ _ (live_rows_retire m id r t Hr Hf Ht)). Qed.

Lemma live_count_pos (m : MemoryStore) id r : m !! id = Some r → sr_forgotten r = false → 0 < live_count m.
Proof.
  intros Hr Hf. rewrite (live_count_retire m id r (set_revision 1 (retire r 0 "")) Hr Hf eq_refl). lia.
Qed.

(** ** All the rows *)

(** What a sweep does to one record: nothing, or a tombstone if nothing protects it. *)
Definition swept (now : N) (r r' : SessionRecord) : Prop :=
  r' = r ∨ (protected (row_of r) = false ∧ ∃ reason, r' = tombstone_of r now reason).

(** Both budgets only come closer while the counters fall. *)
Lemma over_budget_mono policy s1 b1 s2 b2 :
  (s2 <= s1)%N → (b2 <= b1)%N → over_budget policy s2 b2 = true → over_budget policy s1 b1 = true.
Proof.
  unfold over_budget, is_some_and. intros Hs Hb. rewrite !orb_true_iff.
  destruct (max_retained_sessions policy), (max_retained_payload_bytes policy); rewrite ?N.ltb_lt;
    intros [?|?]; try done; (left; lia) || (right; lia) || auto.
Qed.

(** Whether the turn of [row] finds it due: it is past its time, or the sessions and
    bytes that are left after those of the rows [before] it that were retired are beyond
    a budget. *)
Definition retired_in (m' : MemoryStore) (row : RetentionMetadata) : bool :=
  is_some_and (m' !! rm_recovery_id row) sr_forgotten.
Definition due_at (policy : StoreRetentionPolicy) (now : N) (m' : MemoryStore) (total : SweepState)
    (before : list RetentionMetadata) (row : RetentionMetadata) : bool :=
  let gone := List.filter (retired_in m') before in
  negb (protected row) &&
  (expired policy now row ||
   over_budget policy (sw_sessions total - N.of_nat (length gone)) (sw_bytes total - payloads gone)).
Definition retirement_reason (policy : StoreRetentionPolicy) (now : N) (row : RetentionMetadata) : string :=
  if expired policy now row then "detached_ttl" else "retention_budget".

Record SweptOk (policy : StoreRetentionPolicy) (now : N) (l : list SessionRecord) (m : MemoryStore)
    (st st' : SweepState) (m' : MemoryStore) : Prop := {
  so_swept : ∀ r, r ∈ l → ∃ r', m' !! sr_recovery_id r = Some r' ∧ swept now r r' ∧
    (protected (row_of r) = false →
     expired policy now (row_of r) = true ∨ over_budget policy (sw_sessions st') (sw_bytes st') = true →
     sr_forgotten r' = true);
  so_exact : ∀ before r after, l = before ++ r :: after →
    m' !! sr_recovery_id r =
      Some (if due_at policy now m' st (row_of <$> before) (row_of r)
            then tombstone_of r now (retirement_reason policy now (row_of r)) else r);
  so_bytes_exact : sw_bytes st = live_bytes m → sw_bytes st' = live_bytes m';
  so_others : ∀ id, id ∉ sr_recovery_id <$> l → m' !! id = m !! id;
  so_dom : dom m' = dom m;
  so_sessions : (sw_sessions st' + N.of_nat (live_count m) =
                 sw_sessions st + N.of_nat (live_count m'))%N;
  so_retired : (sw_retired st' + N.of_nat (live_count m') =
                sw_retired st + N.of_nat (live_count m))%N;
  so_sessions_le : (sw_sessions st' <= sw_sessions st)%N;
  so_bytes_le : (sw_bytes st' <= sw_bytes st)%N;
}.

Definition after_retire (st : SweepState) (r : SessionRecord) : SweepState :=
  {| sw_retired := sw_retired st + 1; sw_sessions := saturating_sub (sw_sessions st) 1;
     sw_bytes := saturating_sub (sw_bytes st) (rm_payload_bytes (row_of r)) |}.

Lemma sweep_row_memory policy now r m st :
  m !! sr_recovery_id r = Some r → sweepable (sr_recovery_id r) r →
  let due := expired policy now (row_of r) || over_budget policy (sw_sessions st) (sw_bytes st) in
  (sweep_row policy now st (row_of r) m = (Ok st, m) ∧ negb (protected (row_of r)) && due = false) ∨
  (protected (row_of r) = false ∧ due = true ∧ sweep_row policy now st (row_of r) m =
     (Ok (after_retire st r),
      <[sr_recovery_id r := tombstone_of r now (retirement_reason policy now (row_of r))]> m)).
Proof.
  intros Hr Hsw due. subst due. unfold sweep_row. destruct (protected (row_of r)) eqn:Hp; [by left|].
  unfold retirement_reason.
  destruct (expired policy now (row_of r)) eqn:He,
    (over_budget policy (sw_sessions st) (sw_bytes st)) eqn:Ho; cbn [negb andb orb];
    [right|right|right|by left];
    (split; [done|]); (split; [done|]); change (rm_recovery_id (row_of r)) with (sr_recovery_id r);
    change (rm_revision (row_of r)) with (sr_revision r); by rewrite (retire_memory m _ r now _ Hr Hsw Hp).
Qed.

(** What is due does not depend on the rows that a later state leaves alone. *)
Lemma due_at_cons policy now m' st st1 r0 before row :
  (if retired_in m' (row_of r0) then st1 = after_retire st r0 else st1 = st) →
  due_at policy now m' st1 before row = due_at policy now m' st (row_of r0 :: before) row.
Proof.
  unfold due_at. intros Hst. cbn [List.filter]. destruct (retired_in m' (row_of r0)); subst; [|done].
  unfold after_retire, saturating_sub. cbn [sw_sessions sw_bytes length payloads foldr].
  replace (sw_sessions st - 1 - N.of_nat (length (List.filter (retired_in m') before)))%N
    with (sw_sessions st - N.of_nat (S (length (List.filter (retired_in m') before))))%N by lia.
  by rewrite N.sub_add_distr.
Qed.

Lemma sweep_rows_memory policy now l m st :
  NoDup (sr_recovery_id <$> l) →
  (∀ r, r ∈ l → m !! sr_recovery_id r = Some r ∧ sweepable (sr_recovery_id r) r ∧ sr_forgotten r = false) →
  sw_sessions st = N.of_nat (live_count m) →
  ∃ st' m', sweep_rows policy now st (row_of <$> l) m = (Ok st', m') ∧
    SweptOk policy now l m st st' m'.
Proof.
  revert m st. induction l as [|r l IH]; intros m st Hnd Hl Hst; csimpl.
  { exists st, m. split; [done|]. split; try done; try lia; [set_solver|by intros [] ? ?]. }
  csimpl in Hnd. apply NoDup_cons in Hnd as [Hnot Hnd].
  destruct (Hl r) as (Hr & Hsw & Hlive); [by left|].
  destruct (sweep_row_memory policy now r m st Hr Hsw) as [[Hrow Hkeep]|(Hp & Hdue & Hrow)];
    rewrite (eff_bind_ok _ _ _ _ _ Hrow).
  - destruct (IH m st Hnd) as (st' & m' & -> & [Hs Hx Hbx Ho Hd Hc1 Hc2 Hs2 Hb2]);
      [intros r0 ?; apply Hl; by right|done|].
    exists st', m'. split; [done|].
    assert (m' !! sr_recovery_id r = Some r) as Hr' by (by rewrite Ho).
    split; try done.
    + intros r0 [->|Hin]%elem_of_cons; [|by apply Hs]. exists r.
      split; [done|]. split; [by left|]. intros Hp Hor. rewrite Hp in Hkeep. simpl in Hkeep.
      apply orb_false_iff in Hkeep as [He Hov]. destruct Hor as [He'|Hov']; [congruence|].
      by rewrite (over_budget_mono _ _ _ _ _ Hs2 Hb2 Hov') in Hov.
    + intros [|r0 before] r1 after [= <- ->].
      * rewrite Hr'. unfold due_at. simpl. rewrite !N.sub_0_r. by rewrite Hkeep.
      * rewrite (Hx before r1 after eq_refl). csimpl. f_equal.
        rewrite (due_at_cons policy now m' st st r); [done|]. unfold retired_in. simpl. rewrite Hr'. simpl. by rewrite Hlive.
    + csimpl. intros id [_ ?]%not_elem_of_cons. by apply Ho.
  - pose proof (proj1 (protected_row r) Hp) as (Hf & _).
    set (t := tombstone_of r now (retirement_reason policy now (row_of r))) in *.
    pose proof (live_count_retire m (sr_recovery_id r) r t Hr Hf eq_refl) as Hlc.
    pose proof (live_bytes_retire m (sr_recovery_id r) r t Hr Hf eq_refl) as Hlb.
    set (m1 := <[sr_recovery_id r := t]> m) in *.
    destruct (IH m1 (after_retire st r) Hnd) as (st' & m' & -> & [Hs Hx Hbx Ho Hd Hc1 Hc2 Hs2 Hb2]).
    { intros r0 Hin. destruct (Hl r0) as [Hr0 ?]; [by right|]. split; [|done]. unfold m1.
      rewrite lookup_insert_ne; [done|]. intros Heq. apply Hnot. rewrite Heq. by apply list_elem_of_fmap_2. }
    { simpl. unfold saturating_sub. lia. }
    assert (m' !! sr_recovery_id r = Some t) as Hr' by (rewrite Ho by done; unfold m1; by rewrite lookup_insert_eq).
    exists st', m'. split; [done|]. split.
    + intros r0 [->|Hin]%elem_of_cons; [|by apply Hs]. exists t. split; [done|]. split; [|done]. right. unfold t. eauto.
    + intros [|r0 before] r1 after [= <- ->].
      * rewrite Hr'. unfold due_at. simpl. rewrite !N.sub_0_r, Hp, Hdue. done.
      * rewrite (Hx before r1 after eq_refl). csimpl. f_equal.
        rewrite (due_at_cons policy now m' st (after_retire st r) r); [done|]. unfold retired_in. simpl. by rewrite Hr'.
    + intros Hb. apply Hbx. unfold after_retire, saturating_sub. simpl. simpl in Hlb. rewrite Hb, Hlb. simpl. lia.
    + csimpl. intros id [Hne ?]%not_elem_of_cons. rewrite Ho by done. by apply lookup_insert_ne.
    + rewrite Hd. unfold m1. rewrite dom_insert_L. apply elem_of_dom_2 in Hr. set_solver.
    + unfold after_retire, saturating_sub in *. simpl in *. lia.
    + unfold after_retire, saturating_sub in *. simpl in *. lia.
    + unfold after_retire, saturating_sub in *. simpl in *. lia.
    + unfold after_retire, saturating_sub in *. simpl in *. lia.
Qed.

Lemma saturating_payloads rows n :
  foldl (λ n row, saturating_add n (rm_payload_bytes row)) (N.min n u64_max) rows = N.min (n + payloads rows) u64_max.
Proof.
  revert n. induction rows as [|row rows IH]; intros n; simpl; [by rewrite N.add_0_r|].
  replace (saturating_add (N.min n u64_max) (rm_payload_bytes row))
    with (N.min (n + rm_payload_bytes row) u64_max) by (unfold saturating_add; lia).
  rewrite IH. f_equal. lia.
Qed.

(** The totals before a sweep are those of the live rows, the bytes up to the largest [u64]. *)
Lemma initial_totals_live rows :
  Forall (λ row, rm_forgotten row = false) rows →
  initial_totals rows =
    {| sw_retired := 0; sw_sessions := N.of_nat (length rows); sw_bytes := N.min (payloads rows) u64_max |}.
Proof.
  intros Hf.
  assert (∀ st, foldl (λ st row, if rm_forgotten row then st else
      {| sw_retired := sw_retired st; sw_sessions := sw_sessions st + 1;
         sw_bytes := saturating_add (sw_bytes st) (rm_payload_bytes row) |}) st rows =
    {| sw_retired := sw_retired st; sw_sessions := sw_sessions st + N.of_nat (length rows);
       sw_bytes := foldl (λ n row, saturating_add n (rm_payload_bytes row)) (sw_bytes st) rows |}) as Hgen.
  { induction Hf as [|row rows Hrow _ IH]; intros st; simpl; [by destruct st; simpl; rewrite N.add_0_r|].
    rewrite Hrow, IH. simpl. f_equal. lia. }
  unfold initial_totals. rewrite Hgen. cbn [sw_retired sw_sessions sw_bytes]. f_equal.
  by rewrite <-(N.add_0_l (payloads rows)), <-(saturating_payloads rows 0).
Qed.

Lemma live_rows_eq l : live_rows l = row_of <$> List.filter (λ r, negb (sr_forgotten r)) l.
Proof. unfold live_rows. induction l as [|r l IH]; csimpl; [done|]. destruct (sr_forgotten r); csimpl; congruence. Qed.

(** The rows sorted by the sweep are the rows of the records in some order. *)
Lemma merge_sort_rows (live : list SessionRecord) :
  ∃ l, merge_sort sweep_le (row_of <$> live) = row_of <$> l ∧ l ≡ₚ live.
Proof.
  pose proof (merge_sort_Permutation sweep_le (row_of <$> live)) as Hp.
  apply Permutation_map_inv in Hp as (l & Hl & Hperm). exists l. by split.
Qed.

(** The order a sweep meets the live sessions in: the longest detached first. *)
Definition sweep_order (m : MemoryStore) : list RetentionMetadata := merge_sort sweep_le (live_rows (btree_values m)).

#[export] Instance sweep_le_total : Total sweep_le.
Proof.
  intros a b. unfold sweep_le, opt_ltb.
  destruct (rm_detached_since_ms a) as [x|], (rm_detached_since_ms b) as [y|]; rewrite ?N.ltb_lt; auto.
  - destruct (N.lt_total x y) as [?|[->|?]]; [by left; left| |by right; left].
    destruct (total String.le (rm_recovery_id a) (rm_recovery_id b)); [left|right]; by right.
  - destruct (total String.le (rm_recovery_id a) (rm_recovery_id b)); [left|right]; by right.
Qed.

Lemma sweep_order_sorted m : Sorted sweep_le (sweep_order m) ∧ sweep_order m ≡ₚ live_rows (btree_values m).
Proof. split; [apply Sorted_merge_sort; apply _|apply merge_sort_Permutation]. Qed.

(** The totals a sweep of [m] starts from. *)
Definition totals_of (m : MemoryStore) : SweepState :=
  {| sw_retired := 0; sw_sessions := N.of_nat (live_count m); sw_bytes := N.min (live_bytes m) u64_max |}.

Lemma initial_totals_of m : initial_totals (live_rows (btree_values m)) = totals_of m.
Proof.
  apply initial_totals_live, Forall_forall. unfold live_rows.
  intros row [_ Hrow]%elem_of_filter_b. by apply negb_true_iff in Hrow.
Qed.

(** The middle of a sweep, over all the live rows: every one of them meets its verdict. *)
Definition verdicts (policy : StoreRetentionPolicy) (now : N) (m m' : MemoryStore) : Prop :=
  ∀ before row after, sweep_order m = before ++ row :: after →
    ∃ r, m !! rm_recovery_id row = Some r ∧ row = row_of r ∧
      m' !! rm_recovery_id row =
        Some (if due_at policy now m' (totals_of m) before row
              then tombstone_of r now (retirement_reason policy now row) else r).

Lemma sweep_store policy now (m : MemoryStore) :
  map_Forall sweepable m →
  ∃ st m', sweep_rows policy now (totals_of m) (sweep_order m) m = (Ok st, m') ∧
    dom m' = dom m ∧ verdicts policy now m m' ∧
    (∀ id r, m !! id = Some r → sr_forgotten r = true → m' !! id = Some r) ∧
    (∀ id r, m !! id = Some r → ∃ r', m' !! id = Some r' ∧ swept now r r' ∧
      (protected (row_of r) = false →
       expired policy now (row_of r) = true ∨ over_budget policy (sw_sessions st) (sw_bytes st) = true →
       sr_forgotten r' = true)) ∧
    sw_sessions st = N.of_nat (live_count m') ∧
    ((live_bytes m <= u64_max)%N → sw_bytes st = live_bytes m') ∧
    (sw_retired st + N.of_nat (live_count m') = N.of_nat (live_count m))%N.
Proof.
  intros Hm. unfold verdicts, sweep_order. rewrite live_rows_eq.
  set (live := List.filter (λ r, negb (sr_forgotten r)) (btree_values m)).
  assert (∀ r, r ∈ live ↔ m !! sr_recovery_id r = Some r ∧ sr_forgotten r = false) as Hin.
  { intros r. unfold live. rewrite elem_of_filter_b, negb_true_iff, elem_of_btree_values. split.
    - intros [[id Hr] ?]. by destruct (Hm id r Hr) as [-> _].
    - intros [? ?]. eauto. }
  assert (NoDup (sr_recovery_id <$> live)) as Hnd.
  { apply NoDup_fmap_filter_b, NoDup_recovery_ids. intros id r Hr. by destruct (Hm id r Hr). }
  destruct (merge_sort_rows live) as (l & Hl & Hperm). rewrite Hl.
  destruct (sweep_rows_memory policy now l m (totals_of m))
    as (st & m' & -> & [Hs Hx Hbx Ho Hd Hc1 Hc2 _ _]); [by rewrite Hperm| |done|].
  { intros r Hr. rewrite Hperm in Hr. apply Hin in Hr as [Hr Hlive]. split_and!; [done|by apply Hm|done]. }
  assert (∀ id r, m !! id = Some r → sr_forgotten r = true → m' !! id = Some r) as Hforgot.
  { intros id r Hr Hf. rewrite Ho; [done|].
    intros (r2 & -> & Hr2)%list_elem_of_fmap. rewrite Hperm in Hr2. apply Hin in Hr2 as [Hr2 ?]. congruence. }
  exists st, m'. simpl in Hc1, Hc2. split_and!; [done|done| |done| |lia| |lia].
  - intros before row after Hsplit.
    apply fmap_app_inv in Hsplit as (lb & lr & -> & Hlr & ->).
    symmetry in Hlr. apply fmap_cons_inv in Hlr as (r & la & -> & -> & ->).
    exists r. assert (r ∈ live) as [Hr _]%Hin by (rewrite <-Hperm; set_solver).
    split_and!; [done|done|]. by rewrite <-(Hx lb r la).
  - intros id r Hr. destruct (Hm id r Hr) as [Hid _]. subst id. destruct (sr_forgotten r) eqn:Hf.
    + exists r. split; [by apply Hforgot|]. split; [by left|]. unfold protected. simpl. by rewrite Hf.
    + apply Hs. rewrite Hperm. by apply Hin.
  - intros Hmax. apply Hbx. simpl. lia.
Qed.

(** ** The property of a sweep *)

(** C38: A sweep under a valid policy, over an in-memory store of good records that
    nobody else writes meanwhile, ends and does what the policy says.  It meets the
    sessions that are no tombstones by the time they were detached, the longest
    detached first.  The one it meets becomes a tombstone (with the reason
    "detached_ttl" if it is past its time to live, "retention_budget" otherwise) if
    and only if it is neither attached nor running nor waiting for an acknowledgment,
    and is past its time to live or what is left after those retired before it is
    beyond the budget of sessions or of bytes; every other record stays as it is.  The
    report counts what was examined, retired and left; and if what is left is beyond
    a budget, everything that is left is protected. *)
Theorem sweep_meets_policy policy now (m : MemoryStore) fuel :
  StoreRetentionPolicy_validate policy = Ok () → map_Forall sweepable m → size m < fuel →
  ∃ report m', sweep_retention fuel policy now m = Some (Ok report, m') ∧
    store_good m' ∧ dom m' = dom m ∧
    Sorted sweep_le (sweep_order m) ∧ sweep_order m ≡ₚ live_rows (btree_values m) ∧
    verdicts policy now m m' ∧
    (∀ id r, m !! id = Some r → sr_forgotten r = true → m' !! id = Some r) ∧
    (∀ id r, m !! id = Some r → ∃ r', m' !! id = Some r' ∧ swept now r r' ∧
       (protected (row_of r) = false → expired policy now (row_of r) = true → sr_forgotten r' = true)) ∧
    rep_examined report = N.of_nat (live_count m) ∧
    rep_remaining_sessions report = N.of_nat (live_count m') ∧
    rep_remaining_payload_bytes report = N.min (live_bytes m') u64_max ∧
    (rep_retired report + rep_remaining_sessions report = rep_examined report)%N ∧
    (rep_unmet_sessions report ≠ 0%N ∨ rep_unmet_payload_bytes report ≠ 0%N ∧ (live_bytes m <= u64_max)%N →
     ∀ id r, m' !! id = Some r → protected (row_of r) = true).
Proof.
  intros Hpol Hm Hfuel. unfold sweep_retention. rewrite Hpol. simpl. unfold sweep_owned.
  rewrite (metadata_memory m fuel); [|by intros id r Hr; destruct (Hm id r Hr) as (?&_&_&?)|done].
  rewrite initial_totals_of. fold (sweep_order m).
  destruct (sweep_store policy now m Hm) as (st & m' & -> & Hd & Hverdicts & Hforgot & Hall & Hst & Hbytes & Hret).
  assert (map_Forall (λ id r, sr_recovery_id r = id ∧ Good r ∧ fits r) m') as Hm'.
  { intros id r' Hr'. assert (id ∈ dom m) as [r Hr]%elem_of_dom by (rewrite <-Hd; by eapply elem_of_dom_2).
    destruct (Hall id r Hr) as (r2 & Hr2 & Hsw & _). simplify_eq. destruct (Hm id r Hr) as (Hid & HG & Hmax & Hfit).
    destruct Hsw as [->|[(_ & Hown & _)%protected_row [reason ->]]]; [done|].
    split_and!; [done| |done]. apply tombstone_Good; [apply HG|done|done]. }
  rewrite (metadata_memory m' fuel); [|by intros id r Hr; destruct (Hm' id r Hr) as (?&_&?)|].
  2:{ by rewrite <-size_dom, Hd, size_dom. }
  eexists _, m'. split; [done|]. unfold final_report. simpl.
  rewrite (list_filter_all_b _ (live_rows _)) by (unfold live_rows; by intros x [_ ?]%elem_of_filter_b).
  fold (live_count m'). pose proof (saturating_payloads (live_rows (btree_values m')) 0) as Hleft.
  fold (live_bytes m') in Hleft. change (N.min 0 u64_max) with 0%N in Hleft. rewrite N.add_0_l in Hleft. rewrite Hleft.
  split_and!; try done; try apply sweep_order_sorted.
  - intros id r Hr. by destruct (Hm' id r Hr) as (?&?&_).
  - intros id r Hr. destruct (Hall id r Hr) as (r' & ? & ? & Hexp). exists r'. split_and!; auto.
  - intros Hunmet id r' Hr'. assert (over_budget policy (sw_sessions st) (sw_bytes st) = true) as Hov.
    { unfold over_budget, is_some_and, saturating_sub in *. apply orb_true_iff.
      destruct Hunmet as [Hunmet|[Hunmet Hmax]]; [left|right].
      - destruct (max_retained_sessions policy) as [max|]; [|done]. apply N.ltb_lt. lia.
      - destruct (max_retained_payload_bytes policy) as [max|]; [|done]. apply N.ltb_lt. rewrite (Hbytes Hmax). lia. }
    assert (id ∈ dom m) as [r Hr]%elem_of_dom by (rewrite <-Hd; by eapply elem_of_dom_2).
    destruct (Hall id r Hr) as (r2 & Hr2 & Hsw & Hforget). simplify_eq.
    destruct Hsw as [->|(_ & reason & ->)]; [|done].
    destruct (protected (row_of r)) eqn:Hp; [done|]. pose proof (Hforget eq_refl (or_intror Hov)) as Hf.
    apply protected_row in Hp as [Hf' _]. congruence.
Qed.
End memory.

(** ** The theorem at the sample session, detached long ago *)

Definition sample_policy : StoreRetentionPolicy :=
  {| detached_ttl_ms := Some 1000%N; max_retained_sessions := None; max_retained_payload_bytes := None |}.

Lemma sweep_meets_policy_witness :
  ∃ report m', sweep_retention 2 sample_policy 9000 (sample_store sample_detached) = Some (Ok report, m') ∧
    (∃ r, m' !! session_id = Some r ∧ sr_forgotten r = true) ∧ rep_remaining_sessions report = N.of_nat (live_count m').
Proof.
  destruct (sweep_meets_policy sample_policy 9000 (sample_store sample_detached) 2)
    as (report & m' & Hrun & _ & _ & _ & _ & _ & _ & Hall & _ & Hrem & _).
  - reflexivity.
  - unfold sample_store. intros id r Hl. apply lookup_singleton_Some in Hl as [<- <-].
    split_and!; [reflexivity|apply sample_detached_Good|by vm_compute|intros _; by vm_compute].
  - vm_compute. lia.
  - exists report, m'. split; [done|]. split; [|done].
    destruct (Hall session_id sample_detached) as (r' & Hr' & _ & Hexp); [reflexivity|].
    exists r'. split; [done|]. apply Hexp; vm_compute; reflexivity.
Defined.
