(* ===== verification/SessionViews.v ===== *)
(** * Session views: snapshots, events and the reducer

    [crates/whale-protocol/src/session_views.rs]: the read model of a live session,
    the events that change it, and [SessionSnapshot::apply], which the daemon and
    its clients both run. The validators and the replay contract
    ([SubscribeSessionResult::validate_for]) are in this file too. *)

From stdpp Require Import pretty.
From S2P Require Import Prelude Protocol StoreState.

Definition MAX_SESSION_REPLAY_PAGE_LIMIT : N := 256.
Definition MAX_SESSION_HISTORY_LIMIT : N := 1024.

(** ** Data *)

Record SessionCursor := { cur_thread_id : string; cur_stream_id : string; cur_seq : N }.
#[export] Instance SessionCursor_eq_dec : EqDecision SessionCursor.
Proof. solve_decision. Defined.

Record SessionSummary := {
  ss_thread_id : string;
  ss_agent_name : option string;
  ss_metadata : Map;
  ss_created_at_ms : N;
  ss_updated_at_ms : N;
  ss_revision : N;
}.

Record InProgressItemProjection := {
  ip_item_id : string;
  ip_item_type : string;
  ip_phase : option MessagePhase;
  ip_text : string;
  ip_call_id : option string;
  ip_raw_arguments : string;
  ip_reasoning_signature : option string;
}.

Record SessionRunView := {
  rv_snapshot : RunSnapshot;
  rv_in_progress_items : list InProgressItemProjection;
  rv_accepted_at_ms : N;
  rv_updated_at_ms : N;
}.

Record SessionRunSummary := {
  rsum_turn_id : string;
  rsum_status : RunStatus;
  rsum_usage : UsageMetrics;
  rsum_error : option RunFailure;
  rsum_accepted_at_ms : N;
  rsum_completed_at_ms : N;
}.

Record SessionHistoryWindow := {
  hw_items : list CanonicalItem;
  hw_start_index : N;
  hw_total_items : N;
  hw_capacity : N;
}.

Record SessionSnapshot := {
  sv_summary : SessionSummary;
  sv_history : SessionHistoryWindow;
  sv_active_run : option SessionRunView;
  sv_last_run : option SessionRunSummary;
  sv_cursor : SessionCursor;
}.

Inductive SessionEventPayload :=
  | PayloadRunChanged (run : SessionRunView)
  | PayloadRunEvent (event : RunEvent).

Record SessionEventEnvelope := {
  env_thread_id : string;
  env_cursor : SessionCursor;
  env_occurred_at_ms : N;
  env_payload : SessionEventPayload;
}.

Inductive SessionProjectionError :=
  | InvalidState (message : string)
  | StreamMismatch (expected_thread expected_stream actual_thread actual_stream : string)
  | SequenceGap (expected actual : SessionCursor).

(** [Display] of [SessionProjectionError] *)
Definition projection_error_text (e : SessionProjectionError) : string :=
  match e with
  | InvalidState message => "invalid Session projection: " +:+ message
  | StreamMismatch et es at_ as_ =>
      "Session projection stream mismatch: expected " +:+ et +:+ "/" +:+ es +:+ ", got " +:+ at_ +:+ "/" +:+ as_
  | SequenceGap e a =>
      "Session projection sequence gap: expected " +:+ cur_thread_id e +:+ "/" +:+ cur_stream_id e +:+ "/"
        +:+ pretty (cur_seq e) +:+ ", got " +:+ cur_thread_id a +:+ "/" +:+ cur_stream_id a +:+ "/"
        +:+ pretty (cur_seq a)
  end.

(** ** Identities and cursors *)

Definition validate_identity (value label : string) : result string () :=
  reject_if (padded_or_blank value) (label +:+ " must be nonempty and unpadded").
Definition validate_optional_identity (value : option string) (label : string) : result string () :=
  match value with Some value => validate_identity value label | None => Ok () end.
Definition validate_history_capacity (capacity : N) : result string () :=
  reject_if ((capacity =? 0)%N || (MAX_SESSION_HISTORY_LIMIT <? capacity)%N)
    ("Session history limit must be between 1 and " +:+ pretty MAX_SESSION_HISTORY_LIMIT).

Definition SessionCursor_validate (self : SessionCursor) : result string () :=
  validate_identity (cur_thread_id self) "thread_id";;
  validate_identity (cur_stream_id self) "stream_id".

Definition checked_next (self : SessionCursor) : result string SessionCursor :=
  SessionCursor_validate self;;
  seq ← ok_or (checked_add (cur_seq self) 1) "Session cursor sequence is exhausted";
  Ok {| cur_thread_id := cur_thread_id self; cur_stream_id := cur_stream_id self; cur_seq := seq |}.

Definition same_stream (self other : SessionCursor) : bool :=
  (cur_thread_id self == cur_thread_id other) && (cur_stream_id self == cur_stream_id other).

(** ** Constructors *)

Definition SessionSummary_new (thread_id : string) (created_at_ms : N) : SessionSummary :=
  {| ss_thread_id := thread_id; ss_agent_name := None; ss_metadata := ∅;
     ss_created_at_ms := created_at_ms; ss_updated_at_ms := created_at_ms; ss_revision := 0 |}.
Definition InProgressItemProjection_new (item_id item_type : string) : InProgressItemProjection :=
  {| ip_item_id := item_id; ip_item_type := item_type; ip_phase := None; ip_text := "";
     ip_call_id := None; ip_raw_arguments := ""; ip_reasoning_signature := None |}.
Definition SessionRunView_new (snapshot : RunSnapshot) (accepted_at_ms : N) : SessionRunView :=
  {| rv_snapshot := snapshot; rv_in_progress_items := []; rv_accepted_at_ms := accepted_at_ms;
     rv_updated_at_ms := accepted_at_ms |}.
Definition SessionRunSummary_new (turn_id : string) (status : RunStatus) (usage : UsageMetrics)
    (accepted_at_ms completed_at_ms : N) : SessionRunSummary :=
  {| rsum_turn_id := turn_id; rsum_status := status; rsum_usage := usage; rsum_error := None;
     rsum_accepted_at_ms := accepted_at_ms; rsum_completed_at_ms := completed_at_ms |}.
Definition SessionSnapshot_new (summary : SessionSummary) (history : SessionHistoryWindow)
    (cursor : SessionCursor) : SessionSnapshot :=
  {| sv_summary := summary; sv_history := history; sv_active_run := None; sv_last_run := None;
     sv_cursor := cursor |}.

(** ** Validators *)

Definition SessionSummary_validate (self : SessionSummary) : result string () :=
  validate_identity (ss_thread_id self) "thread_id";;
  reject_if (is_some_and (ss_agent_name self) padded_or_blank)
    "agent_name must be nonempty and unpadded when present";;
  reject_if (ss_updated_at_ms self <? ss_created_at_ms self)%N "updated_at_ms must not precede created_at_ms".

Definition InProgressItemProjection_validate (self : InProgressItemProjection) : result string () :=
  validate_identity (ip_item_id self) "item_id";;
  validate_identity (ip_item_type self) "item_type";;
  validate_optional_identity (ip_call_id self) "call_id";;
  validate_optional_identity (ip_reasoning_signature self) "reasoning_signature".

(** The loop over identities of a list, each validated and inserted into a set. *)
Definition check_unique {A} (validate : A → result string ()) (id : A → string) (message : string)
    (seen : gset string) (a : A) : result string (gset string) :=
  validate a;;
  reject_if (bool_decide (id a ∈ seen)) message;;
  Ok ({[id a]} ∪ seen).

Definition SessionRunView_validate (self : SessionRunView) : result string () :=
  validate_identity (snap_thread_id (rv_snapshot self)) "run thread_id";;
  validate_identity (snap_turn_id (rv_snapshot self)) "turn_id";;
  reject_if (is_terminal (snap_status (rv_snapshot self))) "An active Session Run view must not be terminal";;
  reject_if (rv_updated_at_ms self <? rv_accepted_at_ms self)%N "Run updated_at_ms must not precede accepted_at_ms";;
  fold_res (check_unique InProgressItemProjection_validate ip_item_id
              "In-progress item identities must be unique") ∅ (rv_in_progress_items self);;
  Ok ().

Definition SessionRunSummary_validate (self : SessionRunSummary) : result string () :=
  validate_identity (rsum_turn_id self) "turn_id";;
  reject_if (negb (is_terminal (rsum_status self))) "A Session Run summary must be terminal";;
  reject_if (rsum_completed_at_ms self <? rsum_accepted_at_ms self)%N
    "completed_at_ms must not precede accepted_at_ms".

Definition validate_item_identity (item : CanonicalItem) : result string () :=
  validate_identity (item_id item) "history item_id".

Definition SessionHistoryWindow_validate (self : SessionHistoryWindow) : result string () :=
  validate_history_capacity (hw_capacity self);;
  let item_count := N.of_nat (length (hw_items self)) in
  let expected_count := N.min (hw_total_items self) (hw_capacity self) in
  reject_if ((item_count != expected_count) ||
             is_none_or (checked_add (hw_start_index self) item_count) (λ e, e != hw_total_items self))
    "History window indexes and capacity are inconsistent";;
  fold_res (check_unique validate_item_identity item_id
              "History window item identities must be unique") ∅ (hw_items self);;
  Ok ().

Definition SessionSnapshot_validate (self : SessionSnapshot) : result string () :=
  SessionSummary_validate (sv_summary self);;
  SessionCursor_validate (sv_cursor self);;
  reject_if (ss_thread_id (sv_summary self) != cur_thread_id (sv_cursor self))
    "Session snapshot cursor belongs to another thread";;
  reject_if (ss_revision (sv_summary self) != cur_seq (sv_cursor self))
    "Session revision and cursor sequence must match";;
  SessionHistoryWindow_validate (sv_history self);;
  match sv_active_run self with
  | Some run =>
      SessionRunView_validate run;;
      reject_if (snap_thread_id (rv_snapshot run) != ss_thread_id (sv_summary self))
        "Active Run belongs to another thread"
  | None => Ok ()
  end;;
  match sv_last_run self with Some run => SessionRunSummary_validate run | None => Ok () end.

Definition SessionEventEnvelope_validate (self : SessionEventEnvelope) : result string () :=
  validate_identity (env_thread_id self) "thread_id";;
  SessionCursor_validate (env_cursor self);;
  reject_if (cur_thread_id (env_cursor self) != env_thread_id self)
    "Session event cursor belongs to another thread";;
  reject_if (cur_seq (env_cursor self) =? 0)%N "Session event sequence must be positive";;
  match env_payload self with
  | PayloadRunChanged run =>
      SessionRunView_validate run;;
      reject_if (snap_thread_id (rv_snapshot run) != env_thread_id self) "Changed Run belongs to another thread"
  | PayloadRunEvent event =>
      validate_identity (re_turn_id event) "turn_id";;
      reject_if ((re_thread_id event != env_thread_id self) || (re_seq event =? 0)%N)
        "Run event belongs to another thread"
  end.

(** ** The history window *)

Definition history_window_new (capacity : N) : result string SessionHistoryWindow :=
  validate_history_capacity capacity;;
  Ok {| hw_items := []; hw_start_index := 0; hw_total_items := 0; hw_capacity := capacity |}.

(** [from_history]; a length fits into [u64]. *)
Definition from_history (history : list CanonicalItem) (capacity : N) : result string SessionHistoryWindow :=
  validate_history_capacity capacity;;
  fold_res (check_unique validate_item_identity item_id
              "Canonical history item identities must be unique") ∅ history;;
  let keep := min (length history) (N.to_nat capacity) in
  let start := length history - keep in
  Ok {| hw_items := drop start history; hw_start_index := N.of_nat start;
        hw_total_items := N.of_nat (length history); hw_capacity := capacity |}.

Definition append_unless_known (self : SessionHistoryWindow) (item : CanonicalItem) (already_known : bool) :
    result string (SessionHistoryWindow * bool) :=
  if already_known || existsb (λ old, item_id old == item_id item) (hw_items self) then Ok (self, false)
  else
    validate_item_identity item;;
    total ← ok_or (checked_add (hw_total_items self) 1) "Canonical history item count is exhausted";
    let items := hw_items self ++ [item] in
    let capacity := N.to_nat (hw_capacity self) in
    let items := if bool_decide (capacity < length items) then drop (length items - capacity) items else items in
    start ← ok_or (checked_sub total (N.of_nat (length items))) "History window indexes underflowed";
    Ok ({| hw_items := items; hw_start_index := start; hw_total_items := total;
           hw_capacity := hw_capacity self |}, true).

(** ** Field updates *)

Definition set_last_seq (v : N) (s : RunSnapshot) : RunSnapshot := ltac:(update_field snap_eta snap_last_seq v s).
Definition set_tool_executions (v : list ToolExecutionRecord) (s : RunSnapshot) : RunSnapshot :=
  ltac:(update_field snap_eta snap_tool_executions v s).
Definition set_pending_approvals (v : list PendingApproval) (s : RunSnapshot) : RunSnapshot :=
  ltac:(update_field snap_eta snap_pending_approvals v s).

Definition rv_eta (v : SessionRunView) : SessionRunView :=
  {| rv_snapshot := rv_snapshot v; rv_in_progress_items := rv_in_progress_items v;
     rv_accepted_at_ms := rv_accepted_at_ms v; rv_updated_at_ms := rv_updated_at_ms v |}.
Definition set_view_snapshot (v : RunSnapshot) (r : SessionRunView) : SessionRunView :=
  ltac:(update_field rv_eta rv_snapshot v r).
Definition set_drafts (v : list InProgressItemProjection) (r : SessionRunView) : SessionRunView :=
  ltac:(update_field rv_eta rv_in_progress_items v r).
Definition set_view_updated (v : N) (r : SessionRunView) : SessionRunView :=
  ltac:(update_field rv_eta rv_updated_at_ms v r).

Definition ip_eta (d : InProgressItemProjection) : InProgressItemProjection :=
  {| ip_item_id := ip_item_id d; ip_item_type := ip_item_type d; ip_phase := ip_phase d; ip_text := ip_text d;
     ip_call_id := ip_call_id d; ip_raw_arguments := ip_raw_arguments d;
     ip_reasoning_signature := ip_reasoning_signature d |}.
Definition set_phase (v : option MessagePhase) (d : InProgressItemProjection) : InProgressItemProjection :=
  ltac:(update_field ip_eta ip_phase v d).
Definition set_text (v : string) (d : InProgressItemProjection) : InProgressItemProjection :=
  ltac:(update_field ip_eta ip_text v d).
Definition set_call_id (v : option string) (d : InProgressItemProjection) : InProgressItemProjection :=
  ltac:(update_field ip_eta ip_call_id v d).
Definition set_raw_arguments (v : string) (d : InProgressItemProjection) : InProgressItemProjection :=
  ltac:(update_field ip_eta ip_raw_arguments v d).
Definition set_signature (v : option string) (d : InProgressItemProjection) : InProgressItemProjection :=
  ltac:(update_field ip_eta ip_reasoning_signature v d).

(** ** The reducer *)

Definition stream_turn_id (event : AgentStreamEvent) : string :=
  match event with
  | EvToolProgress turn_id _ _ _ | EvToolExecutionStarted turn_id _ _ _ | EvTurnStarted turn_id _
  | EvItemStarted turn_id _ _ _ | EvTextDelta turn_id _ _ | EvReasoningDelta turn_id _ _
  | EvReasoningSignature turn_id _ _ | EvToolCallDelta turn_id _ _ _ | EvItemCompleted turn_id _
  | EvApprovalRequested turn_id _ _ _ | EvTurnCompleted turn_id _ _ | EvTurnFailed turn_id _ _ _ => turn_id
  end.

(** [draft_mut(run, item_id)?] and an update of the draft *)
Definition update_draft (item_id : string) (f : InProgressItemProjection → InProgressItemProjection)
    (run : SessionRunView) : result string SessionRunView :=
  reject_if (negb (existsb (λ d, ip_item_id d == item_id) (rv_in_progress_items run)))
    ("No in-progress projection exists for item " +:+ item_id);;
  Ok (set_drafts (update_first (λ d, ip_item_id d == item_id) f (rv_in_progress_items run)) run).

Definition append_canonical_once (history : list CanonicalItem) (item : CanonicalItem) : list CanonicalItem :=
  if existsb (λ old, item_id old == item_id item) history then history else history ++ [item].

(** The arm of [ToolExecutionStarted]. *)
Definition record_execution (call_id : string) (original_arguments arguments : Value)
    (executions : list ToolExecutionRecord) : list ToolExecutionRecord :=
  let record := {| exec_call_id := call_id; exec_original_arguments := original_arguments;
                   exec_arguments := arguments |} in
  if existsb (λ r, exec_call_id r == call_id) executions
  then update_first (λ r, exec_call_id r == call_id) (λ r, {| exec_call_id := exec_call_id r;
         exec_original_arguments := original_arguments; exec_arguments := arguments |}) executions
  else executions ++ [record].

(** The arm of [ApprovalRequested]. *)
Definition record_approval (approval : PendingApproval) (pending : list PendingApproval) : list PendingApproval :=
  if existsb (λ a, pa_request_id a == pa_request_id approval) pending then pending
  else pending ++ [approval].

(** The [match] of [apply_stream_event] on the history and the active run. *)
Definition apply_stream (thread_id : string) (history : SessionHistoryWindow) (run : SessionRunView)
    (stream : AgentStreamEvent) : result string (SessionHistoryWindow * SessionRunView) :=
  let snap := rv_snapshot run in
  match stream with
  | EvToolProgress _ _ _ _ | EvTurnCompleted _ _ _ | EvTurnFailed _ _ _ _ => Ok (history, run)
  | EvToolExecutionStarted _ call_id original_arguments arguments =>
      Ok (history, set_view_snapshot (set_tool_executions
            (record_execution call_id original_arguments arguments (snap_tool_executions snap)) snap) run)
  | EvTurnStarted _ thread =>
      reject_if (thread != thread_id) "Turn start belongs to another thread";;
      Ok (history, set_view_snapshot (set_status RunRunning snap) run)
  | EvItemStarted _ id item_type phase =>
      Ok (history,
          if existsb (λ item, item_id item == id) (hw_items history) ||
             existsb (λ d, ip_item_id d == id) (rv_in_progress_items run) then run
          else set_drafts (rv_in_progress_items run
                             ++ [set_phase phase (InProgressItemProjection_new id item_type)]) run)
  | EvTextDelta _ id delta | EvReasoningDelta _ id delta =>
      run ← update_draft id (λ d, set_text (ip_text d +:+ delta) d) run;
      Ok (history, run)
  | EvReasoningSignature _ id signature =>
      run ← update_draft id (set_signature (Some signature)) run;
      Ok (history, run)
  | EvToolCallDelta _ id call_id delta =>
      run ← update_draft id (λ d, set_raw_arguments (ip_raw_arguments d +:+ delta) (set_call_id (Some call_id) d)) run;
      Ok (history, run)
  | EvItemCompleted _ item =>
      let run := set_drafts (List.filter (λ d, ip_item_id d != item_id item) (rv_in_progress_items run)) run in
      let already_known := existsb (λ old, item_id old == item_id item) (snap_items snap) in
      let run := set_view_snapshot (set_items (append_canonical_once (snap_items snap) item) snap) run in
      '(history, _) ← append_unless_known history item already_known;
      Ok (history, run)
  | EvApprovalRequested _ request_id tool_call reason =>
      Ok (history, set_view_snapshot (set_pending_approvals
            (record_approval {| pa_request_id := request_id; pa_tool_call := tool_call; pa_reason := reason |}
               (snap_pending_approvals snap)) (set_status RunWaitingApproval snap)) run)
  end.

Definition with_projection (history : SessionHistoryWindow) (active : option SessionRunView)
    (last_run : option SessionRunSummary) (s : SessionSnapshot) : SessionSnapshot :=
  {| sv_summary := sv_summary s; sv_history := history; sv_active_run := active; sv_last_run := last_run;
     sv_cursor := sv_cursor s |}.

Definition apply_stream_event (self : SessionSnapshot) (event : RunEvent) (stream : AgentStreamEvent)
    (occurred_at_ms : N) : result string SessionSnapshot :=
  run ← ok_or (sv_active_run self) "Run event has no active Run projection";
  reject_if (snap_turn_id (rv_snapshot run) != re_turn_id event) "Run event belongs to another active Run";;
  reject_if (stream_turn_id stream != re_turn_id event) "Stream event belongs to another Run";;
  let run := set_view_updated (N.max (rv_updated_at_ms run) occurred_at_ms)
               (set_view_snapshot (set_last_seq (N.max (snap_last_seq (rv_snapshot run)) (re_seq event))
                                     (rv_snapshot run)) run) in
  '(history, run) ← apply_stream (ss_thread_id (sv_summary self)) (sv_history self) run stream;
  Ok (with_projection history (Some run) (sv_last_run self) self).

(** The loop over the items of a terminal snapshot. *)
Definition append_final (known : list string) (history : SessionHistoryWindow) (item : CanonicalItem) :
    result string SessionHistoryWindow :=
  '(history, _) ← append_unless_known history item (bool_decide (item_id item ∈ known));
  Ok history.

Definition apply_finished (self : SessionSnapshot) (event : RunEvent) (snap : RunSnapshot) (occurred_at_ms : N) :
    result string SessionSnapshot :=
  reject_if (negb (is_terminal (snap_status snap)) || (snap_thread_id snap != ss_thread_id (sv_summary self)) ||
             (snap_turn_id snap != re_turn_id event) || (snap_last_seq snap != re_seq event))
    "Invalid terminal Run event in Session projection";;
  active ← ok_or (sv_active_run self) "Terminal Run event has no matching active Run projection";
  reject_if (snap_turn_id (rv_snapshot active) != re_turn_id event) "Terminal Run event belongs to another active Run";;
  history ← fold_res (append_final (item_id <$> snap_items (rv_snapshot active))) (sv_history self) (snap_items snap);
  let summary := {| rsum_turn_id := re_turn_id event; rsum_status := snap_status snap; rsum_usage := snap_usage snap;
                    rsum_error := snap_error snap; rsum_accepted_at_ms := rv_accepted_at_ms active;
                    rsum_completed_at_ms := N.max occurred_at_ms (rv_accepted_at_ms active) |} in
  Ok (with_projection history None (Some summary) self).

Definition apply_payload (self : SessionSnapshot) (envelope : SessionEventEnvelope) : result string SessionSnapshot :=
  match env_payload envelope with
  | PayloadRunChanged run => Ok (with_projection (sv_history self) (Some run) (sv_last_run self) self)
  | PayloadRunEvent event =>
      match re_payload event with
      | RunStream stream => apply_stream_event self event stream (env_occurred_at_ms envelope)
      | RunFinished snapshot => apply_finished self event snapshot (env_occurred_at_ms envelope)
      end
  end.

(** The stamp of an applied event. *)
Definition stamp (envelope : SessionEventEnvelope) (s : SessionSnapshot) : SessionSnapshot :=
  {| sv_summary := {| ss_thread_id := ss_thread_id (sv_summary s); ss_agent_name := ss_agent_name (sv_summary s);
                      ss_metadata := ss_metadata (sv_summary s); ss_created_at_ms := ss_created_at_ms (sv_summary s);
                      ss_updated_at_ms := N.max (ss_updated_at_ms (sv_summary s)) (env_occurred_at_ms envelope);
                      ss_revision := cur_seq (env_cursor envelope) |};
     sv_history := sv_history s; sv_active_run := sv_active_run s; sv_last_run := sv_last_run s;
     sv_cursor := env_cursor envelope |}.

(** [SessionSnapshot::apply]: the snapshot after it and whether it changed; an error
    leaves the snapshot as it was. *)
Definition apply (self : SessionSnapshot) (envelope : SessionEventEnvelope) :
    result SessionProjectionError (SessionSnapshot * bool) :=
  map_err InvalidState (SessionSnapshot_validate self);;
  map_err InvalidState (SessionEventEnvelope_validate envelope);;
  reject_if ((env_thread_id envelope != ss_thread_id (sv_summary self)) ||
             (cur_stream_id (env_cursor envelope) != cur_stream_id (sv_cursor self)))
    (StreamMismatch (ss_thread_id (sv_summary self)) (cur_stream_id (sv_cursor self))
       (env_thread_id envelope) (cur_stream_id (env_cursor envelope)));;
  if (cur_seq (env_cursor envelope) <=? cur_seq (sv_cursor self))%N then Ok (self, false) else
  expected ← map_err InvalidState (checked_next (sv_cursor self));
  reject_if (env_cursor envelope != expected) (SequenceGap expected (env_cursor envelope));;
  next ← map_err InvalidState (apply_payload self envelope);
  let next := stamp envelope next in
  map_err InvalidState (SessionSnapshot_validate next);;
  Ok (next, true).

(** ** The replay contract *)

Record GetSessionParams := { get_thread_id : string; get_history_limit : N }.
Definition GetSessionParams_validate (self : GetSessionParams) : result string () :=
  validate_identity (get_thread_id self) "thread_id";;
  validate_history_capacity (get_history_limit self).

Record SubscribeSessionParams := {
  sub_thread_id : string;
  sub_after : SessionCursor;
  sub_through : option SessionCursor;
  sub_limit : N;
}.

Definition SubscribeSessionParams_validate (self : SubscribeSessionParams) : result string () :=
  validate_identity (sub_thread_id self) "thread_id";;
  SessionCursor_validate (sub_after self);;
  reject_if (cur_thread_id (sub_after self) != sub_thread_id self) "Replay cursor belongs to another thread";;
  match sub_through self with
  | Some through =>
      SessionCursor_validate through;;
      reject_if (negb (same_stream (sub_after self) through)) "Replay window cursors belong to different streams";;
      reject_if (cur_seq through <? cur_seq (sub_after self))%N "Replay cursor is ahead of the fixed replay window"
  | None => Ok ()
  end;;
  reject_if ((sub_limit self =? 0)%N || (MAX_SESSION_REPLAY_PAGE_LIMIT <? sub_limit self)%N)
    ("Replay page limit must be between 1 and " +:+ pretty MAX_SESSION_REPLAY_PAGE_LIMIT).

Inductive ReplayGapReason := GapRetention | GapStreamReset.

Record ReplayGap := {
  gap_reason : ReplayGapReason;
  gap_requested : SessionCursor;
  gap_replay_floor : SessionCursor;
  gap_current : SessionCursor;
  gap_session_revision : N;
}.

Definition ReplayGap_validate (self : ReplayGap) : result string () :=
  SessionCursor_validate (gap_requested self);;
  SessionCursor_validate (gap_replay_floor self);;
  SessionCursor_validate (gap_current self);;
  reject_if (cur_thread_id (gap_requested self) != cur_thread_id (gap_current self))
    "Replay gap cursors belong to different threads";;
  reject_if (negb (same_stream (gap_replay_floor self) (gap_current self)) ||
             (cur_seq (gap_current self) <? cur_seq (gap_replay_floor self))%N)
    "Replay floor is outside the current stream";;
  match gap_reason self with
  | GapRetention =>
      reject_if (negb (same_stream (gap_requested self) (gap_current self)) ||
                 (cur_seq (gap_replay_floor self) <=? cur_seq (gap_requested self))%N)
        "Retention gap requires a cursor below the replay floor"
  | GapStreamReset =>
      reject_if (cur_stream_id (gap_requested self) == cur_stream_id (gap_current self))
        "Stream reset requires a different stream identity"
  end.

Record SubscribeSessionResult := {
  page_events : list SessionEventEnvelope;
  page_resume_after : SessionCursor;
  page_through : SessionCursor;
  page_has_more : bool;
  page_gap : option ReplayGap;
}.

(** The fixed high watermark of a retention gap. *)
Definition validate_gap_through (self : SubscribeSessionResult) (params : SubscribeSessionParams) (gap : ReplayGap) :
    result string () :=
  match gap_reason gap with
  | GapRetention =>
      match sub_through params with
      | Some through => reject_if (page_through self != through) "Replay response changed the fixed high watermark"
      | None => reject_if (page_through self != gap_current gap)
                  "Initial replay response did not freeze the current cursor"
      end
  | GapStreamReset => reject_if (page_through self != gap_current gap)
                        "Stream-reset response must expose the new current cursor"
  end.

(** One turn of the loop over the events of a page. *)
Definition check_page_event (through : SessionCursor) (expected : SessionCursor) (event : SessionEventEnvelope) :
    result string SessionCursor :=
  SessionEventEnvelope_validate event;;
  expected ← checked_next expected;
  reject_if ((env_cursor event != expected) || (cur_seq through <? cur_seq (env_cursor event))%N)
    "Replay events must be contiguous and in Session cursor order";;
  Ok expected.

Definition validate_page (self : SubscribeSessionResult) (params : SubscribeSessionParams) : result string () :=
  match sub_through params with
  | Some through => reject_if (page_through self != through) "Replay response changed the fixed high watermark"
  | None => Ok ()
  end;;
  reject_if (negb (same_stream (sub_after params) (page_through self))) "A changed stream requires a stream_reset gap";;
  reject_if (cur_seq (page_through self) <? cur_seq (sub_after params))%N
    "Replay cursor is ahead of the fixed high watermark";;
  reject_if (negb (same_stream (page_resume_after self) (page_through self)))
    "Replay resume cursor belongs to another stream";;
  reject_if (sub_limit params <? N.of_nat (length (page_events self)))%N "Replay page exceeds the requested limit";;
  expected ← fold_res (check_page_event (page_through self)) (sub_after params) (page_events self);
  reject_if (page_resume_after self != expected) "Replay resume cursor must identify the last returned event";;
  reject_if (negb (Bool.eqb (page_has_more self) (cur_seq (page_resume_after self) <? cur_seq (page_through self))%N))
    "Replay has_more does not match the high watermark".

(** [SubscribeSessionResult::validate_for] *)
Definition validate_for (self : SubscribeSessionResult) (params : SubscribeSessionParams) : result string () :=
  SubscribeSessionParams_validate params;;
  SessionCursor_validate (page_resume_after self);;
  SessionCursor_validate (page_through self);;
  reject_if ((cur_thread_id (page_resume_after self) != sub_thread_id params) ||
             (cur_thread_id (page_through self) != sub_thread_id params))
    "Replay result belongs to another thread";;
  match page_gap self with
  | Some gap =>
      ReplayGap_validate gap;;
      reject_if (gap_requested gap != sub_after params) "Replay gap does not match the requested cursor";;
      validate_gap_through self params gap;;
      reject_if (negb (bool_decide (page_events self = [])) || page_has_more self ||
                 (page_resume_after self != sub_after params))
        "A replay gap cannot contain an applicable event page"
  | None => validate_page self params
  end.
