(* ===== verification/ViewJournal.v ===== *)
(** * The daemon's session views: publication and bounded replay

    [crates/whale-daemon/src/session_views.rs]: the authoritative projection of each
    live session with the journal of its last events. A change is prepared on a copy
    and installed when the record still is where it was prepared from; the lane lock
    of [session_management.rs] makes the pair one step. Notifiers are I/O: what they
    are given is the returned envelope. [Arc]s of records are addresses of a heap,
    because a prepared change keeps its record while the registry may drop it. *)

From S2P Require Import Prelude Protocol StoreState SessionViews.

Record EventJournalLimits := { max_events : nat; max_bytes : nat }.

(** [EventJournalLimits::new]: [None] is the panic of its assertions. *)
Definition EventJournalLimits_new (events bytes : nat) : option EventJournalLimits :=
  if bool_decide (0 < events) && bool_decide (0 < bytes)
  then Some {| max_events := events; max_bytes := bytes |} else None.
Definition default_limits : EventJournalLimits :=
  {| max_events := 1024; max_bytes := 4 * 1024 * 1024 |}.

Record JournalEntry := {
  je_envelope : SessionEventEnvelope;
  je_bytes : nat;
  je_run_id : option string;
}.

(** What a prepared change replaces. *)
Record PreparedSessionViewState := {
  pv_snapshot : SessionSnapshot;
  pv_journal : list JournalEntry;
  pv_journal_bytes : nat;
  pv_replay_floor : SessionCursor;
  pv_run_identities : gmap string nat;
}.

Record SessionViewRecord := {
  vr_owner : string;
  vr_limits : EventJournalLimits;
  vr_state : PreparedSessionViewState;
}.

Definition vr_snapshot (r : SessionViewRecord) : SessionSnapshot := pv_snapshot (vr_state r).
Definition vr_cursor (r : SessionViewRecord) : SessionCursor := sv_cursor (vr_snapshot r).
Definition vr_floor (r : SessionViewRecord) : SessionCursor := pv_replay_floor (vr_state r).
Definition vr_journal (r : SessionViewRecord) : list JournalEntry := pv_journal (vr_state r).

(** [install] of both kinds of prepared change *)
Definition install (next : PreparedSessionViewState) (record : SessionViewRecord) : SessionViewRecord :=
  {| vr_owner := vr_owner record; vr_limits := vr_limits record; vr_state := next |}.

(** [SessionViewRecord::with_owner] *)
Definition with_owner (owner : string) (summary : SessionSummary) (history : SessionHistoryWindow)
    (stream_id : string) (limits : EventJournalLimits) : result string SessionViewRecord :=
  let cursor := {| cur_thread_id := ss_thread_id summary; cur_stream_id := stream_id; cur_seq := 0 |} in
  let snapshot := SessionSnapshot_new summary history cursor in
  SessionSnapshot_validate snapshot;;
  Ok {| vr_owner := owner; vr_limits := limits;
        vr_state := {| pv_snapshot := snapshot; pv_journal := []; pv_journal_bytes := 0;
                       pv_replay_floor := cursor; pv_run_identities := ∅ |} |}.

(** The loop of [retain_prepared] that evicts from the front; [expect] never fails,
    because an empty journal has no bytes. *)
Fixpoint evict (limits : EventJournalLimits) (journal : list JournalEntry) (bytes : nat) (floor : SessionCursor) :
    list JournalEntry * nat * SessionCursor :=
  match journal with
  | [] => ([], bytes, floor)
  | e :: rest =>
      if bool_decide (max_events limits < length journal) || bool_decide (max_bytes limits < bytes)
      then evict limits rest (bytes - je_bytes e) (env_cursor (je_envelope e))
      else (journal, bytes, floor)
  end.

Definition retain_prepared (limits : EventJournalLimits) (envelope : SessionEventEnvelope) (bytes : nat)
    (run_id : option string) (s : PreparedSessionViewState) : PreparedSessionViewState :=
  let '(journal, total, floor) :=
    if bool_decide (max_bytes limits < bytes) then ([], 0, env_cursor envelope)
    else evict limits (pv_journal s ++ [{| je_envelope := envelope; je_bytes := bytes; je_run_id := run_id |}])
           (pv_journal_bytes s + bytes) (pv_replay_floor s) in
  {| pv_snapshot := pv_snapshot s; pv_journal := journal; pv_journal_bytes := total;
     pv_replay_floor := floor; pv_run_identities := pv_run_identities s |}.

(** [max()] over the sequence numbers of a run's events *)
Definition last_of_run (turn_id : string) (journal : list JournalEntry) : option N :=
  foldl (λ acc e, if je_run_id e == Some turn_id
                  then Some (N.max (default 0%N acc) (cur_seq (env_cursor (je_envelope e)))) else acc)
    None journal.

Fixpoint pop_through (through : N) (journal : list JournalEntry) (bytes : nat) : list JournalEntry * nat :=
  match journal with
  | [] => ([], bytes)
  | e :: rest =>
      if (cur_seq (env_cursor (je_envelope e)) <=? through)%N then pop_through through rest (bytes - je_bytes e)
      else (journal, bytes)
  end.

Definition raise_floor (through : N) (floor : SessionCursor) : SessionCursor :=
  {| cur_thread_id := cur_thread_id floor; cur_stream_id := cur_stream_id floor;
     cur_seq := N.max (cur_seq floor) through |}.

(** [scrub_run] *)
Definition scrub_run (turn_id : string) (s : PreparedSessionViewState) : PreparedSessionViewState :=
  match last_of_run turn_id (pv_journal s) with
  | None => s
  | Some through =>
      let '(journal, bytes) := pop_through through (pv_journal s) (pv_journal_bytes s) in
      {| pv_snapshot := pv_snapshot s; pv_journal := journal; pv_journal_bytes := bytes;
         pv_replay_floor := raise_floor through (pv_replay_floor s); pv_run_identities := pv_run_identities s |}
  end.

Definition event_turn_id (envelope : SessionEventEnvelope) : option string :=
  match env_payload envelope with
  | PayloadRunChanged run => Some (snap_turn_id (rv_snapshot run))
  | PayloadRunEvent event => Some (re_turn_id event)
  end.

(** [Option::or_else] *)
Definition or_else {A} (o p : option A) : option A := match o with Some a => Some a | None => p end.

(** The length of what [serde_json::to_vec] writes for an envelope. *)
Class ViewExternals := { envelope_json_len : SessionEventEnvelope → result string nat }.

Section views.
Context `{ViewExternals}.

(** [SessionViewRecord::prepare] *)
Definition prepare (self : SessionViewRecord) (occurred_at_ms : N) (payload : SessionEventPayload)
    (run_identity : option (string * nat)) : result string (PreparedSessionViewState * SessionEventEnvelope) :=
  cursor ← checked_next (vr_cursor self);
  let envelope := {| env_thread_id := ss_thread_id (sv_summary (vr_snapshot self)); env_cursor := cursor;
                     env_occurred_at_ms := occurred_at_ms; env_payload := payload |} in
  SessionEventEnvelope_validate envelope;;
  bytes ← map_err (λ e, "Session event serialization failed: " +:+ e) (envelope_json_len envelope);
  let run_id := or_else (event_turn_id envelope)
                  ((λ run, snap_turn_id (rv_snapshot run)) <$> sv_active_run (vr_snapshot self)) in
  '(next, _) ← map_err projection_error_text (SessionViews.apply (vr_snapshot self) envelope);
  let state := retain_prepared (vr_limits self) envelope bytes run_id
                 {| pv_snapshot := next; pv_journal := vr_journal self;
                    pv_journal_bytes := pv_journal_bytes (vr_state self);
                    pv_replay_floor := vr_floor self;
                    pv_run_identities := pv_run_identities (vr_state self) |} in
  Ok ({| pv_snapshot := pv_snapshot state; pv_journal := pv_journal state;
         pv_journal_bytes := pv_journal_bytes state; pv_replay_floor := pv_replay_floor state;
         pv_run_identities := match run_identity with
                              | Some (turn_id, identity) => <[turn_id := identity]> (pv_run_identities state)
                              | None => pv_run_identities state
                              end |}, envelope).

(** [snapshot_with_history_limit]: the history window of a snapshot cut to a limit. *)
Definition limit_window (history_limit : N) (w : SessionHistoryWindow) : SessionHistoryWindow :=
  let keep := min (length (hw_items w)) (N.to_nat history_limit) in
  {| hw_items := drop (length (hw_items w) - keep) (hw_items w);
     hw_start_index := hw_total_items w - N.of_nat keep;
     hw_total_items := hw_total_items w;
     hw_capacity := history_limit |}.

Definition limit_history (history_limit : N) (s : SessionSnapshot) : SessionSnapshot :=
  with_projection (limit_window history_limit (sv_history s)) (sv_active_run s) (sv_last_run s) s.

Definition snapshot_with_history_limit (self : SessionViewRecord) (history_limit : N) : SessionSnapshot :=
  limit_history history_limit (vr_snapshot self).

Definition gap (self : SessionViewRecord) (params : SubscribeSessionParams) (through : SessionCursor)
    (reason : ReplayGapReason) : SubscribeSessionResult :=
  {| page_events := []; page_resume_after := sub_after params; page_through := through; page_has_more := false;
     page_gap := Some {| gap_reason := reason; gap_requested := sub_after params;
                         gap_replay_floor := vr_floor self; gap_current := vr_cursor self;
                         gap_session_revision := ss_revision (sv_summary (vr_snapshot self)) |} |}.

(** The events of a page. *)
Definition page (self : SessionViewRecord) (after through : N) (limit : N) : list SessionEventEnvelope :=
  take (N.to_nat limit)
    (List.filter (λ e, (after <? cur_seq (env_cursor e))%N && (cur_seq (env_cursor e) <=? through)%N)
       (je_envelope <$> vr_journal self)).

(** [SessionViewRecord::replay] *)
Definition replay (self : SessionViewRecord) (params : SubscribeSessionParams) :
    result string SubscribeSessionResult :=
  SubscribeSessionParams_validate params;;
  let current := vr_cursor self in
  let response_through := default current (sub_through params) in
  if cur_stream_id (sub_after params) != cur_stream_id current then Ok (gap self params current GapStreamReset) else
  reject_if (cur_seq current <? cur_seq (sub_after params))%N "Replay cursor is ahead of the current Session cursor";;
  match sub_through params with
  | Some through =>
      if cur_stream_id through != cur_stream_id current then Ok (Some (gap self params current GapStreamReset)) else
      reject_if (cur_seq current <? cur_seq through)%N
        "Fixed replay high watermark is ahead of the current Session cursor";;
      Ok None
  | None => Ok None
  end ≫= λ early,
  match early with
  | Some result => Ok result
  | None =>
      if (cur_seq (sub_after params) <? cur_seq (vr_floor self))%N
      then Ok (gap self params response_through GapRetention)
      else
        let events := page self (cur_seq (sub_after params)) (cur_seq response_through) (sub_limit params) in
        let resume_after := default (sub_after params) (env_cursor <$> last events) in
        Ok {| page_events := events; page_resume_after := resume_after; page_through := response_through;
              page_has_more := (cur_seq resume_after <? cur_seq response_through)%N; page_gap := None |}
  end.

(** ** The registry *)

Record SessionViewRegistry := {
  vg_records : gmap string nat;
  vg_heap : gmap nat SessionViewRecord;
  vg_next : nat;
  vg_limits : EventJournalLimits;
}.

(** A prepared change: the record it was prepared from and what it was then. *)
Record Prepared := {
  pp_record : nat;
  pp_owner : string;
  pp_source : SessionCursor;
  pp_next : PreparedSessionViewState;
}.

Definition source_matches (self : Prepared) (record : SessionViewRecord) : bool :=
  (vr_owner record == pp_owner self) && (vr_cursor record == pp_source self).

(** [insert]; [stream_id] is the new uuid. *)
Definition registry_insert (self : SessionViewRegistry) (owner thread_id : string) (agent_name : option string)
    (metadata : Map) (history : list CanonicalItem) (created_at_ms : N) (stream_id : string) :
    result string SessionViewRegistry :=
  let summary := {| ss_thread_id := thread_id; ss_agent_name := agent_name; ss_metadata := metadata;
                    ss_created_at_ms := created_at_ms; ss_updated_at_ms := created_at_ms; ss_revision := 0 |} in
  history ← from_history history MAX_SESSION_HISTORY_LIMIT;
  record ← with_owner owner summary history stream_id (vg_limits self);
  match vg_records self !! thread_id with
  | Some _ => Err "SessionAlreadyExists"
  | None => Ok {| vg_records := <[thread_id := vg_next self]> (vg_records self);
                  vg_heap := <[vg_next self := record]> (vg_heap self);
                  vg_next := S (vg_next self); vg_limits := vg_limits self |}
  end.

Definition owned (self : SessionViewRegistry) (thread_id owner : string) : result string (nat * SessionViewRecord) :=
  address ← ok_or (vg_records self !! thread_id) "SessionNotFound";
  record ← ok_or (vg_heap self !! address) "SessionNotFound";
  reject_if (vr_owner record != owner) "SessionNotFound";;
  Ok (address, record).

Definition registry_get (self : SessionViewRegistry) (owner : string) (params : GetSessionParams) :
    result string SessionSnapshot :=
  GetSessionParams_validate params;;
  '(_, record) ← owned self (get_thread_id params) owner;
  Ok (snapshot_with_history_limit record (get_history_limit params)).

Definition subscribe (self : SessionViewRegistry) (owner : string) (params : SubscribeSessionParams) :
    result string SubscribeSessionResult :=
  '(_, record) ← owned self (sub_thread_id params) owner;
  replay record params.

Definition prepared_from (address : nat) (record : SessionViewRecord)
    (out : PreparedSessionViewState * SessionEventEnvelope) : Prepared * SessionEventEnvelope :=
  ({| pp_record := address; pp_owner := vr_owner record; pp_source := vr_cursor record; pp_next := out.1 |}, out.2).

Definition prepare_begin_run (self : SessionViewRegistry) (owner : string) (snapshot : RunSnapshot)
    (identity : nat) (occurred_at_ms : N) : result string (Prepared * SessionEventEnvelope) :=
  '(address, record) ← owned self (snap_thread_id snapshot) owner;
  out ← prepare record occurred_at_ms (PayloadRunChanged (SessionRunView_new snapshot occurred_at_ms))
          (Some (snap_turn_id snapshot, identity));
  Ok (prepared_from address record out).

Definition prepare_run_event (self : SessionViewRegistry) (owner : string) (event : RunEvent) (occurred_at_ms : N) :
    result string (Prepared * SessionEventEnvelope) :=
  '(address, record) ← owned self (re_thread_id event) owner;
  out ← prepare record occurred_at_ms (PayloadRunEvent event) None;
  Ok (prepared_from address record out).

Definition prepare_run_changed (self : SessionViewRegistry) (owner : string) (snapshot : RunSnapshot)
    (occurred_at_ms : N) : result string (Prepared * SessionEventEnvelope) :=
  '(address, record) ← owned self (snap_thread_id snapshot) owner;
  active ← ok_or (sv_active_run (vr_snapshot record)) "Session has no active Run projection";
  reject_if (snap_turn_id (rv_snapshot active) != snap_turn_id snapshot) "Session active Run identity changed";;
  let run := set_view_updated (N.max (rv_updated_at_ms active) occurred_at_ms) (set_view_snapshot snapshot active) in
  out ← prepare record occurred_at_ms (PayloadRunChanged run) None;
  Ok (prepared_from address record out).

(** What [prepare_retire_run] makes of a record; [None] when there is nothing to retire. *)
Definition retire_state (record : SessionViewRecord) (turn_id : string) (identity : nat) :
    option PreparedSessionViewState :=
  if (pv_run_identities (vr_state record) !! turn_id != Some identity) ||
     is_some_and (sv_active_run (vr_snapshot record)) (λ run, snap_turn_id (rv_snapshot run) == turn_id)
  then None
  else
    let next := scrub_run turn_id (vr_state record) in
    Some {| pv_snapshot := pv_snapshot next; pv_journal := pv_journal next;
            pv_journal_bytes := pv_journal_bytes next; pv_replay_floor := pv_replay_floor next;
            pv_run_identities := delete turn_id (pv_run_identities next) |}.

Definition prepare_retire_run (self : SessionViewRegistry) (thread_id turn_id : string) (identity : nat) :
    result string (option Prepared) :=
  address ← ok_or (vg_records self !! thread_id) "SessionNotFound";
  record ← ok_or (vg_heap self !! address) "SessionNotFound";
  Ok ((λ next, {| pp_record := address; pp_owner := vr_owner record; pp_source := vr_cursor record;
                  pp_next := next |}) <$> retire_state record turn_id identity).

(** The installation of a prepared change, as [publish_run] and [retire_run] do it:
    [None] when the source has moved. *)
Definition install_prepared (self : SessionViewRegistry) (p : Prepared) : option SessionViewRegistry :=
  match vg_heap self !! pp_record p with
  | Some record =>
      if source_matches p record then
        Some {| vg_records := vg_records self; vg_heap := <[pp_record p := install (pp_next p) record]> (vg_heap self);
                vg_next := vg_next self; vg_limits := vg_limits self |}
      else None
  | None => None
  end.

(** [remove]; the record itself lives on with whoever still holds it. *)
Definition registry_remove (self : SessionViewRegistry) (thread_id owner : string) : SessionViewRegistry :=
  match owned self thread_id owner with
  | Ok _ => {| vg_records := delete thread_id (vg_records self); vg_heap := vg_heap self;
               vg_next := vg_next self; vg_limits := vg_limits self |}
  | Err _ => self
  end.
End views.
