(* ===== verification/ViewLaws.v ===== *)
(** * Laws of the session views

    What one application of the reducer does to the cursor, that the journal of a
    record is a chain of events from the replay floor to the current cursor, and
    that replaying a part of the chain is what a client would have seen live. *)

From S2P Require Import Prelude Protocol StoreState SessionViews ViewJournal.

(** ** Cursors *)

Section cursors.
Implicit Types (c : SessionCursor) (s : SessionSnapshot) (e : SessionEventEnvelope).

Definition same_place c c' : Prop := cur_thread_id c = cur_thread_id c' ∧ cur_stream_id c = cur_stream_id c'.

Lemma same_stream_true c c' : same_stream c c' = true ↔ same_place c c'.
Proof. unfold same_stream, same_place. by rewrite andb_true_iff, !bool_decide_eq_true. Qed.

#[export] Instance same_place_equivalence : Equivalence same_place.
Proof. split; [done|by intros ?? [??]|intros ??? [??] [??]; split; congruence]. Qed.

Lemma cursor_eq c c' : same_place c c' → cur_seq c = cur_seq c' → c = c'.
Proof. destruct c, c'. intros [??] ?. simpl in *. congruence. Qed.

Lemma checked_next_Ok c c' :
  checked_next c = Ok c' ↔
  SessionCursor_validate c = Ok () ∧ same_place c c' ∧ cur_seq c' = (cur_seq c + 1)%N ∧ (cur_seq c' <= u64_max)%N.
Proof.
  unfold checked_next. rewrite bind_Ok. setoid_rewrite bind_Ok. setoid_rewrite ok_or_Ok. split.
  - intros ([] & Hv & n & Hn & [= <-]). apply checked_add_Some in Hn as [-> Hle]. by repeat split.
  - intros (Hv & Hp & Hs & Hle). exists (). split; [done|]. exists (cur_seq c'). rewrite checked_add_Some.
    split; [lia|]. f_equal. by apply cursor_eq; [split; apply Hp|].
Qed.

Lemma cursor_validate_place c c' : same_place c c' → SessionCursor_validate c = SessionCursor_validate c'.
Proof. unfold SessionCursor_validate. by intros [-> ->]. Qed.

(** ** The reducer *)

Lemma apply_payload_summary s e s' :
  apply_payload s e = Ok s' → sv_summary s' = sv_summary s ∧ sv_cursor s' = sv_cursor s.
Proof.
  unfold apply_payload, apply_stream_event, apply_finished. intros Ha.
  destruct (env_payload e) as [run|event]; [by inv_result|].
  destruct (re_payload event); inv_result; done.
Qed.

(** What an event that was applied has done. *)
Record Applied s e s' : Prop := {
  applied_before : SessionSnapshot_validate s = Ok ();
  applied_event : SessionEventEnvelope_validate e = Ok ();
  applied_after : SessionSnapshot_validate s' = Ok ();
  applied_next : checked_next (sv_cursor s) = Ok (env_cursor e);
  applied_cursor : sv_cursor s' = env_cursor e;
  applied_thread : ss_thread_id (sv_summary s') = ss_thread_id (sv_summary s);
}.

Lemma apply_true s e s' : SessionViews.apply s e = Ok (s', true) → Applied s e s'.
Proof.
  unfold SessionViews.apply. intros Ha. inv_result.
  destruct (_ <=? _)%N; [done|]. inv_result. inv_bool. subst.
  match goal with H : apply_payload _ _ = _ |- _ => apply apply_payload_summary in H as [Hs Hc] end.
  repeat match goal with u : () |- _ => destruct u end.
  constructor; simpl; try done; congruence.
Qed.

(** An event that was already seen changes nothing. *)
Lemma apply_false s e s' :
  SessionViews.apply s e = Ok (s', false) → s' = s ∧ (cur_seq (env_cursor e) <= cur_seq (sv_cursor s))%N.
Proof.
  unfold SessionViews.apply. intros Ha. inv_result. destruct (N.leb_spec (cur_seq (env_cursor e)) (cur_seq (sv_cursor s))).
  - by inv_result.
  - inv_result. discriminate.
Qed.
End cursors.

(** ** Chains of events *)

Section chains.
Implicit Types (c a m t : SessionCursor) (e : SessionEventEnvelope) (es : list SessionEventEnvelope).

(** The events lead from [c] to [c'], one cursor after the other. *)
Fixpoint chain c es c' : Prop :=
  match es with
  | [] => c = c'
  | e :: es => checked_next c = Ok (env_cursor e) ∧ SessionEventEnvelope_validate e = Ok () ∧ chain (env_cursor e) es c'
  end.

Lemma chain_app c es1 es2 c' : chain c (es1 ++ es2) c' ↔ ∃ m, chain c es1 m ∧ chain m es2 c'.
Proof.
  revert c. induction es1 as [|e es1 IH]; intros c; simpl; [naive_solver|]. rewrite IH. naive_solver.
Qed.

Lemma chain_place c es c' : chain c es c' → same_place c c'.
Proof.
  revert c. induction es as [|e es IH]; intros c; simpl; [by intros ->|].
  intros (Hn & _ & Hch). apply checked_next_Ok in Hn as (_ & Hp & _). etrans; [exact Hp|by apply IH].
Qed.

Lemma chain_seq c es c' : chain c es c' → cur_seq c' = (cur_seq c + N.of_nat (length es))%N.
Proof.
  revert c. induction es as [|e es IH]; intros c; simpl; [intros ->; lia|].
  intros (Hn & _ & Hch). apply checked_next_Ok in Hn as (_ & _ & Hs & _). rewrite (IH _ Hch). lia.
Qed.

Lemma chain_bounds c es c' e :
  chain c es c' → e ∈ es → (cur_seq c < cur_seq (env_cursor e) <= cur_seq c')%N ∧ same_place c (env_cursor e).
Proof.
  intros Hch [es1 [es2 ->]]%list_elem_of_split. apply chain_app in Hch as (m & H1 & Hn & _ & H2).
  apply checked_next_Ok in Hn as (_ & Hp & Hs & _).
  apply chain_seq in H1 as Hs1. apply chain_seq in H2. apply chain_place in H1. split; [lia|by etrans].
Qed.

(** The chain passes every cursor between its ends. *)
Lemma chain_split c es c' m :
  chain c es c' → same_place c m → (cur_seq c <= cur_seq m <= cur_seq c')%N →
  ∃ es1 es2, es = es1 ++ es2 ∧ chain c es1 m ∧ chain m es2 c'.
Proof.
  revert c. induction es as [|e es IH]; intros c; simpl.
  - intros <- Hp Hle. exists [], []. assert (c = m) as -> by (apply cursor_eq; [done|lia]). done.
  - intros (Hn & Hv & Hch) Hp Hle. apply checked_next_Ok in Hn as Hn'. destruct Hn' as (_ & Hp' & Hs & _).
    destruct (decide (cur_seq m = cur_seq c)) as [Heq|Hne].
    + exists [], (e :: es). assert (c = m) as -> by (by apply cursor_eq). done.
    + destruct (IH (env_cursor e)) as (es1 & es2 & -> & H1 & H2); [done| |lia|].
      { etrans; [by symmetry|done]. }
      exists (e :: es1), es2. done.
Qed.

(** The filter of a replay page selects the part of the chain between two cursors. *)
Lemma chain_filter c es c' a t :
  chain c es c' → same_place c a → same_place c t →
  (cur_seq c <= cur_seq a)%N → (cur_seq a <= cur_seq t)%N → (cur_seq t <= cur_seq c')%N →
  chain a (List.filter (λ e, (cur_seq a <? cur_seq (env_cursor e))%N
                             && (cur_seq (env_cursor e) <=? cur_seq t)%N) es) t.
Proof.
  intros Hch Ha Ht H1 H2 H3.
  destruct (chain_split _ _ _ a Hch) as (es1 & r & -> & Hca & Har); [done|lia|].
  destruct (chain_split _ _ _ t Har) as (es2 & es3 & -> & Hat & Htc); [by etrans; [symmetry|]|lia|].
  rewrite !List.filter_app, (list_filter_nil_b _ es1), (list_filter_all_b _ es2), (list_filter_nil_b _ es3).
  - by rewrite app_nil_r.
  - intros e He. destruct (chain_bounds _ _ _ _ Htc He) as [? _]. apply andb_false_iff. right.
    apply N.leb_gt. lia.
  - intros e He. destruct (chain_bounds _ _ _ _ Hat He) as [? _]. apply andb_true_iff.
    split; [apply N.ltb_lt; lia|apply N.leb_le; lia].
  - intros e He. destruct (chain_bounds _ _ _ _ Hca He) as [? _]. apply andb_false_iff. left.
    apply N.ltb_ge. lia.
Qed.

Lemma chain_last c es c' : chain c es c' → default c (env_cursor <$> last es) = c'.
Proof.
  destruct es as [|e es] using rev_ind; [done|]. rewrite last_snoc. simpl.
  intros (m & _ & _ & _ & Hch)%chain_app. done.
Qed.

Lemma chain_take c es c' n : chain c es c' → chain c (take n es) (default c (env_cursor <$> last (take n es))).
Proof.
  intros Hch. rewrite <-(take_drop n es) in Hch. apply chain_app in Hch as (m & Hch & _).
  by rewrite (chain_last _ _ _ Hch).
Qed.

End chains.

(** ** The journal of a record *)

Section journal.
Implicit Types (e : JournalEntry) (journal : list JournalEntry) (t : N).

Definition bytes_of_journal journal : nat := sum_list (je_bytes <$> journal).
Lemma bytes_of_journal_cons e journal : bytes_of_journal (e :: journal) = je_bytes e + bytes_of_journal journal.
Proof. done. Qed.
Lemma bytes_of_journal_snoc journal e : bytes_of_journal (journal ++ [e]) = bytes_of_journal journal + je_bytes e.
Proof.
  induction journal as [|x journal IH]; [unfold bytes_of_journal; simpl; lia|].
  simpl. rewrite !bytes_of_journal_cons, IH. lia.
Qed.

Lemma evict_chain limits journal bytes floor cur :
  chain floor (je_envelope <$> journal) cur → bytes = bytes_of_journal journal →
  let '(journal', bytes', floor') := evict limits journal bytes floor in
  chain floor' (je_envelope <$> journal') cur ∧ bytes' = bytes_of_journal journal'
  ∧ length journal' <= max_events limits ∧ bytes' <= max_bytes limits ∧ ∃ pre, journal = pre ++ journal'.
Proof.
  revert bytes floor. induction journal as [|e journal IH]; intros bytes floor Hch Hb; simpl.
  { simpl in *. subst. change (bytes_of_journal []) with 0. split_and!; [done|done|lia|lia|by exists []]. }
  destruct (_ || _) eqn:Hc.
  - destruct Hch as (_ & _ & Hch).
    rewrite bytes_of_journal_cons in Hb.
    assert (bytes - je_bytes e = bytes_of_journal journal) as Hb' by lia.
    specialize (IH (bytes - je_bytes e) (env_cursor (je_envelope e)) Hch Hb').
    destruct (evict limits journal _ _) as [[j' b'] f'].
    destruct IH as (? & ? & ? & ? & pre & ->). split_and!; try done. by exists (e :: pre).
  - apply orb_false_iff in Hc as [H1 H2]. apply bool_decide_eq_false in H1, H2.
    split_and!; [done|done|simpl in *; lia|lia|by exists []].
Qed.

Lemma raise_floor_place n c : same_place c (raise_floor n c).
Proof. done. Qed.

Lemma pop_through_app t pre post :
  (∀ e, e ∈ pre → (cur_seq (env_cursor (je_envelope e)) <= t)%N) →
  (∀ e, e ∈ post → (t < cur_seq (env_cursor (je_envelope e)))%N) →
  pop_through t (pre ++ post) (bytes_of_journal (pre ++ post)) = (post, bytes_of_journal post).
Proof.
  intros Hpre Hpost. induction pre as [|e pre IH]; simpl.
  - destruct post as [|e post]; [done|]. simpl. destruct (N.leb_spec (cur_seq (env_cursor (je_envelope e))) t); [|done].
    specialize (Hpost e ltac:(left)). lia.
  - rewrite (proj2 (N.leb_le _ _)) by (apply Hpre; left).
    rewrite bytes_of_journal_cons. replace (_ + _ - _) with (bytes_of_journal (pre ++ post)) by lia.
    apply IH. intros e' ?. apply Hpre. by right.
Qed.

(** Popping through the sequence number of an entry leaves the chain after it. *)
Lemma pop_chain t journal floor cur e :
  chain floor (je_envelope <$> journal) cur → e ∈ journal → cur_seq (env_cursor (je_envelope e)) = t →
  ∃ pre post, journal = pre ++ post ∧
    pop_through t journal (bytes_of_journal journal) = (post, bytes_of_journal post) ∧
    chain (raise_floor t floor) (je_envelope <$> post) cur ∧
    (cur_seq floor <= t <= cur_seq cur)%N ∧
    (∀ e', e' ∈ post → (t < cur_seq (env_cursor (je_envelope e')))%N).
Proof.
  intros Hch [l1 [l2 ->]]%list_elem_of_split Ht. rewrite fmap_app in Hch. simpl in Hch.
  apply chain_app in Hch as (m & H1 & Hn & _ & H2).
  apply checked_next_Ok in Hn as (_ & Hp & Hs & _).
  assert (raise_floor t floor = env_cursor (je_envelope e)) as Hf.
  { apply chain_seq in H1 as Hs1. apply cursor_eq; [|simpl; lia].
    etrans; [symmetry; apply raise_floor_place|]. etrans; [by eapply chain_place|done]. }
  assert (∀ e', e' ∈ l2 → (t < cur_seq (env_cursor (je_envelope e')))%N) as Hpost.
  { intros e' He. rewrite <-Ht. eapply chain_bounds; [exact H2|]. by apply list_elem_of_fmap_2. }
  exists (l1 ++ [e]), l2. split_and!; [by rewrite <-app_assoc| |by rewrite Hf| | |done].
  - rewrite (app_assoc l1 [e] l2 : l1 ++ e :: l2 = _). apply pop_through_app; [|done].
    intros e' [He|He%list_elem_of_singleton]%elem_of_app; [|subst; lia].
    eapply (chain_bounds _ _ _ (je_envelope e')) in H1; [|by apply list_elem_of_fmap_2]. lia.
  - apply chain_seq in H1. lia.
  - apply chain_seq in H2. lia.
Qed.

Lemma last_of_run_None turn_id journal e :
  last_of_run turn_id journal = None → e ∈ journal → je_run_id e ≠ Some turn_id.
Proof.
  unfold last_of_run. induction journal as [|x journal IH] using rev_ind; [by intros _ ?%elem_of_nil|].
  rewrite foldl_app. simpl. case_bool_decide; [done|].
  intros Hn [He|He%list_elem_of_singleton]%elem_of_app; [by apply IH|by subst].
Qed.

Lemma last_of_run_Some turn_id journal t :
  last_of_run turn_id journal = Some t →
  (∃ e, e ∈ journal ∧ je_run_id e = Some turn_id ∧ cur_seq (env_cursor (je_envelope e)) = t) ∧
  ∀ e, e ∈ journal → je_run_id e = Some turn_id → (cur_seq (env_cursor (je_envelope e)) <= t)%N.
Proof.
  unfold last_of_run. revert t. induction journal as [|x journal IH] using rev_ind; intros t; [done|].
  rewrite foldl_app. simpl. case_bool_decide as Hx; simpl.
  - destruct (foldl _ None journal) as [n|] eqn:Hf; simpl; intros [= <-].
    + destruct (IH n eq_refl) as [(e & He & Hr & Hs) Hall]. split.
      * destruct (N.max_spec n (cur_seq (env_cursor (je_envelope x)))) as [[? ->]|[? ->]];
          [exists x|exists e]; rewrite elem_of_app, list_elem_of_singleton; naive_solver.
      * intros e' [He'|He'%list_elem_of_singleton]%elem_of_app Hr'; [specialize (Hall e' He' Hr'); lia|subst; lia].
    + split; [exists x; rewrite elem_of_app, list_elem_of_singleton; split_and!; [by right|done|lia]|].
      intros e' [He'|He'%list_elem_of_singleton]%elem_of_app Hr'; [|subst; lia].
      exfalso. by eapply last_of_run_None.
  - intros Hf. destruct (IH t Hf) as [(e & He & Hr & Hs) Hall]. split.
    + exists e. rewrite elem_of_app. naive_solver.
    + intros e' [He'|He'%list_elem_of_singleton]%elem_of_app Hr'; [by apply Hall|by subst].
Qed.
End journal.

(** The loop of the identity check, by what it accepts. *)
Lemma check_unique_Ok {A} (v : A → result string ()) (id : A → string) m seen l :
  is_ok (fold_res (check_unique v id m) seen l) = true ↔
  (∀ a, a ∈ l → v a = Ok ()) ∧ NoDup (id <$> l) ∧ (∀ a, a ∈ l → id a ∉ seen).
Proof.
  revert seen. induction l as [|a l IH]; intros seen; simpl.
  { split; [intros _|done]. split_and!; [by intros ? ?%elem_of_nil|constructor|by intros ? ?%elem_of_nil]. }
  change (check_unique v id m seen a) with (v a;; reject_if (bool_decide (id a ∈ seen)) m;; Ok ({[id a]} ∪ seen)).
  destruct (v a) as [[]|e] eqn:Hv; simpl.
  2:{ split; [done|]. intros (Ha & _). by rewrite (Ha a ltac:(left)) in Hv. }
  case_bool_decide as Hs; simpl.
  { split; [done|]. intros (_ & _ & Hn). by destruct (Hn a ltac:(left)). }
  rewrite IH. setoid_rewrite elem_of_cons. setoid_rewrite elem_of_union. setoid_rewrite elem_of_singleton.
  rewrite NoDup_cons, list_elem_of_fmap. split.
  - intros (Ha & Hnd & Hn). split_and!; [naive_solver| |done|naive_solver]. intros (x & Hx & Hxl). naive_solver.
  - intros (Ha & (Hni & Hnd) & Hn). split_and!; [naive_solver|done|]. intros x Hx [Heq|Hin]; [|naive_solver].
    apply Hni. by exists x.
Qed.
