(* ===== verification/ViewRecords.v ===== *)
(** * The invariant of session records and of the registry

    A record's journal is the chain of the events from its replay floor to its
    cursor, within its limits; the snapshots it went through are linked by those
    events. [Reach] are the states of the registry under the operations the daemon
    performs, a publication being one step under its lane. *)

From S2P Require Import Prelude Protocol StoreState SessionViews ViewJournal ViewLaws.

Section records.
Context `{ViewExternals}.
Implicit Types (r : SessionViewRecord) (e : SessionEventEnvelope) (log : list SessionEventEnvelope).

(** ** Preparation *)

(** What a publication makes of a record. *)
Record Published r next e : Prop := {
  pub_next : checked_next (vr_cursor r) = Ok (env_cursor e);
  pub_applied : SessionViews.apply (vr_snapshot r) e = Ok (pv_snapshot next, true);
  pub_cursor : sv_cursor (pv_snapshot next) = env_cursor e;
  pub_journal : ∃ bytes run_id,
    envelope_json_len e = Ok bytes ∧
    retain_prepared (vr_limits r) e bytes run_id
      {| pv_snapshot := pv_snapshot next; pv_journal := vr_journal r;
         pv_journal_bytes := pv_journal_bytes (vr_state r); pv_replay_floor := vr_floor r;
         pv_run_identities := pv_run_identities (vr_state r) |}
    = {| pv_snapshot := pv_snapshot next; pv_journal := pv_journal next;
         pv_journal_bytes := pv_journal_bytes next; pv_replay_floor := pv_replay_floor next;
         pv_run_identities := pv_run_identities (vr_state r) |};
}.

Lemma retain_prepared_keeps limits e bytes run_id s :
  pv_snapshot (retain_prepared limits e bytes run_id s) = pv_snapshot s ∧
  pv_run_identities (retain_prepared limits e bytes run_id s) = pv_run_identities s.
Proof. unfold retain_prepared. destruct (bool_decide _); [done|]. by destruct (evict _ _ _ _) as [[??]?]. Qed.

Lemma prepare_Published r ts p rid next e : prepare r ts p rid = Ok (next, e) → Published r next e.
Proof.
  unfold prepare. intros Hp. inv_result. repeat match goal with u : () |- _ => destruct u end.
  match goal with Hn : checked_next _ = Ok ?c, Ha : SessionViews.apply _ ?e = Ok (?s, ?b) |- _ =>
    rename Hn into Hnext, Ha into Happly end.
  match type of Happly with _ = Ok (_, ?b) => destruct b end.
  - destruct (apply_true _ _ _ Happly) as [_ _ _ _ Hc _].
    match goal with |- context [retain_prepared ?l ?e ?b ?i ?s] =>
      destruct (retain_prepared_keeps l e b i s) as [Hs Hi]; remember (retain_prepared l e b i s) as t eqn:Ht end.
    constructor; simpl in *; [done|by rewrite Hs|by rewrite Hs|].
    eexists _, _. split; [eassumption|]. rewrite Hs, <-Ht. destruct t; simpl in *. by subst.
  - apply apply_false in Happly as [_ Hle]. apply checked_next_Ok in Hnext as (_ & _ & Hs & _). simpl in *. unfold vr_cursor in *. lia.
Qed.

(** ** The invariant of a record *)

Record ViewOk r : Prop := {
  vo_snapshot : SessionSnapshot_validate (vr_snapshot r) = Ok ();
  vo_chain : chain (vr_floor r) (je_envelope <$> vr_journal r) (vr_cursor r);
  vo_bytes : pv_journal_bytes (vr_state r) = bytes_of_journal (vr_journal r);
  vo_lens : ∀ x, x ∈ vr_journal r → envelope_json_len (je_envelope x) = Ok (je_bytes x);
  vo_max_events : length (vr_journal r) <= max_events (vr_limits r);
  vo_max_bytes : pv_journal_bytes (vr_state r) <= max_bytes (vr_limits r);
}.

Lemma with_owner_ok owner summary history stream limits r :
  with_owner owner summary history stream limits = Ok r →
  ViewOk r ∧ vr_cursor r = {| cur_thread_id := ss_thread_id summary; cur_stream_id := stream; cur_seq := 0 |}
  ∧ vr_owner r = owner ∧ vr_limits r = limits ∧ vr_journal r = [].
Proof.
  unfold with_owner. intros Hw. inv_result. repeat match goal with u : () |- _ => destruct u end.
  split_and!; try done. constructor; simpl; try done; try lia. by intros ? ?%elem_of_nil.
Qed.

(** The journal after a publication is the end of the old one and the published event. *)
Lemma published_journal r next e :
  ViewOk r → Published r next e →
  chain (pv_replay_floor next) (je_envelope <$> pv_journal next) (env_cursor e)
  ∧ pv_journal_bytes next = bytes_of_journal (pv_journal next)
  ∧ (length (pv_journal next) <= max_events (vr_limits r) ∧ pv_journal_bytes next <= max_bytes (vr_limits r))
  ∧ (∀ x, x ∈ pv_journal next → envelope_json_len (je_envelope x) = Ok (je_bytes x))
  ∧ ∃ pre, pre ++ (je_envelope <$> pv_journal next) = (je_envelope <$> vr_journal r) ++ [e].
Proof.
  intros [_ Hch Hb Hlens _ _] [Hn Ha Hc (bytes & run_id & Hlen & Hret)].
  unfold retain_prepared in Hret. destruct (bool_decide_reflect (max_bytes (vr_limits r) < bytes)).
  - injection Hret as <- <- <-. simpl. split_and!; try done; [lia|lia|by intros ? ?%elem_of_nil|].
    eexists. by rewrite app_nil_r.
  - simpl in Hret.
    set (x := {| je_envelope := e; je_bytes := bytes; je_run_id := run_id |}) in *.
    pose proof (evict_chain (vr_limits r) (vr_journal r ++ [x]) (pv_journal_bytes (vr_state r) + bytes)
      (vr_floor r) (env_cursor e)) as He.
    destruct (evict _ _ _ _) as [[j b] f]. injection Hret as <- <- <-.
    destruct He as (? & ? & ? & ? & pre & Hpre).
    { rewrite fmap_app. apply chain_app. exists (vr_cursor r). split; [done|]. simpl. split_and!; try done.
      by destruct (apply_true _ _ _ Ha). }
    { rewrite bytes_of_journal_snoc, Hb. done. }
    split_and!; try done.
    + intros y Hy. assert (y ∈ vr_journal r ++ [x]) as [?| ->%list_elem_of_singleton]%elem_of_app
        by (rewrite Hpre; apply elem_of_app; by right); [by apply Hlens|done].
    + exists (je_envelope <$> pre). rewrite <-fmap_app, <-Hpre. by rewrite fmap_app.
Qed.

Lemma publish_ok r next e : ViewOk r → Published r next e → ViewOk (install next r).
Proof.
  intros Hok Hp. destruct (published_journal _ _ _ Hok Hp) as (? & ? & [? ?] & ? & _).
  destruct Hp as [_ Ha Hc _]. constructor; try done.
  - by destruct (apply_true _ _ _ Ha).
  - unfold vr_cursor, vr_snapshot. simpl. by rewrite Hc.
Qed.

(** What retiring a run makes of a record. *)
Record Retired r (turn_id : string) next : Prop := {
  ret_snapshot : pv_snapshot next = vr_snapshot r;
  ret_suffix : ∃ pre, vr_journal r = pre ++ pv_journal next;
  ret_gone : ∀ x, x ∈ pv_journal next → je_run_id x ≠ Some turn_id;
  ret_chain : chain (pv_replay_floor next) (je_envelope <$> pv_journal next) (vr_cursor r);
  ret_bytes : pv_journal_bytes next = bytes_of_journal (pv_journal next);
  ret_last : cur_seq (pv_replay_floor next) = cur_seq (vr_floor r) ∨
    ∃ x, x ∈ vr_journal r ∧ je_run_id x = Some turn_id ∧ cur_seq (env_cursor (je_envelope x)) = cur_seq (pv_replay_floor next);
  ret_floor : (cur_seq (vr_floor r) <= cur_seq (pv_replay_floor next) <= cur_seq (vr_cursor r))%N;
}.

Lemma scrub_Retired r turn_id next :
  ViewOk r → next = scrub_run turn_id (vr_state r) → Retired r turn_id next.
Proof.
  intros [_ Hch Hb _ _ _] ->. unfold scrub_run. destruct (last_of_run _ _) as [t|] eqn:Hlast.
  - destruct (last_of_run_Some _ _ _ Hlast) as [(x & Hx & Hrun & Ht) Hall].
    destruct (pop_chain t (vr_journal r) (vr_floor r) (vr_cursor r) x) as (pre & post & Hj & Hpop & Hc & Hle & Hgt);
      [done|done|done|].
    unfold vr_journal in *. rewrite Hb, Hpop.
    constructor; simpl; try done; [by exists pre| | |unfold vr_floor in *; lia].
    2:{ right. exists x. split_and!; [done|done|]. unfold vr_floor in *. lia. }
    intros y Hy Hr. specialize (Hall y). rewrite Hj, elem_of_app in Hall.
    specialize (Hall (or_intror Hy) Hr). specialize (Hgt y Hy). lia.
  - constructor; try done; [by exists []| |by left|].
    + intros x Hx. by eapply last_of_run_None.
    + apply chain_seq in Hch. unfold vr_floor in *. lia.
Qed.

Lemma retire_Retired r turn_id identity next :
  ViewOk r → retire_state r turn_id identity = Some next → Retired r turn_id next.
Proof.
  intros Hok Hr. unfold retire_state in Hr. destruct (_ || _); [done|]. injection Hr as <-.
  destruct (scrub_Retired r turn_id _ Hok eq_refl). by constructor.
Qed.

(** The floor after a retirement separates what is left from what is gone. *)
Lemma Retired_split r turn_id next :
  ViewOk r → Retired r turn_id next →
  (∀ x, x ∈ pv_journal next ↔
        x ∈ vr_journal r ∧ (cur_seq (pv_replay_floor next) < cur_seq (env_cursor (je_envelope x)))%N) ∧
  (∀ x, x ∈ vr_journal r → je_run_id x = Some turn_id →
        (cur_seq (env_cursor (je_envelope x)) <= cur_seq (pv_replay_floor next))%N).
Proof.
  intros Hok [Hs [pre Hpre] Hgone Hch _ _ _].
  assert (∀ x, x ∈ pre → (cur_seq (env_cursor (je_envelope x)) <= cur_seq (pv_replay_floor next))%N) as Hold.
  { intros x Hx. pose proof (vo_chain _ Hok) as Hch0. rewrite Hpre, fmap_app in Hch0. apply chain_app in Hch0 as (m & H1 & H2).
    eapply (chain_bounds _ _ _ (je_envelope x)) in H1; [|by apply list_elem_of_fmap_2].
    apply chain_seq in H2, Hch. lia. }
  assert (∀ x, x ∈ pv_journal next → (cur_seq (pv_replay_floor next) < cur_seq (env_cursor (je_envelope x)))%N) as Hnew.
  { intros x Hx. eapply (chain_bounds _ _ _ (je_envelope x)) in Hch; [|by apply list_elem_of_fmap_2]. lia. }
  rewrite Hpre. split.
  - intros x. rewrite elem_of_app. split; [by auto|]. intros [[Hx|Hx] Hlt]; [|done]. apply Hold in Hx. lia.
  - intros x [Hx|Hx]%elem_of_app Hrun; [by apply Hold|by destruct (Hgone _ Hx)].
Qed.

Lemma retire_ok r turn_id next : ViewOk r → Retired r turn_id next → ViewOk (install next r).
Proof.
  intros [? ? Hb Hlens Hme Hmb] [Hs [pre Hpre] _ ? Hb' _ ?].
  constructor; unfold vr_cursor, vr_journal, vr_floor, vr_snapshot in *; simpl; rewrite ?Hs; try done.
  - intros x Hx. apply Hlens. rewrite Hpre. apply elem_of_app. by right.
  - rewrite Hpre, length_app in Hme. lia.
  - rewrite Hpre in Hb. rewrite Hb' . etrans; [|exact Hmb]. rewrite Hb.
    clear. induction pre as [|x pre IH]; simpl; [lia|]. rewrite bytes_of_journal_cons. lia.
Qed.

(** ** The snapshots a record went through *)

(** The step of a client that follows the events. *)
Definition client_step (s : SessionSnapshot) (e : SessionEventEnvelope) : result SessionProjectionError SessionSnapshot :=
  '(next, _) ← SessionViews.apply s e;
  Ok next.

Lemma apply_client_step s e s' : SessionViews.apply s e = Ok (s', true) → client_step s e = Ok s'.
Proof. unfold client_step. by intros ->. Qed.

(** A record that started from [s0] and published [log]: the journal is the end of the log. *)
Record History (s0 : SessionSnapshot) log r : Prop := {
  hi_ok : ViewOk r;
  hi_start : cur_seq (sv_cursor s0) = 0%N;
  hi_chain : chain (sv_cursor s0) log (vr_cursor r);
  hi_fold : fold_res client_step s0 log = Ok (vr_snapshot r);
  hi_suffix : ∃ pre, log = pre ++ (je_envelope <$> vr_journal r);
}.

Lemma with_owner_history owner summary history stream limits r :
  with_owner owner summary history stream limits = Ok r → History (vr_snapshot r) [] r.
Proof.
  intros Hw. destruct (with_owner_ok _ _ _ _ _ _ Hw) as (Hok & Hc & _ & _ & Hj). unfold vr_cursor in *.
  constructor; try done; [by rewrite Hc|exists []; by rewrite Hj].
Qed.

Lemma publish_history s0 log r next e :
  History s0 log r → Published r next e → History s0 (log ++ [e]) (install next r).
Proof.
  intros [Hok Hs Hch Hf [pre Hpre]] Hp.
  destruct (published_journal _ _ _ Hok Hp) as (_ & _ & _ & _ & pre' & Hj).
  assert (vr_cursor (install next r) = env_cursor e) as Hc by apply Hp.
  destruct (apply_true _ _ _ (pub_applied _ _ _ Hp)) as [_ He _ _ _ _].
  constructor; [by eapply publish_ok|done| | |].
  - apply chain_app. exists (vr_cursor r). split; [done|]. simpl. by split_and!; [apply Hp|..].
  - rewrite fold_res_app, Hf. simpl. by rewrite (apply_client_step _ _ _ (pub_applied _ _ _ Hp)).
  - exists (pre ++ pre'). rewrite Hpre, <-!app_assoc. f_equal. by symmetry.
Qed.

Lemma retire_history s0 log r turn_id next :
  History s0 log r → Retired r turn_id next → History s0 log (install next r).
Proof.
  intros [Hok Hs Hch Hf [pre Hpre]] Hr. pose proof (retire_ok _ _ _ Hok Hr).
  destruct Hr as [Hsn [pre' Hpre'] _ _ _ _ _].
  constructor; unfold vr_cursor, vr_snapshot, vr_journal in *; simpl; rewrite ?Hsn; try done.
  exists (pre ++ (je_envelope <$> pre')). by rewrite Hpre, Hpre', fmap_app, <-app_assoc.
Qed.

(** ** Positions of a log *)

(** A filter by cursors selects a segment of a chain. *)
Lemma chain_filter_segment c log c' (a t : N) :
  chain c log c' → (cur_seq c <= a)%N → (a <= t)%N → (t <= cur_seq c')%N →
  List.filter (λ e, (a <? cur_seq (env_cursor e))%N && (cur_seq (env_cursor e) <=? t)%N) log
  = segment log (a - cur_seq c) (t - cur_seq c).
Proof.
  intros Hch H1 H2 H3. pose proof (chain_place _ _ _ Hch) as Hp.
  set (at_ n := {| cur_thread_id := cur_thread_id c; cur_stream_id := cur_stream_id c; cur_seq := n |}).
  destruct (chain_split _ _ _ (at_ a) Hch) as (es1 & r & -> & Hca & Har); [done|simpl; lia|].
  destruct (chain_split _ _ _ (at_ t) Har) as (es2 & es3 & -> & Hat & Htc); [done|simpl; lia|].
  rewrite !List.filter_app, (list_filter_nil_b _ es1), (list_filter_all_b _ es2), (list_filter_nil_b _ es3).
  - apply chain_seq in Hca, Hat. simpl in *. unfold segment. rewrite app_nil_r.
    rewrite drop_app_length' by lia. by rewrite take_app_length' by lia.
  - intros e He. destruct (chain_bounds _ _ _ _ Htc He) as [? _]. simpl in *. apply andb_false_iff. right.
    apply N.leb_gt. lia.
  - intros e He. destruct (chain_bounds _ _ _ _ Hat He) as [? _]. simpl in *. prove_bool.
  - intros e He. destruct (chain_bounds _ _ _ _ Hca He) as [? _]. simpl in *. apply andb_false_iff. left.
    apply N.ltb_ge. lia.
Qed.

(** The event at a position of the log carries the next sequence number. *)
Lemma chain_lookup c log c' (n : nat) e :
  chain c log c' → log !! n = Some e → cur_seq (env_cursor e) = (cur_seq c + N.of_nat n + 1)%N ∧ same_place c (env_cursor e).
Proof.
  intros Hch Hl. rewrite <-(take_drop_middle _ _ _ Hl) in Hch. apply chain_app in Hch as (m & H1 & Hn & _ & _).
  apply checked_next_Ok in Hn as (_ & Hp & Hs & _). pose proof (lookup_lt_Some _ _ _ Hl).
  pose proof (chain_place _ _ _ H1). apply chain_seq in H1. rewrite length_take in H1.
  split; [lia|by etrans].
Qed.

(** ** The snapshots of a record *)

(** The snapshot after [n] events. *)
Definition state_at (s0 : SessionSnapshot) log (n : N) : result SessionProjectionError SessionSnapshot :=
  fold_res client_step s0 (take (N.to_nat n) log).

(** Following a segment leads from the snapshot at its start to the one at its end. *)
Lemma state_at_segment s0 log (a b : N) :
  (a <= b)%N → state_at s0 log b = (s ← state_at s0 log a; fold_res client_step s (segment log a b)).
Proof.
  intros Hle. unfold state_at. rewrite <-fold_res_app. unfold segment. rewrite take_take_drop. do 2 f_equal. lia.
Qed.

Lemma history_state s0 log r (n : N) : History s0 log r → ∃ s, state_at s0 log n = Ok s.
Proof.
  intros Hh. pose proof (hi_fold _ _ _ Hh) as Hf. unfold state_at.
  rewrite <-(take_drop (N.to_nat n) log), fold_res_app in Hf. destruct (fold_res _ _ (take _ _)); [by eexists|done].
Qed.

Lemma history_length s0 log r : History s0 log r → cur_seq (vr_cursor r) = N.of_nat (length log).
Proof. intros Hh. pose proof (chain_seq _ _ _ (hi_chain _ _ _ Hh)). rewrite (hi_start _ _ _ Hh) in *. lia. Qed.

Lemma history_current s0 log r : History s0 log r → state_at s0 log (cur_seq (vr_cursor r)) = Ok (vr_snapshot r).
Proof.
  intros Hh. unfold state_at. rewrite (history_length _ _ _ Hh), Nat2N.id, firstn_all. apply hi_fold, Hh.
Qed.

(** The journal holds the log from the replay floor on. *)
Lemma history_journal s0 log r :
  History s0 log r → je_envelope <$> vr_journal r = drop (N.to_nat (cur_seq (vr_floor r))) log
  ∧ same_place (sv_cursor s0) (vr_floor r) ∧ (cur_seq (vr_floor r) <= cur_seq (vr_cursor r))%N.
Proof.
  intros Hh. pose proof (vo_chain _ (hi_ok _ _ _ Hh)) as Hj. destruct (hi_suffix _ _ _ Hh) as [pre Hpre].
  pose proof (history_length _ _ _ Hh) as Hl.
  pose proof (chain_place _ _ _ (hi_chain _ _ _ Hh)). pose proof (chain_place _ _ _ Hj).
  apply chain_seq in Hj. rewrite Hpre, length_app in Hl.
  split_and!; [|by etrans; [|symmetry]|lia]. rewrite Hpre, drop_app_length'; [done|lia].
Qed.

(** A page is a segment of the log. *)
Lemma history_page s0 log r (a t limit : N) :
  History s0 log r → (cur_seq (vr_floor r) <= a)%N → (a <= t)%N → (t <= cur_seq (vr_cursor r))%N →
  page r a t limit = segment log a (N.min t (a + limit)).
Proof.
  intros Hh Hf Hat Ht. unfold page. rewrite (chain_filter_segment _ _ _ _ _ (vo_chain _ (hi_ok _ _ _ Hh))) by done.
  destruct (history_journal _ _ _ Hh) as (-> & _ & _). rewrite take_segment. unfold segment.
  rewrite drop_drop. f_equal; [lia|]. f_equal. lia.
Qed.
End records.
