(* ===== verification/ViewRegistry.v ===== *)
(** * Replay pages and the reachable states of the registry

    The three answers of [replay], and the states that insertions, publications,
    retirements and removals reach, with the snapshots every record went through. *)

From S2P Require Import Prelude Protocol StoreState SessionViews ViewJournal ViewLaws ViewRecords.

Section replay.
Context `{ViewExternals}.
Implicit Types (r : SessionViewRecord) (params : SubscribeSessionParams).

Lemma reset_seq n c : same_place c c → cur_seq {| cur_thread_id := cur_thread_id c; cur_stream_id := cur_stream_id c; cur_seq := n |} = n.
Proof. done. Qed.

(** What the validation of the parameters of a subscription says. *)
Lemma sub_params_valid params :
  SubscribeSessionParams_validate params = Ok () →
  SessionCursor_validate (sub_after params) = Ok () ∧ cur_thread_id (sub_after params) = sub_thread_id params ∧
  (0 < sub_limit params)%N ∧
  ∀ t, sub_through params = Some t →
    SessionCursor_validate t = Ok () ∧ same_place (sub_after params) t ∧ (cur_seq (sub_after params) <= cur_seq t)%N.
Proof.
  unfold SubscribeSessionParams_validate. intros Hv. inv_result. repeat match goal with u : () |- _ => destruct u end.
  inv_bool. split_and!; try done; [lia|].
  intros t Ht. rewrite Ht in *. inv_result. inv_bool.
  repeat match goal with u : () |- _ => destruct u end.
  split_and!; [done| |done]. by apply same_stream_true.
Qed.

Inductive Answer r params : SubscribeSessionResult → Prop :=
  | answer_reset :
      cur_stream_id (sub_after params) ≠ cur_stream_id (vr_cursor r) →
      Answer r params (gap r params (vr_cursor r) GapStreamReset)
  | answer_gap through :
      same_place (sub_after params) (vr_cursor r) → same_place through (vr_cursor r) →
      through = default (vr_cursor r) (sub_through params) →
      (cur_seq (sub_after params) < cur_seq (vr_floor r))%N →
      Answer r params (gap r params through GapRetention)
  | answer_page through events :
      same_place (sub_after params) (vr_cursor r) → same_place through (vr_cursor r) →
      through = default (vr_cursor r) (sub_through params) →
      (cur_seq (vr_floor r) <= cur_seq (sub_after params) <= cur_seq through)%N →
      (cur_seq through <= cur_seq (vr_cursor r))%N →
      events = page r (cur_seq (sub_after params)) (cur_seq through) (sub_limit params) →
      Answer r params
        {| page_events := events; page_resume_after := default (sub_after params) (env_cursor <$> last events);
           page_through := through;
           page_has_more := (cur_seq (default (sub_after params) (env_cursor <$> last events)) <? cur_seq through)%N;
           page_gap := None |}.

Lemma replay_Answer r params result :
  cur_thread_id (vr_cursor r) = sub_thread_id params → replay r params = Ok result →
  SubscribeSessionParams_validate params = Ok () ∧ Answer r params result.
Proof.
  intros Ht Hr. unfold replay in Hr. apply bind_Ok in Hr as ([] & Hv & Hr). split; [done|].
  destruct (sub_params_valid _ Hv) as (_ & Hat & _ & Hth).
  destruct (_ != _) eqn:Hs in Hr; inv_bool; [injection Hr as <-; by constructor|].
  assert (same_place (sub_after params) (vr_cursor r)) as Hp by (split; congruence).
  inv_result. inv_bool.
  match goal with H : match sub_through params with _ => _ end = Ok ?o |- _ => rename o into early, H into He end.
  match goal with H : match early with _ => _ end = Ok _ |- _ => rename H into Hr end.
  assert (early = None ∧ same_place (default (vr_cursor r) (sub_through params)) (vr_cursor r) ∧
          (cur_seq (sub_after params) <= cur_seq (default (vr_cursor r) (sub_through params)) <= cur_seq (vr_cursor r))%N)
    as (-> & Hpt & Hle).
  { destruct (sub_through params) as [t|]; simpl in *; [|inv_result; split_and!; [done..|lia]].
    destruct (Hth t eq_refl) as (_ & Hpt & Hle). assert (same_place t (vr_cursor r)) as Hpt' by (by etrans; [symmetry|]).
    destruct (_ != _) eqn:Hn in He; inv_bool; [by destruct Hpt'|]. inv_result. by inv_bool. }
  destruct (N.ltb_spec (cur_seq (sub_after params)) (cur_seq (vr_floor r))); injection Hr as <-.
  - by apply answer_gap.
  - eapply answer_page; try done; lia.
Qed.

(** A request within the journal is answered with a page. *)
Lemma replay_in_journal r params :
  SubscribeSessionParams_validate params = Ok () → same_place (sub_after params) (vr_cursor r) →
  (cur_seq (vr_floor r) <= cur_seq (sub_after params) <= cur_seq (vr_cursor r))%N →
  (∀ t, sub_through params = Some t → same_place t (vr_cursor r) ∧ (cur_seq t <= cur_seq (vr_cursor r))%N) →
  ∃ page, replay r params = Ok page ∧ page_gap page = None.
Proof.
  intros Hv [_ Hs] [Hf Ha] Ht. unfold replay. rewrite Hv. simpl. rewrite bool_decide_eq_true_2 by done. simpl.
  rewrite (proj2 (N.ltb_ge _ _) Ha). simpl.
  destruct (sub_through params) as [t|]; simpl.
  - destruct (Ht t eq_refl) as [[_ Hp] Hle]. rewrite bool_decide_eq_true_2 by done. simpl.
    rewrite (proj2 (N.ltb_ge _ _) Hle). simpl. rewrite (proj2 (N.ltb_ge _ _) Hf). by eexists.
  - rewrite (proj2 (N.ltb_ge _ _) Hf). by eexists.
Qed.

Lemma page_chain r params through :
  ViewOk r → same_place (sub_after params) (vr_cursor r) → same_place through (vr_cursor r) →
  (cur_seq (vr_floor r) <= cur_seq (sub_after params) <= cur_seq through)%N →
  (cur_seq through <= cur_seq (vr_cursor r))%N →
  let events := page r (cur_seq (sub_after params)) (cur_seq through) (sub_limit params) in
  chain (sub_after params) events (default (sub_after params) (env_cursor <$> last events)) ∧
  (∀ e, e ∈ events → e ∈ je_envelope <$> vr_journal r ∧ (cur_seq (env_cursor e) <= cur_seq through)%N).
Proof.
  intros Hok Ha Ht Hle Hc events. pose proof (vo_chain _ Hok) as Hch. pose proof (chain_place _ _ _ Hch) as Hfp.
  split.
  - eapply chain_take, chain_filter; [exact Hch|..]; try lia; by etrans; [|symmetry].
  - intros e He%subseteq_take. apply elem_of_filter_b in He as [He Hb]. inv_bool. done.
Qed.

(** Every event of a chain passes the check of the client. *)
Lemma chain_checks c es t through :
  chain c es t → (∀ e, e ∈ es → (cur_seq (env_cursor e) <= cur_seq through)%N) →
  fold_res (check_page_event through) c es = Ok t.
Proof.
  revert c. induction es as [|e es IH]; intros c; simpl; [by intros ->|].
  intros (Hn & Hv & Hch) Hle. unfold check_page_event. rewrite Hv, Hn. simpl.
  rewrite bool_decide_eq_true_2 by done. simpl.
  rewrite (proj2 (N.ltb_ge _ _)) by (apply Hle; left). simpl. apply IH; [done|]. intros ??. apply Hle. by right.
Qed.

Lemma snapshot_cursor_valid s : SessionSnapshot_validate s = Ok () → SessionCursor_validate (sv_cursor s) = Ok ().
Proof. unfold SessionSnapshot_validate. intros Hv. inv_result. by repeat match goal with u : () |- _ => destruct u end. Qed.

Lemma same_stream_refl_place c c' : same_place c c' → same_stream c c' = true.
Proof. by intros ?%same_stream_true. Qed.

Lemma Answer_meets_contract r params result :
  ViewOk r → SubscribeSessionParams_validate params = Ok () → cur_thread_id (vr_cursor r) = sub_thread_id params →
  Answer r params result → validate_for result params = Ok ().
Proof.
  intros Hok Hv Ht Ha. destruct (sub_params_valid _ Hv) as (Hav & Hat & Hl & Hth).
  pose proof (snapshot_cursor_valid _ (vo_snapshot _ Hok)) as Hcv. fold (vr_cursor r) in Hcv.
  pose proof (chain_place _ _ _ (vo_chain _ Hok)) as Hfp. pose proof (chain_seq _ _ _ (vo_chain _ Hok)) as Hfs.
  assert (SessionCursor_validate (vr_floor r) = Ok ()) as Hfv by (by rewrite (cursor_validate_place _ _ Hfp)).
  unfold validate_for. rewrite Hv. simpl.
  destruct Ha as [Hne|through Hp Hpt -> Hlt|through events Hp Hpt -> Hle Hc Hev]; simpl.
  - pass_guards; [|unfold validate_gap_through; simpl; pass_guards].
    unfold ReplayGap_validate. simpl. pass_guards. by apply same_stream_refl_place.
  - assert (SessionCursor_validate (default (vr_cursor r) (sub_through params)) = Ok ()) as Htv.
    { by rewrite (cursor_validate_place _ _ Hpt). }
    destruct Hpt as [Hpt1 Hpt2].
    pass_guards. 
    + unfold ReplayGap_validate. simpl. pass_guards; by apply same_stream_refl_place.
    + unfold validate_gap_through. simpl. destruct (sub_through params); pass_guards.
  - destruct (page_chain r params (default (vr_cursor r) (sub_through params))) as [Hch Hin]; [done..|].
    rewrite <-Hev in Hch, Hin.
    set (resume := default (sub_after params) (env_cursor <$> last events)) in *.
    pose proof (chain_place _ _ _ Hch) as Hrp.
    assert (same_place resume (default (vr_cursor r) (sub_through params))) as Hrt.
    { transitivity (sub_after params); [by symmetry|]. transitivity (vr_cursor r); [done|by symmetry]. }
    assert (SessionCursor_validate (default (vr_cursor r) (sub_through params)) = Ok ()) as Htv.
    { by rewrite (cursor_validate_place _ _ Hpt). }
    destruct Hrp as [Hrp1 Hrp2], Hpt as [Hpt1 Hpt2], Hp as [Hp1 Hp2].
    pass_guards; [by rewrite (cursor_validate_place _ _ Hrt)|].
    unfold validate_page. simpl. pass_guards.
    + destruct (sub_through params); pass_guards.
    + apply same_stream_refl_place; split; congruence.
    + apply same_stream_refl_place; split; congruence.
    + rewrite Hev. unfold page. rewrite length_take. lia.
    + rewrite (chain_checks _ _ _ _ Hch) by naive_solver. simpl. pass_guards. apply eqb_reflx.
Qed.
End replay.

(** ** The registry *)

Section registry.
Context `{ViewExternals}.

(** The first snapshot of a record and what it published since. *)
Definition Trail : Type := SessionSnapshot * list SessionEventEnvelope.
Implicit Types (g : SessionViewRegistry) (h : gmap nat Trail) (r : SessionViewRecord).

(** [SessionViewRegistry::new] *)
Definition SessionViewRegistry_new (limits : EventJournalLimits) : SessionViewRegistry :=
  {| vg_records := ∅; vg_heap := ∅; vg_next := 0; vg_limits := limits |}.

(** The changes a daemon prepares for publication. *)
Inductive publishes g : Prepared * SessionEventEnvelope → Prop :=
  | publishes_begin owner snapshot identity ts out :
      prepare_begin_run g owner snapshot identity ts = Ok out → publishes g out
  | publishes_event owner event ts out : prepare_run_event g owner event ts = Ok out → publishes g out
  | publishes_changed owner snapshot ts out : prepare_run_changed g owner snapshot ts = Ok out → publishes g out.

(** One change of the registry and of the trails of its records. The stream of a new
    record is fresh (a random uuid). A publication and a retirement are one step
    each: they hold the record's lane from their preparation to their installation. *)
Inductive serves : SessionViewRegistry * gmap nat Trail → SessionViewRegistry * gmap nat Trail → Prop :=
  | serves_insert g h owner thread_id agent_name metadata history ts stream g' r :
      registry_insert g owner thread_id agent_name metadata history ts stream = Ok g' →
      vg_heap g' !! vg_next g = Some r →
      (∀ a r', vg_heap g !! a = Some r' → cur_stream_id (vr_cursor r') ≠ stream) →
      serves (g, h) (g', <[vg_next g := (vr_snapshot r, [])]> h)
  | serves_publish g h p e g' first log :
      publishes g (p, e) → install_prepared g p = Some g' → h !! pp_record p = Some (first, log) →
      serves (g, h) (g', <[pp_record p := (first, log ++ [e])]> h)
  | serves_retire g h thread_id turn_id identity p g' :
      prepare_retire_run g thread_id turn_id identity = Ok (Some p) → install_prepared g p = Some g' →
      serves (g, h) (g', h)
  | serves_remove g h thread_id owner : serves (g, h) (registry_remove g thread_id owner, h).

Definition Reach (limits : EventJournalLimits) (g : SessionViewRegistry) (h : gmap nat Trail) : Prop :=
  rtc serves (SessionViewRegistry_new limits, ∅) (g, h).

Record RegistryOk g h : Prop := {
  ro_records : ∀ thread_id a, vg_records g !! thread_id = Some a →
    ∃ r, vg_heap g !! a = Some r ∧ cur_thread_id (vr_cursor r) = thread_id;
  ro_streams : ∀ a b r r', vg_heap g !! a = Some r → vg_heap g !! b = Some r' →
    cur_stream_id (vr_cursor r) = cur_stream_id (vr_cursor r') → a = b;
  ro_heap : ∀ a r, vg_heap g !! a = Some r → a < vg_next g ∧ ∃ first log, h !! a = Some (first, log) ∧ History first log r;
}.

Lemma owned_Ok g thread_id owner a r :
  owned g thread_id owner = Ok (a, r) → vg_records g !! thread_id = Some a ∧ vg_heap g !! a = Some r ∧ vr_owner r = owner.
Proof. unfold owned. intros Ho. inv_result. by inv_bool. Qed.

(** A prepared publication is one of the record it names. *)
Lemma publishes_Published g p e :
  publishes g (p, e) → ∃ r, vg_heap g !! pp_record p = Some r ∧ Published r (pp_next p) e
    ∧ pp_owner p = vr_owner r ∧ pp_source p = vr_cursor r.
Proof.
  intros Hp. inversion Hp as [? ? ? ? ? Hb|? ? ? ? Hb|? ? ? ? Hb]; subst;
    unfold prepare_begin_run, prepare_run_event, prepare_run_changed in Hb; inv_result;
    match goal with Ho : owned _ _ _ = Ok (_, ?r), Hr : prepare _ _ _ _ = Ok ?x |- _ =>
      destruct x; apply owned_Ok in Ho as (_ & ? & _); apply prepare_Published in Hr; by exists r end.
Qed.

Lemma retires_Retired g h thread_id turn_id identity p :
  RegistryOk g h → prepare_retire_run g thread_id turn_id identity = Ok (Some p) →
  ∃ r, vg_heap g !! pp_record p = Some r ∧ Retired r turn_id (pp_next p).
Proof.
  intros Hok Hp. unfold prepare_retire_run in Hp. inv_result.
  match goal with Hh : vg_heap g !! _ = Some ?r, Hs : _ <$> retire_state _ _ _ = Some p |- _ =>
    rename Hh into Hr; apply fmap_Some in Hs as (next & Hret & ->) end.
  eexists. split; [exact Hr|]. eapply retire_Retired; [|exact Hret].
  by destruct (ro_heap _ _ Hok _ _ Hr) as (_ & ? & ? & _ & []).
Qed.

Lemma registry_install_ok g h a r next first log :
  RegistryOk g h → vg_heap g !! a = Some r → History first log (install next r) →
  same_place (vr_cursor r) (vr_cursor (install next r)) →
  RegistryOk {| vg_records := vg_records g; vg_heap := <[a := install next r]> (vg_heap g);
                vg_next := vg_next g; vg_limits := vg_limits g |} (<[a := (first, log)]> h).
Proof.
  intros [Hrec Hstr Hheap] Ha Hh Hp. constructor; simpl.
  - intros tid b Hb. destruct (Hrec _ _ Hb) as (r' & Hr' & Ht). destruct (decide (b = a)) as [->|Hne].
    + rewrite lookup_insert_eq. simplify_eq. exists (install next r). split; [done|]. symmetry. apply Hp.
    + rewrite lookup_insert_ne by done. by exists r'.
  - intros b c r1 r2 [[<- <-]|[Hb1 Hb]]%lookup_insert_Some [[<- <-]|[Hc1 Hc]]%lookup_insert_Some He; try done.
    + eapply Hstr; [done|done|]. etrans; [apply Hp|done].
    + eapply Hstr; [done|done|]. etrans; [done|symmetry; apply Hp].
    + by eapply Hstr.
  - intros b r' Hb. destruct (decide (b = a)) as [->|Hne].
    + rewrite lookup_insert_eq in Hb. simplify_eq. rewrite lookup_insert_eq. split; [by eapply Hheap|by exists first, log].
    + rewrite lookup_insert_ne in Hb by done. rewrite lookup_insert_ne by done. by apply Hheap.
Qed.

Lemma install_prepared_Some g p g' r :
  install_prepared g p = Some g' → vg_heap g !! pp_record p = Some r →
  g' = {| vg_records := vg_records g; vg_heap := <[pp_record p := install (pp_next p) r]> (vg_heap g);
          vg_next := vg_next g; vg_limits := vg_limits g |}.
Proof. unfold install_prepared. intros Hi Hr. rewrite Hr in Hi. destruct (source_matches _ _); [by injection Hi|done]. Qed.

Lemma registry_insert_ok g h owner thread_id agent_name metadata history ts stream g' r :
  RegistryOk g h → registry_insert g owner thread_id agent_name metadata history ts stream = Ok g' →
  vg_heap g' !! vg_next g = Some r →
  (∀ a r', vg_heap g !! a = Some r' → cur_stream_id (vr_cursor r') ≠ stream) →
  RegistryOk g' (<[vg_next g := (vr_snapshot r, [])]> h).
Proof.
  intros [Hrec Hstr Hheap] Hi Hr Hnew. unfold registry_insert in Hi. inv_result.
  destruct (vg_records g !! thread_id) eqn:Hnone; [done|]. inv_result.
  rewrite lookup_insert_eq in Hr. simplify_eq.
  match goal with Hw : with_owner _ _ _ _ _ = Ok _ |- _ =>
    destruct (with_owner_ok _ _ _ _ _ _ Hw) as (_ & Hc & _); apply with_owner_history in Hw end.
  assert (vg_heap g !! vg_next g = None) as Hfresh.
  { destruct (vg_heap g !! vg_next g) eqn:Hn; [|done]. apply Hheap in Hn as [??]. lia. }
  constructor; simpl.
  - intros tid b Hb. apply lookup_insert_Some in Hb as [[<- <-]|[Hne Hb]].
    + rewrite lookup_insert_eq. exists r. by rewrite Hc.
    + destruct (Hrec _ _ Hb) as (r' & Hr' & Ht). exists r'. split; [|done]. rewrite lookup_insert_ne; [done|]. congruence.
  - intros a b r1 r2 [[<- <-]|[Ha1 Ha]]%lookup_insert_Some [[<- <-]|[Hb1 Hb]]%lookup_insert_Some He; try done.
    + rewrite Hc in He. by destruct (Hnew _ _ Hb).
    + rewrite Hc in He. by destruct (Hnew _ _ Ha).
    + by eapply Hstr.
  - intros b r' Hb. apply lookup_insert_Some in Hb as [[<- <-]|[Hne Hb]].
    + rewrite lookup_insert_eq. split; [lia|by eexists _, _].
    + apply Hheap in Hb as [??]. rewrite lookup_insert_ne by lia. split; [lia|done].
Qed.

Lemma serves_ok g h g' h' : serves (g, h) (g', h') → RegistryOk g h → RegistryOk g' h'.
Proof.
  intros Hs Hok. inversion Hs as [? ? ? ? ? ? ? ? ? ? r Hi Hr Hn|? ? p e ? first log Hp Hi Hl|? ? ? ? ? p ? Hp Hi|]; subst.
  - by eapply registry_insert_ok.
  - destruct (publishes_Published _ _ _ Hp) as (r & Hr & Hpub & _).
    rewrite (install_prepared_Some _ _ _ _ Hi Hr).
    destruct (ro_heap _ _ Hok _ _ Hr) as (_ & ? & ? & Hs' & Hh). simplify_eq.
    eapply registry_install_ok; [done|done|by eapply publish_history|].
    unfold vr_cursor at 2, vr_snapshot. simpl. rewrite (pub_cursor _ _ _ Hpub).
    by destruct (proj1 (checked_next_Ok _ _) (pub_next _ _ _ Hpub)) as (_ & ? & _).
  - destruct (retires_Retired _ _ _ _ _ _ Hok Hp) as (r & Hr & Hret).
    rewrite (install_prepared_Some _ _ _ _ Hi Hr).
    destruct (ro_heap _ _ Hok _ _ Hr) as (_ & first & log & Hl & Hh).
    rewrite <-(insert_id _ _ _ Hl). eapply registry_install_ok; [done|done|by eapply retire_history|].
    unfold vr_cursor, vr_snapshot. simpl. by rewrite (ret_snapshot _ _ _ Hret).
  - unfold registry_remove. destruct (owned _ _ _); [|done]. destruct Hok as [Hrec Hstr Hheap]. constructor; [|done..].
    simpl. intros tid b [_ ?]%lookup_delete_Some. by apply Hrec.
Qed.

Lemma Reach_ok limits g h : Reach limits g h → RegistryOk g h.
Proof.
  unfold Reach. set (P := λ x : SessionViewRegistry * gmap nat Trail, RegistryOk x.1 x.2).
  intros Hr. change (P (g, h)). assert (P (SessionViewRegistry_new limits, ∅)) as H0 by by constructor.
  induction Hr as [|x [g1 h1] z Hs _ IH]; [done|]. apply IH. destruct x. by eapply serves_ok.
Qed.

(** A step only appends to the trails. *)
Lemma serves_trails g h g' h' a first log :
  serves (g, h) (g', h') → RegistryOk g h → h !! a = Some (first, log) → is_Some (vg_heap g !! a) →
  is_Some (vg_heap g' !! a) ∧ ∃ more, h' !! a = Some (first, log ++ more).
Proof.
  intros Hs Hok Ha [r Hr].
  inversion Hs as [? ? ? ? ? ? ? ? ? ? r0 Hi Hr0 Hn|? ? p e ? first' log' Hp Hi Hl|? ? ? ? ? p ? Hp Hi|]; subst.
  - pose proof (ro_heap _ _ Hok _ _ Hr) as [Hlt _]. rewrite lookup_insert_ne by lia. split; [|exists []; by rewrite app_nil_r].
    unfold registry_insert in Hi. inv_result. destruct (vg_records g !! thread_id); [done|]. inv_result.
    rewrite lookup_insert_ne by lia. by exists r.
  - unfold install_prepared in Hi. destruct (vg_heap g !! pp_record p) as [r'|] eqn:Hr'; [|done].
    destruct (source_matches _ _); [|done]. injection Hi as <-. simpl.
    destruct (decide (a = pp_record p)) as [->|Hne].
    + rewrite !lookup_insert_eq. simplify_eq. split; [done|by eexists].
    + rewrite !lookup_insert_ne by done. split; [by exists r|exists []; by rewrite app_nil_r].
  - unfold install_prepared in Hi. destruct (vg_heap g !! pp_record p) as [r'|] eqn:Hr'; [|done].
    destruct (source_matches _ _); [|done]. injection Hi as <-. simpl.
    split; [|exists []; by rewrite app_nil_r].
    destruct (decide (a = pp_record p)) as [->|Hne]; [by rewrite lookup_insert_eq|rewrite lookup_insert_ne by done; by exists r].
  - split; [|exists []; by rewrite app_nil_r]. unfold registry_remove. destruct (owned _ _ _); by exists r.
Qed.

(** ** Subscriptions *)

Lemma subscribe_contract g h owner params res :
  RegistryOk g h → subscribe g owner params = Ok res →
  SubscribeSessionParams_validate params = Ok () ∧ validate_for res params = Ok ().
Proof.
  intros Hok Hs. unfold subscribe in Hs. apply bind_Ok in Hs as ([a r] & Ho & Hr).
  destruct (owned_Ok _ _ _ _ _ Ho) as (Ha & Hheap & _).
  destruct (ro_records _ _ Hok _ _ Ha) as (r' & Hheap' & Ht). simplify_eq.
  destruct (ro_heap _ _ Hok _ _ Hheap) as (_ & first & log & Hl & Hh).
  destruct (replay_Answer _ _ _ Ht Hr) as [Hv Hans]. split; [done|].
  eapply Answer_meets_contract; [apply Hh|done..].
Qed.

(** A page without a gap is a segment of the log of the subscribed record. *)
Lemma subscribe_page g h owner params res :
  RegistryOk g h → subscribe g owner params = Ok res → page_gap res = None →
  ∃ a r first log, owned g (sub_thread_id params) owner = Ok (a, r) ∧ h !! a = Some (first, log) ∧ History first log r ∧
    same_place (sub_after params) (vr_cursor r) ∧ same_place (page_resume_after res) (vr_cursor r) ∧
    page_through res = default (vr_cursor r) (sub_through params) ∧
    (cur_seq (vr_floor r) <= cur_seq (sub_after params) <= cur_seq (page_through res))%N ∧
    (cur_seq (page_through res) <= cur_seq (vr_cursor r))%N ∧
    cur_seq (page_resume_after res) = N.min (cur_seq (page_through res)) (cur_seq (sub_after params) + sub_limit params) ∧
    page_events res = segment log (cur_seq (sub_after params)) (cur_seq (page_resume_after res)) ∧
    page_has_more res = (cur_seq (page_resume_after res) <? cur_seq (page_through res))%N.
Proof.
  intros Hok Hs Hg. unfold subscribe in Hs. apply bind_Ok in Hs as ([a r] & Ho & Hr).
  destruct (owned_Ok _ _ _ _ _ Ho) as (Ha & Hheap & _).
  destruct (ro_records _ _ Hok _ _ Ha) as (r' & Hheap' & Ht). simplify_eq.
  destruct (ro_heap _ _ Hok _ _ Hheap) as (_ & first & log & Hl & Hh).
  destruct (replay_Answer _ _ _ Ht Hr) as [_ Hans].
  inversion Hans as [|? ? ? ? ?|through events Hp Hpt Hdef Hle Hc Hev Hres]; subst; [done|done|]. simpl in *.
  destruct (page_chain r params (default (vr_cursor r) (sub_through params)) (hi_ok _ _ _ Hh) Hp Hpt Hle Hc) as [Hch _].
  pose proof (chain_place _ _ _ Hch) as Hrp. apply chain_seq in Hch.
  rewrite (history_page _ _ _ _ _ _ Hh) in Hch |- * by lia.
  assert (length (segment log (cur_seq (sub_after params))
    (N.min (cur_seq (default (vr_cursor r) (sub_through params))) (cur_seq (sub_after params) + sub_limit params)))
    = N.to_nat (N.min (cur_seq (default (vr_cursor r) (sub_through params))) (cur_seq (sub_after params) + sub_limit params)
                - cur_seq (sub_after params))) as Hlen.
  { pose proof (history_length _ _ _ Hh). unfold segment. rewrite length_take, length_drop. lia. }
  rewrite Hlen in Hch. exists a, r, first, log. split_and!; try done; [|lia|lia|lia|].
  - etrans; [symmetry|exact Hp].
    pose proof (page_chain r params (default (vr_cursor r) (sub_through params)) (hi_ok _ _ _ Hh) Hp Hpt Hle Hc) as [Hch' _].
    rewrite (history_page _ _ _ _ _ _ Hh) in Hch' by lia. by apply chain_place in Hch'.
  - rewrite Hch. f_equal. lia.
Qed.
End registry.
