(* ===== verification/ViewWindow.v ===== *)
(** * History windows of different sizes

    A client may hold a smaller history window than the daemon. Applying an event
    commutes with cutting the window, unless the event reuses the id of an item that
    only the larger window still holds. *)

From S2P Require Import Prelude Protocol StoreState SessionViews ViewJournal ViewLaws ViewRecords.

Section window.
Implicit Types (w : SessionHistoryWindow) (s : SessionSnapshot) (e : SessionEventEnvelope) (k : N).

Definition window_ids w : list string := item_id <$> hw_items w.

(** The last [n] elements. *)
Definition lastn {A} (n : nat) (l : list A) : list A := drop (length l - n) l.

Lemma length_lastn {A} n (l : list A) : length (lastn n l) = min n (length l).
Proof. unfold lastn. rewrite length_drop. lia. Qed.

Lemma lastn_lastn {A} n m (l : list A) : n <= m → lastn n (lastn m l) = lastn n l.
Proof. intros Hle. unfold lastn. rewrite length_drop, drop_drop. f_equal. lia. Qed.

Lemma lastn_snoc {A} n (l : list A) x : 0 < n → lastn n (lastn n l ++ [x]) = lastn n (l ++ [x]).
Proof.
  intros Hn. unfold lastn. rewrite !length_app, length_drop. simpl.
  rewrite !drop_app_le, drop_drop by (rewrite ?length_drop; lia). do 2 f_equal. lia.
Qed.

Lemma elem_of_lastn {A} n (l : list A) x : x ∈ lastn n l → x ∈ l.
Proof. apply subseteq_drop. Qed.

Lemma limit_window_items k w : hw_items (limit_window k w) = lastn (N.to_nat k) (hw_items w).
Proof. unfold limit_window, lastn. simpl. f_equal. lia. Qed.

Lemma existsb_id_window (id : string) w :
  existsb (λ old, item_id old == id) (hw_items w) = bool_decide (id ∈ window_ids w).
Proof.
  destruct (bool_decide_reflect (id ∈ window_ids w)) as [Hin|Hni].
  - apply existsb_true. apply list_elem_of_fmap in Hin as (x & -> & Hx). exists x. by rewrite bool_decide_eq_true.
  - apply existsb_false. intros x Hx. apply bool_decide_eq_false. intros <-. by apply Hni, list_elem_of_fmap_2.
Qed.

(** ** Valid windows *)

Record WindowOk w : Prop := {
  wk_capacity : (0 < hw_capacity w <= MAX_SESSION_HISTORY_LIMIT)%N;
  wk_count : N.of_nat (length (hw_items w)) = N.min (hw_total_items w) (hw_capacity w);
  wk_start : (hw_start_index w + N.of_nat (length (hw_items w)) = hw_total_items w)%N;
  wk_total : (hw_total_items w <= u64_max)%N;
  wk_items : ∀ item, item ∈ hw_items w → validate_item_identity item = Ok ();
  wk_ids : NoDup (window_ids w);
}.

Lemma validate_history_capacity_Ok c :
  validate_history_capacity c = Ok () ↔ (0 < c <= MAX_SESSION_HISTORY_LIMIT)%N.
Proof.
  unfold validate_history_capacity. rewrite reject_if_Ok, orb_false_iff, N.eqb_neq, N.ltb_ge. lia.
Qed.

Lemma window_valid_iff w : SessionHistoryWindow_validate w = Ok () ↔ WindowOk w.
Proof.
  unfold SessionHistoryWindow_validate. split.
  - intros Hv. inv_result. repeat match goal with u : () |- _ => destruct u end.
    inv_bool. rename select (validate_history_capacity _ = _) into Hcap. apply validate_history_capacity_Ok in Hcap.
    rename select (is_none_or _ _ = _) into Hn. unfold is_none_or in Hn.
    destruct (checked_add _ _) eqn:Hadd; [|done]. inv_bool. apply checked_add_Some in Hadd as [? Hle].
    match goal with Hf : fold_res _ _ _ = Ok ?x |- _ =>
      pose proof (check_unique_Ok validate_item_identity item_id "History window item identities must be unique" ∅ (hw_items w)) as [Hu _];
      rewrite Hf in Hu; destruct (Hu eq_refl) as (Hi & Hnd & _) end.
    constructor; try done; lia.
  - intros [Hcap Hcount Hstart Htot Hi Hnd]. rewrite (proj2 (validate_history_capacity_Ok _) Hcap). simpl.
    rewrite reject_if_false.
    2:{ rewrite (proj2 (checked_add_Some _ _ (hw_total_items w))) by lia. simpl. prove_bool. }
    simpl. pose proof (check_unique_Ok validate_item_identity item_id "History window item identities must be unique" ∅ (hw_items w)) as [_ Hu].
    destruct (fold_res _ _ _); [done|]. exfalso. assert (false = true) as [=]. apply Hu. split_and!; [done|done|]. set_solver.
Qed.

Lemma limit_window_ids k w : window_ids (limit_window k w) = lastn (N.to_nat k) (window_ids w).
Proof. unfold window_ids. rewrite limit_window_items. unfold lastn. by rewrite fmap_drop, length_fmap. Qed.

Lemma limit_window_ok k w : WindowOk w → (0 < k <= hw_capacity w)%N → WindowOk (limit_window k w).
Proof.
  intros [Hcap Hcount Hstart Htot Hi Hnd] Hk.
  constructor; rewrite ?limit_window_items, ?limit_window_ids, ?length_lastn; simpl; try lia.
  - intros item Hin. apply Hi. by eapply elem_of_lastn.
  - eapply sublist_NoDup; [done|apply sublist_drop].
Qed.

(** The window with an item pushed. *)
Definition pushed w item : SessionHistoryWindow :=
  let items := lastn (N.to_nat (hw_capacity w)) (hw_items w ++ [item]) in
  {| hw_items := items; hw_start_index := hw_total_items w + 1 - N.of_nat (length items);
     hw_total_items := hw_total_items w + 1; hw_capacity := hw_capacity w |}.

Lemma append_pushed w item :
  WindowOk w → item_id item ∉ window_ids w →
  append_unless_known w item false =
  (validate_item_identity item;;
   ok_or (checked_add (hw_total_items w) 1) "Canonical history item count is exhausted";;
   Ok (pushed w item, true)).
Proof.
  intros [Hcap Hcount Hstart Htot _ _] Hni. unfold append_unless_known. rewrite existsb_id_window, bool_decide_eq_false_2 by done.
  simpl. destruct (validate_item_identity item); [simpl|done].
  destruct (checked_add (hw_total_items w) 1) as [total|] eqn:Ht; [simpl|done]. apply checked_add_Some in Ht as [-> _].
  replace (if bool_decide _ then _ else _) with (lastn (N.to_nat (hw_capacity w)) (hw_items w ++ [item])).
  - unfold checked_sub. rewrite length_lastn, length_app. simpl.
    destruct (N.leb_spec (N.of_nat (min (N.to_nat (hw_capacity w)) (length (hw_items w) + 1))) (hw_total_items w + 1)); [|lia].
    simpl. do 3 f_equal. unfold pushed. rewrite length_lastn, length_app. done.
  - unfold lastn. case_bool_decide; [done|]. replace (_ - _) with 0 by lia. done.
Qed.

Lemma pushed_limit k w item :
  (0 < k <= hw_capacity w)%N → limit_window k (pushed w item) = pushed (limit_window k w) item.
Proof.
  intros Hk. unfold pushed, limit_window. simpl.
  assert (∀ n (l : list CanonicalItem), drop (length l - min (length l) n) l = lastn n l) as Hl.
  { intros n l. unfold lastn. f_equal. lia. }
  rewrite !Hl, lastn_lastn, lastn_snoc, !length_lastn, length_app by lia. f_equal. simpl. lia.
Qed.

Lemma pushed_ok w item :
  WindowOk w → item_id item ∉ window_ids w → validate_item_identity item = Ok () → (hw_total_items w + 1 <= u64_max)%N →
  WindowOk (pushed w item).
Proof.
  intros [Hcap Hcount Hstart Htot Hi Hnd] Hni Hv Hle. unfold pushed.
  constructor; simpl; rewrite ?length_lastn, ?length_app; simpl; try lia.
  - intros x Hx%elem_of_lastn. apply elem_of_app in Hx as [Hx| ->%list_elem_of_singleton]; [by apply Hi|done].
  - unfold window_ids. simpl. unfold lastn. rewrite fmap_drop.
    eapply sublist_NoDup; [|apply sublist_drop]. rewrite fmap_app. simpl.
    apply NoDup_app. split_and!; [done| |apply NoDup_singleton]. intros x Hx ->%list_elem_of_singleton. done.
Qed.

(** Appending an item commutes with cutting the window. *)
Lemma append_limit k w item known w' b :
  WindowOk w → (0 < k <= hw_capacity w)%N → known = true ∨ item_id item ∉ window_ids w →
  append_unless_known w item known = Ok (w', b) →
  append_unless_known (limit_window k w) item known = Ok (limit_window k w', b) ∧ WindowOk w' ∧ hw_capacity w' = hw_capacity w
  ∧ window_ids w' ⊆ item_id item :: window_ids w.
Proof.
  intros Hok Hk Hfresh Ha. destruct known.
  { injection Ha as <- <-. split_and!; [done|done|done|set_solver]. }
  destruct Hfresh as [|Hni]; [done|].
  assert (item_id item ∉ window_ids (limit_window k w)) as Hni'.
  { rewrite limit_window_ids. intros Hin. by eapply Hni, elem_of_lastn. }
  rewrite append_pushed in Ha by done. rewrite append_pushed by (try apply limit_window_ok; done). simpl in *.
  inv_result. repeat match goal with u : () |- _ => destruct u end.
  rename select (validate_item_identity item = _) into Hv. rewrite Hv, <-pushed_limit by done. simpl.
  rewrite (proj2 (checked_add_Some _ _ _)) by done. simpl.
  split_and!; [done|by apply pushed_ok|done|].
  unfold pushed, window_ids. simpl. intros x (y & -> & Hy%elem_of_lastn)%list_elem_of_fmap.
  apply elem_of_app in Hy as [Hy| ->%list_elem_of_singleton]; [right; by apply list_elem_of_fmap_2|left].
Qed.

(** ** Events *)

(** The items of the event that the run does not know are not in the window yet. *)
Definition stream_fresh w (run : SessionRunView) (stream : AgentStreamEvent) : Prop :=
  match stream with
  | EvItemStarted _ id _ _ => id ∉ window_ids w
  | EvItemCompleted _ item =>
      existsb (λ old, item_id old == item_id item) (snap_items (rv_snapshot run)) = true ∨ item_id item ∉ window_ids w
  | _ => True
  end.

Definition items_fresh w (known : list string) (items : list CanonicalItem) : Prop :=
  NoDup (item_id <$> items) ∧ ∀ item, item ∈ items → item_id item ∈ known ∨ item_id item ∉ window_ids w.

Definition event_fresh s e : Prop :=
  match env_payload e, sv_active_run s with
  | PayloadRunEvent event, Some run =>
      match re_payload event with
      | RunStream stream => stream_fresh (sv_history s) run stream
      | RunFinished snap => items_fresh (sv_history s) (item_id <$> snap_items (rv_snapshot run)) (snap_items snap)
      end
  | _, _ => True
  end.

(** What a step keeps about the window it changes. *)
Definition window_step w w' : Prop := WindowOk w' ∧ hw_capacity w' = hw_capacity w.

Lemma append_final_limit k known w item w' :
  WindowOk w → (0 < k <= hw_capacity w)%N → item_id item ∈ known ∨ item_id item ∉ window_ids w →
  append_final known w item = Ok w' →
  append_final known (limit_window k w) item = Ok (limit_window k w') ∧ window_step w w' ∧
  window_ids w' ⊆ item_id item :: window_ids w.
Proof.
  intros Hok Hk Hf Ha. unfold append_final in *. apply bind_Ok in Ha as ([w1 b] & Ha & [= ->]).
  apply (append_limit k) in Ha as (-> & ? & ? & ?); [done|done|done|by rewrite bool_decide_eq_true].
Qed.

Lemma finished_limit k known items w w' :
  WindowOk w → (0 < k <= hw_capacity w)%N → items_fresh w known items →
  fold_res (append_final known) w items = Ok w' →
  fold_res (append_final known) (limit_window k w) items = Ok (limit_window k w') ∧ window_step w w'.
Proof.
  revert w. induction items as [|item items IH]; intros w Hok Hk [Hnd Hf] Ha; simpl in *.
  { injection Ha as <-. done. }
  apply NoDup_cons in Hnd as [Hni Hnd]. apply bind_Ok in Ha as (w1 & H1 & Ha).
  apply (append_final_limit k) in H1 as (-> & [Hok1 Hc1] & Hids); [|done|done|apply Hf; left]. simpl.
  destruct (IH w1) as [-> [Hok' Hc']]; [done|by rewrite Hc1| |done|].
  - split; [done|]. intros x Hx. destruct (Hf x ltac:(by right)) as [|Hn]; [by left|right].
    intros [Heq|]%Hids%elem_of_cons; [|done]. apply Hni. rewrite <-Heq. by apply list_elem_of_fmap_2.
  - split; [done|]. split; [done|congruence].
Qed.

Lemma apply_stream_limit k thread_id w run stream w' run' :
  WindowOk w → (0 < k <= hw_capacity w)%N → stream_fresh w run stream →
  apply_stream thread_id w run stream = Ok (w', run') →
  apply_stream thread_id (limit_window k w) run stream = Ok (limit_window k w', run') ∧ window_step w w'.
Proof.
  intros Hok Hk Hf Ha. destruct stream; cbn [apply_stream stream_fresh] in *.
  all: try (injection Ha as <- <-; by split).
  all: try (apply bind_Ok in Ha as (x & -> & [= <- <-]); by split).
  - rewrite existsb_id_window, bool_decide_eq_false_2 in Ha by done. injection Ha as <- <-. split; [|done].
    rewrite existsb_id_window, bool_decide_eq_false_2; [done|].
    rewrite limit_window_ids. intros Hin. by eapply Hf, elem_of_lastn.
  - apply bind_Ok in Ha as ([w1 b] & Ha & [= -> <-]).
    apply (append_limit k) in Ha as (-> & ? & ? & _); [|done|done|done]. by split.
Qed.

Lemma payload_limit k s e s' :
  WindowOk (sv_history s) → (0 < k <= hw_capacity (sv_history s))%N → event_fresh s e →
  apply_payload s e = Ok s' →
  apply_payload (limit_history k s) e = Ok (limit_history k s') ∧ window_step (sv_history s) (sv_history s').
Proof.
  intros Hok Hk Hf Ha. unfold apply_payload, event_fresh in *. destruct (env_payload e) as [run|event]; [by injection Ha as <-|].
  destruct (re_payload event) as [stream|snap].
  - unfold apply_stream_event in *. simpl in *. destruct (sv_active_run s) as [run|]; [simpl in *|done].
    apply bind_Ok in Ha as ([] & -> & Ha). simpl. apply bind_Ok in Ha as ([] & -> & Ha). simpl.
    apply bind_Ok in Ha as ([w1 run1] & Ha & [= <-]).
    apply (apply_stream_limit k) in Ha as [-> ?]; done.
  - unfold apply_finished in *. simpl in *. apply bind_Ok in Ha as ([] & -> & Ha). simpl.
    destruct (sv_active_run s) as [run|]; [simpl in *|done].
    apply bind_Ok in Ha as ([] & -> & Ha). simpl. apply bind_Ok in Ha as (w1 & Ha & [= <-]).
    apply (finished_limit k) in Ha as [-> ?]; done.
Qed.

Lemma snapshot_window_ok s : SessionSnapshot_validate s = Ok () → WindowOk (sv_history s).
Proof.
  unfold SessionSnapshot_validate. intros Hv. apply window_valid_iff.
  inv_result. by repeat match goal with u : () |- _ => destruct u end.
Qed.

Lemma limit_history_valid k s :
  SessionSnapshot_validate s = Ok () → (0 < k <= hw_capacity (sv_history s))%N →
  SessionSnapshot_validate (limit_history k s) = Ok ().
Proof.
  intros Hv Hk. pose proof (snapshot_window_ok _ Hv) as Hok. apply (limit_window_ok k) in Hok; [|done].
  apply window_valid_iff in Hok. unfold SessionSnapshot_validate in *. simpl.
  inv_result. repeat match goal with u : () |- _ => destruct u end.
  repeat match goal with H : _ = Ok () |- _ => rewrite H; simpl end.
  repeat match goal with H : _ = false |- _ => rewrite H; simpl end. done.
Qed.

Lemma stamp_limit k e s : limit_history k (stamp e s) = stamp e (limit_history k s).
Proof. done. Qed.

Lemma apply_limit k s e s' :
  (0 < k <= hw_capacity (sv_history s))%N → event_fresh s e → SessionViews.apply s e = Ok (s', true) →
  SessionViews.apply (limit_history k s) e = Ok (limit_history k s', true) ∧
  hw_capacity (sv_history s') = hw_capacity (sv_history s).
Proof.
  intros Hk Hf Ha. pose proof (apply_true _ _ _ Ha) as [Hvs Hve Hvs' _ _ _].
  unfold SessionViews.apply in *. rewrite (limit_history_valid _ _ Hvs Hk). rewrite Hvs in Ha. rewrite Hve in Ha |- *.
  simpl in *. apply bind_Ok in Ha as ([] & -> & Ha). simpl in *. destruct (_ <=? _)%N; [done|].
  apply bind_Ok in Ha as (c & -> & Ha). simpl in *. apply bind_Ok in Ha as ([] & -> & Ha). simpl in *.
  apply bind_Ok in Ha as (next & Hp%map_err_Ok & Ha).
  apply (payload_limit k) in Hp as [-> [_ Hc]]; [|by apply snapshot_window_ok|done|done]. simpl.
  apply bind_Ok in Ha as ([] & _ & [= <-]). split; [|done].
  rewrite <-stamp_limit, (limit_history_valid _ _ Hvs'); [done|]. rewrite <-Hc in Hk. exact Hk.
Qed.

(** Every event is fresh when it is applied. *)
Fixpoint all_fresh s (es : list SessionEventEnvelope) : Prop :=
  match es with
  | [] => True
  | e :: es => event_fresh s e ∧ match client_step s e with Ok s' => all_fresh s' es | Err _ => True end
  end.

Lemma follow_limit k s c es c' s' :
  sv_cursor s = c → chain c es c' → (0 < k <= hw_capacity (sv_history s))%N → all_fresh s es →
  fold_res client_step s es = Ok s' →
  fold_res client_step (limit_history k s) es = Ok (limit_history k s').
Proof.
  revert s c. induction es as [|e es IH]; intros s c Hc Hch Hk Hf Ha; simpl in *; [by injection Ha as <-|].
  destruct Hch as (Hn & _ & Hch). destruct Hf as [Hf Hfs]. apply bind_Ok in Ha as (s1 & H1 & Ha).
  pose proof H1 as H1'. unfold client_step in H1. apply bind_Ok in H1 as ([s2 b] & H1 & [= ->]).
  destruct b.
  - pose proof (apply_true _ _ _ H1) as [_ _ _ _ Hcur _].
    apply (apply_limit k) in H1 as [H1 Hcap]; [|done|done].
    assert (client_step (limit_history k s) e = Ok (limit_history k s1)) as -> by (unfold client_step; by rewrite H1).
    rewrite H1' in Hfs. simpl. eapply IH; [exact Hcur|done|by rewrite Hcap|done|done].
  - apply apply_false in H1 as [_ Hle]. subst c. apply checked_next_Ok in Hn as (_ & _ & Hs & _). lia.
Qed.

(** ** Events keep the capacity of the window *)

Lemma append_capacity w item known w' b : append_unless_known w item known = Ok (w', b) → hw_capacity w' = hw_capacity w.
Proof. unfold append_unless_known. destruct (_ || _); intros Ha; by inv_result. Qed.

Lemma payload_capacity s e s' : apply_payload s e = Ok s' → hw_capacity (sv_history s') = hw_capacity (sv_history s).
Proof.
  unfold apply_payload, apply_stream_event, apply_finished. intros Ha. destruct (env_payload e) as [run|event]; [by inv_result|].
  destruct (re_payload event) as [stream|snap].
  - inv_result. rename select (apply_stream _ _ _ _ = _) into Hs. destruct stream; simpl in Hs; inv_result; try done.
    by eapply append_capacity.
  - inv_result. rename select (fold_res _ _ _ = _) into Hf.
    apply (fold_res_ind (λ _ w, hw_capacity w = hw_capacity (sv_history s))) in Hf; [done|done|].
    intros l item w w' <- _ Ha. unfold append_final in Ha. apply bind_Ok in Ha as ([w1 b] & Ha & [= ->]).
    by eapply append_capacity.
Qed.

Lemma follow_capacity s es s' :
  fold_res client_step s es = Ok s' → hw_capacity (sv_history s') = hw_capacity (sv_history s).
Proof.
  intros Hf. apply (fold_res_ind (λ _ s', hw_capacity (sv_history s') = hw_capacity (sv_history s))) in Hf; [done|done|].
  intros l e s1 s2 <- _ Ha. unfold client_step in Ha. apply bind_Ok in Ha as ([s3 b] & Ha & [= ->]). destruct b.
  - unfold SessionViews.apply in Ha. inv_result. destruct (_ <=? _)%N; [done|]. inv_result. simpl. by eapply payload_capacity.
  - by apply apply_false in Ha as [-> _].
Qed.
End window.
