(* ===== verification/SdkViews.v ===== *)
(** * The client's session subscriptions

    [crates/whale-sdk-rust/src/session_views.rs]: what the SDK checks of the daemon's
    answers and the worker of a subscription, which fills the gaps of a lossy live
    channel from replay pages. The worker is a state machine: a label is what its
    [select!]s observe (a reply, a live event, a lag, a termination) with how many
    events the output channel still accepts. *)

From stdpp Require Import pretty.
From S2P Require Import Prelude Protocol StoreState SessionViews ViewJournal.

Definition DEFAULT_SUBSCRIPTION_BUFFER_CAPACITY : N := 64.
Definition DEFAULT_REPLAY_PAGE_SIZE : N := 128.
Definition DEFAULT_SESSION_HISTORY_LIMIT : N := 256.
Definition MAX_SUBSCRIPTION_BUFFER_CAPACITY : N := 4096.

(** [SdkError], up to the payloads of its wrapped errors. *)
Inductive SdkError :=
  | SdkProtocolCompatibility (m : string) | SdkInvalidConfiguration (m : string) | SdkIo (m : string)
  | SdkJson (m : string) | SdkRpc (code : Z) (m : string) | SdkRunExpired (m : string) | SdkLimitExceeded (m : string)
  | SdkChannelClosed (m : string) | SdkSessionClosed (m : string) | SdkInternal (m : string) | SdkEventLagged
  | SdkAlreadySubscribed | SdkRequestTimeout (m : string).

Inductive SessionViewError :=
  | ViewSdk (error : SdkError)
  | UnsupportedCapability (capability : string)
  | InvalidCursor (message : string)
  | ResyncRequired (gap : ReplayGap)
  | InvalidProjection (message : string).

Definition invalid_configuration (message : string) : SessionViewError := ViewSdk (SdkInvalidConfiguration message).

(** ** Options *)

Record SubscriptionOptions := { so_buffer_capacity : N; so_replay_page_size : N }.
Definition SubscriptionOptions_new (buffer_capacity replay_page_size : N) : result SessionViewError SubscriptionOptions :=
  reject_if ((buffer_capacity =? 0)%N || (MAX_SUBSCRIPTION_BUFFER_CAPACITY <? buffer_capacity)%N)
    (invalid_configuration ("subscription buffer capacity must be between 1 and " +:+
       pretty MAX_SUBSCRIPTION_BUFFER_CAPACITY));;
  reject_if ((replay_page_size =? 0)%N || (MAX_SESSION_REPLAY_PAGE_LIMIT <? replay_page_size)%N)
    (invalid_configuration ("replay page size must be between 1 and " +:+ pretty MAX_SESSION_REPLAY_PAGE_LIMIT));;
  Ok {| so_buffer_capacity := buffer_capacity; so_replay_page_size := replay_page_size |}.

Record SessionWatchOptions := { wo_history_limit : N; wo_subscription : SubscriptionOptions }.
Definition SessionWatchOptions_new (history_limit : N) (subscription : SubscriptionOptions) :
    result SessionViewError SessionWatchOptions :=
  reject_if ((history_limit =? 0)%N || (MAX_SESSION_HISTORY_LIMIT <? history_limit)%N)
    (invalid_configuration ("Session history limit must be between 1 and " +:+ pretty MAX_SESSION_HISTORY_LIMIT));;
  Ok {| wo_history_limit := history_limit; wo_subscription := subscription |}.

(** ** The daemon's answers *)

Definition require_session_capability (advertised : list string) (capability : string) : result SessionViewError () :=
  reject_if (negb (existsb (λ a, a == capability) advertised)) (UnsupportedCapability capability).

(** [get_session_snapshot] on the reply of the request. *)
Definition get_session_snapshot (thread_id : string) (history_limit : N) (reply : result SdkError SessionSnapshot) :
    result SessionViewError SessionSnapshot :=
  snapshot ← map_err ViewSdk reply;
  map_err InvalidProjection (SessionSnapshot_validate snapshot);;
  reject_if (ss_thread_id (sv_summary snapshot) != thread_id)
    (InvalidProjection "Daemon returned a snapshot for another Session");;
  reject_if (hw_capacity (sv_history snapshot) != history_limit)
    (InvalidProjection "Daemon returned a different Session history window capacity");;
  Ok snapshot.

Definition INVALID_PARAMS : Z := -32602.

Definition replay_error (error : SdkError) : SessionViewError :=
  match error with
  | SdkRpc code message => if (code =? INVALID_PARAMS)%Z then InvalidCursor message else ViewSdk error
  | _ => ViewSdk error
  end.

(** [get_session_replay_page] on the reply of the request. *)
Definition get_session_replay_page (params : SubscribeSessionParams) (reply : result SdkError SubscribeSessionResult) :
    result SessionViewError SubscribeSessionResult :=
  res ← map_err replay_error reply;
  map_err InvalidProjection (validate_for res params);;
  Ok res.

(** ** The worker of a subscription *)

Definition is_next_cursor (previous next : SessionCursor) : bool :=
  same_stream previous next && is_some_and (checked_add (cur_seq previous) 1) (λ expected, expected == cur_seq next).

(** [enqueue_event] for the events of a page. *)
Inductive Delivery := Delivered | Interrupted | Broken (message : string).

Fixpoint deliver (last : SessionCursor) (room : option nat) (events : list SessionEventEnvelope) :
    list SessionEventEnvelope * SessionCursor * Delivery :=
  match events with
  | [] => ([], last, Delivered)
  | e :: events =>
      if negb (is_next_cursor last (env_cursor e)) then
        ([], last, Broken ("Replay event is not contiguous after Session cursor " +:+ pretty (cur_seq last)))
      else match room with
           | Some O => ([], last, Interrupted)
           | _ => let '(sent, last', d) := deliver (env_cursor e) (pred <$> room) events in (e :: sent, last', d)
           end
  end.

Inductive Worker :=
  | Requesting (last : SessionCursor) (params : SubscribeSessionParams)
  | Following (last : SessionCursor)
  | Stopped (last : SessionCursor).

Definition worker_cursor (w : Worker) : SessionCursor :=
  match w with Requesting last _ | Following last | Stopped last => last end.

Definition StreamItem := result SessionViewError SessionEventEnvelope.

(** [send_worker_error]; [heard] is false when the termination comes first. *)
Definition fail (heard : bool) (sent : list SessionEventEnvelope) (last : SessionCursor) (error : SessionViewError) :
    list StreamItem * Worker :=
  ((Ok <$> sent) ++ (if heard then [Err error] else []), Stopped last).

(** One turn of the loop of [replay_fixed_window]. *)
Definition handle_page (thread_id : string) (page_size : N) (last : SessionCursor) (params : SubscribeSessionParams)
    (page : SubscribeSessionResult) (room : option nat) (heard : bool) : list StreamItem * Worker :=
  match validate_for page params with
  | Err message => fail heard [] last (InvalidProjection message)
  | Ok _ =>
      match page_gap page with
      | Some gap => fail heard [] last (ResyncRequired gap)
      | None =>
          if page_has_more page && (page_resume_after page == sub_after params) then
            fail heard [] last (InvalidProjection "Replay page claimed more events without advancing its cursor")
          else
            let '(sent, last, delivery) := deliver last room (page_events page) in
            match delivery with
            | Broken message => fail heard sent last (InvalidProjection message)
            | Interrupted => (Ok <$> sent, Stopped last)
            | Delivered =>
                (Ok <$> sent,
                 if page_has_more page then
                   Requesting last {| sub_thread_id := thread_id; sub_after := page_resume_after page;
                                      sub_through := Some (page_through page); sub_limit := page_size |}
                 else Following last)
            end
      end
  end.

(** The parameters of the first page of a window. *)
Definition window_params (thread_id : string) (page_size : N) (last : SessionCursor) : SubscribeSessionParams :=
  {| sub_thread_id := thread_id; sub_after := last; sub_through := None; sub_limit := page_size |}.

Inductive WorkerLabel :=
  | OnPage (reply : result SdkError SubscribeSessionResult) (room : option nat) (heard : bool)
  | OnEvent (event : SessionEventEnvelope) (accepted : bool)
  | OnLagged
  | OnClosed
  | OnTermination.

(** [run_subscription_worker] *)
Definition worker_step (thread_id : string) (page_size : N) (w : Worker) (label : WorkerLabel) :
    option (list StreamItem * Worker) :=
  match w, label with
  | Requesting last params, OnPage reply room heard =>
      Some (match get_session_replay_page params reply with
            | Err error => fail heard [] last error
            | Ok page => handle_page thread_id page_size last params page room heard
            end)
  | Following last, OnEvent event accepted =>
      Some (if same_stream (env_cursor event) last && (cur_seq (env_cursor event) <=? cur_seq last)%N
            then ([], Following last)
            else if is_next_cursor last (env_cursor event) then
              if accepted then ([Ok event], Following (env_cursor event)) else ([], Stopped last)
            else ([], Requesting last (window_params thread_id page_size last)))
  | Following last, OnLagged => Some ([], Requesting last (window_params thread_id page_size last))
  | Following last, OnClosed => Some ([], Stopped last)
  | Requesting last _, OnTermination | Following last, OnTermination => Some ([], Stopped last)
  | _, _ => None
  end.

Definition CAPABILITY_SESSION_VIEWS : string := "session_views.v1".
Definition CAPABILITY_SESSION_EVENT_REPLAY : string := "session_event_replay.v1".

(** [watch_session_with_options]: the snapshot and the worker it starts; [live] is the
    subscription to the hub, which precedes the request. *)
Definition watch_session_with_options (advertised : list string) (thread_id : string) (options : SessionWatchOptions)
    (live : result SdkError ()) (reply : result SdkError SessionSnapshot) : result SessionViewError (SessionSnapshot * Worker) :=
  require_session_capability advertised CAPABILITY_SESSION_VIEWS;;
  require_session_capability advertised CAPABILITY_SESSION_EVENT_REPLAY;;
  map_err ViewSdk live;;
  snapshot ← get_session_snapshot thread_id (wo_history_limit options) reply;
  let cursor := sv_cursor snapshot in
  Ok (snapshot, Requesting cursor (window_params thread_id (so_replay_page_size (wo_subscription options)) cursor)).

(** [subscribe_session_from]: the worker and the page it starts with. *)
Definition subscribe_session_from (advertised : list string) (thread_id : string) (cursor : SessionCursor)
    (options : SubscriptionOptions) (live : result SdkError ()) (reply : result SdkError SubscribeSessionResult) :
    result SessionViewError (Worker * SubscribeSessionResult) :=
  map_err InvalidCursor (SessionCursor_validate cursor);;
  reject_if (cur_thread_id cursor != thread_id) (InvalidCursor "Session cursor belongs to another thread");;
  require_session_capability advertised CAPABILITY_SESSION_VIEWS;;
  require_session_capability advertised CAPABILITY_SESSION_EVENT_REPLAY;;
  map_err ViewSdk live;;
  let params := window_params thread_id (so_replay_page_size options) cursor in
  page ← get_session_replay_page params reply;
  match page_gap page with
  | Some gap => Err (ResyncRequired gap)
  | None => Ok (Requesting cursor params, page)
  end.

(** ** The events of one run *)

(** [RunEventSubscription::recv] over the stream's items: what successive calls
    return, until the run's last event. *)
Fixpoint run_events (turn_id : string) (items : list StreamItem) : list (result SessionViewError (SessionCursor * RunEvent)) :=
  match items with
  | [] => []
  | Err error :: items => Err error :: run_events turn_id items
  | Ok envelope :: items =>
      match env_payload envelope with
      | PayloadRunChanged _ => run_events turn_id items
      | PayloadRunEvent event =>
          if re_turn_id event != turn_id then run_events turn_id items
          else Ok (env_cursor envelope, event) ::
               match re_payload event with RunFinished _ => [] | RunStream _ => run_events turn_id items end
      end
  end.

(** ** The stream handed to the application *)

Inductive SessionHubTermination := SessionClosed | ConnectionLost (message : string).
Definition into_stream_item (t : SessionHubTermination) : option StreamItem :=
  match t with
  | SessionClosed => None
  | ConnectionLost message => Some (Err (ViewSdk (SdkChannelClosed message)))
  end.

Record SessionEventStream := { es_ended : bool; es_last_received : option SessionCursor }.

(** What the [select!] of [recv] sees: the hub dropped its sender, a new termination,
    an item of the worker, or the end of the worker. *)
Inductive StreamPoll :=
  | PollHubStopped
  | PollTermination
  | PollItem (item : StreamItem)
  | PollWorkerEnd.

(** One turn of the loop of [SessionEventStream::recv]: [inr] is a returned value. *)
Definition stream_recv (self : SessionEventStream) (termination : option SessionHubTermination) (poll : StreamPoll) :
    SessionEventStream * (() + option StreamItem) :=
  let ended := {| es_ended := true; es_last_received := es_last_received self |} in
  if es_ended self then (self, inr None) else
  match termination with
  | Some t => (ended, inr (into_stream_item t))
  | None =>
      match poll with
      | PollHubStopped => (ended, inr (Some (Err (ViewSdk (SdkChannelClosed "Session event hub stopped")))))
      | PollTermination => (self, inl ())
      | PollItem (Ok event) =>
          ({| es_ended := false; es_last_received := Some (env_cursor event) |}, inr (Some (Ok event)))
      | PollItem (Err error) => (ended, inr (Some (Err error)))
      | PollWorkerEnd => (ended, inr None)
      end
  end.
