(* ===== verification/SdkFollow.v ===== *)
(** * The daemon and a subscriber

    The composition of the registry of [ViewJournal] with the worker of [SdkViews]:
    the registry moves on between the worker's requests, and the live channel
    delivers published events in any order, repeated or not at all. *)

From stdpp Require Import relations.
From S2P Require Import Prelude Protocol StoreState SessionViews ViewJournal ViewLaws ViewRecords ViewRegistry SdkViews.

Section follow.
Context `{ViewExternals} (owner thread_id : string) (page_size : N).
Implicit Types (g : SessionViewRegistry) (h : gmap nat Trail) (w : Worker) (out : list StreamItem).

Record System := { sy_registry : SessionViewRegistry; sy_trails : gmap nat Trail; sy_worker : Worker; sy_out : list StreamItem }.

(** What the network lets the worker see: the daemon's page or an error of the
    request; any event that was published. *)
Inductive observes g h w : WorkerLabel → Prop :=
  | observes_page last params page room heard :
      w = Requesting last params → subscribe g owner params = Ok page → observes g h w (OnPage (Ok page) room heard)
  | observes_error error room heard : observes g h w (OnPage (Err error) room heard)
  | observes_event a first log e accepted :
      h !! a = Some (first, log) → is_Some (vg_heap g !! a) → e ∈ log → observes g h w (OnEvent e accepted)
  | observes_lag : observes g h w OnLagged
  | observes_close : observes g h w OnClosed
  | observes_termination : observes g h w OnTermination.

Inductive system_step : System → System → Prop :=
  | daemon_moves g h g' h' w out :
      serves (g, h) (g', h') →
      system_step {| sy_registry := g; sy_trails := h; sy_worker := w; sy_out := out |}
                  {| sy_registry := g'; sy_trails := h'; sy_worker := w; sy_out := out |}
  | worker_moves g h w out label items w' :
      observes g h w label → worker_step thread_id page_size w label = Some (items, w') →
      system_step {| sy_registry := g; sy_trails := h; sy_worker := w; sy_out := out |}
                  {| sy_registry := g; sy_trails := h; sy_worker := w'; sy_out := out ++ items |}.

(** The events an application has received. *)
Definition received (out : list StreamItem) : list SessionEventEnvelope :=
  omap (λ item, match item with Ok e => Some e | Err _ => None end) out.
Definition failures (out : list StreamItem) : list SessionViewError :=
  omap (λ item, match item with Ok _ => None | Err e => Some e end) out.

Lemma received_app out out' : received (out ++ out') = received out ++ received out'.
Proof. apply omap_app. Qed.
Lemma failures_app out out' : failures (out ++ out') = failures out ++ failures out'.
Proof. apply omap_app. Qed.
Lemma received_Ok events : received (Ok <$> events) = events.
Proof. induction events as [|e events IH]; [done|]. unfold received in *. simpl. by f_equal. Qed.
Lemma failures_Ok events : failures (Ok <$> events) = [].
Proof. by induction events. Qed.

(** ** Delivery *)

Lemma is_next_cursor_true c c' :
  is_next_cursor c c' = true ↔ same_place c c' ∧ cur_seq c' = (cur_seq c + 1)%N ∧ (cur_seq c' <= u64_max)%N.
Proof.
  unfold is_next_cursor. rewrite andb_true_iff, same_stream_true.
  destruct (checked_add (cur_seq c) 1) as [n|] eqn:Hn; simpl.
  - apply checked_add_Some in Hn as [-> ?]. rewrite bool_decide_eq_true. naive_solver lia.
  - apply checked_add_None in Hn. naive_solver lia.
Qed.

(** The worker forwards a part of a chain from its cursor on. *)
Lemma deliver_chain last events c' room sent last' d :
  chain last events c' → deliver last room events = (sent, last', d) →
  ∃ rest, events = sent ++ rest ∧ chain last sent last' ∧ (∀ m, d ≠ Broken m) ∧ (d = Delivered → rest = []).
Proof.
  revert last room sent last' d. induction events as [|e events IH]; intros last room sent last' d Hch Hd; simpl in *.
  - injection Hd as <- <- <-. by exists [].
  - destruct Hch as (Hn & Hv & Hch). pose proof Hn as Hn'. apply checked_next_Ok in Hn' as (_ & ? & ? & ?).
    rewrite (proj2 (is_next_cursor_true _ _)) in Hd by done. simpl in Hd.
    assert (∀ rm, (let '(s, l, dd) := deliver (env_cursor e) rm events in (e :: s, l, dd)) = (sent, last', d) →
      ∃ rest, e :: events = sent ++ rest ∧ chain last sent last' ∧ (∀ m, d ≠ Broken m) ∧ (d = Delivered → rest = [])) as Hrec.
    { intros rm Hr. destruct (deliver (env_cursor e) rm events) as [[s l] dd] eqn:Hs. injection Hr as <- <- <-.
      destruct (IH _ _ _ _ _ Hch Hs) as (rest & -> & ? & ? & ?). by exists rest. }
    destruct room as [[|n]|]; [|by eapply Hrec..]. injection Hd as <- <- <-. by exists (e :: events).
Qed.

(** ** What a subscriber has seen *)

(** The errors an honest daemon can cause. *)
Inductive honest_failure : SessionViewError → Prop :=
  | failure_resync gap : honest_failure (ResyncRequired gap)
  | failure_request error : honest_failure (replay_error error).

Inductive failures_ok w : list SessionViewError → Prop :=
  | no_failure : failures_ok w []
  | one_failure last error : w = Stopped last → honest_failure error → failures_ok w [error].

Record Watching (a : nat) (first : SessionSnapshot) (start : N) g h w out : Prop := {
  wa_ok : RegistryOk g h;
  wa_heap : is_Some (vg_heap g !! a);
  wa_place : same_place (sv_cursor first) (worker_cursor w);
  wa_log : ∃ log, h !! a = Some (first, log) ∧
    (start <= cur_seq (worker_cursor w) <= N.of_nat (length log))%N ∧
    received out = segment log start (cur_seq (worker_cursor w));
  wa_request : ∀ last params, w = Requesting last params →
    sub_thread_id params = thread_id ∧ sub_after params = last ∧ sub_limit params = page_size;
  wa_failures : failures_ok w (failures out);
}.

(** The record behind a trail. *)
Lemma trail_record g h a first log :
  RegistryOk g h → h !! a = Some (first, log) → is_Some (vg_heap g !! a) →
  ∃ r, vg_heap g !! a = Some r ∧ History first log r ∧ same_place (sv_cursor first) (vr_cursor r)
    ∧ cur_seq (vr_cursor r) = N.of_nat (length log).
Proof.
  intros Hok Hl [r Hr]. exists r. destruct (ro_heap _ _ Hok _ _ Hr) as (_ & f & l & Hl' & Hh). simplify_eq.
  split_and!; try done; [by eapply chain_place, Hh|by eapply history_length].
Qed.

(** A segment is the chain between its ends. *)
Lemma segment_chain first log r c c' :
  History first log r → same_place (sv_cursor first) c → same_place c c' →
  (cur_seq c <= cur_seq c')%N → (cur_seq c' <= N.of_nat (length log))%N → chain c (segment log (cur_seq c) (cur_seq c')) c'.
Proof.
  intros Hh Hp Hp' Hle Hle'. pose proof (hi_chain _ _ _ Hh) as Hch. pose proof (history_length _ _ _ Hh) as Hl.
  pose proof (hi_start _ _ _ Hh) as H0.
  pose proof (chain_filter _ _ _ c c' Hch Hp ltac:(by etrans) ltac:(lia) Hle ltac:(lia)) as Hf.
  rewrite (chain_filter_segment _ _ _ _ _ Hch) in Hf by lia. by rewrite H0, !N.sub_0_r in Hf.
Qed.

Lemma chain_functional c es c1 c2 : chain c es c1 → chain c es c2 → c1 = c2.
Proof. intros <-%chain_last <-%chain_last. done. Qed.

Lemma Watching_daemon a first start g h g' h' w out :
  serves (g, h) (g', h') → Watching a first start g h w out → Watching a first start g' h' w out.
Proof.
  intros Hs [Hok Hheap Hp (log & Hl & Hle & Hr) Hreq Hf].
  destruct (serves_trails _ _ _ _ _ _ _ Hs Hok Hl Hheap) as (Hheap' & more & Hl').
  constructor; try done; [by eapply serves_ok|]. exists (log ++ more). rewrite length_app.
  split_and!; [done|lia|lia|]. rewrite segment_prefix by lia. done.
Qed.

(** Appending what the worker emits. *)
Lemma Watching_emit a first start g h w out sent last w' errors :
  Watching a first start g h w out → (∀ log, h !! a = Some (first, log) →
    sent = segment log (cur_seq (worker_cursor w)) (cur_seq last) ∧
    (cur_seq (worker_cursor w) <= cur_seq last <= N.of_nat (length log))%N) →
  same_place (worker_cursor w) last → worker_cursor w' = last → (∀ l, w ≠ Stopped l) →
  (∀ l params, w' = Requesting l params →
    sub_thread_id params = thread_id ∧ sub_after params = l ∧ sub_limit params = page_size) →
  failures_ok w' (failures errors) → received errors = [] →
  Watching a first start g h w' (out ++ (Ok <$> sent) ++ errors).
Proof.
  intros [Hok Hheap Hp (log & Hl & Hle & Hr) Hreq Hf] Hseg Hpl <- Hns Hreq' Hf' Hre.
  destruct (Hseg log Hl) as [-> Hle']. constructor; try done; [by etrans| |].
  - exists log. split_and!; [done|lia|lia|]. rewrite !received_app, received_Ok, Hre, Hr, app_nil_r.
    symmetry. apply segment_app. lia.
  - rewrite !failures_app, failures_Ok. inversion Hf as [He|l e Hw ? He]; [done|by destruct (Hns l)].
Qed.

Lemma fail_Watching a first start g h w out heard sent last error items w' :
  Watching a first start g h w out → (∀ log, h !! a = Some (first, log) →
    sent = segment log (cur_seq (worker_cursor w)) (cur_seq last) ∧
    (cur_seq (worker_cursor w) <= cur_seq last <= N.of_nat (length log))%N) →
  same_place (worker_cursor w) last → (∀ l, w ≠ Stopped l) → honest_failure error →
  fail heard sent last error = (items, w') → Watching a first start g h w' (out ++ items).
Proof.
  intros Hw Hseg Hp Hns He [= <- <-]. eapply Watching_emit; try done.
  - destruct heard; [by econstructor|constructor].
  - by destruct heard.
Qed.

Lemma stay_segment a first start g h w out log :
  Watching a first start g h w out → h !! a = Some (first, log) →
  [] = segment log (cur_seq (worker_cursor w)) (cur_seq (worker_cursor w)) ∧
  (cur_seq (worker_cursor w) <= cur_seq (worker_cursor w) <= N.of_nat (length log))%N.
Proof.
  intros [_ _ _ (log' & Hl & Hle & _) _ _] Hl'. simplify_eq. split; [by rewrite segment_nil|lia].
Qed.

Lemma Watching_page a first start g h last params out page room heard items w' :
  Watching a first start g h (Requesting last params) out → subscribe g owner params = Ok page →
  handle_page thread_id page_size last params page room heard = (items, w') →
  Watching a first start g h w' (out ++ items).
Proof.
  intros Hw Hs Hp. pose proof Hw as [Hok Hheap Hpl (log & Hl & Hle & _) Hreq _]. simpl in *.
  destruct (Hreq _ _ eq_refl) as (Htid & Hafter & Hlimit).
  destruct (subscribe_contract _ _ _ _ _ Hok Hs) as [Hv Hc]. unfold handle_page in Hp. rewrite Hc in Hp.
  destruct (page_gap page) as [gap|] eqn:Hgap.
  { eapply (fail_Watching _ _ _ _ _ _ _ heard [] last (ResyncRequired gap)); [exact Hw| |done|done|constructor|exact Hp].
    intros log' Hl'. by apply (stay_segment _ _ _ _ _ _ _ _ Hw). }
  destruct (subscribe_page _ _ _ _ _ Hok Hs Hgap) as
    (b & r & f & l & Ho & Hb & Hh & Hpa & Hpr & _ & [_ Hat] & Htc & Hres & Hev & Hmore).
  destruct (owned_Ok _ _ _ _ _ Ho) as (_ & Hbheap & _).
  destruct (trail_record _ _ _ _ _ Hok Hl Hheap) as (r' & Ha & Hh' & Hfp & Hlen).
  assert (b = a) as ->.
  { eapply (ro_streams _ _ Hok b a r r'); [done|done|]. rewrite Hafter in Hpa.
    destruct Hpa as [_ <-], Hfp as [_ <-], Hpl as [_ Hpl]. by symmetry. }
  simplify_eq.
  destruct (sub_params_valid _ Hv) as (_ & _ & Hlim & _).
  rewrite (proj2 (andb_false_iff _ _)) in Hp.
  2:{ rewrite Hmore. destruct (N.ltb_spec (cur_seq (page_resume_after page)) (cur_seq (page_through page))); [right|by left].
      apply bool_decide_eq_false. intros Heq%(f_equal cur_seq). lia. }
  assert (chain (sub_after params) (page_events page) (page_resume_after page)) as Hch.
  { rewrite Hev. eapply segment_chain; [exact Hh|by etrans; [|symmetry; exact Hpa]|by etrans; [|symmetry]|lia|lia]. }
  destruct (deliver _ room (page_events page)) as [[sent last'] d] eqn:Hd.
  destruct (deliver_chain _ _ _ _ _ _ _ Hch Hd) as (rest & Hsent & Hchs & Hnb & Hrest).
  pose proof (chain_seq _ _ _ Hchs) as Hls.
  assert (N.of_nat (length sent) <= cur_seq (page_resume_after page) - cur_seq (sub_after params))%N as Hlens.
  { apply (f_equal length) in Hsent. rewrite length_app in Hsent. apply chain_seq in Hch. lia. }
  assert (sent = segment log (cur_seq (sub_after params)) (cur_seq last')) as Hseg.
  { trans (take (length sent) (sent ++ rest)); [by rewrite take_app_length|].
    rewrite <-Hsent, Hev, take_segment. f_equal. lia. }
  assert (∀ items' w', items' = Ok <$> sent → worker_cursor w' = last' →
    (∀ l params0, w' = Requesting l params0 → sub_thread_id params0 = thread_id ∧ sub_after params0 = l ∧ sub_limit params0 = page_size) →
    Watching a first start g h w' (out ++ items')) as Hemit.
  { intros items' w0 -> Hwc Hreq'. rewrite <-(app_nil_r (Ok <$> sent)). eapply (Watching_emit _ _ _ _ _ _ _ sent last'); try done.
    - simpl. intros log' Hl'. simplify_eq. split; [done|lia].
    - simpl. by eapply chain_place.
    - constructor. }
  destruct d; [|by injection Hp as <- <-; apply Hemit|by destruct (Hnb message)].
  injection Hp as <- <-. apply Hemit; [done|by destruct (page_has_more page)|].
  destruct (page_has_more page); [|done]. intros l p [= <- <-]. simpl. split_and!; try done.
  specialize (Hrest eq_refl) as ->. rewrite app_nil_r in Hsent. subst sent. symmetry. by eapply chain_functional.
Qed.

(** A published event that follows the worker's cursor is the next of the log. *)
Lemma next_event_segment g h a b first log f l e last :
  RegistryOk g h → h !! a = Some (first, log) → is_Some (vg_heap g !! a) → same_place (sv_cursor first) last →
  h !! b = Some (f, l) → is_Some (vg_heap g !! b) → e ∈ l → is_next_cursor last (env_cursor e) = true →
  [e] = segment log (cur_seq last) (cur_seq (env_cursor e)) ∧ (cur_seq (env_cursor e) <= N.of_nat (length log))%N.
Proof.
  intros Hok Hl Ha Hp Hb Hbh [n He]%list_elem_of_lookup (Hsp & Hs & _)%is_next_cursor_true.
  destruct (trail_record _ _ _ _ _ Hok Hl Ha) as (ra & Hra & Hha & Hfa & _).
  destruct (trail_record _ _ _ _ _ Hok Hb Hbh) as (rb & Hrb & Hhb & Hfb & _).
  destruct (chain_lookup _ _ _ _ _ (hi_chain _ _ _ Hhb) He) as [Hse Hpe].
  assert (b = a) as ->.
  { eapply (ro_streams _ _ Hok b a rb ra); [done|done|].
    destruct Hfb as [_ <-], Hfa as [_ <-], Hpe as [_ ->], Hp as [_ ->], Hsp as [_ ->]. done. }
  simplify_eq. rewrite (hi_start _ _ _ Hhb) in Hse. pose proof (lookup_lt_Some _ _ _ He). split; [|lia].
  rewrite Hs. symmetry. apply segment_lookup. replace (N.to_nat (cur_seq last)) with n by lia. done.
Qed.

Lemma Watching_quiet a first start g h w w' out :
  Watching a first start g h w out → (∀ l, w ≠ Stopped l) → worker_cursor w' = worker_cursor w →
  (∀ l params, w' = Requesting l params →
    sub_thread_id params = thread_id ∧ sub_after params = l ∧ sub_limit params = page_size) →
  Watching a first start g h w' (out ++ []).
Proof.
  intros Hw Hns Hc Hreq. eapply (Watching_emit _ _ _ _ _ _ _ [] (worker_cursor w) _ []); try done; [|constructor].
  intros log Hl. by eapply stay_segment.
Qed.

Lemma Watching_worker a first start g h w out label items w' :
  observes g h w label → worker_step thread_id page_size w label = Some (items, w') →
  Watching a first start g h w out → Watching a first start g h w' (out ++ items).
Proof.
  intros Hobs Hstep Hw.
  destruct Hobs as [last params page room heard Hrq Hs|error room heard|b f l e accepted Hb Hbh He| | |];
    destruct w as [last' params'|last'|last']; simpl in Hstep; try done; apply Some_inj in Hstep.
  - injection Hrq as -> ->. unfold get_session_replay_page in Hstep. simpl in Hstep.
    destruct (subscribe_contract _ _ _ _ _ (wa_ok _ _ _ _ _ _ _ Hw) Hs) as [_ Hc]. rewrite Hc in Hstep. simpl in Hstep.
    by eapply Watching_page.
  - eapply (fail_Watching _ _ _ _ _ _ _ heard [] last' (replay_error error)); [exact Hw| |done|done|constructor|exact Hstep].
    intros log Hl. by eapply (stay_segment _ _ _ _ _ _ _ _ Hw).
  - destruct (same_stream _ _ && _).
    { injection Hstep as <- <-. by eapply Watching_quiet. }
    destruct (is_next_cursor last' (env_cursor e)) eqn:Hn.
    + destruct accepted; injection Hstep as <- <-; [|by eapply Watching_quiet].
      change [Ok e] with ((Ok <$> [e] : list StreamItem) ++ []).
      eapply (Watching_emit _ _ _ _ _ _ _ [e] (env_cursor e) _ []); [exact Hw| |by apply is_next_cursor_true in Hn as [? _]|done|done|done|constructor|done].
      intros log Hl. destruct Hw as [Hok Hheap Hp _ _ _].
      destruct (next_event_segment _ _ _ _ _ _ _ _ _ _ Hok Hl Hheap Hp Hb Hbh He Hn) as [Hseg Hle].
      apply is_next_cursor_true in Hn as (_ & Hs & _). simpl. split; [done|lia].
    + injection Hstep as <- <-. eapply Watching_quiet; [exact Hw|done|done|]. by intros l0 p [= <- <-].
  - injection Hstep as <- <-. eapply Watching_quiet; [exact Hw|done|done|]. by intros l0 p [= <- <-].
  - injection Hstep as <- <-. by eapply Watching_quiet.
  - injection Hstep as <- <-. by eapply Watching_quiet.
  - injection Hstep as <- <-. by eapply Watching_quiet.
Qed.

Lemma Watching_system a first start x y :
  rtc system_step x y →
  Watching a first start (sy_registry x) (sy_trails x) (sy_worker x) (sy_out x) →
  Watching a first start (sy_registry y) (sy_trails y) (sy_worker y) (sy_out y).
Proof.
  induction 1 as [|x y z Hs _ IH]; [done|]. intros Hw. apply IH. destruct Hs; simpl in *.
  - by eapply Watching_daemon.
  - by eapply Watching_worker.
Qed.

(** The trails only grow. *)
Lemma system_trails a first log x y :
  rtc system_step x y → RegistryOk (sy_registry x) (sy_trails x) → is_Some (vg_heap (sy_registry x) !! a) →
  sy_trails x !! a = Some (first, log) → ∃ more, sy_trails y !! a = Some (first, log ++ more).
Proof.
  intros Hr. revert log. induction Hr as [x|x y z Hs _ IH]; intros log Hok Hh Hl; [exists []; by rewrite app_nil_r|].
  destruct Hs as [g h g' h' w out Hs|]; simpl in *; [|by apply IH].
  destruct (serves_trails _ _ _ _ _ _ _ Hs Hok Hl Hh) as (Hh' & more & Hl').
  destruct (IH _ (serves_ok _ _ _ _ Hs Hok) Hh' Hl') as [more' ->]. exists (more ++ more'). by rewrite app_assoc.
Qed.

(** ** A window of pages *)

(** What the worker does with the daemon's answers until the window is complete,
    while the daemon does nothing else. *)
Fixpoint fetch_window (fuel : nat) g w : list StreamItem * Worker :=
  match fuel, w with
  | S fuel, Requesting last params =>
      let reply := map_err (SdkRpc INVALID_PARAMS) (subscribe g owner params) in
      match worker_step thread_id page_size w (OnPage reply None true) with
      | Some (items, w') => let '(more, w'') := fetch_window fuel g w' in (items ++ more, w'')
      | None => ([], w)
      end
  | _, _ => ([], w)
  end.

Lemma deliver_all last events c' : chain last events c' → deliver last None events = (events, c', Delivered).
Proof.
  revert last. induction events as [|e events IH]; intros last; simpl; [by intros ->|].
  intros (Hn & _ & Hch). apply checked_next_Ok in Hn as (_ & ? & ? & ?).
  rewrite (proj2 (is_next_cursor_true _ _)) by done. simpl. by rewrite (IH _ Hch).
Qed.

Definition page_size_valid : Prop := (0 < page_size <= MAX_SESSION_REPLAY_PAGE_LIMIT)%N.

(** A page of a window whose end is the record's cursor. *)
Lemma window_page g h a r first log last params :
  RegistryOk g h → page_size_valid → owned g thread_id owner = Ok (a, r) → h !! a = Some (first, log) →
  sub_thread_id params = thread_id → sub_after params = last → sub_limit params = page_size →
  (∀ t, sub_through params = Some t → t = vr_cursor r) →
  same_place last (vr_cursor r) → (cur_seq (vr_floor r) <= cur_seq last <= cur_seq (vr_cursor r))%N →
  ∃ resume, same_place last resume ∧
    cur_seq resume = N.min (cur_seq (vr_cursor r)) (cur_seq last + page_size) ∧
    worker_step thread_id page_size (Requesting last params)
      (OnPage (map_err (SdkRpc INVALID_PARAMS) (subscribe g owner params)) None true)
    = Some (Ok <$> segment log (cur_seq last) (cur_seq resume),
            if (cur_seq resume <? cur_seq (vr_cursor r))%N
            then Requesting resume {| sub_thread_id := thread_id; sub_after := resume;
                                      sub_through := Some (vr_cursor r); sub_limit := page_size |}
            else Following resume).
Proof.
  intros Hok Hps Ho Hl Htid Haft Hlim Hthr Hp Hle.
  destruct (owned_Ok _ _ _ _ _ Ho) as (Hrec & Hheap & _).
  destruct (ro_records _ _ Hok _ _ Hrec) as (r' & Hr' & Ht). assert (r' = r) as -> by congruence.
  destruct (trail_record _ _ _ _ _ Hok Hl ltac:(by eexists)) as (r' & Hr2 & Hh & Hfp & Hlen).
  assert (r' = r) as -> by congruence. subst last.
  pose proof (snapshot_cursor_valid _ (vo_snapshot _ (hi_ok _ _ _ Hh))) as Hcv. fold (vr_cursor r) in Hcv.
  assert (SessionCursor_validate (sub_after params) = Ok ()) as Hav by (by rewrite (cursor_validate_place _ _ Hp)).
  assert (SubscribeSessionParams_validate params = Ok ()) as Hv.
  { unfold page_size_valid in Hps. unfold SubscribeSessionParams_validate. rewrite Htid, Hlim. destruct Hp as [Hp1 Hp2].
    pose proof Hcv as Hcv'. unfold SessionCursor_validate in Hcv'. apply bind_Ok in Hcv' as ([] & Hid & _). rewrite Ht in Hid. rewrite Hid. simpl.
    pass_guards. destruct (sub_through params) as [t|]; [|done]. rewrite (Hthr t eq_refl). pass_guards.
    - apply same_stream_true. by split.
    - apply N.eqb_neq. lia. }
  destruct (replay_in_journal r params Hv Hp) as (page & Hpage & Hgap); [lia| |].
  { intros t Htt. by rewrite (Hthr t Htt). }
  assert (subscribe g owner params = Ok page) as Hs by (unfold subscribe; rewrite Htid, Ho; done).
  destruct (subscribe_contract _ _ _ _ _ Hok Hs) as [_ Hc].
  destruct (subscribe_page _ _ _ _ _ Hok Hs Hgap) as (b & r' & f & l & Ho' & Hb & _ & _ & Hpr & Hth & _ & Htc & Hres & Hev & Hmore).
  rewrite Htid, Ho in Ho'. injection Ho' as <- <-. assert (l = log) as -> by congruence.
  assert (page_through page = vr_cursor r) as Hth'.
  { rewrite Hth. destruct (sub_through params) as [t|]; [|done]. by apply Hthr. }
  rewrite Hth' in *. exists (page_resume_after page).
  assert (chain (sub_after params) (page_events page) (page_resume_after page)) as Hch.
  { rewrite Hev. eapply segment_chain; [exact Hh|etrans; [exact Hfp|by symmetry]|etrans; [exact Hp|by symmetry]|lia|lia]. }
  split_and!; [etrans; [exact Hp|by symmetry]|by rewrite Hres, Hlim|]. simpl. unfold get_session_replay_page. rewrite Hs. simpl. rewrite Hc. simpl.
  unfold handle_page. rewrite Hc, Hgap, Hmore, Hth', (deliver_all _ _ _ Hch), Hev.
  unfold page_size_valid in Hps. destruct (N.ltb_spec (cur_seq (page_resume_after page)) (cur_seq (vr_cursor r))); simpl; [|done].
  rewrite bool_decide_eq_false_2; [done|]. intros Heq%(f_equal cur_seq). lia.
Qed.

Lemma fetch_window_S fuel g last params items w :
  worker_step thread_id page_size (Requesting last params)
    (OnPage (map_err (SdkRpc INVALID_PARAMS) (subscribe g owner params)) None true) = Some (items, w) →
  fetch_window (S fuel) g (Requesting last params) = ((items ++ (fetch_window fuel g w).1), (fetch_window fuel g w).2).
Proof. intros Hs. cbn [fetch_window]. rewrite Hs. by destruct (fetch_window fuel g w). Qed.

Lemma fetch_window_complete fuel g h a r first log last params :
  RegistryOk g h → page_size_valid → owned g thread_id owner = Ok (a, r) → h !! a = Some (first, log) →
  sub_thread_id params = thread_id → sub_after params = last → sub_limit params = page_size →
  (∀ t, sub_through params = Some t → t = vr_cursor r) →
  same_place last (vr_cursor r) → (cur_seq (vr_floor r) <= cur_seq last <= cur_seq (vr_cursor r))%N →
  fuel ≠ 0 → (cur_seq (vr_cursor r) - cur_seq last <= page_size * N.of_nat fuel)%N →
  fetch_window fuel g (Requesting last params)
  = (Ok <$> segment log (cur_seq last) (cur_seq (vr_cursor r)), Following (vr_cursor r)).
Proof.
  intros Hok Hps Ho Hl. revert last params. induction fuel as [|fuel IH]; intros last params Htid Haft Hlim Hthr Hp Hle Hn Hf; [done|].
  destruct (window_page _ _ _ _ _ _ _ _ Hok Hps Ho Hl Htid Haft Hlim Hthr Hp Hle) as (resume & Hrp & Hrs & Hstep).
  assert (0 < page_size)%N as Hpos by apply Hps.
  rewrite (fetch_window_S _ _ _ _ _ _ Hstep). destruct (N.ltb_spec (cur_seq resume) (cur_seq (vr_cursor r))).
  - rewrite IH; try done; [|simpl; by intros t [= <-]|etrans; [by symmetry|done]|lia|destruct fuel; lia|lia].
    simpl. rewrite <-fmap_app, <-segment_app by lia. done.
  - assert (resume = vr_cursor r) as -> by (apply cursor_eq; [etrans; [by symmetry|done]|lia]).
    by destruct fuel; simpl; rewrite app_nil_r.
Qed.
End follow.
