(* ===== verification/ViewGuarantees.v ===== *)
(** * What the session views guarantee

    First a sample session, then the theorems.

    One session that lives through a run: begun, an item started and completed,
    finished, and retired, on a journal of three events. *)

From S2P Require Import Prelude Protocol StoreState SessionViews ViewJournal ViewLaws ViewRecords ViewRegistry SdkViews.

#[export] Instance hundred_bytes : ViewExternals := {| envelope_json_len _ := Ok 100 |}.

Definition view_limits : EventJournalLimits := {| max_events := 3; max_bytes := 1000 |}.

Definition view_run : RunSnapshot :=
  {| snap_tool_executions := []; snap_thread_id := "t"; snap_turn_id := "turn"; snap_status := RunRunning;
     snap_items := []; snap_usage := usage_default; snap_pending_approvals := []; snap_last_seq := 0;
     snap_result := None; snap_error := None |}.
Definition view_item : CanonicalItem := UserMessage "item" [].
Definition view_event (seq : N) (payload : RunEventPayload) : RunEvent :=
  {| re_thread_id := "t"; re_turn_id := "turn"; re_seq := seq; re_payload := payload |}.
Definition view_finished : RunSnapshot :=
  {| snap_tool_executions := []; snap_thread_id := "t"; snap_turn_id := "turn"; snap_status := RunCompleted;
     snap_items := [view_item]; snap_usage := usage_default; snap_pending_approvals := []; snap_last_seq := 3;
     snap_result := None; snap_error := None |}.

(** The registry after a publication. *)
Definition published (g : SessionViewRegistry) (out : result string (Prepared * SessionEventEnvelope)) : SessionViewRegistry :=
  match out with Ok (p, _) => default g (install_prepared g p) | Err _ => g end.

Definition view_0 : SessionViewRegistry := SessionViewRegistry_new view_limits.
Definition view_1 : SessionViewRegistry :=
  match registry_insert view_0 "o" "t" None ∅ [] 10 "s" with Ok g => g | Err _ => view_0 end.
Definition view_begun := prepare_begin_run view_1 "o" view_run 7 11.
Definition view_2 : SessionViewRegistry := published view_1 view_begun.
Definition view_started := prepare_run_event view_2 "o" (view_event 1 (RunStream (EvItemStarted "turn" "item" "message" None))) 12.
Definition view_3 : SessionViewRegistry := published view_2 view_started.
Definition view_completed := prepare_run_event view_3 "o" (view_event 2 (RunStream (EvItemCompleted "turn" view_item))) 13.
Definition view_4 : SessionViewRegistry := published view_3 view_completed.
Definition view_ended := prepare_run_event view_4 "o" (view_event 3 (RunFinished view_finished)) 14.
Definition view_5 : SessionViewRegistry := published view_4 view_ended.
Definition view_retired := prepare_retire_run view_5 "t" "turn" 7.
Definition view_6 : SessionViewRegistry :=
  match view_retired with Ok (Some p) => default view_5 (install_prepared view_5 p) | _ => view_5 end.

(** The events of the run, and the trails of the registry after each. *)
Definition event_of (out : result string (Prepared * SessionEventEnvelope)) : list SessionEventEnvelope :=
  match out with Ok (_, e) => [e] | Err _ => [] end.
Definition view_first : SessionSnapshot :=
  SessionSnapshot_new (SessionSummary_new "t" 10)
    {| hw_items := []; hw_start_index := 0; hw_total_items := 0; hw_capacity := 1024 |}
    {| cur_thread_id := "t"; cur_stream_id := "s"; cur_seq := 0 |}.
Definition view_log (outs : list (result string (Prepared * SessionEventEnvelope))) : gmap nat Trail :=
  {[0 := (view_first, concat (event_of <$> outs))]}.

Lemma view_1_reach : Reach view_limits view_1 (view_log []).
Proof.
  apply rtc_once.
  assert (∃ r, vg_heap view_1 !! 0 = Some r ∧ vr_snapshot r = view_first) as (r & Hr & Hs).
  { eexists. split; vm_compute; reflexivity. }
  change (view_log []) with (<[0 := (view_first, [])]> (∅ : gmap nat Trail)). rewrite <-Hs.
  apply (serves_insert view_0 ∅ "o" "t" None ∅ [] 10 "s" view_1 r); [vm_compute; reflexivity|exact Hr|done].
Qed.

(** A publication of the sample as a step of the daemon. *)
Lemma view_publishes g out outs p e :
  out = Ok (p, e) → publishes g (p, e) → is_some (install_prepared g p) = true → pp_record p = 0 →
  serves (g, view_log outs) (published g out, view_log (outs ++ [out])).
Proof.
  intros -> Hp Hi H0. unfold published. destruct (install_prepared g p) as [g'|] eqn:Hg; [simpl|done].
  replace (view_log (outs ++ [Ok (p, e)])) with (<[pp_record p := (view_first, concat (event_of <$> outs) ++ [e])]> (view_log outs)).
  - by apply serves_publish; [..|rewrite H0; apply lookup_singleton_eq].
  - unfold view_log. rewrite H0, insert_singleton. rewrite fmap_app, concat_app. done.
Qed.

Tactic Notation "view_step" uconstr(publishes_it) :=
  eapply view_publishes;
    [vm_compute; reflexivity|apply publishes_it; vm_compute; reflexivity|vm_compute; reflexivity|vm_compute; reflexivity].

Lemma view_2_step : serves (view_1, view_log []) (view_2, view_log [view_begun]).
Proof. unfold view_2. change [view_begun] with ([] ++ [view_begun]). view_step (publishes_begin view_1 "o" view_run 7 11). Qed.
Lemma view_3_step : serves (view_2, view_log [view_begun]) (view_3, view_log [view_begun; view_started]).
Proof. unfold view_3. change [view_begun; view_started] with ([view_begun] ++ [view_started]). view_step (publishes_event view_2 "o" (view_event 1 (RunStream (EvItemStarted "turn" "item" "message" None))) 12). Qed.
Lemma view_4_step :
  serves (view_3, view_log [view_begun; view_started]) (view_4, view_log [view_begun; view_started; view_completed]).
Proof.
  unfold view_4. change [view_begun; view_started; view_completed] with ([view_begun; view_started] ++ [view_completed]).
  view_step (publishes_event view_3 "o" (view_event 2 (RunStream (EvItemCompleted "turn" view_item))) 13).
Qed.
Lemma view_5_step :
  serves (view_4, view_log [view_begun; view_started; view_completed])
    (view_5, view_log [view_begun; view_started; view_completed; view_ended]).
Proof.
  unfold view_5. change [view_begun; view_started; view_completed; view_ended]
    with ([view_begun; view_started; view_completed] ++ [view_ended]).
  view_step (publishes_event view_4 "o" (view_event 3 (RunFinished view_finished)) 14).
Qed.

Lemma view_2_reach : Reach view_limits view_2 (view_log [view_begun]).
Proof. eapply rtc_r; [exact view_1_reach|exact view_2_step]. Qed.
Lemma view_4_reach : Reach view_limits view_4 (view_log [view_begun; view_started; view_completed]).
Proof. eapply rtc_r; [|exact view_4_step]. eapply rtc_r; [exact view_2_reach|exact view_3_step]. Qed.
Lemma view_5_reach : Reach view_limits view_5 (view_log [view_begun; view_started; view_completed; view_ended]).
Proof. eapply rtc_r; [exact view_4_reach|exact view_5_step]. Qed.

(** ** A subscriber of the session *)

Definition view_cursor (n : N) : SessionCursor := {| cur_thread_id := "t"; cur_stream_id := "s"; cur_seq := n |}.
Definition view_params (after : N) : SubscribeSessionParams := window_params "t" 2 (view_cursor after).
Definition view_page (g : SessionViewRegistry) (after : N) : SubscribeSessionResult :=
  match subscribe g "o" (view_params after) with
  | Ok page => page
  | Err _ => {| page_events := []; page_resume_after := view_cursor after; page_through := view_cursor after;
                page_has_more := false; page_gap := None |}
  end.
Definition view_received : list SessionEventEnvelope := concat (event_of <$> [view_started; view_completed]).

(** ** What session views guarantee

    The daemon's registry keeps the replay contract its clients check; a subscriber
    sees every published event once, in order, and rebuilds the daemon's snapshot. *)

From stdpp Require Import relations.
From S2P Require Import ViewWindow SdkFollow.

(** ** Histories of a registry *)

Section reach.
Context `{ViewExternals}.

Definition full_windows (h : gmap nat Trail) : Prop :=
  ∀ a first log, h !! a = Some (first, log) → hw_capacity (sv_history first) = MAX_SESSION_HISTORY_LIMIT.

Lemma serves_full_windows g h g' h' : serves (g, h) (g', h') → full_windows h → full_windows h'.
Proof.
  intros Hs Hw. inversion Hs as [? ? ? ? ? ? ? ? ? ? r Hi Hr|? ? p e ? f l _ _ Hl| |]; subst; [| |done|done]; intros a first log Ha.
  - apply lookup_insert_Some in Ha as [[<- [= <- <-]]|[_ Ha]]; [|by eapply Hw].
    unfold registry_insert, from_history, with_owner in Hi. inv_result.
    destruct (vg_records g !! thread_id); [done|]. inv_result. rewrite lookup_insert_eq in Hr. by simplify_eq.
  - apply lookup_insert_Some in Ha as [[<- [= <- <-]]|[_ Ha]]; [by eapply Hw|by eapply Hw].
Qed.

Lemma Reach_full_windows limits g h : Reach limits g h → full_windows h.
Proof.
  unfold Reach. intros Hr. change (full_windows (g, h).2).
  assert (full_windows (SessionViewRegistry_new limits, ∅ : gmap nat Trail).2) as H0 by done.
  induction Hr as [|x [g1 h1] z Hs _ IH]; [done|]. apply IH. destruct x. by eapply serves_full_windows.
Qed.

(** The first state of a subscriber. *)
Definition subscribed g h thread_id page_size start : System :=
  {| sy_registry := g; sy_trails := h; sy_worker := Requesting start (window_params thread_id page_size start); sy_out := [] |}.

Lemma subscribed_Watching owner thread_id page_size limits g h a r first log start :
  Reach limits g h → owned g thread_id owner = Ok (a, r) → h !! a = Some (first, log) →
  same_place start (vr_cursor r) → (cur_seq start <= cur_seq (vr_cursor r))%N →
  Watching thread_id page_size a first (cur_seq start) g h
    (Requesting start (window_params thread_id page_size start)) [].
Proof.
  intros Hr Ho Hl Hp Hle. pose proof (Reach_ok _ _ _ Hr) as Hok. destruct (owned_Ok _ _ _ _ _ Ho) as (_ & Hh & _).
  destruct (trail_record _ _ _ _ _ Hok Hl ltac:(by eexists)) as (r' & Hr' & Hhi & Hpl & Hlen). simplify_eq.
  constructor; [done|by eexists|etrans; [exact Hpl|by symmetry]| | |constructor].
  - exists log. simpl. split_and!; [done|lia|lia|]. by rewrite segment_nil.
  - by intros ? ? [= <- <-].
Qed.
End reach.

(** ** The replay contract *)

(** Every answer the daemon gives to a subscription passes the validation the
    client performs on it: a page is contiguous after the requested cursor, within
    the requested limit and high watermark, and a gap states a true reason. *)
Theorem subscription_meets_contract `{ViewExternals} limits g h owner params page :
  Reach limits g h → subscribe g owner params = Ok page → validate_for page params = Ok ().
Proof. intros Hr Hs. by destruct (subscribe_contract _ _ _ _ _ (Reach_ok _ _ _ Hr) Hs). Qed.

(** A subscriber sees every published event of its session exactly once and in
    order from its start cursor on, although the live channel may lose, repeat and
    reorder events and the daemon publishes, retires, inserts and removes between
    any two of its requests; its stream reports at most one error, as its last
    item, and only a required resynchronisation or a failed request. *)
Theorem subscribers_see_every_event `{ViewExternals} limits owner thread_id page_size g h a r first log start y :
  Reach limits g h → owned g thread_id owner = Ok (a, r) → h !! a = Some (first, log) →
  same_place start (vr_cursor r) → (cur_seq start <= cur_seq (vr_cursor r))%N →
  rtc (system_step owner thread_id page_size) (subscribed g h thread_id page_size start) y →
  ∃ log', sy_trails y !! a = Some (first, log') ∧
    received (sy_out y) = segment log' (cur_seq start) (cur_seq (worker_cursor (sy_worker y))) ∧
    (cur_seq start <= cur_seq (worker_cursor (sy_worker y)) <= N.of_nat (length log'))%N ∧
    failures_ok (sy_worker y) (failures (sy_out y)).
Proof.
  intros Hr Ho Hl Hp Hle Hrtc. pose proof (subscribed_Watching _ thread_id page_size _ _ _ _ _ _ _ _ Hr Ho Hl Hp Hle) as Hw.
  destruct (Watching_system _ _ _ _ _ _ _ _ Hrtc Hw) as [_ _ _ (log' & Hl' & Hle' & Hrec) _ Hf]. by exists log'.
Qed.

(** C21: A client that gets a snapshot with any history limit and applies the events
    of its stream holds the daemon's own snapshot, cut to that limit, at every
    position it reaches, as long as no event reuses the id of an item of the
    daemon's window; at the record's cursor that is the record's snapshot. *)
Theorem clients_rebuild_snapshot `{ViewExternals} limits owner thread_id page_size k g h a r s y :
  Reach limits g h → owned g thread_id owner = Ok (a, r) →
  registry_get g owner {| get_thread_id := thread_id; get_history_limit := k |} = Ok s →
  rtc (system_step owner thread_id page_size) (subscribed g h thread_id page_size (sv_cursor s)) y →
  all_fresh (vr_snapshot r) (received (sy_out y)) →
  ∃ first log' s', sy_trails y !! a = Some (first, log') ∧
    state_at first log' (cur_seq (worker_cursor (sy_worker y))) = Ok s' ∧
    fold_res client_step s (received (sy_out y)) = Ok (limit_history k s') ∧
    ∀ r', vg_heap (sy_registry y) !! a = Some r' →
      cur_seq (worker_cursor (sy_worker y)) = cur_seq (vr_cursor r') → s' = vr_snapshot r'.
Proof.
  intros Hr Ho Hg Hrtc Hfresh. pose proof (Reach_ok _ _ _ Hr) as Hok.
  destruct (owned_Ok _ _ _ _ _ Ho) as (_ & Hheap & _).
  destruct (ro_heap _ _ Hok _ _ Hheap) as (_ & first & log & Hl & Hh).
  unfold registry_get in Hg. apply bind_Ok in Hg as ([] & Hv & Hg). simpl in Hg. rewrite Ho in Hg. injection Hg as <-.
  unfold GetSessionParams_validate in Hv. apply bind_Ok in Hv as ([] & _ & Hk%validate_history_capacity_Ok). simpl in Hk.
  assert (same_place (vr_cursor r) (vr_cursor r)) as Hp by done.
  pose proof (chain_place _ _ _ (hi_chain _ _ _ Hh)) as Hp'.
  pose proof (subscribed_Watching owner thread_id page_size _ _ _ _ _ _ _ _ Hr Ho Hl Hp ltac:(lia)) as Hw.
  destruct (Watching_system _ _ _ _ _ _ _ _ Hrtc Hw) as [Hok' Hheap' Hpl (log' & Hl' & Hle' & Hrec) _ _].
  destruct (trail_record _ _ _ _ _ Hok' Hl' Hheap') as (r' & Hr' & Hh' & Hfp & Hlen).
  destruct (history_state _ _ _ (cur_seq (worker_cursor (sy_worker y))) Hh') as [s' Hs'].
  exists first, log', s'. split_and!; [done|done| |].
  - destruct (system_trails _ _ _ _ _ _ _ _ Hrtc Hok ltac:(by eexists) Hl) as [more Hmore].
    simpl in *. rewrite Hmore in Hl'. injection Hl' as <-.
    pose proof (history_current _ _ _ Hh) as Hcur. pose proof (history_length _ _ _ Hh) as Hlog.
    assert (state_at first (log ++ more) (cur_seq (vr_cursor r)) = Ok (vr_snapshot r)) as Hstart.
    { rewrite <-Hcur. unfold state_at. by rewrite take_app_le by lia. }
    rewrite (state_at_segment _ _ _ _ (proj1 Hle')), Hstart in Hs'. simpl in Hs'. rewrite <-Hrec in Hs'.
    eapply follow_limit; [reflexivity| |split; [apply Hk|]|done|done].
    + rewrite Hrec. eapply segment_chain; [done|exact Hp'|by etrans; [symmetry; exact Hp'|]|apply Hle'|apply Hle'].
    + rewrite (follow_capacity _ _ _ (hi_fold _ _ _ Hh)), (Reach_full_windows _ _ _ Hr _ _ _ Hl). apply Hk.
  - intros r1 Hr1 Hc. rewrite Hr' in Hr1. injection Hr1 as <-. rewrite Hc, (history_current _ _ _ Hh') in Hs'. by injection Hs'.
Qed.

(** C39: Starting inside the journal, with a page size that the protocol allows, the
    replay of a window ends when the daemon does nothing else: after one request per page
    of missing events, and after one when nothing is missing, every event up to the
    daemon's cursor has been handed over and the worker follows live. *)
Theorem replay_window_terminates `{ViewExternals} limits owner thread_id page_size g h a r first log start :
  Reach limits g h → owned g thread_id owner = Ok (a, r) → h !! a = Some (first, log) →
  page_size_valid page_size → same_place start (vr_cursor r) →
  (cur_seq (vr_floor r) <= cur_seq start <= cur_seq (vr_cursor r))%N →
  let missing := (cur_seq (vr_cursor r) - cur_seq start)%N in
  let requests := N.to_nat (N.max 1 ((missing + page_size - 1) / page_size)) in
  fetch_window owner thread_id page_size requests g
    (Requesting start (window_params thread_id page_size start))
  = (Ok <$> segment log (cur_seq start) (cur_seq (vr_cursor r)), Following (vr_cursor r)).
Proof.
  intros Hr Ho Hl Hps Hp Hle missing requests. assert (0 < page_size)%N as Hpos by apply Hps.
  eapply fetch_window_complete; [by eapply Reach_ok|done..|unfold requests; lia|].
  fold missing. unfold requests. rewrite N2Nat.id.
  pose proof (N.div_mod (missing + page_size - 1) page_size ltac:(lia)) as Hdiv.
  pose proof (N.mod_lt (missing + page_size - 1) page_size ltac:(lia)) as Hmod. nia.
Qed.

(** C40: The journal of every record stays within its limits: at most [max_events]
    events of at most [max_bytes] serialized bytes. The record's running counter is the
    sum of the bytes of its events, each the length of what is sent; and the journal
    holds the last events without a hole, from the replay floor to the cursor. *)
Theorem journal_stays_bounded `{ViewExternals} limits g h a r :
  Reach limits g h → vg_heap g !! a = Some r →
  length (vr_journal r) <= max_events (vr_limits r) ∧ pv_journal_bytes (vr_state r) <= max_bytes (vr_limits r) ∧
  pv_journal_bytes (vr_state r) = bytes_of_journal (vr_journal r) ∧
  (∀ x, x ∈ vr_journal r → envelope_json_len (je_envelope x) = Ok (je_bytes x)) ∧
  (cur_seq (vr_floor r) + N.of_nat (length (vr_journal r)) = cur_seq (vr_cursor r))%N ∧
  ∃ first log, h !! a = Some (first, log) ∧ je_envelope <$> vr_journal r = drop (N.to_nat (cur_seq (vr_floor r))) log.
Proof.
  intros Hr Ha. pose proof (Reach_ok _ _ _ Hr) as Hok. destruct (ro_heap _ _ Hok _ _ Ha) as (_ & first & log & Hl & Hh).
  pose proof (hi_ok _ _ _ Hh) as [_ Hch Hb Hlens Hme Hmb].
  apply chain_seq in Hch. rewrite length_fmap in Hch. split_and!; [done|done|done|done|done|].
  exists first, log. split; [done|]. by apply (history_journal _ _ _ Hh).
Qed.

(** Retiring a run removes every event of the run from the journal and no event
    after the run's last one, leaves the snapshot as it is and never lowers the replay
    floor. *)
Theorem retirement_scrubs_run `{ViewExternals} limits g h thread_id turn_id identity p g' r :
  Reach limits g h → prepare_retire_run g thread_id turn_id identity = Ok (Some p) →
  install_prepared g p = Some g' → vg_heap g !! pp_record p = Some r →
  ∃ r', vg_heap g' !! pp_record p = Some r' ∧ vr_snapshot r' = vr_snapshot r ∧
    (∀ x, x ∈ vr_journal r' ↔ x ∈ vr_journal r ∧ (cur_seq (vr_floor r') < cur_seq (env_cursor (je_envelope x)))%N) ∧
    (∀ x, x ∈ vr_journal r → je_run_id x = Some turn_id → (cur_seq (env_cursor (je_envelope x)) <= cur_seq (vr_floor r'))%N) ∧
    (cur_seq (vr_floor r) <= cur_seq (vr_floor r'))%N ∧
    (cur_seq (vr_floor r') = cur_seq (vr_floor r) ∨
     ∃ x, x ∈ vr_journal r ∧ je_run_id x = Some turn_id ∧ cur_seq (env_cursor (je_envelope x)) = cur_seq (vr_floor r')).
Proof.
  intros Hr Hp Hi Hheap. pose proof (Reach_ok _ _ _ Hr) as Hok.
  destruct (retires_Retired _ _ _ _ _ _ Hok Hp) as (r0 & Hr0 & Hret). rewrite Hheap in Hr0. injection Hr0 as <-.
  rewrite (install_prepared_Some _ _ _ _ Hi Hheap). simpl. rewrite lookup_insert_eq.
  exists (install (pp_next p) r). destruct (ro_heap _ _ Hok _ _ Hheap) as (_ & first & log & _ & Hh).
  destruct (Retired_split _ _ _ (hi_ok _ _ _ Hh) Hret) as [Hin Hrun].
  split_and!; [done|apply Hret|exact Hin|exact Hrun|apply Hret|apply Hret].
Qed.

(** ** Witnesses *)

Lemma subscription_meets_contract_witness : validate_for (view_page view_5 1) (view_params 1) = Ok ().
Proof. apply (subscription_meets_contract view_limits view_5 _ "o" _ _ view_5_reach). vm_compute. reflexivity. Defined.

(** A subscriber that starts after the run began, lags, and catches up. *)
Definition view_followed : System :=
  {| sy_registry := view_4; sy_trails := view_log [view_begun; view_started; view_completed];
     sy_worker := Following (view_cursor 3); sy_out := Ok <$> view_received |}.

Lemma view_follow :
  rtc (system_step "o" "t" 2) (subscribed view_2 (view_log [view_begun]) "t" 2 (view_cursor 1))
    view_followed.
Proof.
  unfold view_followed. eapply rtc_l.
  { apply (worker_moves "o" "t" 2 _ _ _ _ (OnPage (Ok (view_page view_2 1)) None true) [] (Following (view_cursor 1)));
      [eapply observes_page; [reflexivity|vm_compute; reflexivity]|vm_compute; reflexivity]. }
  eapply rtc_l; [apply daemon_moves, view_3_step|]. eapply rtc_l; [apply daemon_moves, view_4_step|].
  eapply rtc_l.
  { apply (worker_moves "o" "t" 2 _ _ _ _ OnLagged [] (Requesting (view_cursor 1) (view_params 1))); [constructor|reflexivity]. }
  apply rtc_once. change (Ok <$> view_received) with ([] ++ [] ++ (Ok <$> view_received : list StreamItem)).
  rewrite (app_assoc [] []).
  apply (worker_moves "o" "t" 2 _ _ _ _ (OnPage (Ok (view_page view_4 1)) None true));
    [eapply observes_page; [reflexivity|vm_compute; reflexivity]|vm_compute; reflexivity].
Qed.

Definition view_record (g : SessionViewRegistry) : SessionViewRecord :=
  match owned g "t" "o" with
  | Ok (_, r) => r
  | Err _ => {| vr_owner := ""; vr_limits := view_limits;
                vr_state := {| pv_snapshot := view_first; pv_journal := []; pv_journal_bytes := 0;
                               pv_replay_floor := view_cursor 0; pv_run_identities := ∅ |} |}
  end.

Lemma subscribers_see_every_event_witness :
  received (sy_out view_followed) = segment (concat (event_of <$> [view_begun; view_started; view_completed])) 1 3.
Proof.
  destruct (subscribers_see_every_event view_limits "o" "t" 2 view_2 (view_log [view_begun]) 0 (view_record view_2) view_first
    (concat (event_of <$> [view_begun])) (view_cursor 1) view_followed view_2_reach) as (log' & Hl & Hrec & _ & _);
    [vm_compute; reflexivity|apply lookup_singleton_eq|split; reflexivity|vm_compute; discriminate|apply view_follow|].
  assert (log' = concat (event_of <$> [view_begun; view_started; view_completed])) as ->.
  { cbn [sy_trails view_followed] in Hl. unfold view_log in Hl. rewrite lookup_singleton_eq in Hl. apply Some_inj in Hl. exact (eq_sym (f_equal snd Hl)). }
  exact Hrec.
Defined.

Lemma clients_rebuild_snapshot_witness :
  ∃ s', fold_res client_step (limit_history 1 (vr_snapshot (view_record view_2))) view_received = Ok (limit_history 1 s') ∧
        s' = vr_snapshot (view_record view_4).
Proof.
  destruct (clients_rebuild_snapshot view_limits "o" "t" 2 1 view_2 (view_log [view_begun]) 0 (view_record view_2)
    (limit_history 1 (vr_snapshot (view_record view_2))) view_followed view_2_reach) as (first & log' & s' & _ & _ & Hf & Hs);
    [vm_compute; reflexivity|vm_compute; reflexivity|
     replace (sv_cursor (limit_history 1 (vr_snapshot (view_record view_2)))) with (view_cursor 1)
       by (vm_compute; reflexivity); exact view_follow|vm_compute; set_solver|].
  exists s'. split; [exact Hf|]. apply Hs; vm_compute; reflexivity.
Defined.

(** Two missing events in pages of two: one request *)
Lemma replay_window_terminates_witness :
  fetch_window "o" "t" 2 1 view_4 (Requesting (view_cursor 1) (view_params 1)) = (Ok <$> view_received, Following (view_cursor 3)).
Proof.
  exact (replay_window_terminates view_limits "o" "t" 2 view_4 _ 0 (view_record view_4) view_first _ (view_cursor 1)
    view_4_reach ltac:(vm_compute; reflexivity) (lookup_singleton_eq _ _) ltac:(split; vm_compute; congruence)
    ltac:(split; reflexivity) ltac:(split; vm_compute; discriminate)).
Defined.

Lemma journal_stays_bounded_witness :
  pv_journal_bytes (vr_state (view_record view_5)) = bytes_of_journal (vr_journal (view_record view_5)).
Proof. by apply (journal_stays_bounded view_limits view_5 _ 0 (view_record view_5) view_5_reach ltac:(vm_compute; reflexivity)). Defined.

Definition view_retirement : Prepared :=
  match view_retired with
  | Ok (Some p) => p
  | _ => {| pp_record := 1; pp_owner := ""; pp_source := view_cursor 0; pp_next := vr_state (view_record view_0) |}
  end.

Lemma retirement_scrubs_run_witness :
  ∃ r', vg_heap view_6 !! 0 = Some r' ∧ vr_snapshot r' = vr_snapshot (view_record view_5).
Proof.
  destruct (retirement_scrubs_run view_limits view_5 _ "t" "turn" 7 view_retirement view_6 (view_record view_5) view_5_reach)
    as (r' & Hr & Hs & _); [vm_compute; reflexivity|vm_compute; reflexivity|vm_compute; reflexivity|].
  exists r'. split; [|exact Hs]. replace 0 with (pp_record view_retirement) by (vm_compute; reflexivity). exact Hr.
Defined.
