(* ===== verification/SessionManagement.v ===== *)
(** * Session management: the second version of the session view

    [crates/whale-protocol/src/session_management.rs]: snapshots with a life cycle,
    their events and reducer (which runs the reducer of [SessionViews] for the events
    of runs), the replay contract, and the parameters and results of the list, history
    and metadata requests with their validators. *)

From stdpp Require Import pretty.
From S2P Require Import Prelude Protocol StoreState StoreConfig SessionViews.

Definition MAX_SESSION_LIST_PAGE_LIMIT : N := 256.
Definition MAX_SESSION_HISTORY_PAGE_LIMIT : N := 256.
Definition MAX_SESSION_MANAGEMENT_PAGE_BYTES : N := 1048576.
Definition MAX_SESSION_CURSOR_TOKEN_BYTES : N := 4096.
Definition MAX_SESSION_V2_EVENT_JOURNAL_EVENTS : nat := 1024.
Definition MAX_SESSION_V2_EVENT_JOURNAL_BYTES : N := 4194304.
Definition MAX_SESSION_MANAGEMENT_HISTORY_BYTES : N := 33554432.
Definition MAX_CLOSED_SESSION_TOMBSTONES_PER_OWNER : nat := 128.
Definition MAX_CLOSED_SESSION_TOMBSTONE_BYTES_PER_OWNER : N := 67108864.
Definition CLOSED_SESSION_TOMBSTONE_TTL_MS : N := 600000.
Definition SESSION_MANAGEMENT_CURSOR_TTL_MS : N := 300000.

(** ** Identities *)

(** [value.chars().any(char::is_control)]: the characters below U+0020, U+007F and,
    encoded as the byte 194 and a byte from 128 to 159, U+0080 to U+009F. *)
Fixpoint any_control (l : list nat) : bool :=
  match l with
  | [] => false
  | b :: rest =>
      (b <? 32) || (b =? 127)
      || match rest with b' :: _ => (b =? 194) && (128 <=? b') && (b' <=? 159) | [] => false end
      || any_control rest
  end.

Definition validate_identity_v2 (value label : string) : result string () :=
  reject_if (blank value || (trim value != value) || any_control (bytes_of value))
    (label +:+ " must be nonempty, unpadded, and printable").

Definition validate_token (value label : string) : result string () :=
  validate_identity_v2 value label;;
  reject_if (MAX_SESSION_CURSOR_TOKEN_BYTES <? N.of_nat (String.length value))%N
    (label +:+ " exceeds " +:+ pretty MAX_SESSION_CURSOR_TOKEN_BYTES +:+ " encoded bytes").

Definition validate_bounded_limit (value maximum : N) (label : string) : result string () :=
  reject_if ((value =? 0)%N || (maximum <? value)%N)
    (label +:+ " must be between 1 and " +:+ pretty maximum).

(** ** Data *)

Inductive SessionLifecycleState := LifecycleOpen | LifecycleClosing | LifecycleClosed.
#[export] Instance SessionLifecycleState_eq_dec : EqDecision SessionLifecycleState.
Proof. solve_decision. Defined.

Inductive SessionPersistenceV2 :=
  | Ephemeral
  | Persistent (recovery_id : string).

Record SessionCursorV2 := { cv_thread_id : string; cv_stream_id : string; cv_seq : N }.
#[export] Instance SessionCursorV2_eq_dec : EqDecision SessionCursorV2.
Proof. solve_decision. Defined.

Record SessionSummaryV2 := {
  s2_thread_id : string;
  s2_agent_name : option string;
  s2_metadata : Map;
  s2_created_at_ms : N;
  s2_updated_at_ms : N;
  s2_view_revision : N;
}.

Record SessionSnapshotV2 := {
  v2_summary : SessionSummaryV2;
  v2_lifecycle : SessionLifecycleState;
  v2_persistence : SessionPersistenceV2;
  v2_history : SessionHistoryWindow;
  v2_active_run : option SessionRunView;
  v2_last_run : option SessionRunSummary;
  v2_cursor : SessionCursorV2;
}.

Inductive SessionEventPayloadV2 :=
  | V2RunChanged (run : SessionRunView)
  | V2RunEvent (event : RunEvent)
  | V2MetadataChanged (metadata : Map)
  | V2LifecycleChanged (lifecycle : SessionLifecycleState).

Record SessionEventEnvelopeV2 := {
  ev2_thread_id : string;
  ev2_cursor : SessionCursorV2;
  ev2_occurred_at_ms : N;
  ev2_payload : SessionEventPayloadV2;
}.

Inductive SessionProjectionErrorV2 :=
  | InvalidStateV2 (message : string)
  | StreamMismatchV2 (expected actual : SessionCursorV2)
  | SequenceGapV2 (expected actual : SessionCursorV2).

(** ** Cursors *)

Definition SessionCursorV2_validate (self : SessionCursorV2) : result string () :=
  validate_identity_v2 (cv_thread_id self) "thread_id";;
  validate_identity_v2 (cv_stream_id self) "stream_id".

Definition checked_next_v2 (self : SessionCursorV2) : result string SessionCursorV2 :=
  SessionCursorV2_validate self;;
  seq ← ok_or (checked_add (cv_seq self) 1) "V2 Session cursor sequence is exhausted";
  Ok {| cv_thread_id := cv_thread_id self; cv_stream_id := cv_stream_id self; cv_seq := seq |}.

Definition same_stream_v2 (self other : SessionCursorV2) : bool :=
  (cv_thread_id self == cv_thread_id other) && (cv_stream_id self == cv_stream_id other).

(** The cursor of the first version with the same fields. *)
Definition cursor_v1 (self : SessionCursorV2) : SessionCursor :=
  {| cur_thread_id := cv_thread_id self; cur_stream_id := cv_stream_id self; cur_seq := cv_seq self |}.

(** ** Constructors *)

Definition SessionSummaryV2_new (thread_id : string) (created_at_ms : N) : SessionSummaryV2 :=
  {| s2_thread_id := thread_id; s2_agent_name := None; s2_metadata := ∅;
     s2_created_at_ms := created_at_ms; s2_updated_at_ms := created_at_ms; s2_view_revision := 0 |}.

Definition SessionSnapshotV2_new (summary : SessionSummaryV2) (lifecycle : SessionLifecycleState)
    (persistence : SessionPersistenceV2) (history : SessionHistoryWindow) (cursor : SessionCursorV2) :
    SessionSnapshotV2 :=
  {| v2_summary := summary; v2_lifecycle := lifecycle; v2_persistence := persistence; v2_history := history;
     v2_active_run := None; v2_last_run := None; v2_cursor := cursor |}.

(** ** Field updates *)

Definition v2_eta (s : SessionSnapshotV2) : SessionSnapshotV2 :=
  {| v2_summary := v2_summary s; v2_lifecycle := v2_lifecycle s; v2_persistence := v2_persistence s;
     v2_history := v2_history s; v2_active_run := v2_active_run s; v2_last_run := v2_last_run s;
     v2_cursor := v2_cursor s |}.
Definition set_summary_v2 (v : SessionSummaryV2) (s : SessionSnapshotV2) : SessionSnapshotV2 :=
  ltac:(update_field v2_eta v2_summary v s).
Definition set_lifecycle_v2 (v : SessionLifecycleState) (s : SessionSnapshotV2) : SessionSnapshotV2 :=
  ltac:(update_field v2_eta v2_lifecycle v s).
Definition set_history_v2 (v : SessionHistoryWindow) (s : SessionSnapshotV2) : SessionSnapshotV2 :=
  ltac:(update_field v2_eta v2_history v s).
Definition set_active_run_v2 (v : option SessionRunView) (s : SessionSnapshotV2) : SessionSnapshotV2 :=
  ltac:(update_field v2_eta v2_active_run v s).
Definition set_last_run_v2 (v : option SessionRunSummary) (s : SessionSnapshotV2) : SessionSnapshotV2 :=
  ltac:(update_field v2_eta v2_last_run v s).
Definition set_cursor_v2 (v : SessionCursorV2) (s : SessionSnapshotV2) : SessionSnapshotV2 :=
  ltac:(update_field v2_eta v2_cursor v s).

Definition s2_eta (s : SessionSummaryV2) : SessionSummaryV2 :=
  {| s2_thread_id := s2_thread_id s; s2_agent_name := s2_agent_name s; s2_metadata := s2_metadata s;
     s2_created_at_ms := s2_created_at_ms s; s2_updated_at_ms := s2_updated_at_ms s;
     s2_view_revision := s2_view_revision s |}.
Definition set_metadata_s2 (v : Map) (s : SessionSummaryV2) : SessionSummaryV2 :=
  ltac:(update_field s2_eta s2_metadata v s).
Definition set_agent_name_s2 (v : option string) (s : SessionSummaryV2) : SessionSummaryV2 :=
  ltac:(update_field s2_eta s2_agent_name v s).
Definition set_updated_s2 (v : N) (s : SessionSummaryV2) : SessionSummaryV2 :=
  ltac:(update_field s2_eta s2_updated_at_ms v s).
Definition set_revision_s2 (v : N) (s : SessionSummaryV2) : SessionSummaryV2 :=
  ltac:(update_field s2_eta s2_view_revision v s).

Section with_externals.
Context `{Externals}.

(** ** Validators *)

Definition SessionPersistenceV2_validate (self : SessionPersistenceV2) : result string () :=
  match self with
  | Ephemeral => Ok ()
  | Persistent recovery_id =>
      reject_if (negb (uuid_parse_ok recovery_id)) "Persistent Session recovery_id must be a UUID"
  end.

Definition SessionSummaryV2_validate (self : SessionSummaryV2) : result string () :=
  validate_identity_v2 (s2_thread_id self) "thread_id";;
  reject_if (is_some_and (s2_agent_name self) padded_or_blank)
    "agent_name must be nonempty and unpadded when present";;
  reject_if (s2_updated_at_ms self <? s2_created_at_ms self)%N "updated_at_ms must not precede created_at_ms".

Definition SessionSnapshotV2_validate (self : SessionSnapshotV2) : result string () :=
  SessionSummaryV2_validate (v2_summary self);;
  SessionPersistenceV2_validate (v2_persistence self);;
  SessionHistoryWindow_validate (v2_history self);;
  SessionCursorV2_validate (v2_cursor self);;
  reject_if (s2_thread_id (v2_summary self) != cv_thread_id (v2_cursor self))
    "V2 Session snapshot cursor belongs to another thread";;
  reject_if (s2_view_revision (v2_summary self) != cv_seq (v2_cursor self))
    "V2 Session view revision and cursor sequence must match";;
  match v2_active_run self with
  | Some run =>
      SessionRunView_validate run;;
      reject_if (snap_thread_id (rv_snapshot run) != s2_thread_id (v2_summary self))
        "Active Run belongs to another V2 Session";;
      reject_if (v2_lifecycle self == LifecycleClosed) "A Closed V2 Session cannot retain an active Run"
  | None => Ok ()
  end;;
  match v2_last_run self with Some run => SessionRunSummary_validate run | None => Ok () end.

(** The envelope of the first version that carries a payload of an envelope of the
    second. *)
Definition legacy_envelope (self : SessionEventEnvelopeV2) (payload : SessionEventPayload) : SessionEventEnvelope :=
  {| env_thread_id := ev2_thread_id self; env_cursor := cursor_v1 (ev2_cursor self);
     env_occurred_at_ms := ev2_occurred_at_ms self; env_payload := payload |}.

Definition SessionEventEnvelopeV2_validate (self : SessionEventEnvelopeV2) : result string () :=
  validate_identity_v2 (ev2_thread_id self) "thread_id";;
  SessionCursorV2_validate (ev2_cursor self);;
  reject_if (cv_thread_id (ev2_cursor self) != ev2_thread_id self)
    "V2 Session event cursor belongs to another thread";;
  reject_if (cv_seq (ev2_cursor self) =? 0)%N "V2 Session event sequence must be positive";;
  match ev2_payload self with
  | V2RunChanged run =>
      SessionRunView_validate run;;
      reject_if (snap_thread_id (rv_snapshot run) != ev2_thread_id self) "Changed Run belongs to another V2 Session"
  | V2RunEvent event => SessionEventEnvelope_validate (legacy_envelope self (PayloadRunEvent event))
  | V2MetadataChanged metadata => validate_session_metadata_replacement metadata
  | V2LifecycleChanged _ => Ok ()
  end.

(** ** The reducer *)

(** The snapshot of the first version that [apply_v1_payload] builds. *)
Definition legacy_snapshot (self : SessionSnapshotV2) : SessionSnapshot :=
  {| sv_summary :=
       {| ss_thread_id := s2_thread_id (v2_summary self); ss_agent_name := s2_agent_name (v2_summary self);
          ss_metadata := s2_metadata (v2_summary self); ss_created_at_ms := s2_created_at_ms (v2_summary self);
          ss_updated_at_ms := s2_updated_at_ms (v2_summary self); ss_revision := cv_seq (v2_cursor self) |};
     sv_history := v2_history self; sv_active_run := v2_active_run self; sv_last_run := v2_last_run self;
     sv_cursor := cursor_v1 (v2_cursor self) |}.

Definition apply_v1_payload (self : SessionSnapshotV2) (envelope : SessionEventEnvelopeV2)
    (payload : SessionEventPayload) : result string SessionSnapshotV2 :=
  '(snapshot, _) ← map_err projection_error_text
                     (SessionViews.apply (legacy_snapshot self) (legacy_envelope envelope payload));
  Ok (set_last_run_v2 (sv_last_run snapshot) (set_active_run_v2 (sv_active_run snapshot)
        (set_history_v2 (sv_history snapshot) self))).

(** The guard of [RunChanged] while the session closes. *)
Definition check_closing_run (self : SessionSnapshotV2) (run : SessionRunView) : result string () :=
  if v2_lifecycle self == LifecycleClosing then
    current ← ok_or (v2_active_run self) "Closing V2 Session cannot accept a new active Run";
    reject_if (snap_turn_id (rv_snapshot current) != snap_turn_id (rv_snapshot run))
      "Closing V2 Session Run identity changed"
  else Ok ().

Definition apply_payload_v2 (self : SessionSnapshotV2) (envelope : SessionEventEnvelopeV2) :
    result string SessionSnapshotV2 :=
  match ev2_payload envelope with
  | V2RunChanged run =>
      check_closing_run self run;;
      apply_v1_payload self envelope (PayloadRunChanged run)
  | V2RunEvent event => apply_v1_payload self envelope (PayloadRunEvent event)
  | V2MetadataChanged metadata =>
      reject_if (v2_lifecycle self != LifecycleOpen) "Session metadata can change only while Open";;
      validate_session_metadata_replacement metadata;;
      Ok (set_summary_v2 (set_metadata_s2 metadata (v2_summary self)) self)
  | V2LifecycleChanged lifecycle =>
      match v2_lifecycle self, lifecycle with
      | LifecycleOpen, LifecycleClosing => Ok (set_lifecycle_v2 LifecycleClosing self)
      | LifecycleClosing, LifecycleClosed =>
          reject_if (is_some (v2_active_run self)) "V2 Session cannot become Closed with an active Run";;
          Ok (set_lifecycle_v2 LifecycleClosed self)
      | _, _ => Err "Invalid V2 Session lifecycle transition"
      end
  end.

(** The stamp of an applied event. *)
Definition stamp_v2 (envelope : SessionEventEnvelopeV2) (s : SessionSnapshotV2) : SessionSnapshotV2 :=
  set_cursor_v2 (ev2_cursor envelope)
    (set_summary_v2
       (set_revision_s2 (cv_seq (ev2_cursor envelope))
          (set_updated_s2 (N.max (s2_updated_at_ms (v2_summary s)) (ev2_occurred_at_ms envelope)) (v2_summary s))) s).

(** [SessionSnapshotV2::apply]: the snapshot after it and whether it changed; an error
    leaves the snapshot as it was. *)
Definition apply_v2 (self : SessionSnapshotV2) (envelope : SessionEventEnvelopeV2) :
    result SessionProjectionErrorV2 (SessionSnapshotV2 * bool) :=
  map_err InvalidStateV2 (SessionSnapshotV2_validate self);;
  map_err InvalidStateV2 (SessionEventEnvelopeV2_validate envelope);;
  reject_if ((ev2_thread_id envelope != s2_thread_id (v2_summary self)) ||
             negb (same_stream_v2 (v2_cursor self) (ev2_cursor envelope)))
    (StreamMismatchV2 (v2_cursor self) (ev2_cursor envelope));;
  if (cv_seq (ev2_cursor envelope) <=? cv_seq (v2_cursor self))%N then Ok (self, false) else
  reject_if (v2_lifecycle self == LifecycleClosed)
    (InvalidStateV2 "A Closed V2 Session cannot apply another event");;
  expected ← map_err InvalidStateV2 (checked_next_v2 (v2_cursor self));
  reject_if (ev2_cursor envelope != expected) (SequenceGapV2 expected (ev2_cursor envelope));;
  next ← map_err InvalidStateV2 (apply_payload_v2 self envelope);
  let next := stamp_v2 envelope next in
  map_err InvalidStateV2 (SessionSnapshotV2_validate next);;
  Ok (next, true).

(** [Display] of [SessionProjectionErrorV2] *)
Definition projection_error_text_v2 (e : SessionProjectionErrorV2) : string :=
  match e with
  | InvalidStateV2 message => "Invalid V2 Session projection: " +:+ message
  | StreamMismatchV2 e a =>
      "V2 Session projection stream mismatch: expected " +:+ cv_thread_id e +:+ "/" +:+ cv_stream_id e
        +:+ ", got " +:+ cv_thread_id a +:+ "/" +:+ cv_stream_id a
  | SequenceGapV2 e a =>
      "V2 Session projection sequence gap: expected " +:+ cv_thread_id e +:+ "/" +:+ cv_stream_id e +:+ "/"
        +:+ pretty (cv_seq e) +:+ ", got " +:+ cv_thread_id a +:+ "/" +:+ cv_stream_id a +:+ "/"
        +:+ pretty (cv_seq a)
  end.
End with_externals.

(** ** Reading: get and replay *)

Record GetSessionV2Params := { g2_thread_id : string; g2_history_limit : N }.

Definition GetSessionV2Params_validate (self : GetSessionV2Params) : result string () :=
  validate_identity_v2 (g2_thread_id self) "thread_id";;
  validate_bounded_limit (g2_history_limit self) MAX_SESSION_HISTORY_LIMIT "V2 Session history limit".

Record SubscribeSessionV2Params := {
  u2_thread_id : string;
  u2_after : SessionCursorV2;
  u2_through : option SessionCursorV2;
  u2_limit : N;
}.

Definition SubscribeSessionV2Params_validate (self : SubscribeSessionV2Params) : result string () :=
  validate_identity_v2 (u2_thread_id self) "thread_id";;
  SessionCursorV2_validate (u2_after self);;
  reject_if (cv_thread_id (u2_after self) != u2_thread_id self) "V2 replay cursor belongs to another thread";;
  match u2_through self with
  | Some through =>
      SessionCursorV2_validate through;;
      reject_if (negb (same_stream_v2 (u2_after self) through))
        "V2 replay window cursors belong to different streams";;
      reject_if (cv_seq through <? cv_seq (u2_after self))%N "V2 replay cursor is ahead of the fixed window"
  | None => Ok ()
  end;;
  validate_bounded_limit (u2_limit self) MAX_SESSION_REPLAY_PAGE_LIMIT "V2 replay page limit".

Inductive ReplayGapReasonV2 := RetentionV2 | StreamResetV2.

Record ReplayGapV2 := {
  gap2_reason : ReplayGapReasonV2;
  gap2_requested : SessionCursorV2;
  gap2_replay_floor : SessionCursorV2;
  gap2_current : SessionCursorV2;
  gap2_view_revision : N;
}.

Definition ReplayGapV2_validate (self : ReplayGapV2) : result string () :=
  SessionCursorV2_validate (gap2_requested self);;
  SessionCursorV2_validate (gap2_replay_floor self);;
  SessionCursorV2_validate (gap2_current self);;
  reject_if (cv_thread_id (gap2_requested self) != cv_thread_id (gap2_current self))
    "V2 replay gap cursors belong to different threads";;
  reject_if (negb (same_stream_v2 (gap2_replay_floor self) (gap2_current self)) ||
             (cv_seq (gap2_current self) <? cv_seq (gap2_replay_floor self))%N)
    "V2 replay floor is outside the current stream";;
  reject_if (gap2_view_revision self != cv_seq (gap2_current self))
    "V2 replay gap revision must match current cursor";;
  match gap2_reason self with
  | RetentionV2 =>
      reject_if (negb (same_stream_v2 (gap2_requested self) (gap2_current self)) ||
                 (cv_seq (gap2_replay_floor self) <=? cv_seq (gap2_requested self))%N)
        "V2 retention gap requires a cursor below the floor"
  | StreamResetV2 =>
      reject_if (cv_stream_id (gap2_requested self) == cv_stream_id (gap2_current self))
        "V2 stream reset requires a new stream identity"
  end.

Record SubscribeSessionV2Result := {
  page2_events : list SessionEventEnvelopeV2;
  page2_resume_after : SessionCursorV2;
  page2_through : SessionCursorV2;
  page2_lifecycle : SessionLifecycleState;
  page2_has_more : bool;
  page2_gap : option ReplayGapV2;
}.

(** ** Cursors of pages *)

(** [SessionListCursor::new] and [SessionHistoryPageCursor::new]: checked tokens. *)
Definition SessionListCursor_new (value : string) : result string string :=
  validate_token value "Session list cursor";;
  Ok value.
Definition SessionHistoryPageCursor_new (value : string) : result string string :=
  validate_token value "Session history page cursor";;
  Ok value.

(** ** The list of sessions *)

Record SessionRunHeadline := {
  hl_turn_id : string;
  hl_status : RunStatus;
  hl_accepted_at_ms : N;
  hl_updated_at_ms : N;
}.

Definition SessionRunHeadline_validate (self : SessionRunHeadline) : result string () :=
  validate_identity_v2 (hl_turn_id self) "turn_id";;
  reject_if (is_terminal (hl_status self)) "Active Run headline cannot be terminal";;
  reject_if (hl_updated_at_ms self <? hl_accepted_at_ms self)%N "Run headline update precedes acceptance".

Record SessionListEntry := {
  le_summary : SessionSummaryV2;
  le_lifecycle : SessionLifecycleState;
  le_persistence : SessionPersistenceV2;
  le_cursor : SessionCursorV2;
  le_history_total_items : N;
  le_active_run : option SessionRunHeadline;
  le_last_run : option SessionRunSummary;
}.

Record ListSessionsParams := { ls_cursor : option string; ls_limit : N }.
Record ListSessionsResult := { lr_sessions : list SessionListEntry; lr_next_cursor : option string }.

Definition ListSessionsParams_validate (self : ListSessionsParams) : result string () :=
  match ls_cursor self with Some cursor => validate_token cursor "Session list cursor" | None => Ok () end;;
  validate_bounded_limit (ls_limit self) MAX_SESSION_LIST_PAGE_LIMIT "Session list page limit".

(** ** History pages *)

Record SessionHistoryAnchor := { an_thread_id : string; an_stream_id : string; an_index : N }.
#[export] Instance SessionHistoryAnchor_eq_dec : EqDecision SessionHistoryAnchor.
Proof. solve_decision. Defined.

Definition SessionHistoryAnchor_validate (self : SessionHistoryAnchor) : result string () :=
  validate_identity_v2 (an_thread_id self) "thread_id";;
  validate_identity_v2 (an_stream_id self) "stream_id".
Definition same_anchor_stream (self other : SessionHistoryAnchor) : bool :=
  (an_thread_id self == an_thread_id other) && (an_stream_id self == an_stream_id other).

Record GetSessionHistoryParams := {
  gh_thread_id : string;
  gh_before : option SessionHistoryAnchor;
  gh_cursor : option string;
  gh_limit : N;
}.

Definition GetSessionHistoryParams_validate (self : GetSessionHistoryParams) : result string () :=
  validate_identity_v2 (gh_thread_id self) "thread_id";;
  reject_if (is_some (gh_before self) && is_some (gh_cursor self))
    "History before anchor and page cursor are mutually exclusive";;
  match gh_before self with
  | Some before =>
      SessionHistoryAnchor_validate before;;
      reject_if (an_thread_id before != gh_thread_id self) "History anchor belongs to another thread"
  | None => Ok ()
  end;;
  match gh_cursor self with Some cursor => validate_token cursor "Session history page cursor" | None => Ok () end;;
  validate_bounded_limit (gh_limit self) MAX_SESSION_HISTORY_PAGE_LIMIT "Session history page limit".

Record GetSessionHistoryResult := {
  hr_items : list CanonicalItem;
  hr_start_index : N;
  hr_end_index : N;
  hr_through : SessionHistoryAnchor;
  hr_current_end : SessionHistoryAnchor;
  hr_next_cursor : option string;
}.

(** ** Replacing the metadata *)

Record ReplaceSessionMetadataParams := {
  rm_thread_id : string;
  rm_expected_view_revision : N;
  rm_metadata : Map;
}.
Record ReplaceSessionMetadataResult := {
  rr_summary : SessionSummaryV2;
  rr_cursor : SessionCursorV2;
  rr_changed : bool;
}.

(** ** What the code takes from other crates

    The numbers of bytes [serde_json] writes for the values whose size is bounded. *)
Class ManagementExternals := {
  envelope_v2_json_len : SessionEventEnvelopeV2 → result string N;
  snapshot_v2_json_len : SessionSnapshotV2 → N;
  list_page_json_len : ListSessionsResult → N;
  history_page_json_len : GetSessionHistoryResult → N;
}.

Section results.
Context `{Externals} `{ManagementExternals}.

Definition validate_management_page_bytes (json_len : N) (label : string) : result string () :=
  bytes ← serialized_bytes json_len;
  reject_if (MAX_SESSION_MANAGEMENT_PAGE_BYTES <? bytes)%N
    (label +:+ " exceeds " +:+ pretty MAX_SESSION_MANAGEMENT_PAGE_BYTES +:+ " serialized bytes").

(** The fixed high watermark of a gap. *)
Definition validate_gap_through_v2 (self : SubscribeSessionV2Result) (params : SubscribeSessionV2Params)
    (gap : ReplayGapV2) : result string () :=
  match gap2_reason gap with
  | RetentionV2 =>
      match u2_through params with
      | Some through => reject_if (page2_through self != through) "V2 replay changed the fixed high watermark"
      | None => reject_if (page2_through self != gap2_current gap) "Initial V2 gap did not expose current cursor"
      end
  | StreamResetV2 => reject_if (page2_through self != gap2_current gap) "V2 stream reset must expose current cursor"
  end.

(** One turn of the loop over the events of a page. *)
Definition check_page_event_v2 (through expected : SessionCursorV2) (event : SessionEventEnvelopeV2) :
    result string SessionCursorV2 :=
  SessionEventEnvelopeV2_validate event;;
  expected ← checked_next_v2 expected;
  reject_if ((ev2_cursor event != expected) || (cv_seq through <? cv_seq (ev2_cursor event))%N)
    "V2 replay events must be contiguous and ordered";;
  Ok expected.

Definition validate_page_v2 (self : SubscribeSessionV2Result) (params : SubscribeSessionV2Params) :
    result string () :=
  match u2_through params with
  | Some through => reject_if (through != page2_through self) "V2 replay changed the fixed high watermark"
  | None => Ok ()
  end;;
  reject_if (negb (same_stream_v2 (u2_after params) (page2_through self)) ||
             negb (same_stream_v2 (page2_resume_after self) (page2_through self)))
    "V2 replay result changed stream without a gap";;
  reject_if (cv_seq (page2_through self) <? cv_seq (u2_after params))%N
    "V2 replay cursor is ahead of the high watermark";;
  reject_if (u2_limit params <? N.of_nat (length (page2_events self)))%N "V2 replay page exceeds the requested limit";;
  expected ← fold_res (check_page_event_v2 (page2_through self)) (u2_after params) (page2_events self);
  reject_if (page2_resume_after self != expected) "V2 replay resume cursor is not the last returned event";;
  reject_if (negb (Bool.eqb (page2_has_more self)
                     (cv_seq (page2_resume_after self) <? cv_seq (page2_through self))%N))
    "V2 replay has_more disagrees with the fixed window".

(** [SubscribeSessionV2Result::validate_for] *)
Definition subscribe_validate_for (self : SubscribeSessionV2Result) (params : SubscribeSessionV2Params) :
    result string () :=
  SubscribeSessionV2Params_validate params;;
  SessionCursorV2_validate (page2_resume_after self);;
  SessionCursorV2_validate (page2_through self);;
  reject_if ((cv_thread_id (page2_resume_after self) != u2_thread_id params) ||
             (cv_thread_id (page2_through self) != u2_thread_id params))
    "V2 replay result belongs to another thread";;
  match page2_gap self with
  | Some gap =>
      ReplayGapV2_validate gap;;
      reject_if (gap2_requested gap != u2_after params) "V2 replay gap does not match the request";;
      validate_gap_through_v2 self params gap;;
      reject_if (negb (bool_decide (page2_events self = [])) || page2_has_more self ||
                 (page2_resume_after self != u2_after params))
        "V2 replay gap cannot contain an event page"
  | None => validate_page_v2 self params
  end.

Definition SessionListEntry_validate (self : SessionListEntry) : result string () :=
  SessionSummaryV2_validate (le_summary self);;
  SessionPersistenceV2_validate (le_persistence self);;
  SessionCursorV2_validate (le_cursor self);;
  reject_if ((s2_thread_id (le_summary self) != cv_thread_id (le_cursor self)) ||
             (s2_view_revision (le_summary self) != cv_seq (le_cursor self)))
    "Session list entry summary and cursor disagree";;
  match le_active_run self with
  | Some run =>
      SessionRunHeadline_validate run;;
      reject_if (le_lifecycle self == LifecycleClosed) "Closed Session list entry cannot have an active Run"
  | None => Ok ()
  end;;
  match le_last_run self with Some run => SessionRunSummary_validate run | None => Ok () end.

Definition list_validate_for (self : ListSessionsResult) (params : ListSessionsParams) : result string () :=
  ListSessionsParams_validate params;;
  validate_management_page_bytes (list_page_json_len self) "Session list response";;
  reject_if (ls_limit params <? N.of_nat (length (lr_sessions self)))%N
    "Session list response exceeds the requested limit";;
  fold_res (check_unique SessionListEntry_validate (λ e, s2_thread_id (le_summary e))
              "Session list response contains duplicate threads") ∅ (lr_sessions self);;
  match lr_next_cursor self with Some cursor => validate_token cursor "Session list cursor" | None => Ok () end.

(** The window of the first page of a history. *)
Definition validate_first_page (self : GetSessionHistoryResult) (params : GetSessionHistoryParams) : result string () :=
  reject_if (hr_end_index self != an_index (hr_through self)) "Initial backward history page must end at through";;
  let expected_through :=
    match gh_before params with
    | Some before => N.min (an_index before) (an_index (hr_current_end self))
    | None => an_index (hr_current_end self)
    end in
  reject_if (an_index (hr_through self) != expected_through) "Initial history page froze the wrong high watermark";;
  match gh_before params with
  | Some before => reject_if (negb (same_anchor_stream before (hr_through self)))
                     "History before anchor belongs to another stream"
  | None => Ok ()
  end.

Definition validate_history_item (item : CanonicalItem) : result string () :=
  validate_identity_v2 (item_id item) "history item_id".

(** [GetSessionHistoryResult::validate_for] *)
Definition history_validate_for (self : GetSessionHistoryResult) (params : GetSessionHistoryParams) :
    result string () :=
  GetSessionHistoryParams_validate params;;
  validate_management_page_bytes (history_page_json_len self) "Session history response";;
  SessionHistoryAnchor_validate (hr_through self);;
  SessionHistoryAnchor_validate (hr_current_end self);;
  reject_if ((an_thread_id (hr_through self) != gh_thread_id params) ||
             (an_thread_id (hr_current_end self) != gh_thread_id params) ||
             negb (same_anchor_stream (hr_through self) (hr_current_end self)))
    "History result belongs to another Session stream";;
  reject_if ((hr_end_index self <? hr_start_index self)%N ||
             (an_index (hr_through self) <? hr_end_index self)%N ||
             (an_index (hr_current_end self) <? an_index (hr_through self))%N)
    "History result indexes are outside the fixed window";;
  count ← ok_or (checked_sub (hr_end_index self) (hr_start_index self)) "History result index underflow";
  reject_if ((count != N.of_nat (length (hr_items self))) ||
             (gh_limit params <? N.of_nat (length (hr_items self)))%N)
    "History result items do not match its absolute range";;
  fold_res (check_unique validate_history_item item_id
              "History result contains duplicate canonical item identities") ∅ (hr_items self);;
  (if is_none (gh_cursor params) then validate_first_page self params else Ok ());;
  match hr_next_cursor self with Some cursor => validate_token cursor "Session history page cursor" | None => Ok () end.

Definition ReplaceSessionMetadataParams_validate (self : ReplaceSessionMetadataParams) : result string () :=
  validate_identity_v2 (rm_thread_id self) "thread_id";;
  validate_session_metadata_replacement (rm_metadata self).

(** [ReplaceSessionMetadataResult::validate_for] *)
Definition metadata_validate_for (self : ReplaceSessionMetadataResult) (params : ReplaceSessionMetadataParams) :
    result string () :=
  ReplaceSessionMetadataParams_validate params;;
  SessionSummaryV2_validate (rr_summary self);;
  SessionCursorV2_validate (rr_cursor self);;
  reject_if ((s2_thread_id (rr_summary self) != rm_thread_id params) ||
             (cv_thread_id (rr_cursor self) != rm_thread_id params) ||
             (s2_view_revision (rr_summary self) != cv_seq (rr_cursor self)))
    "Metadata result belongs to another Session revision";;
  reject_if (s2_metadata (rr_summary self) != rm_metadata params)
    "Metadata result does not contain the requested replacement";;
  expected ← (if rr_changed self
              then ok_or (checked_add (rm_expected_view_revision params) 1) "Metadata revision is exhausted"
              else Ok (rm_expected_view_revision params));
  reject_if (cv_seq (rr_cursor self) != expected) "Metadata result revision does not match changed state".
End results.

(** ** Error data *)

Inductive SessionManagementErrorData :=
  | DataUnavailable
  | DataSessionNotOpen (lifecycle : SessionLifecycleState)
  | DataRevisionConflict (expected_view_revision current_view_revision : N) (current : SessionCursorV2)
  | DataListCursorInvalid
  | DataListCursorExpired
  | DataHistoryCursorInvalid
  | DataHistoryStreamReset (requested current : SessionHistoryAnchor)
  | DataHistoryGap (requested floor current_end : SessionHistoryAnchor)
  | DataTombstoneExpired (thread_id : string)
  | DataResourceLimit (resource : string) (actual limit : N) (item_index : option N)
  | DataStorageFailure (outcome_unknown : bool).

Definition ErrorData_validate (self : SessionManagementErrorData) : result string () :=
  match self with
  | DataUnavailable | DataListCursorInvalid | DataListCursorExpired | DataHistoryCursorInvalid
  | DataStorageFailure _ => Ok ()
  | DataSessionNotOpen lifecycle => reject_if (lifecycle == LifecycleOpen) "SessionNotOpen cannot report Open"
  | DataRevisionConflict expected_view_revision current_view_revision current =>
      SessionCursorV2_validate current;;
      reject_if (cv_seq current != current_view_revision) "Revision conflict cursor and revision disagree";;
      reject_if (expected_view_revision == current_view_revision) "Revision conflict requires different revisions"
  | DataHistoryStreamReset requested current =>
      SessionHistoryAnchor_validate requested;;
      SessionHistoryAnchor_validate current;;
      reject_if ((an_thread_id requested != an_thread_id current) || (an_stream_id requested == an_stream_id current))
        "History stream reset requires a new stream"
  | DataHistoryGap requested floor current_end =>
      SessionHistoryAnchor_validate requested;;
      SessionHistoryAnchor_validate floor;;
      SessionHistoryAnchor_validate current_end;;
      reject_if (negb (same_anchor_stream requested floor) || negb (same_anchor_stream floor current_end) ||
                 (an_index floor <=? an_index requested)%N || (an_index current_end <? an_index floor)%N)
        "History gap boundaries are inconsistent"
  | DataTombstoneExpired thread_id => validate_identity_v2 thread_id "thread_id"
  | DataResourceLimit resource actual limit _ =>
      validate_identity_v2 resource "resource";;
      reject_if (actual <=? limit)%N "Resource limit error requires actual above limit"
  end.
