(* ===== verification/SessionCatalog.v ===== *)
(** * Failures of session management and the authenticated page cursors

    The failure type of [crates/whale-daemon/src/session_management.rs] with its
    JSON-RPC errors, and the opaque cursors of [session_catalog.rs]: claims written as
    JSON, base64 and an HMAC tag that binds them to a domain and an owner. The
    encodings and the HMAC are functions of other crates. *)

From stdpp Require Import pretty.
From S2P Require Import Prelude Protocol StoreState StoreConfig SessionViews SessionManagement.

(** ** Failures *)

Inductive SessionManagementFailure :=
  | InvalidParams (message : string)
  | Unavailable
  | NotOpen (lifecycle : SessionLifecycleState)
  | RevisionConflict (expected current : N) (cursor : SessionCursorV2)
  | ListCursorInvalid
  | ListCursorExpired
  | HistoryCursorInvalid
  | HistoryStreamReset (requested current : SessionHistoryAnchor)
  | HistoryGap (requested floor current : SessionHistoryAnchor)
  | TombstoneExpired (thread_id : string)
  | ResourceLimit (resource : string) (actual limit : N) (item_index : option N)
  | Storage (error : StoreError)
  | InvalidProjection (message : string).

Abbreviation Managed := (result SessionManagementFailure).

Definition SESSION_MANAGEMENT_STATE : Z := -32040.
Definition SESSION_REVISION_CONFLICT : Z := -32041.
Definition SESSION_CURSOR_REJECTED : Z := -32042.
Definition SESSION_HISTORY_GAP : Z := -32043.
Definition STORE_FAILED : Z := -32022.
Definition INVALID_PARAMS_CODE : Z := -32602.
Definition INTERNAL_ERROR_CODE : Z := -32603.

(** [JSONRPCError] before its data is turned into a [Value] *)
Record JSONRPCError := {
  err_code : Z;
  err_message : string;
  err_data : option SessionManagementErrorData;
}.

Definition management_error (code : Z) (message : string) (data : SessionManagementErrorData) : JSONRPCError :=
  {| err_code := code; err_message := message; err_data := Some data |}.

Definition outcome_unknown (error : StoreError) : bool :=
  match error with Io _ | Poisoned _ | Conflict => true | _ => false end.

Definition rpc_error (error : SessionManagementFailure) : JSONRPCError :=
  match error with
  | InvalidParams message => {| err_code := INVALID_PARAMS_CODE; err_message := message; err_data := None |}
  | Unavailable => management_error SESSION_MANAGEMENT_STATE "SessionUnavailable" DataUnavailable
  | NotOpen lifecycle => management_error SESSION_MANAGEMENT_STATE "SessionNotOpen" (DataSessionNotOpen lifecycle)
  | RevisionConflict expected current cursor =>
      management_error SESSION_REVISION_CONFLICT "SessionRevisionConflict" (DataRevisionConflict expected current cursor)
  | ListCursorInvalid => management_error SESSION_CURSOR_REJECTED "ListCursorInvalid" DataListCursorInvalid
  | ListCursorExpired => management_error SESSION_CURSOR_REJECTED "ListCursorExpired" DataListCursorExpired
  | HistoryCursorInvalid => management_error SESSION_CURSOR_REJECTED "HistoryCursorInvalid" DataHistoryCursorInvalid
  | HistoryStreamReset requested current =>
      management_error SESSION_CURSOR_REJECTED "HistoryStreamReset" (DataHistoryStreamReset requested current)
  | HistoryGap requested floor current =>
      management_error SESSION_HISTORY_GAP "HistoryGap" (DataHistoryGap requested floor current)
  | TombstoneExpired thread_id =>
      management_error SESSION_MANAGEMENT_STATE "TombstoneExpired" (DataTombstoneExpired thread_id)
  | ResourceLimit resource actual limit item_index =>
      management_error SESSION_MANAGEMENT_STATE "SessionResourceLimit"
        (DataResourceLimit resource actual limit item_index)
  | Storage error =>
      management_error STORE_FAILED "SessionStorageFailure" (DataStorageFailure (outcome_unknown error))
  | InvalidProjection message => {| err_code := INTERNAL_ERROR_CODE; err_message := message; err_data := None |}
  end.

(** The [debug_assert!] of [management_error]. *)
Definition error_data_valid (error : SessionManagementFailure) : bool :=
  match err_data (rpc_error error) with Some data => is_ok (ErrorData_validate data) | None => true end.

(** ** The codec *)

(** [serde_json::to_vec] and [serde_json::from_slice] on claims *)
Class Serde (T : Type) := {
  to_vec : T → result string string;
  from_slice : string → option T;
}.

(** [URL_SAFE_NO_PAD] and [Hmac<Sha256>] *)
Class CodecExternals := {
  b64_encode : string → string;
  b64_decode : string → option string;
  hmac_sha256 : string → string → string;
}.

Definition LIST_CURSOR_DOMAIN : string := "whale.session-list.v1".
Definition HISTORY_CURSOR_DOMAIN : string := "whale.session-history.v1".
Definition CURSOR_VERSION : N := 1.

(** The key of a codec; [now_ms] is read from a clock and is an argument here. *)
Record CursorCodec := { codec_key : string }.

Definition expiry (now_ms : N) : Managed N :=
  ok_or (checked_add now_ms SESSION_MANAGEMENT_CURSOR_TTL_MS)
    (InvalidProjection "Session cursor expiry is exhausted").
Definition is_expired (now_ms expiry_ms : N) : bool := (expiry_ms <=? now_ms)%N.

(** [update_mac]: what the tag authenticates *)
Definition mac_input (domain owner payload : string) : string :=
  domain +:+ String zero (owner +:+ String zero payload).

(** [token.split('.')] *)
Fixpoint split_dot (s : string) : list string :=
  match s with
  | EmptyString => [""]
  | String c s =>
      if bool_decide (c = "."%char) then "" :: split_dot s
      else match split_dot s with
           | part :: parts => String c part :: parts
           | [] => [String c ""]
           end
  end.

Section codec.
Context `{CodecExternals} {T : Type} `{!Serde T}.

Definition codec_encode (self : CursorCodec) (domain owner : string) (payload : T) : Managed string :=
  payload ← map_err (λ e, InvalidProjection ("Session cursor payload did not serialize: " +:+ e)) (to_vec payload);
  let tag := hmac_sha256 (codec_key self) (mac_input domain owner payload) in
  let token := b64_encode payload +:+ "." +:+ b64_encode tag in
  reject_if (MAX_SESSION_CURSOR_TOKEN_BYTES <? N.of_nat (String.length token))%N
    (InvalidProjection "Session cursor token exceeds the wire limit");;
  Ok token.

(** [decode]; [None] is [CursorDecodeError::Invalid] *)
Definition codec_decode (self : CursorCodec) (domain owner token : string) : option T :=
  if (MAX_SESSION_CURSOR_TOKEN_BYTES <? N.of_nat (String.length token))%N then None else
  match split_dot token with
  | [payload; tag] =>
      if str_is_empty payload || str_is_empty tag then None else
      payload ← b64_decode payload;
      tag ← b64_decode tag;
      if hmac_sha256 (codec_key self) (mac_input domain owner payload) == tag then from_slice payload else None
  | _ => None
  end.
End codec.

(** ** The claims of the list *)

Record ListCursorClaims := {
  lc_version : N;
  lc_kind : string;
  lc_generation : N;
  lc_after_ordinal : N;
  lc_through_ordinal : N;
  lc_expires_at_ms : N;
}.

Definition ListCursorClaims_new (generation after_ordinal through_ordinal expires_at_ms : N) : ListCursorClaims :=
  {| lc_version := CURSOR_VERSION; lc_kind := "session_list"; lc_generation := generation;
     lc_after_ordinal := after_ordinal; lc_through_ordinal := through_ordinal; lc_expires_at_ms := expires_at_ms |}.

Definition list_valid_shape (self : ListCursorClaims) : bool :=
  (lc_version self =? CURSOR_VERSION)%N && (lc_kind self == "session_list")
  && (lc_after_ordinal self <=? lc_through_ordinal self)%N.

(** ** The claims of a history *)

Definition HISTORY_CURSOR_VERSION : N := 1.

Record HistoryCursorClaims := {
  hc_version : N;
  hc_kind : string;
  hc_thread_id : string;
  hc_stream_id : string;
  hc_through : N;
  hc_before : N;
  hc_expires_at_ms : N;
}.

Definition HistoryCursorClaims_new (thread_id stream_id : string) (through before expires_at_ms : N) :
    HistoryCursorClaims :=
  {| hc_version := HISTORY_CURSOR_VERSION; hc_kind := "session_history"; hc_thread_id := thread_id;
     hc_stream_id := stream_id; hc_through := through; hc_before := before; hc_expires_at_ms := expires_at_ms |}.

Definition history_valid_shape (self : HistoryCursorClaims) : bool :=
  (hc_version self =? HISTORY_CURSOR_VERSION)%N && (hc_kind self == "session_history")
  && (hc_before self <=? hc_through self)%N && negb (blank (hc_thread_id self)) && negb (blank (hc_stream_id self)).

(** ** What the encodings promise

    Decoding inverts encoding; encoded bytes are letters, digits, [-] and [_] and are
    only empty for no bytes; a tag and a JSON text are not empty. *)

Definition is_b64_byte (b : nat) : bool :=
  ((48 <=? b) && (b <=? 57)) || ((65 <=? b) && (b <=? 90)) || ((97 <=? b) && (b <=? 122)) || (b =? 45) || (b =? 95).
Definition b64_text (s : string) : bool := forallb is_b64_byte (bytes_of s).

Class CodecLaws `{CodecExternals} := {
  b64_decode_encode s : b64_decode (b64_encode s) = Some s;
  b64_alphabet s : b64_text (b64_encode s) = true;
  b64_nonempty s : s ≠ "" → b64_encode s ≠ "";
  hmac_nonempty key message : hmac_sha256 key message ≠ "";
}.
Class SerdeLaws (T : Type) `{!Serde T} := {
  from_to_vec (t : T) bytes : to_vec t = Ok bytes → from_slice bytes = Some t;
  to_vec_nonempty (t : T) bytes : to_vec t = Ok bytes → bytes ≠ "";
}.

Lemma bytes_of_app a b : bytes_of (a +:+ b) = bytes_of a ++ bytes_of b.
Proof. unfold bytes_of. rewrite <-fmap_app. f_equal. induction a as [|c a IH]; [done|]. exact (f_equal (cons c) IH). Qed.
Lemma bytes_of_String c s : bytes_of (String c s) = nat_of_ascii c :: bytes_of s.
Proof. done. Qed.

Lemma split_dot_text s : b64_text s = true → split_dot s = [s].
Proof.
  unfold b64_text. induction s as [|c s IH]; [done|]. rewrite bytes_of_String. cbn [forallb split_dot].
  intros [Hc Hs]%andb_true_iff. rewrite IH by done. case_bool_decide as Hd; [|done]. by rewrite Hd in Hc.
Qed.

Lemma split_dot_token a b : b64_text a = true → b64_text b = true → split_dot (a +:+ "." +:+ b) = [a; b].
Proof.
  intros Ha Hb. induction a as [|c a IH]; [simpl; by rewrite split_dot_text|].
  unfold b64_text in Ha. rewrite bytes_of_String in Ha. cbn [forallb] in Ha. apply andb_true_iff in Ha as [Hc Ha].
  change (String c a +:+ "." +:+ b) with (String c (a +:+ "." +:+ b)). cbn [split_dot]. rewrite IH by done.
  case_bool_decide as Hd; [|done]. by rewrite Hd in Hc.
Qed.

Section laws.
Context `{CodecLaws} {T : Type} `{!Serde T, !SerdeLaws T}.

(** A token decodes to its claims, for the owner and domain it was made for. *)
Lemma decode_encode codec domain owner (claims : T) token :
  codec_encode codec domain owner claims = Ok token → codec_decode codec domain owner token = Some claims.
Proof.
  unfold codec_encode. intros He. inv_result. inv_bool. unfold codec_decode.
  match goal with Hv : to_vec _ = Ok ?p |- _ => rename p into payload, Hv into Hpay end.
  set (tag := hmac_sha256 _ _) in *.
  rewrite (proj2 (N.ltb_ge _ _)) by done. rewrite split_dot_token by apply b64_alphabet.
  assert (∀ s, s ≠ "" → str_is_empty (b64_encode s) = false) as Hne.
  { intros s Hs%b64_nonempty. by destruct (b64_encode s). }
  rewrite (Hne payload) by (by eapply to_vec_nonempty). rewrite (Hne tag) by apply hmac_nonempty. simpl.
  rewrite b64_decode_encode. simpl. rewrite b64_decode_encode. simpl. fold tag.
  rewrite bool_decide_eq_true_2 by done. by eapply from_to_vec.
Qed.
End laws.

(** What a tag binds: two inputs of the HMAC agree only if domain, owner and payload
    do, for owners and domains without the separator. *)
Lemma mac_input_injective d d' o o' p p' :
  0 ∉ bytes_of d → 0 ∉ bytes_of d' → 0 ∉ bytes_of o → 0 ∉ bytes_of o' →
  mac_input d o p = mac_input d' o' p' → d = d' ∧ o = o' ∧ p = p'.
Proof.
  assert (∀ (a a' b b' : list nat), 0 ∉ a → 0 ∉ a' → a ++ 0 :: b = a' ++ 0 :: b' → a = a' ∧ b = b') as Hsplit.
  { induction a as [|x a IH]; intros [|x' a'] b b' Ha Ha'; simpl; intros Heq; simplify_eq.
    - done.
    - set_solver.
    - set_solver.
    - destruct (IH a' b b') as [-> ->]; set_solver. }
  intros Hd Hd' Ho Ho' Heq. apply (f_equal bytes_of) in Heq. unfold mac_input in Heq.
  rewrite !bytes_of_app, !bytes_of_String, !bytes_of_app, !bytes_of_String in Heq.
  change (nat_of_ascii zero) with 0 in Heq.
  apply Hsplit in Heq as [Hd1 Heq]; [|done..]. apply Hsplit in Heq as [Ho1 Hp1]; [|done..].
  split_and!; by apply bytes_of_inj.
Qed.

(** ** Tokens are printable *)

Lemma strip_any_visible b l : (33 <=? b) && (b <=? 126) = true → strip_any white_space (b :: l) = None.
Proof.
  intros Hb. do 127 (destruct b as [|b]; [solve [discriminate Hb|reflexivity]|]).
  exfalso. apply andb_true_iff in Hb as [_ Hb]. apply Nat.leb_le in Hb. lia.
Qed.
Lemma strip_any_visible_rev b l : (33 <=? b) && (b <=? 126) = true → strip_any (reverse <$> white_space) (b :: l) = None.
Proof.
  intros Hb. do 127 (destruct b as [|b]; [solve [discriminate Hb|reflexivity]|]).
  exfalso. apply andb_true_iff in Hb as [_ Hb]. apply Nat.leb_le in Hb. lia.
Qed.

Lemma strip_all_none fuel set l : strip_any set l = None → strip_all fuel set l = l.
Proof. intros Hn. destruct fuel; simpl; [done|]. by rewrite Hn. Qed.

Lemma of_bytes_of s : of_bytes (bytes_of s) = s.
Proof.
  unfold of_bytes, bytes_of. rewrite <-list_fmap_compose.
  rewrite (list_fmap_ext _ id); [by rewrite list_fmap_id, string_of_list_ascii_of_string|].
  intros i c _. simpl. apply ascii_nat_embedding.
Qed.

Definition visible (b : nat) : bool := (33 <=? b) && (b <=? 126).

Lemma trim_visible s : forallb visible (bytes_of s) = true → trim s = s.
Proof.
  intros Hv. unfold trim.
  assert (strip_all (String.length s) white_space (bytes_of s) = bytes_of s) as ->.
  { destruct (bytes_of s) as [|b l]; [by destruct (String.length s)|].
    apply strip_all_none, strip_any_visible. simpl in Hv. by apply andb_true_iff in Hv as [??]. }
  assert (strip_all (length (bytes_of s)) (reverse <$> white_space) (reverse (bytes_of s)) = reverse (bytes_of s)) as ->.
  { destruct (bytes_of s) as [|b l _] using rev_ind; [done|].
    rewrite reverse_snoc. apply strip_all_none, strip_any_visible_rev.
    rewrite forallb_app in Hv. apply andb_true_iff in Hv as [_ Hv]. simpl in Hv. by rewrite andb_true_r in Hv. }
  by rewrite reverse_involutive, of_bytes_of.
Qed.

Lemma any_control_visible l : forallb visible l = true → any_control l = false.
Proof.
  induction l as [|b l IH]; simpl; [done|]. intros [Hb Hl]%andb_true_iff. rewrite IH by done.
  apply andb_true_iff in Hb as [H1%Nat.leb_le H2%Nat.leb_le]. rewrite !orb_false_r.
  rewrite (proj2 (Nat.ltb_ge b 32)), (proj2 (Nat.eqb_neq b 127)) by lia. simpl.
  destruct l; [done|]. by rewrite (proj2 (Nat.eqb_neq b 194)) by lia.
Qed.

Lemma visible_identity s label : s ≠ "" → forallb visible (bytes_of s) = true → validate_identity_v2 s label = Ok ().
Proof.
  intros Hs Hv. unfold validate_identity_v2, blank. rewrite (trim_visible _ Hv), (any_control_visible _ Hv).
  rewrite bool_decide_eq_true_2 by done. by destruct s.
Qed.

Lemma b64_visible b : is_b64_byte b = true → visible b = true.
Proof.
  unfold is_b64_byte, visible. rewrite !orb_true_iff, !andb_true_iff, !Nat.leb_le, !Nat.eqb_eq. lia.
Qed.

Section tokens.
Context `{CodecLaws} {T : Type} `{!Serde T, !SerdeLaws T}.

(** Every token passes the validation of the wire. *)
Lemma token_valid codec domain owner (claims : T) token label :
  codec_encode codec domain owner claims = Ok token → validate_token token label = Ok ().
Proof.
  unfold codec_encode. intros He. inv_result. inv_bool. unfold validate_token.
  assert (∀ s, forallb visible (bytes_of (b64_encode s)) = true) as Hvis.
  { intros s. pose proof (b64_alphabet s) as Ha. unfold b64_text in Ha. rewrite forallb_forall in Ha |- *.
    intros b Hb. by apply b64_visible, Ha. }
  rewrite visible_identity.
  - simpl. apply reject_if_false. by apply N.ltb_ge.
  - destruct (b64_encode _); simpl; done.
  - by rewrite !bytes_of_app, !forallb_app, !Hvis.
Qed.
End tokens.
