(* ===== verification/HistoryArchive.v ===== *)
(** * The archive of a session's committed history

    [crates/whale-daemon/src/session_history.rs]: a bounded queue of canonical items
    under absolute indexes, from [floor] to [end], and the pages that read it backwards
    within a fixed window. [u64] and [usize] are both 64 bits wide. The laws compare the
    archive with the log of everything it was given. *)

From S2P Require Import Prelude Protocol StoreState StoreConfig SessionViews SessionManagement SessionCatalog.

Definition MAX_SESSION_MANAGEMENT_HISTORY_ITEMS : nat := 16384.

Record ArchivedItem := { ai_item : CanonicalItem; ai_bytes : N }.

Record HistoryArchive := {
  ha_thread_id : string;
  ha_stream_id : string;
  ha_floor : N;
  ha_end : N;
  ha_items : list ArchivedItem;
  ha_bytes : N;
  ha_max_items : nat;
  ha_max_bytes : N;
}.

Section archive.
Context `{Externals} `{ManagementExternals} `{CodecExternals} `{!Serde HistoryCursorClaims}.

(** The loop that evicts from the front, with the set of identities; [expect] never
    fails, because an empty queue is within its bounds. *)
Fixpoint evict_items (max_items : nat) (max_bytes : N) (items : list ArchivedItem) (bytes floor : N)
    (identities : gset string) : Managed (list ArchivedItem * N * N * gset string) :=
  match items with
  | [] => Ok ([], bytes, floor, identities)
  | evicted :: rest =>
      if bool_decide (max_items < length items) || (max_bytes <? bytes)%N then
        floor ← ok_or (checked_add floor 1) (InvalidProjection "Canonical history floor is exhausted");
        evict_items max_items max_bytes rest (bytes - ai_bytes evicted) floor
          (identities ∖ {[item_id (ai_item evicted)]})
      else Ok (items, bytes, floor, identities)
  end.

(** One turn of the loop of [append]. *)
Definition append_one (st : HistoryArchive * gset string) (item : CanonicalItem) :
    Managed (HistoryArchive * gset string) :=
  let '(self, identities) := st in
  reject_if (blank (item_id item) || bool_decide (item_id item ∈ identities))
    (InvalidProjection "Canonical history item identities must be nonempty and unique");;
  bytes ← map_err InvalidProjection (serialized_bytes (item_json_len item));
  end_ ← ok_or (checked_add (ha_end self) 1) (InvalidProjection "Canonical history index is exhausted");
  total ← ok_or (checked_add (ha_bytes self) bytes) (InvalidProjection "Canonical history byte count is exhausted");
  '(items, total, floor, identities) ←
    evict_items (ha_max_items self) (ha_max_bytes self)
      (ha_items self ++ [{| ai_item := item; ai_bytes := bytes |}]) total (ha_floor self)
      ({[item_id item]} ∪ identities);
  Ok ({| ha_thread_id := ha_thread_id self; ha_stream_id := ha_stream_id self; ha_floor := floor; ha_end := end_;
         ha_items := items; ha_bytes := total; ha_max_items := ha_max_items self;
         ha_max_bytes := ha_max_bytes self |}, identities).

(** [prepare_append]: an error discards the copy that [append] was working on. *)
Definition prepare_append (self : HistoryArchive) (items : list CanonicalItem) : Managed HistoryArchive :=
  fst <$> fold_res append_one (self, list_to_set ((λ a, item_id (ai_item a)) <$> ha_items self)) items.

Definition empty_archive (thread_id stream_id : string) (max_items : nat) (max_bytes : N) : HistoryArchive :=
  {| ha_thread_id := thread_id; ha_stream_id := stream_id; ha_floor := 0; ha_end := 0; ha_items := [];
     ha_bytes := 0; ha_max_items := max_items; ha_max_bytes := max_bytes |}.

(** [HistoryArchive::new] *)
Definition HistoryArchive_new (thread_id stream_id : string) (history : list CanonicalItem)
    (configured_max_bytes : option N) : Managed HistoryArchive :=
  let configured_max_bytes := default u64_max configured_max_bytes in
  prepare_append
    (empty_archive thread_id stream_id MAX_SESSION_MANAGEMENT_HISTORY_ITEMS
       (N.min MAX_SESSION_MANAGEMENT_HISTORY_BYTES configured_max_bytes)) history.

Definition anchor (self : HistoryArchive) (index : N) : SessionHistoryAnchor :=
  {| an_thread_id := ha_thread_id self; an_stream_id := ha_stream_id self; an_index := index |}.

(** ** Pages *)

(** [HistoryArchive::result] *)
Definition history_result (self : HistoryArchive) (codec : CursorCodec) (now_ms : N) (owner : string)
    (start end_ through : N) (items : list CanonicalItem) : Managed GetSessionHistoryResult :=
  next_cursor ←
    (if (ha_floor self <? start)%N then
       expires ← expiry now_ms;
       token ← codec_encode codec HISTORY_CURSOR_DOMAIN owner
                 (HistoryCursorClaims_new (ha_thread_id self) (ha_stream_id self) through start expires);
       cursor ← map_err InvalidProjection (SessionHistoryPageCursor_new token);
       Ok (Some cursor)
     else Ok None);
  Ok {| hr_items := items; hr_start_index := start; hr_end_index := end_; hr_through := anchor self through;
        hr_current_end := anchor self (ha_end self); hr_next_cursor := next_cursor |}.

(** The window of a page: its fixed high watermark and where the page ends. *)
Definition page_window (self : HistoryArchive) (codec : CursorCodec) (now_ms : N) (owner : string)
    (params : GetSessionHistoryParams) : Managed (N * N) :=
  match gh_cursor params with
  | Some cursor =>
      claims ← ok_or (codec_decode codec HISTORY_CURSOR_DOMAIN owner cursor) HistoryCursorInvalid;
      reject_if (negb (history_valid_shape claims) || is_expired now_ms (hc_expires_at_ms claims))
        HistoryCursorInvalid;;
      reject_if (hc_thread_id claims != ha_thread_id self) HistoryCursorInvalid;;
      reject_if (hc_stream_id claims != ha_stream_id self)
        (HistoryStreamReset
           {| an_thread_id := hc_thread_id claims; an_stream_id := hc_stream_id claims;
              an_index := hc_before claims |} (anchor self (ha_end self)));;
      reject_if (ha_end self <? hc_through claims)%N HistoryCursorInvalid;;
      Ok (hc_through claims, hc_before claims)
  | None =>
      match gh_before params with
      | Some before =>
          reject_if ((an_thread_id before != ha_thread_id self) || (an_stream_id before != ha_stream_id self))
            (HistoryStreamReset before (anchor self (ha_end self)));;
          let through := N.min (an_index before) (ha_end self) in
          Ok (through, through)
      | None => Ok (ha_end self, ha_end self)
      end
  end.

(** The loop of [page]: at most [room] more items, read from [start] downwards. *)
Fixpoint page_loop (self : HistoryArchive) (codec : CursorCodec) (now_ms : N) (owner : string) (before through : N)
    (room : nat) (start : N) (items : list CanonicalItem) (accepted : option GetSessionHistoryResult) :
    Managed (list CanonicalItem * option GetSessionHistoryResult) :=
  match room with
  | O => Ok (items, accepted)
  | S room =>
      if (start <=? ha_floor self)%N then Ok (items, accepted) else
      let candidate_index := (start - 1)%N in
      candidate ← ok_or (ha_items self !! N.to_nat (candidate_index - ha_floor self))
                    (InvalidProjection "Canonical history archive indexes are inconsistent");
      let items' := ai_item candidate :: items in
      result ← history_result self codec now_ms owner candidate_index before through items';
      actual ← map_err InvalidProjection (serialized_bytes (history_page_json_len result));
      if (MAX_SESSION_MANAGEMENT_PAGE_BYTES <? actual)%N then
        match items with
        | [] => Err (ResourceLimit "session_history_page" actual MAX_SESSION_MANAGEMENT_PAGE_BYTES
                       (Some candidate_index))
        | _ => Ok (items, accepted)
        end
      else page_loop self codec now_ms owner before through room candidate_index items' (Some result)
  end.

(** [HistoryArchive::page] *)
Definition history_page (self : HistoryArchive) (codec : CursorCodec) (now_ms : N) (owner : string)
    (params : GetSessionHistoryParams) : Managed GetSessionHistoryResult :=
  map_err InvalidParams (GetSessionHistoryParams_validate params);;
  '(through, before) ← page_window self codec now_ms owner params;
  reject_if (before <? ha_floor self)%N
    (HistoryGap (anchor self before) (anchor self (ha_floor self)) (anchor self (ha_end self)));;
  reject_if ((through <? before)%N || (ha_end self <? through)%N) HistoryCursorInvalid;;
  '(items, accepted) ← page_loop self codec now_ms owner before through (N.to_nat (gh_limit params)) before [] None;
  result ← (match accepted with
            | Some result => Ok result
            | None => history_result self codec now_ms owner before before through items
            end);
  map_err InvalidProjection (history_validate_for result params);;
  Ok result.
End archive.

(** ** The archive and the log of everything it was given

    The archive holds the end of the log within its bounds; a page is a segment of the
    log that ends where the request says; reading back page by page, while the archive
    goes on growing, yields one segment of the log. *)

From S2P Require Import ViewJournal ViewLaws.

Section archive_laws.
Context `{Externals} `{ManagementExternals} `{CodecLaws} `{!Serde HistoryCursorClaims, !SerdeLaws HistoryCursorClaims}.
Implicit Types (a : HistoryArchive) (log : list CanonicalItem) (x : ArchivedItem).

Definition archived_bytes (items : list ArchivedItem) : N := foldr N.add 0%N (ai_bytes <$> items).
Definition archived_ids (items : list ArchivedItem) : list string := (λ x, item_id (ai_item x)) <$> items.

Lemma archived_bytes_app l k : archived_bytes (l ++ k) = (archived_bytes l + archived_bytes k)%N.
Proof. unfold archived_bytes. induction l as [|x l IH]; csimpl; [done|]. rewrite IH. lia. Qed.

(** ** Appending *)

(** The archive of a log. *)
Record Archived log a : Prop := {
  ar_end : ha_end a = N.of_nat (length log);
  ar_floor : (ha_floor a <= ha_end a)%N;
  ar_items : ai_item <$> ha_items a = drop (N.to_nat (ha_floor a)) log;
  ar_sizes : ∀ x, x ∈ ha_items a → serialized_bytes (item_json_len (ai_item x)) = Ok (ai_bytes x);
  ar_bytes : ha_bytes a = archived_bytes (ha_items a);
  ar_ids : NoDup (archived_ids (ha_items a));
  ar_count_bound : length (ha_items a) <= ha_max_items a;
  ar_bytes_bound : (ha_bytes a <= ha_max_bytes a)%N;
}.

Lemma empty_archived thread stream max_items max_bytes : Archived [] (empty_archive thread stream max_items max_bytes).
Proof. constructor; simpl; try done; try lia; [by intros ? ?%elem_of_nil|constructor]. Qed.

(** What eviction leaves: a suffix within the bounds. *)
Lemma evict_items_Ok max_items max_bytes items bytes floor ids items' bytes' floor' ids' :
  evict_items max_items max_bytes items bytes floor ids = Ok (items', bytes', floor', ids') →
  bytes = archived_bytes items → NoDup (archived_ids items) → ids = list_to_set (archived_ids items) →
  ∃ pre, items = pre ++ items' ∧ floor' = (floor + N.of_nat (length pre))%N ∧ bytes' = archived_bytes items' ∧
    ids' = list_to_set (archived_ids items') ∧ length items' <= max_items ∧ (bytes' <= max_bytes)%N.
Proof.
  revert bytes floor ids. induction items as [|x items IH]; intros bytes floor ids He Hb Hnd Hids; simpl in He.
  { simplify_eq. exists []. split_and!; try done; simpl; unfold archived_bytes; simpl; lia. }
  destruct (_ || _) eqn:Hover; inv_result.
  - match goal with Hr : evict_items _ _ items _ _ _ = _ |- _ => rename Hr into He end.
    apply IH in He as (pre & -> & -> & -> & -> & ? & ?).
    + exists (x :: pre). rewrite length_cons. split_and!; try done. lia.
    + subst bytes. unfold archived_bytes. csimpl. lia.
    + by apply NoDup_cons in Hnd as [_ ?].
    + apply NoDup_cons in Hnd as [Hx _]. subst ids. simpl. set_solver.
  - exists []. inv_bool. simpl in *. split_and!; try done; lia.
Qed.

(** The state of the loop of [append]: the archive so far and its identities. *)
Definition Appending log (st : HistoryArchive * gset string) : Prop :=
  Archived log st.1 ∧ st.2 = list_to_set (archived_ids (ha_items st.1)).

Definition same_archive a a' : Prop :=
  ha_thread_id a = ha_thread_id a' ∧ ha_stream_id a = ha_stream_id a' ∧
  ha_max_items a = ha_max_items a' ∧ ha_max_bytes a = ha_max_bytes a'.
#[export] Instance same_archive_equivalence : Equivalence same_archive.
Proof. split; repeat intros ?; unfold same_archive in *; naive_solver congruence. Qed.

Lemma append_one_Ok log st item st' :
  Appending log st → append_one st item = Ok st' →
  Appending (log ++ [item]) st' ∧ same_archive st.1 st'.1 ∧ (ha_floor st.1 <= ha_floor st'.1)%N.
Proof.
  destruct st as [a ids]. intros [[Hend Hfl Hit Hsz Hby Hnd Hcb Hbb] Hids] Ha. simpl in *. inv_result. inv_bool.
  match goal with He : evict_items _ _ _ _ _ _ = Ok (?its, _, _, _) |- _ => rename its into kept; apply evict_items_Ok in He as
    (pre & Heq & -> & -> & -> & Hc & Hb) end.
  - split; [|by split; [split_and!|simpl; lia]]. split; [|done].
    assert (length (pre ++ kept) = S (length (ha_items a))) as Hlen by (rewrite <-Heq, length_app; simpl; lia).
    rewrite length_app in Hlen. assert (length (ha_items a) = length log - N.to_nat (ha_floor a)) as Hl.
    { rewrite <-(length_fmap ai_item), Hit, length_drop. done. }
    constructor; simpl; try done.
    + rewrite length_app. simpl. lia.
    + lia.
    + assert (ai_item <$> pre ++ kept = drop (N.to_nat (ha_floor a)) (log ++ [item])) as Hall.
      { rewrite <-Heq, fmap_app, Hit, drop_app_le by lia. done. }
      rewrite fmap_app in Hall. rewrite N2Nat.inj_add, Nat2N.id, <-drop_drop, <-Hall.
      rewrite drop_app_length'; [done|by rewrite length_fmap].
    + intros y Hx. assert (y ∈ pre ++ kept) as Hin by (apply elem_of_app; by right).
      rewrite <-Heq in Hin. apply elem_of_app in Hin as [?|Hin%list_elem_of_singleton]; [by apply Hsz|by rewrite Hin].
    + assert (NoDup (archived_ids (pre ++ kept))) as Hall.
      { rewrite <-Heq. unfold archived_ids. rewrite fmap_app. apply NoDup_app. split_and!; [done| |apply NoDup_singleton].
        intros y Hy Heqy%list_elem_of_singleton. subst y. simpl in *. set_solver. }
      unfold archived_ids in *. rewrite fmap_app in Hall. by apply NoDup_app in Hall as (_ & _ & ?).
  - by rewrite Hby, archived_bytes_app; unfold archived_bytes; simpl; lia.
  - unfold archived_ids. rewrite fmap_app. apply NoDup_app. split_and!; [done| |apply NoDup_singleton].
    intros y Hy Heqy%list_elem_of_singleton. subst y. simpl in *. set_solver.
  - unfold archived_ids in *. rewrite fmap_app. set_solver.
Qed.

Lemma prepare_append_archived log a items a' :
  Archived log a → prepare_append a items = Ok a' →
  Archived (log ++ items) a' ∧ same_archive a a' ∧ (ha_floor a <= ha_floor a')%N.
Proof.
  intros Ha Hp. unfold prepare_append in Hp.
  destruct (fold_res _ _ _) as [[b ids]|] eqn:Hf; [|done]. injection Hp as <-.
  eapply (fold_res_ind (λ done st, Appending (log ++ done) st ∧ same_archive a st.1 ∧ (ha_floor a <= ha_floor st.1)%N)) in Hf.
  - by destruct Hf as ([??] & ? & ?).
  - rewrite app_nil_r. by split; [split|].
  - intros done_ item st1 st2 (Hs1 & Hs2 & Hs3) _ Ho. apply (append_one_Ok (log ++ done_)) in Ho as (? & ? & ?); [|done].
    rewrite app_assoc. split_and!; [done|by etrans|lia].
Qed.

Lemma HistoryArchive_new_archived thread stream history limit a :
  HistoryArchive_new thread stream history limit = Ok a →
  Archived history a ∧ ha_thread_id a = thread ∧ ha_stream_id a = stream.
Proof.
  intros Hn. apply (prepare_append_archived []) in Hn as (Ha & (<- & <- & _) & _); [|apply empty_archived].
  done.
Qed.

Lemma archived_lookup log a (i : N) :
  Archived log a → (ha_floor a <= i)%N → (i < ha_end a)%N →
  ∃ x, ha_items a !! N.to_nat (i - ha_floor a) = Some x ∧ log !! N.to_nat i = Some (ai_item x).
Proof.
  intros Ha Hf He. pose proof (ar_items _ _ Ha) as Hi. pose proof (ar_end _ _ Ha).
  assert (log !! N.to_nat i = (ai_item <$> ha_items a) !! N.to_nat (i - ha_floor a)) as Hl.
  { rewrite Hi, lookup_drop. f_equal. lia. }
  rewrite list_lookup_fmap in Hl. destruct (lookup_lt_is_Some_2 log (N.to_nat i)) as [y Hy]; [lia|].
  rewrite Hy in Hl. destruct (ha_items a !! _) as [x|]; [|done]. simplify_eq/=. by exists x.
Qed.

(** ** One page *)

Section page.
Context (log : list CanonicalItem) (a : HistoryArchive) (codec : CursorCodec) (now : N) (owner : string).
Context (before through : N).
Hypothesis Ha : Archived log a.
Hypothesis Hbt : (before <= through)%N.
Hypothesis Hte : (through <= ha_end a)%N.

(** A failure to write a cursor or a page: nothing about the request. *)
Definition encoding_failure (e : SessionManagementFailure) : Prop :=
  e = InvalidProjection "Session cursor expiry is exhausted" ∧ (u64_max < now + SESSION_MANAGEMENT_CURSOR_TTL_MS)%N ∨
  e = InvalidProjection "Session cursor token exceeds the wire limit" ∨
  e = InvalidProjection "Serialized byte count overflow" ∨
  ∃ m, e = InvalidProjection ("Session cursor payload did not serialize: " +:+ m).

(** What the loop has read: the items between [start] and the end of the page. *)
Definition Reading (start : N) (items : list CanonicalItem) (accepted : option GetSessionHistoryResult) : Prop :=
  items = segment log start before ∧ (ha_floor a <= start <= before)%N ∧
  match accepted with
  | None => start = before
  | Some r => (start < before)%N ∧ history_result a codec now owner start before through items = Ok r ∧
              ∃ n, serialized_bytes (history_page_json_len r) = Ok n ∧ (n <= MAX_SESSION_MANAGEMENT_PAGE_BYTES)%N
  end.

Lemma reading_start : (ha_floor a <= before)%N → Reading before [] None.
Proof. intros ?. unfold Reading. rewrite segment_nil by lia. by split_and!; try lia. Qed.

Lemma reading_read start items accepted : Reading start items accepted → items ≠ [] → (start < before)%N.
Proof. intros (-> & Hle & _) Hne. destruct (N.lt_ge_cases start before); [done|]. by rewrite segment_nil in Hne. Qed.

Lemma history_result_Err start end_ items e :
  history_result a codec now owner start end_ through items = Err e → encoding_failure e.
Proof.
  unfold history_result. intros He. apply bind_Err in He as [He|(? & _ & ?)]; [|done].
  destruct (_ <? _)%N; [|done]. apply bind_Err in He as [He|(ex & Hex & He)].
  { unfold expiry, ok_or in He. destruct (checked_add _ _) eqn:Hc; [done|]. apply checked_add_None in Hc.
    left. split; [congruence|done]. }
  apply bind_Err in He as [He|(token & Htok & He)].
  - unfold codec_encode in He. apply bind_Err in He as [He|(payload & _ & He)].
    + destruct (to_vec _) as [|m]; simpl in He; [done|]. do 3 right. exists m. congruence.
    + apply bind_Err in He as [He|(? & _ & ?)]; [|done]. apply reject_if_Err in He as [_ <-]. right. by left.
  - unfold SessionHistoryPageCursor_new in He. rewrite (token_valid _ _ _ _ _ _ Htok) in He. done.
Qed.

Lemma page_loop_spec room start items accepted :
  Reading start items accepted →
  match page_loop a codec now owner before through room start items accepted with
  | Ok (items', accepted') =>
      ∃ start', Reading start' items' accepted' ∧ (start' <= start)%N ∧ (start - start' <= N.of_nat room)%N ∧
        (items = [] → 0 < room → (ha_floor a < start)%N → (start' < start)%N)
  | Err e => encoding_failure e ∨ ∃ actual index,
      e = ResourceLimit "session_history_page" actual MAX_SESSION_MANAGEMENT_PAGE_BYTES (Some index)
      ∧ (MAX_SESSION_MANAGEMENT_PAGE_BYTES < actual)%N
  end.
Proof.
  revert start items accepted. induction room as [|room IH]; intros start items accepted Hr; simpl.
  { exists start. split_and!; [done|lia..]. }
  destruct (N.leb_spec start (ha_floor a)) as [Hle|Hlt].
  { exists start. split_and!; [done|lia..]. }
  pose proof Hr as (Hitems & Hb & _).
  destruct (archived_lookup log a (start - 1) Ha) as (x & Hx & Hlog); [lia..|].
  rewrite Hx. cbn [ok_or mbind result_bind].
  destruct (history_result a codec now owner (start - 1) before through (ai_item x :: items)) as [r|e] eqn:Hres;
    cbn [ok_or mbind result_bind]; [|left; by eapply history_result_Err].
  destruct (serialized_bytes _) as [n|m] eqn:Hn; cbn [map_err mbind result_bind].
  2:{ left. right; right; left. unfold serialized_bytes in Hn. destruct (_ <=? _)%N; congruence. }
  destruct (N.ltb_spec MAX_SESSION_MANAGEMENT_PAGE_BYTES n) as [Hbig|Hok].
  { destruct items as [|i items]; [right; by exists n, (start - 1)%N|].
    exists start. split_and!; [done|lia|lia|done]. }
  assert (Reading (start - 1) (ai_item x :: items) (Some r)) as Hnext.
  { unfold Reading. split_and!; [|lia|lia|lia|done|by exists n].
    rewrite (segment_cons _ _ _ (ai_item x)) by (done || lia). rewrite Hitems. by replace (start - 1 + 1)%N with start by lia. }
  specialize (IH _ _ _ Hnext). destruct (page_loop _ _ _ _ _ _ _ _ _ _) as [[items' accepted']|e]; [|done].
  destruct IH as (start' & ? & ? & ? & _). exists start'. split_and!; [done|lia..].
Qed.

(** The cursor of a page: none at the floor, otherwise the claims to go on from its start. *)
Lemma history_result_Ok start end_ items r :
  history_result a codec now owner start end_ through items = Ok r →
  hr_items r = items ∧ hr_start_index r = start ∧ hr_end_index r = end_ ∧ hr_through r = anchor a through ∧
  hr_current_end r = anchor a (ha_end a) ∧
  match hr_next_cursor r with
  | None => (start <= ha_floor a)%N
  | Some token =>
      (ha_floor a < start)%N ∧ validate_token token "Session history page cursor" = Ok () ∧
      codec_decode codec HISTORY_CURSOR_DOMAIN owner token =
        Some (HistoryCursorClaims_new (ha_thread_id a) (ha_stream_id a) through start (now + SESSION_MANAGEMENT_CURSOR_TTL_MS))
  end.
Proof.
  unfold history_result. intros Hr. apply bind_Ok in Hr as (next & Hn & Hr). inv_result. split_and!; try done.
  destruct (N.ltb_spec (ha_floor a) start); [|by inv_result].
  unfold expiry, SessionHistoryPageCursor_new in Hn. inv_result.
  split_and!; [done|by eapply token_valid|by apply decode_encode].
Qed.

(** Identities that the wire accepts. *)
Definition Printable : Prop :=
  validate_identity_v2 (ha_thread_id a) "thread_id" = Ok () ∧ validate_identity_v2 (ha_stream_id a) "stream_id" = Ok () ∧
  ∀ item, item ∈ log → validate_history_item item = Ok ().

(** A page that is too large although it holds no item. *)
Definition empty_page_too_large (e : SessionManagementFailure) : Prop :=
  ∃ m r, e = InvalidProjection m ∧ hr_items r = [] ∧
    validate_management_page_bytes (history_page_json_len r) "Session history response" = Err m.

(** What a successful page holds. *)
Record PageOf (limit : N) (r : GetSessionHistoryResult) : Prop := {
  po_items : hr_items r = segment log (hr_start_index r) before;
  po_range : (ha_floor a <= hr_start_index r <= before)%N;
  po_limit : (before - hr_start_index r <= limit)%N;
  po_progress : (ha_floor a < before)%N → (hr_start_index r < before)%N;
  po_result : history_result a codec now owner (hr_start_index r) before through (hr_items r) = Ok r;
}.

Lemma anchor_valid i : Printable → SessionHistoryAnchor_validate (anchor a i) = Ok ().
Proof. intros (Ht & Hs & _). unfold SessionHistoryAnchor_validate. simpl. by rewrite Ht, Hs. Qed.

Lemma segment_unique start :
  Printable → (ha_floor a <= start <= before)%N →
  is_ok (fold_res (check_unique validate_history_item item_id
           "History result contains duplicate canonical item identities") ∅ (segment log start before)) = true.
Proof.
  intros (_ & _ & Hp) Hle.
  assert (NoDup (item_id <$> segment log start before) ∧ ∀ item, item ∈ segment log start before → validate_history_item item = Ok ())
    as [Hnd Hv].
  { assert (∃ pre post, drop (N.to_nat (ha_floor a)) log = pre ++ segment log start before ++ post) as (pre & post & Heq).
    { exists (segment log (ha_floor a) start), (drop (N.to_nat before) log). unfold segment.
      rewrite <-(take_drop (N.to_nat start - N.to_nat (ha_floor a)) (drop _ log)) at 1. f_equal. rewrite drop_drop.
      replace (N.to_nat (ha_floor a) + (N.to_nat start - N.to_nat (ha_floor a))) with (N.to_nat start) by lia.
      rewrite <-(take_drop (N.to_nat before - N.to_nat start) (drop (N.to_nat start) log)) at 1.
      rewrite drop_drop. do 2 f_equal. lia. }
    split.
    - pose proof (ar_ids _ _ Ha) as Hids. unfold archived_ids in Hids.
      rewrite (list_fmap_compose ai_item item_id), (ar_items _ _ Ha), Heq, !fmap_app in Hids.
      apply NoDup_app in Hids as (_ & _ & Hids). by apply NoDup_app in Hids as (? & _).
    - intros item Hi. apply Hp. rewrite <-(take_drop (N.to_nat (ha_floor a)) log), Heq. set_solver. }
  apply check_unique_Ok. split_and!; [done|done|set_solver].
Qed.

(** The window of a request: what a first page shows up to, or what its cursor says. *)
Definition ValidWindow (params : GetSessionHistoryParams) : Prop :=
  GetSessionHistoryParams_validate params = Ok () ∧ gh_thread_id params = ha_thread_id a ∧
  match gh_cursor params with
  | Some _ => True
  | None => before = through ∧
      match gh_before params with
      | Some anchor => an_thread_id anchor = ha_thread_id a ∧ an_stream_id anchor = ha_stream_id a
                       ∧ through = N.min (an_index anchor) (ha_end a)
      | None => through = ha_end a
      end
  end.

(** A page of the archive passes the validation of the client. *)
Lemma page_validates params r :
  Printable → ValidWindow params → PageOf (gh_limit params) r →
  validate_management_page_bytes (history_page_json_len r) "Session history response" = Ok () →
  history_validate_for r params = Ok ().
Proof.
  intros Hp (Hv & Ht & Hw) [Hitems Hrange Hlimit _ Hres] Hsize.
  pose proof (segment_unique (hr_start_index r) Hp Hrange) as Hu.
  destruct (history_result_Ok _ _ _ _ Hres) as (_ & _ & He & Hth & Hcur & Hnext).
  pose proof (ar_end _ _ Ha) as Hend.
  pose proof (length_segment log (hr_start_index r) before ltac:(lia) ltac:(lia)) as Hlen.
  unfold history_validate_for. rewrite Hv. simpl. rewrite Hsize. simpl. rewrite Hth, Hcur, He, Hitems, !anchor_valid by done. simpl.
  rewrite Ht. apply bind_unit_ok; [apply reject_if_false; unfold same_anchor_stream; prove_bool|].
  apply bind_unit_ok; [apply reject_if_false; prove_bool|].
  rewrite (proj2 (checked_sub_Some before (hr_start_index r) _)) by (split; [reflexivity|lia]). cbn [ok_or mbind result_bind].
  apply bind_unit_ok; [apply reject_if_false; rewrite Hlen; prove_bool|].
  destruct (fold_res _ _ _); [simpl|done].
  assert ((if is_none (gh_cursor params) then validate_first_page r params else Ok ()) = Ok ()) as ->.
  { destruct (gh_cursor params); [done|]. simpl. destruct Hw as [Hbt' Hb]. unfold validate_first_page.
    rewrite Hth, Hcur, He. simpl. destruct (gh_before params) as [anc|].
    - destruct Hb as (Hb1 & Hb2 & Hb3). pass_guards. unfold same_anchor_stream. prove_bool.
    - pass_guards. }
  simpl. destruct (hr_next_cursor r); [apply Hnext|done].
Qed.

Lemma history_page_spec params :
  Printable → ValidWindow params → (ha_floor a <= before)%N →
  page_window a codec now owner params = Ok (through, before) →
  match history_page a codec now owner params with
  | Ok r => PageOf (gh_limit params) r ∧ history_validate_for r params = Ok ()
  | Err e => encoding_failure e ∨ empty_page_too_large e ∨ ∃ actual index,
      e = ResourceLimit "session_history_page" actual MAX_SESSION_MANAGEMENT_PAGE_BYTES (Some index)
      ∧ (MAX_SESSION_MANAGEMENT_PAGE_BYTES < actual)%N
  end.
Proof.
  intros Hp Hv Hfl Hw. pose proof Hv as (Hpv & _). unfold history_page. rewrite Hpv. cbn [map_err mbind result_bind]. rewrite Hw.
  cbn [mbind result_bind]. rewrite (reject_if_false (_ <? _)%N) by prove_bool. cbn [mbind result_bind].
  rewrite reject_if_false by prove_bool. cbn [mbind result_bind].
  pose proof (page_loop_spec (N.to_nat (gh_limit params)) before [] None (reading_start Hfl)) as Hloop.
  destruct (page_loop _ _ _ _ _ _ _ _ _ _) as [[items accepted]|e]; cbn [mbind result_bind]; [|naive_solver].
  destruct Hloop as (start & (Hitems & Hb & Hacc) & Hle & Hroom & Hprog).
  assert (0 < gh_limit params)%N as Hlim.
  { unfold GetSessionHistoryParams_validate, validate_bounded_limit in Hpv. inv_result. inv_bool. lia. }
  destruct accepted as [r|].
  - destruct Hacc as (Hlt & Hres & n & Hn & Hsize). cbn [mbind result_bind].
    destruct (history_result_Ok _ _ _ _ Hres) as (Hit & Hst & _).
    assert (PageOf (gh_limit params) r) as Hpo.
    { constructor; rewrite ?Hst, ?Hit; try done; lia. }
    assert (history_validate_for r params = Ok ()) as Hval.
    { apply page_validates; [done..|]. unfold validate_management_page_bytes. rewrite Hn. simpl.
      apply reject_if_false. prove_bool. }
    by rewrite Hval.
  - subst start. rewrite segment_nil in Hitems by lia. subst items.
    destruct (history_result _ _ _ _ _ _ _ _) as [r|e] eqn:Hres; cbn [mbind result_bind]; [|left; by eapply history_result_Err].
    destruct (history_result_Ok _ _ _ _ Hres) as (Hit & Hst & _).
    assert (PageOf (gh_limit params) r) as Hpo.
    { constructor; rewrite ?Hst, ?Hit; try done; try lia; [by rewrite segment_nil|].
      intros Hlt. specialize (Hprog eq_refl ltac:(lia) Hlt). lia. }
    destruct (validate_management_page_bytes (history_page_json_len r) "Session history response") as [[]|m] eqn:Hs.
    { pose proof (page_validates params r Hp Hv Hpo Hs) as Hval. by rewrite Hval. }
    assert (history_validate_for r params = Err m) as Hval.
    { unfold history_validate_for. rewrite Hpv. cbn [mbind result_bind]. by rewrite Hs. }
    rewrite Hval. right; left. by exists m, r.
Qed.
End page.

(** ** Reading back, page by page *)

(** A client that continues from each page ([SessionHistoryOptions::continue_from]),
    with the archive and the clock that each of its requests meets. *)
Definition continue_params (thread : string) (limit : N) (cursor : option string) : GetSessionHistoryParams :=
  {| gh_thread_id := thread; gh_before := None; gh_cursor := cursor; gh_limit := limit |}.

Fixpoint read_back (codec : CursorCodec) (owner thread : string) (limit : N) (cursor : option string)
    (servers : list (HistoryArchive * N)) : Managed (list CanonicalItem * option string) :=
  match servers with
  | [] => Ok ([], cursor)
  | (a, now) :: servers =>
      page ← history_page a codec now owner (continue_params thread limit cursor);
      match hr_next_cursor page with
      | None => Ok (hr_items page, None)
      | Some cursor =>
          '(rest, pending) ← read_back codec owner thread limit (Some cursor) servers;
          Ok (rest ++ hr_items page, pending)
      end
  end.

(** The archives and clocks that the requests of the reading meet *)
Fixpoint servers_met (codec : CursorCodec) (owner thread : string) (limit : N) (cursor : option string)
    (servers : list (HistoryArchive * N)) : list (HistoryArchive * N) :=
  match servers with
  | [] => []
  | (a, now) :: servers =>
      (a, now) :: match history_page a codec now owner (continue_params thread limit cursor) with
                  | Ok page => match hr_next_cursor page with
                               | Some cursor => servers_met codec owner thread limit (Some cursor) servers
                               | None => []
                               end
                  | Err _ => []
                  end
  end.

(** What can stop a client: the archive has moved on, its cursor has expired, an item
    or a cursor is too large. *)
Inductive stops (servers : list (HistoryArchive * N)) : SessionManagementFailure → Prop :=
  | stops_gap a now index :
      (a, now) ∈ servers → (index < ha_floor a)%N →
      stops servers (HistoryGap (anchor a index) (anchor a (ha_floor a)) (anchor a (ha_end a)))
  | stops_expired (x y : HistoryArchive * N) :
      x ∈ servers → y ∈ servers → (x.2 + SESSION_MANAGEMENT_CURSOR_TTL_MS <= y.2)%N →
      stops servers HistoryCursorInvalid
  | stops_large actual index :
      (MAX_SESSION_MANAGEMENT_PAGE_BYTES < actual)%N →
      stops servers (ResourceLimit "session_history_page" actual MAX_SESSION_MANAGEMENT_PAGE_BYTES (Some index))
  | stops_encoding a now e : (a, now) ∈ servers → encoding_failure now e → stops servers e
  | stops_empty e : empty_page_too_large e → stops servers e.

(** The archives a client meets: later states of the one it starts with. *)
Definition later log a0 (x : HistoryArchive * N) : Prop :=
  ∃ more, Archived (log ++ more) x.1 ∧ Printable (log ++ more) x.1 ∧ same_archive a0 x.1.

(** The window of a cursor that the codec has issued. *)
Lemma issued_window a codec now owner thread limit token through before expires :
  codec_decode codec HISTORY_CURSOR_DOMAIN owner token =
    Some (HistoryCursorClaims_new (ha_thread_id a) (ha_stream_id a) through before expires) →
  blank (ha_thread_id a) = false → blank (ha_stream_id a) = false →
  (before <= through)%N → (through <= ha_end a)%N →
  page_window a codec now owner (continue_params thread limit (Some token)) =
    if (expires <=? now)%N then Err HistoryCursorInvalid else Ok (through, before).
Proof.
  intros Hd Ht Hs Hb He. unfold page_window. simpl. rewrite Hd. cbn [ok_or mbind result_bind].
  unfold history_valid_shape, is_expired, HistoryCursorClaims_new. simpl. rewrite Ht, Hs.
  rewrite (proj2 (N.leb_le _ _) Hb). simpl. destruct (expires <=? now)%N; [done|]. simpl.
  rewrite !bool_decide_eq_true_2 by done. simpl. by rewrite (proj2 (N.ltb_ge _ _) He).
Qed.

Lemma printable_nonblank log a : Printable log a → blank (ha_thread_id a) = false ∧ blank (ha_stream_id a) = false.
Proof. unfold Printable, validate_identity_v2. intros (Ht & Hs & _). inv_result. by inv_bool. Qed.

Lemma page_window_gap a codec now owner params through before :
  GetSessionHistoryParams_validate params = Ok () → page_window a codec now owner params = Ok (through, before) →
  (before < ha_floor a)%N →
  history_page a codec now owner params =
    Err (HistoryGap (anchor a before) (anchor a (ha_floor a)) (anchor a (ha_end a))).
Proof.
  intros Hv Hw Hlt. unfold history_page. rewrite Hv. cbn [map_err mbind result_bind]. rewrite Hw.
  cbn [mbind result_bind]. by rewrite (proj2 (N.ltb_lt _ _) Hlt).
Qed.

Lemma page_window_err a codec now owner params e :
  GetSessionHistoryParams_validate params = Ok () → page_window a codec now owner params = Err e →
  history_page a codec now owner params = Err e.
Proof. intros Hv Hw. unfold history_page. rewrite Hv. cbn [map_err mbind result_bind]. by rewrite Hw. Qed.

(** How a reading that has reached [before] goes on. *)
Definition Reads log (all servers met : list (HistoryArchive * N)) (before : N)
    (out : Managed (list CanonicalItem * option string)) : Prop :=
  match out with
  | Ok (items, pending) => ∃ start, items = segment log start before ∧ (start <= before)%N ∧
      match pending with
      | None => ∃ y, last met = Some y ∧ start = ha_floor y.1
      | Some _ => length servers <= length items
      end
  | Err e => stops all e
  end.

Section reading.
Context (log : list CanonicalItem) (a0 : HistoryArchive) (all : list (HistoryArchive * N)).
Context (codec : CursorCodec) (owner : string) (limit : N).
Hypothesis Hlimit : (0 < limit <= MAX_SESSION_HISTORY_PAGE_LIMIT)%N.
Hypothesis Hall : ∀ y, y ∈ all → later log a0 y.

Lemma continue_valid a cursor :
  validate_identity_v2 (ha_thread_id a) "thread_id" = Ok () →
  match cursor with Some token => validate_token token "Session history page cursor" = Ok () | None => True end →
  GetSessionHistoryParams_validate (continue_params (ha_thread_id a) limit cursor) = Ok ().
Proof.
  intros Ht Hc. unfold GetSessionHistoryParams_validate. simpl. rewrite Ht. simpl.
  destruct cursor as [token|]; simpl; [rewrite Hc; simpl|]; apply reject_if_false; prove_bool;
    apply N.eqb_neq; lia.
Qed.

(** One page of a reading, and how the reading goes on from it. *)
Lemma read_page a now servers before params rest_of met_of :
  (a, now) ∈ all → (ha_floor a <= before)%N → (before <= N.of_nat (length log))%N →
  ValidWindow a before (N.of_nat (length log)) params →
  page_window a codec now owner params = Ok (N.of_nat (length log), before) →
  (∀ start token, (start < before)%N → validate_token token "Session history page cursor" = Ok () →
     codec_decode codec HISTORY_CURSOR_DOMAIN owner token =
       Some (HistoryCursorClaims_new (ha_thread_id a) (ha_stream_id a) (N.of_nat (length log)) start
               (now + SESSION_MANAGEMENT_CURSOR_TTL_MS)) →
     Reads log all servers (met_of token) start (rest_of token)) →
  Reads log all ((a, now) :: servers)
    ((a, now) :: match history_page a codec now owner params with
                 | Ok page => match hr_next_cursor page with Some token => met_of token | None => [] end
                 | Err _ => []
                 end) before
    (page ← history_page a codec now owner params;
     match hr_next_cursor page with
     | None => Ok (hr_items page, None)
     | Some token => '(rest, pending) ← rest_of token; Ok (rest ++ hr_items page, pending)
     end).
Proof.
  intros Hin Hfl Hlen Hv Hw Hrest. destruct (Hall _ Hin) as (more & Ha & Hp & _). simpl in *.
  assert (N.of_nat (length log) <= ha_end a)%N as Hend.
  { rewrite (ar_end _ _ Ha), length_app. lia. }
  pose proof (history_page_spec _ _ codec now owner _ _ Ha Hlen Hend _ Hp Hv Hfl Hw) as Hpage.
  destruct (history_page _ _ _ _ _) as [r|e]; cbn [mbind result_bind].
  2:{ simpl. destruct Hpage as [?|[?|(actual & index & -> & ?)]];
        [by apply (stops_encoding all a now)|by apply stops_empty|by apply stops_large]. }
  destruct Hpage as [[Hitems Hrange _ Hprog Hres] _].
  destruct (history_result_Ok _ _ _ _ _ _ _ _ _ Hres) as (_ & _ & _ & _ & _ & Hnext).
  rewrite segment_prefix in Hitems by done.
  destruct (hr_next_cursor r) as [token|].
  - destruct Hnext as (Hlt & Htok & Hdec). specialize (Hprog ltac:(lia)).
    specialize (Hrest _ _ Hprog Htok Hdec). destruct (rest_of token) as [[rest pending]|e]; [|done]. simpl in *.
    destruct Hrest as (start & -> & Hle & Hpend). exists start. split_and!; [|lia|].
    + rewrite Hitems. symmetry. apply segment_app. lia.
    + destruct pending.
      * rewrite length_app, Hitems. pose proof (length_segment log (hr_start_index r) before). lia.
      * destruct Hpend as (x & Hx & ->). exists x. split; [|done]. by destruct (met_of token).
  - simpl. exists (hr_start_index r). split_and!; [done|lia|]. exists (a, now). split; [done|]. simpl. lia.
Qed.

Lemma read_back_token servers before token issued :
  servers ⊆ all → (before <= N.of_nat (length log))%N → (∃ y, y ∈ all ∧ y.2 = issued) →
  validate_token token "Session history page cursor" = Ok () →
  codec_decode codec HISTORY_CURSOR_DOMAIN owner token =
    Some (HistoryCursorClaims_new (ha_thread_id a0) (ha_stream_id a0) (N.of_nat (length log)) before
            (issued + SESSION_MANAGEMENT_CURSOR_TTL_MS)) →
  Reads log all servers (servers_met codec owner (ha_thread_id a0) limit (Some token) servers) before
    (read_back codec owner (ha_thread_id a0) limit (Some token) servers).
Proof.
  revert before token issued. induction servers as [|[a now] servers IH]; intros before token issued Hsub Hlen Hiss Htok Hdec.
  { simpl. exists before. split_and!; [by rewrite segment_nil|lia|lia]. }
  assert ((a, now) ∈ all) as Hin by (apply Hsub; left).
  destruct (Hall _ Hin) as (more & Ha & Hp & Ht & Hs & _). simpl in *.
  destruct (printable_nonblank _ _ Hp) as [Hbt Hbs]. rewrite Ht, Hs in *.
  assert (GetSessionHistoryParams_validate (continue_params (ha_thread_id a) limit (Some token)) = Ok ()) as Hv.
  { apply continue_valid; [apply Hp|done]. }
  assert (N.of_nat (length log) <= ha_end a)%N as Hend by (rewrite (ar_end _ _ Ha), length_app; lia).
  pose proof (issued_window a codec now owner (ha_thread_id a) limit token _ _ _ Hdec Hbt Hbs Hlen Hend) as Hw.
  destruct (N.leb_spec (issued + SESSION_MANAGEMENT_CURSOR_TTL_MS) now) as [Hexp|_].
  { rewrite (page_window_err _ _ _ _ _ _ Hv Hw). simpl. destruct Hiss as (x & Hx & <-).
    by apply (stops_expired all x (a, now)). }
  destruct (N.lt_ge_cases before (ha_floor a)) as [Hgap|Hfl].
  { rewrite (page_window_gap _ _ _ _ _ _ _ Hv Hw Hgap). simpl. by apply (stops_gap all a now). }
  eapply (read_page a now servers before (continue_params (ha_thread_id a) limit (Some token))
           (λ token, read_back codec owner (ha_thread_id a) limit (Some token) servers)
           (λ token, servers_met codec owner (ha_thread_id a) limit (Some token) servers)); try done.
  intros start token' Hlt Htok' Hdec'. rewrite <-Ht, <-Hs in *. eapply IH; [|lia|by exists (a, now)|done|done].
  intros x Hx. apply Hsub. by right.
Qed.
End reading.

(** The whole reading, from its first page. *)
Lemma read_first log a0 now0 servers codec owner limit :
  (0 < limit <= MAX_SESSION_HISTORY_PAGE_LIMIT)%N → Archived log a0 →
  (∀ server, server ∈ (a0, now0) :: servers → later log a0 server) →
  Reads log ((a0, now0) :: servers) ((a0, now0) :: servers)
    (servers_met codec owner (ha_thread_id a0) limit None ((a0, now0) :: servers)) (N.of_nat (length log))
    (read_back codec owner (ha_thread_id a0) limit None ((a0, now0) :: servers)).
Proof.
  intros Hlimit Ha Hall. set (all := (a0, now0) :: servers) in *.
  assert (validate_identity_v2 (ha_thread_id a0) "thread_id" = Ok ()) as Hid.
  { destruct (Hall (a0, now0) ltac:(by left)) as (more & _ & (Hid & _) & _). exact Hid. }
  pose proof (continue_valid limit Hlimit a0 None Hid I) as Hv. pose proof (ar_end _ _ Ha) as Hend. pose proof (ar_floor _ _ Ha).
  change (read_back codec owner (ha_thread_id a0) limit None all) with
    (page ← history_page a0 codec now0 owner (continue_params (ha_thread_id a0) limit None);
     match hr_next_cursor page with
     | None => Ok (hr_items page, None)
     | Some token => '(rest, pending) ← read_back codec owner (ha_thread_id a0) limit (Some token) servers;
                     Ok (rest ++ hr_items page, pending)
     end).
  eapply (read_page log a0 all codec owner limit Hlimit Hall a0 now0 servers _ (continue_params (ha_thread_id a0) limit None)
            (λ token, read_back codec owner (ha_thread_id a0) limit (Some token) servers)
            (λ token, servers_met codec owner (ha_thread_id a0) limit (Some token) servers)); [by left|lia|lia| | |].
  - split_and!; [done|done|]. simpl. by rewrite Hend.
  - unfold page_window. simpl. by rewrite Hend.
  - intros start token Hlt Htok Hdec. eapply (read_back_token log a0 all codec owner limit Hlimit Hall);
      [intros y Hy; by right|lia|exists (a0, now0); split; [by left|done]|done|done].
Qed.
End archive_laws.
