(* ===== verification/ManagementProjection.v ===== *)
(** * The daemon's management projection of one session

    The first part of [crates/whale-daemon/src/session_management.rs]: the projection
    with its journal of events, what publication and retirement prepare, replay, and
    the buffer that puts notifications into order. *)

From S2P Require Import Prelude Protocol StoreState StoreConfig SessionViews ViewJournal SessionManagement SessionCatalog.

Record JournalEntryV2 := {
  j2_envelope : SessionEventEnvelopeV2;
  j2_bytes : N;
  j2_run_id : option string;
}.

Record ManagementProjection := {
  mp_snapshot : SessionSnapshotV2;
  mp_journal : list JournalEntryV2;
  mp_journal_bytes : N;
  mp_replay_floor : SessionCursorV2;
  mp_run_identities : gmap string nat;
}.

(** [PreparedManagementPublication] *)
Record PreparedManagement := {
  pm_source : SessionCursorV2;
  pm_next : ManagementProjection;
  pm_envelope : SessionEventEnvelopeV2;
}.

Definition mp_cursor (p : ManagementProjection) : SessionCursorV2 := v2_cursor (mp_snapshot p).
Definition j2_seq (e : JournalEntryV2) : N := cv_seq (ev2_cursor (j2_envelope e)).

(** [event_turn_id] *)
Definition event_turn_id_v2 (envelope : SessionEventEnvelopeV2) : option string :=
  match ev2_payload envelope with
  | V2RunChanged run => Some (snap_turn_id (rv_snapshot run))
  | V2RunEvent event => Some (re_turn_id event)
  | V2MetadataChanged _ | V2LifecycleChanged _ => None
  end.

(** [is_closed] *)
Definition is_closed_v2 (envelope : SessionEventEnvelopeV2) : bool :=
  match ev2_payload envelope with V2LifecycleChanged LifecycleClosed => true | _ => false end.

(** The loop of [retain] that evicts from the front; [expect] never fails, because an
    empty journal is within its bounds. *)
Fixpoint evict_v2 (journal : list JournalEntryV2) (bytes : N) (floor : SessionCursorV2) :
    list JournalEntryV2 * N * SessionCursorV2 :=
  match journal with
  | [] => ([], bytes, floor)
  | evicted :: rest =>
      if bool_decide (MAX_SESSION_V2_EVENT_JOURNAL_EVENTS < length journal)
         || (MAX_SESSION_V2_EVENT_JOURNAL_BYTES <? bytes)%N
      then evict_v2 rest (bytes - j2_bytes evicted) (ev2_cursor (j2_envelope evicted))
      else (journal, bytes, floor)
  end.

Definition retain (self : ManagementProjection) (envelope : SessionEventEnvelopeV2) (bytes : N)
    (run_id : option string) : ManagementProjection :=
  let '(journal, total, floor) :=
    if (MAX_SESSION_V2_EVENT_JOURNAL_BYTES <? bytes)%N then ([], 0%N, ev2_cursor envelope)
    else evict_v2 (mp_journal self ++ [{| j2_envelope := envelope; j2_bytes := bytes; j2_run_id := run_id |}])
           (mp_journal_bytes self + bytes) (mp_replay_floor self) in
  {| mp_snapshot := mp_snapshot self; mp_journal := journal; mp_journal_bytes := total;
     mp_replay_floor := floor; mp_run_identities := mp_run_identities self |}.

Section projection.
Context `{Externals} `{ManagementExternals}.

(** [ManagementProjection::prepare] *)
Definition prepare_v2 (self : ManagementProjection) (occurred_at_ms : N) (payload : SessionEventPayloadV2)
    (run_identity : option (string * nat)) : Managed PreparedManagement :=
  cursor ← map_err InvalidProjection (checked_next_v2 (mp_cursor self));
  let envelope := {| ev2_thread_id := s2_thread_id (v2_summary (mp_snapshot self)); ev2_cursor := cursor;
                     ev2_occurred_at_ms := occurred_at_ms; ev2_payload := payload |} in
  map_err InvalidProjection (SessionEventEnvelopeV2_validate envelope);;
  bytes ← map_err InvalidProjection (envelope_v2_json_len envelope);
  let run_id := or_else (event_turn_id_v2 envelope)
                  ((λ run, snap_turn_id (rv_snapshot run)) <$> v2_active_run (mp_snapshot self)) in
  '(snapshot, _) ← map_err (λ e, InvalidProjection (projection_error_text_v2 e)) (apply_v2 (mp_snapshot self) envelope);
  let next := retain {| mp_snapshot := snapshot; mp_journal := mp_journal self;
                        mp_journal_bytes := mp_journal_bytes self; mp_replay_floor := mp_replay_floor self;
                        mp_run_identities := mp_run_identities self |} envelope bytes run_id in
  Ok {| pm_source := mp_cursor self;
        pm_next := match run_identity with
                   | Some (turn_id, identity) =>
                       {| mp_snapshot := mp_snapshot next; mp_journal := mp_journal next;
                          mp_journal_bytes := mp_journal_bytes next; mp_replay_floor := mp_replay_floor next;
                          mp_run_identities := <[turn_id := identity]> (mp_run_identities next) |}
                   | None => next
                   end;
        pm_envelope := envelope |}.

(** [snapshot_with_history_limit] *)
Definition snapshot_with_history_limit_v2 (self : ManagementProjection) (history_limit : N) : SessionSnapshotV2 :=
  set_history_v2 (limit_window history_limit (v2_history (mp_snapshot self))) (mp_snapshot self).

(** [lifecycle_at]: the life cycle after the journal's events up to a position. *)
Fixpoint scan_lifecycle (journal : list JournalEntryV2) (through : N) (lifecycle : SessionLifecycleState) :
    SessionLifecycleState :=
  match journal with
  | [] => lifecycle
  | entry :: rest =>
      if (through <? j2_seq entry)%N then lifecycle
      else scan_lifecycle rest through
             (match ev2_payload (j2_envelope entry) with V2LifecycleChanged next => next | _ => lifecycle end)
  end.

Definition lifecycle_at (state : ManagementProjection) (through : N) : SessionLifecycleState :=
  if (through =? cv_seq (mp_cursor state))%N then v2_lifecycle (mp_snapshot state)
  else scan_lifecycle (mp_journal state) through LifecycleOpen.

Definition gap_v2 (self : ManagementProjection) (params : SubscribeSessionV2Params) (through : SessionCursorV2)
    (reason : ReplayGapReasonV2) : SubscribeSessionV2Result :=
  {| page2_events := []; page2_resume_after := u2_after params; page2_through := through;
     page2_lifecycle := v2_lifecycle (mp_snapshot self); page2_has_more := false;
     page2_gap := Some {| gap2_reason := reason; gap2_requested := u2_after params;
                          gap2_replay_floor := mp_replay_floor self; gap2_current := mp_cursor self;
                          gap2_view_revision := s2_view_revision (v2_summary (mp_snapshot self)) |} |}.

(** The events of a page. *)
Definition page_v2 (self : ManagementProjection) (after through limit : N) : list SessionEventEnvelopeV2 :=
  take (N.to_nat limit)
    (j2_envelope <$> List.filter (λ e, (after <? j2_seq e)%N && (j2_seq e <=? through)%N) (mp_journal self)).

(** [ManagementProjection::replay] *)
Definition replay_v2 (self : ManagementProjection) (params : SubscribeSessionV2Params) :
    Managed SubscribeSessionV2Result :=
  map_err InvalidParams (SubscribeSessionV2Params_validate params);;
  let current := mp_cursor self in
  let response_through := default current (u2_through params) in
  if cv_stream_id (u2_after params) != cv_stream_id current then Ok (gap_v2 self params current StreamResetV2) else
  reject_if (cv_seq current <? cv_seq (u2_after params))%N
    (InvalidParams "Replay cursor is ahead of the current V2 Session cursor");;
  match u2_through params with
  | Some through =>
      if cv_stream_id through != cv_stream_id current then Ok (Some (gap_v2 self params current StreamResetV2)) else
      reject_if (cv_seq current <? cv_seq through)%N
        (InvalidParams "Fixed V2 replay high watermark is ahead of the current cursor");;
      Ok None
  | None => Ok None
  end ≫= λ early,
  match early with
  | Some result => Ok result
  | None =>
      if (cv_seq (u2_after params) <? cv_seq (mp_replay_floor self))%N
      then Ok (gap_v2 self params response_through RetentionV2)
      else
        let events := page_v2 self (cv_seq (u2_after params)) (cv_seq response_through) (u2_limit params) in
        let resume_after := default (u2_after params) (ev2_cursor <$> last events) in
        Ok {| page2_events := events; page2_resume_after := resume_after; page2_through := response_through;
              page2_lifecycle := lifecycle_at self (cv_seq response_through);
              page2_has_more := (cv_seq resume_after <? cv_seq response_through)%N; page2_gap := None |}
  end.

(** ** Retirement of a run *)

(** [max()] over the sequence numbers of a run's events *)
Definition last_of_run_v2 (turn_id : string) (journal : list JournalEntryV2) : option N :=
  foldl (λ acc e, if j2_run_id e == Some turn_id then Some (N.max (default 0%N acc) (j2_seq e)) else acc)
    None journal.

Fixpoint pop_through_v2 (through : N) (journal : list JournalEntryV2) (bytes : N) : list JournalEntryV2 * N :=
  match journal with
  | [] => ([], bytes)
  | e :: rest =>
      if (j2_seq e <=? through)%N then pop_through_v2 through rest (bytes - j2_bytes e) else (journal, bytes)
  end.

(** [ManagementProjection::prepare_retire_run]; [None] when there is nothing to retire. *)
Definition prepare_retire_run_v2 (self : ManagementProjection) (turn_id : string) (identity : nat) :
    option ManagementProjection :=
  if (mp_run_identities self !! turn_id != Some identity) ||
     is_some_and (v2_active_run (mp_snapshot self)) (λ run, snap_turn_id (rv_snapshot run) == turn_id)
  then None
  else
    let '(journal, bytes, floor) :=
      match last_of_run_v2 turn_id (mp_journal self) with
      | Some through =>
          let '(journal, bytes) := pop_through_v2 through (mp_journal self) (mp_journal_bytes self) in
          let floor := mp_replay_floor self in
          (journal, bytes, {| cv_thread_id := cv_thread_id floor; cv_stream_id := cv_stream_id floor;
                              cv_seq := N.max (cv_seq floor) through |})
      | None => (mp_journal self, mp_journal_bytes self, mp_replay_floor self)
      end in
    Some {| mp_snapshot := mp_snapshot self; mp_journal := journal; mp_journal_bytes := bytes;
            mp_replay_floor := floor; mp_run_identities := delete turn_id (mp_run_identities self) |}.
End projection.

(** ** The order of notifications *)

Record NotificationOrder := {
  no_enabled : bool;
  no_next_seq : option N;
  no_pending : gmap N SessionEventEnvelopeV2;
}.
(** [NotificationOrder::default] *)
Definition order_default : NotificationOrder := {| no_enabled := false; no_next_seq := None; no_pending := ∅ |}.

(** [ManagementNotifier::activate] *)
Definition activate (self : NotificationOrder) (current_seq : N) : NotificationOrder :=
  if no_enabled self then self
  else {| no_enabled := true; no_next_seq := checked_add current_seq 1;
          no_pending := filter (λ kv, (current_seq < kv.1)%N) (no_pending self) |}.

(** The loop of [ordered]: each turn takes an envelope out of [pending], so its size
    and one are enough fuel. *)
Fixpoint drain (fuel : nat) (next_seq : option N) (pending : gmap N SessionEventEnvelopeV2) :
    list SessionEventEnvelopeV2 * option N * gmap N SessionEventEnvelopeV2 :=
  match fuel, next_seq with
  | S fuel, Some next =>
      match pending !! next with
      | Some envelope =>
          let '(ready, next_seq, pending) := drain fuel (checked_add next 1) (delete next pending) in
          (envelope :: ready, next_seq, pending)
      | None => ([], next_seq, pending)
      end
  | _, _ => ([], next_seq, pending)
  end.

(** [ManagementNotifier::ordered]: what may be sent now. *)
Definition ordered (self : NotificationOrder) (envelope : SessionEventEnvelopeV2) :
    list SessionEventEnvelopeV2 * NotificationOrder :=
  if negb (no_enabled self) then ([], self) else
  match no_next_seq self with
  | None => ([], self)
  | Some next =>
      if (cv_seq (ev2_cursor envelope) <? next)%N then ([], self) else
      let pending := <[cv_seq (ev2_cursor envelope) := envelope]> (no_pending self) in
      let '(ready, next_seq, pending) := drain (S (size pending)) (no_next_seq self) pending in
      (ready, {| no_enabled := true; no_next_seq := next_seq; no_pending := pending |})
  end.

(** ** The notifier of a session

    The bounded queue of the notifier, its slot for the latest envelope that did not
    fit, the task that writes to the transport, and the publications that are under way.
    [nt_wire] is what was written. The lock of the order is held only while [ordered]
    runs, so publications interleave with each other and with the task before it, between
    any two envelopes, and between the refusal of a full queue and the write of the slot. *)

Definition DEFAULT_NOTIFICATION_QUEUE : nat := 128.

(** A call of [publish], or of [publish_confirmed] with the cursor it waits for *)
Inductive Publisher :=
  | Entering (envelope : SessionEventEnvelopeV2) (confirmed : bool)
  | Publishing (ready : list SessionEventEnvelopeV2)
  | Displaced (fallback : SessionEventEnvelopeV2) (ready : list SessionEventEnvelopeV2)
  | Confirming (confirmed : SessionCursorV2) (ready : list SessionEventEnvelopeV2)
  | Awaiting (confirmed : SessionCursorV2) (ready : list SessionEventEnvelopeV2).

Record ManagementNotifier := {
  nt_order : NotificationOrder;
  nt_queue : list SessionEventEnvelopeV2;
  nt_latest : option SessionEventEnvelopeV2;
  nt_last_sent : N;
  nt_stopped : bool;
  nt_wire : list SessionEventEnvelopeV2;
  nt_publishers : list Publisher;
}.
Definition notifier_new : ManagementNotifier :=
  {| nt_order := order_default; nt_queue := []; nt_latest := None; nt_last_sent := 0; nt_stopped := false;
     nt_wire := []; nt_publishers := [] |}.

Definition nt_eta (n : ManagementNotifier) : ManagementNotifier :=
  {| nt_order := nt_order n; nt_queue := nt_queue n; nt_latest := nt_latest n; nt_last_sent := nt_last_sent n;
     nt_stopped := nt_stopped n; nt_wire := nt_wire n; nt_publishers := nt_publishers n |}.
Definition set_nt_order (v : NotificationOrder) (n : ManagementNotifier) : ManagementNotifier :=
  ltac:(update_field nt_eta nt_order v n).
Definition set_nt_queue (v : list SessionEventEnvelopeV2) (n : ManagementNotifier) : ManagementNotifier :=
  ltac:(update_field nt_eta nt_queue v n).
Definition set_nt_latest (v : option SessionEventEnvelopeV2) (n : ManagementNotifier) : ManagementNotifier :=
  ltac:(update_field nt_eta nt_latest v n).
Definition set_nt_stopped (v : bool) (n : ManagementNotifier) : ManagementNotifier :=
  ltac:(update_field nt_eta nt_stopped v n).
Definition set_nt_publishers (v : list Publisher) (n : ManagementNotifier) : ManagementNotifier :=
  ltac:(update_field nt_eta nt_publishers v n).

(** [ManagementNotifier::publish] is called *)
Definition notifier_publish (n : ManagementNotifier) (envelope : SessionEventEnvelopeV2) : ManagementNotifier :=
  set_nt_publishers (nt_publishers n ++ [Entering envelope false]) n.

(** [ManagementNotifier::publish_confirmed] is called *)
Definition publish_confirmed (n : ManagementNotifier) (envelope : SessionEventEnvelopeV2) : ManagementNotifier :=
  set_nt_publishers (nt_publishers n ++ [Entering envelope true]) n.

Definition queue_full (n : ManagementNotifier) : bool :=
  bool_decide (DEFAULT_NOTIFICATION_QUEUE <= length (nt_queue n)).
Definition enqueue_v2 (envelope : SessionEventEnvelopeV2) (n : ManagementNotifier) : ManagementNotifier :=
  set_nt_queue (nt_queue n ++ [envelope]) n.

(** One step of a publication. [try_send] drops what nobody listens to any more; a full
    queue makes the next step write the slot. [send(..).await] waits for room, and ends
    the call when nobody listens; the oneshot is answered, or dropped with the task, once
    the work has left the queue. *)
Definition publisher_step (n : ManagementNotifier) (p : Publisher) : option (ManagementNotifier * Publisher) :=
  match p with
  | Entering envelope confirmed =>
      let '(ready, order) := ordered (nt_order n) envelope in
      Some (set_nt_order order n, if confirmed : bool then Confirming (ev2_cursor envelope) ready else Publishing ready)
  | Publishing (envelope :: ready) =>
      Some (if nt_stopped n then (n, Publishing ready)
            else if queue_full n then (n, Displaced envelope ready)
            else (enqueue_v2 envelope n, Publishing ready))
  | Displaced fallback ready => Some (set_nt_latest (Some fallback) n, Publishing ready)
  | Confirming confirmed (envelope :: ready) =>
      if nt_stopped n then Some (n, Confirming confirmed [])
      else if queue_full n then None
      else Some (enqueue_v2 envelope n,
                 if ev2_cursor envelope == confirmed then Awaiting confirmed ready else Confirming confirmed ready)
  | Awaiting confirmed ready =>
      if negb (nt_stopped n) && existsb (λ work, ev2_cursor work == confirmed) (nt_queue n) then None
      else Some (n, Confirming confirmed ready)
  | Publishing [] | Confirming _ [] => None
  end.

Definition returned (p : Publisher) : bool :=
  match p with Publishing [] | Confirming _ [] => true | _ => false end.

(** A step of the publication at a place of the list *)
Definition notifier_step (n : ManagementNotifier) (place : nat) : option ManagementNotifier :=
  p ← nt_publishers n !! place;
  '(n, p) ← publisher_step n p;
  Some (set_nt_publishers (<[place := p]> (nt_publishers n)) n).

(** What the task does with an item. *)
Definition deliver_v2 (n : ManagementNotifier) (envelope : SessionEventEnvelopeV2) : ManagementNotifier :=
  if (cv_seq (ev2_cursor envelope) <=? nt_last_sent n)%N then n
  else {| nt_order := nt_order n; nt_queue := nt_queue n; nt_latest := nt_latest n;
          nt_last_sent := cv_seq (ev2_cursor envelope); nt_stopped := is_closed_v2 envelope;
          nt_wire := nt_wire n ++ [envelope]; nt_publishers := nt_publishers n |}.

(** One turn of the task of [spawn_notifier]: the queue before the slot. *)
Definition notifier_poll (n : ManagementNotifier) : ManagementNotifier :=
  if nt_stopped n then n else
  match nt_queue n with
  | envelope :: rest => deliver_v2 (set_nt_queue rest n) envelope
  | [] => match nt_latest n with
          | Some envelope => deliver_v2 (set_nt_latest None n) envelope
          | None => n
          end
  end.
