(* ===== verification/ManagementLaws.v ===== *)
(** * Laws of the management projection

    What an applied event of the second view does, the agreement of its reducer with
    the one of the first view, and the invariant of a projection with its journal. *)

From S2P Require Import Prelude Protocol StoreState StoreConfig SessionViews ViewJournal ViewLaws SessionManagement SessionCatalog ManagementProjection.

Section reducer.
Context `{Externals}.
Implicit Types (s : SessionSnapshotV2) (e : SessionEventEnvelopeV2).

(** An applied event of the second view. *)
Record AppliedV2 s e s' : Prop := {
  ap2_before : SessionSnapshotV2_validate s = Ok ();
  ap2_event : SessionEventEnvelopeV2_validate e = Ok ();
  ap2_after : SessionSnapshotV2_validate s' = Ok ();
  ap2_open : v2_lifecycle s ≠ LifecycleClosed;
  ap2_next : checked_next_v2 (v2_cursor s) = Ok (ev2_cursor e);
  ap2_payload : ∃ next, apply_payload_v2 s e = Ok next ∧ s' = stamp_v2 e next;
}.

Ltac unit_vars := repeat match goal with u : () |- _ => destruct u end.

Lemma apply_v2_true s e s' : apply_v2 s e = Ok (s', true) → AppliedV2 s e s'.
Proof.
  unfold apply_v2. intros Ha. inv_result. destruct (_ <=? _)%N; [done|]. inv_result. inv_bool. subst. unit_vars.
  constructor; try done; try congruence; by eexists.
Qed.

Lemma apply_v2_false s e s' :
  apply_v2 s e = Ok (s', false) → s' = s ∧ (cv_seq (ev2_cursor e) <= cv_seq (v2_cursor s))%N.
Proof.
  unfold apply_v2. intros Ha. inv_result. destruct (N.leb_spec (cv_seq (ev2_cursor e)) (cv_seq (v2_cursor s))).
  - by inv_result.
  - inv_result. discriminate.
Qed.

(** The part of a snapshot that both views have. *)
Definition projection_v1 (s : SessionSnapshot) := (sv_history s, sv_active_run s, sv_last_run s).
Definition projection_of s := (v2_history s, v2_active_run s, v2_last_run s).

(** The reducer of the first view reads only that part, the thread, the payload and
    the time of the event. *)
Lemma apply_payload_projection (s t s' t' : SessionSnapshot) (e f : SessionEventEnvelope) :
  projection_v1 s = projection_v1 t → ss_thread_id (sv_summary s) = ss_thread_id (sv_summary t) →
  env_payload e = env_payload f → env_occurred_at_ms e = env_occurred_at_ms f →
  apply_payload s e = Ok s' → apply_payload t f = Ok t' → projection_v1 s' = projection_v1 t'.
Proof.
  unfold projection_v1. intros [= Hh Ha Hl] Ht Hp Hts. unfold apply_payload. rewrite Hp.
  destruct (env_payload f) as [run|event]; [intros; inv_result; by rewrite Hh, Hl|].
  destruct (re_payload event) as [stream|snapshot].
  - unfold apply_stream_event. rewrite Ha, Hh, Hl, Hts, Ht. intros Hs Ht'.
    inv_result. simplify_eq/=. by repeat match goal with H : ?x = _, H' : ?x = _ |- _ => rewrite H in H'; simplify_eq/= end.
  - unfold apply_finished. rewrite Ha, Hh, Hts, Ht. intros Hs Ht'.
    inv_result. simplify_eq/=. by repeat match goal with H : ?x = _, H' : ?x = _ |- _ => rewrite H in H'; simplify_eq/= end.
Qed.

(** What [apply_v1_payload] does. *)
Lemma apply_v1_payload_Ok s e payload s' :
  checked_next_v2 (v2_cursor s) = Ok (ev2_cursor e) → apply_v1_payload s e payload = Ok s' →
  ∃ t, apply_payload (legacy_snapshot s) (legacy_envelope e payload) = Ok t ∧ projection_of s' = projection_v1 t ∧
    v2_summary s' = v2_summary s ∧ v2_lifecycle s' = v2_lifecycle s ∧ v2_persistence s' = v2_persistence s ∧
    v2_cursor s' = v2_cursor s.
Proof.
  intros Hn Ha. unfold apply_v1_payload in Ha. inv_result.
  match goal with H : SessionViews.apply _ _ = Ok (?t, ?b) |- _ => rename H into Happ; destruct b end.
  - unfold SessionViews.apply in Happ. inv_result. destruct (_ <=? _)%N; [done|]. inv_result.
    match goal with H : apply_payload _ _ = Ok ?t |- _ => exists t end. done.
  - exfalso. apply apply_false in Happ as [_ Hle]. simpl in Hle. unfold checked_next_v2 in Hn. inv_result.
    match goal with H : _ = ev2_cursor e |- _ => rewrite <-H in Hle end. simpl in Hle. lia.
Qed.

(** ** Cursors *)

Definition same_place_v2 (c c' : SessionCursorV2) : Prop :=
  cv_thread_id c = cv_thread_id c' ∧ cv_stream_id c = cv_stream_id c'.
#[export] Instance same_place_v2_equivalence : Equivalence same_place_v2.
Proof. split; repeat intros ?; unfold same_place_v2 in *; naive_solver congruence. Qed.

Lemma same_stream_v2_true c c' : same_stream_v2 c c' = true ↔ same_place_v2 c c'.
Proof. unfold same_stream_v2, same_place_v2. by rewrite andb_true_iff, !bool_decide_eq_true. Qed.

Lemma cursor_v2_eq c c' : same_place_v2 c c' → cv_seq c = cv_seq c' → c = c'.
Proof. destruct c, c'; unfold same_place_v2; simpl. intros [-> ->] ->. done. Qed.

Lemma cursor_v2_validate_place c c' :
  same_place_v2 c c' → SessionCursorV2_validate c = SessionCursorV2_validate c'.
Proof. unfold SessionCursorV2_validate. by intros [-> ->]. Qed.

Lemma checked_next_v2_Ok c c' :
  checked_next_v2 c = Ok c' ↔
  SessionCursorV2_validate c = Ok () ∧ same_place_v2 c c' ∧ cv_seq c' = (cv_seq c + 1)%N ∧ (cv_seq c' <= u64_max)%N.
Proof.
  unfold checked_next_v2. rewrite bind_Ok. setoid_rewrite bind_Ok. setoid_rewrite ok_or_Ok. split.
  - intros ([] & Hv & n & Hn & [= <-]). apply checked_add_Some in Hn as [-> Hle]. by repeat split.
  - intros (Hv & Hp & Hs & Hle). exists (). split; [done|]. exists (cv_seq c'). rewrite checked_add_Some.
    split; [split; [done|lia]|]. f_equal. destruct c'. destruct Hp as [Hp1 Hp2]. simpl in *. by rewrite Hp1, Hp2.
Qed.

(** ** The life cycle *)

Definition lifecycle_rank (l : SessionLifecycleState) : nat :=
  match l with LifecycleOpen => 0 | LifecycleClosing => 1 | LifecycleClosed => 2 end.

(** An applied event keeps identity, creation time and persistence; it moves the life
    cycle by at most one step, and exactly by its own when it is a life-cycle event. *)
Lemma applied_frame s e s' :
  AppliedV2 s e s' →
  v2_cursor s' = ev2_cursor e ∧ v2_persistence s' = v2_persistence s ∧
  s2_thread_id (v2_summary s') = s2_thread_id (v2_summary s) ∧
  s2_created_at_ms (v2_summary s') = s2_created_at_ms (v2_summary s) ∧
  s2_metadata (v2_summary s') = match ev2_payload e with V2MetadataChanged m => m | _ => s2_metadata (v2_summary s) end ∧
  match ev2_payload e with
  | V2LifecycleChanged l => v2_lifecycle s' = l ∧ lifecycle_rank l = S (lifecycle_rank (v2_lifecycle s))
                            ∧ projection_of s' = projection_of s
  | V2MetadataChanged _ => v2_lifecycle s' = v2_lifecycle s ∧ v2_lifecycle s = LifecycleOpen
                           ∧ projection_of s' = projection_of s
  | _ => v2_lifecycle s' = v2_lifecycle s
  end.
Proof.
  intros [_ _ _ _ Hn (next & Hp & ->)]. unfold apply_payload_v2 in Hp.
  destruct (ev2_payload e) as [run|event|m|l].
  - inv_result. match goal with H : apply_v1_payload _ _ _ = _ |- _ => apply apply_v1_payload_Ok in H as (t & _ & _ & Hs & Hl & Hpe & _); [|done] end.
    unfold stamp_v2. simpl. by rewrite Hs, Hl, Hpe.
  - apply apply_v1_payload_Ok in Hp as (t & _ & _ & Hs & Hl & Hpe & _); [|done].
    unfold stamp_v2. simpl. by rewrite Hs, Hl, Hpe.
  - inv_result. inv_bool. done.
  - destruct (v2_lifecycle s) eqn:Hl, l; inv_result; try done.
Qed.

(** The agreement of the reducers: what a run's event does to the part that both views
    have. *)
Lemma applied_run s e s' payload :
  AppliedV2 s e s' →
  ev2_payload e = match payload with PayloadRunChanged run => V2RunChanged run | PayloadRunEvent event => V2RunEvent event end →
  ∃ t, apply_payload (legacy_snapshot s) (legacy_envelope e payload) = Ok t ∧ projection_of s' = projection_v1 t.
Proof.
  intros [_ _ _ _ Hn (next & Hp & ->)] Hpay. unfold apply_payload_v2 in Hp. rewrite Hpay in Hp.
  destruct payload; inv_result; match goal with H : apply_v1_payload _ _ _ = _ |- _ =>
    apply apply_v1_payload_Ok in H as (t & Ht & Hproj & _); [|done] end; by exists t.
Qed.
End reducer.

(** ** The journal of a projection *)

Section journal.
Context `{Externals} `{ManagementExternals}.
Implicit Types (p : ManagementProjection) (journal : list JournalEntryV2) (c floor : SessionCursorV2).

Definition journal_bytes journal : N := foldr N.add 0%N (j2_bytes <$> journal).

(** The entries follow the floor one by one, in its stream. *)
Definition follows floor journal : Prop :=
  ∀ i e, journal !! i = Some e →
    same_place_v2 floor (ev2_cursor (j2_envelope e)) ∧ j2_seq e = (cv_seq floor + 1 + N.of_nat i)%N ∧
    SessionEventEnvelopeV2_validate (j2_envelope e) = Ok ().

Lemma follows_tail floor e journal :
  follows floor (e :: journal) → follows (ev2_cursor (j2_envelope e)) journal.
Proof.
  intros Hf i x Hx. destruct (Hf (S i) x Hx) as (Hp & Hs & Hv). destruct (Hf 0 e eq_refl) as (Hp0 & Hs0 & _).
  split_and!; [by etrans; [symmetry|]| |done]. unfold j2_seq in Hs0. rewrite Hs0. lia.
Qed.

Lemma follows_snoc floor journal e :
  follows floor journal → same_place_v2 floor (ev2_cursor (j2_envelope e)) →
  j2_seq e = (cv_seq floor + 1 + N.of_nat (length journal))%N → SessionEventEnvelopeV2_validate (j2_envelope e) = Ok () →
  follows floor (journal ++ [e]).
Proof.
  intros Hf Hp Hs Hv i x [Hx|[Hi Hx]]%lookup_app_Some; [by apply Hf|].
  apply list_lookup_singleton_Some in Hx as [? <-]. split_and!; [done| |done]. rewrite Hs. lia.
Qed.

(** A journal with its floor, its size and its bounds. *)
Record JournalOk journal (bytes : N) floor (current : N) : Prop := {
  jo_follows : follows floor journal;
  jo_end : current = (cv_seq floor + N.of_nat (length journal))%N;
  jo_bytes : bytes = journal_bytes journal;
}.

Lemma evict_v2_ok journal bytes floor current :
  JournalOk journal bytes floor current →
  let '(journal', bytes', floor') := evict_v2 journal bytes floor in
  JournalOk journal' bytes' floor' current ∧ same_place_v2 floor floor' ∧ (cv_seq floor <= cv_seq floor')%N ∧
  length journal' <= MAX_SESSION_V2_EVENT_JOURNAL_EVENTS ∧ (bytes' <= MAX_SESSION_V2_EVENT_JOURNAL_BYTES)%N ∧
  ∃ pre, journal = pre ++ journal'.
Proof.
  revert bytes floor. induction journal as [|e journal IH]; intros bytes floor [Hf He Hb]; simpl.
  { subst bytes. split_and!; [done|done|lia|simpl; lia|unfold journal_bytes; simpl; lia|by exists []]. }
  destruct (_ || _) eqn:Hover.
  - destruct (Hf 0 e eq_refl) as (Hp & Hs & _). unfold j2_seq in Hs.
    specialize (IH (bytes - j2_bytes e)%N (ev2_cursor (j2_envelope e))).
    destruct (evict_v2 _ _ _) as [[journal' bytes'] floor']. destruct IH as (Hok & Hpl & Hle & Hc & Hsz & pre & Hpre).
    + constructor; [by eapply follows_tail| |].
      * rewrite length_cons in He. lia.
      * subst bytes. unfold journal_bytes. csimpl. lia.
    + split_and!; [done|by etrans|lia|done|done|]. exists (e :: pre). by rewrite Hpre.
  - inv_bool. split_and!; [done|done|lia|simpl in *; lia|lia|by exists []].
Qed.

(** The invariant of a projection. *)
Record ProjectionOk p : Prop := {
  pr_valid : SessionSnapshotV2_validate (mp_snapshot p) = Ok ();
  pr_floor : same_place_v2 (mp_replay_floor p) (mp_cursor p);
  pr_journal : JournalOk (mp_journal p) (mp_journal_bytes p) (mp_replay_floor p) (cv_seq (mp_cursor p));
  pr_count : length (mp_journal p) <= MAX_SESSION_V2_EVENT_JOURNAL_EVENTS;
  pr_size : (mp_journal_bytes p <= MAX_SESSION_V2_EVENT_JOURNAL_BYTES)%N;
  pr_width : (cv_seq (mp_cursor p) <= u64_max)%N;
}.

Lemma journal_bytes_snoc journal e : journal_bytes (journal ++ [e]) = (journal_bytes journal + j2_bytes e)%N.
Proof. unfold journal_bytes. induction journal as [|x journal IH]; csimpl; [lia|]. rewrite IH. lia. Qed.

(** What a publication prepares. *)
Record PreparedV2 p (occurred_at_ms : N) (payload : SessionEventPayloadV2) (run_identity : option (string * nat))
    (pm : PreparedManagement) : Prop := {
  pd_source : pm_source pm = mp_cursor p;
  pd_applied : AppliedV2 (mp_snapshot p) (pm_envelope pm) (mp_snapshot (pm_next pm));
  pd_payload : ev2_payload (pm_envelope pm) = payload;
  pd_time : ev2_occurred_at_ms (pm_envelope pm) = occurred_at_ms;
  pd_thread : ev2_thread_id (pm_envelope pm) = s2_thread_id (v2_summary (mp_snapshot p));
  pd_identities : mp_run_identities (pm_next pm) =
    match run_identity with
    | Some (turn_id, identity) => <[turn_id := identity]> (mp_run_identities p)
    | None => mp_run_identities p
    end;
  pd_retained : ∃ bytes run_id,
    let next := retain {| mp_snapshot := mp_snapshot (pm_next pm); mp_journal := mp_journal p;
                          mp_journal_bytes := mp_journal_bytes p; mp_replay_floor := mp_replay_floor p;
                          mp_run_identities := mp_run_identities p |} (pm_envelope pm) bytes run_id in
    mp_journal (pm_next pm) = mp_journal next ∧ mp_journal_bytes (pm_next pm) = mp_journal_bytes next ∧
    mp_replay_floor (pm_next pm) = mp_replay_floor next;
}.

Lemma retain_snapshot p e bytes run_id :
  mp_snapshot (retain p e bytes run_id) = mp_snapshot p ∧
  mp_run_identities (retain p e bytes run_id) = mp_run_identities p.
Proof. unfold retain. by destruct (_ <? bytes)%N; [|destruct (evict_v2 _ _ _) as [[??]?]]. Qed.

(** An event that follows is applied. *)
Lemma applied_applies s e s' :
  AppliedV2 s e s' → ev2_thread_id e = s2_thread_id (v2_summary s) → apply_v2 s e = Ok (s', true).
Proof.
  intros [Hb He Ha Ho Hn (next & Hp & ->)] Ht. unfold apply_v2. rewrite Hb, He. simpl.
  pose proof Hn as Hn'. apply checked_next_v2_Ok in Hn' as (_ & Hpl & Hs & _).
  rewrite Ht. rewrite (proj2 (same_stream_v2_true _ _) Hpl).
  rewrite (bool_decide_eq_true_2 (s2_thread_id (v2_summary s) = _)) by done. simpl.
  rewrite (proj2 (N.leb_gt _ _)), (bool_decide_eq_false_2 _ Ho) by lia. simpl. rewrite Hn. simpl.
  rewrite bool_decide_eq_true_2 by done. simpl. rewrite Hp. simpl. by rewrite Ha.
Qed.

Lemma prepare_v2_Prepared p ts payload rid pm : prepare_v2 p ts payload rid = Ok pm → PreparedV2 p ts payload rid pm.
Proof.
  unfold prepare_v2. intros Hp. inv_result.
  match goal with Ha : apply_v2 _ ?e = Ok (_, ?b) |- _ => set (env := e) in *; rename Ha into Happ; destruct b end.
  2:{ exfalso. apply apply_v2_false in Happ as [_ Hle]. match goal with Hn : checked_next_v2 _ = Ok _ |- _ =>
      apply checked_next_v2_Ok in Hn as (_ & _ & Hs & _) end. simpl in Hle. unfold mp_cursor in *. lia. }
  apply apply_v2_true in Happ.
  match goal with |- context [retain ?q _ ?b ?r] => destruct (retain_snapshot q env b r) as [Hs Hi] end.
  constructor; simpl; try done.
  - destruct rid as [[??]|]; simpl; by rewrite Hs.
  - destruct rid as [[??]|]; simpl; by rewrite Hi.
  - eexists _, _. destruct rid as [[??]|]; simpl in *; rewrite Hs; by split_and!.
Qed.

Lemma snapshot_cursor_valid_v2 s :
  SessionSnapshotV2_validate s = Ok () →
  SessionCursorV2_validate (v2_cursor s) = Ok () ∧ s2_thread_id (v2_summary s) = cv_thread_id (v2_cursor s) ∧
  s2_view_revision (v2_summary s) = cv_seq (v2_cursor s) ∧ SessionSummaryV2_validate (v2_summary s) = Ok ().
Proof.
  unfold SessionSnapshotV2_validate. intros Hv. inv_result. repeat match goal with u : () |- _ => destruct u end.
  by inv_bool.
Qed.

Lemma prepared_ok p ts payload rid pm : ProjectionOk p → PreparedV2 p ts payload rid pm → ProjectionOk (pm_next pm).
Proof.
  intros [Hv Hfl [Hf He Hb] Hc Hsz _] [_ Happ _ _ _ _ (bytes & run_id & Hj & Hjb & Hjf)].
  destruct (applied_frame _ _ _ Happ) as (Hcur & _). pose proof (ap2_next _ _ _ Happ) as Hn.
  apply checked_next_v2_Ok in Hn as (_ & Hpl & Hs & Hmax). fold (mp_cursor p) in Hpl, Hs.
  unfold retain in *. simpl in *.
  destruct (N.ltb_spec MAX_SESSION_V2_EVENT_JOURNAL_BYTES bytes) as [_|Hsmall].
  - constructor; [apply Happ|..]; rewrite ?Hj, ?Hjb, ?Hjf; unfold mp_cursor; rewrite ?Hcur; simpl; try done; try lia.
    constructor; [by intros ? ?|simpl; lia|done].
  - set (entry := {| j2_envelope := pm_envelope pm; j2_bytes := bytes; j2_run_id := run_id |}) in *.
    assert (JournalOk (mp_journal p ++ [entry]) (mp_journal_bytes p + bytes) (mp_replay_floor p)
              (cv_seq (ev2_cursor (pm_envelope pm)))) as Hok.
    { constructor.
      - apply follows_snoc; [done|by etrans| |apply Happ]. unfold j2_seq. simpl. lia.
      - rewrite length_app. simpl. lia.
      - by rewrite journal_bytes_snoc, Hb. }
    apply evict_v2_ok in Hok. destruct (evict_v2 _ _ _) as [[journal' bytes'] floor'].
    destruct Hok as (Hok & Hpf & _ & Hc' & Hsz' & _).
    constructor; [apply Happ|..]; rewrite ?Hj, ?Hjb, ?Hjf; unfold mp_cursor; rewrite ?Hcur; try done.
    transitivity (mp_replay_floor p); [by symmetry|]. by transitivity (mp_cursor p).
Qed.
Definition at_seq floor (n : N) : SessionCursorV2 :=
  {| cv_thread_id := cv_thread_id floor; cv_stream_id := cv_stream_id floor; cv_seq := n |}.

Lemma follows_place floor floor' journal :
  same_place_v2 floor floor' → cv_seq floor = cv_seq floor' → follows floor journal → follows floor' journal.
Proof. intros Hp Hs. by rewrite (cursor_v2_eq _ _ Hp Hs). Qed.

Lemma pop_through_v2_ok through journal bytes floor current :
  JournalOk journal bytes floor current → (cv_seq floor <= through <= current)%N →
  let '(journal', bytes') := pop_through_v2 through journal bytes in
  JournalOk journal' bytes' (at_seq floor through) current ∧ ∃ pre, journal = pre ++ journal'.
Proof.
  revert bytes floor. induction journal as [|e journal IH]; intros bytes floor [Hf He Hb] Hle; simpl.
  { simpl in He. split; [|by exists []]. constructor; [by intros ? ?|simpl; lia|done]. }
  destruct (Hf 0 e eq_refl) as (Hp & Hs & _).
  destruct (N.leb_spec (j2_seq e) through) as [Ht|Ht].
  - unfold j2_seq in Hs, Ht. specialize (IH (bytes - j2_bytes e)%N (ev2_cursor (j2_envelope e))).
    destruct (pop_through_v2 _ _ _) as [journal' bytes']. destruct IH as ([Hf' He' Hb'] & pre & Hpre).
    + constructor; [by eapply follows_tail| |].
      * rewrite length_cons in He. lia.
      * subst bytes. unfold journal_bytes. csimpl. lia.
    + lia.
    + split; [|exists (e :: pre); by rewrite Hpre]. constructor; [|done|done].
      apply (follows_place (at_seq (ev2_cursor (j2_envelope e)) through)); [|done|done].
      destruct Hp as [Hp1 Hp2]. by split; simpl.
  - assert (through = cv_seq floor) as -> by lia. split; [|by exists []].
    constructor; [|done|done]. by apply (follows_place floor).
Qed.

Lemma last_of_run_v2_Some turn_id journal t :
  last_of_run_v2 turn_id journal = Some t → ∃ e, e ∈ journal ∧ j2_seq e = t.
Proof.
  unfold last_of_run_v2. revert t. induction journal as [|x journal IH] using rev_ind; intros t; [done|].
  rewrite foldl_app. simpl. case_bool_decide; simpl.
  - intros [= <-]. destruct (foldl _ _ _) as [n|]; simpl.
    + destruct (IH n eq_refl) as (e & He & Hn). destruct (N.max_spec n (j2_seq x)) as [[_ ->]|[_ ->]].
      * exists x. split; [set_solver|done].
      * exists e. split; [set_solver|done].
    + exists x. split; [set_solver|]. lia.
  - intros Ht. destruct (IH t Ht) as (e & He & Hn). exists e. split; [set_solver|done].
Qed.

Lemma journal_seq_bounds journal bytes floor current e :
  JournalOk journal bytes floor current → e ∈ journal → (cv_seq floor < j2_seq e <= current)%N.
Proof.
  intros [Hf He _] [i Hi]%list_elem_of_lookup. destruct (Hf i e Hi) as (_ & Hs & _).
  apply lookup_lt_Some in Hi. lia.
Qed.

Lemma retire_v2_ok p turn_id identity p' :
  ProjectionOk p → prepare_retire_run_v2 p turn_id identity = Some p' →
  ProjectionOk p' ∧ mp_snapshot p' = mp_snapshot p ∧
  mp_run_identities p' = delete turn_id (mp_run_identities p) ∧ mp_run_identities p !! turn_id = Some identity.
Proof.
  intros [Hv Hfl Hj Hc Hsz Hw] Hr. unfold prepare_retire_run_v2 in Hr. destruct (_ || _) eqn:Hg; [done|]. inv_bool.
  destruct (last_of_run_v2 turn_id (mp_journal p)) as [t|] eqn:Hlast; [|by injection Hr as <-].
  destruct (last_of_run_v2_Some _ _ _ Hlast) as (e & He & <-).
  pose proof (journal_seq_bounds _ _ _ _ _ Hj He) as Hb.
  pose proof (pop_through_v2_ok (j2_seq e) _ _ _ _ Hj ltac:(lia)) as Hpop.
  destruct (pop_through_v2 _ _ _) as [journal' bytes']. destruct Hpop as (Hok & pre & Hpre).
  injection Hr as <-. split; [|done]. rewrite (N.max_r (cv_seq (mp_replay_floor p)) (j2_seq e)) by lia.
  constructor; simpl; try done.
  - rewrite Hpre, length_app in Hc. lia.
  - pose proof (jo_bytes _ _ _ _ Hok) as ->. pose proof (jo_bytes _ _ _ _ Hj) as Hb0. rewrite Hb0, Hpre in Hsz.
    etrans; [|exact Hsz]. unfold journal_bytes. clear. induction pre as [|x pre IH]; csimpl; lia.
Qed.

(** ** Replay *)

(** A filter by positions selects a segment of a journal. *)
Lemma follows_filter journal bytes floor current (a t : N) :
  JournalOk journal bytes floor current → (cv_seq floor <= a)%N → (a <= t)%N → (t <= current)%N →
  List.filter (λ e, (a <? j2_seq e)%N && (j2_seq e <=? t)%N) journal =
  segment journal (a - cv_seq floor) (t - cv_seq floor).
Proof.
  intros [Hf He _] H1 H2 H3. unfold segment.
  set (n := N.to_nat (a - cv_seq floor)). set (m := N.to_nat (t - cv_seq floor)).
  rewrite <-(take_drop n journal) at 1. rewrite <-(take_drop (m - n) (drop n journal)) at 1.
  rewrite !List.filter_app. rewrite list_filter_nil_b, list_filter_all_b, list_filter_nil_b; [by rewrite app_nil_r| | |].
  - intros e [i Hi]%list_elem_of_lookup. rewrite drop_drop, lookup_drop in Hi. destruct (Hf _ _ Hi) as (_ & Hs & _).
    apply andb_false_iff. right. apply N.leb_gt. lia.
  - intros e [i Hi]%list_elem_of_lookup. apply lookup_take_Some in Hi as [Hi Hlt].
    rewrite lookup_drop in Hi. destruct (Hf _ _ Hi) as (_ & Hs & _).
    apply andb_true_iff. split; [apply N.ltb_lt|apply N.leb_le]; lia.
  - intros e [i Hi]%list_elem_of_lookup. apply lookup_take_Some in Hi as [Hi Hlt].
    destruct (Hf _ _ Hi) as (_ & Hs & _). apply andb_false_iff. left. apply N.ltb_ge. lia.
Qed.

(** The events of a page are checked one after the other. *)
Lemma page_checks journal floor through (start : SessionCursorV2) (k : nat) :
  follows floor journal → same_place_v2 floor start → SessionCursorV2_validate start = Ok () →
  cv_seq start = (cv_seq floor + N.of_nat k)%N → (cv_seq floor + N.of_nat (length journal) <= u64_max)%N →
  (∀ e, e ∈ drop k journal → (j2_seq e <= cv_seq through)%N) →
  fold_res (check_page_event_v2 through) start (j2_envelope <$> drop k journal)
  = Ok (default start (ev2_cursor <$> last (j2_envelope <$> drop k journal))).
Proof.
  intros Hf. revert start k. assert (∀ n start k, length (drop k journal) = n → same_place_v2 floor start →
    SessionCursorV2_validate start = Ok () → cv_seq start = (cv_seq floor + N.of_nat k)%N →
    (cv_seq floor + N.of_nat (length journal) <= u64_max)%N →
    (∀ e, e ∈ drop k journal → (j2_seq e <= cv_seq through)%N) →
    fold_res (check_page_event_v2 through) start (j2_envelope <$> drop k journal)
    = Ok (default start (ev2_cursor <$> last (j2_envelope <$> drop k journal)))) as Hn; [|by eauto].
  induction n as [|n IH]; intros start k Hlen Hp Hv Hs Hmax Hth.
  { apply nil_length_inv in Hlen. by rewrite Hlen. }
  destruct (drop k journal) as [|e rest] eqn:Hd; [done|].
  assert (journal !! k = Some e) as Hk by (rewrite <-(Nat.add_0_r k), <-lookup_drop, Hd; done).
  destruct (Hf k e Hk) as (Hpe & Hse & Hve).
  assert (checked_next_v2 start = Ok (ev2_cursor (j2_envelope e))) as Hnext.
  { apply checked_next_v2_Ok. apply lookup_lt_Some in Hk. unfold j2_seq in Hse.
    split_and!; [done|by etrans; [symmetry|]|lia|lia]. }
  specialize (Hth e ltac:(left)) as He. unfold j2_seq in He.
  assert (check_page_event_v2 through start (j2_envelope e) = Ok (ev2_cursor (j2_envelope e))) as Hcheck.
  { unfold check_page_event_v2. rewrite Hve, Hnext. simpl. rewrite bool_decide_eq_true_2 by done. simpl.
    by rewrite (proj2 (N.ltb_ge _ _)). }
  rewrite fmap_cons. cbn [fold_res]. rewrite Hcheck. cbn [mbind result_bind].
  assert (drop (S k) journal = rest) as Hrest by (by rewrite <-(Nat.add_1_r k), <-drop_drop, Hd).
  rewrite <-Hrest. rewrite IH; [|rewrite Hrest; simpl in Hlen; lia|done| | |done|].
  - rewrite Hrest. destruct rest as [|x rest]; [done|]. rewrite !fmap_cons, last_cons_cons.
    destruct (last (j2_envelope x :: (j2_envelope <$> rest))) eqn:Hl; [done|]. by apply last_None in Hl.
  - by rewrite <-(cursor_v2_validate_place _ _ Hpe), (cursor_v2_validate_place _ _ Hp).
  - unfold j2_seq in Hse. lia.
  - intros y Hy. apply Hth. rewrite Hrest in Hy. by right.
Qed.

Lemma initial_projection_ok summary persistence history thread stream :
  let cursor := {| cv_thread_id := thread; cv_stream_id := stream; cv_seq := 0 |} in
  let snapshot := SessionSnapshotV2_new summary LifecycleOpen persistence history cursor in
  SessionSnapshotV2_validate snapshot = Ok () →
  ProjectionOk {| mp_snapshot := snapshot; mp_journal := []; mp_journal_bytes := 0; mp_replay_floor := cursor;
                  mp_run_identities := ∅ |}.
Proof.
  intros cursor snapshot Hv. constructor; simpl; try done; lia.
Qed.

Lemma sub_params_v2_valid params :
  SubscribeSessionV2Params_validate params = Ok () →
  SessionCursorV2_validate (u2_after params) = Ok () ∧ cv_thread_id (u2_after params) = u2_thread_id params ∧
  (0 < u2_limit params)%N ∧
  ∀ t, u2_through params = Some t →
    SessionCursorV2_validate t = Ok () ∧ same_place_v2 (u2_after params) t ∧ (cv_seq (u2_after params) <= cv_seq t)%N.
Proof.
  unfold SubscribeSessionV2Params_validate, validate_bounded_limit. intros Hv. inv_result.
  repeat match goal with u : () |- _ => destruct u end. inv_bool. split_and!; try done; [lia|].
  intros t Ht. rewrite Ht in *. inv_result. inv_bool. repeat match goal with u : () |- _ => destruct u end.
  split_and!; [done| |done]. by apply same_stream_v2_true.
Qed.

Inductive AnswerV2 p params : SubscribeSessionV2Result → Prop :=
  | answer2_reset :
      cv_stream_id (u2_after params) ≠ cv_stream_id (mp_cursor p) →
      AnswerV2 p params (gap_v2 p params (mp_cursor p) StreamResetV2)
  | answer2_gap through :
      same_place_v2 (u2_after params) (mp_cursor p) → same_place_v2 through (mp_cursor p) →
      through = default (mp_cursor p) (u2_through params) →
      (cv_seq (u2_after params) < cv_seq (mp_replay_floor p))%N →
      AnswerV2 p params (gap_v2 p params through RetentionV2)
  | answer2_page through events :
      same_place_v2 (u2_after params) (mp_cursor p) → same_place_v2 through (mp_cursor p) →
      through = default (mp_cursor p) (u2_through params) →
      (cv_seq (mp_replay_floor p) <= cv_seq (u2_after params) <= cv_seq through)%N →
      (cv_seq through <= cv_seq (mp_cursor p))%N →
      events = page_v2 p (cv_seq (u2_after params)) (cv_seq through) (u2_limit params) →
      AnswerV2 p params
        {| page2_events := events; page2_resume_after := default (u2_after params) (ev2_cursor <$> last events);
           page2_through := through; page2_lifecycle := lifecycle_at p (cv_seq through);
           page2_has_more := (cv_seq (default (u2_after params) (ev2_cursor <$> last events)) <? cv_seq through)%N;
           page2_gap := None |}.

Lemma replay_v2_Answer p params result :
  cv_thread_id (mp_cursor p) = u2_thread_id params → replay_v2 p params = Ok result →
  SubscribeSessionV2Params_validate params = Ok () ∧ AnswerV2 p params result.
Proof.
  intros Ht Hr. unfold replay_v2 in Hr. apply bind_Ok in Hr as ([] & Hv & Hr). apply map_err_Ok in Hv. split; [done|].
  destruct (sub_params_v2_valid _ Hv) as (_ & Hat & _ & Hth).
  destruct (_ != _) eqn:Hs in Hr; inv_bool; [injection Hr as <-; by constructor|].
  assert (same_place_v2 (u2_after params) (mp_cursor p)) as Hp by (split; congruence).
  inv_result. inv_bool.
  match goal with H : match u2_through params with _ => _ end = Ok ?o |- _ => rename o into early, H into He end.
  match goal with H : match early with _ => _ end = Ok _ |- _ => rename H into Hr end.
  assert (early = None ∧ same_place_v2 (default (mp_cursor p) (u2_through params)) (mp_cursor p) ∧
          (cv_seq (u2_after params) <= cv_seq (default (mp_cursor p) (u2_through params)) <= cv_seq (mp_cursor p))%N)
    as (-> & Hpt & Hle).
  { destruct (u2_through params) as [t|]; simpl in *; [|inv_result; split_and!; [done..|lia]].
    destruct (Hth t eq_refl) as (_ & Hpt & Hle). assert (same_place_v2 t (mp_cursor p)) as Hpt' by (by etrans; [symmetry|]).
    destruct (_ != _) eqn:Hn in He; inv_bool; [by destruct Hpt'|]. inv_result. by inv_bool. }
  destruct (N.ltb_spec (cv_seq (u2_after params)) (cv_seq (mp_replay_floor p))); injection Hr as <-.
  - by apply answer2_gap.
  - eapply answer2_page; try done; lia.
Qed.

(** The events of a page and their check. *)
Lemma page_v2_checks p params through :
  ProjectionOk p → same_place_v2 (u2_after params) (mp_cursor p) →
  SessionCursorV2_validate (u2_after params) = Ok () →
  (cv_seq (mp_replay_floor p) <= cv_seq (u2_after params) <= cv_seq through)%N →
  (cv_seq through <= cv_seq (mp_cursor p))%N →
  let events := page_v2 p (cv_seq (u2_after params)) (cv_seq through) (u2_limit params) in
  let resume := default (u2_after params) (ev2_cursor <$> last events) in
  fold_res (check_page_event_v2 through) (u2_after params) events = Ok resume ∧
  same_place_v2 (mp_cursor p) resume ∧ (N.of_nat (length events) <= u2_limit params)%N.
Proof.
  intros [_ Hfl Hj _ _ Hw] Ha Hv Hle Hc events resume. pose proof Hj as [Hf He _].
  set (floor := mp_replay_floor p) in *. set (k := N.to_nat (cv_seq (u2_after params) - cv_seq floor)).
  set (m := N.to_nat (cv_seq through - cv_seq floor)).
  set (pre := take (k + min (N.to_nat (u2_limit params)) (m - k)) (mp_journal p)).
  assert (events = j2_envelope <$> drop k pre) as Hev.
  { unfold events, page_v2. rewrite (follows_filter _ _ _ _ _ _ Hj) by lia. unfold segment. fold floor k m.
    rewrite <-fmap_take, take_take. f_equal. unfold pre. by rewrite take_drop_commute. }
  assert (follows floor pre) as Hpre.
  { intros i e Hi. apply lookup_take_Some in Hi as [Hi _]. by apply Hf. }
  assert (same_place_v2 floor (u2_after params)) as Hfa by (transitivity (mp_cursor p); [done|by symmetry]).
  split; [|split].
  - unfold resume. rewrite Hev. apply (page_checks pre floor through); try done; [lia| |].
    + unfold pre. rewrite length_take. lia.
    + intros e [i Hi]%list_elem_of_lookup. rewrite lookup_drop in Hi. apply lookup_take_Some in Hi as [Hi Hlt].
      destruct (Hf _ _ Hi) as (_ & Hs & _). lia.
  - unfold resume. rewrite Hev. destruct (last (j2_envelope <$> drop k pre)) as [e|] eqn:Hl; simpl; [|by symmetry].
    rewrite fmap_last in Hl. destruct (last (drop k pre)) as [x|] eqn:Hx; [|done]. simpl in Hl. injection Hl as <-.
    rewrite last_lookup, lookup_drop in Hx. destruct (Hpre _ _ Hx) as (Hp & _). transitivity floor; [by symmetry|done].
  - unfold events, page_v2. rewrite length_take. lia.
Qed.

Lemma replay_v2_validates p params result :
  ProjectionOk p → cv_thread_id (mp_cursor p) = u2_thread_id params → replay_v2 p params = Ok result →
  subscribe_validate_for result params = Ok ().
Proof.
  intros Hok Ht Hr. destruct (replay_v2_Answer _ _ _ Ht Hr) as (Hv & Ha). clear Hr.
  destruct (sub_params_v2_valid _ Hv) as (Hav & Hat & Hl & Hth).
  destruct (snapshot_cursor_valid_v2 _ (pr_valid _ Hok)) as (Hcv & _ & Hrev & _). fold (mp_cursor p) in Hcv, Hrev.
  pose proof (pr_floor _ Hok) as Hfp. pose proof (jo_end _ _ _ _ (pr_journal _ Hok)) as Hfs.
  assert (SessionCursorV2_validate (mp_replay_floor p) = Ok ()) as Hfv by (by rewrite (cursor_v2_validate_place _ _ Hfp)).
  unfold subscribe_validate_for. rewrite Hv. simpl.
  destruct Ha as [Hne|through Hp Hpt -> Hlt|through events Hp Hpt -> Hle Hc Hev]; simpl.
  - pass_guards; [|unfold validate_gap_through_v2; simpl; pass_guards].
    unfold ReplayGapV2_validate. simpl. pass_guards. by apply same_stream_v2_true.
  - assert (SessionCursorV2_validate (default (mp_cursor p) (u2_through params)) = Ok ()) as Htv.
    { by rewrite (cursor_v2_validate_place _ _ Hpt). }
    destruct Hpt as [Hpt1 Hpt2]. pass_guards.
    + unfold ReplayGapV2_validate. simpl. pass_guards; by apply same_stream_v2_true.
    + unfold validate_gap_through_v2. simpl. destruct (u2_through params); pass_guards.
  - destruct (page_v2_checks p params (default (mp_cursor p) (u2_through params)) Hok Hp Hav Hle Hc) as (Hch & Hrp & Hlen).
    rewrite <-Hev in *. set (resume := default (u2_after params) (ev2_cursor <$> last events)) in *.
    assert (SessionCursorV2_validate (default (mp_cursor p) (u2_through params)) = Ok ()) as Htv.
    { by rewrite (cursor_v2_validate_place _ _ Hpt). }
    assert (SessionCursorV2_validate resume = Ok ()) as Hrv by (by rewrite <-(cursor_v2_validate_place _ _ Hrp)).
    destruct Hrp as [Hrp1 Hrp2], Hpt as [Hpt1 Hpt2], Hp as [Hp1 Hp2].
    pass_guards. unfold validate_page_v2. simpl. pass_guards.
    + destruct (u2_through params); pass_guards.
    + apply same_stream_v2_true. split; congruence.
    + apply same_stream_v2_true. split; congruence.
    + rewrite Hch. simpl. pass_guards. apply eqb_reflx.
Qed.
End journal.
