(* ===== verification/ManagementOps.v ===== *)
(** * The daemon's session management

    The rest of [crates/whale-daemon/src/session_management.rs]: the registry of
    records and owner catalogs, the dual publication of the two session views with the
    history archive, retirement, metadata, the life cycle, the catalog pages and the
    pruning of closed sessions.

    A record is an address of a heap ([Arc]); an operation that awaits a record's lane
    is split at that point, because the record may be dropped from the registry
    meanwhile: the part under the lane takes the address. Under the lane only
    operations that hold it change the projections of the record, so that part is one
    step. The state of the owner's journal worker is kept with the store. *)

From S2P Require Import Prelude Protocol StoreState StoreBackend StoreConfig StoreRuntime SessionViews ViewJournal SessionManagement SessionCatalog HistoryArchive ManagementProjection.

Record ManagementRecord := {
  mr_owner : string;
  mr_catalog_ordinal : N;
  mr_accepting_metadata : bool;
  mr_projection : ManagementProjection;
  mr_history : HistoryArchive;
  mr_closed_at : option N;
  mr_notifier : ManagementNotifier;
}.

Record OwnerCatalogState := {
  oc_generation : N;
  oc_generation_exhausted : bool;
  oc_next_ordinal : N;
  oc_entries : gmap N string;
  oc_expired_tombstones : list string;
}.
(** [OwnerCatalogState::default] *)
Definition catalog_default : OwnerCatalogState :=
  {| oc_generation := 0; oc_generation_exhausted := false; oc_next_ordinal := 1; oc_entries := ∅;
     oc_expired_tombstones := [] |}.

Record ManagementLimits := {
  ml_max_closed_tombstones : nat;
  ml_max_closed_tombstone_bytes : N;
  ml_closed_tombstone_ttl_ms : N;
}.
(** [ManagementLimits::default] *)
Definition management_limits_default : ManagementLimits :=
  {| ml_max_closed_tombstones := MAX_CLOSED_SESSION_TOMBSTONES_PER_OWNER;
     ml_max_closed_tombstone_bytes := MAX_CLOSED_SESSION_TOMBSTONE_BYTES_PER_OWNER;
     ml_closed_tombstone_ttl_ms := CLOSED_SESSION_TOMBSTONE_TTL_MS |}.

Record SessionManagementRegistry := {
  sm_records : gmap string nat;
  sm_heap : gmap nat ManagementRecord;
  sm_next : nat;
  sm_owners : gmap string OwnerCatalogState;
  sm_codec : CursorCodec;
  sm_limits : ManagementLimits;
}.

(** ** Field updates *)

Definition mr_eta (r : ManagementRecord) : ManagementRecord :=
  {| mr_owner := mr_owner r; mr_catalog_ordinal := mr_catalog_ordinal r;
     mr_accepting_metadata := mr_accepting_metadata r; mr_projection := mr_projection r;
     mr_history := mr_history r; mr_closed_at := mr_closed_at r; mr_notifier := mr_notifier r |}.
Definition set_accepting (v : bool) (r : ManagementRecord) : ManagementRecord :=
  ltac:(update_field mr_eta mr_accepting_metadata v r).
Definition set_projection (v : ManagementProjection) (r : ManagementRecord) : ManagementRecord :=
  ltac:(update_field mr_eta mr_projection v r).
Definition set_archive (v : HistoryArchive) (r : ManagementRecord) : ManagementRecord :=
  ltac:(update_field mr_eta mr_history v r).
Definition set_closed_at (v : option N) (r : ManagementRecord) : ManagementRecord :=
  ltac:(update_field mr_eta mr_closed_at v r).
Definition set_notifier (v : ManagementNotifier) (r : ManagementRecord) : ManagementRecord :=
  ltac:(update_field mr_eta mr_notifier v r).

Definition oc_eta (c : OwnerCatalogState) : OwnerCatalogState :=
  {| oc_generation := oc_generation c; oc_generation_exhausted := oc_generation_exhausted c;
     oc_next_ordinal := oc_next_ordinal c; oc_entries := oc_entries c;
     oc_expired_tombstones := oc_expired_tombstones c |}.
Definition set_entries (v : gmap N string) (c : OwnerCatalogState) : OwnerCatalogState :=
  ltac:(update_field oc_eta oc_entries v c).
Definition set_expired_tombstones (v : list string) (c : OwnerCatalogState) : OwnerCatalogState :=
  ltac:(update_field oc_eta oc_expired_tombstones v c).
Definition set_next_ordinal (v : N) (c : OwnerCatalogState) : OwnerCatalogState :=
  ltac:(update_field oc_eta oc_next_ordinal v c).
(** [generation.checked_add(1)]: the next generation, or that there is none. *)
Definition next_generation (c : OwnerCatalogState) : OwnerCatalogState :=
  match checked_add (oc_generation c) 1 with
  | Some next => ltac:(update_field oc_eta oc_generation next c)
  | None => ltac:(update_field oc_eta oc_generation_exhausted true c)
  end.

Definition sm_eta (g : SessionManagementRegistry) : SessionManagementRegistry :=
  {| sm_records := sm_records g; sm_heap := sm_heap g; sm_next := sm_next g; sm_owners := sm_owners g;
     sm_codec := sm_codec g; sm_limits := sm_limits g |}.
Definition set_records (v : gmap string nat) (g : SessionManagementRegistry) : SessionManagementRegistry :=
  ltac:(update_field sm_eta sm_records v g).
Definition set_heap (v : gmap nat ManagementRecord) (g : SessionManagementRegistry) : SessionManagementRegistry :=
  ltac:(update_field sm_eta sm_heap v g).
Definition set_next (v : nat) (g : SessionManagementRegistry) : SessionManagementRegistry :=
  ltac:(update_field sm_eta sm_next v g).
Definition set_owners (v : gmap string OwnerCatalogState) (g : SessionManagementRegistry) : SessionManagementRegistry :=
  ltac:(update_field sm_eta sm_owners v g).

Definition update_record (address : nat) (f : ManagementRecord → ManagementRecord) (g : SessionManagementRegistry) :
    SessionManagementRegistry :=
  set_heap (alter f address (sm_heap g)) g.

(** [notifier.close()]: the task is aborted. *)
Definition close_notifier (r : ManagementRecord) : ManagementRecord :=
  set_notifier (set_nt_stopped true (mr_notifier r)) r.

(** [BTreeMap<u64, V>::iter]: the entries in the order of their keys. *)
Definition ordinal_le (x y : N * string) : Prop := (x.1 <= y.1)%N.
#[export] Instance ordinal_le_dec x y : Decision (ordinal_le x y).
Proof. unfold ordinal_le. apply _. Defined.
Definition ordinal_iter (m : gmap N string) : list (N * string) := merge_sort ordinal_le (map_to_list m).

(** [usize::saturating_add] *)
Definition usize_sum (a b : N) : N := saturating_add a b.

(** The operations of the registry. *)
Abbreviation Op := (eff SessionManagementRegistry SessionManagementFailure).

Section registry.
Context `{Externals} `{ManagementExternals}.

(** ** Pruning closed sessions *)

Definition retained_record_bytes (record : ManagementRecord) : N :=
  let projection := mr_projection record in
  let snapshot := match serialized_bytes (snapshot_v2_json_len (mp_snapshot projection)) with
                  | Ok bytes => bytes
                  | Err _ => u64_max
                  end in
  usize_sum (usize_sum snapshot (mp_journal_bytes projection)) (ha_bytes (mr_history record)).

(** A closed session of an owner, as [prune_owner] collects it. *)
Record Closed := {
  cl_ordinal : N;
  cl_address : nat;
  cl_closed_at : N;
  cl_bytes : N;
}.
Definition closed_le (x y : Closed) : Prop :=
  (cl_closed_at x < cl_closed_at y)%N ∨ (cl_closed_at x = cl_closed_at y ∧ (cl_ordinal x <= cl_ordinal y)%N).
#[export] Instance closed_le_dec x y : Decision (closed_le x y).
Proof. unfold closed_le. apply _. Defined.

Definition closed_entry (g : SessionManagementRegistry) (entry : N * string) : option Closed :=
  address ← sm_records g !! entry.2;
  record ← sm_heap g !! address;
  closed_at ← mr_closed_at record;
  Some {| cl_ordinal := entry.1; cl_address := address; cl_closed_at := closed_at;
          cl_bytes := retained_record_bytes record |}.

Definition closed_sessions (g : SessionManagementRegistry) (catalog : OwnerCatalogState) : list Closed :=
  merge_sort closed_le (omap (closed_entry g) (ordinal_iter (oc_entries catalog))).

Definition is_protected (protected : option nat) (c : Closed) : bool := protected == Some (cl_address c).

(** The closed sessions that have outlived their time. *)
Definition expired_closed (limits : ManagementLimits) (now : N) (protected : option nat) (closed : list Closed) : list N :=
  cl_ordinal <$> List.filter (λ c, negb (is_protected protected c)
                                   && (ml_closed_tombstone_ttl_ms limits <=? now - cl_closed_at c)%N) closed.

(** The loop that removes the oldest until the rest is within the limits. *)
Fixpoint prune_pressure (limits : ManagementLimits) (protected : option nat) (closed : list Closed)
    (retained_count : nat) (retained_bytes : N) (remove : list N) : list N :=
  match closed with
  | [] => remove
  | c :: rest =>
      if bool_decide (retained_count <= ml_max_closed_tombstones limits)
         && (retained_bytes <=? ml_max_closed_tombstone_bytes limits)%N then remove
      else if bool_decide (cl_ordinal c ∈ remove) || is_protected protected c
      then prune_pressure limits protected rest retained_count retained_bytes remove
      else prune_pressure limits protected rest (retained_count - 1)
             (saturating_sub retained_bytes (cl_bytes c)) (remove ++ [cl_ordinal c])
  end.

Definition prune_list (limits : ManagementLimits) (now : N) (protected : option nat) (closed : list Closed) : list N :=
  let remove := expired_closed limits now protected closed in
  let kept := List.filter (λ c, negb (bool_decide (cl_ordinal c ∈ remove))) closed in
  prune_pressure limits protected closed (length closed - length remove)
    (foldl (λ total c, usize_sum total (cl_bytes c)) 0%N kept) remove.

(** [while expired_tombstones.len() > bound { pop_front }] *)
Definition bounded_tombstones (bound : nat) (l : list string) : list string := drop (length l - bound) l.

(** One turn of the removing loop. *)
Definition prune_one (owner : string) (st : SessionManagementRegistry * OwnerCatalogState) (ordinal : N) :
    SessionManagementRegistry * OwnerCatalogState :=
  let '(g, catalog) := st in
  match oc_entries catalog !! ordinal with
  | None => st
  | Some thread_id =>
      let removed :=
        address ← sm_records g !! thread_id;
        record ← sm_heap g !! address;
        if (mr_owner record == owner) && (mr_catalog_ordinal record =? ordinal)%N && is_some (mr_closed_at record)
        then Some address else None in
      match removed with
      | None => st
      | Some closed =>
          let catalog := set_entries (delete ordinal (oc_entries catalog)) catalog in
          let bound := max (2 * ml_max_closed_tombstones (sm_limits g)) 1 in
          let catalog := set_expired_tombstones
                           (bounded_tombstones bound (oc_expired_tombstones catalog ++ [thread_id])) catalog in
          (set_records (delete thread_id (sm_records g)) (update_record closed close_notifier g),
           next_generation catalog)
      end
  end.

(** [prune_owner]; [protected] is the address of a record that stays. *)
Definition prune_owner (owner : string) (protected : option nat) (now : N) (g : SessionManagementRegistry) :
    SessionManagementRegistry :=
  match sm_owners g !! owner with
  | None => g
  | Some catalog =>
      let '(g, catalog) :=
        foldl (prune_one owner) (g, catalog) (prune_list (sm_limits g) now protected (closed_sessions g catalog)) in
      set_owners (<[owner := catalog]> (sm_owners g)) g
  end.

Definition prune_closed (now : N) (g : SessionManagementRegistry) : SessionManagementRegistry :=
  foldl (λ g owner, prune_owner owner None now g) g (map_to_list (sm_owners g)).*1.

(** ** The registry *)

(** [owner_catalog] *)
Definition owner_catalog (owner : string) : Op OwnerCatalogState := λ g,
  match sm_owners g !! owner with
  | Some catalog => (Ok catalog, g)
  | None => (Ok catalog_default, set_owners (<[owner := catalog_default]> (sm_owners g)) g)
  end.

(** [insert]; [stream_id] is the new uuid. The second test for a duplicate, against a
    concurrent insertion, is the first one here. *)
Definition insert_session (owner thread_id : string) (agent_name : option string) (metadata : Map)
    (history : list CanonicalItem) (created_at_ms : N) (persistence : SessionPersistenceV2)
    (max_history_bytes : option N) (stream_id : string) : Op () :=
  let summary := set_metadata_s2 metadata
                   (set_agent_name_s2 agent_name (SessionSummaryV2_new thread_id created_at_ms)) in
  snapshot_history ← lift (map_err InvalidProjection (from_history history MAX_SESSION_HISTORY_LIMIT));
  let cursor := {| cv_thread_id := thread_id; cv_stream_id := stream_id; cv_seq := 0 |} in
  let snapshot := SessionSnapshotV2_new summary LifecycleOpen persistence snapshot_history cursor in
  lift (map_err InvalidProjection (SessionSnapshotV2_validate snapshot));;
  archive ← lift (HistoryArchive_new thread_id stream_id history max_history_bytes);
  catalog ← owner_catalog owner;
  lift (reject_if (oc_generation_exhausted catalog) (InvalidProjection "Session catalog generation is exhausted"));;
  records ← gets sm_records;
  lift (reject_if (is_some (records !! thread_id)) (InvalidProjection "SessionAlreadyExists"));;
  let ordinal := oc_next_ordinal catalog in
  next_ordinal ← lift (ok_or (checked_add ordinal 1) (InvalidProjection "Session catalog ordinal is exhausted"));
  let record :=
    {| mr_owner := owner; mr_catalog_ordinal := ordinal; mr_accepting_metadata := true;
       mr_projection := {| mp_snapshot := snapshot; mp_journal := []; mp_journal_bytes := 0;
                           mp_replay_floor := cursor; mp_run_identities := ∅ |};
       mr_history := archive; mr_closed_at := None; mr_notifier := notifier_new |} in
  modify (λ g,
    set_records (<[thread_id := sm_next g]> (sm_records g))
      (set_heap (<[sm_next g := record]> (sm_heap g))
         (set_next (S (sm_next g))
            (set_owners (<[owner := set_entries (<[ordinal := thread_id]> (oc_entries catalog))
                                      (set_next_ordinal next_ordinal catalog)]> (sm_owners g)) g)))).

(** [owned] *)
Definition owned_record (thread_id owner : string) (now : N) : Op (nat * ManagementRecord) := λ g,
  let g := prune_owner owner None now g in
  match (address ← sm_records g !! thread_id; record ← sm_heap g !! address; Some (address, record)) with
  | None =>
      (Err (if is_some_and (sm_owners g !! owner) (λ c, bool_decide (thread_id ∈ oc_expired_tombstones c))
            then TombstoneExpired thread_id else Unavailable), g)
  | Some (address, record) =>
      (if mr_owner record != owner then Err Unavailable else Ok (address, record), g)
  end.

(** [get_v2] *)
Definition get_v2 (owner : string) (params : GetSessionV2Params) (now : N) : Op SessionSnapshotV2 :=
  lift (map_err InvalidParams (GetSessionV2Params_validate params));;
  '(_, record) ← owned_record (g2_thread_id params) owner now;
  mret (snapshot_with_history_limit_v2 (mr_projection record) (g2_history_limit params)).

(** [subscribe_v2] *)
Definition subscribe_v2 (owner : string) (params : SubscribeSessionV2Params) (now : N) : Op SubscribeSessionV2Result :=
  '(address, record) ← owned_record (u2_thread_id params) owner now;
  result ← lift (replay_v2 (mr_projection record) params);
  let current := cv_seq (mp_cursor (mr_projection record)) in
  modify (update_record address (λ r,
    set_notifier (set_nt_order (activate (nt_order (mr_notifier r)) current) (mr_notifier r)) r));;
  mret result.
End registry.

(** ** The operations of session management

    [crates/whale-daemon/src/session_management.rs], [SessionManagementRegistry] and
    the handler of the metadata: catalog and history pages, the dual publication of a
    run's changes, retirement, metadata and the life cycle of a session. *)

Section catalog.
Context `{Externals} `{ManagementExternals} `{CodecExternals} `{!Serde ListCursorClaims, !Serde HistoryCursorClaims}.

(** ** The catalog *)

(** [list_entry] *)
Definition list_entry (record : ManagementRecord) : SessionListEntry :=
  let snapshot := mp_snapshot (mr_projection record) in
  {| le_summary := v2_summary snapshot; le_lifecycle := v2_lifecycle snapshot;
     le_persistence := v2_persistence snapshot; le_cursor := v2_cursor snapshot;
     le_history_total_items := ha_end (mr_history record);
     le_active_run := (λ run, {| hl_turn_id := snap_turn_id (rv_snapshot run);
                                 hl_status := snap_status (rv_snapshot run);
                                 hl_accepted_at_ms := rv_accepted_at_ms run;
                                 hl_updated_at_ms := rv_updated_at_ms run |}) <$> v2_active_run snapshot;
     le_last_run := v2_last_run snapshot |}.

(** [list_cursor] *)
Definition list_cursor (codec : CursorCodec) (now : N) (owner : string) (generation after through : N) :
    Managed string :=
  expires ← expiry now;
  token ← codec_encode codec LIST_CURSOR_DOMAIN owner (ListCursorClaims_new generation after through expires);
  map_err InvalidProjection (SessionListCursor_new token).

(** [range((Excluded(after), Included(through)))] *)
Definition in_range (after through : N) (entry : N * string) : bool := (after <? entry.1)%N && (entry.1 <=? through)%N.
Definition more_after (entries : list (N * string)) (after through : N) : bool := existsb (in_range after through) entries.

(** The claims of a request's cursor. *)
Definition list_claims (codec : CursorCodec) (now : N) (owner : string) (params : ListSessionsParams) :
    Managed (option ListCursorClaims) :=
  match ls_cursor params with
  | Some cursor =>
      claims ← ok_or (codec_decode codec LIST_CURSOR_DOMAIN owner cursor) ListCursorInvalid;
      reject_if (negb (list_valid_shape claims)) ListCursorInvalid;;
      reject_if (is_expired now (lc_expires_at_ms claims)) ListCursorExpired;;
      Ok (Some claims)
  | None => Ok None
  end.

(** The generation and the range of ordinals that a request reads. *)
Definition list_window (catalog : OwnerCatalogState) (claims : option ListCursorClaims) : Managed (N * N * N) :=
  match claims with
  | Some claims =>
      reject_if (negb (lc_generation claims =? oc_generation catalog)%N) ListCursorExpired;;
      reject_if (oc_next_ordinal catalog <=? lc_through_ordinal claims)%N ListCursorInvalid;;
      Ok (lc_generation claims, lc_after_ordinal claims, lc_through_ordinal claims)
  | None =>
      Ok (oc_generation catalog, 0%N, default 0%N (fst <$> last (ordinal_iter (oc_entries catalog))))
  end.

(** An entry of the catalog whose record is still the owner's. *)
Definition list_candidate (g : SessionManagementRegistry) (owner : string) (entry : N * string) :
    option (N * SessionListEntry) :=
  address ← sm_records g !! entry.2;
  record ← sm_heap g !! address;
  if mr_owner record == owner then Some (entry.1, list_entry record) else None.

(** The loop that fills a page: the sessions so far, the last ordinal and the page. *)
Fixpoint list_loop (codec : CursorCodec) (now : N) (owner : string) (generation through : N)
    (entries : list (N * string)) (candidates : list (N * SessionListEntry))
    (sessions : list SessionListEntry) (last_ : N) (result : ListSessionsResult) :
    Managed (list SessionListEntry * N * ListSessionsResult) :=
  match candidates with
  | [] => Ok (sessions, last_, result)
  | (ordinal, entry) :: rest =>
      next_cursor ← (if more_after entries ordinal through
                     then Some <$> list_cursor codec now owner generation ordinal through else Ok None);
      let candidate := {| lr_sessions := sessions ++ [entry]; lr_next_cursor := next_cursor |} in
      actual ← map_err InvalidProjection (serialized_bytes (list_page_json_len candidate));
      if (MAX_SESSION_MANAGEMENT_PAGE_BYTES <? actual)%N then
        match sessions with
        | [] => Err (ResourceLimit "session_list_page" actual MAX_SESSION_MANAGEMENT_PAGE_BYTES None)
        | _ => Ok (sessions, last_, result)
        end
      else list_loop codec now owner generation through entries rest (sessions ++ [entry]) ordinal candidate
  end.

(** The page of a catalog. *)
Definition list_page (g : SessionManagementRegistry) (catalog : OwnerCatalogState) (owner : string)
    (params : ListSessionsParams) (claims : option ListCursorClaims) (now : N) : Managed ListSessionsResult :=
  reject_if (oc_generation_exhausted catalog) (InvalidProjection "Session catalog generation is exhausted");;
  '(generation, after, through) ← list_window catalog claims;
  let entries := ordinal_iter (oc_entries catalog) in
  let candidates := omap (list_candidate g owner) (List.filter (in_range after through) entries) in
  '(sessions, last_, result) ←
    list_loop (sm_codec g) now owner generation through entries (take (N.to_nat (ls_limit params)) candidates)
      [] after {| lr_sessions := []; lr_next_cursor := None |};
  result ←
    (match sessions with
     | [] => Ok {| lr_sessions := []; lr_next_cursor := None |}
     | _ => if more_after entries last_ through then
              cursor ← list_cursor (sm_codec g) now owner generation last_ through;
              Ok {| lr_sessions := lr_sessions result; lr_next_cursor := Some cursor |}
            else Ok result
     end);
  map_err InvalidProjection (list_validate_for result params);;
  Ok result.

(** [list_sessions] *)
Definition list_sessions (owner : string) (params : ListSessionsParams) (now : N) : Op ListSessionsResult :=
  lift (map_err InvalidParams (ListSessionsParams_validate params));;
  codec ← gets sm_codec;
  claims ← lift (list_claims codec now owner params);
  modify (prune_owner owner None now);;
  catalog ← owner_catalog owner;
  g ← gets (λ g, g);
  lift (list_page g catalog owner params claims now).

(** [history_page] of the registry *)
Definition registry_history_page (owner : string) (params : GetSessionHistoryParams) (now : N) :
    Op GetSessionHistoryResult :=
  lift (map_err InvalidParams (GetSessionHistoryParams_validate params));;
  '(_, record) ← owned_record (gh_thread_id params) owner now;
  codec ← gets sm_codec;
  lift (history_page (mr_history record) codec now owner params).
End catalog.

(** ** The daemon: the two views, the journals of persistent sessions and their store *)

Record Daemon (St : Type) := {
  dm_views : SessionViewRegistry;
  dm_management : SessionManagementRegistry;
  dm_workers : gmap nat SessionJournal;
  dm_store : St;
}.
Arguments Build_Daemon {St}.
Arguments dm_views {St}.
Arguments dm_management {St}.
Arguments dm_workers {St}.
Arguments dm_store {St}.

(** What a journal command takes from clocks and random sources. *)
Record Tick := { tk_now_apply : N; tk_now_touch : N; tk_result : string; tk_execution : string }.

Inductive RunPublicationMutation :=
  | MutationBegin (snapshot : RunSnapshot) (identity : nat)
  | MutationChanged (snapshot : RunSnapshot)
  | MutationEvent (event : RunEvent).

Definition mutation_thread (mutation : RunPublicationMutation) : string :=
  match mutation with
  | MutationBegin snapshot _ | MutationChanged snapshot => snap_thread_id snapshot
  | MutationEvent event => re_thread_id event
  end.

(** The items that a finished run commits to the history. *)
Definition committed_history (mutation : RunPublicationMutation) : option (list CanonicalItem) :=
  match mutation with
  | MutationEvent event => match re_payload event with RunFinished snapshot => Some (snap_items snapshot) | _ => None end
  | _ => None
  end.

(** The operations of the daemon. *)
Abbreviation Action_on St := (eff (Daemon St) SessionManagementFailure).

Section daemon.
Context `{Externals} `{ManagementExternals} `{ViewExternals} {St : Type} `{!SessionStore St}.

Definition with_management (f : SessionManagementRegistry → SessionManagementRegistry) (d : Daemon St) : Daemon St :=
  {| dm_views := dm_views d; dm_management := f (dm_management d); dm_workers := dm_workers d;
     dm_store := dm_store d |}.
Definition with_views (v : SessionViewRegistry) (d : Daemon St) : Daemon St :=
  {| dm_views := v; dm_management := dm_management d; dm_workers := dm_workers d; dm_store := dm_store d |}.

(** An operation of the registry as one of the daemon. *)
Definition in_management {A} (op : Op A) : Action_on St A := λ d,
  let '(answer, g) := op (dm_management d) in (answer, with_management (λ _, g) d).

(** [SessionJournal::send]: the worker of a handle serves one command. *)
Definition send_journal (worker : nat) (action : Action) (tick : Tick) : Action_on St () := λ d,
  match dm_workers d !! worker with
  | None => (Err (Storage (Poisoned "Journal worker stopped")), d)
  | Some w =>
      let '(answer, w, s) := journal_step w action (tk_now_apply tick) (tk_now_touch tick) (tk_result tick)
                               (tk_execution tick) (dm_store d) in
      (match answer with Ok _ => Ok () | Err e => Err (Storage e) end,
       {| dm_views := dm_views d; dm_management := dm_management d;
          dm_workers := <[worker := w]> (dm_workers d); dm_store := s |})
  end.

(** The record of an address: the operation holds it. *)
Definition record_at (address : nat) : Action_on St ManagementRecord := λ d,
  (ok_or (sm_heap (dm_management d) !! address) Unavailable, d).

Definition set_record (address : nat) (f : ManagementRecord → ManagementRecord) : Action_on St () :=
  modify (with_management (update_record address f)).

(** ** Publication *)

Definition prepare_v1 (views : SessionViewRegistry) (owner : string) (mutation : RunPublicationMutation)
    (occurred_at_ms : N) : Managed (Prepared * SessionEventEnvelope) :=
  map_err InvalidProjection
    (match mutation with
     | MutationBegin snapshot identity => prepare_begin_run views owner snapshot identity occurred_at_ms
     | MutationChanged snapshot => prepare_run_changed views owner snapshot occurred_at_ms
     | MutationEvent event => prepare_run_event views owner event occurred_at_ms
     end).

Definition prepare_mutation_v2 (projection : ManagementProjection) (mutation : RunPublicationMutation)
    (occurred_at_ms : N) : Managed PreparedManagement :=
  match mutation with
  | MutationBegin snapshot identity =>
      prepare_v2 projection occurred_at_ms (V2RunChanged (SessionRunView_new snapshot occurred_at_ms))
        (Some (snap_turn_id snapshot, identity))
  | MutationChanged snapshot =>
      active ← ok_or (v2_active_run (mp_snapshot projection)) (InvalidProjection "V2 Session has no active Run projection");
      reject_if (snap_turn_id (rv_snapshot active) != snap_turn_id snapshot)
        (InvalidProjection "V2 Session active Run identity changed");;
      let run := set_view_updated (N.max (rv_updated_at_ms active) occurred_at_ms) (set_view_snapshot snapshot active) in
      prepare_v2 projection occurred_at_ms (V2RunChanged run) None
  | MutationEvent event => prepare_v2 projection occurred_at_ms (V2RunEvent event) None
  end.

(** The archive after a change: it grows by what a finished run commits. *)
Definition next_archive (history : HistoryArchive) (mutation : RunPublicationMutation) : Managed HistoryArchive :=
  match committed_history mutation with Some items => prepare_append history items | None => Ok history end.

(** [publish_run] once it holds the lane of the record: everything is prepared before
    anything is installed. *)
Definition publish_on (address : nat) (owner : string) (mutation : RunPublicationMutation) (occurred_at_ms : N) :
    Action_on St (SessionEventEnvelope * SessionEventEnvelopeV2) :=
  management ← record_at address;
  views ← gets dm_views;
  '(v1, envelope_v1) ← lift (prepare_v1 views owner mutation occurred_at_ms);
  v2 ← lift (prepare_mutation_v2 (mr_projection management) mutation occurred_at_ms);
  next_history ← lift (next_archive (mr_history management) mutation);
  current ← record_at address;
  lift (reject_if ((mp_cursor (mr_projection current) != mp_cursor (mr_projection management)) ||
                   is_some (committed_history mutation) && (ha_end (mr_history current) != ha_end (mr_history management)))
          (InvalidProjection "Session projection source changed during dual publication"));;
  views ← lift (ok_or (install_prepared views v1)
                  (InvalidProjection "Session projection source changed during dual publication"));
  modify (with_views views);;
  set_record address (λ r, set_archive next_history (set_projection (pm_next v2) r));;
  mret (envelope_v1, pm_envelope v2).

Definition publish_run (owner : string) (mutation : RunPublicationMutation) (occurred_at_ms now : N) :
    Action_on St (SessionEventEnvelope * SessionEventEnvelopeV2) :=
  '(address, _) ← in_management (owned_record (mutation_thread mutation) owner now);
  publish_on address owner mutation occurred_at_ms.

(** [publish_committed]: the committed envelope goes to the notifier. *)
Definition publish_committed (owner : string) (envelope : SessionEventEnvelopeV2) (now : N) (d : Daemon St) : Daemon St :=
  match in_management (owned_record (ev2_thread_id envelope) owner now) d with
  | (Ok (address, record), d) =>
      if cv_stream_id (mp_cursor (mr_projection record)) == cv_stream_id (ev2_cursor envelope)
      then with_management (update_record address (λ r, set_notifier (notifier_publish (mr_notifier r) envelope) r)) d
      else d
  | (Err _, d) => d
  end.

(** [retire_run] under the lane *)
Definition retire_on (address : nat) (thread_id turn_id : string) (identity : nat) (d : Daemon St) : bool * Daemon St :=
  match sm_heap (dm_management d) !! address with
  | None => (false, d)
  | Some management =>
      match prepare_retire_run (dm_views d) thread_id turn_id identity,
            prepare_retire_run_v2 (mr_projection management) turn_id identity with
      | Ok (Some v1), Some v2 =>
          match install_prepared (dm_views d) v1 with
          | Some views => (true, with_management (update_record address (set_projection v2)) (with_views views d))
          | None => (false, d)
          end
      | _, _ => (false, d)
      end
  end.

Definition retire_run (owner thread_id turn_id : string) (identity : nat) (now : N) (d : Daemon St) : bool * Daemon St :=
  match in_management (owned_record thread_id owner now) d with
  | (Ok (address, _), d) => retire_on address thread_id turn_id identity d
  | (Err _, d) => (false, d)
  end.

(** ** Metadata *)

Definition is_persistent (projection : ManagementProjection) : bool :=
  match v2_persistence (mp_snapshot projection) with Persistent _ => true | Ephemeral => false end.

(** The journal of a persistent session serves an action; others have none. *)
Definition when_persistent (projection : ManagementProjection) (journal : option nat) (action : Action) (tick : Tick) :
    Action_on St () :=
  if is_persistent projection then
    worker ← lift (ok_or journal (Storage (Poisoned "Persistent Session journal is unavailable")));
    send_journal worker action tick
  else mret ().

(** [replace_metadata] under the lane; the clock of the event is [unix_ms()]. *)
Definition replace_metadata_on (address : nat) (params : ReplaceSessionMetadataParams) (journal : option nat)
    (unix_ms : N) (tick : Tick) : Action_on St ReplaceSessionMetadataResult :=
  record ← record_at address;
  lift (reject_if (negb (mr_accepting_metadata record)) Unavailable);;
  let projection := mr_projection record in
  let snapshot := mp_snapshot projection in
  lift (reject_if (v2_lifecycle snapshot != LifecycleOpen) (NotOpen (v2_lifecycle snapshot)));;
  let current := s2_view_revision (v2_summary snapshot) in
  lift (reject_if (negb (rm_expected_view_revision params =? current)%N)
          (RevisionConflict (rm_expected_view_revision params) current (v2_cursor snapshot)));;
  if s2_metadata (v2_summary snapshot) == rm_metadata params
  then mret {| rr_summary := v2_summary snapshot; rr_cursor := v2_cursor snapshot; rr_changed := false |}
  else
    prepared ← lift (prepare_v2 projection unix_ms (V2MetadataChanged (rm_metadata params)) None);
    when_persistent projection journal (ActionReplaceMetadata (rm_metadata params)) tick;;
    let next := mp_snapshot (pm_next prepared) in
    set_record address (λ r,
      set_notifier (notifier_publish (mr_notifier r) (pm_envelope prepared)) (set_projection (pm_next prepared) r));;
    mret {| rr_summary := v2_summary next; rr_cursor := v2_cursor next; rr_changed := true |}.

Definition replace_session_metadata (owner : string) (params : ReplaceSessionMetadataParams) (journal : option nat)
    (unix_ms now : N) (tick : Tick) : Action_on St ReplaceSessionMetadataResult :=
  lift (map_err InvalidParams (ReplaceSessionMetadataParams_validate params));;
  '(address, _) ← in_management (owned_record (rm_thread_id params) owner now);
  replace_metadata_on address params journal unix_ms tick.

(** ** The life cycle *)

Definition begin_closing_on (address : nat) (unix_ms : N) : Action_on St () :=
  record ← record_at address;
  match v2_lifecycle (mp_snapshot (mr_projection record)) with
  | LifecycleOpen =>
      prepared ← lift (prepare_v2 (mr_projection record) unix_ms (V2LifecycleChanged LifecycleClosing) None);
      set_record address (λ r,
        set_notifier (publish_confirmed (mr_notifier r) (pm_envelope prepared)) (set_projection (pm_next prepared) r))
  | _ => mret ()
  end.

(** [begin_closing] *)
Definition begin_closing (owner thread_id : string) (unix_ms now : N) : Action_on St () :=
  '(address, _) ← in_management (owned_record thread_id owner now);
  begin_closing_on address unix_ms.

(** [complete_closed] under the lane: what it installs, if anything. *)
Definition complete_closed_on (address : nat) (journal : option nat) (unix_ms now : N) (tick : Tick) :
    Action_on St (option SessionEventEnvelopeV2) :=
  record ← record_at address;
  let projection := mr_projection record in
  match v2_lifecycle (mp_snapshot projection) with
  | LifecycleClosing =>
      prepared ← lift (prepare_v2 projection unix_ms (V2LifecycleChanged LifecycleClosed) None);
      when_persistent projection journal ActionDetach tick;;
      set_record address (λ r, set_closed_at (Some now) (set_projection (pm_next prepared) r));;
      mret (Some (pm_envelope prepared))
  | LifecycleClosed => mret None
  | LifecycleOpen => lift (Err (InvalidProjection "Session cannot become Closed before Closing"))
  end.

(** [complete_closed] up to its publication of the terminal envelope: the address of
    the record and the place of the publication *)
Definition complete_closed (owner thread_id : string) (journal : option nat) (unix_ms now : N) (tick : Tick) :
    Action_on St (option (nat * nat)) :=
  '(address, _) ← in_management (owned_record thread_id owner now);
  envelope ← complete_closed_on address journal unix_ms now tick;
  match envelope with
  | Some envelope =>
      modify (with_management (prune_owner owner (Some address) now));;
      record ← record_at address;
      set_record address (λ r, set_notifier (publish_confirmed (mr_notifier r) envelope) r);;
      mret (Some (address, length (nt_publishers (mr_notifier record))))
  | None => mret None
  end.

(** The end of [complete_closed], when that publication has returned *)
Definition complete_closed_end (owner : string) (address place : nat) (now : N) (d : Daemon St) : Daemon St :=
  let publication := r ← sm_heap (dm_management d) !! address; nt_publishers (mr_notifier r) !! place in
  if is_some_and publication returned then with_management (prune_owner owner None now) d else d.

(** ** Owners *)

(** [mark_owner_disconnected] *)
Definition mark_owner_disconnected (owner : string) (g : SessionManagementRegistry) : SessionManagementRegistry :=
  let listed := list_to_set ((map_to_list (sm_records g)).*2) : gset nat in
  set_heap (map_imap (λ address r,
              Some (if bool_decide (address ∈ listed) && (mr_owner r == owner) then set_accepting false r else r))
              (sm_heap g)) g.

(** [remove_owner]: its records leave the registry, each under its lane, and its
    catalog goes. *)
Definition remove_owner (owner : string) (g : SessionManagementRegistry) : SessionManagementRegistry :=
  let mine address := is_some_and (sm_heap g !! address) (λ r, mr_owner r == owner) in
  let removed := filter (λ kv, Is_true (mine kv.2)) (sm_records g) in
  let g := foldl (λ g kv, update_record kv.2 close_notifier (set_records (delete kv.1 (sm_records g)) g)) g
             (map_to_list removed) in
  set_owners (delete owner (sm_owners g)) g.
End daemon.
