(* ===== verification/SessionServer.v ===== *)
(** * Session identities and the session server

    First the phases of identities, then sessions as one system.

    [crates/whale-daemon/src/session_lifecycle.rs]: which identities are being
    prepared, open, closing or closed, and which connections are gone. Every method
    runs under the lock of the state. A [CloseCompletion] is an address of the heap of
    outcomes that closers wait for. *)

From S2P Require Import Prelude Protocol SessionManagement SessionCatalog.

Inductive SessionPhase :=
  | PhasePreparing (completion : nat) (close_requested : bool)
  | PhaseOpen
  | PhaseClosing (completion : nat)
  | PhaseClosed.
#[export] Instance SessionPhase_eq_dec : EqDecision SessionPhase.
Proof. solve_decision. Defined.

Record SessionOwner := { so_owner : string; so_phase : SessionPhase }.

(** [Ok] or the JSON-RPC error of a close *)
Abbreviation CloseOutcome := (result JSONRPCError ()).

Record LifecycleState := {
  lf_sessions : gmap string SessionOwner;
  lf_disconnected : gset string;
  lf_completions : gmap nat (option CloseOutcome);
  lf_next : nat;
}.
(** [LifecycleState::default] *)
Definition lifecycle_default : LifecycleState :=
  {| lf_sessions := ∅; lf_disconnected := ∅; lf_completions := ∅; lf_next := 0 |}.

Definition lf_eta (s : LifecycleState) : LifecycleState :=
  {| lf_sessions := lf_sessions s; lf_disconnected := lf_disconnected s; lf_completions := lf_completions s;
     lf_next := lf_next s |}.
Definition set_sessions (v : gmap string SessionOwner) (s : LifecycleState) : LifecycleState :=
  ltac:(update_field lf_eta lf_sessions v s).
Definition set_disconnected (v : gset string) (s : LifecycleState) : LifecycleState :=
  ltac:(update_field lf_eta lf_disconnected v s).

Definition connection_closed (s : LifecycleState) (owner : string) : bool := bool_decide (owner ∈ lf_disconnected s).
Definition is_foreign (s : LifecycleState) (thread owner : string) : bool :=
  is_some_and (lf_sessions s !! thread) (λ session, so_owner session != owner).

(** [CloseCompletion::new] *)
Definition completion_new (s : LifecycleState) : nat * LifecycleState :=
  (lf_next s, {| lf_sessions := lf_sessions s; lf_disconnected := lf_disconnected s;
                 lf_completions := <[lf_next s := None]> (lf_completions s); lf_next := S (lf_next s) |}).
(** [completion.0.send_replace(Some(outcome))] *)
Definition complete_with (completion : nat) (outcome : CloseOutcome) (s : LifecycleState) : LifecycleState :=
  {| lf_sessions := lf_sessions s; lf_disconnected := lf_disconnected s;
     lf_completions := <[completion := Some outcome]> (lf_completions s); lf_next := lf_next s |}.

(** [guard_open]: the check that a publication of the session makes under the lock. *)
Definition guard_open (s : LifecycleState) (thread owner : string) : result string () :=
  reject_if (connection_closed s owner) "ConnectionClosed";;
  match lf_sessions s !! thread with
  | Some session =>
      if so_owner session == owner then
        match so_phase session with PhaseOpen => Ok () | _ => Err "SessionClosed" end
      else Err "SessionNotFound"
  | None => Err "SessionNotFound"
  end.

Definition invalid_params (message : string) : JSONRPCError :=
  {| err_code := INVALID_PARAMS_CODE; err_message := message; err_data := None |}.

(** [SessionLifecycle::publish]: [publish] is what the closure does to the rest [w] of
    the daemon, under the lock. *)
Definition lifecycle_publish {W} (thread owner : string) (publish : eff W JSONRPCError ()) :
    eff (LifecycleState * W) JSONRPCError () := λ '(s, w),
  if connection_closed s owner then (Err (invalid_params "ConnectionClosed"), (s, w)) else
  if is_some (lf_sessions s !! thread) then (Err (invalid_params "SessionAlreadyExists"), (s, w)) else
  match publish w with
  | (Err e, w) => (Err e, (s, w))
  | (Ok _, w) =>
      (Ok (), (set_sessions (<[thread := {| so_owner := owner; so_phase := PhaseOpen |}]> (lf_sessions s)) s, w))
  end.

(** [mark_closing]: the new phase, whether the caller is the first to close, and what
    it has to wait for. *)
Definition mark_closing (s : LifecycleState) (thread : string) (session : SessionOwner) :
    LifecycleState * (bool * option nat) :=
  let put phase s := set_sessions (<[thread := {| so_owner := so_owner session; so_phase := phase |}]> (lf_sessions s)) s in
  match so_phase session with
  | PhasePreparing completion _ => (put (PhasePreparing completion true) s, (false, Some completion))
  | PhaseOpen =>
      let '(completion, s) := completion_new s in
      (put (PhaseClosing completion) s, (true, Some completion))
  | PhaseClosing completion => (s, (false, Some completion))
  | PhaseClosed => (s, (false, None))
  end.

(** [begin_close] *)
Definition begin_close (s : LifecycleState) (thread owner : string) :
    LifecycleState * result string (bool * option nat) :=
  match lf_sessions s !! thread with
  | None => (s, Ok (false, None))
  | Some session =>
      if so_owner session != owner then (s, Err "SessionNotFound") else
      let '(s, out) := mark_closing s thread session in (s, Ok out)
  end.

(** One turn of the iteration of [begin_disconnect]. *)
Definition disconnect_one (owner : string) (st : LifecycleState * list (string * bool * option nat))
    (entry : string * SessionOwner) : LifecycleState * list (string * bool * option nat) :=
  let '(s, out) := st in
  if so_owner entry.2 == owner then
    let '(s, (first, completion)) := mark_closing s entry.1 entry.2 in (s, out ++ [(entry.1, first, completion)])
  else st.

(** [begin_disconnect] *)
Definition begin_disconnect (s : LifecycleState) (owner : string) :
    LifecycleState * list (string * bool * option nat) :=
  let s := set_disconnected ({[owner]} ∪ lf_disconnected s) s in
  foldl (disconnect_one owner) (s, []) (map_to_list (lf_sessions s)).

(** [complete] *)
Definition lifecycle_complete (thread owner : string) (s : LifecycleState) : LifecycleState :=
  set_sessions (alter (λ session, if so_owner session == owner
                                  then {| so_owner := owner; so_phase := PhaseClosed |} else session)
                  thread (lf_sessions s)) s.

(** [forget_owner] *)
Definition forget_owner (owner : string) (s : LifecycleState) : LifecycleState :=
  set_sessions (filter (λ kv, so_owner kv.2 ≠ owner) (lf_sessions s)) s.

(** ** Preparations *)

Record Preparation := { pn_thread : string; pn_owner : string; pn_completion : nat; pn_finished : bool }.

(** [reserve] *)
Definition reserve (s : LifecycleState) (thread owner : string) : LifecycleState * result string Preparation :=
  if connection_closed s owner then (s, Err "ConnectionClosed") else
  if is_some (lf_sessions s !! thread) then (s, Err "SessionAlreadyExists") else
  let '(completion, s) := completion_new s in
  (set_sessions (<[thread := {| so_owner := owner; so_phase := PhasePreparing completion false |}]> (lf_sessions s)) s,
   Ok {| pn_thread := thread; pn_owner := owner; pn_completion := completion; pn_finished := false |}).

Definition finish (p : Preparation) : Preparation :=
  {| pn_thread := pn_thread p; pn_owner := pn_owner p; pn_completion := pn_completion p; pn_finished := true |}.

(** [Preparation::fail] *)
Definition preparation_fail (error : JSONRPCError) (p : Preparation) (s : LifecycleState) :
    Preparation * LifecycleState :=
  (finish p, complete_with (pn_completion p) (Err error) (lifecycle_complete (pn_thread p) (pn_owner p) s)).

Definition RECOVERY_REJECTED : Z := -32021.
Definition recovery_rejected (message : string) : JSONRPCError :=
  {| err_code := RECOVERY_REJECTED; err_message := message; err_data := None |}.

(** [Preparation::publish] *)
Definition preparation_publish {W} (p : Preparation) (publish : eff W JSONRPCError ()) :
    eff (LifecycleState * W) JSONRPCError Preparation := λ '(s, w),
  if connection_closed s (pn_owner p) then (Err (recovery_rejected "ConnectionClosed"), (s, w)) else
  match lf_sessions s !! pn_thread p with
  | None => (Err (recovery_rejected "SessionClosed"), (s, w))
  | Some session =>
      if (so_owner session != pn_owner p) ||
         match so_phase session with PhasePreparing _ false => false | _ => true end
      then (Err (recovery_rejected "SessionClosed"), (s, w)) else
      match publish w with
      | (Err e, w) => (Err e, (s, w))
      | (Ok _, w) =>
          let s := set_sessions (<[pn_thread p := {| so_owner := so_owner session; so_phase := PhaseOpen |}]>
                                   (lf_sessions s)) s in
          (Ok (finish p), (complete_with (pn_completion p) (Ok ()) s, w))
      end
  end.

(** The [Drop] of a preparation *)
Definition preparation_drop (p : Preparation) (s : LifecycleState) : LifecycleState :=
  if pn_finished p then s
  else complete_with (pn_completion p) (Ok ()) (lifecycle_complete (pn_thread p) (pn_owner p) s).

(** ** The daemon's sessions as one system

    The life cycle, the two views of every session, its archive and its journal, with
    the operations that the handlers of [crates/whale-daemon/src/server.rs],
    [recovery.rs] and [session_lifecycle.rs] run on them, each under the lock or lane
    that the code holds. The relation between the two views of a session is the
    invariant of this system. *)

From S2P Require Import StoreState StoreBackend StoreConfig StoreRuntime SessionViews ViewJournal ViewLaws ViewRecords ViewRegistry HistoryArchive ManagementProjection ManagementLaws ManagementOps.

(** What a new session is published with. *)
Record SessionStart := {
  st_owner : string;
  st_thread_id : string;
  st_agent_name : option string;
  st_metadata : Map;
  st_history : list CanonicalItem;
  st_created_at_ms : N;
  st_persistence : SessionPersistenceV2;
  st_max_history_bytes : option N;
}.

Record World (St : Type) := { wo_lifecycle : LifecycleState; wo_daemon : Daemon St }.
Arguments Build_World {St}.
Arguments wo_lifecycle {St}.
Arguments wo_daemon {St}.

Section server.
Context `{Externals} `{ManagementExternals} `{ViewExternals} {St : Type} `{!SessionStore St}.
Implicit Types (d : Daemon St) (w : World St) (v : SessionViewRecord) (r : ManagementRecord).

(** The closure that [handle_start_thread] and [attach] publish a session with: both
    views or none. [interactions] is the answer of the interaction registry. *)
Definition publish_session (start : SessionStart) (stream_v1 stream_v2 : string) (interactions : result string ()) :
    eff (Daemon St) JSONRPCError () := λ d,
  match registry_insert (dm_views d) (st_owner start) (st_thread_id start) (st_agent_name start) (st_metadata start)
          (st_history start) (st_created_at_ms start) stream_v1 with
  | Err error => (Err (invalid_params error), d)
  | Ok views =>
      let d := with_views views d in
      let rollback d := with_views (registry_remove (dm_views d) (st_thread_id start) (st_owner start)) d in
      match interactions with
      | Err error => (Err (invalid_params error), rollback d)
      | Ok _ =>
          match in_management (insert_session (st_owner start) (st_thread_id start) (st_agent_name start)
                   (st_metadata start) (st_history start) (st_created_at_ms start) (st_persistence start)
                   (st_max_history_bytes start) stream_v2) d with
          | (Err error, d) => (Err (rpc_error error), rollback d)
          | (Ok _, d) => (Ok (), d)
          end
      end
  end.

Definition on_lifecycle (f : LifecycleState → LifecycleState) (w : World St) : World St :=
  {| wo_lifecycle := f (wo_lifecycle w); wo_daemon := wo_daemon w |}.
Definition on_daemon (f : Daemon St → Daemon St) (w : World St) : World St :=
  {| wo_lifecycle := wo_lifecycle w; wo_daemon := f (wo_daemon w) |}.

(** ** What changes one record of the management registry

    The operations that run under the lane of a record, by its address. The identity of
    a run is the address of its state, so that a view that knows it under the turn of
    the run is a view of the run's owner. *)
Inductive on_lane (address : nat) : Daemon St → Daemon St → Prop :=
  | lane_publish owner mutation ts out d d' :
      publish_on address owner mutation ts d = (out, d') →
      (∀ r, sm_heap (dm_management d) !! address = Some r →
         mr_owner r = owner ∧ cv_thread_id (mp_cursor (mr_projection r)) = mutation_thread mutation) →
      on_lane address d d'
  | lane_retire thread_id turn_id identity out d d' :
      retire_on address thread_id turn_id identity d = (out, d') →
      (∀ r, sm_heap (dm_management d) !! address = Some r →
         cv_thread_id (mp_cursor (mr_projection r)) = thread_id ∧
         ∀ b v, vg_records (dm_views d) !! thread_id = Some b → vg_heap (dm_views d) !! b = Some v →
           pv_run_identities (vr_state v) !! turn_id = Some identity → vr_owner v = mr_owner r) →
      on_lane address d d'
  | lane_metadata params journal unix_ms tick out d d' :
      replace_metadata_on address params journal unix_ms tick d = (out, d') → on_lane address d d'
  | lane_closing unix_ms out d d' : begin_closing_on address unix_ms d = (out, d') → on_lane address d d'
  | lane_closed journal unix_ms now tick out d d' :
      complete_closed_on address journal unix_ms now tick d = (out, d') → on_lane address d d'.

(** Changes of the management registry that leave projections and archives alone:
    reading, pruning, notifying, disconnecting and forgetting. *)
Inductive administers : SessionManagementRegistry → SessionManagementRegistry → Prop :=
  | adm_prune owner protected now g : administers g (prune_owner owner protected now g)
  | adm_catalog owner g : administers g (owner_catalog owner g).2
  | adm_disconnect owner g : administers g (mark_owner_disconnected owner g)
  | adm_remove owner g : administers g (remove_owner owner g)
  | adm_notify address n g : administers g (update_record address (set_notifier n) g).

(** ** Steps of the system *)

Inductive lives : World St → World St → Prop :=
  | lives_start start s1 s2 interactions out lc d lc' d' :
      lifecycle_publish (st_thread_id start) (st_owner start) (publish_session start s1 s2 interactions) (lc, d)
        = (out, (lc', d')) →
      lives {| wo_lifecycle := lc; wo_daemon := d |} {| wo_lifecycle := lc'; wo_daemon := d' |}
  | lives_attach p start s1 s2 interactions out lc d lc' d' :
      pn_thread p = st_thread_id start → pn_owner p = st_owner start →
      preparation_publish p (publish_session start s1 s2 interactions) (lc, d) = (out, (lc', d')) →
      lives {| wo_lifecycle := lc; wo_daemon := d |} {| wo_lifecycle := lc'; wo_daemon := d' |}
  | lives_reserve thread owner w : lives w (on_lifecycle (λ s, (reserve s thread owner).1) w)
  | lives_fail error p w : lives w (on_lifecycle (λ s, (preparation_fail error p s).2) w)
  | lives_drop p w : lives w (on_lifecycle (preparation_drop p) w)
  | lives_begin_close thread owner w : lives w (on_lifecycle (λ s, (begin_close s thread owner).1) w)
  | lives_disconnect owner w : lives w (on_lifecycle (λ s, (begin_disconnect s owner).1) w)
  | lives_complete thread owner w : lives w (on_lifecycle (lifecycle_complete thread owner) w)
  | lives_forget owner w :
      connection_closed (wo_lifecycle w) owner = true → lives w (on_lifecycle (forget_owner owner) w)
  | lives_lane address w d' : on_lane address (wo_daemon w) d' → lives w (on_daemon (λ _, d') w)
  | lives_administer g w :
      administers (dm_management (wo_daemon w)) g → lives w (on_daemon (with_management (λ _, g)) w)
  | lives_remove_view thread owner w :
      lives w (on_daemon (λ d, with_views (registry_remove (dm_views d) thread owner) d) w).

(** ** The two views of a session agree *)

Record Agree v r : Prop := {
  ag_owner : vr_owner v = mr_owner r;
  ag_thread : cur_thread_id (vr_cursor v) = cv_thread_id (mp_cursor (mr_projection r));
  ag_projection : projection_v1 (vr_snapshot v) = projection_of (mp_snapshot (mr_projection r));
  ag_identities : pv_run_identities (vr_state v) = mp_run_identities (mr_projection r);
}.

(** A preparation of the first view. *)
Lemma prepare_facts v ts payload rid next e :
  prepare v ts payload rid = Ok (next, e) →
  env_payload e = payload ∧ env_occurred_at_ms e = ts ∧
  (∃ t, apply_payload (vr_snapshot v) e = Ok t ∧ projection_v1 (pv_snapshot next) = projection_v1 t) ∧
  cur_thread_id (sv_cursor (pv_snapshot next)) = cur_thread_id (vr_cursor v) ∧
  pv_run_identities next = match rid with
                           | Some (turn_id, identity) => <[turn_id := identity]> (pv_run_identities (vr_state v))
                           | None => pv_run_identities (vr_state v)
                           end.
Proof.
  intros Hp. pose proof (prepare_Published _ _ _ _ _ _ Hp) as [Hn Ha Hc _].
  assert (cur_thread_id (sv_cursor (pv_snapshot next)) = cur_thread_id (vr_cursor v)) as Hthread.
  { rewrite Hc. by apply checked_next_Ok in Hn as (_ & [<- _] & _). }
  assert (∃ t, apply_payload (vr_snapshot v) e = Ok t ∧ projection_v1 (pv_snapshot next) = projection_v1 t) as Happ.
  { unfold SessionViews.apply in Ha. inv_result. destruct (_ <=? _)%N; [done|]. inv_result.
    match goal with Hs : stamp _ _ = _ |- _ => rewrite <-Hs end. by eexists. }
  unfold prepare in Hp. inv_result. split_and!; try done.
  match goal with |- context [retain_prepared ?l ?e ?b ?i ?s] => destruct (retain_prepared_keeps l e b i s) as [_ Hi] end.
  destruct rid as [[turn_id identity]|]; by rewrite Hi.
Qed.

(** Preparations of the same change on both views. *)
Lemma agree_prepared v r ts payload rid next e pm :
  Agree v r → prepare v ts payload rid = Ok (next, e) →
  prepare_v2 (mr_projection r) ts (match payload with PayloadRunChanged run => V2RunChanged run
                                   | PayloadRunEvent event => V2RunEvent event end) rid = Ok pm →
  projection_v1 (pv_snapshot next) = projection_of (mp_snapshot (pm_next pm)) ∧
  cur_thread_id (sv_cursor (pv_snapshot next)) = cv_thread_id (mp_cursor (pm_next pm)) ∧
  pv_run_identities next = mp_run_identities (pm_next pm).
Proof.
  intros [_ Ht Hproj Hids] Hp Hp2. destruct (prepare_facts _ _ _ _ _ _ Hp) as (Hpay & Hts & (t & Ha & Hnext) & Hth & Hi).
  pose proof (prepare_Published _ _ _ _ _ _ Hp) as [_ Happ _ _].
  apply prepare_v2_Prepared in Hp2 as [_ Happ2 Hpay2 Hts2 _ Hi2 _].
  destruct (applied_run _ _ _ payload Happ2 Hpay2) as (t2 & Ha2 & Hnext2).
  destruct (applied_frame _ _ _ Happ2) as (Hcur2 & _).
  pose proof (apply_true _ _ _ Happ) as [Hb1 _ _ _ _ _].
  destruct (snapshot_cursor_valid_v2 _ (ap2_before _ _ _ Happ2)) as (_ & Hst2 & _).
  assert (ss_thread_id (sv_summary (vr_snapshot v)) = cur_thread_id (vr_cursor v)) as Hst.
  { unfold SessionSnapshot_validate in Hb1. inv_result. by inv_bool. }
  split_and!.
  - rewrite Hnext, Hnext2. eapply apply_payload_projection; [..|exact Ha|exact Ha2].
    + rewrite Hproj. done.
    + simpl. rewrite Hst, Hst2, Ht. done.
    + by rewrite Hpay.
    + simpl. by rewrite Hts, Hts2.
  - rewrite Hth, Ht. unfold mp_cursor. rewrite Hcur2. pose proof (ap2_next _ _ _ Happ2) as Hn.
    by apply checked_next_v2_Ok in Hn as (_ & [<- _] & _).
  - rewrite Hi, Hi2, Hids. done.
Qed.

(** The address and the record that a prepared publication of the first view names. *)
Lemma prepare_v1_owned views owner mutation ts p e :
  prepare_v1 views owner mutation ts = Ok (p, e) →
  ∃ v, vg_records views !! mutation_thread mutation = Some (pp_record p) ∧ vg_heap views !! pp_record p = Some v ∧
    vr_owner v = owner ∧ pp_owner p = vr_owner v ∧ pp_source p = vr_cursor v.
Proof.
  unfold prepare_v1. intros Hp. apply map_err_Ok in Hp.
  destruct mutation; unfold prepare_begin_run, prepare_run_changed, prepare_run_event in Hp; inv_result;
    match goal with Ho : owned _ _ _ = Ok (_, ?v) |- _ => apply owned_Ok in Ho as (? & ? & ?); by exists v end.
Qed.

(** What the envelope of a mutation says, in each of the two views *)
Definition carries (mutation : RunPublicationMutation) (ts : N) (payload : SessionEventPayload) : Prop :=
  match mutation, payload with
  | MutationBegin snapshot _, PayloadRunChanged run => run = SessionRunView_new snapshot ts
  | MutationChanged snapshot, PayloadRunChanged run => rv_snapshot run = snapshot
  | MutationEvent event, PayloadRunEvent event' => event' = event
  | _, _ => False
  end.
Definition carries_v2 (mutation : RunPublicationMutation) (ts : N) (payload : SessionEventPayloadV2) : Prop :=
  match mutation, payload with
  | MutationBegin snapshot _, V2RunChanged run => run = SessionRunView_new snapshot ts
  | MutationChanged snapshot, V2RunChanged run => rv_snapshot run = snapshot
  | MutationEvent event, V2RunEvent event' => event' = event
  | _, _ => False
  end.

Lemma prepare_v1_carries views owner mutation ts p e :
  prepare_v1 views owner mutation ts = Ok (p, e) → carries mutation ts (env_payload e) ∧ env_occurred_at_ms e = ts.
Proof.
  intros Hp. unfold prepare_v1 in Hp. apply map_err_Ok in Hp.
  destruct mutation; unfold prepare_begin_run, prepare_run_changed, prepare_run_event in Hp; inv_result;
    match goal with Hr : prepare _ _ _ _ = Ok ?x |- _ => destruct x end; simplify_eq/=;
    match goal with Hr : prepare _ _ _ _ = Ok _ |- _ => destruct (prepare_facts _ _ _ _ _ _ Hr) as (-> & -> & _) end; done.
Qed.

Lemma prepare_mutation_carries projection mutation ts pm :
  prepare_mutation_v2 projection mutation ts = Ok pm →
  carries_v2 mutation ts (ev2_payload (pm_envelope pm)) ∧ ev2_occurred_at_ms (pm_envelope pm) = ts.
Proof.
  intros Hp. destruct mutation; unfold prepare_mutation_v2 in Hp; inv_result;
    match goal with H : prepare_v2 _ _ _ _ = _ |- _ => apply prepare_v2_Prepared in H as [_ _ Hpay Hts _ _ _] end;
    by rewrite Hpay, Hts.
Qed.

Lemma agree_mutation views owner mutation ts p e v r pm :
  vg_heap views !! pp_record p = Some v → Agree v r →
  prepare_v1 views owner mutation ts = Ok (p, e) → prepare_mutation_v2 (mr_projection r) mutation ts = Ok pm →
  Agree (install (pp_next p) v) (set_projection (pm_next pm) r).
Proof.
  intros Hv Hag Hp Hp2. unfold prepare_v1 in Hp. apply map_err_Ok in Hp. pose proof Hag as [Ho _ Hproj _].
  assert (∃ payload rid next, prepare v ts payload rid = Ok (next, e) ∧ pp_next p = next ∧
    prepare_v2 (mr_projection r) ts (match payload with PayloadRunChanged run => V2RunChanged run
                                     | PayloadRunEvent event => V2RunEvent event end) rid = Ok pm)
    as (payload & rid & next & Hq & Hn & Hq2).
  { destruct mutation; unfold prepare_begin_run, prepare_run_changed, prepare_run_event, prepare_mutation_v2 in Hp, Hp2;
      inv_result; simplify_eq/=;
      match goal with Hr : prepare _ _ _ _ = Ok ?x |- _ => destruct x end;
      match goal with Hw : owned _ _ _ = Ok _ |- _ => apply owned_Ok in Hw as (_ & ? & _) end; simplify_eq/=.
    - by eexists (PayloadRunChanged _), _, _.
    - unfold projection_v1, projection_of in Hproj. simplify_eq/=.
      match goal with H1 : sv_active_run _ = Some ?a, H2 : v2_active_run _ = Some ?b |- _ =>
        assert (a = b) as -> by congruence end.
      by eexists (PayloadRunChanged _), _, _.
    - by eexists (PayloadRunEvent _), _, _. }
  destruct (agree_prepared _ _ _ _ _ _ _ _ Hag Hq Hq2) as (H1' & H2' & H3').
  rewrite Hn. by constructor.
Qed.

(** ** What an operation under the lane does *)

(** The parts of a record that administration leaves alone. *)
Definition same_session r r' : Prop :=
  mr_owner r' = mr_owner r ∧ mr_projection r' = mr_projection r ∧ mr_history r' = mr_history r.
#[export] Instance same_session_equivalence : Equivalence same_session.
Proof. split; repeat intros ?; unfold same_session in *; naive_solver congruence. Qed.

(** The change of one record: its new state [r'] and the new first view [v']. *)
Record Committed (views views' : SessionViewRegistry) (g g' : SessionManagementRegistry) (address : nat) r r'
    (b : nat) v v' : Prop := {
  co_views : views' = {| vg_records := vg_records views; vg_heap := <[b := v']> (vg_heap views);
                         vg_next := vg_next views; vg_limits := vg_limits views |};
  co_management : g' = set_heap (<[address := r']> (sm_heap g)) g;
  co_record : sm_heap g !! address = Some r;
  co_view : vg_heap views !! b = Some v;
  co_owner : mr_owner r' = mr_owner r ∧ vr_owner v' = vr_owner v;
  co_agree : Agree v r → Agree v' r';
  co_valid : ProjectionOk (mr_projection r) → ProjectionOk (mr_projection r');
}.

Lemma alter_lookup {A} (m : gmap nat A) a (x : A) (f : A → A) : m !! a = Some x → alter f a m = <[a := f x]> m.
Proof.
  intros Hx. apply map_eq. intros i. destruct (decide (i = a)) as [->|Hi].
  - by rewrite lookup_alter_eq, lookup_insert_eq, Hx.
  - by rewrite lookup_alter_ne, lookup_insert_ne.
Qed.

Lemma prepare_mutation_v2_ok r mutation ts pm :
  ProjectionOk (mr_projection r) → prepare_mutation_v2 (mr_projection r) mutation ts = Ok pm → ProjectionOk (pm_next pm).
Proof.
  intros Hok Hp. destruct mutation; unfold prepare_mutation_v2 in Hp; inv_result;
    match goal with H : prepare_v2 _ _ _ _ = _ |- _ => apply prepare_v2_Prepared in H; by eapply prepared_ok end.
Qed.

(** A publication changes both views and the archive, or nothing. *)
Lemma publish_on_spec address owner mutation ts d out d' :
  publish_on address owner mutation ts d = (out, d') →
  match out with
  | Err _ => d' = d
  | Ok (e1, e2) => ∃ r r' p v pm, prepare_v1 (dm_views d) owner mutation ts = Ok (p, e1) ∧
      prepare_mutation_v2 (mr_projection r) mutation ts = Ok pm ∧ e2 = pm_envelope pm ∧
      r' = set_archive (mr_history r') (set_projection (pm_next pm) r) ∧
      Committed (dm_views d) (dm_views d') (dm_management d) (dm_management d') address r r' (pp_record p) v (install (pp_next p) v) ∧
      next_archive (mr_history r) mutation = Ok (mr_history r') ∧
      dm_workers d' = dm_workers d ∧ dm_store d' = dm_store d
  end.
Proof.
  unfold publish_on, record_at, gets, lift, set_record, modify, mbind, eff_bind, mret, eff_ret.
  destruct (sm_heap (dm_management d) !! address) as [r|] eqn:Hr; simpl; [|by intros [= <- <-]].
  destruct (prepare_v1 _ _ _ _) as [[p e]|] eqn:Hp; simpl; [|by intros [= <- <-]].
  destruct (prepare_mutation_v2 _ _ _) as [pm|] eqn:Hpm; simpl; [|by intros [= <- <-]].
  destruct (next_archive _ _) as [archive|] eqn:Hh; simpl; [|by intros [= <- <-]].
  rewrite Hr. simpl. rewrite !bool_decide_eq_true_2, andb_false_r by done. simpl.
  destruct (install_prepared _ _) as [views'|] eqn:Hi; simpl; [|by intros [= <- <-]].
  intros [= <- <-]. destruct (prepare_v1_owned _ _ _ _ _ _ Hp) as (v & _ & Hv & _).
  exists r, (set_archive archive (set_projection (pm_next pm) r)), p, v, pm.
  split; [done|]. split; [done|]. split; [done|]. split; [done|]. split; [|done].
  unfold install_prepared in Hi. rewrite Hv in Hi. destruct (source_matches p v); [|done].
  injection Hi as <-. constructor; try done.
  - simpl. unfold update_record. by rewrite (alter_lookup _ _ _ _ Hr).
  - intros Hag. destruct (agree_mutation _ _ _ _ _ _ _ _ _ Hv Hag Hp Hpm) as [????]. by constructor.
  - intros Hok. by eapply prepare_mutation_v2_ok.
Qed.

Lemma retire_state_frame v turn_id identity pv :
  retire_state v turn_id identity = Some pv →
  pv_snapshot pv = vr_snapshot v ∧ pv_run_identities pv = delete turn_id (pv_run_identities (vr_state v)).
Proof.
  unfold retire_state. destruct (_ || _); [done|]. intros [= <-]. simpl. unfold scrub_run.
  destruct (last_of_run _ _); [|done]. by destruct (pop_through _ _ _).
Qed.

Lemma retire_on_spec address thread_id turn_id identity d out d' :
  retire_on address thread_id turn_id identity d = (out, d') →
  d' = d ∨ ∃ r r' p v, prepare_retire_run (dm_views d) thread_id turn_id identity = Ok (Some p) ∧
    vg_records (dm_views d) !! thread_id = Some (pp_record p) ∧
    Committed (dm_views d) (dm_views d') (dm_management d) (dm_management d') address r r' (pp_record p) v (install (pp_next p) v) ∧
    mr_history r' = mr_history r.
Proof.
  unfold retire_on. destruct (sm_heap (dm_management d) !! address) as [r|] eqn:Hr; [|intros [= <- <-]; by left].
  destruct (prepare_retire_run _ _ _ _) as [[p|]|] eqn:Hp; [|by intros [= <- <-]; left..].
  destruct (prepare_retire_run_v2 _ _ _) as [next|] eqn:Hn; [|intros [= <- <-]; by left].
  destruct (install_prepared _ _) as [views|] eqn:Hi; [|intros [= <- <-]; by left].
  intros [= <- <-]. right. pose proof Hp as Hp'. unfold prepare_retire_run in Hp. inv_result.
  match goal with Ha : vg_records _ !! _ = Some ?b, Hb : vg_heap _ !! ?b = Some ?v |- _ => rename Ha into Hrec, Hb into Hv; rename v into view end.
  destruct (retire_state view turn_id identity) as [pv|] eqn:Hret; [|done]. simplify_eq/=.
  eexists r, (set_projection next r), _, view. split; [reflexivity|]. split; [exact Hrec|]. split; [|done].
  unfold install_prepared in Hi. simpl in Hi. rewrite Hv in Hi. destruct (source_matches _ _); [|done]. injection Hi as <-.
  destruct (retire_state_frame _ _ _ _ Hret) as [Hs1 Hs2].
  constructor; try done; simpl.
  - unfold update_record. by rewrite (alter_lookup _ _ _ _ Hr).
  - intros [Ho Ht Hpj Hid]. assert (mp_snapshot next = mp_snapshot (mr_projection r) ∧
      mp_run_identities next = delete turn_id (mp_run_identities (mr_projection r))) as [Hq1 Hq2].
    { unfold prepare_retire_run_v2 in Hn. destruct (_ || _); [done|].
      destruct (last_of_run_v2 _ _); [destruct (pop_through_v2 _ _ _)|]; by injection Hn as <-. }
    constructor; simpl; unfold vr_cursor, vr_snapshot, mp_cursor; simpl; rewrite ?Hs1, ?Hs2, ?Hq1, ?Hq2, ?Hid; done.
  - intros Hok. by eapply retire_v2_ok.
Qed.

(** A change of the second view alone, by an event that is no run's. *)
Record Solo (g g' : SessionManagementRegistry) (address : nat) r r' : Prop := {
  so_management : g' = set_heap (<[address := r']> (sm_heap g)) g;
  so_record : sm_heap g !! address = Some r;
  so_same_owner : mr_owner r' = mr_owner r;
  so_same_history : mr_history r' = mr_history r;
  so_agree v : Agree v r → Agree v r';
  so_valid : ProjectionOk (mr_projection r) → ProjectionOk (mr_projection r');
}.

Lemma solo_event g address r ts payload pm f :
  sm_heap g !! address = Some r → prepare_v2 (mr_projection r) ts payload None = Ok pm →
  match payload with V2MetadataChanged _ | V2LifecycleChanged _ => True | _ => False end →
  mr_owner (f r) = mr_owner r → mr_projection (f r) = pm_next pm → mr_history (f r) = mr_history r →
  Solo g (update_record address f g) address r (f r).
Proof.
  intros Hr Hp Hpay Ho Hproj Hh. apply prepare_v2_Prepared in Hp. pose proof Hp as [_ Happ Hpl _ _ Hid _].
  destruct (applied_frame _ _ _ Happ) as (Hc & _ & _ & _ & _ & Hframe).
  constructor; try done.
  - unfold update_record. by rewrite (alter_lookup _ _ _ _ Hr).
  - intros v [Ho' Ht Hpj Hi]. constructor; rewrite ?Ho, ?Hproj; try done.
    + unfold mp_cursor in *. rewrite Hc. pose proof (ap2_next _ _ _ Happ) as Hn.
      apply checked_next_v2_Ok in Hn as (_ & [<- _] & _). done.
    + rewrite Hpl in Hframe. by destruct payload; destruct_and?; try congruence.
    + by rewrite Hid.
  - intros Hok. rewrite Hproj. by eapply prepared_ok.
Qed.

(** Journal commands change neither view. *)
Lemma when_persistent_keeps projection journal action tick d out d' :
  when_persistent projection journal action tick d = (out, d') →
  dm_views d' = dm_views d ∧ dm_management d' = dm_management d.
Proof.
  unfold when_persistent. destruct (is_persistent projection); [|by intros [= <- <-]].
  unfold lift, mbind, eff_bind. destruct journal as [worker|]; simpl; [|by intros [= <- <-]].
  unfold send_journal. destruct (dm_workers d !! worker) as [w|]; [|by intros [= <- <-]].
  destruct (journal_step _ _ _ _ _ _ _) as [[answer ?] ?]. by intros [= <- <-].
Qed.

Lemma replace_metadata_on_spec address params journal unix_ms tick d out d' :
  replace_metadata_on address params journal unix_ms tick d = (out, d') →
  dm_views d' = dm_views d ∧
  (dm_management d' = dm_management d ∨ ∃ r r', Solo (dm_management d) (dm_management d') address r r').
Proof.
  unfold replace_metadata_on, record_at, gets, lift, set_record, modify, mbind, eff_bind, mret, eff_ret.
  destruct (sm_heap (dm_management d) !! address) as [r|] eqn:Hr; simpl; [|intros [= <- <-]; by auto].
  destruct (reject_if (negb _) _); simpl; [|intros [= <- <-]; by auto].
  destruct (reject_if (_ != _) _); simpl; [|intros [= <- <-]; by auto].
  destruct (reject_if (negb _) _); simpl; [|intros [= <- <-]; by auto].
  destruct (_ == _); [intros [= <- <-]; by auto|].
  destruct (prepare_v2 _ _ _ _) as [pm|] eqn:Hpm; simpl; [|intros [= <- <-]; by auto].
  destruct (when_persistent _ _ _ _ _) as [[[]|e] d1] eqn:Hw; apply when_persistent_keeps in Hw as [Hv Hm];
    [|intros [= <- <-]; by auto].
  intros [= <- <-]. simpl. split; [done|]. right. rewrite Hm. eexists r, _.
  by eapply (solo_event _ _ _ _ _ _ (λ r, set_notifier _ (set_projection (pm_next pm) r))).
Qed.

Lemma begin_closing_on_spec address unix_ms d out d' :
  begin_closing_on address unix_ms d = (out, d') →
  dm_views d' = dm_views d ∧
  (dm_management d' = dm_management d ∨ ∃ r r', Solo (dm_management d) (dm_management d') address r r').
Proof.
  unfold begin_closing_on, record_at, gets, lift, set_record, modify, mbind, eff_bind, mret, eff_ret.
  destruct (sm_heap (dm_management d) !! address) as [r|] eqn:Hr; simpl; [|intros [= <- <-]; by auto].
  destruct (v2_lifecycle _); [|intros [= <- <-]; by auto..].
  destruct (prepare_v2 _ _ _ _) as [pm|] eqn:Hpm; simpl; [|intros [= <- <-]; by auto].
  intros [= <- <-]. simpl. split; [done|]. right. eexists r, _.
  by eapply (solo_event _ _ _ _ _ _ (λ r, set_notifier _ (set_projection (pm_next pm) r))).
Qed.

Lemma complete_closed_on_spec address journal unix_ms now tick d out d' :
  complete_closed_on address journal unix_ms now tick d = (out, d') →
  dm_views d' = dm_views d ∧
  (dm_management d' = dm_management d ∨ ∃ r r', Solo (dm_management d) (dm_management d') address r r').
Proof.
  unfold complete_closed_on, record_at, gets, lift, set_record, modify, mbind, eff_bind, mret, eff_ret.
  destruct (sm_heap (dm_management d) !! address) as [r|] eqn:Hr; simpl; [|intros [= <- <-]; by auto].
  destruct (v2_lifecycle _); [intros [= <- <-]; by auto| |intros [= <- <-]; by auto].
  destruct (prepare_v2 _ _ _ _) as [pm|] eqn:Hpm; simpl; [|intros [= <- <-]; by auto].
  destruct (when_persistent _ _ _ _ _) as [[[]|e] d1] eqn:Hw; apply when_persistent_keeps in Hw as [Hv Hm];
    [|intros [= <- <-]; by auto].
  intros [= <- <-]. simpl. split; [done|]. right. rewrite Hm. eexists r, _.
  by eapply (solo_event _ _ _ _ _ _ (λ r, set_closed_at _ (set_projection (pm_next pm) r))).
Qed.
End server.
