(* ===== verification/LanesLaws.v ===== *)
(** * The invariant of the daemon's sessions

    Every management record is paired with the view it was published with, and the two
    agree; no second view of the same thread and owner appears, because the life cycle
    keeps the identities of a connection until the connection is gone for good. *)

From S2P Require Import Prelude Protocol StoreState StoreBackend StoreConfig StoreRuntime SessionViews ViewJournal ViewLaws ViewRecords ViewRegistry SessionManagement SessionCatalog HistoryArchive ManagementProjection ManagementLaws ManagementOps SessionServer.

(** ** Identities that are settled *)

Section lifecycle.
Implicit Types (s : LifecycleState) (thread owner : string).

Definition preparing (phase : SessionPhase) : bool := match phase with PhasePreparing _ _ => true | _ => false end.

(** The identity belongs to a published session of a connection, or its connection is gone. *)
Definition settled s thread owner : Prop :=
  (∃ session, lf_sessions s !! thread = Some session ∧ so_owner session = owner ∧ preparing (so_phase session) = false)
  ∨ owner ∈ lf_disconnected s.

(** Changes of the life cycle that settle no less. *)
Definition keeps_settled s s' : Prop := ∀ thread owner, settled s thread owner → settled s' thread owner.
#[export] Instance keeps_settled_preorder : PreOrder keeps_settled.
Proof. split; repeat intros ?; unfold keeps_settled in *; naive_solver. Qed.

Lemma keeps_lifecycle s s' :
  lf_disconnected s ⊆ lf_disconnected s' →
  (∀ thread session, lf_sessions s !! thread = Some session → preparing (so_phase session) = false →
     (∃ session', lf_sessions s' !! thread = Some session' ∧ so_owner session' = so_owner session
                  ∧ preparing (so_phase session') = false) ∨ so_owner session ∈ lf_disconnected s') →
  keeps_settled s s'.
Proof.
  intros Hd Hs thread owner [(session & Hl & <- & Hp)|Ho]; [|right; set_solver].
  destruct (Hs _ _ Hl Hp) as [(session' & ? & <- & ?)|?]; [left; by exists session'|by right].
Qed.

(** A change of one entry that keeps its owner and settles no less. *)
Lemma keeps_insert s s' thread session' :
  lf_disconnected s' = lf_disconnected s → lf_sessions s' = <[thread := session']> (lf_sessions s) →
  (∀ session, lf_sessions s !! thread = Some session → preparing (so_phase session) = false →
     so_owner session' = so_owner session ∧ preparing (so_phase session') = false) →
  keeps_settled s s'.
Proof.
  intros Hd Hs Hk. apply keeps_lifecycle; [by rewrite Hd|]. intros t session Hl Hp. left. rewrite Hs.
  destruct (decide (t = thread)) as [->|Hne].
  - rewrite lookup_insert_eq. exists session'. destruct (Hk _ Hl Hp). done.
  - rewrite lookup_insert_ne by done. by exists session.
Qed.

Lemma mark_closing_keeps s thread session :
  lf_sessions s !! thread = Some session → keeps_settled s (mark_closing s thread session).1.
Proof.
  intros Hl. unfold mark_closing. destruct (so_phase session) eqn:Hp; [| | |done];
    try (simpl; eapply keeps_insert; [reflexivity|reflexivity|]; intros; simplify_eq/=; by rewrite Hp in * ); done.
Qed.

Lemma mark_closing_frame s thread session :
  lf_disconnected (mark_closing s thread session).1 = lf_disconnected s ∧
  ∀ t, t ≠ thread → lf_sessions (mark_closing s thread session).1 !! t = lf_sessions s !! t.
Proof.
  unfold mark_closing. destruct (so_phase session); simpl; split; try done; intros; by rewrite lookup_insert_ne.
Qed.

Lemma begin_close_keeps s thread owner : keeps_settled s (begin_close s thread owner).1.
Proof.
  unfold begin_close. destruct (lf_sessions s !! thread) as [session|] eqn:Hl; [|done].
  destruct (_ != _); [done|]. pose proof (mark_closing_keeps s thread session Hl) as Hk.
  by destruct (mark_closing s thread session).
Qed.

Lemma begin_disconnect_keeps s owner : keeps_settled s (begin_disconnect s owner).1 ∧
  owner ∈ lf_disconnected (begin_disconnect s owner).1.
Proof.
  unfold begin_disconnect. set (s0 := set_disconnected _ s).
  assert (∀ l st, NoDup l.*1 → (∀ t session, (t, session) ∈ l → lf_sessions st.1 !! t = Some session) →
    keeps_settled st.1 (foldl (disconnect_one owner) st l).1 ∧
    lf_disconnected (foldl (disconnect_one owner) st l).1 = lf_disconnected st.1) as Hfold.
  { induction l as [|[t session] l IH]; intros [s1 out] Hnd Hl; [done|]. csimpl in Hnd.
    apply NoDup_cons in Hnd as [Hni Hnd]. simpl.
    destruct (so_owner session == owner); [|apply (IH (s1, out)); [done|]; intros; apply Hl; by right].
    pose proof (mark_closing_keeps s1 t session (Hl t session ltac:(left))) as Hk.
    destruct (mark_closing_frame s1 t session) as [Hd Hs].
    destruct (mark_closing s1 t session) as [s2 [first completion]]. simpl in *.
    destruct (IH (s2, out ++ [(t, first, completion)]) Hnd) as [Hk' Hd'].
    - intros t' session' Hin. simpl. rewrite Hs; [by apply Hl; right|].
      intros ->. apply Hni, list_elem_of_fmap. by exists (t, session').
    - split; [by etrans|]. simpl in *. congruence. }
  destruct (Hfold (map_to_list (lf_sessions s0)) (s0, [])) as [Hk Hd].
  - apply NoDup_fst_map_to_list.
  - intros t session Hin. by apply elem_of_map_to_list in Hin.
  - split; [|rewrite Hd; simpl; set_solver]. etrans; [|exact Hk].
    apply keeps_lifecycle; simpl; [set_solver|]. intros t session Hl Hp. left. by exists session.
Qed.

Lemma lifecycle_complete_keeps s thread owner : keeps_settled s (lifecycle_complete thread owner s).
Proof.
  apply keeps_lifecycle; [done|]. intros t session Hl Hp. left. simpl.
  destruct (decide (t = thread)) as [->|Hne].
  - rewrite lookup_alter_eq, Hl. simpl. eexists. split; [done|]. case_bool_decide; simpl; by auto.
  - rewrite lookup_alter_ne by done. by exists session.
Qed.

Lemma complete_with_keeps s completion outcome : keeps_settled s (complete_with completion outcome s).
Proof. apply keeps_lifecycle; [done|]. intros t session Hl Hp. left. by exists session. Qed.

Lemma forget_owner_keeps s owner : owner ∈ lf_disconnected s → keeps_settled s (forget_owner owner s).
Proof.
  intros Ho. apply keeps_lifecycle; [done|]. intros t session Hl Hp. simpl.
  destruct (decide (so_owner session = owner)) as [->|Hne]; [by right|left].
  exists session. split; [|done]. apply map_lookup_filter_Some. done.
Qed.

Lemma reserve_keeps s thread owner : keeps_settled s (reserve s thread owner).1.
Proof.
  unfold reserve. destruct (connection_closed s owner); [done|].
  destruct (lf_sessions s !! thread) eqn:Hl; [done|]. simpl.
  eapply keeps_insert; [reflexivity|reflexivity|]. intros session Hs. simpl in Hs. congruence.
Qed.

Lemma preparation_fail_keeps error p s : keeps_settled s (preparation_fail error p s).2.
Proof. simpl. etrans; [apply lifecycle_complete_keeps|apply complete_with_keeps]. Qed.
Lemma preparation_drop_keeps p s : keeps_settled s (preparation_drop p s).
Proof.
  unfold preparation_drop. destruct (pn_finished p); [done|].
  etrans; [apply lifecycle_complete_keeps|apply complete_with_keeps].
Qed.
End lifecycle.

(** ** Administration *)

Section administration.
Context `{Externals} `{ManagementExternals}.
Implicit Types (g : SessionManagementRegistry) (r : ManagementRecord).

Record same_sessions g g' : Prop := {
  ss_next_address : sm_next g' = sm_next g;
  ss_heap a : option_Forall2 same_session (sm_heap g !! a) (sm_heap g' !! a);
  ss_records thread a : sm_records g' !! thread = Some a → sm_records g !! thread = Some a;
}.
#[export] Instance same_sessions_preorder : PreOrder same_sessions.
Proof.
  split.
  - intros g. split; [done| |done]. intros a. destruct (sm_heap g !! a); by constructor.
  - intros g1 g2 g3 [Hn1 Hh1 Hr1] [Hn2 Hh2 Hr2]. split; [congruence| |by auto].
    intros a. specialize (Hh1 a). specialize (Hh2 a).
    destruct Hh1; inversion Hh2; constructor. by etrans.
Qed.

Lemma update_record_same a f g : (∀ r, same_session r (f r)) → same_sessions g (update_record a f g).
Proof.
  intros Hf. split; [done| |done]. intros b. simpl. destruct (decide (b = a)) as [->|Hne].
  - rewrite lookup_alter_eq. destruct (sm_heap g !! a); simpl; by constructor.
  - rewrite lookup_alter_ne by done. destruct (sm_heap g !! b); by constructor.
Qed.

Lemma close_notifier_same r : same_session r (close_notifier r).
Proof. done. Qed.

Lemma prune_one_same owner st ordinal : same_sessions st.1 (prune_one owner st ordinal).1.
Proof.
  destruct st as [g catalog]. unfold prune_one. destruct (oc_entries catalog !! ordinal) as [thread|]; [|done].
  destruct (sm_records g !! thread) as [a|]; simpl; [|done]. destruct (sm_heap g !! a) as [r|]; simpl; [|done].
  destruct (_ && _); [|done]. simpl.
  etrans; [apply (update_record_same a close_notifier g close_notifier_same)|]. split; [done| |].
  - intros b. simpl. destruct (alter _ _ _ !! b); by constructor.
  - intros t b. simpl. by intros [_ ?]%lookup_delete_Some.
Qed.

Lemma prune_owner_same owner protected now g : same_sessions g (prune_owner owner protected now g).
Proof.
  unfold prune_owner. destruct (sm_owners g !! owner) as [catalog|]; [|done].
  assert (∀ l st, same_sessions st.1 (foldl (prune_one owner) st l).1) as Hfold.
  { induction l as [|o l IH]; intros st; [done|]. simpl. etrans; [apply prune_one_same|apply IH]. }
  specialize (Hfold (prune_list (sm_limits g) now protected (closed_sessions g catalog)) (g, catalog)).
  destruct (foldl _ _ _) as [g' catalog']. destruct Hfold as [Hn Hh Hr]. by split.
Qed.

Lemma remove_owner_same owner g : same_sessions g (remove_owner owner g).
Proof.
  unfold remove_owner.
  assert (∀ l g, same_sessions g (foldl (λ g kv, update_record kv.2 close_notifier (set_records (delete kv.1 (sm_records g)) g)) g l))
    as Hfold.
  { induction l as [|[t a] l IH]; intros g0; [done|]. simpl. etrans; [|apply IH].
    etrans; [|apply update_record_same, close_notifier_same]. split; [done| |].
    - intros b. simpl. destruct (sm_heap g0 !! b); by constructor.
    - intros t' b. simpl. by intros [_ ?]%lookup_delete_Some. }
  match goal with |- context [foldl ?f g ?l] => specialize (Hfold l g); destruct (foldl f g l) end.
  destruct Hfold as [Hn Hh Hr]. by split.
Qed.

Lemma mark_owner_disconnected_same owner g : same_sessions g (mark_owner_disconnected owner g).
Proof.
  split; [done| |done]. intros a. unfold mark_owner_disconnected. simpl. rewrite map_lookup_imap.
  destruct (sm_heap g !! a) as [r|]; simpl; constructor. by destruct (_ && _).
Qed.

Lemma administers_same g g' : administers g g' → same_sessions g g'.
Proof.
  intros Ha. destruct Ha.
  - apply prune_owner_same.
  - unfold owner_catalog. destruct (sm_owners g !! owner); [done|]. split; [done| |done].
    intros a. simpl. destruct (sm_heap g !! a); by constructor.
  - apply mark_owner_disconnected_same.
  - apply remove_owner_same.
  - by apply update_record_same.
Qed.
End administration.

(** ** The invariant *)

Section lanes.
Context `{Externals} `{ManagementExternals} `{ViewExternals} {St : Type} `{!SessionStore St}.
Implicit Types (d : Daemon St) (w : World St) (v : SessionViewRecord) (r : ManagementRecord) (pairs : gmap nat nat).

Definition record_thread r : string := cv_thread_id (mp_cursor (mr_projection r)).

Record PairsOk (views : SessionViewRegistry) (g : SessionManagementRegistry) pairs : Prop := {
  pk_agree a r : sm_heap g !! a = Some r →
    ∃ b v, pairs !! a = Some b ∧ vg_heap views !! b = Some v ∧ Agree v r ∧ ProjectionOk (mr_projection r);
  pk_inj a a' b : pairs !! a = Some b → pairs !! a' = Some b → a = a';
  pk_dom a b : pairs !! a = Some b → is_Some (sm_heap g !! a);
  pk_fresh_view b v : vg_heap views !! b = Some v → b < vg_next views;
  pk_fresh_record a r : sm_heap g !! a = Some r → a < sm_next g;
  pk_view thread b v a r :
    vg_records views !! thread = Some b → vg_heap views !! b = Some v → sm_heap g !! a = Some r →
    record_thread r = thread → mr_owner r = vr_owner v → pairs !! a = Some b;
  pk_view_key thread b : vg_records views !! thread = Some b →
    ∃ v, vg_heap views !! b = Some v ∧ cur_thread_id (vr_cursor v) = thread;
  pk_record_key thread a : sm_records g !! thread = Some a → ∃ r, sm_heap g !! a = Some r ∧ record_thread r = thread;
}.

Record WorldOk w : Prop := {
  wk_pairs : ∃ pairs, PairsOk (dm_views (wo_daemon w)) (dm_management (wo_daemon w)) pairs;
  wk_settled a r : sm_heap (dm_management (wo_daemon w)) !! a = Some r →
    settled (wo_lifecycle w) (record_thread r) (mr_owner r);
}.

(** *** Administration and removal *)

Lemma same_session_agree v r r' : same_session r r' → Agree v r → Agree v r'.
Proof. intros (Ho & Hp & _) [????]. constructor; rewrite ?Ho, ?Hp; done. Qed.

Lemma same_session_thread r r' : same_session r r' → record_thread r' = record_thread r ∧ mr_owner r' = mr_owner r.
Proof. unfold record_thread. by intros (-> & -> & _). Qed.

Lemma pairs_same views g g' pairs : same_sessions g g' → PairsOk views g pairs → PairsOk views g' pairs.
Proof.
  intros [Hn Hh Hr] [P1 P2 P3 P4 P5 P6 P7 P8].
  assert (∀ a r', sm_heap g' !! a = Some r' → ∃ r, sm_heap g !! a = Some r ∧ same_session r r') as Hback.
  { intros a r' Ha. specialize (Hh a). rewrite Ha in Hh. inversion Hh; subst. by eexists. }
  assert (∀ a r, sm_heap g !! a = Some r → ∃ r', sm_heap g' !! a = Some r' ∧ same_session r r') as Hforth.
  { intros a r Ha. specialize (Hh a). rewrite Ha in Hh. inversion Hh; subst. by eexists. }
  constructor; try done.
  - intros a r' Ha. destruct (Hback _ _ Ha) as (r & Hr' & Hs). destruct (P1 _ _ Hr') as (b & v & ? & ? & ? & Hok).
    exists b, v. split_and!; try done; [by eapply same_session_agree|]. by destruct Hs as (_ & -> & _).
  - intros a b Hab. destruct (P3 _ _ Hab) as [r Hr']. destruct (Hforth _ _ Hr') as (? & ? & _). by eexists.
  - intros a r' Ha. rewrite Hn. destruct (Hback _ _ Ha) as (r & Hr' & _). by eapply P5.
  - intros thread b v a r' Hb Hv Ha Ht Ho. destruct (Hback _ _ Ha) as (r & Hr' & Hs).
    apply same_session_thread in Hs as [Hst Hso]. eapply P6; try done; congruence.
  - intros thread a Ha. destruct (P8 _ _ (Hr _ _ Ha)) as (r & Hr' & Ht). destruct (Hforth _ _ Hr') as (r' & ? & Hs).
    exists r'. split; [done|]. apply same_session_thread in Hs as [-> _]. done.
Qed.

Lemma pairs_remove_view views g pairs thread owner :
  PairsOk views g pairs → PairsOk (registry_remove views thread owner) g pairs.
Proof.
  intros [P1 P2 P3 P4 P5 P6 P7 P8]. unfold registry_remove. destruct (owned _ _ _) as [?|]; [|by constructor].
  constructor; try done; simpl.
  - intros t b v a1 r [_ Hb]%lookup_delete_Some. by apply P6.
  - intros t b [_ Hb]%lookup_delete_Some. by apply P7.
Qed.

(** *** A change of one session *)

Lemma agree_keys v r v' r' : Agree v r → Agree v' r' → mr_owner r' = mr_owner r →
  record_thread r' = record_thread r → cur_thread_id (vr_cursor v') = cur_thread_id (vr_cursor v).
Proof. intros [_ Ht _ _] [_ Ht' _ _] _ Hr. unfold record_thread in *. congruence. Qed.

Lemma pairs_commit views g pairs a r r' b v v' views' g' :
  PairsOk views g pairs → Committed views views' g g' a r r' b v v' → pairs !! a = Some b →
  record_thread r' = record_thread r → PairsOk views' g' pairs.
Proof.
  intros [P1 P2 P3 P4 P5 P6 P7 P8] [-> -> Ha Hb [Ho Hvo] Hag Hok] Hpair Ht.
  destruct (P1 _ _ Ha) as (b' & v0 & Hb' & Hv0 & Hag0 & Hok0). simplify_eq.
  pose proof (agree_keys _ _ _ _ Hag0 (Hag Hag0) Ho Ht) as Hvt.
  constructor; simpl; try done.
  - intros a1 r1. destruct (decide (a1 = a)) as [->|Hne].
    + rewrite lookup_insert_eq. intros [= <-]. exists b, v'. rewrite lookup_insert_eq. by auto.
    + rewrite lookup_insert_ne by done. intros Hr1. destruct (P1 _ _ Hr1) as (b1 & v1 & ? & ? & ? & ?).
      exists b1, v1. split_and!; try done. rewrite lookup_insert_ne; [done|]. intros ->. by apply Hne, (P2 a1 a b1).
  - intros a1 b1 Hab. destruct (decide (a1 = a)) as [->|Hne]; [by rewrite lookup_insert_eq|].
    rewrite lookup_insert_ne by done. by eapply P3.
  - intros b1 v1. destruct (decide (b1 = b)) as [->|Hne]; [intros _; by eapply P4|].
    rewrite lookup_insert_ne by done. apply P4.
  - intros a1 r1. destruct (decide (a1 = a)) as [->|Hne]; [intros _; by eapply P5|].
    rewrite lookup_insert_ne by done. apply P5.
  - intros t b1 v1 a1 r1 Hrec Hv1 Hr1 Ht1 Ho1.
    assert (∃ r2, sm_heap g !! a1 = Some r2 ∧ record_thread r2 = t ∧ mr_owner r2 = mr_owner r1) as (r2 & Hr2 & Ht2 & Ho2).
    { destruct (decide (a1 = a)) as [->|Hne].
      - rewrite lookup_insert_eq in Hr1. simplify_eq. exists r. split_and!; congruence.
      - rewrite lookup_insert_ne in Hr1 by done. by exists r1. }
    destruct (decide (b1 = b)) as [->|Hne].
    + rewrite lookup_insert_eq in Hv1. simplify_eq. eapply P6; try done. congruence.
    + rewrite lookup_insert_ne in Hv1 by done. eapply P6; try done. congruence.
  - intros t b1 Hrec. destruct (P7 _ _ Hrec) as (v1 & Hv1 & Hvt1). destruct (decide (b1 = b)) as [->|Hne].
    + exists v'. rewrite lookup_insert_eq. split; [done|]. congruence.
    + exists v1. by rewrite lookup_insert_ne.
  - intros t a1 Hrec. destruct (P8 _ _ Hrec) as (r1 & Hr1 & Ht1). destruct (decide (a1 = a)) as [->|Hne].
    + exists r'. rewrite lookup_insert_eq. split; [done|]. congruence.
    + exists r1. by rewrite lookup_insert_ne.
Qed.

(** A change of the second view alone is a change of the session whose first view stays. *)
Lemma solo_committed views g g' a r r' b v :
  Solo g g' a r r' → vg_heap views !! b = Some v → Committed views views g g' a r r' b v v.
Proof.
  intros [Hg Ha Ho _ Hag Hok] Hv. constructor; try done; [|by auto].
  rewrite insert_id by done. by destruct views.
Qed.

(** *** A new session *)

(** The record that [insert_session] adds. *)
Record Inserted (start : SessionStart) (g g' : SessionManagementRegistry) r : Prop := {
  in_next : sm_next g' = S (sm_next g);
  in_heap : sm_heap g' = <[sm_next g := r]> (sm_heap g);
  in_records : sm_records g' = <[st_thread_id start := sm_next g]> (sm_records g);
  in_owner : mr_owner r = st_owner start;
  in_thread : record_thread r = st_thread_id start;
  in_projection : ∃ window, from_history (st_history start) MAX_SESSION_HISTORY_LIMIT = Ok window ∧
    projection_of (mp_snapshot (mr_projection r)) = (window, None, None);
  in_identities : mp_run_identities (mr_projection r) = ∅;
  in_valid : ProjectionOk (mr_projection r);
}.

Lemma insert_session_spec start stream g out g' :
  insert_session (st_owner start) (st_thread_id start) (st_agent_name start) (st_metadata start) (st_history start)
    (st_created_at_ms start) (st_persistence start) (st_max_history_bytes start) stream g = (out, g') →
  match out with Err _ => same_sessions g g' | Ok _ => ∃ r, Inserted start g g' r end.
Proof.
  unfold insert_session, lift, gets, modify, mbind, eff_bind.
  destruct (from_history _ _) as [window|] eqn:Hw; simpl; [|by intros [= <- <-]].
  destruct (SessionSnapshotV2_validate _) as [[]|] eqn:Hv; simpl; [|by intros [= <- <-]].
  destruct (HistoryArchive_new _ _ _ _) as [archive|]; simpl; [|by intros [= <- <-]].
  destruct (owner_catalog _ g) as [answer g1] eqn:Hc.
  assert (same_sessions g g1) as Hs.
  { replace g1 with (owner_catalog (st_owner start) g).2 by by rewrite Hc. apply administers_same. constructor. }
  destruct answer as [catalog|e]; [|by intros [= <- <-]].
  destruct (reject_if _ _); simpl; [|by intros [= <- <-]].
  destruct (reject_if _ _); simpl; [|by intros [= <- <-]].
  destruct (ok_or _ _); simpl; [|by intros [= <- <-]].
  intros [= <- <-].
  assert (sm_next g1 = sm_next g ∧ sm_heap g1 = sm_heap g ∧ sm_records g1 = sm_records g) as (Hn & Hh & Hr).
  { unfold owner_catalog in Hc. destruct (sm_owners g !! st_owner start); by simplify_eq/=. }
  eexists. constructor; simpl; rewrite ?Hn, ?Hh, ?Hr; try done; [by eexists|].
  by apply initial_projection_ok.
Qed.

Lemma registry_insert_spec views start stream views' :
  registry_insert views (st_owner start) (st_thread_id start) (st_agent_name start) (st_metadata start)
    (st_history start) (st_created_at_ms start) stream = Ok views' →
  ∃ v window, vg_heap views' = <[vg_next views := v]> (vg_heap views) ∧ vg_next views' = S (vg_next views) ∧
    vg_records views' = <[st_thread_id start := vg_next views]> (vg_records views) ∧
    vr_owner v = st_owner start ∧ cur_thread_id (vr_cursor v) = st_thread_id start ∧
    from_history (st_history start) MAX_SESSION_HISTORY_LIMIT = Ok window ∧
    projection_v1 (vr_snapshot v) = (window, None, None) ∧ pv_run_identities (vr_state v) = ∅.
Proof.
  unfold registry_insert, with_owner. intros Hi. inv_result.
  destruct (vg_records views !! st_thread_id start); [done|]. inv_result. eexists _, _. by split_and!.
Qed.

(** No record of the management registry has the identity. *)
Definition unused g thread owner : Prop :=
  ∀ a r, sm_heap g !! a = Some r → record_thread r = thread → mr_owner r ≠ owner.

Lemma pairs_insert_view views g pairs start stream views' :
  PairsOk views g pairs → unused g (st_thread_id start) (st_owner start) →
  registry_insert views (st_owner start) (st_thread_id start) (st_agent_name start) (st_metadata start)
    (st_history start) (st_created_at_ms start) stream = Ok views' →
  PairsOk views' g pairs.
Proof.
  intros [P1 P2 P3 P4 P5 P6 P7 P8] Hun Hi.
  apply registry_insert_spec in Hi as (v & window & Hh & Hn & Hr & Ho & Ht & _). constructor; try done.
  - intros a r Ha. destruct (P1 _ _ Ha) as (b & v1 & ? & Hv1 & ? & ?). exists b, v1. split_and!; try done.
    rewrite Hh, lookup_insert_ne; [done|]. pose proof (P4 _ _ Hv1). lia.
  - intros b v1. rewrite Hh, Hn. intros [[<- _]|[_ Hv1]]%lookup_insert_Some; [lia|]. pose proof (P4 _ _ Hv1). lia.
  - intros t b v1 a r. rewrite Hh, Hr. intros [[<- <-]|[Hne Hb]]%lookup_insert_Some Hv Ha Hth Hown.
    + rewrite lookup_insert_eq in Hv. injection Hv as <-. destruct (Hun _ _ Ha Hth). congruence.
    + destruct (P7 _ _ Hb) as (v2 & Hv2 & _). pose proof (P4 _ _ Hv2).
      rewrite lookup_insert_ne in Hv by lia. by apply (P6 t b v1 a r).
  - intros t b. rewrite Hh, Hr. intros [[<- <-]|[Hne Hb]]%lookup_insert_Some.
    + exists v. by rewrite lookup_insert_eq.
    + destruct (P7 _ _ Hb) as (v2 & Hv2 & ?). exists v2. rewrite lookup_insert_ne; [done|]. pose proof (P4 _ _ Hv2). lia.
Qed.

Lemma pairs_insert_record views g pairs start stream views' g' r :
  PairsOk views g pairs → unused g (st_thread_id start) (st_owner start) →
  registry_insert views (st_owner start) (st_thread_id start) (st_agent_name start) (st_metadata start)
    (st_history start) (st_created_at_ms start) stream = Ok views' →
  Inserted start g g' r → PairsOk views' g' (<[sm_next g := vg_next views]> pairs).
Proof.
  intros Hok Hun Hi [I1 I2 I3 I4 I5 (window & Hw & I6) I7 I8].
  pose proof (pairs_insert_view _ _ _ _ _ _ Hok Hun Hi) as [P1 P2 P3 P4 P5 P6 P7 P8].
  apply registry_insert_spec in Hi as (v & window' & Hh & Hn & Hr & Ho & Ht & Hw' & Hpj & Hid). simplify_eq.
  assert (∀ a, pairs !! a = Some (vg_next views) → False) as Hnew.
  { intros a Ha. destruct (pk_dom _ _ _ Hok _ _ Ha) as [r0 Hr0]. destruct (pk_agree _ _ _ Hok _ _ Hr0) as (b & v0 & ? & Hv0 & _).
    simplify_eq. pose proof (pk_fresh_view _ _ _ Hok _ _ Hv0). lia. }
  constructor; rewrite ?I1, ?I2, ?I3; try done.
  - intros a r1 [[<- <-]|[Hne Ha]]%lookup_insert_Some; [|rewrite lookup_insert_ne by done; by apply P1].
    rewrite lookup_insert_eq. exists (vg_next views), v. rewrite Hh, lookup_insert_eq. split_and!; try done.
    constructor; rewrite ?Hpj, ?Hid, ?I6, ?I7; try congruence. unfold record_thread in I5. congruence.
  - intros a a' b [[<- <-]|[Hne Ha]]%lookup_insert_Some [[<- Hb]|[Hne' Ha']]%lookup_insert_Some; try done.
    + by destruct (Hnew _ Ha').
    + subst b. by destruct (Hnew _ Ha).
    + by eapply P2.
  - intros a b [[<- _]|[Hne Ha]]%lookup_insert_Some; [by rewrite lookup_insert_eq|].
    rewrite lookup_insert_ne by done. by eapply P3.
  - intros a r1 [[<- _]|[Hne Ha]]%lookup_insert_Some; [lia|]. pose proof (P5 _ _ Ha). lia.
  - intros t b v1 a r1 Hb Hv [[<- <-]|[Hne Ha]]%lookup_insert_Some Hth Hown.
    + rewrite lookup_insert_eq. rewrite Hr, <-Hth, I5, lookup_insert_eq in Hb. done.
    + rewrite lookup_insert_ne by done. by apply (P6 t b v1 a r1).
  - intros t a [[<- <-]|[Hne Ha]]%lookup_insert_Some.
    + exists r. by rewrite lookup_insert_eq.
    + destruct (P8 _ _ Ha) as (r1 & Hr1 & ?). exists r1. rewrite lookup_insert_ne; [done|]. pose proof (P5 _ _ Hr1). lia.
Qed.

(** A publication of a session adds a pair, or leaves the pairs alone. *)
Lemma publish_session_pairs start s1 s2 interactions d out d' pairs :
  PairsOk (dm_views d) (dm_management d) pairs → unused (dm_management d) (st_thread_id start) (st_owner start) →
  publish_session start s1 s2 interactions d = (out, d') →
  match out with
  | Ok _ => (∃ r, Inserted start (dm_management d) (dm_management d') r) ∧ ∃ pairs', PairsOk (dm_views d') (dm_management d') pairs'
  | Err _ => same_sessions (dm_management d) (dm_management d') ∧ PairsOk (dm_views d') (dm_management d') pairs
  end.
Proof.
  intros Hok Hun. unfold publish_session.
  destruct (registry_insert _ _ _ _ _ _ _ _) as [views|] eqn:Hi; [|by intros [= <- <-]].
  pose proof (pairs_insert_view _ _ _ _ _ _ Hok Hun Hi) as Hok1.
  destruct interactions; [|intros [= <- <-]; split; [done|]; by apply pairs_remove_view].
  unfold in_management. simpl.
  destruct (insert_session _ _ _ _ _ _ _ _ _ _) as [[[]|e] g] eqn:Hins; apply insert_session_spec in Hins.
  - intros [= <- <-]. destruct Hins as [r Hins]. split; [by exists r|].
    eexists. exact (pairs_insert_record _ _ _ _ _ _ _ _ Hok Hun Hi Hins).
  - intros [= <- <-]. split; [done|]. simpl. by eapply pairs_remove_view, pairs_same.
Qed.

(** *** The steps *)

Lemma settled_same g g' (P : string → string → Prop) : same_sessions g g' →
  (∀ a r, sm_heap g !! a = Some r → P (record_thread r) (mr_owner r)) →
  ∀ a r, sm_heap g' !! a = Some r → P (record_thread r) (mr_owner r).
Proof.
  intros [_ Hh _] Hp a r' Ha. specialize (Hh a). rewrite Ha in Hh. inversion Hh as [r ? Hs Hr|]; subst.
  apply same_session_thread in Hs as [-> ->]. by eapply Hp.
Qed.

(** Steps of the life cycle alone *)
Lemma world_lifecycle w f : keeps_settled (wo_lifecycle w) (f (wo_lifecycle w)) → WorldOk w → WorldOk (on_lifecycle f w).
Proof. intros Hk [Hp Hs]. split; [done|]. intros a r Ha. by eapply Hk, Hs. Qed.

(** Steps that publish a new session; [lc] is the life cycle after its entry is set. *)
Lemma world_publish start s1 s2 interactions lc d out d' lc' :
  WorldOk {| wo_lifecycle := lc; wo_daemon := d |} →
  ¬ settled lc (st_thread_id start) (st_owner start) →
  publish_session start s1 s2 interactions d = (out, d') →
  match out with
  | Ok _ => keeps_settled lc lc' ∧ settled lc' (st_thread_id start) (st_owner start)
  | Err _ => lc' = lc
  end → WorldOk {| wo_lifecycle := lc'; wo_daemon := d' |}.
Proof.
  intros [[pairs Hp] Hs] Hno Hpub Hlc. simpl in *.
  assert (unused (dm_management d) (st_thread_id start) (st_owner start)) as Hun.
  { intros a r Ha Ht Ho. apply Hno. rewrite <-Ht, <-Ho. by eapply Hs. }
  apply (publish_session_pairs _ _ _ _ _ _ _ _ Hp Hun) in Hpub. destruct out as [|e].
  - destruct Hpub as [[r Hins] Hp'], Hlc as [Hk Hset]. split; [done|]. simpl. intros a1 r'.
    rewrite (in_heap _ _ _ _ Hins). intros [[<- <-]|[_ Ha]]%lookup_insert_Some.
    + by rewrite (in_thread _ _ _ _ Hins), (in_owner _ _ _ _ Hins).
    + by eapply Hk, Hs.
  - destruct Hpub as [Hsame Hp']. subst lc'. split; [by eexists|]. simpl. by eapply (settled_same _ _ (settled lc)).
Qed.

Lemma insert_settles lc lc' thread owner :
  lf_disconnected lc' = lf_disconnected lc →
  lf_sessions lc' = <[thread := {| so_owner := owner; so_phase := PhaseOpen |}]> (lf_sessions lc) →
  (∀ session, lf_sessions lc !! thread = Some session → so_owner session = owner) →
  keeps_settled lc lc' ∧ settled lc' thread owner.
Proof.
  intros Hd Hs Ho. split.
  - eapply keeps_insert; [done|done|]. intros session Hl _. simpl. by rewrite (Ho _ Hl).
  - left. rewrite Hs, lookup_insert_eq. by eexists.
Qed.

(** Steps that change one session *)
Lemma world_committed lc d d' pairs a r r' b v v' :
  PairsOk (dm_views d) (dm_management d) pairs →
  (∀ a r, sm_heap (dm_management d) !! a = Some r → settled lc (record_thread r) (mr_owner r)) →
  Committed (dm_views d) (dm_views d') (dm_management d) (dm_management d') a r r' b v v' →
  pairs !! a = Some b → record_thread r' = record_thread r →
  WorldOk {| wo_lifecycle := lc; wo_daemon := d' |}.
Proof.
  intros Hp Hs Hc Hab Ht. split; simpl; [exists pairs; by eapply pairs_commit|]. intros a1 r1.
  rewrite (co_management _ _ _ _ _ _ _ _ _ _ Hc). simpl. intros [[<- <-]|[_ Ha]]%lookup_insert_Some; [|by eapply Hs].
  rewrite Ht, (proj1 (co_owner _ _ _ _ _ _ _ _ _ _ Hc)). eapply Hs, Hc.
Qed.

Lemma world_solo lc d d' :
  WorldOk {| wo_lifecycle := lc; wo_daemon := d |} → dm_views d' = dm_views d →
  dm_management d' = dm_management d ∨ (∃ a r r', Solo (dm_management d) (dm_management d') a r r') →
  WorldOk {| wo_lifecycle := lc; wo_daemon := d' |}.
Proof.
  intros [[pairs Hp] Hs] Hv [Hm|(a & r & r' & Hso)]; simpl in *; [split; simpl; rewrite ?Hv, ?Hm; [by exists pairs|done]|].
  pose proof Hso as [Hm Ha Ho Hh Hag Hval].
  destruct (pk_agree _ _ _ Hp _ _ Ha) as (b & v & Hab & Hb & Hagr & _).
  apply (world_committed lc d d' pairs a r r' b v v); try done.
  - rewrite Hv. by apply solo_committed.
  - unfold record_thread. rewrite <-(ag_thread _ _ (Hag _ Hagr)), <-(ag_thread _ _ Hagr). done.
Qed.

(** A prepared publication or retirement under the lane of a record concerns the view
    that the record is paired with. *)
Lemma world_lane lc d d' a r r' b v next thread :
  WorldOk {| wo_lifecycle := lc; wo_daemon := d |} →
  vg_records (dm_views d) !! thread = Some b → record_thread r = thread → mr_owner r = vr_owner v →
  Committed (dm_views d) (dm_views d') (dm_management d) (dm_management d') a r r' b v (install next v) →
  cur_thread_id (sv_cursor (pv_snapshot next)) = cur_thread_id (vr_cursor v) →
  WorldOk {| wo_lifecycle := lc; wo_daemon := d' |}.
Proof.
  intros [[pairs Hp] Hs] Hrec Ht Ho Hc Hn. simpl in *. pose proof Hc as [_ _ Ha Hb _ Hag _].
  assert (pairs !! a = Some b) as Hab by by apply (pk_view _ _ _ Hp thread b v a r).
  destruct (pk_agree _ _ _ Hp _ _ Ha) as (b' & v' & Hab' & Hb' & Hagr & _). simplify_eq.
  eapply world_committed; try done.
  unfold record_thread. by rewrite <-(ag_thread _ _ (Hag Hagr)), <-(ag_thread _ _ Hagr).
Qed.

Lemma prepare_v1_thread views owner mutation ts p e v :
  prepare_v1 views owner mutation ts = Ok (p, e) → vg_heap views !! pp_record p = Some v →
  cur_thread_id (sv_cursor (pv_snapshot (pp_next p))) = cur_thread_id (vr_cursor v).
Proof.
  intros Hp Hv. unfold prepare_v1 in Hp. apply map_err_Ok in Hp.
  destruct mutation; unfold prepare_begin_run, prepare_run_changed, prepare_run_event in Hp; inv_result;
    match goal with Hr : prepare _ _ _ _ = Ok ?x |- _ => destruct x end;
    match goal with Hw : owned _ _ _ = Ok _ |- _ => apply owned_Ok in Hw as (_ & ? & _) end; simplify_eq/=;
    match goal with Hr : prepare _ _ _ _ = Ok _ |- _ => by apply prepare_facts in Hr as (_ & _ & _ & ? & _) end.
Qed.

Lemma prepare_retire_thread views thread turn_id identity p v :
  prepare_retire_run views thread turn_id identity = Ok (Some p) → vg_heap views !! pp_record p = Some v →
  cur_thread_id (sv_cursor (pv_snapshot (pp_next p))) = cur_thread_id (vr_cursor v).
Proof.
  unfold prepare_retire_run. intros Hp Hv. inv_result.
  destruct (retire_state _ turn_id identity) as [pv|] eqn:Hret; [|done]. simplify_eq/=.
  by destruct (retire_state_frame _ _ _ _ Hret) as [-> _].
Qed.

Lemma prepare_retire_known views thread turn_id identity p v :
  prepare_retire_run views thread turn_id identity = Ok (Some p) → vg_heap views !! pp_record p = Some v →
  pv_run_identities (vr_state v) !! turn_id = Some identity.
Proof.
  unfold prepare_retire_run. intros Hp Hv. inv_result.
  destruct (retire_state _ turn_id identity) as [pv|] eqn:Hret; [|done]. simplify_eq/=.
  unfold retire_state in Hret. destruct (_ || _) eqn:Hg; [done|]. apply orb_false_iff in Hg as [Hg _]. by apply negb_false_iff, bool_decide_eq_true in Hg.
Qed.

Lemma lane_world lc d d' a :
  on_lane a d d' → WorldOk {| wo_lifecycle := lc; wo_daemon := d |} → WorldOk {| wo_lifecycle := lc; wo_daemon := d' |}.
Proof.
  intros Hl Hok. destruct Hl as [owner mutation ts out d d' Hp Hlane|thread turn identity out d d' Hp Hlane
    |params journal unix_ms tick out d d' Hp|unix_ms out d d' Hp|journal unix_ms now tick out d d' Hp].
  - apply publish_on_spec in Hp. destruct out as [[e1 e2]|]; [|by subst].
    destruct Hp as (r & r' & p & v & pm & Hv1 & _ & _ & _ & Hc & _).
    destruct (prepare_v1_owned _ _ _ _ _ _ Hv1) as (v' & Hrec & Hv' & Ho & _).
    assert (v' = v) as -> by (rewrite (co_view _ _ _ _ _ _ _ _ _ _ Hc) in Hv'; by injection Hv').
    destruct (Hlane _ (co_record _ _ _ _ _ _ _ _ _ _ Hc)) as [Hro Hrt].
    eapply (world_lane lc d d' a r r' _ v); [done|exact Hrec|exact Hrt|congruence|exact Hc|]. by eapply prepare_v1_thread.
  - apply retire_on_spec in Hp as [->|(r & r' & p & v & Hret & Hrec & Hc & _)]; [done|].
    pose proof Hc as [_ _ Ha Hb _ _ _]. destruct (Hlane _ Ha) as [Hrt Hro].
    eapply (world_lane lc d d' a r r' _ v); [done|exact Hrec|exact Hrt| |exact Hc|by eapply prepare_retire_thread].
    symmetry. by eapply Hro, prepare_retire_known.
  - apply replace_metadata_on_spec in Hp as [Hv Hm]. eapply world_solo; [done|done|]. naive_solver.
  - apply begin_closing_on_spec in Hp as [Hv Hm]. eapply world_solo; [done|done|]. naive_solver.
  - apply complete_closed_on_spec in Hp as [Hv Hm]. eapply world_solo; [done|done|]. naive_solver.
Qed.

Lemma lifecycle_publish_world start s1 s2 interactions lc d out lc' d' :
  lifecycle_publish (st_thread_id start) (st_owner start) (publish_session start s1 s2 interactions) (lc, d)
    = (out, (lc', d')) →
  WorldOk {| wo_lifecycle := lc; wo_daemon := d |} → WorldOk {| wo_lifecycle := lc'; wo_daemon := d' |}.
Proof.
  unfold lifecycle_publish, connection_closed. intros Hl Hok. case_bool_decide as Hc; [by simplify_eq|].
  destruct (lf_sessions lc !! st_thread_id start) eqn:Hs; simpl in Hl; [by simplify_eq|].
  destruct (publish_session _ _ _ _ _) as [answer d1] eqn:Hp.
  eapply (world_publish start s1 s2 interactions lc d answer); [done| | |].
  - intros [(? & ? & _)|?]; [congruence|done].
  - rewrite Hp. f_equal. by destruct answer; simplify_eq.
  - destruct answer; simplify_eq; [|done]. apply insert_settles; try done. congruence.
Qed.

Lemma preparation_publish_world p start s1 s2 interactions lc d out lc' d' :
  pn_thread p = st_thread_id start → pn_owner p = st_owner start →
  preparation_publish p (publish_session start s1 s2 interactions) (lc, d) = (out, (lc', d')) →
  WorldOk {| wo_lifecycle := lc; wo_daemon := d |} → WorldOk {| wo_lifecycle := lc'; wo_daemon := d' |}.
Proof.
  unfold preparation_publish, connection_closed. intros -> -> Hl Hok. case_bool_decide as Hc; [by simplify_eq|].
  destruct (lf_sessions lc !! st_thread_id start) as [session|] eqn:Hs; [|by simplify_eq].
  destruct ((_ != _) || _) eqn:Hg; [by simplify_eq|]. apply orb_false_iff in Hg as [Ho Hph].
  apply negb_false_iff, bool_decide_eq_true in Ho.
  destruct (publish_session _ _ _ _ _) as [answer d1] eqn:Hp.
  eapply (world_publish start s1 s2 interactions lc d answer); [done| | |].
  - intros [(session' & ? & _ & Hpr)|?]; [|done]. assert (session' = session) as -> by congruence.
    by destruct (so_phase session) as [? [|]| | |].
  - rewrite Hp. f_equal. by destruct answer; simplify_eq.
  - destruct answer; simplify_eq; [|done]. rewrite Ho.
    destruct (insert_settles lc (set_sessions (<[st_thread_id start := {| so_owner := st_owner start; so_phase := PhaseOpen |}]>
      (lf_sessions lc)) lc) (st_thread_id start) (st_owner start)) as [Hk Hset]; [done|done|congruence|].
    split; [etrans; [exact Hk|]|eapply (complete_with_keeps _ (pn_completion p) (Ok ()))].
    + apply complete_with_keeps.
    + exact Hset.
Qed.

Lemma lives_ok w w' : lives w w' → WorldOk w → WorldOk w'.
Proof.
  intros Hl Hok. destruct Hl as [start s1 s2 i out lc d lc' d' Hp|p start s1 s2 i out lc d lc' d' Ht Ho Hp|thread owner w
    |error p w|p w|thread owner w|owner w|thread owner w|owner w Hd|a w d' Hl|g w Ha|thread owner w].
  - by eapply lifecycle_publish_world.
  - by eapply preparation_publish_world.
  - apply world_lifecycle; [apply reserve_keeps|done].
  - apply world_lifecycle; [apply preparation_fail_keeps|done].
  - apply world_lifecycle; [apply preparation_drop_keeps|done].
  - apply world_lifecycle; [apply begin_close_keeps|done].
  - apply world_lifecycle; [apply begin_disconnect_keeps|done].
  - apply world_lifecycle; [apply lifecycle_complete_keeps|done].
  - apply world_lifecycle; [|done]. apply forget_owner_keeps. unfold connection_closed in Hd. by inv_bool.
  - destruct w as [lc d]. by eapply lane_world.
  - destruct Hok as [[pairs Hp] Hs]. apply administers_same in Ha. split; simpl; [exists pairs; by eapply pairs_same|].
    by eapply (settled_same _ _ (settled _)).
  - destruct Hok as [[pairs Hp] Hs]. split; simpl; [exists pairs; by apply pairs_remove_view|done].
Qed.

(** The daemon before its first session *)
Definition Fresh w : Prop :=
  wo_lifecycle w = lifecycle_default ∧ vg_records (dm_views (wo_daemon w)) = ∅ ∧ vg_heap (dm_views (wo_daemon w)) = ∅ ∧
  sm_records (dm_management (wo_daemon w)) = ∅ ∧ sm_heap (dm_management (wo_daemon w)) = ∅.

Lemma fresh_ok w : Fresh w → WorldOk w.
Proof.
  intros (_ & Hr & Hh & Hr2 & Hh2). split; [exists ∅; constructor|]; intros *; rewrite ?Hr, ?Hh, ?Hr2, ?Hh2, ?lookup_empty;
    done.
Qed.

Lemma reached_ok w0 w : Fresh w0 → rtc lives w0 w → WorldOk w.
Proof. intros Hf Hr. apply fresh_ok in Hf. induction Hr as [|w w1 w2 Hs _ IH]; [done|]. by eapply IH, lives_ok. Qed.

(** What the two registries hold for one owner and thread agrees. *)
Lemma served_agree w thread owner b v a r :
  WorldOk w → owned (dm_views (wo_daemon w)) thread owner = Ok (b, v) →
  sm_records (dm_management (wo_daemon w)) !! thread = Some a → sm_heap (dm_management (wo_daemon w)) !! a = Some r →
  mr_owner r = owner → Agree v r ∧ ProjectionOk (mr_projection r).
Proof.
  intros [[pairs Hp] _] (Hb & Hv & Ho)%owned_Ok Ha Hr Hown.
  destruct (pk_record_key _ _ _ Hp _ _ Ha) as (r' & Hr' & Ht). simplify_eq.
  pose proof (pk_view _ _ _ Hp _ _ _ _ _ Hb Hv Hr eq_refl ltac:(congruence)) as Hpair.
  destruct (pk_agree _ _ _ Hp _ _ Hr) as (b' & v' & ? & ? & ? & ?). by simplify_eq.
Qed.
End lanes.
