(* ===== verification/NotifierLaws.v ===== *)
(** * The order of the notifications of a session

    Envelopes reach the notifier of a session in any order and more than once; what it
    releases is the log of the session without a hole, from the position where the
    subscription began. What reaches the transport is in order. Of what is released the
    queue may lose a part; the newest is lost only when two publications that found the
    queue full write the slot in the wrong order. *)

From S2P Require Import Prelude Protocol SessionViews SessionManagement ManagementProjection ManagementOps.

Section notifier.
(** The log of the session, the envelope of each position, and where the subscription
    begins. *)
Context (log : N → SessionEventEnvelopeV2) (from : N).
Hypothesis log_seq : ∀ i, cv_seq (ev2_cursor (log i)) = i.
Implicit Types (o : NotificationOrder) (n : ManagementNotifier) (next i : N) (received : gset N).

(** [count] envelopes of the log, from position [next] on *)
Fixpoint logged next (count : nat) : list SessionEventEnvelopeV2 :=
  match count with 0 => [] | S count => log next :: logged (next + 1) count end.

Lemma logged_app next j k : logged next (j + k) = logged next j ++ logged (next + N.of_nat j) k.
Proof.
  revert next. induction j as [|j IH]; intros next; simpl; [f_equal; lia|].
  rewrite IH. do 3 f_equal. lia.
Qed.

Lemma elem_of_logged next count e :
  e ∈ logged next count ↔ ∃ i, e = log i ∧ (next <= i < next + N.of_nat count)%N.
Proof.
  revert next. induction count as [|count IH]; intros next; simpl.
  { split; [by intros ?%elem_of_nil|]. intros (i & _ & ?). lia. }
  rewrite elem_of_cons, IH. split.
  - intros [->|(i & -> & ?)]; [exists next|exists i]; (split; [done|lia]).
  - intros (i & -> & ?). destruct (decide (i = next)) as [->|]; [by left|right]. exists i. split; [done|lia].
Qed.

Lemma last_logged next count : last (logged next (S count)) = Some (log (next + N.of_nat count)).
Proof. rewrite <-Nat.add_1_r, logged_app. simpl. by rewrite last_snoc. Qed.

#[local] Arguments logged : simpl never.

(** ** What is released *)

(** The position to release next; none at the end of the counter *)
Definition cursor_at next : option N := if (next <=? u64_max)%N then Some next else None.

Lemma checked_cursor next : checked_add next 1 = cursor_at (next + 1).
Proof. done. Qed.

Lemma drain_spec fuel next (pending : gmap N SessionEventEnvelopeV2) ready cursor pending' :
  drain fuel (cursor_at next) pending = (ready, cursor, pending') →
  (∀ i e, pending !! i = Some e → e = log i ∧ (next <= i)%N) → size pending < fuel →
  ∃ count, ready = logged next count ∧ cursor = cursor_at (next + N.of_nat count) ∧
    (∀ i e, pending' !! i = Some e → pending !! i = Some e ∧ (next + N.of_nat count <= i)%N) ∧
    (∀ i, (next + N.of_nat count <= i)%N → pending' !! i = pending !! i) ∧
    (∀ i, (next <= i < next + N.of_nat count)%N → is_Some (pending !! i)) ∧
    (next + N.of_nat count <= u64_max → pending' !! (next + N.of_nat count) = None)%N.
Proof.
  revert next pending ready cursor pending'.
  assert (∀ next (pending : gmap N SessionEventEnvelopeV2), (∀ i e, pending !! i = Some e → e = log i ∧ (next <= i)%N) →
    (next <= u64_max → pending !! next = None)%N →
    ∃ count, [] = logged next count ∧ cursor_at next = cursor_at (next + N.of_nat count) ∧
    (∀ i e, pending !! i = Some e → pending !! i = Some e ∧ (next + N.of_nat count <= i)%N) ∧
    (∀ i, (next + N.of_nat count <= i)%N → pending !! i = pending !! i) ∧
    (∀ i, (next <= i < next + N.of_nat count)%N → is_Some (pending !! i)) ∧
    (next + N.of_nat count <= u64_max → pending !! (next + N.of_nat count) = None)%N) as Hstop.
  { intros next pending Hp Hn. exists 0. rewrite N.add_0_r. split_and!; try done; [|lia].
    intros i e Hi. split; [done|]. by destruct (Hp _ _ Hi). }
  induction fuel as [|fuel IH]; intros next pending ready cursor pending' Hd Hp Hsz; [lia|].
  cbn [drain] in Hd. unfold cursor_at in Hd. destruct (N.leb_spec next u64_max) as [Hle|Hgt].
  2:{ injection Hd as <- <- <-. destruct (Hstop next pending Hp) as (c & Hc & Hn & ?); [lia|]. exists c.
      split; [done|]. split; [|done]. rewrite <-Hn. unfold cursor_at. by rewrite (proj2 (N.leb_gt _ _) Hgt). }
  destruct (pending !! next) as [e|] eqn:He.
  2:{ injection Hd as <- <- <-. destruct (Hstop next pending Hp) as (c & Hc & Hn & ?); [done|]. exists c.
      split; [done|]. split; [|done]. rewrite <-Hn. unfold cursor_at. by rewrite (proj2 (N.leb_le _ _) Hle). }
  destruct (drain fuel _ _) as [[ready1 next1] pending1] eqn:Hd1. injection Hd as <- <- <-.
  rewrite checked_cursor in Hd1. apply IH in Hd1 as (count & -> & -> & H1 & H2 & H3 & H4).
  - destruct (Hp _ _ He) as [-> _]. exists (S count).
    replace (next + N.of_nat (S count))%N with (next + 1 + N.of_nat count)%N by lia. split_and!; try done.
    + intros i e' Hi. destruct (H1 _ _ Hi) as [[_ ?]%lookup_delete_Some ?]. done.
    + intros i Hi. rewrite H2 by lia. by rewrite lookup_delete_ne by lia.
    + intros i Hi. destruct (decide (i = next)) as [->|Hne]; [by rewrite He|].
      rewrite <-(lookup_delete_ne pending next i) by done. apply H3. lia.
  - intros i e' [Hne Hi]%lookup_delete_Some. destruct (Hp _ _ Hi) as [-> ?]. split; [done|lia].
  - rewrite map_size_delete, He. assert (size pending ≠ 0) by (intros Hz; apply map_size_empty_inv in Hz; by subst). lia.
Qed.

(** The order of the subscription after it was given [received] and has released what
    comes before [next]. *)
Record OrderOk received next o : Prop := {
  oo_enabled : no_enabled o = true;
  oo_next : no_next_seq o = cursor_at next;
  oo_from : (from < next)%N;
  oo_pending i e : no_pending o !! i = Some e → e = log i ∧ (next <= i)%N ∧ i ∈ received;
  oo_waits : (next <= u64_max)%N → no_pending o !! next = None;
  oo_released i : (from < i < next)%N → i ∈ received;
  oo_kept i : i ∈ received → (next <= i)%N → is_Some (no_pending o !! i);
  oo_bound i : i ∈ received → (i <= u64_max)%N;
}.

Lemma activate_ok : OrderOk ∅ (from + 1) (activate order_default from).
Proof. constructor; simpl; try done; try lia; set_solver. Qed.

Lemma ordered_ok received next o i ready o' :
  OrderOk received next o → (i <= u64_max)%N → ordered o (log i) = (ready, o') →
  ∃ count, ready = logged next count ∧ OrderOk ({[i]} ∪ received) (next + N.of_nat count) o'.
Proof.
  intros [O1 O2 O3 O4 O5 O6 O7 O8] Hi Ho.
  assert ((i < next)%N → OrderOk ({[i]} ∪ received) (next + N.of_nat 0) o) as Hskip.
  { intros Hlt. rewrite N.add_0_r. constructor; try done.
    - intros j e Hj. destruct (O4 _ _ Hj) as (? & ? & ?). split_and!; [done..|set_solver].
    - intros j Hj. specialize (O6 _ Hj). set_solver.
    - intros j [->%elem_of_singleton|Hj]%elem_of_union ?; [lia|by apply O7].
    - intros j [->%elem_of_singleton|Hj]%elem_of_union; [done|by apply O8]. }
  unfold ordered in Ho. rewrite O1, log_seq in Ho. cbn [negb] in Ho.
  destruct (no_next_seq o) as [x|] eqn:Hx.
  2:{ injection Ho as <- <-. exists 0. split; [done|]. apply Hskip. unfold cursor_at in O2.
      destruct (N.leb_spec next u64_max); [done|lia]. }
  assert (x = next) as ->.
  { unfold cursor_at in O2. destruct (next <=? u64_max)%N; congruence. }
  destruct (N.ltb_spec i next) as [Hlt|Hge].
  { injection Ho as <- <-. exists 0. split; [done|]. by apply Hskip. }
  rewrite O2 in Ho.
  destruct (drain _ _ _) as [[ready1 next1] pending1] eqn:Hd. injection Ho as <- <-.
  apply drain_spec in Hd as (count & -> & -> & H1 & H2 & H3 & H4); [| |lia].
  2:{ intros j e [[<- <-]|[_ Hj]]%lookup_insert_Some; [done|]. by destruct (O4 _ _ Hj) as (? & ? & _). }
  exists count. split; [done|]. constructor; simpl; try done; try lia.
  - intros j e Hj. destruct (H1 _ _ Hj) as [[[<- <-]|[_ Hp]]%lookup_insert_Some ?]; [split_and!; [done..|set_solver]|].
    destruct (O4 _ _ Hp) as (? & ? & ?). split_and!; [done..|set_solver].
  - intros j Hj. destruct (N.lt_ge_cases j next) as [Hlt|Hge']; [specialize (O6 j ltac:(lia)); set_solver|].
    destruct (H3 j ltac:(lia)) as [e [[<- _]|[_ Hp]]%lookup_insert_Some]; [set_solver|].
    destruct (O4 _ _ Hp) as (_ & _ & ?). set_solver.
  - intros j Hj Hle. rewrite H2 by done. destruct (decide (j = i)) as [->|Hne]; [by rewrite lookup_insert_eq|].
    rewrite lookup_insert_ne by done. apply O7; [set_solver|lia].
  - set_solver.
Qed.

(** ** What reaches the transport *)

Definition wire_seqs n : list N := (λ e, cv_seq (ev2_cursor e)) <$> nt_wire n.

(** What a publication still holds *)
Definition held (p : Publisher) : list SessionEventEnvelopeV2 :=
  match p with
  | Entering _ _ => []
  | Publishing ready | Confirming _ ready | Awaiting _ ready => ready
  | Displaced fallback ready => fallback :: ready
  end.

(** The publication at [place] is about to replace a newer envelope of the slot. *)
Definition overtakes n (place : nat) : bool :=
  match nt_publishers n !! place, nt_latest n with
  | Some (Displaced fallback _), Some newer =>
      (cv_seq (ev2_cursor fallback) <? cv_seq (ev2_cursor newer))%N
  | _, _ => false
  end.

(** What the publications, the queue, its slot and the transport hold of the [count]
    released envelopes. *)
Record WireOk (overtaken : bool) (count : nat) n : Prop := {
  wo_held p e : p ∈ nt_publishers n → e ∈ held p → e ∈ logged (from + 1) count;
  wo_queue e : e ∈ nt_queue n → e ∈ logged (from + 1) count;
  wo_latest e : nt_latest n = Some e → e ∈ logged (from + 1) count;
  wo_wire e : e ∈ nt_wire n → e ∈ logged (from + 1) count;
  wo_upto e : e ∈ nt_wire n → (cv_seq (ev2_cursor e) <= nt_last_sent n)%N;
  wo_last : nt_last_sent n = 0%N ∨ ∃ e, e ∈ nt_wire n ∧ cv_seq (ev2_cursor e) = nt_last_sent n;
  wo_sorted : StronglySorted N.lt (wire_seqs n);
  wo_stopped : nt_stopped n = true → ∃ e, last (nt_wire n) = Some e ∧ is_closed_v2 e = true;
  wo_newest e : nt_stopped n = false → overtaken = false → last (logged (from + 1) count) = Some e →
    e ∈ nt_queue n ∨ nt_latest n = Some e ∨ e ∈ nt_wire n ∨ ∃ p, p ∈ nt_publishers n ∧ e ∈ held p;
}.

Lemma logged_more count k e : e ∈ logged (from + 1) count → e ∈ logged (from + 1) (count + k).
Proof. rewrite logged_app. intros ?. apply elem_of_app. by left. Qed.

Lemma logged_seq count e : e ∈ logged (from + 1) count → e = log (cv_seq (ev2_cursor e)) ∧ (from < cv_seq (ev2_cursor e))%N.
Proof. intros (i & -> & Hi)%elem_of_logged. rewrite log_seq. split; [done|lia]. Qed.

Lemma logged_newest count e x :
  e ∈ logged (from + 1) count → last (logged (from + 1) count) = Some x → (cv_seq (ev2_cursor e) <= cv_seq (ev2_cursor x))%N.
Proof.
  intros (i & -> & Hi)%elem_of_logged Hx. destruct count as [|count]; [done|].
  rewrite last_logged in Hx. injection Hx as <-. rewrite !log_seq. lia.
Qed.

(** ** A publication *)

(** A new call holds nothing yet. *)
Lemma wire_call overtaken count n envelope confirmed :
  WireOk overtaken count n →
  WireOk overtaken count (set_nt_publishers (nt_publishers n ++ [Entering envelope confirmed]) n).
Proof.
  intros [W0 W1 W2 W3 W4 W5 W6 W7 W8]. constructor; simpl; try done.
  - intros p e [Hp| ->%list_elem_of_singleton]%elem_of_app He; [by eapply W0|by apply elem_of_nil in He].
  - intros e Hs Ho Hl. destruct (W8 e Hs Ho Hl) as [?|[?|[?|(p & Hp & He)]]]; auto. do 3 right.
    exists p. split; [apply elem_of_app; by left|done].
Qed.

Lemma elem_of_place {A} (l : list A) place p q x :
  l !! place = Some p → x ∈ <[place := q]> l → x = q ∨ x ∈ l.
Proof.
  intros Hp [i Hi]%list_elem_of_lookup. destruct (decide (i = place)) as [->|Hne].
  - left. rewrite list_lookup_insert_eq in Hi by (by eapply lookup_lt_Some). by injection Hi.
  - right. rewrite list_lookup_insert_ne in Hi by done. by eapply list_elem_of_lookup_2.
Qed.
Lemma place_elem_of {A} (l : list A) place p q x :
  l !! place = Some p → x ∈ l → x = p ∨ x ∈ <[place := q]> l.
Proof.
  intros Hp [i Hi]%list_elem_of_lookup. destruct (decide (i = place)) as [->|Hne].
  - left. congruence.
  - right. apply (list_elem_of_lookup_2 _ i). by rewrite list_lookup_insert_ne.
Qed.

(** A publication moves on: what it held it still holds, or has given to the queue or the
    slot, or nobody listens any more. *)
Lemma wire_moves overtaken count n place p q queue latest :
  nt_publishers n !! place = Some p →
  (∀ e, e ∈ held q → e ∈ held p) → (∀ e, e ∈ queue → e ∈ nt_queue n ∨ e ∈ held p) →
  (∀ e, e ∈ nt_queue n → e ∈ queue) →
  (∀ e, latest = Some e → nt_latest n = Some e ∨ e ∈ held p) →
  (nt_stopped n = false → ∀ e, e ∈ held p → e ∈ held q ∨ e ∈ queue ∨ latest = Some e) →
  let overtaken' := overtaken || overtakes n place in
  (nt_stopped n = false → ∀ e newest, nt_latest n = Some e → latest = Some newest →
     (cv_seq (ev2_cursor e) <= cv_seq (ev2_cursor newest))%N ∨ overtakes n place = true) →
  (is_Some (nt_latest n) → is_Some latest) →
  WireOk overtaken count n →
  WireOk overtaken' count (set_nt_publishers (<[place := q]> (nt_publishers n)) (set_nt_latest latest (set_nt_queue queue n))).
Proof.
  intros Hp Hq Hqueue Hkeep Hlatest Hgive overtaken' Hover Hsome [W0 W1 W2 W3 W4 W5 W6 W7 W8].
  assert (∀ e, e ∈ held p → e ∈ logged (from + 1) count) as Hin.
  { intros e. apply W0. by eapply list_elem_of_lookup_2. }
  constructor; simpl; try done.
  - intros p' e Hp' He. apply (elem_of_place _ _ _ _ _ Hp) in Hp' as [->|Hp']; [by apply Hin, Hq|by eapply W0].
  - intros e [?|?]%Hqueue; auto.
  - intros e [?|?]%Hlatest; auto.
  - intros e Hs Ho Hl. subst overtaken'. apply orb_false_iff in Ho as [Ho Hno].
    destruct (W8 e Hs Ho Hl) as [Hin'|[Hlat|[?|(p' & Hp' & He)]]]; [by auto| |by auto|].
    + destruct latest as [newest|] eqn:Hn; [|destruct Hsome as [? [=]]; by eexists]. right; left.
      destruct (Hover Hs e newest Hlat eq_refl) as [Hle|]; [|congruence]. f_equal.
      assert (newest ∈ logged (from + 1) count) as Hnl by (destruct (Hlatest _ eq_refl); auto).
      pose proof (logged_newest _ _ _ Hnl Hl). destruct (logged_seq _ _ Hnl) as [Hn1 _], (logged_seq _ _ (W2 _ Hlat)) as [He1 _].
      rewrite Hn1, He1. f_equal. lia.
    + apply (place_elem_of _ _ _ q _ Hp) in Hp' as [->|Hp']; [|do 3 right; by exists p'].
      destruct (Hgive Hs e He) as [Hq'|[?|?]]; auto. do 3 right. exists q. split; [|done].
      apply (list_elem_of_lookup_2 _ place). rewrite list_lookup_insert_eq; [done|by eapply lookup_lt_Some].
Qed.

(** Entering: the log is released further, and the publication holds what is new. *)
Lemma wire_enters overtaken count k n place envelope confirmed q order :
  nt_publishers n !! place = Some (Entering envelope confirmed) → held q = logged (from + 1 + N.of_nat count) k →
  WireOk overtaken count n →
  WireOk overtaken (count + k) (set_nt_publishers (<[place := q]> (nt_publishers n)) (set_nt_order order n)).
Proof.
  intros Hp Hq [W0 W1 W2 W3 W4 W5 W6 W7 W8].
  assert (∀ e, e ∈ logged (from + 1) count → e ∈ logged (from + 1) (count + k)) as Hmore by (intros e; apply logged_more).
  constructor; simpl; try by eauto.
  - intros p' e Hp' He. apply (elem_of_place _ _ _ _ _ Hp) in Hp' as [->|Hp']; [|by eauto].
    rewrite Hq in He. rewrite logged_app. apply elem_of_app. by right.
  - intros e Hs Ho Hl. destruct k as [|k].
    + rewrite Nat.add_0_r in Hl. destruct (W8 e Hs Ho Hl) as [?|[?|[?|(p' & Hp' & He)]]]; auto.
      apply (place_elem_of _ _ _ q _ Hp) in Hp' as [->|Hp']; [by apply elem_of_nil in He|]. do 3 right. by exists p'.
    + do 3 right. exists q. split.
      * apply (list_elem_of_lookup_2 _ place). rewrite list_lookup_insert_eq; [done|by eapply lookup_lt_Some].
      * rewrite Hq. rewrite logged_app, last_app in Hl. rewrite last_logged in *.
        injection Hl as <-. apply elem_of_logged. eexists. split; [done|lia].
Qed.

(** ** The task *)

(** An envelope leaves the queue or the slot, [n'] being what stays. *)
Lemma wire_deliver overtaken count n n' e :
  WireOk overtaken count n → nt_stopped n = false → e ∈ logged (from + 1) count →
  nt_wire n' = nt_wire n → nt_last_sent n' = nt_last_sent n → nt_stopped n' = nt_stopped n → nt_publishers n' = nt_publishers n →
  (∀ x, x ∈ nt_queue n' → x ∈ nt_queue n) → (∀ x, nt_latest n' = Some x → nt_latest n = Some x) →
  (∀ x, x ∈ nt_queue n ∨ nt_latest n = Some x → x = e ∨ x ∈ nt_queue n' ∨ nt_latest n' = Some x) →
  WireOk overtaken count (deliver_v2 n' e).
Proof.
  intros [W0 W1 W2 W3 W4 W5 W6 W7 W8] Hrun He Hwire Hlast Hrun' Hpub Hq Hl Hall.
  destruct (logged_seq _ _ He) as [_ Hfrom]. unfold deliver_v2. rewrite Hlast.
  destruct (N.leb_spec (cv_seq (ev2_cursor e)) (nt_last_sent n)) as [Hle|Hgt].
  - constructor; unfold wire_seqs in *; rewrite ?Hwire, ?Hlast, ?Hrun', ?Hpub; auto. intros x _ Hno Hx.
    assert (x = e → e ∈ nt_wire n) as Hsent.
    { intros ->. destruct W5 as [|(y & Hy & Hs)]; [lia|]. pose proof (logged_newest _ _ _ (W3 _ Hy) Hx).
      destruct (logged_seq _ _ He) as [-> _]. destruct (logged_seq _ _ (W3 _ Hy)) as [Hy' _].
      replace (cv_seq (ev2_cursor e)) with (cv_seq (ev2_cursor y)) by lia. by rewrite <-Hy'. }
    destruct (W8 x Hrun Hno Hx) as [Hin|[Hin|Hin]]; [| |by auto].
    + destruct (Hall x (or_introl Hin)) as [->|[?|?]]; auto.
    + destruct (Hall x (or_intror Hin)) as [->|[?|?]]; auto.
  - constructor; simpl; unfold wire_seqs in *; simpl; rewrite ?Hwire, ?Hpub; auto.
    + intros x [?| ->%list_elem_of_singleton]%elem_of_app; auto.
    + intros x [Hx| ->%list_elem_of_singleton]%elem_of_app; [|lia]. specialize (W4 _ Hx). lia.
    + right. exists e. split; [|done]. apply elem_of_app. right. by left.
    + rewrite fmap_app. apply StronglySorted_app_2; [|done|by repeat constructor].
      intros a b (x & -> & Hx)%list_elem_of_fmap Hb%list_elem_of_singleton. specialize (W4 _ Hx). subst b. lia.
    + intros Hc. exists e. by rewrite last_snoc.
    + intros x Hc Hno Hx. rewrite elem_of_app.
      destruct (W8 x Hrun Hno Hx) as [Hin|[Hin|[Hin|Hin]]]; [| |by auto|by auto].
      * destruct (Hall x (or_introl Hin)) as [->|[?|?]]; auto. do 2 right. left. right. by left.
      * destruct (Hall x (or_intror Hin)) as [->|[?|?]]; auto. do 2 right. left. right. by left.
Qed.

(** What the task still has to do *)
Definition pending_work n : nat := length (nt_queue n) + (if nt_latest n then 1 else 0).

Lemma deliver_work n e : pending_work (deliver_v2 n e) = pending_work n.
Proof. unfold deliver_v2. by destruct (_ <=? _)%N. Qed.

Lemma wire_poll overtaken count n : WireOk overtaken count n →
  WireOk overtaken count (notifier_poll n) ∧
  (nt_stopped n = true ∨ pending_work n = 0 ∨ S (pending_work (notifier_poll n)) = pending_work n).
Proof.
  intros Hw. unfold notifier_poll. destruct (nt_stopped n) eqn:Hs; [by auto|].
  destruct (nt_queue n) as [|e rest] eqn:Hq.
  - destruct (nt_latest n) as [e|] eqn:Hl; [|split; [done|]; unfold pending_work; rewrite Hq, Hl; by auto].
    split; [eapply wire_deliver; try done; simpl; [by eapply wo_latest|]|].
    + intros x [Hx|Hx]; [by rewrite Hq in Hx; apply elem_of_nil in Hx|]. left. congruence.
    + rewrite deliver_work. unfold pending_work. simpl. rewrite Hq, Hl. by auto.
  - split; [eapply wire_deliver; try done; simpl|].
    + apply (wo_queue _ _ _ Hw). rewrite Hq. by left.
    + intros x Hx. rewrite Hq. by right.
    + intros x [Hx|Hx]; [rewrite Hq in Hx; apply elem_of_cons in Hx as [->|Hx]; auto|by auto].
    + rewrite deliver_work. unfold pending_work. simpl. rewrite Hq. by auto.
Qed.

Lemma wire_polls overtaken count k n : WireOk overtaken count n →
  WireOk overtaken count (Nat.iter k notifier_poll n) ∧
  (nt_stopped (Nat.iter k notifier_poll n) = true ∨ pending_work (Nat.iter k notifier_poll n) <= pending_work n - k).
Proof.
  intros Hw. induction k as [|k [IH Hk]]; simpl; [split; [done|right; lia]|].
  destruct (wire_poll _ _ _ IH) as [Hp Hwork]. split; [done|].
  destruct Hk as [Hk|Hk].
  - left. unfold notifier_poll at 1. by rewrite Hk.
  - destruct Hwork as [Hs|[Hz|Hd]]; [left; unfold notifier_poll at 1; by rewrite Hs| |right; lia].
    right. unfold notifier_poll at 1. destruct (nt_stopped _); [lia|]. unfold pending_work in Hz.
    destruct (nt_queue (Nat.iter k notifier_poll n)) eqn:Hq; [|simpl in Hz; lia].
    destruct (nt_latest (Nat.iter k notifier_poll n)) eqn:Hl; [simpl in Hz; lia|]. unfold pending_work. rewrite Hq, Hl. simpl. lia.
Qed.

(** Once every publication has returned and the task has caught up, the newest envelope
    has been sent, or the session is closed. *)
Lemma caught_up overtaken count n :
  WireOk overtaken count n → overtaken = false → Forall (λ p, returned p = true) (nt_publishers n) →
  nt_stopped n = true ∨ pending_work n = 0 →
  last (nt_wire n) = last (logged (from + 1) count) ∨ ∃ e, last (nt_wire n) = Some e ∧ is_closed_v2 e = true.
Proof.
  intros [W0 W1 W2 W3 W4 W5 W6 W7 W8] Hno Hret Hdone. destruct (nt_stopped n) eqn:Hs; [right; by auto|left].
  destruct Hdone as [|Hz]; [done|]. unfold pending_work in Hz.
  destruct (nt_queue n) eqn:Hq; [|simpl in Hz; lia]. destruct (nt_latest n) eqn:Hl; [simpl in Hz; lia|].
  destruct (last (logged (from + 1) count)) as [x|] eqn:Hx.
  - assert (x ∈ nt_wire n) as Hin.
    { destruct (W8 x eq_refl Hno eq_refl) as [Hin|[|[?|(p & Hp & He)]]]; [by apply elem_of_nil in Hin|done|done|].
      rewrite Forall_forall in Hret. specialize (Hret _ Hp).
      destruct p as [|[]| |? []|]; simpl in *; simplify_eq; by apply elem_of_nil in He. }
    destruct (last (nt_wire n)) as [y|] eqn:Hy; [|apply last_None in Hy; rewrite Hy in Hin; by apply elem_of_nil in Hin].
    f_equal. apply last_Some in Hy as [pre Hpre].
    assert (y ∈ nt_wire n) as Hyw by (rewrite Hpre; apply elem_of_app; right; by left).
    pose proof (logged_newest _ _ _ (W3 _ Hyw) Hx) as Hle. unfold wire_seqs in W6. rewrite Hpre, fmap_app in W6.
    rewrite Hpre in Hin. apply elem_of_app in Hin as [Hin|Hin%list_elem_of_singleton]; [|done].
    assert (cv_seq (ev2_cursor x) < cv_seq (ev2_cursor y))%N; [|lia].
    eapply StronglySorted_app_1_elem_of; [exact W6| |by left].
    apply (list_elem_of_fmap_2 (λ e, cv_seq (ev2_cursor e)) _ _ Hin).
  - apply last_None in Hx. destruct (nt_wire n) as [|y l] eqn:Hwire; [done|].
    assert (y ∈ logged (from + 1) count) as Hy by (apply W3; by left). rewrite Hx in Hy. by apply elem_of_nil in Hy.
Qed.

Lemma poll_publishers n : nt_publishers (notifier_poll n) = nt_publishers n.
Proof.
  unfold notifier_poll, deliver_v2. destruct (nt_stopped n); [done|]. destruct (nt_queue n); simpl.
  - destruct (nt_latest n); [|done]. by destruct (_ <=? _)%N.
  - by destruct (_ <=? _)%N.
Qed.
Lemma poll_order n : nt_order (notifier_poll n) = nt_order n.
Proof.
  unfold notifier_poll, deliver_v2. destruct (nt_stopped n); [done|]. destruct (nt_queue n); simpl.
  - destruct (nt_latest n); [|done]. by destruct (_ <=? _)%N.
  - by destruct (_ <=? _)%N.
Qed.

(** ** A subscription and what happens to its notifier *)

(** The notifier, the positions that [ordered] was given, and whether a publication has
    replaced a newer envelope of the slot. *)
Record Notification := { nn_notifier : ManagementNotifier; nn_received : gset N; nn_overtaken : bool }.

Definition entering n (place : nat) : gset N :=
  match nt_publishers n !! place with
  | Some (Entering envelope _) => {[cv_seq (ev2_cursor envelope)]} | _ => ∅
  end.

(** Envelopes of the log are published, with or without confirmation, the publications
    move on one step at a time, and the task takes its turns, in any order. *)
Inductive notified : Notification → Notification → Prop :=
  | notified_publish i x :
      (i <= u64_max)%N →
      notified x {| nn_notifier := notifier_publish (nn_notifier x) (log i); nn_received := nn_received x;
                    nn_overtaken := nn_overtaken x |}
  | notified_confirmed i x :
      (i <= u64_max)%N →
      notified x {| nn_notifier := publish_confirmed (nn_notifier x) (log i); nn_received := nn_received x;
                    nn_overtaken := nn_overtaken x |}
  | notified_step place n' x :
      notifier_step (nn_notifier x) place = Some n' →
      notified x {| nn_notifier := n'; nn_received := entering (nn_notifier x) place ∪ nn_received x;
                    nn_overtaken := nn_overtaken x || overtakes (nn_notifier x) place |}
  | notified_poll x :
      notified x {| nn_notifier := notifier_poll (nn_notifier x); nn_received := nn_received x;
                    nn_overtaken := nn_overtaken x |}.

(** The notifier when the subscription begins. *)
Definition subscribed : Notification :=
  {| nn_notifier := set_nt_order (activate order_default from) notifier_new; nn_received := ∅; nn_overtaken := false |}.

Record NotifierOk count (x : Notification) : Prop := {
  no_order_ok : OrderOk (nn_received x) (from + 1 + N.of_nat count) (nt_order (nn_notifier x));
  no_wire_ok : WireOk (nn_overtaken x) count (nn_notifier x);
  no_calls p envelope confirmed : p ∈ nt_publishers (nn_notifier x) → p = Entering envelope confirmed →
    ∃ i, envelope = log i ∧ (i <= u64_max)%N;
}.

Lemma subscribed_ok : NotifierOk 0 subscribed.
Proof.
  constructor; simpl; [| |by intros p ? ? ?%elem_of_nil].
  - rewrite N.add_0_r. apply activate_ok.
  - constructor; simpl; try done; try set_solver. unfold wire_seqs. simpl. constructor.
Qed.

Lemma call_ok count (x : Notification) i confirmed :
  (i <= u64_max)%N → NotifierOk count x →
  NotifierOk count {| nn_notifier := set_nt_publishers (nt_publishers (nn_notifier x) ++ [Entering (log i) confirmed]) (nn_notifier x);
                      nn_received := nn_received x; nn_overtaken := nn_overtaken x |}.
Proof.
  intros Hi [Ho Hw Hc]. constructor; simpl; [done|by apply wire_call|].
  intros p envelope c [Hp| ->%list_elem_of_singleton]%elem_of_app; [by apply Hc|]. intros [= <- <-]. by exists i.
Qed.

Lemma step_publishers n place p q envelope confirmed :
  nt_publishers n !! place = Some p → (∀ e c, q ≠ Entering e c) →
  Entering envelope confirmed ∈ <[place := q]> (nt_publishers n) → Entering envelope confirmed ∈ nt_publishers n.
Proof. intros Hp Hq [Heq|Hin]%(elem_of_place _ _ _ _ _ Hp); [by destruct (Hq envelope confirmed)|done]. Qed.

(** The sides of a move: the new queue and slot, and what is held *)
Ltac moved Hmove queue latest n :=
  eapply (Hmove queue latest);
  first [done | by destruct n | by left | by right; eexists _, _ | by case_bool_decide
        | case_bool_decide; simpl; set_solver | simpl; set_solver].

(** The steps of a publication past its entrance *)
Lemma publisher_moves overtaken count n place p n' q :
  nt_publishers n !! place = Some p → (∀ e c, p ≠ Entering e c) → publisher_step n p = Some (n', q) →
  WireOk overtaken count n →
  WireOk (overtaken || overtakes n place) count (set_nt_publishers (<[place := q]> (nt_publishers n')) n')
  ∧ nt_order n' = nt_order n ∧ nt_publishers n' = nt_publishers n ∧ ∀ e c, q ≠ Entering e c.
Proof.
  intros Hp Hne Hs Hw.
  assert (∀ queue latest,
    n' = set_nt_latest latest (set_nt_queue queue n) →
    (∀ e, e ∈ held q → e ∈ held p) → (∀ e, e ∈ queue → e ∈ nt_queue n ∨ e ∈ held p) → (∀ e, e ∈ nt_queue n → e ∈ queue) →
    (latest = nt_latest n ∨ ∃ fallback ready, p = Displaced fallback ready ∧ latest = Some fallback) →
    (nt_stopped n = false → ∀ e, e ∈ held p → e ∈ held q ∨ e ∈ queue ∨ latest = Some e) → (∀ e c, q ≠ Entering e c) →
    WireOk (overtaken || overtakes n place) count (set_nt_publishers (<[place := q]> (nt_publishers n')) n')
    ∧ nt_order n' = nt_order n ∧ nt_publishers n' = nt_publishers n ∧ ∀ e c, q ≠ Entering e c) as Hmove.
  { intros queue latest -> Hq Hqueue Hkeep Hlatest Hgive Hent. split_and!; [|done..].
    apply (wire_moves overtaken count n place p q queue latest); try done.
    - intros e He. destruct Hlatest as [->|(f & r & -> & ->)]; [by left|]. injection He as ->. right. by left.
    - intros _ e newest He Hn. destruct Hlatest as [->|(f & r & -> & ->)]; [left; by simplify_eq|].
      injection Hn as ->. unfold overtakes. rewrite Hp, He. destruct (N.ltb_spec (cv_seq (ev2_cursor newest)) (cv_seq (ev2_cursor e))); [by right|by left].
    - intros Hl. by destruct Hlatest as [->|(f & r & _ & ->)]. }
  destruct p as [e c|[|e ready]|fallback ready|confirmed [|e ready]|confirmed ready]; simpl in Hs; try done.
  - by destruct (Hne e c).
  - destruct (nt_stopped n) eqn:Hstop; [|destruct (queue_full n)]; injection Hs as <- <-.
    + moved Hmove (nt_queue n) (nt_latest n) n.
    + moved Hmove (nt_queue n) (nt_latest n) n.
    + moved Hmove (nt_queue n ++ [e]) (nt_latest n) n.
  - injection Hs as <- <-. moved Hmove (nt_queue n) (Some fallback) n.
  - destruct (nt_stopped n) eqn:Hstop; [|destruct (queue_full n); [done|]]; injection Hs as <- <-.
    + moved Hmove (nt_queue n) (nt_latest n) n.
    + moved Hmove (nt_queue n ++ [e]) (nt_latest n) n.
  - destruct (negb _ && _); [done|]. injection Hs as <- <-. moved Hmove (nt_queue n) (nt_latest n) n.
Qed.

Lemma notified_ok count x x' : notified x x' → NotifierOk count x → ∃ k, NotifierOk (count + k) x'.
Proof.
  intros Hs Hok. inversion Hs as [i ? Hi|i ? Hi|place n' ? Hstep|]; subst.
  - exists 0. rewrite Nat.add_0_r. by apply call_ok.
  - exists 0. rewrite Nat.add_0_r. by apply call_ok.
  - destruct Hok as [Ho Hw Hc]. unfold notifier_step in Hstep.
    destruct (nt_publishers (nn_notifier x) !! place) as [p|] eqn:Hp; [|done]. simpl in Hstep.
    destruct (publisher_step (nn_notifier x) p) as [[n1 q]|] eqn:Hq; [|done]. injection Hstep as <-.
    assert (∀ n, nt_publishers n = nt_publishers (nn_notifier x) → (∀ e c, q ≠ Entering e c) →
      ∀ p' envelope confirmed, p' ∈ <[place := q]> (nt_publishers n) → p' = Entering envelope confirmed →
      ∃ i, envelope = log i ∧ (i <= u64_max)%N) as Hcalls.
    { intros n Hn Hent p' envelope c Hp' ->. rewrite Hn in Hp'. eapply Hc; [|done]. by eapply step_publishers. }
    destruct p as [envelope confirmed| | | |] eqn:Hpe.
    + destruct (Hc _ envelope confirmed (list_elem_of_lookup_2 _ _ _ Hp) eq_refl) as (i & -> & Hi).
      simpl in Hq. destruct (ordered _ _) as [ready order] eqn:Hr. injection Hq as <- <-.
      destruct (ordered_ok _ _ _ _ _ _ Ho Hi Hr) as (k & -> & Ho'). exists k. constructor; simpl.
      * unfold entering. rewrite Hp, log_seq. by replace (from + 1 + N.of_nat (count + k))%N with (from + 1 + N.of_nat count + N.of_nat k)%N by lia.
      * assert (overtakes (nn_notifier x) place = false) as -> by (unfold overtakes; by rewrite Hp). rewrite orb_false_r.
        eapply (wire_enters _ count k (nn_notifier x) place (log i) confirmed _ order); [done|by destruct confirmed|done].
      * apply (Hcalls (nn_notifier x)); [done|]. by destruct confirmed.
    + exists 0; rewrite Nat.add_0_r; destruct (publisher_moves _ _ _ _ _ _ _ Hp ltac:(done) Hq Hw) as (Hw' & Hord & Hpub & Hent);
        constructor; simpl; [unfold entering; rewrite Hp, union_empty_l_L, Hord|done|by apply Hcalls]; done.
    + exists 0; rewrite Nat.add_0_r; destruct (publisher_moves _ _ _ _ _ _ _ Hp ltac:(done) Hq Hw) as (Hw' & Hord & Hpub & Hent);
        constructor; simpl; [unfold entering; rewrite Hp, union_empty_l_L, Hord|done|by apply Hcalls]; done.
    + exists 0; rewrite Nat.add_0_r; destruct (publisher_moves _ _ _ _ _ _ _ Hp ltac:(done) Hq Hw) as (Hw' & Hord & Hpub & Hent);
        constructor; simpl; [unfold entering; rewrite Hp, union_empty_l_L, Hord|done|by apply Hcalls]; done.
    + exists 0; rewrite Nat.add_0_r; destruct (publisher_moves _ _ _ _ _ _ _ Hp ltac:(done) Hq Hw) as (Hw' & Hord & Hpub & Hent);
        constructor; simpl; [unfold entering; rewrite Hp, union_empty_l_L, Hord|done|by apply Hcalls]; done.
  - destruct Hok as [Ho Hw Hc]. exists 0. rewrite Nat.add_0_r.
    constructor; simpl; [by rewrite poll_order|by apply wire_poll|by rewrite poll_publishers].
Qed.

Lemma notified_reach x : rtc notified subscribed x → ∃ count, NotifierOk count x.
Proof.
  intros Hr. eapply (rtc_ind_r (λ x, ∃ count, NotifierOk count x) subscribed); [| |done].
  - exists 0. apply subscribed_ok.
  - intros x1 x2 _ Hs [count Hok]. destruct (notified_ok _ _ _ Hs Hok) as [k ?]. by eexists.
Qed.

(** What has been released is what has arrived without a hole. *)
Lemma released_exactly count x i :
  NotifierOk count x → (from < i)%N →
  (i < from + 1 + N.of_nat count)%N ↔ ∀ j, (from < j <= i)%N → j ∈ nn_received x.
Proof.
  intros [[O1 O2 O3 O4 O5 O6 O7 O8] _ _] Hi. split.
  - intros Hlt j Hj. apply O6. lia.
  - intros Hall. destruct (N.lt_ge_cases i (from + 1 + N.of_nat count)) as [|Hge]; [done|].
    assert (from + 1 + N.of_nat count ∈ nn_received x)%N as Hin by (apply Hall; lia).
    destruct (O7 _ Hin) as [e He]; [lia|]. rewrite O5 in He; [done|]. by apply O8.
Qed.
End notifier.

(** A publication that cannot move waits for work that the task still has. *)
Lemma publication_waits_for_task n place p :
  nt_publishers n !! place = Some p → returned p = false → notifier_step n place = None →
  nt_stopped n = false ∧ nt_queue n ≠ [].
Proof.
  unfold notifier_step. intros -> Hr Hs. simpl in Hs.
  destruct p as [e c|[|e ready]|fallback ready|confirmed [|e ready]|confirmed ready]; simpl in *; try done.
  - by destruct (ordered _ _).
  - by repeat case_match.
  - destruct (nt_stopped n); [done|]. destruct (queue_full n) eqn:Hf; [|done]. split; [done|].
    unfold queue_full in Hf. apply bool_decide_eq_true in Hf. intros Hq. rewrite Hq in Hf. simpl in Hf. unfold DEFAULT_NOTIFICATION_QUEUE in Hf. lia.
  - destruct (nt_stopped n); simpl in *; [done|]. split; [done|]. intros Hq. by rewrite Hq in Hs.
Qed.
