(* ===== verification/CatalogLaws.v ===== *)
(** * Reading the catalog page by page

    A page of the catalog is a prefix of the owner's sessions in a range of ordinals,
    which its cursor continues; a client that reads to the end, while sessions come and
    go, sees every session that was there all the time, once and in order. *)

From S2P Require Import Prelude Protocol SessionViews ViewJournal SessionManagement SessionCatalog HistoryArchive ManagementProjection ManagementOps.

Section catalog.
Context `{Externals} `{ManagementExternals} `{CodecLaws} `{!Serde ListCursorClaims, !SerdeLaws ListCursorClaims}.
Implicit Types (g : SessionManagementRegistry) (codec : CursorCodec) (entry : SessionListEntry).

(** ** The ordinals of a catalog *)

#[local] Instance ordinal_le_trans : Transitive ordinal_le.
Proof. intros x y z. unfold ordinal_le. lia. Qed.
#[local] Instance ordinal_le_total : Total ordinal_le.
Proof. intros x y. unfold ordinal_le. lia. Qed.

Lemma ordinal_iter_lookup (m : gmap N string) o t : (o, t) ∈ ordinal_iter m ↔ m !! o = Some t.
Proof. unfold ordinal_iter. rewrite merge_sort_Permutation. apply elem_of_map_to_list. Qed.

(** Lists in strict order of their first components *)
Definition ascending {A} (l : list (N * A)) : Prop := StronglySorted N.lt l.*1.

Lemma ordinal_iter_ascending (m : gmap N string) : ascending (ordinal_iter m).
Proof.
  assert (StronglySorted ordinal_le (ordinal_iter m)) as Hs by apply (StronglySorted_merge_sort _).
  assert (NoDup (ordinal_iter m).*1) as Hn.
  { unfold ordinal_iter. rewrite merge_sort_Permutation. apply NoDup_fst_map_to_list. }
  unfold ascending. induction Hs as [|x l Hs IH Hf]; csimpl in *; [constructor|].
  apply NoDup_cons in Hn as [Hx Hn]. constructor; [by apply IH|]. apply Forall_fmap.
  eapply Forall_impl; [apply Forall_and; split; [exact Hf|]|].
  - apply Forall_forall. intros y Hy. exact (λ He : x.1 = y.1, Hx (eq_ind_r (λ z, z ∈ l.*1) (list_elem_of_fmap_2 fst _ _ Hy) He)).
  - intros y [Hle Hne]. unfold ordinal_le in Hle. simpl. lia.
Qed.

Lemma ascending_app {A} (l k : list (N * A)) x y : ascending (l ++ k) → x ∈ l → y ∈ k → (x.1 < y.1)%N.
Proof.
  unfold ascending. rewrite fmap_app. intros Hs Hx Hy.
  eapply StronglySorted_app_1_elem_of; [exact Hs|by apply list_elem_of_fmap_2..].
Qed.
Lemma ascending_omap {A B} (f : N * A → option (N * B)) l :
  (∀ x y, f x = Some y → y.1 = x.1) → ascending l → ascending (omap f l).
Proof.
  intros Hf. unfold ascending. induction l as [|x l IH]; csimpl; [done|]. intros [Hs Hx]%StronglySorted_inv.
  specialize (IH Hs). destruct (f x) as [y|] eqn:Hy; [|done]. csimpl. constructor; [done|].
  rewrite (Hf _ _ Hy). apply Forall_fmap, Forall_forall. intros z (x' & Hx' & Hz)%list_elem_of_omap. simpl.
  rewrite (Hf _ _ Hz). rewrite Forall_forall in Hx. by apply Hx, list_elem_of_fmap_2.
Qed.
Lemma filter_omap {A} (p : A → bool) l : List.filter p l = omap (λ x, if p x then Some x else None) l.
Proof. induction l as [|x l IH]; simpl; [done|]. rewrite IH. by destruct (p x). Qed.

(** ** What a registry lists *)

(** The registry and the catalog of the owner that a request is served from. *)
Definition served (owner : string) (now : N) g : SessionManagementRegistry * OwnerCatalogState :=
  let g := prune_owner owner None now g in
  (snd (owner_catalog owner g), default catalog_default (sm_owners g !! owner)).

(** The entry that the owner is shown at an ordinal. *)
Definition listed (owner : string) (now : N) g (ordinal : N) entry : Prop :=
  ∃ thread, oc_entries (served owner now g).2 !! ordinal = Some thread ∧
    list_candidate (served owner now g).1 owner (ordinal, thread) = Some (ordinal, entry).

Definition candidates g (catalog : OwnerCatalogState) (owner : string) (after through : N) : list (N * SessionListEntry) :=
  omap (list_candidate g owner) (List.filter (in_range after through) (ordinal_iter (oc_entries catalog))).

Lemma list_candidate_ordinal g owner x y : list_candidate g owner x = Some y → y.1 = x.1.
Proof.
  unfold list_candidate. intros Hc. destruct (sm_records g !! x.2) as [a|]; [|done]. simpl in Hc.
  destruct (sm_heap g !! a) as [r|]; [|done]. simpl in Hc. destruct (_ == _); [|done]. by injection Hc as <-.
Qed.

Lemma candidates_ascending g catalog owner after through : ascending (candidates g catalog owner after through).
Proof.
  unfold candidates. rewrite filter_omap. apply ascending_omap; [apply list_candidate_ordinal|].
  apply ascending_omap; [|apply ordinal_iter_ascending]. intros x y. destruct (in_range _ _ _); congruence.
Qed.

Lemma elem_of_candidates owner now g after through o entry :
  (o, entry) ∈ candidates (served owner now g).1 (served owner now g).2 owner after through
  ↔ (after < o <= through)%N ∧ listed owner now g o entry.
Proof.
  unfold candidates, listed. rewrite list_elem_of_omap. setoid_rewrite list_elem_of_In. setoid_rewrite filter_In.
  setoid_rewrite <-list_elem_of_In. unfold in_range. split.
  - intros ([o' t] & [Ht Hr] & Hc). pose proof (list_candidate_ordinal _ _ _ _ Hc) as Ho. simpl in *. subst o'.
    apply ordinal_iter_lookup in Ht. inv_bool. split; [lia|]. by exists t.
  - intros [Hr (t & Ht & Hc)]. exists (o, t). split; [|done]. split; [by apply ordinal_iter_lookup|]. simpl. prove_bool.
Qed.

(** ** One page *)

Section page.
Context (codec : CursorCodec) (now : N) (owner : string) (generation through : N) (entries : list (N * string)).

(** What the cursor of a page says: go on after [upto], as long as there is more. *)
Definition continues (upto : N) (cursor : option string) : Prop :=
  match cursor with
  | None => more_after entries upto through = false
  | Some token => validate_token token "Session list cursor" = Ok () ∧
      codec_decode codec LIST_CURSOR_DOMAIN owner token =
        Some (ListCursorClaims_new generation upto through (now + SESSION_MANAGEMENT_CURSOR_TTL_MS))
  end.

Lemma list_cursor_continues upto token :
  list_cursor codec now owner generation upto through = Ok token → continues upto (Some token).
Proof.
  unfold list_cursor, expiry, SessionListCursor_new. intros Hl. inv_result.
  split; [by eapply token_valid|by eapply decode_encode].
Qed.

Lemma list_loop_spec cs sessions upto result sessions' upto' result' :
  list_loop codec now owner generation through entries cs sessions upto result = Ok (sessions', upto', result') →
  lr_sessions result = sessions → (sessions ≠ [] → continues upto (lr_next_cursor result)) →
  ∃ pre post, cs = pre ++ post ∧ sessions' = sessions ++ pre.*2 ∧ upto' = default upto (last pre.*1) ∧
    lr_sessions result' = sessions' ∧ (sessions' ≠ [] → continues upto' (lr_next_cursor result')) ∧
    (sessions' = [] → cs = []).
Proof.
  revert sessions upto result. induction cs as [|[o entry] cs IH]; intros sessions upto result Hl Hr Hc; simpl in Hl.
  { injection Hl as <- <- <-. exists [], []. simpl. rewrite app_nil_r. by split_and!. }
  apply bind_Ok in Hl as (next & Hnext & Hl). apply bind_Ok in Hl as (n & Hn & Hl).
  destruct (_ <? n)%N.
  - destruct sessions as [|x sessions]; [done|]. injection Hl as <- <- <-. exists [], ((o, entry) :: cs). simpl.
    rewrite app_nil_r. by split_and!.
  - apply IH in Hl as (pre & post & -> & -> & -> & H1' & H2' & H3'); [|done|].
    + exists ((o, entry) :: pre), post. rewrite <-app_assoc in *. csimpl in *. split_and!; try done.
      * rewrite last_cons. by destruct (last pre.*1).
      * by destruct sessions.
    + intros _. simpl. destruct (more_after entries o through) eqn:Hm; [|by inv_result].
      destruct (list_cursor _ _ _ _ _ _) as [token|] eqn:Ht; [|done].
      injection Hnext as <-. by apply list_cursor_continues.
Qed.
End page.

Lemma more_after_false entries after through o thread :
  more_after entries after through = false → (o, thread) ∈ entries → (after < o <= through)%N → False.
Proof.
  intros Hm Hin Ho. unfold more_after in Hm. enough (existsb (in_range after through) entries = true) by congruence.
  apply existsb_exists. exists (o, thread). split; [by apply list_elem_of_In|]. unfold in_range. simpl. prove_bool.
Qed.

(** A page continues where its request says and lists a prefix of what there is. *)
Record CatalogPage (codec : CursorCodec) (owner : string) (now : N) g (after through : N) (r : ListSessionsResult) : Prop := {
  cp_pages : ∃ pre post, candidates (served owner now g).1 (served owner now g).2 owner after through = pre ++ post ∧
    lr_sessions r = pre.*2 ∧
    match lr_next_cursor r with
    | None => post = []
    | Some token => ∃ upto generation, last pre.*1 = Some upto ∧
        validate_token token "Session list cursor" = Ok () ∧
        codec_decode codec LIST_CURSOR_DOMAIN owner token =
          Some (ListCursorClaims_new generation upto through (now + SESSION_MANAGEMENT_CURSOR_TTL_MS))
    end;
}.

Lemma list_page_spec owner params claims now g r generation after through :
  (0 < ls_limit params)%N →
  list_window (served owner now g).2 claims = Ok (generation, after, through) →
  list_page (served owner now g).1 (served owner now g).2 owner params claims now = Ok r →
  CatalogPage (sm_codec (served owner now g).1) owner now g after through r.
Proof.
  intros Hlim Hw Hp. unfold list_page in Hp. rewrite Hw in Hp.
  apply bind_Ok in Hp as ([] & _ & Hp). cbn [mbind result_bind] in Hp.
  apply bind_Ok in Hp as ([[sessions upto] result] & Hl & Hp). apply bind_Ok in Hp as (result' & Hr & Hp).
  apply bind_Ok in Hp as ([] & _ & [= ->]).
  pose proof (list_loop_spec _ _ _ _ _ _ _ _ _ _ _ _ _ Hl eq_refl ltac:(done)) as (pre & post & Hcs & Hs & Hu & Hrs & Hc & Hnil).
  clear Hl. fold (candidates (served owner now g).1 (served owner now g).2 owner after through) in Hcs, Hnil.
  set (cs := candidates _ _ _ _ _) in *. simpl in Hs. subst sessions.
  assert (cs = pre ++ post ++ drop (N.to_nat (ls_limit params)) cs) as Hall.
  { rewrite app_assoc, <-Hcs. by rewrite take_drop. }
  constructor. exists pre, (post ++ drop (N.to_nat (ls_limit params)) cs). split; [done|].
  destruct pre as [|x pre].
  { simpl in Hr. injection Hr as <-. split; [done|]. simpl. specialize (Hnil eq_refl).
    rewrite Hcs in Hnil. simpl in Hnil. rewrite Hnil. simpl.
    destruct cs; [by rewrite drop_nil|]. destruct (N.to_nat (ls_limit params)) eqn:?; [lia|]. simpl in Hcs. by rewrite Hnil in Hcs. }
  assert (∃ last_, last (x :: pre).*1 = Some last_) as [last_ Hlast].
  { destruct (last (x :: pre).*1) eqn:Hl; [by eexists|]. by apply last_None in Hl. }
  rewrite Hlast in Hu. simpl in Hu. subst upto. specialize (Hc ltac:(done)).
  change ((x :: pre).*2) with (x.2 :: pre.*2) in Hr, Hrs. cbn match in Hr.
  destruct (more_after _ last_ through) eqn:Hm.
  - apply bind_Ok in Hr as (token & Ht & [= <-]). simpl. split; [done|].
    destruct (list_cursor_continues _ _ _ _ _ [] _ _ Ht) as [??]. by exists last_, generation.
  - injection Hr as <-. split; [done|]. destruct (lr_next_cursor result) as [token|].
    + destruct Hc as [??]. by exists last_, generation.
    + destruct (post ++ _) as [|y rest] eqn:Hrest; [done|]. exfalso.
      assert (y ∈ cs) as Hy by (rewrite Hall; apply elem_of_app; right; by left).
      pose proof (candidates_ascending (served owner now g).1 (served owner now g).2 owner after through) as Hasc.
      fold cs in Hasc. rewrite Hall in Hasc. apply last_Some in Hlast as [l Hl].
      assert (last_ ∈ (x :: pre).*1) as ((o & e) & Ho & Hin)%list_elem_of_fmap by (rewrite Hl; apply elem_of_app; right; by left).
      pose proof (ascending_app _ _ _ y Hasc Hin ltac:(by left)) as Hlt. destruct y as [oy ey].
      apply elem_of_candidates in Hy as [Hr (t & Ht & _)]. apply ordinal_iter_lookup in Ht.
      eapply more_after_false; [exact Hm|exact Ht|]. simpl in *. subst. lia.
Qed.

(** ** A request *)

Lemma served_codec owner now g : sm_codec (served owner now g).1 = sm_codec g.
Proof.
  assert (∀ l st, sm_codec (foldl (prune_one owner) st l).1 = sm_codec st.1) as Hfold.
  { induction l as [|o l IH]; intros [g0 c0]; [done|]. simpl. rewrite IH. unfold prune_one.
    destruct (oc_entries c0 !! o); [|done]. destruct (sm_records g0 !! _) as [a|]; simpl; [|done].
    destruct (sm_heap g0 !! a); simpl; [|done]. by destruct (_ && _). }
  assert (sm_codec (prune_owner owner None now g) = sm_codec g) as Hp.
  { unfold prune_owner. destruct (sm_owners g !! owner); [|done]. specialize (Hfold
      (prune_list (sm_limits g) now None (closed_sessions g o)) (g, o)). by destruct (foldl _ _ _). }
  unfold served, owner_catalog. simpl. by destruct (sm_owners _ !! owner).
Qed.

Lemma list_sessions_page owner params now g r :
  (list_sessions owner params now g).1 = Ok r →
  ListSessionsParams_validate params = Ok () ∧
  ∃ claims, list_claims (sm_codec g) now owner params = Ok claims ∧
    list_page (served owner now g).1 (served owner now g).2 owner params claims now = Ok r.
Proof.
  unfold list_sessions, lift, gets, modify, mbind, eff_bind, served. intros Hl.
  destruct (ListSessionsParams_validate params) as [[]|]; [|done]. split; [done|]. simpl in Hl.
  destruct (list_claims _ _ _ _) as [claims|]; [|done]. exists claims. split; [done|]. simpl in Hl.
  unfold owner_catalog in *. by destruct (sm_owners _ !! owner).
Qed.

Lemma page_limit params : ListSessionsParams_validate params = Ok () → (0 < ls_limit params)%N.
Proof. unfold ListSessionsParams_validate, validate_bounded_limit. intros Hv. inv_result. inv_bool. lia. Qed.

(** The last ordinal of a catalog *)
Definition last_ordinal (catalog : OwnerCatalogState) : N := default 0%N (fst <$> last (ordinal_iter (oc_entries catalog))).

Lemma first_request owner limit now g r :
  (list_sessions owner {| ls_cursor := None; ls_limit := limit |} now g).1 = Ok r →
  CatalogPage (sm_codec g) owner now g 0 (last_ordinal (served owner now g).2) r.
Proof.
  intros Hl. apply list_sessions_page in Hl as (Hv & claims & Hc & Hp). injection Hc as <-.
  rewrite <-(served_codec owner now g). by eapply list_page_spec; [exact (page_limit _ Hv)| |exact Hp].
Qed.

Lemma next_request codec owner limit now g r token generation after through expires :
  sm_codec g = codec →
  codec_decode codec LIST_CURSOR_DOMAIN owner token = Some (ListCursorClaims_new generation after through expires) →
  (list_sessions owner {| ls_cursor := Some token; ls_limit := limit |} now g).1 = Ok r →
  CatalogPage codec owner now g after through r.
Proof.
  intros <- Hd Hl. apply list_sessions_page in Hl as (Hv & claims & Hc & Hp).
  unfold list_claims in Hc. simpl in Hc. rewrite Hd in Hc. simpl in Hc.
  apply bind_Ok in Hc as ([] & _ & Hc). apply bind_Ok in Hc as ([] & _ & [= <-]).
  rewrite <-(served_codec owner now g). pose proof Hp as Hp'. unfold list_page in Hp'.
  apply bind_Ok in Hp' as ([] & _ & Hp'). apply bind_Ok in Hp' as ([[gen a] t] & Hw & _).
  pose proof Hw as Hw'. unfold list_window in Hw'. apply bind_Ok in Hw' as ([] & _ & Hw').
  apply bind_Ok in Hw' as ([] & _ & [= <- <- <-]).
  by eapply list_page_spec; [exact (page_limit _ Hv)|exact Hw|exact Hp].
Qed.

(** ** Reading the catalog *)

(** A client that continues from each page, with the registry and the clock that each
    of its requests meets: the sessions it was shown, and the cursor it still holds. *)
Fixpoint read_catalog (owner : string) (limit : N) (cursor : option string) (servers : list (SessionManagementRegistry * N)) :
    Managed (list SessionListEntry * option string) :=
  match servers with
  | [] => Ok ([], cursor)
  | (g, now) :: servers =>
      page ← (list_sessions owner {| ls_cursor := cursor; ls_limit := limit |} now g).1;
      match lr_next_cursor page with
      | None => Ok (lr_sessions page, None)
      | Some token =>
          '(rest, pending) ← read_catalog owner limit (Some token) servers;
          Ok (lr_sessions page ++ rest, pending)
      end
  end.

(** What a client has been shown of the ordinals after [after] up to [through]. *)
Record Shown (owner : string) (servers : list (SessionManagementRegistry * N)) (after through : N)
    (shown : list SessionListEntry) (pending : option string) (ordinals : list N) : Prop := {
  sh_entries : Forall2 (λ o entry, ∃ server, server ∈ servers ∧ listed owner server.2 server.1 o entry) ordinals shown;
  sh_order : StronglySorted N.lt ordinals;
  sh_range : Forall (λ o, after < o <= through)%N ordinals;
  sh_end : match pending with
           | None => ∀ o, (after < o <= through)%N →
               (∀ server, server ∈ servers → ∃ entry, listed owner server.2 server.1 o entry) → o ∈ ordinals
           | Some _ => length servers <= length shown
           end;
}.

Lemma shown_prefix owner now g after through pre post servers :
  candidates (served owner now g).1 (served owner now g).2 owner after through = pre ++ post →
  Forall2 (λ o entry, ∃ server, server ∈ (g, now) :: servers ∧ listed owner server.2 server.1 o entry) pre.*1 pre.*2
  ∧ StronglySorted N.lt pre.*1 ∧ Forall (λ o, after < o <= through)%N pre.*1.
Proof.
  intros Hc. pose proof (candidates_ascending (served owner now g).1 (served owner now g).2 owner after through) as Ha.
  rewrite Hc in Ha. unfold ascending in Ha. rewrite fmap_app in Ha.
  assert (∀ o e, (o, e) ∈ pre → (after < o <= through)%N ∧ listed owner now g o e) as Hin.
  { intros o e Ho. apply elem_of_candidates. rewrite Hc. apply elem_of_app. by left. }
  split_and!; [|by apply StronglySorted_app_1_l in Ha|].
  - apply Forall2_fmap, Forall_Forall2_diag, Forall_forall. intros [o e] Ho.
    exists (g, now). split; [by left|]. by apply Hin.
  - apply Forall_fmap, Forall_forall. intros [o e] Ho. by destruct (Hin _ _ Ho).
Qed.

(** One page of a reading, and how the reading goes on from it. *)
Lemma shown_page codec owner now g after through page servers shown pending
    (rest_of : string → Managed (list SessionListEntry * option string)) :
  CatalogPage codec owner now g after through page →
  match lr_next_cursor page with
  | None => Ok (lr_sessions page, None)
  | Some token => '(rest, pending) ← rest_of token; Ok (lr_sessions page ++ rest, pending)
  end = Ok (shown, pending) :> Managed _ →
  (∀ upto token generation expires rest pending,
     codec_decode codec LIST_CURSOR_DOMAIN owner token = Some (ListCursorClaims_new generation upto through expires) →
     rest_of token = Ok (rest, pending) → ∃ ordinals, Shown owner servers upto through rest pending ordinals) →
  ∃ ordinals, Shown owner ((g, now) :: servers) after through shown pending ordinals.
Proof.
  intros [(pre & post & Hc & Hs & Hnext)] Hr Hrest. rewrite Hs in Hr.
  destruct (shown_prefix owner now g after through pre post servers Hc) as (He & Ho & Hin).
  destruct (lr_next_cursor page) as [token|].
  - destruct Hnext as (upto & generation & Hlast & _ & Hd). apply bind_Ok in Hr as ([rest pending'] & Hr & Heq).
    injection Heq as <- <-. destruct (Hrest _ _ _ _ _ _ Hd Hr) as (ordinals & [He' Ho' Hin' Hend']).
    apply last_Some in Hlast as [l Hl]. pose proof Ho as Ho2. rewrite Hl in Ho2.
    assert (∀ o, o ∈ pre.*1 → (o <= upto)%N) as Hupto.
    { intros o. rewrite Hl. intros [Hx|Hx%list_elem_of_singleton]%elem_of_app; [|lia].
      assert (o < upto)%N; [|lia]. eapply StronglySorted_app_1_elem_of; [exact Ho2|exact Hx|by left]. }
    rewrite Forall_forall in Hin, Hin'.
    exists (pre.*1 ++ ordinals). constructor.
    + apply Forall2_app; [done|]. eapply Forall2_impl; [exact He'|]. intros o e (server & ? & ?). exists server. split; [by right|done].
    + apply StronglySorted_app_2; [|done..]. intros x y Hx Hy. specialize (Hupto _ Hx). specialize (Hin' _ Hy). lia.
    + apply Forall_forall. intros o [Hx|Hx]%elem_of_app; [by apply Hin|]. specialize (Hin' _ Hx).
      assert (after < upto)%N; [|lia]. apply Hin. rewrite Hl. apply elem_of_app. right. by left.
    + destruct pending'.
      * rewrite length_app. assert (length pre.*2 ≠ 0); [|simpl; lia]. rewrite length_fmap.
        intros Hz. apply nil_length_inv in Hz. subst pre. by destruct l.
      * intros o Hrange Hall. apply elem_of_app. destruct (N.lt_ge_cases upto o) as [Hlt|Hge].
        { right. apply Hend'; [lia|]. intros server Hserver. apply Hall. by right. }
        left. destruct (Hall (g, now) ltac:(by left)) as [e Hlisted].
        assert ((o, e) ∈ pre ++ post) as [Hp|Hp]%elem_of_app by (rewrite <-Hc; by apply elem_of_candidates).
        { by apply (list_elem_of_fmap_2 fst) in Hp. }
        pose proof (candidates_ascending (served owner now g).1 (served owner now g).2 owner after through) as Ha. rewrite Hc in Ha.
        assert (upto ∈ pre.*1) as ((u & eu) & Hu & Hpu)%list_elem_of_fmap by (rewrite Hl; apply elem_of_app; right; by left).
        pose proof (ascending_app _ _ _ _ Ha Hpu Hp). simpl in *. lia.
  - injection Hr as <- <-. subst post. rewrite app_nil_r in Hc. exists pre.*1. constructor; [done..|].
    intros o Hrange Hall. destruct (Hall (g, now) ltac:(by left)) as [e Hlisted].
    apply (list_elem_of_fmap_2 fst _ (o, e)). rewrite <-Hc. by apply elem_of_candidates.
Qed.

Lemma read_catalog_token codec owner limit servers : ∀ after through token generation expires shown pending,
  (∀ server, server ∈ servers → sm_codec server.1 = codec) →
  codec_decode codec LIST_CURSOR_DOMAIN owner token = Some (ListCursorClaims_new generation after through expires) →
  read_catalog owner limit (Some token) servers = Ok (shown, pending) →
  ∃ ordinals, Shown owner servers after through shown pending ordinals.
Proof.
  induction servers as [|[g now] servers IH]; intros after through token generation expires shown pending Hcodec Hd Hr.
  { simpl in Hr. injection Hr as <- <-. exists []. by constructor; [constructor..|simpl]. }
  assert (sm_codec g = codec) as Hg by (apply (Hcodec (g, now)); by left).
  simpl in Hr. apply bind_Ok in Hr as (page & Hp & Hr).
  apply (next_request codec _ _ _ _ _ _ _ _ _ _ Hg Hd) in Hp.
  eapply (shown_page codec owner now g _ _ page _ _ _ (λ token, read_catalog owner limit (Some token) servers)); [exact Hp|exact Hr|].
  intros. eapply IH; [|done..]. intros server Hs. apply Hcodec. by right.
Qed.

Lemma read_catalog_first codec owner limit g now servers shown pending :
  (∀ server, server ∈ (g, now) :: servers → sm_codec server.1 = codec) →
  read_catalog owner limit None ((g, now) :: servers) = Ok (shown, pending) →
  ∃ ordinals, Shown owner ((g, now) :: servers) 0 (last_ordinal (served owner now g).2) shown pending ordinals.
Proof.
  intros Hcodec Hr. assert (sm_codec g = codec) as Hg by (apply (Hcodec (g, now)); by left).
  simpl in Hr. apply bind_Ok in Hr as (page & Hp & Hr). apply first_request in Hp. rewrite Hg in Hp.
  eapply (shown_page codec owner now g _ _ page _ _ _ (λ token, read_catalog owner limit (Some token) servers)); [exact Hp|exact Hr|].
  intros. eapply read_catalog_token; [|done..]. intros server Hs. apply Hcodec. by right.
Qed.
End catalog.
