(* ===== verification/ManagementGuarantees.v ===== *)
(** * What session management guarantees

    First sample data for the witnesses, then the theorems.

    An encoding of cursors that keeps the promises of the real one, an archive that
    grows, a catalog, and a daemon with one session that runs a turn. *)

From stdpp Require Import countable.
From S2P Require Import Prelude Protocol StoreState StoreBackend StoreRuntime Samples SessionViews ViewJournal ViewGuarantees SessionManagement SessionCatalog HistoryArchive ManagementProjection ManagementOps SessionServer.

(** ** Cursors: hexadecimal text over a bit string *)

Definition hex_digit (n : nat) : ascii := ascii_of_nat (if n <? 10 then 48 + n else 87 + n).
Definition hex_value (c : ascii) : nat := let n := nat_of_ascii c in if n <? 58 then n - 48 else n - 87.

Fixpoint hex_encode (s : string) : string :=
  match s with
  | EmptyString => EmptyString
  | String c s => String (hex_digit (nat_of_ascii c / 16)) (String (hex_digit (nat_of_ascii c mod 16)) (hex_encode s))
  end.
Fixpoint hex_decode (s : string) : option string :=
  match s with
  | EmptyString => Some EmptyString
  | String a (String b s) => String (ascii_of_nat (16 * hex_value a + hex_value b)) <$> hex_decode s
  | _ => None
  end.

#[export] Instance hex_codec : CodecExternals := {
  b64_encode := hex_encode;
  b64_decode := hex_decode;
  hmac_sha256 key message := String "#" (key +:+ message);
}.

Lemma hex_byte c :
  ascii_of_nat (16 * hex_value (hex_digit (nat_of_ascii c / 16)) + hex_value (hex_digit (nat_of_ascii c mod 16))) = c ∧
  is_b64_byte (nat_of_ascii (hex_digit (nat_of_ascii c / 16))) = true ∧
  is_b64_byte (nat_of_ascii (hex_digit (nat_of_ascii c mod 16))) = true.
Proof. destruct c as [[] [] [] [] [] [] [] []]; vm_compute; auto. Qed.

#[export] Instance hex_codec_laws : CodecLaws.
Proof.
  split.
  - intros s. change (hex_decode (hex_encode s) = Some s). induction s as [|c s IH]; [done|].
    cbn [hex_encode hex_decode]. by rewrite (proj1 (hex_byte c)), IH.
  - intros s. unfold b64_text. induction s as [|c s IH]; [done|]. cbn [b64_encode hex_codec hex_encode].
    rewrite !bytes_of_String. cbn [forallb]. destruct (hex_byte c) as (_ & -> & ->). exact IH.
  - intros [|c s] Hs; [done|]. simpl. done.
  - done.
Qed.

Fixpoint bits_text (p : positive) : string :=
  match p with xH => "1" | xO p => String "0" (bits_text p) | xI p => String "1" (bits_text p) end.
Fixpoint bits_value (s : string) : option positive :=
  match s with
  | EmptyString => None
  | String _ EmptyString => Some xH
  | String c s => (if bool_decide (c = "1"%char) then xI else xO) <$> bits_value s
  end.

Lemma bits_text_cons p : ∃ c s, bits_text p = String c s.
Proof. destruct p; by eexists _, _. Qed.
Lemma bits_value_text p : bits_value (bits_text p) = Some p.
Proof.
  induction p as [p IH|p IH|]; [| |done]; simpl; destruct (bits_text_cons p) as (c & s & Hs); rewrite Hs in *; by rewrite IH.
Qed.

Definition positive_serde {T} (fields : T → list positive) (read : list positive → option T) : Serde T := {|
  to_vec t := Ok (bits_text (encode (fields t)));
  from_slice s := p ← bits_value s; l ← decode p; read l;
|}.
#[export] Instance list_claims_serde : Serde ListCursorClaims :=
  positive_serde (λ c, [encode (lc_version c); encode (lc_kind c); encode (lc_generation c); encode (lc_after_ordinal c);
                        encode (lc_through_ordinal c); encode (lc_expires_at_ms c)])
    (λ l, match l with
          | [a; b; c; d; e; f] =>
              a ← decode a; b ← decode b; c ← decode c; d ← decode d; e ← decode e; f ← decode f;
              Some {| lc_version := a; lc_kind := b; lc_generation := c; lc_after_ordinal := d; lc_through_ordinal := e;
                      lc_expires_at_ms := f |}
          | _ => None
          end).
#[export] Instance history_claims_serde : Serde HistoryCursorClaims :=
  positive_serde (λ c, [encode (hc_version c); encode (hc_kind c); encode (hc_thread_id c); encode (hc_stream_id c);
                        encode (hc_through c); encode (hc_before c); encode (hc_expires_at_ms c)])
    (λ l, match l with
          | [a; b; c; d; e; f; g] =>
              a ← decode a; b ← decode b; c ← decode c; d ← decode d; e ← decode e; f ← decode f; g ← decode g;
              Some {| hc_version := a; hc_kind := b; hc_thread_id := c; hc_stream_id := d; hc_through := e;
                      hc_before := f; hc_expires_at_ms := g |}
          | _ => None
          end).

Lemma positive_serde_laws {T} (fields : T → list positive) read :
  (∀ t, read (fields t) = Some t) → @SerdeLaws T (positive_serde fields read).
Proof.
  intros Hr. split.
  - intros t bytes [= <-]. simpl. rewrite bits_value_text. simpl. rewrite countable.decode_encode. simpl. apply Hr.
  - intros t bytes [= <-]. destruct (bits_text_cons (encode (fields t))) as (c & s & ->). done.
Qed.
#[export] Instance list_claims_laws : SerdeLaws ListCursorClaims.
Proof. apply positive_serde_laws. intros []. by rewrite !countable.decode_encode. Qed.
#[export] Instance history_claims_laws : SerdeLaws HistoryCursorClaims.
Proof. apply positive_serde_laws. intros []. by rewrite !countable.decode_encode. Qed.

(** ** Sizes *)

#[export] Instance hundred_bytes_v2 : ManagementExternals := {
  envelope_v2_json_len _ := Ok 100%N;
  snapshot_v2_json_len _ := 100%N;
  list_page_json_len r := (100 * N.of_nat (length (lr_sessions r)))%N;
  history_page_json_len r := (100 * N.of_nat (length (hr_items r)))%N;
}.

Definition management_codec : CursorCodec := {| codec_key := "key" |}.

(** ** An archive that a client reads while it grows *)


(** ** A daemon with one session *)

Definition world_0 : World MemoryStore :=
  {| wo_lifecycle := lifecycle_default;
     wo_daemon := {| dm_views := view_0;
                     dm_management := {| sm_records := ∅; sm_heap := ∅; sm_next := 0; sm_owners := ∅;
                                         sm_codec := management_codec; sm_limits := management_limits_default |};
                     dm_workers := ∅; dm_store := ∅ |} |}.

Definition sample_start (thread : string) : SessionStart :=
  {| st_owner := "o"; st_thread_id := thread; st_agent_name := None; st_metadata := ∅; st_history := [];
     st_created_at_ms := 10; st_persistence := Ephemeral; st_max_history_bytes := None |}.

(** The world after a session was started, and after a publication. *)
Definition started (start : SessionStart) (stream_v1 stream_v2 : string) (w : World MemoryStore) : World MemoryStore :=
  let out := lifecycle_publish (st_thread_id start) (st_owner start) (publish_session start stream_v1 stream_v2 (Ok ()))
               (wo_lifecycle w, wo_daemon w) in
  {| wo_lifecycle := out.2.1; wo_daemon := out.2.2 |}.
Definition publication (mutation : RunPublicationMutation) (ts : N) (w : World MemoryStore) :=
  publish_on 0 "o" mutation ts (wo_daemon w).
Definition published_run (mutation : RunPublicationMutation) (ts : N) (w : World MemoryStore) : World MemoryStore :=
  on_daemon (λ _, (publication mutation ts w).2) w.

Definition world_1 : World MemoryStore := started (sample_start "t") "s" "s2" world_0.
Definition world_2 : World MemoryStore := published_run (MutationBegin view_run 7) 11 world_1.
Definition world_3 : World MemoryStore :=
  published_run (MutationEvent (view_event 1 (RunStream (EvItemStarted "turn" "item" "message" None)))) 12 world_2.
Definition world_4 : World MemoryStore :=
  published_run (MutationEvent (view_event 2 (RunStream (EvItemCompleted "turn" view_item)))) 13 world_3.
Definition world_5 : World MemoryStore := published_run (MutationEvent (view_event 3 (RunFinished view_finished))) 14 world_4.

Lemma started_lives start s1 s2 w : lives w (started start s1 s2 w).
Proof.
  destruct w as [lc d]. unfold started. cbn [wo_lifecycle wo_daemon].
  match goal with |- context [lifecycle_publish ?t ?o ?p ?x] => destruct (lifecycle_publish t o p x) as [out [lc' d']] eqn:Hp end.
  by eapply lives_start.
Qed.

Lemma published_lives mutation ts w :
  match sm_heap (dm_management (wo_daemon w)) !! 0 with
  | Some r => (mr_owner r == "o") && (cv_thread_id (mp_cursor (mr_projection r)) == mutation_thread mutation)
  | None => false
  end = true → lives w (published_run mutation ts w).
Proof.
  intros Hr. apply lives_lane with (address := 0). unfold publication.
  destruct (publish_on _ _ _ _ _) as [out d'] eqn:Hp. apply (lane_publish 0 "o" mutation ts out); [exact Hp|].
  intros r Hr'. rewrite Hr' in Hr. inv_bool. done.
Qed.

Lemma world_1_step : lives world_0 world_1.
Proof. exact (started_lives (sample_start "t") "s" "s2" world_0). Qed.
Lemma world_2_step : lives world_1 world_2.
Proof. apply (published_lives (MutationBegin view_run 7) 11 world_1). vm_compute. reflexivity. Qed.
Lemma world_3_step : lives world_2 world_3.
Proof.
  apply (published_lives (MutationEvent (view_event 1 (RunStream (EvItemStarted "turn" "item" "message" None)))) 12 world_2).
  vm_compute. reflexivity.
Qed.
Lemma world_4_step : lives world_3 world_4.
Proof.
  apply (published_lives (MutationEvent (view_event 2 (RunStream (EvItemCompleted "turn" view_item)))) 13 world_3).
  vm_compute. reflexivity.
Qed.
Lemma world_5_step : lives world_4 world_5.
Proof. apply (published_lives (MutationEvent (view_event 3 (RunFinished view_finished))) 14 world_4). vm_compute. reflexivity. Qed.

Lemma world_5_reach : rtc lives world_0 world_5.
Proof.
  exact (rtc_l _ _ _ _ world_1_step (rtc_l _ _ _ _ world_2_step (rtc_l _ _ _ _ world_3_step
           (rtc_l _ _ _ _ world_4_step (rtc_once _ _ world_5_step))))).
Qed.

(** ** What a client asks of the daemon *)

Definition snapshot_2 : SessionSnapshotV2 :=
  SessionSnapshotV2_new (SessionSummaryV2_new "t" 10) LifecycleOpen Ephemeral
    {| hw_items := []; hw_start_index := 0; hw_total_items := 0; hw_capacity := 1024 |}
    {| cv_thread_id := "t"; cv_stream_id := "s2"; cv_seq := 0 |}.
Definition shown_v1 (w : World MemoryStore) : SessionSnapshot :=
  match registry_get (dm_views (wo_daemon w)) "o" {| get_thread_id := "t"; get_history_limit := 5 |} with
  | Ok s => s | Err _ => view_first
  end.
Definition shown_v2 (w : World MemoryStore) : SessionSnapshotV2 :=
  match (get_v2 "o" {| g2_thread_id := "t"; g2_history_limit := 5 |} 20 (dm_management (wo_daemon w))).1 with
  | Ok s => s | Err _ => snapshot_2
  end.

Definition place_v2 (seq : N) : SessionCursorV2 := {| cv_thread_id := "t"; cv_stream_id := "s2"; cv_seq := seq |}.
Definition subscription_v2 : SubscribeSessionV2Params :=
  {| u2_thread_id := "t"; u2_after := place_v2 1; u2_through := None; u2_limit := 2 |}.
Definition page_of_v2 (w : World MemoryStore) : SubscribeSessionV2Result :=
  match (subscribe_v2 "o" subscription_v2 20 (dm_management (wo_daemon w))).1 with
  | Ok page => page
  | Err _ => {| page2_events := []; page2_resume_after := place_v2 0; page2_through := place_v2 0;
                page2_lifecycle := LifecycleOpen; page2_has_more := false; page2_gap := None |}
  end.

(** A catalog of three sessions. *)
Definition catalog_world : World MemoryStore :=
  started (sample_start "t3") "s3" "z3" (started (sample_start "t2") "s2" "z2" (started (sample_start "t1") "s1" "z1" world_0)).
Definition catalog_registry : SessionManagementRegistry := dm_management (wo_daemon catalog_world).

(** A log of metadata events, and a notifier that was given two of them in the wrong order. *)
Definition metadata_log (i : N) : SessionEventEnvelopeV2 :=
  {| ev2_thread_id := "t"; ev2_cursor := place_v2 i; ev2_occurred_at_ms := i; ev2_payload := V2MetadataChanged ∅ |}.

(** ** A session that begins to close while its run is still going on

    Then the run finishes and is retired, and the session closes. *)

Definition closing_0 : ManagementProjection :=
  {| mp_snapshot := snapshot_2; mp_journal := []; mp_journal_bytes := 0; mp_replay_floor := place_v2 0;
     mp_run_identities := ∅ |}.
Definition then_v2 (payload : SessionEventPayloadV2) (run_identity : option (string * nat)) (p : ManagementProjection) :
    ManagementProjection :=
  match prepare_v2 p 20 payload run_identity with Ok pm => pm_next pm | Err _ => closing_0 end.
Definition closing_finished : RunSnapshot :=
  {| snap_tool_executions := []; snap_thread_id := "t"; snap_turn_id := "turn"; snap_status := RunCancelled;
     snap_items := []; snap_usage := usage_default; snap_pending_approvals := []; snap_last_seq := 1;
     snap_result := None; snap_error := None |}.
Definition closing_1 : ManagementProjection :=
  then_v2 (V2RunChanged (SessionRunView_new view_run 11)) (Some ("turn", 7)) closing_0.
Definition closing_2 : ManagementProjection := then_v2 (V2LifecycleChanged LifecycleClosing) None closing_1.
Definition closing_3 : ManagementProjection := then_v2 (V2RunEvent (view_event 1 (RunFinished closing_finished))) None closing_2.
Definition closing_4 : ManagementProjection := default closing_0 (prepare_retire_run_v2 closing_3 "turn" 7).
Definition closing_5 : ManagementProjection := then_v2 (V2LifecycleChanged LifecycleClosed) None closing_4.

(** An archive with an item whose identity holds a tab. *)
Definition tabbed : string := String "a" (String "009" "b").
Definition tabbed_archive : HistoryArchive :=
  match HistoryArchive_new "t" "s" [UserMessage tabbed []] None with Ok a => a | Err _ => empty_archive "" "" 0 0 end.

(** ** What session management guarantees

    The two views of a session agree; a publication changes both and the archive, or
    nothing; what a client reads back, lists or is notified of is what happened. *)

From stdpp Require Import relations.
From S2P Require Import ViewLaws ViewRecords ViewRegistry ManagementLaws LanesLaws NotifierLaws CatalogLaws.

(** ** Records that a request is served from *)

Section served.
Context `{Externals} `{ManagementExternals} `{ViewExternals} {St : Type} `{!SessionStore St}.

Lemma owned_record_spec thread owner now g out g' :
  owned_record thread owner now g = (out, g') →
  g' = prune_owner owner None now g ∧
  match out with
  | Ok (a, r) => sm_records g' !! thread = Some a ∧ sm_heap g' !! a = Some r ∧ mr_owner r = owner
  | Err _ => True
  end.
Proof.
  unfold owned_record. set (g1 := prune_owner owner None now g).
  destruct (sm_records g1 !! thread) as [a|] eqn:Ha; simpl; [|by intros [= <- <-]].
  destruct (sm_heap g1 !! a) as [r|] eqn:Hr; simpl; [|by intros [= <- <-]].
  destruct (mr_owner r != owner) eqn:Ho; intros [= <- <-]; [done|]. inv_bool. done.
Qed.

(** The record that a reachable daemon serves. *)
Lemma owned_record_world (w : World St) thread owner now a r g' :
  WorldOk w → owned_record thread owner now (dm_management (wo_daemon w)) = (Ok (a, r), g') →
  ProjectionOk (mr_projection r) ∧ record_thread r = thread ∧
  ∀ b v, owned (dm_views (wo_daemon w)) thread owner = Ok (b, v) → Agree v r.
Proof.
  intros Hok Ho. apply owned_record_spec in Ho as (-> & Ha & Hr & Hown).
  assert (WorldOk (on_daemon (with_management (λ _, prune_owner owner None now (dm_management (wo_daemon w)))) w)) as Hok'.
  { eapply lives_ok; [|exact Hok]. apply lives_administer. constructor. }
  pose proof Hok' as [[pairs Hp] _]. destruct (pk_record_key _ _ _ Hp _ _ Ha) as (r' & Hr' & Ht). simpl in *.
  rewrite Hr in Hr'. injection Hr' as <-. destruct (pk_agree _ _ _ Hp _ _ Hr) as (_ & _ & _ & _ & _ & Hpr).
  split_and!; [done|done|]. intros b v Hv. eapply served_agree; [exact Hok'|exact Hv|exact Ha|exact Hr|exact Hown].
Qed.

Lemma prepare_v2_applies p ts payload rid pm :
  prepare_v2 p ts payload rid = Ok pm → apply_v2 (mp_snapshot p) (pm_envelope pm) = Ok (mp_snapshot (pm_next pm), true).
Proof. intros [_ Happ _ _ Ht _ _]%prepare_v2_Prepared. by apply applied_applies. Qed.

Lemma prepare_mutation_applies p mutation ts pm :
  prepare_mutation_v2 p mutation ts = Ok pm → apply_v2 (mp_snapshot p) (pm_envelope pm) = Ok (mp_snapshot (pm_next pm), true).
Proof. intros Hp. destruct mutation; unfold prepare_mutation_v2 in Hp; inv_result; by eapply prepare_v2_applies. Qed.

Lemma prepare_v1_applies views owner mutation ts p e v :
  prepare_v1 views owner mutation ts = Ok (p, e) → vg_heap views !! pp_record p = Some v →
  SessionViews.apply (vr_snapshot v) e = Ok (pv_snapshot (pp_next p), true).
Proof.
  intros Hp Hv. unfold prepare_v1 in Hp. apply map_err_Ok in Hp.
  destruct mutation; unfold prepare_begin_run, prepare_run_changed, prepare_run_event in Hp; inv_result;
    match goal with Hr : prepare _ _ _ _ = Ok ?x |- _ => destruct x end;
    match goal with Hw : owned _ _ _ = Ok _ |- _ => apply owned_Ok in Hw as (_ & ? & _) end; simplify_eq/=;
    match goal with Hr : prepare _ _ _ _ = Ok _ |- _ => exact (pub_applied _ _ _ (prepare_Published _ _ _ _ _ _ Hr)) end.
Qed.
End served.

(** ** The two views *)

(** C31: Whatever the daemon has done (sessions started, attached, closed, forgotten,
    disconnected, pruned; runs published, retired; metadata replaced; preparations
    failed or dropped), the first and the second view that it serves of a session show
    the same window of the history, the same active run and the same last run. *)
Theorem both_views_agree `{Externals} `{ManagementExternals} `{ViewExternals} {St} `{!SessionStore St}
    (w0 w : World St) owner thread limit now s1 s2 g :
  Fresh w0 → rtc lives w0 w →
  registry_get (dm_views (wo_daemon w)) owner {| get_thread_id := thread; get_history_limit := limit |} = Ok s1 →
  get_v2 owner {| g2_thread_id := thread; g2_history_limit := limit |} now (dm_management (wo_daemon w)) = (Ok s2, g) →
  projection_v1 s1 = projection_of s2.
Proof.
  intros Hf Hr H1' H2'. pose proof (reached_ok _ _ Hf Hr) as Hok.
  unfold registry_get in H1'. apply bind_Ok in H1' as ([] & _ & H1'). apply bind_Ok in H1' as ([b v] & Hv & [= <-]).
  unfold get_v2, lift, mbind, eff_bind in H2'. destruct (GetSessionV2Params_validate _) as [[]|]; [|done]. simpl in H2'.
  destruct (owned_record _ _ _ _) as [[[a r]|] g1] eqn:Ho; [|done]. injection H2' as <- _.
  destruct (owned_record_world _ _ _ _ _ _ _ Hok Ho) as (_ & _ & Hag). specialize (Hag _ _ Hv).
  pose proof (ag_projection _ _ Hag) as Hp. unfold projection_v1, projection_of in *. simpl.
  injection Hp as -> -> ->. done.
Qed.

(** C32: The publication of a run's change goes to the session that the change names and
    that the caller owns. It appends one event that carries the change to each of its two
    views and, when the run ends, its items to the archive; or it fails, for whatever
    reason, and changes none of them. Nothing else changes, but that before it the owner's
    closed sessions that are due are dropped, as by every request: no view, no archive
    and no projection of another session, no journal and no stored record. *)
Theorem publication_is_all_or_nothing `{Externals} `{ManagementExternals} `{ViewExternals} {St} `{!SessionStore St}
    owner mutation ts now (d d' : Daemon St) out :
  publish_run owner mutation ts now d = (out, d') →
  let thread := mutation_thread mutation in
  let pruned := prune_owner owner None now (dm_management d) in
  dm_workers d' = dm_workers d ∧ dm_store d' = dm_store d ∧ same_sessions (dm_management d) pruned ∧
  match out with
  | Err _ => dm_views d' = dm_views d ∧ dm_management d' = pruned
  | Ok (e1, e2) => ∃ a r r' b v v',
      sm_records pruned !! thread = Some a ∧ sm_heap pruned !! a = Some r ∧ mr_owner r = owner ∧
      vg_records (dm_views d) !! thread = Some b ∧ vg_heap (dm_views d) !! b = Some v ∧ vr_owner v = owner ∧
      dm_management d' = set_heap (<[a := r']> (sm_heap pruned)) pruned ∧
      dm_views d' = {| vg_records := vg_records (dm_views d); vg_heap := <[b := v']> (vg_heap (dm_views d));
                       vg_next := vg_next (dm_views d); vg_limits := vg_limits (dm_views d) |} ∧
      carries mutation ts (env_payload e1) ∧ env_occurred_at_ms e1 = ts ∧
      SessionViews.apply (vr_snapshot v) e1 = Ok (vr_snapshot v', true) ∧
      carries_v2 mutation ts (ev2_payload e2) ∧ ev2_occurred_at_ms e2 = ts ∧
      apply_v2 (mp_snapshot (mr_projection r)) e2 = Ok (mp_snapshot (mr_projection r'), true) ∧
      r' = set_archive (mr_history r') (set_projection (mr_projection r') r) ∧
      (∀ log, Archived log (mr_history r) →
         Archived (log ++ default [] (committed_history mutation)) (mr_history r'))
  end.
Proof.
  unfold publish_run, in_management, mbind, eff_bind.
  destruct (owned_record _ _ _ _) as [[[a r0]|e] g] eqn:Ho; apply owned_record_spec in Ho as [-> Hr0].
  2: { intros [= <- <-]. simpl. split_and!; [done..|apply prune_owner_same|done|done]. }
  destruct Hr0 as (Hrec & Hheap & Hown). set (d1 := with_management _ d).
  intros Hp. apply publish_on_spec in Hp. destruct out as [[e1 e2]|].
  2: { subst d'. simpl. split_and!; [done..|apply prune_owner_same|done|done]. }
  destruct Hp as (r & r' & p & v & pm & Hp1 & Hp2 & -> & Hr' & [Hv' Hg' Hr Hv _ _ _] & Hh & Hw & Hst).
  simpl in *. assert (r0 = r) as -> by congruence.
  destruct (prepare_v1_owned _ _ _ _ _ _ Hp1) as (v0 & Hvrec & Hv0 & Hvo & _). assert (v0 = v) as -> by congruence.
  destruct (prepare_v1_carries _ _ _ _ _ _ Hp1) as [Hc1 Ht1]. destruct (prepare_mutation_carries _ _ _ _ Hp2) as [Hc2 Ht2].
  assert (mr_projection r' = pm_next pm) as Hproj by (by rewrite Hr').
  split; [done|]. split; [done|]. split; [apply prune_owner_same|].
  exists a, r, r', (pp_record p), v, (install (pp_next p) v).
  split_and!; try done.
  - by eapply prepare_v1_applies.
  - rewrite Hproj. by eapply prepare_mutation_applies.
  - by rewrite Hproj.
  - intros log. unfold next_archive in Hh. destruct (committed_history mutation) as [items|].
    + intros Ha. by destruct (prepare_append_archived _ _ _ _ Ha Hh) as [? _].
    + injection Hh as <-. by rewrite app_nil_r.
Qed.


(** Every answer of the daemon to a subscription of the second version passes the
    validation that the client performs on it. *)
Theorem subscription_v2_meets_contract `{Externals} `{ManagementExternals} `{ViewExternals} {St} `{!SessionStore St}
    (w0 w : World St) owner params now result g :
  Fresh w0 → rtc lives w0 w →
  subscribe_v2 owner params now (dm_management (wo_daemon w)) = (Ok result, g) →
  subscribe_validate_for result params = Ok ().
Proof.
  intros Hf Hr Hs. unfold subscribe_v2, lift, modify, mbind, eff_bind in Hs.
  destruct (owned_record _ _ _ _) as [[[a r]|] g1] eqn:Ho; [|done]. simpl in Hs.
  destruct (replay_v2 _ _) as [answer|] eqn:Hreplay; [|done]. injection Hs as <- _.
  destruct (owned_record_world _ _ _ _ _ _ _ (reached_ok _ _ Hf Hr) Ho) as (Hok & Ht & _).
  by eapply replay_v2_validates.
Qed.

(** C33: Envelopes may be published on the notifier of a session in any order and more
    than once, by calls that interleave with each other and with the task at every point
    where they hold no lock. The notifier releases the log of the session from where the
    subscription began, exactly as far as everything before has entered. What reaches the
    transport is released and strictly in order. A call that has to wait waits for work
    that the task still has. And once the calls have returned and the task has worked off
    what waits, in at most as many turns as envelopes wait, the newest released envelope
    or the end of the session has been sent; except that of two calls that both found the
    queue full, the one with the older envelope may have written the slot last. *)
Theorem notifications_in_order log from x :
  (∀ i, cv_seq (ev2_cursor (log i)) = i) → rtc (notified log) (subscribed from) x →
  let n := nn_notifier x in
  (∃ count,
    (∀ i, from < i → i <= from + N.of_nat count ↔ ∀ j, from < j <= i → j ∈ nn_received x)%N ∧
    nt_wire n ⊆ logged log (from + 1) count ∧
    StronglySorted N.lt ((λ e, cv_seq (ev2_cursor e)) <$> nt_wire n) ∧
    (nn_overtaken x = false → Forall (λ p, returned p = true) (nt_publishers n) →
     let finished := Nat.iter (pending_work n) notifier_poll n in
     last (nt_wire finished) = last (logged log (from + 1) count) ∨
     ∃ e, last (nt_wire finished) = Some e ∧ is_closed_v2 e = true)) ∧
  ∀ place p, nt_publishers n !! place = Some p → returned p = false → notifier_step n place = None →
    nt_stopped n = false ∧ nt_queue n ≠ [].
Proof.
  intros Hseq Hr n. split; [|intros place p; apply publication_waits_for_task].
  destruct (notified_reach log from Hseq _ Hr) as [count Hok]. exists count.
  pose proof (no_wire_ok _ _ _ _ Hok) as Hw. pose proof Hw as [_ _ _ W3 _ _ W6 _ _].
  split_and!; [|exact W3|exact W6|].
  - intros i Hi. rewrite <-(released_exactly log from count x i Hok Hi). lia.
  - intros Hno Hret finished. destruct (wire_polls log from Hseq _ count (pending_work n) n Hw) as [Hf Hdone].
    apply (caught_up log from Hseq _ _ _ Hf Hno).
    + clear -Hret. unfold n in *. generalize (pending_work (nn_notifier x)) as k. induction k as [|k IH]; [done|].
      simpl. by rewrite poll_publishers.
    + destruct Hdone as [?|?]; [by left|right; lia].
Qed.

(** C35: A client that reads the catalog page by page, while sessions come, go and
    change, is shown sessions of its owner in the order of their creation, each at most
    once and as it was at that request; when it reaches the end it has been shown every
    session that was listed at all its requests and existed at the first. It reaches
    the end: a page that is not the last one shows at least one session. *)
Theorem catalog_lists_each_session_once `{Externals} `{ManagementExternals} `{CodecLaws}
    `{!Serde ListCursorClaims, !SerdeLaws ListCursorClaims} codec owner limit g now servers shown pending :
  (∀ server, server ∈ (g, now) :: servers → sm_codec server.1 = codec) →
  read_catalog owner limit None ((g, now) :: servers) = Ok (shown, pending) →
  ∃ ordinals,
    StronglySorted N.lt ordinals ∧
    Forall2 (λ o entry, ∃ server, server ∈ (g, now) :: servers ∧ listed owner server.2 server.1 o entry) ordinals shown ∧
    match pending with
    | None => ∀ o, (0 < o <= last_ordinal (served owner now g).2)%N →
        (∀ server, server ∈ (g, now) :: servers → ∃ entry, listed owner server.2 server.1 o entry) → o ∈ ordinals
    | Some _ => length ((g, now) :: servers) <= length shown
    end.
Proof.
  intros Hc Hr. destruct (read_catalog_first _ _ _ _ _ _ _ _ Hc Hr) as (ordinals & [He Ho _ Hend]).
  by exists ordinals.
Qed.

(** ** Where the code falls short *)

(** The position 3 of this session was a closing one; once the session is closed, a
    replay up to that position calls it open, because the run that was retired took the
    journal's entry of the closing with it and [lifecycle_at] starts from [Open]. *)
Example closing_session_reported_open :
  v2_lifecycle (mp_snapshot closing_3) = LifecycleClosing ∧ cv_seq (mp_cursor closing_3) = 3%N ∧
  page2_lifecycle <$> replay_v2 closing_5
    {| u2_thread_id := "t"; u2_after := place_v2 3; u2_through := Some (place_v2 3); u2_limit := 2 |} = Ok LifecycleOpen.
Proof. vm_compute. auto. Qed.

(** An item whose identity holds a control character is accepted by the archive and by
    the window of a view, and from then on no page of the history that holds it can be
    read. *)
Example control_character_spoils_pages :
  is_ok (from_history [UserMessage tabbed []] 5) = true ∧ ha_end tabbed_archive = 1%N ∧
  HistoryArchive.history_page tabbed_archive management_codec 0 "o"
    {| gh_thread_id := "t"; gh_before := None; gh_cursor := None; gh_limit := 5 |}
  = Err (InvalidProjection "history item_id must be nonempty, unpadded, and printable").
Proof. vm_compute. auto. Qed.

(** ** Witnesses *)

Lemma world_0_fresh : Fresh world_0.
Proof. by split_and!. Qed.

Lemma both_views_agree_witness : projection_v1 (shown_v1 world_5) = projection_of (shown_v2 world_5).
Proof.
  exact (both_views_agree world_0 world_5 "o" "t" 5 20 (shown_v1 world_5) (shown_v2 world_5)
    (get_v2 "o" {| g2_thread_id := "t"; g2_history_limit := 5 |} 20 (dm_management (wo_daemon world_5))).2
    world_0_fresh world_5_reach ltac:(vm_compute; reflexivity) ltac:(vm_compute; reflexivity)).
Defined.

Lemma publication_is_all_or_nothing_witness :
  let out := publish_run "o" (MutationBegin view_run 7) 11 20 (wo_daemon world_1) in
  is_ok out.1 = true ∧ dm_store out.2 = dm_store (wo_daemon world_1).
Proof.
  cbv zeta. split; [vm_compute; reflexivity|].
  destruct (publish_run "o" (MutationBegin view_run 7) 11 20 (wo_daemon world_1)) as [out d'] eqn:Hp.
  exact (proj1 (proj2 (publication_is_all_or_nothing _ _ _ _ _ _ _ Hp))).
Defined.




Lemma subscription_v2_meets_contract_witness :
  length (page2_events (page_of_v2 world_5)) = 2 ∧ subscribe_validate_for (page_of_v2 world_5) subscription_v2 = Ok ().
Proof.
  split; [vm_compute; reflexivity|].
  exact (subscription_v2_meets_contract world_0 world_5 "o" subscription_v2 20 (page_of_v2 world_5)
    (subscribe_v2 "o" subscription_v2 20 (dm_management (wo_daemon world_5))).2 world_0_fresh world_5_reach
    ltac:(vm_compute; reflexivity)).
Defined.

(** What happens to a notifier, as data: a publication is called, moves on, or the task
    takes a turn. *)
Inductive Happening := Called (i : N) (confirmed : bool) | Moved (place : nat) | Polled.
Definition happens (log : N → SessionEventEnvelopeV2) (x : Notification) (h : Happening) : Notification :=
  let n := nn_notifier x in
  match h with
  | Called i confirmed =>
      {| nn_notifier := if confirmed : bool then publish_confirmed n (log i) else notifier_publish n (log i);
         nn_received := nn_received x; nn_overtaken := nn_overtaken x |}
  | Moved place =>
      match notifier_step n place with
      | Some n' => {| nn_notifier := n'; nn_received := entering n place ∪ nn_received x;
                      nn_overtaken := nn_overtaken x || overtakes n place |}
      | None => x
      end
  | Polled => {| nn_notifier := notifier_poll n; nn_received := nn_received x; nn_overtaken := nn_overtaken x |}
  end.

Lemma happenings_notified log hs x :
  Forall (λ h, match h with Called i _ => i <= u64_max | _ => True end)%N hs →
  rtc (notified log) x (foldl (happens log) x hs).
Proof.
  intros Hall. revert x. induction Hall as [|h hs Hh _ IH]; intros x; [reflexivity|]. simpl.
  destruct h as [i confirmed|place|]; simpl.
  - eapply rtc_l; [|apply IH]. destruct confirmed; by constructor.
  - destruct (notifier_step _ place) eqn:Hs; [|apply IH]. eapply rtc_l; [by apply notified_step|apply IH].
  - eapply rtc_l; [constructor|apply IH].
Qed.

(** Two publications in the wrong order, one of them confirmed *)
Definition notified_2 : Notification :=
  foldl (happens metadata_log) (subscribed 1) [Called 3 false; Called 2 true; Moved 0; Moved 1; Moved 1; Polled; Moved 1; Moved 1].

Lemma notifications_in_order_witness :
  nt_wire (nn_notifier notified_2) = [metadata_log 2] ∧
  ∃ count, nt_wire (nn_notifier notified_2) ⊆ logged metadata_log 2 count ∧
    last (nt_wire (Nat.iter (pending_work (nn_notifier notified_2)) notifier_poll (nn_notifier notified_2)))
      = last (logged metadata_log 2 count).
Proof.
  split; [vm_compute; reflexivity|].
  assert (rtc (notified metadata_log) (subscribed 1) notified_2) as Hr.
  { apply happenings_notified. repeat (constructor; [vm_compute; (discriminate || exact I)|]). constructor. }
  destruct (notifications_in_order metadata_log 1 notified_2 (λ i, eq_refl) Hr) as [(count & _ & Hw & _ & Hlast) _].
  exists count. split; [exact Hw|]. destruct Hlast as [Hl|(e & He & Hcl)].
  - vm_compute. reflexivity.
  - apply (bool_decide_unpack _). vm_compute. exact I.
  - exact Hl.
  - exfalso. vm_compute in He. injection He as <-. vm_compute in Hcl. discriminate.
Defined.

(** The queue is full when two more envelopes are published; the older one is written
    to the slot last, and the newest is never sent. *)
Example newest_is_lost :
  let calls := foldr (λ k hs, Called (N.of_nat (S k)) false :: Moved k :: Moved k :: hs) [] (seq 0 128) in
  let race := [Called 129 false; Moved 128; Moved 128; Called 130 false; Moved 129; Moved 129; Moved 129; Moved 128] in
  let x := foldl (happens metadata_log) (subscribed 0) (calls ++ race) in
  let n := Nat.iter 129 notifier_poll (nn_notifier x) in
  forallb returned (nt_publishers n) = true ∧ pending_work n = 0 ∧ nn_overtaken x = true ∧
  last (nt_wire n) = Some (metadata_log 129).
Proof. vm_compute. auto. Qed.

Lemma catalog_lists_each_session_once_witness : ∃ shown ordinals,
  read_catalog "o" 2 None [(catalog_registry, 0%N); (catalog_registry, 5%N)] = Ok (shown, None) ∧
  length shown = 3 ∧ StronglySorted N.lt ordinals ∧ length ordinals = length shown.
Proof.
  destruct (read_catalog "o" 2 None [(catalog_registry, 0%N); (catalog_registry, 5%N)]) as [[shown pending]|e] eqn:Hr;
    [|vm_compute in Hr; discriminate].
  assert (pending = None ∧ length shown = 3) as [-> Hlen].
  { vm_compute in Hr. injection Hr as <- <-. by split. }
  destruct (catalog_lists_each_session_once management_codec "o" 2 catalog_registry 0 [(catalog_registry, 5%N)] shown None)
    as (ordinals & Hs & Hf & _).
  - intros server [->|[->|[]%elem_of_nil]%elem_of_cons]%elem_of_cons; vm_compute; reflexivity.
  - exact Hr.
  - exists shown, ordinals. split_and!; [reflexivity|exact Hlen|exact Hs|exact (Forall2_length _ _ _ Hf)].
Defined.
