(* ===== verification/CoreContext.v ===== *)
(** * Model contexts: validation and pruning of the visible conversation

    [crates/whale-core/src/context.rs]. [validate_items] is the loop that the
    engine runs over every projection before a model request; [FullHistory] and
    [RecentTurns] are the two policies of the file. A cancellation token is read
    by the two [bool]s a policy's checks see. The section [grammar] gives the
    declarative form of what the loop accepts, a sequence of messages and of
    completely answered call batches, and proves it equivalent. *)

From stdpp Require Import pretty.
From S2P Require Import Prelude Protocol.

(** ** [validate_items] *)

(** [BTreeSet<&str>]: iteration in order, and [join(", ")] *)
Definition btree_set_iter (s : gset string) : list string := merge_sort String.le (elements s).
Definition join_ids (s : gset string) : string := String.concat ", " (btree_set_iter s).

Record Scan := {
  scan_seen : gset string;
  scan_pending : gset string;
  scan_started : bool;
}.

Definition scan_start : Scan := {| scan_seen := ∅; scan_pending := ∅; scan_started := false |}.

(** The body of the loop. *)
Definition validate_item (s : Scan) (index : nat) (item : CanonicalItem) : result string Scan :=
  match item with
  | ToolCall _ call_id _ _ _ _ =>
      reject_if (str_is_empty call_id)
        ("Context item " +:+ pretty index +:+ " has an empty tool call_id");;
      reject_if (bool_decide (call_id ∈ scan_seen s))
        ("Context contains duplicate tool call_id '" +:+ call_id +:+ "'");;
      reject_if (scan_started s && (scan_pending s != ∅))
        ("Context starts tool call '" +:+ call_id
           +:+ "' before the preceding call batch is fully answered");;
      Ok {| scan_seen := {[call_id]} ∪ scan_seen s; scan_pending := {[call_id]} ∪ scan_pending s;
            scan_started := false |}
  | ToolResult _ call_id _ _ =>
      reject_if (negb (bool_decide (call_id ∈ scan_pending s)))
        ("Context item " +:+ pretty index +:+ " has an orphan or duplicate tool result for '"
           +:+ call_id +:+ "'");;
      let rest := scan_pending s ∖ {[call_id]} in
      Ok {| scan_seen := scan_seen s; scan_pending := rest; scan_started := rest != ∅ |}
  | _ =>
      reject_if (scan_pending s != ∅)
        ("Context item " +:+ pretty index +:+ " interrupts an unanswered tool-call batch: "
           +:+ join_ids (scan_pending s));;
      Ok {| scan_seen := scan_seen s; scan_pending := scan_pending s; scan_started := false |}
  end.

Fixpoint validate_loop (index : nat) (s : Scan) (items : list CanonicalItem) : result string Scan :=
  match items with
  | [] => Ok s
  | item :: items => s ← validate_item s index item; validate_loop (S index) s items
  end.

Definition validate_items (items : list CanonicalItem) : result string () :=
  s ← validate_loop 0 scan_start items;
  reject_if (scan_pending s != ∅)
    ("Context contains unanswered tool calls: " +:+ join_ids (scan_pending s)).

Definition validate_model_context (context : ModelContext) : result string () :=
  validate_items (mc_items context).

(** ** The policies *)

Definition check_cancelled (is_cancelled : bool) : result string () :=
  reject_if is_cancelled "Context construction cancelled".

(** [FullHistoryContext::build]; [c1] and [c2] are what the two checks of the
    cancellation token read. *)
Definition full_history_build (request : ContextBuildRequest) (c1 c2 : bool) : result string ModelContext :=
  check_cancelled c1;;
  let context := {| mc_system_prompt := cbr_system_prompt request; mc_items := cbr_history request |} in
  validate_model_context context;;
  check_cancelled c2;;
  Ok context.

(** [RecentTurnsContext::new] *)
Definition recent_turns_new (max_turns : nat) : result string nat :=
  reject_if (max_turns == 0) "Recent-turn context policy requires max_turns > 0";;
  Ok max_turns.

(** [iter().enumerate().filter_map(..)]: the positions of the user messages *)
Fixpoint user_starts (index : nat) (items : list CanonicalItem) : list nat :=
  match items with
  | [] => []
  | item :: items =>
      if is_user_message item then index :: user_starts (S index) items
      else user_starts (S index) items
  end.

(** The index expression is in bounds whenever [max_turns] is positive, which
    [recent_turns_new] ensures; Rust panics out of bounds ([recent_turns_start_total]
    shows that the default [0] is never read). *)
Definition recent_turns_start (max_turns : nat) (history : list CanonicalItem) : nat :=
  let starts := user_starts 0 history in
  if bool_decide (max_turns < length starts) then nth (length starts - max_turns) starts 0
  else 0.

(** [RecentTurnsContext::build] *)
Definition recent_turns_build (max_turns : nat) (request : ContextBuildRequest) (c1 c2 : bool) :
    result string ModelContext :=
  check_cancelled c1;;
  validate_items (cbr_history request);;
  let start := recent_turns_start max_turns (cbr_history request) in
  let context := {| mc_system_prompt := cbr_system_prompt request;
                    mc_items := drop start (cbr_history request) |} in
  validate_model_context context;;
  check_cancelled c2;;
  Ok context.

(** ** The declarative form of a valid conversation *)

Inductive Group :=
  | Message (item : CanonicalItem)
  | Batch (calls results : list CanonicalItem).

Definition group_items (g : Group) : list CanonicalItem :=
  match g with Message item => [item] | Batch calls results => calls ++ results end.

Definition calls_of (items : list CanonicalItem) : list string := omap tool_call_id items.
Definition answers_of (items : list CanonicalItem) : list string := omap tool_result_call items.

(** A message is neither a call nor a result; a batch is one or more calls, then
    exactly one result per call in any order. *)
Definition group_ok (g : Group) : Prop :=
  match g with
  | Message item => is_tool_call item = false ∧ is_tool_result item = false
  | Batch calls results =>
      calls ≠ [] ∧ Forall (λ i, is_tool_call i = true) calls
      ∧ Forall (λ i, is_tool_result i = true) results
      ∧ answers_of results ≡ₚ calls_of calls
  end.

Definition Conversation (items : list CanonicalItem) : Prop :=
  (∃ groups, items = groups ≫= group_items ∧ Forall group_ok groups)
  ∧ NoDup (calls_of items) ∧ "" ∉ calls_of items.

(** ** The loop and the grammar *)

Section grammar.
Implicit Types (s : Scan) (items : list CanonicalItem).

Definition scan_inv s : Prop :=
  scan_pending s ⊆ scan_seen s ∧ (scan_pending s = ∅ → scan_started s = false).

Lemma scan_start_inv : scan_inv scan_start.
Proof. by split. Qed.

Lemma validate_item_inv s index item s' : scan_inv s → validate_item s index item = Ok s' → scan_inv s'.
Proof.
  intros [Hsub He] Hv. destruct item; simpl in Hv; inv_result; inv_bool; split; simpl; try set_solver.
  intros ->. by rewrite bool_decide_eq_true_2.
Qed.

(** The shape of what the loop accepts when [open] is the open batch: calls that
    join it (only while no result has come), the results that answer all that is
    pending, and then whole groups. *)
Definition Stretch (started : bool) (open : gset string) items : Prop :=
  ∃ calls results groups,
    items = calls ++ results ++ (groups ≫= group_items)
    ∧ Forall (λ i, is_tool_call i = true) calls ∧ Forall (λ i, is_tool_result i = true) results
    ∧ (started = true → calls = [])
    ∧ answers_of results ≡ₚ elements open ++ calls_of calls
    ∧ Forall group_ok groups.

Definition Resumes s items : Prop :=
  Stretch (scan_started s) (scan_pending s) items
  ∧ fresh_list (scan_seen s) (calls_of items) ∧ "" ∉ calls_of items.

Lemma calls_of_app i1 i2 : calls_of (i1 ++ i2) = calls_of i1 ++ calls_of i2.
Proof. apply omap_app. Qed.
Lemma answers_of_app i1 i2 : answers_of (i1 ++ i2) = answers_of i1 ++ answers_of i2.
Proof. apply omap_app. Qed.

Lemma answers_of_length results :
  Forall (λ i, is_tool_result i = true) results → length (answers_of results) = length results.
Proof.
  induction 1 as [|x results Hx _ IH]; [done|]. destruct x; try done.
  change (S (length (answers_of results)) = S (length results)). by rewrite IH.
Qed.
Lemma calls_of_length calls :
  Forall (λ i, is_tool_call i = true) calls → length (calls_of calls) = length calls.
Proof.
  induction 1 as [|x calls Hx _ IH]; [done|]. destruct x; try done.
  change (S (length (calls_of calls)) = S (length calls)). by rewrite IH.
Qed.

Lemma no_answers results :
  Forall (λ i, is_tool_result i = true) results → answers_of results ≡ₚ [] → results = [].
Proof.
  intros Hr Ha%Permutation_length. rewrite answers_of_length in Ha by done. by destruct results.
Qed.

(** A completely answered stretch of calls and results is one batch or nothing. *)
Lemma answered_stretch calls results :
  Forall (λ i, is_tool_call i = true) calls → Forall (λ i, is_tool_result i = true) results →
  answers_of results ≡ₚ calls_of calls →
  ∃ groups, calls ++ results = groups ≫= group_items ∧ Forall group_ok groups.
Proof.
  intros Hc Hr Ha. destruct calls as [|c calls].
  - exists []. by rewrite (no_answers results).
  - exists [Batch (c :: calls) results]. split; [by rewrite bind_cons, app_nil_r|].
    apply Forall_singleton. by split_and!.
Qed.

(** With no batch open the shape is a sequence of groups. *)
Lemma Stretch_idle items :
  Stretch false ∅ items ↔ ∃ groups, items = groups ≫= group_items ∧ Forall group_ok groups.
Proof.
  split.
  - intros (calls & results & groups & -> & Hc & Hr & _ & Ha & Hg).
    rewrite elements_empty in Ha.
    destruct (answered_stretch calls results) as (gs & Heq & Hgs); [done..|].
    exists (gs ++ groups). rewrite bind_app, <-Heq, app_assoc. auto using Forall_app_2.
  - intros (groups & -> & Hg). exists [], [], groups. rewrite elements_empty. by repeat constructor.
Qed.

(** The first group of a sequence, by the kind of the first item. *)
Lemma groups_head groups item items :
  Forall group_ok groups → item :: items = groups ≫= group_items →
  (is_tool_call item = true ∧ ∃ calls results groups',
     items = calls ++ results ++ (groups' ≫= group_items)
     ∧ Forall (λ i, is_tool_call i = true) calls ∧ Forall (λ i, is_tool_result i = true) results
     ∧ answers_of results ≡ₚ calls_of (item :: calls) ∧ Forall group_ok groups')
  ∨ (is_tool_call item = false ∧ is_tool_result item = false
     ∧ ∃ groups', items = groups' ≫= group_items ∧ Forall group_ok groups').
Proof.
  intros [|g groups' Hg Hgs]; simpl; [done|]. intros Heq.
  destruct g as [m|[|c calls] results]; simpl in *; simplify_eq.
  - right. destruct Hg as [??]. eauto.
  - by destruct Hg as (? & _).
  - left. destruct Hg as (_ & Hc & Hr & Ha). apply Forall_cons in Hc as [Hc1 Hc].
    split; [done|]. exists calls, results, groups'. by rewrite app_assoc.
Qed.

Lemma Stretch_call started open item c items :
  c ∉ open → tool_call_id item = Some c → (open = ∅ → started = false) →
  Stretch started open (item :: items) ↔
    ¬ (started = true ∧ open ≠ ∅) ∧ Stretch false ({[c]} ∪ open) items.
Proof.
  intros Hc Hid Hinv.
  assert (is_tool_call item = true) as Hcall by (by destruct item).
  assert (∀ calls, calls_of (item :: calls) = c :: calls_of calls) as Hcons.
  { intros calls. unfold calls_of. csimpl. by rewrite Hid. }
  assert (elements ({[c]} ∪ open) ≡ₚ c :: elements open) as Hel by (by apply elements_union_singleton).
  split.
  - intros (calls & results & groups & Heq & HC & HR & Hst & Ha & Hg).
    destruct calls as [|c' calls]; simpl in Heq.
    + destruct results as [|r results]; simpl in Heq.
      * apply groups_head in Heq as [(_ & calls & results & groups' & -> & HC' & HR' & Ha' & Hg')|(?&?)];
          [|congruence|done].
        apply Permutation_nil in Ha as [Ho _]%app_eq_nil. apply elements_empty_inv in Ho.
        apply leibniz_equiv in Ho. subst open. split; [naive_solver|].
        exists calls, results, groups'. rewrite Hel, elements_empty. simpl. by rewrite <-(Hcons calls).
      * injection Heq as -> _. apply Forall_cons in HR as [HR _]. by destruct r.
    + simplify_eq. apply Forall_cons in HC as [_ HC]. split; [naive_solver|].
      exists calls, results, groups. rewrite Hel. split_and!; try done.
      rewrite Ha, Hcons. symmetry. apply Permutation_middle.
  - intros [Hst (calls & results & groups & -> & HC & HR & _ & Ha & Hg)].
    exists (item :: calls), results, groups. rewrite Hel in Ha. split_and!; try done.
    + by constructor.
    + intros ->. exfalso. apply Hst. split; [done|]. intros ->. by specialize (Hinv eq_refl).
    + rewrite Ha, Hcons. apply Permutation_middle.
Qed.

Lemma Stretch_result started open item c items :
  (open = ∅ → started = false) → tool_result_call item = Some c →
  Stretch started open (item :: items) ↔
    c ∈ open ∧ Stretch (open ∖ {[c]} != ∅) (open ∖ {[c]}) items.
Proof.
  intros Hinv Hid.
  assert (is_tool_result item = true ∧ is_tool_call item = false) as [Hres Hcall] by (by destruct item).
  assert (∀ rs, answers_of (item :: rs) = c :: answers_of rs) as Hcons.
  { intros rs. unfold answers_of. csimpl. by rewrite Hid. }
  assert (c ∈ open → elements open ≡ₚ c :: elements (open ∖ {[c]})) as Hel.
  { intros Hc. rewrite (union_difference_singleton_L c open) at 1 by done.
    apply elements_union_singleton. set_solver. }
  split.
  - intros (calls & results & groups & Heq & HC & HR & Hst & Ha & Hg).
    destruct calls as [|c' calls]; simpl in Heq; [|apply Forall_cons in HC as [??]; congruence].
    destruct results as [|r results]; simpl in Heq.
    { apply groups_head in Heq as [(?&?)|(?&?&?)]; [congruence|congruence|done]. }
    simplify_eq. rewrite Hcons, app_nil_r in Ha.
    assert (c ∈ open) as Hc.
    { apply elem_of_elements. rewrite <-Ha. apply list_elem_of_here. }
    split; [done|]. apply Forall_cons in HR as [_ HR].
    exists [], results, groups. rewrite (Hel Hc) in Ha. apply Permutation_cons_inv in Ha.
    rewrite app_nil_r. by split_and!.
  - intros [Hc (calls & results & groups & -> & HC & HR & Hst & Ha & Hg)].
    destruct (decide (open ∖ {[c]} = ∅)) as [He|Hne].
    + rewrite He, elements_empty in *.
      destruct (answered_stretch calls results) as (gs & Heq & Hgs); [done..|].
      exists [], [item], (gs ++ groups). rewrite bind_app, <-Heq, app_assoc, (Hel Hc), Hcons. simpl.
      split_and!; try done; [by repeat constructor|by apply Forall_app_2].
    + rewrite bool_decide_eq_false_2 in Hst by done. rewrite (Hst eq_refl) in *.
      exists [], (item :: results), groups. rewrite (Hel Hc), Hcons, Ha. split_and!; try done.
      by constructor.
Qed.

Lemma Stretch_message started open item items :
  is_tool_call item = false → is_tool_result item = false →
  Stretch started open (item :: items) ↔ open = ∅ ∧ Stretch false ∅ items.
Proof.
  intros Hc Hr. rewrite Stretch_idle. split.
  - intros (calls & results & groups & Heq & HC & HR & _ & Ha & Hg).
    destruct calls as [|? calls]; simpl in Heq;
      [|apply Forall_cons in HC as [??]; simplify_eq; congruence].
    destruct results as [|? results]; simpl in Heq;
      [|apply Forall_cons in HR as [??]; simplify_eq; congruence].
    apply Permutation_nil in Ha as [Ho _]%app_eq_nil. apply elements_empty_inv, leibniz_equiv in Ho.
    apply groups_head in Heq as [(?&?)|(_&_&?)]; [congruence|done|done].
  - intros [-> (groups & -> & Hg)]. exists [], [], (Message item :: groups).
    rewrite elements_empty. by repeat constructor.
Qed.

(** One turn of the loop preserves what remains to be accepted. *)
Lemma validate_item_resumes s index item items :
  scan_inv s →
  Resumes s (item :: items) ↔ ∃ s', validate_item s index item = Ok s' ∧ Resumes s' items.
Proof.
  intros [Hsub He]. unfold Resumes.
  destruct item as [id c|id c p|id t sg en|id c ns n a r|id c o e] eqn:Hitem; simpl validate_item.
  1-3: rewrite <-Hitem, Stretch_message by (by subst);
    replace (calls_of (item :: items)) with (calls_of items) by (by subst);
    setoid_rewrite reject_bind_Ok; setoid_rewrite negb_false_iff;
    setoid_rewrite bool_decide_eq_true; split;
    [intros ((Hp & Hs) & ? & ?); eexists; split; [by split|]; simpl; by rewrite Hp
    |intros (s' & [Hp ?] & Hs & ? & ?); simplify_eq; simpl in *; by rewrite Hp in Hs].
  - change (calls_of (ToolCall id c ns n a r :: items)) with (c :: calls_of items).
    setoid_rewrite reject_bind_Ok. setoid_rewrite reject_bind_Ok. setoid_rewrite reject_bind_Ok.
    rewrite fresh_list_cons, not_elem_of_cons. split.
    + intros (Hs & (Hc & Hf) & Hne & Hn).
      apply (Stretch_call _ _ _ c) in Hs as [Hst Hs]; [|set_solver|done|done].
      eexists. split_and!; [by destruct c|by apply bool_decide_eq_false_2| |done|done|done|done].
      destruct (scan_started s); [|done]. apply negb_false_iff, bool_decide_eq_true.
      destruct (decide (scan_pending s = ∅)); [done|naive_solver].
    + intros (s' & (Hn & Hc & Hst & Hs') & Hs & Hf & Hne). simplify_eq. simpl in *.
      apply bool_decide_eq_false in Hc. split_and!; [|done|done|by destruct c|done].
      apply (Stretch_call _ _ _ c); [set_solver|done|done|]. split; [|done].
      intros [H1 H2]. rewrite H1 in Hst. apply negb_false_iff, bool_decide_eq_true in Hst. done.
  - change (calls_of (ToolResult id c o e :: items)) with (calls_of items).
    setoid_rewrite reject_bind_Ok. setoid_rewrite negb_false_iff. setoid_rewrite bool_decide_eq_true.
    rewrite (Stretch_result _ _ _ c) by done. split.
    + intros ((Hc & Hs) & ? & ?). eexists. by split_and!.
    + intros (s' & (Hc & Hs') & Hs & ? & ?). simplify_eq. by split_and!.
Qed.

Lemma validate_loop_resumes index s items :
  scan_inv s →
  (∃ s', validate_loop index s items = Ok s' ∧ scan_pending s' = ∅) ↔ Resumes s items.
Proof.
  revert index s. induction items as [|item items IH]; intros index s Hinv; simpl.
  - split.
    + intros (s' & [= <-] & Hp). split; [|split; [apply fresh_list_nil|set_solver]].
      exists [], [], []. rewrite Hp, elements_empty. by repeat constructor.
    + intros [(calls & results & groups & Heq & _ & _ & _ & Ha & _) _].
      symmetry in Heq. apply app_eq_nil in Heq as [-> Heq].
      apply app_eq_nil in Heq as [-> _]. apply Permutation_nil in Ha as [Ho _]%app_eq_nil.
      apply elements_empty_inv, leibniz_equiv in Ho. eauto.
  - rewrite (validate_item_resumes s index) by done. setoid_rewrite bind_Ok. split.
    + intros (s' & (s1 & H1 & H2) & Hp). exists s1. split; [done|].
      apply (IH (S index)); [by eapply validate_item_inv|eauto].
    + intros (s1 & H1 & H2). apply (IH (S index)) in H2 as (s' & ? & ?); [|by eapply validate_item_inv].
      eauto.
Qed.

Lemma validate_items_Conversation items : validate_items items = Ok () ↔ Conversation items.
Proof.
  transitivity (∃ s, validate_loop 0 scan_start items = Ok s ∧ scan_pending s = ∅).
  - unfold validate_items. rewrite bind_Ok. setoid_rewrite reject_if_Ok.
    setoid_rewrite negb_false_iff. by setoid_rewrite bool_decide_eq_true.
  - rewrite validate_loop_resumes by apply scan_start_inv.
    unfold Resumes, Conversation. simpl. by rewrite Stretch_idle, fresh_list_empty.
Qed.
End grammar.

(** ** Pruning to recent turns *)

Definition user_count (items : list CanonicalItem) : nat := length (List.filter is_user_message items).

Section pruning.
Implicit Types (items history : list CanonicalItem).

Lemma user_starts_length index items : length (user_starts index items) = user_count items.
Proof.
  unfold user_count. revert index. induction items as [|i items IH]; intros index; simpl; [done|].
  destruct (is_user_message i); simpl; by rewrite IH.
Qed.

(** The [k]-th recorded position is that of the user message that [k] others precede. *)
Lemma user_starts_nth index items k :
  k < user_count items →
  ∃ pre u post, items = pre ++ u :: post ∧ nth k (user_starts index items) 0 = index + length pre
    ∧ is_user_message u = true ∧ user_count pre = k.
Proof.
  unfold user_count. revert index k. induction items as [|i items IH]; intros index k Hk; simpl in *; [lia|].
  destruct (is_user_message i) eqn:Hi; simpl in Hk.
  - destruct k as [|k]; [exists [], i, items; split_and!; simpl; auto|].
    destruct (IH (S index) k) as (pre & u & post & -> & Hn & Hu & Hc); [lia|].
    exists (i :: pre), u, post. simpl. rewrite Hi, Hn. split_and!; simpl; auto; lia.
  - destruct (IH (S index) k) as (pre & u & post & -> & Hn & Hu & Hc); [lia|].
    exists (i :: pre), u, post. simpl. rewrite Hi, Hn. split_and!; simpl; auto; lia.
Qed.

Lemma user_count_app items1 items2 : user_count (items1 ++ items2) = user_count items1 + user_count items2.
Proof. unfold user_count. by rewrite List.filter_app, length_app. Qed.

Lemma recent_turns_start_total max_turns history :
  0 < max_turns → max_turns < length (user_starts 0 history) →
  length (user_starts 0 history) - max_turns < length (user_starts 0 history).
Proof. lia. Qed.

(** Where the policy cuts. *)
Lemma recent_turns_cut max_turns history :
  0 < max_turns →
  let kept := drop (recent_turns_start max_turns history) history in
  user_count kept = min max_turns (user_count history)
  ∧ (kept = history ∨ ∃ pre u post, history = pre ++ kept ∧ kept = u :: post ∧ is_user_message u = true).
Proof.
  intros Hmax. unfold recent_turns_start. rewrite user_starts_length.
  case_bool_decide as Hlt; [|rewrite drop_0; split; [lia|auto]].
  destruct (user_starts_nth 0 history (user_count history - max_turns))
    as (pre & u & post & -> & -> & Hu & Hc); [lia|].
  simpl. rewrite drop_app_length. split; [|right; by exists pre, u, post].
  rewrite user_count_app in *. lia.
Qed.

(** A user message is a group by itself, so a conversation can be cut in front of it. *)
Lemma groups_cut groups pre u post :
  Forall group_ok groups → is_user_message u = true → pre ++ u :: post = groups ≫= group_items →
  ∃ groups', u :: post = groups' ≫= group_items ∧ Forall group_ok groups'.
Proof.
  intros Hg Hu. revert pre. induction Hg as [|g groups Hg Hgs IH]; intros pre; simpl; [by destruct pre|].
  intros Heq. apply app_eq_inv in Heq as [(k & -> & Hk)|(k & Hk & Heq)]; [|].
  - apply (IH k). done.
  - destruct k as [|v k]; [simpl in Heq; exists groups; by rewrite Heq|].
    injection Heq as -> Heq.
    destruct g as [m|calls results]; simpl in Hk.
    + destruct pre as [|? [|? ?]]; [|done|done]. injection Hk as -> <-.
      exists (Message v :: groups). subst post. split; [done|by constructor].
    + exfalso. destruct Hg as (_ & Hc & Hr & _).
      assert (v ∈ calls ++ results) as [Hv|Hv]%elem_of_app by (rewrite Hk; set_solver).
      * rewrite Forall_forall in Hc. specialize (Hc _ Hv). by destruct v.
      * rewrite Forall_forall in Hr. specialize (Hr _ Hv). by destruct v.
Qed.

Lemma Conversation_cut pre u post :
  is_user_message u = true → Conversation (pre ++ u :: post) → Conversation (u :: post).
Proof.
  intros Hu [(groups & Heq & Hg) [Hnd Hne]]. split; [by eapply groups_cut|].
  rewrite calls_of_app in Hnd, Hne. apply NoDup_app in Hnd as (_ & _ & ?). set_solver.
Qed.

Lemma recent_turns_kept_valid max_turns history :
  0 < max_turns → Conversation history →
  Conversation (drop (recent_turns_start max_turns history) history).
Proof.
  intros Hmax Hc. destruct (recent_turns_cut max_turns history Hmax) as [_ [->|(pre & u & post & Hh & Hk & Hu)]]; [done|].
  rewrite Hk in *. rewrite Hh in Hc. by eapply Conversation_cut.
Qed.
End pruning.
