(* ===== verification/CoreSession.v ===== *)
(** * Thread sessions: history, admission limits and call repair

    [crates/whale-core/src/session.rs] with the errors of [error.rs]. The handles
    a session shares with the rest of the process (tool registry, adapter,
    provider, sampling options, context policy, journal) are the opaque types of
    the section, because no operation of the file looks inside them.
    [close_unanswered_tool_calls] is the repair of an interrupted turn; its new
    item ids are the argument [new_id]. *)

From stdpp Require Import pretty.
From S2P Require Import Prelude Protocol StoreState StoreRuntime CoreContext.

(** ** [error.rs] and [ModelError] of [model.rs] *)

Inductive ModelError :=
  | InvalidRequest (what : string)
  | UnsupportedCapability (what : string)
  | Transport (what : string)
  | ModelStream (what : string).

Inductive CoreError :=
  | CoreLimitExceeded (what : string)
  | CoreStore (e : StoreError)
  | CoreModel (e : ModelError)
  | InvalidConfiguration (what : string)
  | CoreAdapter (what : string)
  | CoreHttp (what : string)
  | CoreJson (what : string)
  | ToolNotFound (what : string)
  | ToolExecution (what : string)
  | ApprovalRejected (what : string)
  | ApprovalChannelClosed (what : string)
  | EventChannelClosed
  | InteractionUnavailable (what : string)
  | InteractionRequestInvalid (what : string)
  | InteractionCancelled (what : string)
  | InteractionResponseInvalid (what : string)
  | MaxStepsExceeded (steps : nat)
  | Internal (what : string).
#[export] Instance ModelError_eq_dec : EqDecision ModelError.
Proof. solve_decision. Defined.
#[export] Instance CoreError_eq_dec : EqDecision CoreError.
Proof. solve_decision. Defined.

(** [Display] of the two errors *)
Definition model_error_text (e : ModelError) : string :=
  match e with
  | InvalidRequest what => "Invalid model request: " +:+ what
  | UnsupportedCapability what => "Unsupported model capability: " +:+ what
  | Transport what => "Model transport error: " +:+ what
  | ModelStream what => "Model stream error: " +:+ what
  end.

Definition core_error_text (e : CoreError) : string :=
  match e with
  | CoreLimitExceeded what => "Session limit exceeded: " +:+ what
  | CoreStore e => "Session store error: " +:+ error_text e
  | CoreModel e => "Model error: " +:+ model_error_text e
  | InvalidConfiguration what => "Invalid configuration: " +:+ what
  | CoreAdapter what => "Adapter error: " +:+ what
  | CoreHttp what => "HTTP error: " +:+ what
  | CoreJson what => "JSON serialization error: " +:+ what
  | ToolNotFound what => "Tool not found: " +:+ what
  | ToolExecution what => "Tool execution error: " +:+ what
  | ApprovalRejected what => "Approval rejected: " +:+ what
  | ApprovalChannelClosed what => "Approval channel closed: " +:+ what
  | EventChannelClosed => "Event channel closed"
  | InteractionUnavailable what => "Interaction unavailable: " +:+ what
  | InteractionRequestInvalid what => "Invalid Interaction request: " +:+ what
  | InteractionCancelled what => "Interaction cancelled: " +:+ what
  | InteractionResponseInvalid what => "Invalid Interaction response: " +:+ what
  | MaxStepsExceeded steps => "Turn max steps exceeded: " +:+ pretty steps
  | Internal what => "Internal error: " +:+ what
  end.

(** ** The session *)

Section session.
Context {Registry Adapter Provider Options Policy Journal : Type}.

Record ThreadSession := {
  th_id : string;
  th_system_prompt : option string;
  th_history : list CanonicalItem;
  th_tools : Registry;
  th_adapter : option Adapter;
  th_provider : Provider;
  th_sampling_options : Options;
  th_agent_name : option string;
  th_context_policy : Policy;
  th_journal : option Journal;
  th_limits : option SessionLimits;
  th_accepted_turns : N;
}.

Definition th_eta (s : ThreadSession) : ThreadSession :=
  {| th_id := th_id s; th_system_prompt := th_system_prompt s; th_history := th_history s;
     th_tools := th_tools s; th_adapter := th_adapter s; th_provider := th_provider s;
     th_sampling_options := th_sampling_options s; th_agent_name := th_agent_name s;
     th_context_policy := th_context_policy s; th_journal := th_journal s;
     th_limits := th_limits s; th_accepted_turns := th_accepted_turns s |}.

(** [replace_history], and the assignment behind [append_item] *)
Definition replace_history (v : list CanonicalItem) (s : ThreadSession) : ThreadSession :=
  ltac:(update_field th_eta th_history v s).
(** [restore_accepted_turns] *)
Definition restore_accepted_turns (v : N) (s : ThreadSession) : ThreadSession :=
  ltac:(update_field th_eta th_accepted_turns v s).

(** [set_journal] *)
Definition set_journal (v : option Journal) (s : ThreadSession) : ThreadSession :=
  ltac:(update_field th_eta th_journal v s).

(** [with_id_prompt_and_provider]; [full_history] is [Arc::new(FullHistoryContext)]. *)
Definition with_id_prompt_and_provider (id : string) (system_prompt : option string)
    (provider : Provider) (tools : Registry) (options : Options) (full_history : Policy) : ThreadSession :=
  {| th_id := id; th_system_prompt := system_prompt; th_history := []; th_tools := tools;
     th_adapter := None; th_provider := provider; th_sampling_options := options;
     th_agent_name := None; th_context_policy := full_history; th_journal := None;
     th_limits := None; th_accepted_turns := 0 |}.

(** [with_id_and_prompt]; [http adapter] is [HttpModelProvider::new(adapter)]. *)
Definition with_id_and_prompt (http : Adapter → Provider) (id : string) (system_prompt : option string)
    (adapter : Adapter) (tools : Registry) (options : Options) (full_history : Policy) : ThreadSession :=
  {| th_id := id; th_system_prompt := system_prompt; th_history := []; th_tools := tools;
     th_adapter := Some adapter; th_provider := http adapter; th_sampling_options := options;
     th_agent_name := None; th_context_policy := full_history; th_journal := None;
     th_limits := None; th_accepted_turns := 0 |}.

(** [set_adapter] *)
Definition set_adapter (http : Adapter → Provider) (adapter : Adapter) (s : ThreadSession) : ThreadSession :=
  {| th_id := th_id s; th_system_prompt := th_system_prompt s; th_history := th_history s;
     th_tools := th_tools s; th_adapter := Some adapter; th_provider := http adapter;
     th_sampling_options := th_sampling_options s; th_agent_name := th_agent_name s;
     th_context_policy := th_context_policy s; th_journal := th_journal s;
     th_limits := th_limits s; th_accepted_turns := th_accepted_turns s |}.

(** [projected_view]: what a legacy stream provider is shown *)
Definition projected_view (s : ThreadSession) (projection : ModelContext) : ThreadSession :=
  {| th_id := th_id s; th_system_prompt := mc_system_prompt projection;
     th_history := mc_items projection; th_tools := th_tools s; th_adapter := th_adapter s;
     th_provider := th_provider s; th_sampling_options := th_sampling_options s;
     th_agent_name := th_agent_name s; th_context_policy := th_context_policy s;
     th_journal := None; th_limits := th_limits s; th_accepted_turns := th_accepted_turns s |}.

(** [set_limits] *)
Definition set_limits (limits : option SessionLimits) (s : ThreadSession) : result CoreError ThreadSession :=
  match limits with
  | Some limits => map_err InvalidConfiguration (SessionLimits_validate limits)
  | None => Ok ()
  end;;
  Ok {| th_id := th_id s; th_system_prompt := th_system_prompt s; th_history := th_history s;
        th_tools := th_tools s; th_adapter := th_adapter s; th_provider := th_provider s;
        th_sampling_options := th_sampling_options s; th_agent_name := th_agent_name s;
        th_context_policy := th_context_policy s; th_journal := th_journal s;
        th_limits := limits; th_accepted_turns := th_accepted_turns s |}.

(** [append_item], [append_items] *)
Definition append_items (items : list CanonicalItem) (s : ThreadSession) : ThreadSession :=
  replace_history (th_history s ++ items) s.
Definition append_item (item : CanonicalItem) (s : ThreadSession) : ThreadSession :=
  append_items [item] s.

(** ** Admission *)

Definition limit_of (field : SessionLimits → option N) (s : ThreadSession) : option N :=
  match th_limits s with Some l => field l | None => None end.

Definition check_history_with_input `{Externals} (s : ThreadSession) (input : list CanonicalItem) :
    result CoreError () :=
  match limit_of max_history_bytes s with
  | Some max =>
      bytes ← map_err CoreJson (history_bytes (th_history s) input);
      reject_if (max <? bytes)%N
        (CoreLimitExceeded ("max_history_bytes (" +:+ pretty max +:+ ") exceeded"))
  | None => Ok ()
  end.

Definition check_run_admission `{Externals} (s : ThreadSession) (input : list CanonicalItem) :
    result CoreError () :=
  match limit_of max_accepted_turns s with
  | Some max =>
      reject_if (max <=? th_accepted_turns s)%N
        (CoreLimitExceeded ("max_accepted_turns (" +:+ pretty max +:+ ") reached"))
  | None => Ok ()
  end;;
  check_history_with_input s input.

Definition accept_turn `{Externals} (input : list CanonicalItem) (s : ThreadSession) :
    result CoreError ThreadSession :=
  check_run_admission s input;;
  count ← ok_or (checked_add (th_accepted_turns s) 1) (CoreLimitExceeded "accepted turn counter overflow");
  Ok (restore_accepted_turns count s).

Definition check_history_limit `{Externals} (s : ThreadSession) : result CoreError () :=
  check_history_with_input s [].

(** [request_json_len] is the number of bytes [serde_json] writes for the request. *)
Definition check_model_request_limit `{Externals} (s : ThreadSession) (request_json_len : N) :
    result CoreError () :=
  match limit_of max_model_request_bytes s with
  | Some max =>
      bytes ← map_err CoreJson (serialized_bytes request_json_len);
      reject_if (max <? bytes)%N
        (CoreLimitExceeded ("max_model_request_bytes (" +:+ pretty max +:+ ") exceeded"))
  | None => Ok ()
  end.

(** ** Repair of an interrupted turn *)

(** [Vec::remove] at the position of the first occurrence, when there is one *)
Fixpoint remove_first (x : string) (l : list string) : list string :=
  match l with
  | [] => []
  | y :: l => if y == x then l else y :: remove_first x l
  end.

Definition track_call (unanswered : list string) (item : CanonicalItem) : list string :=
  match item with
  | ToolCall _ call_id _ _ _ _ => unanswered ++ [call_id]
  | ToolResult _ call_id _ _ => remove_first call_id unanswered
  | _ => unanswered
  end.

Definition unanswered_calls (items : list CanonicalItem) : list string :=
  foldl track_call [] items.

Definition unrecorded_text : string :=
  "No tool result was recorded before the run ended. The tool may have run or may still be running; execution and external side effects are unknown. The call was not retried.".

Definition close_results (new_id : nat → ItemId) (unanswered : list string) : list CanonicalItem :=
  imap (λ k call_id, tool_result (new_id k) call_id (OutputText unrecorded_text) true) unanswered.

(** [close_unanswered_tool_calls]: the results it adds and the new session.
    [history_start] is at most the length of the history, which only grows. *)
Definition close_unanswered_tool_calls (new_id : nat → ItemId) (history_start : nat) (s : ThreadSession) :
    list CanonicalItem * ThreadSession :=
  let results := close_results new_id (unanswered_calls (drop history_start (th_history s))) in
  (results, append_items results s).
End session.
Arguments ThreadSession : clear implicits.

(** ** Properties *)

Section repair.
Implicit Types (items turn : list CanonicalItem) (l : list string).

(** [l] lists the calls that the validation loop still waits for. *)
Definition tracks l (open : gset string) : Prop := NoDup l ∧ ∀ x, x ∈ l ↔ x ∈ open.

Lemma elem_of_remove_first x y l : NoDup l → y ∈ remove_first x l ↔ y ∈ l ∧ y ≠ x.
Proof.
  induction 1 as [|z l Hz Hl IH]; simpl; [set_solver|].
  case_bool_decide as Heq; [subst; set_solver|]. rewrite !elem_of_cons, IH. set_solver.
Qed.

Lemma NoDup_remove_first x l : NoDup l → NoDup (remove_first x l).
Proof.
  induction 1 as [|z l Hz Hl IH]; simpl; [constructor|].
  case_bool_decide; [done|]. apply NoDup_cons. split; [|done]. rewrite elem_of_remove_first by done. tauto.
Qed.

Lemma track_call_step l s index item s' :
  scan_inv s → tracks l (scan_pending s) → validate_item s index item = Ok s' →
  tracks (track_call l item) (scan_pending s').
Proof.
  intros [Hsub _] [Hnd Hl] Hv.
  destruct item; simpl in *; inv_result; inv_bool; simpl; try done.
  - split; [|set_solver]. apply NoDup_app. split_and!; [done| |apply NoDup_singleton]. set_solver.
  - split; [by apply NoDup_remove_first|]. intros ?. rewrite elem_of_remove_first by done. set_solver.
Qed.

Lemma track_calls l index s items s' :
  scan_inv s → tracks l (scan_pending s) → validate_loop index s items = Ok s' →
  tracks (foldl track_call l items) (scan_pending s') ∧ scan_inv s'.
Proof.
  revert l index s. induction items as [|i items IH]; intros l index s Hinv Ht Hv; simpl in *.
  - by inv_result.
  - apply bind_Ok in Hv as (s1 & H1 & H2).
    eapply (IH _ (S index)); [by eapply validate_item_inv|by eapply track_call_step|done].
Qed.

Lemma validate_loop_app index s items items' :
  validate_loop index s (items ++ items') =
    (s ← validate_loop index s items; validate_loop (index + length items) s items').
Proof.
  revert index s. induction items as [|i items IH]; intros index s; simpl.
  - by rewrite Nat.add_0_r.
  - destruct (validate_item s index i); simpl; [|done]. rewrite IH. by rewrite <-Nat.add_succ_comm.
Qed.

Lemma close_results_answers new_id l :
  answers_of (close_results new_id l) = l ∧ calls_of (close_results new_id l) = []
  ∧ Forall (λ i, is_tool_result i = true) (close_results new_id l).
Proof.
  unfold close_results. revert new_id. induction l as [|x l IH]; intros new_id; csimpl; [done|].
  destruct (IH (new_id ∘ S)) as (H1 & H2 & H3). split_and!; [|exact H2|by constructor].
  f_equal. exact H1.
Qed.

(** Answering what is open completes a conversation. *)
Lemma answer_open index s new_id l :
  scan_inv s → tracks l (scan_pending s) →
  ∃ s', validate_loop index s (close_results new_id l) = Ok s' ∧ scan_pending s' = ∅.
Proof.
  intros Hinv [Hnd Hl]. apply validate_loop_resumes; [done|].
  destruct (close_results_answers new_id l) as (Ha & Hc & Hf).
  split; [|rewrite Hc; split; [apply fresh_list_nil|set_solver]].
  exists [], (close_results new_id l), []. rewrite !app_nil_r, Ha. split_and!; try done.
  apply NoDup_Permutation; [done|apply NoDup_elements|]. intros x. by rewrite elem_of_elements.
Qed.

Lemma validate_items_iff items :
  validate_items items = Ok () ↔ ∃ s, validate_loop 0 scan_start items = Ok s ∧ scan_pending s = ∅.
Proof.
  unfold validate_items. rewrite bind_Ok. setoid_rewrite reject_if_Ok.
  setoid_rewrite negb_false_iff. by setoid_rewrite bool_decide_eq_true.
Qed.

(** The state the loop reaches on the accepted part of a conversation. *)
Lemma prefix_scan items rest :
  Conversation (items ++ rest) → ∃ s, validate_loop 0 scan_start items = Ok s ∧ scan_inv s.
Proof.
  rewrite <-validate_items_Conversation, validate_items_iff, validate_loop_app. setoid_rewrite bind_Ok.
  intros (s' & (s & H1 & H2) & _). exists s. split; [done|].
  eapply (track_calls [] 0 scan_start); [apply scan_start_inv|split; [constructor|set_solver]|done].
Qed.

Lemma close_completes new_id before turn rest :
  Conversation before → Conversation (before ++ turn ++ rest) →
  Conversation (before ++ turn ++ close_results new_id (unanswered_calls turn)).
Proof.
  intros Hb Hr. rewrite app_assoc in Hr. destruct (prefix_scan _ _ Hr) as (s & Hs & Hinv).
  apply validate_items_Conversation, validate_items_iff in Hb as (s0 & Hs0 & Hp0).
  assert (scan_inv s0) as Hinv0.
  { eapply (track_calls [] 0 scan_start); [apply scan_start_inv|split; [constructor|set_solver]|done]. }
  rewrite validate_loop_app, Hs0 in Hs. simpl in Hs.
  assert (tracks [] (scan_pending s0)) as H0 by (rewrite Hp0; split; [constructor|set_solver]).
  destruct (track_calls _ _ _ _ _ Hinv0 H0 Hs) as [Ht _].
  apply validate_items_Conversation, validate_items_iff.
  rewrite app_assoc, !validate_loop_app, Hs0. simpl. rewrite Hs. simpl. by apply answer_open.
Qed.

(** A complete turn has nothing to repair. *)
Lemma complete_needs_no_repair before turn :
  Conversation before → Conversation (before ++ turn) → unanswered_calls turn = [].
Proof.
  intros Hb Hr.
  apply validate_items_Conversation, validate_items_iff in Hb as (s0 & Hs0 & Hp0).
  apply validate_items_Conversation, validate_items_iff in Hr as (s & Hs & Hp).
  assert (scan_inv s0) as Hinv0.
  { eapply (track_calls [] 0 scan_start); [apply scan_start_inv|split; [constructor|set_solver]|done]. }
  rewrite validate_loop_app, Hs0 in Hs. simpl in Hs.
  assert (tracks [] (scan_pending s0)) as H0 by (rewrite Hp0; split; [constructor|set_solver]).
  destruct (track_calls _ _ _ _ _ Hinv0 H0 Hs) as [[_ Ht] _].
  rewrite Hp in Ht. unfold unanswered_calls. destruct (foldl _ _ _) as [|x l]; [done|]. set_solver.
Qed.
End repair.
