(* ===== verification/ModelStep.v ===== *)
(** * Model steps: requests, capabilities and the event stream of one step

    [crates/whale-core/src/model.rs] (requests, events, their conversions),
    [crates/whale-adapters/src/capabilities.rs] and
    [crates/whale-protocol/src/models.rs] (what a model accepts and may emit),
    [ModelStepState] and [checked_usage] of [crates/whale-core/src/engine.rs] (the
    check of the events of one step before a proposed call may execute). *)

From S2P Require Import Prelude Protocol StoreState CoreContext CoreSession.

(** ** [models.rs] *)

Inductive ModelCapabilityScope := ScopeProtocol | ScopeModel.
Inductive ModelContentKind := KindText | KindImage | KindAudio.
Inductive ModelOption := Temperature | MaxTokens | ReasoningEffort | ThinkingBudget | PromptCaching.
#[export] Instance ModelContentKind_eq_dec : EqDecision ModelContentKind.
Proof. solve_decision. Defined.
#[export] Instance ModelOption_eq_dec : EqDecision ModelOption.
Proof. solve_decision. Defined.

Record ModelCapabilities := {
  cap_scope : ModelCapabilityScope;
  user_content : list ModelContentKind;
  assistant_content : list ModelContentKind;
  tool_result_content : list ModelContentKind;
  tool_calls : bool;
  reasoning_text : bool;
  reasoning_signatures : bool;
  encrypted_reasoning : bool;
  cap_options : list ModelOption;
}.

(** [ModelCapabilities::text_only] *)
Definition text_only : ModelCapabilities :=
  {| cap_scope := ScopeModel; user_content := [KindText]; assistant_content := [KindText];
     tool_result_content := [KindText]; tool_calls := false; reasoning_text := false;
     reasoning_signatures := false; encrypted_reasoning := false; cap_options := [] |}.

(** ** [traits.rs] and [model.rs]: requests *)

Record ToolDefinition := { td_name : string; td_description : string; td_parameters : Value }.

Record SamplingOptions := {
  so_model : string;
  so_temperature : option f32;
  so_max_tokens : option N;
  so_reasoning_effort : option string;
  so_thinking_budget : option N;
  so_prompt_caching : bool;
}.

Record ModelRequest := {
  mr_context : RunContextInfo;
  mr_step_index : nat;
  mr_step_id : string;
  mr_model_context : ModelContext;
  mr_tools : list ToolDefinition;
  mr_options : SamplingOptions;
}.

(** ** [capabilities.rs] *)

(** [Debug] of the two enumerations *)
Definition kind_debug (k : ModelContentKind) : string :=
  match k with KindText => "Text" | KindImage => "Image" | KindAudio => "Audio" end.
Definition option_debug (o : ModelOption) : string :=
  match o with
  | Temperature => "Temperature" | MaxTokens => "MaxTokens" | ReasoningEffort => "ReasoningEffort"
  | ThinkingBudget => "ThinkingBudget" | PromptCaching => "PromptCaching"
  end.

Definition http_capabilities (api : string) : ModelCapabilities :=
  if api == "anthropic" then
    {| cap_scope := ScopeProtocol; user_content := [KindText; KindImage]; assistant_content := [KindText];
       tool_result_content := [KindText; KindImage]; tool_calls := true; reasoning_text := true;
       reasoning_signatures := true; encrypted_reasoning := false;
       cap_options := [Temperature; MaxTokens; ThinkingBudget; PromptCaching] |}
  else if api == "responses" then
    {| cap_scope := ScopeProtocol; user_content := [KindText; KindImage]; assistant_content := [KindText];
       tool_result_content := [KindText; KindImage]; tool_calls := true; reasoning_text := true;
       reasoning_signatures := false; encrypted_reasoning := true;
       cap_options := [Temperature; MaxTokens; ReasoningEffort] |}
  else
    {| cap_scope := ScopeProtocol; user_content := [KindText; KindImage]; assistant_content := [KindText];
       tool_result_content := [KindText]; tool_calls := true; reasoning_text := true;
       reasoning_signatures := false; encrypted_reasoning := false;
       cap_options := [Temperature; MaxTokens; ReasoningEffort] |}.

(** [value.is_finite() && (0.0..=2.0).contains(&value)] by the bits of the value:
    the encodings of the numbers from [0.0] to [2.0] are an initial segment, and
    [-0.0] is equal to [0.0]. *)
Definition temperature_in_range (bits : f32) : bool :=
  (bits <=? 1073741824)%N || (bits =? 2147483648)%N.

(** [AdapterError::ProtocolError] prints as this. *)
Definition protocol_error (message : string) : string := "Protocol error: " +:+ message.

Definition unsupported_option (caps : ModelCapabilities) (entry : bool * ModelOption) : bool :=
  entry.1 && negb (bool_decide (entry.2 ∈ cap_options caps)).

(** The text of the [AdapterError::ProtocolError] is the error here. *)
Definition validate_configuration (model : string) (tools : list ToolDefinition)
    (options : SamplingOptions) (caps : ModelCapabilities) : result string () :=
  reject_if (padded_or_blank model || (so_model options != model)) "Invalid or mismatched model identity";;
  reject_if (is_some_and (so_temperature options) (λ v, negb (temperature_in_range v)))
    "temperature must be finite and between 0 and 2";;
  reject_if ((so_max_tokens options == Some 0%N) || (so_thinking_budget options == Some 0%N))
    "Token limits must be positive";;
  reject_if (is_some_and (so_reasoning_effort options) blank) "reasoning_effort must not be blank";;
  reject_if (negb (bool_decide (tools = [])) && negb (tool_calls caps))
    "Unsupported capability: tool calls";;
  match find_first (unsupported_option caps)
          [(is_some (so_temperature options), Temperature);
           (is_some (so_max_tokens options), MaxTokens);
           (is_some (so_reasoning_effort options), ReasoningEffort);
           (is_some (so_thinking_budget options), ThinkingBudget);
           (so_prompt_caching options, PromptCaching)] with
  | Some (_, option) => Err ("Unsupported sampling option: " +:+ option_debug option)
  | None => Ok ()
  end.

Definition content_kind (block : CanonicalContent) : ModelContentKind :=
  match block with
  | ContentText _ => KindText
  | ContentImage _ _ _ => KindImage
  | ContentAudio _ _ _ => KindAudio
  end.

(** An image with neither data nor a URI. *)
Definition image_without_source (block : CanonicalContent) : bool :=
  match block with
  | ContentImage _ data uri => is_none_or data str_is_empty && is_none_or uri str_is_empty
  | _ => false
  end.

(** The closure [content] of [validate_items]. *)
Definition check_block (supported : list ModelContentKind) (position : string) (_ : ())
    (block : CanonicalContent) : result string () :=
  reject_if (image_without_source block) "Image requires data or URI";;
  reject_if (negb (bool_decide (content_kind block ∈ supported)))
    ("Unsupported " +:+ position +:+ " content: " +:+ kind_debug (content_kind block)).

Definition check_content (supported : list ModelContentKind) (position : string)
    (blocks : list CanonicalContent) : result string () :=
  fold_res (check_block supported position) () blocks.

Definition check_item (caps : ModelCapabilities) (_ : ()) (item : CanonicalItem) : result string () :=
  match item with
  | UserMessage _ blocks => check_content (user_content caps) "user" blocks
  | AssistantMessage _ blocks _ => check_content (assistant_content caps) "assistant" blocks
  | Reasoning _ thinking signature encrypted =>
      reject_if (negb (str_is_empty thinking) && negb (reasoning_text caps)) "Unsupported reasoning text";;
      reject_if (is_some signature && negb (reasoning_signatures caps)) "Unsupported reasoning signature";;
      reject_if (is_some encrypted && negb (encrypted_reasoning caps)) "Unsupported encrypted reasoning"
  | ToolCall _ _ _ _ _ _ =>
      reject_if (negb (tool_calls caps)) "Unsupported capability: tool calls"
  | ToolResult _ _ output _ =>
      reject_if (negb (tool_calls caps)) "Unsupported capability: tool results";;
      match output with
      | OutputBlocks blocks => check_content (tool_result_content caps) "tool result" blocks
      | _ => reject_if (negb (bool_decide (KindText ∈ tool_result_content caps))) "Unsupported text tool result"
      end
  end.

(** [capabilities::validate_items] *)
Definition validate_capable_items (items : list CanonicalItem) (caps : ModelCapabilities) : result string () :=
  fold_res (check_item caps) () items.

(** ** [model.rs]: validation of a request *)

Definition validate_model_configuration (model : string) (tools : list ToolDefinition)
    (options : SamplingOptions) (caps : ModelCapabilities) : result ModelError () :=
  map_err (λ e, UnsupportedCapability (protocol_error e)) (validate_configuration model tools options caps).

Definition validate_model_request (request : ModelRequest) (caps : ModelCapabilities) : result ModelError () :=
  validate_model_configuration (so_model (mr_options request)) (mr_tools request) (mr_options request) caps;;
  map_err InvalidRequest (validate_model_context (mr_model_context request));;
  map_err (λ e, UnsupportedCapability (protocol_error e))
    (validate_capable_items (mc_items (mr_model_context request)) caps).

(** ** [model.rs]: the events of a step *)

Inductive ModelEvent :=
  | MItemStarted (item_id item_type : string) (phase : option MessagePhase)
  | MTextDelta (item_id delta : string)
  | MReasoningDelta (item_id delta : string)
  | MReasoningSignature (item_id signature : string)
  | MToolCallDelta (item_id call_id delta : string)
  | MItemCompleted (item : CanonicalItem)
  | MStepFinished (usage : UsageMetrics).

Definition into_agent (self : ModelEvent) (turn_id thread_id : string) : AgentStreamEvent :=
  match self with
  | MItemStarted item_id item_type phase => EvItemStarted turn_id item_id item_type phase
  | MTextDelta item_id delta => EvTextDelta turn_id item_id delta
  | MReasoningDelta item_id delta => EvReasoningDelta turn_id item_id delta
  | MReasoningSignature item_id signature => EvReasoningSignature turn_id item_id signature
  | MToolCallDelta item_id call_id delta => EvToolCallDelta turn_id item_id call_id delta
  | MItemCompleted item => EvItemCompleted turn_id item
  | MStepFinished usage => EvTurnCompleted turn_id thread_id usage
  end.

(** One event of a legacy adapter; [None] is skipped. *)
Definition adapt_event (event : AgentStreamEvent) : result ModelError (option ModelEvent) :=
  match event with
  | EvTurnStarted _ _ => Ok None
  | EvItemStarted _ item_id item_type phase => Ok (Some (MItemStarted item_id item_type phase))
  | EvTextDelta _ item_id delta => Ok (Some (MTextDelta item_id delta))
  | EvReasoningDelta _ item_id delta => Ok (Some (MReasoningDelta item_id delta))
  | EvReasoningSignature _ item_id signature => Ok (Some (MReasoningSignature item_id signature))
  | EvToolCallDelta _ item_id call_id delta => Ok (Some (MToolCallDelta item_id call_id delta))
  | EvItemCompleted _ item => Ok (Some (MItemCompleted item))
  | EvTurnCompleted _ _ usage => Ok (Some (MStepFinished usage))
  | EvTurnFailed _ _ error_code error_message => Err (ModelStream (error_code +:+ ": " +:+ error_message))
  | _ => Err (ModelStream "Adapter emitted a runtime-only event")
  end.

(** [adapt_stream]: the stream as the list of what it yields; it ends at the first error. *)
Fixpoint adapt_stream (source : list (result ModelError AgentStreamEvent)) : list (result ModelError ModelEvent) :=
  match source with
  | [] => []
  | Err e :: _ => [Err e]
  | Ok event :: source =>
      match adapt_event event with
      | Ok None => adapt_stream source
      | Ok (Some event) => Ok event :: adapt_stream source
      | Err e => [Err e]
      end
  end.

(** ** [engine.rs]: cumulative usage *)

Definition add_usage (left right : N) (field : string) : result ModelError N :=
  ok_or (checked_add left right) (ModelStream ("Cumulative model usage overflow: " +:+ field)).

(** [checked_usage] of [engine.rs] *)
Definition cumulative_usage (total step : UsageMetrics) : result ModelError UsageMetrics :=
  a ← add_usage (input_tokens total) (input_tokens step) "input_tokens";
  b ← add_usage (output_tokens total) (output_tokens step) "output_tokens";
  c ← add_usage (reasoning_tokens total) (reasoning_tokens step) "reasoning_tokens";
  d ← add_usage (cache_creation_input_tokens total) (cache_creation_input_tokens step)
        "cache_creation_input_tokens";
  e ← add_usage (cache_read_input_tokens total) (cache_read_input_tokens step) "cache_read_input_tokens";
  Ok {| input_tokens := a; output_tokens := b; reasoning_tokens := c;
        cache_creation_input_tokens := d; cache_read_input_tokens := e |}.

(** ** [engine.rs]: [ModelStepState] *)

Record ModelStepState := {
  st_finished : bool;
  st_item_ids : gset string;
  st_call_ids : gset string;
  st_pending : gmap string string;
}.

(** [ModelStepState::new] *)
Definition step_state_new (history : list CanonicalItem) : ModelStepState :=
  {| st_finished := false;
     st_item_ids := list_to_set (item_id <$> history);
     st_call_ids := list_to_set (calls_of history);
     st_pending := ∅ |}.

Definition invalid (message : string) : ModelError := ModelStream message.

(** [pending.values().any(|kind| kind != "assistant_message")] *)
Definition unfinished_items (pending : gmap string string) : bool :=
  existsb (λ kind, kind != "assistant_message") (btree_values pending).

(** The delta arm: [item_id] and the type that the event implies. *)
Definition observe_delta (self : ModelStepState) (item_id kind : string) : result ModelError ModelStepState :=
  reject_if (bool_decide (item_id ∈ st_item_ids self)) (invalid "Delta after model item completion");;
  let previous := default kind (st_pending self !! item_id) in
  reject_if (previous != kind) (invalid "Model item delta type changed");;
  Ok {| st_finished := st_finished self; st_item_ids := st_item_ids self;
        st_call_ids := st_call_ids self; st_pending := <[item_id := previous]> (st_pending self) |}.

(** The arm of a completed item: the call identities after it. *)
Definition observe_call (call_ids : gset string) (item : CanonicalItem) : result ModelError (gset string) :=
  match item with
  | ToolCall _ call_id _ name _ _ =>
      reject_if (blank call_id || blank name) (invalid "Model tool call requires call ID and name");;
      reject_if (bool_decide (call_id ∈ call_ids)) (invalid "Duplicate model tool call ID");;
      Ok ({[call_id]} ∪ call_ids)
  | _ => Ok call_ids
  end.

(** An error leaves a state that the engine drops with the step. *)
Definition observe (self : ModelStepState) (event : ModelEvent) : result ModelError ModelStepState :=
  reject_if (st_finished self) (invalid "Event after model step completion");;
  match event with
  | MStepFinished _ =>
      reject_if (unfinished_items (st_pending self))
        (invalid "Model step ended with unfinished tool or reasoning items");;
      Ok {| st_finished := true; st_item_ids := st_item_ids self; st_call_ids := st_call_ids self;
            st_pending := st_pending self |}
  | MItemCompleted item =>
      reject_if (is_user_message item || is_tool_result item) (invalid "Provider emitted a non-model item");;
      reject_if (bool_decide (item_id item ∈ st_item_ids self)) (invalid "Duplicate model item ID");;
      call_ids ← observe_call (st_call_ids self) item;
      Ok {| st_finished := false; st_item_ids := {[item_id item]} ∪ st_item_ids self;
            st_call_ids := call_ids; st_pending := delete (item_id item) (st_pending self) |}
  | MItemStarted item_id item_type _ =>
      reject_if (negb (bool_decide (item_type ∈ ["assistant_message"; "reasoning"; "tool_call"])))
        (invalid "Unknown model item type");;
      reject_if (bool_decide (item_id ∈ st_item_ids self) || is_some (st_pending self !! item_id))
        (invalid "Duplicate started model item ID");;
      Ok {| st_finished := false; st_item_ids := st_item_ids self; st_call_ids := st_call_ids self;
            st_pending := <[item_id := item_type]> (st_pending self) |}
  | MTextDelta item_id _ => observe_delta self item_id "assistant_message"
  | MToolCallDelta item_id _ _ => observe_delta self item_id "tool_call"
  | MReasoningDelta item_id _ | MReasoningSignature item_id _ => observe_delta self item_id "reasoning"
  end.

(** ** What an accepted step looks like *)

Definition completed_item (event : ModelEvent) : option CanonicalItem :=
  match event with MItemCompleted item => Some item | _ => None end.
Definition completed_items (events : list ModelEvent) : list CanonicalItem := omap completed_item events.

Definition is_finish (event : ModelEvent) : bool :=
  match event with MStepFinished _ => true | _ => false end.

(** The item an event opens or continues, when it is not a plain message. *)
Definition structured_item (event : ModelEvent) : option string :=
  match event with
  | MItemStarted item_id item_type _ =>
      if item_type == "assistant_message" then None else Some item_id
  | MReasoningDelta item_id _ | MReasoningSignature item_id _ | MToolCallDelta item_id _ _ => Some item_id
  | _ => None
  end.

Definition model_item (item : CanonicalItem) : Prop :=
  is_user_message item = false ∧ is_tool_result item = false.
Definition named_call (item : CanonicalItem) : Prop :=
  match item with
  | ToolCall _ call_id _ name _ _ => blank call_id = false ∧ blank name = false
  | _ => True
  end.

Section observe.
Implicit Types (events : list ModelEvent) (st : ModelStepState).

(** The step state after the accepted events. *)
Record Observed (st0 st : ModelStepState) events : Prop := {
  obs_ids : fresh_list (st_item_ids st0) (item_id <$> completed_items events);
  obs_ids_eq : st_item_ids st = add_list (item_id <$> completed_items events) (st_item_ids st0);
  obs_calls : fresh_list (st_call_ids st0) (calls_of (completed_items events));
  obs_calls_eq : st_call_ids st = add_list (calls_of (completed_items events)) (st_call_ids st0);
  obs_model : Forall (λ i, model_item i ∧ named_call i) (completed_items events);
  obs_finish : if st_finished st then ∃ pre u, events = pre ++ [MStepFinished u] ∧ existsb is_finish pre = false
               else existsb is_finish events = false;
  obs_structured : ∀ id, id ∈ omap structured_item events →
    id ∈ item_id <$> completed_items events ∨ ∃ kind, st_pending st !! id = Some kind ∧ kind ≠ "assistant_message";
}.

Lemma completed_items_snoc events e :
  completed_items (events ++ [e]) = completed_items events ++ option_list (completed_item e).
Proof. unfold completed_items. rewrite omap_app. simpl. by destruct (completed_item e). Qed.

Lemma observe_unfinished st e st' : observe st e = Ok st' → st_finished st = false.
Proof. unfold observe. by intros [? _]%reject_bind_Ok. Qed.

(** What one accepted event does to the four components. *)
Lemma observe_sets st e st' :
  observe st e = Ok st' →
  let done := option_list (completed_item e) in
  fresh_list (st_item_ids st) (item_id <$> done) ∧ st_item_ids st' = add_list (item_id <$> done) (st_item_ids st)
  ∧ fresh_list (st_call_ids st) (calls_of done) ∧ st_call_ids st' = add_list (calls_of done) (st_call_ids st)
  ∧ Forall (λ i, model_item i ∧ named_call i) done ∧ st_finished st' = is_finish e.
Proof.
  assert (∀ s : gset string, add_list [] s = s) as Hnil by (intros s; unfold add_list; set_solver).
  unfold observe, observe_delta. intros [Hf H]%reject_bind_Ok.
  destruct e as [| | | | |item|]; simpl in *; inv_result; simpl;
    try (split_and!; auto using fresh_list_nil, Hnil; fail).
  inv_bool. destruct item; simpl in *; inv_result; inv_bool; simpl; try done;
    unfold calls_of; simpl; rewrite ?Hnil, ?add_list_cons, ?Hnil;
    split_and!; auto using fresh_list_nil;
    try (apply fresh_list_cons; split; [done|apply fresh_list_nil]);
    repeat constructor; done.
Qed.

Lemma existsb_snoc {A} (p : A → bool) l x : existsb p (l ++ [x]) = existsb p l || p x.
Proof. rewrite existsb_app. simpl. by rewrite orb_false_r. Qed.

(** A structured item in progress stays recorded until it is completed. *)
Lemma observe_pending st e st' id :
  observe st e = Ok st' →
  (∃ kind, st_pending st !! id = Some kind ∧ kind ≠ "assistant_message") ∨ structured_item e = Some id →
  id ∈ item_id <$> option_list (completed_item e)
  ∨ ∃ kind, st_pending st' !! id = Some kind ∧ kind ≠ "assistant_message".
Proof.
  unfold observe, observe_delta. intros [Hf H]%reject_bind_Ok.
  assert (∀ d kind, (default kind (st_pending st !! d) != kind) = false →
    (∃ k, st_pending st !! id = Some k ∧ k ≠ "assistant_message") →
    ∃ k, <[d := default kind (st_pending st !! d)]> (st_pending st) !! id = Some k ∧ k ≠ "assistant_message")
    as Hdelta.
  { intros d kind Hd (k & Hk & Hne). exists k. split; [|done].
    destruct (decide (d = id)) as [->|]; [by rewrite lookup_insert_eq, Hk|by rewrite lookup_insert_ne]. }
  destruct e as [i ty p|i d|i d|i d|i c d|item|u]; simpl in *.
  - inv_result. inv_bool. intros [(k & Hk & Hne)|Hs]; right; simpl.
    + exists k. split; [|done]. rewrite lookup_insert_ne; [done|]. intros ->.
      match goal with Hn : is_some _ = false |- _ => by rewrite Hk in Hn end.
    + case_bool_decide; [done|]. simplify_eq. exists ty. by simplify_map_eq.
  - inv_result. intros [Hk|?]; [|done]. right. by apply Hdelta.
  - inv_result. inv_bool. intros [Hk|[= ->]]; right; simpl; [by apply Hdelta; [by apply negb_false_iff, bool_decide_eq_true|]|].
    exists "reasoning". rewrite lookup_insert_eq. by match goal with Hd : default _ _ = _ |- _ => rewrite Hd end.
  - inv_result. inv_bool. intros [Hk|[= ->]]; right; simpl; [by apply Hdelta; [by apply negb_false_iff, bool_decide_eq_true|]|].
    exists "reasoning". rewrite lookup_insert_eq. by match goal with Hd : default _ _ = _ |- _ => rewrite Hd end.
  - inv_result. inv_bool. intros [Hk|[= ->]]; right; simpl; [by apply Hdelta; [by apply negb_false_iff, bool_decide_eq_true|]|].
    exists "tool_call". rewrite lookup_insert_eq. by match goal with Hd : default _ _ = _ |- _ => rewrite Hd end.
  - inv_result. intros [(k & Hk & Hne)|?]; [|done]. simpl.
    destruct (decide (id = item_id item)) as [->|]; [left; by left|right]. exists k. by simplify_map_eq.
  - inv_result. intros [?|?]; [by right|done].
Qed.

Lemma observed_nil st : st_finished st = false → Observed st st [].
Proof.
  assert (∀ s : gset string, s = add_list [] s) as Hnil by (intros s; unfold add_list; set_solver).
  intros Hf. constructor; rewrite ?Hf; try apply fresh_list_nil; try apply Hnil; try done.
  intros id Hid. by apply elem_of_nil in Hid.
Qed.

Lemma observed_snoc st0 st events e st' :
  Observed st0 st events → observe st e = Ok st' → Observed st0 st' (events ++ [e]).
Proof.
  intros [H1 H2 H3 H4 H5 H6 H7] He. pose proof (observe_unfinished _ _ _ He) as Hf.
  destruct (observe_sets _ _ _ He) as (G1 & G2 & G3 & G4 & G5 & G6). rewrite Hf in H6.
  constructor; rewrite ?completed_items_snoc, ?fmap_app, ?calls_of_app.
  - apply fresh_list_app. by rewrite <-H2.
  - by rewrite add_list_app, <-H2.
  - apply fresh_list_app. by rewrite <-H4.
  - by rewrite add_list_app, <-H4.
  - by apply Forall_app_2.
  - rewrite G6. destruct (is_finish e) eqn:Hfe.
    + destruct e; try done. eauto.
    + by rewrite existsb_snoc, H6.
  - intros id. rewrite omap_app, elem_of_app. intros [Hid|Hid].
    + destruct (H7 id Hid) as [?|Hk]; [left; set_solver|].
      destruct (observe_pending st e st' id) as [?|?]; [done|by left|left; set_solver|by right].
    + destruct (observe_pending st e st' id) as [?|?]; [done| |left; set_solver|by right].
      right. simpl in Hid. destruct (structured_item e); set_solver.
Qed.

Lemma observe_all st0 events st :
  st_finished st0 = false → fold_res observe st0 events = Ok st → Observed st0 st events.
Proof.
  intros Hf H. eapply (fold_res_ind (λ done s, Observed st0 s done)); [done|by apply observed_nil|].
  intros; by eapply observed_snoc.
Qed.

(** A finished step has completed every structured item it opened. *)
Lemma finish_settled st u st' : observe st (MStepFinished u) = Ok st' →
  ∀ id kind, st_pending st' !! id = Some kind → kind = "assistant_message".
Proof.
  unfold observe. intros [_ [Hu H]%reject_bind_Ok]%reject_bind_Ok. simplify_eq. simpl.
  intros id kind Hk. unfold unfinished_items in Hu.
  destruct (decide (kind = "assistant_message")); [done|]. exfalso.
  rewrite <-not_true_iff_false in Hu. apply Hu, existsb_exists. exists kind.
  rewrite <-list_elem_of_In, elem_of_btree_values. split; [eauto|].
  by apply negb_true_iff, bool_decide_eq_false.
Qed.
End observe.
