(* ===== verification/Coordinator.v ===== *)
(** * Tool coordination: a batch of concurrent calls

    [crates/whale-core/src/coordinator.rs] and the cancellation checks of
    [execution.rs]. A batch runs one task per call; a task is the phase it has
    reached between two of its [await] points, and one turn of a task is a
    transition of the batch ([step]). What the outside world answers at an await
    point (the approval decision, whether the event channel took an event, what the
    handler returned) is the label of the transition, so a theorem about all label
    sequences is one about all schedules and all environments. The journal is the
    interface [Journal]; [StoreRuntime] provides one. *)

From S2P Require Import Prelude Protocol StoreState CoreContext CoreSession ModelStep.

(** ** The tool registry *)

(** The static part of the trait [ToolHandler]; its [execute] is the host's. *)
Record ToolHandler := {
  h_name : string;
  h_description : string;
  h_parameters : Value;
  h_supports_parallel : bool;
  h_require_approval : bool;
}.

Definition ToolRegistry := gmap string ToolHandler.

(** What the file takes from other crates: [serde_json::from_str] and the
    [jsonschema] crate, with the text of their errors. *)
Class ToolExternals := {
  json_from_str : string → result string Value;
  schema_build : Value → result string (Value → result string ());
}.

(** [compile_tool_schema] *)
Definition compile_tool_schema `{ToolExternals} (schema : Value) : result string (Value → result string ()) :=
  map_err (λ error, "Invalid tool parameter schema: " +:+ error) (schema_build schema).

(** [register] and [try_register] *)
Definition register `{ToolExternals} (self : ToolRegistry) (tool : ToolHandler) : result string ToolRegistry :=
  compile_tool_schema (h_parameters tool);;
  Ok (<[h_name tool := tool]> self).
(** [unregister] *)
Definition unregister (self : ToolRegistry) (name : string) : option ToolHandler * ToolRegistry :=
  (self !! name, delete name self).
(** [get_tool_definitions]; [DashMap] promises no order, this is one. *)
Definition get_tool_definitions (self : ToolRegistry) : list ToolDefinition :=
  (λ h, {| td_name := h_name h; td_description := h_description h; td_parameters := h_parameters h |})
    <$> btree_values self.

(** [session_registry.and_then(|r| r.get(name)).or_else(|| registry.get(name))] *)
Definition find_handler (registry : ToolRegistry) (session_registry : option ToolRegistry) (name : string) :
    option ToolHandler :=
  match session_registry ≫= (λ r, r !! name) with
  | Some handler => Some handler
  | None => registry !! name
  end.

(** ** One call before its execution *)

Inductive ApprovalDecision :=
  | Accept
  | Deny (reason : option string)
  | ModifyArguments (arguments : Value).

Record Prepared := {
  p_parallel : bool;
  p_record : ToolExecutionRecord;
}.

Section prepare.
Context `{ToolExternals}.
Variable (registry : ToolRegistry) (session_registry : option ToolRegistry) (has_events : bool).

(** [Err message] is the answer [error_result(message)]. [decision] is what the
    approval gate answered, where it is asked. *)
Definition decide_arguments (handler : ToolHandler) (args : Value)
    (decision : result CoreError ApprovalDecision) : result string Value :=
  if h_require_approval handler then
    reject_if (negb has_events) "Approval required but event stream is closed";;
    match decision with
    | Ok Accept => Ok args
    | Ok (ModifyArguments arguments) => Ok arguments
    | Ok (Deny reason) => Err ("Execution denied by user: " +:+ default "User denied execution" reason)
    | Err error => Err ("Approval failed: " +:+ core_error_text error)
    end
  else Ok args.

(** [execute_single_call] up to the barrier, for a call item. *)
Definition prepare_call (call_id name raw_arguments : string) (arguments : option Value)
    (decision : result CoreError ApprovalDecision) : result string Prepared :=
  handler ← ok_or (find_handler registry session_registry name)
              ("Tool '" +:+ name +:+ "' not found in registry");
  args ← match arguments with
         | Some args => Ok args
         | None => map_err (λ error, "Failed to parse tool arguments: " +:+ error)
                     (json_from_str raw_arguments)
         end;
  validate ← compile_tool_schema (h_parameters handler);
  map_err (λ error, "Invalid tool arguments: " +:+ error) (validate args);;
  final ← decide_arguments handler args decision;
  map_err (λ error, "Invalid approved tool arguments: " +:+ error) (validate final);;
  Ok {| p_parallel := h_supports_parallel handler;
        p_record := {| exec_call_id := call_id; exec_original_arguments := args;
                       exec_arguments := final |} |}.
End prepare.

(** ** The batch *)

(** Where a task is; from [Locked] to [Executing] it holds its guard of the
    parallel barrier. *)
Inductive Phase :=
  | Fresh
  | Ready (p : Prepared)
  | Locked (p : Prepared)
  | Intended (p : Prepared)
  | Executing (p : Prepared)
  | Produced (result : CanonicalItem)
  | Finished (result : CanonicalItem).

(** What a journal promises its users: [commit] of [StoreRuntime]. *)
Class Journal (J : Type) := journal_commit : string → RunMutation → eff J StoreError CommitReceipt.

Record Batch {J : Type} := {
  b_calls : list CanonicalItem;
  b_phases : list Phase;
  b_journal : option J;
  b_cancelled : bool;
  b_executions : list ToolExecutionRecord;
  b_events : list AgentStreamEvent;
  b_failure : option StoreError;
}.
Arguments Batch : clear implicits.

Inductive Label :=
  | LCancel
  | LPrepare (index : nat) (decision : result CoreError ApprovalDecision)
  | LAcquire (index : nat)
  | LIntent (index : nat)
  | LDispatch (index : nat) (sent : bool)
  | LComplete (index : nat) (answer : result string (CanonicalToolOutput * bool))
  | LOutcome (index : nat).

(** The guard a task holds: [Some true] a read guard, [Some false] a write guard. *)
Definition guard_of (p : Phase) : option bool :=
  match p with
  | Locked p | Intended p | Executing p => Some (p_parallel p)
  | _ => None
  end.

(** [barrier.read()] is granted when no writer holds the lock, [barrier.write()]
    when nobody does. *)
Definition grants (phases : list Phase) (parallel : bool) : bool :=
  if parallel then forallb (λ p, negb (bool_decide (guard_of p = Some false))) phases
  else forallb (λ p, bool_decide (guard_of p = None)) phases.

Section batch.
Context {J : Type} `{!Journal J} `{ToolExternals}.
Variable (registry : ToolRegistry) (session_registry : option ToolRegistry) (has_events : bool).
Variable (turn_id : string) (new_id : nat → ItemId).
Implicit Types (b : Batch J).

Definition set_phase (index : nat) (p : Phase) (b : Batch J) : Batch J :=
  {| b_calls := b_calls b; b_phases := <[index := p]> (b_phases b); b_journal := b_journal b;
     b_cancelled := b_cancelled b; b_executions := b_executions b; b_events := b_events b;
     b_failure := b_failure b |}.
Definition with_journal (j : option J) (b : Batch J) : Batch J :=
  {| b_calls := b_calls b; b_phases := b_phases b; b_journal := j;
     b_cancelled := b_cancelled b; b_executions := b_executions b; b_events := b_events b;
     b_failure := b_failure b |}.
Definition with_dispatch (r : ToolExecutionRecord) (sent : bool) (b : Batch J) : Batch J :=
  {| b_calls := b_calls b; b_phases := b_phases b; b_journal := b_journal b;
     b_cancelled := b_cancelled b; b_executions := b_executions b ++ [r];
     b_events := if sent
                 then b_events b ++ [EvToolExecutionStarted turn_id (exec_call_id r)
                                       (exec_original_arguments r) (exec_arguments r)]
                 else b_events b;
     b_failure := b_failure b |}.
Definition with_cancel (b : Batch J) : Batch J :=
  {| b_calls := b_calls b; b_phases := b_phases b; b_journal := b_journal b;
     b_cancelled := true; b_executions := b_executions b; b_events := b_events b;
     b_failure := b_failure b |}.
(** [cancellation.cancel(); return Err(error)] *)
Definition with_failure (e : StoreError) (b : Batch J) : Batch J :=
  {| b_calls := b_calls b; b_phases := b_phases b; b_journal := b_journal b;
     b_cancelled := true; b_executions := b_executions b; b_events := b_events b;
     b_failure := Some e |}.

Definition batch_new (calls : list CanonicalItem) (journal : option J) : Batch J :=
  {| b_calls := calls; b_phases := replicate (length calls) Fresh; b_journal := journal;
     b_cancelled := false; b_executions := []; b_events := []; b_failure := None |}.

Definition error_result (index : nat) (call_id message : string) : CanonicalItem :=
  tool_result (new_id index) call_id (OutputText message) true.

(** The [match] on the item and everything up to the barrier. *)
Definition prepared_phase (index : nat) (call : CanonicalItem)
    (decision : result CoreError ApprovalDecision) : Phase :=
  match call with
  | ToolCall _ call_id _ name arguments raw_arguments =>
      match prepare_call registry session_registry has_events call_id name raw_arguments arguments decision with
      | Ok p => Ready p
      | Err message => Produced (error_result index call_id message)
      end
  | _ => Produced (tool_result (new_id index) "unknown" (OutputText "Item was not a ToolCall") true)
  end.

Definition answer_of (index : nat) (p : Prepared) (output : CanonicalToolOutput) (is_error : bool) : Phase :=
  Produced (ToolResult (new_id index) (exec_call_id (p_record p)) output is_error).

Definition cancelled_text : string := "Execution cancelled before dispatch".

(** [journal.commit(..)], when there is a journal. *)
Definition commit_with {A} (b : Batch J) (op : RunMutation) (none : A)
    (some : CommitReceipt → result StoreError A) (k : A → Batch J → Batch J) : Batch J :=
  match b_journal b with
  | None => k none b
  | Some j =>
      match journal_commit turn_id op j with
      | (Ok receipt, j) =>
          match some receipt with
          | Ok a => k a (with_journal (Some j) b)
          | Err e => with_failure e (with_journal (Some j) b)
          end
      | (Err e, j) => with_failure e (with_journal (Some j) b)
      end
  end.

(** The call id of a result; [unreachable!] for another item. *)
Definition result_call (result : CanonicalItem) : string := default "" (tool_result_call result).

(** One turn of a task; [None] when the task is not at that point. *)
Definition step (b : Batch J) (l : Label) : option (Batch J) :=
  if b_failure b then None else
  match l with
  | LCancel => Some (with_cancel b)
  | LPrepare i decision =>
      match b_phases b !! i, b_calls b !! i with
      | Some Fresh, Some call => Some (set_phase i (prepared_phase i call decision) b)
      | _, _ => None
      end
  | LAcquire i =>
      match b_phases b !! i with
      | Some (Ready p) =>
          if grants (b_phases b) (p_parallel p) then Some (set_phase i (Locked p) b) else None
      | _ => None
      end
  | LIntent i =>
      match b_phases b !! i with
      | Some (Locked p) =>
          Some (if b_cancelled b then set_phase i (answer_of i p (OutputText cancelled_text) true) b
                else commit_with b (DispatchIntent (exec_call_id (p_record p)) (p_record p)) ()
                       (λ _, Ok ()) (λ _, set_phase i (Intended p)))
      | _ => None
      end
  | LDispatch i sent =>
      match b_phases b !! i with
      | Some (Intended p) =>
          let b := with_dispatch (p_record p) (has_events && sent) b in
          Some (if has_events && negb sent then
                  set_phase i (answer_of i p (OutputText "Run event stream closed before dispatch") true) b
                else if b_cancelled b then
                  set_phase i (answer_of i p (OutputText cancelled_text) true) b
                else set_phase i (Executing p) b)
      | _ => None
      end
  | LComplete i answer =>
      match b_phases b !! i with
      | Some (Executing p) =>
          Some (match answer with
                | Ok (output, is_error) => set_phase i (answer_of i p output is_error) b
                | Err error => set_phase i (answer_of i p (OutputText error) true) b
                end)
      | _ => None
      end
  | LOutcome i =>
      match b_phases b !! i with
      | Some (Produced result) =>
          Some (commit_with b (ToolOutcome (result_call result) result) result
                  (λ receipt, ok_or (receipt_result_item receipt)
                     (Invalid "Tool outcome commit did not return its canonical result"))
                  (λ item, set_phase i (Finished item)))
      | _ => None
      end
  end.

(** A schedule of the batch. *)
Fixpoint run_labels (b : Batch J) (labels : list Label) : option (Batch J) :=
  match labels with
  | [] => Some b
  | l :: labels => match step b l with Some b => run_labels b labels | None => None end
  end.

Definition finished_item (p : Phase) : option CanonicalItem :=
  match p with Finished item => Some item | _ => None end.

(** What [execute_calls_with_journal] has returned: an error at once, the results
    in the order of the calls when all are there, and nothing before that. *)
Definition batch_result (b : Batch J) : option (result StoreError (list CanonicalItem)) :=
  match b_failure b with
  | Some e => Some (Err e)
  | None => Ok <$> mapM finished_item (b_phases b)
  end.
End batch.

(** A journal that remembers what it has committed. *)
#[export] Instance logged_journal {J} `{!Journal J} : Journal (J * list RunMutation) := λ turn op j,
  match journal_commit turn op j.1 with
  | (Ok receipt, j1) => (Ok receipt, (j1, j.2 ++ [op]))
  | (Err e, j1) => (Err e, (j1, j.2))
  end.

(** The law of the interface: an outcome's receipt answers the same call. *)
Class JournalSpec (J : Type) `{!Journal J} : Prop :=
  journal_outcome : ∀ turn call_id result j receipt j' item,
    journal_commit turn (ToolOutcome call_id result) j = (Ok receipt, j') →
    receipt_result_item receipt = Some item → tool_result_call item = Some call_id.

#[export] Instance logged_journal_spec {J} `{!Journal J, !JournalSpec J} : JournalSpec (J * list RunMutation).
Proof.
  intros turn c r [j log] receipt j' item. unfold journal_commit, logged_journal. simpl.
  destruct (journal_commit turn _ j) as [[r1|e] j1] eqn:Hj; intros; simplify_eq.
  by eapply journal_outcome.
Qed.

(** ** Commits *)

Section commits.
Context {J : Type} `{!Journal J}.
Variable (turn_id : string).

Lemma commit_with_cases {A} (b : Batch J) op (none : A) some (k : A → Batch J → Batch J) :
  (∃ j e, commit_with turn_id b op none some k = with_failure e (with_journal (Some j) b))
  ∨ (b_journal b = None ∧ commit_with turn_id b op none some k = k none b)
  ∨ ∃ j receipt j' a, b_journal b = Some j ∧ journal_commit turn_id op j = (Ok receipt, j')
      ∧ some receipt = Ok a ∧ commit_with turn_id b op none some k = k a (with_journal (Some j') b).
Proof.
  unfold commit_with. destruct (b_journal b) as [j|]; [|auto].
  destruct (journal_commit turn_id op j) as [[r|e] j'] eqn:Hj; [|eauto].
  destruct (some r) as [a|e] eqn:Ha; [|eauto]. do 2 right. exists j, r, j', a. done.
Qed.

End commits.

(** Case analysis of a commit in the goal or in a hypothesis. *)
Ltac commit_cases :=
  match goal with
  | |- context [commit_with ?t ?b ?op ?n ?s ?k] =>
      let H := fresh in
      pose proof (commit_with_cases t b op n s k) as H;
      destruct H as [(? & ? & ->)|[[? ->]|(? & ? & ? & ? & ? & ? & ? & ->)]]
  end.

(** ** The barrier *)

Section barrier.
Context {J : Type} `{!Journal J} `{ToolExternals}.
Variable (registry : ToolRegistry) (session_registry : option ToolRegistry) (has_events : bool).
Variable (turn_id : string) (new_id : nat → ItemId).
Notation step := (step registry session_registry has_events turn_id new_id).
Implicit Types (b : Batch J) (phases : list Phase).

Definition barrier_ok phases : Prop :=
  ∀ i j p q, i ≠ j → phases !! i = Some p → phases !! j = Some q →
    guard_of p = Some false → guard_of q = None.

Lemma barrier_release phases i p :
  barrier_ok phases → guard_of p = None ∨ (∃ q, phases !! i = Some q ∧ guard_of q = guard_of p) →
  barrier_ok (<[i := p]> phases).
Proof.
  intros Hb Hp j k pj pk Hne Hj Hk Hg.
  apply list_lookup_insert_Some in Hj as [(<- & <- & Hlt)|[Hne' Hj]];
    apply list_lookup_insert_Some in Hk as [(<- & <- & _)|[Hne2 Hk]]; try done.
  - destruct Hp as [|(q & Hq & Heq)]; [congruence|]. eapply (Hb i k q pk); [done..|congruence].
  - destruct Hp as [|(q & Hq & Heq)]; [done|]. rewrite <-Heq. by eapply (Hb j i pj q).
  - by eapply (Hb j k pj pk).
Qed.

Lemma barrier_acquire phases i p :
  barrier_ok phases → guard_of <$> phases !! i = Some None → grants phases (p_parallel p) = true →
  barrier_ok (<[i := Locked p]> phases).
Proof.
  intros Hb Hi Hg j k pj pk Hne Hj Hk Hw.
  assert (∀ n q, phases !! n = Some q → if p_parallel p then guard_of q ≠ Some false else guard_of q = None) as Hall.
  { intros n q Hq%list_elem_of_lookup_2. unfold grants in Hg.
    destruct (p_parallel p);
      (apply forallb_forall with (x := q) in Hg; [|by apply list_elem_of_In]); by inv_bool. }
  apply list_lookup_insert_Some in Hj as [(<- & <- & Hlt)|[Hne' Hj]];
    apply list_lookup_insert_Some in Hk as [(<- & <- & _)|[Hne2 Hk]]; try done.
  - simpl in Hw. simplify_eq. specialize (Hall _ _ Hk). by destruct (p_parallel p).
  - specialize (Hall _ _ Hj). destruct (p_parallel p); congruence.
  - by eapply (Hb j k pj pk).
Qed.

Lemma step_barrier b l b' : barrier_ok (b_phases b) → step b l = Some b' → barrier_ok (b_phases b').
Proof.
  unfold Coordinator.step. destruct (b_failure b); [done|]. intros Hb Hs.
  assert (∀ i p q, b_phases b !! i = Some q → guard_of p = None ∨ guard_of q = guard_of p →
            barrier_ok (<[i := p]> (b_phases b))) as Hset.
  { intros i p q Hq [?|?]; apply barrier_release; eauto. }
  destruct l as [|i d|i|i|i sent|i a|i]; [by simplify_eq|..];
    destruct (b_phases b !! i) as [[]|] eqn:Hi; simplify_eq/=; try done.
  - destruct (b_calls b !! i) as [call|]; simplify_eq/=. eapply Hset; [done|]. left.
    unfold prepared_phase. destruct call; try done. by destruct (prepare_call _ _ _ _ _ _ _ _).
  - destruct (grants _ _) eqn:Hg; simplify_eq/=. apply barrier_acquire; [done| |done]. by rewrite Hi.
  - destruct (b_cancelled b); [eapply Hset; [done|by left]|].
    commit_cases; simpl; [done|eapply Hset; [done|by right]|eapply Hset; [done|by right]].
  - repeat case_match; simpl; (eapply Hset; [done|]); auto.
  - destruct a as [[o e]|e]; (eapply Hset; [done|]); by left.
  - commit_cases; simpl; [done|eapply Hset; [done|by left]|eapply Hset; [done|by left]].
Qed.
End barrier.

(** ** Invariants of a batch *)

Section invariants.
Context {J : Type} `{!Journal J} `{ToolExternals}.
Variable (registry : ToolRegistry) (session_registry : option ToolRegistry) (has_events : bool).
Variable (turn_id : string) (new_id : nat → ItemId).
Notation step := (step registry session_registry has_events turn_id new_id).
Notation run_labels := (run_labels registry session_registry has_events turn_id new_id).
Implicit Types (b : Batch J) (phases : list Phase) (calls : list CanonicalItem).

(** An invariant of the transitions holds after every schedule. *)
Lemma run_labels_ind (P : Batch J → Prop) b labels b' :
  (∀ b l b', P b → step b l = Some b' → P b') → P b → run_labels b labels = Some b' → P b'.
Proof.
  intros Hstep. revert b. induction labels as [|l labels IH]; intros b Hb; simpl; [congruence|].
  destruct (step b l) as [b1|] eqn:Hl; [|done]. apply IH. by eapply Hstep.
Qed.

Lemma reachable_barrier calls journal labels b :
  run_labels (batch_new calls journal) labels = Some b → barrier_ok (b_phases b).
Proof.
  apply (run_labels_ind (λ b, barrier_ok (b_phases b))); [intros; by eapply step_barrier|].
  intros i j p q _ Hi%lookup_replicate _ Hg. simpl in *. destruct Hi as [-> _]. done.
Qed.

(** What a task works on. *)
Definition phase_record (p : Phase) : option ToolExecutionRecord :=
  match p with
  | Ready p | Locked p | Intended p | Executing p => Some (p_record p)
  | _ => None
  end.
Definition phase_item (p : Phase) : option CanonicalItem :=
  match p with Produced r | Finished r => Some r | _ => None end.

Definition phase_for (call_id : string) (p : Phase) : Prop :=
  (∀ r, phase_record p = Some r → exec_call_id r = call_id)
  ∧ (∀ item, phase_item p = Some item → tool_result_call item = Some call_id).

Definition consistent calls b : Prop :=
  b_calls b = calls ∧ Forall2 (λ call p, ∃ id, tool_call_id call = Some id ∧ phase_for id p) calls (b_phases b).

Lemma consistent_set calls b i q p :
  consistent calls b → b_phases b !! i = Some q →
  (∀ call id, b_calls b !! i = Some call → tool_call_id call = Some id → phase_for id q → phase_for id p) →
  Forall2 (λ call p, ∃ id, tool_call_id call = Some id ∧ phase_for id p) calls (<[i := p]> (b_phases b)).
Proof.
  intros [<- Hf] Hq Hp. destruct (Forall2_lookup_r _ _ _ _ _ Hf Hq) as (call & Hcall & id & Hid & Hph).
  rewrite <-(list_insert_id (b_calls b) i call) by done. apply Forall2_insert; [done|eauto].
Qed.

Lemma phase_for_answer id i p o e q :
  phase_record q = Some (p_record p) → phase_for id q → phase_for id (answer_of new_id i p o e).
Proof.
  intros Hr [Hq _]. split; simpl; [done|]. intros item [= <-]. simpl. by rewrite (Hq _ Hr).
Qed.

Lemma phase_for_record id p q :
  phase_record p = phase_record q → phase_item q = None → phase_for id p → phase_for id q.
Proof. intros Hr Hi [H1 H2]. split; [by rewrite <-Hr|by rewrite Hi]. Qed.

Lemma prepared_phase_for i call id decision :
  tool_call_id call = Some id → phase_for id (prepared_phase registry session_registry has_events new_id i call decision).
Proof.
  destruct call as [| | |x c ns n a r|]; simpl; [done..| |done]. intros [= ->].
  destruct (prepare_call _ _ _ _ _ _ _ _) as [p|m] eqn:Hp; split; simpl; try done; [|by intros ? [= <-]].
  intros r0 [= <-]. unfold prepare_call in Hp. by inv_result.
Qed.

Lemma step_consistent `{!JournalSpec J} calls b l b' :
  consistent calls b → step b l = Some b' → consistent calls b'.
Proof.
  unfold Coordinator.step. destruct (b_failure b); [done|]. intros Hc Hs. pose proof Hc as [Hcalls Hf].
  destruct l as [|i d|i|i|i sent|i a|i]; [by simplify_eq|..];
    destruct (b_phases b !! i) as [q|] eqn:Hi; try done; destruct q as [|p|p|p|p|r|r]; simplify_eq/=.
  - destruct (b_calls b !! i) as [call|] eqn:Hcall; simplify_eq/=. split; [done|].
    eapply consistent_set; [done..|]. intros c id Hc' Hid _. simplify_eq. by apply prepared_phase_for.
  - destruct (grants _ _); simplify_eq/=. split; [done|].
    eapply consistent_set; [done..|]. intros c id _ _. by apply phase_for_record.
  - destruct (b_cancelled b).
    { split; [done|]. eapply consistent_set; [done..|]. intros c id _ _. by apply phase_for_answer. }
    commit_cases; simpl; (split; [done|]); [done|..]; (eapply consistent_set; [done..|]); intros c id _ _;
      by apply phase_for_record.
  - repeat case_match; simpl; (split; [done|]); (eapply consistent_set; [done..|]); intros c id _ _;
      first [by apply phase_for_answer|by apply phase_for_record].
  - destruct a as [[o e]|e]; (split; [done|]); (eapply consistent_set; [done..|]); intros c id _ _;
      by apply phase_for_answer.
  - commit_cases; simpl; (split; [done|]); [done|..]; (eapply consistent_set; [done..|]); intros c id _ _ [_ Hr].
    + split; simpl; [done|]. intros ? [= <-]. by apply Hr.
    + split; simpl; [done|]. intros ? [= <-]. specialize (Hr _ eq_refl).
      match goal with Hj : journal_commit _ _ _ = _, Hok : ok_or _ _ = Ok _ |- _ =>
        apply ok_or_Ok in Hok; apply (journal_outcome _ _ _ _ _ _ _ Hj) in Hok; rewrite Hok end.
      unfold result_call. by rewrite Hr.
Qed.

Lemma reachable_consistent `{!JournalSpec J} calls journal labels b :
  Forall (λ i, is_tool_call i = true) calls →
  run_labels (batch_new calls journal) labels = Some b → consistent calls b.
Proof.
  intros Hcalls. apply (run_labels_ind (consistent calls)); [intros; by eapply step_consistent|].
  split; [done|]. simpl. induction Hcalls as [|c calls Hc _ IH]; simpl; constructor; [|done].
  destruct c as [| | |? id ? ? ? ?|]; try done. exists id. by repeat split.
Qed.

(** The results of a complete batch answer the calls in their order. *)
Lemma batch_answers `{!JournalSpec J} calls b results :
  consistent calls b → batch_result b = Some (Ok results) →
  answers_of results = calls_of calls ∧ Forall (λ i, is_tool_result i = true) results.
Proof.
  unfold batch_result. intros [_ Hf]. destruct (b_failure b); [done|].
  destruct (mapM finished_item (b_phases b)) as [rs|] eqn:Hm; [|done]. intros [= <-].
  apply mapM_Some in Hm. revert rs Hm. induction Hf as [|call p calls phases (id & Hid & Hp) Hf IH]; intros rs Hm.
  { apply Forall2_nil_inv_l in Hm as ->. done. }
  apply Forall2_cons_inv_l in Hm as (r & rs' & Hr & Hm & ->). destruct (IH _ Hm) as [Ha Hall].
  destruct p as [| | | | | |r']; simplify_eq/=. destruct Hp as [_ Hp]. specialize (Hp _ eq_refl).
  unfold answers_of, calls_of in *. csimpl. rewrite Hp, Hid, Ha. split; [done|].
  constructor; [by destruct r|done].
Qed.
End invariants.

(** ** What reaches the journal *)

Definition intent_for (id : string) (op : RunMutation) : option ToolExecutionRecord :=
  match op with DispatchIntent c r => if c == id then Some r else None | _ => None end.
Definition outcome_for (id : string) (op : RunMutation) : option CanonicalItem :=
  match op with ToolOutcome c r => if c == id then Some r else None | _ => None end.
(** The committed intents and outcomes of one call. *)
Definition intents (id : string) (log : list RunMutation) : list ToolExecutionRecord := omap (intent_for id) log.
Definition outcomes (id : string) (log : list RunMutation) : list CanonicalItem := omap (outcome_for id) log.

(** What is committed for a call by the phase of its task. *)
Definition entry_ok (failed : bool) (log : list RunMutation) (id : string) (p : Phase) : Prop :=
  match p with
  | Fresh | Ready _ | Locked _ => intents id log = [] ∧ outcomes id log = []
  | Intended p | Executing p => intents id log = [p_record p] ∧ outcomes id log = []
  | Produced _ => length (intents id log) <= 1 ∧ length (outcomes id log) <= (if failed then 1 else 0)
  | Finished _ => length (intents id log) <= 1 ∧ length (outcomes id log) = 1
  end.

Section ledger.
Context {J : Type} `{!Journal J, !JournalSpec J} `{ToolExternals}.
Variable (registry : ToolRegistry) (session_registry : option ToolRegistry) (has_events : bool).
Variable (turn_id : string) (new_id : nat → ItemId).
Notation step := (step registry session_registry has_events turn_id new_id).
Notation run_labels := (run_labels registry session_registry has_events turn_id new_id).
Implicit Types (b : Batch (J * list RunMutation)) (calls : list CanonicalItem).

Definition call_at calls (i : nat) : option string := calls !! i ≫= tool_call_id.

Definition ledger calls b : Prop :=
  ∃ j log, b_journal b = Some (j, log) ∧
    ∀ i id p, call_at calls i = Some id → b_phases b !! i = Some p →
      entry_ok (is_some (b_failure b)) log id p.

Lemma call_at_inj calls i j id :
  NoDup (calls_of calls) → call_at calls i = Some id → call_at calls j = Some id → i = j.
Proof.
  unfold call_at. revert i j. induction calls as [|c calls IH]; intros i j Hnd Hi Hj; [done|].
  unfold calls_of in Hnd. csimpl in Hnd.
  assert (∀ k, calls !! k ≫= tool_call_id = Some id → id ∈ omap tool_call_id calls) as Hin.
  { intros k Hk. destruct (calls !! k) as [c'|] eqn:Hc; [|done].
    apply list_elem_of_omap. exists c'. split; [by eapply list_elem_of_lookup_2|done]. }
  destruct (tool_call_id c) as [id'|] eqn:Hid.
  - apply NoDup_cons in Hnd as [Hnot Hnd].
    destruct i as [|i], j as [|j]; simpl in *; [done| | |f_equal; by apply IH].
    + rewrite Hid in Hi. simplify_eq. exfalso. by apply Hnot, (Hin j).
    + rewrite Hid in Hj. simplify_eq. exfalso. by apply Hnot, (Hin i).
  - destruct i as [|i], j as [|j]; simpl in *; [congruence..|f_equal; by apply IH].
Qed.

(** A task moves without a commit. *)
Lemma ledger_move calls b i q p :
  ledger calls b → b_phases b !! i = Some q →
  (∀ log id, entry_ok (is_some (b_failure b)) log id q → entry_ok (is_some (b_failure b)) log id p) →
  ledger calls (set_phase i p b).
Proof.
  intros (j & log & Hj & Hl) Hq Hp. exists j, log. split; [done|]. simpl.
  intros k id r Hk [(<- & <- & _)|[_ Hr]]%list_lookup_insert_Some; [|by eapply Hl].
  eapply Hp, Hl; [done|done].
Qed.

(** A commit for the call of task [i] leaves the entries of the others alone. *)
Lemma ledger_commit calls b i id op log p :
  NoDup (calls_of calls) → call_at calls i = Some id →
  (∀ k id' q, k ≠ i → call_at calls k = Some id' → b_phases b !! k = Some q →
     entry_ok (is_some (b_failure b)) log id' q) →
  (∀ id', id' ≠ id → intent_for id' op = None ∧ outcome_for id' op = None) →
  entry_ok (is_some (b_failure b)) (log ++ [op]) id p →
  ∀ k id' q, call_at calls k = Some id' → <[i := p]> (b_phases b) !! k = Some q →
    entry_ok (is_some (b_failure b)) (log ++ [op]) id' q.
Proof.
  intros Hnd Hi Hl Hop Hp k id' q Hk [(<- & <- & _)|[Hne Hr]]%list_lookup_insert_Some.
  { by simplify_eq. }
  assert (id' ≠ id) as Hid by (intros ->; by eapply Hne, call_at_inj).
  destruct (Hop id' Hid) as [H1 H2]. specialize (Hl k id' q ltac:(done) Hk Hr).
  assert (intents id' (log ++ [op]) = intents id' log ∧ outcomes id' (log ++ [op]) = outcomes id' log) as [He1 He2].
  { unfold intents, outcomes. rewrite !omap_app. simpl. by rewrite H1, H2, !app_nil_r. }
  unfold entry_ok in *. by rewrite He1, He2.
Qed.

Lemma logged_commit t op (jl : J * list RunMutation) r jl' :
  journal_commit t op jl = (r, jl') → jl'.2 = jl.2 ++ (if is_ok r then [op] else []).
Proof.
  unfold journal_commit, logged_journal. destruct (journal_commit t op jl.1) as [[?|?] ?];
    intros; simplify_eq/=; [done|by rewrite app_nil_r].
Qed.

Lemma entry_ok_failed log id p : entry_ok false log id p → entry_ok true log id p.
Proof. destruct p; simpl; try done. intros [? ->%Nat.le_0_r]. lia. Qed.

Lemma intents_snoc id log op : intents id (log ++ [op]) = intents id log ++ option_list (intent_for id op).
Proof. unfold intents. rewrite omap_app. simpl. by destruct (intent_for id op). Qed.
Lemma outcomes_snoc id log op : outcomes id (log ++ [op]) = outcomes id log ++ option_list (outcome_for id op).
Proof. unfold outcomes. rewrite omap_app. simpl. by destruct (outcome_for id op). Qed.

Lemma consistent_phase calls b i p :
  consistent calls b → b_phases b !! i = Some p → ∃ id, call_at calls i = Some id ∧ phase_for id p.
Proof.
  intros [_ Hf] Hp. destruct (Forall2_lookup_r _ _ _ _ _ Hf Hp) as (c & Hc & id & Hid & Hph).
  exists id. unfold call_at. by rewrite Hc.
Qed.

(** A commit of task [i]: it moves to [p], or the batch fails and it stays. *)
Lemma ledger_commit_with calls b i id q op {A} (none : A) some (p : A → Phase) :
  NoDup (calls_of calls) → ledger calls b → b_failure b = None →
  call_at calls i = Some id → b_phases b !! i = Some q →
  (∀ id', id' ≠ id → intent_for id' op = None ∧ outcome_for id' op = None) →
  (∀ log a, entry_ok false log id q → entry_ok false (log ++ [op]) id (p a)) →
  (∀ log receipt e, some receipt = Err e → entry_ok false log id q → entry_ok true (log ++ [op]) id q) →
  ledger calls (commit_with turn_id b op none some (λ a, set_phase i (p a))).
Proof.
  intros Hnd (j & log & Hj & Hl) Hfail Hi Hq Hop Hp Hbad. unfold commit_with. rewrite Hj. rewrite Hfail in Hl.
  destruct (journal_commit turn_id op (j, log)) as [[receipt|e] [j' log']] eqn:Hc;
    apply logged_commit in Hc; simpl in Hc; subst log'.
  - destruct (some receipt) as [a|e] eqn:Hs.
    + exists j', (log ++ [op]). split; [done|]. simpl.
      intros k id' r Hk Hr. pose proof (ledger_commit calls b i id op log (p a)) as Hlc.
      rewrite Hfail in *. simpl in Hlc.
      eapply Hlc; try done; [intros; by eapply Hl|]. apply Hp. by eapply Hl.
    + exists j', (log ++ [op]). split; [done|]. simpl. intros k id' r Hk Hr.
      destruct (decide (k = i)) as [->|Hne].
      { simplify_eq. eapply Hbad; [done|by eapply Hl]. }
      apply entry_ok_failed. destruct (Hop id') as [H1 H2]; [intros ->; by eapply Hne, call_at_inj|].
      specialize (Hl k id' r Hk Hr). unfold entry_ok in *.
      by rewrite intents_snoc, outcomes_snoc, H1, H2, !app_nil_r.
  - exists j', (log ++ []). split; [done|]. simpl. rewrite app_nil_r. intros k id' r Hk Hr.
    by eapply entry_ok_failed, Hl.
Qed.

Lemma step_ledger calls b l b' :
  NoDup (calls_of calls) → consistent calls b → ledger calls b → step b l = Some b' → ledger calls b'.
Proof.
  intros Hnd Hc Hl. unfold Coordinator.step. destruct (b_failure b) eqn:Hfail; [done|]. intros Hs.
  destruct l as [|i d|i|i|i sent|i a|i]; [simplify_eq; exact Hl|..];
    destruct (b_phases b !! i) as [q|] eqn:Hi; try done; destruct q as [|p|p|p|p|r|r]; simplify_eq/=.
  - destruct (b_calls b !! i) as [call|]; simplify_eq/=. eapply ledger_move; [done..|].
    rewrite Hfail. intros log id [H1 H2]. unfold prepared_phase.
    repeat case_match; simpl; rewrite ?H1, ?H2; simpl; auto.
  - destruct (grants _ _); simplify_eq/=. by eapply ledger_move.
  - destruct (b_cancelled b).
    { eapply ledger_move; [done..|]. rewrite Hfail. intros log id [H1 H2]. simpl. rewrite H1, H2. simpl. lia. }
    destruct (consistent_phase _ _ _ _ Hc Hi) as (id & Hid & Hr & _).
    eapply ledger_commit_with; [done..| | |done]; simpl; rewrite (Hr _ eq_refl).
    + intros id' Hne. by rewrite bool_decide_eq_false_2.
    + intros log _ [H1 H2]. rewrite intents_snoc, outcomes_snoc, H1, H2. simpl. by rewrite bool_decide_eq_true_2.
  - assert (ledger calls (with_dispatch turn_id (p_record p) (has_events && sent) b)) as Hl' by exact Hl.
    repeat case_match; (eapply ledger_move; [done..|]); simpl; rewrite ?Hfail; intros log id [Hin Hout];
      rewrite ?Hin, ?Hout; simpl; auto.
  - destruct a as [[o e]|e]; (eapply ledger_move; [done..|]); rewrite Hfail; intros log id [H1 H2]; simpl;
      rewrite ?H1, ?H2; simpl; auto.
  - destruct (consistent_phase _ _ _ _ Hc Hi) as (id & Hid & _ & Hr).
    eapply (ledger_commit_with calls b i id (Produced r) _ r _ Finished); try done; simpl;
      unfold result_call; rewrite (Hr _ eq_refl); simpl.
    + intros id' Hne. by rewrite bool_decide_eq_false_2.
    + intros log _ [H1 H2]. rewrite intents_snoc, outcomes_snoc. simpl. rewrite bool_decide_eq_true_2 by done.
      rewrite app_nil_r, length_app. simpl. lia.
    + intros log _ e _ [H1 H2]. rewrite intents_snoc, outcomes_snoc. simpl. rewrite bool_decide_eq_true_2 by done.
      rewrite app_nil_r, length_app. simpl. lia.
Qed.

Lemma reachable_ledger calls j labels b :
  Forall (λ i, is_tool_call i = true) calls → NoDup (calls_of calls) →
  run_labels (batch_new calls (Some (j, []))) labels = Some b → consistent calls b ∧ ledger calls b.
Proof.
  intros Hcalls Hnd. apply (run_labels_ind registry session_registry has_events turn_id new_id
    (λ b, consistent calls b ∧ ledger calls b)).
  - intros b1 l b2 [Hc Hl] Hs. split; [eapply step_consistent; [apply _|exact Hc|exact Hs]|eapply step_ledger; [exact Hnd|exact Hc|exact Hl|exact Hs]].
  - split; [by apply (reachable_consistent registry session_registry has_events turn_id new_id calls (Some (j, [])) [])|].
    exists j, []. split; [done|]. intros i id p _ Hp%lookup_replicate. destruct Hp as [-> _]. done.
Qed.
End ledger.

(** ** Termination and progress *)

Section progress.
Context {J : Type} `{!Journal J} `{ToolExternals}.
Variable (registry : ToolRegistry) (session_registry : option ToolRegistry) (has_events : bool).
Variable (turn_id : string) (new_id : nat → ItemId).
Notation step := (step registry session_registry has_events turn_id new_id).
Notation run_labels := (run_labels registry session_registry has_events turn_id new_id).
Implicit Types (b : Batch J) (phases : list Phase).

(** The turns a task has left. *)
Definition turns_left (p : Phase) : nat :=
  match p with
  | Fresh => 6 | Ready _ => 5 | Locked _ => 4 | Intended _ => 3 | Executing _ => 2
  | Produced _ => 1 | Finished _ => 0
  end.
Definition work_left b : nat :=
  if b_failure b then 0 else sum_list (turns_left <$> b_phases b).

(** The turns of a schedule: everything but the cancellations from outside. *)
Definition is_turn (l : Label) : bool := match l with LCancel => false | _ => true end.
Definition turns (labels : list Label) : list Label := filter is_turn labels.

Lemma sum_insert phases i p q :
  phases !! i = Some q → turns_left p < turns_left q →
  sum_list (turns_left <$> <[i := p]> phases) < sum_list (turns_left <$> phases).
Proof.
  revert i. induction phases as [|r phases IH]; intros [|i] Hi Hlt; simplify_eq/=; [lia|].
  specialize (IH i Hi Hlt). lia.
Qed.

Lemma sum_lookup phases i q :
  phases !! i = Some q → turns_left q <= sum_list (turns_left <$> phases).
Proof.
  revert i. induction phases as [|r phases IH]; intros [|i] Hi; simplify_eq/=; [lia|].
  specialize (IH i Hi). lia.
Qed.

(** A turn that ends the batch with an error leaves nothing to do; every other one
    moves its call on. *)
Lemma step_decreases b l b' : l ≠ LCancel → step b l = Some b' → work_left b' < work_left b.
Proof.
  unfold Coordinator.step, work_left. destruct (b_failure b) eqn:Hfail; [done|]. intros Hl Hs.
  destruct l as [|i d|i|i|i sent|i a|i]; [done|..];
    destruct (b_phases b !! i) as [q|] eqn:Hi; try done; pose proof (sum_lookup _ _ _ Hi) as Hleft;
    destruct q as [|p|p|p|p|r|r]; simplify_eq/=.
  - destruct (b_calls b !! i) as [call|]; simplify_eq/=. rewrite Hfail.
    eapply sum_insert; [done|]. unfold prepared_phase. repeat case_match; simpl; lia.
  - destruct (grants _ _); simplify_eq/=. rewrite Hfail. eapply sum_insert; [done|]. simpl. lia.
  - destruct (b_cancelled b); [|commit_cases]; simpl; rewrite ?Hfail; try lia;
      (eapply sum_insert; [done|]); simpl; lia.
  - repeat case_match; simplify_eq/=; try lia; (eapply sum_insert; [done|]); simpl; lia.
  - destruct a as [[o e]|e]; simpl; rewrite Hfail; (eapply sum_insert; [done|]); simpl; lia.
  - commit_cases; simpl; rewrite ?Hfail; try lia; (eapply sum_insert; [done|]); simpl; lia.
Qed.

Lemma labels_bounded b labels b' :
  run_labels b labels = Some b' → length (turns labels) + work_left b' <= work_left b.
Proof.
  revert b. induction labels as [|l labels IH]; intros b; simpl; [intros [= ->]; lia|].
  destruct (step b l) as [b1|] eqn:Hl; [|done]. intros Hr. specialize (IH b1 Hr).
  unfold turns in *. rewrite filter_cons. case_decide as Hc; simpl.
  - apply step_decreases in Hl; [lia|]. by intros ->.
  - destruct l; [|by destruct Hc..]. unfold Coordinator.step in Hl. destruct (b_failure b) eqn:Hf; [done|].
    injection Hl as <-. unfold work_left in *. simpl in IH. rewrite Hf in *. lia.
Qed.

Lemma grants_free phases parallel : Forall (λ p, guard_of p = None) phases → grants phases parallel = true.
Proof.
  intros Hf. unfold grants. destruct parallel; apply forallb_forall; intros p Hp%list_elem_of_In;
    rewrite Forall_forall in Hf; by rewrite (Hf p Hp).
Qed.

(** A batch that is not over has a task that can take its turn. *)
Lemma batch_progress b :
  length (b_calls b) = length (b_phases b) → batch_result b = None →
  ∃ l, l ≠ LCancel ∧ is_Some (step b l).
Proof.
  unfold batch_result, Coordinator.step. intros Hlen. destruct (b_failure b); [done|]. intros Hm.
  assert (∃ i p, b_phases b !! i = Some p ∧ finished_item p = None) as (i & p & Hi & Hp).
  { destruct (decide (Forall (λ p, is_Some (finished_item p)) (b_phases b))) as [Hall|Hex].
    - apply mapM_is_Some in Hall as [rs Hrs]. by rewrite Hrs in Hm.
    - apply not_Forall_Exists, Exists_exists in Hex as (p & [i Hi]%list_elem_of_lookup & Hp); [|apply _].
      exists i, p. split; [done|]. by destruct (finished_item p) eqn:?; [destruct Hp|]. }
  destruct (decide (Forall (λ p, guard_of p = None) (b_phases b))) as [Hfree|Hheld].
  - destruct p as [|p|p|p|p|r|r]; simplify_eq/=;
      try (eapply Forall_lookup_1 in Hfree; [|done]; done).
    + destruct (lookup_lt_is_Some_2 (b_calls b) i) as [c Hc]; [rewrite Hlen; by eapply lookup_lt_Some|].
      exists (LPrepare i (Ok Accept)). rewrite Hi, Hc. split; [done|eauto].
    + exists (LAcquire i). rewrite Hi, grants_free by done. split; [done|eauto].
    + exists (LOutcome i). rewrite Hi. split; [done|eauto].
  - apply not_Forall_Exists, Exists_exists in Hheld as (q & [j Hj]%list_elem_of_lookup & Hq); [|apply _].
    destruct q as [|q|q|q|q|r|r]; simpl in Hq; try done.
    + exists (LIntent j). rewrite Hj. split; [done|eauto].
    + exists (LDispatch j true). rewrite Hj. split; [done|eauto].
    + exists (LComplete j (Err "")). rewrite Hj. split; [done|eauto].
Qed.

Lemma step_lengths b l b' : step b l = Some b' →
  b_calls b' = b_calls b ∧ length (b_phases b') = length (b_phases b).
Proof.
  unfold Coordinator.step. destruct (b_failure b); [done|].
  destruct l as [|i d|i|i|i sent|i a|i]; intros Hs; simplify_eq/=; [done|..];
    repeat (case_match; simplify_eq/=); try commit_cases; simpl; by rewrite ?length_insert.
Qed.

Lemma reachable_lengths calls journal labels b :
  run_labels (batch_new calls journal) labels = Some b → length (b_calls b) = length (b_phases b).
Proof.
  apply (run_labels_ind registry session_registry has_events turn_id new_id
    (λ b, length (b_calls b) = length (b_phases b))).
  - intros b1 l b2 Hb [-> ->]%step_lengths. done.
  - simpl. by rewrite length_replicate.
Qed.
End progress.
