(* ===== verification/Engine.v ===== *)
(** * The turn engine

    [crates/whale-core/src/engine.rs]: [run_turn_with_context], [run_inner] and
    the history guard. A run is a computation on the state [Run]: the session (with
    its journal), the items generated so far, the usage, the recorded tool
    executions and the events that the consumer took. Cancellation may strike at
    every [await] point: [rn_polls] counts the points the run still passes before
    it is cancelled or dropped, and the theorems hold for every count. The event
    consumer closes after [rn_room] events. Context policies, providers and stream
    overrides are the host's, so they are functions that the session and the engine
    hold; a stream is the list of what it yields. The last section makes the store's
    journal an instance of [Journal]. *)

From stdpp Require Import pretty.
From S2P Require Import Prelude Protocol StoreState CoreContext CoreSession ModelStep Coordinator.

(** What the file takes from other crates: [serde_json::to_value] and the length
    of what [serde_json] writes for a request. *)
Class EngineExternals := {
  request_to_value : ModelRequest → result string Value;
  request_json_len : ModelRequest → N;
}.

(** The trait [ModelProvider]. *)
Record ModelProvider := {
  capabilities : string → result ModelError ModelCapabilities;
  stream : ModelRequest → result ModelError (list (result ModelError ModelEvent));
}.

(** The trait [ContextPolicy], as the engine calls it. *)
Definition ContextPolicy := ContextBuildRequest → result string ModelContext.

Section engine.
Context {J Adapter : Type} `{!Journal J} `{Externals, ToolExternals, EngineExternals}.

Notation Session := (ThreadSession ToolRegistry Adapter ModelProvider SamplingOptions ContextPolicy J).

Record AgentEngine := {
  (** [HttpModelProvider::with_client] of the legacy client, when there is one *)
  legacy_http_client : option (Adapter → ModelProvider);
  (** the registry of the coordinator *)
  engine_registry : ToolRegistry;
  stream_provider : option (Session → nat → result CoreError (list (result ModelError AgentStreamEvent)));
}.

Record Run := {
  rn_session : Session;
  rn_items : list CanonicalItem;
  rn_usage : UsageMetrics;
  rn_executions : list ToolExecutionRecord;
  rn_events : list AgentStreamEvent;
  rn_polls : option nat;
  rn_room : option nat;
  rn_fresh : nat;
}.

Definition rn_eta (r : Run) : Run :=
  {| rn_session := rn_session r; rn_items := rn_items r; rn_usage := rn_usage r;
     rn_executions := rn_executions r; rn_events := rn_events r; rn_polls := rn_polls r;
     rn_room := rn_room r; rn_fresh := rn_fresh r |}.
Definition set_session (v : Session) (r : Run) : Run := ltac:(update_field rn_eta rn_session v r).
Definition set_run_items (v : list CanonicalItem) (r : Run) : Run := ltac:(update_field rn_eta rn_items v r).
Definition set_usage (v : UsageMetrics) (r : Run) : Run := ltac:(update_field rn_eta rn_usage v r).
Definition set_executions (v : list ToolExecutionRecord) (r : Run) : Run := ltac:(update_field rn_eta rn_executions v r).
Definition set_events (v : list AgentStreamEvent) (r : Run) : Run := ltac:(update_field rn_eta rn_events v r).
Definition set_polls (v : option nat) (r : Run) : Run := ltac:(update_field rn_eta rn_polls v r).
Definition set_room (v : option nat) (r : Run) : Run := ltac:(update_field rn_eta rn_room v r).
Definition set_fresh (v : nat) (r : Run) : Run := ltac:(update_field rn_eta rn_fresh v r).

Definition Engine (A : Type) : Type := eff Run CoreError A.

Definition modify (f : Run → Run) : Engine () := λ r, (Ok (), f r).
Definition gets {A} (f : Run → A) : Engine A := λ r, (Ok (f r), r).
Definition throw {A} (e : CoreError) : Engine A := λ r, (Err e, r).

Definition run_cancelled : CoreError := Internal "Run cancelled".

(** An [await] point: the run passes it, or it is cancelled there. *)
Definition await : Engine () := λ r,
  match rn_polls r with
  | None => (Ok (), r)
  | Some 0 => (Err run_cancelled, r)
  | Some (S n) => (Ok (), set_polls (Some n) r)
  end.

(** The consumer takes the event, or the channel is closed. *)
Definition push_event (event : AgentStreamEvent) : Engine bool := λ r,
  match rn_room r with
  | None => (Ok true, set_events (rn_events r ++ [event]) r)
  | Some 0 => (Ok false, r)
  | Some (S n) => (Ok true, set_room (Some n) (set_events (rn_events r ++ [event]) r))
  end.

(** [event_tx.send(event).await]: whether it was delivered *)
Definition send (event : AgentStreamEvent) : Engine bool :=
  await;; push_event event.

(** [journal.commit(turn_id, op).await?], when the session has a journal; the run may
    be cancelled before the command is taken and while its answer is on the way. *)
Definition commit (turn_id : string) (op : RunMutation) : Engine () :=
  session ← gets rn_session;
  match th_journal session with
  | None => mret ()
  | Some j =>
      await;;
      let '(answer, j) := journal_commit turn_id op j in
      modify (λ r, set_session (set_journal (Some j) (rn_session r)) r);;
      await;;
      match answer with Ok _ => mret () | Err e => throw (CoreStore e) end
  end.

(** [session.append_item(item); turn_generated_items.push(item)] *)
Definition record_item (item : CanonicalItem) : Engine () :=
  modify (λ r, set_run_items (rn_items r ++ [item]) (set_session (append_item item (rn_session r)) r)).

(** A pure fallible call with the error conversion of [?]. *)
Definition try {E A} (wrap : E → CoreError) (m : result E A) : Engine A := lift (map_err wrap m).

(** A [for] loop over a list. *)
Fixpoint for_each {A} (l : list A) (body : A → Engine ()) : Engine () :=
  match l with
  | [] => mret ()
  | x :: l => body x;; for_each l body
  end.

Variable (self : AgentEngine) (turn_id : string) (context : RunContextInfo).
(** The ids of the items and steps the run creates, and the schedule of each
    step's tool batch with what the host answers in it. *)
Variable (supply : nat → string) (schedule : nat → list Label).
(** The iteration order of a [HashMap]. *)
Variable (hash_order : gmap string (string * MessagePhase) → list (string * (string * MessagePhase))).

(** ** One model step *)

(** What the step tracks while it reads the stream. *)
Record StepTrack := {
  tr_state : ModelStepState;
  tr_items : list CanonicalItem;
  tr_usage : UsageMetrics;
  tr_texts : gmap string (string * MessagePhase);
}.

(** [active_text_deltas]; the maps of reasoning and tool deltas are never read. *)
Definition track_delta (event : ModelEvent) (texts : gmap string (string * MessagePhase)) :
    gmap string (string * MessagePhase) :=
  match event with
  | MItemStarted item_id item_type phase =>
      if item_type == "assistant_message" then <[item_id := ("", default FinalAnswer phase)]> texts else texts
  | MTextDelta item_id delta =>
      match texts !! item_id with
      | Some (text, phase) => <[item_id := (text +:+ delta, phase)]> texts
      | None => <[item_id := (delta, FinalAnswer)]> texts
      end
  | _ => texts
  end.

(** The capability check of a completed item. *)
Definition check_completed (caps : ModelCapabilities) (event : ModelEvent) : result CoreError () :=
  match event with
  | MItemCompleted item =>
      reject_if (is_user_message item || is_tool_result item)
        (CoreModel (ModelStream "Provider emitted a non-model item"));;
      map_err (λ e, CoreModel (ModelStream (protocol_error e))) (validate_capable_items [item] caps)
  | _ => Ok ()
  end.

(** A completed item: committed, then recorded. *)
Definition complete_item (step_id : string) (item : CanonicalItem) : Engine () :=
  commit turn_id (ModelItem step_id item);;
  record_item item.

(** One event of the stream ([while let Some(event_res) = event_stream.next().await]). *)
Definition consume_event (step_id : string) (caps : ModelCapabilities) (track : StepTrack)
    (event_res : result ModelError ModelEvent) : Engine StepTrack :=
  await;;
  event ← try CoreModel event_res;
  state ← try CoreModel (observe (tr_state track) event);
  lift (check_completed caps event);;
  let track := {| tr_state := state; tr_items := tr_items track; tr_usage := tr_usage track;
                  tr_texts := track_delta event (tr_texts track) |} in
  session ← gets rn_session;
  match event with
  | MStepFinished usage =>
      total ← gets rn_usage;
      cumulative ← try CoreModel (cumulative_usage total usage);
      modify (set_usage cumulative);;
      mret {| tr_state := tr_state track; tr_items := tr_items track; tr_usage := usage;
              tr_texts := tr_texts track |}
  | MItemCompleted item =>
      complete_item step_id item;;
      sent ← send (into_agent event turn_id (th_id session));
      if sent : bool then
        mret {| tr_state := tr_state track; tr_items := tr_items track ++ [item];
                tr_usage := tr_usage track; tr_texts := tr_texts track |}
      else throw EventChannelClosed
  | _ =>
      sent ← send (into_agent event turn_id (th_id session));
      if sent : bool then mret track else throw EventChannelClosed
  end.

Fixpoint consume_stream (step_id : string) (caps : ModelCapabilities) (track : StepTrack)
    (events : list (result ModelError ModelEvent)) : Engine StepTrack :=
  match events with
  | [] => mret track
  | e :: events => track ← consume_event step_id caps track e; consume_stream step_id caps track events
  end.

(** The assistant messages assembled from deltas, when no item was completed. *)
Definition fallback_items (track : StepTrack) : list CanonicalItem :=
  if bool_decide (tr_items track = []) then
    (λ '(id, (text, phase)), AssistantMessage id [ContentText text] phase)
      <$> List.filter (λ '(id, (text, phase)), negb (str_is_empty text)) (hash_order (tr_texts track))
  else [].

Definition announce (item : CanonicalItem) : Engine () :=
  send (EvItemCompleted turn_id item);; mret ().

(** The part of a step from the projection to the validated request. *)
Definition build_request (k : nat) : Engine (ModelProvider * ModelRequest * ModelCapabilities) :=
  session ← gets rn_session;
  lift (check_history_limit session);;
  let request := {| cbr_context := context; cbr_step_index := k;
                    cbr_model := so_model (th_sampling_options session);
                    cbr_system_prompt := th_system_prompt session;
                    cbr_history := th_history session |} in
  await;;
  model_context ← try (λ e, Internal ("Context policy failed: " +:+ e)) (th_context_policy session request);
  try (λ e, Internal ("Invalid model context: " +:+ e)) (validate_model_context model_context);;
  let provider := match legacy_http_client self, th_adapter session with
                  | Some client, Some adapter => client adapter
                  | _, _ => th_provider session
                  end in
  n ← gets rn_fresh;
  modify (set_fresh (S n));;
  let request := {| mr_context := context; mr_step_index := k; mr_step_id := supply n;
                    mr_model_context := model_context; mr_tools := get_tool_definitions (th_tools session);
                    mr_options := th_sampling_options session |} in
  caps ← try CoreModel (capabilities provider (so_model (mr_options request)));
  try CoreModel (validate_model_request request caps);;
  lift (check_model_request_limit session (request_json_len request));;
  mret (provider, request, caps).

(** [ModelInput] is committed with the request in JSON, when there is a journal. *)
Definition commit_input (k : nat) (request : ModelRequest) : Engine () :=
  session ← gets rn_session;
  if th_journal session then
    value ← try CoreJson (request_to_value request);
    commit turn_id (ModelInput (mr_step_id request) k value)
  else mret ().

(** The stream: the override sees the projected session, a provider the request. *)
Definition open_stream (k : nat) (provider : ModelProvider) (request : ModelRequest) :
    Engine (list (result ModelError ModelEvent)) :=
  session ← gets rn_session;
  match stream_provider self with
  | Some legacy =>
      source ← lift (legacy (projected_view session (mr_model_context request)) k);
      mret (adapt_stream source)
  | None => await;; try CoreModel (stream provider request)
  end.

(** The model's part of a step: the completed items of the step. *)
Definition model_step (k : nat) : Engine (list CanonicalItem) :=
  '(provider, request, caps) ← build_request k;
  let step_id := mr_step_id request in
  commit_input k request;;
  events ← open_stream k provider request;
  session ← gets rn_session;
  track ← consume_stream step_id caps
            {| tr_state := step_state_new (th_history session); tr_items := []; tr_usage := usage_default;
               tr_texts := ∅ |} events;
  lift (reject_if (negb (st_finished (tr_state track)))
          (CoreModel (ModelStream "Unexpected EOF before model StepFinished")));;
  let fallback := fallback_items track in
  for_each fallback (λ item, complete_item step_id item;; announce item);;
  commit turn_id (ModelStepFinished step_id (tr_usage track));;
  mret (tr_items track ++ fallback).

(** ** The tool batch of a step *)

(** Labels that no task is ready for are passed over, so every list is a schedule. *)
Definition advance (id_of : nat → ItemId) (tools : ToolRegistry) (b : Batch J) (l : Label) : Batch J :=
  default b (step (engine_registry self) (Some tools) true turn_id id_of b l).

Definition run_schedule (id_of : nat → ItemId) (tools : ToolRegistry) (b : Batch J) (labels : list Label) : Batch J :=
  foldl (advance id_of tools) b labels.

(** [execute_calls_with_journal(..).await?]: the run is cancelled when the schedule
    ends before the batch does. *)
Definition execute_calls (k : nat) (calls : list CanonicalItem) : Engine (list CanonicalItem) :=
  session ← gets rn_session;
  base ← gets rn_fresh;
  let b := run_schedule (λ i, supply (base + i)) (th_tools session)
             (batch_new calls (th_journal session)) (schedule k) in
  modify (λ r, set_fresh (base + length calls)
                 (set_executions (rn_executions r ++ b_executions b)
                    (set_events (rn_events r ++ b_events b)
                       (set_session (set_journal (b_journal b) (rn_session r)) r))));;
  match batch_result b with
  | Some (Ok results) => mret results
  | Some (Err e) => throw (CoreStore e)
  | None => throw run_cancelled
  end.

Definition tool_stage (max_steps k : nat) (calls : list CanonicalItem) : Engine () :=
  results ← execute_calls k calls;
  commit turn_id (ToolBatch (answers_of results));;
  for_each results (λ item, record_item item;; announce item);;
  lift (reject_if (bool_decide (max_steps <= k + 1)) (MaxStepsExceeded max_steps)).

(** ** The run *)

(** One iteration of the loop; [true] is [break]. *)
Definition engine_step (max_steps k : nat) : Engine bool :=
  items ← model_step k;
  let calls := List.filter is_tool_call items in
  session ← gets rn_session;
  lift (check_history_limit session);;
  if bool_decide (calls = []) then mret true
  else tool_stage max_steps k calls;; mret false.

(** [for step in 0..max_steps]: the steps taken *)
Fixpoint step_loop (remaining max_steps k : nat) : Engine nat :=
  match remaining with
  | 0 => mret k
  | S remaining =>
      finished ← engine_step max_steps k;
      if finished : bool then mret (S k) else step_loop remaining max_steps (S k)
  end.

Record EngineResult := {
  er_turn_id : string;
  er_steps_taken : nat;
  er_total_usage : UsageMetrics;
  er_generated_items : list CanonicalItem;
}.

(** [turn_generated_items] and [total_usage] start empty. *)
Definition run_inner (max_steps : nat) (input : list CanonicalItem) : Engine EngineResult :=
  modify (λ r, set_run_items [] (set_usage usage_default r));;
  lift (reject_if (bool_decide (max_steps = 0)) (MaxStepsExceeded 0));;
  session ← gets rn_session;
  accepted ← lift (accept_turn input session);
  modify (set_session accepted);;
  send (EvTurnStarted turn_id (th_id session));;
  for_each input (λ item, record_item item;; announce item);;
  steps ← step_loop max_steps max_steps 0;
  usage ← gets rn_usage;
  items ← gets rn_items;
  mret {| er_turn_id := turn_id; er_steps_taken := steps; er_total_usage := usage; er_generated_items := items |}.

Definition error_code (e : CoreError) : string :=
  match e with
  | CoreLimitExceeded _ => "SESSION_LIMIT_EXCEEDED"
  | CoreStore _ => "STORE_FAILED"
  | MaxStepsExceeded _ => "MAX_STEPS_EXCEEDED"
  | _ => "RUN_FAILED"
  end.

(** [send_final_event]: best effort, it never fails the run. *)
Definition send_final (event : AgentStreamEvent) (r : Run) : Run := (push_event event r).2.

(** The repair of [TurnHistoryGuard::drop], which also runs when the future is
    dropped: nothing when a journal owns the history. The results it adds come first. *)
Definition close_turn (history_start : nat) (r : Run) : list CanonicalItem * Run :=
  match th_journal (rn_session r) with
  | Some _ => ([], r)
  | None =>
      let '(results, session) := close_unanswered_tool_calls (λ i, supply (rn_fresh r + i))
                                   history_start (rn_session r) in
      (results, set_session session r)
  end.

Definition run_turn_with_context (max_steps : nat) (input : list CanonicalItem) :
    Engine EngineResult := λ r,
  let history_start := length (th_history (rn_session r)) in
  match run_inner max_steps input r with
  | (Ok res, r) =>
      (Ok res, send_final (EvTurnCompleted turn_id (th_id (rn_session r)) (er_total_usage res)) r)
  | (Err e, r) =>
      let '(closed, r) := close_turn history_start r in
      let r := foldl (λ r item, send_final (EvItemCompleted turn_id item) r) r closed in
      (Err e, send_final (EvTurnFailed turn_id (th_id (rn_session r)) (error_code e) (core_error_text e)) r)
  end.
End engine.

(** ** The durable journal as the core uses it

    [SessionJournal::commit] of [crates/whale-store/src/runtime.rs]: the worker of
    [StoreRuntime] behind the interface [Journal] of [Coordinator]. The clock and
    the new ids of the k-th command come from [Supply]. *)

From S2P Require Import StoreBackend StoreConfig StoreRuntime.

(** What a command reads from outside: the clock before and after it is applied,
    and two fresh uuids. *)
Class Supply := {
  supply_apply_ms : nat → N;
  supply_touch_ms : nat → N;
  supply_result_id : nat → string;
  supply_execution_id : nat → string;
}.

Record StoreJournal {S : Type} := {
  sj_worker : SessionJournal;
  sj_store : S;
  sj_commands : nat;
}.
Arguments StoreJournal : clear implicits.

Section journal.
Context `{Externals, RecordExternals, Supply} {S : Type} `{!SessionStore S}.

(** [commit]: the response of another command is [unreachable!] *)
#[export] Instance store_journal : Journal (StoreJournal S) := λ turn op j,
  let k := sj_commands j in
  let '(answer, worker, store) :=
    journal_step (sj_worker j) (ActionCommit turn op) (supply_apply_ms k) (supply_touch_ms k)
      (supply_result_id k) (supply_execution_id k) (sj_store j) in
  let j := {| sj_worker := worker; sj_store := store; sj_commands := Datatypes.S k |} in
  match answer with
  | Ok (ResponseReceipt r) => (Ok r, j)
  | Ok _ => (Err (Invalid "unreachable"), j)
  | Err e => (Err e, j)
  end.

(** An outcome that the record accepts comes back as the answer of its call. *)
Lemma mutate_outcome record turn call_id result fr fe record' item :
  mutate record turn (ToolOutcome call_id result) fr fe = Ok (record', Some item) →
  tool_result_call item = Some call_id.
Proof.
  unfold mutate, mutate_run, op_tool_outcome. intros Hm. inv_result.
  destruct result; inv_result; try done.
Qed.

#[export] Instance store_journal_spec : JournalSpec (StoreJournal S).
Proof.
  intros turn call_id result j receipt j' item. unfold journal_commit, store_journal, journal_step.
  destruct (worker_poison _); [done|].
  destruct (load _ _) as [[[record|]|e] s1]; [|done..].
  destruct (lease_mismatch _ _); [done|].
  destruct (next_record _ _ _ _ _ _) as [[new response]|e] eqn:Hn; [|done].
  destruct (compare_exchange _ _ _ _) as [[u|e] s2]; [|done].
  unfold next_record, StoreRuntime.apply in Hn. inv_result.
  intros Hj Hi. simplify_eq/=. by eapply mutate_outcome.
Qed.
End journal.
