(* ===== verification/EngineLegal.v ===== *)
(** * Turns keep the history a legal conversation

    The proof that [run_turn_with_context] leaves a legal conversation however the
    run ends: with a result, with an error, or cancelled at any [await] point. The
    lemmas follow the composition of the engine: an operation that does not touch
    the history is [quiet], reading the stream keeps the step open, and the tool
    stage closes it. *)

From S2P Require Import Prelude Protocol StoreState CoreContext CoreSession ModelStep Coordinator Engine.

(** ** Step shapes *)

(** Messages first, then tool calls. *)
Definition calls_last (items : list CanonicalItem) : Prop :=
  ∃ msgs calls, items = msgs ++ calls ∧ Forall (λ i, is_tool_call i = false) msgs
    ∧ Forall (λ i, is_tool_call i = true) calls.

(** The items that a stream completes. *)
Definition stream_items (events : list (result ModelError ModelEvent)) : list CanonicalItem :=
  omap (λ e, match e with Ok event => completed_item event | Err _ => None end) events.

Section shapes.
Implicit Types (items done : list CanonicalItem).

Lemma calls_last_prefix items items' : calls_last (items ++ items') → calls_last items.
Proof.
  intros (msgs & calls & Heq & Hm & Hc). apply app_eq_inv in Heq as [(k & -> & ->)|(k & -> & ->)].
  - apply Forall_app in Hc as [Hc _]. by exists msgs, k.
  - apply Forall_app in Hm as [Hm _]. exists items, []. rewrite app_nil_r. by repeat constructor.
Qed.

Lemma calls_of_results items : Forall (λ i, is_tool_result i = true) items → calls_of items = [].
Proof. unfold calls_of. induction 1 as [|i items Hi _ IH]; csimpl; [done|]. by destruct i. Qed.

Lemma calls_of_messages items : Forall (λ i, is_tool_call i = false) items → calls_of items = [].
Proof. unfold calls_of. induction 1 as [|i items Hi _ IH]; csimpl; [done|]. by destruct i. Qed.

Lemma calls_of_filter items : calls_of (List.filter is_tool_call items) = calls_of items.
Proof.
  unfold calls_of. induction items as [|i items IH]; csimpl; [done|].
  destruct i; csimpl; try done. by rewrite IH.
Qed.

Lemma Conversation_app hb groups :
  Conversation hb → Forall group_ok groups →
  NoDup (calls_of (hb ++ (groups ≫= group_items))) → "" ∉ calls_of (hb ++ (groups ≫= group_items)) →
  Conversation (hb ++ (groups ≫= group_items)).
Proof.
  intros [(gs & Heq & Hgs) _] Hg Hnd Hne. split; [|done].
  exists (gs ++ groups). rewrite bind_app, <-Heq. split; [done|by apply Forall_app_2].
Qed.

(** The items of a step followed by the answers of its calls. *)
Lemma step_conversation hb items results :
  Conversation hb → calls_last items → Forall model_item items →
  NoDup (calls_of (hb ++ items)) → "" ∉ calls_of items →
  Forall (λ i, is_tool_result i = true) results → answers_of results ≡ₚ calls_of items →
  Conversation (hb ++ items ++ results).
Proof.
  intros Hb (msgs & calls & -> & Hm & Hc) Hmodel Hnd Hne Hr Ha.
  assert (∃ g, calls ++ results = g ≫= group_items ∧ Forall group_ok g) as (g & Hg & Hgok).
  { apply answered_stretch; [done..|]. by rewrite Ha, calls_of_app, (calls_of_messages msgs). }
  assert ((msgs ++ calls) ++ results = (((Message <$> msgs) ++ g) : list Group) ≫= group_items) as ->.
  { rewrite bind_app, <-Hg, <-app_assoc. f_equal.
    clear. induction msgs as [|m msgs IH]; csimpl; [done|]. by rewrite <-IH. }
  assert (calls_of (hb ++ ((((Message <$> msgs) ++ g) : list Group) ≫= group_items)) = calls_of (hb ++ msgs ++ calls)) as Hcalls.
  { rewrite bind_app, <-Hg, !calls_of_app, (calls_of_results results), app_nil_r by done. f_equal. f_equal.
    clear. induction msgs as [|m msgs IH]; csimpl; [done|]. unfold calls_of in *. simpl. by rewrite IH. }
  apply Conversation_app; [done| |by rewrite Hcalls|].
  - apply Forall_app. split; [|done]. apply Forall_fmap, Forall_forall. intros m Hin. simpl.
    rewrite Forall_forall in Hm, Hmodel. split; [by apply Hm|]. apply Hmodel. set_solver.
  - rewrite Hcalls, calls_of_app. destruct Hb as (_ & _ & ?). set_solver.
Qed.

Lemma named_calls_nonempty items : Forall (λ i, model_item i ∧ named_call i) items → "" ∉ calls_of items.
Proof.
  rewrite Forall_forall. intros Hn (i & Hin & Hid)%list_elem_of_omap.
  specialize (Hn i Hin) as [_ Hn]. destruct i; simplify_eq/=. by destruct Hn as [? _].
Qed.

(** An open step can be answered: some continuation is a legal conversation. *)
Lemma open_step_legal hb done :
  Conversation hb → calls_last done → Forall (λ i, model_item i ∧ named_call i) done →
  NoDup (calls_of (hb ++ done)) → ∃ rest, Conversation (hb ++ done ++ rest).
Proof.
  intros Hb Hl Hm Hnd. exists (close_results (λ _, "") (calls_of done)).
  destruct (close_results_answers (λ _, "") (calls_of done)) as (Ha & _ & Hr).
  apply step_conversation; try done; [|by apply named_calls_nonempty|by rewrite Ha].
  eapply Forall_impl; [done|]. by intros ? [? _].
Qed.

Lemma observed_calls hb st evs :
  Conversation hb → Observed (step_state_new hb) st evs →
  NoDup (calls_of (hb ++ completed_items evs)).
Proof.
  intros (_ & Hnd & _) [_ _ [Hf Hfresh] _ _ _ _]. rewrite calls_of_app. apply NoDup_app.
  split_and!; [done| |done]. simpl in Hfresh. set_solver.
Qed.
End shapes.

(** ** Operations on the history *)

Section engine.
Context {J Adapter : Type} `{!Journal J, !JournalSpec J} `{Externals, ToolExternals, EngineExternals}.
Notation Session := (ThreadSession ToolRegistry Adapter ModelProvider SamplingOptions ContextPolicy J).
Notation Run := (@Run J Adapter).
Notation Engine := (@Engine J Adapter).
Implicit Types (r : Run) (h : list CanonicalItem).

Variable (self : @AgentEngine J Adapter) (turn_id : string) (context : RunContextInfo).
Variable (supply : nat → string) (schedule : nat → list Label).
Variable (hash_order : gmap string (string * MessagePhase) → list (string * (string * MessagePhase))).
(** The provider and the adapter of the session, which no step of a run changes. *)
Variable (provider0 : ModelProvider) (adapter0 : option Adapter).

(** The history when the turn began. *)
Variable (before : list CanonicalItem).

(** What the environment promises: a model's messages precede its tool calls. *)
Definition orderly_provider (p : ModelProvider) : Prop :=
  ∀ request events, stream p request = Ok events → calls_last (stream_items events).
Record Orderly : Prop := {
  orderly_session : orderly_provider provider0;
  orderly_legacy : ∀ client adapter, legacy_http_client self = Some client → orderly_provider (client adapter);
  orderly_override : ∀ legacy view k source, stream_provider self = Some legacy →
    legacy view k = Ok source → calls_last (stream_items (adapt_stream source));
}.

(** A session without a journal whose history is [h], of which the run generated
    what follows [before]. *)
Record At h r : Prop := {
  at_journal : th_journal (rn_session r) = None;
  at_history : th_history (rn_session r) = h;
  at_provider : th_provider (rn_session r) = provider0;
  at_adapter : th_adapter (rn_session r) = adapter0;
  at_items : before ++ rn_items r = h;
}.

Definition quiet {A} (m : Engine A) : Prop := ∀ h, triple (At h) m (λ _, At h) (At h).

Lemma quiet_ret {A} (a : A) : quiet (mret a).
Proof. intros h. apply (triple_ret a (λ _, At h)). Qed.
Lemma quiet_bind {A B} (m : Engine A) (f : A → Engine B) : quiet m → (∀ a, quiet (f a)) → quiet (m ≫= f).
Proof. intros Hm Hf h. eapply triple_bind; [apply Hm|intros a; apply Hf]. Qed.
Lemma quiet_lift {A} (m : result CoreError A) : quiet (lift m).
Proof. intros h r Hr. unfold lift. by destruct m. Qed.
Lemma quiet_try {E A} (wrap : E → CoreError) (m : result E A) : quiet (try wrap m).
Proof. apply quiet_lift. Qed.
Lemma quiet_throw {A} (e : CoreError) : quiet (throw e : Engine A).
Proof. by intros h r Hr. Qed.
Lemma quiet_gets {A} (f : Run → A) : quiet (gets f).
Proof. by intros h r Hr. Qed.
Lemma quiet_modify (f : Run → Run) :
  (∀ r, rn_session (f r) = rn_session r ∧ rn_items (f r) = rn_items r) → quiet (modify f).
Proof. intros Hf h r [Hj Hh Hp Ha Hi]. destruct (Hf r) as [Hs Hi']. constructor; by rewrite ?Hs, ?Hi'. Qed.
Lemma quiet_await : quiet await.
Proof.
  intros h r [Hj Hh Hp Ha Hi]. unfold await. destruct (rn_polls r) as [[|n]|]; by constructor.
Qed.
Lemma quiet_push event : quiet (push_event event).
Proof.
  intros h r [Hj Hh Hp Ha Hi]. unfold push_event. destruct (rn_room r) as [[|n]|]; by constructor.
Qed.
Lemma quiet_send event : quiet (send event).
Proof. apply quiet_bind; [apply quiet_await|intros _; apply quiet_push]. Qed.

(** Without a journal a commit does nothing. *)
Lemma quiet_commit op : quiet (commit turn_id op).
Proof.
  intros h r Hr. unfold commit, gets, mbind, eff_bind. simpl.
  by rewrite (at_journal _ _ Hr).
Qed.
Lemma quiet_announce item : quiet (announce turn_id item).
Proof. apply quiet_bind; [apply quiet_send|intros _; apply quiet_ret]. Qed.

(** A continuation that reads the state is quiet where it is quiet for every value. *)
Lemma quiet_build_request k : quiet (build_request self context supply k).
Proof.
  unfold build_request.
  repeat first [apply quiet_bind; [|intros ?] | apply quiet_gets | apply quiet_lift | apply quiet_await
               | apply quiet_try | apply quiet_ret | by apply quiet_modify].
Qed.
Lemma quiet_commit_input k request : quiet (commit_input turn_id k request).
Proof.
  unfold commit_input. apply quiet_bind; [apply quiet_gets|]. intros s.
  destruct (th_journal s); [|apply quiet_ret].
  apply quiet_bind; [apply quiet_try|]. intros v. apply quiet_commit.
Qed.

Lemma record_at item h :
  triple (At h) (record_item item : Engine ()) (λ _, At (h ++ [item])) (At h).
Proof.
  intros r [Hj Hh Hp Ha Hi]. unfold record_item, modify. constructor; simpl; try done; [by rewrite Hh|by rewrite app_assoc, Hi].
Qed.

(** A quiet operation in front. *)
Lemma quiet_then {A B} (m : Engine A) (f : A → Engine B) h Q R :
  quiet m → (∀ r, At h r → R r) → (∀ a, triple (At h) (f a) Q R) → triple (At h) (m ≫= f) Q R.
Proof.
  intros Hm HR Hf. eapply triple_bind; [|exact Hf].
  eapply triple_conseq; [apply (Hm h)|done|done|done].
Qed.

Lemma lift_then {A B} (m : result CoreError A) (f : A → Engine B) h Q R :
  (∀ r, At h r → R r) → (∀ a, m = Ok a → triple (At h) (f a) Q R) → triple (At h) (lift m ≫= f) Q R.
Proof.
  intros HR Hf r Hr. unfold lift, mbind, eff_bind. destruct m as [a|e]; [by apply Hf|by apply HR].
Qed.
Lemma try_then {E A B} (wrap : E → CoreError) (m : result E A) (f : A → Engine B) h Q R :
  (∀ r, At h r → R r) → (∀ a, m = Ok a → triple (At h) (f a) Q R) → triple (At h) (try wrap m ≫= f) Q R.
Proof.
  intros HR Hf. apply lift_then; [done|]. intros a Ha. apply Hf. by destruct m; simplify_eq/=.
Qed.
Lemma gets_then {A B} (g : Run → A) (f : A → Engine B) h Q R :
  (∀ r, At h r → triple (At h) (f (g r)) Q R) → triple (At h) (gets g ≫= f) Q R.
Proof. intros Hf r Hr. by apply (Hf r Hr r). Qed.
Lemma ret_at {A} (a : A) h (Q : A → Run → Prop) R : (∀ r, At h r → Q a r) → triple (At h) (mret a : Engine A) Q R.
Proof. intros HQ r Hr. by apply HQ. Qed.
Lemma throw_at {A} (e : CoreError) h (Q : A → Run → Prop) (R : Run → Prop) :
  (∀ r, At h r → R r) → triple (At h) (throw e : Engine A) Q R.
Proof. intros HR r Hr. by apply HR. Qed.

(** ** Reading a step *)

(** Some continuation makes the turn a legal conversation. *)
Definition open_history h : Prop := ∃ turn rest, h = before ++ turn ∧ Conversation (before ++ turn ++ rest).
Definition OpenTurn r : Prop := ∃ h, At h r ∧ open_history h.

Lemma at_open h : open_history h → ∀ r, At h r → OpenTurn r.
Proof. intros Ho r Hr. by exists h. Qed.

(** A complete history of the turn. *)
Definition rest_history h : Prop := Conversation h ∧ ∃ turn, h = before ++ turn.

Lemma rest_open h : rest_history h → open_history h.
Proof. intros [Hc [turn ->]]. exists turn, []. by rewrite app_nil_r. Qed.

Definition reading hb (track : StepTrack) : Prop :=
  ∃ evs, Observed (step_state_new hb) (tr_state track) evs ∧ completed_items evs = tr_items track.

Lemma reading_open hb track :
  rest_history hb → reading hb track → calls_last (tr_items track) → open_history (hb ++ tr_items track).
Proof.
  intros [Hc [turn Hturn]] (evs & Hobs & Hev) Hl. pose proof (observed_calls _ _ _ Hc Hobs) as Hnd.
  rewrite Hev in Hnd. destruct (open_step_legal hb (tr_items track)) as [rest Hrest]; [done|done| |done|].
  { rewrite <-Hev. apply Hobs. }
  subst hb. exists (turn ++ tr_items track), rest. split; [by rewrite app_assoc|].
  by rewrite <-!app_assoc in *.
Qed.

Lemma reading_observe hb track event st texts :
  reading hb track → observe (tr_state track) event = Ok st →
  reading hb {| tr_state := st; tr_items := tr_items track ++ option_list (completed_item event);
                tr_usage := tr_usage track; tr_texts := texts |}.
Proof.
  intros (evs & Hobs & Hev) Ho. exists (evs ++ [event]). split; [by eapply observed_snoc|].
  by rewrite completed_items_snoc, Hev.
Qed.

Lemma reading_state hb track track' :
  reading hb track → tr_state track' = tr_state track → tr_items track' = tr_items track → reading hb track'.
Proof. intros (evs & Hobs & Hev) Hs Hi. exists evs. by rewrite Hs, Hi. Qed.

Lemma complete_item_at step_id item h :
  triple (At h) (complete_item turn_id step_id item) (λ _, At (h ++ [item])) (At h).
Proof. apply quiet_then; [apply quiet_commit|done|intros _; apply record_at]. Qed.

(** What one event makes of the track, when it is accepted. *)
Definition event_items (event_res : result ModelError ModelEvent) : list CanonicalItem :=
  match event_res with Ok event => option_list (completed_item event) | Err _ => [] end.

Lemma consume_event_reads hb step_id caps track event_res :
  rest_history hb → reading hb track → calls_last (tr_items track ++ event_items event_res) →
  triple (At (hb ++ tr_items track)) (consume_event turn_id step_id caps track event_res)
    (λ track' r, reading hb track' ∧ tr_items track' = tr_items track ++ event_items event_res
                 ∧ At (hb ++ tr_items track') r)
    OpenTurn.
Proof.
  intros Hb Hread Hlast. pose proof (at_open _ (reading_open _ _ Hb Hread (calls_last_prefix _ _ Hlast))) as Hopen.
  unfold consume_event. apply quiet_then; [apply quiet_await|done|intros _].
  apply try_then; [done|]. intros event ->. apply try_then; [done|]. intros st Hst.
  apply lift_then; [done|]. intros _ _. apply gets_then. intros r0 _.
  pose proof (reading_observe hb track event st (track_delta event (tr_texts track)) Hread Hst) as Hread'.
  destruct event as [a b c|a b|a b|a b|a b c|item|u]; simpl in *; rewrite ?app_nil_r in *.
  1-5: apply quiet_then; [apply quiet_send|done|]; intros [|]; [apply ret_at; auto|by apply throw_at].
  - eapply triple_bind; [eapply triple_conseq; [apply complete_item_at|done|done|exact Hopen]|].
    intros ?. rewrite <-app_assoc.
    pose proof (at_open _ (reading_open _ _ Hb Hread' Hlast)) as Hopen'. simpl in Hopen'.
    apply quiet_then; [apply quiet_send|done|]. intros [|]; [apply ret_at; auto|by apply throw_at].
  - apply gets_then. intros r1 _. apply try_then; [done|]. intros total _.
    apply quiet_then; [by apply quiet_modify|done|]. intros _. apply ret_at. intros r Hr.
    split_and!; [|done|done]. by eapply reading_state.
Qed.

Lemma consume_stream_reads hb step_id caps track events :
  rest_history hb → reading hb track → calls_last (tr_items track ++ stream_items events) →
  triple (At (hb ++ tr_items track)) (consume_stream turn_id step_id caps track events)
    (λ track' r, reading hb track' ∧ calls_last (tr_items track') ∧ At (hb ++ tr_items track') r)
    OpenTurn.
Proof.
  intros Hb. revert track. induction events as [|e events IH]; intros track Hread Hlast; simpl.
  - rewrite app_nil_r in Hlast. by apply ret_at.
  - assert (stream_items (e :: events) = event_items e ++ stream_items events) as He.
    { unfold stream_items. csimpl. destruct e as [event|]; simpl; [|done]. by destruct (completed_item event). }
    rewrite He, app_assoc in Hlast.
    eapply triple_bind; [apply consume_event_reads; [done..|by eapply calls_last_prefix]|].
    intros track' r (Hread' & Hi & Hr). apply IH; [done|by rewrite Hi|done].
Qed.

(** ** The model's part of a step *)

(** Recording items one by one keeps the history open at every point. *)
Lemma for_each_at items (body : CanonicalItem → Engine ()) h :
  (∀ done todo, items = done ++ todo → open_history (h ++ done)) →
  (∀ x h, triple (At h) (body x) (λ _, At (h ++ [x])) (λ r, At h r ∨ At (h ++ [x]) r)) →
  triple (At h) (for_each items body) (λ _, At (h ++ items)) OpenTurn.
Proof.
  intros Hopen Hbody. revert h Hopen. induction items as [|x items IH]; intros h Hopen; simpl.
  - apply ret_at. by rewrite app_nil_r.
  - apply (triple_bind _ _ _ (λ _, At (h ++ [x]))); [eapply triple_conseq; [apply Hbody|done|done|]|].
    + intros r [Hr|Hr]; eapply at_open; [|exact Hr| |exact Hr].
      * rewrite <-(app_nil_r h). by eapply (Hopen []).
      * by eapply (Hopen [x]).
    + intros _. replace (h ++ x :: items) with ((h ++ [x]) ++ items) by (by rewrite <-app_assoc).
      apply IH. intros done todo ->.
      rewrite <-app_assoc. by eapply (Hopen (x :: done)).
Qed.

Lemma record_announce x h :
  triple (At h) (record_item x;; announce turn_id x) (λ _, At (h ++ [x])) (λ r, At h r ∨ At (h ++ [x]) r).
Proof.
  eapply triple_bind; [eapply triple_conseq; [apply record_at|done|done|auto]|]. intros u.
  eapply triple_conseq; [apply quiet_announce|done|done|auto].
Qed.

Lemma complete_announce step_id x h :
  triple (At h) (complete_item turn_id step_id x;; announce turn_id x)
    (λ _, At (h ++ [x])) (λ r, At h r ∨ At (h ++ [x]) r).
Proof.
  eapply triple_bind; [eapply triple_conseq; [apply complete_item_at|done|done|auto]|]. intros u.
  eapply triple_conseq; [apply quiet_announce|done|done|auto].
Qed.

Definition step_items h items : Prop :=
  calls_last items ∧ Forall (λ i, model_item i ∧ named_call i) items ∧ NoDup (calls_of (h ++ items)).

Lemma step_items_open h items : rest_history h → step_items h items → open_history (h ++ items).
Proof.
  intros [Hc [turn ->]] (Hl & Hm & Hnd). destruct (open_step_legal _ _ Hc Hl Hm Hnd) as [rest Hrest].
  exists (turn ++ items), rest. rewrite <-!app_assoc in *. done.
Qed.

Lemma step_items_prefix h items items' : step_items h (items ++ items') → step_items h items.
Proof.
  intros (Hl & Hm & Hnd). split_and!; [by eapply calls_last_prefix|by apply Forall_app in Hm as [? _]|].
  rewrite app_assoc, calls_of_app in Hnd. by apply NoDup_app in Hnd as [? _].
Qed.

Lemma fallback_messages track :
  Forall (λ i, is_tool_call i = false ∧ model_item i ∧ named_call i) (fallback_items hash_order track).
Proof.
  unfold fallback_items. case_bool_decide; [|constructor]. apply Forall_fmap, Forall_forall.
  intros [id [text phase]] _. by repeat split.
Qed.

Lemma reading_step_items hb track :
  Conversation hb → reading hb track → calls_last (tr_items track) →
  step_items hb (tr_items track ++ fallback_items hash_order track).
Proof.
  intros Hc (evs & Hobs & Hev) Hl. pose proof (observed_calls _ _ _ Hc Hobs) as Hnd. rewrite Hev in Hnd.
  assert (Forall (λ i, model_item i ∧ named_call i) (tr_items track)) as Hm by (rewrite <-Hev; apply Hobs).
  pose proof (fallback_messages track) as Hf. apply Forall_and in Hf as [Hf1 Hf2].
  destruct (decide (tr_items track = [])) as [He|He].
  - rewrite He in *. simpl. split_and!; [|done|].
    + exists (fallback_items hash_order track), []. by rewrite app_nil_r.
    + rewrite calls_of_app, (calls_of_messages (fallback_items _ _)) by done. by rewrite calls_of_app in Hnd.
  - unfold fallback_items. rewrite bool_decide_eq_false_2 by done. by rewrite app_nil_r.
Qed.

Lemma build_request_orderly k h :
  Orderly →
  triple (At h) (build_request self context supply k) (λ '(p, _, _) r, orderly_provider p ∧ At h r) (At h).
Proof.
  intros [H1' H2' _]. unfold build_request. apply gets_then. intros r0 [_ _ Hp Ha _].
  apply lift_then; [done|intros _ _]. apply quiet_then; [apply quiet_await|done|intros _].
  apply try_then; [done|intros mc _]. apply try_then; [done|intros _ _].
  apply gets_then. intros r1 _. apply quiet_then; [by apply quiet_modify|done|intros _].
  apply try_then; [done|intros caps _]. apply try_then; [done|intros _ _].
  apply lift_then; [done|intros _ _]. apply ret_at. intros r Hr. split; [|done].
  assert (orderly_provider (th_provider (rn_session r0))) as Hs by (by rewrite Hp).
  destruct (legacy_http_client self) eqn:Hl; [case_match; [by apply H2'|exact Hs]|exact Hs].
Qed.

Lemma open_stream_orderly k provider request h :
  Orderly → orderly_provider provider →
  triple (At h) (open_stream self k provider request) (λ events r, calls_last (stream_items events) ∧ At h r) (At h).
Proof.
  intros [_ _ H3'] Hp. unfold open_stream. apply gets_then. intros r0 _.
  destruct (stream_provider self) as [legacy|] eqn:Hs.
  - apply lift_then; [done|]. intros source Hsource. apply ret_at. intros r Hr. split; [|done]. by eapply H3'.
  - apply quiet_then; [apply quiet_await|done|intros _]. intros r Hr.
    unfold try, lift. destruct (stream provider request) as [events|e] eqn:He; simpl; [|done].
    split; [by eapply Hp|done].
Qed.

Lemma model_step_legal k hb :
  Orderly → rest_history hb →
  triple (At hb) (model_step self turn_id context supply hash_order k)
    (λ items r, step_items hb items ∧ At (hb ++ items) r) OpenTurn.
Proof.
  intros Hord Hb. pose proof (at_open _ (rest_open _ Hb)) as Hopen. unfold model_step.
  eapply triple_bind; [eapply triple_conseq; [by apply (build_request_orderly k hb)|done|intros a s Ha; exact Ha|exact Hopen]|].
  intros [[provider request] caps]. apply triple_pure. intros Hp.
  apply quiet_then; [apply quiet_commit_input|done|intros _].
  eapply triple_bind; [eapply triple_conseq; [by apply open_stream_orderly|done|intros a s Ha; exact Ha|exact Hopen]|].
  intros events. apply triple_pure. intros Hl. apply gets_then. intros r0 Hr0.
  assert (reading hb {| tr_state := step_state_new (th_history (rn_session r0)); tr_items := [];
            tr_usage := usage_default; tr_texts := ∅ |}) as Hread0.
  { exists []. split; [|done]. rewrite (at_history _ _ Hr0). by apply observed_nil. }
  eapply triple_bind; [eapply triple_pre; [by eapply consume_stream_reads|]|].
  { intros r Hr. simpl. by rewrite app_nil_r. }
  intros track. apply triple_intro. intros r1 (Hread & Hlast & Hr1).
  pose proof (reading_step_items hb track (proj1 Hb) Hread Hlast) as Hitems.
  apply (triple_pre _ (At (hb ++ tr_items track))); [|by intros ? ->].
  apply lift_then; [by apply at_open, reading_open|intros _ _].
  apply (triple_bind _ _ _ (λ _, At ((hb ++ tr_items track) ++ fallback_items hash_order track))).
  - apply for_each_at; [|apply complete_announce]. intros done todo Hd. rewrite <-app_assoc.
    apply step_items_open; [done|]. eapply step_items_prefix. rewrite <-app_assoc, <-Hd. exact Hitems.
  - intros _. rewrite <-app_assoc.
    apply quiet_then; [apply quiet_commit|by apply at_open, step_items_open|intros _].
    by apply ret_at.
Qed.

(** ** The tool stage *)

Notation run_labels := (run_labels (engine_registry self)).

Lemma run_schedule_reachable id_of tools (b : Batch J) labels :
  ∃ labels', run_labels (Some tools) true turn_id id_of b labels'
             = Some (run_schedule self turn_id id_of tools b labels).
Proof.
  revert b. induction labels as [|l labels IH]; intros b; [by exists []|].
  unfold run_schedule in *. simpl. unfold advance at 2.
  destruct (step _ _ _ _ _ b l) as [b1|] eqn:Hl; simpl; [|apply IH].
  destruct (IH b1) as [labels' Hl']. exists (l :: labels'). simpl. by rewrite Hl.
Qed.

Lemma step_no_journal registry tools has_events id_of (b : Batch J) l b' :
  b_journal b = None → step registry tools has_events turn_id id_of b l = Some b' → b_journal b' = None.
Proof.
  unfold step. intros Hj. destruct (b_failure b); [done|].
  destruct l as [|i d|i|i|i sent|i a|i]; intros Hs; simplify_eq/=; [done|..];
    repeat (case_match; simplify_eq/=); unfold commit_with; rewrite ?Hj; done.
Qed.

Lemma execute_calls_at k calls h :
  Forall (λ i, is_tool_call i = true) calls →
  triple (At h) (execute_calls self turn_id supply schedule k calls)
    (λ results r, (answers_of results = calls_of calls ∧ Forall (λ i, is_tool_result i = true) results)
                  ∧ At h r) (At h).
Proof.
  intros Hc. unfold execute_calls. apply gets_then. intros r0 Hr0. apply gets_then. intros r1 _.
  set (id_of := λ i, supply (rn_fresh r1 + i)).
  rewrite (at_journal _ _ Hr0).
  destruct (run_schedule_reachable id_of (th_tools (rn_session r0)) (batch_new calls None) (schedule k))
    as [labels Hl].
  set (b := run_schedule _ _ _ _ _ _) in *.
  assert (consistent calls b) as Hcons by (by eapply reachable_consistent).
  assert (b_journal b = None) as Hj.
  { apply (run_labels_ind (engine_registry self) (Some (th_tools (rn_session r0))) true turn_id id_of
      (λ b, b_journal b = None) (batch_new calls None) labels); [|done|done].
    intros; by eapply step_no_journal. }
  apply (triple_bind _ _ _ (λ _, At h)).
  - intros r [H1' H2' H3' H4' H5']. simpl. constructor; simpl; try done.
  - intros _. destruct (batch_result b) as [[results|e]|] eqn:Hb; [|by apply throw_at..].
    apply ret_at. intros r Hr. split; [|done]. by eapply batch_answers.
Qed.

Definition AtRest r : Prop := ∃ h, At h r ∧ rest_history h.

Lemma AtRest_OpenTurn r : AtRest r → OpenTurn r.
Proof. intros (h & Hr & Hh). exists h. split; [done|by apply rest_open]. Qed.

(** The answered step is a legal history, and so is every prefix open. *)
Lemma answered_step hb items results :
  rest_history hb → step_items hb items → Forall (λ i, is_tool_result i = true) results →
  answers_of results = calls_of items →
  rest_history ((hb ++ items) ++ results)
  ∧ ∀ done todo, results = done ++ todo → open_history ((hb ++ items) ++ done).
Proof.
  intros [Hc [turn ->]] (Hl & Hm & Hnd) Hr Ha.
  assert (Conversation ((before ++ turn) ++ items ++ results)) as Hconv.
  { apply step_conversation; try done; [|by apply named_calls_nonempty|by rewrite Ha].
    eapply Forall_impl; [exact Hm|]. by intros ? [? _]. }
  rewrite <-!app_assoc in *. split.
  - split; [done|by eexists].
  - intros done todo ->. exists (turn ++ items ++ done), todo. rewrite <-!app_assoc in *. done.
Qed.

Lemma tool_stage_legal max_steps k hb items :
  rest_history hb → step_items hb items →
  triple (At (hb ++ items)) (tool_stage self turn_id supply schedule max_steps k (List.filter is_tool_call items))
    (λ _, AtRest) OpenTurn.
Proof.
  intros Hb Hitems. pose proof (at_open _ (step_items_open _ _ Hb Hitems)) as Hopen. unfold tool_stage.
  eapply triple_bind;
    [eapply triple_conseq; [apply (execute_calls_at k (List.filter is_tool_call items))|done|intros a s Ha; exact Ha|exact Hopen]|].
  { apply Forall_forall. intros i Hi. by apply elem_of_filter_b in Hi as [_ ?]. }
  intros results. apply triple_pure. rewrite calls_of_filter. intros [Ha Hr].
  destruct (answered_step hb items results Hb Hitems Hr Ha) as [Hrest Hpre].
  apply quiet_then; [apply quiet_commit|exact Hopen|intros _].
  apply (triple_bind _ _ _ (λ _, At ((hb ++ items) ++ results))).
  - apply for_each_at; [done|apply record_announce].
  - intros _. eapply triple_conseq; [apply quiet_lift|done| |].
    + intros a r Hr'. by exists ((hb ++ items) ++ results).
    + by apply at_open, rest_open.
Qed.

(** ** What a turn appends *)

(** Whatever the model does, the history is what it was followed by what the run
    generated. *)
Definition Grown r : Prop := ∃ h, At h r.
Lemma at_grown h r : At h r → Grown r.
Proof. intros Hr. by exists h. Qed.
Definition growing {A} (m : Engine A) : Prop := triple Grown m (λ _, Grown) Grown.

Lemma quiet_growing {A} (m : Engine A) : quiet m → growing m.
Proof.
  intros Hm. apply triple_intro. intros r0 [h Hr]. apply (triple_pre _ (At h)); [|by intros ? ->].
  eapply triple_conseq; [apply Hm|done|intros a; apply at_grown|apply at_grown].
Qed.
Lemma growing_bind {A B} (m : Engine A) (f : A → Engine B) : growing m → (∀ a, growing (f a)) → growing (m ≫= f).
Proof. intros Hm Hf. eapply triple_bind; [exact Hm|exact Hf]. Qed.
Lemma growing_for_each items (body : CanonicalItem → Engine ()) :
  (∀ x, growing (body x)) → growing (for_each items body).
Proof.
  intros Hb. induction items as [|x items IH]; simpl; [apply quiet_growing, quiet_ret|].
  apply growing_bind; [apply Hb|by intros _].
Qed.

#[local] Hint Resolve quiet_ret quiet_lift quiet_try quiet_throw quiet_gets quiet_await quiet_push quiet_send
  quiet_commit quiet_announce quiet_build_request quiet_commit_input : quiet.
Create HintDb growing.
Ltac growing := repeat first
  [ solve [auto 1 with growing nocore]
  | apply quiet_growing; solve [auto with quiet | apply quiet_modify; done]
  | apply growing_bind; [|intros ?] | apply growing_for_each; intros ?
  | match goal with
    | |- growing (match ?x with _ => _ end) => destruct x
    | |- growing (if ?b then _ else _) => destruct b
    | |- growing (let '_ := ?x in _) => destruct x
    end ].

Lemma growing_record item : growing (record_item item : Engine ()).
Proof.
  apply triple_intro. intros r0 [h Hr]. apply (triple_pre _ (At h)); [|by intros ? ->].
  eapply triple_conseq; [apply record_at|done|intros a; apply at_grown|apply at_grown].
Qed.
#[local] Hint Resolve growing_record : growing.
Lemma growing_complete step_id item : growing (complete_item turn_id step_id item).
Proof. unfold complete_item. growing. Qed.
#[local] Hint Resolve growing_complete : growing.

Lemma growing_consume step_id caps track events : growing (consume_stream turn_id step_id caps track events).
Proof.
  revert track. induction events as [|e events IH]; intros track; simpl; [growing|].
  apply growing_bind; [|intros; apply IH]. unfold consume_event.
  growing.
Qed.

Lemma growing_model_step k : growing (model_step self turn_id context supply hash_order k).
Proof.
  unfold model_step. apply growing_bind; [growing|]. intros [[provider request] caps].
  apply growing_bind; [growing|intros _].
  apply growing_bind; [unfold open_stream; growing|]. intros events.
  apply growing_bind; [growing|]. intros session. apply growing_bind; [apply growing_consume|]. intros track.
  growing.
Qed.

Lemma growing_tool_stage max_steps k calls :
  Forall (λ i, is_tool_call i = true) calls → growing (tool_stage self turn_id supply schedule max_steps k calls).
Proof.
  intros Hc. unfold tool_stage. apply growing_bind.
  - apply triple_intro. intros r0 [h Hr]. apply (triple_pre _ (At h)); [|by intros ? ->].
    eapply triple_conseq; [by apply (execute_calls_at k calls h)|done|..]; [intros _ r [_ Hr']; by eapply at_grown|apply at_grown].
  - intros results. growing.
Qed.

Lemma growing_step_loop remaining max_steps k :
  growing (step_loop self turn_id context supply schedule hash_order remaining max_steps k).
Proof.
  revert k. induction remaining as [|remaining IH]; intros k; simpl; [growing|].
  apply growing_bind; [|intros []; [growing|apply IH]]. unfold engine_step.
  apply growing_bind; [apply growing_model_step|]. intros items.
  assert (∀ m, growing (tool_stage self turn_id supply schedule m k (List.filter is_tool_call items))).
  { intros m. apply growing_tool_stage, Forall_forall. intros i Hi. by apply elem_of_filter_b in Hi as [_ ?]. }
  growing.
Qed.

(** ** The run *)

Lemma engine_step_legal max_steps k :
  Orderly →
  triple AtRest (engine_step self turn_id context supply schedule hash_order max_steps k)
    (λ _, AtRest) OpenTurn.
Proof.
  intros Hord. apply triple_intro. intros r0 (hb & Hr0 & Hb).
  apply (triple_pre _ (At hb)); [|by intros ? ->]. unfold engine_step.
  eapply triple_bind; [by apply model_step_legal|].
  intros items. apply triple_pure. intros Hitems.
  pose proof (at_open _ (step_items_open _ _ Hb Hitems)) as Hopen.
  apply gets_then. intros r1 _. apply lift_then; [done|intros _ _].
  case_bool_decide as Hcalls.
  - apply ret_at. intros r Hr. exists (hb ++ items). split; [done|].
    assert (calls_of items = []) as Hnil by (by rewrite <-calls_of_filter, Hcalls).
    destruct (answered_step hb items [] Hb Hitems) as [Hrest _]; [constructor|by rewrite Hnil|].
    by rewrite app_nil_r in Hrest.
  - eapply triple_bind; [by apply tool_stage_legal|]. intros _ r Hr. exact Hr.
Qed.

Lemma step_loop_legal remaining max_steps k :
  Orderly →
  triple AtRest (step_loop self turn_id context supply schedule hash_order remaining max_steps k)
    (λ _, AtRest) OpenTurn.
Proof.
  intros Hord. revert k. induction remaining as [|remaining IH]; intros k; simpl.
  - intros r Hr. exact Hr.
  - eapply triple_bind; [by apply engine_step_legal|]. intros [|]; [intros r Hr; exact Hr|apply IH].
Qed.

Lemma accept_turn_keeps input (s s' : Session) :
  accept_turn input s = Ok s' →
  s' = restore_accepted_turns (th_accepted_turns s + 1) s.
Proof. unfold accept_turn. intros. by inv_result. Qed.

Lemma run_inner_grows max_steps input :
  triple (At before) (run_inner self turn_id context supply schedule hash_order max_steps input)
    (λ res r, ∃ h, At h r ∧ er_generated_items res = rn_items r) Grown.
Proof.
  unfold run_inner. apply (triple_bind _ _ _ (λ _, At before)).
  { intros r [Hj Hh Hp Ha _]. constructor; simpl; try done. by rewrite app_nil_r. }
  pose proof (at_grown before) as Hg.
  intros _. apply lift_then; [done|intros _ _]. apply triple_intro. intros r0 Hr0.
  apply (triple_bind _ _ _ (λ s r, s = rn_session r0 ∧ At before r)); [by intros r ->|].
  intros s. apply triple_pure. intros ->. apply lift_then; [done|]. intros s' ->%accept_turn_keeps.
  apply (triple_bind _ _ _ (λ _, Grown)).
  { destruct Hr0 as [Hj Hh Hp Ha _]. intros r [_ _ _ _ Hi]. exists before. by constructor. }
  intros _. eapply (triple_bind _ _ _ (λ _, Grown)); [growing|intros _].
  eapply (triple_bind _ _ _ (λ _, Grown)); [growing|intros _].
  eapply (triple_bind _ _ _ (λ _, Grown)); [apply growing_step_loop|]. intros n r [h Hr]. by exists h.
Qed.

(** Accepted input must continue the conversation. *)
Lemma run_inner_legal max_steps input :
  Orderly → Conversation before → Conversation (before ++ input) →
  triple (At before) (run_inner self turn_id context supply schedule hash_order max_steps input)
    (λ res r, AtRest r ∧ er_generated_items res = rn_items r) OpenTurn.
Proof.
  intros Hord Hb Hin.
  assert (∀ done todo, input = done ++ todo → open_history (before ++ done)) as Hpre.
  { intros done todo ->. by exists done, todo. }
  assert (∀ r, At before r → OpenTurn r) as Hopen.
  { apply at_open. rewrite <-(app_nil_r before). by eapply (Hpre []). }
  unfold run_inner. apply (triple_bind _ _ _ (λ _, At before)).
  { intros r [Hj Hh Hp Ha _]. constructor; simpl; try done. by rewrite app_nil_r. }
  intros _. apply lift_then; [done|intros _ _]. apply triple_intro. intros r0 Hr0.
  apply (triple_bind _ _ _ (λ s r, s = rn_session r0 ∧ At before r)); [by intros r ->|].
  intros s. apply triple_pure. intros ->. apply lift_then; [done|]. intros s' ->%accept_turn_keeps.
  apply (triple_bind _ _ _ (λ _, At before)).
  { destruct Hr0 as [Hj Hh Hp Ha _]. intros r [_ _ _ _ Hi]. by constructor. }
  intros _. apply quiet_then; [apply quiet_send|done|intros _].
  apply (triple_bind _ _ _ (λ _, At (before ++ input))); [by apply for_each_at, record_announce|].
  intros _. eapply triple_bind; [eapply triple_pre; [by apply step_loop_legal|]|].
  { intros r Hr. exists (before ++ input). split; [done|]. split; [done|by eexists]. }
  intros n r Hr. by split.
Qed.

(** The state after a run, whatever its outcome: the history is legal and extends
    [before]; a result reports exactly what was appended. *)
Definition run_legal (out : result CoreError EngineResult) r : Prop :=
  Conversation (th_history (rn_session r))
  ∧ match out with
    | Ok res => th_history (rn_session r) = before ++ er_generated_items res
    | Err _ => ∃ closed, th_history (rn_session r) = before ++ rn_items r ++ closed
                 ∧ Forall (λ i, is_tool_result i = true) closed
    end.

Lemma send_final_session event r :
  rn_session (send_final event r) = rn_session r ∧ rn_items (send_final event r) = rn_items r.
Proof. unfold send_final, push_event. by destruct (rn_room r) as [[|n]|]. Qed.

Lemma send_all_session events r :
  rn_session (foldl (λ r item, send_final (EvItemCompleted turn_id item) r) r events) = rn_session r
  ∧ rn_items (foldl (λ r item, send_final (EvItemCompleted turn_id item) r) r events) = rn_items r.
Proof.
  revert r. induction events as [|e events IH]; intros r; simpl; [done|].
  destruct (IH (send_final (EvItemCompleted turn_id e) r)) as [-> ->]. apply send_final_session.
Qed.

(** The history guard repairs whatever an interrupted run left. *)
Lemma close_turn_legal r closed r' :
  Conversation before → OpenTurn r → close_turn supply (length before) r = (closed, r') →
  Conversation (th_history (rn_session r'))
  ∧ th_history (rn_session r') = before ++ rn_items r' ++ closed
  ∧ Forall (λ i, is_tool_result i = true) closed.
Proof.
  intros Hb (h & [Hj Hh Hp Ha Hi] & turn & rest & Hturn & Hrest). unfold close_turn. rewrite Hj.
  assert (rn_items r = turn) as Hitems by (eapply app_inv_head; by rewrite Hi).
  unfold close_unanswered_tool_calls. rewrite Hh, Hturn, drop_app_length. intros [= <- <-]. simpl.
  rewrite Hh, Hitems, Hturn, <-app_assoc.
  split_and!; [by eapply close_completes|done|apply close_results_answers].
Qed.

(** A turn only appends: a result reports exactly what was appended, and an interrupted
    turn keeps its items and adds nothing but tool results. *)
Definition run_appends (out : result CoreError EngineResult) r : Prop :=
  match out with
  | Ok res => th_history (rn_session r) = before ++ er_generated_items res
  | Err _ => ∃ closed, th_history (rn_session r) = before ++ rn_items r ++ closed
               ∧ Forall (λ i, is_tool_result i = true) closed
  end.

Lemma run_turn_grows max_steps input r :
  At before r →
  let '(out, r') := run_turn_with_context self turn_id context supply schedule hash_order max_steps input r in
  run_appends out r'.
Proof.
  intros Hr. unfold run_turn_with_context. rewrite (at_history _ _ Hr).
  pose proof (run_inner_grows max_steps input r Hr) as Hrun.
  destruct (run_inner _ _ _ _ _ _ _ _ r) as [[res|e] r1].
  - destruct Hrun as (h & Hr1 & Hres). unfold run_appends.
    destruct (send_final_session (EvTurnCompleted turn_id (th_id (rn_session r1)) (er_total_usage res)) r1) as [-> _].
    rewrite (at_history _ _ Hr1), Hres. symmetry. apply Hr1.
  - destruct (close_turn _ _ _) as [closed r2] eqn:Hclose. destruct Hrun as [h [Hj Hh Hp Ha Hi]].
    unfold close_turn in Hclose. rewrite Hj in Hclose. unfold close_unanswered_tool_calls in Hclose.
    injection Hclose as <- <-.
    match goal with |- context [foldl _ ?r2' ?cl] => destruct (send_all_session cl r2') as [Hs1 Hi1]; set (r3 := foldl _ r2' cl) in * end.
    destruct (send_final_session (EvTurnFailed turn_id (th_id (rn_session r3)) (error_code e) (core_error_text e)) r3) as [Hs2 Hi2].
    unfold run_appends. rewrite Hs2, Hi2, Hs1, Hi1. simpl. rewrite Hh, <-Hi, drop_app_length.
    eexists. split; [by rewrite <-app_assoc|apply close_results_answers].
Qed.

Lemma run_turn_legal max_steps input r :
  Orderly → At before r → Conversation before → Conversation (before ++ input) →
  let '(out, r') := run_turn_with_context self turn_id context supply schedule hash_order max_steps input r in
  run_legal out r'.
Proof.
  intros Hord Hr Hb Hin. unfold run_turn_with_context. rewrite (at_history _ _ Hr).
  pose proof (run_inner_legal max_steps input Hord Hb Hin r Hr) as Hrun.
  destruct (run_inner _ _ _ _ _ _ _ _ r) as [[res|e] r1].
  - destruct Hrun as [(h & Hr1 & Hc & _) Hres]. unfold run_legal.
    destruct (send_final_session (EvTurnCompleted turn_id (th_id (rn_session r1)) (er_total_usage res)) r1) as [-> _].
    rewrite (at_history _ _ Hr1), Hres. split; [done|]. symmetry. apply Hr1.
  - destruct (close_turn _ _ _) as [closed r2] eqn:Hclose.
    apply close_turn_legal in Hclose as (Hc & Hh & Hres); [|done|done]. unfold run_legal.
    destruct (send_all_session closed r2) as [Hs Hi]. set (r3 := foldl _ _ _) in *.
    destruct (send_final_session (EvTurnFailed turn_id (th_id (rn_session r3)) (error_code e) (core_error_text e)) r3)
      as [-> ->]. rewrite Hs, Hi. split; [done|]. by exists closed.
Qed.
End engine.
