(* ===== verification/Adapters.v ===== *)
(** * Provider adapters: common types and generated streams

    [crates/whale-adapters/src/traits.rs] and what the three wire adapters share.
    A [try_stream!] block is a computation that yields events and then goes on,
    returns or fails; its local variables are a state. What arrives is the list of
    the events of the [eventsource_stream] crate: the data of each, or the text of
    its error, and the end of the list is the end of the connection. *)

From stdpp Require Import pretty.
From S2P Require Import Prelude Protocol StoreState CoreContext CoreSession ModelStep.

(** ** [traits.rs] *)

Inductive AdapterError :=
  | SerializationError (text : string)
  | HttpError (text : string)
  | StreamParseError (what : string)
  | ApiError (provider : string) (status : N) (message : string)
  | ProtocolError (what : string).
#[export] Instance AdapterError_eq_dec : EqDecision AdapterError.
Proof. solve_decision. Defined.

(** [Display] *)
Definition adapter_error_text (e : AdapterError) : string :=
  match e with
  | SerializationError text => "Serialization error: " +:+ text
  | HttpError text => "HTTP transport error: " +:+ text
  | StreamParseError what => "SSE stream parse error: " +:+ what
  | ApiError provider status message =>
      "API error from provider " +:+ provider +:+ ": status=" +:+ pretty status +:+ ", message=" +:+ message
  | ProtocolError what => protocol_error what
  end.

(** [From<AdapterError> for ModelError] of [model.rs] *)
Definition model_error_of (e : AdapterError) : ModelError :=
  match e with
  | HttpError _ | ApiError _ _ _ => Transport (adapter_error_text e)
  | ProtocolError _ | SerializationError _ => InvalidRequest (adapter_error_text e)
  | StreamParseError _ => ModelStream (adapter_error_text e)
  end.

(** [SamplingOptions::new] *)
Definition sampling_options_new (model : string) : SamplingOptions :=
  {| so_model := model; so_temperature := None; so_max_tokens := None; so_reasoning_effort := None;
     so_thinking_budget := None; so_prompt_caching := false |}.

(** [BoxedEventStream]: what it yields, up to the first error. *)
Definition BoxedEventStream := list (result AdapterError AgentStreamEvent).
(** One event of the Server-Sent Events stream. *)
Definition SseEvent := result string string.
(** [HeaderMap]: the names the adapters insert are different. *)
Definition HeaderMap := list (string * string).

(** The trait [ProtocolAdapter]; a stream draws its [Uuid::new_v4] from the supply. *)
Record ProtocolAdapter := {
  adapter_capabilities : ModelCapabilities;
  provider_name : string;
  endpoint_url : string;
  serialize_request : option string → list CanonicalItem → list ToolDefinition → SamplingOptions →
    result AdapterError (Value * HeaderMap);
  parse_stream : (nat → string) → list SseEvent → BoxedEventStream;
}.

(** What the adapters take from other crates: [serde_json::from_str] with the text
    of its error, [Value::to_string], and [HeaderValue::from_str]. *)
Class AdapterExternals := {
  from_str : string → result string Value;
  to_string : Value → string;
  header_value : string → result string string;
}.

(** ** More of [serde_json::Value] *)

(** [Value::as_str] *)
Definition as_str (v : Value) : option string := match v with Str s => Some s | _ => None end.
(** [value["key"]], which is [null] where there is no such member *)
Definition at_key (key : string) (v : Value) : Value := default Null (get key v).
(** [value["key"] = member] on an object *)
Definition set_key (key : string) (member : Value) (v : Value) : Value :=
  match v with Object m => Object (<[key := member]> m) | _ => v end.
(** The member of an object, read as a string or a number *)
Definition str_at (key : string) (v : Value) : option string := get key v ≫= as_str.
Definition u64_at (key : string) (v : Value) : option N := get key v ≫= as_u64.

(** [json!] of a number of type [f32]: the number as an [f64], by its bits. *)
Definition f64_of_f32 (bits : f32) : f64 :=
  let sign := (N.shiftr bits 31 * 2 ^ 63)%N in
  let e := (N.shiftr bits 23 mod 256)%N in
  let m := (bits mod 2 ^ 23)%N in
  if (e =? 0)%N then
    if (m =? 0)%N then 0%N
    else let k := N.log2 m in (sign + N.shiftl (k + 874) 52 + N.shiftl (m - 2 ^ k) (52 - k))%N
  else (sign + N.shiftl (e + 896) 52 + N.shiftl m 29)%N.
Definition json_f32 (bits : f32) : Value :=
  if (N.shiftr bits 23 mod 256 =? 255)%N then Null else Num (Float (f64_of_f32 bits)).

(** [1.0], [0.5] and the least positive [f32] *)
Example f64_of_f32_one : f64_of_f32 1065353216%N = 4607182418800017408%N.
Proof. reflexivity. Qed.
Example f64_of_f32_half : f64_of_f32 1056964608%N = 4602678819172646912%N.
Proof. reflexivity. Qed.
Example f64_of_f32_least : f64_of_f32 1%N = 3936146074321813504%N.
Proof. reflexivity. Qed.

(** [str::trim_end_matches('/')] *)
Fixpoint drop_slashes (l : list ascii) : list ascii :=
  match l with
  | c :: l' => if bool_decide (c = "/"%char) then drop_slashes l' else l
  | [] => []
  end.
Definition trim_end_slashes (s : string) : string :=
  string_of_list_ascii (reverse (drop_slashes (reverse (list_ascii_of_string s)))).

Example trim_end_slashes_example : trim_end_slashes "https://host/v1//" = "https://host/v1".
Proof. reflexivity. Qed.

(** ** Usage: one field set, when the provider reports it *)

Definition with_input (n : option N) (u : UsageMetrics) : UsageMetrics :=
  {| input_tokens := default (input_tokens u) n; output_tokens := output_tokens u;
     reasoning_tokens := reasoning_tokens u; cache_creation_input_tokens := cache_creation_input_tokens u;
     cache_read_input_tokens := cache_read_input_tokens u |}.
Definition with_output (n : option N) (u : UsageMetrics) : UsageMetrics :=
  {| input_tokens := input_tokens u; output_tokens := default (output_tokens u) n;
     reasoning_tokens := reasoning_tokens u; cache_creation_input_tokens := cache_creation_input_tokens u;
     cache_read_input_tokens := cache_read_input_tokens u |}.
Definition with_cache (created read : option N) (u : UsageMetrics) : UsageMetrics :=
  {| input_tokens := input_tokens u; output_tokens := output_tokens u; reasoning_tokens := reasoning_tokens u;
     cache_creation_input_tokens := default (cache_creation_input_tokens u) created;
     cache_read_input_tokens := default (cache_read_input_tokens u) read |}.
Definition with_reasoning (n : option N) (u : UsageMetrics) : UsageMetrics :=
  {| input_tokens := input_tokens u; output_tokens := output_tokens u;
     reasoning_tokens := default (reasoning_tokens u) n;
     cache_creation_input_tokens := cache_creation_input_tokens u;
     cache_read_input_tokens := cache_read_input_tokens u |}.

(** ** [try_stream!] *)

Inductive flow (A : Type) :=
  | Next (a : A)
  | Stop
  | Throw (e : AdapterError).
Arguments Next {A} a.
Arguments Stop {A}.
Arguments Throw {A} e.

(** A block with local variables [S]. *)
Definition gen (S A : Type) := S → list AgentStreamEvent * flow (A * S).

#[export] Instance gen_ret S : MRet (gen S) := λ A a s, ([], Next (a, s)).
#[export] Instance gen_bind S : MBind (gen S) := λ A B f m s,
  match m s with
  | (events, Next (a, s)) => let '(more, r) := f a s in (events ++ more, r)
  | (events, Stop) => (events, Stop)
  | (events, Throw e) => (events, Throw e)
  end.

Section gen.
Context {S : Type}.

(** [yield event] *)
Definition yield (event : AgentStreamEvent) : gen S () := λ s, ([event], Next ((), s)).
(** [return] *)
Definition stop : gen S () := λ s, ([], Stop).
(** [m?] *)
Definition try_ {A} (m : result AdapterError A) : gen S A := λ s,
  match m with Ok a => ([], Next (a, s)) | Err e => ([], Throw e) end.
(** Reading the variables and assigning to them *)
Definition vars : gen S S := λ s, ([], Next (s, s)).
Definition assign (f : S → S) : gen S () := λ s, ([], Next ((), f s)).

(** [for x in l { f(x) }] *)
Fixpoint gen_for {A} (f : A → gen S ()) (l : list A) : gen S () :=
  match l with
  | [] => mret ()
  | x :: l => f x;; gen_for f l
  end.

(** [while let Some(event) = stream.next().await]: the body answers whether the loop
    goes on, [false] for a [break]. *)
Fixpoint while_next (body : string → gen S bool) (stream : list SseEvent) : gen S () :=
  match stream with
  | [] => mret ()
  | Err error :: _ => try_ (Err (StreamParseError error))
  | Ok data :: stream => more ← body data; if more : bool then while_next body stream else mret ()
  end.

(** The stream that the block is. *)
Definition stream_of (block : gen S ()) (s : S) : BoxedEventStream :=
  let '(events, r) := block s in
  (Ok <$> events) ++ match r with Throw e => [Err e] | _ => [] end.
End gen.

(** [parsed: Value = serde_json::from_str(data)] of the two older decoders *)
Definition parse_chunk `{AdapterExternals} (data : string) : result AdapterError Value :=
  map_err (λ e, StreamParseError ("Failed to parse JSON: " +:+ e +:+ " in '" +:+ data +:+ "'")) (from_str data).

(** ** What a block does: weakest preconditions over the events yielded so far *)

Section wp.
Context {S : Type}.
Implicit Types (tr : list AgentStreamEvent) (s : S).

(** After [tr] has been yielded and from [s], the block ends in [Q] when it goes on,
    in [R] when it returns, and in [X] when it fails. *)
Definition wp {A} (R : list AgentStreamEvent → Prop) (X : list AgentStreamEvent → AdapterError → Prop)
    (m : gen S A) (Q : A → list AgentStreamEvent → S → Prop) tr s : Prop :=
  match m s with
  | (events, Next (a, s')) => Q a (tr ++ events) s'
  | (events, Stop) => R (tr ++ events)
  | (events, Throw e) => X (tr ++ events) e
  end.

Section rules.
Context (R : list AgentStreamEvent → Prop) (X : list AgentStreamEvent → AdapterError → Prop).

Lemma wp_ret {A} (a : A) Q tr s : wp R X (mret a) Q tr s ↔ Q a tr s.
Proof. unfold wp. simpl. by rewrite app_nil_r. Qed.

Lemma wp_bind {A B} (m : gen S A) (f : A → gen S B) Q tr s :
  wp R X (m ≫= f) Q tr s ↔ wp R X m (λ a, wp R X (f a) Q) tr s.
Proof.
  unfold wp, mbind, gen_bind. destruct (m s) as [evs [[a s']| |e]]; [|done..].
  destruct (f a s') as [more [[b s'']| |e]]; by rewrite app_assoc.
Qed.

Lemma wp_yield ev Q tr s : wp R X (yield ev) Q tr s ↔ Q () (tr ++ [ev]) s.
Proof. done. Qed.
Lemma wp_stop Q tr s : wp R X stop Q tr s ↔ R tr.
Proof. unfold wp. simpl. by rewrite app_nil_r. Qed.
Lemma wp_try {A} (m : result AdapterError A) Q tr s :
  wp R X (try_ m) Q tr s ↔ match m with Ok a => Q a tr s | Err e => X tr e end.
Proof. unfold wp. destruct m; simpl; by rewrite app_nil_r. Qed.
Lemma wp_vars Q tr s : wp R X vars Q tr s ↔ Q s tr s.
Proof. unfold wp. simpl. by rewrite app_nil_r. Qed.
Lemma wp_assign f Q tr s : wp R X (assign f) Q tr s ↔ Q () tr (f s).
Proof. unfold wp. simpl. by rewrite app_nil_r. Qed.

(** [for event in events { yield event; }] *)
Lemma wp_yields evs Q tr s : wp R X (gen_for yield evs) Q tr s ↔ Q () (tr ++ evs) s.
Proof.
  revert tr. induction evs as [|ev evs IH]; intros tr; simpl.
  - by rewrite wp_ret, app_nil_r.
  - by rewrite wp_bind, wp_yield, IH, <-app_assoc.
Qed.

Lemma wp_mono {A} (m : gen S A) (Q Q' : A → list AgentStreamEvent → S → Prop) tr s :
  (∀ a tr' s', Q a tr' s' → Q' a tr' s') → wp R X m Q tr s → wp R X m Q' tr s.
Proof. intros HQ. unfold wp. destruct (m s) as [evs [[a s']| |e]]; auto. Qed.

(** A loop keeps what its body keeps. *)
Lemma wp_for {A} (f : A → gen S ()) (l : list A) (I : list AgentStreamEvent → S → Prop) tr s :
  (∀ x tr s, x ∈ l → I tr s → wp R X (f x) (λ _, I) tr s) →
  I tr s → wp R X (gen_for f l) (λ _, I) tr s.
Proof.
  intros Hf. revert tr s. induction l as [|x l IH]; intros tr s HI; simpl; [by apply wp_ret|].
  apply wp_bind. eapply wp_mono; [|apply Hf; [by left|done]].
  intros [] tr' s' HI'. apply IH; [|done]. intros y tr2 s2 Hy. apply Hf. by right.
Qed.

(** The same with the part of the list that the loop has done. *)
Lemma wp_for_done {A} (f : A → gen S ()) (l : list A) (I : list A → list AgentStreamEvent → S → Prop) tr s :
  (∀ done x tr s, I done tr s → wp R X (f x) (λ _, I (done ++ [x])) tr s) →
  I [] tr s → wp R X (gen_for f l) (λ _, I l) tr s.
Proof.
  intros Hf. enough (∀ done, I done tr s → wp R X (gen_for f l) (λ _, I (done ++ l)) tr s) as Hg by apply Hg.
  revert tr s. induction l as [|x l IH]; intros tr s done HI; simpl.
  - apply wp_ret. by rewrite app_nil_r.
  - apply wp_bind. eapply wp_mono; [|by apply Hf]. intros [] tr' s' HI'. cbv beta.
    rewrite (cons_middle x done l), app_assoc. by apply IH.
Qed.

Lemma wp_while (body : string → gen S bool) stream (I : list AgentStreamEvent → S → Prop) (B : list AgentStreamEvent → S → Prop) tr s :
  (∀ data tr s, Ok data ∈ stream → I tr s → wp R X (body data) (λ more : bool, if more then I else B) tr s) →
  (∀ tr s e, I tr s → X tr (StreamParseError e)) →
  (∀ tr s, I tr s → B tr s) →
  I tr s → wp R X (while_next body stream) (λ _, B) tr s.
Proof.
  intros Hbody Herr Hend. revert tr s.
  induction stream as [|[data|error] stream IH]; intros tr s HI; simpl.
  - apply wp_ret. by apply Hend.
  - apply wp_bind. eapply wp_mono; [|apply Hbody; [by left|done]].
    intros [] tr' s' HI'; cbv beta; [|by apply wp_ret]. apply IH; [|done].
    intros data' tr2 s2 Hin. apply Hbody. by right.
  - apply wp_try. by eapply Herr.
Qed.

(** The loop of a decoder that only a [return] ends well. *)
Lemma wp_drain (body : string → gen S ()) stream e (I : list AgentStreamEvent → S → Prop)
    (Q : () → list AgentStreamEvent → S → Prop) tr s :
  (∀ data tr s, Ok data ∈ stream → I tr s → wp R X (body data) (λ _, I) tr s) →
  (∀ tr s e, I tr s → X tr e) →
  I tr s → wp R X (while_next (λ data, body data;; mret true) stream) (λ _, wp R X (try_ (Err e)) Q) tr s.
Proof.
  intros Hbody Herr HI.
  eapply wp_mono; [|eapply (wp_while _ _ I I); [|eauto|done|exact HI]].
  - intros [] tr' s' HI'. apply wp_try. by eapply Herr.
  - intros data tr' s' Hin HI'. apply wp_bind. eapply wp_mono; [|by apply Hbody].
    intros [] tr2 s2 HI2. by apply wp_ret.
Qed.
End rules.

(** What a block with a specification yields as a stream. *)
Lemma wp_stream R X (block : gen S ()) (Q : list AgentStreamEvent → S → Prop) s (P : BoxedEventStream → Prop) :
  wp R X block (λ _, Q) [] s →
  (∀ tr s, Q tr s → P (Ok <$> tr)) → (∀ tr, R tr → P (Ok <$> tr)) →
  (∀ tr e, X tr e → P ((Ok <$> tr) ++ [Err e])) →
  P (stream_of block s).
Proof.
  unfold wp, stream_of. destruct (block s) as [evs [[a s']| |e]]; simpl; rewrite ?app_nil_r; eauto.
Qed.
End wp.

#[export] Hint Rewrite @wp_ret @wp_bind @wp_yield @wp_stop @wp_vars @wp_assign @wp_yields : whale_wp.

(** Runs a block as far as its control flow is known. *)
Ltac wp_run := autorewrite with whale_wp; cbv beta.
(** One case distinction of the block. *)
Ltac wp_case :=
  match goal with
  | |- wp _ _ (try_ ?m) _ _ _ => apply wp_try; destruct m eqn:?
  | |- wp _ _ (match ?x with _ => _ end) _ _ _ => destruct x eqn:?
  | |- wp _ _ (if ?x then _ else _) _ _ _ => destruct x eqn:?
  end.
