(* ===== verification/AnthropicAdapter.v ===== *)
(** * The Anthropic Messages adapter

    [crates/whale-adapters/src/anthropic.rs]: the request that a conversation
    becomes, and the decoder of the stream that answers it. *)

From S2P Require Import Prelude Protocol StoreState CoreContext CoreSession ModelStep Adapters.

Record AnthropicAdapter := { an_api_key : string; an_base_url : string }.

(** [AnthropicAdapter::new] and [with_base_url] *)
Definition anthropic_new (api_key : string) : AnthropicAdapter :=
  {| an_api_key := api_key; an_base_url := "https://api.anthropic.com/v1" |}.
Definition anthropic_with_base_url (api_key base_url : string) : AnthropicAdapter :=
  {| an_api_key := api_key; an_base_url := base_url |}.

Definition anthropic_endpoint (self : AnthropicAdapter) : string :=
  trim_end_slashes (an_base_url self) +:+ "/messages".

Section request.
Context `{AdapterExternals}.

Definition anthropic_headers (self : AnthropicAdapter) : result AdapterError HeaderMap :=
  key ← (if str_is_empty (an_api_key self) then Ok []
         else value ← map_err (λ e, ProtocolError ("Invalid API key header: " +:+ e)) (header_value (an_api_key self));
              Ok [("x-api-key", value)]);
  Ok (key ++ [("anthropic-version", "2023-06-01"); ("content-type", "application/json");
              ("anthropic-beta", "prompt-caching-2024-07-31,output-128k-2025-02-19")]).

(** ** Content blocks *)

Definition text_block (text : string) : Value := Object {["type" := Str "text"; "text" := Str text]}.
Definition image_block (source : Value) : Value := Object {["type" := Str "image"; "source" := source]}.

(** A block of a user message or of a tool result; audio and an image without a
    source are left out. *)
Definition user_block (c : CanonicalContent) : option Value :=
  match c with
  | ContentText text => Some (text_block text)
  | ContentImage mime_type (Some data) _ =>
      Some (image_block (Object {["type" := Str "base64"; "media_type" := Str mime_type; "data" := Str data]}))
  | ContentImage _ None (Some uri) => Some (image_block (Object {["type" := Str "url"; "url" := Str uri]}))
  | ContentImage _ None None => None
  | ContentAudio _ _ _ => None
  end.

Definition assistant_block (c : CanonicalContent) : option Value :=
  match c with ContentText text => Some (text_block text) | _ => None end.

Definition thinking_block (thinking : string) (signature : option string) : Value :=
  let block := Object {["type" := Str "thinking"; "thinking" := Str thinking]} in
  match signature with Some sig => set_key "signature" (Str sig) block | None => block end.

Definition tool_use_block (call_id name : string) (arguments : option Value) (raw_arguments : string) : Value :=
  let input_val :=
    match arguments with
    | Some args => args
    | None => match from_str raw_arguments with Ok parsed => parsed | Err _ => Object ∅ end
    end in
  Object {["type" := Str "tool_use"; "id" := Str call_id; "name" := Str name; "input" := input_val]}.

Definition tool_result_block (call_id : string) (output : CanonicalToolOutput) (is_error : bool) : Value :=
  let content_val :=
    match output with
    | OutputText text => Str text
    | OutputStructured data => Str (to_string data)
    | OutputBlocks blocks => Array (omap user_block blocks)
    end in
  let block := Object {["type" := Str "tool_result"; "tool_use_id" := Str call_id; "content" := content_val]} in
  if is_error then set_key "is_error" (Bool true) block else block.

(** ** Messages *)

Definition push_or_merge_message (messages : list Value) (role : string) (blocks : list Value) : list Value :=
  let push := messages ++ [Object {["role" := Str role; "content" := Array blocks]}] in
  match last messages with
  | Some last_msg =>
      if str_at "role" last_msg == Some role then
        match get "content" last_msg ≫= as_array with
        | Some content_arr => update_last (set_key "content" (Array (content_arr ++ blocks))) messages
        | None => push
        end
      else push
  | None => push
  end.

(** One round of the loop over the history. *)
Definition push_item (messages : list Value) (item : CanonicalItem) : list Value :=
  match item with
  | UserMessage _ content =>
      let blocks := omap user_block content in
      if bool_decide (blocks = []) then messages else push_or_merge_message messages "user" blocks
  | Reasoning _ thinking signature _ =>
      push_or_merge_message messages "assistant" [thinking_block thinking signature]
  | AssistantMessage _ content _ =>
      let blocks := omap assistant_block content in
      if bool_decide (blocks = []) then messages else push_or_merge_message messages "assistant" blocks
  | ToolCall _ call_id _ name arguments raw_arguments =>
      push_or_merge_message messages "assistant" [tool_use_block call_id name arguments raw_arguments]
  | ToolResult _ call_id output is_error =>
      push_or_merge_message messages "user" [tool_result_block call_id output is_error]
  end.

Definition ephemeral : Value := Object {["type" := Str "ephemeral"]}.

(** [cache_control] on the last block of the last message *)
Definition mark_message (msg : Value) : Value :=
  match get "content" msg ≫= as_array with
  | Some content_array => set_key "content" (Array (update_last (set_key "cache_control" ephemeral) content_array)) msg
  | None => msg
  end.

Definition anthropic_messages (history : list CanonicalItem) (prompt_caching : bool) : list Value :=
  let messages := foldl push_item [] history in
  if prompt_caching then update_last mark_message messages else messages.

(** ** The request *)

Definition anthropic_system (sys : string) (prompt_caching : bool) : Value :=
  if prompt_caching
  then Array [Object {["type" := Str "text"; "text" := Str sys; "cache_control" := ephemeral]}]
  else Array [Object {["type" := Str "text"; "text" := Str sys]}].

Definition anthropic_tool (t : ToolDefinition) : Value :=
  Object {["name" := Str (td_name t); "description" := Str (td_description t); "input_schema" := td_parameters t]}.

(** [body.insert(key, json!(v))] when there is a [v] *)
Definition insert_some {A} (key : string) (f : A → Value) (o : option A) (body : Map) : Map :=
  match o with Some v => <[key := f v]> body | None => body end.

(** [1.0] by its bits *)
Definition f32_one : f32 := 1065353216%N.

Definition anthropic_serialize_request (self : AnthropicAdapter) (system_prompt : option string)
    (history : list CanonicalItem) (tools : list ToolDefinition) (options : SamplingOptions) :
    result AdapterError (Value * HeaderMap) :=
  let capabilities := http_capabilities "anthropic" in
  map_err ProtocolError (validate_configuration (so_model options) tools options capabilities);;
  map_err ProtocolError (validate_capable_items history capabilities);;
  headers ← anthropic_headers self;
  let body : Map := <["model" := Str (so_model options)]> ∅ in
  let body := <["max_tokens" := u64_value (default 4096%N (so_max_tokens options))]> body in
  let body := <["stream" := Bool true]> body in
  reject_if (is_some_and (so_temperature options) (λ temp, is_some (so_thinking_budget options) && (temp != f32_one)))
    (ProtocolError "Anthropic thinking requires temperature=1 or no explicit temperature");;
  let body := insert_some "temperature" json_f32 (so_temperature options) body in
  let body := insert_some "thinking"
    (λ budget, Object {["type" := Str "enabled"; "budget_tokens" := u64_value budget]}) (so_thinking_budget options) body in
  let body := insert_some "system" (λ sys, anthropic_system sys (so_prompt_caching options)) system_prompt body in
  let body := if bool_decide (tools = []) then body else <["tools" := Array (anthropic_tool <$> tools)]> body in
  let body := <["messages" := Array (anthropic_messages history (so_prompt_caching options))]> body in
  Ok (Object body, headers).
End request.

(** ** The stream *)

(** The variables of the decoder; [as_fresh] counts the identifiers drawn so far. *)
Record AnthropicState := {
  as_fresh : nat;
  as_item_id : ItemId;
  as_block_type : string;
  as_block_open : bool;
  as_text : string;
  as_thinking : string;
  as_signature : string;
  as_tool_id : string;
  as_tool_name : string;
  as_tool_args : string;
  as_usage : UsageMetrics;
}.

Section stream.
Context `{AdapterExternals}.
Variables (turn_id thread_id : string) (new_item_id : nat → ItemId).
Implicit Type (s : AnthropicState).

Definition anthropic_state_new : AnthropicState :=
  {| as_fresh := 1; as_item_id := new_item_id 0; as_block_type := ""; as_block_open := false; as_text := "";
     as_thinking := ""; as_signature := ""; as_tool_id := ""; as_tool_name := ""; as_tool_args := "";
     as_usage := usage_default |}.

Definition as_eta s : AnthropicState :=
  {| as_fresh := as_fresh s; as_item_id := as_item_id s; as_block_type := as_block_type s;
     as_block_open := as_block_open s; as_text := as_text s; as_thinking := as_thinking s;
     as_signature := as_signature s; as_tool_id := as_tool_id s; as_tool_name := as_tool_name s;
     as_tool_args := as_tool_args s; as_usage := as_usage s |}.
Definition set_block_type (v : string) s : AnthropicState := ltac:(update_field as_eta as_block_type v s).
Definition set_block_open (v : bool) s : AnthropicState := ltac:(update_field as_eta as_block_open v s).
Definition push_text (v : string) s : AnthropicState := ltac:(update_field as_eta as_text (as_text s +:+ v) s).
Definition push_thinking (v : string) s : AnthropicState :=
  ltac:(update_field as_eta as_thinking (as_thinking s +:+ v) s).
Definition push_signature (v : string) s : AnthropicState :=
  ltac:(update_field as_eta as_signature (as_signature s +:+ v) s).
Definition push_tool_args (v : string) s : AnthropicState :=
  ltac:(update_field as_eta as_tool_args (as_tool_args s +:+ v) s).
Definition set_tool_id (v : string) s : AnthropicState := ltac:(update_field as_eta as_tool_id v s).
Definition set_tool_name (v : string) s : AnthropicState := ltac:(update_field as_eta as_tool_name v s).
Definition set_stream_usage (v : UsageMetrics) s : AnthropicState := ltac:(update_field as_eta as_usage v s).

(** The arm ["message_start"]. *)
Definition message_start (parsed : Value) : gen AnthropicState () :=
  match get "message" parsed ≫= get "usage" with
  | Some usage =>
      assign (λ s, set_stream_usage
        (with_cache (u64_at "cache_creation_input_tokens" usage) (u64_at "cache_read_input_tokens" usage)
           (with_input (u64_at "input_tokens" usage) (as_usage s))) s)
  | None => mret ()
  end.

(** A block starts with the next identifier and empty buffers. *)
Definition open_block s : AnthropicState :=
  {| as_fresh := 1 + as_fresh s; as_item_id := new_item_id (as_fresh s); as_block_type := as_block_type s;
     as_block_open := true; as_text := ""; as_thinking := ""; as_signature := ""; as_tool_id := "";
     as_tool_name := ""; as_tool_args := ""; as_usage := as_usage s |}.

(** The arm ["content_block_start"]. *)
Definition content_block_start (parsed : Value) : gen AnthropicState () :=
  s ← vars;
  try_ (reject_if (as_block_open s)
          (ProtocolError "Anthropic started a block before closing the previous block"));;
  assign open_block;;
  match get "content_block" parsed with
  | None => mret ()
  | Some block =>
      let b_type := default "" (str_at "type" block) in
      assign (set_block_type b_type);;
      s ← vars;
      if b_type == "text" then
        yield (EvItemStarted turn_id (as_item_id s) "assistant_message" (Some FinalAnswer))
      else if b_type == "thinking" then
        yield (EvItemStarted turn_id (as_item_id s) "reasoning" (Some Commentary))
      else if b_type == "tool_use" then
        assign (λ s, match str_at "id" block with Some id => set_tool_id id s | None => s end);;
        assign (λ s, match str_at "name" block with Some name => set_tool_name name s | None => s end);;
        yield (EvItemStarted turn_id (as_item_id s) "tool_call" None)
      else mret ()
  end.

(** The arm ["content_block_delta"]. *)
Definition content_block_delta (parsed : Value) : gen AnthropicState () :=
  match get "delta" parsed with
  | None => mret ()
  | Some delta =>
      let delta_type := default "" (str_at "type" delta) in
      s ← vars;
      if delta_type == "text_delta" then
        match str_at "text" delta with
        | Some text => assign (push_text text);; yield (EvTextDelta turn_id (as_item_id s) text)
        | None => mret ()
        end
      else if delta_type == "thinking_delta" then
        match str_at "thinking" delta with
        | Some thinking => assign (push_thinking thinking);; yield (EvReasoningDelta turn_id (as_item_id s) thinking)
        | None => mret ()
        end
      else if delta_type == "signature_delta" then
        match str_at "signature" delta with
        | Some sig => assign (push_signature sig);; yield (EvReasoningSignature turn_id (as_item_id s) sig)
        | None => mret ()
        end
      else if delta_type == "input_json_delta" then
        match str_at "partial_json" delta with
        | Some partial_json =>
            assign (push_tool_args partial_json);;
            yield (EvToolCallDelta turn_id (as_item_id s) (as_tool_id s) partial_json)
        | None => mret ()
        end
      else mret ()
  end.

(** The item of the block that ends, by the type of the block. *)
Definition block_item s : option CanonicalItem :=
  if as_block_type s == "text" then
    Some (AssistantMessage (as_item_id s) [ContentText (as_text s)] FinalAnswer)
  else if as_block_type s == "thinking" then
    Some (Reasoning (as_item_id s) (as_thinking s)
            (if str_is_empty (as_signature s) then None else Some (as_signature s)) None)
  else if as_block_type s == "tool_use" then
    Some (ToolCall (as_item_id s) (as_tool_id s) None (as_tool_name s)
            (match from_str (as_tool_args s) with Ok v => Some v | Err _ => None end) (as_tool_args s))
  else None.

(** The arm ["content_block_stop"]. *)
Definition content_block_stop : gen AnthropicState () :=
  assign (set_block_open false);;
  s ← vars;
  match block_item s with
  | Some item => yield (EvItemCompleted turn_id item)
  | None => mret ()
  end.

Definition complete_stop_reasons : list string := ["end_turn"; "tool_use"; "stop_sequence"; "refusal"].

(** The arm ["message_delta"]. *)
Definition message_delta (parsed : Value) : gen AnthropicState () :=
  match as_str (at_key "stop_reason" (at_key "delta" parsed)) with
  | Some reason =>
      if bool_decide (reason ∈ complete_stop_reasons) then mret ()
      else yield (EvTurnFailed turn_id thread_id "incomplete_completion"
                    ("Anthropic generation stopped without a complete supported response: " +:+ reason));; stop
  | None => mret ()
  end;;
  match get "usage" parsed with
  | Some usage => assign (λ s, set_stream_usage (with_output (u64_at "output_tokens" usage) (as_usage s)) s)
  | None => mret ()
  end.

(** The arms ["message_stop"] and ["error"]. *)
Definition message_stop : gen AnthropicState () :=
  s ← vars;
  try_ (reject_if (as_block_open s) (ProtocolError "Anthropic message_stop arrived before content_block_stop"));;
  yield (EvTurnCompleted turn_id thread_id (as_usage s));;
  stop.
Definition stream_error (parsed : Value) : gen AnthropicState () :=
  let err_obj := get "error" parsed in
  yield (EvTurnFailed turn_id thread_id (default "API_ERROR" (err_obj ≫= str_at "type"))
           (default "Unknown Anthropic API error" (err_obj ≫= str_at "message")));;
  stop.

(** The body of the loop. *)
Definition anthropic_event (raw : string) : gen AnthropicState () :=
  let data := trim raw in
  if str_is_empty data || (data == "[DONE]") then mret () else
  parsed ← try_ (parse_chunk data);
  let event_type := default "" (str_at "type" parsed) in
  if event_type == "message_start" then message_start parsed
  else if event_type == "content_block_start" then content_block_start parsed
  else if event_type == "content_block_delta" then content_block_delta parsed
  else if event_type == "content_block_stop" then content_block_stop
  else if event_type == "message_delta" then message_delta parsed
  else if event_type == "message_stop" then message_stop
  else if event_type == "error" then stream_error parsed
  else mret ().

Definition anthropic_block (event_stream : list SseEvent) : gen AnthropicState () :=
  yield (EvTurnStarted turn_id thread_id);;
  while_next (λ raw, anthropic_event raw;; mret true) event_stream;;
  try_ (Err (StreamParseError "Unexpected EOF before Anthropic message_stop")).

Definition anthropic_parse_stream (event_stream : list SseEvent) : BoxedEventStream :=
  stream_of (anthropic_block event_stream) anthropic_state_new.
End stream.

(** [impl ProtocolAdapter for AnthropicAdapter] *)
Definition anthropic_adapter `{AdapterExternals} (self : AnthropicAdapter) : ProtocolAdapter :=
  {| adapter_capabilities := http_capabilities "anthropic"; provider_name := "anthropic";
     endpoint_url := anthropic_endpoint self; serialize_request := anthropic_serialize_request self;
     parse_stream := λ uuids, anthropic_parse_stream (uuids 0) (uuids 1) (λ n, uuids (2 + n)) |}.
