(* ===== verification/ResponsesAdapter.v ===== *)
(** * The OpenAI Responses adapter

    [crates/whale-adapters/src/responses.rs]: the request, the canonical form of an
    output item, [ResponseState] and the decoder of the stream. *)

From S2P Require Import Prelude Protocol StoreState CoreContext CoreSession ModelStep Adapters.

Definition protocol {A} (message : string) : result AdapterError A := Err (ProtocolError message).

(** [string(value, field)] *)
Definition string_field (value : Value) (field : string) : result AdapterError string :=
  ok_or (str_at field value) (ProtocolError ("Responses requires string field '" +:+ field +:+ "'")).

(** [iter().map(f).collect::<Result<Vec<_>, _>>()] *)
Fixpoint map_res {E A B} (f : A → result E B) (l : list A) : result E (list B) :=
  match l with
  | [] => Ok []
  | x :: l => y ← f x; ys ← map_res f l; Ok (y :: ys)
  end.

(** [join(separator)] *)
Fixpoint join (separator : string) (l : list string) : string :=
  match l with
  | [] => ""
  | [x] => x
  | x :: l => x +:+ separator +:+ join separator l
  end.

Section responses.
Context `{AdapterExternals}.

(** ** The request *)

Definition input_block (block : CanonicalContent) : result AdapterError Value :=
  match block with
  | ContentText text => Ok (Object {["type" := Str "input_text"; "text" := Str text]})
  | ContentImage mime_type data uri =>
      image_url ← match data, uri with
                  | Some data, None => Ok ("data:" +:+ mime_type +:+ ";base64," +:+ data)
                  | None, Some uri => Ok uri
                  | _, _ => protocol "Responses image requires exactly one of data or uri"
                  end;
      Ok (Object {["type" := Str "input_image"; "image_url" := Str image_url]})
  | ContentAudio _ _ _ => protocol "Responses audio content is not supported by the canonical adapter"
  end.

Definition input_content (content : list CanonicalContent) : result AdapterError (list Value) :=
  map_res input_block content.

(** Serde's name of a phase *)
Definition phase_value (p : MessagePhase) : Value :=
  Str (match p with Commentary => "commentary" | FinalAnswer => "final_answer" end).

Definition assistant_text_part (part : CanonicalContent) : result AdapterError string :=
  match part with
  | ContentText text => Ok text
  | _ => protocol "Responses assistant history only supports text content"
  end.

(** The arguments of a call as text. *)
Definition arguments_text (arguments : option Value) (raw_arguments : string) : string :=
  if str_is_empty raw_arguments then from_option to_string "{}" arguments else raw_arguments.

(** One item of the history. *)
Definition input_item (item : CanonicalItem) : result AdapterError Value :=
  match item with
  | UserMessage _ content =>
      content ← input_content content;
      Ok (Object {["role" := Str "user"; "content" := Array content]})
  | AssistantMessage _ content phase =>
      parts ← map_res assistant_text_part content;
      Ok (Object {["role" := Str "assistant"; "content" := Str (join "" parts); "phase" := phase_value phase]})
  | Reasoning id thinking signature encrypted_content =>
      reject_if (is_some signature) (ProtocolError "Responses cannot replay an Anthropic reasoning signature");;
      let summary := if str_is_empty thinking then []
                     else [Object {["type" := Str "summary_text"; "text" := Str thinking]}] in
      let value := Object {["id" := Str id; "type" := Str "reasoning"; "summary" := Array summary]} in
      Ok (match encrypted_content with
          | Some encrypted => set_key "encrypted_content" (Str encrypted) value
          | None => value
          end)
  | ToolCall _ call_id namespace name arguments raw_arguments =>
      let call := Object {["type" := Str "function_call"; "call_id" := Str call_id; "name" := Str name;
                           "arguments" := Str (arguments_text arguments raw_arguments)]} in
      Ok (match namespace with Some namespace => set_key "namespace" (Str namespace) call | None => call end)
  | ToolResult _ call_id output is_error =>
      output ← match output with
               | OutputText text => Ok (Str text)
               | OutputStructured data => Ok (Str (to_string data))
               | OutputBlocks blocks => blocks ← input_content blocks; Ok (Array blocks)
               end;
      let output := if is_error : bool
                    then Str (to_string (Object {["is_error" := Bool true; "output" := output]})) else output in
      Ok (Object {["type" := Str "function_call_output"; "call_id" := Str call_id; "output" := output]})
  end.

Definition responses_tool (t : ToolDefinition) : Value :=
  Object {["type" := Str "function"; "name" := Str (td_name t); "description" := Str (td_description t);
           "parameters" := td_parameters t]}.

Definition set_some {A} (key : string) (f : A → Value) (o : option A) (body : Value) : Value :=
  match o with Some v => set_key key (f v) body | None => body end.

Definition responses_serialize_request (system_prompt : option string) (history : list CanonicalItem)
    (tools : list ToolDefinition) (options : SamplingOptions) : result AdapterError Value :=
  input ← map_res input_item history;
  let body := Object {["model" := Str (so_model options); "stream" := Bool true; "store" := Bool false;
                       "include" := Array [Str "reasoning.encrypted_content"]; "input" := Array input]} in
  let body := set_some "instructions" Str system_prompt body in
  let body := set_some "reasoning" (λ effort, Object {["effort" := Str effort]}) (so_reasoning_effort options) body in
  let body := set_some "temperature" json_f32 (so_temperature options) body in
  let body := set_some "max_output_tokens" u64_value (so_max_tokens options) body in
  reject_if (is_some (so_thinking_budget options))
    (ProtocolError "Responses does not support thinking_budget; use reasoning_effort");;
  Ok (if bool_decide (tools = []) then body else set_key "tools" (Array (responses_tool <$> tools)) body).

(** ** The canonical form of an output item *)

(** [phase(value)] *)
Definition phase_of (value : Value) : result AdapterError MessagePhase :=
  match str_at "phase" value with
  | None => Ok FinalAnswer
  | Some p =>
      if p == "final_answer" then Ok FinalAnswer
      else if p == "commentary" then Ok Commentary
      else protocol ("Unsupported Responses message phase: " +:+ p)
  end.

Definition output_part (part : Value) : result AdapterError CanonicalContent :=
  kind ← string_field part "type";
  if kind == "output_text" then text ← string_field part "text"; Ok (ContentText text)
  else protocol ("Unsupported Responses output content: " +:+ kind).

Definition summary_part (part : Value) : result AdapterError string :=
  kind ← string_field part "type";
  reject_if (kind != "summary_text") (ProtocolError "Unsupported Responses reasoning summary content");;
  string_field part "text".

Definition canonical (value : Value) : result AdapterError CanonicalItem :=
  id ← string_field value "id";
  kind ← string_field value "type";
  if kind == "message" then
    role ← string_field value "role";
    reject_if (role != "assistant") (ProtocolError "Responses output message must have assistant role");;
    parts ← ok_or (as_array (at_key "content" value)) (ProtocolError "Responses message requires content array");
    content ← map_res output_part parts;
    phase ← phase_of value;
    Ok (AssistantMessage id content phase)
  else if kind == "function_call" then
    raw_arguments ← string_field value "arguments";
    call_id ← string_field value "call_id";
    name ← string_field value "name";
    Ok (ToolCall id call_id (str_at "namespace" value) name
          (match from_str raw_arguments with Ok v => Some v | Err _ => None end) raw_arguments)
  else if kind == "reasoning" then
    reject_if (is_some_and (get "content" value ≫= as_array) (λ v, v != []))
      (ProtocolError "Raw reasoning content cannot be replayed losslessly by the canonical Responses adapter; use reasoning summary/encrypted content");;
    summary ← ok_or (as_array (at_key "summary" value)) (ProtocolError "Responses reasoning requires summary array");
    texts ← map_res summary_part summary;
    Ok (Reasoning id (join (String (ascii_of_nat 10) "") texts) None (str_at "encrypted_content" value))
  else protocol ("Unsupported Responses output item: " +:+ kind).

(** ** [ResponseState] *)

Record ItemState := { is_value : Value; is_completed : bool }.
Record ResponseState := { rsp_items : gmap N ItemState; rsp_ids : gset string }.
Definition response_state_default : ResponseState := {| rsp_items := ∅; rsp_ids := ∅ |}.

(** The type that [ItemStarted] announces, and the phase. *)
Definition start_kind (value : Value) : result AdapterError (string * option MessagePhase) :=
  kind ← string_field value "type";
  if kind == "message" then phase ← phase_of value; Ok ("assistant_message", Some phase)
  else if kind == "reasoning" then Ok ("reasoning", Some Commentary)
  else if kind == "function_call" then Ok ("tool_call", None)
  else protocol ("Unsupported Responses output item: " +:+ kind).

Definition start (self : ResponseState) (index : N) (value : Value) (turn_id : string) :
    result AdapterError (option AgentStreamEvent * ResponseState) :=
  match rsp_items self !! index with
  | Some state =>
      reject_if (at_key "id" (is_value state) != at_key "id" value)
        (ProtocolError "Responses reused output_index for a different item");;
      Ok (None, self)
  | None =>
      id ← string_field value "id";
      reject_if (bool_decide (id ∈ rsp_ids self)) (ProtocolError "Responses reused an output item ID");;
      '(item_type, phase) ← start_kind value;
      Ok (Some (EvItemStarted turn_id id item_type phase),
          {| rsp_items := <[index := {| is_value := value; is_completed := false |}]> (rsp_items self);
             rsp_ids := {[id]} ∪ rsp_ids self |})
  end.

(** [item_mut]: the item that the event is about. *)
Definition item_mut (self : ResponseState) (event : Value) : result AdapterError ItemState :=
  index ← ok_or (as_u64 (at_key "output_index" event)) (ProtocolError "Responses event requires output_index");
  state ← ok_or (rsp_items self !! index) (ProtocolError "Responses delta/done arrived before output_item.added");
  event_id ← string_field event "item_id";
  id ← string_field (is_value state) "id";
  reject_if (event_id != id) (ProtocolError "Responses event item_id does not match output_index");;
  reject_if (is_completed state) (ProtocolError "Responses delta/done arrived after item completion");;
  Ok state.

(** [finish]; after [start] the item is there. *)
Definition finish_item (self : ResponseState) (index : N) (value : Value) (turn_id : string) :
    result AdapterError (list AgentStreamEvent * ResponseState) :=
  '(started, self) ← start self index value turn_id;
  let events := option_list started in
  item ← canonical value;
  match rsp_items self !! index with
  | None => protocol "called `Option::unwrap()` on a `None` value"
  | Some state =>
      if is_completed state then
        old ← canonical (is_value state);
        reject_if (old != item) (ProtocolError "Responses terminal snapshot changed a completed item");;
        Ok (events, self)
      else
        Ok (events ++ [EvItemCompleted turn_id item],
            {| rsp_items := <[index := {| is_value := value; is_completed := true |}]> (rsp_items self);
               rsp_ids := rsp_ids self |})
  end.

(** ** The stream *)

Variables (turn_id thread_id : string).

(** [state.start(..)?] and [state.finish(..)?] with what they yield *)
Definition yield_start (index : N) (value : Value) : gen ResponseState () :=
  state ← vars;
  '(event, state) ← try_ (start state index value turn_id);
  assign (λ _, state);;
  gen_for yield (option_list event).
Definition yield_finish (index : N) (value : Value) : gen ResponseState () :=
  state ← vars;
  '(events, state) ← try_ (finish_item state index value turn_id);
  assign (λ _, state);;
  gen_for yield events.

Definition item_index (value : Value) : result AdapterError N :=
  ok_or (as_u64 (at_key "output_index" value)) (ProtocolError "Responses item requires output_index").

(** The type of the item that a delta is about, checked against the expected one. *)
Definition expect_kind (item : ItemState) (expected message : string) : result AdapterError () :=
  kind ← string_field (is_value item) "type";
  reject_if (kind != expected) (ProtocolError message).

(** The arms of the three deltas. *)
Definition item_delta (kind : string) (value : Value) : gen ResponseState () :=
  state ← vars;
  item ← try_ (item_mut state value);
  item_id ← try_ (string_field (is_value item) "id");
  delta ← try_ (string_field value "delta");
  if kind == "response.output_text.delta" then
    try_ (expect_kind item "message" "Text delta requires message item");;
    yield (EvTextDelta turn_id item_id delta)
  else if kind == "response.reasoning_summary_text.delta" then
    try_ (expect_kind item "reasoning" "Reasoning delta requires reasoning item");;
    yield (EvReasoningDelta turn_id item_id delta)
  else
    try_ (expect_kind item "function_call" "Arguments delta requires function_call item");;
    call_id ← try_ (string_field (is_value item) "call_id");
    yield (EvToolCallDelta turn_id item_id call_id delta).

Definition response_usage (usage : Value) : UsageMetrics :=
  let number (v : Value) := default 0%N (as_u64 v) in
  {| input_tokens := number (at_key "input_tokens" usage);
     output_tokens := number (at_key "output_tokens" usage);
     reasoning_tokens := number (at_key "reasoning_tokens" (at_key "output_tokens_details" usage));
     cache_creation_input_tokens := 0;
     cache_read_input_tokens := number (at_key "cached_tokens" (at_key "input_tokens_details" usage)) |}.

(** [state.items.len() != output.len() || state.items.values().any(|s| !s.completed)] *)
Definition omitted_item (state : ResponseState) (output : list Value) : bool :=
  negb (size (rsp_items state) =? length output)%nat
  || existsb (λ s, negb (is_completed s)) (map_to_list (rsp_items state)).*2.

(** The arm ["response.completed"]. *)
Definition response_completed (value : Value) : gen ResponseState () :=
  let response := at_key "response" value in
  status ← try_ (string_field response "status");
  try_ (reject_if (status != "completed") (ProtocolError "response.completed has non-completed status"));;
  output ← try_ (ok_or (as_array (at_key "output" response))
                   (ProtocolError "response.completed requires output array"));
  gen_for (λ '(index, item), yield_finish (N.of_nat index) item) (imap pair output);;
  state ← vars;
  try_ (reject_if (omitted_item state output) (ProtocolError "Responses terminal output omitted a streamed item"));;
  yield (EvTurnCompleted turn_id thread_id (response_usage (at_key "usage" response)));;
  stop.

(** The arm of the three failures: the code and the message. *)
Definition response_failure (kind : string) (value : Value) : string * string :=
  if kind == "error" then
    (default "provider_error" (as_str (at_key "code" value)),
     default "Responses stream error" (as_str (at_key "message" value)))
  else if kind == "response.failed" then
    let error := at_key "error" (at_key "response" value) in
    (default "response_failed" (as_str (at_key "code" error)),
     default "Responses generation failed" (as_str (at_key "message" error)))
  else
    let reason := default "unknown"
      (as_str (at_key "reason" (at_key "incomplete_details" (at_key "response" value)))) in
    ("response_incomplete", "Responses generation incomplete: " +:+ reason).

(** The arms of the other events by their kind. *)
Definition progress_kinds : list string := ["response.created"; "response.in_progress"; "response.queued"].
Definition delta_kinds : list string :=
  ["response.output_text.delta"; "response.reasoning_summary_text.delta"; "response.function_call_arguments.delta"].
Definition part_kinds : list string :=
  ["response.output_text.done"; "response.function_call_arguments.done"; "response.reasoning_summary_text.done";
   "response.content_part.added"; "response.content_part.done"; "response.reasoning_summary_part.added";
   "response.reasoning_summary_part.done"].
Definition failure_kinds : list string := ["error"; "response.failed"; "response.incomplete"].

(** The body of the loop. *)
Definition responses_event (data : string) : gen ResponseState () :=
  if blank data then mret () else
  value ← try_ (map_err (λ e, StreamParseError ("Invalid Responses SSE JSON: " +:+ e)) (from_str data));
  kind ← try_ (string_field value "type");
  if bool_decide (kind ∈ progress_kinds) then mret ()
  else if kind == "response.output_item.added" then
    index ← try_ (item_index value);
    yield_start index (at_key "item" value)
  else if kind == "response.output_item.done" then
    index ← try_ (item_index value);
    yield_finish index (at_key "item" value)
  else if bool_decide (kind ∈ delta_kinds) then item_delta kind value
  else if bool_decide (kind ∈ part_kinds) then
    state ← vars;
    _ ← try_ (item_mut state value);
    mret ()
  else if kind == "response.completed" then response_completed value
  else if bool_decide (kind ∈ failure_kinds) then
    let '(code, message) := response_failure kind value in
    yield (EvTurnFailed turn_id thread_id code message);;
    stop
  else if kind == "response.output_text.annotation.added" then mret ()
  else try_ (protocol ("Unsupported Responses SSE event: " +:+ kind)).

Definition responses_block (stream : list SseEvent) : gen ResponseState () :=
  yield (EvTurnStarted turn_id thread_id);;
  while_next (λ data, responses_event data;; mret true) stream;;
  try_ (Err (StreamParseError "Unexpected EOF before Responses terminal event")).

Definition responses_parse_stream (stream : list SseEvent) : BoxedEventStream :=
  stream_of (responses_block stream) response_state_default.
End responses.
