(* ===== verification/ChatAdapter.v ===== *)
(** * The OpenAI adapter

    [crates/whale-adapters/src/openai.rs]: the adapter with its two wire formats, the
    request of the Chat Completions format and the decoder of its stream. The Responses
    format is [ResponsesAdapter]. *)

From S2P Require Import Prelude Protocol StoreState CoreContext CoreSession ModelStep Adapters ResponsesAdapter.

Inductive OpenAIWireApi := ChatCompletions | Responses.
#[export] Instance OpenAIWireApi_eq_dec : EqDecision OpenAIWireApi.
Proof. solve_decision. Defined.

Record OpenAIAdapter := { oa_api_key : string; oa_base_url : string; oa_wire_api : OpenAIWireApi }.

(** [OpenAIAdapter::new] and [with_options] *)
Definition openai_new (api_key : string) : OpenAIAdapter :=
  {| oa_api_key := api_key; oa_base_url := "https://api.openai.com/v1"; oa_wire_api := ChatCompletions |}.
Definition openai_with_options (api_key base_url : string) (wire_api : OpenAIWireApi) : OpenAIAdapter :=
  {| oa_api_key := api_key; oa_base_url := base_url; oa_wire_api := wire_api |}.

Definition openai_capabilities (self : OpenAIAdapter) : ModelCapabilities :=
  http_capabilities (if oa_wire_api self == Responses then "responses" else "openai").

Definition openai_endpoint (self : OpenAIAdapter) : string :=
  let base := trim_end_slashes (oa_base_url self) in
  match oa_wire_api self with
  | ChatCompletions => base +:+ "/chat/completions"
  | Responses => base +:+ "/responses"
  end.

Section request.
Context `{AdapterExternals}.

Definition openai_headers (self : OpenAIAdapter) : result AdapterError HeaderMap :=
  key ← (if str_is_empty (oa_api_key self) then Ok []
         else value ← map_err (λ e, ProtocolError ("Invalid API key header: " +:+ e))
                        (header_value ("Bearer " +:+ oa_api_key self));
              Ok [("Authorization", value)]);
  Ok (key ++ [("Content-Type", "application/json")]).

(** ** Messages of the Chat Completions format *)

(** A part of a user message; audio and an image without a source are left out. *)
Definition chat_user_part (c : CanonicalContent) : option Value :=
  let image (url : string) := Object {["type" := Str "image_url"; "image_url" := Object {["url" := Str url]}]} in
  match c with
  | ContentText text => Some (Object {["type" := Str "text"; "text" := Str text]})
  | ContentImage mime_type (Some b64) _ => Some (image ("data:" +:+ mime_type +:+ ";base64," +:+ b64))
  | ContentImage _ None (Some u) => Some (image u)
  | ContentImage _ None None => None
  | ContentAudio _ _ _ => None
  end.

Definition text_of (c : CanonicalContent) : option string :=
  match c with ContentText text => Some text | _ => None end.

Definition chat_user (content : list CanonicalContent) : Value :=
  Object {["role" := Str "user";
           "content" := match content with
                        | [ContentText text] => Str text
                        | _ => Array (omap chat_user_part content)
                        end]}.

Definition chat_call (call_id name : string) (arguments : option Value) (raw_arguments : string) : Value :=
  let args_str := if negb (str_is_empty raw_arguments) then raw_arguments
                  else from_option to_string "{}" arguments in
  Object {["id" := Str call_id; "type" := Str "function";
           "function" := Object {["name" := Str name; "arguments" := Str args_str]}]}.

Definition chat_result (call_id : string) (output : CanonicalToolOutput) : Value :=
  let content_str := match output with
                     | OutputText text => text
                     | OutputStructured data => to_string data
                     | OutputBlocks blocks => join "" (omap text_of blocks)
                     end in
  Object {["role" := Str "tool"; "tool_call_id" := Str call_id; "content" := Str content_str]}.

(** The message of an item that is not a call. *)
Definition chat_message (item : CanonicalItem) : Value :=
  match item with
  | UserMessage _ content => chat_user content
  | AssistantMessage _ content _ =>
      Object {["role" := Str "assistant"; "content" := Str (join "" (omap text_of content))]}
  | Reasoning _ thinking _ _ => Object {["role" := Str "assistant"; "reasoning_content" := Str thinking]}
  | ToolCall _ call_id _ name arguments raw_arguments => chat_call call_id name arguments raw_arguments
  | ToolResult _ call_id output _ => chat_result call_id output
  end.

(** [messages[index]["tool_calls"].as_array_mut().expect(..).push(call)]: [None] is
    the panic. *)
Definition push_call (messages : list Value) (index : nat) (call : Value) : option (list Value) :=
  message ← messages !! index;
  calls ← get "tool_calls" message ≫= as_array;
  Some (<[index := set_key "tool_calls" (Array (calls ++ [call])) message]> messages).

(** One round of the loop over the history: the messages and the open group of calls. *)
Definition chat_step (st : list Value * option nat) (item : CanonicalItem) : option (list Value * option nat) :=
  let '(messages, tool_group) := st in
  let tool_group := if is_tool_call item then tool_group else None in
  if is_tool_call item then
    let call := chat_message item in
    match tool_group with
    | Some index => messages ← push_call messages index call; Some (messages, tool_group)
    | None => Some (messages ++ [Object {["role" := Str "assistant"; "tool_calls" := Array [call]]}],
                    Some (length messages))
    end
  else Some (messages ++ [chat_message item], tool_group).

Fixpoint chat_loop (st : list Value * option nat) (history : list CanonicalItem) : option (list Value) :=
  match history with
  | [] => Some st.1
  | item :: history => st ← chat_step st item; chat_loop st history
  end.

(** [starts_with] on strings *)
Definition has_prefix (pre s : string) : bool := String.prefix pre s.

Definition chat_system (model : string) (system_prompt : option string) : list Value :=
  match system_prompt with
  | Some sys => [Object {["role" := Str (if has_prefix "o1" model then "developer" else "system");
                          "content" := Str sys]}]
  | None => []
  end.

Definition chat_messages (model : string) (system_prompt : option string) (history : list CanonicalItem) :
    option (list Value) :=
  chat_loop (chat_system model system_prompt, None) history.

Definition chat_tool (t : ToolDefinition) : Value :=
  Object {["type" := Str "function";
           "function" := Object {["name" := Str (td_name t); "description" := Str (td_description t);
                                  "parameters" := td_parameters t]}]}.

(** The key of the token limit, by the family of the model. *)
Definition max_tokens_key (model : string) : string :=
  if has_prefix "o1" model || has_prefix "o3" model then "max_completion_tokens" else "max_tokens".

(** The body of a Chat Completions request; [None] is the panic of [push_call]. *)
Definition chat_body (system_prompt : option string) (history : list CanonicalItem)
    (tools : list ToolDefinition) (options : SamplingOptions) : option Value :=
  let body := Object {["model" := Str (so_model options); "stream" := Bool true;
                       "stream_options" := Object {["include_usage" := Bool true]}]} in
  let body := set_some "temperature" json_f32 (so_temperature options) body in
  let body := set_some (max_tokens_key (so_model options)) u64_value (so_max_tokens options) body in
  let body := set_some "reasoning_effort" Str (so_reasoning_effort options) body in
  messages ← chat_messages (so_model options) system_prompt history;
  let body := set_key "messages" (Array messages) body in
  Some (if bool_decide (tools = []) then body else set_key "tools" (Array (chat_tool <$> tools)) body).

(** A panic is shown as an error; [chat_messages_group_calls] of [AdapterGuarantees] shows
    that there is none. *)
Definition openai_serialize_request (self : OpenAIAdapter) (system_prompt : option string)
    (history : list CanonicalItem) (tools : list ToolDefinition) (options : SamplingOptions) :
    result AdapterError (Value * HeaderMap) :=
  let capabilities := openai_capabilities self in
  map_err ProtocolError (validate_configuration (so_model options) tools options capabilities);;
  map_err ProtocolError (validate_capable_items history capabilities);;
  headers ← openai_headers self;
  match oa_wire_api self with
  | ChatCompletions =>
      body ← ok_or (chat_body system_prompt history tools options)
               (ProtocolError "panic: tool group always contains an array");
      Ok (body, headers)
  | Responses =>
      body ← responses_serialize_request system_prompt history tools options;
      Ok (body, headers)
  end.
End request.

(** ** The stream of the Chat Completions format *)

(** A tool call being streamed. *)
Record CallBuffer := { cb_item_id : ItemId; cb_call_id : string; cb_name : string; cb_args : string }.

Record ChatState := {
  cs_fresh : nat;
  cs_text_id : option ItemId;
  cs_reasoning_id : option ItemId;
  cs_text : string;
  cs_reasoning : string;
  cs_calls : gmap N CallBuffer;
  cs_usage : UsageMetrics;
  cs_finished : bool;
}.

Definition chat_state_new : ChatState :=
  {| cs_fresh := 0; cs_text_id := None; cs_reasoning_id := None; cs_text := ""; cs_reasoning := "";
     cs_calls := ∅; cs_usage := usage_default; cs_finished := false |}.

Section stream.
Context `{AdapterExternals}.
Variables (turn_id thread_id : string) (new_item_id : nat → ItemId).
Implicit Type (s : ChatState).

Definition cs_eta s : ChatState :=
  {| cs_fresh := cs_fresh s; cs_text_id := cs_text_id s; cs_reasoning_id := cs_reasoning_id s;
     cs_text := cs_text s; cs_reasoning := cs_reasoning s; cs_calls := cs_calls s; cs_usage := cs_usage s;
     cs_finished := cs_finished s |}.
Definition set_fresh_id (v : nat) s : ChatState := ltac:(update_field cs_eta cs_fresh v s).
Definition set_text_id (v : option ItemId) s : ChatState := ltac:(update_field cs_eta cs_text_id v s).
Definition set_reasoning_id (v : option ItemId) s : ChatState := ltac:(update_field cs_eta cs_reasoning_id v s).
Definition push_content (v : string) s : ChatState := ltac:(update_field cs_eta cs_text (cs_text s +:+ v) s).
Definition push_reasoning (v : string) s : ChatState :=
  ltac:(update_field cs_eta cs_reasoning (cs_reasoning s +:+ v) s).
Definition set_calls (v : gmap N CallBuffer) s : ChatState := ltac:(update_field cs_eta cs_calls v s).
Definition set_chat_usage (v : UsageMetrics) s : ChatState := ltac:(update_field cs_eta cs_usage v s).
Definition set_finished (v : bool) s : ChatState := ltac:(update_field cs_eta cs_finished v s).

(** A new identifier *)
Definition draw_id : gen ChatState ItemId :=
  s ← vars;
  assign (set_fresh_id (1 + cs_fresh s));;
  mret (new_item_id (cs_fresh s)).

(** Top-level usage of a chunk *)
Definition chunk_usage (parsed : Value) (u : UsageMetrics) : UsageMetrics :=
  match get "usage" parsed with
  | None => u
  | Some usage =>
      with_cache None (get "prompt_tokens_details" usage ≫= u64_at "cached_tokens")
        (with_reasoning (get "completion_tokens_details" usage ≫= u64_at "reasoning_tokens")
           (with_output (u64_at "completion_tokens" usage) (with_input (u64_at "prompt_tokens" usage) u)))
  end.

(** Part 1 of a delta: [reasoning_content]. *)
Definition chat_reasoning (d : Value) : gen ChatState () :=
  match str_at "reasoning_content" d with
  | None => mret ()
  | Some reasoning =>
      if str_is_empty reasoning then mret () else
      s ← vars;
      item_id ← match cs_reasoning_id s with
                | Some id => mret id
                | None => id ← draw_id; assign (set_reasoning_id (Some id));; mret id
                end;
      (if str_is_empty (cs_reasoning s)
       then yield (EvItemStarted turn_id item_id "reasoning" (Some Commentary)) else mret ());;
      assign (push_reasoning reasoning);;
      yield (EvReasoningDelta turn_id item_id reasoning)
  end.

(** Completes the reasoning item in progress, if there is one. *)
Definition complete_reasoning : gen ChatState () :=
  s ← vars;
  match cs_reasoning_id s with
  | None => mret ()
  | Some r_id =>
      assign (set_reasoning_id None);;
      yield (EvItemCompleted turn_id (Reasoning r_id (cs_reasoning s) None None))
  end.

(** Part 2: [content]. *)
Definition chat_content (d : Value) : gen ChatState () :=
  match str_at "content" d with
  | None => mret ()
  | Some content =>
      if str_is_empty content then mret () else
      complete_reasoning;;
      s ← vars;
      item_id ← match cs_text_id s with
                | Some id => mret id
                | None => id ← draw_id; assign (set_text_id (Some id));; mret id
                end;
      (if str_is_empty (cs_text s)
       then yield (EvItemStarted turn_id item_id "assistant_message" (Some FinalAnswer)) else mret ());;
      assign (push_content content);;
      yield (EvTextDelta turn_id item_id content)
  end.

(** Part 3: one element of [tool_calls]. *)
Definition chat_tool_call (tc : Value) : gen ChatState () :=
  let index := default 0%N (u64_at "index" tc) in
  s ← vars;
  entry ← match cs_calls s !! index with
          | Some entry => mret entry
          | None => id ← draw_id; mret {| cb_item_id := id; cb_call_id := ""; cb_name := ""; cb_args := "" |}
          end;
  let call_id := default (cb_call_id entry) (str_at "id" tc) in
  let func := get "function" tc in
  let name := default (cb_name entry) (func ≫= str_at "name") in
  let arg_chunk := default "" (func ≫= str_at "arguments") in
  let entry := {| cb_item_id := cb_item_id entry; cb_call_id := call_id; cb_name := name;
                  cb_args := cb_args entry +:+ arg_chunk |} in
  assign (λ s, set_calls (<[index := entry]> (cs_calls s)) s);;
  if str_is_empty arg_chunk then mret ()
  else yield (EvToolCallDelta turn_id (cb_item_id entry) call_id arg_chunk).

Definition chat_delta (d : Value) : gen ChatState () :=
  chat_reasoning d;;
  chat_content d;;
  gen_for chat_tool_call (default [] (get "tool_calls" d ≫= as_array)).

(** Completes the text item in progress, if there is one. *)
Definition complete_text : gen ChatState () :=
  s ← vars;
  match cs_text_id s with
  | None => mret ()
  | Some item_id =>
      assign (set_text_id None);;
      yield (EvItemCompleted turn_id (AssistantMessage item_id [ContentText (cs_text s)] FinalAnswer))
  end.

(** [keys().cloned().collect()] and [sort_unstable()] *)
Definition sorted_indices (calls : gmap N CallBuffer) : list N :=
  merge_sort N.le (map_to_list calls).*1.

Definition buffered_call (entry : CallBuffer) : CanonicalItem :=
  ToolCall (cb_item_id entry) (cb_call_id entry) None (cb_name entry)
    (match from_str (cb_args entry) with Ok v => Some v | Err _ => None end) (cb_args entry).

Definition complete_call (idx : N) : gen ChatState () :=
  s ← vars;
  match cs_calls s !! idx with
  | None => mret ()
  | Some entry =>
      assign (set_calls (delete idx (cs_calls s)));;
      yield (EvItemCompleted turn_id (buffered_call entry))
  end.

(** A [finish_reason]. *)
Definition chat_finish (reason : string) : gen ChatState () :=
  if bool_decide (reason ∈ ["stop"; "tool_calls"]) then
    assign (set_finished true);;
    complete_reasoning;;
    complete_text;;
    s ← vars;
    gen_for complete_call (sorted_indices (cs_calls s))
  else
    yield (EvTurnFailed turn_id thread_id "incomplete_completion"
             ("Chat completion stopped without a complete supported response: " +:+ reason));;
    stop.

Definition chat_choice (choice : Value) : gen ChatState () :=
  match get "delta" choice with Some d => chat_delta d | None => mret () end;;
  match str_at "finish_reason" choice with Some reason => chat_finish reason | None => mret () end.

Definition chat_error (err : Value) : gen ChatState () :=
  yield (EvTurnFailed turn_id thread_id (default "OPENAI_ERROR" (str_at "code" err))
           (default "Unknown OpenAI error" (str_at "message" err)));;
  stop.

(** One parsed chunk. *)
Definition chat_chunk (parsed : Value) : gen ChatState () :=
  match get "error" parsed with Some err => chat_error err | None => mret () end;;
  assign (λ s, set_chat_usage (chunk_usage parsed (cs_usage s)) s);;
  match get "choices" parsed ≫= as_array with
  | Some (choice :: _) =>
      s ← vars;
      try_ (reject_if (cs_finished s) (ProtocolError "Chat Completions received a choice after finish_reason"));;
      chat_choice choice
  | _ => mret ()
  end.

(** The body of the loop; [[DONE]] breaks it. *)
Definition chat_event (raw : string) : gen ChatState bool :=
  let data := trim raw in
  if str_is_empty data then mret true
  else if data == "[DONE]" then mret false
  else parsed ← try_ (parse_chunk data); chat_chunk parsed;; mret true.

Definition chat_block (event_stream : list SseEvent) : gen ChatState () :=
  yield (EvTurnStarted turn_id thread_id);;
  while_next chat_event event_stream;;
  s ← vars;
  try_ (reject_if (negb (cs_finished s)) (StreamParseError "Unexpected EOF before Chat Completions finish_reason"));;
  yield (EvTurnCompleted turn_id thread_id (cs_usage s)).

Definition openai_parse_stream (self : OpenAIAdapter) (byte_stream : list SseEvent) : BoxedEventStream :=
  match oa_wire_api self with
  | Responses => responses_parse_stream turn_id thread_id byte_stream
  | ChatCompletions => stream_of (chat_block byte_stream) chat_state_new
  end.
End stream.

(** [impl ProtocolAdapter for OpenAIAdapter] *)
Definition openai_adapter `{AdapterExternals} (self : OpenAIAdapter) : ProtocolAdapter :=
  {| adapter_capabilities := openai_capabilities self; provider_name := "openai";
     endpoint_url := openai_endpoint self; serialize_request := openai_serialize_request self;
     parse_stream := λ uuids, openai_parse_stream (uuids 0) (uuids 1) (λ n, uuids (2 + n)) self |}.
