(* ===== verification/AdapterLaws.v ===== *)
(** * What the decoded streams look like

    The shape of every decoded stream: it starts once, speaks of its own turn and of
    model output only, and ends exactly once, in a completion that the provider
    declared, in a failure or in an error. *)

From S2P Require Import Prelude Protocol StoreState CoreContext CoreSession ModelStep Adapters AnthropicAdapter ResponsesAdapter ChatAdapter.

(** ** Strings *)

Lemma string_app_nil_r s : s +:+ "" = s.
Proof. induction s as [|c s IH]; [done|]. change (String c (s +:+ "") = String c s). by rewrite IH. Qed.
Lemma string_app_assoc a b c : a +:+ (b +:+ c) = (a +:+ b) +:+ c.
Proof.
  induction a as [|x a IH]; [done|]. change (String x (a +:+ (b +:+ c)) = String x ((a +:+ b) +:+ c)). by rewrite IH.
Qed.

(** Passes a block by its specification [lem]. *)
Tactic Notation "wp_use" uconstr(lem) "as" simple_intropattern_list(pat) :=
  wp_run; eapply wp_mono; [|apply lem; try done]; [intros pat; cbv beta|..].

(** ** Shapes *)

(** What a model may emit: the item events of the turn. *)
Definition model_output (turn_id : string) (ev : AgentStreamEvent) : bool :=
  match ev with
  | EvItemStarted t _ _ _ | EvTextDelta t _ _ | EvReasoningDelta t _ _ | EvReasoningSignature t _ _
  | EvToolCallDelta t _ _ _ | EvItemCompleted t _ => t == turn_id
  | _ => false
  end.

(** The three ends of a stream. *)
Inductive Ending (turn_id thread_id : string) (evidence : Prop) : result AdapterError AgentStreamEvent → Prop :=
  | EndCompleted usage : evidence → Ending turn_id thread_id evidence (Ok (EvTurnCompleted turn_id thread_id usage))
  | EndFailed code message : Ending turn_id thread_id evidence (Ok (EvTurnFailed turn_id thread_id code message))
  | EndError e : Ending turn_id thread_id evidence (Err e).

Definition Settles (turn_id thread_id : string) (evidence : Prop) (stream : BoxedEventStream) : Prop :=
  ∃ body fin, stream = Ok (EvTurnStarted turn_id thread_id) :: (Ok <$> body) ++ [fin]
    ∧ Forall (λ ev, model_output turn_id ev = true) body ∧ Ending turn_id thread_id evidence fin.

(** ** Evidence of completion in what arrived *)

Section evidence.
Context `{AdapterExternals}.

(** Some event of the stream is the JSON text of a value with the property. *)
Definition arrived (read : string → string) (p : Value → Prop) (stream : list SseEvent) : Prop :=
  ∃ data value, Ok data ∈ stream ∧ from_str (read data) = Ok value ∧ p value.

Definition anthropic_done (stream : list SseEvent) : Prop :=
  arrived trim (λ v, str_at "type" v = Some "message_stop") stream.
Definition chat_done (stream : list SseEvent) : Prop :=
  arrived trim (λ v, ∃ choice rest reason, get "choices" v ≫= as_array = Some (choice :: rest)
                  ∧ str_at "finish_reason" choice = Some reason ∧ reason ∈ ["stop"; "tool_calls"]) stream.
Definition responses_done (stream : list SseEvent) : Prop :=
  arrived id (λ v, str_at "type" v = Some "response.completed"
                ∧ str_at "status" (at_key "response" v) = Some "completed") stream.
End evidence.

(** ** The shape as a specification of the decoders *)

Section shape.
Variables (turn_id thread_id : string).
Implicit Types (tr : list AgentStreamEvent).

Definition Running tr : Prop :=
  ∃ body, tr = EvTurnStarted turn_id thread_id :: body ∧ Forall (λ ev, model_output turn_id ev = true) body.
Definition Returned (evidence : Prop) tr : Prop :=
  ∃ tr' ev, tr = tr' ++ [ev] ∧ Running tr' ∧ Ending turn_id thread_id evidence (Ok ev).

Lemma running_start : Running [EvTurnStarted turn_id thread_id].
Proof. exists []. by split. Qed.

Lemma running_snoc tr ev : Running tr → model_output turn_id ev = true → Running (tr ++ [ev]).
Proof. intros (body & -> & Hb) Hev. exists (body ++ [ev]). split; [done|]. by apply Forall_app_2; [|constructor]. Qed.

Lemma running_completed (evidence : Prop) tr u : Running tr → evidence →
  Returned evidence (tr ++ [EvTurnCompleted turn_id thread_id u]).
Proof. intros. eexists _, _. split_and!; [done|done|by constructor]. Qed.
Lemma running_failed (evidence : Prop) tr code message : Running tr →
  Returned evidence (tr ++ [EvTurnFailed turn_id thread_id code message]).
Proof. intros. eexists _, _. split_and!; [done|done|by constructor]. Qed.

(** A block with this specification is a settled stream. *)
Lemma wp_settles {S} (evidence : Prop) (block : gen S ()) s :
  wp (Returned evidence) (λ tr _, Running tr) block (λ _ tr _, Returned evidence tr) [] s →
  Settles turn_id thread_id evidence (stream_of block s).
Proof.
  assert (∀ tr, Returned evidence tr → Settles turn_id thread_id evidence (Ok <$> tr)) as Hret.
  { intros tr (tr' & ev & -> & (body & -> & Hb) & He). exists body, (Ok ev).
    split_and!; [|done|done]. csimpl. by rewrite fmap_app. }
  intros Hwp. eapply wp_stream; [exact Hwp|intros ? ?; apply Hret|apply Hret|].
  intros tr e (body & -> & Hb). exists body, (Err e). split_and!; [done|done|constructor].
Qed.
End shape.

#[export] Hint Resolve running_start running_snoc running_completed running_failed : whale.

Lemma model_output_same (turn_id : string) : (turn_id == turn_id) = true.
Proof. by apply bool_decide_eq_true. Qed.
#[export] Hint Resolve model_output_same : whale.

(** Runs a block, case by case, to the facts it has to establish. *)
Ltac wp_auto := repeat (first [progress wp_run | wp_case]); eauto with whale.

Lemma default_is (o : option string) (d s : string) : (default d o == s) = true → d ≠ s → o = Some s.
Proof. intros Ho%bool_decide_eq_true ?. destruct o; simpl in Ho; congruence. Qed.

(** ** The three decoders *)

Section decoders.
Context `{AdapterExternals}.
Variables (turn_id thread_id : string) (new_item_id : nat → ItemId).

Lemma parse_chunk_Ok data v : parse_chunk data = Ok v ↔ from_str data = Ok v.
Proof. unfold parse_chunk. apply map_err_Ok. Qed.

Notation Running := (Running turn_id thread_id).
Notation Returned := (Returned turn_id thread_id).

Lemma anthropic_event_running stream data tr s :
  Ok data ∈ stream → Running tr →
  wp (Returned (anthropic_done stream)) (λ tr _, Running tr)
    (anthropic_event turn_id thread_id new_item_id data) (λ _ tr _, Running tr) tr s.
Proof.
  intros Hin Hr. unfold anthropic_event.
  unfold message_start, content_block_start, content_block_delta, content_block_stop, message_delta, message_stop,
    stream_error. wp_auto.
  apply running_completed; [done|]. exists data, a. split_and!; [done| |].
  - by apply parse_chunk_Ok.
  - by apply (default_is _ "").
Qed.

Lemma anthropic_settles stream :
  Settles turn_id thread_id (anthropic_done stream)
    (anthropic_parse_stream turn_id thread_id new_item_id stream).
Proof.
  apply wp_settles. unfold anthropic_block. wp_run. apply (wp_drain _ _ _ _ _ (λ tr _, Running tr)); auto with whale.
  intros. by apply anthropic_event_running.
Qed.

(** The Chat decoder records the evidence in its state. *)
Definition ChatRunning stream tr (s : ChatState) : Prop := Running tr ∧ (cs_finished s = true → chat_done stream).
Notation chat_wp stream := (wp (S := ChatState) (Returned (chat_done stream)) (λ tr _, Running tr)).

Lemma chat_running_snoc stream tr s s' ev :
  ChatRunning stream tr s → cs_finished s' = cs_finished s → model_output turn_id ev = true →
  ChatRunning stream (tr ++ [ev]) s'.
Proof. intros [Hr Hf] Heq Hev. split; [by apply running_snoc|by rewrite Heq]. Qed.
Lemma chat_running_same stream tr s s' :
  ChatRunning stream tr s → cs_finished s' = cs_finished s → ChatRunning stream tr s'.
Proof. intros [Hr Hf] Heq. split; [done|by rewrite Heq]. Qed.
Hint Resolve chat_running_snoc chat_running_same : whale.

Lemma chat_tool_call_running stream tc tr s :
  ChatRunning stream tr s →
  chat_wp stream (chat_tool_call turn_id new_item_id tc) (λ _, ChatRunning stream) tr s.
Proof. intros Hr. unfold chat_tool_call, draw_id. wp_auto. Qed.

Lemma chat_reasoning_running stream d tr s :
  ChatRunning stream tr s →
  chat_wp stream (chat_reasoning turn_id new_item_id d) (λ _, ChatRunning stream) tr s.
Proof. intros Hr. unfold chat_reasoning, draw_id. wp_auto. Qed.

Lemma complete_reasoning_running stream tr s :
  ChatRunning stream tr s → chat_wp stream (complete_reasoning turn_id) (λ _, ChatRunning stream) tr s.
Proof. intros Hr. unfold complete_reasoning. wp_auto. Qed.

Lemma complete_text_running stream tr s :
  ChatRunning stream tr s → chat_wp stream (complete_text turn_id) (λ _, ChatRunning stream) tr s.
Proof. intros Hr. unfold complete_text. wp_auto. Qed.

Lemma chat_content_running stream d tr s :
  ChatRunning stream tr s →
  chat_wp stream (chat_content turn_id new_item_id d) (λ _, ChatRunning stream) tr s.
Proof.
  intros Hr. unfold chat_content. wp_case; [|wp_auto]. wp_case; [wp_auto|]. wp_run.
  wp_use complete_reasoning_running as [] tr' s' Hr'. unfold draw_id. wp_auto.
Qed.

Lemma chat_delta_running stream d tr s :
  ChatRunning stream tr s →
  chat_wp stream (chat_delta turn_id new_item_id d) (λ _, ChatRunning stream) tr s.
Proof.
  intros Hr. unfold chat_delta. wp_run. wp_use chat_reasoning_running as [] tr1 s1 Hr1.
  wp_use chat_content_running as [] tr2 s2 Hr2. apply wp_for; auto using chat_tool_call_running.
Qed.

Lemma complete_call_running stream i tr s :
  ChatRunning stream tr s → chat_wp stream (complete_call turn_id i) (λ _, ChatRunning stream) tr s.
Proof. intros Hr. unfold complete_call. wp_auto. Qed.

Lemma chat_finish_running stream reason tr s :
  (reason ∈ ["stop"; "tool_calls"] → chat_done stream) →
  ChatRunning stream tr s → chat_wp stream (chat_finish turn_id thread_id reason) (λ _, ChatRunning stream) tr s.
Proof.
  intros Hd [Hr _]. unfold chat_finish. wp_case; [|wp_auto]. wp_run.
  wp_use complete_reasoning_running as [] tr1 s1 Hr1.
  2:{ split; [done|]. intros _. apply Hd. by inv_bool. }
  wp_use complete_text_running as [] tr2 s2 Hr2.
  wp_run. apply wp_for; auto using complete_call_running.
Qed.

Lemma chat_choice_running stream choice tr s :
  (∀ reason, str_at "finish_reason" choice = Some reason → reason ∈ ["stop"; "tool_calls"] → chat_done stream) →
  ChatRunning stream tr s →
  chat_wp stream (chat_choice turn_id thread_id new_item_id choice) (λ _, ChatRunning stream) tr s.
Proof.
  intros Hd Hr. unfold chat_choice. wp_run.
  apply (wp_mono _ _ _ (λ _, ChatRunning stream)).
  - intros [] tr' s' Hr'. destruct (str_at "finish_reason" choice); [|wp_auto].
    apply chat_finish_running; [by apply Hd|done].
  - wp_case; [by apply chat_delta_running|wp_auto].
Qed.

Lemma chat_event_running stream data tr s :
  Ok data ∈ stream → ChatRunning stream tr s →
  chat_wp stream (chat_event turn_id thread_id new_item_id data) (λ _, ChatRunning stream) tr s.
Proof.
  intros Hin Hr. pose proof (proj1 Hr). unfold chat_event, chat_chunk, chat_error.
  wp_auto. wp_use chat_choice_running as [] tr' s' Hr'; [wp_auto|].
  intros reason Hreason Hok. exists data, a. split_and!; [done|by apply parse_chunk_Ok|].
  by eexists _, _, _.
Qed.

Lemma chat_settles stream :
  Settles turn_id thread_id (chat_done stream)
    (stream_of (chat_block turn_id thread_id new_item_id stream) chat_state_new).
Proof.
  apply wp_settles. unfold chat_block. wp_run.
  eapply wp_mono; [|apply (wp_while _ _ _ _ (ChatRunning stream) (ChatRunning stream))].
  - intros [] tr s [Hr Hd]. wp_auto. apply running_completed; [done|]. apply Hd.
    by apply reject_if_Ok, negb_false_iff in Heqr.
  - intros data tr s Hin Hr. eapply wp_mono; [|by apply chat_event_running]. by intros [].
  - by intros ? ? ? [? _].
  - done.
  - split; [apply running_start|done].
Qed.

(** ** Responses *)

Lemma start_output state index value ev state' :
  start state index value turn_id = Ok (ev, state') →
  Forall (λ ev, model_output turn_id ev = true) (option_list ev).
Proof.
  unfold start. destruct (rsp_items state !! index).
  - intros. inv_result. constructor.
  - intros. inv_result. repeat constructor. apply model_output_same.
Qed.
Lemma finish_output state index value evs state' :
  finish_item state index value turn_id = Ok (evs, state') → Forall (λ ev, model_output turn_id ev = true) evs.
Proof.
  unfold finish_item. intros Hf. inv_result.
  match goal with Hs : start _ _ _ _ = _ |- _ => apply start_output in Hs end.
  destruct (_ !! index) as [item|]; [|done].
  destruct (is_completed item); inv_result; [done|]. apply Forall_app_2; [done|].
  repeat constructor. apply model_output_same.
Qed.

Lemma running_app tr evs :
  Running tr → Forall (λ ev, model_output turn_id ev = true) evs → Running (tr ++ evs).
Proof. intros (body & -> & Hb) He. exists (body ++ evs). split; [done|]. by apply Forall_app_2. Qed.

Notation responses_wp stream := (wp (S := ResponseState) (Returned (responses_done stream)) (λ tr _, Running tr)).

Lemma yield_finish_running stream index value tr s :
  Running tr → responses_wp stream (yield_finish turn_id index value) (λ _ tr _, Running tr) tr s.
Proof. intros Hr. unfold yield_finish. wp_auto. eapply running_app, finish_output; done. Qed.

Lemma response_completed_running stream data value tr s :
  Ok data ∈ stream → from_str data = Ok value → str_at "type" value = Some "response.completed" → Running tr →
  responses_wp stream (response_completed turn_id thread_id value) (λ _ tr _, Running tr) tr s.
Proof.
  intros Hin Hv Ht Hr. unfold response_completed. wp_auto.
  apply (wp_mono _ _ _ (λ _ tr _, Running tr)).
  - intros [] tr' s' Hr'. wp_auto. apply running_completed; [done|]. exists data, value. unfold string_field in *.
    inv_result. inv_bool. naive_solver.
  - apply (wp_for _ _ _ _ (λ tr _, Running tr)); [|done]. intros [i v] ????. by apply yield_finish_running.
Qed.

Lemma responses_event_running stream data tr s :
  Ok data ∈ stream → Running tr →
  responses_wp stream (responses_event turn_id thread_id data) (λ _ tr _, Running tr) tr s.
Proof.
  intros Hin Hr. unfold responses_event, yield_start, item_delta. wp_auto.
  - eapply running_app, start_output; done.
  - by apply yield_finish_running.
  - unfold string_field in *. inv_result. inv_bool. subst. by eapply response_completed_running.
Qed.

Lemma responses_settles stream :
  Settles turn_id thread_id (responses_done stream) (responses_parse_stream turn_id thread_id stream).
Proof.
  apply wp_settles. unfold responses_block. wp_run. apply (wp_drain _ _ _ _ _ (λ tr _, Running tr)); auto with whale.
  intros. by apply responses_event_running.
Qed.
End decoders.
