(* ===== verification/AdapterSteps.v ===== *)
(** * Decoded streams are accepted by the engine

    [ModelStepState] of the engine refuses an event that does not fit the step. The
    Chat and the Responses decoders emit only events that it accepts: the tracker
    below follows a decoder and the engine's state together. What they cannot promise
    are the identities and names of the calls, which are the model's. The last section
    is about the order of the items of a Chat step. *)

From S2P Require Import Prelude Protocol StoreState CoreContext CoreSession ModelStep Adapters ResponsesAdapter ChatAdapter AdapterLaws.

(** ** From adapter events to model events *)

Definition model_event (ev : AgentStreamEvent) : option ModelEvent :=
  match adapt_event ev with Ok (Some event) => Some event | _ => None end.
Definition model_events (tr : list AgentStreamEvent) : list ModelEvent := omap model_event tr.

(** The step that the engine makes of a decoded stream. *)
Definition step_of (stream : BoxedEventStream) : list (result ModelError ModelEvent) :=
  adapt_stream (map_err model_error_of <$> stream).

Definition adaptable (ev : AgentStreamEvent) : Prop := is_ok (adapt_event ev) = true.

Lemma model_events_app tr tr' : model_events (tr ++ tr') = model_events tr ++ model_events tr'.
Proof. apply omap_app. Qed.

Lemma model_events_snoc tr ev : model_events (tr ++ [ev]) = model_events tr ++ option_list (model_event ev).
Proof. rewrite model_events_app. unfold model_events at 2. simpl. by destruct (model_event ev). Qed.

Lemma adapt_stream_app tr rest :
  Forall adaptable tr →
  adapt_stream ((Ok <$> tr) ++ rest) = (Ok <$> model_events tr) ++ adapt_stream rest.
Proof.
  induction 1 as [|ev tr Hev Htr IH]; [done|]. csimpl. unfold adaptable, model_event in *.
  destruct (adapt_event ev) as [[event|]|]; csimpl; by rewrite ?IH.
Qed.

Lemma model_output_adaptable turn_id ev : model_output turn_id ev = true → adaptable ev.
Proof. by destruct ev. Qed.

Definition ok_events {E A} (l : list (result E A)) : list A :=
  omap (λ e, match e with Ok a => Some a | Err _ => None end) l.

Lemma ok_events_app {E A} (l k : list (result E A)) : ok_events (l ++ k) = ok_events l ++ ok_events k.
Proof. apply omap_app. Qed.
Lemma ok_events_fmap {E A} (l : list A) : ok_events (Ok (E := E) <$> l) = l.
Proof. induction l as [|x l IH]; csimpl; [done|]. by f_equal. Qed.

(** ** The tracker *)

Definition calls_fit (before : gset string) (items : list CanonicalItem) : Prop :=
  Forall named_call items ∧ fresh_list before (calls_of items).

Lemma calls_fit_app before items items' : calls_fit before (items ++ items') → calls_fit before items.
Proof.
  intros [Hn Hf]. split; [by apply Forall_app in Hn as [? _]|].
  rewrite calls_of_app in Hf. by apply fresh_list_app in Hf as [? _].
Qed.

Lemma add_list_nil (s : gset string) : add_list [] s = s.
Proof. apply union_empty_l_L. Qed.

Section tracker.
Variable (st0 : ModelStepState).
Implicit Types (tr : list AgentStreamEvent) (opened : gmap string string) (st : ModelStepState).

(** The engine has accepted [events]; the items in progress are among [opened], by
    their types, and the identifiers that are completed are [done]. *)
Record Follows (events : list ModelEvent) opened (done : gset string) : Prop := {
  fl_done : done = list_to_set (item_id <$> completed_items events);
  fl_open : ∀ id kind, opened !! id = Some kind → id ∉ done ∧ id ∉ st_item_ids st0;
  fl_accepted : calls_fit (st_call_ids st0) (completed_items events) →
    ∃ st, fold_res observe st0 events = Ok st ∧ st_finished st = false
      ∧ st_item_ids st = done ∪ st_item_ids st0
      ∧ st_call_ids st = add_list (calls_of (completed_items events)) (st_call_ids st0)
      ∧ ∀ id kind, st_pending st !! id = Some kind → opened !! id = Some kind;
}.

Lemma follows_nil : st_finished st0 = false → st_pending st0 = ∅ → Follows [] ∅ ∅.
Proof.
  intros Hf Hp. split; [done|intros; simplify_map_eq|]. intros _. exists st0. simpl. split_and!; try done.
  - set_solver.
  - unfold add_list. set_solver.
  - intros id kind. by rewrite Hp, lookup_empty.
Qed.

Lemma fold_observe_snoc events e st :
  fold_res observe st0 events = Ok st → fold_res observe st0 (events ++ [e]) = observe st e.
Proof. intros Hst. rewrite fold_res_app, Hst. simpl. by destruct (observe st e). Qed.

(** An item is reserved: nothing is emitted. *)
Lemma follows_open events opened done id kind :
  Follows events opened done → opened !! id = None → id ∉ done → id ∉ st_item_ids st0 →
  Follows events (<[id := kind]> opened) done.
Proof.
  intros [Hd Ho Ha] Hnone Hid Hid0. split; [done| |].
  - intros id' kind' [[<- _]|[_ Hl]]%lookup_insert_Some; [done|eauto].
  - intros Hfit. destruct (Ha Hfit) as (st & ? & ? & ? & ? & Hp). exists st. split_and!; try done.
    intros id' kind' Hl. apply Hp in Hl.
    rewrite lookup_insert_ne; [done|]. intros ->. congruence.
Qed.

(** An item starts. *)
Lemma follows_start events opened done id kind phase :
  Follows events opened done → opened !! id = None → id ∉ done → id ∉ st_item_ids st0 →
  kind ∈ ["assistant_message"; "reasoning"; "tool_call"] →
  Follows (events ++ [MItemStarted id kind phase]) (<[id := kind]> opened) done.
Proof.
  intros Hf Hnone Hid Hid0 Hkind. pose proof (follows_open _ _ _ _ kind Hf Hnone Hid Hid0) as [Hd Ho _].
  destruct Hf as [_ _ Ha]. split.
  - by rewrite completed_items_snoc, app_nil_r.
  - done.
  - rewrite completed_items_snoc, app_nil_r. intros Hfit. destruct (Ha Hfit) as (st & Hst & Hfin & Hids & Hc & Hp).
    rewrite (fold_observe_snoc _ _ _ Hst). eexists. split.
    + unfold observe. rewrite Hfin. simpl. rewrite (bool_decide_true (kind ∈ _)) by done. simpl.
      assert (st_pending st !! id = None) as ->
        by (destruct (st_pending st !! id) eqn:E; [|done]; apply Hp in E; congruence).
      rewrite (bool_decide_false (_ ∈ st_item_ids st)) by (rewrite Hids; set_solver). done.
    + simpl. split_and!; try done. intros id' kind' [[<- <-]|[Hne Hl]]%lookup_insert_Some; simplify_map_eq; auto.
Qed.

(** A delta of an item in progress, with the type that it implies. *)
Definition is_delta (e : ModelEvent) (id : string) (kind : string) : Prop :=
  ∀ st, observe st e = (reject_if (st_finished st) (invalid "Event after model step completion");; observe_delta st id kind)
        ∧ completed_item e = None.

Lemma follows_delta events opened done id kind e :
  Follows events opened done → opened !! id = Some kind → is_delta e id kind → Follows (events ++ [e]) opened done.
Proof.
  intros [Hd Ho Ha] Hid He. destruct (He st0) as [_ Hce]. split.
  - by rewrite completed_items_snoc, Hce, app_nil_r.
  - done.
  - rewrite completed_items_snoc, Hce, app_nil_r. intros Hfit.
    destruct (Ha Hfit) as (st & Hst & Hfin & Hids & Hc & Hp). destruct (He st) as [Hobs _].
    rewrite (fold_observe_snoc _ _ _ Hst), Hobs, Hfin. simpl. unfold observe_delta.
    destruct (Ho _ _ Hid) as [Hnd Hn0]. rewrite (bool_decide_false (_ ∈ st_item_ids st)) by (rewrite Hids; set_solver). simpl.
    assert (default kind (st_pending st !! id) = kind) as Hprev.
    { destruct (st_pending st !! id) eqn:E; [|done]. apply Hp in E. simpl. congruence. }
    rewrite Hprev, bool_decide_true by done. simpl. eexists. split_and!; [done|done|done|done|].
    simpl. intros id' kind' [[<- <-]|[Hne Hl]]%lookup_insert_Some; auto.
Qed.

(** An item in progress is completed. *)
Lemma follows_complete events opened done item kind :
  Follows events opened done → opened !! item_id item = Some kind → model_item item →
  Follows (events ++ [MItemCompleted item]) (delete (item_id item) opened) ({[item_id item]} ∪ done).
Proof.
  intros [Hd Ho Ha] Hid [Hu Hr]. destruct (Ho _ _ Hid) as [Hnd Hn0]. split.
  - rewrite completed_items_snoc, fmap_app, list_to_set_app_L, <-Hd. simpl. set_solver.
  - intros id kind' [Hne Hl]%lookup_delete_Some. destruct (Ho _ _ Hl). set_solver.
  - rewrite completed_items_snoc. simpl. intros Hfit.
    destruct (Ha (calls_fit_app _ _ _ Hfit)) as (st & Hst & Hfin & Hids & Hc & Hp).
    rewrite (fold_observe_snoc _ _ _ Hst). unfold observe. rewrite Hfin. simpl. rewrite Hu, Hr. simpl.
    rewrite (bool_decide_false (_ ∈ st_item_ids st)) by (rewrite Hids; set_solver). simpl.
    assert (observe_call (st_call_ids st) item = Ok (add_list (calls_of [item]) (st_call_ids st))) as ->.
    { destruct Hfit as [Hn Hf]. apply Forall_app in Hn as [_ [Hn _]%Forall_cons].
      rewrite calls_of_app in Hf. apply fresh_list_app in Hf as [_ Hf]. rewrite <-Hc in Hf.
      clear -Hn Hf. destruct item; try (simpl; by rewrite add_list_nil).
      simpl in *. destruct Hn as [-> ->]. simpl. apply fresh_list_cons in Hf as [Hf _].
      rewrite bool_decide_false by done. simpl. by rewrite add_list_cons, add_list_nil. }
    simpl. eexists. split; [done|]. simpl. split_and!; [done| | |].
    + rewrite Hids. set_solver.
    + by rewrite Hc, calls_of_app, add_list_app.
    + intros id kind' [Hne Hl]%lookup_delete_Some. by rewrite lookup_delete_ne by done; auto.
Qed.

(** The step finishes when only messages are in progress. *)
Lemma follows_finish events opened done usage :
  Follows events opened done → (∀ id kind, opened !! id = Some kind → kind = "assistant_message") →
  calls_fit (st_call_ids st0) (completed_items events) →
  ∃ st, fold_res observe st0 (events ++ [MStepFinished usage]) = Ok st ∧ st_finished st = true.
Proof.
  intros [Hd Ho Ha] Hm Hfit. destruct (Ha Hfit) as (st & Hst & Hfin & Hids & Hc & Hp).
  rewrite (fold_observe_snoc _ _ _ Hst). unfold observe. rewrite Hfin. simpl.
  assert (unfinished_items (st_pending st) = false) as ->.
  { unfold unfinished_items. apply existsb_false. intros kind [id Hk]%elem_of_btree_values.
    apply Hp, Hm in Hk as ->. done. }
  simpl. eexists. by split.
Qed.
End tracker.

Lemma text_is_delta id d : is_delta (MTextDelta id d) id "assistant_message".
Proof. done. Qed.
Lemma reasoning_is_delta id d : is_delta (MReasoningDelta id d) id "reasoning".
Proof. done. Qed.
Lemma arguments_is_delta id call d : is_delta (MToolCallDelta id call d) id "tool_call".
Proof. done. Qed.

(** The same on the events of an adapter. *)
Section adapter_events.
Context (st0 : ModelStepState) (tr : list AgentStreamEvent) (opened : gmap string string) (completed : gset string).
Context (Hf : Follows st0 (model_events tr) opened completed) (turn_id : string).

Lemma follows_ev_start (id kind : string) phase :
  opened !! id = None → id ∉ completed → id ∉ st_item_ids st0 →
  kind ∈ ["assistant_message"; "reasoning"; "tool_call"] →
  Follows st0 (model_events (tr ++ [EvItemStarted turn_id id kind phase])) (<[id := kind]> opened) completed.
Proof. rewrite model_events_snoc. by apply follows_start. Qed.

Lemma follows_ev_delta (id kind : string) ev e :
  opened !! id = Some kind → model_event ev = Some e → is_delta e id kind →
  Follows st0 (model_events (tr ++ [ev])) opened completed.
Proof. rewrite model_events_snoc. intros Hid -> He. by eapply follows_delta. Qed.

Lemma follows_ev_complete (id kind : string) item :
  opened !! id = Some kind → id = item_id item → model_item item →
  Follows st0 (model_events (tr ++ [EvItemCompleted turn_id item])) (delete id opened) ({[id]} ∪ completed).
Proof. rewrite model_events_snoc. intros Hid -> Hm. by eapply follows_complete. Qed.
End adapter_events.

(** What the engine has accepted of the events yielded so far. *)
Definition Accepted (st0 : ModelStepState) (tr : list AgentStreamEvent) : Prop :=
  calls_fit (st_call_ids st0) (completed_items (model_events tr)) →
  ∃ st, fold_res observe st0 (model_events tr) = Ok st.

Lemma follows_Accepted st0 tr opened done : Follows st0 (model_events tr) opened done → Accepted st0 tr.
Proof. intros [_ _ Ha] Hfit. destruct (Ha Hfit) as (st & Hst & _). by exists st. Qed.

Lemma Accepted_failed st0 tr turn_id thread_id code message :
  Accepted st0 tr → Accepted st0 (tr ++ [EvTurnFailed turn_id thread_id code message]).
Proof. unfold Accepted. by rewrite model_events_snoc, app_nil_r. Qed.

Lemma Accepted_completed st0 tr opened done turn_id thread_id usage :
  Follows st0 (model_events tr) opened done → (∀ id kind, opened !! id = Some kind → kind = "assistant_message") →
  Accepted st0 (tr ++ [EvTurnCompleted turn_id thread_id usage]).
Proof.
  intros Hf Hm. unfold Accepted. rewrite model_events_snoc. simpl. rewrite completed_items_snoc, app_nil_r. intros Hfit.
  destruct (follows_finish _ _ _ _ usage Hf Hm Hfit) as (st & Hst & _). by exists st.
Qed.

(** ** Chat Completions *)

Section chat.
Context `{AdapterExternals}.
Variables (turn_id thread_id : string) (new_item_id : nat → string) (st0 : ModelStepState).
Hypothesis (ids_distinct : Inj (=) (=) new_item_id).
Hypothesis (ids_new : ∀ n, new_item_id n ∉ st_item_ids st0).
Implicit Types (tr : list AgentStreamEvent) (s : ChatState) (opened : gmap string string).

(** The items in progress and the completed ones, as the variables know them. *)
Record ChatTracks opened (completed : gset string) s : Prop := {
  ct_text : ∀ id : string, cs_text_id s = Some id → cs_text s ≠ "" ∧ opened !! id = Some "assistant_message";
  ct_reasoning : ∀ id : string, cs_reasoning_id s = Some id → cs_reasoning s ≠ "" ∧ opened !! id = Some "reasoning";
  ct_calls : ∀ i e, cs_calls s !! i = Some e → opened !! (cb_item_id e : string) = Some "tool_call";
  ct_distinct : ∀ i j e e', cs_calls s !! i = Some e → cs_calls s !! j = Some e' →
    cb_item_id e = cb_item_id e' → i = j;
  ct_owned : ∀ id kind, opened !! id = Some kind → kind ≠ "assistant_message" →
    cs_reasoning_id s = Some id ∨ ∃ i e, cs_calls s !! i = Some e ∧ cb_item_id e = id;
  ct_fresh : ∀ n, cs_fresh s <= n → opened !! new_item_id n = None ∧ new_item_id n ∉ completed;
}.

Lemma tracks_new : ChatTracks ∅ ∅ chat_state_new.
Proof. split; simpl; intros; simplify_map_eq; set_solver. Qed.

Lemma tracks_usage opened completed s u :
  ChatTracks opened completed s → ChatTracks opened completed (set_chat_usage u s).
Proof. by intros []. Qed.

Section draw.
Context opened (completed : gset string) s (Ht : ChatTracks opened completed s).
Let id : string := new_item_id (cs_fresh s).

Lemma drawn_new : opened !! id = None ∧ id ∉ completed.
Proof. by apply (ct_fresh _ _ _ Ht). Qed.

Lemma drawn_keeps kind id' kind' : opened !! id' = Some kind' → (<[id := kind]> opened) !! id' = Some kind'.
Proof.
  destruct drawn_new as [Hid _]. intros Hi. rewrite lookup_insert_ne; [done|]. intros Heq. rewrite <-Heq in Hi. congruence.
Qed.

Lemma drawn_fresh kind n :
  S (cs_fresh s) <= n → (<[id := kind]> opened) !! new_item_id n = None ∧ new_item_id n ∉ completed.
Proof.
  intros Hn. destruct (ct_fresh _ _ _ Ht n) as [Hno Hnc]; [lia|]. split; [|done].
  apply lookup_insert_None. split; [done|]. intros Heq%(inj new_item_id). lia.
Qed.

Lemma drawn_owned kind id' kind' : (<[id := kind]> opened) !! id' = Some kind' → kind' ≠ "assistant_message" →
  id' = id ∧ kind' = kind
  ∨ cs_reasoning_id s = Some id' ∨ ∃ i e, cs_calls s !! i = Some e ∧ cb_item_id e = id'.
Proof. intros [[<- <-]|[_ Hl]]%lookup_insert_Some Hk; [by left|right]. by eapply (ct_owned _ _ _ Ht). Qed.
End draw.

Lemma append_nonempty a b : b ≠ "" → a +:+ b ≠ "".
Proof. by destruct a. Qed.

Lemma tracks_text_new opened completed s v :
  ChatTracks opened completed s → v ≠ "" →
  let id : string := new_item_id (cs_fresh s) in
  ChatTracks (<[id := "assistant_message"]> opened) completed
    (push_content v (set_text_id (Some id) (set_fresh_id (1 + cs_fresh s) s))).
Proof.
  intros Ht Hv id. pose proof (drawn_keeps _ _ _ Ht "assistant_message") as Hkeep.
  split; simpl.
  - intros ? [= <-]. split; [by apply append_nonempty|apply lookup_insert_eq].
  - intros ? Hr. destruct (ct_reasoning _ _ _ Ht _ Hr). auto.
  - intros i e He. apply Hkeep, (ct_calls _ _ _ Ht _ _ He).
  - apply (ct_distinct _ _ _ Ht).
  - intros id' kind' Hl Hk. by destruct (drawn_owned _ _ _ Ht _ _ _ Hl Hk) as [[_ ->]|?].
  - apply (drawn_fresh _ _ _ Ht).
Qed.

Lemma tracks_reasoning_new opened completed s v :
  ChatTracks opened completed s → cs_reasoning_id s = None → v ≠ "" →
  let id : string := new_item_id (cs_fresh s) in
  ChatTracks (<[id := "reasoning"]> opened) completed
    (push_reasoning v (set_reasoning_id (Some id) (set_fresh_id (1 + cs_fresh s) s))).
Proof.
  intros Ht Hno Hv id. pose proof (drawn_keeps _ _ _ Ht "reasoning") as Hkeep.
  split; simpl.
  - intros ? Hr. destruct (ct_text _ _ _ Ht _ Hr). auto.
  - intros ? [= <-]. split; [by apply append_nonempty|apply lookup_insert_eq].
  - intros i e He. apply Hkeep, (ct_calls _ _ _ Ht _ _ He).
  - apply (ct_distinct _ _ _ Ht).
  - intros id' kind' Hl Hk. destruct (drawn_owned _ _ _ Ht _ _ _ Hl Hk) as [[-> _]|[?|?]]; auto.
    congruence.
  - apply (drawn_fresh _ _ _ Ht).
Qed.

Lemma tracks_text_more opened completed s v :
  ChatTracks opened completed s → v ≠ "" → ChatTracks opened completed (push_content v s).
Proof.
  intros [H1 H2 H3 H4 H5 H6] Hv. split; simpl; try done. intros id Hid. split; [by apply append_nonempty|by apply H1].
Qed.
Lemma tracks_reasoning_more opened completed s v :
  ChatTracks opened completed s → v ≠ "" → ChatTracks opened completed (push_reasoning v s).
Proof.
  intros [H1 H2 H3 H4 H5 H6] Hv. split; simpl; try done. intros id Hid. split; [by apply append_nonempty|by apply H2].
Qed.

(** An item that is completed is no longer in progress. *)
Lemma fresh_after_delete opened completed s id :
  ChatTracks opened completed s → is_Some (opened !! id) → ∀ n, cs_fresh s <= n →
  delete id opened !! new_item_id n = None ∧ new_item_id n ∉ {[id]} ∪ completed.
Proof.
  intros Ht [k Hk] n Hn. destruct (ct_fresh _ _ _ Ht n Hn) as [Hno Hnc]. split.
  - apply lookup_delete_None. by right.
  - intros [<-%elem_of_singleton|?]%elem_of_union; [congruence|done].
Qed.

Lemma tracks_reasoning_done opened completed s id :
  ChatTracks opened completed s → cs_reasoning_id s = Some id →
  ChatTracks (delete id opened) ({[id]} ∪ completed) (set_reasoning_id None s).
Proof.
  intros Ht Hr. destruct (ct_reasoning _ _ _ Ht _ Hr) as [_ Hid].
  split; simpl; [|done| |apply (ct_distinct _ _ _ Ht)| |eapply fresh_after_delete; eauto].
  - intros id' Hid'. destruct (ct_text _ _ _ Ht _ Hid'). split; [done|].
    rewrite lookup_delete_ne; [done|]. intros ->. congruence.
  - intros i e He. pose proof (ct_calls _ _ _ Ht _ _ He). rewrite lookup_delete_ne; [done|]. intros ->. congruence.
  - intros id' kind [Hne Hl]%lookup_delete_Some Hk. destruct (ct_owned _ _ _ Ht _ _ Hl Hk); [|by right]. congruence.
Qed.

Lemma tracks_text_done opened completed s id :
  ChatTracks opened completed s → cs_text_id s = Some id →
  ChatTracks (delete id opened) ({[id]} ∪ completed) (set_text_id None s).
Proof.
  intros Ht Hr. destruct (ct_text _ _ _ Ht _ Hr) as [_ Hid].
  split; simpl; [done| | |apply (ct_distinct _ _ _ Ht)| |eapply fresh_after_delete; eauto].
  - intros id' Hid'. destruct (ct_reasoning _ _ _ Ht _ Hid'). split; [done|].
    rewrite lookup_delete_ne; [done|]. intros ->. congruence.
  - intros i e He. pose proof (ct_calls _ _ _ Ht _ _ He). rewrite lookup_delete_ne; [done|]. intros ->. congruence.
  - intros id' kind [Hne Hl]%lookup_delete_Some Hk. by eapply (ct_owned _ _ _ Ht).
Qed.

Lemma tracks_call_done opened completed s i e :
  ChatTracks opened completed s → cs_calls s !! i = Some e →
  ChatTracks (delete (cb_item_id e : string) opened) ({[cb_item_id e : string]} ∪ completed) (set_calls (delete i (cs_calls s)) s).
Proof.
  intros Ht Hc. pose proof (ct_calls _ _ _ Ht _ _ Hc) as Hid.
  split; simpl; [| | | | |eapply fresh_after_delete; eauto].
  - intros id' Hid'. destruct (ct_text _ _ _ Ht _ Hid'). split; [done|].
    rewrite lookup_delete_ne; [done|]. intros Heq. rewrite Heq in *. congruence.
  - intros id' Hid'. destruct (ct_reasoning _ _ _ Ht _ Hid'). split; [done|].
    rewrite lookup_delete_ne; [done|]. intros Heq. rewrite Heq in *. congruence.
  - intros j e' [Hne He]%lookup_delete_Some. pose proof (ct_calls _ _ _ Ht _ _ He).
    rewrite lookup_delete_ne; [done|]. intros Heq. by apply Hne, (ct_distinct _ _ _ Ht i j e e').
  - intros j k e1 e2 [_ ?]%lookup_delete_Some [_ ?]%lookup_delete_Some. by apply (ct_distinct _ _ _ Ht).
  - intros id' kind [Hne Hl]%lookup_delete_Some Hk. destruct (ct_owned _ _ _ Ht _ _ Hl Hk) as [?|(j & e' & He & Heq)]; [by left|].
    right. exists j, e'. split; [|done]. rewrite lookup_delete_ne; [done|]. intros ->. congruence.
Qed.

(** A call that is known keeps its item. *)
Lemma tracks_call_more opened completed s i e e' :
  ChatTracks opened completed s → cs_calls s !! i = Some e → cb_item_id e' = cb_item_id e →
  ChatTracks opened completed (set_calls (<[i := e']> (cs_calls s)) s).
Proof.
  intros [H1 H2 H3 H4 H5 H6] Hc He. split; simpl; try done.
  - intros j e1 [[<- <-]|[_ Hl]]%lookup_insert_Some; [rewrite He|]; eauto.
  - intros j k e1 e2 [[<- <-]|[? ?]]%lookup_insert_Some [[<- <-]|[? ?]]%lookup_insert_Some; rewrite ?He; eauto.
  - intros id kind Hl Hk. destruct (H5 _ _ Hl Hk) as [?|(j & e1 & Hj & Heq)]; [by left|right].
    destruct (decide (j = i)) as [->|]; [exists i, e'|exists j, e1]; simplify_map_eq; eauto with congruence.
Qed.

Lemma tracks_call_new opened completed s i e :
  ChatTracks opened completed s → cs_calls s !! i = None → cb_item_id e = new_item_id (cs_fresh s) →
  ChatTracks (<[(cb_item_id e : string) := "tool_call"]> opened) completed
    (set_calls (<[i := e]> (cs_calls s)) (set_fresh_id (1 + cs_fresh s) s)).
Proof.
  intros Ht Hc He. rewrite He. pose proof (drawn_keeps _ _ _ Ht "tool_call") as Hkeep.
  destruct (drawn_new _ _ _ Ht) as [Hnew _].
  split; simpl; [| | | | |apply (drawn_fresh _ _ _ Ht)].
  - intros ? Hr. destruct (ct_text _ _ _ Ht _ Hr). auto.
  - intros ? Hr. destruct (ct_reasoning _ _ _ Ht _ Hr). auto.
  - intros j e1 [[<- <-]|[_ Hl]]%lookup_insert_Some; [rewrite He; apply lookup_insert_eq|].
    apply Hkeep, (ct_calls _ _ _ Ht _ _ Hl).
  - pose proof (ct_calls _ _ _ Ht) as Hcalls.
    intros j k e1 e2 [[<- <-]|[? Hj]]%lookup_insert_Some [[<- <-]|[? Hk]]%lookup_insert_Some; rewrite ?He; intros Heq.
    + done.
    + apply Hcalls in Hk. rewrite <-Heq in Hk. congruence.
    + apply Hcalls in Hj. rewrite Heq in Hj. congruence.
    + by eapply (ct_distinct _ _ _ Ht).
  - intros id' kind' Hl Hk. destruct (drawn_owned _ _ _ Ht _ _ _ Hl Hk) as [[-> _]|[?|(j & e1 & Hj & Heq)]].
    + right. exists i, e. by rewrite lookup_insert_eq.
    + by left.
    + right. exists j, e1. split; [|done]. rewrite lookup_insert_ne; [done|]. congruence.
Qed.

(** ** The blocks of the decoder *)

Definition ChatFollows tr s : Prop :=
  ∃ opened completed, Follows st0 (model_events tr) opened completed ∧ ChatTracks opened completed s.
(** The choice is not finished. *)
Definition ChatOpen tr s : Prop := ChatFollows tr s ∧ cs_finished s = false.
Notation chat_wp := (wp (S := ChatState) (Accepted st0) (λ tr _, Accepted st0 tr)).

Lemma ChatFollows_Accepted tr s : ChatFollows tr s → Accepted st0 tr.
Proof. intros (o & c & Hf & _). by eapply follows_Accepted. Qed.

Hint Resolve ChatFollows_Accepted : whale.

Lemma open_nothing tr s : ChatOpen tr s → chat_wp (mret ()) (λ _, ChatOpen) tr s.
Proof. by rewrite wp_ret. Qed.

(** A new item, whether its start is announced or not. *)
Lemma wp_new_item (b : bool) (id kind : string) phase opened completed tr s Q :
  Follows st0 (model_events tr) opened completed → opened !! id = None → id ∉ completed →
  (∃ n, id = new_item_id n) → kind ∈ ["assistant_message"; "reasoning"; "tool_call"] →
  (∀ tr', Follows st0 (model_events tr') (<[id := kind]> opened) completed → Q () tr' s) →
  chat_wp (if b then yield (EvItemStarted turn_id id kind phase) else mret ()) Q tr s.
Proof.
  intros Hf Hno Hnc [n ->] Hk HQ. destruct b; wp_run; apply HQ.
  - by apply follows_ev_start.
  - by apply follows_open.
Qed.

Lemma chat_reasoning_follows d tr s :
  ChatOpen tr s → chat_wp (chat_reasoning turn_id new_item_id d) (λ _, ChatOpen) tr s.
Proof.
  intros Hopen. unfold chat_reasoning. wp_case; [|by apply open_nothing]. wp_case; [by apply open_nothing|].
  destruct Hopen as [(o & c & Hf & Ht) Hfin]. unfold draw_id. wp_run.
  assert (s0 ≠ "") as Hne by (by destruct s0).
  destruct (cs_reasoning_id s) as [id|] eqn:Hid; wp_run.
  - destruct (ct_reasoning _ _ _ Ht _ Hid) as [Hnz Ho].
    destruct (cs_reasoning s) eqn:Hr; [done|]. simpl. wp_run. split; [|done].
    exists o, c. split; [by eapply follows_ev_delta|]. by apply tracks_reasoning_more.
  - destruct (drawn_new _ _ _ Ht) as [Hno Hnc].
    eapply wp_new_item; [done..|by eexists|set_solver|]. intros tr' Hf'. wp_run. split; [|done].
    eexists _, c. split; [|by apply tracks_reasoning_new].
    eapply follows_ev_delta; [done|apply lookup_insert_eq|done|done].
Qed.

Lemma complete_reasoning_follows b tr s :
  ChatFollows tr s → cs_finished s = b →
  chat_wp (complete_reasoning turn_id)
    (λ _ tr' s', ChatFollows tr' s' ∧ cs_finished s' = b ∧ cs_reasoning_id s' = None) tr s.
Proof.
  intros (o & c & Hf & Ht) Hfin. unfold complete_reasoning. wp_run.
  destruct (cs_reasoning_id s) as [id|] eqn:Hid; wp_run.
  - destruct (ct_reasoning _ _ _ Ht _ Hid) as [_ Ho]. split; [|done].
    eexists _, _. split; [by eapply (follows_ev_complete _ _ _ _ Hf _ id _)|by apply tracks_reasoning_done].
  - split; [by exists o, c|done].
Qed.

Lemma complete_text_follows b tr s :
  ChatFollows tr s → cs_finished s = b → cs_reasoning_id s = None →
  chat_wp (complete_text turn_id)
    (λ _ tr' s', ChatFollows tr' s' ∧ cs_finished s' = b ∧ cs_reasoning_id s' = None) tr s.
Proof.
  intros (o & c & Hf & Ht) Hfin Hno. unfold complete_text. wp_run.
  destruct (cs_text_id s) as [id|] eqn:Hid; wp_run.
  - destruct (ct_text _ _ _ Ht _ Hid) as [_ Ho]. split; [|done].
    eexists _, _. split; [by eapply (follows_ev_complete _ _ _ _ Hf _ id _)|by apply tracks_text_done].
  - split; [by exists o, c|done].
Qed.

Lemma chat_content_follows d tr s :
  ChatOpen tr s → chat_wp (chat_content turn_id new_item_id d) (λ _, ChatOpen) tr s.
Proof.
  intros Hopen. unfold chat_content. wp_case; [|by apply open_nothing]. wp_case; [by apply open_nothing|].
  assert (s0 ≠ "") as Hne by (by destruct s0). destruct Hopen as [Hopen Hfin].
  wp_use (complete_reasoning_follows false) as [] tr1 s1 ((o & c & Hf & Ht) & Hfin1 & Hno1). unfold draw_id. wp_run.
  destruct (cs_text_id s1) as [id|] eqn:Hid; wp_run.
  - destruct (ct_text _ _ _ Ht _ Hid) as [Hnz Ho].
    destruct (cs_text s1) eqn:Hr; [done|]. simpl. wp_run. split; [|done].
    exists o, c. split; [by eapply follows_ev_delta|]. by apply tracks_text_more.
  - destruct (drawn_new _ _ _ Ht) as [Hno Hnc].
    eapply wp_new_item; [done..|by eexists|set_solver|]. intros tr' Hf'. wp_run. split; [|done].
    eexists _, c. split; [|by apply tracks_text_new].
    eapply follows_ev_delta; [done|apply lookup_insert_eq|done|done].
Qed.

Lemma chat_tool_call_follows tc tr s :
  ChatOpen tr s → chat_wp (chat_tool_call turn_id new_item_id tc) (λ _, ChatOpen) tr s.
Proof.
  intros [(o & c & Hf & Ht) Hfin]. unfold chat_tool_call, draw_id. wp_run.
  destruct (cs_calls s !! default 0%N (u64_at "index" tc)) as [e|] eqn:He; wp_run.
  - pose proof (ct_calls _ _ _ Ht _ _ He) as Ho.
    wp_case; wp_run; (split; [|done]); exists o, c; (split; [done || by eapply follows_ev_delta|]);
      by apply (tracks_call_more _ _ _ _ e).
  - destruct (drawn_new _ _ _ Ht) as [Hno Hnc].
    pose proof (follows_open _ _ _ _ _ "tool_call" Hf Hno Hnc (ids_new _)) as Hf'.
    wp_case; wp_run; (split; [|done]); eexists _, c; (split; [|by refine (tracks_call_new _ _ s _ _ Ht He _)]); simpl; [done|].
    eapply follows_ev_delta; [done|apply lookup_insert_eq|done|done].
Qed.

Lemma chat_delta_follows d tr s :
  ChatOpen tr s → chat_wp (chat_delta turn_id new_item_id d) (λ _, ChatOpen) tr s.
Proof.
  intros Hr. unfold chat_delta. wp_use chat_reasoning_follows as [] tr1 s1 Hr1.
  wp_use chat_content_follows as [] tr2 s2 Hr2. apply wp_for; auto using chat_tool_call_follows.
Qed.

(** Once the choice is finished, nothing but messages can be in progress. *)
Definition ChatInv tr s : Prop :=
  ChatFollows tr s ∧ (cs_finished s = true → cs_reasoning_id s = None ∧ cs_calls s = ∅).

Lemma elem_of_sorted_indices (calls : gmap N CallBuffer) i : i ∈ sorted_indices calls ↔ is_Some (calls !! i).
Proof.
  unfold sorted_indices. rewrite merge_sort_Permutation, list_elem_of_fmap. split.
  - intros ([j e] & -> & He%elem_of_map_to_list). by exists e.
  - intros [e He]. exists (i, e). split; [done|]. by apply elem_of_map_to_list.
Qed.

(** The loop that completes the calls, with the indices that it has done. *)
Definition Completing (all finished : list N) tr s : Prop :=
  ChatFollows tr s ∧ cs_reasoning_id s = None ∧ ∀ i, is_Some (cs_calls s !! i) → i ∈ all ∧ i ∉ finished.

Lemma complete_call_follows all finished i tr s :
  Completing all finished tr s →
  chat_wp (complete_call turn_id i) (λ _, Completing all (finished ++ [i])) tr s.
Proof.
  intros ((o & c & Hf & Ht) & Hno & Hall). unfold complete_call. wp_run.
  destruct (cs_calls s !! i) as [e|] eqn:He; wp_run.
  - pose proof (ct_calls _ _ _ Ht _ _ He) as Ho. split; [|split; [done|]].
    + eexists _, _. split; [by eapply (follows_ev_complete _ _ _ _ Hf _ (cb_item_id e) _)|].
      by apply tracks_call_done.
    + simpl. intros j [e' [Hne Hj]%lookup_delete_Some].
      destruct (Hall j) as [? Hnd]; [by eexists|]. split; [done|]. set_solver.
  - split; [by exists o, c|split; [done|]]. intros j Hj. destruct (Hall j Hj) as [? Hnd]. split; [done|].
    intros [?| ->%list_elem_of_singleton]%elem_of_app; [done|]. rewrite He in Hj. by destruct Hj.
Qed.

Lemma chat_finish_follows reason tr s :
  ChatOpen tr s → chat_wp (chat_finish turn_id thread_id reason) (λ _, ChatInv) tr s.
Proof.
  intros [Hopen Hfin]. unfold chat_finish. wp_case.
  - wp_use (complete_reasoning_follows true) as [] tr1 s1 (Hf1 & Hfin1 & Hno1).
    2:{ by destruct Hopen as (o & c & ? & []); exists o, c. }
    wp_use (complete_text_follows true) as [] tr2 s2 (Hf2 & Hfin2 & Hno2).
    wp_run. eapply wp_mono; [|apply (wp_for_done _ _ _ _ (Completing (sorted_indices (cs_calls s2))))].
    + intros [] tr3 s3 (Hf3 & Hno3 & Hall). split; [done|]. intros _. split; [done|].
      apply map_empty. intros i. destruct (cs_calls s3 !! i) eqn:Hi; [|done].
      by destruct (Hall i) as [? []].
    + intros. by apply complete_call_follows.
    + split; [done|split; [done|]]. intros i Hi. split; [by apply elem_of_sorted_indices|]. set_solver.
  - wp_run. apply Accepted_failed. eauto with whale.
Qed.

Lemma open_inv tr s : ChatOpen tr s → ChatInv tr s.
Proof. intros [Hf Hfin]. split; [done|]. by rewrite Hfin. Qed.
Hint Resolve open_inv : whale.

Lemma chat_choice_follows choice tr s :
  ChatOpen tr s → chat_wp (chat_choice turn_id thread_id new_item_id choice) (λ _, ChatInv) tr s.
Proof.
  intros Hr. unfold chat_choice. wp_run. apply (wp_mono _ _ _ (λ _, ChatOpen)).
  - intros [] tr' s' Hr'. destruct (str_at "finish_reason" choice); [by apply chat_finish_follows|].
    wp_run. by apply open_inv.
  - wp_case; [by apply chat_delta_follows|by apply open_nothing].
Qed.

Lemma chat_event_follows data tr s :
  ChatInv tr s → chat_wp (chat_event turn_id thread_id new_item_id data) (λ _, ChatInv) tr s.
Proof.
  intros Hinv. pose proof (ChatFollows_Accepted _ _ (proj1 Hinv)) as Ha.
  assert (∀ u, ChatInv tr (set_chat_usage u s)) as Hu.
  { intros u. destruct Hinv as [(o & c & Hf & Ht) Hfin]. split; [|done]. exists o, c. by split; [|apply tracks_usage]. }
  unfold chat_event, chat_chunk, chat_error. wp_auto; try (by apply Accepted_failed); try apply Hu.
  wp_use chat_choice_follows as [] tr' s' Hinv'; [by wp_run|].
  split; [apply Hu|]. by apply reject_if_Ok in Heqr0.
Qed.

Lemma chat_block_follows stream :
  st_finished st0 = false → st_pending st0 = ∅ →
  chat_wp (chat_block turn_id thread_id new_item_id stream) (λ _ tr _, Accepted st0 tr) [] chat_state_new.
Proof.
  intros Hf0 Hp0. unfold chat_block. wp_run.
  eapply wp_mono; [|apply (wp_while _ _ _ _ ChatInv ChatInv)].
  - intros [] tr s [Hr Hd]. pose proof (ChatFollows_Accepted _ _ Hr). wp_auto.
    apply reject_if_Ok, negb_false_iff in Heqr. destruct (Hd Heqr) as [Hno Hc]. destruct Hr as (o & c & Hf & Ht).
    apply (Accepted_completed _ _ _ _ _ _ _ Hf). intros id kind Ho. destruct (decide (kind = "assistant_message")); [done|].
    destruct (ct_owned _ _ _ Ht _ _ Ho) as [?|(i & e & He & _)]; [done|congruence|]. by rewrite Hc, lookup_empty in He.
  - intros data tr s Hin Hr. eapply wp_mono; [|by apply chat_event_follows]. by intros [].
  - intros tr s e [Hf _]. eauto with whale.
  - done.
  - split; [|done]. exists ∅, ∅. split; [|apply tracks_new]. by apply follows_nil.
Qed.
End chat.

(** ** What a settled stream is for the engine *)

Lemma settled_step turn_id thread_id evidence stream :
  Settles turn_id thread_id evidence stream →
  ok_events (step_of stream) = model_events (ok_events stream).
Proof.
  intros (body & fin & -> & Hb & Hend). unfold step_of. csimpl. rewrite fmap_app, <-list_fmap_compose.
  change (λ x : AgentStreamEvent, _) with (Ok (E := ModelError) (A := AgentStreamEvent)).
  rewrite adapt_stream_app by (eapply Forall_impl; [done|]; apply model_output_adaptable).
  unfold model_events at 2. csimpl. change (model_event (EvTurnStarted turn_id thread_id)) with (@None ModelEvent).
  csimpl. fold (model_events (ok_events ((Ok (E := AdapterError) <$> body) ++ [fin]))).
  rewrite !ok_events_app, !ok_events_fmap, model_events_app. f_equal. by destruct Hend.
Qed.

(** What holds of the events whatever happens next holds of the stream. *)
Lemma stream_keeps {S} (P : list AgentStreamEvent → Prop) (block : gen S ()) (v : S) :
  wp P (λ tr _, P tr) block (λ _ tr _, P tr) [] v → P (ok_events (stream_of block v)).
Proof.
  intros Hwp. eapply (wp_stream _ _ _ _ _ (λ stream, P (ok_events stream))); [exact Hwp| | |].
  - intros tr ? ?. by rewrite ok_events_fmap.
  - intros tr ?. by rewrite ok_events_fmap.
  - intros tr e ?. by rewrite ok_events_app, ok_events_fmap, app_nil_r.
Qed.

(** The engine's step is finished exactly when the stream completed the turn. *)
Lemma finished_is_finish st0 events st :
  st_finished st0 = false → fold_res observe st0 events = Ok st → st_finished st = existsb is_finish events.
Proof.
  intros Hf Hst. pose proof (obs_finish _ _ _ (observe_all _ _ _ Hf Hst)) as Hfin.
  destruct (st_finished st); [|done]. destruct Hfin as (pre & u & -> & _). by rewrite existsb_snoc, orb_true_r.
Qed.

(** The events of a decoded stream are a step that the engine accepts, if the calls
    have names and identities of their own. *)
Definition StepAccepted (history : list CanonicalItem) (stream : BoxedEventStream) : Prop :=
  let events := ok_events (step_of stream) in
  calls_fit (list_to_set (calls_of history)) (completed_items events) →
  ∃ st, fold_res observe (step_state_new history) events = Ok st ∧ st_finished st = existsb is_finish events.

Lemma accepted_step turn_id thread_id evidence history stream :
  Settles turn_id thread_id evidence stream →
  Accepted (step_state_new history) (ok_events stream) → StepAccepted history stream.
Proof.
  intros Hs Ha. unfold StepAccepted. rewrite (settled_step _ _ _ _ Hs). intros Hfit.
  destruct (Ha Hfit) as [st Hst]. exists st. split; [done|]. by apply (finished_is_finish (step_state_new history)).
Qed.

Lemma chat_accepted `{AdapterExternals} turn_id thread_id (new_item_id : nat → string) history stream :
  Inj (=) (=) new_item_id → (∀ n, new_item_id n ∉ item_id <$> history) →
  StepAccepted history (stream_of (chat_block turn_id thread_id new_item_id stream) chat_state_new).
Proof.
  intros Hinj Hnew. eapply accepted_step; [apply chat_settles|].
  apply (stream_keeps (Accepted _)), chat_block_follows; [done| |done|done].
  intros n. simpl. by rewrite elem_of_list_to_set.
Qed.

(** ** The order of the items of a Chat step

    The engine assumes of a provider that a step's messages precede its tool calls
    ([EngineLegal]). The Chat decoder makes it so: it holds the calls back until the
    choice is finished. *)

From S2P Require Import EngineLegal.

Section order.
Context `{AdapterExternals}.
Variables (turn_id thread_id : string) (new_item_id : nat → string).
Implicit Types (tr : list AgentStreamEvent) (s : ChatState).

Notation items_of tr := (completed_items (model_events tr)).
Definition Uncalled tr : Prop := Forall (λ i, is_tool_call i = false) (items_of tr).
Definition Ordered tr : Prop := calls_last (items_of tr).

(** Before the choice is finished no call is completed. *)
Definition OrderInv tr s : Prop := Ordered tr ∧ (cs_finished s = false → Uncalled tr).
Definition OrderOpen tr s : Prop := Uncalled tr ∧ cs_finished s = false.
Notation order_wp := (wp (S := ChatState) Ordered (λ tr _, Ordered tr)).

Lemma uncalled_ordered tr : Uncalled tr → Ordered tr.
Proof. intros Hu. exists (items_of tr), []. rewrite app_nil_r. by repeat constructor. Qed.

Lemma uncalled_snoc tr ev : Uncalled tr → Forall (λ i, is_tool_call i = false) (items_of [ev]) → Uncalled (tr ++ [ev]).
Proof.
  unfold Uncalled. rewrite model_events_app. unfold completed_items. rewrite omap_app. intros. by apply Forall_app_2.
Qed.

Lemma uncalled_open tr s ev s' :
  OrderOpen tr s → cs_finished s' = cs_finished s → Forall (λ i, is_tool_call i = false) (items_of [ev]) →
  OrderOpen (tr ++ [ev]) s'.
Proof. intros [Hu Hf] Heq Hev. split; [by apply uncalled_snoc|by rewrite Heq]. Qed.
Lemma uncalled_open_same tr s s' : OrderOpen tr s → cs_finished s' = cs_finished s → OrderOpen tr s'.
Proof. intros [Hu Hf] Heq. split; [done|by rewrite Heq]. Qed.
Lemma uncalled_nothing : Forall (λ i, is_tool_call i = false) (@nil CanonicalItem).
Proof. constructor. Qed.
Lemma uncalled_one i : is_tool_call i = false → Forall (λ i, is_tool_call i = false) [i].
Proof. by repeat constructor. Qed.
Hint Resolve uncalled_ordered uncalled_open uncalled_open_same uncalled_nothing uncalled_one : whale.

Lemma chat_reasoning_order d tr s :
  OrderOpen tr s → order_wp (chat_reasoning turn_id new_item_id d) (λ _, OrderOpen) tr s.
Proof. intros Hr. unfold chat_reasoning, draw_id. wp_auto. Qed.

Lemma complete_reasoning_order tr s :
  Uncalled tr → order_wp (complete_reasoning turn_id) (λ _ tr' s', Uncalled tr' ∧ cs_finished s' = cs_finished s) tr s.
Proof. intros Hr. unfold complete_reasoning. wp_auto. split; [|done]. by apply uncalled_snoc; [|repeat constructor]. Qed.
Lemma complete_text_order tr s :
  Uncalled tr → order_wp (complete_text turn_id) (λ _ tr' s', Uncalled tr' ∧ cs_finished s' = cs_finished s) tr s.
Proof. intros Hr. unfold complete_text. wp_auto. split; [|done]. by apply uncalled_snoc; [|repeat constructor]. Qed.

Lemma chat_content_order d tr s :
  OrderOpen tr s → order_wp (chat_content turn_id new_item_id d) (λ _, OrderOpen) tr s.
Proof.
  intros [Hr Hf]. unfold chat_content. wp_case; [|wp_run; by split]. wp_case; [wp_run; by split|].
  wp_use complete_reasoning_order as [] tr1 s1 [Hr1 Hf1]. rewrite Hf in Hf1.
  assert (OrderOpen tr1 s1) by done. unfold draw_id. wp_auto.
Qed.

Lemma chat_tool_call_order tc tr s :
  OrderOpen tr s → order_wp (chat_tool_call turn_id new_item_id tc) (λ _, OrderOpen) tr s.
Proof. intros Hr. unfold chat_tool_call, draw_id. wp_auto. Qed.

Lemma chat_delta_order d tr s :
  OrderOpen tr s → order_wp (chat_delta turn_id new_item_id d) (λ _, OrderOpen) tr s.
Proof.
  intros Hr. unfold chat_delta. wp_use chat_reasoning_order as [] tr1 s1 Hr1.
  wp_use chat_content_order as [] tr2 s2 Hr2. apply wp_for; auto using chat_tool_call_order.
Qed.

Lemma complete_call_order i tr s :
  Ordered tr ∧ cs_finished s = true →
  order_wp (complete_call turn_id i) (λ _ tr' s', Ordered tr' ∧ cs_finished s' = true) tr s.
Proof.
  intros [(msgs & calls & Heq & Hm & Hc) Hf]. unfold complete_call. wp_run.
  destruct (cs_calls s !! i) as [e|]; wp_run; (split; [|done]); [|by exists msgs, calls].
  exists msgs, (calls ++ [buffered_call e]). split_and!; [|done|by apply Forall_app_2; [|repeat constructor]].
  rewrite model_events_snoc. simpl. by rewrite completed_items_snoc, Heq, app_assoc.
Qed.

Lemma chat_finish_order reason tr s :
  OrderOpen tr s → order_wp (chat_finish turn_id thread_id reason) (λ _, OrderInv) tr s.
Proof.
  intros [Hr Hf]. unfold chat_finish. wp_case.
  - wp_use complete_reasoning_order as [] tr1 s1 [Hr1 Hf1]. wp_use complete_text_order as [] tr2 s2 [Hr2 Hf2].
    wp_run. eapply wp_mono; [|apply (wp_for _ _ _ _ (λ tr s, Ordered tr ∧ cs_finished s = true))].
    + intros [] tr3 s3 [Ho Hfin]. split; [done|]. by rewrite Hfin.
    + intros. by apply complete_call_order.
    + split; [by apply uncalled_ordered|by rewrite Hf2].
  - wp_run. unfold Ordered. rewrite model_events_snoc, app_nil_r. by apply uncalled_ordered.
Qed.

Lemma ordered_failed tr code message : Ordered tr → Ordered (tr ++ [EvTurnFailed turn_id thread_id code message]).
Proof. unfold Ordered. by rewrite model_events_snoc, app_nil_r. Qed.

Lemma chat_choice_order choice tr s :
  OrderOpen tr s → order_wp (chat_choice turn_id thread_id new_item_id choice) (λ _, OrderInv) tr s.
Proof.
  intros Hr. unfold chat_choice. wp_run. apply (wp_mono _ _ _ (λ _, OrderOpen)).
  - intros [] tr' s' Hr'. destruct (str_at "finish_reason" choice); [by apply chat_finish_order|].
    wp_run. destruct Hr' as [Hu Hf]. split; [by apply uncalled_ordered|done].
  - wp_case; [by apply chat_delta_order|by wp_run].
Qed.

Lemma chat_event_order data tr s :
  OrderInv tr s → order_wp (chat_event turn_id thread_id new_item_id data) (λ _, OrderInv) tr s.
Proof.
  intros Hinv. pose proof (proj1 Hinv) as Ho. assert (∀ u, OrderInv tr (set_chat_usage u s)) as Hu by done.
  unfold chat_event, chat_chunk, chat_error. wp_auto; try apply Hu; [by apply ordered_failed|].
  wp_use chat_choice_order as [] tr' s' Hr'; [by wp_run|].
  apply reject_if_Ok in Heqr0. split; [by apply Hinv|done].
Qed.

Lemma chat_block_order stream :
  order_wp (chat_block turn_id thread_id new_item_id stream) (λ _ tr _, Ordered tr) [] chat_state_new.
Proof.
  unfold chat_block. wp_run. eapply wp_mono; [|apply (wp_while _ _ _ _ OrderInv OrderInv)].
  - intros [] tr s [Hr _]. wp_auto. unfold Ordered. rewrite model_events_snoc. simpl.
    by rewrite completed_items_snoc, app_nil_r.
  - intros data tr s _ Hr. eapply wp_mono; [|by apply chat_event_order]. by intros [].
  - by intros ? ? ? [? _].
  - done.
  - assert (Uncalled [EvTurnStarted turn_id thread_id]) by constructor.
    split; [by apply uncalled_ordered|done].
Qed.

Lemma stream_items_ok events : stream_items events = completed_items (ok_events events).
Proof.
  unfold stream_items, completed_items, ok_events.
  induction events as [|[e|e] events IH]; csimpl; [done| |done]. destruct (completed_item e); by rewrite ?IH.
Qed.

Lemma chat_calls_last stream :
  calls_last (stream_items (step_of (stream_of (chat_block turn_id thread_id new_item_id stream) chat_state_new))).
Proof.
  rewrite stream_items_ok, (settled_step _ _ _ _ (chat_settles _ _ _ _)). apply (stream_keeps Ordered), chat_block_order.
Qed.
End order.
