(* ===== verification/ResponsesLaws.v ===== *)
(** * The Responses decoder: steps and snapshots

    [ResponseState] keeps one entry per output index. The engine accepts every step
    the decoder makes, and a completed response has emitted exactly the items of its
    terminal output. *)

From S2P Require Import Prelude Protocol StoreState CoreContext CoreSession ModelStep Adapters ResponsesAdapter AdapterLaws AdapterSteps.

Lemma string_field_Ok value field s : string_field value field = Ok s ↔ str_at field value = Some s.
Proof. unfold string_field. apply ok_or_Ok. Qed.

Lemma str_at_key field value s : str_at field value = Some s ↔ at_key field value = Str s.
Proof.
  unfold str_at, at_key. destruct (get field value) as [v|]; [|done]. simpl. destruct v; naive_solver.
Qed.

Section pure.
Context `{AdapterExternals}.
Implicit Types (s : ResponseState) (value : Value).

(** Either the index is known, or a new item starts there. *)
Lemma start_inv s index value turn_id ev s' :
  start s index value turn_id = Ok (ev, s') →
  (ev = None ∧ s' = s ∧ ∃ st, rsp_items s !! index = Some st ∧ at_key "id" (is_value st) = at_key "id" value)
  ∨ (∃ id kind phase, ev = Some (EvItemStarted turn_id id kind phase) ∧ str_at "id" value = Some id
      ∧ id ∉ rsp_ids s ∧ start_kind value = Ok (kind, phase) ∧ rsp_items s !! index = None
      ∧ s' = {| rsp_items := <[index := {| is_value := value; is_completed := false |}]> (rsp_items s);
                rsp_ids := {[id]} ∪ rsp_ids s |}).
Proof.
  unfold start. destruct (rsp_items s !! index) as [st|] eqn:Hst; intros Hs; inv_result.
  - left. inv_bool. eauto.
  - right. inv_bool. eexists _, _, _. split_and!; try done. by apply string_field_Ok.
Qed.

Lemma finish_inv s index value turn_id evs s' :
  finish_item s index value turn_id = Ok (evs, s') →
  ∃ ev s1 item st, start s index value turn_id = Ok (ev, s1) ∧ canonical value = Ok item
    ∧ rsp_items s1 !! index = Some st
    ∧ if is_completed st then canonical (is_value st) = Ok item ∧ evs = option_list ev ∧ s' = s1
      else evs = option_list ev ++ [EvItemCompleted turn_id item]
        ∧ s' = {| rsp_items := <[index := {| is_value := value; is_completed := true |}]> (rsp_items s1);
                  rsp_ids := rsp_ids s1 |}.
Proof.
  unfold finish_item. intros Hf. inv_result.
  match goal with H : match ?x with _ => _ end = _ |- _ => destruct x as [st|] eqn:Hst; [|done] end.
  eexists _, _, _, st. split_and!; [done..|]. destruct (is_completed st); inv_result; inv_bool; by subst.
Qed.

(** After [start] the index is taken: the [unwrap] of [finish] is safe. *)
Lemma start_takes_index s index value turn_id ev s' :
  start s index value turn_id = Ok (ev, s') → is_Some (rsp_items s' !! index).
Proof.
  intros [(-> & -> & st & Hst & _)|(id & kind & phase & -> & _ & _ & _ & _ & ->)]%start_inv; [by exists st|].
  simpl. rewrite lookup_insert_eq. eauto.
Qed.

Lemma canonical_id value item : canonical value = Ok item → str_at "id" value = Some (item_id item) ∧ model_item item.
Proof.
  unfold canonical. intros Hc.
  apply bind_Ok in Hc as (id & Hid%string_field_Ok & Hc). apply bind_Ok in Hc as (kind & _ & Hc).
  repeat case_match; inv_result; done.
Qed.
End pure.

(** ** Acceptance *)

(** The identifiers of the items that start. *)
Definition started_id (e : ModelEvent) : option string :=
  match e with MItemStarted id _ _ => Some id | _ => None end.
Definition started_ids (events : list ModelEvent) : list string := omap started_id events.

Section follows.
Context `{AdapterExternals}.
Variables (turn_id thread_id : string) (st0 : ModelStepState).
Implicit Types (tr : list AgentStreamEvent) (s : ResponseState) (opened : gmap string string) (completed : gset string).

Record RTracks opened completed s : Prop := {
  rt_entry : ∀ i st, rsp_items s !! i = Some st → ∃ id, str_at "id" (is_value st) = Some id ∧ id ∈ rsp_ids s
    ∧ (is_completed st = false → ∃ kind phase, start_kind (is_value st) = Ok (kind, phase) ∧ opened !! id = Some kind);
  rt_distinct : ∀ i j st st', rsp_items s !! i = Some st → rsp_items s !! j = Some st' →
    str_at "id" (is_value st) = str_at "id" (is_value st') → i = j;
  rt_opened : ∀ id kind, opened !! id = Some kind → id ∈ rsp_ids s
    ∧ ∃ i st, rsp_items s !! i = Some st ∧ is_completed st = false ∧ str_at "id" (is_value st) = Some id;
  rt_completed : completed ⊆ rsp_ids s;
}.

Definition ids_fresh tr : Prop := ∀ id, id ∈ started_ids (model_events tr) → id ∉ st_item_ids st0.
Definition RFollows tr s : Prop :=
  ids_fresh tr → ∃ opened completed, Follows st0 (model_events tr) opened completed ∧ RTracks opened completed s.

Lemma ids_fresh_app tr evs : ids_fresh (tr ++ evs) → ids_fresh tr.
Proof. intros Hf id Hid. apply Hf. rewrite model_events_app. unfold started_ids. rewrite omap_app. set_solver. Qed.

Lemma start_kind_known value kind phase :
  start_kind value = Ok (kind, phase) → kind ∈ ["assistant_message"; "reasoning"; "tool_call"].
Proof. unfold start_kind. intros Hs. inv_result. repeat case_match; inv_result; set_solver. Qed.

Lemma rtracks_new : RTracks ∅ ∅ response_state_default.
Proof. split; simpl; intros; simplify_map_eq; set_solver. Qed.

Lemma rtracks_start opened completed s index id kind phase value :
  RTracks opened completed s → str_at "id" value = Some id → id ∉ rsp_ids s →
  start_kind value = Ok (kind, phase) → rsp_items s !! index = None →
  RTracks (<[id := kind]> opened) completed
    {| rsp_items := <[index := {| is_value := value; is_completed := false |}]> (rsp_items s);
       rsp_ids := {[id]} ∪ rsp_ids s |}.
Proof.
  intros [H1 H2 H3 H4] Hid Hnew Hk Hi.
  assert (∀ i st, rsp_items s !! i = Some st → str_at "id" (is_value st) ≠ Some id) as Hne.
  { intros i st Hst Heq. destruct (H1 _ _ Hst) as (id' & Hid' & Hin & _). congruence. }
  split; simpl.
  - intros i st [[<- <-]|[_ Hst]]%lookup_insert_Some; simpl.
    + exists id. split_and!; [done|set_solver|]. intros _. exists kind, phase. by rewrite lookup_insert_eq.
    + destruct (H1 _ _ Hst) as (id' & Hid' & Hin & Ho). exists id'. split_and!; [done|set_solver|].
      intros (k & p & Hkp & Hl)%Ho. exists k, p. rewrite lookup_insert_ne; [done|]. intros ->. by destruct (Hne i st).
  - intros i j st st' [[<- <-]|[_ Hst]]%lookup_insert_Some [[<- <-]|[_ Hst']]%lookup_insert_Some; simpl; intros Heq.
    + done.
    + destruct (Hne j st'); [done|congruence].
    + destruct (Hne i st); [done|congruence].
    + eauto.
  - intros id' k [[<- <-]|[_ Hl]]%lookup_insert_Some.
    + split; [set_solver|]. exists index. eexists. rewrite lookup_insert_eq. split_and!; [done|done|done].
    + destruct (H3 _ _ Hl) as (Hin & i & st & Hst & Hc & Hid'). split; [set_solver|].
      exists i, st. rewrite lookup_insert_ne; [done|]. intros ->. congruence.
  - set_solver.
Qed.

Lemma rtracks_finish opened completed s index id st value :
  RTracks opened completed s → rsp_items s !! index = Some st → is_completed st = false →
  str_at "id" (is_value st) = Some id → str_at "id" value = Some id →
  RTracks (delete id opened) ({[id]} ∪ completed)
    {| rsp_items := <[index := {| is_value := value; is_completed := true |}]> (rsp_items s); rsp_ids := rsp_ids s |}.
Proof.
  intros [H1 H2 H3 H4] Hst Hc Hid Hv.
  assert (id ∈ rsp_ids s) as Hin by (destruct (H1 _ _ Hst) as (id' & ? & ? & _); congruence).
  split; simpl.
  - intros i st' [[<- <-]|[Hne Hst']]%lookup_insert_Some; simpl; [by exists id|].
    destruct (H1 _ _ Hst') as (id' & Hid' & Hin' & Ho). exists id'. split_and!; [done|done|].
    intros (k & p & Hkp & Hl)%Ho. exists k, p. rewrite lookup_delete_ne; [done|]. intros <-.
    apply Hne, (H2 _ _ _ _ Hst Hst'). congruence.
  - intros i j st1 st2 [[<- <-]|[_ Hst1]]%lookup_insert_Some [[<- <-]|[_ Hst2]]%lookup_insert_Some; simpl; intros Heq.
    + done.
    + eapply H2; [done..|]. congruence.
    + eapply H2; [done..|]. congruence.
    + eauto.
  - intros id' k [Hne Hl]%lookup_delete_Some. destruct (H3 _ _ Hl) as (Hin' & i & st' & Hst' & Hc' & Hid').
    split; [done|]. exists i, st'. rewrite lookup_insert_ne; [done|]. intros ->. congruence.
  - set_solver.
Qed.

Lemma start_follows tr s index value ev s' :
  RFollows tr s → start s index value turn_id = Ok (ev, s') → RFollows (tr ++ option_list ev) s'.
Proof.
  intros Hr [(-> & -> & _)|(id & kind & phase & -> & Hid & Hnew & Hk & Hi & ->)]%start_inv; [by rewrite app_nil_r|].
  intros Hfresh. destruct (Hr (ids_fresh_app _ _ Hfresh)) as (o & c & Hf & Ht).
  exists (<[id := kind]> o), c. split; [|by eapply rtracks_start]. simpl.
  apply follows_ev_start; [done| | | |by eapply start_kind_known].
  - destruct (o !! id) eqn:Ho; [|done]. by apply (rt_opened _ _ _ Ht) in Ho as [? _].
  - intros ?%(rt_completed _ _ _ Ht). done.
  - apply Hfresh. change (option_list (Some ?x)) with [x]. rewrite model_events_snoc. unfold started_ids. rewrite omap_app. simpl. set_solver.
Qed.

Lemma finish_follows tr s index value evs s' :
  RFollows tr s → finish_item s index value turn_id = Ok (evs, s') → RFollows (tr ++ evs) s'.
Proof.
  intros Hr (ev & s1 & item & st & Hs & Hc & Hst & Hend)%finish_inv.
  pose proof (start_follows _ _ _ _ _ _ Hr Hs) as Hr1.
  destruct (is_completed st) eqn:Hdone; destruct Hend as [? Hend]; [destruct Hend as [-> ->]; done|]. subst.
  rewrite app_assoc. intros Hfresh. destruct (Hr1 (ids_fresh_app _ _ Hfresh)) as (o & c & Hf & Ht).
  apply canonical_id in Hc as [Hid Hm].
  assert (str_at "id" (is_value st) = Some (item_id item)) as Hid'.
  { destruct (start_inv _ _ _ _ _ _ Hs) as [(_ & -> & st' & Hst' & Heq)|(? & ? & ? & _ & _ & _ & _ & _ & ->)].
    - apply str_at_key. rewrite Hst in Hst'. simplify_eq. by rewrite Heq, <-str_at_key.
    - simpl in Hst. rewrite lookup_insert_eq in Hst. by simplify_eq. }
  destruct (rt_entry _ _ _ Ht _ _ Hst) as (id & Hid2 & _ & Ho). destruct (Ho Hdone) as (kind & phase & _ & Hkind).
  assert (id = item_id item) as -> by congruence.
  eexists _, _. split; [by eapply (follows_ev_complete _ _ _ _ Hf _ (item_id item) _)|by eapply rtracks_finish].
Qed.

(** *** The blocks *)

Definition RAccepted tr : Prop := ids_fresh tr → Accepted st0 tr.
Notation responses_wp := (wp (S := ResponseState) RAccepted (λ tr _, RAccepted tr)).

Lemma RFollows_RAccepted tr s : RFollows tr s → RAccepted tr.
Proof. intros Hr Hf. destruct (Hr Hf) as (o & c & ? & _). by eapply follows_Accepted. Qed.
Hint Resolve RFollows_RAccepted : whale.

Lemma item_mut_inv s event st :
  item_mut s event = Ok st → is_completed st = false ∧ ∃ i, rsp_items s !! i = Some st.
Proof. unfold item_mut. intros Hi. inv_result. split; [done|]. eauto. Qed.

Lemma start_kind_type value kind phase type :
  start_kind value = Ok (kind, phase) → str_at "type" value = Some type →
  kind = if type == "message" then "assistant_message" else if type == "reasoning" then "reasoning" else "tool_call".
Proof.
  unfold start_kind. intros Hs Ht. apply bind_Ok in Hs as (k & Hk%string_field_Ok & Hs).
  rewrite Ht in Hk. simplify_eq. repeat case_match; inv_result; done.
Qed.

(** A delta of an item in progress whose type has been checked. *)
Lemma delta_follows tr s st id type ev e :
  RFollows tr s → (∃ i, rsp_items s !! i = Some st) → is_completed st = false →
  string_field (is_value st) "id" = Ok id → str_at "type" (is_value st) = Some type → model_event ev = Some e →
  is_delta e id (if type == "message" then "assistant_message" else if type == "reasoning" then "reasoning" else "tool_call") →
  RFollows (tr ++ [ev]) s.
Proof.
  intros Hr [i Hst] Hc Hid%string_field_Ok Hty He Hd Hfresh.
  destruct (Hr (ids_fresh_app _ _ Hfresh)) as (o & c & Hf & Ht). exists o, c. split; [|done].
  destruct (rt_entry _ _ _ Ht _ _ Hst) as (id' & Hid' & _ & Ho). destruct (Ho Hc) as (kind & phase & Hk & Hl).
  assert (id' = id) as -> by congruence. rewrite <-(start_kind_type _ _ _ _ Hk Hty) in Hd.
  by eapply follows_ev_delta.
Qed.

Lemma expect_kind_Ok item expected message u :
  expect_kind item expected message = Ok u → str_at "type" (is_value item) = Some expected.
Proof. unfold expect_kind. intros Hk. inv_result. inv_bool. subst. by apply string_field_Ok. Qed.

Lemma item_delta_follows kind value tr s :
  RFollows tr s → responses_wp (item_delta turn_id kind value) (λ _, RFollows) tr s.
Proof.
  intros Hr. unfold item_delta. wp_auto.
  all: match goal with H : item_mut _ _ = _ |- _ => apply item_mut_inv in H as [Hc Hi] end.
  all: match goal with H : expect_kind _ _ _ = _ |- _ => apply expect_kind_Ok in H end.
  all: by eapply delta_follows.
Qed.

Lemma yield_finish_follows index value tr s :
  RFollows tr s → responses_wp (yield_finish turn_id index value) (λ _, RFollows) tr s.
Proof. intros Hr. unfold yield_finish. wp_auto. by eapply finish_follows. Qed.

Lemma omitted_false s output : omitted_item s output = false →
  size (rsp_items s) = length output ∧ ∀ i st, rsp_items s !! i = Some st → is_completed st = true.
Proof.
  unfold omitted_item. intros [Hs%negb_false_iff%Nat.eqb_eq Ha]%orb_false_iff. split; [done|].
  intros i st Hst. rewrite existsb_false in Ha. apply negb_false_iff, Ha, list_elem_of_fmap.
  exists (i, st). split; [done|]. by apply elem_of_map_to_list.
Qed.

Lemma completed_follows tr s usage output :
  RFollows tr s → omitted_item s output = false → RAccepted (tr ++ [EvTurnCompleted turn_id thread_id usage]).
Proof.
  intros Hr [_ Hall]%omitted_false Hfresh. destruct (Hr (ids_fresh_app _ _ Hfresh)) as (o & c & Hf & Ht).
  apply (Accepted_completed _ _ _ _ _ _ _ Hf). intros id kind Ho. exfalso.
  destruct (rt_opened _ _ _ Ht _ _ Ho) as (_ & i & st & Hst & Hc & _). apply Hall in Hst. congruence.
Qed.

Lemma failed_follows tr s code message :
  RFollows tr s → RAccepted (tr ++ [EvTurnFailed turn_id thread_id code message]).
Proof.
  intros Hr Hfresh. apply Accepted_failed, (RFollows_RAccepted _ _ Hr). by eapply ids_fresh_app.
Qed.
Hint Resolve failed_follows : whale.

Lemma response_completed_follows value tr s :
  RFollows tr s → responses_wp (response_completed turn_id thread_id value) (λ _, RFollows) tr s.
Proof.
  intros Hr. unfold response_completed. wp_auto. apply (wp_mono _ _ _ (λ _, RFollows)).
  - intros [] tr' s' Hr'. wp_auto. eapply completed_follows; [done|]. by eapply reject_if_Ok.
  - apply wp_for; [|done]. intros [i v] ????. by apply yield_finish_follows.
Qed.

Lemma responses_event_follows data tr s :
  RFollows tr s → responses_wp (responses_event turn_id thread_id data) (λ _, RFollows) tr s.
Proof.
  intros Hr. unfold responses_event, yield_start. wp_auto.
  - by eapply start_follows.
  - by apply yield_finish_follows.
  - by apply item_delta_follows.
  - by apply response_completed_follows.
Qed.

Lemma responses_block_follows stream :
  st_finished st0 = false → st_pending st0 = ∅ →
  responses_wp (responses_block turn_id thread_id stream) (λ _ tr _, RAccepted tr) [] response_state_default.
Proof.
  intros Hf0 Hp0. unfold responses_block. wp_run. apply (wp_drain _ _ _ _ _ RFollows).
  - intros. by apply responses_event_follows.
  - intros ????. by eapply RFollows_RAccepted.
  - intros _. exists ∅, ∅. split; [by apply follows_nil|apply rtracks_new].
Qed.
End follows.

Lemma responses_accepted `{AdapterExternals} turn_id thread_id history stream :
  let out := responses_parse_stream turn_id thread_id stream in
  (∀ id, id ∈ started_ids (ok_events (step_of out)) → id ∉ item_id <$> history) →
  StepAccepted history out.
Proof.
  intros out Hnew. pose proof (responses_settles turn_id thread_id stream) as Hs. fold out in Hs.
  eapply accepted_step; [done|]. rewrite (settled_step _ _ _ _ Hs) in Hnew.
  assert (RAccepted (step_state_new history) (ok_events out)) as Ha.
  { apply (stream_keeps (RAccepted (step_state_new history))). by apply responses_block_follows. }
  apply Ha. intros id Hid. simpl. rewrite elem_of_list_to_set. by apply Hnew.
Qed.

(** ** Terminal snapshots *)

(** The item of a completed entry. *)
Definition done_item `{AdapterExternals} (st : ItemState) : option CanonicalItem :=
  if is_completed st then match canonical (is_value st) with Ok item => Some item | Err _ => None end else None.
Definition snapshot_items `{AdapterExternals} (m : gmap N ItemState) : list CanonicalItem :=
  omap (λ e, done_item e.2) (map_to_list m).

Section lists.
Context {A B C : Type}.

Lemma omap_imap (f : B → option C) (g : nat → A → B) (l : list A) (k : list C) :
  length l = length k →
  (∀ i x y, l !! i = Some x → k !! i = Some y → f (g i x) = Some y) →
  omap f (imap g l) = k.
Proof.
  revert g k. induction l as [|x l IH]; intros g [|y k] Hlen Hf; try done. csimpl.
  rewrite (Hf 0 x y) by done. f_equal. apply IH; [by injection Hlen|].
  intros i x' y' Hx Hy. by apply (Hf (S i)).
Qed.

Lemma map_res_Ok {E} (f : A → result E B) l :
  (∀ x, x ∈ l → ∃ y, f x = Ok y) → ∃ ys, map_res f l = Ok ys.
Proof.
  induction l as [|x l IH]; intros Hf; simpl; [by eexists|]. destruct (Hf x) as [y ->]; [by left|]. simpl.
  destruct IH as [ys ->]; [|by eexists]. intros x' Hx. apply Hf. by right.
Qed.
Lemma map_res_lookup {E} (f : A → result E B) l ys :
  map_res f l = Ok ys → length l = length ys ∧ ∀ i x y, l !! i = Some x → ys !! i = Some y → f x = Ok y.
Proof.
  revert ys. induction l as [|x l IH]; intros ys Hr; simpl in Hr; inv_result; [done|].
  destruct (IH _ ltac:(eassumption)) as [Hlen Hl]. split; [simpl; by f_equal|]. intros [|i] x' y' Hx Hy; simpl in *; [congruence|eauto].
Qed.
End lists.

Section snapshots.
Context `{AdapterExternals}.
Variables (turn_id thread_id : string) (stream : list SseEvent).
Implicit Types (tr : list AgentStreamEvent) (s : ResponseState) (m : gmap N ItemState).

Lemma snapshot_insert m i st :
  m !! i = None → snapshot_items (<[i := st]> m) ≡ₚ option_list (done_item st) ++ snapshot_items m.
Proof.
  intros Hi. unfold snapshot_items. rewrite map_to_list_insert by done. csimpl. by destruct (done_item st).
Qed.

Lemma snapshot_update m i st st' :
  m !! i = Some st → is_completed st = false →
  snapshot_items (<[i := st']> m) ≡ₚ option_list (done_item st') ++ snapshot_items m.
Proof.
  intros Hi Hc. rewrite <-insert_delete_eq. rewrite snapshot_insert by apply lookup_delete_eq.
  f_equiv. rewrite <-(insert_delete_id m i st) at 2 by done. rewrite snapshot_insert by apply lookup_delete_eq.
  unfold done_item. by rewrite Hc.
Qed.

(** The items emitted so far are those of the completed entries. *)
Definition Snap tr s : Prop := completed_items (model_events tr) ≡ₚ snapshot_items (rsp_items s).

Lemma snap_start tr s index value ev s' :
  Snap tr s → start s index value turn_id = Ok (ev, s') → Snap (tr ++ option_list ev) s'.
Proof.
  unfold Snap.
  intros Hs [(-> & -> & _)|(id & kind & phase & -> & _ & _ & _ & Hi & ->)]%start_inv; [by rewrite app_nil_r|].
  change (option_list (Some ?x)) with [x]. rewrite model_events_snoc. simpl.
  by rewrite completed_items_snoc, app_nil_r, snapshot_insert.
Qed.

Lemma snap_finish tr s index value evs s' :
  Snap tr s → finish_item s index value turn_id = Ok (evs, s') →
  Snap (tr ++ evs) s'
  ∧ (∃ st item, rsp_items s' !! index = Some st ∧ done_item st = Some item ∧ canonical value = Ok item)
  ∧ ∀ j st, rsp_items s !! j = Some st → is_completed st = true → rsp_items s' !! j = Some st.
Proof.
  intros Hs (ev & s1 & item & st & Hstart & Hc & Hst & Hend)%finish_inv.
  pose proof (snap_start _ _ _ _ _ _ Hs Hstart) as Hs1.
  assert (∀ j st, rsp_items s !! j = Some st → rsp_items s1 !! j = Some st) as Hkeep.
  { intros j st' Hj. destruct (start_inv _ _ _ _ _ _ Hstart) as [(_ & -> & _)|(? & ? & ? & _ & _ & _ & _ & Hi & ->)]; [done|].
    simpl. rewrite lookup_insert_ne; [done|]. intros ->. congruence. }
  destruct (is_completed st) eqn:Hdone; [destruct Hend as (Hold & -> & ->)|destruct Hend as (-> & ->)].
  - split_and!; [done| |eauto]. exists st, item. unfold done_item. by rewrite Hdone, Hold.
  - split_and!.
    + unfold Snap in *. rewrite app_assoc, model_events_snoc. simpl. rewrite completed_items_snoc, Hs1. simpl.
      rewrite (snapshot_update _ _ _ _ Hst Hdone). unfold done_item. simpl. rewrite Hc. simpl.
      symmetry. apply Permutation_cons_append.
    + eexists _, item. simpl. rewrite lookup_insert_eq. split_and!; [done| |done]. unfold done_item. simpl. by rewrite Hc.
    + intros j st' Hj Hd. simpl. rewrite lookup_insert_ne; [by apply Hkeep|]. intros ->. apply Hkeep in Hj. congruence.
Qed.

(** The part of the terminal output that has been settled. *)
Definition Settled (outputs : list (nat * Value)) tr s : Prop :=
  Snap tr s ∧ ∀ i v, (i, v) ∈ outputs → ∃ st item,
    rsp_items s !! N.of_nat i = Some st ∧ done_item st = Some item ∧ canonical v = Ok item.

(** The terminal event that a completed response ends with. *)
Definition ReturnedSnap tr : Prop :=
  ∀ tr' usage, tr = tr' ++ [EvTurnCompleted turn_id thread_id usage] →
  ∃ data value output items, Ok data ∈ stream ∧ from_str data = Ok value
    ∧ str_at "type" value = Some "response.completed"
    ∧ at_key "output" (at_key "response" value) = Array output
    ∧ usage = response_usage (at_key "usage" (at_key "response" value))
    ∧ map_res canonical output = Ok items ∧ completed_items (model_events tr) ≡ₚ items.

Lemma snapshot_output m output :
  size m = length output →
  (∀ i v, output !! i = Some v → ∃ st item, m !! N.of_nat i = Some st ∧ done_item st = Some item ∧ canonical v = Ok item) →
  ∃ items, map_res canonical output = Ok items ∧ snapshot_items m ≡ₚ items.
Proof.
  intros Hsize Hall. destruct (map_res_Ok canonical output) as [items Hitems].
  { intros v [i Hi]%list_elem_of_lookup. destruct (Hall _ _ Hi) as (? & item & _ & _ & ?). by exists item. }
  exists items. split; [done|]. destruct (map_res_lookup _ _ _ Hitems) as [Hlen Hl].
  set (entry i (_ : Value) := (N.of_nat i, default {| is_value := Null; is_completed := false |} (m !! N.of_nat i))).
  assert (map_to_list m ≡ₚ imap entry output) as Hperm.
  { symmetry. apply submseteq_length_Permutation; [|rewrite length_imap, <-Hsize, length_map_to_list; done].
    apply NoDup_submseteq.
    - apply (NoDup_fmap_1 fst). rewrite fmap_imap. apply NoDup_alt. intros i j x Hi Hj.
      rewrite list_lookup_imap in Hi, Hj. destruct (output !! i), (output !! j); simplify_eq/=. lia.
    - intros [k st] [i Hi]%list_elem_of_lookup. rewrite list_lookup_imap in Hi.
      destruct (output !! i) as [v|] eqn:Hv; [|done]. simpl in Hi. unfold entry in Hi.
      destruct (Hall _ _ Hv) as (st' & ? & Hst & _). rewrite Hst in Hi. simplify_eq/=. by apply elem_of_map_to_list. }
  unfold snapshot_items. rewrite Hperm. erewrite omap_imap; [reflexivity|exact Hlen|].
  intros i v item Hv Hitem. destruct (Hall _ _ Hv) as (st & item' & Hst & Hd & Hc). unfold entry. rewrite Hst. simpl.
  rewrite Hd. f_equal. specialize (Hl _ _ _ Hv Hitem). congruence.
Qed.

Notation responses_wp := (wp (S := ResponseState) ReturnedSnap (λ _ _, True)).

Lemma snap_other tr s ev : Snap tr s → completed_items (model_events [ev]) = [] → Snap (tr ++ [ev]) s.
Proof.
  unfold Snap, completed_items. rewrite model_events_app, omap_app. intros Hs ->. by rewrite app_nil_r.
Qed.

Lemma yield_finish_settled index v outputs tr s :
  Settled outputs tr s →
  responses_wp (yield_finish turn_id (N.of_nat index) v) (λ _, Settled (outputs ++ [(index, v)])) tr s.
Proof.
  intros [Hs Hout]. unfold yield_finish. wp_auto.
  destruct (snap_finish _ _ _ _ _ _ Hs Heqr) as (Hs' & Hnew & Hkeep). split; [done|].
  intros i w [Hin|[= -> ->]%list_elem_of_singleton]%elem_of_app; [|done].
  destruct (Hout _ _ Hin) as (st & item & Hst & Hd & Hc). exists st, item. split_and!; [|done|done].
  apply Hkeep; [done|]. unfold done_item in Hd. by destruct (is_completed st).
Qed.

Lemma response_completed_snap data value tr s :
  Ok data ∈ stream → from_str data = Ok value → str_at "type" value = Some "response.completed" → Snap tr s →
  responses_wp (response_completed turn_id thread_id value) (λ _, Snap) tr s.
Proof.
  intros Hin Hv Hty Hs. unfold response_completed. wp_auto.
  apply (wp_mono _ _ _ (λ _, Settled (imap pair a1))).
  - intros [] tr' s' [Hs' Hout]. wp_auto. intros tr2 usage [-> [= <-]]%app_inj_tail.
    apply reject_if_Ok, omitted_false in Heqr2 as [Hsize _].
    apply ok_or_Ok in Heqr1. destruct (at_key "output" _) as [| | | |l|] eqn:Hout1; simplify_eq/=.
    destruct (snapshot_output (rsp_items s') a1) as (items & Hitems & Hperm); [done| |].
    { intros i v Hi. apply Hout, elem_of_lookup_imap. by exists i, v. }
    exists data, value, a1, items. split_and!; try done.
    rewrite model_events_snoc. simpl. rewrite completed_items_snoc, app_nil_r. unfold Snap in Hs'. by rewrite Hs', Hperm.
  - apply (wp_for_done _ _ _ _ Settled).
    + intros finished [i v] tr' s' Hs'. by apply yield_finish_settled.
    + split; [done|]. intros i v Hiv. by apply elem_of_nil in Hiv.
Qed.

Lemma responses_event_snap data tr s :
  Ok data ∈ stream → Snap tr s →
  responses_wp (responses_event turn_id thread_id data) (λ _, Snap) tr s.
Proof.
  intros Hin Hs. unfold responses_event, yield_start, item_delta. wp_auto.
  all: try (by apply snap_other).
  - by eapply snap_start.
  - unfold yield_finish. wp_auto. by eapply snap_finish.
  - apply map_err_Ok in Heqr. apply string_field_Ok in Heqr0. inv_bool. subst. by eapply response_completed_snap.
  - intros tr' usage Heq. by apply app_inj_tail in Heq as [_ ?].
Qed.

Lemma responses_block_snap :
  responses_wp (responses_block turn_id thread_id stream) (λ _ _ _, False) [] response_state_default.
Proof.
  unfold responses_block. wp_run. apply (wp_drain _ _ _ _ _ Snap).
  - intros. by apply responses_event_snap.
  - done.
  - unfold Snap. done.
Qed.

Lemma responses_snapshot tr usage :
  responses_parse_stream turn_id thread_id stream = (Ok <$> tr) ++ [Ok (EvTurnCompleted turn_id thread_id usage)] →
  ReturnedSnap (tr ++ [EvTurnCompleted turn_id thread_id usage]).
Proof.
  intros Hout. unfold responses_parse_stream in Hout.
  eapply (wp_stream _ _ _ (λ _ _, False) _ (λ out, out = _ → _)); [exact responses_block_snap|done| | |exact Hout].
  - intros tr' Hr Heq. enough (tr' = tr ++ [EvTurnCompleted turn_id thread_id usage]) as <- by done.
    apply (f_equal ok_events) in Heq. by rewrite ok_events_app, !ok_events_fmap in Heq.
  - intros tr' e _ Heq. by apply app_inj_tail in Heq as [_ ?].
Qed.
End snapshots.
