(* ===== verification/AdapterContent.v ===== *)
(** * Completed items carry what was streamed

    The text, the thinking, the signature and the arguments of an item that the
    Anthropic or the Chat decoder completes are the concatenation of its deltas. *)

From S2P Require Import Prelude Protocol StoreState CoreContext CoreSession ModelStep Adapters AnthropicAdapter ChatAdapter AdapterLaws AdapterSteps.

(** ** Concatenations *)

Definition glue (f : AgentStreamEvent → option string) (tr : list AgentStreamEvent) : string :=
  foldr String.append "" (omap f tr).

(** The deltas of one item, by their kinds. *)
Definition text_delta (id : string) (ev : AgentStreamEvent) : option string :=
  match ev with EvTextDelta _ i d => if i == id then Some d else None | _ => None end.
Definition reasoning_delta (id : string) (ev : AgentStreamEvent) : option string :=
  match ev with EvReasoningDelta _ i d => if i == id then Some d else None | _ => None end.
Definition signature_delta (id : string) (ev : AgentStreamEvent) : option string :=
  match ev with EvReasoningSignature _ i d => if i == id then Some d else None | _ => None end.
Definition arguments_delta (id : string) (ev : AgentStreamEvent) : option string :=
  match ev with EvToolCallDelta _ i _ d => if i == id then Some d else None | _ => None end.
(** Every reasoning delta of the stream. *)
Definition any_reasoning (ev : AgentStreamEvent) : option string :=
  match ev with EvReasoningDelta _ _ d => Some d | _ => None end.

(** The item that a delta belongs to. *)
Definition delta_item (ev : AgentStreamEvent) : option string :=
  match ev with
  | EvTextDelta _ i _ | EvReasoningDelta _ i _ | EvReasoningSignature _ i _ | EvToolCallDelta _ i _ _ => Some i
  | _ => None
  end.
Definition delta_items (tr : list AgentStreamEvent) : list string := omap delta_item tr.

Lemma glue_app f tr tr' : glue f (tr ++ tr') = glue f tr +:+ glue f tr'.
Proof.
  unfold glue. rewrite omap_app. induction (omap f tr) as [|s l IH]; simpl; [done|].
  change (foldr String.append "" (s :: l)) with (s +:+ foldr String.append "" l). by rewrite IH, string_app_assoc.
Qed.
Lemma glue_snoc f tr ev : glue f (tr ++ [ev]) = glue f tr +:+ default "" (f ev).
Proof.
  rewrite glue_app. f_equal. unfold glue. simpl. destruct (f ev); simpl; [apply string_app_nil_r|done].
Qed.
Lemma glue_skip f tr ev : f ev = None → glue f (tr ++ [ev]) = glue f tr.
Proof. intros Hf. rewrite glue_snoc, Hf. apply string_app_nil_r. Qed.

Lemma delta_items_snoc tr ev : delta_items (tr ++ [ev]) = delta_items tr ++ option_list (delta_item ev).
Proof. unfold delta_items. rewrite omap_app. simpl. by destruct (delta_item ev). Qed.

(** What was never streamed is empty. *)
Lemma glue_foreign (f : string → AgentStreamEvent → option string) id tr :
  (∀ ev d, f id ev = Some d → delta_item ev = Some id) → id ∉ delta_items tr → glue (f id) tr = "".
Proof.
  intros Hf. unfold glue, delta_items. induction tr as [|ev tr IH]; [done|]. csimpl. intros Hid.
  destruct (f id ev) as [d|] eqn:Hd.
  - apply Hf in Hd. rewrite Hd in Hid. set_solver.
  - apply IH. destruct (delta_item ev); set_solver.
Qed.

Lemma own_delta (f : string → AgentStreamEvent → option string) :
  f = text_delta ∨ f = reasoning_delta ∨ f = signature_delta ∨ f = arguments_delta →
  ∀ id ev d, f id ev = Some d → delta_item ev = Some id.
Proof.
  intros [->|[->|[->| ->]]] id ev d; destruct ev; simpl; try done; case_bool_decide; naive_solver.
Qed.

(** ** Items that carry their deltas *)

Section carried.
Context `{AdapterExternals}.

Definition parsed_arguments (raw : string) : option Value :=
  match from_str raw with Ok v => Some v | Err _ => None end.

(** The item holds what [tr] streamed for it. *)
Definition item_carries (tr : list AgentStreamEvent) (item : CanonicalItem) : Prop :=
  match item with
  | AssistantMessage id content _ => content = [ContentText (glue (text_delta id) tr)]
  | Reasoning id thinking signature encrypted =>
      thinking = glue (reasoning_delta id) tr
      ∧ signature = (if str_is_empty (glue (signature_delta id) tr) then None else Some (glue (signature_delta id) tr))
      ∧ encrypted = None
  | ToolCall id _ _ _ arguments raw =>
      raw = glue (arguments_delta id) tr ∧ arguments = parsed_arguments raw
  | _ => False
  end.
(** The same with a reasoning item that holds all the reasoning of the step. *)
Definition chat_item_carries (tr : list AgentStreamEvent) (item : CanonicalItem) : Prop :=
  match item with
  | Reasoning _ thinking signature encrypted => thinking = glue any_reasoning tr ∧ signature = None ∧ encrypted = None
  | _ => item_carries tr item
  end.

(** Every completed item of [tr], at its completion. *)
Definition all_carried (carries : list AgentStreamEvent → CanonicalItem → Prop) (tr : list AgentStreamEvent) : Prop :=
  ∀ before turn_id item after, tr = before ++ EvItemCompleted turn_id item :: after → carries before item.

Lemma carried_snoc carries tr ev :
  all_carried carries tr → (∀ turn_id item, ev = EvItemCompleted turn_id item → carries tr item) →
  all_carried carries (tr ++ [ev]).
Proof.
  intros Ha Hev before turn_id item after Heq. destruct after as [|ev' after _] using rev_ind.
  - apply app_inj_tail in Heq as [-> ->]. by eapply Hev.
  - rewrite app_comm_cons, app_assoc in Heq. apply app_inj_tail in Heq as [-> _]. by eapply Ha.
Qed.

End carried.

(** ** Anthropic *)

Section anthropic.
Context `{AdapterExternals}.
Variables (turn_id thread_id : string) (new_item_id : nat → string).
Hypothesis (ids_distinct : Inj (=) (=) new_item_id).
Implicit Types (tr : list AgentStreamEvent) (s : AnthropicState).

(** The buffers hold the deltas of the current item. *)
Record Buffered tr s : Prop := {
  bf_id : ∃ n, as_fresh s = S n ∧ as_item_id s = new_item_id n;
  bf_text : as_text s = glue (text_delta (as_item_id s)) tr;
  bf_thinking : as_thinking s = glue (reasoning_delta (as_item_id s)) tr;
  bf_signature : as_signature s = glue (signature_delta (as_item_id s)) tr;
  bf_args : as_tool_args s = glue (arguments_delta (as_item_id s)) tr;
  bf_known : ∀ id, id ∈ delta_items tr → ∃ n, n < as_fresh s ∧ id = new_item_id n;
}.
Definition AInv tr s : Prop := all_carried item_carries tr ∧ Buffered tr s.

(** An assignment that leaves the item and its buffers alone *)
Definition same_buffers s s' : Prop :=
  as_fresh s' = as_fresh s ∧ as_item_id s' = as_item_id s ∧ as_text s' = as_text s ∧ as_thinking s' = as_thinking s
  ∧ as_signature s' = as_signature s ∧ as_tool_args s' = as_tool_args s.

Lemma buffered_same tr s s' : Buffered tr s → same_buffers s s' → Buffered tr s'.
Proof. intros [H1 H2 H3 H4 H5 H6] (E1 & E2 & E3 & E4 & E5 & E6). split; rewrite ?E1, ?E2, ?E3, ?E4, ?E5, ?E6; done. Qed.

(** An event that is no delta *)
Lemma buffered_snoc tr s ev : Buffered tr s → delta_item ev = None → Buffered (tr ++ [ev]) s.
Proof.
  intros [H1 H2 H3 H4 H5 H6] Hev. split; rewrite ?delta_items_snoc, ?Hev, ?app_nil_r; try done;
    rewrite glue_skip; try done; by destruct ev.
Qed.

Lemma ainv_same tr s s' : AInv tr s → same_buffers s s' → AInv tr s'.
Proof. intros [Hc Hb] Hs. split; [done|by eapply buffered_same]. Qed.

Lemma ainv_started tr s s' t i k p : AInv tr s → same_buffers s s' → AInv (tr ++ [EvItemStarted t i k p]) s'.
Proof.
  intros [Hc Hb] Hs. split; [by apply carried_snoc|]. apply buffered_snoc; [by eapply buffered_same|done].
Qed.

Lemma ainv_open tr s : AInv tr s → AInv tr (open_block new_item_id s).
Proof.
  intros [Hc [(n & Hn & _) _ _ _ _ Hk]]. split; [done|].
  assert (new_item_id (as_fresh s) ∉ delta_items tr) as Hnew.
  { intros (m & Hm & Heq%(inj new_item_id))%Hk. lia. }
  split; simpl; try (symmetry; apply glue_foreign; [|done]; apply own_delta; tauto).
  - eauto.
  - intros id (m & Hm & ->)%Hk. exists m. split; [lia|done].
Qed.

(** A delta of the current item *)
Lemma ainv_known tr s ev :
  Buffered tr s → delta_item ev = Some (as_item_id s) →
  ∀ id, id ∈ delta_items (tr ++ [ev]) → ∃ n, n < as_fresh s ∧ id = new_item_id n.
Proof.
  intros [(n & Hn & Hid) _ _ _ _ Hk] Hev id. rewrite delta_items_snoc, Hev, elem_of_app. simpl.
  intros [?| ->%list_elem_of_singleton]; [by apply Hk|]. exists n. split; [lia|done].
Qed.

Lemma model_id_same (id : string) : (id == id) = true.
Proof. by apply bool_decide_eq_true. Qed.

Ltac ainv_delta :=
  intros [Hc Hb]; split; [by apply carried_snoc|]; pose proof Hb as [H1 H2 H3 H4 H5 H6];
  split; simpl; [done|..|by apply ainv_known];
  rewrite glue_snoc; simpl; rewrite ?model_id_same; simpl; rewrite ?string_app_nil_r; congruence.

Lemma ainv_text tr s t d : AInv tr s → AInv (tr ++ [EvTextDelta t (as_item_id s) d]) (push_text d s).
Proof. ainv_delta. Qed.
Lemma ainv_thinking tr s t d : AInv tr s → AInv (tr ++ [EvReasoningDelta t (as_item_id s) d]) (push_thinking d s).
Proof. ainv_delta. Qed.
Lemma ainv_signature tr s t d : AInv tr s → AInv (tr ++ [EvReasoningSignature t (as_item_id s) d]) (push_signature d s).
Proof. ainv_delta. Qed.
Lemma ainv_args tr s t c d : AInv tr s → AInv (tr ++ [EvToolCallDelta t (as_item_id s) c d]) (push_tool_args d s).
Proof. ainv_delta. Qed.

Lemma block_item_carries tr s item : Buffered tr s → block_item s = Some item → item_carries tr item.
Proof.
  intros [H1 H2 H3 H4 H5 H6]. unfold block_item.
  destruct (_ == "text"); [|destruct (_ == "thinking"); [|destruct (_ == "tool_use"); [|done]]]; intros [= <-]; simpl.
  - by rewrite H2.
  - by rewrite H3, <-H4.
  - done.
Qed.

Notation anthropic_wp := (wp (S := AnthropicState) (all_carried item_carries) (λ tr _, all_carried item_carries tr)).

Lemma ainv_carried tr s : AInv tr s → all_carried item_carries tr.
Proof. by intros [? _]. Qed.
Hint Resolve ainv_carried ainv_text ainv_thinking ainv_signature ainv_args : whale.

Lemma content_block_start_carries parsed tr s :
  AInv tr s → anthropic_wp (content_block_start turn_id new_item_id parsed) (λ _, AInv) tr s.
Proof.
  intros Hi. pose proof (ainv_open _ _ Hi) as Ho. unfold content_block_start. wp_auto.
  - by eapply ainv_started.
  - by eapply ainv_started.
  - eapply ainv_started; [exact Ho|]. destruct (str_at "name" v), (str_at "id" v); done.
  - by eapply ainv_same.
Qed.

Lemma content_block_stop_carries tr s :
  AInv tr s → anthropic_wp (content_block_stop turn_id) (λ _, AInv) tr s.
Proof.
  intros [Hc Hb]. assert (Buffered tr (set_block_open false s)) as Hb' by (by eapply buffered_same).
  unfold content_block_stop. wp_auto; [|done].
  split; [|by apply buffered_snoc]. apply carried_snoc; [done|]. intros t item [= <- <-]. by eapply block_item_carries.
Qed.

Lemma anthropic_event_carries data tr s :
  AInv tr s → anthropic_wp (anthropic_event turn_id thread_id new_item_id data) (λ _, AInv) tr s.
Proof.
  intros Hi. pose proof (proj1 Hi) as Hc.
  assert (∀ ev, (∀ t i, ev ≠ EvItemCompleted t i) → all_carried item_carries (tr ++ [ev])) as Hsnoc.
  { intros ev Hev. apply carried_snoc; [done|]. intros t i ->. by destruct (Hev t i). }
  unfold anthropic_event. repeat (wp_run; wp_case); wp_run; try done.
  - unfold message_start. wp_auto. by eapply ainv_same.
  - by apply content_block_start_carries.
  - unfold content_block_delta. wp_auto.
  - by apply content_block_stop_carries.
  - unfold message_delta. wp_auto; first [by apply Hsnoc|by eapply ainv_same].
  - unfold message_stop. wp_auto; by apply Hsnoc.
  - unfold stream_error. wp_run. by apply Hsnoc.
Qed.

Lemma anthropic_carries stream :
  all_carried item_carries (ok_events (anthropic_parse_stream turn_id thread_id new_item_id stream)).
Proof.
  apply (stream_keeps (all_carried item_carries)). unfold anthropic_block. wp_run. apply (wp_drain _ _ _ _ _ AInv).
  - intros. by apply anthropic_event_carries.
  - by intros ??? [? _].
  - split.
    + apply carried_snoc; [|done]. intros before ??? Heq. by destruct before.
    + split; simpl; try done; [by exists 0|]. intros id Hid. by apply elem_of_nil in Hid.
Qed.
End anthropic.

(** ** Chat Completions *)

Section chat.
Context `{AdapterExternals}.
Variables (turn_id thread_id : string) (new_item_id : nat → string).
Hypothesis (ids_distinct : Inj (=) (=) new_item_id).
Implicit Types (tr : list AgentStreamEvent) (s : ChatState).

(** The identifier has been drawn. *)
Definition drawn s (id : string) : Prop := ∃ n, n < cs_fresh s ∧ id = new_item_id n.

Record CBuffered tr s : Prop := {
  cbf_reasoning : cs_reasoning s = glue any_reasoning tr;
  cbf_text : ∀ id : string, cs_text_id s = Some id → drawn s id ∧ cs_text s = glue (text_delta id) tr;
  cbf_no_text : cs_text_id s = None → cs_finished s = false → cs_text s = "";
  cbf_calls : ∀ i e, cs_calls s !! i = Some e →
    drawn s (cb_item_id e) ∧ cb_args e = glue (arguments_delta (cb_item_id e)) tr;
  cbf_distinct : ∀ i j e e', cs_calls s !! i = Some e → cs_calls s !! j = Some e' →
    cb_item_id e = cb_item_id e' → i = j;
  cbf_known : ∀ id, id ∈ delta_items tr → drawn s id;
  cbf_rid : ∀ id : string, cs_reasoning_id s = Some id → drawn s id;
}.
Definition CInv tr s : Prop := all_carried chat_item_carries tr ∧ CBuffered tr s.
Definition COpen tr s : Prop := CInv tr s ∧ cs_finished s = false.

Lemma drawn_later s s' id : drawn s id → cs_fresh s <= cs_fresh s' → drawn s' id.
Proof. intros (n & Hn & ->) Hle. exists n. split; [lia|done]. Qed.

(** The next identifier has streamed nothing. *)
Lemma new_streams_nothing tr s f :
  CBuffered tr s → f = text_delta ∨ f = reasoning_delta ∨ f = signature_delta ∨ f = arguments_delta →
  glue (f (new_item_id (cs_fresh s))) tr = "".
Proof.
  intros [_ _ _ _ _ Hk _] Hf. apply glue_foreign; [by apply own_delta|].
  intros (n & Hn & Heq%(inj new_item_id))%Hk. lia.
Qed.

(** An event that is no delta *)
Lemma cbuffered_snoc tr s ev : CBuffered tr s → delta_item ev = None → CBuffered (tr ++ [ev]) s.
Proof.
  intros [H1 H2 H3 H4 H5 H6 H7] Hev.
  split; rewrite ?delta_items_snoc, ?Hev, ?app_nil_r; try done.
  - rewrite glue_skip; [done|by destruct ev].
  - intros id Hid. destruct (H2 _ Hid). rewrite glue_skip; [done|by destruct ev].
  - intros i e He. destruct (H4 _ _ He). rewrite glue_skip; [done|by destruct ev].
Qed.

Lemma cinv_started tr s t i k p : CInv tr s → CInv (tr ++ [EvItemStarted t i k p]) s.
Proof. intros [Hc Hb]. split; [by apply carried_snoc|by apply cbuffered_snoc]. Qed.

Lemma cinv_completed tr s t item : CInv tr s → chat_item_carries tr item → CInv (tr ++ [EvItemCompleted t item]) s.
Proof. intros [Hc Hb] Hi. split; [|by apply cbuffered_snoc]. apply carried_snoc; [done|]. by intros ?? [= <- <-]. Qed.

(** A reasoning delta *)
Lemma cinv_reasoning tr s s' (id d : string) :
  CInv tr s → drawn s' id → cs_reasoning_id s' = Some id → cs_fresh s <= cs_fresh s' → cs_text_id s' = cs_text_id s → cs_text s' = cs_text s →
  cs_calls s' = cs_calls s → cs_finished s' = cs_finished s → cs_reasoning s' = cs_reasoning s +:+ d →
  CInv (tr ++ [EvReasoningDelta turn_id id d]) s'.
Proof.
  intros [Hc [H1 H2 H3 H4 H5 H6 H7]] Hid E0 Hle E1 E2 E3 E4 E5. split; [by apply carried_snoc|].
  split; rewrite ?E0, ?E1, ?E2, ?E3, ?E4, ?E5; try done.
  - by rewrite glue_snoc, H1.
  - intros i Hi. destruct (H2 _ Hi). rewrite glue_skip by done. split; [by eapply drawn_later|done].
  - intros i e He. destruct (H4 _ _ He). rewrite glue_skip by done. split; [by eapply drawn_later|done].
  - intros i. rewrite delta_items_snoc, elem_of_app. simpl.
    intros [?| ->%list_elem_of_singleton]; [eapply drawn_later; eauto|done].
  - by intros ? [= <-].
Qed.

(** A text delta *)
Lemma cinv_text tr s s' (id d : string) :
  CInv tr s → drawn s' id → cs_fresh s <= cs_fresh s' → cs_text_id s' = Some id →
  cs_text s = glue (text_delta id) tr → cs_calls s' = cs_calls s → cs_text s' = cs_text s +:+ d →
  cs_reasoning s' = cs_reasoning s → cs_reasoning_id s' = cs_reasoning_id s →
  CInv (tr ++ [EvTextDelta turn_id id d]) s'.
Proof.
  intros [Hc [H1 H2 H3 H4 H5 H6 H7]] Hid Hle E1 E2 E3 E4 E5 E6. split; [by apply carried_snoc|].
  split; rewrite ?E1, ?E3, ?E4, ?E5, ?E6; try done.
  - by rewrite glue_skip.
  - intros i [= <-]. split; [done|]. rewrite glue_snoc. simpl. rewrite bool_decide_true by done. simpl. by rewrite E2.
  - intros i e He. destruct (H4 _ _ He). rewrite glue_skip by done. split; [by eapply drawn_later|done].
  - intros i. rewrite delta_items_snoc, elem_of_app. simpl.
    intros [?| ->%list_elem_of_singleton]; [eapply drawn_later; eauto|done].
  - intros i Hi. eapply drawn_later; eauto.
Qed.

(** A new call *)
Lemma cinv_call_new tr s i e :
  CInv tr s → cs_calls s !! i = None → cb_item_id e = new_item_id (cs_fresh s) → cb_args e = "" →
  CInv tr (set_calls (<[i := e]> (cs_calls s)) (set_fresh_id (1 + cs_fresh s) s)).
Proof.
  intros [Hc Hb] Hi Hid Ha. pose proof (new_streams_nothing _ _ _ Hb (or_intror (or_intror (or_intror eq_refl)))) as Hnew.
  destruct Hb as [H1 H2 H3 H4 H5 H6 H7]. split; [done|].
  assert (∀ id, drawn s id → drawn (set_calls (<[i := e]> (cs_calls s)) (set_fresh_id (1 + cs_fresh s) s)) id) as Hlater.
  { intros id Hd. eapply drawn_later; [done|simpl; lia]. }
  assert (∀ j e', cs_calls s !! j = Some e' → cb_item_id e' ≠ cb_item_id e) as Hother.
  { intros j e' He' Heq. destruct (H4 _ _ He') as [(n & Hn & Heq') _]. rewrite Heq, Hid in Heq'.
    apply (inj new_item_id) in Heq'. lia. }
  split; simpl; [done| |done| | |by auto|by auto].
  - intros id Ht. destruct (H2 _ Ht). auto.
  - intros j e' [[<- <-]|[_ He']]%lookup_insert_Some.
    + split; [exists (cs_fresh s); simpl; by split; [lia|]|]. by rewrite Ha, Hid, Hnew.
    + destruct (H4 _ _ He'). auto.
  - intros j k e1 e2 [[<- <-]|[_ Hj]]%lookup_insert_Some [[<- <-]|[_ Hk]]%lookup_insert_Some Heq; try done.
    + by destruct (Hother _ _ Hk).
    + by destruct (Hother _ _ Hj).
    + by eapply H5.
Qed.

(** A call that streams [d], which is an event unless it is empty *)
Lemma cinv_call_more tr s i e e' d evs :
  CInv tr s → cs_calls s !! i = Some e → cb_item_id e' = cb_item_id e → cb_args e' = cb_args e +:+ d →
  (evs = [] ∧ d = "" ∨ ∃ call_id, evs = [EvToolCallDelta turn_id (cb_item_id e) call_id d]) →
  CInv (tr ++ evs) (set_calls (<[i := e']> (cs_calls s)) s).
Proof.
  intros [Hc [H1 H2 H3 H4 H5 H6 H7]] He Hid Ha Hevs.
  assert (∀ f, (∀ ev, f ev ≠ None → ∃ t i d, ev = EvTextDelta t i d ∨ ev = EvReasoningDelta t i d) →
    glue f (tr ++ evs) = glue f tr) as Hskip.
  { intros f Hf. destruct Hevs as [[-> _]|[c ->]]; [by rewrite app_nil_r|]. apply glue_skip.
    destruct (f _) eqn:E; [|done]. edestruct Hf as (? & ? & ? & [?|?]); [by erewrite E|done..]. }
  assert (∀ id, glue (arguments_delta id) (tr ++ evs)
      = glue (arguments_delta id) tr +:+ (if id == cb_item_id e then d else "")) as Hargs.
  { intros id. destruct Hevs as [[-> ->]|[c ->]].
    - rewrite app_nil_r. by case_bool_decide; rewrite string_app_nil_r.
    - rewrite glue_snoc. simpl. f_equal. case_bool_decide as E1; case_bool_decide as E2; simpl; congruence. }
  split.
  { destruct Hevs as [[-> _]|[c ->]]; [by rewrite app_nil_r|by apply carried_snoc]. }
  split; simpl.
  - rewrite Hskip; [done|]. intros []; simpl; naive_solver.
  - intros id Ht. destruct (H2 _ Ht). rewrite Hskip; [done|]. intros []; simpl; naive_solver.
  - done.
  - intros j e1 [[<- <-]|[Hne He1]]%lookup_insert_Some.
    + destruct (H4 _ _ He) as [Hd Hb]. rewrite Hid, Hargs, bool_decide_true by done. split; [done|]. by rewrite Ha, Hb.
    + destruct (H4 _ _ He1) as [Hd Hb]. rewrite Hargs, bool_decide_false; [by rewrite string_app_nil_r|].
      intros Heq. by apply Hne, (H5 i j e e1).
  - intros j k e1 e2 [[<- <-]|[_ Hj]]%lookup_insert_Some [[<- <-]|[_ Hk]]%lookup_insert_Some; rewrite ?Hid; eauto.
  - intros id. destruct (H4 _ _ He) as [Hd _]. destruct Hevs as [[-> _]|[c ->]].
    + rewrite app_nil_r. apply H6.
    + rewrite delta_items_snoc, elem_of_app. simpl. intros [?| ->%list_elem_of_singleton]; [by apply H6|done].
  - done.
Qed.

(** An item that is no longer in progress *)
Lemma cinv_forget tr s s' :
  CInv tr s → cs_fresh s' = cs_fresh s → cs_text s' = cs_text s → cs_reasoning s' = cs_reasoning s →
  (∀ i e, cs_calls s' !! i = Some e → cs_calls s !! i = Some e) →
  cs_reasoning_id s' = cs_reasoning_id s ∨ cs_reasoning_id s' = None →
  (cs_text_id s' = cs_text_id s ∧ (cs_finished s' = false → cs_finished s = false))
  ∨ (cs_text_id s' = None ∧ cs_finished s' = true) →
  CInv tr s'.
Proof.
  intros [Hc [H1 H2 H3 H4 H5 H6 H7]] E1 E2 E3 E4 E5 E6. split; [done|].
  assert (∀ id, drawn s id → drawn s' id) as Hd by (intros id ?; eapply drawn_later; [done|lia]).
  split; rewrite ?E2, ?E3; auto.
  - destruct E6 as [[-> _]|[-> _]]; [|done]. intros id Hid. destruct (H2 _ Hid). auto.
  - destruct E6 as [[-> Hf]|[_ Hf]]; [auto|congruence].
  - intros i e He. destruct (H4 i e); auto.
  - intros i j e e' He He'. apply (H5 i j e e'); auto.
  - destruct E5 as [->| ->]; [auto|done].
Qed.

(** *** The blocks *)

Notation chat_wp :=
  (wp (S := ChatState) (all_carried chat_item_carries) (λ tr _, all_carried chat_item_carries tr)).

Lemma chat_reasoning_carries d tr s :
  COpen tr s → chat_wp (chat_reasoning turn_id new_item_id d) (λ _, COpen) tr s.
Proof.
  intros [Hi Hf]. unfold chat_reasoning. wp_case; [|by wp_run]. wp_case; [by wp_run|]. unfold draw_id. wp_run.
  destruct (cs_reasoning_id s) as [id|] eqn:Hid; wp_run.
  - pose proof (cbf_rid _ _ (proj2 Hi) _ Hid) as Hd.
    wp_case; wp_run; (split; [|done]); (eapply cinv_reasoning; [first [by apply cinv_started|exact Hi]|done..]).
  - assert (drawn (set_fresh_id (1 + cs_fresh s) s) (new_item_id (cs_fresh s))) as Hd
      by (exists (cs_fresh s); simpl; by split; [lia|]).
    wp_case; wp_run; (split; [|done]);
      (eapply cinv_reasoning; [first [by apply cinv_started|exact Hi]|done|done|simpl; lia|done..]).
Qed.

Lemma complete_reasoning_carries b tr s :
  CInv tr s → cs_finished s = b →
  chat_wp (complete_reasoning turn_id) (λ _ tr' s', CInv tr' s' ∧ cs_finished s' = b) tr s.
Proof.
  intros Hi Hf. unfold complete_reasoning. wp_auto. split; [|done]. apply cinv_completed.
  - eapply cinv_forget; eauto.
  - simpl. split_and!; [|done|done]. by rewrite (cbf_reasoning _ _ (proj2 Hi)).
Qed.

Lemma complete_text_carries tr s :
  CInv tr s → cs_finished s = true →
  chat_wp (complete_text turn_id) (λ _ tr' s', CInv tr' s' ∧ cs_finished s' = true) tr s.
Proof.
  intros Hi Hf. unfold complete_text. wp_auto. split; [|done]. apply cinv_completed.
  - eapply cinv_forget; eauto.
  - simpl. by destruct (cbf_text _ _ (proj2 Hi) _ Heqo) as [_ ->].
Qed.

Lemma complete_call_carries i tr s :
  CInv tr s → chat_wp (complete_call turn_id i) (λ _, CInv) tr s.
Proof.
  intros Hi. unfold complete_call. wp_auto. apply cinv_completed.
  - eapply cinv_forget; eauto. simpl. by intros j e [_ He]%lookup_delete_Some.
  - destruct (cbf_calls _ _ (proj2 Hi) _ _ Heqo) as [_ Ha]. simpl. by split.
Qed.

Lemma chat_content_carries d tr s :
  COpen tr s → chat_wp (chat_content turn_id new_item_id d) (λ _, COpen) tr s.
Proof.
  intros [Hi Hf]. unfold chat_content. wp_case; [|by wp_run]. wp_case; [by wp_run|].
  wp_use (complete_reasoning_carries false) as [] tr1 s1 [Hi1 Hf1]. unfold draw_id. wp_run.
  destruct (cs_text_id s1) as [id|] eqn:Hid; wp_run.
  - destruct (cbf_text _ _ (proj2 Hi1) _ Hid) as [Hd Ht].
    wp_case; wp_run; (split; [|done]); (eapply cinv_text; [first [by apply cinv_started|exact Hi1]|done|done|done| |done..]);
      rewrite ?glue_skip by done; done.
  - assert (drawn (set_fresh_id (1 + cs_fresh s1) s1) (new_item_id (cs_fresh s1))) as Hd
      by (exists (cs_fresh s1); simpl; by split; [lia|]).
    pose proof (cbf_no_text _ _ (proj2 Hi1) Hid Hf1) as Hempty.
    pose proof (new_streams_nothing _ _ _ (proj2 Hi1) (or_introl eq_refl)) as Hnew.
    rewrite Hempty. wp_run. split; [|done].
    eapply cinv_text; [by apply cinv_started|done|simpl; lia|done| |done..].
    by rewrite glue_skip, Hempty, Hnew.
Qed.

(** The end of the round for one call: the entry with what the chunk adds. *)
Lemma call_chunk_carries tr s s' i e e' call_id chunk :
  CInv tr s → cs_finished s = false → cs_calls s !! i = Some e →
  cb_item_id e' = cb_item_id e → cb_args e' = cb_args e +:+ chunk → s' = set_calls (<[i := e']> (cs_calls s)) s →
  chat_wp (if str_is_empty chunk then mret () else yield (EvToolCallDelta turn_id (cb_item_id e') call_id chunk))
    (λ _, COpen) tr s'.
Proof.
  intros Hi Hf He Hid Ha ->. wp_case; wp_run; (split; [|done]).
  - rewrite <-(app_nil_r tr). eapply cinv_call_more; [done..|]. left. split; [done|by destruct chunk].
  - rewrite Hid. eapply cinv_call_more; [done..|]. eauto.
Qed.

Lemma chat_tool_call_carries tc tr s :
  COpen tr s → chat_wp (chat_tool_call turn_id new_item_id tc) (λ _, COpen) tr s.
Proof.
  intros [Hi Hf]. unfold chat_tool_call, draw_id. wp_run.
  set (index := default 0%N (u64_at "index" tc)). set (chunk := default "" _).
  destruct (cs_calls s !! index) as [e|] eqn:He; wp_run.
  - by eapply call_chunk_carries.
  - set (e0 := {| cb_item_id := new_item_id (cs_fresh s); cb_call_id := ""; cb_name := ""; cb_args := "" |}).
    eapply (call_chunk_carries _ _ _ index e0); [by apply (cinv_call_new tr s index e0)|done| | |done|].
    + simpl. by rewrite lookup_insert_eq.
    + done.
    + unfold set_calls. simpl. by rewrite insert_insert_eq.
Qed.

Lemma chat_delta_carries d tr s :
  COpen tr s → chat_wp (chat_delta turn_id new_item_id d) (λ _, COpen) tr s.
Proof.
  intros Hr. unfold chat_delta. wp_use chat_reasoning_carries as [] tr1 s1 Hr1.
  wp_use chat_content_carries as [] tr2 s2 Hr2. apply wp_for; auto using chat_tool_call_carries.
Qed.

Lemma carried_failed tr code message :
  all_carried chat_item_carries tr → all_carried chat_item_carries (tr ++ [EvTurnFailed turn_id thread_id code message]).
Proof. intros. by apply carried_snoc. Qed.

Lemma chat_finish_carries reason tr s :
  COpen tr s → chat_wp (chat_finish turn_id thread_id reason) (λ _, CInv) tr s.
Proof.
  intros [Hi Hf]. unfold chat_finish. wp_case; [|wp_run; by apply carried_failed, Hi].
  assert (CInv tr (set_finished true s)) as Hi'.
  { destruct Hi as [Hc []]. split; [done|]. by split. }
  wp_use (complete_reasoning_carries true) as [] tr1 s1 [Hi1 Hf1].
  wp_use complete_text_carries as [] tr2 s2 [Hi2 Hf2].
  wp_run. apply wp_for; auto using complete_call_carries.
Qed.

Lemma chat_choice_carries choice tr s :
  COpen tr s → chat_wp (chat_choice turn_id thread_id new_item_id choice) (λ _, CInv) tr s.
Proof.
  intros Hr. unfold chat_choice. wp_run. apply (wp_mono _ _ _ (λ _, COpen)).
  - intros [] tr' s' Hr'. destruct (str_at "finish_reason" choice); [by apply chat_finish_carries|].
    wp_run. apply Hr'.
  - wp_case; [by apply chat_delta_carries|by wp_run].
Qed.

Lemma chat_event_carries data tr s :
  CInv tr s → chat_wp (chat_event turn_id thread_id new_item_id data) (λ _, CInv) tr s.
Proof.
  intros Hi. pose proof (proj1 Hi) as Hc.
  assert (∀ u, CInv tr (set_chat_usage u s)) as Hu by (intros u; destruct Hi as [? []]; split; [done|by split]).
  unfold chat_event, chat_chunk, chat_error. wp_auto; try apply Hu; [by apply carried_failed|].
  wp_use chat_choice_carries as [] tr' s' Hr'; [by wp_run|].
  apply reject_if_Ok in Heqr0. by split.
Qed.

Lemma chat_carries stream :
  all_carried chat_item_carries
    (ok_events (stream_of (chat_block turn_id thread_id new_item_id stream) chat_state_new)).
Proof.
  apply (stream_keeps (all_carried chat_item_carries)). unfold chat_block. wp_run.
  eapply wp_mono; [|apply (wp_while _ _ _ _ CInv CInv)].
  - intros [] tr s [Hr _]. wp_auto. by apply carried_snoc.
  - intros data tr s _ Hr. eapply wp_mono; [|by apply chat_event_carries]. by intros [].
  - by intros ? ? ? [? _].
  - done.
  - split.
    + apply carried_snoc; [|done]. intros before ??? Heq. by destruct before.
    + split; simpl; try done; intros; try (by apply elem_of_nil in H0); simplify_map_eq.
Qed.
End chat.
