(* ===== verification/AdapterRequests.v ===== *)
(** * What the requests say

    The messages that a conversation becomes for the three providers: Anthropic gets
    alternating messages with every block in order, Chat Completions one message per
    item with each run of calls in one message, and an item that came from Responses is
    replayed as what it was. *)

From S2P Require Import Prelude Protocol StoreState CoreContext CoreSession ModelStep Adapters AnthropicAdapter ResponsesAdapter ChatAdapter ResponsesLaws.

Section anthropic.
Context `{AdapterExternals}.
Implicit Types (groups : list (string * list Value)) (blocks : list Value).

(** A message of one role *)
Definition message_of (g : string * list Value) : Value :=
  Object {["role" := Str g.1; "content" := Array g.2]}.

(** What an item says, block by block, with the role that says it *)
Definition item_blocks (item : CanonicalItem) : list (string * Value) :=
  match item with
  | UserMessage _ content => pair "user" <$> omap user_block content
  | AssistantMessage _ content _ => pair "assistant" <$> omap assistant_block content
  | Reasoning _ thinking signature _ => [("assistant", thinking_block thinking signature)]
  | ToolCall _ call_id _ name arguments raw => [("assistant", tool_use_block call_id name arguments raw)]
  | ToolResult _ call_id output is_error => [("user", tool_result_block call_id output is_error)]
  end.
(** The blocks that an item has to say *)
Definition item_parts (item : CanonicalItem) : nat :=
  match item with
  | UserMessage _ content | AssistantMessage _ content _ => length content
  | _ => 1
  end.

(** Two neighbours have different roles. *)
Fixpoint alternating (roles : list string) : Prop :=
  match roles with
  | r1 :: (r2 :: _) as l => r1 ≠ r2 ∧ alternating l
  | _ => True
  end.

Definition group_blocks (g : string * list Value) : list (string * Value) := pair g.1 <$> g.2.

Lemma message_role g : str_at "role" (message_of g) = Some g.1.
Proof. reflexivity. Qed.
Lemma message_content g : get "content" (message_of g) ≫= as_array = Some g.2.
Proof. reflexivity. Qed.
Lemma message_set_content g blocks : set_key "content" (Array blocks) (message_of g) = message_of (g.1, blocks).
Proof. reflexivity. Qed.

(** Merging in terms of the groups *)
Definition push_group groups (role : string) blocks : list (string * list Value) :=
  match last groups with
  | Some g => if g.1 == role then update_last (λ g, (g.1, g.2 ++ blocks)) groups else groups ++ [(role, blocks)]
  | None => groups ++ [(role, blocks)]
  end.

Lemma fmap_update_last {A B} (g : A → B) (f : A → A) (f' : B → B) l :
  (∀ x, g (f x) = f' (g x)) → g <$> update_last f l = update_last f' (g <$> l).
Proof.
  intros Hg. destruct l as [|x l _] using rev_ind; [done|].
  rewrite update_last_snoc, !fmap_app. simpl. by rewrite update_last_snoc, Hg.
Qed.

Lemma push_or_merge_groups groups role blocks :
  push_or_merge_message (message_of <$> groups) role blocks = message_of <$> push_group groups role blocks.
Proof.
  unfold push_or_merge_message, push_group. destruct groups as [|g groups _] using rev_ind; [done|].
  rewrite fmap_app. simpl. rewrite !last_snoc, message_role, message_content.
  replace (Some g.1 == Some role) with (g.1 == role) by (apply bool_decide_ext; naive_solver).
  destruct (g.1 == role).
  - rewrite !update_last_snoc, fmap_app. reflexivity.
  - rewrite !fmap_app. done.
Qed.

(** What the groups keep: nobody speaks twice in a row, and no message is empty. *)
Definition Good groups : Prop := alternating groups.*1 ∧ Forall (λ g, g.2 ≠ []) groups.

Lemma alternating_snoc l r : alternating l → last l ≠ Some r → alternating (l ++ [r]).
Proof.
  induction l as [|r1 [|r2 l] IH]; [done| |].
  - simpl. intros _ Hr. split; [congruence|done].
  - intros [Hne Hl] Hr. split; [done|]. apply IH; [done|]. done.
Qed.

Lemma push_group_good groups role blocks :
  Good groups → blocks ≠ [] →
  Good (push_group groups role blocks)
  ∧ push_group groups role blocks ≫= group_blocks = (groups ≫= group_blocks) ++ (pair role <$> blocks).
Proof.
  intros [Ha Hn] Hb. unfold push_group.
  destruct groups as [|g groups _] using rev_ind; simpl.
  { rewrite app_nil_r. repeat constructor. done. }
  apply Forall_app in Hn as [Hn [Hg _]%Forall_cons].
  assert (∀ g', (groups ++ [g']) ≫= group_blocks = (groups ≫= group_blocks) ++ group_blocks g') as Hbind.
  { intros g'. rewrite bind_app. simpl. by rewrite app_nil_r. }
  rewrite last_snoc. case_bool_decide as Hrole.
  - rewrite update_last_snoc, !Hbind. split; [split|].
    + by rewrite fmap_app in *.
    + apply Forall_app_2; [done|]. repeat constructor. by destruct (g.2).
    + unfold group_blocks. simpl. by rewrite fmap_app, Hrole, app_assoc.
  - split; [split|].
    + rewrite fmap_app. apply alternating_snoc; [done|]. rewrite fmap_app. simpl. rewrite last_snoc. congruence.
    + repeat (apply Forall_app_2; [|by repeat constructor]). done.
    + rewrite bind_app. simpl. by rewrite app_nil_r.
Qed.

(** One item of the history *)
Lemma push_item_groups groups item :
  Good groups → ∃ groups', push_item (message_of <$> groups) item = message_of <$> groups'
    ∧ Good groups' ∧ groups' ≫= group_blocks = (groups ≫= group_blocks) ++ item_blocks item.
Proof.
  intros Hg.
  assert (∀ role blocks, blocks ≠ [] → ∃ groups',
    push_or_merge_message (message_of <$> groups) role blocks = message_of <$> groups'
    ∧ Good groups' ∧ groups' ≫= group_blocks = (groups ≫= group_blocks) ++ (pair role <$> blocks)) as Hpush.
  { intros role blocks Hb. exists (push_group groups role blocks). split; [apply push_or_merge_groups|].
    by apply push_group_good. }
  destruct item as [id content|id content phase|id th sig enc|id cid ns name args raw|id cid out err]; simpl;
    try (by apply (Hpush _ [_])).
  - case_bool_decide as Hb; [|by apply Hpush]. exists groups. rewrite Hb. simpl. by rewrite app_nil_r.
  - case_bool_decide as Hb; [|by apply Hpush]. exists groups. rewrite Hb. simpl. by rewrite app_nil_r.
Qed.

Lemma push_items_groups history groups :
  Good groups → ∃ groups', foldl push_item (message_of <$> groups) history = message_of <$> groups'
    ∧ Good groups' ∧ groups' ≫= group_blocks = (groups ≫= group_blocks) ++ (history ≫= item_blocks).
Proof.
  revert groups. induction history as [|item history IH]; intros groups Hg; simpl.
  - exists groups. by rewrite app_nil_r.
  - destruct (push_item_groups groups item Hg) as (groups1 & -> & Hg1 & Hb1).
    destruct (IH _ Hg1) as (groups2 & -> & Hg2 & Hb2). exists groups2. by rewrite Hb2, Hb1, <-app_assoc.
Qed.

(** [cache_control] on the last block of the last group *)
Definition mark_group (g : string * list Value) : string * list Value :=
  (g.1, update_last (set_key "cache_control" ephemeral) g.2).

Lemma mark_message_group g : mark_message (message_of g) = message_of (mark_group g).
Proof. unfold mark_message. rewrite message_content. apply message_set_content. Qed.

(** *** Nothing of a valid conversation is left out *)

Lemma omap_all {A B} (f : A → option B) l : (∀ x, x ∈ l → is_Some (f x)) → length (omap f l) = length l.
Proof.
  induction l as [|x l IH]; intros Hf; csimpl; [done|]. destruct (Hf x) as [y ->]; [by left|].
  simpl. f_equal. apply IH. intros x' Hx. apply Hf. by right.
Qed.

Lemma check_content_ok supported position (content : list CanonicalContent) u :
  check_content supported position content = Ok u →
  ∀ c, c ∈ content → image_without_source c = false ∧ content_kind c ∈ supported.
Proof.
  unfold check_content. intros Hc. apply (fold_res_ind (λ done _, ∀ c, c ∈ done → _) _ _ _ _ Hc).
  - intros c Hin. by apply elem_of_nil in Hin.
  - intros finished c [] [] Hd _ Hb c' [?| ->%list_elem_of_singleton]%elem_of_app; [by apply Hd|].
    unfold check_block in Hb. inv_result. by inv_bool.
Qed.

Lemma valid_item_parts item u :
  check_item (http_capabilities "anthropic") () item = Ok u → length (item_blocks item) = item_parts item.
Proof.
  destruct item; intros Hc; simpl in *; try done; rewrite length_fmap; apply omap_all;
    intros c Hin; destruct (check_content_ok _ _ _ _ Hc _ Hin) as [Hi Hk]; destruct c as [?|? [?|] [?|]|? ? ?]; simpl in *;
    try done; set_solver.
Qed.

Lemma valid_items_parts history u :
  validate_capable_items history (http_capabilities "anthropic") = Ok u →
  Forall (λ item, length (item_blocks item) = item_parts item) history.
Proof.
  intros Hv. apply Forall_forall. revert Hv. unfold validate_capable_items. intros Hv.
  apply (fold_res_ind (λ finished _, ∀ item, item ∈ finished → length (item_blocks item) = item_parts item) _ _ _ _ Hv).
  - intros item Hin. by apply elem_of_nil in Hin.
  - intros finished item [] [] Hd _ Hb item' [?| ->%list_elem_of_singleton]%elem_of_app; [by apply Hd|].
    by eapply valid_item_parts.
Qed.
End anthropic.

(** ** Chat Completions: runs of calls *)

Section chat.
Context `{AdapterExternals}.

(** A message stands for one item, or for a run of calls. *)
Inductive ChatGroup :=
  | Single (item : CanonicalItem)
  | Run (call : CanonicalItem) (more : list CanonicalItem).

Definition group_items (g : ChatGroup) : list CanonicalItem :=
  match g with Single item => [item] | Run call more => call :: more end.
Definition group_message (g : ChatGroup) : Value :=
  match g with
  | Single item => chat_message item
  | Run call more =>
      Object {["role" := Str "assistant"; "tool_calls" := Array (chat_message <$> (call :: more))]}
  end.
Definition is_run (g : ChatGroup) : bool := match g with Run _ _ => true | Single _ => false end.
(** The items of a group are what the group says. *)
Definition proper_group (g : ChatGroup) : Prop :=
  match g with
  | Single item => is_tool_call item = false
  | Run call more => Forall (λ i, is_tool_call i = true) (call :: more)
  end.
(** No run is next to another: the runs are maximal. *)
Fixpoint runs_apart (groups : list ChatGroup) : Prop :=
  match groups with
  | g1 :: (g2 :: _) as l => is_run g1 && is_run g2 = false ∧ runs_apart l
  | _ => True
  end.

Lemma runs_apart_snoc groups g :
  runs_apart groups → is_run g = false ∨ from_option is_run false (last groups) = false → runs_apart (groups ++ [g]).
Proof.
  induction groups as [|g1 [|g2 groups] IH]; [done| |].
  - simpl. intros _ [->| ->]; by rewrite ?andb_false_r.
  - intros [Hne Hl] Hr. split; [done|]. by apply IH.
Qed.

(** Longer last runs are as far from the others. *)
Lemma runs_apart_last groups g g' : is_run g = is_run g' → runs_apart (groups ++ [g]) → runs_apart (groups ++ [g']).
Proof.
  intros Heq. induction groups as [|g1 [|g2 groups] IH]; [done| |].
  - simpl. by rewrite Heq.
  - intros [Hne Hl]. split; [done|]. by apply IH.
Qed.

(** What the loop has done: the messages after [system], and the open run. *)
Record Grouped (system : list Value) (finished : list CanonicalItem) (st : list Value * option nat) : Prop := {
  gr_groups : ∃ groups, st.1 = system ++ (group_message <$> groups) ∧ groups ≫= group_items = finished
    ∧ Forall proper_group groups ∧ runs_apart groups
    ∧ match st.2 with
      | Some index => S index = length st.1 ∧ from_option is_run false (last groups) = true
      | None => from_option is_run false (last groups) = false
      end;
}.

Lemma push_call_end messages message (calls : list Value) call :
  get "tool_calls" message ≫= as_array = Some calls →
  push_call (messages ++ [message]) (length messages) call
  = Some (messages ++ [set_key "tool_calls" (Array (calls ++ [call])) message]).
Proof.
  intros Hc. unfold push_call. rewrite list_lookup_middle by done.
  change (Some message ≫= ?f) with (f message). cbv beta. rewrite Hc.
  change (Some calls ≫= ?f) with (f calls). cbv beta. f_equal.
  by rewrite insert_app_r_alt, Nat.sub_diag by done.
Qed.

Lemma push_call_last messages call more item :
  push_call (messages ++ [group_message (Run call more)]) (length messages) (chat_message item)
  = Some (messages ++ [group_message (Run call (more ++ [item]))]).
Proof.
  rewrite (push_call_end _ _ (chat_message <$> (call :: more))) by reflexivity. simpl. by rewrite fmap_app.
Qed.

Lemma chat_step_groups system finished st item :
  Grouped system finished st → ∃ st', chat_step st item = Some st' ∧ Grouped system (finished ++ [item]) st'.
Proof.
  destruct st as [messages group]. intros [(groups & Hm & Hitems & Hp & Ha & Hg)]. simpl in *. unfold chat_step.
  destruct (is_tool_call item) eqn:Hcall.
  - destruct group as [index|].
    + destruct Hg as [Hi Hlast]. destruct groups as [|g groups _] using rev_ind; [done|].
      rewrite last_snoc in Hlast. destruct g as [|call more]; [done|]. subst messages.
      rewrite fmap_app, app_assoc in Hi |- *. rewrite length_app in Hi. simpl in Hi.
      change (group_message <$> [?g]) with [group_message g].
      replace index with (length (system ++ (group_message <$> groups))) by lia.
      rewrite push_call_last. simpl. eexists. split; [done|]. split. exists (groups ++ [Run call (more ++ [item])]). simpl.
      split_and!; [by rewrite (fmap_app group_message), app_assoc| | |by apply (runs_apart_last _ (Run call more))|by rewrite !length_app; simpl; lia|by rewrite last_snoc].
      * rewrite bind_app in *. simpl in *. rewrite app_nil_r in *. by rewrite <-Hitems, <-app_assoc.
      * apply Forall_app in Hp as [Hp [Hrun _]%Forall_cons]. apply Forall_app_2; [done|]. constructor; [|constructor].
        change (Forall (λ i, is_tool_call i = true) ((call :: more) ++ [item])).
        apply Forall_app_2; [done|]. by repeat constructor.
    + eexists. split; [done|]. split. exists (groups ++ [Run item []]). simpl.
      split_and!; [by rewrite fmap_app, app_assoc, Hm| | |apply runs_apart_snoc; auto|by rewrite !length_app; simpl; lia|by rewrite last_snoc].
      * by rewrite bind_app, Hitems.
      * apply Forall_app_2; [done|]. by repeat constructor.
  - eexists. split; [done|]. split. exists (groups ++ [Single item]). simpl.
    split_and!; [by rewrite fmap_app, app_assoc, Hm| | |apply runs_apart_snoc; auto|by rewrite last_snoc].
    + by rewrite bind_app, Hitems.
    + apply Forall_app_2; [done|]. by repeat constructor.
Qed.

Lemma chat_loop_groups system history finished st :
  Grouped system finished st → ∃ messages group, chat_loop st history = Some messages
    ∧ Grouped system (finished ++ history) (messages, group).
Proof.
  revert finished st. induction history as [|item history IH]; intros finished st Hg; simpl.
  - exists st.1, st.2. rewrite app_nil_r. by destruct st.
  - destruct (chat_step_groups _ _ _ item Hg) as (st' & -> & Hg'). simpl.
    destruct (IH _ _ Hg') as (messages & group & ? & Hg2). exists messages, group.
    rewrite <-app_assoc in Hg2. by split.
Qed.
End chat.

(** ** Responses: replay *)

Section responses.
Context `{AdapterExternals}.

Lemma map_res_texts parts content :
  map_res output_part parts = Ok content →
  ∃ texts, content = ContentText <$> texts ∧ map_res assistant_text_part content = Ok texts.
Proof.
  revert content. induction parts as [|part parts IH]; intros content Hc; simpl in Hc; inv_result.
  - by exists [].
  - match goal with Hr : map_res _ _ = Ok _ |- _ => destruct (IH _ Hr) as (texts & -> & Ht) end.
    match goal with Hp : output_part _ = Ok _ |- _ => unfold output_part, protocol in Hp end.
    inv_result. case_match; inv_result. eexists (_ :: texts). split; [done|]. simpl. by rewrite Ht.
Qed.

Lemma with_id_id id w : str_at "id" (set_key "id" (Str id) (Object w)) = Some id.
Proof. unfold str_at, set_key. simpl. by rewrite lookup_insert_eq. Qed.

(** The tests of [canonical] on the kind of an item *)
Lemma canonical_shape value item :
  canonical value = Ok item →
  match item with
  | Reasoning _ thinking signature _ => signature = None
  | ToolCall _ _ _ _ arguments raw => arguments = match from_str raw with Ok v => Some v | Err _ => None end
  | AssistantMessage _ content _ => ∃ texts, content = ContentText <$> texts ∧ map_res assistant_text_part content = Ok texts
  | _ => False
  end.
Proof.
  unfold canonical, protocol. intros Hc. apply bind_Ok in Hc as (id & _ & Hc). apply bind_Ok in Hc as (kind & _ & Hc).
  repeat case_match; inv_result; try done; [by eapply map_res_texts|..];
    by match goal with Hp : from_str _ = _ |- _ => rewrite Hp end.
Qed.

Lemma reasoning_reads_back id thinking encrypted :
  canonical (let value := Object {["id" := Str id; "type" := Str "reasoning";
    "summary" := Array (if str_is_empty thinking then []
                        else [Object {["type" := Str "summary_text"; "text" := Str thinking]}])]} in
    match encrypted with Some e => set_key "encrypted_content" (Str e) value | None => value end)
  = Ok (Reasoning id thinking None encrypted).
Proof. destruct thinking as [|c thinking], encrypted; reflexivity. Qed.

Lemma call_reads_back id call_id namespace name raw :
  canonical (set_key "id" (Str id)
    (let call := Object {["type" := Str "function_call"; "call_id" := Str call_id; "name" := Str name;
                          "arguments" := Str raw]} in
     match namespace with Some n => set_key "namespace" (Str n) call | None => call end))
  = Ok (ToolCall id call_id namespace name (match from_str raw with Ok v => Some v | Err _ => None end) raw).
Proof. destruct namespace; reflexivity. Qed.
End responses.
