(* ===== verification/Providers.v ===== *)
(** * Providers

    [crates/whale-core/src/provider.rs] (the choice of an adapter from a configuration
    and the registry of providers), [crates/whale-core/src/http_provider.rs] (the
    provider that sends requests over HTTP) and the provider types of
    [crates/whale-protocol/src/agents.rs]. *)

From stdpp Require Import pretty.
From S2P Require Import Prelude Protocol StoreState CoreContext CoreSession ModelStep Coordinator Engine Adapters AnthropicAdapter ChatAdapter.

(** ** [agents.rs] *)

Inductive ProviderApi := OpenaiChatCompletions | OpenaiResponses | AnthropicMessages.
#[export] Instance ProviderApi_eq_dec : EqDecision ProviderApi.
Proof. solve_decision. Defined.

Inductive ProviderAuth := AuthEnv (variable : string) | AuthNone.

Record ProviderConfig := {
  pc_api : ProviderApi;
  pc_base_url : option string;
  pc_auth : option ProviderAuth;
}.

(** ** [provider.rs]: [build_adapter] *)

(** What the [url] crate reads in a URL, and its text. *)
Record Url := {
  url_scheme : string;
  url_host : option string;
  url_username : string;
  url_password : option string;
  url_query : option string;
  url_fragment : option string;
  url_text : string;
}.

(** [Url::parse], and [std::env::var] of a variable that is set and Unicode. *)
Class ProviderExternals := {
  url_parse : string → option Url;
  env_var : string → option string;
}.

(** [to_lowercase] on the letters of ASCII: no other letter becomes one of "claude". *)
Definition lower_ascii (c : ascii) : ascii :=
  let n := nat_of_ascii c in if (65 <=? n) && (n <=? 90) then ascii_of_nat (n + 32) else c.
Fixpoint lower (s : string) : string :=
  match s with EmptyString => EmptyString | String c s => String (lower_ascii c) (lower s) end.
(** [contains] of a string and of a character *)
Definition contains_str (sub s : string) : bool := is_some (String.index 0 sub s).
Definition contains_char (c : ascii) (s : string) : bool := existsb (λ x, x == c) (list_ascii_of_string s).

Example lower_example : contains_str "claude" (lower "us.Claude-3") = true.
Proof. reflexivity. Qed.

Definition invalid_configuration {A} (message : string) : result CoreError A := Err (InvalidConfiguration message).

(** The family that a legacy provider name stands for. *)
Definition legacy_family (legacy_provider : option string) : result CoreError (option string) :=
  match legacy_provider with
  | None => Ok None
  | Some p =>
      if p == "openai" then Ok (Some "openai")
      else if p == "anthropic" then Ok (Some "anthropic")
      else invalid_configuration ("Unknown provider '" +:+ p +:+ "'")
  end.

Definition infer_api (model : string) (family : option string) (config : option ProviderConfig) : ProviderApi :=
  match config with
  | Some config => pc_api config
  | None =>
      let family := default (if contains_str "claude" (lower model) then "anthropic" else "openai") family in
      if family == "anthropic" then AnthropicMessages else OpenaiChatCompletions
  end.

(** The family, the default base URL and the conventional variable of an interface. *)
Definition api_defaults (api : ProviderApi) : string * string * string :=
  match api with
  | AnthropicMessages => ("anthropic", "https://api.anthropic.com/v1", "ANTHROPIC_API_KEY")
  | OpenaiChatCompletions | OpenaiResponses => ("openai", "https://api.openai.com/v1", "OPENAI_API_KEY")
  end.

Definition bad_url (base_url : string) (url : Url) : bool :=
  (trim base_url != base_url) || negb (bool_decide (url_scheme url ∈ ["http"; "https"])) || negb (is_some (url_host url))
  || negb (str_is_empty (url_username url)) || is_some (url_password url) || is_some (url_query url)
  || is_some (url_fragment url).

Definition bad_variable (variable : string) : bool :=
  str_is_empty variable || contains_char "="%char variable || contains_char (ascii_of_nat 0) variable.

Section build.
Context `{AdapterExternals, ProviderExternals}.

(** The key of an explicit configuration has to be there. *)
Definition required_key (variable : string) : result CoreError string :=
  reject_if (bad_variable variable)
    (InvalidConfiguration "Provider credential environment variable name is invalid");;
  key ← ok_or (env_var variable) (InvalidConfiguration
          ("Provider credential environment variable '" +:+ variable +:+ "' is missing or not Unicode"));
  reject_if (blank key) (InvalidConfiguration
    ("Provider credential environment variable '" +:+ variable +:+ "' is empty"));;
  Ok key.

Definition resolve_key (config : option ProviderConfig) (conventional_variable : string) : result CoreError string :=
  match pc_auth <$> config with
  | Some (Some AuthNone) => Ok ""
  | Some (Some (AuthEnv variable)) => required_key variable
  | Some None => required_key conventional_variable
  | None => Ok (default "" (env_var conventional_variable))
  end.

(** The adapter that a configuration chooses. *)
Inductive BuiltAdapter :=
  | BuiltAnthropic (adapter : AnthropicAdapter)
  | BuiltOpenAI (adapter : OpenAIAdapter).

Definition build_adapter (model : string) (legacy_provider : option string) (config : option ProviderConfig) :
    result CoreError BuiltAdapter :=
  family_hint ← legacy_family legacy_provider;
  let api := infer_api model family_hint config in
  let '(family, default_base, conventional_variable) := api_defaults api in
  reject_if (is_some_and family_hint (λ legacy, legacy != family))
    (InvalidConfiguration "provider and provider_config name conflicting protocol families");;
  let base_url := default default_base (config ≫= pc_base_url) in
  url ← ok_or (url_parse base_url) (InvalidConfiguration "Provider base_url must be an absolute HTTP(S) URL");
  reject_if (bad_url base_url url) (InvalidConfiguration
    "Provider base_url must be HTTP(S), with a host and without userinfo, query or fragment");;
  api_key ← resolve_key config conventional_variable;
  map_err (λ _, InvalidConfiguration "Provider credential cannot be represented as an HTTP header")
    (header_value api_key);;
  let base_url := url_text url in
  Ok (match api with
      | AnthropicMessages => BuiltAnthropic (anthropic_with_base_url api_key base_url)
      | OpenaiChatCompletions => BuiltOpenAI (openai_with_options api_key base_url ChatCompletions)
      | OpenaiResponses => BuiltOpenAI (openai_with_options api_key base_url Responses)
      end).

Definition protocol_adapter (built : BuiltAdapter) : ProtocolAdapter :=
  match built with
  | BuiltAnthropic adapter => anthropic_adapter adapter
  | BuiltOpenAI adapter => openai_adapter adapter
  end.
End build.

(** ** [provider.rs]: [ProviderRegistry] *)

(** The trait [ProviderFactory] *)
Definition ProviderFactory := string → result ModelError ModelProvider.
Definition ProviderRegistry := gmap string ProviderFactory.

Definition register_factory (self : ProviderRegistry) (id : string) (factory : ProviderFactory) :
    result ModelError ProviderRegistry :=
  reject_if (padded_or_blank id) (InvalidRequest "Invalid provider reference");;
  reject_if (is_some (self !! id)) (InvalidRequest ("Provider reference '" +:+ id +:+ "' already registered"));;
  Ok (<[id := factory]> self).

Definition register_provider (self : ProviderRegistry) (id : string) (provider : ModelProvider) :
    result ModelError ProviderRegistry :=
  register_factory self id (λ _, Ok provider).

Definition resolve_provider (self : ProviderRegistry) (id model : string) : result ModelError ModelProvider :=
  reject_if (padded_or_blank model) (InvalidRequest "Invalid model identity");;
  factory ← ok_or (self !! id) (InvalidRequest ("Unknown provider reference '" +:+ id +:+ "'"));
  provider ← factory model;
  _ ← capabilities provider model;
  Ok provider.

(** ** [http_provider.rs] *)

(** An HTTP response: whether its status is a success, the status as text, the body
    of a failed one, and the events of the stream of a successful one. *)
Record HttpResponse := {
  resp_success : bool;
  resp_status : string;
  resp_body : string;
  resp_events : list SseEvent;
}.

(** [client.post(url).headers(headers).json(&body).send()] of [reqwest]. *)
Class HttpClient := { http_send : string → HeaderMap → Value → result string HttpResponse }.

Definition http_model_capabilities (adapter : ProtocolAdapter) (model : string) : result ModelError ModelCapabilities :=
  reject_if (blank model) (InvalidRequest "model must not be blank");;
  Ok (adapter_capabilities adapter).

(** [stream]; cancellation is a poll of the engine. Each step draws its own identifiers. *)
Definition http_stream `{HttpClient} (adapter : ProtocolAdapter) (uuids : string → nat → string)
    (request : ModelRequest) : result ModelError (list (result ModelError ModelEvent)) :=
  caps ← http_model_capabilities adapter (so_model (mr_options request));
  validate_model_request request caps;;
  '(body, headers) ← map_err model_error_of
    (serialize_request adapter (mc_system_prompt (mr_model_context request)) (mc_items (mr_model_context request))
       (mr_tools request) (mr_options request));
  response ← map_err Transport (http_send (endpoint_url adapter) headers body);
  reject_if (negb (resp_success response))
    (Transport ("API error " +:+ resp_status response +:+ ": " +:+ resp_body response));;
  Ok (adapt_stream (map_err model_error_of <$> parse_stream adapter (uuids (mr_step_id request)) (resp_events response))).

(** [HttpModelProvider] *)
Definition http_model_provider `{HttpClient} (adapter : ProtocolAdapter) (uuids : string → nat → string) : ModelProvider :=
  {| capabilities := http_model_capabilities adapter; stream := http_stream adapter uuids |}.
