(* ===== verification/Interactions.v ===== *)
(** * Interactions: requests, snapshots, events and the replay contract

    [crates/whale-protocol/src/interactions.rs] and the validation half of
    [crates/whale-core/src/interaction.rs]: what a run may ask its host, the snapshot
    of what is waiting for an answer, the reducer [InteractionSnapshot::apply] that the
    daemon and its clients share, and the bounds of every part. The JSON Schema library
    is a parameter. *)

From stdpp Require Import pretty.
From S2P Require Import Prelude Protocol StoreState CoreSession.

Definition MAX_INTERACTION_ID_BYTES : nat := 128.
Definition MAX_INTERACTION_KIND_BYTES : nat := 128.
Definition MAX_INTERACTION_TITLE_BYTES : nat := 512.
Definition MAX_INTERACTION_PAYLOAD_BYTES : N := 65536.
Definition MAX_INTERACTION_SCHEMA_BYTES : N := 65536.
Definition MAX_INTERACTION_RESPONSE_BYTES : N := 65536.
Definition MAX_PENDING_INTERACTIONS_PER_RUN : nat := 32.
Definition MAX_INTERACTION_REPLAY_PAGE_LIMIT : N := 256.
Definition MAX_INTERACTION_SUBSCRIBER_OUTPUT_CAPACITY : N := 4096.
Definition MAX_INTERACTION_JOURNAL_EVENTS : nat := 1024.
Definition MAX_INTERACTION_JOURNAL_BYTES : nat := 4 * 1024 * 1024.

Definition KIND_TOOL_APPROVAL : string := "whale.tool_approval".
Definition BUILTIN_KINDS : list string :=
  [KIND_TOOL_APPROVAL; "whale.clarification"; "whale.form"; "whale.auth"; "whale.permission.file";
   "whale.permission.network"; "whale.review"].

Definition REMOVAL_RESOLVED : string := "resolved".
Definition REMOVAL_CANCELLED : string := "cancelled".
Definition REMOVAL_RUN_FINISHED : string := "run_finished".
Definition REMOVAL_SESSION_CLOSED : string := "session_closed".
Definition REMOVAL_CONNECTION_CLOSED : string := "connection_closed".
Definition REMOVAL_ORIGIN_FINISHED : string := "origin_finished".
Definition REMOVAL_PUBLICATION_FAILED : string := "publication_failed".
Definition REMOVAL_CAUSES : list string :=
  [REMOVAL_RESOLVED; REMOVAL_CANCELLED; REMOVAL_RUN_FINISHED; REMOVAL_SESSION_CLOSED; REMOVAL_CONNECTION_CLOSED;
   REMOVAL_ORIGIN_FINISHED; REMOVAL_PUBLICATION_FAILED].

(** ** Text, sizes and kinds *)

Definition validate_bounded_text (value label : string) (max_bytes : nat) : result string () :=
  reject_if (str_is_empty value || (trim value != value)) (label +:+ " must be nonempty and unpadded");;
  reject_if (bool_decide (max_bytes < String.length value))
    (label +:+ " exceeds " +:+ pretty max_bytes +:+ " UTF-8 bytes").

(** [validate_identity] of this module, which bounds the length too *)
Definition validate_bounded_identity (value label : string) : result string () :=
  validate_bounded_text value label MAX_INTERACTION_ID_BYTES.

(** [u8::is_ascii_alphanumeric] *)
Definition is_ascii_alphanumeric (n : nat) : bool :=
  ((48 <=? n) && (n <=? 57)) || ((65 <=? n) && (n <=? 90)) || ((97 <=? n) && (n <=? 122)).
(** ['.'], ['_'], [':'], ['/'] and ['-'] *)
Definition is_kind_punctuation (n : nat) : bool := existsb (Nat.eqb n) [46; 95; 58; 47; 45].

Definition validate_kind (kind : string) : result string () :=
  reject_if (str_is_empty kind || bool_decide (MAX_INTERACTION_KIND_BYTES < String.length kind) ||
             (trim kind != kind) || negb (is_some_and (head (bytes_of kind)) is_ascii_alphanumeric) ||
             negb (forallb (λ byte, is_ascii_alphanumeric byte || is_kind_punctuation byte) (bytes_of kind)))
    "Interaction kind must match [A-Za-z0-9][A-Za-z0-9._:/-]{0,127}";;
  reject_if (((kind == "whale") || starts_with (bytes_of kind) (bytes_of "whale.")) &&
             negb (bool_decide (kind ∈ BUILTIN_KINDS)))
    "Unknown whale.* Interaction kinds are reserved".

(** The check of one member of a schema object. *)
Definition check_reference (key : string) (value : Value) : result string () :=
  if (key == "$ref") || (key == "$dynamicRef") then
    match value with
    | Str reference => reject_if (negb (starts_with (bytes_of reference) (bytes_of "#")))
                         "Interaction response_schema cannot retrieve external references"
    | _ => Err ("Interaction schema " +:+ key +:+ " must be a string")
    end
  else Ok ().

(** The outcome of the members of an object, in the order of the keys. *)
Definition first_failure (results : gmap string (result string ())) : result string () :=
  fold_res (λ _ r, r) () (btree_values results).

(** [validate_local_schema_references] *)
Fixpoint validate_local_schema_references (value : Value) : result string () :=
  match value with
  | Object object =>
      first_failure (map_imap (λ key value, Some (check_reference key value;; validate_local_schema_references value))
                       object)
  | Array values =>
      (fix go (values : list Value) : result string () :=
         match values with
         | [] => Ok ()
         | value :: values => validate_local_schema_references value;; go values
         end) values
  | _ => Ok ()
  end.

(** ** Data *)

Record InteractionRequest := {
  iq_kind : string;
  iq_title : string;
  iq_payload : Value;
  iq_response_schema : option Value;
}.
#[export] Instance InteractionRequest_eq_dec : EqDecision InteractionRequest.
Proof. solve_decision. Defined.

Record PendingInteraction := { pi_request_id : string; pi_turn_id : string; pi_request : InteractionRequest }.
#[export] Instance PendingInteraction_eq_dec : EqDecision PendingInteraction.
Proof. solve_decision. Defined.

Record InteractionResponse := { ip_response_request_id : string; ip_response : Value }.

Record InteractionCursor := { ic_thread_id : string; ic_stream_id : string; ic_seq : N }.
#[export] Instance InteractionCursor_eq_dec : EqDecision InteractionCursor.
Proof. solve_decision. Defined.

Record InteractionSnapshot := {
  is_thread_id : string;
  is_cursor : InteractionCursor;
  is_pending : list PendingInteraction;
}.
#[export] Instance InteractionSnapshot_eq_dec : EqDecision InteractionSnapshot.
Proof. solve_decision. Defined.

Record TurnInteractionSnapshot := {
  ts_thread_id : string;
  ts_turn_id : string;
  ts_cursor : InteractionCursor;
  ts_pending : list PendingInteraction;
}.

Inductive InteractionEventPayload :=
  | Requested (interaction : PendingInteraction)
  | Removed (request_id turn_id cause : string).
#[export] Instance InteractionEventPayload_eq_dec : EqDecision InteractionEventPayload.
Proof. solve_decision. Defined.

Record InteractionEventEnvelope := {
  ie_thread_id : string;
  ie_cursor : InteractionCursor;
  ie_occurred_at_ms : N;
  ie_payload : InteractionEventPayload;
}.
#[export] Instance InteractionEventEnvelope_eq_dec : EqDecision InteractionEventEnvelope.
Proof. solve_decision. Defined.

Inductive InteractionProjectionError :=
  | InteractionInvalidState (message : string)
  | InteractionStreamMismatch (expected_thread expected_stream actual_thread actual_stream : string)
  | InteractionSequenceGap (expected actual : InteractionCursor).

(** [Display] of [InteractionProjectionError] *)
Definition interaction_error_text (e : InteractionProjectionError) : string :=
  match e with
  | InteractionInvalidState message => "invalid Interaction projection: " +:+ message
  | InteractionStreamMismatch et es at_ as_ =>
      "Interaction projection stream mismatch: expected " +:+ et +:+ "/" +:+ es +:+ ", got " +:+ at_ +:+ "/" +:+ as_
  | InteractionSequenceGap e a =>
      "Interaction projection sequence gap: expected " +:+ ic_thread_id e +:+ "/" +:+ ic_stream_id e +:+ "/"
        +:+ pretty (ic_seq e) +:+ ", got " +:+ ic_thread_id a +:+ "/" +:+ ic_stream_id a +:+ "/" +:+ pretty (ic_seq a)
  end.

(** The JSON Schema library: whether a schema compiles as Draft 2020-12 without
    retrieval, and what it accepts. *)
Class SchemaExternals := {
  schema_compiles : Value → result string ();
  schema_accepts : Value → Value → bool;
}.

(** ** Cursors *)

Definition InteractionCursor_validate (self : InteractionCursor) : result string () :=
  validate_bounded_identity (ic_thread_id self) "thread_id";;
  validate_bounded_identity (ic_stream_id self) "stream_id".

(** [InteractionCursor::checked_next] *)
Definition cursor_next (self : InteractionCursor) : result string InteractionCursor :=
  InteractionCursor_validate self;;
  seq ← ok_or (checked_add (ic_seq self) 1) "Interaction cursor sequence is exhausted";
  Ok {| ic_thread_id := ic_thread_id self; ic_stream_id := ic_stream_id self; ic_seq := seq |}.

(** [InteractionCursor::same_stream] *)
Definition in_same_stream (self other : InteractionCursor) : bool :=
  (ic_thread_id self == ic_thread_id other) && (ic_stream_id self == ic_stream_id other).

(** The key of a pending interaction. *)
Definition pi_key (p : PendingInteraction) : string * string := (pi_turn_id p, pi_request_id p).

Section interactions.
Context `{Externals}.

(** [validate_json_size]; the byte limits fit into [u64]. *)
Definition validate_json_size (value : Value) (label : string) (max_bytes : N) : result string () :=
  bytes ← serialized_bytes (value_json_len value);
  reject_if (max_bytes <? bytes)%N (label +:+ " exceeds " +:+ pretty max_bytes +:+ " serialized bytes").

Definition InteractionRequest_validate (self : InteractionRequest) : result string () :=
  validate_kind (iq_kind self);;
  validate_bounded_text (iq_title self) "Interaction title" MAX_INTERACTION_TITLE_BYTES;;
  validate_json_size (iq_payload self) "Interaction payload" MAX_INTERACTION_PAYLOAD_BYTES;;
  match iq_response_schema self with
  | Some schema =>
      reject_if (negb (is_object schema)) "Interaction response_schema must be a JSON object";;
      validate_json_size schema "Interaction response_schema" MAX_INTERACTION_SCHEMA_BYTES;;
      validate_local_schema_references schema
  | None => Ok ()
  end.

(** [InteractionRequest::new] *)
Definition InteractionRequest_new (kind title : string) (payload : Value) (response_schema : option Value) :
    result string InteractionRequest :=
  let value := {| iq_kind := kind; iq_title := title; iq_payload := payload; iq_response_schema := response_schema |} in
  InteractionRequest_validate value;; Ok value.

Definition PendingInteraction_validate (self : PendingInteraction) : result string () :=
  validate_bounded_identity (pi_request_id self) "request_id";;
  validate_bounded_identity (pi_turn_id self) "turn_id";;
  InteractionRequest_validate (pi_request self).

(** [PendingInteraction::new] *)
Definition PendingInteraction_new (request_id turn_id : string) (request : InteractionRequest) :
    result string PendingInteraction :=
  let value := {| pi_request_id := request_id; pi_turn_id := turn_id; pi_request := request |} in
  PendingInteraction_validate value;; Ok value.

Definition InteractionResponse_validate (self : InteractionResponse) : result string () :=
  validate_bounded_identity (ip_response_request_id self) "request_id";;
  validate_json_size (ip_response self) "Interaction response" MAX_INTERACTION_RESPONSE_BYTES.

(** [InteractionResponse::new] *)
Definition InteractionResponse_new (request_id : string) (response : Value) : result string InteractionResponse :=
  let value := {| ip_response_request_id := request_id; ip_response := response |} in
  InteractionResponse_validate value;; Ok value.

(** ** Snapshots *)

(** One turn of the loop of [validate_pending_set]: the identities met so far and the
    count of every run. *)
Definition check_pending (required_turn_id : option string)
    (st : gset (string * string) * gmap string nat) (interaction : PendingInteraction) :
    result string (gset (string * string) * gmap string nat) :=
  let '(identities, per_turn) := st in
  PendingInteraction_validate interaction;;
  reject_if (is_some_and required_turn_id (λ turn_id, pi_turn_id interaction != turn_id))
    "Turn Interaction snapshot contains another Run";;
  reject_if (bool_decide (pi_key interaction ∈ identities))
    "Interaction snapshot contains a duplicate request identity";;
  let count := S (default 0 (per_turn !! pi_turn_id interaction)) in
  reject_if (bool_decide (MAX_PENDING_INTERACTIONS_PER_RUN < count))
    ("A Run cannot contain more than " +:+ pretty MAX_PENDING_INTERACTIONS_PER_RUN +:+ " pending Interactions");;
  Ok ({[pi_key interaction]} ∪ identities, <[pi_turn_id interaction := count]> per_turn).

Definition validate_pending_set (pending : list PendingInteraction) (required_turn_id : option string) :
    result string () :=
  fold_res (check_pending required_turn_id) (∅, ∅) pending;; Ok ().

Definition InteractionSnapshot_validate (self : InteractionSnapshot) : result string () :=
  validate_bounded_identity (is_thread_id self) "thread_id";;
  InteractionCursor_validate (is_cursor self);;
  reject_if (ic_thread_id (is_cursor self) != is_thread_id self)
    "Interaction snapshot cursor belongs to another thread";;
  validate_pending_set (is_pending self) None.

(** [InteractionSnapshot::new] *)
Definition InteractionSnapshot_new (thread_id : string) (cursor : InteractionCursor)
    (pending : list PendingInteraction) : result string InteractionSnapshot :=
  let value := {| is_thread_id := thread_id; is_cursor := cursor; is_pending := pending |} in
  InteractionSnapshot_validate value;; Ok value.

Definition TurnInteractionSnapshot_validate (self : TurnInteractionSnapshot) : result string () :=
  validate_bounded_identity (ts_thread_id self) "thread_id";;
  validate_bounded_identity (ts_turn_id self) "turn_id";;
  InteractionCursor_validate (ts_cursor self);;
  reject_if (ic_thread_id (ts_cursor self) != ts_thread_id self)
    "Turn Interaction snapshot cursor belongs to another thread";;
  validate_pending_set (ts_pending self) (Some (ts_turn_id self)).

(** [TurnInteractionSnapshot::new] *)
Definition TurnInteractionSnapshot_new (thread_id turn_id : string) (cursor : InteractionCursor)
    (pending : list PendingInteraction) : result string TurnInteractionSnapshot :=
  let value := {| ts_thread_id := thread_id; ts_turn_id := turn_id; ts_cursor := cursor; ts_pending := pending |} in
  TurnInteractionSnapshot_validate value;; Ok value.

Definition InteractionEventPayload_validate (self : InteractionEventPayload) : result string () :=
  match self with
  | Requested interaction => PendingInteraction_validate interaction
  | Removed request_id turn_id cause =>
      validate_bounded_identity request_id "request_id";;
      validate_bounded_identity turn_id "turn_id";;
      validate_bounded_text cause "Interaction removal cause" MAX_INTERACTION_KIND_BYTES
  end.

Definition InteractionEventEnvelope_validate (self : InteractionEventEnvelope) : result string () :=
  validate_bounded_identity (ie_thread_id self) "thread_id";;
  InteractionCursor_validate (ie_cursor self);;
  reject_if (ic_thread_id (ie_cursor self) != ie_thread_id self) "Interaction event cursor belongs to another thread";;
  reject_if (ic_seq (ie_cursor self) =? 0)%N "Interaction event sequence must be positive";;
  InteractionEventPayload_validate (ie_payload self).

(** ** The reducer *)

(** [position(p)] and [remove(index)]: the list without the first match. *)
Fixpoint remove_first {A} (p : A → bool) (l : list A) : option (list A) :=
  match l with
  | [] => None
  | x :: l => if p x then Some l else (x ::.) <$> remove_first p l
  end.

Definition is_request (turn_id request_id : string) (pending : PendingInteraction) : bool :=
  (pi_turn_id pending == turn_id) && (pi_request_id pending == request_id).

(** The [match] of [apply] on the payload. *)
Definition apply_interaction_payload (pending : list PendingInteraction) (payload : InteractionEventPayload) :
    result string (list PendingInteraction) :=
  match payload with
  | Requested interaction =>
      reject_if (existsb (is_request (pi_turn_id interaction) (pi_request_id interaction)) pending)
        "Requested Interaction is already pending";;
      Ok (pending ++ [interaction])
  | Removed request_id turn_id _ =>
      ok_or (remove_first (is_request turn_id request_id) pending) "Removed Interaction is not pending"
  end.

(** [InteractionSnapshot::apply]: the snapshot after it and whether it changed; an
    error leaves the snapshot as it was. *)
Definition apply_interaction (self : InteractionSnapshot) (envelope : InteractionEventEnvelope) :
    result InteractionProjectionError (InteractionSnapshot * bool) :=
  map_err InteractionInvalidState (InteractionSnapshot_validate self);;
  map_err InteractionInvalidState (InteractionEventEnvelope_validate envelope);;
  reject_if ((ie_thread_id envelope != is_thread_id self) ||
             (ic_stream_id (ie_cursor envelope) != ic_stream_id (is_cursor self)))
    (InteractionStreamMismatch (is_thread_id self) (ic_stream_id (is_cursor self))
       (ie_thread_id envelope) (ic_stream_id (ie_cursor envelope)));;
  if (ic_seq (ie_cursor envelope) <=? ic_seq (is_cursor self))%N then Ok (self, false) else
  expected ← map_err InteractionInvalidState (cursor_next (is_cursor self));
  reject_if (ie_cursor envelope != expected) (InteractionSequenceGap expected (ie_cursor envelope));;
  pending ← map_err InteractionInvalidState (apply_interaction_payload (is_pending self) (ie_payload envelope));
  let next := {| is_thread_id := is_thread_id self; is_cursor := ie_cursor envelope; is_pending := pending |} in
  map_err InteractionInvalidState (InteractionSnapshot_validate next);;
  Ok (next, true).

(** ** The replay contract *)

Definition GetSessionInteractionsParams_validate (thread_id : string) : result string () :=
  validate_bounded_identity thread_id "thread_id".
Definition GetTurnInteractionsParams_validate (thread_id turn_id : string) : result string () :=
  validate_bounded_identity thread_id "thread_id";;
  validate_bounded_identity turn_id "turn_id".

Definition validate_interaction_replay_page_limit (limit : N) : result string () :=
  reject_if ((limit =? 0)%N || (MAX_INTERACTION_REPLAY_PAGE_LIMIT <? limit)%N)
    ("Interaction replay page limit must be between 1 and " +:+ pretty MAX_INTERACTION_REPLAY_PAGE_LIMIT).
Definition validate_interaction_subscriber_output_capacity (capacity : N) : result string () :=
  reject_if ((capacity =? 0)%N || (MAX_INTERACTION_SUBSCRIBER_OUTPUT_CAPACITY <? capacity)%N)
    ("Interaction subscriber output capacity must be between 1 and "
       +:+ pretty MAX_INTERACTION_SUBSCRIBER_OUTPUT_CAPACITY).
Definition validate_interaction_journal_usage (retained_events serialized_event_bytes : nat) : result string () :=
  reject_if (bool_decide (MAX_INTERACTION_JOURNAL_EVENTS < retained_events))
    ("Interaction journal cannot retain more than " +:+ pretty MAX_INTERACTION_JOURNAL_EVENTS +:+ " events");;
  reject_if (bool_decide (MAX_INTERACTION_JOURNAL_BYTES < serialized_event_bytes))
    ("Interaction journal cannot retain more than " +:+ pretty MAX_INTERACTION_JOURNAL_BYTES +:+ " serialized bytes").

Record SubscribeInteractionsParams := {
  si_thread_id : string;
  si_after : InteractionCursor;
  si_through : option InteractionCursor;
  si_limit : N;
}.

Definition SubscribeInteractionsParams_validate (self : SubscribeInteractionsParams) : result string () :=
  validate_bounded_identity (si_thread_id self) "thread_id";;
  InteractionCursor_validate (si_after self);;
  reject_if (ic_thread_id (si_after self) != si_thread_id self) "Interaction replay cursor belongs to another thread";;
  match si_through self with
  | Some through =>
      InteractionCursor_validate through;;
      reject_if (negb (in_same_stream (si_after self) through))
        "Interaction replay window cursors belong to different streams";;
      reject_if (ic_seq through <? ic_seq (si_after self))%N
        "Interaction replay cursor is ahead of the fixed replay window"
  | None => Ok ()
  end;;
  validate_interaction_replay_page_limit (si_limit self).

Inductive InteractionReplayGapReason := InteractionRetention | InteractionStreamReset.

Record InteractionReplayGap := {
  ig_reason : InteractionReplayGapReason;
  ig_requested : InteractionCursor;
  ig_replay_floor : InteractionCursor;
  ig_current : InteractionCursor;
}.

Definition InteractionReplayGap_validate (self : InteractionReplayGap) : result string () :=
  InteractionCursor_validate (ig_requested self);;
  InteractionCursor_validate (ig_replay_floor self);;
  InteractionCursor_validate (ig_current self);;
  reject_if (ic_thread_id (ig_requested self) != ic_thread_id (ig_current self))
    "Interaction replay gap cursors belong to different threads";;
  reject_if (negb (in_same_stream (ig_replay_floor self) (ig_current self)) ||
             (ic_seq (ig_current self) <? ic_seq (ig_replay_floor self))%N)
    "Interaction replay floor is outside the current stream";;
  match ig_reason self with
  | InteractionRetention =>
      reject_if (negb (in_same_stream (ig_requested self) (ig_current self)) ||
                 (ic_seq (ig_replay_floor self) <=? ic_seq (ig_requested self))%N)
        "Interaction retention gap requires a cursor below the replay floor"
  | InteractionStreamReset =>
      reject_if (ic_stream_id (ig_requested self) == ic_stream_id (ig_current self))
        "Interaction stream reset requires a different stream identity"
  end.

Record SubscribeInteractionsResult := {
  sr_events : list InteractionEventEnvelope;
  sr_resume_after : InteractionCursor;
  sr_through : InteractionCursor;
  sr_has_more : bool;
  sr_gap : option InteractionReplayGap;
}.

(** The high watermark of a gap. *)
Definition check_gap_through (self : SubscribeInteractionsResult) (params : SubscribeInteractionsParams)
    (gap : InteractionReplayGap) : result string () :=
  match ig_reason gap, si_through params with
  | InteractionRetention, Some through =>
      reject_if (sr_through self != through) "Interaction replay response changed the fixed high watermark"
  | InteractionRetention, None =>
      reject_if (sr_through self != ig_current gap) "Initial Interaction replay did not freeze the current cursor"
  | InteractionStreamReset, _ =>
      reject_if (sr_through self != ig_current gap)
        "Interaction stream-reset response must expose the new current cursor"
  end.

(** One turn of the loop over the events of a page. *)
Definition check_interaction_event (through expected : InteractionCursor) (event : InteractionEventEnvelope) :
    result string InteractionCursor :=
  InteractionEventEnvelope_validate event;;
  expected ← cursor_next expected;
  reject_if ((ie_cursor event != expected) || (ic_seq through <? ic_seq (ie_cursor event))%N)
    "Interaction replay events must be contiguous and in cursor order";;
  Ok expected.

Definition check_interaction_page (self : SubscribeInteractionsResult) (params : SubscribeInteractionsParams) :
    result string () :=
  match si_through params with
  | Some through => reject_if (sr_through self != through)
                      "Interaction replay response changed the fixed high watermark"
  | None => Ok ()
  end;;
  reject_if (negb (in_same_stream (si_after params) (sr_through self)))
    "A changed Interaction stream requires a stream_reset gap";;
  reject_if (ic_seq (sr_through self) <? ic_seq (si_after params))%N
    "Interaction replay cursor is ahead of the fixed high watermark";;
  reject_if (negb (in_same_stream (sr_resume_after self) (sr_through self)))
    "Interaction replay resume cursor belongs to another stream";;
  reject_if (si_limit params <? N.of_nat (length (sr_events self)))%N
    "Interaction replay page exceeds the requested limit";;
  expected ← fold_res (check_interaction_event (sr_through self)) (si_after params) (sr_events self);
  reject_if (sr_resume_after self != expected) "Interaction replay resume cursor must identify the last returned event";;
  reject_if (negb (Bool.eqb (sr_has_more self) (ic_seq (sr_resume_after self) <? ic_seq (sr_through self))%N))
    "Interaction replay has_more does not match the high watermark";;
  reject_if (sr_has_more self && bool_decide (sr_events self = []))
    "Interaction replay cannot make no progress while has_more is true".

(** [SubscribeInteractionsResult::validate_for] *)
Definition replay_valid_for (self : SubscribeInteractionsResult) (params : SubscribeInteractionsParams) :
    result string () :=
  SubscribeInteractionsParams_validate params;;
  InteractionCursor_validate (sr_resume_after self);;
  InteractionCursor_validate (sr_through self);;
  reject_if ((ic_thread_id (sr_resume_after self) != si_thread_id params) ||
             (ic_thread_id (sr_through self) != si_thread_id params))
    "Interaction replay result belongs to another thread";;
  match sr_gap self with
  | Some gap =>
      InteractionReplayGap_validate gap;;
      reject_if (ig_requested gap != si_after params) "Interaction replay gap does not match the requested cursor";;
      check_gap_through self params gap;;
      reject_if (negb (bool_decide (sr_events self = [])) || sr_has_more self ||
                 (sr_resume_after self != si_after params))
        "An Interaction replay gap cannot contain an event page"
  | None => check_interaction_page self params
  end.

(** ** Parameters of the methods *)

Record RequestInteractionParams := {
  qp_thread_id : string;
  qp_turn_id : string;
  qp_host_call_id : string;
  qp_request_id : string;
  qp_request : InteractionRequest;
}.

Definition RequestInteractionParams_validate (self : RequestInteractionParams) : result string () :=
  validate_bounded_identity (qp_thread_id self) "thread_id";;
  validate_bounded_identity (qp_turn_id self) "turn_id";;
  validate_bounded_identity (qp_host_call_id self) "host_call_id";;
  validate_bounded_identity (qp_request_id self) "request_id";;
  reject_if ((String.length (qp_request_id self) != 36) || negb (uuid_parse_ok (qp_request_id self)))
    "Nested Interaction request_id must be a UUID";;
  InteractionRequest_validate (qp_request self).

Record RespondInteractionParams := {
  rp_thread_id : string;
  rp_turn_id : string;
  rp_request_id : string;
  rp_response : Value;
}.

Definition RespondInteractionParams_validate (self : RespondInteractionParams) : result string () :=
  validate_bounded_identity (rp_thread_id self) "thread_id";;
  validate_bounded_identity (rp_turn_id self) "turn_id";;
  InteractionResponse_validate {| ip_response_request_id := rp_request_id self; ip_response := rp_response self |}.

(** [RespondInteractionResult::validate] *)
Definition RespondInteractionResult_validate (request_id : string) : result string () :=
  validate_bounded_identity request_id "request_id".

(** [checked_map]: the members of an object in the order they arrive. *)
Definition checked_map (allowed : list string) (entries : list (string * Value)) : result string Map :=
  fold_res (λ (map : Map) '(key, value),
      reject_if (negb (bool_decide (key ∈ allowed))) ("unknown field `" +:+ key +:+ "`");;
      reject_if (is_some (map !! key)) ("duplicate field " +:+ key);;
      Ok (<[key := value]> map)) ∅ entries.

(** [take_bool] *)
Definition take_bool (key : string) (map : Map) : result string (bool * Map) :=
  let '(value, map) := remove key map in
  value ← ok_or value ("missing field `" +:+ key +:+ "`");
  flag ← ok_or (as_bool value) "invalid type: expected a boolean";
  Ok (flag, map).

(** The [Deserialize] of the three parameter types that carry [interactions_enabled]:
    [decode] is the derived one of the part that they flatten. *)
Definition decode_with_interactions {T} (decode : Map → result string T) (allowed : list string)
    (entries : list (string * Value)) : result string (T * bool) :=
  map ← checked_map allowed entries;
  '(interactions_enabled, map) ← take_bool "interactions_enabled" map;
  session ← decode map;
  Ok (session, interactions_enabled).

Definition START_THREAD_KEYS : list string :=
  ["limits"; "provider_ref"; "agent_name"; "context_policy"; "provider_config"; "options"; "session_id"; "provider";
   "model"; "system_prompt"; "tools"; "metadata"; "interactions_enabled"].
Definition CREATE_PERSISTENT_KEYS : list string := ["key"; "session"; "run_defaults"; "interactions_enabled"].
Definition ATTACH_RECOVERY_KEYS : list string :=
  ["key"; "expected_revision"; "session"; "run_defaults"; "interactions_enabled"].
Definition REQUEST_INTERACTION_KEYS : list string :=
  ["thread_id"; "turn_id"; "host_call_id"; "request_id"; "kind"; "title"; "payload"; "response_schema"].

(** ** [crates/whale-core/src/interaction.rs]: validation with the schema compiled *)

Context `{SchemaExternals}.

Definition validate_interaction_request (request : InteractionRequest) : result CoreError () :=
  map_err InteractionRequestInvalid (InteractionRequest_validate request);;
  match iq_response_schema request with
  | Some schema => map_err InteractionRequestInvalid (schema_compiles schema)
  | None => Ok ()
  end.

Definition validate_interaction_response (request : InteractionRequest) (response : Value) : result CoreError () :=
  map_err InteractionResponseInvalid (InteractionResponse_new "response-validation" response);;
  match iq_response_schema request with
  | Some schema =>
      map_err InteractionRequestInvalid (schema_compiles schema);;
      reject_if (negb (schema_accepts schema response))
        (InteractionResponseInvalid "Interaction response does not match response_schema")
  | None => Ok ()
  end.
End interactions.

Example kind_example : validate_kind "acme:review/step-2" = Ok ().
Proof. vm_compute. reflexivity. Qed.
Example reserved_kind_example : is_err (validate_kind "whale.unknown") = true.
Proof. vm_compute. reflexivity. Qed.
Example builtin_kind_example : validate_kind "whale.permission.file" = Ok ().
Proof. vm_compute. reflexivity. Qed.
Example reference_example :
  validate_local_schema_references
    (Object {["oneOf" := Array [Object {["$ref" := Str "http://x"]}]]}) =
  Err "Interaction response_schema cannot retrieve external references".
Proof. vm_compute. reflexivity. Qed.
Example duplicate_member_example :
  checked_map ["a"] [("a", Null); ("a", Null)] = Err "duplicate field a".
Proof. vm_compute. reflexivity. Qed.
