(* ===== verification/InteractionRecord.v ===== *)
(** * The daemon's interactions of one session

    [crates/whale-daemon/src/interactions.rs]: [InteractionRecord] with its bounded
    journal, and what every method of the registry does to a record while it holds
    its lock. A oneshot or watch channel is an address of the heap of
    [InteractionServer.v]; a notifier is the queue of what it was given to send. *)

From S2P Require Import Prelude EventJournal Protocol StoreState CoreSession Interactions.

Record InteractionJournalLimits := { jl_max_events : nat; jl_max_bytes : nat }.
(** [InteractionJournalLimits::default] *)
Definition default_interaction_limits : InteractionJournalLimits :=
  {| jl_max_events := MAX_INTERACTION_JOURNAL_EVENTS; jl_max_bytes := MAX_INTERACTION_JOURNAL_BYTES |}.
(** [InteractionJournalLimits::new]: [None] is the panic of its assertions. *)
Definition InteractionJournalLimits_new (max_events max_bytes : nat) : option InteractionJournalLimits :=
  if bool_decide (0 < max_events) && bool_decide (0 < max_bytes)
  then Some {| jl_max_events := max_events; jl_max_bytes := max_bytes |} else None.

(** [JournalEntry] *)
Record InteractionEntry := { je_event : InteractionEventEnvelope; je_size : nat; je_turn_id : string }.

Inductive InteractionOrigin := OriginCore | OriginHostCall (host_call_id : string).
#[export] Instance InteractionOrigin_eq_dec : EqDecision InteractionOrigin.
Proof. solve_decision. Defined.

(** [PendingEntry]; [pe_sender] is the oneshot channel of the waiting continuation. *)
Record PendingEntry := {
  pe_request : InteractionRequest;
  pe_sender : nat;
  pe_generation : N;
  pe_origin : InteractionOrigin;
  pe_typed_approval : bool;
}.

(** [[u8; 32]], the tag of a response *)
Abbreviation Digest := string (only parsing).

Inductive ResponseState :=
  | Pending (entry : PendingEntry)
  | Resolved (digest : Digest) (generation : N) (typed_approval : bool) (completion : nat).

Definition is_pending_state (s : ResponseState) : bool := match s with Pending _ => true | _ => false end.

Record InteractionRecord := {
  ir_owner : string;
  ir_enabled : bool;
  ir_snapshot : InteractionSnapshot;
  ir_journal : list InteractionEntry;
  ir_journal_bytes : nat;
  ir_replay_floor : InteractionCursor;
  ir_limits : InteractionJournalLimits;
  ir_notifier : option (list InteractionEventEnvelope);
  ir_entries : gmap (string * string) ResponseState;
  ir_run_identities : gmap string nat;
  ir_next_generation : N;
}.

Definition ir_eta (r : InteractionRecord) : InteractionRecord :=
  {| ir_owner := ir_owner r; ir_enabled := ir_enabled r; ir_snapshot := ir_snapshot r; ir_journal := ir_journal r;
     ir_journal_bytes := ir_journal_bytes r; ir_replay_floor := ir_replay_floor r; ir_limits := ir_limits r;
     ir_notifier := ir_notifier r; ir_entries := ir_entries r; ir_run_identities := ir_run_identities r;
     ir_next_generation := ir_next_generation r |}.
Definition set_ir_snapshot (v : InteractionSnapshot) (r : InteractionRecord) : InteractionRecord :=
  ltac:(update_field ir_eta ir_snapshot v r).
Definition set_ir_entries (v : gmap (string * string) ResponseState) (r : InteractionRecord) : InteractionRecord :=
  ltac:(update_field ir_eta ir_entries v r).
Definition set_ir_run_identities (v : gmap string nat) (r : InteractionRecord) : InteractionRecord :=
  ltac:(update_field ir_eta ir_run_identities v r).
Definition set_ir_next_generation (v : N) (r : InteractionRecord) : InteractionRecord :=
  ltac:(update_field ir_eta ir_next_generation v r).
Definition set_ir_notifier (v : option (list InteractionEventEnvelope)) (r : InteractionRecord) : InteractionRecord :=
  ltac:(update_field ir_eta ir_notifier v r).
Definition set_ir_journal (journal : list InteractionEntry) (bytes : nat) (floor : InteractionCursor)
    (r : InteractionRecord) : InteractionRecord :=
  {| ir_owner := ir_owner r; ir_enabled := ir_enabled r; ir_snapshot := ir_snapshot r; ir_journal := journal;
     ir_journal_bytes := bytes; ir_replay_floor := floor; ir_limits := ir_limits r;
     ir_notifier := ir_notifier r; ir_entries := ir_entries r; ir_run_identities := ir_run_identities r;
     ir_next_generation := ir_next_generation r |}.

Definition ir_cursor (r : InteractionRecord) : InteractionCursor := is_cursor (ir_snapshot r).
Definition ir_pending (r : InteractionRecord) : list PendingInteraction := is_pending (ir_snapshot r).

(** ** The journal *)

Definition event_turn (envelope : InteractionEventEnvelope) : string :=
  match ie_payload envelope with
  | Requested interaction => pi_turn_id interaction
  | Removed _ turn_id _ => turn_id
  end.

Definition entry_cursor (e : InteractionEntry) : InteractionCursor := ie_cursor (je_event e).
Definition entry_seq (e : InteractionEntry) : N := ic_seq (entry_cursor e).

(** [retain]; the [expect] of its loop never fails, because an empty journal has no bytes. *)
Definition retain_event (envelope : InteractionEventEnvelope) (bytes : nat) (turn_id : string)
    (r : InteractionRecord) : InteractionRecord :=
  if bool_decide (jl_max_bytes (ir_limits r) < bytes) then set_ir_journal [] 0 (ie_cursor envelope) r else
  let '(journal, total, floor) :=
    evict_front je_size entry_cursor (jl_max_events (ir_limits r)) (jl_max_bytes (ir_limits r))
      (ir_journal r ++ [{| je_event := envelope; je_size := bytes; je_turn_id := turn_id |}])
      (ir_journal_bytes r + bytes) (ir_replay_floor r) in
  set_ir_journal journal total floor r.

(** [scrub_run] *)
Definition scrub_turn (turn_id : string) (r : InteractionRecord) : InteractionRecord :=
  match max_seq_of_run entry_seq (λ e, je_turn_id e == turn_id) (ir_journal r) with
  | None => r
  | Some through =>
      let '(journal, bytes) := pop_front_through je_size entry_seq through (ir_journal r) (ir_journal_bytes r) in
      let floor := ir_replay_floor r in
      set_ir_journal journal bytes
        {| ic_thread_id := ic_thread_id floor; ic_stream_id := ic_stream_id floor;
           ic_seq := N.max (ic_seq floor) through |} r
  end.

(** ** Publication and replay *)

(** What the record's code calls and the repository does not define: the length of
    the JSON of an event, and the clock. *)
Class EventExternals := { interaction_event_len : InteractionEventEnvelope → result string nat }.

Section record.
Context `{Externals} `{EventExternals}.

(** [InteractionRecord::new]; [stream_id] is the new uuid. *)
Definition InteractionRecord_new (owner thread_id : string) (enabled : bool) (limits : InteractionJournalLimits)
    (stream_id : string) : result string InteractionRecord :=
  let cursor := {| ic_thread_id := thread_id; ic_stream_id := stream_id; ic_seq := 0 |} in
  snapshot ← InteractionSnapshot_new thread_id cursor [];
  Ok {| ir_owner := owner; ir_enabled := enabled; ir_snapshot := snapshot; ir_journal := []; ir_journal_bytes := 0;
        ir_replay_floor := cursor; ir_limits := limits; ir_notifier := if enabled then Some [] else None;
        ir_entries := ∅; ir_run_identities := ∅; ir_next_generation := 1 |}.

(** [InteractionNotifier::publish]: the queue of the model is everything that was sent; the
    channel keeps the newest 128 for its task. *)
Definition notify (envelope : InteractionEventEnvelope) (r : InteractionRecord) : InteractionRecord :=
  set_ir_notifier ((λ queue, queue ++ [envelope]) <$> ir_notifier r) r.

(** [InteractionRecord::commit]; [now] is the clock. *)
Definition commit (now : N) (payload : InteractionEventPayload) (r : InteractionRecord) :
    result string (InteractionRecord * InteractionEventEnvelope) :=
  cursor ← cursor_next (ir_cursor r);
  let envelope := {| ie_thread_id := is_thread_id (ir_snapshot r); ie_cursor := cursor; ie_occurred_at_ms := now;
                     ie_payload := payload |} in
  InteractionEventEnvelope_validate envelope;;
  bytes ← map_err (λ e, "Interaction event serialization failed: " +:+ e) (interaction_event_len envelope);
  '(snapshot, _) ← map_err interaction_error_text (apply_interaction (ir_snapshot r) envelope);
  Ok (notify envelope (retain_event envelope bytes (event_turn envelope) (set_ir_snapshot snapshot r)), envelope).

(** [let _ = record.commit(..)] when the record is enabled: a failed commit leaves the
    record as it was. *)
Definition try_commit (now : N) (payload : InteractionEventPayload) (r : InteractionRecord) : InteractionRecord :=
  if ir_enabled r then match commit now payload r with Ok (r', _) => r' | Err _ => r end else r.

(** [InteractionRecord::gap] *)
Definition interaction_gap (r : InteractionRecord) (params : SubscribeInteractionsParams) (through : InteractionCursor)
    (reason : InteractionReplayGapReason) : SubscribeInteractionsResult :=
  {| sr_events := []; sr_resume_after := si_after params; sr_through := through; sr_has_more := false;
     sr_gap := Some {| ig_reason := reason; ig_requested := si_after params; ig_replay_floor := ir_replay_floor r;
                       ig_current := ir_cursor r |} |}.

(** The events of a page. *)
Definition interaction_page (r : InteractionRecord) (after through limit : N) : list InteractionEventEnvelope :=
  take (N.to_nat limit)
    (List.filter (λ e, (after <? ic_seq (ie_cursor e))%N && (ic_seq (ie_cursor e) <=? through)%N)
       (je_event <$> ir_journal r)).

(** The checks of [replay] on the fixed high watermark: [Some] is an early answer. *)
Definition check_through (r : InteractionRecord) (params : SubscribeInteractionsParams) :
    result string (option SubscribeInteractionsResult) :=
  let current := ir_cursor r in
  match si_through params with
  | Some through =>
      if ic_stream_id through != ic_stream_id current
      then Ok (Some (interaction_gap r params current InteractionStreamReset)) else
      reject_if (ic_seq current <? ic_seq through)%N "Interaction replay high watermark is ahead of current";;
      Ok None
  | None => Ok None
  end.

(** [InteractionRecord::replay] *)
Definition replay_interactions (r : InteractionRecord) (params : SubscribeInteractionsParams) :
    result string SubscribeInteractionsResult :=
  SubscribeInteractionsParams_validate params;;
  let current := ir_cursor r in
  let through := default current (si_through params) in
  if ic_stream_id (si_after params) != ic_stream_id current
  then Ok (interaction_gap r params current InteractionStreamReset) else
  reject_if (ic_seq current <? ic_seq (si_after params))%N "Interaction replay cursor is ahead of the current cursor";;
  early ← check_through r params;
  match early with
  | Some answer => Ok answer
  | None =>
      if (ic_seq (si_after params) <? ic_seq (ir_replay_floor r))%N
      then Ok (interaction_gap r params through InteractionRetention) else
      let events := interaction_page r (ic_seq (si_after params)) (ic_seq through) (si_limit params) in
      let resume_after := default (si_after params) (ie_cursor <$> last events) in
      Ok {| sr_events := events; sr_resume_after := resume_after; sr_through := through;
            sr_has_more := (ic_seq resume_after <? ic_seq through)%N; sr_gap := None |}
  end.
End record.

(** ** Errors *)

Definition INTERACTION_NOT_FOUND : Z := -32050.
Definition INTERACTION_CONFLICT : Z := -32051.
Definition INTERACTION_RESPONSE_INVALID : Z := -32052.
Definition INTERACTION_UNAVAILABLE : Z := -32053.
Definition INVALID_PARAMS : Z := -32602.

Record InteractionFailure := { if_code : Z; if_message : string }.
#[export] Instance InteractionFailure_eq_dec : EqDecision InteractionFailure.
Proof. solve_decision. Defined.

Definition failure_invalid (message : string) : InteractionFailure := {| if_code := INVALID_PARAMS; if_message := message |}.
Definition failure_not_found (message : string) : InteractionFailure :=
  {| if_code := INTERACTION_NOT_FOUND; if_message := message |}.
Definition failure_conflict : InteractionFailure :=
  {| if_code := INTERACTION_CONFLICT; if_message := "InteractionConflict" |}.
Definition failure_response_invalid (message : string) : InteractionFailure :=
  {| if_code := INTERACTION_RESPONSE_INVALID; if_message := message |}.
Definition failure_unavailable (message : string) : InteractionFailure :=
  {| if_code := INTERACTION_UNAVAILABLE; if_message := message |}.
Definition failure_disabled : InteractionFailure := failure_unavailable "Interactions are disabled for this Session".

(** [InteractionFailure::into_core] *)
Definition into_core (self : InteractionFailure) : CoreError :=
  if decide (if_code self = INTERACTION_RESPONSE_INVALID) then InteractionResponseInvalid (if_message self) else
  if decide (if_code self = INTERACTION_NOT_FOUND) then InteractionCancelled (if_message self) else
  InteractionUnavailable (if_message self).

Definition core_failure (error : CoreError) : InteractionFailure :=
  match error with
  | InteractionResponseInvalid message => failure_response_invalid message
  | InteractionRequestInvalid message => failure_invalid message
  | InteractionCancelled message => failure_not_found message
  | InteractionUnavailable message => failure_unavailable message
  | other => failure_unavailable (core_error_text other)
  end.

(** The [match] on the error of a response that its schema refuses. *)
Definition response_refused (error : CoreError) : InteractionFailure :=
  failure_response_invalid match error with
                           | InteractionResponseInvalid message | InteractionRequestInvalid message => message
                           | other => core_error_text other
                           end.

(** ** Tags of responses

    HMAC-SHA256 and the writer of [serde_json] are parameters. In the model an object
    has no order, so the value already is its [canonical_json]. *)
Class DigestExternals := {
  hmac_sha256 : string → string → Digest;
  json_text : Value → string;
}.

(** ** What a method does under the lock *)

(** The order in which a [HashMap] yields its keys is not specified. *)
Class MapOrder := {
  entry_order : gmap (string * string) ResponseState → list (string * string);
  entry_order_perm m : entry_order m ≡ₚ (map_to_list m).*1;
}.

Section locked.
Context `{Externals} `{EventExternals} `{DigestExternals} `{MapOrder}.

Definition response_digest (key : string) (response : Value) : Digest := hmac_sha256 key (json_text response).
Definition constant_time_eq (left right : Digest) : bool :=
  hmac_sha256 "whale-interaction-digest-compare" left == hmac_sha256 "whale-interaction-digest-compare" right.

Definition commit_or {E} (wrap : string → E) (now : N) (payload : InteractionEventPayload) :
    eff InteractionRecord E () := λ r,
  match commit now payload r with
  | Ok (r', _) => (Ok (), r')
  | Err e => (Err (wrap e), r)
  end.

(** [if record.enabled { record.commit(..)? }] *)
Definition commit_if_enabled {E} (wrap : string → E) (now : N) (payload : InteractionEventPayload) :
    eff InteractionRecord E () :=
  enabled ← gets ir_enabled;
  if (enabled : bool) then commit_or wrap now payload else mret ().

(** The number of pending entries of a run. *)
Definition pending_for_run (turn_id : string) (entries : gmap (string * string) ResponseState) : nat :=
  length (List.filter (λ '(key, state), (key.1 == turn_id) && is_pending_state state) (map_to_list entries)).

(** [register_run] *)
Definition register_locked (turn_id : string) (identity : nat) (r : InteractionRecord) :
    result string InteractionRecord :=
  match ir_run_identities r !! turn_id with
  | Some current => if decide (current = identity) then Ok r else Err "RunConflict"
  | None => Ok (set_ir_run_identities (<[turn_id := identity]> (ir_run_identities r)) r)
  end.

(** [unregister_run] *)
Definition unregister_locked (turn_id : string) (identity : nat) (r : InteractionRecord) : InteractionRecord :=
  if decide (ir_run_identities r !! turn_id = Some identity)
  then set_ir_run_identities (delete turn_id (ir_run_identities r)) r else r.

(** The guards of [begin]. *)
Definition begin_guards (turn_id request_id : string) (request : InteractionRequest) (r : InteractionRecord) :
    result CoreError () :=
  reject_if (negb (ir_enabled r) && (iq_kind request != KIND_TOOL_APPROVAL))
    (InteractionUnavailable "Interactions are disabled for this Session");;
  reject_if (is_none (ir_run_identities r !! turn_id)) (InteractionUnavailable "Interaction Run is not active");;
  reject_if (existsb (λ key, key.2 == request_id) (map_to_list (ir_entries r)).*1)
    (InteractionUnavailable "Duplicate Interaction request_id");;
  reject_if (bool_decide (MAX_PENDING_INTERACTIONS_PER_RUN <= pending_for_run turn_id (ir_entries r)))
    (InteractionUnavailable "A Run cannot contain more than 32 pending Interactions").

(** The locked block of [begin]: the generation of the new request. *)
Definition begin_locked (now : N) (turn_id request_id : string) (request : InteractionRequest)
    (origin : InteractionOrigin) (sender : nat) : eff InteractionRecord CoreError N :=
  guards ← gets (begin_guards turn_id request_id request);
  lift guards;;
  generation ← gets ir_next_generation;
  next ← lift (ok_or (checked_add generation 1)
                 (InteractionUnavailable "Interaction identity space is exhausted"));
  modify (set_ir_next_generation next);;
  pending ← lift (map_err InteractionRequestInvalid (PendingInteraction_new request_id turn_id request));
  commit_if_enabled InteractionUnavailable now (Requested pending);;
  modify (λ r, set_ir_entries (<[(turn_id, request_id) :=
      Pending {| pe_request := request; pe_sender := sender; pe_generation := generation; pe_origin := origin;
                 pe_typed_approval := iq_kind request == KIND_TOOL_APPROVAL |}]> (ir_entries r)) r);;
  mret generation.

(** What the first look of [commit_response] finds. *)
Inductive Peeked :=
  | PeekResolved (typed_approval : bool) (completion : nat)
  | PeekPending (request : InteractionRequest) (generation : N).

(** The first locked block of [commit_response]. *)
Definition peek_locked (key : string * string) (digest : Digest) (require_enabled : bool) (r : InteractionRecord) :
    result InteractionFailure Peeked :=
  reject_if (require_enabled && negb (ir_enabled r)) failure_disabled;;
  match ir_entries r !! key with
  | Some (Resolved previous _ typed_approval completion) =>
      if constant_time_eq previous digest then Ok (PeekResolved typed_approval completion) else Err failure_conflict
  | Some (Pending entry) => Ok (PeekPending (pe_request entry) (pe_generation entry))
  | None => Err (failure_not_found "InteractionNotFound")
  end.

(** What the second block of [commit_response] makes of the call: a follower of an
    earlier response, or the one that resolves the request. *)
Inductive Claimed :=
  | ClaimFollower (typed_approval : bool) (completion : nat)
  | ClaimLeader (typed_approval : bool) (sender completion : nat).

(** The second locked block of [commit_response]: [closed] is [Sender::is_closed],
    [completion] the new watch channel. *)
Definition claim_locked (closed : nat → bool) (now : N) (key : string * string) (digest : Digest) (generation : N)
    (require_enabled : bool) (completion : nat) : eff InteractionRecord InteractionFailure Claimed := λ r,
  if require_enabled && negb (ir_enabled r) then (Err failure_disabled, r) else
  match ir_entries r !! key with
  | Some (Resolved previous _ typed_approval completion) =>
      if constant_time_eq previous digest then (Ok (ClaimFollower typed_approval completion), r)
      else (Err failure_conflict, r)
  | Some (Pending entry) =>
      if decide (pe_generation entry = generation) then
        if closed (pe_sender entry) then
          (commit_if_enabled failure_unavailable now (Removed key.2 key.1 REMOVAL_ORIGIN_FINISHED);;
           lift (Err (failure_not_found "Interaction continuation is no longer active")))
            (set_ir_entries (delete key (ir_entries r)) r)
        else
          (Ok (ClaimLeader (pe_typed_approval entry) (pe_sender entry) completion),
           set_ir_entries (<[key := Resolved digest generation (pe_typed_approval entry) completion]> (ir_entries r)) r)
      else (Err (failure_not_found "InteractionNotFound"), r)
  | None => (Err (failure_not_found "InteractionNotFound"), r)
  end.

(** One turn of the loop of [clear_run] over the keys it found. *)
Definition clear_key (now : string * string → N) (cause : string) (st : InteractionRecord * list nat)
    (key : string * string) : InteractionRecord * list nat :=
  let '(r, senders) := st in
  match ir_entries r !! key with
  | None => st
  | Some state =>
      let r := set_ir_entries (delete key (ir_entries r)) r in
      match state with
      | Pending entry => (try_commit (now key) (Removed key.2 key.1 cause) r, senders ++ [pe_sender entry])
      | Resolved _ _ _ _ => (r, senders)
      end
  end.

(** The keys that [clear_run] clears. *)
Definition pending_keys (turn_id : string) (entries : gmap (string * string) ResponseState) : list (string * string) :=
  List.filter (λ key, (key.1 == turn_id) && is_some_and (entries !! key) is_pending_state) (entry_order entries).

(** The locked block of [clear_run]: the record and the senders to tell. *)
Definition clear_run_locked (now : string * string → N) (turn_id cause : string) (r : InteractionRecord) :
    InteractionRecord * list nat :=
  foldl (clear_key now cause) (r, []) (pending_keys turn_id (ir_entries r)).

(** The locked block of [clear_exact]: [None] when the identity is gone. *)
Definition clear_exact_locked (now : N) (turn_id request_id : string) (generation : N) (cause : string)
    (r : InteractionRecord) : option (InteractionRecord * nat) :=
  match ir_entries r !! (turn_id, request_id) with
  | Some (Pending entry) =>
      if decide (pe_generation entry = generation) then
        Some (try_commit now (Removed request_id turn_id cause)
                (set_ir_entries (delete (turn_id, request_id) (ir_entries r)) r), pe_sender entry)
      else None
  | _ => None
  end.

(** The identities that [clear_origin] clears. *)
Definition origin_requests (turn_id host_call_id : string) (entries : gmap (string * string) ResponseState) :
    list (string * string * N) :=
  omap (λ key, match entries !! key with
               | Some (Pending entry) =>
                   if (key.1 == turn_id) && (pe_origin entry == OriginHostCall host_call_id)
                   then Some (key, pe_generation entry) else None
               | _ => None
               end) (entry_order entries).

(** The generation that [clear_core_request] clears. *)
Definition core_request (key : string * string) (r : InteractionRecord) : option N :=
  match ir_entries r !! key with
  | Some (Pending entry) => if decide (pe_origin entry = OriginCore) then Some (pe_generation entry) else None
  | _ => None
  end.

(** [matches] of the two methods that finish a response. *)
Definition resolved_matches (key : string * string) (generation : N) (digest : Digest) (r : InteractionRecord) : bool :=
  match ir_entries r !! key with
  | Some (Resolved saved current _ _) => bool_decide (current = generation) && constant_time_eq saved digest
  | _ => false
  end.

(** [publish_resolved_exact] *)
Definition publish_resolved_locked (now : N) (key : string * string) (generation : N) (digest : Digest) :
    eff InteractionRecord InteractionFailure () := λ r,
  if resolved_matches key generation digest r
  then commit_if_enabled failure_unavailable now (Removed key.2 key.1 REMOVAL_RESOLVED) r
  else (Err (failure_not_found "Interaction response transaction is no longer active"), r).

(** [abort_resolved_exact] *)
Definition abort_resolved_locked (now : N) (key : string * string) (generation : N) (digest : Digest) (cause : string)
    (r : InteractionRecord) : InteractionRecord :=
  if resolved_matches key generation digest r then
    let r :=
      if ir_enabled r then
        match commit now (Removed key.2 key.1 cause) r with
        | Ok (r', _) => r'
        | Err _ =>
            let s := ir_snapshot r in
            set_ir_snapshot {| is_thread_id := is_thread_id s; is_cursor := is_cursor s;
                               is_pending := List.filter (λ p, negb (is_request key.1 key.2 p)) (is_pending s) |} r
        end
      else r in
    set_ir_entries (delete key (ir_entries r)) r
  else r.

(** [retire_run]: its answer and the record after it. *)
Definition retire_locked (turn_id : string) (identity : nat) (r : InteractionRecord) : bool * InteractionRecord :=
  match ir_run_identities r !! turn_id with
  | None =>
      (negb (existsb (λ key, key.1 == turn_id) (map_to_list (ir_entries r)).*1) &&
       negb (existsb (λ e, je_turn_id e == turn_id) (ir_journal r)), r)
  | Some current =>
      if decide (current = identity) then
        if existsb (λ '(key, state), (key.1 == turn_id) && is_pending_state state) (map_to_list (ir_entries r))
        then (false, r)
        else
          let r := scrub_turn turn_id r in
          (true, set_ir_run_identities (delete turn_id (ir_run_identities r))
                   (set_ir_entries (filter (λ kv, kv.1.1 ≠ turn_id) (ir_entries r)) r))
      else (false, r)
  end.

(** [get], on the record *)
Definition get_locked (r : InteractionRecord) : result InteractionFailure InteractionSnapshot :=
  reject_if (negb (ir_enabled r)) failure_disabled;;
  Ok (ir_snapshot r).

(** [get_turn], on the record *)
Definition get_turn_locked (thread_id turn_id : string) (r : InteractionRecord) :
    result InteractionFailure TurnInteractionSnapshot :=
  reject_if (negb (ir_enabled r)) failure_disabled;;
  map_err failure_invalid
    (TurnInteractionSnapshot_new thread_id turn_id (ir_cursor r)
       (List.filter (λ p, pi_turn_id p == turn_id) (ir_pending r))).
End locked.
