(* ===== verification/InteractionServer.v ===== *)
(** * The interaction registry and its response transactions

    [crates/whale-daemon/src/interactions.rs]: [InteractionRegistry], [ResponseCommit]
    and [finish_response_commit], with the oneshot channels of the waiting
    continuations and the watch channels of the responses as one state. Every method
    is a function; [lives_on] interleaves them at the granularity of the locks: a
    response is claimed, staged, published and acknowledged in separate steps, between
    which the run may be cancelled, cleared, retired or closed. *)

From S2P Require Import Prelude EventJournal Protocol StoreState CoreSession SessionManagement Interactions InteractionRecord.

(** ** Channels *)

(** The oneshot channel of a continuation, and what the continuation has become: it
    waits, it holds a delivery whose commit is outstanding, it has its final message, or
    its receiver was dropped before. *)
Inductive TicketState :=
  | TicketWaiting
  | TicketStaged (response : Value)
  | TicketDone (outcome : result CoreError Value)
  | TicketDropped.

(** [ResponseCompletion] *)
Inductive ResponseCompletion := Leader (completion : nat) | Follower (completion : nat).

Record ResolveOutcome := { ro_typed_approval : bool; ro_newly_resolved : bool }.

(** [ResponseCommit]; [cm_sender] and [cm_delivery_commit] are the two channels of the
    continuation, both named by its ticket. *)
Record ResponseCommit := {
  cm_thread_id : string;
  cm_turn_id : string;
  cm_request_id : string;
  cm_digest : Digest;
  cm_generation : N;
  cm_sender : option nat;
  cm_response : option Value;
  cm_delivery_commit : option nat;
  cm_typed_approval : bool;
  cm_newly_resolved : bool;
  cm_completion : option ResponseCompletion;
}.

Definition cm_eta (c : ResponseCommit) : ResponseCommit :=
  {| cm_thread_id := cm_thread_id c; cm_turn_id := cm_turn_id c; cm_request_id := cm_request_id c;
     cm_digest := cm_digest c; cm_generation := cm_generation c; cm_sender := cm_sender c; cm_response := cm_response c;
     cm_delivery_commit := cm_delivery_commit c; cm_typed_approval := cm_typed_approval c;
     cm_newly_resolved := cm_newly_resolved c; cm_completion := cm_completion c |}.

(** [InteractionTicket] with the identity that its cleanup clears. *)
Record InteractionTicket := {
  tk_thread_id : string;
  tk_turn_id : string;
  tk_request_id : string;
  tk_generation : N;
  tk_channel : nat;
}.

(** ** The state *)

(** A call of [commit_response] on its way: after its first look, with the commit it
    made, with the delivery staged, past the liveness check, or done. The roles that
    [Answered] remembers are those of the commit that is gone then. *)
Inductive Phase :=
  | Peeking (generation : N)
  | Claiming (commit : ResponseCommit)
  | Staging (commit : ResponseCommit)
  | Checked (commit : ResponseCommit)
  | Answered (completion : option ResponseCompletion) (ticket : option nat)
      (outcome : result InteractionFailure ResolveOutcome).

Record Transaction := {
  tx_params : RespondInteractionParams;
  tx_record : nat;
  tx_require_enabled : bool;
  tx_phase : Phase;
}.

Record Interactions := {
  iw_records : gmap string nat;
  iw_heap : gmap nat InteractionRecord;
  iw_tickets : gmap nat TicketState;
  iw_completions : gmap nat (option (result InteractionFailure ()));
  iw_transactions : gmap nat Transaction;
  iw_next : nat;
  iw_limits : InteractionJournalLimits;
  iw_digest_key : string;
}.

Definition iw_eta (w : Interactions) : Interactions :=
  {| iw_records := iw_records w; iw_heap := iw_heap w; iw_tickets := iw_tickets w;
     iw_completions := iw_completions w; iw_transactions := iw_transactions w; iw_next := iw_next w;
     iw_limits := iw_limits w; iw_digest_key := iw_digest_key w |}.
Definition set_records (v : gmap string nat) (w : Interactions) : Interactions :=
  ltac:(update_field iw_eta iw_records v w).
Definition set_heap (v : gmap nat InteractionRecord) (w : Interactions) : Interactions :=
  ltac:(update_field iw_eta iw_heap v w).
Definition set_tickets (v : gmap nat TicketState) (w : Interactions) : Interactions :=
  ltac:(update_field iw_eta iw_tickets v w).
Definition set_completions (v : gmap nat (option (result InteractionFailure ()))) (w : Interactions) : Interactions :=
  ltac:(update_field iw_eta iw_completions v w).
Definition set_transactions (v : gmap nat Transaction) (w : Interactions) : Interactions :=
  ltac:(update_field iw_eta iw_transactions v w).
Definition set_next (v : nat) (w : Interactions) : Interactions := ltac:(update_field iw_eta iw_next v w).

(** [InteractionRegistry::default] *)
Definition interactions_empty (limits : InteractionJournalLimits) (digest_key : string) : Interactions :=
  {| iw_records := ∅; iw_heap := ∅; iw_tickets := ∅; iw_completions := ∅; iw_transactions := ∅; iw_next := 0;
     iw_limits := limits; iw_digest_key := digest_key |}.

(** ** Channels in use *)

(** [sender.send(Err(error))] of a continuation *)
Definition send_error (error : CoreError) (ticket : nat) (w : Interactions) : Interactions :=
  match iw_tickets w !! ticket with
  | Some (TicketWaiting | TicketStaged _) => set_tickets (<[ticket := TicketDone (Err error)]> (iw_tickets w)) w
  | _ => w
  end.

(** [sender.send(Ok(delivery))]: whether the receiver was there. *)
Definition send_delivery (response : Value) (ticket : nat) (w : Interactions) : bool * Interactions :=
  match iw_tickets w !! ticket with
  | Some TicketWaiting => (true, set_tickets (<[ticket := TicketStaged response]> (iw_tickets w)) w)
  | _ => (false, w)
  end.

(** [commit.send(Ok(()))] of a staged delivery *)
Definition commit_delivery (ticket : nat) (w : Interactions) : Interactions :=
  match iw_tickets w !! ticket with
  | Some (TicketStaged response) => set_tickets (<[ticket := TicketDone (Ok response)]> (iw_tickets w)) w
  | _ => w
  end.

(** [Sender::is_closed] of either channel of a continuation *)
Definition is_closed (w : Interactions) (ticket : nat) : bool :=
  match iw_tickets w !! ticket with Some TicketDropped => true | _ => false end.

(** The receiving future is dropped. *)
Definition drop_receiver (ticket : nat) (w : Interactions) : Interactions :=
  match iw_tickets w !! ticket with
  | Some (TicketWaiting | TicketStaged _) => set_tickets (<[ticket := TicketDropped]> (iw_tickets w)) w
  | _ => w
  end.

(** ** The registry *)

Section server.
Context `{Externals} `{SchemaExternals} `{EventExternals} `{DigestExternals} `{MapOrder}.
Implicit Types (w : Interactions) (r : InteractionRecord).

(** [record] *)
Definition record_of (thread_id : string) (w : Interactions) : result string (nat * InteractionRecord) :=
  address ← ok_or (iw_records w !! thread_id) "SessionNotFound";
  r ← ok_or (iw_heap w !! address) "SessionNotFound";
  Ok (address, r).

(** [owned] *)
Definition owned_record (owner thread_id : string) (w : Interactions) : result string (nat * InteractionRecord) :=
  '(address, r) ← record_of thread_id w;
  reject_if (ir_owner r != owner) "SessionNotFound";;
  Ok (address, r).

Definition put_record (address : nat) (r : InteractionRecord) (w : Interactions) : Interactions :=
  set_heap (<[address := r]> (iw_heap w)) w.

(** [insert]; [stream_id] is the new uuid. *)
Definition interactions_insert (owner thread_id : string) (enabled : bool) (stream_id : string) (w : Interactions) :
    result string Interactions :=
  r ← InteractionRecord_new owner thread_id enabled (iw_limits w) stream_id;
  match iw_records w !! thread_id with
  | Some _ => Err "SessionAlreadyExists"
  | None => Ok (set_next (S (iw_next w)) (set_records (<[thread_id := iw_next w]> (iw_records w))
                  (put_record (iw_next w) r w)))
  end.

(** [enabled] *)
Definition interactions_enabled (owner thread_id : string) (w : Interactions) : result string bool :=
  '(_, r) ← owned_record owner thread_id w;
  Ok (ir_enabled r).

(** [get] *)
Definition interactions_get (owner thread_id : string) (w : Interactions) :
    result InteractionFailure InteractionSnapshot :=
  map_err failure_invalid (GetSessionInteractionsParams_validate thread_id);;
  '(_, r) ← map_err failure_unavailable (owned_record owner thread_id w);
  get_locked r.

(** [get_turn] *)
Definition interactions_get_turn (owner thread_id turn_id : string) (w : Interactions) :
    result InteractionFailure TurnInteractionSnapshot :=
  map_err failure_invalid (GetTurnInteractionsParams_validate thread_id turn_id);;
  '(_, r) ← map_err failure_unavailable (owned_record owner thread_id w);
  get_turn_locked thread_id turn_id r.

(** [subscribe] *)
Definition interactions_subscribe (owner : string) (params : SubscribeInteractionsParams) (w : Interactions) :
    result InteractionFailure SubscribeInteractionsResult :=
  '(_, r) ← map_err failure_unavailable (owned_record owner (si_thread_id params) w);
  reject_if (negb (ir_enabled r)) failure_disabled;;
  map_err failure_invalid (replay_interactions r params).

(** [register_run] *)
Definition register_run (owner thread_id turn_id : string) (identity : nat) (w : Interactions) :
    result string Interactions :=
  '(address, r) ← owned_record owner thread_id w;
  r ← register_locked turn_id identity r;
  Ok (put_record address r w).

(** [unregister_run] *)
Definition unregister_run (owner thread_id turn_id : string) (identity : nat) (w : Interactions) : Interactions :=
  match owned_record owner thread_id w with
  | Ok (address, r) => put_record address (unregister_locked turn_id identity r) w
  | Err _ => w
  end.

(** [begin]: the ticket, with its channel open. *)
Definition begin_interaction (now : N) (context : RunContextInfo) (request_id : string) (request : InteractionRequest)
    (origin : InteractionOrigin) : eff Interactions CoreError InteractionTicket := λ w,
  match validate_interaction_request request,
        map_err InteractionUnavailable (record_of (ctx_thread_id context) w) with
  | Err e, _ | Ok _, Err e => (Err e, w)
  | Ok _, Ok (address, r) =>
      let channel := iw_next w in
      match begin_locked now (ctx_turn_id context) request_id request origin channel r with
      | (Err e, r) => (Err e, put_record address r w)
      | (Ok generation, r) =>
          (Ok {| tk_thread_id := ctx_thread_id context; tk_turn_id := ctx_turn_id context;
                 tk_request_id := request_id; tk_generation := generation; tk_channel := channel |},
           set_next (S channel) (set_tickets (<[channel := TicketWaiting]> (iw_tickets w)) (put_record address r w)))
      end
  end.

(** [begin_host] *)
Definition begin_host (now : N) (context : RunContextInfo) (host_call_id request_id : string)
    (request : InteractionRequest) : eff Interactions CoreError InteractionTicket :=
  begin_interaction now context request_id request (OriginHostCall host_call_id).

(** [clear_run] *)
Definition clear_run (now : string * string → N) (owner thread_id turn_id cause : string) (w : Interactions) :
    Interactions :=
  match owned_record owner thread_id w with
  | Err _ => w
  | Ok (address, r) =>
      let '(r, senders) := clear_run_locked now turn_id cause r in
      foldl (λ w sender, send_error (InteractionCancelled cause) sender w) (put_record address r w) senders
  end.

(** [clear_exact] *)
Definition clear_exact (now : N) (thread_id turn_id request_id : string) (generation : N) (cause : string)
    (w : Interactions) : Interactions :=
  match record_of thread_id w with
  | Err _ => w
  | Ok (address, r) =>
      match clear_exact_locked now turn_id request_id generation cause r with
      | None => w
      | Some (r, sender) => send_error (InteractionCancelled cause) sender (put_record address r w)
      end
  end.

(** [clear_origin] *)
Definition clear_origin (now : N) (owner thread_id turn_id host_call_id cause : string) (w : Interactions) :
    Interactions :=
  match owned_record owner thread_id w with
  | Err _ => w
  | Ok (_, r) =>
      foldl (λ w '(key, generation), clear_exact now thread_id key.1 key.2 generation cause w) w
        (origin_requests turn_id host_call_id (ir_entries r))
  end.

(** [clear_core_request] *)
Definition clear_core_request (now : N) (context : RunContextInfo) (request_id cause : string) (w : Interactions) :
    Interactions :=
  match record_of (ctx_thread_id context) w with
  | Err _ => w
  | Ok (_, r) =>
      match core_request (ctx_turn_id context, request_id) r with
      | Some generation =>
          clear_exact now (ctx_thread_id context) (ctx_turn_id context) request_id generation cause w
      | None => w
      end
  end.

(** [Drop] of [InteractionTicket]: the receiver goes first, then the cleanup of [begin] runs. *)
Definition drop_ticket (now : N) (ticket : InteractionTicket) (w : Interactions) : Interactions :=
  clear_exact now (tk_thread_id ticket) (tk_turn_id ticket) (tk_request_id ticket) (tk_generation ticket)
    REMOVAL_ORIGIN_FINISHED (drop_receiver (tk_channel ticket) w).

(** [find_request]; the order of the two iterations is not specified. *)
Definition find_request (owner request_id : string) (w : Interactions) : option (string * string) :=
  head (omap (λ '(thread_id, address),
    r ← iw_heap w !! address;
    if ir_owner r == owner
    then (λ key, (thread_id, key.1)) <$> find_first (λ key, key.2 == request_id) (entry_order (ir_entries r))
    else None) (map_to_list (iw_records w))).

(** [retire_run] *)
Definition interactions_retire_run (owner thread_id turn_id : string) (identity : nat) (w : Interactions) :
    bool * Interactions :=
  match owned_record owner thread_id w with
  | Err _ => (false, w)
  | Ok (address, r) => let '(answer, r) := retire_locked turn_id identity r in (answer, put_record address r w)
  end.

(** [close_session]; the queue of the notifier is drained or dropped with the record. *)
Definition close_session (now : string * string → N) (owner thread_id cause : string) (w : Interactions) :
    Interactions :=
  match owned_record owner thread_id w with
  | Err _ => w
  | Ok (_, r) =>
      let turns := (entry_order (ir_entries r)).*1 in
      let w := foldl (λ w turn, clear_run now owner thread_id turn cause w) w turns in
      set_records (delete thread_id (iw_records w)) w
  end.

(** ** Responses *)

(** The start of [commit_response]: the record, the tag and what is found under the
    lock. [owner] is [None] for the core's own calls. *)
Definition peek_response (owner : option string) (params : RespondInteractionParams) (require_enabled : bool) w :
    result InteractionFailure (nat * Peeked) :=
  map_err failure_response_invalid (RespondInteractionParams_validate params);;
  let digest := response_digest (iw_digest_key w) (rp_response params) in
  '(address, r) ← match owner with
                  | Some owner => map_err failure_unavailable (owned_record owner (rp_thread_id params) w)
                  | None => map_err failure_not_found (record_of (rp_thread_id params) w)
                  end;
  found ← peek_locked (rp_turn_id params, rp_request_id params) digest require_enabled r;
  match found with
  | PeekPending request _ => map_err response_refused (validate_interaction_response request (rp_response params))
  | PeekResolved _ _ => Ok ()
  end;;
  Ok (address, found).

(** [ResponseCommit::idempotent] *)
Definition commit_idempotent (params : RespondInteractionParams) (typed_approval : bool) (completion : nat) :
    ResponseCommit :=
  {| cm_thread_id := rp_thread_id params; cm_turn_id := rp_turn_id params; cm_request_id := rp_request_id params;
     cm_digest := ""; cm_generation := 0; cm_sender := None; cm_response := None; cm_delivery_commit := None;
     cm_typed_approval := typed_approval; cm_newly_resolved := false; cm_completion := Some (Follower completion) |}.

Definition commit_leader (params : RespondInteractionParams) (digest : Digest) (generation : N) (typed_approval : bool)
    (sender completion : nat) : ResponseCommit :=
  {| cm_thread_id := rp_thread_id params; cm_turn_id := rp_turn_id params; cm_request_id := rp_request_id params;
     cm_digest := digest; cm_generation := generation; cm_sender := Some sender;
     cm_response := Some (rp_response params); cm_delivery_commit := None; cm_typed_approval := typed_approval;
     cm_newly_resolved := true; cm_completion := Some (Leader completion) |}.

(** The rest of [commit_response], on the record found before. *)
Definition claim_response (now : N) (address : nat) (generation : N) (params : RespondInteractionParams)
    (require_enabled : bool) : eff Interactions InteractionFailure ResponseCommit := λ w,
  let digest := response_digest (iw_digest_key w) (rp_response params) in
  match iw_heap w !! address with
  | None => (Err (failure_not_found "InteractionNotFound"), w)
  | Some r =>
      match claim_locked (is_closed w) now (rp_turn_id params, rp_request_id params) digest generation require_enabled
              (iw_next w) r with
      | (Err e, r) => (Err e, put_record address r w)
      | (Ok (ClaimFollower typed_approval completion), r) =>
          (Ok (commit_idempotent params typed_approval completion), put_record address r w)
      | (Ok (ClaimLeader typed_approval sender completion), r) =>
          (Ok (commit_leader params digest generation typed_approval sender completion),
           set_next (S completion) (set_completions (<[completion := None]> (iw_completions w))
             (put_record address r w)))
      end
  end.

(** [commit_response] without interruption *)
Definition commit_response (now : N) (owner : option string) (params : RespondInteractionParams)
    (require_enabled : bool) : eff Interactions InteractionFailure ResponseCommit := λ w,
  match peek_response owner params require_enabled w with
  | Err e => (Err e, w)
  | Ok (_, PeekResolved typed_approval completion) => (Ok (commit_idempotent params typed_approval completion), w)
  | Ok (address, PeekPending _ generation) => claim_response now address generation params require_enabled w
  end.

(** [signal_completion] *)
Definition signal_completion (outcome : result InteractionFailure ()) (c : ResponseCommit) w : Interactions :=
  match cm_completion c with
  | Some (Leader completion) => set_completions (<[completion := Some outcome]> (iw_completions w)) w
  | _ => w
  end.

(** [publish_resolved_exact] and [abort_resolved_exact] of the commit's identity *)
Definition publish_resolution (now : N) (c : ResponseCommit) : eff Interactions InteractionFailure () := λ w,
  match record_of (cm_thread_id c) w with
  | Err e => (Err (failure_not_found e), w)
  | Ok (address, r) =>
      let '(answer, r) := publish_resolved_locked now (cm_turn_id c, cm_request_id c) (cm_generation c) (cm_digest c) r in
      (answer, put_record address r w)
  end.

Definition abort_resolution (now : N) (c : ResponseCommit) (cause : string) w : Interactions :=
  match record_of (cm_thread_id c) w with
  | Err _ => w
  | Ok (address, r) =>
      put_record address (abort_resolved_locked now (cm_turn_id c, cm_request_id c) (cm_generation c) (cm_digest c) cause r) w
  end.

(** The error that the continuation is told through whichever channel is left. *)
Definition tell_continuation (error : CoreError) (c : ResponseCommit) w : Interactions :=
  let w := match cm_sender c with Some ticket => send_error error ticket w | None => w end in
  match cm_delivery_commit c with Some ticket => send_error error ticket w | None => w end.

(** [ResponseCommit::abort] *)
Definition abort_commit (now : N) (cause : string) (failure : InteractionFailure) (c : ResponseCommit) w : Interactions :=
  signal_completion (Err failure) c (tell_continuation (into_core failure) c (abort_resolution now c cause w)).

Definition failure_inactive : InteractionFailure :=
  failure_not_found "Interaction continuation is no longer active".

(** [ResponseCommit::stage_delivery]: [expect] never fails, because a new response has
    its sender and its value until here. *)
Definition stage_delivery (now : N) (c : ResponseCommit) : eff Interactions InteractionFailure ResponseCommit := λ w,
  if negb (cm_newly_resolved c) || is_some (cm_delivery_commit c) then (Ok c, w) else
  match cm_sender c, cm_response c with
  | Some ticket, Some response =>
      match send_delivery response ticket w with
      | (false, w) => (Err failure_inactive,
                       signal_completion (Err failure_inactive) c (abort_resolution now c REMOVAL_ORIGIN_FINISHED w))
      | (true, w) =>
          (Ok {| cm_thread_id := cm_thread_id c; cm_turn_id := cm_turn_id c; cm_request_id := cm_request_id c;
                 cm_digest := cm_digest c; cm_generation := cm_generation c; cm_sender := None; cm_response := None;
                 cm_delivery_commit := Some ticket; cm_typed_approval := cm_typed_approval c;
                 cm_newly_resolved := cm_newly_resolved c; cm_completion := cm_completion c |}, w)
      end
  | _, _ => (Ok c, w)
  end.

Definition commit_outcome (c : ResponseCommit) : ResolveOutcome :=
  {| ro_typed_approval := cm_typed_approval c; ro_newly_resolved := cm_newly_resolved c |}.

(** [release] up to its liveness check, for a delivery that is staged *)
Definition release_check (now : N) (c : ResponseCommit) : eff Interactions InteractionFailure () := λ w,
  if is_some_and (cm_delivery_commit c) (is_closed w)
  then (Err failure_inactive, abort_commit now REMOVAL_ORIGIN_FINISHED failure_inactive c w)
  else (Ok (), w).

Definition failure_publication (e : InteractionFailure) : InteractionFailure :=
  failure_unavailable ("Interaction resolution publication failed: " +:+ if_message e).

(** [release] after its liveness check *)
Definition release_publish (now : N) (c : ResponseCommit) : eff Interactions InteractionFailure ResolveOutcome := λ w,
  match publish_resolution now c w with
  | (Err e, w) => (Err (failure_publication e),
                   abort_commit now REMOVAL_PUBLICATION_FAILED (failure_publication e) c w)
  | (Ok _, w) =>
      let w := match cm_delivery_commit c with Some ticket => commit_delivery ticket w | None => w end in
      (Ok (commit_outcome c), signal_completion (Ok ()) c w)
  end.

(** [ResponseCommit::release] *)
Definition release (now : N) (c : ResponseCommit) : eff Interactions InteractionFailure ResolveOutcome :=
  if cm_newly_resolved c then c ← stage_delivery now c; release_check now c;; release_publish now c
  else mret (commit_outcome c).

(** [ResponseCommit::complete]: [None] while a follower has to wait. A leader keeps its
    channel until it has signalled, so that a follower never sees it closed. *)
Definition complete (now : N) (c : ResponseCommit) w :
    option (result InteractionFailure ResolveOutcome * Interactions) :=
  if cm_newly_resolved c then Some (release now c w) else
  match cm_completion c with
  | Some (Follower completion) =>
      match iw_completions w !! completion with
      | Some (Some answer) => Some ((λ _, commit_outcome c) <$> answer, w)
      | _ => None
      end
  | _ => Some (Ok (commit_outcome c), w)
  end.

(** [Drop] of [ResponseCommit] *)
Definition drop_commit (now : N) (c : ResponseCommit) w : Interactions :=
  if is_none (cm_sender c) && is_none (cm_delivery_commit c) then w else
  let w := if cm_newly_resolved c then abort_resolution now c REMOVAL_PUBLICATION_FAILED w else w in
  let failure := failure_unavailable "Interaction response transaction was abandoned" in
  signal_completion (Err failure) c (tell_continuation (into_core failure) c w).

(** The change of the run's snapshot in [finish_response_commit]: [None] when the
    approval was not pending. *)
Definition drop_approval (request_id : string) (snapshot : RunSnapshot) : option RunSnapshot :=
  let rest := List.filter (λ approval, pa_request_id approval != request_id) (snap_pending_approvals snapshot) in
  if decide (length rest = length (snap_pending_approvals snapshot)) then None else
  let status := if (rest == []) && (snap_status snapshot == RunWaitingApproval) then RunRunning
                else snap_status snapshot in
  Some {| snap_tool_executions := snap_tool_executions snapshot; snap_thread_id := snap_thread_id snapshot;
          snap_turn_id := snap_turn_id snapshot; snap_status := status; snap_items := snap_items snapshot;
          snap_usage := snap_usage snapshot; snap_pending_approvals := rest; snap_last_seq := snap_last_seq snapshot;
          snap_result := snap_result snapshot; snap_error := snap_error snapshot |}.

Definition failure_projection (error : string) : InteractionFailure :=
  failure_unavailable ("Typed Interaction projection publication failed: " +:+ error).

(** [finish_response_commit] without interruption, on the run's snapshot: [published] is
    the outcome of [commit_session_event] on the changed snapshot. *)
Definition finish_response_commit (now : N) (published : RunSnapshot → result string ()) (c : ResponseCommit)
    (snapshot : RunSnapshot) w :
    option (result InteractionFailure ResolveOutcome * RunSnapshot * Interactions) :=
  let with_snapshot s o := (λ '(answer, w), (answer, s, w)) <$> o in
  match (if cm_newly_resolved c then stage_delivery now c w else (Ok c, w)) with
  | (Err e, w) => Some (Err e, snapshot, w)
  | (Ok c, w) =>
      match (if cm_typed_approval c && cm_newly_resolved c then drop_approval (cm_request_id c) snapshot else None) with
      | None => with_snapshot snapshot (complete now c w)
      | Some changed =>
          match published changed with
          | Err error => Some (Err (failure_projection error), changed,
                               abort_commit now REMOVAL_PUBLICATION_FAILED (failure_projection error) c w)
          | Ok _ => with_snapshot changed (complete now c w)
          end
      end
  end.

(** ** Typed approvals of [server.rs] *)

Inductive RunApprovalDecision := ApproveRun | RejectRun | ModifyRunArguments.

(** The response that [handle_run_approval] makes of a decision. *)
Definition typed_response (decision : RunApprovalDecision) (arguments : option Value) (feedback : option string) :
    result string Value :=
  match decision with
  | ApproveRun => Ok (Object {["decision" := Str "approve"]})
  | RejectRun =>
      Ok (Object match feedback with
                 | Some feedback => {["decision" := Str "reject"; "feedback" := Str feedback]}
                 | None => {["decision" := Str "reject"]}
                 end)
  | ModifyRunArguments =>
      arguments ← ok_or arguments "Modified arguments required";
      Ok (Object {["decision" := Str "modify_arguments"; "arguments" := arguments]})
  end.

(** [RespondInteractionParams::new] *)
Definition RespondInteractionParams_new (thread_id turn_id request_id : string) (response : Value) :
    result string RespondInteractionParams :=
  let value := {| rp_thread_id := thread_id; rp_turn_id := turn_id; rp_request_id := request_id;
                  rp_response := response |} in
  RespondInteractionParams_validate value;; Ok value.

(** The parameters that [handle_run_approval] builds; an outer [None] is the panic of
    its [expect]. *)
Definition approval_params (thread_id turn_id request_id : string) (decision : RunApprovalDecision)
    (arguments : option Value) (feedback : option string) : option (result string RespondInteractionParams) :=
  match typed_response decision arguments feedback with
  | Err e => Some (Err e)
  | Ok response =>
      match RespondInteractionParams_new thread_id turn_id request_id response with
      | Ok params => Some (Ok params)
      | Err _ => None
      end
  end.

(** ** Interleavings *)

(** No response of the run is between its claim and its answer. *)
Definition run_is_quiet (thread_id turn_id : string) w : Prop :=
  ∀ address r request_id digest generation typed completion,
    record_of thread_id w = Ok (address, r) →
    ir_entries r !! (turn_id, request_id) = Some (Resolved digest generation typed completion) →
    iw_completions w !! completion ≠ Some None.

Definition put_transaction (i : nat) (tx : Transaction) w : Interactions :=
  set_transactions (<[i := tx]> (iw_transactions w)) w.
Definition in_phase (tx : Transaction) (phase : Phase) : Transaction :=
  {| tx_params := tx_params tx; tx_record := tx_record tx; tx_require_enabled := tx_require_enabled tx;
     tx_phase := phase |}.
(** The channel of the continuation that a commit answers. *)
Definition cm_ticket (c : ResponseCommit) : option nat :=
  match cm_sender c with Some ticket => Some ticket | None => cm_delivery_commit c end.
Definition answered (c : ResponseCommit) (outcome : result InteractionFailure ResolveOutcome) : Phase :=
  Answered (cm_completion c) (cm_ticket c) outcome.

(** What a caller starts with after its first look. *)
Definition peeked_phase (params : RespondInteractionParams) (found : Peeked) : Phase :=
  match found with
  | PeekPending _ generation => Peeking generation
  | PeekResolved typed_approval completion => Claiming (commit_idempotent params typed_approval completion)
  end.

(** One step of the registry: a whole method, or a caller of [commit_response] one lock
    further. [strict] is for the histories in which no run is retired while a response
    to one of its requests is on its way. *)
Inductive lives_on (strict : bool) : Interactions → Interactions → Prop :=
  | StepInsert owner thread_id enabled stream_id w w' :
      (∀ address r, iw_heap w !! address = Some r → is_thread_id (ir_snapshot r) ≠ thread_id) →
      interactions_insert owner thread_id enabled stream_id w = Ok w' → lives_on strict w w'
  | StepRegister owner thread_id turn_id identity w w' :
      register_run owner thread_id turn_id identity w = Ok w' → lives_on strict w w'
  | StepUnregister owner thread_id turn_id identity w :
      lives_on strict w (unregister_run owner thread_id turn_id identity w)
  | StepBegin now context request_id request origin w answer w' :
      begin_interaction now context request_id request origin w = (answer, w') → lives_on strict w w'
  | StepDropReceiver ticket w : lives_on strict w (drop_receiver ticket w)
  | StepClearRun now owner thread_id turn_id cause w :
      cause ∈ REMOVAL_CAUSES → lives_on strict w (clear_run now owner thread_id turn_id cause w)
  | StepClearExact now thread_id turn_id request_id generation cause w :
      cause ∈ REMOVAL_CAUSES →
      lives_on strict w (clear_exact now thread_id turn_id request_id generation cause w)
  | StepRetire owner thread_id turn_id identity w :
      (strict = true → run_is_quiet thread_id turn_id w) →
      lives_on strict w (interactions_retire_run owner thread_id turn_id identity w).2
  | StepClose now owner thread_id cause w :
      cause ∈ REMOVAL_CAUSES → lives_on strict w (close_session now owner thread_id cause w)
  | StepPeek owner params require_enabled address found w :
      peek_response owner params require_enabled w = Ok (address, found) →
      lives_on strict w
        (set_next (S (iw_next w))
           (put_transaction (iw_next w)
              {| tx_params := params; tx_record := address; tx_require_enabled := require_enabled;
                 tx_phase := peeked_phase params found |} w))
  | StepClaim i tx now generation answer w w' :
      iw_transactions w !! i = Some tx → tx_phase tx = Peeking generation →
      claim_response now (tx_record tx) generation (tx_params tx) (tx_require_enabled tx) w = (answer, w') →
      lives_on strict w
        (put_transaction i (in_phase tx match answer with
                                        | Ok c => Claiming c
                                        | Err e => Answered None None (Err e)
                                        end) w')
  | StepStage i tx c now answer w w' :
      iw_transactions w !! i = Some tx → tx_phase tx = Claiming c → cm_newly_resolved c = true →
      stage_delivery now c w = (answer, w') →
      lives_on strict w
        (put_transaction i (in_phase tx match answer with
                                        | Ok c => Staging c
                                        | Err e => answered c (Err e)
                                        end) w')
  | StepPublicationFailed i tx c now error w :
      iw_transactions w !! i = Some tx → tx_phase tx = Staging c → cm_typed_approval c = true →
      lives_on strict w
        (put_transaction i (in_phase tx (answered c (Err (failure_projection error))))
           (abort_commit now REMOVAL_PUBLICATION_FAILED (failure_projection error) c w))
  | StepDropCommit i tx c now e w :
      iw_transactions w !! i = Some tx → tx_phase tx = Claiming c ∨ tx_phase tx = Staging c →
      lives_on strict w (put_transaction i (in_phase tx (answered c (Err e))) (drop_commit now c w))
  | StepCheck i tx c now answer w w' :
      iw_transactions w !! i = Some tx → tx_phase tx = Staging c → release_check now c w = (answer, w') →
      lives_on strict w
        (put_transaction i (in_phase tx match answer with
                                        | Ok _ => Checked c
                                        | Err e => answered c (Err e)
                                        end) w')
  | StepRelease i tx c now answer w w' :
      iw_transactions w !! i = Some tx → tx_phase tx = Checked c → release_publish now c w = (answer, w') →
      lives_on strict w (put_transaction i (in_phase tx (answered c answer)) w')
  | StepFollow i tx c now answer w w' :
      iw_transactions w !! i = Some tx → tx_phase tx = Claiming c → cm_newly_resolved c = false →
      complete now c w = Some (answer, w') →
      lives_on strict w (put_transaction i (in_phase tx (answered c answer)) w').

(** What has become of an empty registry. *)
Definition lived (strict : bool) (limits : InteractionJournalLimits) (digest_key : string) (w : Interactions) : Prop :=
  rtc (lives_on strict) (interactions_empty limits digest_key) w.
End server.
