(* ===== verification/InteractionLaws.v ===== *)
(** * Laws of a session's interactions

    What the snapshot validator accepts, when an event can be published and what it
    does to the record, and that the journal stays a chain of valid events within its
    limits. *)

From S2P Require Import Prelude EventJournal Protocol StoreState CoreSession Interactions InteractionRecord.

(** ** Cursors *)

Definition same_stream_place (c c' : InteractionCursor) : Prop :=
  ic_thread_id c = ic_thread_id c' ∧ ic_stream_id c = ic_stream_id c'.

#[export] Instance same_stream_place_equivalence : Equivalence same_stream_place.
Proof. split; [done|by intros ?? [??]|intros ??? [??] [??]; split; congruence]. Qed.

Lemma in_same_stream_true c c' : in_same_stream c c' = true ↔ same_stream_place c c'.
Proof. unfold in_same_stream, same_stream_place. by rewrite andb_true_iff, !bool_decide_eq_true. Qed.

Lemma interaction_cursor_eq c c' : same_stream_place c c' → ic_seq c = ic_seq c' → c = c'.
Proof. destruct c, c'. intros [??] ?. simpl in *. congruence. Qed.

Lemma interaction_cursor_place c c' :
  same_stream_place c c' → InteractionCursor_validate c = InteractionCursor_validate c'.
Proof. unfold InteractionCursor_validate. by intros [-> ->]. Qed.

Lemma cursor_next_Ok c c' :
  cursor_next c = Ok c' ↔
  InteractionCursor_validate c = Ok () ∧ same_stream_place c c' ∧ ic_seq c' = (ic_seq c + 1)%N ∧ (ic_seq c' <= u64_max)%N.
Proof.
  unfold cursor_next. rewrite bind_Ok. setoid_rewrite bind_Ok. setoid_rewrite ok_or_Ok. split.
  - intros ([] & Hv & n & Hn & [= <-]). apply checked_add_Some in Hn as [-> Hle]. by repeat split.
  - intros (Hv & Hp & Hs & Hle). exists (). split; [done|]. exists (ic_seq c'). rewrite checked_add_Some.
    split; [lia|]. f_equal. by apply interaction_cursor_eq; [split; apply Hp|].
Qed.

Lemma is_ok_reject_bind {E A} b (e : E) (m : () → result E A) :
  is_ok (reject_if b e ≫= m) = true ↔ b = false ∧ is_ok (m ()) = true.
Proof. destruct b; simpl; naive_solver. Qed.
Lemma is_ok_unit_bind {E A} (v : result E ()) (m : () → result E A) :
  is_ok (v ≫= m) = true ↔ v = Ok () ∧ is_ok (m ()) = true.
Proof. destruct v as [[]|]; simpl; naive_solver. Qed.

Lemma remove_first_Some {A} (f : A → bool) (l l' : list A) :
  remove_first f l = Some l' →
  ∃ l1 x l2, l = l1 ++ x :: l2 ∧ f x = true ∧ (∀ y, y ∈ l1 → f y = false) ∧ l' = l1 ++ l2.
Proof.
  revert l'. induction l as [|x l IH]; intros l'; simpl; [done|]. destruct (f x) eqn:Hx.
  - intros [= <-]. exists [], x, l. split_and!; [done|done|by intros ? ?%elem_of_nil|done].
  - destruct (remove_first f l) as [l0|]; simpl; [|done]. intros [= <-].
    destruct (IH l0 eq_refl) as (l1 & y & l2 & -> & Hy & Hl1 & ->).
    exists (x :: l1), y, l2. split_and!; [done|done| |done]. intros z [->|?]%elem_of_cons; auto.
Qed.

Lemma remove_first_None {A} (f : A → bool) (l : list A) : remove_first f l = None ↔ ∀ x, x ∈ l → f x = false.
Proof.
  induction l as [|x l IH]; simpl; [split; [by intros _ ? ?%elem_of_nil|done]|]. destruct (f x) eqn:Hx.
  - split; [done|]. intros Hl. specialize (Hl x ltac:(left)). congruence.
  - destruct (remove_first f l) as [l0|]; simpl; (split; [|]).
    + done.
    + intros Hl. assert (Some l0 = None) as [=]. apply IH. intros y ?. apply Hl. by right.
    + intros _ y [->|Hy]%elem_of_cons; [done|]. by apply IH.
    + done.
Qed.

(** ** Pending sets *)

Section laws.
Context `{Externals}.
Implicit Types (p : PendingInteraction) (l : list PendingInteraction) (s : InteractionSnapshot)
  (e : InteractionEventEnvelope).

#[export] Instance interaction_stream : EventStream InteractionCursor InteractionEventEnvelope := {
  es_seq := ic_seq;
  es_place := same_stream_place;
  es_next := cursor_next;
  es_cursor := ie_cursor;
  es_valid e := InteractionEventEnvelope_validate e = Ok ();
}.
#[export] Instance interaction_stream_laws : EventStreamLaws InteractionCursor InteractionEventEnvelope.
Proof. split; simpl; [apply _|apply interaction_cursor_eq|]. intros c c' (_ & ? & ? & _)%cursor_next_Ok. done. Qed.

(** The interactions of a run. *)
Definition of_turn (turn_id : string) l : list PendingInteraction := List.filter (λ p, pi_turn_id p == turn_id) l.

Record PendingOk (required : option string) l : Prop := {
  pk_valid : ∀ p, p ∈ l → PendingInteraction_validate p = Ok ();
  pk_turn : ∀ p turn, required = Some turn → p ∈ l → pi_turn_id p = turn;
  pk_keys : NoDup (pi_key <$> l);
  pk_count : ∀ turn, length (of_turn turn l) <= MAX_PENDING_INTERACTIONS_PER_RUN;
}.

(** The state of the loop after a list. *)
Definition counted (st : gset (string * string) * gmap string nat) l : Prop :=
  (∀ k, k ∈ st.1 ↔ k ∈ pi_key <$> l) ∧ ∀ turn, default 0 (st.2 !! turn) = length (of_turn turn l).

Lemma of_turn_snoc turn l p :
  of_turn turn (l ++ [p]) = of_turn turn l ++ (if pi_turn_id p == turn then [p] else []).
Proof. unfold of_turn. rewrite List.filter_app. simpl. by case_bool_decide. Qed.

Lemma counted_snoc st l p required :
  counted st l →
  counted ({[pi_key p]} ∪ st.1, <[pi_turn_id p := S (default 0 (st.2 !! pi_turn_id p))]> st.2) (l ++ [p]) ∧
  (is_ok (check_pending required st p) = true ↔
     PendingInteraction_validate p = Ok () ∧ (∀ turn, required = Some turn → pi_turn_id p = turn) ∧
     pi_key p ∉ pi_key <$> l ∧ length (of_turn (pi_turn_id p) (l ++ [p])) <= MAX_PENDING_INTERACTIONS_PER_RUN).
Proof.
  intros [Hk Hc]. split.
  - split; simpl.
    + intros k. rewrite fmap_app, elem_of_app, elem_of_union, elem_of_singleton, Hk. csimpl.
      rewrite list_elem_of_singleton. naive_solver.
    + intros turn. rewrite of_turn_snoc, length_app, <-Hc. case_bool_decide as Ht.
      * subst. rewrite lookup_insert, decide_True by done. simpl. lia.
      * rewrite lookup_insert_ne by done. simpl. lia.
  - unfold check_pending. destruct st as [ids per]. simpl in *. rewrite of_turn_snoc, (bool_decide_eq_true_2 (pi_turn_id p = pi_turn_id p)), length_app by done.
    rewrite Hc. cbn [length]. rewrite is_ok_unit_bind, !is_ok_reject_bind, <-Hk. cbn [is_ok].
    rewrite !bool_decide_eq_false. unfold is_some_and. split.
    + intros (Hv & Ht & Hi & Hm & _). split_and!; [done| |done|lia].
      intros turn ->. by inv_bool.
    + intros (Hv & Ht & Hi & Hm). split_and!; [done| |done|lia|done].
      destruct required as [t|]; [|done]. prove_bool. by apply Ht.
Qed.

Lemma of_turn_length_sublist turn l1 l2 : l1 `sublist_of` l2 → length (of_turn turn l1) <= length (of_turn turn l2).
Proof. unfold of_turn. induction 1; simpl; [done| |]; case_bool_decide; simpl; lia. Qed.

Lemma PendingOk_nil required : PendingOk required [].
Proof. split; [by intros ? ?%elem_of_nil|by intros ??? ?%elem_of_nil|constructor|intros; simpl; lia]. Qed.

Lemma PendingOk_sublist required l1 l2 : l1 `sublist_of` l2 → PendingOk required l2 → PendingOk required l1.
Proof.
  intros Hs [Hv Ht Hk Hc]. pose proof (λ p Hp, elem_of_sublist _ _ p Hp Hs) as Hin.
  split; [by auto|by eauto| |].
  - eapply sublist_NoDup; [done|]. by apply fmap_sublist.
  - intros turn. etrans; [by apply of_turn_length_sublist|done].
Qed.

Lemma PendingOk_snoc required l p :
  PendingOk required (l ++ [p]) ↔
  PendingOk required l ∧ PendingInteraction_validate p = Ok () ∧ (∀ turn, required = Some turn → pi_turn_id p = turn) ∧
  pi_key p ∉ pi_key <$> l ∧ length (of_turn (pi_turn_id p) (l ++ [p])) <= MAX_PENDING_INTERACTIONS_PER_RUN.
Proof.
  split.
  - intros Hok. split; [eapply PendingOk_sublist; [|done]; apply sublist_inserts_r; done|].
    destruct Hok as [Hv Ht Hk Hc]. split_and!; [apply Hv; set_solver|intros; eapply Ht; set_solver| |apply Hc].
    rewrite fmap_app in Hk. apply NoDup_app in Hk as (_ & Hd & _). intros Hin. apply (Hd _ Hin). csimpl. set_solver.
  - intros ([Hv Ht Hk Hc] & Hp & Hpt & Hpk & Hpc). split.
    + intros q [?| ->%list_elem_of_singleton]%elem_of_app; auto.
    + intros q turn Hr [?| ->%list_elem_of_singleton]%elem_of_app; eauto.
    + rewrite fmap_app. apply NoDup_app. split_and!; [done| |apply NoDup_singleton].
      by intros x Hx ->%list_elem_of_singleton.
    + intros turn. destruct (decide (pi_turn_id p = turn)) as [<-|Hne]; [done|].
      rewrite of_turn_snoc, bool_decide_eq_false_2, app_nil_r by done. apply Hc.
Qed.

Lemma check_pending_result required st p st' :
  check_pending required st p = Ok st' →
  st' = ({[pi_key p]} ∪ st.1, <[pi_turn_id p := S (default 0 (st.2 !! pi_turn_id p))]> st.2).
Proof. unfold check_pending. destruct st. intros Hc. inv_result. done. Qed.

Lemma pending_set_from required l pre st :
  counted st pre → PendingOk required pre →
  is_ok (fold_res (check_pending required) st l) = true ↔ PendingOk required (pre ++ l).
Proof.
  revert pre st. induction l as [|p l IH]; intros pre st Hc Hok.
  { rewrite app_nil_r. done. }
  destruct (counted_snoc st pre p required Hc) as [Hc' Hp]. simpl.
  rewrite (app_assoc pre [p] l : pre ++ p :: l = _).
  destruct (check_pending required st p) as [st'|] eqn:Hcheck; simpl in *.
  - apply check_pending_result in Hcheck as ->. apply IH; [done|].
    apply PendingOk_snoc. split; [done|]. by apply Hp.
  - split; [done|]. intros Hall. apply Hp.
    apply (PendingOk_sublist _ (pre ++ [p])) in Hall; [|apply sublist_inserts_r; done].
    by apply PendingOk_snoc in Hall as [_ ?].
Qed.

Lemma validate_pending_set_Ok required l : validate_pending_set l required = Ok () ↔ PendingOk required l.
Proof.
  pose proof (pending_set_from required l [] (∅, ∅)) as Hf. simpl in Hf.
  rewrite <-Hf; [| |by apply PendingOk_nil].
  - unfold validate_pending_set. destruct (fold_res _ _ _); done.
  - split; simpl; [set_solver|]. intros turn. by rewrite lookup_empty.
Qed.

(** A valid snapshot, by its parts. *)
Record SnapshotOk s : Prop := {
  sk_thread : validate_bounded_identity (is_thread_id s) "thread_id" = Ok ();
  sk_cursor : InteractionCursor_validate (is_cursor s) = Ok ();
  sk_place : ic_thread_id (is_cursor s) = is_thread_id s;
  sk_pending : PendingOk None (is_pending s);
}.

Lemma snapshot_validate_Ok s : InteractionSnapshot_validate s = Ok () ↔ SnapshotOk s.
Proof.
  unfold InteractionSnapshot_validate. split.
  - intros Hv. inv_result. repeat match goal with u : () |- _ => destruct u end. inv_bool.
    constructor; try done. by apply validate_pending_set_Ok.
  - intros [Ht Hc Hp Hk]. pass_guards. by apply validate_pending_set_Ok.
Qed.

Lemma turn_snapshot_validate_Ok thread_id turn_id cursor l :
  validate_bounded_identity thread_id "thread_id" = Ok () → validate_bounded_identity turn_id "turn_id" = Ok () →
  InteractionCursor_validate cursor = Ok () → ic_thread_id cursor = thread_id → PendingOk (Some turn_id) l →
  TurnInteractionSnapshot_validate
    {| ts_thread_id := thread_id; ts_turn_id := turn_id; ts_cursor := cursor; ts_pending := l |} = Ok ().
Proof.
  intros Ht Hu Hc Hp Hl. unfold TurnInteractionSnapshot_validate. simpl. pass_guards. by apply validate_pending_set_Ok.
Qed.

(** ** The reducer *)

Lemma is_request_true turn_id request_id p : is_request turn_id request_id p = true ↔ pi_key p = (turn_id, request_id).
Proof. unfold is_request, pi_key. rewrite andb_true_iff, !bool_decide_eq_true. naive_solver. Qed.

(** The keys that are shown after an event. *)
Definition shown_after (keys : list (string * string)) (payload : InteractionEventPayload) (k : string * string) : Prop :=
  match payload with
  | Requested p => k ∈ keys ∨ k = pi_key p
  | Removed request_id turn_id _ => k ∈ keys ∧ k ≠ (turn_id, request_id)
  end.

Lemma payload_keys l payload l' :
  NoDup (pi_key <$> l) → apply_interaction_payload l payload = Ok l' →
  (∀ k, k ∈ pi_key <$> l' ↔ shown_after (pi_key <$> l) payload k) ∧
  (∀ p, p ∈ l' → p ∈ l ∨ payload = Requested p) ∧
  (∀ p, p ∈ l → shown_after (pi_key <$> l) payload (pi_key p) → p ∈ l').
Proof.
  intros Hnd Ha. destruct payload as [p|rid tid cause]; simpl in *.
  - inv_result. split_and!.
    + intros k. rewrite fmap_app, elem_of_app. csimpl. by rewrite list_elem_of_singleton.
    + intros q [?| ->%list_elem_of_singleton]%elem_of_app; auto.
    + intros q ? _. apply elem_of_app. by left.
  - inv_result. rename select (remove_first _ _ = _) into Hr.
    apply remove_first_Some in Hr as (l1 & x & l2 & -> & Hx%is_request_true & _ & ->).
    rewrite fmap_app in Hnd. csimpl in Hnd. rewrite Hx in Hnd.
    apply NoDup_app in Hnd as (_ & H1 & [H2 _]%NoDup_cons).
    split_and!.
    + intros k. rewrite !fmap_app, !elem_of_app. csimpl. rewrite Hx, elem_of_cons. split.
      * intros [Hk|Hk]; (split; [by auto|]); intros ->; [|done]. apply (H1 _ Hk). left.
      * naive_solver.
    + intros p. rewrite !elem_of_app, elem_of_cons. naive_solver.
    + intros p. rewrite !elem_of_app, elem_of_cons. intros [?|[->|?]] [_ Hne]; [by left|done|by right].
Qed.

(** What an applied event has done. *)
Record AppliedTo s e s' : Prop := {
  at_before : SnapshotOk s;
  at_event : InteractionEventEnvelope_validate e = Ok ();
  at_after : SnapshotOk s';
  at_next : cursor_next (is_cursor s) = Ok (ie_cursor e);
  at_cursor : is_cursor s' = ie_cursor e;
  at_thread : is_thread_id s' = is_thread_id s;
  at_payload : apply_interaction_payload (is_pending s) (ie_payload e) = Ok (is_pending s');
}.

Lemma apply_interaction_true s e s' : apply_interaction s e = Ok (s', true) → AppliedTo s e s'.
Proof.
  unfold apply_interaction. intros Ha. inv_result.
  destruct (_ <=? _)%N; [done|]. inv_result. inv_bool. subst.
  repeat match goal with u : () |- _ => destruct u end.
  repeat match goal with H : InteractionSnapshot_validate _ = _ |- _ => apply snapshot_validate_Ok in H end.
  constructor; simpl; try done; congruence.
Qed.

Lemma apply_interaction_false s e s' :
  apply_interaction s e = Ok (s', false) → s' = s ∧ (ic_seq (ie_cursor e) <= ic_seq (is_cursor s))%N.
Proof.
  unfold apply_interaction. intros Ha. inv_result.
  destruct (N.leb_spec (ic_seq (ie_cursor e)) (ic_seq (is_cursor s))).
  - by inv_result.
  - inv_result. discriminate.
Qed.

Lemma pending_validate_ids p :
  PendingInteraction_validate p = Ok () →
  validate_bounded_identity (pi_request_id p) "request_id" = Ok () ∧ validate_bounded_identity (pi_turn_id p) "turn_id" = Ok ().
Proof.
  unfold PendingInteraction_validate. intros Hv. inv_result. by repeat match goal with u : () |- _ => destruct u end.
Qed.

Lemma removal_cause_valid cause :
  cause ∈ REMOVAL_CAUSES → validate_bounded_text cause "Interaction removal cause" MAX_INTERACTION_KIND_BYTES = Ok ().
Proof.
  assert (Forall (λ cause, validate_bounded_text cause "Interaction removal cause" MAX_INTERACTION_KIND_BYTES = Ok ())
            REMOVAL_CAUSES) as Hall by (repeat constructor; by vm_compute).
  rewrite Forall_forall in Hall. apply Hall.
Qed.

(** The envelope that [commit] publishes for a snapshot. *)
Definition next_envelope (now : N) s (payload : InteractionEventPayload) : InteractionEventEnvelope :=
  {| ie_thread_id := is_thread_id s;
     ie_cursor := {| ic_thread_id := ic_thread_id (is_cursor s); ic_stream_id := ic_stream_id (is_cursor s);
                     ic_seq := ic_seq (is_cursor s) + 1 |};
     ie_occurred_at_ms := now; ie_payload := payload |}.

Lemma next_envelope_cursor now s payload :
  SnapshotOk s → (ic_seq (is_cursor s) < u64_max)%N →
  cursor_next (is_cursor s) = Ok (ie_cursor (next_envelope now s payload)).
Proof. intros [_ Hc _ _] Hlt. apply cursor_next_Ok. split_and!; simpl; [done|done|done|lia]. Qed.

(** An event whose payload fits is applied. *)
Lemma apply_next now s payload l :
  SnapshotOk s → (ic_seq (is_cursor s) < u64_max)%N → InteractionEventPayload_validate payload = Ok () →
  apply_interaction_payload (is_pending s) payload = Ok l → PendingOk None l →
  apply_interaction s (next_envelope now s payload) =
    Ok ({| is_thread_id := is_thread_id s; is_cursor := ie_cursor (next_envelope now s payload); is_pending := l |}, true) ∧
  InteractionEventEnvelope_validate (next_envelope now s payload) = Ok ().
Proof.
  intros Hok Hlt Hp Ha Hl. pose proof (next_envelope_cursor now s payload Hok Hlt) as Hn.
  assert (InteractionEventEnvelope_validate (next_envelope now s payload) = Ok ()) as He.
  { destruct Hok as [Ht Hc Hpl _]. unfold InteractionEventEnvelope_validate. simpl. pass_guards.
    apply N.eqb_neq. lia. }
  split; [|done]. unfold apply_interaction. rewrite (proj2 (snapshot_validate_Ok s) Hok), He, Hn.
  change (ie_payload (next_envelope now s payload)) with payload. rewrite Ha. simpl.
  rewrite !bool_decide_eq_true_2 by done. simpl.
  rewrite (proj2 (N.leb_gt _ _)) by lia. simpl.
  set (s' := {| is_thread_id := _ |}). assert (InteractionSnapshot_validate s' = Ok ()) as ->; [|done].
  apply snapshot_validate_Ok. destruct Hok as [Ht Hc Hpl _]. by constructor.
Qed.

Lemma apply_removed now s request_id turn_id cause :
  SnapshotOk s → (ic_seq (is_cursor s) < u64_max)%N → (turn_id, request_id) ∈ pi_key <$> is_pending s →
  cause ∈ REMOVAL_CAUSES →
  ∃ s', apply_interaction s (next_envelope now s (Removed request_id turn_id cause)) = Ok (s', true) ∧
        InteractionEventEnvelope_validate (next_envelope now s (Removed request_id turn_id cause)) = Ok ().
Proof.
  intros Hok Hlt (p & Hp & Hin)%list_elem_of_fmap Hcause.
  pose proof (sk_pending _ Hok) as Hpend.
  destruct (pending_validate_ids p) as [Hr Ht]; [by eapply pk_valid|]. unfold pi_key in Hp. injection Hp as -> ->.
  destruct (remove_first (is_request (pi_turn_id p) (pi_request_id p)) (is_pending s)) as [l|] eqn:Hrem.
  - eexists. apply (apply_next now s (Removed (pi_request_id p) (pi_turn_id p) cause) l); [done|done| | |].
    + simpl. rewrite Hr, Ht. by apply removal_cause_valid.
    + simpl. by rewrite Hrem.
    + apply remove_first_Some in Hrem as (l1 & x & l2 & Heq & _ & _ & ->).
      eapply PendingOk_sublist; [|exact Hpend]. rewrite Heq. apply sublist_app; [done|by apply sublist_cons].
  - pose proof (proj1 (remove_first_None _ _) Hrem p Hin) as Hf.
    assert (is_request (pi_turn_id p) (pi_request_id p) p = true) by (by apply is_request_true). congruence.
Qed.
End laws.

(** ** Records *)

(** Serializing an event never fails: its types have no map with other than string keys. *)
Class EventLaws `{EventExternals} : Prop :=
  interaction_event_len_total : ∀ e, ∃ n, interaction_event_len e = Ok n.

Section records.
Context `{Externals} `{EventExternals}.
Implicit Types (r : InteractionRecord) (e : InteractionEventEnvelope) (payload : InteractionEventPayload).

Definition shown r : list (string * string) := pi_key <$> ir_pending r.

(** The journal of a record is the chain of the last events, within its limits. *)
Record JournalOk r : Prop := {
  jo_chain : leads (ir_replay_floor r) (je_event <$> ir_journal r) (ir_cursor r);
  jo_bytes : ir_journal_bytes r = total_size je_size (ir_journal r);
  jo_entries : ∀ x, x ∈ ir_journal r →
                 interaction_event_len (je_event x) = Ok (je_size x) ∧ je_turn_id x = event_turn (je_event x);
  jo_max_events : length (ir_journal r) <= jl_max_events (ir_limits r);
  jo_max_bytes : ir_journal_bytes r <= jl_max_bytes (ir_limits r);
}.

(** What a published event has done to its record. *)
Record Committed (payload : InteractionEventPayload) r r' e : Prop := {
  co_applied : AppliedTo (ir_snapshot r) e (ir_snapshot r');
  co_applies : apply_interaction (ir_snapshot r) e = Ok (ir_snapshot r', true);
  co_payload : ie_payload e = payload;
  co_owner : ir_owner r' = ir_owner r;
  co_enabled : ir_enabled r' = ir_enabled r;
  co_limits : ir_limits r' = ir_limits r;
  co_entries : ir_entries r' = ir_entries r;
  co_runs : ir_run_identities r' = ir_run_identities r;
  co_generation : ir_next_generation r' = ir_next_generation r;
  co_notifier : ir_notifier r' = (λ queue, queue ++ [e]) <$> ir_notifier r;
  co_journal : JournalOk r → JournalOk r' ∧
               ∃ pre, pre ++ (je_event <$> ir_journal r') = (je_event <$> ir_journal r) ++ [e];
}.

(** The parts of a record that an event does not touch. *)
Lemma retain_event_frame e bytes turn_id r :
  let r' := retain_event e bytes turn_id r in
  ir_snapshot r' = ir_snapshot r ∧ ir_owner r' = ir_owner r ∧ ir_enabled r' = ir_enabled r ∧ ir_limits r' = ir_limits r ∧
  ir_entries r' = ir_entries r ∧ ir_run_identities r' = ir_run_identities r ∧
  ir_next_generation r' = ir_next_generation r ∧ ir_notifier r' = ir_notifier r.
Proof. unfold retain_event. case_bool_decide; [done|]. by destruct (evict_front _ _ _ _ _ _ _) as [[??]?]. Qed.

Lemma retain_event_journal e bytes r :
  JournalOk r →
  ∀ s, cursor_next (ir_cursor r) = Ok (ie_cursor e) → InteractionEventEnvelope_validate e = Ok () →
  interaction_event_len e = Ok bytes → is_cursor s = ie_cursor e →
  JournalOk (retain_event e bytes (event_turn e) (set_ir_snapshot s r)) ∧
  ∃ pre, pre ++ (je_event <$> ir_journal (retain_event e bytes (event_turn e) (set_ir_snapshot s r)))
         = (je_event <$> ir_journal r) ++ [e].
Proof.
  intros [Hch Hb Hl Hme Hmb] s Hn Hv Hlen Hs. unfold retain_event. cbn [set_ir_snapshot ir_limits ir_journal ir_journal_bytes ir_replay_floor].
  case_bool_decide as Hbig.
  - split; [|eexists; by rewrite app_nil_r]. split; unfold ir_cursor; simpl; rewrite ?Hs; try done; try lia.
    by intros ? ?%elem_of_nil.
  - set (x := {| je_event := e; je_size := bytes; je_turn_id := event_turn e |}).
    assert (leads (ir_replay_floor r) (je_event <$> ir_journal r ++ [x]) (ie_cursor e)) as Hx.
    { rewrite fmap_app. apply leads_app. exists (ir_cursor r). split; [exact Hch|]. simpl. by split_and!. }
    replace (ir_journal_bytes r + bytes) with (total_size je_size (ir_journal r ++ [x])).
    2:{ rewrite total_size_app, Hb. unfold total_size at 2. simpl. lia. }
    pose proof (evict_front_leads je_event je_size (jl_max_events (ir_limits r)) (jl_max_bytes (ir_limits r))
                  _ _ _ Hx) as He.
    change (evict_front je_size (λ x : InteractionEntry, es_cursor (je_event x)))
      with (evict_front je_size entry_cursor) in He.
    destruct (evict_front _ _ _ _ _ _ _) as [[j b] f]. destruct He as (Hc & -> & Hle & Hlb & pre & Hpre).
    split.
    + split; unfold ir_cursor; simpl; rewrite ?Hs; try done.
      intros y Hy. assert (y ∈ ir_journal r ++ [x]) as [?| ->%list_elem_of_singleton]%elem_of_app
        by (rewrite Hpre; apply elem_of_app; by right); [by apply Hl|done].
    + exists (je_event <$> pre). simpl. rewrite <-fmap_app, <-Hpre. by rewrite fmap_app.
Qed.

Lemma commit_Ok now payload r r' e : commit now payload r = Ok (r', e) → Committed payload r r' e.
Proof.
  unfold commit. intros Hc. inv_result. repeat match goal with u : () |- _ => destruct u end.
  rename select (cursor_next _ = _) into Hn. rename select (apply_interaction _ _ = _) into Ha.
  rename select (interaction_event_len _ = _) into Hlen. rename select (InteractionEventEnvelope_validate _ = _) into Hv.
  match type of Ha with _ = Ok (?s, ?b) => destruct b end.
  2:{ apply apply_interaction_false in Ha as [_ Hle]. apply cursor_next_Ok in Hn as (_ & _ & Hs & _).
      unfold ir_cursor in *. simpl in *. lia. }
  set (e := {| ie_payload := payload |}) in *.
  match goal with |- context [retain_event e ?b ?t ?r] =>
    destruct (retain_event_frame e b t r) as (Hf1 & Hf2 & Hf3 & Hf4 & Hf5 & Hf6 & Hf7 & Hf8) end.
  pose proof (apply_interaction_true _ _ _ Ha) as Hat.
  constructor; cbn [notify set_ir_notifier ir_snapshot ir_owner ir_enabled ir_limits ir_entries ir_run_identities
    ir_next_generation ir_notifier]; rewrite ?Hf1, ?Hf2, ?Hf3, ?Hf4, ?Hf5, ?Hf6, ?Hf7, ?Hf8; try done.
  intros Hj. destruct (retain_event_journal e _ r Hj _ Hn Hv Hlen (at_cursor _ _ _ Hat)) as [[] Hpre].
  split; [|exact Hpre]. by constructor.
Qed.

(** ** The invariant of a record *)

(** What the snapshot shows of a pending entry. *)
Definition pending_of (key : string * string) (entry : PendingEntry) : PendingInteraction :=
  {| pi_request_id := key.2; pi_turn_id := key.1; pi_request := pe_request entry |}.
Definition generation_of (state : ResponseState) : N :=
  match state with Pending entry => pe_generation entry | Resolved _ generation _ _ => generation end.

(** The cursor before the first event of the stream. *)
Definition stream_start (c : InteractionCursor) : InteractionCursor :=
  {| ic_thread_id := ic_thread_id c; ic_stream_id := ic_stream_id c; ic_seq := 0 |}.

Record RecordOk r : Prop := {
  rk_snapshot : SnapshotOk (ir_snapshot r);
  rk_seq : (ic_seq (ir_cursor r) <= u64_max)%N;
  rk_journal : JournalOk r;
  rk_ids : ∀ k1 k2, is_Some (ir_entries r !! k1) → is_Some (ir_entries r !! k2) → k1.2 = k2.2 → k1 = k2;
  rk_count : ∀ turn, pending_for_run turn (ir_entries r) <= MAX_PENDING_INTERACTIONS_PER_RUN;
  rk_entries : ∀ k entry, ir_entries r !! k = Some (Pending entry) →
    PendingInteraction_validate (pending_of k entry) = Ok () ∧
    pe_typed_approval entry = (iq_kind (pe_request entry) == KIND_TOOL_APPROVAL);
  rk_shown : ir_enabled r = true → ∀ k entry, ir_entries r !! k = Some (Pending entry) → pending_of k entry ∈ ir_pending r;
  rk_disabled : ir_enabled r = false → ir_pending r = [] ∧ ir_journal r = [] ∧ ir_notifier r = None;
  rk_below : ∀ k state, ir_entries r !! k = Some state → (generation_of state < ir_next_generation r)%N;
  rk_distinct : ∀ k1 k2 s1 s2, ir_entries r !! k1 = Some s1 → ir_entries r !! k2 = Some s2 →
    generation_of s1 = generation_of s2 → k1 = k2;
  rk_queue : ∀ queue, ir_notifier r = Some queue → leads (stream_start (ir_cursor r)) queue (ir_cursor r);
}.

(** The count of pending entries is the size of a part of the map. *)
Definition is_pending_of (turn : string) (kv : (string * string) * ResponseState) : bool :=
  (kv.1.1 == turn) && is_pending_state kv.2.

Lemma pending_for_run_size turn m : pending_for_run turn m = size (filter (λ kv, is_pending_of turn kv = true) m).
Proof.
  unfold pending_for_run. induction m as [|k x m Hk IH] using map_ind; [done|].
  assert (∀ l1 l2 : list ((string * string) * ResponseState), l1 ≡ₚ l2 →
    length (List.filter (λ '(key, state), (key.1 == turn) && is_pending_state state) l1) =
    length (List.filter (λ '(key, state), (key.1 == turn) && is_pending_state state) l2)) as Hperm.
  { induction 1 as [|[] |[] []|]; simpl; [done|destruct (_ && _); simpl; congruence| |congruence].
    by repeat destruct (_ && _). }
  rewrite (Hperm _ _ (map_to_list_insert _ _ _ Hk)). simpl.
  destruct (is_pending_of turn (k, x)) eqn:Hp; unfold is_pending_of in Hp; simpl in Hp; rewrite Hp; simpl.
  - rewrite map_filter_insert_True by done. rewrite map_size_insert_None; [by rewrite IH|].
    apply map_lookup_filter_None. by left.
  - rewrite map_filter_insert_False by (unfold is_pending_of; simpl; congruence). by rewrite IH, delete_id by done.
Qed.

Lemma pending_for_run_mono turn m1 m2 :
  (∀ k entry, m1 !! k = Some (Pending entry) → m2 !! k = Some (Pending entry)) →
  pending_for_run turn m1 <= pending_for_run turn m2.
Proof.
  intros Hsub. rewrite !pending_for_run_size. apply map_subseteq_size. apply map_subseteq_spec. intros k s.
  rewrite !map_lookup_filter_Some. unfold is_pending_of. intros [Hk Hp]. split; [|done].
  destruct s; simpl in Hp; [by apply Hsub|]. by rewrite andb_false_r in Hp.
Qed.

Lemma pending_for_run_insert turn m k s :
  pending_for_run turn (<[k := s]> m) <= pending_for_run turn m + (if k.1 == turn then 1 else 0).
Proof.
  rewrite !pending_for_run_size. destruct (is_pending_of turn (k, s)) eqn:Hp.
  - rewrite map_filter_insert_True by done. unfold is_pending_of in Hp. simpl in Hp.
    apply andb_true_iff in Hp as [-> _]. 
    destruct (filter (λ kv, is_pending_of turn kv = true) m !! k) eqn:Hk.
    + rewrite map_size_insert_Some by eauto. lia.
    + rewrite map_size_insert_None by done. lia.
  - rewrite map_filter_insert_False by congruence.
    etrans; [apply map_subseteq_size, (map_filter_subseteq_mono (λ kv, is_pending_of turn kv = true)), delete_subseteq|lia].
Qed.

Lemma RecordOk_new owner thread_id enabled limits stream_id r :
  InteractionRecord_new owner thread_id enabled limits stream_id = Ok r →
  RecordOk r ∧ ir_entries r = ∅ ∧ ir_pending r = [] ∧ is_thread_id (ir_snapshot r) = thread_id ∧ ir_enabled r = enabled.
Proof.
  unfold InteractionRecord_new, InteractionSnapshot_new. intros Hn. inv_result.
  repeat match goal with u : () |- _ => destruct u end.
  rename select (InteractionSnapshot_validate _ = _) into Hv. apply snapshot_validate_Ok in Hv.
  split; [|done]. split; unfold ir_cursor, ir_pending; simpl; try done.
  - split; simpl; try done; [by intros ? ?%elem_of_nil|lia|lia].
  - intros k1 k2 [? Hk]. by rewrite lookup_empty in Hk.
  - intros turn. unfold pending_for_run. rewrite map_to_list_empty. simpl. lia.
  - intros ->. by split_and!.
  - intros queue Hq. destruct enabled; [|done]. by injection Hq as <-.
Qed.

(** ** Changes of a record *)

(** Entries that are gone or no longer pending. *)
Lemma RecordOk_entries r m :
  RecordOk r →
  (∀ k s, m !! k = Some s → ∃ s', ir_entries r !! k = Some s' ∧ generation_of s = generation_of s' ∧
     ∀ entry, s = Pending entry → s' = s) →
  RecordOk (set_ir_entries m r).
Proof.
  intros [Hs Hq Hj Hi Hc He Hsh Hd Hb Hg Hn] Hm.
  assert (∀ k entry, m !! k = Some (Pending entry) → ir_entries r !! k = Some (Pending entry)) as Hp.
  { intros k entry Hk. destruct (Hm k _ Hk) as (s' & ? & _ & Heq). by rewrite <-(Heq entry eq_refl). }
  split; simpl; try done; try apply Hj.
  - by destruct Hj.
  - intros k1 k2 [s1 H1] [s2 H2]. apply Hi; [destruct (Hm _ _ H1) as (? & ? & _)|destruct (Hm _ _ H2) as (? & ? & _)]; eauto.
  - intros turn. etrans; [by apply pending_for_run_mono|apply Hc].
  - eauto.
  - eauto.
  - intros k s Hk. destruct (Hm _ _ Hk) as (? & ? & -> & _). eauto.
  - intros k1 k2 s1 s2 H1 H2. destruct (Hm _ _ H1) as (? & ? & -> & _), (Hm _ _ H2) as (? & ? & -> & _). eauto.
Qed.

Lemma RecordOk_subseteq r m : RecordOk r → m ⊆ ir_entries r → RecordOk (set_ir_entries m r).
Proof. intros Hok Hm. apply RecordOk_entries; [done|]. intros k s Hk. exists s. split; [by eapply lookup_weaken|done]. Qed.

Lemma RecordOk_resolve r k entry digest typed completion :
  RecordOk r → ir_entries r !! k = Some (Pending entry) →
  RecordOk (set_ir_entries (<[k := Resolved digest (pe_generation entry) typed completion]> (ir_entries r)) r).
Proof.
  intros Hok Hk. apply RecordOk_entries; [done|]. intros k' s.
  destruct (decide (k' = k)) as [->|Hne].
  - rewrite lookup_insert_eq. intros [= <-]. exists (Pending entry). done.
  - rewrite lookup_insert_ne by done. intros ?. by exists s.
Qed.

(** A published event: [rk_shown] for the entries afterwards is the caller's. *)
Lemma RecordOk_commit payload r r' e :
  RecordOk r → ir_enabled r = true → Committed payload r r' e →
  (∀ k entry, ir_entries r !! k = Some (Pending entry) → shown_after (shown r) payload k) → RecordOk r'.
Proof.
  intros [Hs Hq Hj Hi Hc He Hsh Hd Hb Hg Hn] Hen [Ha Hap Hp Ho Hen' Hl Hent Hr Hgen Hno Hjo] Hafter.
  destruct (Hjo Hj) as [Hj' _]. pose proof (at_cursor _ _ _ Ha) as Hcur.
  pose proof (proj1 (cursor_next_Ok _ _) (at_next _ _ _ Ha)) as (_ & Hplace & Hseq & Hmax).
  split; rewrite ?Hent, ?Hgen; try done.
  - apply Ha.
  - unfold ir_cursor in *. by rewrite Hcur.
  - intros _ k entry Hk. destruct (payload_keys _ _ _ (pk_keys _ _ (sk_pending _ Hs)) (at_payload _ _ _ Ha)) as (_ & _ & Hkeep).
    apply Hkeep; [by apply Hsh|]. rewrite Hp. destruct k. exact (Hafter _ _ Hk).
  - rewrite Hen'. congruence.
  - intros queue Hqueue. rewrite Hno in Hqueue. destruct (ir_notifier r) as [q|]; [|done]. injection Hqueue as <-.
    specialize (Hn q eq_refl). unfold ir_cursor in *. rewrite Hcur. apply leads_app. exists (is_cursor (ir_snapshot r)).
    split; [|simpl; split_and!; [apply Ha|apply Ha|done]].
    replace (stream_start (ie_cursor e)) with (stream_start (is_cursor (ir_snapshot r))); [done|].
    unfold stream_start. by destruct Hplace as [-> ->].
Qed.

(** What a removal leaves in the snapshot. *)
Lemma commit_removed_shown r r' e request_id turn_id cause :
  SnapshotOk (ir_snapshot r) → Committed (Removed request_id turn_id cause) r r' e →
  ∀ k, k ∈ shown r' ↔ k ∈ shown r ∧ k ≠ (turn_id, request_id).
Proof.
  intros Hs Hc k. pose proof (at_payload _ _ _ (co_applied _ _ _ _ Hc)) as Hp. rewrite (co_payload _ _ _ _ Hc) in Hp.
  apply payload_keys in Hp as (Hk & _); [|apply Hs]. apply Hk.
Qed.

Lemma commit_removed_total `{!EventLaws} now r request_id turn_id cause :
  SnapshotOk (ir_snapshot r) → (ic_seq (ir_cursor r) < u64_max)%N → (turn_id, request_id) ∈ shown r →
  cause ∈ REMOVAL_CAUSES → ∃ r' e, commit now (Removed request_id turn_id cause) r = Ok (r', e).
Proof.
  intros Hs Hq Hin Hcause. destruct (apply_removed now _ request_id turn_id cause Hs Hq Hin Hcause) as (s' & Ha & He).
  destruct (interaction_event_len_total (next_envelope now (ir_snapshot r) (Removed request_id turn_id cause))) as [n Hn].
  unfold commit. unfold ir_cursor. rewrite (next_envelope_cursor now _ (Removed request_id turn_id cause) Hs Hq). simpl.
  unfold next_envelope in *. simpl in *. rewrite He, Hn, Ha. simpl. eauto.
Qed.

(** ** The locked blocks *)

(** What every block keeps of its record. *)
Record Kin r r' : Prop := {
  kin_owner : ir_owner r' = ir_owner r;
  kin_enabled : ir_enabled r' = ir_enabled r;
  kin_thread : is_thread_id (ir_snapshot r') = is_thread_id (ir_snapshot r);
  kin_generation : (ir_next_generation r <= ir_next_generation r')%N;
  kin_seq : (ic_seq (ir_cursor r) <= ic_seq (ir_cursor r'))%N;
}.

#[export] Instance Kin_preorder : PreOrder Kin.
Proof. split; [by split|]. intros ??? [] []; split; [congruence..|lia|lia]. Qed.

Lemma committed_kin payload r r' e : Committed payload r r' e → Kin r r'.
Proof.
  intros []. split; [done|done|by apply at_thread with e|by apply N.eq_le_incl|].
  destruct co_applied0 as [_ _ _ Hn Hc _ _]. apply cursor_next_Ok in Hn as (_ & _ & Hs & _).
  unfold ir_cursor. rewrite Hc. lia.
Qed.

Lemma RecordOk_fields r r' :
  RecordOk r → ir_snapshot r' = ir_snapshot r → JournalOk r' → (ir_journal r = [] → ir_journal r' = []) →
  ir_entries r' = ir_entries r → ir_enabled r' = ir_enabled r → ir_notifier r' = ir_notifier r →
  (ir_next_generation r <= ir_next_generation r')%N → RecordOk r'.
Proof.
  intros [Hs Hq Hj Hi Hc He Hsh Hd Hb Hg Hn] H1 H2 H3 H4 H5 H6 H7.
  split; unfold ir_cursor, ir_pending in *; rewrite ?H1, ?H4, ?H5, ?H6; try done.
  - intros Hf. destruct (Hd Hf) as (? & ? & ?). split_and!; auto.
  - intros k s Hk. specialize (Hb k s Hk). lia.
Qed.

Lemma RecordOk_runs r identities : RecordOk r → RecordOk (set_ir_run_identities identities r).
Proof. intros Hok. pose proof (rk_journal _ Hok) as []. by eapply RecordOk_fields. Qed.
Lemma RecordOk_generation r generation :
  RecordOk r → (ir_next_generation r <= generation)%N → RecordOk (set_ir_next_generation generation r).
Proof. intros Hok Hle. pose proof (rk_journal _ Hok) as []. by eapply RecordOk_fields. Qed.

Lemma register_locked_ok turn_id identity r r' :
  register_locked turn_id identity r = Ok r' → RecordOk r → RecordOk r' ∧ Kin r r' ∧ ir_entries r' = ir_entries r ∧
  ir_snapshot r' = ir_snapshot r.
Proof.
  unfold register_locked. intros Hr Hok. destruct (ir_run_identities r !! turn_id).
  - case_decide; [|done]. by injection Hr as <-.
  - injection Hr as <-. by split; [apply RecordOk_runs|].
Qed.

Lemma unregister_locked_ok turn_id identity r :
  RecordOk r → RecordOk (unregister_locked turn_id identity r) ∧ Kin r (unregister_locked turn_id identity r) ∧
  ir_entries (unregister_locked turn_id identity r) = ir_entries r ∧
  ir_snapshot (unregister_locked turn_id identity r) = ir_snapshot r.
Proof.
  intros Hok. unfold unregister_locked. case_decide; [|done]. by split; [apply RecordOk_runs|].
Qed.

(** The effect of [commit_if_enabled]. *)
Lemma commit_if_enabled_eq {E} (wrap : string → E) now payload r :
  commit_if_enabled wrap now payload r = if ir_enabled r then commit_or wrap now payload r else (Ok (), r).
Proof. unfold commit_if_enabled, mbind, eff_bind, gets. by destruct (ir_enabled r). Qed.

Lemma commit_if_enabled_spec {E} (wrap : string → E) now payload r answer r' :
  commit_if_enabled wrap now payload r = (answer, r') →
  (r' = r ∧ (ir_enabled r = true → is_err answer = true)) ∨
  (ir_enabled r = true ∧ answer = Ok () ∧ ∃ e, Committed payload r r' e).
Proof.
  rewrite commit_if_enabled_eq. unfold commit_or. destruct (ir_enabled r) eqn:Hen; [|intros [= <- <-]; by left].
  destruct (commit now payload r) as [[r1 e]|] eqn:Hc; intros [= <- <-]; [right|by left].
  split_and!; [done|done|]. exists e. by eapply commit_Ok.
Qed.

Lemma commit_if_enabled_disabled {E} (wrap : string → E) now payload r answer r' :
  commit_if_enabled wrap now payload r = (answer, r') → ir_enabled r = false → answer = Ok () ∧ r' = r.
Proof. rewrite commit_if_enabled_eq. intros Hc Hen. rewrite Hen in Hc. by injection Hc as <- <-. Qed.

(** The entry that [begin_locked] adds. *)
Definition new_entry (request : InteractionRequest) (origin : InteractionOrigin) (sender : nat) (generation : N) :
    PendingEntry :=
  {| pe_request := request; pe_sender := sender; pe_generation := generation; pe_origin := origin;
     pe_typed_approval := iq_kind request == KIND_TOOL_APPROVAL |}.

Lemma begin_guards_Ok turn_id request_id request r :
  begin_guards turn_id request_id request r = Ok () →
  (ir_enabled r = true ∨ iq_kind request = KIND_TOOL_APPROVAL) ∧ is_Some (ir_run_identities r !! turn_id) ∧
  (∀ k, is_Some (ir_entries r !! k) → k.2 ≠ request_id) ∧
  pending_for_run turn_id (ir_entries r) < MAX_PENDING_INTERACTIONS_PER_RUN.
Proof.
  unfold begin_guards. intros Hg. inv_result. repeat match goal with u : () |- _ => destruct u end.
  rename select (existsb _ _ = false) into Hdup. rename select (negb _ && _ = false) into Hen.
  rename select (is_none _ = false) into Hrun. rename select (bool_decide _ = false) into Hcount.
  apply bool_decide_eq_false in Hcount. split_and!; [| | |lia].
  - apply andb_false_iff in Hen as [Hen|Hen]; [left; by destruct (ir_enabled r)|right; by inv_bool].
  - destruct (ir_run_identities r !! turn_id); [by eexists|done].
  - intros k [s Hk] Heq. pose proof (proj1 (existsb_false _ _) Hdup k) as Hf. simpl in Hf.
    rewrite bool_decide_eq_false in Hf. apply Hf; [|done]. apply list_elem_of_fmap.
    exists (k, s). split; [done|]. by apply elem_of_map_to_list.
Qed.

Lemma RecordOk_begin turn_id request_id request origin sender r r1 :
  RecordOk r → begin_guards turn_id request_id request r = Ok () →
  PendingInteraction_validate {| pi_request_id := request_id; pi_turn_id := turn_id; pi_request := request |} = Ok () →
  (ir_next_generation r + 1 <= u64_max)%N →
  RecordOk r1 → ir_entries r1 = ir_entries r → ir_next_generation r1 = (ir_next_generation r + 1)%N →
  (ir_enabled r1 = true →
     {| pi_request_id := request_id; pi_turn_id := turn_id; pi_request := request |} ∈ ir_pending r1) →
  RecordOk (set_ir_entries (<[(turn_id, request_id) :=
    Pending (new_entry request origin sender (ir_next_generation r))]> (ir_entries r1)) r1).
Proof.
  intros Hok Hg Hv Hgen [Hs Hq Hj Hi Hc He Hsh Hd Hb Hgd Hn] Hent Hnext Hin.
  apply begin_guards_Ok in Hg as (_ & _ & Hfresh & Hcount). rewrite Hent in *.
  split; simpl; try done.
  - by destruct Hj.
  - intros k1 k2. rewrite !lookup_insert_is_Some. intros [<-|[_ H1]] [<-|[_ H2]]; simpl; intros Heq; [done| | |by apply Hi].
    + by apply Hfresh in H2.
    + by apply Hfresh in H1.
  - intros turn. etrans; [apply pending_for_run_insert|]. simpl. case_bool_decide as Ht; [subst; lia|].
    rewrite Nat.add_0_r. apply Hc.
  - intros k entry. rewrite lookup_insert_Some. intros [[<- [= <-]]|[_ Hk]]; [done|by apply He].
  - intros Hen k entry. rewrite lookup_insert_Some. intros [[<- [= <-]]|[_ Hk]]; [by apply Hin|by apply Hsh].
  - intros k s. rewrite lookup_insert_Some, Hnext. intros [[<- <-]|[_ Hk]]; simpl; [lia|].
    pose proof (rk_below _ Hok _ _ Hk). lia.
  - intros k1 k2 s1 s2. rewrite !lookup_insert_Some.
    intros [[<- <-]|[_ H1]] [[<- <-]|[_ H2]]; simpl; intros Heq; [done| | |by eapply Hgd].
    + pose proof (rk_below _ Hok _ _ H2). lia.
    + pose proof (rk_below _ Hok _ _ H1). lia.
Qed.

Lemma begin_locked_spec now turn_id request_id request origin sender r answer r' :
  begin_locked now turn_id request_id request origin sender r = (answer, r') → RecordOk r →
  RecordOk r' ∧ Kin r r' ∧
  match answer with
  | Err _ => ir_entries r' = ir_entries r ∧ ir_snapshot r' = ir_snapshot r
  | Ok generation =>
      generation = ir_next_generation r ∧ (ir_next_generation r < ir_next_generation r')%N ∧
      begin_guards turn_id request_id request r = Ok () ∧
      ir_entries r' = <[(turn_id, request_id) := Pending (new_entry request origin sender generation)]> (ir_entries r) ∧
      ∀ k, k ∈ shown r' ↔ k ∈ shown r ∨ (ir_enabled r = true ∧ k = (turn_id, request_id))
  end.
Proof.
  unfold begin_locked, mbind, eff_bind, gets, lift, modify, mret, eff_ret. intros Hb Hok.
  destruct (begin_guards turn_id request_id request r) as [[]|e] eqn:Hg; [|by injection Hb as <- <-].
  destruct (checked_add (ir_next_generation r) 1) as [next|] eqn:Hnext; simpl in Hb; [|by injection Hb as <- <-].
  apply checked_add_Some in Hnext as [-> Hmax].
  set (r1 := set_ir_next_generation (ir_next_generation r + 1) r) in *.
  assert (RecordOk r1) as Hok1 by (apply RecordOk_generation; [done|lia]).
  assert (Kin r r1) as Hkin1 by (split; simpl; [done..|lia|done]).
  destruct (PendingInteraction_new request_id turn_id request) as [p|e] eqn:Hp; simpl in Hb; [|by injection Hb as <- <-].
  unfold PendingInteraction_new in Hp. inv_result. destruct x.
  rename select (PendingInteraction_validate _ = _) into Hv.
  destruct (commit_if_enabled _ _ _ r1) as [[[]|e] r2] eqn:Hc.
  2:{ injection Hb as <- <-. apply commit_if_enabled_spec in Hc as [[-> _]|(_ & [=] & _)]. done. }
  injection Hb as <- <-.
  assert (RecordOk r2 ∧ Kin r1 r2 ∧ ir_entries r2 = ir_entries r1 ∧ ir_next_generation r2 = ir_next_generation r1 ∧
    (ir_enabled r2 = true → {| pi_request_id := request_id; pi_turn_id := turn_id; pi_request := request |} ∈ ir_pending r2) ∧
    ∀ k, k ∈ shown r2 ↔ k ∈ shown r ∨ (ir_enabled r = true ∧ k = (turn_id, request_id)))
    as (Hok2 & Hkin2 & Hent & Hgen & Hin & Hsh).
  { apply commit_if_enabled_spec in Hc as [[-> Hen]|(Hen & _ & e & Hc)].
    - destruct (ir_enabled r1) eqn:Hen1; [by specialize (Hen eq_refl)|]. simpl in Hen1. rewrite Hen1.
      split_and!; try done. naive_solver.
    - pose proof (at_payload _ _ _ (co_applied _ _ _ _ Hc)) as Hpay. rewrite (co_payload _ _ _ _ Hc) in Hpay.
      split_and!; try apply Hc.
      + eapply RecordOk_commit; [done|done|done|]. intros k entry Hk. left.
        apply (rk_shown _ Hok1 Hen) in Hk. apply list_elem_of_fmap. eexists. split; [|done]. by destruct k.
      + by eapply committed_kin.
      + intros _. unfold ir_pending. simpl in Hpay. inv_result. rename select (_ = is_pending _) into Heq.
        rewrite <-Heq. apply elem_of_app. right. left.
      + intros k. apply payload_keys in Hpay as (Hk & _); [|apply (sk_pending _ (rk_snapshot _ Hok1))].
        unfold shown, ir_pending. rewrite Hk. simpl in *. rewrite Hen. unfold pi_key. simpl. naive_solver. }
  split_and!; try done.
  - eapply RecordOk_begin; [exact Hok|exact Hg|done|done|done|done|done|done].
  - etrans; [done|]. destruct Hkin2. by split.
  - simpl. rewrite Hgen. simpl. lia.
  - simpl. by rewrite Hent.
Qed.

Lemma try_commit_entries now payload r : ir_entries (try_commit now payload r) = ir_entries r.
Proof.
  unfold try_commit. destruct (ir_enabled r); [|done]. destruct (commit now payload r) as [[r' e]|] eqn:Hc; [|done].
  by apply commit_Ok in Hc as [].
Qed.

(** ** Removals *)

(** The stream has a sequence number left. *)
Definition roomy r : Prop := (ic_seq (ir_cursor r) < u64_max)%N.

(** [r'] is [r] with pending entries cleared, whose continuations are [senders]: they are
    not shown any more, unless the stream has come to its end. *)
Record Cleared r r' (senders : list nat) : Prop := {
  cl_ok : RecordOk r';
  cl_kin : Kin r r';
  cl_sub : ir_entries r' ⊆ ir_entries r;
  cl_pending : ∀ k s, ir_entries r !! k = Some s → ir_entries r' !! k = None →
    ∃ entry, s = Pending entry ∧ pe_sender entry ∈ senders;
  cl_senders : ∀ sender, sender ∈ senders →
    ∃ k entry, ir_entries r !! k = Some (Pending entry) ∧ ir_entries r' !! k = None ∧ pe_sender entry = sender;
  cl_shown_sub : ∀ k, k ∈ shown r' → k ∈ shown r;
  cl_shown_keep : ∀ k, k ∈ shown r → k ∈ shown r' ∨ (is_Some (ir_entries r !! k) ∧ ir_entries r' !! k = None);
  cl_shown_gone : ir_enabled r = true → roomy r' → ∀ k,
    is_Some (ir_entries r !! k) → ir_entries r' !! k = None → k ∉ shown r';
}.

Lemma Cleared_refl r : RecordOk r → Cleared r r [].
Proof.
  intros Hok. split; try done; [intros k s H1 H2; congruence|by intros ? ?%elem_of_nil|by left|].
  intros _ _ k [s H1] H2. congruence.
Qed.

Lemma Cleared_trans r r1 r2 s1 s2 : Cleared r r1 s1 → Cleared r1 r2 s2 → Cleared r r2 (s1 ++ s2).
Proof.
  intros [_ Hk1 Hsub1 Hp1 Hse1 Hs1 Hke1 Hg1] [Hok Hk2 Hsub2 Hp2 Hse2 Hs2 Hke2 Hg2].
  assert (∀ k, ir_entries r1 !! k = None → ir_entries r2 !! k = None) as Hnone.
  { intros k Hk. destruct (ir_entries r2 !! k) eqn:H2; [|done]. pose proof (lookup_weaken _ _ _ _ H2 Hsub2). congruence. }
  split; [done|by etrans|by etrans| | |by auto| |].
  - intros k s Hk Hn. setoid_rewrite elem_of_app. destruct (ir_entries r1 !! k) as [s'|] eqn:H1.
    + pose proof (lookup_weaken _ _ _ _ H1 Hsub1). simplify_eq. destruct (Hp2 _ _ H1 Hn) as (? & ? & ?); eauto.
    + destruct (Hp1 _ _ Hk H1) as (? & ? & ?); eauto.
  - intros sender [Hx|Hx]%elem_of_app.
    + destruct (Hse1 _ Hx) as (k & entry & ? & ? & ?). exists k, entry. auto.
    + destruct (Hse2 _ Hx) as (k & entry & ? & ? & ?). exists k, entry. split_and!; [|done|done]. by eapply lookup_weaken.
  - intros k Hk. destruct (Hke1 _ Hk) as [Hk1'|[? ?]]; [|by right; auto]. destruct (Hke2 _ Hk1') as [?|[[s Hs] ?]]; [by left|right].
    split; [|done]. exists s. by eapply lookup_weaken.
  - intros Hen Hroom k Hk Hn. destruct (ir_entries r1 !! k) as [s'|] eqn:H1.
    + apply Hg2; [by rewrite (kin_enabled _ _ Hk1)|done|by eexists|done].
    + intros Hin. eapply (Hg1 Hen); [|exact Hk|exact H1|by apply Hs2]. unfold roomy in *. pose proof (kin_seq _ _ Hk2). lia.
Qed.

(** The removal of one pending entry. *)
Lemma Cleared_one `{!EventLaws} now k cause r entry :
  RecordOk r → cause ∈ REMOVAL_CAUSES → ir_entries r !! k = Some (Pending entry) →
  Cleared r (try_commit now (Removed k.2 k.1 cause) (set_ir_entries (delete k (ir_entries r)) r)) [pe_sender entry].
Proof.
  intros Hok Hcause Hk. set (r1 := set_ir_entries (delete k (ir_entries r)) r).
  assert (RecordOk r1) as Hok1 by (apply RecordOk_subseteq; [done|apply delete_subseteq]).
  assert (ir_entries r1 !! k = None) as Hnone by apply lookup_delete_eq.
  assert (∀ r2, RecordOk r2 → Kin r1 r2 → ir_entries r2 = ir_entries r1 →
    (∀ k', k' ∈ shown r2 → k' ∈ shown r) → (∀ k', k' ∈ shown r → k' = k ∨ k' ∈ shown r2) →
    (ir_enabled r = true → roomy r2 → k ∉ shown r2) → Cleared r r2 [pe_sender entry]) as Hgen.
  { intros r2 Hok2 Hkin2 Hent Hs2 Hke2 Hg2. assert (ir_entries r2 = delete k (ir_entries r)) as Hd by done.
    split; rewrite ?Hd; try done.
    - destruct Hkin2. by split.
    - apply delete_subseteq.
    - intros k' s Hk' [->|?]%lookup_delete_None; [|congruence]. exists entry. split; [congruence|left].
    - intros s ->%list_elem_of_singleton. exists k, entry. split_and!; [done|apply lookup_delete_eq|done].
    - intros k' [->|?]%Hke2; [right; split; [by eexists|apply lookup_delete_eq]|by left].
    - intros Hen Hroom k' [s Hs] [<-|?]%lookup_delete_None; [by auto|congruence]. }
  unfold try_commit. destruct (ir_enabled r1) eqn:Hen.
  2:{ apply Hgen; try done; [by auto|]. intros Hen'. simpl in Hen. congruence. }
  destruct (commit now _ r1) as [[r2 e]|err] eqn:Hc.
  - apply commit_Ok in Hc. pose proof (commit_removed_shown _ _ _ _ _ _ (rk_snapshot _ Hok1) Hc) as Hsh.
    apply Hgen; try (by apply Hc).
    + eapply RecordOk_commit; [done|done|done|]. intros k' entry' Hk'. simpl. split.
      * apply (rk_shown _ Hok1 Hen) in Hk'. apply list_elem_of_fmap. eexists. split; [|done]. by destruct k'.
      * intros ->. rewrite <-surjective_pairing in Hk'. congruence.
    + by eapply committed_kin.
    + by intros k' [? _]%Hsh.
    + intros k' Hk'. destruct (decide (k' = k)) as [->|Hne]; [by left|right]. apply Hsh. split; [done|by destruct k].
    + intros _ _ [_ Hne]%Hsh. by destruct k.
  - apply Hgen; try done; [by auto|]. intros _ Hroom Hin.
    destruct (commit_removed_total now r1 k.2 k.1 cause) as (r2 & e & Hc'); [apply Hok1|done| |done|congruence].
    by destruct k.
Qed.
End records.
