(* ===== verification/InteractionBlocks.v ===== *)
(** * The locked blocks of the interaction registry

    What each method does to its record, as one lemma per block: the answer decides
    which entries are added, resolved or removed, and the record stays well formed. The
    last section is the replay contract of the journal. *)

From S2P Require Import Prelude EventJournal Protocol StoreState CoreSession Interactions InteractionRecord InteractionLaws.

Section blocks.
Context `{Externals} `{EventExternals} `{!EventLaws} `{DigestExternals} `{MapOrder}.
Implicit Types (r : InteractionRecord) (key : string * string).

Lemma commit_if_enabled_record {E} (wrap : string → E) now payload r :
  (commit_if_enabled wrap now payload r).2 = try_commit now payload r.
Proof.
  rewrite commit_if_enabled_eq. unfold try_commit, commit_or.
  destruct (ir_enabled r); [|done]. by destruct (commit now payload r) as [[??]|].
Qed.

(** ** Clearing *)

Lemma clear_key_Cleared now cause r senders key :
  RecordOk r → cause ∈ REMOVAL_CAUSES → is_some_and (ir_entries r !! key) is_pending_state = true →
  ∃ r' more, clear_key now cause (r, senders) key = (r', senders ++ more) ∧ Cleared r r' more ∧
    ir_entries r' = delete key (ir_entries r).
Proof.
  intros Hok Hcause Hk. unfold clear_key. destruct (ir_entries r !! key) as [[entry|]|] eqn:He; [|done..].
  eexists _, _. split_and!; [done|by apply Cleared_one|].
  by rewrite try_commit_entries.
Qed.

Lemma clear_keys_Cleared now cause keys r senders :
  RecordOk r → cause ∈ REMOVAL_CAUSES → NoDup keys →
  (∀ key, key ∈ keys → is_some_and (ir_entries r !! key) is_pending_state = true) →
  ∃ r' more, foldl (clear_key now cause) (r, senders) keys = (r', senders ++ more) ∧ Cleared r r' more ∧
    ∀ key, ir_entries r' !! key = if decide (key ∈ keys) then None else ir_entries r !! key.
Proof.
  intros Hok Hcause. revert r senders Hok. induction keys as [|key keys IH]; intros r senders Hok Hnd Hk; cbn [foldl].
  { exists r, []. rewrite app_nil_r. split_and!; [done|by apply Cleared_refl|]. intros k.
    rewrite decide_False; [done|]. by apply not_elem_of_nil. }
  apply NoDup_cons in Hnd as [Hni Hnd].
  destruct (clear_key_Cleared now cause r senders key Hok Hcause) as (r1 & m1 & -> & Hc1 & Hent); [apply Hk; left|].
  destruct (IH r1 (senders ++ m1)) as (r2 & m2 & -> & Hc2 & Hent2); [by apply Hc1|done| |].
  { intros k Hin. rewrite Hent, lookup_delete_ne by set_solver. apply Hk. by right. }
  exists r2, (m1 ++ m2). rewrite app_assoc. split_and!; [done|by eapply Cleared_trans|].
  intros k. rewrite Hent2, Hent. destruct (decide (k = key)) as [->|Hne].
  - rewrite lookup_delete_eq, (decide_True _ _ (list_elem_of_here _ _)). by destruct (decide _).
  - rewrite lookup_delete_ne by done. destruct (decide (k ∈ keys)); destruct (decide (k ∈ key :: keys)); set_solver.
Qed.

Lemma elem_of_pending_keys turn_id m key :
  key ∈ pending_keys turn_id m ↔ key.1 = turn_id ∧ ∃ entry, m !! key = Some (Pending entry).
Proof.
  unfold pending_keys. rewrite elem_of_filter_b, andb_true_iff, bool_decide_eq_true. split.
  - intros (_ & ? & Hp). split; [done|]. destruct (m !! key) as [[]|]; [by eexists|done..].
  - intros (? & entry & Hk). rewrite Hk. split; [|done]. rewrite entry_order_perm.
    apply list_elem_of_fmap. exists (key, Pending entry). split; [done|]. by apply elem_of_map_to_list.
Qed.

Lemma NoDup_entry_order m : NoDup (entry_order m).
Proof. rewrite entry_order_perm. apply NoDup_fst_map_to_list. Qed.

Lemma NoDup_filter_b {A} (p : A → bool) l : NoDup l → NoDup (List.filter p l).
Proof. induction 1 as [|x l Hx Hl IH]; simpl; [constructor|]. destruct (p x); [|done]. apply NoDup_cons.
  split; [|done]. by intros [? _]%elem_of_filter_b.
Qed.

Lemma clear_run_locked_entries now turn_id cause r :
  RecordOk r → cause ∈ REMOVAL_CAUSES →
  let '(r', senders) := clear_run_locked now turn_id cause r in
  Cleared r r' senders ∧
  ∀ key, ir_entries r' !! key = if decide (key ∈ pending_keys turn_id (ir_entries r)) then None else ir_entries r !! key.
Proof.
  intros Hok Hcause. unfold clear_run_locked.
  destruct (clear_keys_Cleared now cause (pending_keys turn_id (ir_entries r)) r [] Hok Hcause) as (r' & m & -> & Hc & Hent).
  { apply NoDup_filter_b, NoDup_entry_order. }
  { intros key (_ & entry & ->)%elem_of_pending_keys. done. }
  done.
Qed.

Lemma clear_run_locked_Cleared now turn_id cause r :
  RecordOk r → cause ∈ REMOVAL_CAUSES →
  let '(r', senders) := clear_run_locked now turn_id cause r in
  Cleared r r' senders ∧ ∀ request_id entry, ir_entries r' !! (turn_id, request_id) ≠ Some (Pending entry).
Proof.
  intros Hok Hcause. pose proof (clear_run_locked_entries now turn_id cause r Hok Hcause) as Hl.
  destruct (clear_run_locked now turn_id cause r) as [r' senders]. destruct Hl as [Hc Hent]. split; [done|].
  intros request_id entry. rewrite Hent. case_decide as Hin; [done|]. intros Hk. apply Hin, elem_of_pending_keys. eauto.
Qed.

Lemma clear_exact_locked_Cleared now turn_id request_id generation cause r :
  RecordOk r → cause ∈ REMOVAL_CAUSES →
  match clear_exact_locked now turn_id request_id generation cause r with
  | Some (r', sender) => Cleared r r' [sender]
  | None => True
  end.
Proof.
  intros Hok Hcause. unfold clear_exact_locked.
  destruct (ir_entries r !! (turn_id, request_id)) as [[entry|]|] eqn:Hk; [|done..]. case_decide; [|done].
  exact (Cleared_one now (turn_id, request_id) cause r entry Hok Hcause Hk).
Qed.

(** ** Claiming *)

Lemma claim_locked_spec closed now key digest generation require_enabled completion r answer r' :
  claim_locked closed now key digest generation require_enabled completion r = (answer, r') → RecordOk r →
  match answer with
  | Ok (ClaimFollower typed n) =>
      r' = r ∧ ∃ previous g, ir_entries r !! key = Some (Resolved previous g typed n) ∧ constant_time_eq previous digest = true
  | Ok (ClaimLeader typed sender n) =>
      ∃ entry, ir_entries r !! key = Some (Pending entry) ∧ pe_generation entry = generation ∧
        n = completion ∧ sender = pe_sender entry ∧ typed = pe_typed_approval entry ∧ closed sender = false ∧
        r' = set_ir_entries (<[key := Resolved digest generation typed completion]> (ir_entries r)) r
  | Err _ => r' = r ∨ ∃ entry, ir_entries r !! key = Some (Pending entry) ∧ closed (pe_sender entry) = true ∧
                         Cleared r r' [pe_sender entry]
  end.
Proof.
  unfold claim_locked. intros Hc Hok. destruct (require_enabled && _); [injection Hc as <- <-; by left|].
  destruct (ir_entries r !! key) as [[entry|previous g typed n]|] eqn:Hk; [| |injection Hc as <- <-; by left].
  - destruct (decide (pe_generation entry = generation)) as [Hg|]; [|injection Hc as <- <-; by left].
    destruct (closed (pe_sender entry)) eqn:Hclosed.
    + set (r1 := set_ir_entries (delete key (ir_entries r)) r) in *.
      pose proof (Cleared_one now key REMOVAL_ORIGIN_FINISHED r entry Hok ltac:(unfold REMOVAL_CAUSES; set_solver) Hk) as Hcl.
      pose proof (commit_if_enabled_record failure_unavailable now (Removed key.2 key.1 REMOVAL_ORIGIN_FINISHED) r1) as Hr.
      unfold mbind, eff_bind, lift in Hc.
      destruct (commit_if_enabled failure_unavailable now _ r1) as [[]  r2]; simpl in Hr; subst r2;
        injection Hc as <- <-; right; by exists entry.
    + injection Hc as <- <-. exists entry. by split_and!.
  - destruct (constant_time_eq previous digest) eqn:Heq; injection Hc as <- <-; [|by left].
    split; [done|]. by exists previous, g.
Qed.

(** ** Finishing a response *)

Lemma resolved_matches_true key generation digest r :
  resolved_matches key generation digest r = true ↔
  ∃ saved typed n, ir_entries r !! key = Some (Resolved saved generation typed n) ∧ constant_time_eq saved digest = true.
Proof.
  unfold resolved_matches. destruct (ir_entries r !! key) as [[entry|saved current typed n]|].
  - split; [done|]. by intros (? & ? & ? & [=] & _).
  - rewrite andb_true_iff, bool_decide_eq_true. naive_solver.
  - split; [done|]. by intros (? & ? & ? & [=] & _).
Qed.

Lemma publish_resolved_spec now key generation digest r answer r' :
  publish_resolved_locked now key generation digest r = (answer, r') → RecordOk r →
  RecordOk r' ∧ Kin r r' ∧ ir_entries r' = ir_entries r ∧
  match answer with
  | Ok _ => resolved_matches key generation digest r = true ∧
            (ir_enabled r = true → key ∈ shown r ∧ ∀ k, k ∈ shown r' ↔ k ∈ shown r ∧ k ≠ key) ∧ (ir_enabled r = false → r' = r)
  | Err _ => r' = r
  end.
Proof.
  unfold publish_resolved_locked. intros Hp Hok.
  destruct (resolved_matches key generation digest r) eqn:Hm; [|by injection Hp as <- <-].
  apply resolved_matches_true in Hm as Hm'. destruct Hm' as (saved & typed & n & Hk & _).
  apply commit_if_enabled_spec in Hp as Hp'. destruct Hp' as [[-> Herr]|(Hen & -> & e & Hc)].
  - split_and!; try done. destruct answer as [[]|]; [|done]. split_and!; try done.
    intros Hen. by specialize (Herr Hen).
  - pose proof (commit_removed_shown _ _ _ _ _ _ (rk_snapshot _ Hok) Hc) as Hsh.
    split_and!; [|by eapply committed_kin|apply Hc|done| |congruence].
    + eapply RecordOk_commit; [done|done|done|]. intros k entry Hk'. simpl. split.
      * apply (rk_shown _ Hok Hen) in Hk'. apply list_elem_of_fmap. eexists. split; [|done]. by destruct k.
      * rewrite <-surjective_pairing. congruence.
    + intros _. rewrite <-surjective_pairing in Hsh. split; [|done].
      pose proof (at_payload _ _ _ (co_applied _ _ _ _ Hc)) as Hpay. rewrite (co_payload _ _ _ _ Hc) in Hpay.
      simpl in Hpay. inv_result. rename select (remove_first _ _ = _) into Hr.
      apply remove_first_Some in Hr as (l1 & x & l2 & Heq & Hx%is_request_true & _ & _).
      apply list_elem_of_fmap. exists x. rewrite Hx, <-surjective_pairing. split; [done|].
      unfold ir_pending. rewrite Heq. set_solver.
Qed.

(** The snapshot without an interaction that is not pending. *)
Lemma RecordOk_hide r key :
  RecordOk r → (∀ entry, ir_entries r !! key ≠ Some (Pending entry)) →
  RecordOk (set_ir_snapshot
    {| is_thread_id := is_thread_id (ir_snapshot r); is_cursor := is_cursor (ir_snapshot r);
       is_pending := List.filter (λ p, negb (is_request key.1 key.2 p)) (is_pending (ir_snapshot r)) |} r).
Proof.
  intros [Hs Hq Hj Hi Hc He Hsh Hd Hb Hg Hn] Hk. split; unfold ir_cursor, ir_pending in *; simpl; try done.
  - destruct Hs as [? ? ? Hp]. split; simpl; try done. eapply PendingOk_sublist; [|exact Hp].
    generalize (is_pending (ir_snapshot r)). induction l as [|x l IH]; simpl; [done|].
    destruct (negb _); [by apply sublist_skip|by apply sublist_cons].
  - by destruct Hj.
  - intros Hen k entry Hke. apply elem_of_filter_b. split; [by apply Hsh|]. apply negb_true_iff.
    destruct (is_request key.1 key.2 (pending_of k entry)) eqn:Hr; [|done]. apply is_request_true in Hr.
    unfold pi_key in Hr. simpl in Hr. rewrite <-!surjective_pairing in Hr. subst. by apply Hk in Hke.
  - intros Hf. destruct (Hd Hf) as (-> & ? & ?). done.
Qed.

Lemma elem_of_hidden key l k :
  k ∈ pi_key <$> List.filter (λ p, negb (is_request key.1 key.2 p)) l ↔ k ∈ pi_key <$> l ∧ k ≠ key.
Proof.
  rewrite !list_elem_of_fmap. setoid_rewrite elem_of_filter_b. setoid_rewrite negb_true_iff. split.
  - intros (p & -> & Hp & Hr). split; [by exists p|]. intros Heq. assert (is_request key.1 key.2 p = true) as Ht.
    { apply is_request_true. by rewrite Heq, <-surjective_pairing. }
    congruence.
  - intros [(p & -> & Hp) Hne]. exists p. split_and!; [done|done|].
    destruct (is_request key.1 key.2 p) eqn:Hr; [|done]. apply is_request_true in Hr. by rewrite <-surjective_pairing in Hr.
Qed.

Lemma abort_resolved_spec now key generation digest cause r :
  RecordOk r →
  let r' := abort_resolved_locked now key generation digest cause r in
  RecordOk r' ∧ Kin r r' ∧
  if resolved_matches key generation digest r then
    ir_entries r' = delete key (ir_entries r) ∧
    (ir_enabled r = true → ∀ k, k ∈ shown r' ↔ k ∈ shown r ∧ k ≠ key) ∧ (ir_enabled r = false → shown r' = shown r)
  else r' = r.
Proof.
  intros Hok. unfold abort_resolved_locked. destruct (resolved_matches key generation digest r) eqn:Hm; [|done].
  apply resolved_matches_true in Hm as (saved & typed & n & Hk & _).
  assert (∀ entry, ir_entries r !! key ≠ Some (Pending entry)) as Hnp by congruence.
  assert (∀ r1, RecordOk r1 → Kin r r1 → ir_entries r1 = ir_entries r →
    RecordOk (set_ir_entries (delete key (ir_entries r1)) r1) ∧
    Kin r (set_ir_entries (delete key (ir_entries r1)) r1)) as Hdel.
  { intros r1 Hok1 [] Hent. split; [apply RecordOk_subseteq; [done|apply delete_subseteq]|by split]. }
  destruct (ir_enabled r) eqn:Hen.
  2:{ destruct (Hdel r) as [? ?]; done. }
  destruct (commit now _ r) as [[r1 e]|] eqn:Hc.
  - apply commit_Ok in Hc. pose proof (commit_removed_shown _ _ _ _ _ _ (rk_snapshot _ Hok) Hc) as Hsh.
    rewrite <-surjective_pairing in Hsh. destruct (Hdel r1) as [? ?]; [|by eapply committed_kin|apply Hc|].
    + eapply RecordOk_commit; [done|done|done|]. intros k entry Hk'. simpl. split.
      * apply (rk_shown _ Hok Hen) in Hk'. apply list_elem_of_fmap. eexists. split; [|done]. by destruct k.
      * rewrite <-surjective_pairing. congruence.
    + split_and!; [done|done|by simpl; rewrite (co_entries _ _ _ _ Hc)|done|done].
  - pose proof (RecordOk_hide r key Hok Hnp) as Hok1.
    edestruct Hdel as [? ?]; [exact Hok1|by split|done|]. split_and!; [done|done|done| |done].
    intros _ k. apply elem_of_hidden.
Qed.

(** ** Retiring *)

Lemma scrub_turn_spec turn_id r :
  JournalOk r →
  let r' := scrub_turn turn_id r in
  JournalOk r' ∧ (∃ journal bytes floor, r' = set_ir_journal journal bytes floor r) ∧
  (∃ pre, ir_journal r = pre ++ ir_journal r') ∧ (∀ x, x ∈ ir_journal r' → je_turn_id x ≠ turn_id) ∧
  (ic_seq (ir_replay_floor r) <= ic_seq (ir_replay_floor r'))%N.
Proof.
  intros Hj. unfold scrub_turn. destruct (max_seq_of_run _ _ _) as [t|] eqn:Hmax.
  - apply max_seq_Some in Hmax as [(x & Hx & Hrun & Ht) Hall]. destruct Hj as [Hch Hb Hl Hme Hmb].
    set (floor := {| ic_thread_id := ic_thread_id (ir_replay_floor r); ic_stream_id := ic_stream_id (ir_replay_floor r);
                     ic_seq := N.max (ic_seq (ir_replay_floor r)) t |}).
    assert (ic_seq (ir_replay_floor r) < t)%N as Hlt.
    { rewrite <-Ht. eapply (leads_bounds _ _ _ (je_event x)) in Hch as [? _]; [|by apply list_elem_of_fmap_2]. simpl in *. unfold entry_seq, entry_cursor. lia. }
    destruct (pop_front_leads je_event je_size t _ _ floor _ x Hch Hx Ht) as (pre & post & Heq & Hpop & Hch' & _ & Hpre & Hpost);
      [done|simpl; lia|].
    change (pop_front_through je_size (λ x : InteractionEntry, es_seq (es_cursor (je_event x)))) with
      (pop_front_through je_size entry_seq) in Hpop.
    rewrite Hb, Hpop. split_and!; [|by eexists _, _, _|by exists pre| |simpl; lia].
    + split; simpl; try done.
      * intros y Hy. apply Hl. rewrite Heq. apply elem_of_app. by right.
      * rewrite Heq, length_app in Hme. lia.
      * rewrite Hb, Heq, total_size_app in Hmb. lia.
    + intros y Hy Hr. specialize (Hpost y Hy). assert (y ∈ ir_journal r) as Hin by (rewrite Heq; apply elem_of_app; by right).
      specialize (Hall y Hin). rewrite bool_decide_eq_true in Hall. specialize (Hall Hr).
      unfold entry_seq, entry_cursor in *. simpl in *. lia.
  - split_and!; [done|by exists (ir_journal r), (ir_journal_bytes r), (ir_replay_floor r); destruct r|by exists []| |done].
    intros x Hx. pose proof (max_seq_None _ _ _ x Hmax Hx) as Hf. by apply bool_decide_eq_false in Hf.
Qed.

Lemma retire_locked_spec turn_id identity r :
  RecordOk r →
  let '(answer, r') := retire_locked turn_id identity r in
  RecordOk r' ∧ Kin r r' ∧ ir_snapshot r' = ir_snapshot r ∧
  (r' = r ∨
   (answer = true ∧ ir_run_identities r !! turn_id = Some identity ∧
    (∀ request_id entry, ir_entries r !! (turn_id, request_id) ≠ Some (Pending entry)) ∧
    ir_entries r' = filter (λ kv, kv.1.1 ≠ turn_id) (ir_entries r) ∧
    (∀ x, x ∈ ir_journal r' → je_turn_id x ≠ turn_id))).
Proof.
  intros Hok. unfold retire_locked. destruct (ir_run_identities r !! turn_id) as [current|] eqn:Hrun; [|by split_and!; [..|left]].
  destruct (decide (current = identity)) as [->|]; [|by split_and!; [..|left]].
  destruct (existsb _ _) eqn:Hex; [by split_and!; [..|left]|].
  destruct (scrub_turn_spec turn_id r (rk_journal _ Hok)) as (Hj & (j & b & f & Hr) & (pre & Hpre) & Hgone & Hfloor).
  rewrite Hr in *. cbn [set_ir_journal ir_entries ir_run_identities ir_journal] in *.
  assert (RecordOk (set_ir_journal j b f r)) as Hok1.
  { eapply RecordOk_fields; [exact Hok|done|done| |done|done|done|done]. simpl. intros Hnil. rewrite Hnil in Hpre.
    by destruct pre, j. }
  split_and!; [| |done|right; split_and!; try done].
  - apply RecordOk_runs. refine (RecordOk_subseteq _ _ Hok1 _). apply map_filter_subseteq.
  - split; simpl; done.
  - intros request_id entry Hk. pose proof (proj1 (existsb_false _ _) Hex ((turn_id, request_id), Pending entry)) as Hf.
    simpl in Hf. rewrite bool_decide_eq_true_2 in Hf by done. assert (true = false) as [=]. apply Hf. by apply elem_of_map_to_list.
Qed.
End blocks.

(** ** What the readers of a session's interactions are answered

    Every answer of [InteractionRecord::replay] passes the validation of the client,
    the snapshots are valid, and a page is a part of the journal. *)

Section replay.
Context `{Externals} `{EventExternals}.
Implicit Types (r : InteractionRecord) (params : SubscribeInteractionsParams) (c through : InteractionCursor).

Lemma subscribe_params_valid params :
  SubscribeInteractionsParams_validate params = Ok () →
  InteractionCursor_validate (si_after params) = Ok () ∧ ic_thread_id (si_after params) = si_thread_id params ∧
  (0 < si_limit params)%N ∧
  ∀ t, si_through params = Some t →
    same_stream_place (si_after params) t ∧ (ic_seq (si_after params) <= ic_seq t)%N.
Proof.
  unfold SubscribeInteractionsParams_validate, validate_interaction_replay_page_limit. intros Hv. inv_result.
  repeat match goal with u : () |- _ => destruct u end. inv_bool. split_and!; try done; [lia|].
  intros t Ht. rewrite Ht in *. inv_result. inv_bool. repeat match goal with u : () |- _ => destruct u end.
  split; [|done]. by apply in_same_stream_true.
Qed.

(** The three kinds of answer. *)
Inductive ReplayAnswer r params : SubscribeInteractionsResult → Prop :=
  | replay_reset :
      ic_stream_id (si_after params) ≠ ic_stream_id (ir_cursor r) →
      ReplayAnswer r params (interaction_gap r params (ir_cursor r) InteractionStreamReset)
  | replay_gap through :
      same_stream_place (si_after params) (ir_cursor r) → same_stream_place through (ir_cursor r) →
      through = default (ir_cursor r) (si_through params) →
      (ic_seq (si_after params) < ic_seq (ir_replay_floor r))%N →
      ReplayAnswer r params (interaction_gap r params through InteractionRetention)
  | replay_page through events :
      same_stream_place (si_after params) (ir_cursor r) → same_stream_place through (ir_cursor r) →
      through = default (ir_cursor r) (si_through params) →
      (ic_seq (ir_replay_floor r) <= ic_seq (si_after params) <= ic_seq through)%N →
      (ic_seq through <= ic_seq (ir_cursor r))%N →
      events = interaction_page r (ic_seq (si_after params)) (ic_seq through) (si_limit params) →
      ReplayAnswer r params
        {| sr_events := events; sr_resume_after := default (si_after params) (ie_cursor <$> last events);
           sr_through := through;
           sr_has_more := (ic_seq (default (si_after params) (ie_cursor <$> last events)) <? ic_seq through)%N;
           sr_gap := None |}.

Lemma replay_ReplayAnswer r params answer :
  ic_thread_id (ir_cursor r) = si_thread_id params → replay_interactions r params = Ok answer →
  SubscribeInteractionsParams_validate params = Ok () ∧ ReplayAnswer r params answer.
Proof.
  intros Ht Hr. unfold replay_interactions in Hr. apply bind_Ok in Hr as ([] & Hv & Hr). split; [done|].
  destruct (subscribe_params_valid _ Hv) as (_ & Hat & _ & Hth).
  destruct (_ != _) eqn:Hs in Hr; inv_bool; [injection Hr as <-; by constructor|].
  assert (same_stream_place (si_after params) (ir_cursor r)) as Hp by (split; congruence).
  inv_result. inv_bool. match goal with Hx : check_through _ _ = Ok ?o |- _ => rename o into early, Hx into He end.
  match goal with Hx : match early with _ => _ end = Ok _ |- _ => rename Hx into Hr end.
  assert (early = None ∧ same_stream_place (default (ir_cursor r) (si_through params)) (ir_cursor r) ∧
          (ic_seq (si_after params) <= ic_seq (default (ir_cursor r) (si_through params)) <= ic_seq (ir_cursor r))%N)
    as (-> & Hpt & Hle).
  { unfold check_through in He. destruct (si_through params) as [t|]; simpl in *; [|inv_result; split_and!; [done..|lia]].
    destruct (Hth t eq_refl) as (Hpt & Hle). assert (same_stream_place t (ir_cursor r)) as Hpt' by (by etrans; [symmetry|]).
    destruct (_ != _) eqn:Hn in He; inv_bool; [by destruct Hpt'|]. inv_result. by inv_bool. }
  destruct (N.ltb_spec (ic_seq (si_after params)) (ic_seq (ir_replay_floor r))); injection Hr as <-.
  - by apply replay_gap.
  - eapply replay_page; try done; lia.
Qed.

(** The events of a page lead from the requested cursor to the resume cursor. *)
Lemma page_leads r params through :
  JournalOk r → same_stream_place (si_after params) (ir_cursor r) → same_stream_place through (ir_cursor r) →
  (ic_seq (ir_replay_floor r) <= ic_seq (si_after params) <= ic_seq through)%N →
  (ic_seq through <= ic_seq (ir_cursor r))%N →
  let events := interaction_page r (ic_seq (si_after params)) (ic_seq through) (si_limit params) in
  leads (si_after params) events (default (si_after params) (ie_cursor <$> last events)) ∧
  (∀ e, e ∈ events → e ∈ je_event <$> ir_journal r ∧ (ic_seq (ie_cursor e) <= ic_seq through)%N) ∧
  ((0 < si_limit params)%N → events = [] → ic_seq (si_after params) = ic_seq through).
Proof.
  intros [Hch _ _ _ _] Ha Ht Hle Hc events. pose proof (leads_place _ _ _ Hch) as Hfp.
  assert (leads (si_after params) (List.filter (λ e, (ic_seq (si_after params) <? ic_seq (ie_cursor e))%N &&
    (ic_seq (ie_cursor e) <=? ic_seq through)%N) (je_event <$> ir_journal r)) through) as Hfull.
  { eapply (leads_filter _ _ _ (si_after params) through Hch); simpl; try lia; etrans; try exact Hfp; by symmetry. }
  split_and!.
  - apply (leads_take _ _ _ _ Hfull).
  - intros e He%subseteq_take. apply elem_of_filter_b in He as [He Hb]. inv_bool. done.
  - intros Hlim Hnil. unfold events, interaction_page in Hnil.
    destruct (List.filter _ _) as [|e es] eqn:Hf; [by simpl in Hfull; subst|].
    destruct (N.to_nat (si_limit params)) eqn:Hn; [lia|done].
Qed.

(** The loop of the client over the events of a page accepts a chain below the watermark. *)
Lemma check_events_leads through c es c' :
  leads c es c' → (∀ e, e ∈ es → (ic_seq (ie_cursor e) <= ic_seq through)%N) →
  fold_res (check_interaction_event through) c es = Ok c'.
Proof.
  revert c. induction es as [|e es IH]; intros c; simpl; [by intros ->|].
  intros (Hn & Hv & Hch) Hle. unfold check_interaction_event. rewrite Hv, Hn. simpl.
  rewrite bool_decide_eq_true_2 by done. simpl.
  rewrite (proj2 (N.ltb_ge _ _)) by (apply Hle; left). simpl. apply IH; [done|]. intros ??. apply Hle. by right.
Qed.

Lemma replay_meets_contract r params answer :
  RecordOk r → si_thread_id params = is_thread_id (ir_snapshot r) →
  replay_interactions r params = Ok answer → replay_valid_for answer params = Ok ().
Proof.
  intros Hok Hthread Hr. destruct (rk_snapshot _ Hok) as [_ Hcv Hct _]. fold (ir_cursor r) in *.
  assert (ic_thread_id (ir_cursor r) = si_thread_id params) as Ht by congruence.
  destruct (replay_ReplayAnswer _ _ _ Ht Hr) as [Hv Ha]. destruct (subscribe_params_valid _ Hv) as (Hav & Hat & Hl & Hth).
  pose proof (jo_chain _ (rk_journal _ Hok)) as Hch.
  pose proof (leads_place _ _ _ Hch) as Hfp. pose proof (leads_seq _ _ _ Hch) as Hfs. simpl in Hfp, Hfs.
  assert (InteractionCursor_validate (ir_replay_floor r) = Ok ()) as Hfv by (by rewrite (interaction_cursor_place _ _ Hfp)).
  unfold replay_valid_for. rewrite Hv. simpl.
  destruct Ha as [Hne|through Hp Hpt -> Hlt|through events Hp Hpt -> Hle Hc Hev]; simpl.
  - pass_guards; [|unfold check_gap_through; simpl; pass_guards].
    unfold InteractionReplayGap_validate. simpl. pass_guards. by apply in_same_stream_true.
  - assert (InteractionCursor_validate (default (ir_cursor r) (si_through params)) = Ok ()) as Htv
      by (by rewrite (interaction_cursor_place _ _ Hpt)).
    destruct Hpt as [Hpt1 Hpt2]. pass_guards.
    + unfold InteractionReplayGap_validate. simpl. pass_guards; by apply in_same_stream_true.
    + unfold check_gap_through. simpl. destruct (si_through params); pass_guards.
  - destruct (page_leads r params (default (ir_cursor r) (si_through params))) as (Hpch & Hin & Hempty);
      [apply Hok|done..|]. rewrite <-Hev in Hpch, Hin, Hempty.
    set (resume := default (si_after params) (ie_cursor <$> last events)) in *.
    pose proof (leads_place _ _ _ Hpch) as Hrp. simpl in Hrp.
    assert (same_stream_place resume (default (ir_cursor r) (si_through params))) as Hrt.
    { transitivity (si_after params); [by symmetry|]. transitivity (ir_cursor r); [done|by symmetry]. }
    assert (InteractionCursor_validate (default (ir_cursor r) (si_through params)) = Ok ()) as Htv
      by (by rewrite (interaction_cursor_place _ _ Hpt)).
    destruct Hrp as [Hrp1 Hrp2], Hpt as [Hpt1 Hpt2], Hp as [Hp1 Hp2].
    pass_guards; [by rewrite (interaction_cursor_place _ _ Hrt)|].
    unfold check_interaction_page. simpl. pass_guards.
    + destruct (si_through params); pass_guards.
    + apply in_same_stream_true; split; congruence.
    + apply in_same_stream_true; split; congruence.
    + rewrite Hev. unfold interaction_page. rewrite length_take. lia.
    + rewrite (check_events_leads _ _ _ _ Hpch) by naive_solver. simpl. pass_guards; [apply eqb_reflx|].
      apply andb_false_iff. case_bool_decide as Hnil; [left|by right].
      specialize (Hempty Hl Hnil). unfold resume. rewrite Hnil. simpl. apply N.ltb_ge. lia.
Qed.

(** The part of a snapshot that belongs to a run. *)
Lemma of_turn_ok turn_id l : PendingOk None l → PendingOk (Some turn_id) (of_turn turn_id l).
Proof.
  intros [Hv _ Hk Hc]. unfold of_turn. split.
  - intros p [? _]%elem_of_filter_b. by apply Hv.
  - intros p turn [= <-] [_ Hp]%elem_of_filter_b. by inv_bool.
  - by apply NoDup_fmap_filter_b.
  - intros turn. etrans; [|apply (Hc turn)]. apply of_turn_length_sublist.
    clear. induction l as [|x l IH]; simpl; [done|]. case_bool_decide; [by apply sublist_skip|by apply sublist_cons].
Qed.

(** [get_turn] answers with the valid snapshot of the run's pending interactions. *)
Lemma get_turn_locked_Ok r thread_id turn_id :
  RecordOk r → is_thread_id (ir_snapshot r) = thread_id → validate_bounded_identity turn_id "turn_id" = Ok () →
  ir_enabled r = true →
  ∃ s, get_turn_locked thread_id turn_id r = Ok s ∧ TurnInteractionSnapshot_validate s = Ok () ∧
       ts_cursor s = ir_cursor r ∧ ts_pending s = of_turn turn_id (ir_pending r).
Proof.
  intros Hok Ht Hu Hen. unfold get_turn_locked. rewrite Hen. cbn [negb reject_if mbind result_bind].
  destruct (rk_snapshot _ Hok) as [Htv Hc Hp Hpend]. unfold TurnInteractionSnapshot_new. simpl. fold (of_turn turn_id (ir_pending r)).
  assert (TurnInteractionSnapshot_validate {| ts_thread_id := thread_id; ts_turn_id := turn_id;
    ts_cursor := ir_cursor r; ts_pending := of_turn turn_id (ir_pending r) |} = Ok ()) as Hval.
  { apply turn_snapshot_validate_Ok; [by subst|done|done|by subst|by apply of_turn_ok]. }
  rewrite Hval. simpl. by eexists.
Qed.
End replay.
