(* ===== verification/InteractionInvariant.v ===== *)
(** * The invariant of the interaction registry

    Who owns the channel of a continuation (a pending entry, or the one response that
    resolved it), what the channel, the entry and the completion are in each phase of
    that response, and that every step keeps it so. *)

From S2P Require Import Prelude EventJournal Protocol StoreState CoreSession SessionManagement Interactions InteractionRecord InteractionServer InteractionLaws InteractionBlocks.

Section invariant.
Context `{Externals} `{SchemaExternals} `{EventExternals} `{!EventLaws} `{DigestExternals} `{MapOrder}.
Implicit Types (w : Interactions) (r : InteractionRecord) (tx : Transaction) (c : ResponseCommit) (a i n t : nat)
  (k : string * string).

(** ** Views of a transaction *)

Definition tx_key tx : string * string := (rp_turn_id (tx_params tx), rp_request_id (tx_params tx)).
Definition tx_digest w tx : Digest := response_digest (iw_digest_key w) (rp_response (tx_params tx)).

(** The role a transaction has or had, with the channel it answers. *)
Definition role_of (phase : Phase) : option ResponseCompletion * option nat :=
  match phase with
  | Peeking _ => (None, None)
  | Claiming c | Staging c | Checked c => (cm_completion c, cm_ticket c)
  | Answered completion ticket _ => (completion, ticket)
  end.
Definition tx_role tx : option ResponseCompletion * option nat := role_of (tx_phase tx).
(** Transaction [tx] resolves the request whose continuation is [t]; others follow it through [n]. *)
Definition leads_response tx n t : Prop := tx_role tx = (Some (Leader n), Some t).

(** The generation of a response that is on its way. *)
Definition tx_generation tx : option N :=
  match tx_phase tx with
  | Claiming c | Staging c | Checked c => Some (cm_generation c)
  | _ => None
  end.

(** The commit of a leader, before and after its delivery. *)
Definition leader_commit w tx (generation : N) (typed : bool) n t : ResponseCommit :=
  commit_leader (tx_params tx) (tx_digest w tx) generation typed t n.
Definition staged_commit w tx (generation : N) (typed : bool) n t : ResponseCommit :=
  let p := tx_params tx in
  {| cm_thread_id := rp_thread_id p; cm_turn_id := rp_turn_id p; cm_request_id := rp_request_id p;
     cm_digest := tx_digest w tx; cm_generation := generation; cm_sender := None; cm_response := None;
     cm_delivery_commit := Some t; cm_typed_approval := typed; cm_newly_resolved := true;
     cm_completion := Some (Leader n) |}.

(** A later response to the same request, with the leader's tag. *)
Definition follows w tx n : Prop :=
  ∃ i tx' t, iw_transactions w !! i = Some tx' ∧ leads_response tx' n t ∧ tx_record tx' = tx_record tx ∧
    tx_key tx' = tx_key tx ∧ constant_time_eq (tx_digest w tx') (tx_digest w tx) = true.

(** The channels of a leader in each phase. *)
Inductive PhaseOk w tx : Phase → Prop :=
  | ok_peeking generation : PhaseOk w tx (Peeking generation)
  | ok_following typed n :
      follows w tx n → PhaseOk w tx (Claiming (commit_idempotent (tx_params tx) typed n))
  | ok_claiming generation typed n t :
      iw_completions w !! n = Some None →
      iw_tickets w !! t = Some TicketWaiting ∨ iw_tickets w !! t = Some TicketDropped →
      PhaseOk w tx (Claiming (leader_commit w tx generation typed n t))
  | ok_staging generation typed n t :
      iw_completions w !! n = Some None →
      iw_tickets w !! t = Some (TicketStaged (rp_response (tx_params tx))) ∨ iw_tickets w !! t = Some TicketDropped →
      PhaseOk w tx (Staging (staged_commit w tx generation typed n t))
  | ok_checked generation typed n t :
      iw_completions w !! n = Some None →
      iw_tickets w !! t = Some (TicketStaged (rp_response (tx_params tx))) ∨ iw_tickets w !! t = Some TicketDropped →
      PhaseOk w tx (Checked (staged_commit w tx generation typed n t))
  | ok_accepted n t outcome :
      iw_completions w !! n = Some (Some (Ok ())) →
      iw_tickets w !! t = Some (TicketDone (Ok (rp_response (tx_params tx)))) ∨ iw_tickets w !! t = Some TicketDropped →
      PhaseOk w tx (Answered (Some (Leader n)) (Some t) (Ok outcome))
  | ok_failed n t e e' :
      iw_completions w !! n = Some (Some (Err e')) →
      (∃ error, iw_tickets w !! t = Some (TicketDone (Err error))) ∨ iw_tickets w !! t = Some TicketDropped →
      PhaseOk w tx (Answered (Some (Leader n)) (Some t) (Err e))
  | ok_followed n outcome :
      follows w tx n → (is_ok outcome = true → iw_completions w !! n = Some (Some (Ok ()))) →
      PhaseOk w tx (Answered (Some (Follower n)) None outcome)
  | ok_refused e : PhaseOk w tx (Answered None None (Err e)).

(** While a response is on its way its generation is that of its own entry only. *)
Definition generation_owned w tx n : Prop :=
  ∀ generation r k state, tx_generation tx = Some generation → iw_heap w !! tx_record tx = Some r →
    (generation < ir_next_generation r)%N ∧
    (ir_entries r !! k = Some state → generation_of state = generation →
     k = tx_key tx ∧ ∃ typed, state = Resolved (tx_digest w tx) generation typed n).

Record WorldOk w : Prop := {
  wk_records : ∀ thread a, iw_records w !! thread = Some a →
    ∃ r, iw_heap w !! a = Some r ∧ is_thread_id (ir_snapshot r) = thread;
  wk_threads : ∀ a1 a2 r1 r2, iw_heap w !! a1 = Some r1 → iw_heap w !! a2 = Some r2 →
    is_thread_id (ir_snapshot r1) = is_thread_id (ir_snapshot r2) → a1 = a2;
  wk_heap : ∀ a r, iw_heap w !! a = Some r → RecordOk r ∧ a < iw_next w;
  wk_tickets : ∀ t s, iw_tickets w !! t = Some s → t < iw_next w;
  wk_ids : ∀ i tx, iw_transactions w !! i = Some tx → i < iw_next w;
  wk_pending : ∀ a r k entry, iw_heap w !! a = Some r → ir_entries r !! k = Some (Pending entry) →
    iw_tickets w !! pe_sender entry = Some TicketWaiting ∨ iw_tickets w !! pe_sender entry = Some TicketDropped;
  wk_senders : ∀ a1 a2 r1 r2 k1 k2 e1 e2, iw_heap w !! a1 = Some r1 → iw_heap w !! a2 = Some r2 →
    ir_entries r1 !! k1 = Some (Pending e1) → ir_entries r2 !! k2 = Some (Pending e2) →
    pe_sender e1 = pe_sender e2 → a1 = a2 ∧ k1 = k2;
  wk_phases : ∀ i tx, iw_transactions w !! i = Some tx → PhaseOk w tx (tx_phase tx);
  wk_places : ∀ i tx, iw_transactions w !! i = Some tx →
    ∃ r, iw_heap w !! tx_record tx = Some r ∧ is_thread_id (ir_snapshot r) = rp_thread_id (tx_params tx);
  wk_owned : ∀ i tx n t, iw_transactions w !! i = Some tx → leads_response tx n t → generation_owned w tx n;
  wk_apart : ∀ i tx n t a r k entry, iw_transactions w !! i = Some tx → leads_response tx n t →
    iw_heap w !! a = Some r → ir_entries r !! k = Some (Pending entry) → pe_sender entry ≠ t;
  wk_leaders : ∀ i1 i2 tx1 tx2 n1 n2 t1 t2, iw_transactions w !! i1 = Some tx1 → iw_transactions w !! i2 = Some tx2 →
    leads_response tx1 n1 t1 → leads_response tx2 n2 t2 → n1 = n2 ∨ t1 = t2 → i1 = i2;
  wk_resolved : ∀ a r k digest generation typed n, iw_heap w !! a = Some r →
    ir_entries r !! k = Some (Resolved digest generation typed n) →
    ∃ i tx t, iw_transactions w !! i = Some tx ∧ leads_response tx n t ∧ tx_record tx = a ∧ tx_key tx = k ∧
      tx_digest w tx = digest ∧ (tx_generation tx = None ∨ tx_generation tx = Some generation);
  wk_delivered : ∀ t v, iw_tickets w !! t = Some (TicketStaged v) ∨ iw_tickets w !! t = Some (TicketDone (Ok v)) →
    ∃ i tx n, iw_transactions w !! i = Some tx ∧ leads_response tx n t ∧ rp_response (tx_params tx) = v;
  wk_completion_ids : ∀ n o, iw_completions w !! n = Some o → n < iw_next w;
  wk_completions : ∀ n o, iw_completions w !! n = Some o →
    ∃ i tx t, iw_transactions w !! i = Some tx ∧ leads_response tx n t;
}.

(** ** Frames *)

(** Every leader is still there, with the same parameters. *)
Definition keeps_transactions w w' : Prop :=
  ∀ i tx n t, iw_transactions w !! i = Some tx → leads_response tx n t →
    ∃ tx', iw_transactions w' !! i = Some tx' ∧ tx_params tx' = tx_params tx ∧ tx_record tx' = tx_record tx ∧
      leads_response tx' n t.

Lemma follows_mono w w' tx n :
  keeps_transactions w w' → iw_digest_key w' = iw_digest_key w → follows w tx n → follows w' tx n.
Proof.
  intros Hk Hd (i & tx1 & t & Hi & Hl & Hr & Hkey & He). destruct (Hk i tx1 n t Hi Hl) as (tx2 & Hi2 & Hp & Hr2 & Hl2).
  exists i, tx2, t. unfold tx_key, tx_digest in *. rewrite Hp, Hd. split_and!; auto. congruence.
Qed.

Lemma PhaseOk_mono w w' tx p :
  PhaseOk w tx p → iw_digest_key w' = iw_digest_key w → keeps_transactions w w' →
  (∀ n t, role_of p = (Some (Leader n), Some t) →
     iw_completions w' !! n = iw_completions w !! n ∧
     (iw_tickets w' !! t = iw_tickets w !! t ∨ iw_tickets w' !! t = Some TicketDropped)) →
  (∀ n, iw_completions w !! n = Some (Some (Ok ())) → iw_completions w' !! n = Some (Some (Ok ()))) →
  PhaseOk w' tx p.
Proof.
  intros Hp Hd Hk Hlead Hok. pose proof (follows_mono w w' tx) as Hf.
  assert (∀ g ty n t, leader_commit w tx g ty n t = leader_commit w' tx g ty n t) as Hl.
  { intros. unfold leader_commit, tx_digest. by rewrite Hd. }
  assert (∀ g ty n t, staged_commit w tx g ty n t = staged_commit w' tx g ty n t) as Hs.
  { intros. unfold staged_commit, tx_digest. by rewrite Hd. }
  inversion Hp as [g|ty n Hfo|g ty n t Hc Ht|g ty n t Hc Ht|g ty n t Hc Ht|n t o Hc Ht|n t e e' Hc Ht|n o Hfo Hc|e];
    subst; rewrite ?Hl, ?Hs; try (destruct (Hlead n t eq_refl) as [Hc' Ht']; rewrite <-Hc' in Hc).
  - constructor.
  - constructor. by apply Hf.
  - constructor; [done|]. destruct Ht' as [->| ->]; auto.
  - constructor; [done|]. destruct Ht' as [->| ->]; auto.
  - constructor; [done|]. destruct Ht' as [->| ->]; auto.
  - constructor; [done|]. destruct Ht' as [->| ->]; auto.
  - econstructor; [done|]. destruct Ht' as [->| ->]; auto.
  - constructor; [by apply Hf|]. auto.
  - constructor.
Qed.

Lemma keeps_refl w w' : iw_transactions w' = iw_transactions w → keeps_transactions w w'.
Proof. intros Heq i tx n t Hi Hl. exists tx. by rewrite Heq. Qed.

(** ** Records *)

(** A record that changes without a new entry. *)
Lemma WorldOk_record w a r r' :
  WorldOk w → iw_heap w !! a = Some r → RecordOk r' → Kin r r' → ir_entries r' ⊆ ir_entries r →
  WorldOk (put_record a r' w).
Proof.
  intros [Hrec Hth Hheap Htk Hids Hpend Hsend Hph Hpl Hown Hap Hld Hres Hdel Hcid Hcomp] Ha Hok [_ _ Hthr Hgen _] Hsub.
  set (w' := put_record a r' w).
  assert (∀ a0 r0, iw_heap w' !! a0 = Some r0 → ∃ r1, iw_heap w !! a0 = Some r1 ∧ RecordOk r0 ∧
    is_thread_id (ir_snapshot r0) = is_thread_id (ir_snapshot r1) ∧ ir_entries r0 ⊆ ir_entries r1 ∧
    (ir_next_generation r1 <= ir_next_generation r0)%N) as Hback.
  { intros a0 r0. simpl. rewrite lookup_insert_Some. intros [[<- <-]|[Hne Hl]]; [by exists r|].
    exists r0. split_and!; [done|by eapply Hheap|done|done|done]. }
  assert (∀ a0 r0, iw_heap w !! a0 = Some r0 →
    ∃ r1, iw_heap w' !! a0 = Some r1 ∧ is_thread_id (ir_snapshot r1) = is_thread_id (ir_snapshot r0)) as Hforth.
  { intros a0 r0 Hl. simpl. destruct (decide (a0 = a)) as [->|Hne].
    - rewrite lookup_insert_eq. simplify_eq. by exists r'.
    - rewrite lookup_insert_ne by done. by exists r0. }
  split; try done.
  - intros th a0 Hl. destruct (Hrec _ _ Hl) as (r0 & Hl0 & <-). by apply Hforth.
  - intros a1 a2 r1 r2 Hx1 Hx2 Heq. destruct (Hback _ _ Hx1) as (? & ? & _ & Ht1 & _), (Hback _ _ Hx2) as (? & ? & _ & Ht2 & _).
    eapply Hth; [done|done|congruence].
  - intros a0 r0 Hl. destruct (Hback _ _ Hl) as (r1 & Hl1 & ? & _). split; [done|]. by eapply Hheap.
  - intros a0 r0 k entry Hl Hk. destruct (Hback _ _ Hl) as (r1 & Hl1 & _ & _ & Hs & _).
    eapply Hpend; [exact Hl1|by eapply lookup_weaken].
  - intros a1 a2 r1 r2 k1 k2 e1 e2 Hx1 Hx2 Hk1 Hk2 Heq.
    destruct (Hback _ _ Hx1) as (? & ? & _ & _ & Hs1 & _), (Hback _ _ Hx2) as (? & ? & _ & _ & Hs2 & _).
    eapply Hsend; [eassumption|eassumption|by eapply lookup_weaken|by eapply lookup_weaken|done].
  - intros i tx Hi. apply (PhaseOk_mono w); [by eapply Hph|done|by apply keeps_refl|by auto|done].
  - intros i tx Hi. destruct (Hpl _ _ Hi) as (r0 & Hl & <-). by apply Hforth.
  - intros i tx n t Hi Hl g r0 k s Hg Hr0. destruct (Hback _ _ Hr0) as (r1 & Hr1 & _ & _ & Hs & Hgn).
    destruct (Hown _ _ _ _ Hi Hl g r1 k s Hg Hr1) as [? Huse]. split; [lia|]. intros Hk. apply Huse. by eapply lookup_weaken.
  - intros i tx n t a0 r0 k entry Hi Hl Hr0 Hk. destruct (Hback _ _ Hr0) as (r1 & Hr1 & _ & _ & Hs & _).
    eapply Hap; [done|done|exact Hr1|by eapply lookup_weaken].
  - intros a0 r0 k d g ty n Hr0 Hk. destruct (Hback _ _ Hr0) as (r1 & Hr1 & _ & _ & Hs & _).
    eapply Hres; [exact Hr1|by eapply lookup_weaken].
Qed.

(** ** Channels *)

(** Nobody answers through the channel any more. *)
Definition unowned w t : Prop :=
  (∀ a r k entry, iw_heap w !! a = Some r → ir_entries r !! k = Some (Pending entry) → pe_sender entry ≠ t) ∧
  (∀ i tx n, iw_transactions w !! i = Some tx → ¬ leads_response tx n t).

Lemma WorldOk_ticket w t s s' :
  WorldOk w → iw_tickets w !! t = Some s →
  s' = TicketDropped ∨ (unowned w t ∧ ∃ e, s' = TicketDone (Err e)) →
  WorldOk (set_tickets (<[t := s']> (iw_tickets w)) w).
Proof.
  intros [Hrec Hth Hheap Htk Hids Hpend Hsend Hph Hpl Hown Hap Hld Hres Hdel Hcid Hcomp] Ht Hs.
  assert (∀ t', (t' = t → s' = TicketDropped) →
    <[t := s']> (iw_tickets w) !! t' = iw_tickets w !! t' ∨ <[t := s']> (iw_tickets w) !! t' = Some TicketDropped) as Hlook.
  { intros t' Hd. destruct (decide (t' = t)) as [->|Hne]; [right; rewrite lookup_insert_eq; by rewrite Hd|left].
    by rewrite lookup_insert_ne. }
  split; try done.
  - intros t' s0. simpl. rewrite lookup_insert_Some. intros [[<- <-]|[_ Hl]]; by eapply Htk.
  - intros a r k entry Ha Hk. simpl. destruct (Hlook (pe_sender entry)) as [->| ->]; [|by eapply Hpend|by right].
    intros Heq. destruct Hs as [|[[Hun _] _]]; [done|]. by destruct (Hun _ _ _ _ Ha Hk Heq).
  - intros i tx Hi. apply (PhaseOk_mono w); [by eapply Hph|done|by apply keeps_refl| |done].
    intros n t' Hr. split; [done|]. apply Hlook. intros ->. destruct Hs as [|[[_ Hun] _]]; [done|].
    by destruct (Hun _ _ n Hi).
  - intros t' v. simpl. rewrite !lookup_insert_Some.
    assert (∀ x, s' = x → x = TicketStaged v ∨ x = TicketDone (Ok v) → False) as Hno.
    { intros x <-. destruct Hs as [->|[_ [e ->]]]; by intros []. }
    intros [[[<- Hx]|[_ Hx]]|[[<- Hx]|[_ Hx]]]; [by destruct (Hno _ Hx); auto| |by destruct (Hno _ Hx); auto|]; eauto.
Qed.

Lemma WorldOk_send_error w t e : WorldOk w → unowned w t → WorldOk (send_error e t w).
Proof.
  intros Hok Hun. unfold send_error. destruct (iw_tickets w !! t) as [[]|] eqn:Ht; try done;
    (eapply WorldOk_ticket; [done|exact Ht|right; eauto]).
Qed.

Lemma send_error_frame w t e :
  let w' := send_error e t w in
  iw_records w' = iw_records w ∧ iw_heap w' = iw_heap w ∧ iw_completions w' = iw_completions w ∧
  iw_transactions w' = iw_transactions w ∧ iw_next w' = iw_next w ∧ iw_digest_key w' = iw_digest_key w ∧
  iw_limits w' = iw_limits w.
Proof. unfold send_error. by destruct (iw_tickets w !! t) as [[]|]. Qed.

Lemma unowned_send_error w t t' e : unowned w t → unowned (send_error e t' w) t.
Proof. unfold unowned. by destruct (send_error_frame w t' e) as (_ & -> & _ & -> & _). Qed.

Lemma WorldOk_send_errors w senders e :
  WorldOk w → (∀ t, t ∈ senders → unowned w t) → WorldOk (foldl (λ w sender, send_error e sender w) w senders).
Proof.
  revert w. induction senders as [|t senders IH]; intros w Hok Hun; simpl; [done|].
  apply IH; [apply WorldOk_send_error; [done|apply Hun; left]|].
  intros t' Hin. apply unowned_send_error, Hun. by right.
Qed.

Lemma WorldOk_drop w t : WorldOk w → WorldOk (drop_receiver t w).
Proof.
  intros Hok. unfold drop_receiver. destruct (iw_tickets w !! t) as [[]|] eqn:Ht; try done;
    (eapply WorldOk_ticket; [done|exact Ht|by left]).
Qed.

(** The continuations of cleared entries are nobody's. *)
Lemma Cleared_unowned w a r r' senders t :
  WorldOk w → iw_heap w !! a = Some r → Cleared r r' senders → t ∈ senders → unowned (put_record a r' w) t.
Proof.
  intros Hok Ha Hc Ht. destruct (cl_senders _ _ _ Hc _ Ht) as (k & entry & Hk & Hgone & <-). split.
  - intros a0 r0 k0 e0 Ha0 Hk0 Heq. simpl in Ha0. apply lookup_insert_Some in Ha0 as [[<- <-]|[Hne Ha0]].
    + pose proof (lookup_weaken _ _ _ _ Hk0 (cl_sub _ _ _ Hc)) as Hk0'.
      destruct (wk_senders _ Hok _ _ _ _ _ _ _ _ Ha Ha Hk0' Hk Heq) as [_ ->]. congruence.
    + destruct (wk_senders _ Hok _ _ _ _ _ _ _ _ Ha0 Ha Hk0 Hk Heq) as [-> _]. done.
  - intros i tx n Hi Hl. by eapply (wk_apart _ Hok _ _ _ _ _ _ _ _ Hi Hl Ha Hk).
Qed.

(** Clearing entries of a record and telling their continuations. *)
Lemma WorldOk_cleared w a r r' senders e :
  WorldOk w → iw_heap w !! a = Some r → Cleared r r' senders →
  WorldOk (foldl (λ w sender, send_error e sender w) (put_record a r' w) senders).
Proof.
  intros Hok Ha Hc. apply WorldOk_send_errors.
  - eapply WorldOk_record; [done|done|apply Hc..].
  - intros t Ht. by eapply Cleared_unowned.
Qed.

(** ** New identities *)

Lemma WorldOk_next w : WorldOk w → WorldOk (set_next (S (iw_next w)) w).
Proof.
  intros [Hrec Hth Hheap Htk Hids Hpend Hsend Hph Hpl Hown Hap Hld Hres Hdel Hcid Hcomp]. split; try done; simpl.
  - intros a r Ha. destruct (Hheap _ _ Ha). split; [done|lia].
  - intros t s Ht. specialize (Htk _ _ Ht). lia.
  - intros i tx Hi. specialize (Hids _ _ Hi). lia.
  - intros i tx Hi. apply (PhaseOk_mono w); [by eapply Hph|done|by apply keeps_refl|by auto|done].
  - intros n o Hn. specialize (Hcid _ _ Hn). lia.
Qed.

Lemma WorldOk_heap_fresh w r : WorldOk w → iw_heap w !! iw_next w = Some r → False.
Proof. intros Hok Hl. destruct (wk_heap _ Hok _ _ Hl). lia. Qed.

Lemma WorldOk_insert w thread r :
  WorldOk w → RecordOk r → ir_entries r = ∅ → is_thread_id (ir_snapshot r) = thread →
  (∀ a r0, iw_heap w !! a = Some r0 → is_thread_id (ir_snapshot r0) ≠ thread) →
  WorldOk (set_next (S (iw_next w)) (set_records (<[thread := iw_next w]> (iw_records w)) (put_record (iw_next w) r w))).
Proof.
  intros Hok Hr Hent Hthread Hfresh. pose proof (λ r, WorldOk_heap_fresh w r Hok) as Hnew.
  destruct (WorldOk_next w Hok) as [Hrec Hth Hheap Htk Hids Hpend Hsend Hph Hpl Hown Hap Hld Hres Hdel Hcid Hcomp].
  set (w' := set_next _ _).
  assert (∀ a r0, iw_heap w !! a = Some r0 → iw_heap w' !! a = Some r0) as Hforth.
  { intros a r0 Ha. simpl. rewrite lookup_insert_ne; [done|]. intros <-. by eapply Hnew. }
  assert (∀ a r0 k s, iw_heap w' !! a = Some r0 → ir_entries r0 !! k = Some s → iw_heap w !! a = Some r0) as Hback.
  { intros a r0 k s. simpl. rewrite lookup_insert_Some. intros [[_ <-]|[_ Ha]] Hk; [|done]. by rewrite Hent, lookup_empty in Hk. }
  split; try done.
  - intros th a. simpl. rewrite lookup_insert_Some. intros [[<- <-]|[Hne Hl]].
    + exists r. by rewrite lookup_insert_eq.
    + destruct (Hrec _ _ Hl) as (r0 & Hl0 & <-). exists r0. split; [by apply Hforth|done].
  - intros a1 a2 r1 r2. simpl. rewrite !lookup_insert_Some. intros [[<- <-]|[_ Ha1]] [[<- <-]|[_ Ha2]] Heq; [done| | |].
    + destruct (Hfresh _ _ Ha2). congruence.
    + destruct (Hfresh _ _ Ha1). congruence.
    + by eapply Hth.
  - intros a r0. simpl. rewrite lookup_insert_Some. intros [[<- <-]|[_ Ha]]; [split; [done|lia]|by apply Hheap].
  - intros a r0 k entry Ha Hk. eapply Hpend; [by eapply Hback|done].
  - intros a1 a2 r1 r2 k1 k2 e1 e2 Ha1 Ha2 Hk1 Hk2. by eapply Hsend; [eapply Hback|eapply Hback|..].
  - intros i tx Hi. apply (PhaseOk_mono w); [by eapply (wk_phases w)|done|by apply keeps_refl|by auto|done].
  - intros i tx Hi. destruct (Hpl _ _ Hi) as (r0 & Hl & <-). exists r0. split; [by apply Hforth|done].
  - intros i tx n t Hi Hl g r0 k s Hg. simpl. rewrite lookup_insert_Some. intros [[Heq <-]|[_ Hr0]].
    + destruct (Hpl _ _ Hi) as (r1 & Hr1 & _). simpl in Hr1. rewrite <-Heq in Hr1. by destruct (Hnew _ Hr1).
    + by apply (Hown _ _ _ _ Hi Hl).
  - intros i tx n t a0 r0 k entry Hi Hl Hr0 Hk. eapply Hap; [done|done|by eapply Hback|done].
  - intros a0 r0 k d g ty n Hr0 Hk. eapply Hres; [by eapply Hback|done].
Qed.

(** What a leader's channels are. *)
Lemma leader_channels w tx p n t :
  PhaseOk w tx p → role_of p = (Some (Leader n), Some t) →
  (∃ s, iw_tickets w !! t = Some s) ∧
  ((iw_completions w !! n = Some None ∧ ∀ outcome, p ≠ Answered (Some (Leader n)) (Some t) outcome) ∨
   ∃ outcome answer, p = Answered (Some (Leader n)) (Some t) outcome ∧ iw_completions w !! n = Some (Some answer) ∧
     is_ok answer = is_ok outcome).
Proof.
  intros Hp. destruct Hp as [g|ty n0 Hfo|g ty n0 t0 Hc Ht|g ty n0 t0 Hc Ht|g ty n0 t0 Hc Ht|n0 t0 o Hc Ht|n0 t0 e e' Hc Ht|n0 o Hfo Hc|e];
    intros Hr; try done; injection Hr as <- <-.
  all: split; [by (destruct Ht as [[??]|?] || destruct Ht as [?|?]); eauto|].
  1-3: by left.
  all: right; by eexists _, _.
Qed.

Lemma leader_known w i tx n t :
  WorldOk w → iw_transactions w !! i = Some tx → leads_response tx n t →
  (∃ s, iw_tickets w !! t = Some s) ∧ ∃ o, iw_completions w !! n = Some o.
Proof.
  intros Hok Hi Hl. destruct (leader_channels _ _ _ _ _ (wk_phases _ Hok _ _ Hi) Hl) as [? [[? _]|(? & ? & _ & ? & _)]]; eauto.
Qed.

Lemma leader_fresh w i tx n t :
  WorldOk w → iw_transactions w !! i = Some tx → leads_response tx n t → n ≠ iw_next w ∧ t ≠ iw_next w.
Proof.
  intros Hok Hi Hl. destruct (leader_known _ _ _ _ _ Hok Hi Hl) as [[s Hs] [o Ho]].
  pose proof (wk_tickets _ Hok _ _ Hs). pose proof (wk_completion_ids _ Hok _ _ Ho). lia.
Qed.

Lemma pending_fresh w a r k entry :
  WorldOk w → iw_heap w !! a = Some r → ir_entries r !! k = Some (Pending entry) → pe_sender entry ≠ iw_next w.
Proof.
  intros Hok Ha Hk Heq. destruct (wk_pending _ Hok _ _ _ _ Ha Hk) as [Hs|Hs]; pose proof (wk_tickets _ Hok _ _ Hs); lia.
Qed.

Lemma WorldOk_begin w a r r' key request origin :
  WorldOk w → iw_heap w !! a = Some r → RecordOk r' → Kin r r' →
  (ir_next_generation r < ir_next_generation r')%N →
  ir_entries r' = <[key := Pending (new_entry request origin (iw_next w) (ir_next_generation r))]> (ir_entries r) →
  WorldOk (set_next (S (iw_next w)) (set_tickets (<[iw_next w := TicketWaiting]> (iw_tickets w)) (put_record a r' w))).
Proof.
  intros Hok Ha Hr' [_ _ Hthr _ _] Hgen Hent.
  pose proof (λ a r k entry, pending_fresh w a r k entry Hok) as Hpf. pose proof (λ i tx n t, leader_fresh w i tx n t Hok) as Hlf.
  destruct (WorldOk_next w Hok) as [Hrec Hth Hheap Htk Hids Hpend Hsend Hph Hpl Hown Hap Hld Hres Hdel Hcid Hcomp].
  set (w' := set_next _ _). set (e := new_entry request origin (iw_next w) (ir_next_generation r)) in *.
  assert (∀ a0 r0, iw_heap w' !! a0 = Some r0 → ∃ r1, iw_heap w !! a0 = Some r1 ∧
    is_thread_id (ir_snapshot r0) = is_thread_id (ir_snapshot r1) ∧ (ir_next_generation r1 <= ir_next_generation r0)%N ∧
    ∀ k s, ir_entries r0 !! k = Some s → (a0 = a ∧ k = key ∧ s = Pending e) ∨ ir_entries r1 !! k = Some s) as Hback.
  { intros a0 r0. simpl. rewrite lookup_insert_Some. intros [[<- <-]|[Hne Hl]].
    - exists r. split_and!; [done|done|lia|]. intros k s. rewrite Hent, lookup_insert_Some.
      intros [[<- <-]|[_ Hk]]; [by left|by right].
    - exists r0. split_and!; [done|done|done|by right]. }
  assert (∀ a0 r0, iw_heap w !! a0 = Some r0 →
    ∃ r1, iw_heap w' !! a0 = Some r1 ∧ is_thread_id (ir_snapshot r1) = is_thread_id (ir_snapshot r0)) as Hforth.
  { intros a0 r0 Hl. simpl. destruct (decide (a0 = a)) as [->|Hne].
    - rewrite lookup_insert_eq. simplify_eq. by exists r'.
    - rewrite lookup_insert_ne by done. by exists r0. }
  assert (∀ t, t ≠ iw_next w → iw_tickets w' !! t = iw_tickets w !! t) as Htick by (intros; simpl; by rewrite lookup_insert_ne).
  split; try done.
  - intros th a0 Hl. destruct (Hrec _ _ Hl) as (r0 & Hl0 & <-). by apply Hforth.
  - intros a1 a2 r1 r2 Ha1 Ha2 Heq. destruct (Hback _ _ Ha1) as (? & ? & Ht1 & _), (Hback _ _ Ha2) as (? & ? & Ht2 & _).
    eapply Hth; [done|done|congruence].
  - intros a0 r0. simpl. rewrite lookup_insert_Some. intros [[<- <-]|[_ Hl]]; [split; [done|by eapply Hheap]|by apply Hheap].
  - intros t s. simpl. rewrite lookup_insert_Some. intros [[<- _]|[_ Hl]]; [lia|by eapply Htk].
  - intros a0 r0 k entry Hl Hk. destruct (Hback _ _ Hl) as (r1 & Hl1 & _ & _ & Hs).
    destruct (Hs _ _ Hk) as [(-> & -> & [= ->])|Hk1]; [left; simpl; by rewrite lookup_insert_eq|].
    rewrite Htick by (by eapply Hpf). by eapply Hpend.
  - intros a1 a2 r1 r2 k1 k2 e1 e2 Ha1 Ha2 Hk1 Hk2 Heq.
    destruct (Hback _ _ Ha1) as (r3 & Hr3 & _ & _ & Hs1), (Hback _ _ Ha2) as (r4 & Hr4 & _ & _ & Hs2).
    destruct (Hs1 _ _ Hk1) as [(-> & -> & [= ->])|Hk3], (Hs2 _ _ Hk2) as [(-> & -> & [= ->])|Hk4]; [done| | |by eapply Hsend].
    + by destruct (Hpf _ _ _ _ Hr4 Hk4).
    + by destruct (Hpf _ _ _ _ Hr3 Hk3).
  - intros i tx Hi. apply (PhaseOk_mono w); [by eapply (wk_phases w)|done|by apply keeps_refl| |done].
    intros n t Hr. split; [done|]. left. apply Htick. by eapply (Hlf i tx n t Hi).
  - intros i tx Hi. destruct (Hpl _ _ Hi) as (r0 & Hl & <-). by apply Hforth.
  - intros i tx n t Hi Hl g r0 k s Hg Hr0. destruct (Hback _ _ Hr0) as (r1 & Hr1 & _ & Hgn & Hs).
    destruct (Hown _ _ _ _ Hi Hl g r1 k s Hg Hr1) as [Hlt Huse]. split; [lia|]. intros Hk Hsg.
    destruct (Hs _ _ Hk) as [(Heq & -> & ->)|Hk1]; [|by apply Huse]. simpl in Hsg. rewrite Heq in Hr1.
    simpl in Hr1. simplify_eq. lia.
  - intros i tx n t a0 r0 k entry Hi Hl Hr0 Hk. destruct (Hback _ _ Hr0) as (r1 & Hr1 & _ & _ & Hs).
    destruct (Hs _ _ Hk) as [(-> & -> & [= ->])|Hk1]; [|by eapply Hap]. simpl. intros <-. by destruct (Hlf _ _ _ _ Hi Hl).
  - intros a0 r0 k d g ty n Hr0 Hk. destruct (Hback _ _ Hr0) as (r1 & Hr1 & _ & _ & Hs).
    destruct (Hs _ _ Hk) as [(_ & _ & [=])|Hk1]. by eapply Hres.
  - intros t v. simpl. rewrite !lookup_insert_Some. intros [[[_ [=]]|[_ Hl]]|[[_ [=]]|[_ Hl]]]; eauto.
Qed.

(** ** Transactions *)

(** A transaction that leads no response, new or one further. *)
Lemma WorldOk_passive w i tx' :
  WorldOk w → (∀ tx n t, iw_transactions w !! i = Some tx → ¬ leads_response tx n t) → (∀ n t, ¬ leads_response tx' n t) →
  i < iw_next w → PhaseOk w tx' (tx_phase tx') →
  (∃ r, iw_heap w !! tx_record tx' = Some r ∧ is_thread_id (ir_snapshot r) = rp_thread_id (tx_params tx')) →
  WorldOk (put_transaction i tx' w).
Proof.
  intros [Hrec Hth Hheap Htk Hids Hpend Hsend Hph Hpl Hown Hap Hld Hres Hdel Hcid Hcomp] Hold Hnew Hi Hp Hplace.
  set (w' := put_transaction i tx' w).
  assert (keeps_transactions w w') as Hkeep.
  { intros j tx n t Hj Hl. exists tx. simpl. rewrite lookup_insert_ne; [done|]. intros ->. by eapply Hold. }
  assert (∀ j tx n t, iw_transactions w' !! j = Some tx → leads_response tx n t → iw_transactions w !! j = Some tx) as Hback.
  { intros j tx n t. simpl. rewrite lookup_insert_Some. intros [[_ <-]|[_ ?]] Hl; [by destruct (Hnew _ _ Hl)|done]. }
  assert (∀ tx p, PhaseOk w tx p → PhaseOk w' tx p) as Hmono.
  { intros tx p Hpt. apply (PhaseOk_mono w); [done|done|done|by auto|done]. }
  split; try done.
  - intros j tx. simpl. rewrite lookup_insert_Some. intros [[<- _]|[_ Hj]]; [done|by eapply Hids].
  - intros j tx. simpl. rewrite lookup_insert_Some. intros [[<- <-]|[_ Hj]]; [by apply Hmono|by eapply Hmono, Hph].
  - intros j tx. simpl. rewrite lookup_insert_Some. intros [[<- <-]|[_ Hj]]; [done|by eapply Hpl].
  - intros j tx n t Hj Hl. apply (Hown j tx n t); [by eapply Hback|done].
  - intros j tx n t a r k entry Hj Hl. apply (Hap j tx n t a r k entry); [by eapply Hback|done].
  - intros i1 i2 tx1 tx2 n1 n2 t1 t2 Hj1 Hj2 Hl1 Hl2. eapply Hld; [by eapply Hback|by eapply Hback|done|done].
  - intros a r k d g ty n Ha Hk. destruct (Hres _ _ _ _ _ _ _ Ha Hk) as (j & tx & t & Hj & Hl & Hrest).
    exists j, tx, t. split; [|done]. simpl. rewrite lookup_insert_ne; [done|]. intros ->. by eapply Hold.
  - intros t v Hv. destruct (Hdel _ _ Hv) as (j & tx & n & Hj & Hl & Hrest).
    exists j, tx, n. split; [|done]. simpl. rewrite lookup_insert_ne; [done|]. intros ->. by eapply Hold.
  - intros n o Hn. destruct (Hcomp _ _ Hn) as (j & tx & t & Hj & Hl).
    exists j, tx, t. split; [|done]. simpl. rewrite lookup_insert_ne; [done|]. intros ->. by eapply Hold.
Qed.

(** A leader one phase further, with its two channels. *)
Lemma WorldOk_advance w i tx n t phase tickets completions :
  WorldOk w → iw_transactions w !! i = Some tx → leads_response tx n t →
  role_of phase = (Some (Leader n), Some t) →
  tx_generation (in_phase tx phase) = None ∨ tx_generation (in_phase tx phase) = tx_generation tx →
  (∀ t', t' ≠ t → tickets !! t' = iw_tickets w !! t') → is_Some (tickets !! t) →
  (∀ v, tickets !! t = Some (TicketStaged v) ∨ tickets !! t = Some (TicketDone (Ok v)) → rp_response (tx_params tx) = v) →
  (∀ n', n' ≠ n → completions !! n' = iw_completions w !! n') →
  completions !! n = iw_completions w !! n ∨ iw_completions w !! n = Some None →
  let w' := put_transaction i (in_phase tx phase) (set_completions completions (set_tickets tickets w)) in
  PhaseOk w' (in_phase tx phase) phase → WorldOk w'.
Proof.
  intros Hok Hi Hlead Hrole Hgen HT HTs HTv HC HCn w' Hphase.
  destruct (leader_known _ _ _ _ _ Hok Hi Hlead) as [[s Hs] [o Ho]].
  destruct Hok as [Hrec Hth Hheap Htk Hids Hpend Hsend Hph Hpl Hown Hap Hld Hres Hdel Hcid Hcomp].
  assert (leads_response (in_phase tx phase) n t) as Hlead' by done.
  assert (keeps_transactions w w') as Hkeep.
  { intros j tx1 n1 t1 Hj Hl. simpl. destruct (decide (j = i)) as [->|Hne].
    - rewrite lookup_insert_eq. simplify_eq. exists (in_phase tx phase). unfold leads_response in *. rewrite Hlead in Hl. by simplify_eq.
    - rewrite lookup_insert_ne by done. by exists tx1. }
  assert (∀ j tx1, iw_transactions w' !! j = Some tx1 → ∃ tx0, iw_transactions w !! j = Some tx0 ∧
    tx_params tx1 = tx_params tx0 ∧ tx_record tx1 = tx_record tx0 ∧
    (tx_generation tx1 = None ∨ tx_generation tx1 = tx_generation tx0) ∧ tx_role tx1 = tx_role tx0) as Hback.
  { intros j tx1. simpl. rewrite lookup_insert_Some. intros [[<- <-]|[_ Hj]]; [exists tx|exists tx1; split_and!; auto].
    unfold leads_response in *. rewrite Hlead. done. }
  split; try done.
  - intros t1 s1 Hl. simpl in *. destruct (decide (t1 = t)) as [->|Hne]; [by eapply Htk|]. rewrite HT in Hl by done. by eapply Htk.
  - intros j tx1. simpl. rewrite lookup_insert_Some. intros [[<- _]|[_ Hj]]; by eapply Hids.
  - intros a r k entry Ha Hk. simpl. rewrite HT; [by eapply Hpend|]. by eapply Hap.
  - intros j tx1. simpl. rewrite lookup_insert_Some. intros [[<- <-]|[Hne Hj]]; [exact Hphase|].
    apply (PhaseOk_mono w); [by eapply Hph|done|done| |].
    + intros n1 t1 Hr. simpl. rewrite HT, HC; [by auto|..]; intros ->; apply Hne; symmetry; by eapply (Hld j i); eauto.
    + intros n1 Hn1. simpl. destruct (decide (n1 = n)) as [->|Hne']; [|by rewrite HC]. destruct HCn as [->|]; [done|congruence].
  - intros j tx1 Hj. destruct (Hback _ _ Hj) as (tx0 & Hj0 & -> & -> & _). by eapply Hpl.
  - intros j tx1 n1 t1 Hj Hl g r k st Hg Hr. destruct (Hback _ _ Hj) as (tx0 & Hj0 & Hp & Hrr & Hgg & Hro).
    unfold tx_key, tx_digest in *. rewrite Hp, Hrr in *. unfold leads_response in Hl. rewrite Hro in Hl.
    destruct Hgg as [Hgg|Hgg]; rewrite Hgg in Hg; [done|]. by apply (Hown _ _ _ _ Hj0 Hl g r k st Hg).
  - intros j tx1 n1 t1 a r k entry Hj Hl. destruct (Hback _ _ Hj) as (tx0 & Hj0 & _ & _ & _ & Hro).
    unfold leads_response in Hl. rewrite Hro in Hl. by eapply Hap.
  - intros j1 j2 tx1 tx2 n1 n2 t1 t2 Hj1 Hj2 Hl1 Hl2.
    destruct (Hback _ _ Hj1) as (tx3 & Hj3 & _ & _ & _ & Hr3), (Hback _ _ Hj2) as (tx4 & Hj4 & _ & _ & _ & Hr4).
    unfold leads_response in Hl1, Hl2. rewrite Hr3 in Hl1. rewrite Hr4 in Hl2. by eapply Hld.
  - intros a r k d g ty n1 Ha Hk. destruct (Hres _ _ _ _ _ _ _ Ha Hk) as (j & tx1 & t1 & Hj & Hl & Hr & Hkey & Hd & Hg).
    simpl. destruct (decide (j = i)) as [->|Hne].
    + simplify_eq. exists i, (in_phase tx phase), t. rewrite lookup_insert_eq. unfold leads_response in Hlead, Hl.
      rewrite Hlead in Hl. simplify_eq. split_and!; try done. destruct Hgen as [->| ->]; auto.
    + exists j, tx1, t1. by rewrite lookup_insert_ne.
  - intros t1 v Hv. simpl in Hv. destruct (decide (t1 = t)) as [->|Hne].
    + exists i, (in_phase tx phase), n. simpl. rewrite lookup_insert_eq. split_and!; [done|done|by apply HTv].
    + rewrite HT in Hv by done. destruct (Hdel _ _ Hv) as (j & tx1 & n1 & Hj & Hl & Hrest).
      destruct (Hkeep _ _ _ _ Hj Hl) as (tx2 & Hj2 & Hp & _ & Hl2). exists j, tx2, n1. rewrite Hp. done.
  - intros n1 o1 Hl. simpl in Hl. destruct (decide (n1 = n)) as [->|Hne]; [by eapply Hcid|]. rewrite HC in Hl by done. by eapply Hcid.
  - intros n1 o1 Hl. assert (∃ o2, iw_completions w !! n1 = Some o2) as [o2 Ho2].
    { destruct (decide (n1 = n)) as [->|Hne]; [by exists o|]. simpl in Hl. rewrite HC in Hl by done. by exists o1. }
    destruct (Hcomp _ _ Ho2) as (j & tx1 & t1 & Hj & Hl1). destruct (Hkeep _ _ _ _ Hj Hl1) as (tx2 & Hj2 & _ & _ & Hl2).
    by exists j, tx2, t1.
Qed.

(** The response that resolves a request. *)
Lemma WorldOk_claim w i tx r entry :
  WorldOk w → iw_transactions w !! i = Some tx → tx_phase tx = Peeking (pe_generation entry) →
  iw_heap w !! tx_record tx = Some r → ir_entries r !! tx_key tx = Some (Pending entry) →
  iw_tickets w !! pe_sender entry ≠ Some TicketDropped →
  let n := iw_next w in
  let generation := pe_generation entry in let typed := pe_typed_approval entry in
  let r' := set_ir_entries (<[tx_key tx := Resolved (tx_digest w tx) generation typed n]> (ir_entries r)) r in
  WorldOk (put_transaction i (in_phase tx (Claiming (leader_commit w tx generation typed n (pe_sender entry))))
    (set_next (S n) (set_completions (<[n := None]> (iw_completions w)) (put_record (tx_record tx) r' w)))).
Proof.
  intros Hok Hi Hpeek Hr Hk Hopen n g ty r'. set (w' := put_transaction _ _ _).
  pose proof (λ i tx n t, leader_fresh w i tx n t Hok) as Hlf.
  destruct (WorldOk_next w Hok) as [Hrec Hth Hheap Htk Hids Hpend Hsend Hph Hpl Hown Hap Hld Hres Hdel Hcid Hcomp].
  set (tx' := in_phase tx (Claiming (leader_commit w tx g ty n (pe_sender entry)))) in w'. set (t := pe_sender entry) in *.
  assert (iw_tickets w !! t = Some TicketWaiting) as Ht.
  { destruct (Hpend _ _ _ _ Hr Hk) as [?|?]; [done|]. by destruct Hopen. }
  assert (leads_response tx' n t) as Hlead by done.
  assert (∀ n0 t0, ¬ leads_response tx n0 t0) as Hnot.
  { intros n0 t0. unfold leads_response, tx_role. by rewrite Hpeek. }
  assert (keeps_transactions w w') as Hkeep.
  { intros j tx1 n1 t1 Hj Hl. exists tx1. simpl. rewrite lookup_insert_ne; [done|]. intros ->. simplify_eq. by destruct (Hnot n1 t1). }
  assert (∀ j tx1 n1 t1, iw_transactions w' !! j = Some tx1 → leads_response tx1 n1 t1 →
    (j = i ∧ tx1 = tx' ∧ n1 = n ∧ t1 = t) ∨ (j ≠ i ∧ iw_transactions w !! j = Some tx1)) as Hback.
  { intros j tx1 n1 t1. simpl. rewrite lookup_insert_Some. intros [[<- <-]|[Hne Hj]] Hl; [left|by right].
    unfold leads_response in *. rewrite Hlead in Hl. by simplify_eq. }
  assert (∀ a0 r0 k s, iw_heap w' !! a0 = Some r0 → ir_entries r0 !! k = Some s →
    ∃ r1, iw_heap w !! a0 = Some r1 ∧ ir_next_generation r0 = ir_next_generation r1 ∧
    ((a0 = tx_record tx ∧ k = tx_key tx ∧ s = Resolved (tx_digest w tx) g ty n) ∨
     (ir_entries r1 !! k = Some s ∧ (a0 = tx_record tx → k ≠ tx_key tx)))) as Hent.
  { intros a0 r0 k s. simpl. rewrite lookup_insert_Some. intros [[<- <-]|[Hne Hl]] Hs.
    - exists r. split_and!; [done|done|]. simpl in Hs. apply lookup_insert_Some in Hs as [[<- <-]|[Hne Hs]]; auto.
    - exists r0. split_and!; [done|done|]. right. split; [done|congruence]. }
  assert (∀ a0 r0, iw_heap w' !! a0 = Some r0 → ∃ r1, iw_heap w !! a0 = Some r1 ∧
    is_thread_id (ir_snapshot r0) = is_thread_id (ir_snapshot r1) ∧ ir_next_generation r0 = ir_next_generation r1 ∧
    RecordOk r0) as Hold.
  { intros a0 r0. simpl. rewrite lookup_insert_Some. intros [[<- <-]|[Hne Hl]]; [|exists r0; by destruct (Hheap _ _ Hl)].
    exists r. split_and!; try done. by apply RecordOk_resolve, Hk; eapply Hheap. }
  assert (∀ a0 r0, iw_heap w !! a0 = Some r0 →
    ∃ r1, iw_heap w' !! a0 = Some r1 ∧ is_thread_id (ir_snapshot r1) = is_thread_id (ir_snapshot r0)) as Hforth.
  { intros a0 r0 Hl. simpl. destruct (decide (a0 = tx_record tx)) as [->|Hne].
    - rewrite lookup_insert_eq. simplify_eq. by exists r'.
    - rewrite lookup_insert_ne by done. by exists r0. }
  assert (∀ j tx1 n1 t1, iw_transactions w !! j = Some tx1 → leads_response tx1 n1 t1 → n1 ≠ n ∧ t1 ≠ t) as Hapart.
  { intros j tx1 n1 t1 Hj Hl. split; [by eapply (Hlf j tx1 n1 t1)|]. intros ->. by eapply (Hap _ _ _ _ _ _ _ _ Hj Hl Hr Hk). }
  split; try done.
  - intros th a0 Hl. destruct (Hrec _ _ Hl) as (r0 & Hl0 & <-). by apply Hforth.
  - intros a1 a2 r1 r2 Ha1 Ha2 Heq. destruct (Hold _ _ Ha1) as (? & ? & Ht1 & _), (Hold _ _ Ha2) as (? & ? & Ht2 & _).
    eapply Hth; [done|done|congruence].
  - intros a0 r0 Ha0. destruct (Hold _ _ Ha0) as (r1 & Hr1 & _ & _ & ?). split; [done|]. by eapply Hheap.
  - intros j tx1. simpl. rewrite lookup_insert_Some. intros [[<- _]|[_ Hj]]; by eapply Hids.
  - intros a0 r0 k e Ha0 He. destruct (Hent _ _ _ _ Ha0 He) as (r1 & Hr1 & _ & [(_ & _ & [=])|[He1 _]]). by eapply Hpend.
  - intros a1 a2 r1 r2 k1 k2 e1 e2 Ha1 Ha2 He1 He2 Heq.
    destruct (Hent _ _ _ _ Ha1 He1) as (r3 & Hr3 & _ & [(_ & _ & [=])|[He3 _]]).
    destruct (Hent _ _ _ _ Ha2 He2) as (r4 & Hr4 & _ & [(_ & _ & [=])|[He4 _]]). by eapply Hsend.
  - intros j tx1. simpl. rewrite lookup_insert_Some. intros [[<- <-]|[Hne Hj]].
    + simpl. apply (ok_claiming w' tx' g ty n t); [apply lookup_insert_eq|by left].
    + apply (PhaseOk_mono w); [by eapply (wk_phases w)|done|done| |].
      * intros n1 t1 Hro. split; [|by left]. simpl. apply lookup_insert_ne. by destruct (Hapart j tx1 n1 t1 Hj Hro).
      * intros n1 Hn1. simpl. rewrite lookup_insert_ne; [done|]. intros <-. by destruct (Nat.lt_irrefl n); eapply (wk_completion_ids w Hok).
  - intros j tx1. simpl. rewrite lookup_insert_Some. intros [[<- <-]|[Hne Hj]]; [destruct (Hpl _ _ Hi) as (r0 & Hl & Hx)|
      destruct (Hpl _ _ Hj) as (r0 & Hl & Hx)]; destruct (Hforth _ _ Hl) as (r1 & ? & ?); exists r1; by split; [|etrans].
  - intros j tx1 n1 t1 Hj Hl gen r0 k s Hg Hr0.
    destruct (Hold _ _ Hr0) as (r1 & Hr1 & _ & Hgen & Hok0).
    destruct (Hback _ _ _ _ Hj Hl) as [(-> & -> & -> & ->)|[Hne Hj0]].
    + simpl in Hg. injection Hg as <-. simpl in Hr0, Hr1. rewrite lookup_insert_eq in Hr0.
      assert (r0 = r') as -> by congruence. assert (r1 = r) as -> by congruence.
      destruct (Hheap _ _ Hr) as [Hokr _]. split; [apply (rk_below _ Hokr _ _ Hk)|].
      assert (ir_entries r' !! tx_key tx = Some (Resolved (tx_digest w tx) g ty n)) as Hself by apply lookup_insert_eq.
      intros Hs Heq. assert (k = tx_key tx) as -> by (by eapply (rk_distinct _ Hok0)). split; [done|]. exists ty. rewrite Hself in Hs. by injection Hs as <-.
    + destruct (Hown _ _ _ _ Hj0 Hl gen r1 k s Hg Hr1) as [? Huse]. split; [congruence|]. intros Hs Heq.
      destruct (Hent _ _ _ _ Hr0 Hs) as (r2 & Hr2 & _ & [(Hrec0 & -> & ->)|[Hs2 _]]).
      2:{ apply Huse; [|done]. congruence. }
      simpl in Heq. subst gen.
      destruct (Hown _ _ _ _ Hj0 Hl _ r (tx_key tx) (Pending entry) Hg) as [_ Hbad]; [by rewrite Hrec0|].
      destruct (Hbad Hk eq_refl) as (_ & ? & [=]).
  - intros j tx1 n1 t1 a0 r0 k e Hj Hl Ha0 He.
    destruct (Hent _ _ _ _ Ha0 He) as (r1 & Hr1 & _ & [(_ & _ & [=])|[He1 Hnk]]).
    destruct (Hback _ _ _ _ Hj Hl) as [(-> & -> & -> & ->)|[Hne Hj0]]; [|by eapply Hap].
    intros Heq. destruct (Hsend _ _ _ _ _ _ _ _ Hr1 Hr He1 Hk Heq) as [-> ->]. by destruct Hnk.
  - intros i1 i2 tx1 tx2 n1 n2 t1 t2 Hj1 Hj2 Hl1 Hl2 Hor.
    destruct (Hback _ _ _ _ Hj1 Hl1) as [(-> & -> & -> & ->)|[Hne1 Hj3]],
      (Hback _ _ _ _ Hj2 Hl2) as [(-> & -> & -> & ->)|[Hne2 Hj4]]; [done| | |by eapply Hld].
    + destruct (Hapart _ _ _ _ Hj4 Hl2). naive_solver.
    + destruct (Hapart _ _ _ _ Hj3 Hl1). naive_solver.
  - intros a0 r0 k d gen ty0 n1 Ha0 Hs.
    destruct (Hent _ _ _ _ Ha0 Hs) as (r1 & Hr1 & _ & [(-> & -> & [= -> -> -> ->])|[Hs1 _]]).
    + exists i, tx', t. simpl. rewrite lookup_insert_eq. split_and!; try done. by right.
    + destruct (Hres _ _ _ _ _ _ _ Hr1 Hs1) as (j & tx1 & t1 & Hj & Hl & Hrest).
      destruct (Hkeep _ _ _ _ Hj Hl) as (tx2 & Hj2 & _).
      exists j, tx1, t1. split; [|done]. simpl. rewrite lookup_insert_ne; [done|]. intros ->. simpl in Hj. simplify_eq. by destruct (Hnot n1 t1).
  - intros t0 v Hv. destruct (Hdel _ _ Hv) as (j & tx1 & n1 & Hj & Hl & Hv').
    destruct (Hkeep _ _ _ _ Hj Hl) as (tx2 & Hj2 & Hp & _ & Hl2). exists j, tx2, n1. by rewrite Hp.
  - intros n0 o. simpl. rewrite lookup_insert_Some. intros [[<- _]|[_ Ho]]; [unfold n; lia|]. apply Hcid in Ho. simpl in Ho. unfold n. lia.
  - intros n0 o. simpl. rewrite lookup_insert_Some. intros [[<- _]|[_ Ho]]; [exists i, tx', t; by rewrite lookup_insert_eq|].
    destruct (Hcomp _ _ Ho) as (j & tx1 & t1 & Hj & Hl). destruct (Hkeep _ _ _ _ Hj Hl) as (tx2 & Hj2 & _ & _ & Hl2).
    by exists j, tx2, t1.
Qed.
End invariant.
