(* ===== verification/InteractionSteps.v ===== *)
(** * Every step keeps the invariant of the interaction registry

    One lemma per step of [lives_on], and [lived_ok]: whatever has become of an empty
    registry satisfies [WorldOk]. *)

From S2P Require Import Prelude EventJournal Protocol StoreState CoreSession SessionManagement Interactions InteractionRecord InteractionServer InteractionLaws InteractionBlocks InteractionInvariant.

Section steps.
Context `{HE : Externals} `{HS : SchemaExternals} `{HV : EventExternals} `{HL : !EventLaws} `{HD : DigestExternals} `{HM : MapOrder}.
Implicit Types (w : Interactions) (r : InteractionRecord) (tx : Transaction) (c : ResponseCommit) (a i n t : nat)
  (k : string * string).

(** ** Looking records up *)

Lemma record_of_Ok thread w a r :
  record_of thread w = Ok (a, r) → iw_records w !! thread = Some a ∧ iw_heap w !! a = Some r.
Proof.
  unfold record_of. intros Hr. inv_result. destruct (iw_records w !! thread) as [a0|] eqn:Ha; [|done].
  inv_result. destruct (iw_heap w !! a0) as [r0|] eqn:Hr0; [|done]. by inv_result.
Qed.

Lemma owned_record_Ok owner thread w a r :
  owned_record owner thread w = Ok (a, r) → record_of thread w = Ok (a, r) ∧ ir_owner r = owner.
Proof. unfold owned_record. intros Ho. inv_result. destruct x. inv_result. inv_bool. done. Qed.

Lemma record_of_thread w thread a r :
  WorldOk w → record_of thread w = Ok (a, r) → iw_heap w !! a = Some r ∧ is_thread_id (ir_snapshot r) = thread.
Proof.
  intros Hok [Hth Ha]%record_of_Ok. split; [done|]. destruct (wk_records _ Hok _ _ Hth) as (r' & Ha' & <-). congruence.
Qed.

Lemma record_ok w a r : WorldOk w → iw_heap w !! a = Some r → RecordOk r.
Proof. intros Hok Ha. by apply (wk_heap _ Hok _ _ Ha). Qed.

(** ** Methods *)

Lemma step_insert owner thread enabled stream_id w w' :
  WorldOk w → (∀ a r, iw_heap w !! a = Some r → is_thread_id (ir_snapshot r) ≠ thread) →
  interactions_insert owner thread enabled stream_id w = Ok w' → WorldOk w'.
Proof.
  unfold interactions_insert. intros Hok Hfresh Hi. apply bind_Ok in Hi as (r & Hnew & Hi).
  destruct (iw_records w !! thread) eqn:Hth; [done|]. injection Hi as <-.
  destruct (RecordOk_new _ _ _ _ _ _ Hnew) as (Hr & He & _ & Ht & _). by apply WorldOk_insert.
Qed.

Lemma step_register owner thread turn_id identity w w' :
  WorldOk w → register_run owner thread turn_id identity w = Ok w' → WorldOk w'.
Proof.
  unfold register_run. intros Hok Hr. apply bind_Ok in Hr as ([a r] & [Hrec _]%owned_record_Ok & Hr).
  apply bind_Ok in Hr as (r' & Hreg & [= <-]). apply record_of_Ok in Hrec as [_ Ha].
  apply register_locked_ok in Hreg as (? & ? & He & _); [|by eapply record_ok].
  eapply WorldOk_record; [done|done|done|done|by rewrite He].
Qed.

Lemma step_unregister owner thread turn_id identity w :
  WorldOk w → WorldOk (unregister_run owner thread turn_id identity w).
Proof.
  intros Hok. unfold unregister_run. destruct (owned_record owner thread w) as [[a r]|] eqn:Ho; [|done].
  apply owned_record_Ok in Ho as [[_ Ha]%record_of_Ok _].
  destruct (unregister_locked_ok turn_id identity r) as (? & ? & He & _); [by eapply record_ok|].
  eapply WorldOk_record; [done|done|done|done|by rewrite He].
Qed.

Lemma step_begin now context request_id request origin w answer w' :
  WorldOk w → begin_interaction now context request_id request origin w = (answer, w') → WorldOk w'.
Proof.
  unfold begin_interaction. intros Hok Hb. destruct (validate_interaction_request request) as [u|]; [|by injection Hb as _ <-].
  destruct (record_of (ctx_thread_id context) w) as [[a r]|] eqn:Hrec; simpl in Hb; [|by injection Hb as _ <-].
  apply record_of_Ok in Hrec as [_ Ha].
  destruct (begin_locked _ _ _ _ _ _ r) as [[generation|e] r'] eqn:Hl; injection Hb as _ <-;
    (apply begin_locked_spec in Hl as (Hr' & Hkin & Hl); [|by eapply record_ok]).
  - destruct Hl as (-> & Hgen & _ & Hent & _). by eapply WorldOk_begin.
  - destruct Hl as [Hent _]. eapply WorldOk_record; [done|done|done|done|by rewrite Hent].
Qed.

Lemma step_clear_run now owner thread turn_id cause w :
  WorldOk w → cause ∈ REMOVAL_CAUSES → WorldOk (clear_run now owner thread turn_id cause w).
Proof.
  intros Hok Hc. unfold clear_run. destruct (owned_record owner thread w) as [[a r]|] eqn:Ho; [|done].
  apply owned_record_Ok in Ho as [[_ Ha]%record_of_Ok _].
  pose proof (clear_run_locked_Cleared now turn_id cause r) as Hl. destruct (clear_run_locked now turn_id cause r) as [r' senders].
  destruct Hl as [Hl _]; [by eapply record_ok|done|]. by eapply WorldOk_cleared.
Qed.

Lemma step_clear_exact now thread turn_id request_id generation cause w :
  WorldOk w → cause ∈ REMOVAL_CAUSES → WorldOk (clear_exact now thread turn_id request_id generation cause w).
Proof.
  intros Hok Hc. unfold clear_exact. destruct (record_of thread w) as [[a r]|] eqn:Ho; [|done].
  apply record_of_Ok in Ho as [_ Ha].
  pose proof (clear_exact_locked_Cleared now turn_id request_id generation cause r) as Hl.
  destruct (clear_exact_locked now turn_id request_id generation cause r) as [[r' sender]|]; [|done].
  exact (WorldOk_cleared _ _ _ _ _ _ Hok Ha (Hl (record_ok _ _ _ Hok Ha) Hc)).
Qed.

Lemma step_retire owner thread turn_id identity w :
  WorldOk w → WorldOk (interactions_retire_run owner thread turn_id identity w).2.
Proof.
  intros Hok. unfold interactions_retire_run. destruct (owned_record owner thread w) as [[a r]|] eqn:Ho; [|done].
  apply owned_record_Ok in Ho as [[_ Ha]%record_of_Ok _].
  pose proof (retire_locked_spec turn_id identity r (record_ok _ _ _ Hok Ha)) as Hl.
  destruct (retire_locked turn_id identity r) as [answer r']. destruct Hl as (? & ? & _ & Hl).
  eapply WorldOk_record; [done|done|done|done|]. destruct Hl as [->|(_ & _ & _ & -> & _)]; [done|apply map_filter_subseteq].
Qed.

Lemma WorldOk_forget w thread : WorldOk w → WorldOk (set_records (delete thread (iw_records w)) w).
Proof.
  intros [Hrec Hth Hheap Htk Hids Hpend Hsend Hph Hpl Hown Hap Hld Hres Hdel Hcid Hcomp]. split; try done.
  - intros th a. simpl. intros [_ Ha]%lookup_delete_Some. by apply Hrec.
  - intros i tx Hi. apply (PhaseOk_mono w); [by eapply Hph|done|by apply keeps_refl|by auto|done].
Qed.

Lemma step_close now owner thread cause w :
  WorldOk w → cause ∈ REMOVAL_CAUSES → WorldOk (close_session now owner thread cause w).
Proof.
  intros Hok Hc. unfold close_session. destruct (owned_record owner thread w) as [[a r]|]; [|done].
  apply WorldOk_forget. generalize (entry_order (ir_entries r)).*1 as turns. intros turns. revert w Hok.
  induction turns as [|turn turns IH]; intros w Hok; simpl; [done|]. by apply IH, step_clear_run.
Qed.

(** ** Responses *)

(** What a method that changes only one record leaves alone. *)
Definition only_records w w' : Prop :=
  iw_tickets w' = iw_tickets w ∧ iw_completions w' = iw_completions w ∧ iw_transactions w' = iw_transactions w ∧
  iw_next w' = iw_next w ∧ iw_digest_key w' = iw_digest_key w ∧ iw_records w' = iw_records w.

Lemma abort_resolution_ok now c cause w :
  WorldOk w → WorldOk (abort_resolution now c cause w) ∧ only_records w (abort_resolution now c cause w).
Proof.
  intros Hok. unfold abort_resolution. destruct (record_of (cm_thread_id c) w) as [[a r]|] eqn:Ho; [|done].
  apply record_of_Ok in Ho as [_ Ha].
  pose proof (abort_resolved_spec now (cm_turn_id c, cm_request_id c) (cm_generation c) (cm_digest c) cause r
    (record_ok _ _ _ Hok Ha)) as (Hr & Hk & He).
  split; [|done]. eapply WorldOk_record; [done|done|done|done|].
  destruct (resolved_matches _ _ _ r); [destruct He as [-> _]; apply delete_subseteq|by rewrite He].
Qed.

Lemma publish_resolution_ok now c w answer w' :
  WorldOk w → publish_resolution now c w = (answer, w') → WorldOk w' ∧ only_records w w'.
Proof.
  intros Hok. unfold publish_resolution. destruct (record_of (cm_thread_id c) w) as [[a r]|] eqn:Ho; [|by intros [= _ <-]].
  apply record_of_Ok in Ho as [_ Ha]. destruct (publish_resolved_locked _ _ _ _ r) as [answer' r'] eqn:Hp. intros [= _ <-].
  apply publish_resolved_spec in Hp as (Hr & Hk & He & _); [|by eapply record_ok].
  split; [|done]. eapply WorldOk_record; [done|done|done|done|by rewrite He].
Qed.

(** The commit [c] of transaction [tx] is a leader's, and nobody has been told yet. *)
Record Undecided w tx c n t : Prop := {
  un_new : cm_newly_resolved c = true;
  un_completion : cm_completion c = Some (Leader n);
  un_ticket : cm_ticket c = Some t;
  un_one : cm_sender c = None ∨ cm_delivery_commit c = None;
  un_role : leads_response tx n t;
  un_open : iw_completions w !! n = Some None;
  un_state : iw_tickets w !! t = Some (if cm_sender c then TicketWaiting else TicketStaged (rp_response (tx_params tx))) ∨
             iw_tickets w !! t = Some TicketDropped;
}.

Lemma undecided_claiming w tx c :
  PhaseOk w tx (Claiming c) → tx_phase tx = Claiming c → cm_newly_resolved c = true →
  ∃ n t generation typed, Undecided w tx c n t ∧ c = leader_commit w tx generation typed n t.
Proof.
  intros Hp Htx Hnew. inversion Hp as [|ty n Hf Hx|g ty n t Hc Ht Hx| | | | | |]; subst; [done|].
  exists n, t, g, ty. split; [|done]. split; try done; [by right|]. unfold leads_response, tx_role. by rewrite Htx.
Qed.

Lemma undecided_staging w tx c :
  PhaseOk w tx (Staging c) → tx_phase tx = Staging c →
  ∃ n t generation typed, Undecided w tx c n t ∧ c = staged_commit w tx generation typed n t.
Proof.
  intros Hp Htx. inversion Hp as [| | |g ty n t Hc Ht Hx| | | | |]; subst.
  exists n, t, g, ty. split; [|done]. split; try done; [by left|]. unfold leads_response, tx_role. by rewrite Htx.
Qed.

Lemma undecided_checked w tx c :
  PhaseOk w tx (Checked c) → tx_phase tx = Checked c →
  ∃ n t generation typed, Undecided w tx c n t ∧ c = staged_commit w tx generation typed n t.
Proof.
  intros Hp Htx. inversion Hp as [| | | |g ty n t Hc Ht Hx| | | |]; subst.
  exists n, t, g, ty. split; [|done]. split; try done; [by left|]. unfold leads_response, tx_role. by rewrite Htx.
Qed.

Lemma Undecided_records w w' tx c n t : only_records w w' → Undecided w tx c n t → Undecided w' tx c n t.
Proof. intros (Ht & Hc & _) []. split; rewrite ?Ht, ?Hc; done. Qed.

Lemma tell_one e c t w :
  cm_ticket c = Some t → cm_sender c = None ∨ cm_delivery_commit c = None → tell_continuation e c w = send_error e t w.
Proof.
  unfold cm_ticket, tell_continuation. intros Ht Hone. destruct (cm_sender c) as [s|] eqn:Hs.
  - injection Ht as ->. by destruct Hone as [[=]| ->].
  - by rewrite Ht.
Qed.

(** A response that fails tells its continuation, if that still listens, and its followers. *)
Lemma WorldOk_fail w i tx c n t e f error :
  WorldOk w → iw_transactions w !! i = Some tx → Undecided w tx c n t →
  WorldOk (put_transaction i (in_phase tx (answered c (Err e)))
             (signal_completion (Err f) c (tell_continuation error c w))).
Proof.
  intros Hok Hi [_ Hcompl Hticket Hone Hrole Hopen Hstate].
  rewrite (tell_one _ _ t) by done. unfold signal_completion, answered. rewrite Hcompl, Hticket.
  set (w1 := send_error error t w). destruct (send_error_frame w t error) as (_ & _ & Hc1 & _). fold w1 in Hc1. rewrite Hc1.
  assert (∃ T, w1 = set_tickets T w ∧ (∀ t', t' ≠ t → T !! t' = iw_tickets w !! t') ∧
    (T !! t = Some (TicketDone (Err error)) ∨ T !! t = Some TicketDropped)) as (T & -> & HT & HTt).
  { unfold w1, send_error. destruct Hstate as [Ht|Ht]; rewrite Ht.
    - exists (<[t := TicketDone (Err error)]> (iw_tickets w)).
      split_and!; [by destruct (cm_sender c)|by intros; rewrite lookup_insert_ne|left; by rewrite lookup_insert_eq].
    - exists (iw_tickets w). split_and!; [by destruct w|done|by right]. }
  apply (WorldOk_advance w i tx n t (Answered (Some (Leader n)) (Some t) (Err e)) T (<[n := Some (Err f)]> (iw_completions w)));
    try done.
  - by left.
  - destruct HTt as [->| ->]; eauto.
  - intros v. destruct HTt as [->| ->]; by intros [].
  - intros n' Hn'. by rewrite lookup_insert_ne.
  - by right.
  - apply (ok_failed _ _ _ _ _ f); simpl; [apply lookup_insert_eq|]. destruct HTt as [->| ->]; eauto.
Qed.

Lemma WorldOk_abort w i tx c n t e f now cause :
  WorldOk w → iw_transactions w !! i = Some tx → Undecided w tx c n t →
  WorldOk (put_transaction i (in_phase tx (answered c (Err e))) (abort_commit now cause f c w)).
Proof.
  intros Hok Hi Hu. destruct (abort_resolution_ok now c cause w Hok) as [Hok' Honly]. unfold abort_commit.
  apply (WorldOk_fail _ _ _ _ n t); [done| |by eapply Undecided_records]. destruct Honly as (_ & _ & -> & _). done.
Qed.

(** A phase further, with the channels as they are. *)
Lemma WorldOk_phase w i tx n t phase :
  WorldOk w → iw_transactions w !! i = Some tx → leads_response tx n t → role_of phase = (Some (Leader n), Some t) →
  tx_generation (in_phase tx phase) = None ∨ tx_generation (in_phase tx phase) = tx_generation tx →
  PhaseOk w (in_phase tx phase) phase → WorldOk (put_transaction i (in_phase tx phase) w).
Proof.
  intros Hok Hi Hl Hr Hg Hp. destruct (leader_known _ _ _ _ _ Hok Hi Hl) as [[s Hs] _].
  assert (put_transaction i (in_phase tx phase) w =
    put_transaction i (in_phase tx phase) (set_completions (iw_completions w) (set_tickets (iw_tickets w) w))) as Heq by done.
  rewrite Heq. apply (WorldOk_advance w i tx n t phase (iw_tickets w) (iw_completions w)); try done.
  - intros v Hv. destruct (wk_delivered _ Hok _ _ Hv) as (j & tx1 & n1 & Hj & Hl1 & <-).
    assert (j = i) as -> by (eapply (wk_leaders _ Hok j i); eauto). by simplify_eq.
  - by left.
  - apply (PhaseOk_mono w); [done|done| |by auto|done].
    intros j tx1 n1 t1 Hj Hl1. simpl. destruct (decide (j = i)) as [->|Hne].
    + rewrite lookup_insert_eq. simplify_eq. exists (in_phase tx phase). unfold leads_response, tx_role in *. simpl.
      rewrite Hl1 in Hl. by rewrite Hr.
    + rewrite lookup_insert_ne by done. by exists tx1.
Qed.

(** ** Steps of a response *)

Lemma peek_response_Ok owner params require_enabled w a found :
  WorldOk w → peek_response owner params require_enabled w = Ok (a, found) →
  ∃ r, iw_heap w !! a = Some r ∧ is_thread_id (ir_snapshot r) = rp_thread_id params ∧
    record_of (rp_thread_id params) w = Ok (a, r) ∧
    peek_locked (rp_turn_id params, rp_request_id params) (response_digest (iw_digest_key w) (rp_response params))
      require_enabled r = Ok found.
Proof.
  unfold peek_response. intros Hok Hp. apply bind_Ok in Hp as ([] & _ & Hp). apply bind_Ok in Hp as ([a0 r] & Hrec & Hp).
  apply bind_Ok in Hp as (found0 & Hpeek & Hp). apply bind_Ok in Hp as ([] & _ & [= <- <-]).
  assert (record_of (rp_thread_id params) w = Ok (a0, r)) as Hr.
  { destruct owner as [owner|]; apply map_err_Ok in Hrec; [by apply owned_record_Ok in Hrec as [? _]|done]. }
  exists r. destruct (record_of_thread _ _ _ _ Hok Hr). done.
Qed.

Lemma peek_locked_Ok key digest require_enabled r found :
  peek_locked key digest require_enabled r = Ok found →
  match found with
  | PeekResolved typed n =>
      ∃ previous g, ir_entries r !! key = Some (Resolved previous g typed n) ∧ constant_time_eq previous digest = true
  | PeekPending request g =>
      ∃ entry, ir_entries r !! key = Some (Pending entry) ∧ request = pe_request entry ∧ g = pe_generation entry
  end.
Proof.
  unfold peek_locked. intros Hp. apply bind_Ok in Hp as ([] & _ & Hp).
  destruct (ir_entries r !! key) as [[entry|previous g typed n]|]; [injection Hp as <-; eauto| |done].
  destruct (constant_time_eq previous digest) eqn:He; [|done]. injection Hp as <-. eauto.
Qed.

(** A call that finds a resolved entry follows the response that resolved it. *)
Lemma resolved_follows w tx r previous g typed n :
  WorldOk w → iw_heap w !! tx_record tx = Some r → ir_entries r !! tx_key tx = Some (Resolved previous g typed n) →
  constant_time_eq previous (tx_digest w tx) = true → follows w tx n.
Proof.
  intros Hok Hr Hk He. destruct (wk_resolved _ Hok _ _ _ _ _ _ _ Hr Hk) as (i & tx' & t & Hi & Hl & Hrec & Hkey & <- & _).
  by exists i, tx', t.
Qed.

Lemma follows_own_record w w' tx n :
  follows w tx n → iw_transactions w' = iw_transactions w → iw_digest_key w' = iw_digest_key w → follows w' tx n.
Proof. intros Hf Ht Hd. eapply follows_mono; [by apply keeps_refl|done|done]. Qed.

Lemma step_peek owner params require_enabled a found w :
  WorldOk w → peek_response owner params require_enabled w = Ok (a, found) →
  WorldOk (set_next (S (iw_next w)) (put_transaction (iw_next w)
    {| tx_params := params; tx_record := a; tx_require_enabled := require_enabled;
       tx_phase := peeked_phase params found |} w)).
Proof.
  intros Hok Hp. destruct (peek_response_Ok _ _ _ _ _ _ Hok Hp) as (r & Hr & Hth & _ & Hpeek). apply peek_locked_Ok in Hpeek.
  set (tx := {| tx_params := params; tx_record := a; tx_require_enabled := require_enabled;
                tx_phase := peeked_phase params found |}).
  apply (WorldOk_passive (set_next (S (iw_next w)) w) (iw_next w) tx).
  - by apply WorldOk_next.
  - intros tx0 n t Hi. pose proof (wk_ids _ Hok _ _ Hi). lia.
  - intros n t. unfold leads_response, tx_role. by destruct found.
  - simpl. lia.
  - simpl. destruct found as [typed n|request g]; simpl; [|constructor]. destruct Hpeek as (previous & g & Hk & He).
    apply (ok_following _ tx). eapply (follows_own_record w); [|done|done]. by eapply (resolved_follows w tx).
  - by exists r.
Qed.

Lemma step_claim i tx now generation answer w w' :
  WorldOk w → iw_transactions w !! i = Some tx → tx_phase tx = Peeking generation →
  claim_response now (tx_record tx) generation (tx_params tx) (tx_require_enabled tx) w = (answer, w') →
  WorldOk (put_transaction i (in_phase tx match answer with Ok c => Claiming c | Err e => Answered None None (Err e) end) w').
Proof.
  intros Hok Hi Hpeek Hc. destruct (wk_places _ Hok _ _ Hi) as (r & Hr & Hth). unfold claim_response in Hc. rewrite Hr in Hc.
  assert (∀ n t, ¬ leads_response tx n t) as Hnot by (intros n t; unfold leads_response, tx_role; by rewrite Hpeek).
  assert (∀ w1 r1 phase, WorldOk w1 → iw_transactions w1 = iw_transactions w → iw_next w1 = iw_next w →
    iw_heap w1 !! tx_record tx = Some r1 → is_thread_id (ir_snapshot r1) = rp_thread_id (tx_params tx) →
    PhaseOk w1 (in_phase tx phase) phase → role_of phase = (None, None) ∨ (∃ n, role_of phase = (Some (Follower n), None)) →
    WorldOk (put_transaction i (in_phase tx phase) w1)) as Hpassive.
  { intros w1 r1 phase Hok1 Htx1 Hn1 Hr1 Hth1 Hp1 Hrole. apply WorldOk_passive; try done.
    - intros tx0 n t. rewrite Htx1. intros ?. by simplify_eq.
    - intros n t. unfold leads_response, tx_role. simpl. destruct Hrole as [->|[? ->]]; done.
    - rewrite Hn1. by eapply wk_ids.
    - by exists r1. }
  destruct (claim_locked _ _ _ _ _ _ _ _) as [[[typed n|typed sender n]|e] r'] eqn:Hl; injection Hc as <- <-;
    (apply claim_locked_spec in Hl; [|by eapply record_ok]).
  - destruct Hl as (-> & previous & g & Hk & He).
    assert (WorldOk (put_record (tx_record tx) r w)) as Hok1.
    { eapply WorldOk_record; [done|done|by eapply record_ok|done|done]. }
    apply (Hpassive _ r); try done; [apply lookup_insert_eq|..|right; by eexists].
    apply (ok_following _ (in_phase tx _)). eapply (follows_own_record w); [|done|done]. by eapply resolved_follows.
  - destruct Hl as (entry & Hk & <- & -> & -> & -> & Hclosed & ->).
    apply WorldOk_claim; try done. unfold is_closed in Hclosed. by intros Hd; rewrite Hd in Hclosed.
  - assert (WorldOk (put_record (tx_record tx) r' w) ∧ Kin r r') as [Hok1 Hkin].
    { destruct Hl as [->|(entry & _ & _ & Hcl)].
      - split; [|done]. eapply WorldOk_record; [done|done|by eapply record_ok|done|done].
      - split; [|by apply Hcl]. eapply WorldOk_record; [done|done|by apply Hcl..]. }
    apply (Hpassive _ r'); try done; [apply lookup_insert_eq|by rewrite (kin_thread _ _ Hkin)|constructor|by left].
Qed.

Lemma step_stage i tx c now answer w w' :
  WorldOk w → iw_transactions w !! i = Some tx → tx_phase tx = Claiming c → cm_newly_resolved c = true →
  stage_delivery now c w = (answer, w') →
  WorldOk (put_transaction i (in_phase tx match answer with Ok c => Staging c | Err e => answered c (Err e) end) w').
Proof.
  intros Hok Hi Hph Hnew Hs. pose proof (wk_phases _ Hok _ _ Hi) as Hp. rewrite Hph in Hp.
  destruct (undecided_claiming _ _ _ Hp Hph Hnew) as (n & t & g & typed & Hu & ->).
  unfold stage_delivery, send_delivery in Hs. simpl in Hs. destruct (un_state _ _ _ _ _ Hu) as [Ht|Ht]; simpl in Ht; rewrite Ht in Hs.
  - injection Hs as <- <-. set (tickets := <[t := _]> (iw_tickets w)).
    apply (WorldOk_advance w i tx n t (Staging (staged_commit w tx g typed n t)) tickets (iw_completions w)); try done.
    + apply Hu.
    + right. unfold tx_generation. by rewrite Hph.
    + intros t' Hne. unfold tickets. by rewrite lookup_insert_ne.
    + unfold tickets. rewrite lookup_insert_eq. eauto.
    + intros v. unfold tickets. rewrite lookup_insert_eq. by intros [[= <-]|].
    + by left.
    + refine (ok_staging _ (in_phase tx _) g typed n t _ _); simpl; [apply Hu|left; apply lookup_insert_eq].
  - injection Hs as <- <-.
    destruct (abort_resolution_ok now (leader_commit w tx g typed n t) REMOVAL_ORIGIN_FINISHED w Hok) as [Hok1 Honly].
    pose proof (Undecided_records _ _ _ _ _ _ Honly Hu) as Hu1.
    assert (tell_continuation (into_core failure_inactive) (leader_commit w tx g typed n t)
      (abort_resolution now (leader_commit w tx g typed n t) REMOVAL_ORIGIN_FINISHED w) =
      abort_resolution now (leader_commit w tx g typed n t) REMOVAL_ORIGIN_FINISHED w) as Heq.
    { rewrite (tell_one _ _ t) by apply Hu. unfold send_error. destruct Honly as (-> & _). by rewrite Ht. }
    assert (iw_transactions (abort_resolution now (leader_commit w tx g typed n t) REMOVAL_ORIGIN_FINISHED w) !! i = Some tx)
      as Hi1 by (destruct Honly as (_ & _ & -> & _); done).
    pose proof (WorldOk_fail _ i tx _ n t failure_inactive failure_inactive (into_core failure_inactive) Hok1 Hi1 Hu1) as Hf.
    rewrite Heq in Hf. exact Hf.
Qed.

Lemma step_publication_failed i tx c now e f w :
  WorldOk w → iw_transactions w !! i = Some tx → tx_phase tx = Staging c →
  WorldOk (put_transaction i (in_phase tx (answered c (Err e))) (abort_commit now REMOVAL_PUBLICATION_FAILED f c w)).
Proof.
  intros Hok Hi Hph. pose proof (wk_phases _ Hok _ _ Hi) as Hp. rewrite Hph in Hp.
  destruct (undecided_staging _ _ _ Hp Hph) as (n & t & g & typed & Hu & _). by eapply WorldOk_abort.
Qed.

(** A follower's answer. *)
Lemma WorldOk_follow i tx typed n outcome w :
  WorldOk w → iw_transactions w !! i = Some tx → tx_phase tx = Claiming (commit_idempotent (tx_params tx) typed n) →
  follows w tx n → (is_ok outcome = true → iw_completions w !! n = Some (Some (Ok ()))) →
  WorldOk (put_transaction i (in_phase tx (Answered (Some (Follower n)) None outcome)) w).
Proof.
  intros Hok Hi Hph Hf Ho. apply WorldOk_passive; try done.
  - intros tx0 n0 t. intros ?. simplify_eq. unfold leads_response, tx_role. by rewrite Hph.
  - by eapply wk_ids.
  - by constructor.
  - exact (wk_places _ Hok i tx Hi).
Qed.

Lemma claiming_follower w tx c :
  PhaseOk w tx (Claiming c) → cm_newly_resolved c = false →
  ∃ typed n, c = commit_idempotent (tx_params tx) typed n ∧ follows w tx n.
Proof. intros Hp Hnew. inversion Hp as [|ty n Hf Hx|g ty n t Hc Ht Hx| | | | | |]; subst; [eauto|done]. Qed.

Lemma step_drop_commit i tx c now e w :
  WorldOk w → iw_transactions w !! i = Some tx → tx_phase tx = Claiming c ∨ tx_phase tx = Staging c →
  WorldOk (put_transaction i (in_phase tx (answered c (Err e))) (drop_commit now c w)).
Proof.
  intros Hok Hi Hph. pose proof (wk_phases _ Hok _ _ Hi) as Hp.
  assert ((∃ n t, Undecided w tx c n t) ∨
    (tx_phase tx = Claiming c ∧ ∃ typed n, c = commit_idempotent (tx_params tx) typed n ∧ follows w tx n))
    as [(n & t & Hu)|(Hc & typed & n & -> & Hf)].
  { destruct Hph as [Hph|Hph]; rewrite Hph in Hp.
    - destruct (cm_newly_resolved c) eqn:Hnew.
      + destruct (undecided_claiming _ _ _ Hp Hph Hnew) as (n & t & _ & _ & Hu & _). left. eauto.
      + right. split; [done|]. by apply claiming_follower.
    - destruct (undecided_staging _ _ _ Hp Hph) as (n & t & _ & _ & Hu & _). left. eauto. }
  - destruct (abort_resolution_ok now c REMOVAL_PUBLICATION_FAILED w Hok) as [Hok1 Honly].
    assert (is_none (cm_sender c) && is_none (cm_delivery_commit c) = false) as Hch.
    { pose proof (un_ticket _ _ _ _ _ Hu) as Ht. unfold cm_ticket in Ht. destruct (cm_sender c); [done|]. by rewrite Ht. }
    unfold drop_commit. rewrite Hch, (un_new _ _ _ _ _ Hu).
    apply (WorldOk_fail _ _ _ _ n t); [done| |by eapply Undecided_records]. destruct Honly as (_ & _ & -> & _). done.
  - eapply WorldOk_follow; [done|done|exact Hc|done|done].
Qed.

Lemma step_check i tx c now answer w w' :
  WorldOk w → iw_transactions w !! i = Some tx → tx_phase tx = Staging c → release_check now c w = (answer, w') →
  WorldOk (put_transaction i (in_phase tx match answer with Ok _ => Checked c | Err e => answered c (Err e) end) w').
Proof.
  intros Hok Hi Hph. pose proof (wk_phases _ Hok _ _ Hi) as Hp. rewrite Hph in Hp.
  destruct (undecided_staging _ _ _ Hp Hph) as (n & t & g & typed & Hu & Hc). unfold release_check.
  destruct (is_some_and _ _); intros [= <- <-]; [by eapply WorldOk_abort|]. subst c.
  eapply WorldOk_phase; [done|done|apply Hu|done| |].
  - right. unfold tx_generation. simpl. by rewrite Hph.
  - refine (ok_checked _ (in_phase tx _) g typed n t _ _); [apply Hu|apply (un_state _ _ _ _ _ Hu)].
Qed.

Lemma step_release i tx c now answer w w' :
  WorldOk w → iw_transactions w !! i = Some tx → tx_phase tx = Checked c → release_publish now c w = (answer, w') →
  WorldOk (put_transaction i (in_phase tx (answered c answer)) w').
Proof.
  intros Hok Hi Hph. pose proof (wk_phases _ Hok _ _ Hi) as Hp. rewrite Hph in Hp.
  destruct (undecided_checked _ _ _ Hp Hph) as (n & t & g & typed & Hu & ->). unfold release_publish.
  destruct (publish_resolution _ _ w) as [[[]|e] w1] eqn:Hpub;
    (destruct (publish_resolution_ok _ _ _ _ _ Hok Hpub) as [Hok1 Honly]);
    (assert (iw_transactions w1 !! i = Some tx) as Hi1 by (destruct Honly as (_ & _ & -> & _); done));
    (pose proof (Undecided_records _ _ _ _ _ _ Honly Hu) as Hu1); intros [= <- <-]; [|by eapply WorldOk_abort].
  unfold signal_completion, commit_delivery. simpl.
  destruct (un_state _ _ _ _ _ Hu1) as [Ht|Ht]; simpl in Ht; rewrite Ht.
  - set (tickets := <[t := _]> (iw_tickets w1)).
    apply (WorldOk_advance w1 i tx n t (answered (staged_commit w tx g typed n t) (Ok (commit_outcome _))) tickets
      (<[n := Some (Ok ())]> (iw_completions w1))); try done.
    + apply Hu1.
    + by left.
    + intros t' Hne. unfold tickets. by rewrite lookup_insert_ne.
    + unfold tickets. rewrite lookup_insert_eq. eauto.
    + intros v. unfold tickets. rewrite lookup_insert_eq. by intros [|[= <-]].
    + intros n' Hne. by rewrite lookup_insert_ne.
    + right. apply Hu1.
    + refine (ok_accepted _ (in_phase tx _) n t _ _ _); simpl; [apply lookup_insert_eq|left; apply lookup_insert_eq].
  - apply (WorldOk_advance w1 i tx n t (answered (staged_commit w tx g typed n t) (Ok (commit_outcome _))) (iw_tickets w1)
      (<[n := Some (Ok ())]> (iw_completions w1))); try done.
    + apply Hu1.
    + by left.
    + intros v. rewrite Ht. by intros [|].
    + intros n' Hne. by rewrite lookup_insert_ne.
    + right. apply Hu1.
    + refine (ok_accepted _ (in_phase tx _) n t _ _ _); simpl; [apply lookup_insert_eq|by right].
Qed.

Lemma step_follow i tx c now answer w w' :
  WorldOk w → iw_transactions w !! i = Some tx → tx_phase tx = Claiming c → cm_newly_resolved c = false →
  complete now c w = Some (answer, w') → WorldOk (put_transaction i (in_phase tx (answered c answer)) w').
Proof.
  intros Hok Hi Hph Hnew. pose proof (wk_phases _ Hok _ _ Hi) as Hp. rewrite Hph in Hp.
  destruct (claiming_follower _ _ _ Hp Hnew) as (typed & n & -> & Hf). unfold complete. simpl.
  destruct (iw_completions w !! n) as [[o|]|] eqn:Hn; try done. intros [= <- <-].
  eapply WorldOk_follow; [done|done|exact Hph|done|]. destruct o as [[]|]; [done|]. by intros [=].
Qed.

(** ** Histories *)

Lemma WorldOk_empty limits digest_key : WorldOk (interactions_empty limits digest_key).
Proof.
  split; unfold interactions_empty; simpl; intros; repeat match goal with h : ∅ !! _ = Some _ |- _ => by rewrite lookup_empty in h end.
  rename select (_ ∨ _) into Hor. destruct Hor as [Hx|Hx]; by rewrite lookup_empty in Hx.
Qed.

Lemma lives_on_ok strict w w' : lives_on strict w w' → WorldOk w → WorldOk w'.
Proof.
  intros Hstep Hok. destruct Hstep.
  - by eapply step_insert.
  - by eapply step_register.
  - by apply step_unregister.
  - by eapply step_begin.
  - by apply WorldOk_drop.
  - by apply step_clear_run.
  - by apply step_clear_exact.
  - by apply step_retire.
  - by apply step_close.
  - by eapply step_peek.
  - by eapply step_claim.
  - by eapply step_stage.
  - by apply step_publication_failed.
  - by apply step_drop_commit.
  - by eapply step_check.
  - by eapply step_release.
  - by eapply step_follow.
Qed.

Lemma lived_ok strict limits digest_key w : lived strict limits digest_key w → WorldOk w.
Proof. unfold lived. apply rtc_ind_r; [apply WorldOk_empty|]. intros w1 w2 _ Hs Hok. by eapply lives_on_ok. Qed.
End steps.
