(* ===== verification/InteractionShown.v ===== *)
(** * What a session shows of its interactions

    The snapshot of a session lists the requests whose continuations wait, and those
    whose response is on its way, as long as no run is retired in between and the
    stream has a sequence number left. *)

From S2P Require Import Prelude EventJournal Protocol StoreState CoreSession SessionManagement Interactions InteractionRecord InteractionServer InteractionLaws InteractionBlocks InteractionInvariant InteractionSteps.

Section shown.
Context `{HE : Externals} `{HS : SchemaExternals} `{HV : EventExternals} `{HL : !EventLaws} `{HD : DigestExternals} `{HM : MapOrder}.
Implicit Types (w : Interactions) (r : InteractionRecord) (tx : Transaction) (c : ResponseCommit) (a i n t : nat)
  (k : string * string) (C : gmap nat (option (result InteractionFailure ()))).

(** The response to request [k] is between its claim and its answer. *)
Definition in_flight C r k : Prop :=
  ∃ digest generation typed n, ir_entries r !! k = Some (Resolved digest generation typed n) ∧ C !! n = Some None.
Definition waits r k : Prop := ∃ entry, ir_entries r !! k = Some (Pending entry).

Record Agrees C r : Prop := {
  ag_shown : ir_enabled r = true → roomy r → ∀ k, k ∈ shown r → waits r k ∨ in_flight C r k;
  ag_flight : ir_enabled r = true → ∀ k, in_flight C r k → k ∈ shown r;
}.

Definition ShownOk w : Prop :=
  ∀ thread a r, iw_records w !! thread = Some a → iw_heap w !! a = Some r → Agrees (iw_completions w) r.

(** ** Frames *)

(** The responses to the requests of [r] are as far as before. *)
Definition same_flights C C' r : Prop :=
  ∀ k digest generation typed n, ir_entries r !! k = Some (Resolved digest generation typed n) →
    C' !! n = Some None ↔ C !! n = Some None.

Lemma Agrees_same C C' r r' :
  Agrees C r → ir_entries r' = ir_entries r → ir_snapshot r' = ir_snapshot r → ir_enabled r' = ir_enabled r →
  same_flights C C' r → Agrees C' r'.
Proof.
  intros [Hs Hf] He Hsn Hen HC. split; unfold roomy, shown, ir_cursor, ir_pending, waits, in_flight in *; rewrite Hen, Hsn.
  - setoid_rewrite He. intros Hen' Hroom k Hk. destruct (Hs Hen' Hroom k Hk) as [?|(d & g & ty & n & Hl & Hn)]; [by left|right].
    exists d, g, ty, n. split; [done|]. by apply (HC _ _ _ _ _ Hl).
  - setoid_rewrite He. intros Hen' k (d & g & ty & n & Hl & Hn). apply Hf; [done|]. exists d, g, ty, n. split; [done|]. by apply (HC _ _ _ _ _ Hl).
Qed.

Lemma same_flights_refl C r : same_flights C C r.
Proof. by intros k d g ty n _. Qed.

(** A world with another record at one address, and other completions that matter only to that record. *)
Lemma ShownOk_update w w' a r' :
  ShownOk w → iw_records w' ⊆ iw_records w → iw_heap w' = <[a := r']> (iw_heap w) →
  (∀ thread, iw_records w !! thread = Some a → Agrees (iw_completions w') r') →
  (∀ a' r, a' ≠ a → iw_heap w !! a' = Some r → same_flights (iw_completions w) (iw_completions w') r) →
  ShownOk w'.
Proof.
  intros Hok Hrec Hheap Hr' HC thread a0 r0 Hth Ha0. rewrite Hheap in Ha0.
  pose proof (lookup_weaken _ _ _ _ Hth Hrec) as Hth'.
  apply lookup_insert_Some in Ha0 as [[<- <-]|[Hne Ha0]]; [by eapply Hr'|].
  eapply Agrees_same; [by eapply Hok|done|done|done|]. by eapply HC.
Qed.

Lemma ShownOk_frame w w' :
  ShownOk w → iw_records w' ⊆ iw_records w → iw_heap w' = iw_heap w → iw_completions w' = iw_completions w → ShownOk w'.
Proof.
  intros Hok Hrec Hheap HC thread a r Hth Ha. rewrite HC. rewrite Hheap in Ha. eapply Hok; [by eapply lookup_weaken|done].
Qed.

(** A record that changes while the responses stay where they are. *)
Lemma ShownOk_record w a r' :
  ShownOk w → (∀ thread, iw_records w !! thread = Some a → Agrees (iw_completions w) r') → ShownOk (put_record a r' w).
Proof. intros Hok Hr'. eapply ShownOk_update; [done|done|done|done|]. intros ? ? _ _. apply same_flights_refl. Qed.

Lemma roomy_kin r r' : Kin r r' → roomy r' → roomy r.
Proof. unfold roomy. intros Hk. pose proof (kin_seq _ _ Hk). lia. Qed.

Lemma Agrees_cleared C r r' senders : Agrees C r → Cleared r r' senders → Agrees C r'.
Proof.
  intros [Hs Hf] [_ Hkin Hsub _ _ Hss Hsk Hsg]. pose proof (kin_enabled _ _ Hkin) as Hen. split; rewrite Hen.
  - intros Hen' Hroom k Hk. destruct (ir_entries r' !! k) as [s|] eqn:Hk'.
    + pose proof (lookup_weaken _ _ _ _ Hk' Hsub) as Hkr. unfold waits, in_flight. rewrite Hk', <-Hkr.
      apply Hs; [done|by eapply roomy_kin|by apply Hss].
    + destruct (Hs Hen' (roomy_kin _ _ Hkin Hroom) k (Hss _ Hk)) as [[e He]|(d & g & ty & n & He & _)];
        destruct (Hsg Hen' Hroom k); eauto.
  - intros Hen' k (d & g & ty & n & Hk & Hn). pose proof (lookup_weaken _ _ _ _ Hk Hsub) as Hkr.
    destruct (Hsk k) as [?|[_ ?]]; [|done|congruence]. apply Hf; [done|]. by exists d, g, ty, n.
Qed.

Lemma send_errors_frame e senders w :
  let w' := foldl (λ w sender, send_error e sender w) w senders in
  iw_records w' = iw_records w ∧ iw_heap w' = iw_heap w ∧ iw_completions w' = iw_completions w.
Proof.
  revert w. induction senders as [|t senders IH]; intros w; simpl; [done|].
  destruct (IH (send_error e t w)) as (-> & -> & ->). by destruct (send_error_frame w t e) as (-> & -> & -> & _).
Qed.

Lemma ShownOk_cleared w a r r' senders e :
  ShownOk w → iw_heap w !! a = Some r → Cleared r r' senders →
  ShownOk (foldl (λ w sender, send_error e sender w) (put_record a r' w) senders).
Proof.
  intros Hok Ha Hc. destruct (send_errors_frame e senders (put_record a r' w)) as (Hx1 & Hx2 & Hx3).
  eapply (ShownOk_frame (put_record a r' w)); [|by rewrite Hx1|done|done].
  apply ShownOk_record; [done|]. intros thread Hth. eapply Agrees_cleared; [by eapply Hok|done].
Qed.

(** ** Methods *)

Lemma Agrees_new C r : ir_entries r = ∅ → ir_pending r = [] → Agrees C r.
Proof.
  intros He Hp. split; intros _.
  - intros _ k. unfold shown. rewrite Hp. by intros ?%elem_of_nil.
  - intros k (d & g & ty & n & Hk & _). by rewrite He, lookup_empty in Hk.
Qed.

Lemma shown_insert owner thread enabled stream_id w w' :
  WorldOk w → ShownOk w → interactions_insert owner thread enabled stream_id w = Ok w' → ShownOk w'.
Proof.
  unfold interactions_insert. intros Hok Hsh Hi. apply bind_Ok in Hi as (r & Hnew & Hi).
  destruct (iw_records w !! thread) eqn:Hth; [done|]. injection Hi as <-.
  destruct (RecordOk_new _ _ _ _ _ _ Hnew) as (_ & He & Hp & _). intros th a r0. simpl.
  rewrite !lookup_insert_Some. intros [[<- <-]|[_ Hl]] [[Ha <-]|[Hne Hr0]]; try done; [by apply Agrees_new|by apply Agrees_new|].
  by eapply Hsh.
Qed.

Lemma shown_register owner thread turn_id identity w w' :
  WorldOk w → ShownOk w → register_run owner thread turn_id identity w = Ok w' → ShownOk w'.
Proof.
  unfold register_run. intros Hok Hsh Hr. apply bind_Ok in Hr as ([a r] & [Hrec _]%owned_record_Ok & Hr).
  apply bind_Ok in Hr as (r' & Hreg & [= <-]). apply record_of_Ok in Hrec as [_ Ha].
  apply register_locked_ok in Hreg as (_ & Hk & He & Hs); [|by eapply record_ok].
  apply ShownOk_record; [done|]. intros th Hth.
  eapply Agrees_same; [by eapply Hsh|done|done|by apply Hk|by apply same_flights_refl].
Qed.

Lemma shown_unregister owner thread turn_id identity w :
  WorldOk w → ShownOk w → ShownOk (unregister_run owner thread turn_id identity w).
Proof.
  intros Hok Hsh. unfold unregister_run. destruct (owned_record owner thread w) as [[a r]|] eqn:Ho; [|done].
  apply owned_record_Ok in Ho as [[_ Ha]%record_of_Ok _].
  destruct (unregister_locked_ok turn_id identity r) as (_ & Hk & He & Hs); [by eapply record_ok|].
  apply ShownOk_record; [done|]. intros th Hth.
  eapply Agrees_same; [by eapply Hsh|done|done|by apply Hk|by apply same_flights_refl].
Qed.

Lemma Agrees_begin C r r' key entry :
  Agrees C r → Kin r r' → ir_entries r' = <[key := Pending entry]> (ir_entries r) →
  (ir_entries r !! key = None) → (∀ k, k ∈ shown r' ↔ k ∈ shown r ∨ (ir_enabled r = true ∧ k = key)) → Agrees C r'.
Proof.
  intros [Hs Hf] Hkin He Hfresh Hsh. pose proof (kin_enabled _ _ Hkin) as Hen. split; rewrite Hen.
  - intros Hen' Hroom k Hk. unfold waits, in_flight. rewrite He. destruct (decide (k = key)) as [->|Hne].
    + left. exists entry. apply lookup_insert_eq.
    + rewrite lookup_insert_ne by done. apply Hs; [done|by eapply roomy_kin|]. apply Hsh in Hk. naive_solver.
  - intros Hen' k (d & g & ty & n & Hk & Hn). rewrite He in Hk. apply lookup_insert_Some in Hk as [[_ [=]]|[Hne Hk]].
    apply Hsh. left. apply Hf; [done|]. by exists d, g, ty, n.
Qed.

Lemma shown_begin now context request_id request origin w answer w' :
  WorldOk w → ShownOk w → begin_interaction now context request_id request origin w = (answer, w') → ShownOk w'.
Proof.
  unfold begin_interaction. intros Hok Hsh Hb. destruct (validate_interaction_request request) as [u|]; [|by injection Hb as _ <-].
  destruct (record_of (ctx_thread_id context) w) as [[a r]|] eqn:Hrec; simpl in Hb; [|by injection Hb as _ <-].
  apply record_of_Ok in Hrec as [_ Ha].
  destruct (begin_locked _ _ _ _ _ _ r) as [[generation|e] r'] eqn:Hl; injection Hb as _ <-;
    (apply begin_locked_spec in Hl as (Hr' & Hkin & Hl); [|by eapply record_ok]).
  - destruct Hl as (-> & Hgen & Hg & Hent & Hshown). apply begin_guards_Ok in Hg as (_ & _ & Hfresh & _).
    apply (ShownOk_frame (put_record a r' w)); try done. apply ShownOk_record; [done|]. intros th Hth.
    eapply Agrees_begin; [by eapply Hsh|done|done| |done].
    destruct (ir_entries r !! (ctx_turn_id context, request_id)) as [s|] eqn:Hk; [|done].
    by destruct (Hfresh (ctx_turn_id context, request_id)).
  - destruct Hl as [Hent Hsn]. apply ShownOk_record; [done|]. intros th Hth.
    eapply Agrees_same; [by eapply Hsh|done|done|by apply Hkin|by apply same_flights_refl].
Qed.

Lemma shown_drop w t : ShownOk w → ShownOk (drop_receiver t w).
Proof. intros Hsh. unfold drop_receiver. by destruct (iw_tickets w !! t) as [[]|]. Qed.

Lemma shown_clear_run now owner thread turn_id cause w :
  WorldOk w → ShownOk w → cause ∈ REMOVAL_CAUSES → ShownOk (clear_run now owner thread turn_id cause w).
Proof.
  intros Hok Hsh Hc. unfold clear_run. destruct (owned_record owner thread w) as [[a r]|] eqn:Ho; [|done].
  apply owned_record_Ok in Ho as [[_ Ha]%record_of_Ok _].
  pose proof (clear_run_locked_Cleared now turn_id cause r) as Hl. destruct (clear_run_locked now turn_id cause r) as [r' senders].
  destruct Hl as [Hl _]; [by eapply record_ok|done|]. by eapply ShownOk_cleared.
Qed.

Lemma shown_clear_exact now thread turn_id request_id generation cause w :
  WorldOk w → ShownOk w → cause ∈ REMOVAL_CAUSES → ShownOk (clear_exact now thread turn_id request_id generation cause w).
Proof.
  intros Hok Hsh Hc. unfold clear_exact. destruct (record_of thread w) as [[a r]|] eqn:Ho; [|done].
  apply record_of_Ok in Ho as [_ Ha].
  pose proof (clear_exact_locked_Cleared now turn_id request_id generation cause r) as Hl.
  destruct (clear_exact_locked now turn_id request_id generation cause r) as [[r' sender]|]; [|done].
  exact (ShownOk_cleared _ _ _ _ _ _ Hsh Ha (Hl (record_ok _ _ _ Hok Ha) Hc)).
Qed.

Lemma shown_retire owner thread turn_id identity w :
  WorldOk w → ShownOk w → run_is_quiet thread turn_id w → ShownOk (interactions_retire_run owner thread turn_id identity w).2.
Proof.
  intros Hok Hsh Hquiet. unfold interactions_retire_run. destruct (owned_record owner thread w) as [[a r]|] eqn:Ho; [|done].
  apply owned_record_Ok in Ho as [Hrec _]. pose proof (record_of_Ok _ _ _ _ Hrec) as [_ Ha].
  pose proof (retire_locked_spec turn_id identity r (record_ok _ _ _ Hok Ha)) as Hl.
  destruct (retire_locked turn_id identity r) as [answer r']. destruct Hl as (_ & Hkin & Hsn & Hl). simpl.
  apply ShownOk_record; [done|]. intros th Hth. pose proof (Hsh _ _ _ Hth Ha) as [Hs Hf].
  destruct Hl as [->|(_ & _ & Hnone & He & _)]; [done|]. pose proof (kin_enabled _ _ Hkin) as Hen.
  assert (shown r' = shown r) as Hsr by (unfold shown, ir_pending; by rewrite Hsn). split; rewrite Hen, Hsr.
  - intros Hen' Hroom k Hk. destruct (Hs Hen' (roomy_kin _ _ Hkin Hroom) k Hk) as [[e Hke]|(d & g & ty & n & Hke & Hn)].
    + left. exists e. rewrite He. apply map_lookup_filter_Some. split; [done|]. simpl. intros Heq.
      apply (Hnone k.2 e). by rewrite <-Heq, <-surjective_pairing.
    + right. exists d, g, ty, n. split; [|done]. rewrite He. apply map_lookup_filter_Some. split; [done|]. simpl. intros Heq.
      apply (Hquiet a r k.2 d g ty n Hrec); [|done]. by rewrite <-Heq, <-surjective_pairing.
  - intros Hen' k (d & g & ty & n & Hke & Hn). rewrite He in Hke. apply map_lookup_filter_Some in Hke as [Hke _].
    apply Hf; [done|]. by exists d, g, ty, n.
Qed.

Lemma shown_close now owner thread cause w :
  WorldOk w → ShownOk w → cause ∈ REMOVAL_CAUSES → ShownOk (close_session now owner thread cause w).
Proof.
  intros Hok Hsh Hc. unfold close_session. destruct (owned_record owner thread w) as [[a r]|]; [|done].
  eapply ShownOk_frame; [|apply delete_subseteq|done|done]. generalize (entry_order (ir_entries r)).*1 as turns. intros turns.
  revert w Hok Hsh. induction turns as [|turn turns IH]; intros w Hok Hsh; simpl; [done|].
  apply IH; [by apply step_clear_run|by apply shown_clear_run].
Qed.

(** ** Responses *)

(** The commit [c] carries the identity of transaction [tx]. *)
Definition identifies w tx c : Prop :=
  cm_thread_id c = rp_thread_id (tx_params tx) ∧ (cm_turn_id c, cm_request_id c) = tx_key tx ∧
  cm_digest c = tx_digest w tx ∧ tx_generation tx = Some (cm_generation c).

(** The one entry that a response resolved is the one its commit matches. *)
Lemma entry_of_leader w i tx n t c a r k digest generation typed :
  WorldOk w → iw_transactions w !! i = Some tx → leads_response tx n t → identifies w tx c →
  iw_heap w !! a = Some r → ir_entries r !! k = Some (Resolved digest generation typed n) →
  a = tx_record tx ∧ k = tx_key tx ∧ resolved_matches (tx_key tx) (cm_generation c) (cm_digest c) r = true.
Proof.
  intros Hok Hi Hl (_ & _ & Hd & Hg) Ha Hk. destruct (wk_resolved _ Hok _ _ _ _ _ _ _ Ha Hk) as (j & tx' & t' & Hj & Hl' & Hr & Hkey & Hdig & Hgen).
  assert (j = i) as -> by (eapply (wk_leaders _ Hok j i); eauto). simplify_eq. split_and!; [done|done|].
  apply resolved_matches_true. exists (tx_digest w tx), typed, n. rewrite Hd. destruct Hgen as [Hgen|Hgen]; [congruence|].
  split; [congruence|]. unfold constant_time_eq. by apply bool_decide_eq_true_2.
Qed.

(** What the record is like once a response has been published or given up. *)
Definition settles k generation digest r r' : Prop :=
  Kin r r' ∧
  if resolved_matches k generation digest r then
    (ir_entries r' = ir_entries r ∨ ir_entries r' = delete k (ir_entries r)) ∧
    (ir_enabled r = true → ∀ k', k' ∈ shown r' ↔ k' ∈ shown r ∧ k' ≠ k)
  else r' = r.

(** A response is settled in its record and its completion is decided in one step. *)
Lemma ShownOk_settled w w' i tx n t c a r r' o :
  WorldOk w → ShownOk w → iw_transactions w !! i = Some tx → leads_response tx n t → identifies w tx c →
  record_of (cm_thread_id c) w = Ok (a, r) →
  settles (tx_key tx) (cm_generation c) (cm_digest c) r r' →
  iw_records w' = iw_records w → iw_heap w' = <[a := r']> (iw_heap w) →
  iw_completions w' = <[n := Some o]> (iw_completions w) → ShownOk w'.
Proof.
  intros Hok Hsh Hi Hl Hid Hrec [Hkin Hset] Hrecs Hheap HC. pose proof Hid as (Hth & _ & _ & Hg).
  apply (record_of_thread _ _ _ _ Hok) in Hrec as [Ha Hthr].
  assert (∀ a0 r0 k d g ty n0, iw_heap w !! a0 = Some r0 → ir_entries r0 !! k = Some (Resolved d g ty n0) →
    (n0 = n → a0 = tx_record tx ∧ k = tx_key tx ∧ resolved_matches (tx_key tx) (cm_generation c) (cm_digest c) r0 = true)) as Hentry.
  { intros a0 r0 k d g ty n0 Ha0 Hk0 ->. by eapply entry_of_leader. }
  assert (tx_record tx = a) as Hat.
  { destruct (wk_places _ Hok _ _ Hi) as (r1 & Hr1 & Ht1). eapply (wk_threads _ Hok); [done|done|congruence]. }
  assert (∀ n0, n0 ≠ n → iw_completions w' !! n0 = Some None ↔ iw_completions w !! n0 = Some None) as Hother.
  { intros n0 Hne. by rewrite HC, lookup_insert_ne. }
  eapply ShownOk_update; [done|by rewrite Hrecs|done| |].
  2:{ intros a0 r0 Hne Ha0 k d g ty n0 Hk0. apply Hother. intros ->. destruct (Hentry _ _ _ _ _ _ _ Ha0 Hk0 eq_refl). congruence. }
  intros thread Hreg. pose proof (Hsh _ _ _ Hreg Ha) as [Hs Hf].
  destruct (resolved_matches _ _ _ r) eqn:Hm.
  2:{ subst r'. eapply Agrees_same; [by split|done|done|done|]. intros k d g ty n0 Hk0. apply Hother. intros ->.
      destruct (Hentry _ _ _ _ _ _ _ Ha Hk0 eq_refl) as (_ & _ & ?). congruence. }
  destruct Hset as [Hent Hshown]. pose proof (kin_enabled _ _ Hkin) as Hen.
  assert (∀ k, k ≠ tx_key tx → ir_entries r' !! k = ir_entries r !! k) as Hsame.
  { intros k Hne. destruct Hent as [->| ->]; [done|]. by apply lookup_delete_ne. }
  split; rewrite Hen.
  - intros Hen' Hroom k [Hk Hne]%(Hshown Hen').
    unfold waits, in_flight. rewrite (Hsame _ Hne). destruct (Hs Hen' (roomy_kin _ _ Hkin Hroom) k Hk) as [?|(d & g & ty & n0 & Hk0 & Hn0)]; [by left|right].
    exists d, g, ty, n0. split; [done|]. apply Hother; [|done]. intros ->. by destruct (Hentry _ _ _ _ _ _ _ Ha Hk0 eq_refl) as (_ & ? & _).
  - intros Hen' k (d & g & ty & n0 & Hk0 & Hn0).
    assert (n0 ≠ n) as Hne0 by (intros ->; by rewrite HC, lookup_insert_eq in Hn0).
    apply (Hother _ Hne0) in Hn0.
    assert (ir_entries r !! k = Some (Resolved d g ty n0)) as Hkr.
    { destruct Hent as [He|He]; rewrite He in Hk0; [done|]. by apply lookup_delete_Some in Hk0 as [_ ?]. }
    apply (Hshown Hen'). split; [apply Hf; [done|by exists d, g, ty, n0]|]. intros ->.
    apply resolved_matches_true in Hm as (saved & ty' & n' & Hk' & _). rewrite Hkr in Hk'. injection Hk' as -> -> -> ->.
    destruct (wk_owned _ Hok _ _ _ _ Hi Hl (cm_generation c) r (tx_key tx)
      (Resolved saved (cm_generation c) ty' n') Hg ltac:(by rewrite Hat)) as [_ Huse].
    destruct (Huse Hkr eq_refl) as (_ & ? & [=]). congruence.
Qed.

Lemma ShownOk_gone w w' i tx n t c e o :
  WorldOk w → ShownOk w → iw_transactions w !! i = Some tx → leads_response tx n t → identifies w tx c →
  record_of (cm_thread_id c) w = Err e →
  iw_records w' = iw_records w → iw_heap w' = iw_heap w → iw_completions w' = <[n := Some o]> (iw_completions w) → ShownOk w'.
Proof.
  intros Hok Hsh Hi Hl Hid Hrec Hrecs Hheap HC thread a r Hth Ha. rewrite Hrecs in Hth. rewrite Hheap in Ha.
  eapply Agrees_same; [by eapply Hsh|done|done|done|]. intros k d g ty n0 Hk0. rewrite HC, lookup_insert_ne; [done|]. intros <-.
  pose proof Hid as (Heq & _). destruct (entry_of_leader _ _ _ _ _ _ _ _ _ _ _ _ Hok Hi Hl Hid Ha Hk0) as (-> & _ & _).
  destruct (wk_places _ Hok _ _ Hi) as (r1 & Hr1 & Ht1). destruct (wk_records _ Hok _ _ Hth) as (r2 & Hr2 & Ht2). simplify_eq.
  unfold record_of in Hrec. rewrite Heq, <-Ht1, Hth in Hrec. simpl in Hrec. by rewrite Ha in Hrec.
Qed.

Lemma abort_settles now k generation digest cause r :
  RecordOk r → settles k generation digest r (abort_resolved_locked now k generation digest cause r).
Proof.
  intros Hok. destruct (abort_resolved_spec now k generation digest cause r Hok) as (_ & Hkin & He). split; [done|].
  destruct (resolved_matches k generation digest r); [|done]. destruct He as (He & Hs & _). split; [by right|done].
Qed.

(** A response is given up, whatever else the step does to channels and transactions. *)
Lemma shown_given_up w w' i tx c n t now cause o :
  WorldOk w → ShownOk w → iw_transactions w !! i = Some tx → leads_response tx n t → identifies w tx c →
  iw_records w' = iw_records w → iw_heap w' = iw_heap (abort_resolution now c cause w) →
  iw_completions w' = <[n := Some o]> (iw_completions w) → ShownOk w'.
Proof.
  intros Hok Hsh Hi Hl Hid Hrecs Hheap HC. unfold abort_resolution in Hheap. pose proof Hid as (_ & Hkey & _).
  destruct (record_of (cm_thread_id c) w) as [[a r]|e] eqn:Hrec; [|by eapply ShownOk_gone].
  pose proof (record_of_thread _ _ _ _ Hok Hrec) as [Ha _]. rewrite Hkey in Hheap.
  eapply ShownOk_settled; [done|done|done|done|done|done| |done|exact Hheap|done].
  apply abort_settles. by eapply record_ok.
Qed.

Lemma leader_identifies w tx generation typed n t :
  tx_phase tx = Claiming (leader_commit w tx generation typed n t) → identifies w tx (leader_commit w tx generation typed n t).
Proof. intros Hph. unfold identifies, tx_generation. by rewrite Hph. Qed.
Lemma staged_identifies w tx generation typed n t :
  tx_phase tx = Staging (staged_commit w tx generation typed n t) ∨ tx_phase tx = Checked (staged_commit w tx generation typed n t) →
  identifies w tx (staged_commit w tx generation typed n t).
Proof. unfold identifies, tx_generation. by intros [-> | ->]. Qed.

Lemma shown_signal w w' i tx c n t now cause o error :
  WorldOk w → ShownOk w → iw_transactions w !! i = Some tx → Undecided w tx c n t → identifies w tx c →
  w' = signal_completion o c (tell_continuation error c (abort_resolution now c cause w)) → ShownOk w'.
Proof.
  intros Hok Hsh Hi Hu Hid ->. destruct (abort_resolution_ok now c cause w Hok) as [_ (_ & HC & _ & _ & _ & Hrecs)].
  rewrite (tell_one _ _ t) by apply Hu. unfold signal_completion. rewrite (un_completion _ _ _ _ _ Hu).
  destruct (send_error_frame (abort_resolution now c cause w) t error) as (Hx1 & Hx2 & Hx3 & _).
  eapply shown_given_up; [done|done|done|apply Hu|done|by rewrite <-Hrecs, <-Hx1|exact Hx2|].
  simpl. by rewrite Hx3, HC.
Qed.

Lemma shown_abort w i tx c n t now cause f :
  WorldOk w → ShownOk w → iw_transactions w !! i = Some tx → Undecided w tx c n t → identifies w tx c →
  ShownOk (abort_commit now cause f c w).
Proof. intros Hok Hsh Hi Hu Hid. by apply (shown_signal w _ i tx c n t now cause (Err f) (into_core f)). Qed.

Lemma shown_claim i tx now generation answer w w' :
  WorldOk w → ShownOk w → iw_transactions w !! i = Some tx → tx_phase tx = Peeking generation →
  claim_response now (tx_record tx) generation (tx_params tx) (tx_require_enabled tx) w = (answer, w') → ShownOk w'.
Proof.
  intros Hok Hsh Hi Hpeek Hc. destruct (wk_places _ Hok _ _ Hi) as (r & Hr & _). unfold claim_response in Hc. rewrite Hr in Hc.
  destruct (claim_locked _ _ _ _ _ _ _ _) as [[[typed n|typed sender n]|e] r'] eqn:Hl; injection Hc as _ <-;
    (apply claim_locked_spec in Hl; [|by eapply record_ok]).
  - destruct Hl as (-> & _). apply ShownOk_record; [done|]. intros th Hth. by eapply Hsh.
  - destruct Hl as (entry & Hk & _ & -> & _ & _ & _ & ->).
    set (r' := set_ir_entries _ r).
    assert (∀ a0 r0 k d g ty n, iw_heap w !! a0 = Some r0 → ir_entries r0 !! k = Some (Resolved d g ty n) → n ≠ iw_next w) as Hne.
    { intros a0 r0 k d g ty n Ha0 Hk0. destruct (wk_resolved _ Hok _ _ _ _ _ _ _ Ha0 Hk0) as (j & tx' & t & Hj & Hlead & _).
      by destruct (leader_fresh _ _ _ _ _ Hok Hj Hlead). }
    eapply (ShownOk_update w _ (tx_record tx) r'); [done|done|done| |].
    2:{ intros a0 r0 _ Ha0 k d g ty n Hk0. simpl. rewrite lookup_insert_ne; [done|]. intros <-. by eapply Hne. }
    intros th Hth. pose proof (Hsh _ _ _ Hth Hr) as [Hs Hf]. split.
    + intros Hen Hroom k Hks. unfold waits, in_flight. simpl. destruct (decide (k = (rp_turn_id (tx_params tx), rp_request_id (tx_params tx)))) as [->|Hnk].
      * right. rewrite lookup_insert_eq. do 4 eexists. split; [done|]. apply lookup_insert_eq.
      * rewrite lookup_insert_ne by done. destruct (Hs Hen Hroom k Hks) as [?|(d & g & ty & n & Hk0 & Hn)]; [by left|right].
        exists d, g, ty, n. split; [done|]. rewrite lookup_insert_ne; [done|]. intros <-. by eapply Hne.
    + intros Hen k (d & g & ty & n & Hk0 & Hn). simpl in Hk0, Hn. apply lookup_insert_Some in Hk0 as [[<- _]|[Hnk Hk0]].
      * apply (rk_shown _ (record_ok _ _ _ Hok Hr) Hen) in Hk. unfold shown. apply list_elem_of_fmap. eexists. split; [|exact Hk]. done.
      * apply Hf; [done|]. exists d, g, ty, n. split; [done|]. rewrite lookup_insert_ne in Hn; [done|]. intros <-. by eapply Hne.
  - apply ShownOk_record; [done|]. intros th Hth. destruct Hl as [->|(entry & _ & _ & Hcl)]; [by eapply Hsh|].
    eapply Agrees_cleared; [by eapply Hsh|done].
Qed.

Lemma shown_stage i tx c now answer w w' :
  WorldOk w → ShownOk w → iw_transactions w !! i = Some tx → tx_phase tx = Claiming c → cm_newly_resolved c = true →
  stage_delivery now c w = (answer, w') → ShownOk w'.
Proof.
  intros Hok Hsh Hi Hph Hnew Hs. pose proof (wk_phases _ Hok _ _ Hi) as Hp. rewrite Hph in Hp.
  destruct (undecided_claiming _ _ _ Hp Hph Hnew) as (n & t & g & typed & Hu & ->).
  pose proof (leader_identifies _ _ _ _ _ _ Hph) as Hid.
  unfold stage_delivery, send_delivery in Hs. simpl in Hs. destruct (un_state _ _ _ _ _ Hu) as [Ht|Ht]; simpl in Ht; rewrite Ht in Hs;
    injection Hs as _ <-; [done|].
  destruct (abort_resolution_ok now (leader_commit w tx g typed n t) REMOVAL_ORIGIN_FINISHED w Hok) as [_ (_ & HC & _ & _ & _ & Hrecs)].
  apply (shown_given_up w _ i tx (leader_commit w tx g typed n t) n t now REMOVAL_ORIGIN_FINISHED (Err failure_inactive));
    [done|done|done|apply Hu|exact Hid|exact Hrecs|done|]. simpl. by rewrite HC.
Qed.

Lemma shown_publication_failed i tx c now f w :
  WorldOk w → ShownOk w → iw_transactions w !! i = Some tx → tx_phase tx = Staging c →
  ShownOk (abort_commit now REMOVAL_PUBLICATION_FAILED f c w).
Proof.
  intros Hok Hsh Hi Hph. pose proof (wk_phases _ Hok _ _ Hi) as Hp. rewrite Hph in Hp.
  destruct (undecided_staging _ _ _ Hp Hph) as (n & t & g & typed & Hu & ->).
  apply (shown_abort w i tx _ n t); [done|done|done|exact Hu|by apply staged_identifies; left].
Qed.

Lemma shown_drop_commit i tx c now w :
  WorldOk w → ShownOk w → iw_transactions w !! i = Some tx → tx_phase tx = Claiming c ∨ tx_phase tx = Staging c →
  ShownOk (drop_commit now c w).
Proof.
  intros Hok Hsh Hi Hph. pose proof (wk_phases _ Hok _ _ Hi) as Hp. unfold drop_commit.
  destruct (is_none (cm_sender c) && is_none (cm_delivery_commit c)) eqn:Hch; [done|].
  assert (∃ n t, Undecided w tx c n t ∧ identifies w tx c) as (n & t & Hu & Hid).
  { destruct Hph as [Hph|Hph]; rewrite Hph in Hp.
    - destruct (cm_newly_resolved c) eqn:Hnew.
      + destruct (undecided_claiming _ _ _ Hp Hph Hnew) as (n & t & g & ty & Hu & ->). exists n, t. split; [done|]. by apply leader_identifies.
      + by destruct (claiming_follower _ _ _ Hp Hnew) as (typed & n & -> & _).
    - destruct (undecided_staging _ _ _ Hp Hph) as (n & t & g & ty & Hu & ->). exists n, t. split; [done|]. apply staged_identifies. by left. }
  rewrite (un_new _ _ _ _ _ Hu). by eapply shown_signal.
Qed.

Lemma shown_check i tx c now answer w w' :
  WorldOk w → ShownOk w → iw_transactions w !! i = Some tx → tx_phase tx = Staging c → release_check now c w = (answer, w') →
  ShownOk w'.
Proof.
  intros Hok Hsh Hi Hph. pose proof (wk_phases _ Hok _ _ Hi) as Hp. rewrite Hph in Hp.
  destruct (undecided_staging _ _ _ Hp Hph) as (n & t & g & typed & Hu & ->). unfold release_check.
  destruct (is_some_and _ _); intros [= _ <-]; [|done].
  apply (shown_abort w i tx _ n t); [done|done|done|exact Hu|by apply staged_identifies; left].
Qed.

Lemma publish_disabled now key generation digest r :
  RecordOk r → ir_enabled r = false → (publish_resolved_locked now key generation digest r).2 = r.
Proof.
  intros Hok Hen. unfold publish_resolved_locked. destruct (resolved_matches key generation digest r); [|done].
  by rewrite commit_if_enabled_eq, Hen.
Qed.

Lemma shown_release i tx c now answer w w' :
  WorldOk w → ShownOk w → iw_transactions w !! i = Some tx → tx_phase tx = Checked c → release_publish now c w = (answer, w') →
  ShownOk w'.
Proof.
  intros Hok Hsh Hi Hph. pose proof (wk_phases _ Hok _ _ Hi) as Hp. rewrite Hph in Hp.
  destruct (undecided_checked _ _ _ Hp Hph) as (n & t & g & typed & Hu & ->).
  set (c := staged_commit w tx g typed n t) in *.
  assert (identifies w tx c) as Hid by (apply staged_identifies; by right). unfold release_publish.
  destruct (publish_resolution _ _ w) as [answer1 w1] eqn:Hpub.
  destruct (publish_resolution_ok _ _ _ _ _ Hok Hpub) as [Hok1 Honly].
  pose proof Honly as (_ & HC & Htx & _ & Hdk & Hrecs). unfold publish_resolution in Hpub.
  destruct answer1 as [[]|e]; intros [= _ <-].
  - destruct (record_of (cm_thread_id c) w) as [[a r]|] eqn:Hrec; [|done].
    destruct (publish_resolved_locked _ _ _ _ r) as [answer2 r'] eqn:Hp2. injection Hpub as -> <-.
    pose proof (record_of_thread _ _ _ _ Hok Hrec) as [Ha _].
    apply publish_resolved_spec in Hp2 as (_ & Hkin & He & Hm & Hs & _); [|by apply (record_ok w a)].
    eapply (ShownOk_settled w _ i tx n t c a r r' (Ok ())); try done; [apply Hu|..].
    + split; [done|]. destruct Hid as (_ & <- & _). rewrite Hm. split; [by left|]. intros Hen. by apply Hs.
    + unfold signal_completion. simpl. unfold commit_delivery. simpl. by destruct (iw_tickets w !! t) as [[]|].
    + unfold signal_completion. simpl. unfold commit_delivery. simpl. by destruct (iw_tickets w !! t) as [[]|].
    + unfold signal_completion. simpl. unfold commit_delivery. simpl. by destruct (iw_tickets w !! t) as [[]|].
  - assert (ShownOk w1) as Hsh1.
    { destruct (record_of (cm_thread_id c) w) as [[a r]|] eqn:Hrec; [|by injection Hpub as _ <-].
      destruct (publish_resolved_locked _ _ _ _ r) as [answer2 r'] eqn:Hp2. injection Hpub as -> <-.
      pose proof (record_of_thread _ _ _ _ Hok Hrec) as [Ha _].
      apply publish_resolved_spec in Hp2 as (_ & _ & _ & ->); [|by apply (record_ok w a)].
      apply ShownOk_record; [done|]. intros th Hth. by eapply Hsh. }
    apply (shown_abort w1 i tx _ n t); [done|done|by rewrite Htx|by eapply Undecided_records|].
    destruct Hid as (? & ? & Hd & ?). split_and!; try done. unfold tx_digest in *. by rewrite Hdk.
Qed.

(** ** Histories *)

Lemma complete_follower now c w answer w' :
  cm_newly_resolved c = false → complete now c w = Some (answer, w') → w' = w.
Proof.
  unfold complete. intros -> Hc. destruct (cm_completion c) as [[n|n]|]; [by injection Hc as _ <-| |by injection Hc as _ <-].
  destruct (iw_completions w !! n) as [[o|]|]; [by injection Hc as _ <-|done..].
Qed.

Lemma lives_on_shown w w' : lives_on true w w' → WorldOk w → ShownOk w → ShownOk w'.
Proof.
  intros Hstep Hok Hsh. destruct Hstep.
  - by eapply shown_insert.
  - by eapply shown_register.
  - by apply shown_unregister.
  - by eapply shown_begin.
  - by apply shown_drop.
  - by apply shown_clear_run.
  - by apply shown_clear_exact.
  - apply shown_retire; auto.
  - by apply shown_close.
  - done.
  - change (ShownOk w'). by eapply (shown_claim i tx).
  - change (ShownOk w'). by eapply (shown_stage i tx).
  - change (ShownOk (abort_commit now REMOVAL_PUBLICATION_FAILED (failure_projection error) c w)).
    by eapply (shown_publication_failed i tx).
  - change (ShownOk (drop_commit now c w)). by eapply (shown_drop_commit i tx).
  - change (ShownOk w'). by eapply (shown_check i tx).
  - change (ShownOk w'). by eapply (shown_release i tx).
  - change (ShownOk w'). rename select (complete _ _ _ = _) into Hc. by apply complete_follower in Hc as ->.
Qed.

Lemma lived_shown limits digest_key w : lived true limits digest_key w → ShownOk w.
Proof.
  intros Hl. enough (WorldOk w ∧ ShownOk w) by naive_solver. revert Hl. unfold lived. apply (rtc_ind_r (λ w, WorldOk w ∧ ShownOk w)).
  - split; [apply WorldOk_empty|]. intros th a r Hth. simpl in Hth. by rewrite lookup_empty in Hth.
  - intros w1 w2 _ Hs [Hok Hsh]. split; [by eapply lives_on_ok|by eapply lives_on_shown].
Qed.
End shown.
