(* ===== verification/InteractionHistory.v ===== *)
(** * What the events of a session tell a client that was away

    Every change of a session's snapshot is an event, and the journal holds the last of
    them in order: a client that applies the events after its snapshot has the current
    one. *)

From S2P Require Import Prelude EventJournal Protocol StoreState CoreSession SessionManagement Interactions InteractionRecord InteractionServer InteractionLaws InteractionBlocks InteractionInvariant InteractionSteps.

(** What a client does with an event. *)
Definition take_in `{Externals} (s : InteractionSnapshot) (e : InteractionEventEnvelope) :
    result InteractionProjectionError InteractionSnapshot :=
  '(s', _) ← apply_interaction s e; Ok s'.

Section history.
Context `{HE : Externals} `{HS : SchemaExternals} `{HV : EventExternals} `{HL : !EventLaws} `{HD : DigestExternals} `{HM : MapOrder}.
Implicit Types (w : Interactions) (r : InteractionRecord) (k : string * string).

(** Between [r] and [r'] the snapshot has changed by events that the journal has in order. *)
Record Tells r r' : Prop := {
  te_thread : is_thread_id (ir_snapshot r') = is_thread_id (ir_snapshot r);
  te_seq : (ic_seq (ir_cursor r) <= ic_seq (ir_cursor r'))%N;
  te_journal : JournalOk r → JournalOk r';
  te_events : JournalOk r → roomy r' → ∃ es,
    fold_res take_in (ir_snapshot r) es = Ok (ir_snapshot r') ∧ leads (ir_cursor r) es (ir_cursor r') ∧
    ∃ pre, (je_event <$> ir_journal r) ++ es = pre ++ (je_event <$> ir_journal r');
}.

#[export] Instance Tells_preorder : PreOrder Tells.
Proof.
  split.
  - intros r. split; [done|done|done|]. intros _ _. exists []. split_and!; [done|done|]. exists []. by rewrite app_nil_r.
  - intros r r1 r2 [Ht1 Hs1 Hj1 He1] [Ht2 Hs2 Hj2 He2]. split; [congruence|lia|auto|]. intros Hj Hroom.
    destruct (He1 Hj) as (es1 & Hf1 & Hl1 & pre1 & Hp1); [unfold roomy in *; lia|].
    destruct (He2 (Hj1 Hj) Hroom) as (es2 & Hf2 & Hl2 & pre2 & Hp2). exists (es1 ++ es2). split_and!.
    + rewrite fold_res_app, Hf1. done.
    + apply leads_app. eauto.
    + exists (pre1 ++ pre2). by rewrite app_assoc, Hp1, <-!app_assoc, Hp2.
Qed.

(** Nothing that a client sees has changed, or the journal has lost its oldest events. *)
Lemma Tells_same r r' pre :
  ir_snapshot r' = ir_snapshot r → (JournalOk r → JournalOk r') → ir_journal r = pre ++ ir_journal r' → Tells r r'.
Proof.
  intros Hs Hj Hpre. unfold ir_cursor. split; unfold ir_cursor; rewrite ?Hs; [done|done|done|]. intros _ _. exists [].
  split_and!; [done|done|]. exists (je_event <$> pre). by rewrite Hpre, fmap_app, app_nil_r.
Qed.

Lemma Tells_fields r r' :
  ir_snapshot r' = ir_snapshot r → ir_journal r' = ir_journal r → ir_journal_bytes r' = ir_journal_bytes r →
  ir_replay_floor r' = ir_replay_floor r → ir_limits r' = ir_limits r → Tells r r'.
Proof.
  intros Hs Hj Hb Hf Hl. apply (Tells_same _ _ []); [done| |by rewrite Hj].
  intros []. split; unfold ir_cursor in *; by rewrite ?Hj, ?Hb, ?Hf, ?Hl, ?Hs.
Qed.

Lemma Tells_commit payload r r' e : Committed payload r r' e → Tells r r'.
Proof.
  intros Hc. pose proof (co_applied _ _ _ _ Hc) as [_ Hev _ Hn Hcur Ht _].
  pose proof (proj1 (cursor_next_Ok _ _) Hn) as (_ & _ & Hseq & _). split; [done|..].
  - unfold ir_cursor. rewrite Hcur. lia.
  - intros Hj. by apply (co_journal _ _ _ _ Hc).
  - intros Hj _. destruct (co_journal _ _ _ _ Hc Hj) as [_ [pre Hpre]]. exists [e]. split_and!.
    + simpl. unfold take_in. by rewrite (co_applies _ _ _ _ Hc).
    + simpl. unfold ir_cursor. by rewrite Hcur.
    + by exists pre.
Qed.

Lemma Tells_try_commit now payload r : Tells r (try_commit now payload r).
Proof.
  unfold try_commit. destruct (ir_enabled r); [|done]. destruct (commit now payload r) as [[r' e]|] eqn:Hc; [|done].
  eapply Tells_commit. by eapply commit_Ok.
Qed.

Lemma Tells_commit_if_enabled {E} (wrap : string → E) now payload r answer r' :
  commit_if_enabled wrap now payload r = (answer, r') → Tells r r'.
Proof. intros Hc. pose proof (commit_if_enabled_record wrap now payload r) as He. rewrite Hc in He. simpl in He. subst. apply Tells_try_commit. Qed.

(** ** The blocks *)

Lemma Tells_clear_run now turn_id cause r : Tells r (clear_run_locked now turn_id cause r).1.
Proof.
  unfold clear_run_locked. generalize (pending_keys turn_id (ir_entries r)) as keys. intros keys.
  enough (∀ senders, Tells r (foldl (clear_key now cause) (r, senders) keys).1) by done.
  revert r. induction keys as [|key keys IH]; intros r senders; simpl; [done|].
  destruct (ir_entries r !! key) as [[entry|]|]; [| |apply IH].
  - etrans; [|apply IH]. etrans; [|apply Tells_try_commit]. by apply Tells_fields.
  - etrans; [|apply IH]. by apply Tells_fields.
Qed.

Lemma Tells_clear_exact now turn_id request_id generation cause r r' sender :
  clear_exact_locked now turn_id request_id generation cause r = Some (r', sender) → Tells r r'.
Proof.
  unfold clear_exact_locked. destruct (ir_entries r !! (turn_id, request_id)) as [[entry|]|]; [|done..].
  case_decide; [|done]. intros [= <- _]. etrans; [|apply Tells_try_commit]. by apply Tells_fields.
Qed.

Lemma Tells_begin now turn_id request_id request origin sender r answer r' :
  begin_locked now turn_id request_id request origin sender r = (answer, r') → Tells r r'.
Proof.
  unfold begin_locked, mbind, eff_bind, gets, lift, modify, mret, eff_ret.
  destruct (begin_guards turn_id request_id request r); [|by intros [= _ <-]].
  destruct (checked_add (ir_next_generation r) 1) as [next|]; simpl; [|by intros [= _ <-]].
  set (r1 := set_ir_next_generation next r). assert (Tells r r1) as Ht1 by by apply Tells_fields.
  destruct (PendingInteraction_new request_id turn_id request); simpl; [|by intros [= _ <-]].
  destruct (commit_if_enabled _ _ _ r1) as [[[]|e] r2] eqn:Hc; intros [= _ <-];
    apply Tells_commit_if_enabled in Hc; (etrans; [exact Ht1|]); [|done].
  etrans; [exact Hc|]. by apply Tells_fields.
Qed.

Lemma Tells_claim closed now key digest generation require_enabled completion r answer r' :
  claim_locked closed now key digest generation require_enabled completion r = (answer, r') → Tells r r'.
Proof.
  unfold claim_locked. destruct (require_enabled && _); [by intros [= _ <-]|].
  destruct (ir_entries r !! key) as [[entry|previous g typed n]|]; [| |by intros [= _ <-]].
  - destruct (decide _); [|by intros [= _ <-]]. destruct (closed _).
    + unfold mbind, eff_bind, lift.
      destruct (commit_if_enabled _ _ _ (set_ir_entries _ r)) as [[[]|err] r2] eqn:Hc; intros [= _ <-];
        apply Tells_commit_if_enabled in Hc; (etrans; [|exact Hc]); by apply Tells_fields.
    + intros [= _ <-]. by apply Tells_fields.
  - destruct (constant_time_eq previous digest); by intros [= _ <-].
Qed.

Lemma Tells_publish now key generation digest r answer r' :
  publish_resolved_locked now key generation digest r = (answer, r') → Tells r r'.
Proof.
  unfold publish_resolved_locked. destruct (resolved_matches key generation digest r); [|by intros [= _ <-]].
  apply Tells_commit_if_enabled.
Qed.

Lemma filter_b_all {A} (p : A → bool) l : (∀ x, x ∈ l → p x = true) → List.filter p l = l.
Proof.
  induction l as [|x l IH]; intros Hp; [done|]. simpl. rewrite Hp by left. f_equal. apply IH. intros y Hy. apply Hp. by right.
Qed.

Lemma filter_b_none {A} (p : A → bool) l : (∀ x, x ∈ l → p x = false) → List.filter p l = [].
Proof.
  induction l as [|x l IH]; intros Hp; [done|]. simpl. rewrite Hp by left. apply IH. intros y Hy. apply Hp. by right.
Qed.

Lemma Tells_abort now key generation digest cause r :
  RecordOk r → cause ∈ REMOVAL_CAUSES → Tells r (abort_resolved_locked now key generation digest cause r).
Proof.
  intros Hok Hcause. unfold abort_resolved_locked. destruct (resolved_matches key generation digest r); [|done].
  destruct (ir_enabled r); [|by apply Tells_fields].
  destruct (commit now _ r) as [[r1 e]|err] eqn:Hc.
  - etrans; [eapply Tells_commit; by eapply commit_Ok|]. by apply Tells_fields.
  - destruct (decide (key ∈ shown r)) as [Hin|Hout].
    + split; simpl; [done|done|by intros []; split|]. intros Hj Hroom.
      destruct (commit_removed_total now r key.2 key.1 cause) as (r' & e & Hc'); [apply Hok|done|by destruct key|done|congruence].
    + apply Tells_fields; try done. simpl. unfold ir_pending in *. rewrite filter_b_all; [by destruct (ir_snapshot r)|].
      intros p Hp. apply negb_true_iff. destruct (is_request key.1 key.2 p) eqn:Hr; [|done]. apply is_request_true in Hr.
      destruct Hout. apply list_elem_of_fmap. exists p. split; [|done]. by destruct key.
Qed.

Lemma Tells_retire turn_id identity r : RecordOk r → Tells r (retire_locked turn_id identity r).2.
Proof.
  intros Hok. unfold retire_locked. destruct (ir_run_identities r !! turn_id); [|done]. destruct (decide _); [|done].
  destruct (existsb _ _); [done|]. simpl.
  destruct (scrub_turn_spec turn_id r (rk_journal _ Hok)) as (Hj & (j & b & f & Hr) & (pre & Hpre) & _).
  etrans; [apply (Tells_same _ (scrub_turn turn_id r) pre); [by rewrite Hr|done|done]|by apply Tells_fields].
Qed.

(** ** The registry *)

(** Every record of [w] is still there in [w'], and its events tell what has changed. *)
Definition Extends w w' : Prop :=
  ∀ a r, iw_heap w !! a = Some r → ∃ r', iw_heap w' !! a = Some r' ∧ Tells r r'.

#[export] Instance Extends_preorder : PreOrder Extends.
Proof.
  split.
  - intros w a r Ha. by exists r.
  - intros w1 w2 w3 Hx1 Hx2 a r Ha. destruct (Hx1 _ _ Ha) as (r1 & Ha1 & ?), (Hx2 _ _ Ha1) as (r2 & Ha2 & ?).
    exists r2. split; [done|by etrans].
Qed.

Lemma Extends_heap w w' : iw_heap w' = iw_heap w → Extends w w'.
Proof. intros Heq a r Ha. exists r. by rewrite Heq. Qed.

Lemma Extends_put w w' a r r' :
  iw_heap w !! a = Some r → Tells r r' → iw_heap w' = <[a := r']> (iw_heap w) → Extends w w'.
Proof.
  intros Ha Ht Heq a0 r0 Ha0. rewrite Heq. destruct (decide (a0 = a)) as [->|Hne].
  - rewrite lookup_insert_eq. simplify_eq. by exists r'.
  - rewrite lookup_insert_ne by done. by exists r0.
Qed.

Lemma heap_send_errors e senders w : iw_heap (foldl (λ w sender, send_error e sender w) w senders) = iw_heap w.
Proof.
  revert w. induction senders as [|t senders IH]; intros w; simpl; [done|]. rewrite IH.
  by destruct (send_error_frame w t e) as (_ & -> & _).
Qed.

Lemma Extends_clear_run now owner thread turn_id cause w : Extends w (clear_run now owner thread turn_id cause w).
Proof.
  unfold clear_run. destruct (owned_record owner thread w) as [[a r]|] eqn:Ho; [|reflexivity].
  apply owned_record_Ok in Ho as [[_ Ha]%record_of_Ok _]. pose proof (Tells_clear_run now turn_id cause r) as Ht.
  destruct (clear_run_locked now turn_id cause r) as [r' senders]. eapply Extends_put; [done|exact Ht|apply heap_send_errors].
Qed.

Lemma Extends_close now owner thread cause w : Extends w (close_session now owner thread cause w).
Proof.
  unfold close_session. destruct (owned_record owner thread w) as [[a r]|]; [|reflexivity].
  assert (∀ turns w, Extends w (foldl (λ w turn, clear_run now owner thread turn cause w) w turns)) as Hall.
  { induction turns as [|turn turns IH]; intros w0; simpl; [reflexivity|]. etrans; [apply Extends_clear_run|apply IH]. }
  etrans; [apply Hall|]. by apply Extends_heap.
Qed.

Lemma Extends_abort now c cause w : WorldOk w → cause ∈ REMOVAL_CAUSES → Extends w (abort_resolution now c cause w).
Proof.
  intros Hok Hc. unfold abort_resolution. destruct (record_of (cm_thread_id c) w) as [[a r]|] eqn:Ho; [|reflexivity].
  apply record_of_Ok in Ho as [_ Ha]. eapply Extends_put; [done| |done]. apply Tells_abort; [by eapply record_ok|done].
Qed.

Lemma Extends_signal o e c w : Extends w (signal_completion o c (tell_continuation e c w)).
Proof.
  apply Extends_heap. unfold signal_completion, tell_continuation.
  assert (∀ t w, iw_heap (send_error e t w) = iw_heap w) as Hs by (intros t w0; by destruct (send_error_frame w0 t e) as (_ & -> & _)).
  destruct (cm_completion c) as [[]|], (cm_sender c), (cm_delivery_commit c); simpl; by rewrite ?Hs.
Qed.

Lemma Extends_abort_commit now cause f c w :
  WorldOk w → cause ∈ REMOVAL_CAUSES → Extends w (abort_commit now cause f c w).
Proof. intros Hok Hc. unfold abort_commit. etrans; [by apply Extends_abort|apply Extends_signal]. Qed.

Lemma Extends_publish now c w answer w' : publish_resolution now c w = (answer, w') → Extends w w'.
Proof.
  unfold publish_resolution. destruct (record_of (cm_thread_id c) w) as [[a r]|] eqn:Ho; [|intros [= _ <-]; reflexivity].
  apply record_of_Ok in Ho as [_ Ha]. destruct (publish_resolved_locked _ _ _ _ r) as [answer' r'] eqn:Hp. intros [= _ <-].
  eapply Extends_put; [done|by eapply Tells_publish|done].
Qed.

Lemma Extends_stage now c w answer w' : WorldOk w → stage_delivery now c w = (answer, w') → Extends w w'.
Proof.
  intros Hok. unfold stage_delivery. destruct (_ || _); [intros [= _ <-]; reflexivity|].
  destruct (cm_sender c), (cm_response c); try (intros [= _ <-]; reflexivity).
  unfold send_delivery. destruct (iw_tickets w !! n) as [[]|]; intros [= _ <-]; [by apply Extends_heap|..];
    (etrans; [by apply (Extends_abort now c REMOVAL_ORIGIN_FINISHED); [|unfold REMOVAL_CAUSES; set_solver]|]);
    apply Extends_heap; unfold signal_completion; by destruct (cm_completion c) as [[]|].
Qed.

Lemma Extends_drop_commit now c w : WorldOk w → Extends w (drop_commit now c w).
Proof.
  intros Hok. unfold drop_commit. destruct (_ && _); [reflexivity|]. etrans; [|apply Extends_signal].
  destruct (cm_newly_resolved c); [|reflexivity]. apply Extends_abort; [done|unfold REMOVAL_CAUSES; set_solver].
Qed.

Lemma Extends_release now c w answer w' : WorldOk w → release_publish now c w = (answer, w') → Extends w w'.
Proof.
  intros Hok. unfold release_publish. destruct (publish_resolution now c w) as [[[]|e] w1] eqn:Hp;
    (pose proof (Extends_publish _ _ _ _ _ Hp) as Hx); intros [= _ <-]; (etrans; [exact Hx|]).
  - apply Extends_heap. unfold signal_completion, commit_delivery.
    destruct (cm_delivery_commit c) as [t|], (cm_completion c) as [[]|]; try done; by destruct (iw_tickets w1 !! t) as [[]|].
  - apply Extends_abort_commit; [by eapply publish_resolution_ok|unfold REMOVAL_CAUSES; set_solver].
Qed.

Lemma Extends_claim now a generation params require_enabled w answer w' :
  claim_response now a generation params require_enabled w = (answer, w') → Extends w w'.
Proof.
  unfold claim_response. destruct (iw_heap w !! a) as [r|] eqn:Ha; [|intros [= _ <-]; reflexivity].
  destruct (claim_locked _ _ _ _ _ _ _ r) as [[[typed n|typed sender n]|e] r'] eqn:Hl; intros [= _ <-];
    (eapply Extends_put; [done|by eapply Tells_claim|done]).
Qed.

Lemma Extends_begin now context request_id request origin w answer w' :
  begin_interaction now context request_id request origin w = (answer, w') → Extends w w'.
Proof.
  unfold begin_interaction. destruct (validate_interaction_request request) as [u|]; [|intros [= _ <-]; reflexivity].
  destruct (record_of (ctx_thread_id context) w) as [[a r]|] eqn:Hrec; simpl; [|intros [= _ <-]; reflexivity].
  apply record_of_Ok in Hrec as [_ Ha].
  destruct (begin_locked _ _ _ _ _ _ r) as [[generation|e] r'] eqn:Hl; intros [= _ <-];
    (eapply Extends_put; [done|by eapply Tells_begin|done]).
Qed.

Lemma lives_on_extends strict w w' : lives_on strict w w' → WorldOk w → Extends w w'.
Proof.
  intros Hstep Hok. destruct Hstep.
  - rename select (interactions_insert _ _ _ _ _ = _) into Hi. unfold interactions_insert in Hi.
    apply bind_Ok in Hi as (r & _ & Hi). destruct (iw_records w !! thread_id); [done|]. injection Hi as <-.
    intros a r0 Ha. exists r0. simpl. rewrite lookup_insert_ne; [done|]. intros <-.
    destruct (wk_heap _ Hok _ _ Ha). lia.
  - rename select (register_run _ _ _ _ _ = _) into Hr. unfold register_run in Hr.
    apply bind_Ok in Hr as ([a r] & [[_ Ha]%record_of_Ok _]%owned_record_Ok & Hr). apply bind_Ok in Hr as (r' & Hreg & [= <-]).
    eapply Extends_put; [done| |done]. unfold register_locked in Hreg.
    destruct (ir_run_identities r !! turn_id); [case_decide; [|done]|]; injection Hreg as <-; [done|by apply Tells_fields].
  - unfold unregister_run. destruct (owned_record owner thread_id w) as [[a r]|] eqn:Ho; [|reflexivity].
    apply owned_record_Ok in Ho as [[_ Ha]%record_of_Ok _]. eapply Extends_put; [done| |done].
    unfold unregister_locked. case_decide; [by apply Tells_fields|done].
  - by eapply Extends_begin.
  - apply Extends_heap. unfold drop_receiver. by destruct (iw_tickets w !! ticket) as [[]|].
  - apply Extends_clear_run.
  - unfold clear_exact. destruct (record_of thread_id w) as [[a r]|] eqn:Ho; [|reflexivity]. apply record_of_Ok in Ho as [_ Ha].
    destruct (clear_exact_locked _ _ _ _ _ r) as [[r' sender]|] eqn:Hc; [|reflexivity].
    eapply Extends_put; [done|by eapply Tells_clear_exact|by apply (heap_send_errors _ [sender])].
  - unfold interactions_retire_run. destruct (owned_record owner thread_id w) as [[a r]|] eqn:Ho; [|reflexivity].
    apply owned_record_Ok in Ho as [[_ Ha]%record_of_Ok _]. pose proof (Tells_retire turn_id identity r (record_ok _ _ _ Hok Ha)) as Ht.
    destruct (retire_locked turn_id identity r) as [answer r']. by eapply Extends_put.
  - apply Extends_close.
  - by apply Extends_heap.
  - etrans; [by eapply Extends_claim|by apply Extends_heap].
  - etrans; [by eapply Extends_stage|by apply Extends_heap].
  - etrans; [|by apply Extends_heap]. apply Extends_abort_commit; [done|unfold REMOVAL_CAUSES; set_solver].
  - etrans; [by eapply Extends_drop_commit|by apply Extends_heap].
  - rename select (release_check _ _ _ = _) into Hc. unfold release_check in Hc.
    destruct (is_some_and _ _); injection Hc as <- <-; [|by apply Extends_heap].
    etrans; [apply Extends_abort_commit; [exact Hok|]|by apply Extends_heap]. unfold REMOVAL_CAUSES; set_solver.
  - etrans; [by eapply Extends_release|by apply Extends_heap].
  - rename select (complete _ _ _ = _) into Hc. apply Extends_heap. simpl. unfold complete in Hc.
    destruct (cm_newly_resolved c); [done|]. destruct (cm_completion c) as [[n|n]|]; [by injection Hc as _ <-| |by injection Hc as _ <-].
    destruct (iw_completions w !! n) as [[o|]|]; [by injection Hc as _ <-|done..].
Qed.

Lemma later_extends strict w w' : rtc (lives_on strict) w w' → WorldOk w → WorldOk w' ∧ Extends w w'.
Proof.
  induction 1 as [w|w w1 w2 Hs _ IH]; intros Hok; [done|]. destruct IH as [Hok2 Hx]; [by eapply lives_on_ok|].
  split; [done|]. etrans; [by eapply lives_on_extends|done].
Qed.

(** ** Clients *)

(** A client of a session: it fetches a snapshot, applies the pages of the replay after
    its own cursor, and does so while the daemon moves on. *)
Inductive client (strict : bool) (limits : InteractionJournalLimits) (digest_key owner thread_id : string) :
    Interactions → InteractionSnapshot → Prop :=
  | client_fetches w s :
      lived strict limits digest_key w → interactions_get owner thread_id w = Ok s → client strict limits digest_key owner thread_id w s
  | client_waits w w' s :
      client strict limits digest_key owner thread_id w s → lives_on strict w w' → client strict limits digest_key owner thread_id w' s
  | client_replays w s params answer s' :
      client strict limits digest_key owner thread_id w s → si_thread_id params = thread_id → si_after params = is_cursor s →
      interactions_subscribe owner params w = Ok answer → sr_gap answer = None →
      fold_res take_in s (sr_events answer) = Ok s' → client strict limits digest_key owner thread_id w s'.

(** The events that lead from [s] to the snapshot of [r], as far as the journal has them. *)
Definition Catching r (s : InteractionSnapshot) : Prop :=
  ∃ es, fold_res take_in s es = Ok (ir_snapshot r) ∧ leads (is_cursor s) es (ir_cursor r) ∧
    ((∃ pre, es = pre ++ (je_event <$> ir_journal r)) ∨ (∃ pre, je_event <$> ir_journal r = pre ++ es)).

Lemma Catching_tells r r' s : JournalOk r → roomy r' → Tells r r' → Catching r s → Catching r' s.
Proof.
  intros Hj Hroom Ht (es & Hf & Hl & Hpart). destruct (te_events _ _ Ht Hj Hroom) as (new & Hf' & Hl' & pre0 & Hpre0).
  exists (es ++ new). split_and!.
  - by rewrite fold_res_app, Hf.
  - apply leads_app. eauto.
  - destruct Hpart as [[pre ->]|[pre Heq]].
    + left. exists (pre ++ pre0). by rewrite <-app_assoc, Hpre0, app_assoc.
    + rewrite Heq, <-app_assoc in Hpre0. apply app_eq_app in Hpre0 as [l [[-> Hx]|[-> Hx]]].
      * right. by exists l.
      * left. by exists l.
Qed.

Lemma take_in_cursor s es c s' : fold_res take_in s es = Ok s' → leads (is_cursor s) es c → is_cursor s' = c.
Proof.
  revert s. induction es as [|e es IH]; intros s; simpl; [by intros [= ->]|].
  intros Hf (Hn & _ & Hl). apply bind_Ok in Hf as (s1 & He & Hf). unfold take_in in He.
  apply bind_Ok in He as ([s2 applied] & Ha & [= ->]). simpl in Hn.
  assert (is_cursor s1 = ie_cursor e) as Hc; [|apply (IH s1); [done|]; by rewrite Hc].
  destruct applied.
  - by apply apply_interaction_true in Ha as [].
  - apply apply_interaction_false in Ha as [_ Hle]. apply cursor_next_Ok in Hn as (_ & _ & Hs & _). lia.
Qed.

(** The journal has all the events that a client inside it lacks, and its page starts with them. *)
Lemma page_prefix r s params through es :
  JournalOk r → leads (is_cursor s) es (ir_cursor r) →
  ((∃ pre, es = pre ++ (je_event <$> ir_journal r)) ∨ (∃ pre, je_event <$> ir_journal r = pre ++ es)) →
  same_stream_place through (ir_cursor r) →
  (ic_seq (ir_replay_floor r) <= ic_seq (is_cursor s) <= ic_seq through)%N → (ic_seq through <= ic_seq (ir_cursor r))%N →
  ∃ rest, es = interaction_page r (ic_seq (is_cursor s)) (ic_seq through) (si_limit params) ++ rest.
Proof.
  intros Hj Hl Hpart Hpt Hle Hc. pose proof (jo_chain _ Hj) as Hch. pose proof (leads_seq _ _ _ Hch) as Hn. pose proof (leads_seq _ _ _ Hl) as Hn'.
  simpl in Hn, Hn'.
  assert (∃ pre, je_event <$> ir_journal r = pre ++ es ∧ ∀ e, e ∈ pre → (ic_seq (ie_cursor e) <= ic_seq (is_cursor s))%N) as (pre & Hpre & Hlow).
  { destruct Hpart as [[pre ->]|[pre Heq]].
    - rewrite length_app in Hn'. destruct pre as [|e pre]; [|simpl in Hn'; lia]. exists []. split; [done|]. by intros ? ?%elem_of_nil.
    - exists pre. split; [done|]. intros e He. rewrite Heq in Hch. apply leads_app in Hch as (m & Hm & Hm').
      apply leads_seq in Hm'. simpl in Hm'. eapply (leads_bounds _ _ _ e) in Hm as [[_ Hb] _]; [|done]. simpl in Hb. lia. }
  destruct (leads_split _ _ _ through Hl) as (es1 & es2 & -> & Hl1 & Hl2); simpl; [|lia|].
  { etrans; [exact (leads_place _ _ _ Hl)|by symmetry]. }
  exists (drop (N.to_nat (si_limit params)) es1 ++ es2). unfold interaction_page. rewrite Hpre, !List.filter_app.
  rewrite (filter_b_none _ pre), (filter_b_all _ es1), (filter_b_none _ es2); [by rewrite app_nil_r, app_assoc, take_drop|..].
  - intros e He. destruct (leads_bounds _ _ _ e Hl2 He) as [[Hb _] _]. simpl in Hb.
    apply andb_false_iff. right. apply N.leb_gt. lia.
  - intros e He. destruct (leads_bounds _ _ _ e Hl1 He) as [[Hb1 Hb2] _]. simpl in Hb1, Hb2.
    apply andb_true_iff. split; [by apply N.ltb_lt|by apply N.leb_le].
  - intros e He. apply andb_false_iff. left. apply N.ltb_ge. by apply Hlow.
Qed.

Lemma Catching_page r s params answer :
  RecordOk r → si_thread_id params = is_thread_id (ir_snapshot r) → si_after params = is_cursor s → Catching r s →
  replay_interactions r params = Ok answer → sr_gap answer = None →
  ∃ s', fold_res take_in s (sr_events answer) = Ok s' ∧ is_cursor s' = sr_resume_after answer ∧ Catching r s'.
Proof.
  intros Hok Hth Hafter (es & Hf & Hl & Hpart) Hr Hgap.
  assert (ic_thread_id (ir_cursor r) = si_thread_id params) as Ht.
  { rewrite Hth. destruct (rk_snapshot _ Hok) as [_ _ Hct _]. exact Hct. }
  destruct (replay_ReplayAnswer _ _ _ Ht Hr) as [_ Ha].
  destruct Ha as [Hne|through Hp Hpt Hthr Hlt|through events Hp Hpt Hthr Hle Hc Hev]; try done. simpl.
  rewrite Hafter in Hev, Hle. rewrite Hafter. destruct (page_prefix r s params through es) as [rest Hes]; try done; [apply Hok|].
  rewrite <-Hev in Hes. subst es. rewrite fold_res_app in Hf. apply bind_Ok in Hf as (s' & Hf1 & Hf2).
  apply leads_app in Hl as (m & Hl1 & Hl2). pose proof (take_in_cursor _ _ _ _ Hf1 Hl1) as Hm.
  exists s'. split_and!; [done|rewrite Hm; symmetry; by apply leads_last in Hl1|]. exists rest. rewrite Hm. split_and!; [done|done|].
  destruct Hpart as [[pre Heq]|[pre Heq]].
  - apply app_eq_app in Heq as [l [[-> Heq]|[-> Heq]]]; [right|left]; by exists l.
  - right. exists (pre ++ events). by rewrite <-app_assoc.
Qed.

Lemma client_ok strict limits digest_key owner thread_id w s :
  client strict limits digest_key owner thread_id w s →
  WorldOk w ∧ ∃ a r, iw_heap w !! a = Some r ∧ is_thread_id (ir_snapshot r) = thread_id ∧ (roomy r → Catching r s).
Proof.
  induction 1 as [w s Hok%lived_ok Hg|w w' s _ (Hok & a & r & Ha & Ht & Hc) Hs|w s params answer s' _ (Hok & a & r & Ha & Ht & Hc) Hth Haf Hsub Hgap Hf].
  - split; [done|]. unfold interactions_get in Hg. apply bind_Ok in Hg as ([] & _ & Hg). apply bind_Ok in Hg as ([a r] & Hrec & Hg).
    apply map_err_Ok, owned_record_Ok in Hrec as [Hr _]. destruct (record_of_thread _ _ _ _ Hok Hr) as [Ha Ht].
    exists a, r. split_and!; [done|done|]. intros _. unfold get_locked in Hg. apply bind_Ok in Hg as ([] & _ & [= <-]).
    exists []. split_and!; [done|done|]. right. exists (je_event <$> ir_journal r). by rewrite app_nil_r.
  - pose proof (lives_on_ok _ _ _ Hs Hok) as Hok'. split; [done|].
    destruct (lives_on_extends _ _ _ Hs Hok _ _ Ha) as (r' & Ha' & Htell). exists a, r'. split_and!; [done|by rewrite (te_thread _ _ Htell)|].
    intros Hroom. eapply Catching_tells; [apply (record_ok _ _ _ Hok Ha)|done|done|]. apply Hc. unfold roomy in *.
    pose proof (te_seq _ _ Htell). lia.
  - split; [done|]. exists a, r. split_and!; [done|done|]. intros Hroom. unfold interactions_subscribe in Hsub.
    apply bind_Ok in Hsub as ([a1 r1] & Hrec & Hsub). apply map_err_Ok, owned_record_Ok in Hrec as [Hr _].
    destruct (record_of_thread _ _ _ _ Hok Hr) as [Ha1 Ht1].
    assert (a1 = a) as -> by (eapply (wk_threads _ Hok); [done|done|congruence]). simplify_eq.
    apply bind_Ok in Hsub as ([] & _ & Hsub). apply map_err_Ok in Hsub.
    destruct (Catching_page r s params answer) as (s2 & Hf2 & _ & Hc2); try done; [by eapply record_ok|by auto|]. congruence.
Qed.
End history.
