(* ===== verification/InteractionGuarantees.v ===== *)
(** * What interactions guarantee

    First sample data for the witnesses, then the theorems.

    A session with one run that asks its client a question: the client answers twice
    with the same response, the first is delivered and acknowledged, the second follows
    it. *)

From S2P Require Import Prelude EventJournal Protocol StoreState CoreSession SessionManagement Interactions InteractionRecord InteractionServer InteractionLaws Samples.

(** ** External functions *)

(** Every schema compiles; a response has to be an object where it says so. *)
#[export] Instance sample_schemas : SchemaExternals := {
  schema_compiles _ := Ok ();
  schema_accepts schema response := if bool_decide (get "type" schema = Some (Str "object")) then is_object response else true;
}.
#[export] Instance hundred_byte_interactions : EventExternals := {| interaction_event_len _ := Ok 100 |}.
#[export] Instance hundred_byte_interactions_laws : EventLaws.
Proof. intros e. by exists 100. Defined.
#[export] Instance plain_digests : DigestExternals := {
  hmac_sha256 key message := key +:+ "#" +:+ message;
  json_text v := match v with Str s => s | Null => "null" | Bool true => "true" | _ => "?" end;
}.
#[export] Instance listed_order : MapOrder := {
  entry_order m := (map_to_list m).*1;
  entry_order_perm m := reflexivity _;
}.

(** ** A history *)

Definition small_journal : InteractionJournalLimits := {| jl_max_events := 8; jl_max_bytes := 4096 |}.
Definition question : InteractionRequest :=
  {| iq_kind := "whale.clarification"; iq_title := "Overwrite the file?"; iq_payload := Null; iq_response_schema := None |}.
Definition asking : RunContextInfo :=
  {| ctx_agent_name := None; ctx_thread_id := "thread"; ctx_turn_id := "run"; ctx_deadline_unix_ms := None |}.
Definition reply (answer : string) : RespondInteractionParams :=
  {| rp_thread_id := "thread"; rp_turn_id := "run"; rp_request_id := "ask"; rp_response := Str answer |}.

Definition after_ok {E} (w : Interactions) (answer : result E Interactions) : Interactions :=
  match answer with Ok w => w | Err _ => w end.

Definition iw_none : Interactions := interactions_empty small_journal "secret".
Definition iw_session : Interactions := after_ok iw_none (interactions_insert "owner" "thread" true "stream" iw_none).
Definition iw_run : Interactions := after_ok iw_session (register_run "owner" "thread" "run" 7 iw_session).
Definition iw_asked : Interactions := (begin_interaction 10 asking "ask" question OriginCore iw_run).2.

(** A caller of [commit_response], after its first look. *)
Definition arrives (params : RespondInteractionParams) (w : Interactions) : Interactions :=
  match peek_response (Some "owner") params true w with
  | Ok (address, found) =>
      set_next (S (iw_next w)) (put_transaction (iw_next w)
        {| tx_params := params; tx_record := address; tx_require_enabled := true;
           tx_phase := peeked_phase params found |} w)
  | Err _ => w
  end.
Definition first_answer : nat := 2.
Definition second_answer : nat := 4.
Definition iw_peeked : Interactions := arrives (reply "yes") iw_asked.

Definition moved (i : nat) (step : Transaction → Interactions → Phase * Interactions) (w : Interactions) : Interactions :=
  match iw_transactions w !! i with
  | Some tx => let '(phase, w') := step tx w in put_transaction i (in_phase tx phase) w'
  | None => w
  end.
Definition claims : Transaction → Interactions → Phase * Interactions := λ tx w,
  match claim_response 20 (tx_record tx) 1 (tx_params tx) (tx_require_enabled tx) w with
  | (Ok c, w') => (Claiming c, w')
  | (Err e, w') => (Answered None None (Err e), w')
  end.
Definition on_commit (f : ResponseCommit → Interactions → Phase * Interactions) : Transaction → Interactions → Phase * Interactions :=
  λ tx w, match tx_phase tx with
          | Claiming c | Staging c | Checked c => f c w
          | phase => (phase, w)
          end.
Definition stages : Transaction → Interactions → Phase * Interactions := on_commit (λ c w,
  match stage_delivery 21 c w with (Ok c, w') => (Staging c, w') | (Err e, w') => (answered c (Err e), w') end).
Definition checks : Transaction → Interactions → Phase * Interactions := on_commit (λ c w,
  match release_check 22 c w with (Ok _, w') => (Checked c, w') | (Err e, w') => (answered c (Err e), w') end).
Definition releases : Transaction → Interactions → Phase * Interactions := on_commit (λ c w,
  let '(answer, w') := release_publish 23 c w in (answered c answer, w')).
Definition follows_on : Transaction → Interactions → Phase * Interactions := on_commit (λ c w,
  match complete 24 c w with Some (answer, w') => (answered c answer, w') | None => (Claiming c, w) end).

Definition iw_claimed : Interactions := moved first_answer claims iw_peeked.
Definition iw_repeated : Interactions := arrives (reply "yes") iw_claimed.
Definition iw_staged : Interactions := moved first_answer stages iw_repeated.
Definition iw_checked : Interactions := moved first_answer checks iw_staged.
Definition iw_released : Interactions := moved first_answer releases iw_checked.
Definition iw_followed : Interactions := moved second_answer follows_on iw_released.

Example sample_delivery :
  iw_tickets iw_followed !! 1 = Some (TicketDone (Ok (Str "yes"))) ∧
  (tx_phase <$> iw_transactions iw_followed !! first_answer) =
    Some (Answered (Some (Leader 3)) (Some 1) (Ok {| ro_typed_approval := false; ro_newly_resolved := true |})) ∧
  (tx_phase <$> iw_transactions iw_followed !! second_answer) =
    Some (Answered (Some (Follower 3)) None (Ok {| ro_typed_approval := false; ro_newly_resolved := false |})).
Proof. vm_compute. auto. Qed.

(** ** The history is one of the registry *)

Lemma asked_lived strict : lived strict small_journal "secret" iw_asked.
Proof.
  unfold lived. transitivity iw_session.
  { apply rtc_once. eapply (StepInsert _ "owner" "thread" true "stream"); [|vm_compute; reflexivity].
    intros a r. vm_compute. done. }
  transitivity iw_run; [apply rtc_once; eapply (StepRegister _ "owner" "thread" "run" 7); vm_compute; reflexivity|].
  apply rtc_once. eapply (StepBegin _ 10 asking "ask" question OriginCore). apply surjective_pairing.
Defined.

Lemma arrives_lives strict params w : rtc (lives_on strict) w (arrives params w).
Proof.
  unfold arrives. destruct (peek_response _ _ _ w) as [[address found]|] eqn:Hp; [|done].
  apply rtc_once. by eapply StepPeek.
Defined.

(** Where a transaction is. *)
Inductive Stage := AtPeek | AtLeaderClaim | AtFollowerClaim | AtStaging | AtCheck | Elsewhere.
Definition stage_at (i : nat) (w : Interactions) : Stage :=
  match tx_phase <$> iw_transactions w !! i with
  | Some (Peeking 1) => AtPeek
  | Some (Claiming c) => if cm_newly_resolved c then AtLeaderClaim else AtFollowerClaim
  | Some (Staging _) => AtStaging
  | Some (Checked _) => AtCheck
  | _ => Elsewhere
  end.

Ltac at_stage i w Hs :=
  unfold stage_at in Hs; unfold moved; destruct (iw_transactions w !! i) as [tx|] eqn:Htx; [|done]; simpl in Hs;
  destruct (tx_phase tx) as [generation|c|c|c|] eqn:Hph; try done; try (by destruct generation as [|[]]); try (destruct (cm_newly_resolved c) eqn:Hnew; try done);
  unfold claims, stages, checks, releases, follows_on, on_commit; rewrite ?Hph.

Lemma claims_live strict i w : stage_at i w = AtPeek → rtc (lives_on strict) w (moved i claims w).
Proof.
  intros Hs. at_stage i w Hs. destruct generation as [|[]]; try done.
  destruct (claim_response 20 _ 1 _ _ w) as [answer w'] eqn:Hc. pose proof (StepClaim strict i tx 20 1 answer w w' Htx Hph Hc) as Hl.
  destruct answer; by apply rtc_once.
Defined.

Lemma stages_live strict i w : stage_at i w = AtLeaderClaim → rtc (lives_on strict) w (moved i stages w).
Proof.
  intros Hs. at_stage i w Hs. destruct (stage_delivery 21 c w) as [answer w'] eqn:Hc.
  pose proof (StepStage strict i tx c 21 answer w w' Htx Hph Hnew Hc) as Hl. destruct answer; by apply rtc_once.
Defined.

Lemma checks_live strict i w : stage_at i w = AtStaging → rtc (lives_on strict) w (moved i checks w).
Proof.
  intros Hs. at_stage i w Hs; (destruct (release_check 22 c w) as [answer w'] eqn:Hc);
    pose proof (StepCheck strict i tx c 22 answer w w' Htx Hph Hc) as Hl; destruct answer; by apply rtc_once.
Defined.

Lemma releases_live strict i w : stage_at i w = AtCheck → rtc (lives_on strict) w (moved i releases w).
Proof.
  intros Hs. at_stage i w Hs; (destruct (release_publish 23 c w) as [answer w'] eqn:Hc);
    pose proof (StepRelease strict i tx c 23 answer w w' Htx Hph Hc) as Hl; by apply rtc_once.
Defined.

Lemma follows_live strict i w :
  stage_at i w = AtFollowerClaim →
  match iw_transactions w !! i with
  | Some tx => match tx_phase tx with Claiming c => is_some (complete 24 c w) | _ => false end
  | None => false
  end = true → rtc (lives_on strict) w (moved i follows_on w).
Proof.
  intros Hs. at_stage i w Hs. intros Hc. destruct (complete 24 c w) as [[answer w']|] eqn:Hcomp; [|done].
  apply rtc_once. by eapply StepFollow.
Defined.

Lemma asked_followed strict : rtc (lives_on strict) iw_asked iw_followed.
Proof.
  transitivity iw_claimed; [etrans; [apply arrives_lives|apply claims_live; vm_compute; reflexivity]|].
  transitivity iw_repeated; [apply arrives_lives|].
  transitivity iw_staged; [apply stages_live; vm_compute; reflexivity|].
  transitivity iw_checked; [apply checks_live; vm_compute; reflexivity|].
  transitivity iw_released; [apply releases_live; vm_compute; reflexivity|].
  apply follows_live; vm_compute; reflexivity.
Defined.

(** ** A response whose run is retired meanwhile *)

Definition iw_retired : Interactions := (interactions_retire_run "owner" "thread" "run" 7 iw_claimed).2.
Definition iw_stranded : Interactions :=
  moved first_answer releases (moved first_answer checks (moved first_answer stages iw_retired)).

(** ** What the interaction registry guarantees

    Whatever the order in which requests are made, answered, cancelled, cleared, retired
    and closed. *)

From S2P Require Import InteractionBlocks InteractionInvariant InteractionSteps InteractionShown InteractionHistory.

Section guarantees.
Context `{HE : Externals} `{HS : SchemaExternals} `{HV : EventExternals} `{HL : !EventLaws} `{HD : DigestExternals} `{HM : MapOrder}.
Implicit Types (w : Interactions) (r : InteractionRecord).

(** ** One response per request *)

(** Transaction [tx] has resolved its request: its response is the continuation's final
    message, unless nobody listens there any more. *)
Definition delivered w tx : Prop :=
  ∃ n t outcome, tx_phase tx = Answered (Some (Leader n)) (Some t) (Ok outcome) ∧
    (iw_tickets w !! t = Some (TicketDone (Ok (rp_response (tx_params tx)))) ∨ iw_tickets w !! t = Some TicketDropped).

(** The leader of a completed response was answered [Ok]. *)
Lemma leader_delivered w i tx n t :
  WorldOk w → iw_transactions w !! i = Some tx → leads_response tx n t →
  iw_completions w !! n = Some (Some (Ok ())) → delivered w tx.
Proof.
  intros Hok Hi Hl Hn. pose proof (wk_phases _ Hok _ _ Hi) as Hp. unfold leads_response, tx_role in Hl.
  inversion Hp as [g Hx|ty n' Hf Hx|g ty n' t' Hc Ht Hx|g ty n' t' Hc Ht Hx|g ty n' t' Hc Ht Hx|n' t' o Hc Ht Hx|
    n' t' e e' Hc Ht Hx|n' o Hf Hc Hx|e Hx]; rewrite <-Hx in Hl; simpl in Hl; try done; injection Hl as -> ->; try congruence.
  exists n, t, o. by split.
Qed.

(** A continuation that resumed with a value has a completed response. *)
Lemma resumed_completed w i tx n t v :
  WorldOk w → iw_transactions w !! i = Some tx → leads_response tx n t →
  iw_tickets w !! t = Some (TicketDone (Ok v)) → iw_completions w !! n = Some (Some (Ok ())).
Proof.
  intros Hok Hi Hl Ht. pose proof (wk_phases _ Hok _ _ Hi) as Hp. unfold leads_response, tx_role in Hl.
  inversion Hp as [g Hx|ty n' Hf Hx|g ty n' t' Hc Hs Hx|g ty n' t' Hc Hs Hx|g ty n' t' Hc Hs Hx|n' t' o Hc Hs Hx|
    n' t' e e' Hc Hs Hx|n' o Hf Hc Hx|e Hx]; rewrite <-Hx in Hl; simpl in Hl; try done; injection Hl as -> ->;
    try done; rewrite Ht in Hs; naive_solver.
Qed.

(** C26: The first response to a request is the only one that reaches its continuation,
    and every caller that is told Ok gave a response with the same tag: a continuation
    that resumed with a value got it from exactly one response, whose caller is told Ok;
    every response that is acknowledged is that one, or repeats it, for the same request
    of the same run. *)
Theorem first_response_wins strict limits digest_key w :
  lived strict limits digest_key w →
  (∀ t v, iw_tickets w !! t = Some (TicketDone (Ok v)) →
     ∃ i tx n, iw_transactions w !! i = Some tx ∧ leads_response tx n t ∧ delivered w tx ∧ rp_response (tx_params tx) = v ∧
       ∀ j tx' n', iw_transactions w !! j = Some tx' → leads_response tx' n' t → j = i) ∧
  (∀ i tx completion ticket outcome, iw_transactions w !! i = Some tx →
     tx_phase tx = Answered completion ticket (Ok outcome) →
     ∃ j leader, iw_transactions w !! j = Some leader ∧ delivered w leader ∧
       tx_record leader = tx_record tx ∧ tx_key leader = tx_key tx ∧
       constant_time_eq (tx_digest w leader) (tx_digest w tx) = true).
Proof.
  intros Hok%lived_ok. split.
  - intros t v Ht. destruct (wk_delivered _ Hok t v) as (i & tx & n & Hi & Hl & Hv); [by right|].
    exists i, tx, n. split_and!; try done.
    + eapply leader_delivered; [done|done|done|]. by eapply resumed_completed.
    + intros j tx' n' Hj Hl'. eapply (wk_leaders _ Hok j i); eauto.
  - intros i tx completion ticket outcome Hi Hph. pose proof (wk_phases _ Hok _ _ Hi) as Hp. rewrite Hph in Hp.
    inversion Hp as [| | | | |n t o Hc Hs|n t e e' Hc Hs|n o (j & leader & t & Hj & Hl & Hr & Hk & He) Hc|e]; subst.
    + exists i, tx. split_and!; try done; [by exists n, t, outcome|]. unfold constant_time_eq. by apply bool_decide_eq_true_2.
    + exists j, leader. split_and!; try done. eapply leader_delivered; eauto.
Qed.

(** ** What a session shows *)

(** C28: A session's snapshot lists exactly the requests whose continuation still waits
    and those whose response is between its claim and its answer, while the stream has a
    sequence number left and no run is retired under a response; and a continuation that
    waits has neither a response nor an error yet. *)
Theorem pending_interactions_agree limits digest_key thread_id a r w :
  lived true limits digest_key w → record_of thread_id w = Ok (a, r) → ir_enabled r = true → roomy r →
  (∀ k, k ∈ shown r ↔ waits r k ∨ in_flight (iw_completions w) r k) ∧
  (∀ k entry, ir_entries r !! k = Some (Pending entry) →
     iw_tickets w !! pe_sender entry = Some TicketWaiting ∨ iw_tickets w !! pe_sender entry = Some TicketDropped).
Proof.
  intros Hl [Hth Ha]%record_of_Ok Hen Hroom. pose proof (lived_ok _ _ _ _ Hl) as Hok.
  destruct (lived_shown _ _ _ Hl _ _ _ Hth Ha) as [Hs Hf]. split; [|by intros k entry Hk; eapply (wk_pending _ Hok)].
  intros k. split; [by apply Hs|]. intros [[entry Hk]|Hk]; [|by apply Hf].
  apply (rk_shown _ (record_ok _ _ _ Hok Ha) Hen) in Hk. apply list_elem_of_fmap. eexists. split; [|exact Hk].
  by destruct k.
Qed.

(** ** Readers *)

(** C30: What the registry answers its readers passes the validation of the protocol: the
    snapshot of a session, the snapshot of a run, which is the part of the session's that
    belongs to the run, and every page or gap of the replay. *)
Theorem interaction_readers_meet_contract strict limits digest_key owner w :
  lived strict limits digest_key w →
  (∀ thread_id s, interactions_get owner thread_id w = Ok s →
     InteractionSnapshot_validate s = Ok () ∧ is_thread_id s = thread_id ∧
     ∀ turn_id, validate_bounded_identity turn_id "turn_id" = Ok () →
       ∃ part, interactions_get_turn owner thread_id turn_id w = Ok part ∧ TurnInteractionSnapshot_validate part = Ok () ∧
         ts_cursor part = is_cursor s ∧ ts_pending part = of_turn turn_id (is_pending s)) ∧
  (∀ params answer, interactions_subscribe owner params w = Ok answer → replay_valid_for answer params = Ok ()).
Proof.
  intros Hok%lived_ok. split.
  - intros thread_id s Hg. unfold interactions_get in Hg. apply bind_Ok in Hg as ([] & Hv & Hg).
    apply bind_Ok in Hg as ([a r] & Hrec & Hg). pose proof Hrec as Hrec'.
    apply map_err_Ok, owned_record_Ok in Hrec' as [Hr _]. destruct (record_of_thread _ _ _ _ Hok Hr) as [Ha Ht].
    pose proof (record_ok _ _ _ Hok Ha) as Hrok. unfold get_locked in Hg. destruct (ir_enabled r) eqn:Hen; [|done].
    injection Hg as <-. split_and!; [by apply snapshot_validate_Ok, Hrok|done|]. intros turn_id Hturn.
    destruct (get_turn_locked_Ok r thread_id turn_id Hrok Ht Hturn Hen) as (part & Hp & Hrest). exists part. split; [|done].
    unfold interactions_get_turn, GetTurnInteractionsParams_validate. unfold GetSessionInteractionsParams_validate in Hv.
    apply map_err_Ok in Hv. rewrite Hv. simpl. rewrite Hturn. simpl. rewrite Hrec. simpl. done.
  - intros params answer Hs. unfold interactions_subscribe in Hs. apply bind_Ok in Hs as ([a r] & Hrec & Hs).
    apply map_err_Ok, owned_record_Ok in Hrec as [Hr _]. destruct (record_of_thread _ _ _ _ Hok Hr) as [Ha Ht].
    apply bind_Ok in Hs as ([] & _ & Hs). apply map_err_Ok in Hs.
    eapply replay_meets_contract; [by eapply record_ok|done|done].
Qed.
(** C29: A client that fetches a session's snapshot and then applies the replay after its
    own cursor, page by page, while the daemon moves on, never meets an event that it
    cannot apply, and holds the daemon's snapshot whenever it has reached the daemon's
    cursor, as long as the stream has a sequence number left. *)
Theorem clients_catch_up strict limits digest_key owner thread_id a r w s :
  client strict limits digest_key owner thread_id w s → record_of thread_id w = Ok (a, r) → roomy r →
  (∀ params answer, si_thread_id params = thread_id → si_after params = is_cursor s →
     interactions_subscribe owner params w = Ok answer → sr_gap answer = None →
     ∃ s', fold_res take_in s (sr_events answer) = Ok s' ∧ is_cursor s' = sr_resume_after answer) ∧
  (ic_seq (is_cursor s) = ic_seq (ir_cursor r) → s = ir_snapshot r).
Proof.
  intros Hcl Hrec Hroom. destruct (client_ok _ _ _ _ _ _ _ Hcl) as (Hok & a0 & r0 & Ha0 & Ht0 & Hc).
  destruct (record_of_thread _ _ _ _ Hok Hrec) as [Ha Ht].
  assert (a0 = a) as -> by (eapply (wk_threads _ Hok); [done|done|congruence]).
  assert (r0 = r) as -> by congruence. specialize (Hc Hroom). split.
  - intros params answer Hth Haf Hsub Hgap. unfold interactions_subscribe in Hsub.
    apply bind_Ok in Hsub as ([a1 r1] & Ho & Hsub). apply map_err_Ok, owned_record_Ok in Ho as [Hr1 _].
    rewrite Hth, Hrec in Hr1. injection Hr1 as <- <-.
    apply bind_Ok in Hsub as ([] & _ & Hsub). apply map_err_Ok in Hsub.
    destruct (Catching_page r s params answer) as (s' & Hf & Hcur & _); try done; [by eapply record_ok|congruence|]. by exists s'.
  - destruct Hc as (es & Hf & Hl & _). intros Hseq. apply leads_seq in Hl. simpl in Hl.
    destruct es as [|e es]; [by injection Hf|simpl in Hl; lia].
Qed.

(** ** Clearing *)

Lemma send_errors_tickets e senders t w :
  iw_tickets (foldl (λ w sender, send_error e sender w) w senders) !! t =
  match iw_tickets w !! t with
  | Some (TicketWaiting | TicketStaged _) as s => if decide (t ∈ senders) then Some (TicketDone (Err e)) else s
  | s => s
  end.
Proof.
  revert w. induction senders as [|t' senders IH]; intros w; cbn [foldl].
  { rewrite decide_False by apply not_elem_of_nil. by destruct (iw_tickets w !! t) as [[]|]. }
  rewrite IH. assert (iw_tickets (send_error e t' w) !! t =
    match iw_tickets w !! t with
    | Some (TicketWaiting | TicketStaged _) as s => if decide (t = t') then Some (TicketDone (Err e)) else s
    | s => s
    end) as ->.
  { unfold send_error. destruct (decide (t = t')) as [<-|Hne].
    - destruct (iw_tickets w !! t) as [[]|] eqn:Ht; simpl; by rewrite ?lookup_insert_eq, ?Ht.
    - destruct (iw_tickets w !! t') as [[]|]; simpl; rewrite ?lookup_insert_ne by done; by destruct (iw_tickets w !! t) as [[]|]. }
  destruct (iw_tickets w !! t) as [[]|]; try done; destruct (decide (t = t')) as [->|Hne];
    rewrite ?(decide_True _ _ (list_elem_of_here _ _)); try done;
    destruct (decide (t ∈ senders)), (decide (t ∈ t' :: senders)); set_solver.
Qed.
(** The senders that clearing a run tells are those of its pending requests. *)
Lemma clear_run_senders now turn_id cause r r' senders t :
  RecordOk r → cause ∈ REMOVAL_CAUSES → clear_run_locked now turn_id cause r = (r', senders) →
  t ∈ senders ↔ ∃ request_id entry, ir_entries r !! (turn_id, request_id) = Some (Pending entry) ∧ pe_sender entry = t.
Proof.
  intros Hok Hc Hl. pose proof (clear_run_locked_entries now turn_id cause r Hok Hc) as Hsp. rewrite Hl in Hsp.
  destruct Hsp as [Hcl Hent]. split.
  - intros Ht. destruct (cl_senders _ _ _ Hcl _ Ht) as (k & entry & Hk & Hgone & <-). rewrite Hent in Hgone.
    case_decide as Hin; [|congruence]. apply elem_of_pending_keys in Hin as [<- _]. exists k.2, entry.
    by rewrite <-surjective_pairing.
  - intros (request_id & entry & Hk & <-). destruct (cl_pending _ _ _ Hcl _ _ Hk) as (entry' & [= <-] & Hin); [|done].
    rewrite Hent, decide_True; [done|]. apply elem_of_pending_keys. eauto.
Qed.

(** Clearing a run ends every request of the run that waits, and only those: each
    continuation that still listens is told the cause at once, no continuation of another
    run or of a response on its way hears anything, the requests are gone from the
    registry and, while the stream has a sequence number left, from what the session
    shows. *)
Theorem clearing_run_ends_its_requests strict limits digest_key now owner thread_id turn_id cause a r w :
  lived strict limits digest_key w → cause ∈ REMOVAL_CAUSES → owned_record owner thread_id w = Ok (a, r) →
  let w' := clear_run now owner thread_id turn_id cause w in
  ∃ r', iw_heap w' !! a = Some r' ∧
    (∀ k, ir_entries r' !! k =
       if (k.1 == turn_id) && is_some_and (ir_entries r !! k) is_pending_state then None else ir_entries r !! k) ∧
    (∀ k, ir_enabled r = true → roomy r' → k.1 = turn_id → waits r k → k ∉ shown r') ∧
    (∀ request_id entry, ir_entries r !! (turn_id, request_id) = Some (Pending entry) →
       iw_tickets w !! pe_sender entry = Some TicketWaiting ∧
         iw_tickets w' !! pe_sender entry = Some (TicketDone (Err (InteractionCancelled cause))) ∨
       iw_tickets w' !! pe_sender entry = Some TicketDropped) ∧
    ∀ t, (∀ request_id entry, ir_entries r !! (turn_id, request_id) = Some (Pending entry) → pe_sender entry ≠ t) →
      iw_tickets w' !! t = iw_tickets w !! t.
Proof.
  intros Hok%lived_ok Hc Ho w'. pose proof Ho as [[_ Ha]%record_of_Ok _]%owned_record_Ok. pose proof (record_ok _ _ _ Hok Ha) as Hr.
  pose proof (clear_run_locked_entries now turn_id cause r Hr Hc) as Hl. unfold w', clear_run. rewrite Ho.
  destruct (clear_run_locked now turn_id cause r) as [r' senders] eqn:Hcl. destruct Hl as [Hcleared Hent]. exists r'.
  pose proof (λ t, clear_run_senders _ _ _ _ _ _ t Hr Hc Hcl) as Hsend. split_and!.
  - rewrite heap_send_errors. apply lookup_insert_eq.
  - intros k. rewrite Hent. pose proof (elem_of_pending_keys turn_id (ir_entries r) k) as Hk.
    destruct ((k.1 == turn_id) && is_some_and (ir_entries r !! k) is_pending_state) eqn:Hb; destruct (decide (k ∈ pending_keys turn_id (ir_entries r))) as [Hin|Hin]; try done.
    + apply andb_true_iff in Hb as [Hb1 Hb2]. inv_bool. destruct Hin. apply Hk. split; [done|].
      destruct (ir_entries r !! k) as [[entry|]|]; [by exists entry|done..].
    + apply Hk in Hin as [<- [entry He]]. rewrite He, andb_true_r in Hb. by apply bool_decide_eq_false in Hb.
  - intros k Hen Hroom <- [entry He]. apply (cl_shown_gone _ _ _ Hcleared Hen Hroom); [by eexists|].
    rewrite Hent, decide_True; [done|]. apply elem_of_pending_keys. eauto.
  - intros request_id entry Hk. rewrite send_errors_tickets. simpl. rewrite decide_True by (apply Hsend; eauto).
    destruct (wk_pending _ Hok _ _ _ _ Ha Hk) as [-> | ->]; auto.
  - intros t Hnot. assert (t ∉ senders) as Hn by (intros (request_id & entry & Hk & Ht)%Hsend; by eapply Hnot).
    rewrite send_errors_tickets. simpl. destruct (iw_tickets w !! t) as [[]|]; try done; by rewrite decide_False.
Qed.
End guarantees.

(** ** The theorems at the sample history *)

Lemma followed_lived strict : lived strict small_journal "secret" iw_followed.
Proof. unfold lived. etrans; [apply asked_lived|apply asked_followed]. Qed.

(** What the witnesses need of the sample's record. *)
Definition record_facts (w : Interactions) : option (bool * N * list (string * string)) :=
  (λ r, (ir_enabled r, ic_seq (ir_cursor r), shown r)) <$> (iw_heap w !! 0).

Lemma sample_record w :
  is_some (iw_records w !! "thread" ≫= λ a, if decide (a = 0) then iw_heap w !! 0 else None) = true →
  ∃ r, record_of "thread" w = Ok (0, r) ∧ record_facts w = Some (ir_enabled r, ic_seq (ir_cursor r), shown r).
Proof.
  unfold record_of, record_facts. destruct (iw_records w !! "thread") as [a|]; [|done]. simpl. destruct (decide (a = 0)) as [->|]; [|done].
  destruct (iw_heap w !! 0) as [r|]; [|done]. intros _. by exists r.
Qed.

Lemma first_response_wins_witness :
  iw_tickets iw_followed !! 1 = Some (TicketDone (Ok (Str "yes"))) ∧
  ∃ i tx n, iw_transactions iw_followed !! i = Some tx ∧ leads_response tx n 1 ∧ delivered iw_followed tx ∧
    rp_response (tx_params tx) = Str "yes" ∧
    ∀ j tx' n', iw_transactions iw_followed !! j = Some tx' → leads_response tx' n' 1 → j = i.
Proof.
  assert (iw_tickets iw_followed !! 1 = Some (TicketDone (Ok (Str "yes")))) as Ht by (vm_compute; reflexivity).
  split; [exact Ht|]. exact (proj1 (first_response_wins false small_journal "secret" iw_followed (followed_lived false)) 1 (Str "yes") Ht).
Defined.

Lemma pending_interactions_agree_witness :
  ∃ a r, record_of "thread" iw_asked = Ok (a, r) ∧ ("run", "ask") ∈ shown r ∧
    ∀ k, k ∈ shown r ↔ waits r k ∨ in_flight (iw_completions iw_asked) r k.
Proof.
  destruct (sample_record iw_asked eq_refl) as (r & Hr & Hfacts).
  assert (record_facts iw_asked = Some (true, 1%N, [("run", "ask")])) as Hf by (vm_compute; reflexivity).
  rewrite Hfacts in Hf. injection Hf as Hen Hseq Hs. exists 0, r. split; [exact Hr|]. split; [rewrite Hs; left|].
  apply (pending_interactions_agree small_journal "secret" "thread" 0 r iw_asked (asked_lived true) Hr Hen).
  unfold roomy. by rewrite Hseq.
Defined.

Lemma interaction_readers_meet_contract_witness :
  ∃ s, interactions_get "owner" "thread" iw_asked = Ok s ∧ InteractionSnapshot_validate s = Ok ().
Proof.
  assert (∃ s, interactions_get "owner" "thread" iw_asked = Ok s) as [s Hs] by (eexists; vm_compute; reflexivity).
  exists s. split; [exact Hs|].
  apply (proj1 (interaction_readers_meet_contract false small_journal "secret" "owner" iw_asked (asked_lived false)) "thread" s Hs).
Defined.

Lemma client_waits_long `{Externals} `{SchemaExternals} `{EventExternals} `{!EventLaws} `{DigestExternals} `{MapOrder}
    strict limits digest_key owner thread_id w w' s :
  client strict limits digest_key owner thread_id w s → rtc (lives_on strict) w w' →
  client strict limits digest_key owner thread_id w' s.
Proof. intros Hc Hr. revert Hc. induction Hr as [|w w1 w2 Hs _ IH]; intros Hc; [done|]. apply IH. by eapply client_waits. Qed.

(** The client of the sample fetched its snapshot when the question was asked, and then
    asks for what has happened since. *)
Definition at_seq (seq : N) : InteractionCursor := {| ic_thread_id := "thread"; ic_stream_id := "stream"; ic_seq := seq |}.
Definition asked_snapshot : InteractionSnapshot :=
  {| is_thread_id := "thread"; is_cursor := at_seq 1;
     is_pending := [{| pi_request_id := "ask"; pi_turn_id := "run"; pi_request := question |}] |}.
Definition since_question : SubscribeInteractionsParams :=
  {| si_thread_id := "thread"; si_after := at_seq 1; si_through := None; si_limit := 10 |}.
Definition answer_since : SubscribeInteractionsResult :=
  {| sr_events := [{| ie_thread_id := "thread"; ie_cursor := at_seq 2; ie_occurred_at_ms := 23;
                      ie_payload := Removed "ask" "run" REMOVAL_RESOLVED |}];
     sr_resume_after := at_seq 2; sr_through := at_seq 2; sr_has_more := false; sr_gap := None |}.

Lemma sample_client : client false small_journal "secret" "owner" "thread" iw_followed asked_snapshot.
Proof.
  eapply client_waits_long; [|apply asked_followed]. apply client_fetches; [apply asked_lived|vm_compute; reflexivity].
Qed.

Lemma clients_catch_up_witness :
  ∃ a r, record_of "thread" iw_followed = Ok (a, r) ∧
    ∃ s', fold_res take_in asked_snapshot (sr_events answer_since) = Ok s' ∧ is_cursor s' = at_seq 2.
Proof.
  destruct (sample_record iw_followed eq_refl) as (r & Hr & Hfacts).
  assert (record_facts iw_followed = Some (true, 2%N, [])) as Hf by (vm_compute; reflexivity).
  rewrite Hfacts in Hf. injection Hf as _ Hseq _. exists 0, r. split; [exact Hr|].
  assert (roomy r) as Hroom by (unfold roomy; by rewrite Hseq).
  destruct (clients_catch_up false small_journal "secret" "owner" "thread" 0 r iw_followed asked_snapshot sample_client Hr Hroom)
    as [Hpage _].
  apply (Hpage since_question answer_since eq_refl eq_refl); vm_compute; reflexivity.
Defined.

Lemma clearing_run_ends_its_requests_witness :
  ∃ r r', owned_record "owner" "thread" iw_asked = Ok (0, r) ∧
    iw_heap (clear_run (λ _, 30%N) "owner" "thread" "run" REMOVAL_CANCELLED iw_asked) !! 0 = Some r' ∧
    ir_entries r' !! ("run", "ask") = None ∧
    iw_tickets (clear_run (λ _, 30%N) "owner" "thread" "run" REMOVAL_CANCELLED iw_asked) !! 1 =
      Some (TicketDone (Err (InteractionCancelled REMOVAL_CANCELLED))).
Proof.
  assert (∃ r, owned_record "owner" "thread" iw_asked = Ok (0, r)) as [r Ho] by (eexists; vm_compute; reflexivity).
  assert (REMOVAL_CANCELLED ∈ REMOVAL_CAUSES) as Hc by (right; left).
  destruct (clearing_run_ends_its_requests false small_journal "secret" (λ _, 30%N) "owner" "thread" "run" REMOVAL_CANCELLED 0 r
    iw_asked (asked_lived false) Hc Ho) as (r' & Hr' & Hent & _).
  exists r, r'. split; [exact Ho|]. split; [exact Hr'|]. split; [|vm_compute; reflexivity].
  rewrite Hent. pose proof (owned_record_Ok _ _ _ _ _ Ho) as [[_ Ha]%record_of_Ok _]. revert Ha. vm_compute. by intros [= <-].
Defined.

(** ** What goes wrong *)

(** The typed approval of an empty request identity panics: [None] is the failed [expect]. *)
Example empty_approval_identity_panics : approval_params "thread" "run" "" ApproveRun None None = None.
Proof. vm_compute. reflexivity. Qed.

(** A run that is retired while a response is on its way leaves its request in the
    snapshot: the registry has no entry for it any more, the caller was refused, and no
    method can remove it. *)
Example retired_request_stays_shown :
  (interactions_retire_run "owner" "thread" "run" 7 iw_claimed).1 = true ∧
  record_facts iw_stranded = Some (true, 1%N, [("run", "ask")]) ∧
  (ir_entries <$> iw_heap iw_stranded !! 0) = Some ∅ ∧
  match tx_phase <$> iw_transactions iw_stranded !! first_answer with
  | Some (Answered _ _ (Err e)) => if_code e
  | _ => 0%Z
  end = INTERACTION_UNAVAILABLE.
Proof. split_and!; vm_compute; reflexivity. Qed.
