(* ===== verification/CoreGuarantees.v ===== *)
(** * Guarantees of the core

    The properties of context validation, model steps, tool batches and turns, and
    a concrete instance of each that has hypotheses. *)

From S2P Require Import Prelude Protocol StoreState StoreBackend StoreRuntime Samples.
From S2P Require Import CoreContext CoreSession ModelStep Coordinator Engine EngineLegal.

(** ** A sample environment *)

#[export] Instance sample_tools : ToolExternals := {
  json_from_str := λ s, if s == "{}" then Ok (Object ∅) else Err "expected value at line 1 column 1";
  schema_build := λ _, Ok (λ v, if is_object v then Ok () else Err "not an object");
}.
#[export] Instance sample_engine_externals : EngineExternals := {
  request_to_value := λ _, Ok (Object ∅);
  request_json_len := λ _, 200%N;
}.
#[export] Instance sample_supply : Supply := {
  supply_apply_ms := λ _, 1000%N;
  supply_touch_ms := λ _, 1000%N;
  supply_result_id := λ k, "result-" +:+ pretty.pretty k;
  supply_execution_id := λ k, "execution-" +:+ pretty.pretty k;
}.

Definition new_ids (k : nat) : string := "new-" +:+ pretty.pretty k.

Definition call_item (id call name : string) : CanonicalItem :=
  ToolCall id call None name (Some (Object ∅)) "{}".

Definition shell : ToolHandler :=
  {| h_name := "shell"; h_description := "run a command"; h_parameters := Object ∅;
     h_supports_parallel := false; h_require_approval := false |}.
Definition reader : ToolHandler :=
  {| h_name := "read"; h_description := "read a file"; h_parameters := Object ∅;
     h_supports_parallel := true; h_require_approval := false |}.
Definition sample_registry : ToolRegistry := {["shell" := shell; "read" := reader]}.

Definition sample_calls : list CanonicalItem := [call_item "i1" "c1" "read"; call_item "i2" "c2" "shell"].

(** The journal of a session whose run has finished a step with these calls. *)
Definition sample_two_calls : SessionRecord :=
  let r := sample_requested in
  let r := value_of (mutate r "turn" (ModelItem "step" (call_item "i1" "c1" "read")) "r1" "e1") r in
  let r := value_of (mutate r "turn" (ModelItem "step" (call_item "i2" "c2" "shell")) "r2" "e2") r in
  value_of (mutate r "turn" (ModelStepFinished "step" sample_usage) "" "") r.
Definition sample_journal (r : SessionRecord) : StoreJournal MemoryStore :=
  {| sj_worker := sample_worker; sj_store := sample_store r; sj_commands := 0 |}.

(** A journal that accepts everything and answers an outcome with itself. *)
#[export] Instance echo_journal : Journal () := λ _ op j,
  (Ok {| receipt_revision := 1;
         receipt_result_item := match op with
                                | ToolOutcome call_id (ToolResult id _ output is_error) =>
                                    Some (ToolResult id call_id output is_error)
                                | _ => None
                                end |}, j).
#[export] Instance echo_journal_spec : JournalSpec ().
Proof.
  intros turn c r [] receipt [] item. unfold journal_commit, echo_journal. intros Hj Hi.
  destruct r; by simplify_eq/=.
Qed.

(** ** Context validation *)

(** C37: [validate_items] accepts exactly the sequences of messages and of tool-call
    batches, each batch answered completely and at once, in which the call ids are
    nonempty and never repeat. *)
Theorem validation_accepts_conversations items :
  validate_items items = Ok () ↔ Conversation items.
Proof. apply validate_items_Conversation. Qed.

(** Unless it is cancelled, the recent-turns policy answers every legal history:
    it keeps a suffix that is a legal conversation again, begins with a user message
    where anything was dropped, and holds the last [max_turns] user turns, all of
    them when there are no more. *)
Theorem recent_turns_keeps_whole_turns max_turns request :
  recent_turns_new max_turns = Ok max_turns → Conversation (cbr_history request) →
  ∃ dropped kept,
    recent_turns_build max_turns request false false
      = Ok {| mc_system_prompt := cbr_system_prompt request; mc_items := kept |}
    ∧ cbr_history request = dropped ++ kept ∧ Conversation kept
    ∧ user_count kept = min max_turns (user_count (cbr_history request))
    ∧ (dropped = [] ∨ ∃ u rest, kept = u :: rest ∧ is_user_message u = true).
Proof.
  intros Hnew Hc. assert (0 < max_turns) as Hmax.
  { unfold recent_turns_new in Hnew. destruct max_turns; [done|lia]. }
  set (start := recent_turns_start max_turns (cbr_history request)).
  exists (take start (cbr_history request)), (drop start (cbr_history request)).
  pose proof (recent_turns_kept_valid _ _ Hmax Hc) as Hkept.
  destruct (recent_turns_cut max_turns (cbr_history request) Hmax) as [Hcount Hcut].
  split_and!; [|by rewrite take_drop|done|done|].
  - unfold recent_turns_build, validate_model_context. simpl.
    rewrite (proj2 (validate_items_Conversation _) Hc). simpl.
    by rewrite (proj2 (validate_items_Conversation _) Hkept).
  - destruct Hcut as [Heq|(pre & u & post & _ & Hk & Hu)]; [left|right; eauto].
    apply (f_equal length) in Heq. rewrite length_drop in Heq.
    apply nil_length_inv. rewrite length_take. unfold start. lia.
Qed.

Definition sample_request : ContextBuildRequest :=
  {| cbr_context := {| ctx_agent_name := None; ctx_thread_id := "thread"; ctx_turn_id := "turn";
                       ctx_deadline_unix_ms := None |};
     cbr_step_index := 0; cbr_model := "model"; cbr_system_prompt := Some "be brief";
     cbr_history := [user_text "u1" "first"; call_item "i1" "c1" "shell";
                     tool_result "r1" "c1" (OutputText "done") false;
                     assistant_text "a1" "ok" FinalAnswer; user_text "u2" "second"] |}.

Lemma recent_turns_keeps_whole_turns_witness :
  recent_turns_new 1 = Ok 1 ∧ validate_items (cbr_history sample_request) = Ok () ∧
  ∃ dropped kept,
    recent_turns_build 1 sample_request false false
      = Ok {| mc_system_prompt := cbr_system_prompt sample_request; mc_items := kept |}
    ∧ cbr_history sample_request = dropped ++ kept ∧ Conversation kept
    ∧ user_count kept = min 1 (user_count (cbr_history sample_request))
    ∧ (dropped = [] ∨ ∃ u rest, kept = u :: rest ∧ is_user_message u = true).
Proof.
  split_and!; [reflexivity|vm_compute; reflexivity|].
  apply (recent_turns_keeps_whole_turns 1 sample_request); [reflexivity|].
  apply validate_items_Conversation. vm_compute. reflexivity.
Defined.

(** ** Model steps *)

(** The items of an accepted step are model items with new ids, its calls are
    named and have new call ids; once the step is finished, the finish was its last
    event and its only one, and every reasoning or tool item that it opened was
    completed. *)
Theorem accepted_step_is_well_formed history events st :
  fold_res observe (step_state_new history) events = Ok st →
  let items := completed_items events in
  NoDup (item_id <$> items) ∧ (∀ id, id ∈ item_id <$> items → id ∉ item_id <$> history)
  ∧ NoDup (calls_of items) ∧ (∀ id, id ∈ calls_of items → id ∉ calls_of history)
  ∧ Forall (λ i, model_item i ∧ named_call i) items
  ∧ (st_finished st = true →
      (∃ pre u, events = pre ++ [MStepFinished u] ∧ existsb is_finish pre = false)
      ∧ ∀ id, id ∈ omap structured_item events → id ∈ item_id <$> items).
Proof.
  intros H. pose proof (observe_all (step_state_new history) events st eq_refl H) as [[Hni H1] _ [Hnc H2] _ Hm H4 H5]. simpl in H1, H2.
  split_and!; [done|set_solver|done|set_solver|done|]. intros Hf. rewrite Hf in H4. split; [done|].
  destruct H4 as (pre & u & -> & _). rewrite fold_res_app in H.
  apply bind_Ok in H as (st1 & _ & Hu). simpl in Hu. apply bind_Ok in Hu as (st2 & Hu & [= ->]).
  intros id Hid. destruct (H5 id Hid) as [?|(kind & Hk & Hne)]; [done|].
  by apply (finish_settled _ _ _ Hu) in Hk.
Qed.

Definition sample_events : list ModelEvent :=
  [MItemStarted "a1" "assistant_message" None; MTextDelta "a1" "I will look";
   MItemCompleted (assistant_text "a1" "I will look" Commentary);
   MToolCallDelta "i1" "c1" "{}"; MItemCompleted (call_item "i1" "c1" "read");
   MItemCompleted (call_item "i2" "c2" "shell"); MStepFinished sample_usage].

Definition sample_step_state : ModelStepState :=
  match fold_res observe (step_state_new [user_text "u1" "hi"]) sample_events with
  | Ok st => st
  | Err _ => step_state_new []
  end.

Lemma accepted_step_is_well_formed_witness :
  fold_res observe (step_state_new [user_text "u1" "hi"]) sample_events = Ok sample_step_state ∧
  st_finished sample_step_state = true ∧
  (let items := completed_items sample_events in
   NoDup (item_id <$> items) ∧ (∀ id, id ∈ item_id <$> items → id ∉ item_id <$> [user_text "u1" "hi"])
   ∧ NoDup (calls_of items) ∧ (∀ id, id ∈ calls_of items → id ∉ calls_of [user_text "u1" "hi"])
   ∧ Forall (λ i, model_item i ∧ named_call i) items
   ∧ (st_finished sample_step_state = true →
       (∃ pre u, sample_events = pre ++ [MStepFinished u] ∧ existsb is_finish pre = false)
       ∧ ∀ id, id ∈ omap structured_item sample_events → id ∈ item_id <$> items)).
Proof.
  split_and!; [vm_compute; reflexivity|vm_compute; reflexivity|].
  apply (accepted_step_is_well_formed [user_text "u1" "hi"] sample_events sample_step_state).
  vm_compute. reflexivity.
Defined.

(** The store's bookkeeping of the items of a step, each with its two fresh ids. *)
Definition store_item (step : string) (acc : list CanonicalItem * StoredRun)
    (entry : CanonicalItem * (string * string)) : Result (list CanonicalItem * StoredRun) :=
  let '(item, (fresh_result, fresh_execution)) := entry in
  op_model_item acc.1 acc.2 step item fresh_result fresh_execution.

Definition step_open (step : string) (run : StoredRun) : Prop :=
  ∃ s, last (run_model_inputs run) = Some s ∧ step_id s = step ∧ completed s = false.

Lemma op_model_item_accepts h run step item fr fe :
  step_open step run → model_item item ∧ named_call item →
  item_id item ∉ item_id <$> h → (∀ c, tool_call_id item = Some c → c ∉ calls_of h) →
  ∃ run', op_model_item h run step item fr fe = Ok (h ++ [item], run') ∧ step_open step run'.
Proof.
  intros (s & Hs & Hid & Hc) [[Hu Hr] Hn] Hfresh Hcalls. unfold op_model_item. rewrite Hs. simpl.
  assert (existsb (λ i, item_id i == item_id item) h = false) as ->.
  { apply not_true_iff_false. intros (i & Hi & Heq)%existsb_exists. apply Hfresh.
    apply bool_decide_eq_true in Heq. rewrite <-Heq. apply list_elem_of_fmap_2. by apply list_elem_of_In. }
  rewrite bool_decide_eq_true_2, Hc, Hu, Hr by done. simpl.
  destruct item as [| | |i c ns n a raw|]; simpl; try (eexists; split; [done|by exists s]).
  destruct Hn as [Hn _]. rewrite reject_if_false; [simpl; eexists; split; [done|by exists s]|].
  apply orb_false_iff. split; [by destruct c|].
  apply not_true_iff_false. intros (j & Hj & Heq)%existsb_exists. apply bool_decide_eq_true in Heq.
  apply (Hcalls c eq_refl). apply list_elem_of_omap. exists j. split; [by apply list_elem_of_In|done].
Qed.

Lemma store_accepts step h run items ids :
  step_open step run → length ids = length items →
  fresh_list (list_to_set (item_id <$> h) : gset string) (item_id <$> items) →
  fresh_list (list_to_set (calls_of h) : gset string) (calls_of items) →
  Forall (λ i, model_item i ∧ named_call i) items →
  ∃ run', fold_res (store_item step) (h, run) (zip items ids) = Ok (h ++ items, run').
Proof.
  revert h run ids. induction items as [|item items IH]; intros h run ids Ho Hlen Hi Hc Hm.
  { exists run. by rewrite app_nil_r. }
  destruct ids as [|[fr fe] ids]; [done|]. apply Forall_cons in Hm as [Hitem Hm].
  rewrite fmap_cons, fresh_list_cons in Hi. destruct Hi as [Hi1 Hi2].
  destruct (op_model_item_accepts h run step item fr fe) as (run1 & H1 & Ho1); [done|done|set_solver| |].
  { intros c Hid. unfold calls_of in Hc. csimpl in Hc. rewrite Hid in Hc.
    apply fresh_list_cons in Hc as [Hc _]. unfold calls_of. set_solver. }
  simpl. rewrite H1. simpl.
  destruct (IH (h ++ [item]) run1 ids) as [run' Hr']; [done|by injection Hlen| | |done|].
  - replace (list_to_set (item_id <$> h ++ [item]) : gset string)
      with ({[item_id item]} ∪ list_to_set (item_id <$> h) : gset string) by (rewrite fmap_app; set_solver). done.
  - rewrite calls_of_app. unfold calls_of in *. csimpl in Hc. simpl.
    destruct (tool_call_id item) as [c|]; [|by rewrite app_nil_r].
    apply fresh_list_cons in Hc as [_ Hc].
    replace (list_to_set (omap tool_call_id h ++ [c]) : gset string)
      with ({[c]} ∪ list_to_set (omap tool_call_id h) : gset string) by set_solver. done.
  - exists run'. by rewrite Hr', <-app_assoc.
Qed.

(** The engine and the store agree: every item that the step check accepts is
    one that the store appends to the open step, so a durable run is never refused
    an item that the engine has taken. *)
Theorem accepted_items_are_storable history run step events st ids :
  fold_res observe (step_state_new history) events = Ok st → step_open step run →
  length ids = length (completed_items events) →
  ∃ run', fold_res (store_item step) (history, run) (zip (completed_items events) ids)
          = Ok (history ++ completed_items events, run').
Proof.
  intros H Ho Hlen. destruct (observe_all (step_state_new history) events st eq_refl H) as [H1 _ H2 _ H3 _ _]. by apply store_accepts.
Qed.

Lemma accepted_items_are_storable_witness :
  fold_res observe (step_state_new (sr_history sample_requested)) sample_events
    = fold_res observe (step_state_new (sr_history sample_requested)) sample_events ∧
  ∃ run', fold_res (store_item "step") (sr_history sample_requested, sample_run sample_requested)
            (zip (completed_items sample_events) [("r0", "e0"); ("r1", "e1"); ("r2", "e2")])
          = Ok (sr_history sample_requested ++ completed_items sample_events, run').
Proof.
  split; [reflexivity|].
  apply (accepted_items_are_storable (sr_history sample_requested) (sample_run sample_requested) "step" sample_events
    (match fold_res observe (step_state_new (sr_history sample_requested)) sample_events with
     | Ok st => st | Err _ => step_state_new [] end)).
  - vm_compute. reflexivity.
  - eexists. split; [vm_compute; reflexivity|by split].
  - reflexivity.
Defined.

(** The engine's running total and the store's replay of the recorded usages
    add up the same numbers and overflow at the same step. *)
Theorem usage_totals_agree total step u :
  cumulative_usage total step = Ok u ↔ checked_usage_step total step = Ok u.
Proof.
  unfold cumulative_usage, checked_usage_step, add_usage.
  repeat (match goal with |- context [checked_add ?a ?b] => destruct (checked_add a b) end; simpl; try (split; discriminate)).
  split; by intros [= <-].
Qed.

(** ** Tool batches *)

Section batches.
Context {J : Type} `{!Journal J} `{ToolExternals}.
Variable (registry : ToolRegistry) (session_registry : option ToolRegistry) (has_events : bool).
Variable (turn_id : string) (new_id : nat → ItemId).

(** whatever the schedule and the environment do, while a tool that does not
    support parallel execution runs, no other task of the batch is inside the
    barrier, so no other tool runs. *)
Theorem exclusive_tools_run_alone calls (journal : option J) labels b i j p q :
  run_labels registry session_registry has_events turn_id new_id (batch_new calls journal) labels = Some b →
  b_phases b !! i = Some (Executing p) → p_parallel p = false →
  i ≠ j → b_phases b !! j = Some q → guard_of q = None.
Proof.
  intros Hr Hi Hp Hne Hj. apply reachable_barrier in Hr.
  eapply (Hr i j (Executing p) q); [done..|]. simpl. by rewrite Hp.
Qed.

(** When a batch has returned its results, they are one tool result per call,
    in the order of the calls, whatever the order of their completion. *)
Theorem complete_batch_answers_in_order `{!JournalSpec J} calls (journal : option J) labels b results :
  Forall (λ i, is_tool_call i = true) calls →
  run_labels registry session_registry has_events turn_id new_id (batch_new calls journal) labels = Some b →
  batch_result b = Some (Ok results) →
  answers_of results = calls_of calls ∧ Forall (λ i, is_tool_result i = true) results.
Proof. intros Hc Hr Hb. eapply batch_answers; [|done]. by eapply reachable_consistent. Qed.

Lemma work_left_new calls (journal : option J) : work_left (batch_new calls journal) = 6 * length calls.
Proof.
  unfold work_left. cbn [b_phases b_failure batch_new].
  induction (length calls) as [|n IH]; [done|]. cbn [replicate fmap list_fmap]. csimpl. rewrite IH. simpl. lia.
Qed.

(** C36: a batch cannot deadlock and cannot run forever: as long as it has not
    returned, cancelled or not, some task can take its turn; and no schedule has more
    than six turns per call, however often the batch is cancelled in between. *)
Theorem batch_never_stalls calls (journal : option J) labels b :
  run_labels registry session_registry has_events turn_id new_id (batch_new calls journal) labels = Some b →
  (batch_result b = None →
     ∃ l, l ≠ LCancel ∧ is_Some (step registry session_registry has_events turn_id new_id b l))
  ∧ length (turns labels) <= 6 * length calls.
Proof.
  intros Hr. split.
  - intros Hb. apply batch_progress; [by eapply reachable_lengths|done].
  - apply labels_bounded in Hr. rewrite work_left_new in Hr. lia.
Qed.

(** C7: no tool runs without its dispatch intent being committed first, with the
    arguments it runs with, and a call has at most one committed intent and at most
    one committed outcome; a finished call has exactly one outcome. *)
Theorem effects_follow_committed_intents `{!JournalSpec J} calls (j0 : J) labels b :
  Forall (λ i, is_tool_call i = true) calls → NoDup (calls_of calls) →
  run_labels registry session_registry has_events turn_id new_id (batch_new calls (Some (j0, []))) labels = Some b →
  ∃ j log, b_journal b = Some (j, log) ∧
    ∀ i id p, call_at calls i = Some id → b_phases b !! i = Some p →
      length (intents id log) <= 1 ∧ length (outcomes id log) <= 1
      ∧ (∀ e, p = Executing e → exec_call_id (p_record e) = id ∧ intents id log = [p_record e])
      ∧ (∀ r, p = Finished r → length (outcomes id log) = 1).
Proof.
  intros Hc Hnd Hr. apply reachable_ledger in Hr as [Hcons (j & log & Hj & Hl)]; [|done..].
  exists j, log. split; [done|]. intros i id p Hid Hp.
  destruct (consistent_phase _ _ _ _ Hcons Hp) as (id' & Hid' & Hrec & _). simplify_eq.
  specialize (Hl i id p Hid Hp). split_and!.
  - destruct p; simpl in Hl; destruct Hl as [H1 H2]; try rewrite H1; simpl; lia.
  - destruct p; simpl in Hl; destruct Hl as [H1 H2]; try rewrite H2; simpl; try lia.
    destruct (b_failure b); simpl in *; lia.
  - intros e ->. split; [by apply Hrec|]. by destruct Hl.
  - intros r ->. by destruct Hl.
Qed.
End batches.

(** A schedule of the two sample calls in which the reader overtakes the shell. *)
Definition sample_labels : list Label :=
  [LPrepare 1 (Ok Accept); LPrepare 0 (Ok Accept); LAcquire 0; LIntent 0; LDispatch 0 true;
   LComplete 0 (Ok (OutputText "text", false)); LAcquire 1; LIntent 1; LDispatch 1 true].
Definition sample_finish : list Label :=
  [LComplete 1 (Err "exit 1"); LOutcome 1; LOutcome 0].

Definition run_sample {J} `{!Journal J} (j : J) (labels : list Label) : option (Batch J) :=
  run_labels sample_registry None true "turn" new_ids (batch_new sample_calls (Some j)) labels.
Definition sample_batch {J} `{!Journal J} (j : J) (labels : list Label) : Batch J :=
  default (batch_new [] None) (run_sample j labels).

Lemma exclusive_tools_run_alone_witness :
  run_sample () sample_labels
    = Some (sample_batch () sample_labels) ∧
  ∃ p q, b_phases (sample_batch () sample_labels) !! 1 = Some (Executing p)
    ∧ p_parallel p = false
    ∧ b_phases (sample_batch () sample_labels) !! 0 = Some q ∧ guard_of q = None.
Proof.
  split; [vm_compute; reflexivity|].
  eexists _, _. split; [vm_compute; reflexivity|]. split; [vm_compute; reflexivity|].
  split; [vm_compute; reflexivity|].
  eapply (exclusive_tools_run_alone sample_registry None true "turn" new_ids sample_calls
    (Some ()) sample_labels _ 1 0);
    [vm_compute; reflexivity..|discriminate|vm_compute; reflexivity].
Defined.

Definition sample_results : list CanonicalItem :=
  match batch_result (sample_batch (sample_journal sample_two_calls) (sample_labels ++ sample_finish)) with
  | Some (Ok results) => results
  | _ => []
  end.

(** The journal has put the results under the ids it reserved. *)
Example sample_results_ids : item_id <$> sample_results = ["r1"; "r2"].
Proof. vm_compute. reflexivity. Qed.

Lemma complete_batch_answers_in_order_witness :
  run_sample (sample_journal sample_two_calls) (sample_labels ++ sample_finish)
    = Some (sample_batch (sample_journal sample_two_calls) (sample_labels ++ sample_finish)) ∧
  answers_of sample_results = calls_of sample_calls ∧ Forall (λ i, is_tool_result i = true) sample_results.
Proof.
  split; [vm_compute; reflexivity|].
  eapply (complete_batch_answers_in_order sample_registry None true "turn" new_ids sample_calls
    (Some (sample_journal sample_two_calls)) (sample_labels ++ sample_finish));
    [by repeat constructor|vm_compute; reflexivity..].
Defined.

Lemma batch_never_stalls_witness :
  run_sample () sample_labels
    = Some (sample_batch () sample_labels) ∧
  (batch_result (sample_batch () sample_labels) = None →
     ∃ l, l ≠ LCancel ∧ is_Some (step sample_registry None true "turn" new_ids
                                   (sample_batch () sample_labels) l))
  ∧ length (turns sample_labels) <= 6 * length sample_calls.
Proof.
  split; [vm_compute; reflexivity|].
  apply (batch_never_stalls sample_registry None true "turn" new_ids sample_calls
    (Some ()) sample_labels).
  vm_compute. reflexivity.
Defined.

Lemma effects_follow_committed_intents_witness :
  run_sample ((), []) sample_labels
    = Some (sample_batch ((), []) sample_labels) ∧
  ∃ j log, b_journal (sample_batch ((), []) sample_labels) = Some (j, log) ∧
    ∀ i id p, call_at sample_calls i = Some id →
      b_phases (sample_batch ((), []) sample_labels) !! i = Some p →
      length (intents id log) <= 1 ∧ length (outcomes id log) <= 1
      ∧ (∀ e, p = Executing e → exec_call_id (p_record e) = id ∧ intents id log = [p_record e])
      ∧ (∀ r, p = Finished r → length (outcomes id log) = 1).
Proof.
  split; [vm_compute; reflexivity|].
  apply (effects_follow_committed_intents sample_registry None true "turn" new_ids sample_calls
    () sample_labels).
  - by repeat constructor.
  - apply (bool_decide_unpack _). vm_compute. done.
  - vm_compute. reflexivity.
Defined.

(** ** Turns *)

(** C6: a turn of a session without a journal only appends, however it ends: with a
    result, with an error, or cancelled at any [await] point, under every tool schedule,
    every consumer and every model. A result reports exactly the items that were
    appended, and an interrupted turn keeps its items and adds nothing but tool results.
    And the turn leaves a legal conversation, provided that it found one which its input
    continued legally, and that the model emits a step's messages before its tool calls. *)
Theorem turn_leaves_legal_history {J Adapter : Type} `{!Journal J, !JournalSpec J}
    `{Externals, ToolExternals, EngineExternals} (self : @AgentEngine J Adapter) turn_id context supply
    schedule hash_order max_steps input r out r' :
  run_turn_with_context self turn_id context supply schedule hash_order max_steps input r = (out, r') →
  th_journal (rn_session r) = None → rn_items r = [] →
  match out with
  | Ok res => th_history (rn_session r') = th_history (rn_session r) ++ er_generated_items res
  | Err _ => ∃ closed, th_history (rn_session r') = th_history (rn_session r) ++ rn_items r' ++ closed
               ∧ Forall (λ i, is_tool_result i = true) closed
  end
  ∧ (Orderly self (th_provider (rn_session r)) →
     Conversation (th_history (rn_session r)) → Conversation (th_history (rn_session r) ++ input) →
     Conversation (th_history (rn_session r'))).
Proof.
  intros Hrun Hj Hi.
  assert (At (th_provider (rn_session r)) (th_adapter (rn_session r)) (th_history (rn_session r))
    (th_history (rn_session r)) r) as Hat by (constructor; try done; by rewrite Hi, app_nil_r).
  pose proof (run_turn_grows self turn_id context supply schedule hash_order _ _ _ max_steps input r Hat) as Hg.
  rewrite Hrun in Hg. split; [exact Hg|]. intros Hord Hc Hin.
  pose proof (run_turn_legal self turn_id context supply schedule hash_order _ _ _ max_steps input r Hord Hat Hc Hin) as Hl.
  rewrite Hrun in Hl. apply Hl.
Qed.

Definition sample_caps : ModelCapabilities := http_capabilities "responses".
Definition sample_options : SamplingOptions :=
  {| so_model := "model"; so_temperature := None; so_max_tokens := None; so_reasoning_effort := None;
     so_thinking_budget := None; so_prompt_caching := false |}.

(** A model that plays a list of steps. *)
Definition scripted (steps : list (list ModelEvent)) : ModelProvider :=
  {| capabilities := λ _, Ok sample_caps;
     stream := λ request, Ok (Ok <$> default [] (steps !! mr_step_index request)) |}.

Definition sample_thread (provider : ModelProvider) :
    ThreadSession ToolRegistry () ModelProvider SamplingOptions ContextPolicy () :=
  replace_history [user_text "u0" "before"; assistant_text "a0" "ok" FinalAnswer]
    (with_id_prompt_and_provider "thread" None provider sample_registry sample_options
      (λ request, full_history_build request false false)).

Definition sample_engine : @AgentEngine () () :=
  {| legacy_http_client := None; engine_registry := sample_registry; stream_provider := None |}.

(** A run with its remaining [await] points. *)
Definition sample_engine_run (provider : ModelProvider) (polls : option nat) : Run :=
  {| rn_session := sample_thread provider; rn_items := []; rn_usage := usage_default; rn_executions := [];
     rn_events := []; rn_polls := polls; rn_room := None; rn_fresh := 0 |}.

Definition sample_schedule (k : nat) : list Label := sample_labels ++ sample_finish.

Definition sample_script : ModelProvider :=
  scripted [sample_events; [MItemCompleted (assistant_text "a2" "done" FinalAnswer); MStepFinished sample_usage]].

Definition sample_context : RunContextInfo :=
  {| ctx_agent_name := None; ctx_thread_id := "thread"; ctx_turn_id := "turn"; ctx_deadline_unix_ms := None |}.

Definition run_sample_turn (provider : ModelProvider) (polls : option nat) :=
  run_turn_with_context sample_engine "turn" sample_context new_ids sample_schedule map_to_list 4
    [user_text "u1" "hi"] (sample_engine_run provider polls).

(** The turn runs two steps, and a cancelled one is repaired. *)
Example sample_turn_history :
  item_id <$> th_history (rn_session (run_sample_turn sample_script None).2)
    = ["u0"; "a0"; "u1"; "a1"; "i1"; "i2"; "new-1"; "new-2"; "a2"].
Proof. vm_compute. reflexivity. Qed.
Example sample_turn_cancelled :
  is_tool_result <$> th_history (rn_session (run_sample_turn sample_script (Some 14)).2)
    = [false; false; false; false; false; true].
Proof. vm_compute. reflexivity. Qed.

Lemma sample_orderly : Orderly sample_engine sample_script.
Proof.
  split; [|done..]. intros request events [= <-].
  destruct (mr_step_index request) as [|[|k]].
  - exists [assistant_text "a1" "I will look" Commentary], sample_calls. by repeat constructor.
  - exists [assistant_text "a2" "done" FinalAnswer], []. by repeat constructor.
  - exists [], []. by repeat constructor.
Qed.

Definition sample_out := (run_sample_turn sample_script (Some 14)).1.
Definition sample_after := (run_sample_turn sample_script (Some 14)).2.

Lemma turn_leaves_legal_history_witness :
  sample_out = Err run_cancelled ∧
  (∃ closed, th_history (rn_session sample_after)
                  = th_history (sample_thread sample_script) ++ rn_items sample_after ++ closed
                 ∧ Forall (λ i, is_tool_result i = true) closed)
  ∧ Conversation (th_history (rn_session sample_after)).
Proof.
  assert (sample_out = Err run_cancelled) as Hout by (vm_compute; reflexivity). split; [exact Hout|].
  destruct (turn_leaves_legal_history sample_engine "turn" sample_context new_ids sample_schedule map_to_list 4
    [user_text "u1" "hi"] (sample_engine_run sample_script (Some 14)) sample_out sample_after) as [Hgrown Hlegal].
  - apply surjective_pairing.
  - reflexivity.
  - reflexivity.
  - rewrite Hout in Hgrown. split; [exact Hgrown|]. apply Hlegal.
    + apply sample_orderly.
    + apply validate_items_Conversation. vm_compute. reflexivity.
    + apply validate_items_Conversation. vm_compute. reflexivity.
Defined.

(** A step whose message follows its tool call: accepted, and its tool runs. *)
Definition trailing_message : ModelProvider :=
  scripted [[MItemCompleted (call_item "i1" "c1" "read");
             MItemCompleted (assistant_text "a1" "looking" Commentary); MStepFinished sample_usage]].

(** The assumption on the order of a step's items is needed. [ModelStepState]
    accepts a message that a model completes after a tool call of the same step, and
    the engine runs the tool, but it records the result behind the message: the next
    projection is refused, the run fails, and the history stays refused for every
    later turn of the session, whatever its input. *)
Theorem trailing_message_spoils_history :
  let fin := run_turn_with_context sample_engine "turn" sample_context new_ids
               (λ _, [LPrepare 0 (Ok Accept); LAcquire 0; LIntent 0; LDispatch 0 true;
                      LComplete 0 (Ok (OutputText "text", false)); LOutcome 0])
               map_to_list 4 [user_text "u1" "hi"] (sample_engine_run trailing_message None) in
  fin.1 = Err (Internal "Context policy failed: Context item 4 interrupts an unanswered tool-call batch: c1")
  ∧ exec_call_id <$> rn_executions fin.2 = ["c1"]
  ∧ ∀ input, is_err (validate_items (th_history (rn_session fin.2) ++ input)) = true.
Proof.
  intros fin. split_and!; [vm_compute; reflexivity|vm_compute; reflexivity|]. intros input.
  assert (th_history (rn_session fin.2) =
    [user_text "u0" "before"; assistant_text "a0" "ok" FinalAnswer; user_text "u1" "hi";
     call_item "i1" "c1" "read"; assistant_text "a1" "looking" Commentary;
     tool_result "new-1" "c1" (OutputText "text") false]) as -> by (vm_compute; reflexivity).
  reflexivity.
Qed.
