(* ===== verification/AdapterGuarantees.v ===== *)
(** * Guarantees of the provider adapters

    The properties of the three wire formats, from the request to the step that the
    engine makes of the answer, and a concrete instance of each that has hypotheses. *)

From stdpp Require Import pretty.
From S2P Require Import Prelude Protocol StoreState Samples CoreContext CoreSession ModelStep Coordinator Engine EngineLegal CoreGuarantees.
From S2P Require Import Adapters AnthropicAdapter ResponsesAdapter ChatAdapter AdapterLaws AdapterSteps ResponsesLaws AdapterContent AdapterRequests Providers.

(** ** A sample wire: the texts that arrive, by their values *)

Definition chunk (delta : Value) : Value := Object {["choices" := Array [Object {["delta" := delta]}]]}.
Definition finish_chunk (reason : string) : Value :=
  Object {["choices" := Array [Object {["delta" := Object ∅; "finish_reason" := Str reason]}];
           "usage" := Object {["prompt_tokens" := u64_value 7; "completion_tokens" := u64_value 5]}]}.
Definition call_chunk (index : N) (id name arguments : string) : Value :=
  chunk (Object {["tool_calls" := Array [Object {["index" := u64_value index; "id" := Str id;
    "function" := Object {["name" := Str name; "arguments" := Str arguments]}]}]]}).

Definition response_item (kind : string) (more : Map) : Value :=
  Object (<["id" := Str "m1"]> (<["type" := Str kind]> more)).
Definition response_event (kind : string) (more : Map) : Value := Object (<["type" := Str kind]> more).
Definition response_message (text : string) : Value :=
  response_item "message" {["role" := Str "assistant";
    "content" := Array [Object {["type" := Str "output_text"; "text" := Str text]}]]}.
Definition response_call : Value :=
  Object {["id" := Str "f1"; "type" := Str "function_call"; "call_id" := Str "c1"; "name" := Str "read";
           "arguments" := Str "{}"]}.

Definition json_table : gmap string Value := {[
  "{}" := Object ∅;
  "think" := chunk (Object {["reasoning_content" := Str "hm "]});
  "say" := chunk (Object {["content" := Str "I will "]});
  "look" := chunk (Object {["content" := Str "look"]});
  "read" := call_chunk 0 "c1" "read" "{";
  "shell" := call_chunk 1 "c2" "shell" "{}";
  "more" := chunk (Object {["tool_calls" := Array [Object {["index" := u64_value 0;
              "function" := Object {["arguments" := Str "}"]}]}]]});
  "calls" := finish_chunk "tool_calls";
  "stop" := finish_chunk "stop"
]}.
Definition response_table : gmap string Value := {[
  "added" := response_event "response.output_item.added" {["output_index" := u64_value 0; "item" := response_message ""]};
  "delta" := response_event "response.output_text.delta"
               {["output_index" := u64_value 0; "item_id" := Str "m1"; "delta" := Str "hello"]};
  "item" := response_event "response.output_item.done"
              {["output_index" := u64_value 0; "item" := response_message "hello"]};
  "completed" := response_event "response.completed"
              {["response" := Object {["status" := Str "completed";
                  "output" := Array [response_message "hello"; response_call];
                  "usage" := Object {["input_tokens" := u64_value 3; "output_tokens" := u64_value 2]}]}]}
]}.
Definition anthropic_table : gmap string Value := {[
  "open" := Object {["type" := Str "content_block_start"; "content_block" := Object {["type" := Str "text"]}]};
  "hel" := Object {["type" := Str "content_block_delta";
                    "delta" := Object {["type" := Str "text_delta"; "text" := Str "hel"]}]};
  "lo" := Object {["type" := Str "content_block_delta";
                   "delta" := Object {["type" := Str "text_delta"; "text" := Str "lo"]}]};
  "close" := Object {["type" := Str "content_block_stop"]};
  "end" := Object {["type" := Str "message_stop"]}
]}.

#[export] Instance sample_wire : AdapterExternals := {
  from_str := λ s, ok_or ((json_table ∪ response_table ∪ anthropic_table) !! s) "expected value at line 1 column 1";
  to_string := λ _, "{}";
  header_value := λ s, Ok s;
}.

Definition frames (l : list string) : list SseEvent := Ok <$> l.
Definition chat_frames : list SseEvent := frames ["think"; "say"; "look"; "read"; "shell"; "more"; "calls"; "[DONE]"].
Definition response_frames : list SseEvent := frames ["added"; "delta"; "item"; "completed"].
Definition anthropic_frames : list SseEvent := frames ["open"; "hel"; "lo"; "close"; "end"].
Definition chat_stream (stream : list SseEvent) : BoxedEventStream :=
  stream_of (chat_block "turn" "thread" new_ids stream) chat_state_new.

Instance new_ids_inj : Inj (=) (=) new_ids.
Proof. intros n m Heq. unfold new_ids in Heq. by apply (inj _), (inj _) in Heq. Qed.

(** The items of the sample streams *)
Definition sample_step_items (stream : BoxedEventStream) : list CanonicalItem :=
  completed_items (ok_events (step_of stream)).

Example chat_sample :
  sample_step_items (chat_stream chat_frames) =
    [Reasoning "new-0" "hm " None None; AssistantMessage "new-1" [ContentText "I will look"] FinalAnswer;
     ToolCall "new-2" "c1" None "read" (Some (Object ∅)) "{}"; ToolCall "new-3" "c2" None "shell" (Some (Object ∅)) "{}"].
Proof. vm_compute. reflexivity. Qed.
Example response_sample :
  sample_step_items (responses_parse_stream "turn" "thread" response_frames) =
    [AssistantMessage "m1" [ContentText "hello"] FinalAnswer; ToolCall "f1" "c1" None "read" (Some (Object ∅)) "{}"].
Proof. vm_compute. reflexivity. Qed.
Example anthropic_sample :
  sample_step_items (anthropic_parse_stream "turn" "thread" new_ids anthropic_frames) =
    [AssistantMessage "new-1" [ContentText "hello"] FinalAnswer].
Proof. vm_compute. reflexivity. Qed.

(** ** Streams *)

(** C9: whatever arrives, and however the connection ends, the stream of each decoder
    starts one turn, yields only model output of that turn, and ends exactly once: in
    an error, in a failed turn, or in a completed turn. It completes only when the
    provider said that it was done: Anthropic with [message_stop], Chat Completions
    with a [finish_reason] that is [stop] or [tool_calls], Responses with a completed
    [response.completed]. A stream that breaks off never passes for a complete one. *)
Theorem decoded_streams_settle `{AdapterExternals} turn_id thread_id (new_item_id : nat → string) stream :
  Settles turn_id thread_id (anthropic_done stream)
    (anthropic_parse_stream turn_id thread_id new_item_id stream)
  ∧ Settles turn_id thread_id (chat_done stream)
      (stream_of (chat_block turn_id thread_id new_item_id stream) chat_state_new)
  ∧ Settles turn_id thread_id (responses_done stream) (responses_parse_stream turn_id thread_id stream).
Proof. split_and!; [apply anthropic_settles|apply chat_settles|apply responses_settles]. Qed.

(** C10: the engine's check of a step ([ModelStepState]) accepts every event that the
    Chat decoder yields, and finishes the step exactly when the stream completes it,
    provided that the calls of the model have a name and an identity that neither the
    history nor another call of the step has ([calls_fit]), and that the identities the
    decoder makes up for items are new: the decoder starts, continues and completes its
    items as the engine demands. *)
Theorem chat_step_accepted `{AdapterExternals} turn_id thread_id (new_item_id : nat → string) history stream :
  Inj (=) (=) new_item_id → (∀ n, new_item_id n ∉ item_id <$> history) →
  StepAccepted history (stream_of (chat_block turn_id thread_id new_item_id stream) chat_state_new).
Proof. apply chat_accepted. Qed.

Lemma sample_ids_new n : new_ids n ∉ item_id <$> [user_text "u0" "hi"].
Proof. simpl. intros Hin%list_elem_of_singleton. discriminate Hin. Qed.

Lemma chat_step_accepted_witness :
  Forall named_call (sample_step_items (chat_stream chat_frames))
  ∧ length (sample_step_items (chat_stream chat_frames)) = 4
  ∧ ∃ st, fold_res observe (step_state_new [user_text "u0" "hi"]) (ok_events (step_of (chat_stream chat_frames))) = Ok st
      ∧ st_finished st = existsb is_finish (ok_events (step_of (chat_stream chat_frames))).
Proof.
  assert (calls_fit ∅ (sample_step_items (chat_stream chat_frames))) as Hfit.
  { rewrite chat_sample. split; [by repeat constructor|]. apply fresh_list_empty.
    apply (bool_decide_unpack _). vm_compute. exact I. }
  split_and!; [apply Hfit|vm_compute; reflexivity|].
  apply (chat_step_accepted "turn" "thread" new_ids [user_text "u0" "hi"] chat_frames new_ids_inj sample_ids_new Hfit).
Defined.

(** the same for Responses, whose items carry the provider's identifiers: the
    engine accepts the step if they are not already in the history, and the calls have
    names and identities of their own. *)
Theorem responses_step_accepted `{AdapterExternals} turn_id thread_id history stream :
  let out := responses_parse_stream turn_id thread_id stream in
  (∀ id, id ∈ started_ids (ok_events (step_of out)) → id ∉ item_id <$> history) →
  StepAccepted history out.
Proof. apply responses_accepted. Qed.

Lemma responses_step_accepted_witness :
  let out := responses_parse_stream "turn" "thread" response_frames in
  started_ids (ok_events (step_of out)) = ["m1"; "f1"]
  ∧ ∃ st, fold_res observe (step_state_new [user_text "u0" "hi"]) (ok_events (step_of out)) = Ok st
      ∧ st_finished st = existsb is_finish (ok_events (step_of out)).
Proof.
  intros out. assert (started_ids (ok_events (step_of out)) = ["m1"; "f1"]) as Hids by (vm_compute; reflexivity).
  split; [exact Hids|].
  apply (responses_step_accepted "turn" "thread" [user_text "u0" "hi"] response_frames).
  - fold out. rewrite Hids. apply Forall_forall. apply (bool_decide_unpack _). vm_compute. exact I.
  - fold out. change (completed_items (ok_events (step_of out))) with (sample_step_items out). unfold out.
    rewrite response_sample. split; [by repeat constructor|]. apply fresh_list_empty.
    apply (bool_decide_unpack _). vm_compute. exact I.
Defined.

(** C11: a completed Responses turn has emitted exactly the items of the terminal
    output, each of them once, whether they were streamed before or come with the
    terminal event only, and reports the usage of that event. *)
Theorem responses_emit_terminal_output `{AdapterExternals} turn_id thread_id stream tr usage :
  responses_parse_stream turn_id thread_id stream = (Ok <$> tr) ++ [Ok (EvTurnCompleted turn_id thread_id usage)] →
  ∃ data value output items, Ok data ∈ stream ∧ from_str data = Ok value
    ∧ str_at "type" value = Some "response.completed"
    ∧ at_key "output" (at_key "response" value) = Array output
    ∧ usage = response_usage (at_key "usage" (at_key "response" value))
    ∧ map_res canonical output = Ok items ∧ completed_items (model_events tr) ≡ₚ items.
Proof.
  intros Hout. destruct (responses_snapshot _ _ _ _ _ Hout tr usage eq_refl)
    as (data & value & output & items & H1 & H2 & H3 & H4 & H5 & H6 & H7).
  exists data, value, output, items. split_and!; try done.
  rewrite model_events_snoc in H7. simpl in H7. by rewrite completed_items_snoc, app_nil_r in H7.
Qed.

Definition response_trace : list AgentStreamEvent :=
  take 6 (ok_events (responses_parse_stream "turn" "thread" response_frames)).

Lemma responses_emit_terminal_output_witness :
  length response_trace = 6 ∧
  ∃ data value output items, Ok data ∈ response_frames ∧ from_str data = Ok value
    ∧ str_at "type" value = Some "response.completed"
    ∧ at_key "output" (at_key "response" value) = Array output
    ∧ {| input_tokens := 3; output_tokens := 2; reasoning_tokens := 0; cache_creation_input_tokens := 0;
         cache_read_input_tokens := 0 |} = response_usage (at_key "usage" (at_key "response" value))
    ∧ map_res canonical output = Ok items ∧ completed_items (model_events response_trace) ≡ₚ items.
Proof.
  split; [vm_compute; reflexivity|].
  apply (responses_emit_terminal_output "turn" "thread" response_frames response_trace).
  vm_compute. reflexivity.
Defined.

(** An item that the Anthropic or the Chat decoder completes holds exactly what was
    streamed for it, at the moment it is completed: its text, its thinking, its signature
    and the raw arguments of a call are the concatenation of the deltas with its
    identifier, and the parsed arguments are those raw arguments read as JSON. The one
    exception is the reasoning of a Chat step, which is all the reasoning of the step. *)
Theorem completed_items_carry_deltas `{AdapterExternals} turn_id thread_id (new_item_id : nat → string) stream :
  Inj (=) (=) new_item_id →
  all_carried item_carries (ok_events (anthropic_parse_stream turn_id thread_id new_item_id stream))
  ∧ all_carried chat_item_carries
      (ok_events (stream_of (chat_block turn_id thread_id new_item_id stream) chat_state_new)).
Proof. intros Hinj. split; [by apply anthropic_carries|by apply chat_carries]. Qed.

Lemma completed_items_carry_deltas_witness :
  length (ok_events (anthropic_parse_stream "turn" "thread" new_ids anthropic_frames)) = 6
  ∧ all_carried item_carries (ok_events (anthropic_parse_stream "turn" "thread" new_ids anthropic_frames))
  ∧ all_carried chat_item_carries (ok_events (chat_stream chat_frames)).
Proof.
  split; [vm_compute; reflexivity|].
  pose proof (completed_items_carry_deltas "turn" "thread" new_ids anthropic_frames new_ids_inj) as [Ha _].
  pose proof (completed_items_carry_deltas "turn" "thread" new_ids chat_frames new_ids_inj) as [_ Hc].
  exact (conj Ha Hc).
Defined.

(** The reasoning buffer of the Chat decoder is never cleared: reasoning that resumes
    after text is a second item, which nothing starts and which repeats the first. *)
Example resumed_reasoning_repeats :
  sample_step_items (chat_stream (frames ["think"; "say"; "think"; "stop"]))
    = [Reasoning "new-0" "hm " None None; Reasoning "new-2" "hm hm " None None;
       AssistantMessage "new-1" [ContentText "I will "] FinalAnswer]
  ∧ started_ids (ok_events (step_of (chat_stream (frames ["think"; "say"; "think"; "stop"])))) = ["new-0"; "new-1"].
Proof. vm_compute. split; reflexivity. Qed.

(** ** Requests *)

(** for Anthropic the conversation becomes messages of strictly alternating roles,
    none of them empty, which say, block by block and in order, exactly what the items
    say; the items that the capability check lets through lose no block. Prompt caching
    marks the last block of the last message and nothing else. *)
Theorem anthropic_messages_alternate `{AdapterExternals} history prompt_caching u :
  validate_capable_items history (http_capabilities "anthropic") = Ok u →
  ∃ groups, anthropic_messages history prompt_caching
      = message_of <$> (if prompt_caching then update_last mark_group groups else groups)
    ∧ alternating groups.*1 ∧ Forall (λ g, g.2 ≠ []) groups
    ∧ groups ≫= group_blocks = history ≫= item_blocks
    ∧ Forall (λ item, length (item_blocks item) = item_parts item) history.
Proof.
  intros Hv. destruct (push_items_groups history []) as (groups & Hg & [Ha Hn] & Hb); [by repeat constructor|].
  exists groups. unfold anthropic_messages. simpl in Hg, Hb. rewrite Hg.
  split_and!; [|done|done|done|by eapply valid_items_parts].
  destruct prompt_caching; [|done]. symmetry. apply fmap_update_last. intros g. symmetry. apply mark_message_group.
Qed.

Definition sample_conversation : list CanonicalItem :=
  [user_text "u1" "look"; Reasoning "r1" "hm" (Some "sig") None; assistant_text "a1" "I will" FinalAnswer;
   call_item "i1" "c1" "read"; call_item "i2" "c2" "shell";
   ToolResult "t1" "c1" (OutputText "found") false; ToolResult "t2" "c2" (OutputText "broken") true;
   user_text "u2" "and now?"].

Lemma anthropic_messages_alternate_witness :
  length (anthropic_messages sample_conversation true) = 3 ∧
  ∃ groups, anthropic_messages sample_conversation true = message_of <$> update_last mark_group groups
    ∧ alternating groups.*1 ∧ Forall (λ g, g.2 ≠ []) groups
    ∧ groups ≫= group_blocks = sample_conversation ≫= item_blocks
    ∧ Forall (λ item, length (item_blocks item) = item_parts item) sample_conversation.
Proof.
  split; [vm_compute; reflexivity|].
  apply (anthropic_messages_alternate sample_conversation true ()). vm_compute. reflexivity.
Defined.

(** for Chat Completions the loop over the history never panics: after the system
    message comes one message per item, except that each maximal run of calls is one
    assistant message that holds exactly the calls of the run, in order. *)
Theorem chat_messages_group_calls `{AdapterExternals} model system_prompt history :
  ∃ groups, chat_messages model system_prompt history
      = Some (chat_system model system_prompt ++ (group_message <$> groups))
    ∧ groups ≫= group_items = history ∧ Forall proper_group groups ∧ runs_apart groups.
Proof.
  set (system := chat_system model system_prompt).
  assert (Grouped system [] (system, None)) as Hstart.
  { split. exists []. simpl. rewrite app_nil_r. by repeat constructor. }
  destruct (chat_loop_groups _ history _ _ Hstart) as (messages & group & Hloop & [Hg]).
  destruct Hg as (groups & Hm & Hi & Hp & Ha & _). exists groups. unfold chat_messages. fold system.
  rewrite Hloop. simpl in *. by subst messages.
Qed.

Example chat_messages_sample :
  length <$> chat_messages "gpt" (Some "be brief") sample_conversation = Some 8.
Proof. vm_compute. reflexivity. Qed.

(** C12: every output item that the Responses decoder accepts can be sent back in a
    later request, and says the same there: a reasoning item reads back as itself, with
    its encrypted content; a message keeps its role, its whole text and its phase; and a
    call reads back under its identifier as itself, unless the text of its arguments is
    empty. Then the value that the empty text parses to is sent, and an empty object if
    there is none; the rest of the call is the same. *)
Theorem responses_items_replay `{AdapterExternals} value item :
  canonical value = Ok item →
  ∃ w, input_item item = Ok w
    ∧ match item with
      | Reasoning _ _ _ _ => canonical w = Ok item
      | ToolCall id call_id namespace name arguments raw =>
          let sent := if str_is_empty raw then from_option to_string "{}" arguments else raw in
          canonical (set_key "id" (Str id) w)
            = Ok (ToolCall id call_id namespace name (match from_str sent with Ok v => Some v | Err _ => None end) sent)
          ∧ (raw ≠ "" → canonical (set_key "id" (Str id) w) = Ok item)
      | AssistantMessage _ content phase => ∃ texts, content = ContentText <$> texts
          ∧ str_at "role" w = Some "assistant" ∧ str_at "content" w = Some (join "" texts) ∧ phase_of w = Ok phase
      | _ => False
      end.
Proof.
  intros Hc%canonical_shape. destruct item as [| id content phase|id th sig enc|id cid ns name args raw|]; try done.
  - destruct Hc as (texts & -> & Ht). simpl. rewrite Ht. simpl. eexists. split; [done|]. exists texts.
    split_and!; [done|reflexivity|reflexivity|by destruct phase].
  - subst sig. simpl. eexists. split; [done|]. apply reasoning_reads_back.
  - subst args. simpl. eexists. split; [done|]. unfold arguments_text. split.
    + apply call_reads_back.
    + intros Hraw. destruct raw as [|c raw]; [done|]. apply call_reads_back.
Qed.

(** A call whose arguments are an empty text *)
Definition call_without_arguments : Value := set_key "arguments" (Str "") response_call.

Lemma responses_items_replay_witness :
  canonical call_without_arguments = Ok (ToolCall "f1" "c1" None "read" None "") ∧
  ∃ w, input_item (ToolCall "f1" "c1" None "read" None "") = Ok w
    ∧ canonical (set_key "id" (Str "f1") w)
      = Ok (ToolCall "f1" "c1" None "read" (match from_str "{}" with Ok v => Some v | Err _ => None end) "{}").
Proof.
  assert (canonical call_without_arguments = Ok (ToolCall "f1" "c1" None "read" None "")) as Hc
    by (vm_compute; reflexivity).
  split; [exact Hc|]. destruct (responses_items_replay _ _ Hc) as (w & Hw & Hr & _). exists w. split; [exact Hw|exact Hr].
Defined.

(** ** Turns over HTTP *)

(** A provider over Chat Completions. *)
Definition chat_provider `{AdapterExternals, HttpClient} (adapter : OpenAIAdapter) (uuids : string → nat → string) :
    ModelProvider := http_model_provider (openai_adapter adapter) uuids.

Lemma chat_provider_orderly `{AdapterExternals, HttpClient} adapter uuids :
  oa_wire_api adapter = ChatCompletions → orderly_provider (chat_provider adapter uuids).
Proof.
  intros Hapi request events. simpl. unfold http_stream. intros Hs.
  apply bind_Ok in Hs as (caps & _ & Hs). apply bind_Ok in Hs as (? & _ & Hs).
  apply bind_Ok in Hs as ([body headers] & _ & Hs). apply bind_Ok in Hs as (response & _ & Hs).
  apply bind_Ok in Hs as (? & _ & Hs). simplify_eq. simpl. unfold openai_parse_stream. rewrite Hapi.
  apply chat_calls_last.
Qed.

(** C8: a turn of a session without a journal whose model is reached over Chat
    Completions leaves a legal conversation, when it found one that its input continued
    legally: however it ends, whatever the server answers: any status, any chunks,
    a connection that breaks at any point. The order of a step that the engine has to
    assume of a provider in general is a fact here, because the decoder holds the calls
    of a step back until the choice is finished. *)
Theorem chat_turns_stay_legal {J Adapter : Type} `{!Journal J, !JournalSpec J}
    `{Externals, ToolExternals, EngineExternals} `{AdapterExternals, HttpClient}
    (self : @AgentEngine J Adapter) turn_id context supply schedule hash_order max_steps input r out r' adapter uuids :
  run_turn_with_context self turn_id context supply schedule hash_order max_steps input r = (out, r') →
  th_provider (rn_session r) = chat_provider adapter uuids → oa_wire_api adapter = ChatCompletions →
  legacy_http_client self = None → stream_provider self = None →
  th_journal (rn_session r) = None → rn_items r = [] →
  Conversation (th_history (rn_session r)) → Conversation (th_history (rn_session r) ++ input) →
  Conversation (th_history (rn_session r'))
  ∧ match out with
    | Ok res => th_history (rn_session r') = th_history (rn_session r) ++ er_generated_items res
    | Err _ => ∃ closed, th_history (rn_session r') = th_history (rn_session r) ++ rn_items r' ++ closed
                 ∧ Forall (λ i, is_tool_result i = true) closed
    end.
Proof.
  intros Hrun Hp Hapi Hlegacy Hoverride Hj Hi Hc Hin.
  assert (Orderly self (chat_provider adapter uuids)) as Hord.
  { split; [by apply chat_provider_orderly|by rewrite Hlegacy|by rewrite Hoverride]. }
  pose proof (run_turn_legal self turn_id context supply schedule hash_order (chat_provider adapter uuids)
    (th_adapter (rn_session r)) (th_history (rn_session r)) max_steps input r Hord) as Hl.
  rewrite Hrun in Hl. apply Hl; [|done|done]. constructor; try done. by rewrite Hi, app_nil_r.
Qed.

(** A server that answers the first request with two calls, and the next with text. *)
#[export] Instance sample_server : HttpClient := {
  http_send := λ url headers body,
    Ok {| resp_success := true; resp_status := "200 OK"; resp_body := "";
          resp_events := if (length (default [] (get "messages" body ≫= as_array)) <=? 3)%nat
                         then chat_frames else frames ["say"; "stop"] |};
}.

Definition sample_uuids (step : string) (n : nat) : string := step +:+ "-" +:+ pretty n.
Definition sample_chat_provider : ModelProvider := chat_provider (openai_new "key") sample_uuids.
Definition chat_out := (run_sample_turn sample_chat_provider None).1.
Definition chat_after := (run_sample_turn sample_chat_provider None).2.

Lemma chat_turns_stay_legal_witness :
  is_ok chat_out = true ∧
  Conversation (th_history (rn_session chat_after))
  ∧ match chat_out with
    | Ok res => th_history (rn_session chat_after) = th_history (sample_thread sample_chat_provider) ++ er_generated_items res
    | Err _ => ∃ closed, th_history (rn_session chat_after)
                  = th_history (sample_thread sample_chat_provider) ++ rn_items chat_after ++ closed
                 ∧ Forall (λ i, is_tool_result i = true) closed
    end.
Proof.
  split; [vm_compute; reflexivity|].
  apply (chat_turns_stay_legal sample_engine "turn" sample_context new_ids sample_schedule map_to_list 4
    [user_text "u1" "hi"] (sample_engine_run sample_chat_provider None) chat_out chat_after (openai_new "key") sample_uuids).
  - apply surjective_pairing.
  - reflexivity.
  - reflexivity.
  - reflexivity.
  - reflexivity.
  - reflexivity.
  - reflexivity.
  - apply validate_items_Conversation. vm_compute. reflexivity.
  - apply validate_items_Conversation. vm_compute. reflexivity.
Defined.
