(* ===== verification/RunRegistry.v ===== *)
(** * The registry of runs

    [crates/whale-daemon/src/retention.rs]: the runs that a daemon keeps, the
    identities of the runs it has let go, and the choice of the runs whose payload
    expires. Clocks are counts of nanoseconds. *)

From S2P Require Import Prelude Protocol.

(** A session and a turn: the identity of a run. *)
Definition RunKey : Type := string * string.

(** [Arc<RunRecord>]: the address, which [Arc::ptr_eq] compares, and the owner, which
    never changes. *)
Record RunArc := { arc_ptr : nat; arc_owner : string }.
#[export] Instance RunArc_eq_dec : EqDecision RunArc.
Proof. solve_decision. Defined.

Record RunRegistry := {
  rg_live : gmap RunKey RunArc;
  rg_expired : gmap RunKey string;
  rg_delivered : gmap RunKey N;
}.
Definition run_registry_default : RunRegistry := {| rg_live := ∅; rg_expired := ∅; rg_delivered := ∅ |}.

Record RetirementCandidate := { cd_key : RunKey; cd_run : RunArc }.

(** The order in which a hash set yields its keys. *)
Class KeyOrder := {
  key_order : gset RunKey → list RunKey;
  key_order_perm s : key_order s ≡ₚ elements s;
}.

(** [Duration::from_millis] *)
Definition millis (ms : N) : N := ms * 1000000.

(** ** The order of deliveries: time, and the key where times are equal *)

Definition run_key_le (x y : RunKey) : Prop := if decide (x.1 = y.1) then String.le x.2 y.2 else String.le x.1 y.1.
Definition delivery_le (x y : RunKey * N) : Prop :=
  if decide (x.2 = y.2) then run_key_le x.1 y.1 else (x.2 <= y.2)%N.
#[export] Instance run_key_le_dec x y : Decision (run_key_le x y).
Proof. unfold run_key_le. destruct (decide _); apply _. Defined.
#[export] Instance delivery_le_dec x y : Decision (delivery_le x y).
Proof. unfold delivery_le. destruct (decide _); apply _. Defined.

(** ** [RunRegistry] *)

(** [insert] and [remove] go to the live runs. *)
Definition registry_insert_run (key : RunKey) (run : RunArc) (self : RunRegistry) : RunRegistry :=
  {| rg_live := <[key := run]> (rg_live self); rg_expired := rg_expired self; rg_delivered := rg_delivered self |}.
Definition registry_remove_run (key : RunKey) (self : RunRegistry) : RunRegistry :=
  {| rg_live := delete key (rg_live self); rg_expired := rg_expired self; rg_delivered := rg_delivered self |}.

(** [expired] *)
Definition is_expired_run (self : RunRegistry) (key : RunKey) (owner : string) : bool :=
  is_some_and (rg_expired self !! key) (λ saved, saved == owner).

(** The run that is live under a key is this one. *)
Definition is_live_run (self : RunRegistry) (key : RunKey) (run : RunArc) : bool :=
  is_some_and (rg_live self !! key) (λ current, arc_ptr current =? arc_ptr run).

(** [delivered]: the first delivery counts. *)
Definition mark_delivered (key : RunKey) (run : RunArc) (now : N) (self : RunRegistry) : RunRegistry :=
  if is_live_run self key run && is_none (rg_delivered self !! key)
  then {| rg_live := rg_live self; rg_expired := rg_expired self; rg_delivered := <[key := now]> (rg_delivered self) |}
  else self.

Definition remove_session (thread owner : string) (self : RunRegistry) : RunRegistry :=
  let live := filter (λ '(key, run), key.1 ≠ thread ∨ arc_owner run ≠ owner) (rg_live self) in
  {| rg_live := live;
     rg_expired := filter (λ '(key, saved), key.1 ≠ thread ∨ saved ≠ owner) (rg_expired self);
     rg_delivered := filter (λ '(key, _), is_Some (live !! key)) (rg_delivered self) |}.

(** The time to live of a delivered run is over. *)
Definition ttl_over (policy : RunRetentionPolicy) (now at_ : N) : bool :=
  is_some_and (terminal_ttl_ms policy) (λ ttl, (millis ttl <=? now - at_)%N).

(** One round of the loop over the deliveries: the keys to retire, and the others by
    session. *)
Definition group_delivery (self : RunRegistry) (policy : RunRetentionPolicy) (now : N)
    (st : gset RunKey * gmap string (list (RunKey * N))) (entry : RunKey * N) :=
  let '(retire, sessions) := st in
  let '(key, at_) := entry in
  if is_none (rg_live self !! key) then st
  else if ttl_over policy now at_ then ({[key]} ∪ retire, sessions)
  else (retire, <[key.1 := default [] (sessions !! key.1) ++ [(key, at_)]]> sessions).

(** The oldest deliveries of a session, beyond the maximum. *)
Definition excess_runs (maximum : N) (records : list (RunKey * N)) : list RunKey :=
  (take (N.to_nat (N.of_nat (length records) - maximum)) (merge_sort delivery_le records)).*1.

Definition retired_keys (self : RunRegistry) (policy : RunRetentionPolicy) (now : N) : gset RunKey :=
  let '(retire, sessions) := foldl (group_delivery self policy now) (∅, ∅) (map_to_list (rg_delivered self)) in
  match max_terminal_runs_per_session policy with
  | Some maximum => retire ∪ list_to_set ((map_to_list sessions).*2 ≫= excess_runs maximum)
  | None => retire
  end.

Definition candidates `{KeyOrder} (self : RunRegistry) (policy : RunRetentionPolicy) (now : N) :
    list RetirementCandidate :=
  omap (λ key, (λ run, {| cd_key := key; cd_run := run |}) <$> rg_live self !! key)
    (key_order (retired_keys self policy now)).

Definition registry_retire (self : RunRegistry) (candidate : RetirementCandidate) : bool * RunRegistry :=
  if is_live_run self (cd_key candidate) (cd_run candidate) then
    (true, {| rg_live := delete (cd_key candidate) (rg_live self);
              rg_expired := <[cd_key candidate := arc_owner (cd_run candidate)]> (rg_expired self);
              rg_delivered := delete (cd_key candidate) (rg_delivered self) |})
  else (false, self).

(** ** Laws *)

#[export] Instance run_key_le_total : Total run_key_le.
Proof.
  intros x y. unfold run_key_le. destruct (decide (x.1 = y.1)) as [->|Hne].
  - rewrite !decide_True by done. apply total, _.
  - rewrite decide_False by congruence. destruct (total String.le x.1 y.1); auto.
Qed.
#[export] Instance run_key_le_trans : Transitive run_key_le.
Proof.
  intros [a b] [c d] [e f]. unfold run_key_le. simpl.
  repeat destruct (decide _); subst; intros; try (by etrans); try congruence; try done.
  exfalso. by eapply (anti_symm String.le) in H; [|exact H0].
Qed.
#[export] Instance run_key_le_antisym : AntiSymm (=) run_key_le.
Proof.
  intros [a b] [c d]. unfold run_key_le. simpl.
  destruct (decide (a = c)) as [->|]; intros.
  - rewrite decide_True in * by done. f_equal. by apply (anti_symm String.le).
  - rewrite decide_False in * by congruence. by destruct (anti_symm String.le a c).
Qed.

#[export] Instance delivery_le_total : Total delivery_le.
Proof.
  intros x y. unfold delivery_le. destruct (decide (x.2 = y.2)) as [->|Hne].
  - rewrite !decide_True by done. apply total, _.
  - rewrite decide_False by congruence. lia.
Qed.
#[export] Instance delivery_le_trans : Transitive delivery_le.
Proof.
  intros [a b] [c d] [e f]. unfold delivery_le. simpl.
  repeat destruct (decide _); subst; intros; try (by etrans); try congruence; try done; lia.
Qed.
#[export] Instance delivery_le_antisym : AntiSymm (=) delivery_le.
Proof.
  intros [a b] [c d]. unfold delivery_le. simpl. destruct (decide (b = d)) as [->|]; intros.
  - rewrite decide_True in * by done. f_equal. by apply (anti_symm run_key_le).
  - rewrite decide_False in * by congruence. lia.
Qed.

(** The later of two deliveries *)
Definition newer (x y : RunKey * N) : bool := bool_decide (delivery_le x y) && negb (bool_decide (x = y)).

(** In a sorted list a position tells how many later ones there are. *)
Lemma newer_count l i x :
  StronglySorted delivery_le l → NoDup l → l !! i = Some x →
  length (List.filter (newer x) l) = length l - S i.
Proof.
  intros Hs. revert i. induction Hs as [|y l Hs IH Hy]; intros i Hnd Hi; [done|].
  apply NoDup_cons in Hnd as [Hn Hnd]. destruct i as [|i]; simpl in *.
  - injection Hi as ->. unfold newer at 1. rewrite (bool_decide_true (x = x)) by done.
    rewrite andb_false_r, list_filter_all_b; [lia|]. intros z Hz. unfold newer.
    rewrite Forall_forall in Hy. rewrite bool_decide_true by auto.
    rewrite bool_decide_false; [done|]. by intros ->.
  - pose proof (list_elem_of_lookup_2 _ _ _ Hi) as Hx. rewrite Forall_forall in Hy.
    assert (newer x y = false) as ->.
    { unfold newer. destruct (bool_decide_reflect (delivery_le x y)) as [Hle|]; [|done].
      assert (x = y) as -> by (apply (anti_symm delivery_le); auto). by rewrite bool_decide_true. }
    by rewrite (IH i).
Qed.

Lemma list_filter_perm {A} (p : A → bool) l k : l ≡ₚ k → List.filter p l ≡ₚ List.filter p k.
Proof. induction 1; simpl; repeat case_match; by econstructor. Qed.

(** The keys beyond the maximum are those with at least the maximum of later ones. *)
Lemma elem_of_excess maximum l key :
  NoDup l →
  key ∈ excess_runs maximum l ↔
    ∃ at_, (key, at_) ∈ l ∧ (maximum <= N.of_nat (length (List.filter (newer (key, at_)) l)))%N.
Proof.
  intros Hnd. unfold excess_runs.
  assert (StronglySorted delivery_le (merge_sort delivery_le l)) as Hs by apply (StronglySorted_merge_sort _).
  assert (NoDup (merge_sort delivery_le l)) as Hm by (by rewrite merge_sort_Permutation).
  assert (∀ i x, merge_sort delivery_le l !! i = Some x → length (List.filter (newer x) l) = length l - S i) as Hcount.
  { intros i x Hi. rewrite <-(list_filter_perm _ _ _ (merge_sort_Permutation delivery_le l)).
    rewrite (newer_count _ i x) by done. by rewrite merge_sort_Permutation. }
  rewrite list_elem_of_fmap. split.
  - intros ([k at_] & -> & Hin). apply list_elem_of_lookup in Hin as [i Hi].
    apply lookup_take_Some in Hi as [Hi Hlt]. exists at_. split.
    + rewrite <-(merge_sort_Permutation delivery_le l). by eapply list_elem_of_lookup_2.
    + simpl. rewrite (Hcount i _ Hi). lia.
  - intros (at_ & Hin & Hle). exists (key, at_). split; [done|].
    rewrite <-(merge_sort_Permutation delivery_le l) in Hin. apply list_elem_of_lookup in Hin as [i Hi].
    rewrite (Hcount _ _ Hi) in Hle. apply (list_elem_of_lookup_2 _ i), lookup_take_Some. split; [done|].
    apply lookup_lt_Some in Hi. rewrite merge_sort_Permutation in Hi. lia.
Qed.

Section policy.
Context (self : RunRegistry) (policy : RunRetentionPolicy) (now : N).

(** A delivery that counts for the maximum of its session *)
Definition retained (entry : RunKey * N) : bool :=
  is_some (rg_live self !! entry.1) && negb (ttl_over policy now entry.2).
Definition session_runs (session : string) (l : list (RunKey * N)) : list (RunKey * N) :=
  List.filter (λ entry, retained entry && (entry.1.1 == session)) l.

Lemma group_deliveries l :
  let '(retire, sessions) := foldl (group_delivery self policy now) (∅, ∅) l in
  (∀ key, key ∈ retire ↔ ∃ at_, (key, at_) ∈ l ∧ is_some (rg_live self !! key) ∧ ttl_over policy now at_)
  ∧ (∀ s, default [] (sessions !! s) = session_runs s l).
Proof.
  induction l as [|[key at_] l IH] using rev_ind; simpl.
  { split; [|done]. intros key. set_solver. }
  rewrite foldl_app. destruct (foldl _ _ l) as [retire sessions]. destruct IH as [IHr IHs]. simpl.
  assert (∀ s, session_runs s (l ++ [(key, at_)])
             = session_runs s l ++ (if retained (key, at_) && (key.1 == s) then [(key, at_)] else [])) as Hsnoc.
  { intros s. unfold session_runs. rewrite List.filter_app. simpl. by case_match. }
  unfold retained in Hsnoc. simpl in Hsnoc. unfold is_none.
  destruct (is_some (rg_live self !! key)) eqn:Hl; simpl.
  - destruct (ttl_over policy now at_) eqn:Ht; simpl in *.
    + split; [|intros s; by rewrite Hsnoc, app_nil_r, IHs].
      intros k. rewrite elem_of_union, elem_of_singleton, IHr. setoid_rewrite elem_of_app.
      setoid_rewrite list_elem_of_singleton. split.
      * intros [->|(a & ? & ? & ?)]; [exists at_; by rewrite Hl, Ht; auto|exists a; auto].
      * intros (a & [?|[= -> ->]] & ? & ?); eauto.
    + split.
      * intros k. rewrite IHr. setoid_rewrite elem_of_app. setoid_rewrite list_elem_of_singleton.
        split; intros (a & ? & ? & ?); exists a; [auto|]. destruct_or?; [done|simplify_eq].
        by rewrite Ht in *.
      * intros s. rewrite Hsnoc, <-IHs. destruct (key.1 == s) eqn:Hs; inv_bool.
        -- subst s. by rewrite lookup_insert_eq.
        -- rewrite lookup_insert_ne by done. by rewrite app_nil_r.
  - split; [|intros s; by rewrite Hsnoc, app_nil_r, IHs].
    intros k. rewrite IHr. setoid_rewrite elem_of_app. setoid_rewrite list_elem_of_singleton.
    split; intros (a & ? & ? & ?); exists a; [auto|]. destruct_or?; [done|simplify_eq]. by rewrite Hl in *.
Qed.
End policy.

(** ** What a sweep does to the registry *)

(** Retiring one candidate after the other *)
Definition retire_all (cs : list RetirementCandidate) (self : RunRegistry) : RunRegistry :=
  foldl (λ g c, (registry_retire g c).2) self cs.

Section sweep.
Context `{KeyOrder} (self : RunRegistry) (policy : RunRetentionPolicy) (now : N).

(** A run that has to go: its time is over, or its session has enough later ones. *)
Definition due (key : RunKey) (at_ : N) : Prop :=
  ttl_over policy now at_ = true ∨
  ∃ maximum, max_terminal_runs_per_session policy = Some maximum
    ∧ (maximum <= N.of_nat (length (List.filter (newer (key, at_))
                     (session_runs self policy now key.1 (map_to_list (rg_delivered self))))))%N.

Lemma session_runs_NoDup s l : NoDup l → NoDup (session_runs self policy now s l).
Proof. intros Hnd. rewrite <-(list_fmap_id (session_runs _ _ _ _ _)). apply NoDup_fmap_filter_b. by rewrite list_fmap_id. Qed.

Lemma elem_of_session_runs s l key at_ :
  (key, at_) ∈ session_runs self policy now s l ↔
    (key, at_) ∈ l ∧ is_some (rg_live self !! key) = true ∧ ttl_over policy now at_ = false ∧ key.1 = s.
Proof.
  unfold session_runs. rewrite elem_of_filter_b. unfold retained. simpl.
  rewrite !andb_true_iff, negb_true_iff. split; intros; destruct_and!; inv_bool; split_and!; prove_bool.
Qed.

Lemma elem_of_retired_keys key :
  key ∈ retired_keys self policy now ↔
    is_some (rg_live self !! key) = true ∧ ∃ at_, rg_delivered self !! key = Some at_ ∧ due key at_.
Proof.
  unfold retired_keys, due. pose proof (group_deliveries self policy now (map_to_list (rg_delivered self))) as Hg.
  set (l := map_to_list _) in *. destruct (foldl _ _ _) as [retire sessions]. destruct Hg as [Hr Hs].
  assert (∀ key at_, (key, at_) ∈ l ↔ rg_delivered self !! key = Some at_) as Hl
    by (intros; apply elem_of_map_to_list).
  assert (∀ records key maximum, (∃ s, sessions !! s = Some records) → key ∈ excess_runs maximum records ↔
    is_some (rg_live self !! key) = true ∧ sessions !! key.1 = Some records
    ∧ ∃ at_, rg_delivered self !! key = Some at_ ∧ ttl_over policy now at_ = false
        ∧ (maximum <= N.of_nat (length (List.filter (newer (key, at_)) (session_runs self policy now key.1 l))))%N) as Hex.
  { intros records k maximum [s Hsr]. pose proof (Hs s) as Hrec. rewrite Hsr in Hrec. simpl in Hrec. subst records.
    rewrite elem_of_excess by (apply session_runs_NoDup, NoDup_map_to_list). setoid_rewrite elem_of_session_runs.
    setoid_rewrite Hl. split.
    - intros (at_ & (Hd & Hlv & Ht & <-) & Hle). split_and!; [done|done|]. by exists at_.
    - intros (Hlv & Hk & at_ & Hd & Ht & Hle). exists at_.
      destruct (decide (k.1 = s)) as [<-|Hne]; [done|]. exfalso.
      assert ((k, at_) ∈ session_runs self policy now s l) as Hin.
      { pose proof (Hs k.1) as H1. rewrite Hk in H1. simpl in H1. rewrite H1. apply elem_of_session_runs.
        by rewrite Hl. }
      by apply elem_of_session_runs in Hin as (_ & _ & _ & ?). }
  destruct (max_terminal_runs_per_session policy) as [maximum|].
  - rewrite elem_of_union, elem_of_list_to_set, list_elem_of_bind, Hr. setoid_rewrite Hl. split.
    + intros [(at_ & Hd & Hlv & Ht)|(records & Hk & Hin)].
      * split; [by destruct (is_some _)|]. exists at_. split; [done|]. left. by destruct (ttl_over _ _ _).
      * apply list_elem_of_fmap in Hin as ([s ?] & -> & Hin%elem_of_map_to_list). simpl in Hk.
        apply Hex in Hk as (Hlv & _ & at_ & Hd & _ & Hle); [|by eexists]. split; [done|]. eauto 6.
    + intros (Hlv & at_ & Hd & [Ht|(m & [= <-] & Hle)]).
      * left. exists at_. by rewrite Hlv, Ht.
      * destruct (ttl_over policy now at_) eqn:Ht; [left; exists at_; by rewrite Hlv, Ht|].
        right. assert ((key, at_) ∈ session_runs self policy now key.1 l) as Hin
          by (apply elem_of_session_runs; by rewrite Hl).
        destruct (sessions !! key.1) as [records|] eqn:Hk.
        2:{ pose proof (Hs key.1) as H1. rewrite Hk in H1. simpl in H1. rewrite <-H1 in Hin. set_solver. }
        exists records. split; [apply Hex; [by eexists|]; eauto 7|].
        apply list_elem_of_fmap. exists (key.1, records). split; [done|]. by apply elem_of_map_to_list.
  - rewrite Hr. setoid_rewrite Hl. split.
    + intros (at_ & Hd & Hlv & Ht). split; [by destruct (is_some _)|]. exists at_. split; [done|]. left.
      by destruct (ttl_over _ _ _).
    + intros (Hlv & at_ & Hd & [Ht|(m & ? & _)]); [|done]. exists at_. by rewrite Hlv, Ht.
Qed.

Lemma elem_of_retirement c :
  c ∈ candidates self policy now ↔
    rg_live self !! cd_key c = Some (cd_run c) ∧ ∃ at_, rg_delivered self !! cd_key c = Some at_ ∧ due (cd_key c) at_.
Proof.
  unfold candidates. rewrite list_elem_of_omap. setoid_rewrite key_order_perm. setoid_rewrite elem_of_elements.
  setoid_rewrite elem_of_retired_keys. split.
  - intros (key & (_ & Hd) & Hc). destruct (rg_live self !! key) eqn:Hl; simplify_eq/=. done.
  - intros [Hl Hd]. exists (cd_key c). rewrite Hl. simpl. destruct c. done.
Qed.

Lemma candidates_keys_NoDup : NoDup (cd_key <$> candidates self policy now).
Proof.
  unfold candidates. assert (NoDup (key_order (retired_keys self policy now))) as Hnd.
  { rewrite key_order_perm. apply NoDup_elements. }
  induction (key_order _) as [|key l IH]; simpl; [constructor|]. apply NoDup_cons in Hnd as [Hn Hnd].
  destruct (rg_live self !! key) as [run|]; simpl; [|auto]. constructor; [|auto].
  intros (c & Hc & (k & Hk & Hkc)%list_elem_of_omap)%list_elem_of_fmap.
  destruct (rg_live self !! k); simplify_eq/=; set_solver.
Qed.
End sweep.

(** At most a maximum of the entries of a list have fewer later ones than that. *)
Lemma few_late_runs (maximum : N) (l kept : list (RunKey * N)) :
  NoDup l → NoDup kept →
  (∀ x, x ∈ kept → x ∈ l ∧ (N.of_nat (length (List.filter (newer x) l)) < maximum)%N) →
  (N.of_nat (length kept) <= maximum)%N.
Proof.
  intros Hnd Hk Hin. set (sorted := merge_sort delivery_le l).
  assert (StronglySorted delivery_le sorted) as Hs by apply (StronglySorted_merge_sort _).
  assert (sorted ≡ₚ l) as Hp by apply merge_sort_Permutation.
  assert (kept ⊆+ drop (length l - N.to_nat maximum) sorted) as Hsub.
  { apply NoDup_submseteq; [done|]. intros x Hx. destruct (Hin x Hx) as [Hl Hlt].
    rewrite <-Hp in Hl. apply list_elem_of_lookup in Hl as [i Hi].
    rewrite <-(Permutation_length (list_filter_perm (newer x) _ _ Hp)) in Hlt.
    rewrite (newer_count _ i x), Hp in Hlt by (done || by rewrite Hp).
    apply list_elem_of_lookup. exists (i - (length l - N.to_nat maximum)). rewrite lookup_drop, <-Hi.
    f_equal. apply lookup_lt_Some in Hi. rewrite Hp in Hi. lia. }
  apply submseteq_length in Hsub. rewrite length_drop, Hp in Hsub. lia.
Qed.

Lemma retire_live c self :
  rg_live self !! cd_key c = Some (cd_run c) →
  (registry_retire self c).2 = {| rg_live := delete (cd_key c) (rg_live self);
                         rg_expired := <[cd_key c := arc_owner (cd_run c)]> (rg_expired self);
                         rg_delivered := delete (cd_key c) (rg_delivered self) |}.
Proof. intros Hl. unfold registry_retire, is_live_run. rewrite Hl. simpl. by rewrite Nat.eqb_refl. Qed.

Lemma retire_all_spec cs self :
  NoDup (cd_key <$> cs) → (∀ c, c ∈ cs → rg_live self !! cd_key c = Some (cd_run c)) →
  (∀ key, key ∉ cd_key <$> cs →
     rg_live (retire_all cs self) !! key = rg_live self !! key
     ∧ rg_expired (retire_all cs self) !! key = rg_expired self !! key
     ∧ rg_delivered (retire_all cs self) !! key = rg_delivered self !! key)
  ∧ (∀ c, c ∈ cs →
       rg_live (retire_all cs self) !! cd_key c = None
       ∧ rg_expired (retire_all cs self) !! cd_key c = Some (arc_owner (cd_run c))
       ∧ rg_delivered (retire_all cs self) !! cd_key c = None).
Proof.
  unfold retire_all. revert self. induction cs as [|c cs IH]; intros self Hnd Hl; csimpl; [by split; [|set_solver]|].
  apply NoDup_cons in Hnd as [Hn Hnd]. rewrite retire_live by (apply Hl; left).
  assert (∀ c', c' ∈ cs → cd_key c ≠ cd_key c') as Hne.
  { intros c' Hc' Heq. apply Hn. rewrite Heq. by apply list_elem_of_fmap_2. }
  destruct (IH {| rg_live := delete (cd_key c) (rg_live self);
                  rg_expired := <[cd_key c := arc_owner (cd_run c)]> (rg_expired self);
                  rg_delivered := delete (cd_key c) (rg_delivered self) |} Hnd) as [Hout Hin].
  { intros c' Hc'. simpl. rewrite lookup_delete_ne by auto. apply Hl. by right. }
  split.
  - intros key [Hk Hk']%not_elem_of_cons. destruct (Hout key Hk') as (-> & -> & ->). simpl.
    by rewrite !lookup_delete_ne, lookup_insert_ne.
  - intros c' [->|Hc']%elem_of_cons; [|by apply Hin]. destruct (Hout _ Hn) as (-> & -> & ->). simpl.
    by rewrite !lookup_delete_eq, lookup_insert_eq.
Qed.

(** After a sweep that retires all candidates no session keeps more delivered runs than
    the maximum, and no delivered run is kept beyond its time. *)
Lemma retire_all_meets_policy `{KeyOrder} self policy now :
  let after := retire_all (candidates self policy now) self in
  (∀ key at_, rg_delivered after !! key = Some at_ → is_some (rg_live after !! key) = true →
     ttl_over policy now at_ = false)
  ∧ (∀ maximum s, max_terminal_runs_per_session policy = Some maximum →
       (N.of_nat (length (session_runs after policy now s (map_to_list (rg_delivered after)))) <= maximum)%N).
Proof.
  intros after.
  destruct (retire_all_spec (candidates self policy now) self) as [Hout Hin]; [apply candidates_keys_NoDup| |].
  { intros c Hc. by apply elem_of_retirement in Hc as [? _]. }
  fold after in Hout, Hin.
  assert (∀ key at_, rg_delivered after !! key = Some at_ → is_some (rg_live after !! key) = true →
            rg_delivered self !! key = Some at_ ∧ is_some (rg_live self !! key) = true
            ∧ ¬ due self policy now key at_) as Hkept.
  { intros key at_ Hd Hl.
    destruct (decide (key ∈ cd_key <$> candidates self policy now)) as [(c & -> & Hc)%list_elem_of_fmap|Hn].
    { destruct (Hin c Hc) as (Hlc & _). by rewrite Hlc in Hl. }
    destruct (Hout key Hn) as (Hl1 & _ & Hd1). rewrite Hl1 in Hl. rewrite Hd1 in Hd. split_and!; [done..|].
    intros Hdue. apply Hn. destruct (rg_live self !! key) as [run|] eqn:Hrun; [|done].
    apply list_elem_of_fmap. exists {| cd_key := key; cd_run := run |}. split; [done|].
    apply elem_of_retirement. simpl. eauto. }
  split.
  - intros key at_ Hd Hl. destruct (Hkept key at_ Hd Hl) as (_ & _ & Hn).
    destruct (ttl_over policy now at_) eqn:Ht; [|done]. destruct Hn. by left.
  - intros maximum s Hm. apply (few_late_runs maximum (session_runs self policy now s (map_to_list (rg_delivered self)))).
    { apply session_runs_NoDup, NoDup_map_to_list. }
    { apply session_runs_NoDup, NoDup_map_to_list. }
    intros [key at_] (Hd & Hl & Ht & <-)%elem_of_session_runs. apply elem_of_map_to_list in Hd.
    destruct (Hkept key at_ Hd Hl) as (Hd1 & Hl1 & Hn). split.
    + apply elem_of_session_runs. by rewrite elem_of_map_to_list.
    + apply N.lt_nge. intros Hle. destruct Hn. right. eauto.
Qed.
