(* ===== verification/DaemonRuns.v ===== *)
(** * Runs of the daemon

    The life of a run in [crates/whale-daemon/src/server.rs]: admission
    ([handle_start_turn]), the two gates of its start (preparation and acceptance), the
    publication of its session events ([RunPublication]), cancellation, the stream of
    its events, and the terminal commit of [execute_run]. The functions say what a task
    does while it holds the locks it takes; [RunSteps] interleaves them. The life
    cycle, the views, the interactions, the store and the engine are those of their own
    files. *)

From S2P Require Import Prelude EventJournal Protocol StoreState CoreContext CoreSession ModelStep Coordinator Engine StoreBackend StoreConfig StoreRuntime SessionViews ViewJournal SessionManagement SessionCatalog HistoryArchive ManagementProjection ManagementOps SessionServer Interactions InteractionRecord InteractionServer RunRegistry.

(** What [SessionJournal] promises a run besides [commit]: [begin_run] and [finalize]. *)
Class RunJournal (J : Type) := {
  journal_begin : StartTurnParams → RunSnapshot → Value → eff J StoreError bool;
  journal_finalize : string → RunSnapshot → eff J StoreError FinalizedRun;
}.

(** The [Debug] text of a failure, [serde_json::to_value] of the options of a run, and
    [Instant::checked_add] on nanoseconds. *)
Class RunExternals := {
  debug_failure : SessionManagementFailure → string;
  options_to_value : SamplingOptions → Value;
  instant_add : N → N → option N;
}.

(** ** [RunRecord] *)

(** A committed change of both views: its two envelopes. *)
Definition CommittedDualPublication : Type := SessionEventEnvelope * SessionEventEnvelopeV2.

(** The parts of the record that the daemon reads; [dr_live] and [dr_pending] are its
    [RunPublication], and [dr_queue] the changes whose tasks hold or wait for that
    lock, which tokio grants in order. *)
Record RunRecord := {
  dr_owner : string;
  dr_params : StartTurnParams;
  dr_deadline : option N;
  dr_accepted_ordinal : N;
  dr_context : RunContextInfo;
  dr_snapshot : RunSnapshot;
  dr_cancel : bool;
  dr_acceptance : option bool;
  dr_preparation : option (result JSONRPCError ());
  dr_terminal_delivery : option (result string ());
  dr_live : bool;
  dr_pending : list CommittedDualPublication;
  dr_queue : list RunPublicationMutation;
}.

Definition dr_eta (r : RunRecord) : RunRecord :=
  {| dr_owner := dr_owner r; dr_params := dr_params r; dr_deadline := dr_deadline r;
     dr_accepted_ordinal := dr_accepted_ordinal r; dr_context := dr_context r; dr_snapshot := dr_snapshot r;
     dr_cancel := dr_cancel r; dr_acceptance := dr_acceptance r; dr_preparation := dr_preparation r;
     dr_terminal_delivery := dr_terminal_delivery r; dr_live := dr_live r; dr_pending := dr_pending r;
     dr_queue := dr_queue r |}.
Definition set_run_snapshot (v : RunSnapshot) (r : RunRecord) : RunRecord := ltac:(update_field dr_eta dr_snapshot v r).
Definition set_cancel (v : bool) (r : RunRecord) : RunRecord := ltac:(update_field dr_eta dr_cancel v r).
Definition set_acceptance (v : option bool) (r : RunRecord) : RunRecord := ltac:(update_field dr_eta dr_acceptance v r).
Definition set_preparation (v : option (result JSONRPCError ())) (r : RunRecord) : RunRecord :=
  ltac:(update_field dr_eta dr_preparation v r).
Definition set_terminal_delivery (v : option (result string ())) (r : RunRecord) : RunRecord :=
  ltac:(update_field dr_eta dr_terminal_delivery v r).
Definition set_live (v : bool) (r : RunRecord) : RunRecord := ltac:(update_field dr_eta dr_live v r).
Definition set_pending_events (v : list CommittedDualPublication) (r : RunRecord) : RunRecord :=
  ltac:(update_field dr_eta dr_pending v r).
Definition set_queue (v : list RunPublicationMutation) (r : RunRecord) : RunRecord := ltac:(update_field dr_eta dr_queue v r).

Definition dr_key (r : RunRecord) : RunKey := (turn_thread_id (dr_params r), turn_turn_id (dr_params r)).

(** [commit_session_event] joins the queue of the lock. *)
Definition enqueue (mutation : RunPublicationMutation) (r : RunRecord) : RunRecord :=
  set_queue (dr_queue r ++ [mutation]) r.

(** [snapshot.usage] of a [RunSnapshot], and its result *)
Definition set_snap_usage (v : UsageMetrics) (s : RunSnapshot) : RunSnapshot := ltac:(update_field snap_eta snap_usage v s).
Definition set_result (v : option RunTurnResult) (s : RunSnapshot) : RunSnapshot := ltac:(update_field snap_eta snap_result v s).
Definition set_failure (v : option RunFailure) (s : RunSnapshot) : RunSnapshot := ltac:(update_field snap_eta snap_error v s).

(** The snapshot a run starts with. *)
Definition initial_snapshot (params : StartTurnParams) : RunSnapshot :=
  {| snap_tool_executions := []; snap_thread_id := turn_thread_id params; snap_turn_id := turn_turn_id params;
     snap_status := RunRunning; snap_items := []; snap_usage := usage_default; snap_pending_approvals := [];
     snap_last_seq := 0; snap_result := None; snap_error := None |}.

(** [apply_options] *)
Definition apply_options (sampling : SamplingOptions) (options : RunTurnOptions) : SamplingOptions :=
  {| so_model := default (so_model sampling) (opt_model options);
     so_temperature := match opt_temperature options with Some t => Some t | None => so_temperature sampling end;
     so_max_tokens := match opt_max_tokens options with Some n => Some n | None => so_max_tokens sampling end;
     so_reasoning_effort :=
       match opt_reasoning_effort options with Some e => Some e | None => so_reasoning_effort sampling end;
     so_thinking_budget :=
       match opt_thinking_budget options with Some b => Some b | None => so_thinking_budget sampling end;
     so_prompt_caching := default (so_prompt_caching sampling) (opt_prompt_caching options) |}.

(** [publish_stream] under the lock of the snapshot: the snapshot and the event to
    publish, if any. A counter of 64 bits does not overflow in practice. *)
Definition stream_snapshot (executions : list ToolExecutionRecord) (event : AgentStreamEvent) (snap : RunSnapshot) :
    RunSnapshot * option RunEvent :=
  let snap := set_tool_executions executions snap in
  let numbered snap :=
    let snap := set_last_seq (snap_last_seq snap + 1) snap in
    (snap, Some {| re_thread_id := snap_thread_id snap; re_turn_id := snap_turn_id snap;
                   re_seq := snap_last_seq snap; re_payload := RunStream event |}) in
  match event with
  | EvTurnCompleted _ _ usage => (set_snap_usage usage snap, None)
  | EvTurnFailed _ _ _ _ => (snap, None)
  | EvItemCompleted _ item => numbered (set_items (snap_items snap ++ [item]) snap)
  | EvApprovalRequested _ request_id tool_call reason =>
      if decide (snap_status snap = RunCancelling) then (snap, None)
      else numbered (set_pending_approvals (snap_pending_approvals snap ++
                       [{| pa_request_id := request_id; pa_tool_call := tool_call; pa_reason := reason |}])
                       (set_status RunWaitingApproval snap))
  | _ => numbered snap
  end.

(** ** The terminal commit *)

(** How an execution ends: with the engine's result, or why its future was dropped. *)
Inductive RunEnding :=
  | EndedResult (out : result CoreError EngineResult)
  | EndedCancelled
  | EndedDeadline
  | EndedUnaccepted.

(** [outcome] of [execute_run]: a result, or the status, the code and the message. *)
Definition run_outcome (ending : RunEnding) : result (RunStatus * string * string) EngineResult :=
  match ending with
  | EndedResult (Ok res) => Ok res
  | EndedResult (Err error) =>
      let code := match error with
                  | CoreLimitExceeded _ | CoreStore (LimitExceeded _) => "SESSION_LIMIT_EXCEEDED"
                  | CoreStore _ => "STORE_FAILED"
                  | _ => "RUN_FAILED"
                  end in
      Err (RunFailed, code, core_error_text error)
  | EndedCancelled => Err (RunCancelled, "CANCELLED", "Run cancelled")
  | EndedDeadline => Err (RunFailed, "DEADLINE_EXCEEDED", "Run deadline exceeded")
  | EndedUnaccepted => Err (RunCancelled, "CONNECTION_CLOSED", "Run acceptance was not delivered")
  end.

(** The daemon's intent to cancel is arbitrated again at the commit. *)
Definition arbitrated (accepted cancel : bool) (status : RunStatus)
    (outcome : result (RunStatus * string * string) EngineResult) :
    result (RunStatus * string * string) EngineResult :=
  if accepted && (bool_decide (status = RunCancelling) || cancel)
  then Err (RunCancelled, "CANCELLED", "Run cancelled") else outcome.

Definition turn_status_of (status : RunStatus) : TurnStatus :=
  match status with
  | RunCompleted => TurnStatusCompleted
  | RunCancelled => TurnStatusInterrupted
  | _ => TurnStatusFailed
  end.

(** The snapshot before the journal has its say; [items] is what the turn left in the
    history. *)
Definition terminal_snapshot (accepted cancel : bool) (ending : RunEnding) (usage : UsageMetrics)
    (executions : list ToolExecutionRecord) (items : list CanonicalItem) (snap : RunSnapshot) : RunSnapshot :=
  let snap := set_tool_executions executions (set_snap_usage usage snap) in
  let snap :=
    match arbitrated accepted cancel (snap_status snap) (run_outcome ending) with
    | Ok result => set_snap_usage (er_total_usage result) (set_status RunCompleted snap)
    | Err (status, code, message) =>
        set_failure (Some {| fail_code := code; fail_message := message |}) (set_status status snap)
    end in
  let snap := set_last_seq (snap_last_seq snap + 1) (set_pending_approvals [] (set_items items snap)) in
  set_result (Some {| res_turn_id := snap_turn_id snap; res_thread_id := snap_thread_id snap;
                      res_status := turn_status_of (snap_status snap); res_items := snap_items snap;
                      res_usage := snap_usage snap |}) snap.

(** A finalization that the store refused. *)
Definition store_failed_snapshot (snap : RunSnapshot) : RunSnapshot :=
  let snap := set_failure (Some {| fail_code := "STORE_FAILED";
    fail_message := "Session storage commit failed; close and reopen the store before recovery" |})
    (set_status RunFailed snap) in
  set_result ((λ r, {| res_turn_id := res_turn_id r; res_thread_id := res_thread_id r; res_status := TurnStatusFailed;
                       res_items := res_items r; res_usage := res_usage r |}) <$> snap_result snap) snap.

(** ** The server *)

Section server.
Context `{Externals} `{ToolExternals} `{EngineExternals} `{ManagementExternals} `{ViewExternals} `{SchemaExternals}.
Context `{EventExternals} `{DigestExternals} `{MapOrder} `{RunExternals}.
Context {St : Type} `{!SessionStore St} {J Adapter : Type} `{!Journal J} `{!RunJournal J}.

Notation Session := (ThreadSession ToolRegistry Adapter ModelProvider SamplingOptions ContextPolicy J).

(** The turn of the engine that a run is executing: the events it has sent that are
    still to be published, the one whose publication is under way and whether it has
    joined the queue, how the turn ends, and what it leaves behind. *)
Record Execution := {
  ex_events : list AgentStreamEvent;
  ex_hand : option (RunEvent * bool);
  ex_accepted : bool;
  ex_ending : RunEnding;
  ex_usage : UsageMetrics;
  ex_executions : list ToolExecutionRecord;
  ex_history_start : nat;
  ex_defaults : SamplingOptions;
  ex_session : Session;
}.

(** Where the task of a run is; it holds the lock of the session up to the commit.
    [TaskBegin] also says whether the change [Begin] has joined the queue. *)
Inductive RunTask :=
  | TaskBegin (queued : bool) (session : Session)
  | TaskJournal (session : Session)
  | TaskAwaiting (session : Session)
  | TaskExecuting (execution : Execution)
  | TaskDelivering (accepted : bool) (event : RunEvent)
  | TaskDone.

(** What the server has done, for the theorems: it commits a change of a run to both
    views, hands one to the notifiers, accepts a cancellation, numbers an event, writes
    one to the transport. *)
Inductive Observation :=
  | ObsCommitted (run : nat) (envelopes : CommittedDualPublication)
  | ObsHanded (run : nat) (envelopes : CommittedDualPublication)
  | ObsCancelled (run : nat)
  | ObsNumbered (run : nat) (event : RunEvent)
  | ObsSent (run : nat) (event : RunEvent).

(** [ds_sessions] has the mutex of each session, [ds_locks] what is in it: nothing while
    a run holds it. *)
Record RunServer := {
  ds_registry : RunRegistry;
  ds_runs : gmap nat RunRecord;
  ds_tasks : gmap nat (nat * RunTask);
  ds_next : nat;
  ds_sessions : gmap string nat;
  ds_locks : gmap nat (option Session);
  ds_interactions : Interactions;
  ds_lifecycle : LifecycleState;
  ds_daemon : Daemon St;
  ds_log : list Observation;
}.

Definition ds_eta (s : RunServer) : RunServer :=
  {| ds_registry := ds_registry s; ds_runs := ds_runs s; ds_tasks := ds_tasks s; ds_next := ds_next s;
     ds_sessions := ds_sessions s; ds_locks := ds_locks s; ds_interactions := ds_interactions s;
     ds_lifecycle := ds_lifecycle s; ds_daemon := ds_daemon s; ds_log := ds_log s |}.
Definition set_registry (v : RunRegistry) (s : RunServer) : RunServer := ltac:(update_field ds_eta ds_registry v s).
Definition set_server_runs (v : gmap nat RunRecord) (s : RunServer) : RunServer := ltac:(update_field ds_eta ds_runs v s).
Definition set_tasks (v : gmap nat (nat * RunTask)) (s : RunServer) : RunServer := ltac:(update_field ds_eta ds_tasks v s).
Definition set_next_run (v : nat) (s : RunServer) : RunServer := ltac:(update_field ds_eta ds_next v s).
Definition set_locks (v : gmap nat (option Session)) (s : RunServer) : RunServer := ltac:(update_field ds_eta ds_locks v s).
Definition set_interactions (v : Interactions) (s : RunServer) : RunServer := ltac:(update_field ds_eta ds_interactions v s).
Definition set_daemon (v : Daemon St) (s : RunServer) : RunServer := ltac:(update_field ds_eta ds_daemon v s).
Definition set_log (v : list Observation) (s : RunServer) : RunServer := ltac:(update_field ds_eta ds_log v s).

Definition update_run (a : nat) (f : RunRecord → RunRecord) (s : RunServer) : RunServer :=
  set_server_runs (alter f a (ds_runs s)) s.
Definition observe_run (o : Observation) (s : RunServer) : RunServer := set_log (ds_log s ++ [o]) s.
(** The task of a run goes on; when it is through with the session, the lock is free. *)
Definition go_on (a : nat) (task : RunTask) (s : RunServer) : RunServer :=
  set_tasks (alter (λ '(lock, _), (lock, task)) a (ds_tasks s)) s.
Definition unlock (a : nat) (session : Session) (s : RunServer) : RunServer :=
  match ds_tasks s !! a with
  | Some (lock, _) => set_locks (<[lock := Some session]> (ds_locks s)) s
  | None => s
  end.

(** ** Publication *)

(** [publish_committed] of both registries: the envelopes go to the notifiers. *)
Definition hand_over (a : nat) (owner : string) (now : N) (s : RunServer) (committed : CommittedDualPublication) :
    RunServer :=
  observe_run (ObsHanded a committed)
    (set_daemon (publish_committed owner committed.2 now (ds_daemon s)) s).

(** The task at the head of the queue commits its change and releases the lock. *)
Definition commit_session_event (a : nat) (unix_ms now : N) : eff RunServer SessionManagementFailure () := λ s,
  match ds_runs s !! a with
  | Some run =>
      match dr_queue run with
      | mutation :: queue =>
          let s := update_run a (set_queue queue) s in
          match publish_run (dr_owner run) mutation unix_ms now (ds_daemon s) with
          | (Err error, d) => (Err error, set_daemon d s)
          | (Ok committed, d) =>
              let s := observe_run (ObsCommitted a committed) (set_daemon d s) in
              (Ok (), if dr_live run then hand_over a (dr_owner run) now s committed
                      else update_run a (λ r, set_pending_events (dr_pending r ++ [committed]) r) s)
          end
      | [] => (Ok (), s)
      end
  | None => (Ok (), s)
  end.

Definition cursor_le (x y : CommittedDualPublication) : Prop :=
  (cur_seq (env_cursor x.1) <= cur_seq (env_cursor y.1))%N.
#[export] Instance cursor_le_dec x y : Decision (cursor_le x y).
Proof. unfold cursor_le. apply _. Defined.

(** [deliver_acceptance]: the acknowledgement of the start has reached the client;
    [None] is the panic of [try_lock]. *)
Definition deliver_acceptance (a : nat) (now : N) (s : RunServer) : option RunServer :=
  run ← ds_runs s !! a;
  match dr_queue run with
  | _ :: _ => None
  | [] =>
      match dr_acceptance run with
      | Some _ => Some s
      | None =>
          Some (update_run a (λ r, set_acceptance (Some true) (set_live true (set_pending_events [] r)))
                  (foldl (hand_over a (dr_owner run) now) s (merge_sort cursor_le (dr_pending run))))
      end
  end.

(** [StartAcceptanceGuard::drop] *)
Definition drop_acceptance (a : nat) (s : RunServer) : RunServer :=
  update_run a (λ r, match dr_acceptance r with
                     | None => set_cancel true (set_acceptance (Some false) r)
                     | Some _ => r
                     end) s.

(** ** Cancellation *)

(** [request_cancel_locked]: whether the cancellation is new. *)
Definition request_cancel (a : nat) (now : string * string → N) (s : RunServer) : bool * RunServer :=
  match ds_runs s !! a with
  | None => (false, s)
  | Some run =>
      let snapshot := dr_snapshot run in
      if is_terminal (snap_status snapshot) || bool_decide (snap_status snapshot = RunCancelling) then (false, s)
      else
        let s := update_run a (λ r, set_cancel true (set_run_snapshot (set_status RunCancelling (dr_snapshot r)) r)) s in
        let s := set_interactions (clear_run now (dr_owner run) (turn_thread_id (dr_params run))
                   (turn_turn_id (dr_params run)) REMOVAL_CANCELLED (ds_interactions s)) s in
        (true, observe_run (ObsCancelled a) s)
  end.

Definition expired_error : JSONRPCError :=
  {| err_code := -32030; err_message := "RunExpired"; err_data := None |}.

(** [find_run] *)
Definition find_run (key : RunKey) (owner : string) (s : RunServer) : result JSONRPCError nat :=
  reject_if (is_expired_run (ds_registry s) key owner) expired_error;;
  match rg_live (ds_registry s) !! key with
  | Some run => if arc_owner run == owner then Ok (arc_ptr run) else Err (invalid_params "RunNotFound")
  | None => Err (invalid_params "RunNotFound")
  end.

(** [handle_run_ref]: [turn.get], and [turn.cancel], whose change joins the queue. The
    usage and the executions are those the engine has reported so far. *)
Definition run_ref (key : RunKey) (owner : string) (cancel : bool) (progress : UsageMetrics * list ToolExecutionRecord)
    (now : string * string → N) (s : RunServer) : result JSONRPCError RunSnapshot * RunServer :=
  match find_run key owner s with
  | Err error => (Err error, s)
  | Ok a =>
      let s := update_run a (λ r, set_run_snapshot
                 (set_tool_executions progress.2 (set_snap_usage progress.1 (dr_snapshot r))) r) s in
      let '(changed, s) := if cancel then request_cancel a now s else (false, s) in
      match ds_runs s !! a with
      | None => (Err (invalid_params "RunNotFound"), s)
      | Some run =>
          let result := dr_snapshot run in
          (Ok result, if changed then update_run a (enqueue (MutationChanged result)) s else s)
      end
  end.
(** ** The start of a run *)

Definition limit_error (message : string) : JSONRPCError :=
  {| err_code := -32031; err_message := message; err_data := None |}.
Definition session_busy : JSONRPCError := {| err_code := -32001; err_message := "SessionBusy"; err_data := None |}.

(** A new run, or the one that is already there. *)
Inductive StartOutcome := StartNew (run : nat) | StartJoined (run : nat).

Definition run_deadline (params : StartTurnParams) (now : N) : result JSONRPCError (option N) :=
  reject_if (str_is_empty (turn_turn_id params) || (turn_max_steps params =? 0)%nat
             || bool_decide (turn_timeout_ms params = Some 0%N))
    (invalid_params "turn_id and positive run limits are required");;
  match turn_timeout_ms params with
  | Some ms => Some <$> ok_or (instant_add now (millis ms)) (invalid_params "timeout_ms is too large")
  | None => Ok None
  end.

(** The record of a new run. *)
Definition new_run (owner : string) (params : StartTurnParams) (deadline : option N) (ordinal unix_ms : N)
    (session : Session) : RunRecord :=
  {| dr_owner := owner; dr_params := params; dr_deadline := deadline; dr_accepted_ordinal := ordinal;
     dr_context := {| ctx_agent_name := th_agent_name session; ctx_thread_id := turn_thread_id params;
                      ctx_turn_id := turn_turn_id params;
                      ctx_deadline_unix_ms := saturating_add unix_ms <$> turn_timeout_ms params |};
     dr_snapshot := initial_snapshot params; dr_cancel := false; dr_acceptance := None;
     dr_preparation := if is_some (th_journal session) then None else Some (Ok ());
     dr_terminal_delivery := None; dr_live := false; dr_pending := []; dr_queue := [] |}.

(** What is known of the identity before the session is touched: [Some] joins a run. *)
Definition known_run (owner : string) (params : StartTurnParams) (s : RunServer) : result JSONRPCError (option nat) :=
  let key := (turn_thread_id params, turn_turn_id params) in
  map_err invalid_params (guard_open (ds_lifecycle s) key.1 owner);;
  reject_if (is_expired_run (ds_registry s) key owner) expired_error;;
  match rg_live (ds_registry s) !! key with
  | Some run =>
      reject_if (negb ((arc_owner run == owner)
                       && bool_decide (dr_params <$> ds_runs s !! arc_ptr run = Some params)))
        (invalid_params "RunConflict");;
      Ok (Some (arc_ptr run))
  | None => Ok None
  end.

(** The session whose lock a new run takes, and the ordinal of its turn. *)
Definition reserve_session (params : StartTurnParams) (s : RunServer) : result JSONRPCError (nat * Session * N) :=
  lock ← ok_or (ds_sessions s !! turn_thread_id params) (invalid_params "SessionNotFound");
  session ← ok_or (ds_locks s !! lock ≫= id) session_busy;
  map_err (λ error, limit_error (core_error_text error)) (check_run_admission session (turn_input_items params));;
  ordinal ← ok_or (checked_add (th_accepted_turns session) 1) (limit_error "Accepted turn count exhausted");
  Ok (lock, session, ordinal).

(** [handle_start_turn] up to the insertion, under the locks of the registry and of the
    life cycle. *)
Definition admit_turn (owner : string) (params : StartTurnParams) (now unix_ms : N) (s : RunServer) :
    result JSONRPCError StartOutcome * RunServer :=
  match (deadline ← run_deadline params now; known ← known_run owner params s; Ok (deadline, known)) with
  | Err error => (Err error, s)
  | Ok (_, Some a) => (Ok (StartJoined a), s)
  | Ok (deadline, None) =>
      match reserve_session params s with
      | Err error => (Err error, s)
      | Ok (lock, session, ordinal) =>
          let a := ds_next s in
          let run := new_run owner params deadline ordinal unix_ms session in
          match register_run owner (turn_thread_id params) (turn_turn_id params) a (ds_interactions s) with
          | Err error => (Err (invalid_params error), s)
          | Ok interactions =>
              let task := if is_some (th_journal session) then TaskJournal session else TaskBegin false session in
              (Ok (StartNew a),
               {| ds_registry := registry_insert_run (dr_key run) {| arc_ptr := a; arc_owner := owner |} (ds_registry s);
                  ds_runs := <[a := run]> (ds_runs s); ds_tasks := <[a := (lock, task)]> (ds_tasks s);
                  ds_next := S a; ds_sessions := ds_sessions s; ds_locks := <[lock := None]> (ds_locks s);
                  ds_interactions := interactions; ds_lifecycle := ds_lifecycle s; ds_daemon := ds_daemon s;
                  ds_log := ds_log s |})
          end
      end
  end.

(** [prepared], and the answer to a start: none until the run is prepared. *)
Definition start_answer (r : RunRecord) : option (result JSONRPCError RunKey) :=
  (λ prepared, prepared;; Ok (dr_key r)) <$> dr_preparation r.

(** [recovery::store_error] *)
Definition store_error (error : StoreError) : JSONRPCError :=
  match error with
  | LimitExceeded message => limit_error message
  | Io _ | Poisoned _ =>
      {| err_code := STORE_FAILED; err_message := "Session storage commit failed; close and recover this attachment";
         err_data := None |}
  | other => {| err_code := RECOVERY_REJECTED; err_message := error_text other; err_data := None |}
  end.

(** A run that could not begin is forgotten. *)
Definition begin_failed (a : nat) (session : Session) (error : JSONRPCError) (s : RunServer) : RunServer :=
  match ds_runs s !! a with
  | None => s
  | Some run =>
      let s := match th_journal session with
               | Some _ => update_run a (λ r, set_terminal_delivery (Some (Ok ()))
                             (set_acceptance (Some false) (set_preparation (Some (Err error)) r))) s
               | None => s
               end in
      let s := set_registry (registry_remove_run (dr_key run) (ds_registry s)) (unlock a session s) in
      go_on a TaskDone (set_interactions (unregister_run (dr_owner run) (dr_key run).1 (dr_key run).2 a
                                            (ds_interactions s)) s)
  end.

(** The task of a durable run asks its journal. *)
Definition begin_journal (a : nat) (s : RunServer) : RunServer :=
  match ds_tasks s !! a, ds_runs s !! a with
  | Some (_, TaskJournal session), Some run =>
      match th_journal session with
      | Some j =>
          let effective := from_option (apply_options (th_sampling_options session)) (th_sampling_options session)
                             (turn_options (dr_params run)) in
          let '(begun, j) := journal_begin (dr_params run) (dr_snapshot run) (options_to_value effective) j in
          let session := CoreSession.set_journal (Some j) session in
          match begun with
          | Err error => begin_failed a session (store_error error) s
          | Ok _ => go_on a (TaskBegin false session) s
          end
      | None => s
      end
  | _, _ => s
  end.

(** The change [Begin] joins the queue: without a journal with the snapshot of the
    admission, with one with the snapshot as it is. *)
Definition enqueue_begin (a : nat) (s : RunServer) : RunServer :=
  match ds_tasks s !! a, ds_runs s !! a with
  | Some (_, TaskBegin false session), Some run =>
      let snapshot := if is_some (th_journal session) then dr_snapshot run else initial_snapshot (dr_params run) in
      update_run a (enqueue (MutationBegin snapshot a)) (go_on a (TaskBegin true session) s)
  | _, _ => s
  end.

(** The change at the head of the queue is committed, and its task goes on. *)
Definition commit_next (a : nat) (unix_ms now : N) (s : RunServer) : RunServer :=
  let head_ := ds_runs s !! a ≫= λ run, head (dr_queue run) in
  let '(answer, s) := commit_session_event a unix_ms now s in
  match head_, ds_tasks s !! a with
  | Some (MutationBegin _ _), Some (_, TaskBegin _ session) =>
      match answer with
      | Ok _ => go_on a (TaskAwaiting session) (update_run a (set_preparation (Some (Ok ()))) s)
      | Err error => begin_failed a session (invalid_params (debug_failure error)) s
      end
  | _, _ => s
  end.
(** ** Execution *)

(** What a turn of the engine takes from its environment. *)
Record TurnEnvironment := {
  te_supply : nat → string;
  te_schedule : nat → list Label;
  te_hash_order : gmap string (string * MessagePhase) → list (string * (string * MessagePhase));
}.

(** The state of the engine when the run starts: it passes [cut] [await] points before
    its future is dropped. *)
Definition engine_start (session : Session) (cut : option nat) : Run :=
  {| rn_session := session; rn_items := []; rn_usage := usage_default; rn_executions := []; rn_events := [];
     rn_polls := cut; rn_room := None; rn_fresh := 0 |}.

(** The future was dropped at an [await] point, or it returned. *)
Definition dropped (out : result CoreError EngineResult) (r : @Run J Adapter) : bool :=
  match out with Err e => (e == run_cancelled) && bool_decide (rn_polls r = Some 0) | Ok _ => false end.

(** The options of the run, for the time of the run. *)
Definition with_options (options : SamplingOptions) (s : Session) : Session :=
  {| th_id := th_id s; th_system_prompt := th_system_prompt s; th_history := th_history s; th_tools := th_tools s;
     th_adapter := th_adapter s; th_provider := th_provider s; th_sampling_options := options;
     th_agent_name := th_agent_name s; th_context_policy := th_context_policy s; th_journal := th_journal s;
     th_limits := th_limits s; th_accepted_turns := th_accepted_turns s |}.
Definition run_options (run : RunRecord) (session : Session) : Session :=
  match turn_options (dr_params run) with
  | Some options => with_options (apply_options (th_sampling_options session) options) session
  | None => session
  end.

(** [self.engine.run_turn_with_context(..)] under the [select!] of [execute_run]; [why]
    is the branch that drops it. The turn runs to where it ends at once, and its events,
    which the code receives from a channel while it runs, are published after that. *)
Definition execute_turn (engine : @AgentEngine J Adapter) (env : TurnEnvironment) (run : RunRecord) (session : Session)
    (cut : option nat) (why : RunEnding) : Execution :=
  let defaults := th_sampling_options session in
  let session := run_options run session in
  let turn_id := ctx_turn_id (dr_context run) in
  let input := turn_input_items (dr_params run) in
  let start := engine_start session cut in
  let '(out, inner) := run_inner engine turn_id (dr_context run) (te_supply env) (te_schedule env) (te_hash_order env)
                         (turn_max_steps (dr_params run)) input start in
  let '(ending, r) :=
    if dropped out inner
    then (why, (close_turn (te_supply env) (length (th_history session)) inner).2)
    else let '(out, r) := run_turn_with_context engine turn_id (dr_context run) (te_supply env) (te_schedule env)
                            (te_hash_order env) (turn_max_steps (dr_params run)) input start in
         (EndedResult out, r) in
  {| ex_events := rn_events r; ex_hand := None; ex_accepted := true; ex_ending := ending; ex_usage := rn_usage r;
     ex_executions := rn_executions r; ex_history_start := length (th_history session);
     ex_defaults := defaults; ex_session := rn_session r |}.

(** The gate of the acceptance opens: the turn is executed, or nothing is. *)
Definition begin_execution (engine : @AgentEngine J Adapter) (env : TurnEnvironment) (cut : option nat)
    (why : RunEnding) (a : nat) (s : RunServer) : RunServer :=
  match ds_tasks s !! a, ds_runs s !! a with
  | Some (_, TaskAwaiting session), Some run =>
      match dr_acceptance run with
      | Some true => go_on a (TaskExecuting (execute_turn engine env run session cut why)) s
      | Some false =>
          go_on a (TaskExecuting
            {| ex_events := []; ex_hand := None; ex_accepted := false; ex_ending := EndedUnaccepted;
               ex_usage := usage_default; ex_executions := []; ex_history_start := length (th_history session);
               ex_defaults := th_sampling_options session; ex_session := run_options run session |}) s
      | None => s
      end
  | _, _ => s
  end.

Definition set_hand (v : option (RunEvent * bool)) (x : Execution) : Execution :=
  {| ex_events := ex_events x; ex_hand := v; ex_accepted := ex_accepted x; ex_ending := ex_ending x;
     ex_usage := ex_usage x; ex_executions := ex_executions x; ex_history_start := ex_history_start x;
     ex_defaults := ex_defaults x; ex_session := ex_session x |}.
Definition set_events_left (v : list AgentStreamEvent) (x : Execution) : Execution :=
  {| ex_events := v; ex_hand := ex_hand x; ex_accepted := ex_accepted x; ex_ending := ex_ending x;
     ex_usage := ex_usage x; ex_executions := ex_executions x; ex_history_start := ex_history_start x;
     ex_defaults := ex_defaults x; ex_session := ex_session x |}.

(** [publish_stream]: the snapshot takes the next event; [executions] are those the
    engine has reported. *)
Definition take_event (executions : list ToolExecutionRecord) (a : nat) (s : RunServer) : RunServer :=
  match ds_tasks s !! a, ds_runs s !! a with
  | Some (_, TaskExecuting x), Some run =>
      match ex_events x, ex_hand x with
      | event :: events, None =>
          let '(snapshot, envelope) := stream_snapshot executions event (dr_snapshot run) in
          let s := go_on a (TaskExecuting (set_hand ((λ e, (e, false)) <$> envelope) (set_events_left events x)))
                     (update_run a (set_run_snapshot snapshot) s) in
          match envelope with Some envelope => observe_run (ObsNumbered a envelope) s | None => s end
      | _, _ => s
      end
  | _, _ => s
  end.

(** Its session event joins the queue. *)
Definition queue_event (a : nat) (s : RunServer) : RunServer :=
  match ds_tasks s !! a with
  | Some (_, TaskExecuting x) =>
      match ex_hand x with
      | Some (envelope, false) =>
          update_run a (enqueue (MutationEvent envelope))
            (go_on a (TaskExecuting (set_hand (Some (envelope, true)) x)) s)
      | _ => s
      end
  | _ => s
  end.

(** A change that the task waits for is no longer in the queue. *)
Definition is_committed (event : RunEvent) (run : RunRecord) : bool :=
  negb (existsb (λ m, match m with MutationEvent e => bool_decide (e = event) | _ => false end) (dr_queue run)).

(** Once it is committed it goes to the transport, unless the run is cancelled or its
    deadline passes first. *)
Definition send_event (sent : bool) (a : nat) (s : RunServer) : RunServer :=
  match ds_tasks s !! a, ds_runs s !! a with
  | Some (_, TaskExecuting x), Some run =>
      match ex_hand x with
      | Some (envelope, true) =>
          if is_committed envelope run then
            let s := go_on a (TaskExecuting (set_hand None x)) s in
            if sent && negb (dr_cancel run) then observe_run (ObsSent a envelope) s else s
          else s
      | _ => s
      end
  | _, _ => s
  end.

(** The terminal commit of [execute_run], up to the queue of the publication. The
    requests of the run are removed here; the code removes them just before it publishes
    the events that are left in the channel. *)
Definition finish_run (now : string * string → N) (a : nat) (s : RunServer) : RunServer :=
  match ds_tasks s !! a, ds_runs s !! a with
  | Some (_, TaskExecuting x), Some run =>
      match ex_events x, ex_hand x with
      | [], None =>
          let '(thread_id, turn_id) := dr_key run in
          let clear cause s := set_interactions (clear_run now (dr_owner run) thread_id turn_id cause (ds_interactions s)) s in
          let s := match ex_ending x with EndedDeadline => clear REMOVAL_CANCELLED s | _ => s end in
          let s := clear REMOVAL_RUN_FINISHED s in
          let session := restore_accepted_turns (dr_accepted_ordinal run) (with_options (ex_defaults x) (ex_session x)) in
          let snapshot := terminal_snapshot (ex_accepted x) (dr_cancel run) (ex_ending x) (ex_usage x) (ex_executions x)
                            (drop (ex_history_start x) (th_history session)) (dr_snapshot run) in
          let '(session, snapshot) :=
            match th_journal session with
            | Some j =>
                match journal_finalize (snap_turn_id snapshot) snapshot j with
                | (Ok finalized, j) =>
                    (replace_history (fin_history finalized) (CoreSession.set_journal (Some j) session),
                     fin_snapshot finalized)
                | (Err _, j) => (CoreSession.set_journal (Some j) session, store_failed_snapshot snapshot)
                end
            | None => (session, snapshot)
            end in
          let event := {| re_thread_id := snap_thread_id snapshot; re_turn_id := snap_turn_id snapshot;
                          re_seq := snap_last_seq snapshot; re_payload := RunFinished snapshot |} in
          let s := unlock a session (update_run a (set_run_snapshot snapshot) s) in
          let s := if ex_accepted x then update_run a (enqueue (MutationEvent event)) s else s in
          observe_run (ObsNumbered a event) (go_on a (TaskDelivering (ex_accepted x) event) s)
      | _, _ => s
      end
  | _, _ => s
  end.

(** The terminal event goes to the transport; a delivery starts the time to live. *)
Definition deliver_terminal (sent : bool) (now : N) (a : nat) (s : RunServer) : RunServer :=
  match ds_tasks s !! a, ds_runs s !! a with
  | Some (_, TaskDelivering accepted event), Some run =>
      if accepted then
        if is_committed event run then
          let s := if sent then
                     set_registry (mark_delivered (dr_key run) {| arc_ptr := a; arc_owner := dr_owner run |} now
                                     (ds_registry s)) (observe_run (ObsSent a event) s)
                   else s in
          go_on a TaskDone (update_run a (set_terminal_delivery (Some
            (if sent then Ok () else Err "Run terminal event could not be delivered"))) s)
        else s
      else go_on a TaskDone (update_run a (set_terminal_delivery (Some (Err "Run acceptance was not delivered"))) s)
  | _, _ => s
  end.

(** ** Retention *)

(** [retire_candidate] *)
Definition retire_candidate (now : N) (candidate : RetirementCandidate) (s : RunServer) : bool * RunServer :=
  let '(thread_id, turn_id) := cd_key candidate in
  let '(quiet, interactions) := interactions_retire_run (arc_owner (cd_run candidate)) thread_id turn_id
                                  (arc_ptr (cd_run candidate)) (ds_interactions s) in
  let s := set_interactions interactions s in
  if quiet then
    let '(scrubbed, d) := ManagementOps.retire_run (arc_owner (cd_run candidate)) thread_id turn_id
                            (arc_ptr (cd_run candidate)) now (ds_daemon s) in
    let s := set_daemon d s in
    if scrubbed then let '(retired, g) := registry_retire (ds_registry s) candidate in (retired, set_registry g s)
    else (false, s)
  else (false, s).

(** A tick of the janitor, up to the sweep of the stores ([StoreSweep]). *)
Definition retire_runs (now : N) (cs : list RetirementCandidate) (s : RunServer) : RunServer :=
  foldl (λ s candidate, (retire_candidate now candidate s).2) s cs.
Definition janitor_tick `{KeyOrder} (policy : RunRetentionPolicy) (instant now : N) (s : RunServer) : RunServer :=
  let s := retire_runs now (candidates (ds_registry s) policy instant) s in
  set_daemon (with_management (prune_closed now) (ds_daemon s)) s.
End server.

(** The journals of the store *)
#[export] Instance store_run_journal `{Externals, RecordExternals, Supply} {S : Type} `{!SessionStore S} :
    RunJournal (StoreJournal S) := {
  journal_begin params snapshot options j :=
    let k := sj_commands j in
    let '(answer, worker, store) := journal_step (sj_worker j) (ActionBegin params snapshot options) (supply_apply_ms k)
                                      (supply_touch_ms k) (supply_result_id k) (supply_execution_id k) (sj_store j) in
    (match answer with Ok (ResponseBool b) => Ok b | Ok _ => Err (Invalid "unreachable") | Err e => Err e end,
     {| sj_worker := worker; sj_store := store; sj_commands := Datatypes.S k |});
  journal_finalize turn candidate j :=
    let k := sj_commands j in
    let '(answer, worker, store) := journal_step (sj_worker j) (ActionFinalize turn candidate) (supply_apply_ms k)
                                      (supply_touch_ms k) (supply_result_id k) (supply_execution_id k) (sj_store j) in
    (match answer with Ok (ResponseFinalized r) => Ok r | Ok _ => Err (Invalid "unreachable") | Err e => Err e end,
     {| sj_worker := worker; sj_store := store; sj_commands := Datatypes.S k |});
}.
