(* ===== verification/RunSteps.v ===== *)
(** * The runs of the daemon as one system

    The steps of the tasks of every run interleaved with each other, with the requests
    of the clients, with the janitor, and with everything else that the daemon does. A
    run is one of the reachable states of [runs_step]; the invariants here are what the
    tasks promise each other. The locks of the snapshots are not modelled: a step may
    come between the change of a snapshot and its publication, which the code excludes
    for cancellations and approvals, so that the theorems hold for more interleavings
    than there are. The laws of a single run follow: its numbers, its end, its
    publications. *)

From S2P Require Import Prelude EventJournal Protocol StoreState CoreContext CoreSession ModelStep Coordinator Engine StoreBackend StoreConfig StoreRuntime SessionViews ViewJournal SessionManagement SessionCatalog HistoryArchive ManagementProjection ManagementOps SessionServer Interactions InteractionRecord InteractionServer RunRegistry DaemonRuns.

Section steps.
Context `{Externals} `{ToolExternals} `{EngineExternals} `{ManagementExternals} `{ViewExternals} `{SchemaExternals}.
Context `{EventExternals} `{DigestExternals} `{MapOrder} `{RunExternals} `{KeyOrder}.
Context {St : Type} `{!SessionStore St} {J Adapter : Type} `{!Journal J} `{!RunJournal J}.
Context (engine : @AgentEngine J Adapter).

Notation Session := (ThreadSession ToolRegistry Adapter ModelProvider SamplingOptions ContextPolicy J).
Notation Server := (@RunServer St J Adapter).
Implicit Types (s : Server) (r : RunRecord) (a : nat) (x : @Execution J Adapter) (session : Session).

(** An answered approval leaves the snapshot of its run ([finish_response_commit]). *)
Definition approval_answered (request_id : string) a s : Server :=
  match ds_runs s !! a with
  | Some run =>
      match drop_approval request_id (dr_snapshot run) with
      | Some changed => update_run a (λ r, enqueue (MutationChanged changed) (set_run_snapshot changed r)) s
      | None => s
      end
  | None => s
  end.

(** What the rest of the daemon does: sessions open and close, views, interactions and
    life cycle change, but no lock that a run holds is touched. *)
Definition elsewhere (sessions : gmap string nat) (locks : gmap nat (option Session)) (interactions : Interactions)
    (lifecycle : LifecycleState) (d : Daemon St) s : Server :=
  {| ds_registry := ds_registry s; ds_runs := ds_runs s; ds_tasks := ds_tasks s; ds_next := ds_next s;
     ds_sessions := sessions; ds_locks := locks; ds_interactions := interactions; ds_lifecycle := lifecycle;
     ds_daemon := d; ds_log := ds_log s |}.

Inductive runs_step : Server → Server → Prop :=
  | step_admit owner params now unix_ms s : runs_step s (admit_turn owner params now unix_ms s).2
  | step_journal a s : runs_step s (begin_journal a s)
  | step_enqueue_begin a s : runs_step s (enqueue_begin a s)
  | step_commit a unix_ms now s : runs_step s (commit_next a unix_ms now s)
  | step_accept a now s s' : deliver_acceptance a now s = Some s' → runs_step s s'
  | step_abandon a s : runs_step s (drop_acceptance a s)
  | step_execute env cut why a s :
      why = EndedCancelled ∨ why = EndedDeadline → runs_step s (begin_execution engine env cut why a s)
  | step_take executions a s : runs_step s (take_event executions a s)
  | step_queue a s : runs_step s (queue_event a s)
  | step_send sent a s : runs_step s (send_event sent a s)
  | step_finish now a s : runs_step s (finish_run now a s)
  | step_deliver sent now a s : runs_step s (deliver_terminal sent now a s)
  | step_ref key owner cancel progress now s : runs_step s (run_ref key owner cancel progress now s).2
  | step_cancel a now s : runs_step s (request_cancel a now s).2
  | step_approval request_id a s : runs_step s (approval_answered request_id a s)
  | step_janitor policy instant now s : runs_step s (janitor_tick policy instant now s)
  | step_remove_session thread owner s :
      runs_step s (set_registry (remove_session thread owner (ds_registry s)) s)
  | step_elsewhere sessions locks interactions lifecycle d s :
      (∀ l, ds_locks s !! l = Some None → locks !! l = Some None) →
      runs_step s (elsewhere sessions locks interactions lifecycle d s).

Definition server_start s : Prop :=
  ds_registry s = run_registry_default ∧ ds_runs s = ∅ ∧ ds_tasks s = ∅ ∧ ds_log s = []
  ∧ (∀ l, ds_locks s !! l ≠ Some None).

Definition reachable s : Prop := ∃ s0, server_start s0 ∧ rtc runs_step s0 s.

(** ** One run by itself *)

(** What concerns one run: its record, its task, and its part of the log. *)
Record Local := { lo_run : RunRecord; lo_task : @RunTask J Adapter; lo_log : list Observation }.

Definition observed_run (o : Observation) : nat :=
  match o with
  | ObsCommitted a _ | ObsHanded a _ | ObsCancelled a | ObsNumbered a _ | ObsSent a _ => a
  end.
Definition log_of a s : list Observation := List.filter (λ o, (observed_run o =? a)%nat) (ds_log s).
Definition local a s : option Local :=
  match ds_runs s !! a, ds_tasks s !! a with
  | Some run, Some (_, task) => Some {| lo_run := run; lo_task := task; lo_log := log_of a s |}
  | _, _ => None
  end.

Definition on_run (f : RunRecord → RunRecord) (l : Local) : Local :=
  {| lo_run := f (lo_run l); lo_task := lo_task l; lo_log := lo_log l |}.
Definition with_task (task : @RunTask J Adapter) (l : Local) : Local :=
  {| lo_run := lo_run l; lo_task := task; lo_log := lo_log l |}.
Definition with_log (more : list Observation) (l : Local) : Local :=
  {| lo_run := lo_run l; lo_task := lo_task l; lo_log := lo_log l ++ more |}.

(** A run that has just been admitted. *)
Inductive local_start a : Local → Prop :=
  | start_admitted owner params deadline ordinal unix_ms session :
      local_start a
        {| lo_run := new_run owner params deadline ordinal unix_ms session;
           lo_task := if is_some (th_journal session) then TaskJournal session else TaskBegin false session;
           lo_log := [] |}.

Inductive local_step a : Local → Local → Prop :=
  | local_journal session j l :
      lo_task l = TaskJournal session →
      local_step a l (with_task (TaskBegin false (CoreSession.set_journal (Some j) session)) l)
  | local_failed session f l :
      lo_task l = TaskJournal session ∨ (∃ queued, lo_task l = TaskBegin queued session) →
      f = id ∨ (∃ error, f = λ r, set_terminal_delivery (Some (Ok ())) (set_acceptance (Some false)
                                     (set_preparation (Some (Err error)) r))) →
      local_step a l (with_task TaskDone (on_run f l))
  | local_begin session snapshot l :
      lo_task l = TaskBegin false session →
      local_step a l (on_run (enqueue (MutationBegin snapshot a)) (with_task (TaskBegin true session) l))
  | local_refused mutation queue l :
      dr_queue (lo_run l) = mutation :: queue → local_step a l (on_run (set_queue queue) l)
  | local_commit mutation queue c l :
      dr_queue (lo_run l) = mutation :: queue →
      local_step a l
        (if dr_live (lo_run l) then with_log [ObsCommitted a c; ObsHanded a c] (on_run (set_queue queue) l)
         else on_run (λ r, set_pending_events (dr_pending r ++ [c]) r)
                (with_log [ObsCommitted a c] (on_run (set_queue queue) l)))
  | local_ready queued session l :
      lo_task l = TaskBegin queued session →
      local_step a l (with_task (TaskAwaiting session) (on_run (set_preparation (Some (Ok ()))) l))
  | local_accept l :
      dr_queue (lo_run l) = [] → dr_acceptance (lo_run l) = None →
      local_step a l (on_run (λ r, set_acceptance (Some true) (set_live true (set_pending_events [] r)))
                        (with_log (ObsHanded a <$> merge_sort cursor_le (dr_pending (lo_run l))) l))
  | local_abandon l :
      dr_acceptance (lo_run l) = None →
      local_step a l (on_run (λ r, set_cancel true (set_acceptance (Some false) r)) l)
  | local_cancel l :
      is_terminal (snap_status (dr_snapshot (lo_run l))) = false →
      snap_status (dr_snapshot (lo_run l)) ≠ RunCancelling →
      local_step a l (with_log [ObsCancelled a]
        (on_run (λ r, set_cancel true (set_run_snapshot (set_status RunCancelling (dr_snapshot r)) r)) l))
  | local_progress usage executions l :
      local_step a l (on_run (λ r, set_run_snapshot
        (set_tool_executions executions (set_snap_usage usage (dr_snapshot r))) r) l)
  | local_changed l : local_step a l (on_run (λ r, enqueue (MutationChanged (dr_snapshot r)) r) l)
  | local_approval request_id changed l :
      drop_approval request_id (dr_snapshot (lo_run l)) = Some changed →
      local_step a l (on_run (λ r, enqueue (MutationChanged changed) (set_run_snapshot changed r)) l)
  | local_execute session x l :
      lo_task l = TaskAwaiting session → dr_acceptance (lo_run l) = Some (ex_accepted x) → ex_hand x = None →
      (ex_accepted x = false → ex_ending x = EndedUnaccepted) →
      local_step a l (with_task (TaskExecuting x) l)
  | local_take x executions event events snapshot envelope l :
      lo_task l = TaskExecuting x → ex_events x = event :: events → ex_hand x = None →
      stream_snapshot executions event (dr_snapshot (lo_run l)) = (snapshot, envelope) →
      local_step a l
        (with_log (ObsNumbered a <$> option_list envelope)
          (with_task (TaskExecuting (set_hand ((λ e, (e, false)) <$> envelope) (set_events_left events x)))
            (on_run (set_run_snapshot snapshot) l)))
  | local_queue x envelope l :
      lo_task l = TaskExecuting x → ex_hand x = Some (envelope, false) →
      local_step a l (on_run (enqueue (MutationEvent envelope))
                        (with_task (TaskExecuting (set_hand (Some (envelope, true)) x)) l))
  | local_send x envelope (sent : bool) l :
      lo_task l = TaskExecuting x → ex_hand x = Some (envelope, true) → is_committed envelope (lo_run l) = true →
      local_step a l (with_log (if sent then [ObsSent a envelope] else []) (with_task (TaskExecuting (set_hand None x)) l))
  | local_finish x candidate snapshot event l :
      lo_task l = TaskExecuting x → ex_events x = [] → ex_hand x = None →
      candidate = terminal_snapshot (ex_accepted x) (dr_cancel (lo_run l)) (ex_ending x) (ex_usage x) (ex_executions x)
                    (drop (ex_history_start x) (th_history (ex_session x))) (dr_snapshot (lo_run l)) →
      match th_journal (ex_session x) with
      | None => snapshot = candidate
      | Some j => snapshot = store_failed_snapshot candidate
                  ∨ ∃ f j', journal_finalize (snap_turn_id candidate) candidate j = (Ok f, j') ∧ snapshot = fin_snapshot f
      end →
      event = {| re_thread_id := snap_thread_id snapshot; re_turn_id := snap_turn_id snapshot;
                 re_seq := snap_last_seq snapshot; re_payload := RunFinished snapshot |} →
      local_step a l
        (with_log [ObsNumbered a event]
          (with_task (TaskDelivering (ex_accepted x) event)
            (on_run (λ r, if ex_accepted x then enqueue (MutationEvent event) (set_run_snapshot snapshot r)
                            else set_run_snapshot snapshot r) l)))
  | local_deliver accepted event (sent : bool) outcome l :
      lo_task l = TaskDelivering accepted event →
      (sent = true → accepted = true ∧ is_committed event (lo_run l) = true) →
      local_step a l (with_log (if sent then [ObsSent a event] else [])
        (with_task TaskDone (on_run (set_terminal_delivery (Some outcome)) l))).

(** ** Reading the log of a run *)

Definition numbered (log : list Observation) : list RunEvent :=
  omap (λ o, match o with ObsNumbered _ event => Some event | _ => None end) log.
Definition committed (log : list Observation) : list CommittedDualPublication :=
  omap (λ o, match o with ObsCommitted _ c => Some c | _ => None end) log.
Definition handed (log : list Observation) : list CommittedDualPublication :=
  omap (λ o, match o with ObsHanded _ c => Some c | _ => None end) log.
Definition sent (log : list Observation) : list RunEvent :=
  omap (λ o, match o with ObsSent _ event => Some event | _ => None end) log.
End steps.

(** ** What one run of the daemon does

    Invariants of the steps of a single run ([local_step]): its events are numbered
    without a gap and end with the terminal one, a cancellation decides its outcome, and
    its session events reach the subscribers once, after the start was acknowledged. *)

Section laws.
Context {J Adapter : Type} `{!Journal J} `{!RunJournal J}.
Notation Local := (@Local J Adapter).
Implicit Types (l : Local) (a : nat).

(** ** Publication *)

(** Before the start is acknowledged nothing has reached the subscribers and everything
    committed waits; afterwards everything committed has reached them. *)
Definition Announced l : Prop :=
  if dr_live (lo_run l)
  then dr_pending (lo_run l) = [] ∧ ∃ before after, committed (lo_log l) = before ++ after
         ∧ handed (lo_log l) = merge_sort cursor_le before ++ after
  else handed (lo_log l) = [] ∧ dr_pending (lo_run l) = committed (lo_log l).

Lemma committed_app log more : committed (log ++ more) = committed log ++ committed more.
Proof. apply omap_app. Qed.
Lemma handed_app log more : handed (log ++ more) = handed log ++ handed more.
Proof. apply omap_app. Qed.
Lemma numbered_app log more : numbered (log ++ more) = numbered log ++ numbered more.
Proof. apply omap_app. Qed.
Lemma sent_app log more : sent (log ++ more) = sent log ++ sent more.
Proof. apply omap_app. Qed.

Lemma handed_fmap a (cs : list CommittedDualPublication) : handed (ObsHanded a <$> cs) = cs.
Proof. induction cs as [|c cs IH]; [done|]. csimpl. by f_equal. Qed.
Lemma committed_fmap a (cs : list CommittedDualPublication) : committed (ObsHanded a <$> cs) = [].
Proof. by induction cs. Qed.

Lemma local_step_Announced a l l' : local_step a l l' → Announced l → Announced l'.
Proof.
  intros Hstep HP. unfold Announced in *. destruct Hstep; simpl; try done;
    rewrite ?handed_app, ?committed_app; simpl; rewrite ?app_nil_r; try done.
  - by match goal with Hf : _ = id ∨ _ |- _ => destruct Hf as [->|[? ->]] end.
  - destruct (dr_live (lo_run l)) eqn:Hl; simpl in *; rewrite Hl.
    + destruct HP as (Hp & before & after & Hc & Hh). rewrite committed_app, handed_app. split; [done|].
      exists before, (after ++ [c]). simpl. by rewrite Hc, Hh, !app_assoc.
    + destruct HP as [Hh Hp]. by rewrite committed_app, handed_app, Hh, Hp.
  - rewrite handed_fmap, committed_fmap, app_nil_r. split; [done|].
    destruct (dr_live (lo_run l)).
    + destruct HP as (Hp & before & after & Hc & Hh). exists before, after. rewrite Hp, Hc, Hh. by rewrite app_nil_r.
    + destruct HP as [Hh Hp]. exists (committed (lo_log l)), []. by rewrite Hh, Hp, !app_nil_r.
  - destruct envelope; simpl; by rewrite ?app_nil_r.
  - match goal with |- context [if ?b then [ObsSent _ _] else []] => destruct b end; simpl; by rewrite ?app_nil_r.
  - by destruct (ex_accepted x).
  - match goal with |- context [if ?b then [ObsSent _ _] else []] => destruct b end; simpl; by rewrite ?app_nil_r.
Qed.

Lemma local_start_Announced a l : local_start a l → Announced l.
Proof. by destruct 1. Qed.

(** ** Numbers and the end *)

Definition is_stream (event : RunEvent) : bool := match re_payload event with RunStream _ => true | _ => false end.

(** Events of the run, numbered from one *)
Definition Streams (key : RunKey) (events : list RunEvent) : Prop :=
  Forall (λ e, is_stream e = true ∧ (re_thread_id e, re_turn_id e) = key) events
  ∧ re_seq <$> events = N.of_nat <$> seq 1 (length events).

(** The candidate of the terminal commit *)
Record Terminal (key : RunKey) (n : nat) (cancelled : Prop) (candidate : RunSnapshot) : Prop := {
  tm_key : (snap_thread_id candidate, snap_turn_id candidate) = key;
  tm_status : is_terminal (snap_status candidate) = true;
  tm_pending : snap_pending_approvals candidate = [];
  tm_seq : snap_last_seq candidate = N.of_nat (S n);
  tm_result : snap_result candidate =
    Some {| res_turn_id := snap_turn_id candidate; res_thread_id := snap_thread_id candidate;
            res_status := turn_status_of (snap_status candidate); res_items := snap_items candidate;
            res_usage := snap_usage candidate |};
  tm_cancelled : cancelled → snap_status candidate = RunCancelled;
}.

(** What becomes of it: it is final, or the journal of a durable session decides. *)
Definition decided (candidate snapshot : RunSnapshot) : Prop :=
  snapshot = candidate ∨ snapshot = store_failed_snapshot candidate
  ∨ ∃ j f j', journal_finalize (snap_turn_id candidate) candidate j = (Ok f, j') ∧ snapshot = fin_snapshot f.

Definition terminal_event (snapshot : RunSnapshot) : RunEvent :=
  {| re_thread_id := snap_thread_id snapshot; re_turn_id := snap_turn_id snapshot; re_seq := snap_last_seq snapshot;
     re_payload := RunFinished snapshot |}.

Definition cancelled_in (log : list Observation) : Prop := ∃ a, ObsCancelled a ∈ log.

(** The end of a run: its last event is the terminal one. *)
Definition Concluded a key (log : list Observation) event : Prop :=
  ∃ before after candidate snapshot, log = before ++ ObsNumbered a event :: after
    ∧ Streams key (numbered before) ∧ numbered after = [] ∧ event = terminal_event snapshot
    ∧ Terminal key (length (numbered before)) (cancelled_in before) candidate ∧ decided candidate snapshot.

(** A run that goes on. *)
Record Going l : Prop := {
  go_streams : Streams (dr_key (lo_run l)) (numbered (lo_log l));
  go_seq : snap_last_seq (dr_snapshot (lo_run l)) = N.of_nat (length (numbered (lo_log l)));
  go_key : (snap_thread_id (dr_snapshot (lo_run l)), snap_turn_id (dr_snapshot (lo_run l))) = dr_key (lo_run l);
  go_status : snap_status (dr_snapshot (lo_run l)) ∈ [RunRunning; RunWaitingApproval; RunCancelling];
  go_cancelled : cancelled_in (lo_log l) →
    dr_cancel (lo_run l) = true ∧ snap_status (dr_snapshot (lo_run l)) = RunCancelling;
}.

(** What has gone to the transport: each event at most once and in order; the one that
    is under way has not. *)
Definition Numbered a l : Prop :=
  match lo_task l with
  | TaskBegin _ _ | TaskJournal _ | TaskAwaiting _ => Going l ∧ numbered (lo_log l) = [] ∧ sent (lo_log l) = []
  | TaskExecuting x =>
      Going l ∧ (ex_accepted x = false → ex_ending x = EndedUnaccepted)
      ∧ match ex_hand x with
        | Some (event, _) => ∃ before, numbered (lo_log l) = before ++ [event] ∧ sent (lo_log l) `sublist_of` before
        | None => sent (lo_log l) `sublist_of` numbered (lo_log l)
        end
  | TaskDelivering _ event =>
      Concluded a (dr_key (lo_run l)) (lo_log l) event
      ∧ ∃ before, numbered (lo_log l) = before ++ [event] ∧ sent (lo_log l) `sublist_of` before
  | TaskDone =>
      sent (lo_log l) `sublist_of` numbered (lo_log l)
      ∧ (numbered (lo_log l) = [] ∨ ∃ event, Concluded a (dr_key (lo_run l)) (lo_log l) event)
  end.

Lemma Streams_nil key : Streams key [].
Proof. by split. Qed.
Lemma Streams_snoc key events event :
  Streams key events → is_stream event = true → (re_thread_id event, re_turn_id event) = key →
  re_seq event = N.of_nat (S (length events)) → Streams key (events ++ [event]).
Proof.
  intros [Hf Hs] He Hk Hseq. split; [by apply Forall_app_2; [|constructor]|].
  rewrite fmap_app, Hs, length_app, seq_app, fmap_app. simpl. by rewrite Hseq.
Qed.

Lemma Concluded_more a key log event more : numbered more = [] → Concluded a key log event → Concluded a key (log ++ more) event.
Proof.
  intros Hm (before & after & candidate & snapshot & -> & ? & Ha & ?). exists before, (after ++ more), candidate, snapshot.
  rewrite <-app_assoc. split_and!; try done; [|naive_solver..]. by rewrite numbered_app, Ha, Hm.
Qed.

Lemma cancelled_in_app log more : cancelled_in (log ++ more) ↔ cancelled_in log ∨ cancelled_in more.
Proof. unfold cancelled_in. setoid_rewrite elem_of_app. naive_solver. Qed.
Lemma cancelled_in_nil : ¬ cancelled_in [].
Proof. intros [a Ha]. set_solver. Qed.

(** A step that leaves the task and the numbers alone, and keeps the snapshot going. *)
Lemma Numbered_frame a f more l :
  numbered more = [] → sent more = [] →
  dr_key (f (lo_run l)) = dr_key (lo_run l) →
  snap_last_seq (dr_snapshot (f (lo_run l))) = snap_last_seq (dr_snapshot (lo_run l)) →
  snap_thread_id (dr_snapshot (f (lo_run l))) = snap_thread_id (dr_snapshot (lo_run l)) →
  snap_turn_id (dr_snapshot (f (lo_run l))) = snap_turn_id (dr_snapshot (lo_run l)) →
  (snap_status (dr_snapshot (lo_run l)) ∈ [RunRunning; RunWaitingApproval; RunCancelling] →
   snap_status (dr_snapshot (f (lo_run l))) ∈ [RunRunning; RunWaitingApproval; RunCancelling]
   ∧ (cancelled_in more →
      dr_cancel (f (lo_run l)) = true ∧ snap_status (dr_snapshot (f (lo_run l))) = RunCancelling)
   ∧ (dr_cancel (lo_run l) = true → snap_status (dr_snapshot (lo_run l)) = RunCancelling →
      dr_cancel (f (lo_run l)) = true ∧ snap_status (dr_snapshot (f (lo_run l))) = RunCancelling)) →
  Numbered a l → Numbered a (with_log more (on_run f l)).
Proof.
  intros Hm Hs Hk Hseq Ht Hu Hst HN.
  assert (Going l → Going (with_log more (on_run f l))) as Hgo.
  { intros []. destruct (Hst go_status0) as (H1 & H2 & H3). split; simpl; rewrite ?numbered_app, ?Hm, ?app_nil_r;
      rewrite ?Hk, ?Hseq, ?Ht, ?Hu; try done. rewrite cancelled_in_app. intros [Hc|Hc]; [|by apply H2].
    destruct (go_cancelled0 Hc). by apply H3. }
  unfold Numbered in *. simpl. rewrite !numbered_app, !sent_app, Hm, Hs, !app_nil_r, Hk.
  destruct (lo_task l); try (destruct HN as [Hg ?]; split; [by apply Hgo|assumption]).
  - destruct HN as [Hc Hb]. split; [by apply Concluded_more|done].
  - destruct HN as [Hsub Hc]. split; [done|]. destruct Hc as [|[event Hc]]; [by left|right].
    exists event. by apply Concluded_more.
Qed.

Lemma with_log_nil l : with_log [] l = l.
Proof. destruct l. unfold with_log. simpl. by rewrite app_nil_r. Qed.

(** A step that keeps the snapshot, the key and the wish to cancel. *)
Lemma Numbered_run a f l :
  dr_key (f (lo_run l)) = dr_key (lo_run l) → dr_snapshot (f (lo_run l)) = dr_snapshot (lo_run l) →
  (dr_cancel (lo_run l) = true → dr_cancel (f (lo_run l)) = true) →
  Numbered a l → Numbered a (on_run f l).
Proof.
  intros Hk Hs Hc HN. rewrite <-(with_log_nil (on_run f l)).
  apply Numbered_frame; rewrite ?Hs; try done.
  intros Hst. split_and!; [done| |auto]. by intros ?%cancelled_in_nil.
Qed.

(** A step of the publication *)
Lemma Numbered_log a more l : numbered more = [] → sent more = [] → ¬ cancelled_in more → Numbered a l → Numbered a (with_log more l).
Proof.
  intros Hn Hs Hc HN. assert (with_log more l = with_log more (on_run id l)) as -> by done.
  apply Numbered_frame; try done.
Qed.

Lemma approval_keeps request_id snapshot changed :
  drop_approval request_id snapshot = Some changed →
  snap_last_seq changed = snap_last_seq snapshot ∧ snap_thread_id changed = snap_thread_id snapshot
  ∧ snap_turn_id changed = snap_turn_id snapshot
  ∧ (snap_status snapshot ∈ [RunRunning; RunWaitingApproval; RunCancelling] →
     snap_status changed ∈ [RunRunning; RunWaitingApproval; RunCancelling])
  ∧ (snap_status snapshot = RunCancelling → snap_status changed = RunCancelling).
Proof.
  unfold drop_approval. destruct (decide _); [done|]. intros [= <-]. simpl. split_and!; try done.
  - case_match; [set_solver|done].
  - intros ->. by rewrite andb_comm.
Qed.

(** Taking an event *)
Lemma stream_snapshot_keeps executions event snap snap' envelope :
  stream_snapshot executions event snap = (snap', envelope) →
  snap_thread_id snap' = snap_thread_id snap ∧ snap_turn_id snap' = snap_turn_id snap
  ∧ (snap_status snap ∈ [RunRunning; RunWaitingApproval; RunCancelling] →
     snap_status snap' ∈ [RunRunning; RunWaitingApproval; RunCancelling])
  ∧ (snap_status snap = RunCancelling → snap_status snap' = RunCancelling)
  ∧ match envelope with
    | Some e => snap_last_seq snap' = (snap_last_seq snap + 1)%N ∧ is_stream e = true
                ∧ re_thread_id e = snap_thread_id snap ∧ re_turn_id e = snap_turn_id snap
                ∧ re_seq e = snap_last_seq snap'
    | None => snap_last_seq snap' = snap_last_seq snap
    end.
Proof.
  unfold stream_snapshot.
  destruct event; try (intros; simplify_eq/=; split_and!; done).
  destruct (decide (snap_status _ = RunCancelling)) as [Hd|Hd]; intros; simplify_eq/=; split_and!; try done.
  set_solver.
Qed.

(** The terminal commit *)
Lemma terminal_snapshot_ok accepted cancel ending usage executions items snap key n (cancelled : Prop) :
  (snap_thread_id snap, snap_turn_id snap) = key → snap_last_seq snap = N.of_nat n →
  (cancelled → cancel = true) → (accepted = false → ending = EndedUnaccepted) →
  Terminal key n cancelled (terminal_snapshot accepted cancel ending usage executions items snap).
Proof.
  intros Hk Hn Hc Ha. unfold terminal_snapshot. simpl.
  set (outcome := arbitrated _ _ _ _).
  assert (match outcome with Ok _ => ¬ cancelled | Err (status, _, _) =>
            is_terminal status = true ∧ (cancelled → status = RunCancelled) end) as Hout.
  { unfold outcome, arbitrated. destruct (accepted && _) eqn:Hcan; [done|].
    destruct accepted; simpl in *.
    - apply orb_false_iff in Hcan as [_ ->]. assert (¬ cancelled) by (intros ?%Hc; done).
      destruct ending as [[res|e]| | |]; simpl; try done.
    - by rewrite Ha. }
  destruct outcome as [res|[[status code] message]]; simpl in *.
  - split; simpl; try done. by rewrite Hn, N.add_1_r, Nat2N.inj_succ.
  - destruct Hout. split; simpl; try done. by rewrite Hn, N.add_1_r, Nat2N.inj_succ.
Qed.

(** ** Every step keeps the numbers *)

Lemma numbered_handed a (cs : list CommittedDualPublication) :
  numbered (ObsHanded a <$> cs) = [] ∧ sent (ObsHanded a <$> cs) = [] ∧ ¬ cancelled_in (ObsHanded a <$> cs).
Proof. induction cs as [|c cs (? & ? & Hc)]; split_and!; try done; [by apply cancelled_in_nil|]. unfold cancelled_in in *. set_solver. Qed.

Lemma Going_task task l : Going l → Going (with_task task l).
Proof. by intros []; split. Qed.

Lemma Numbered_commit a queue c l :
  Numbered a l →
  Numbered a (if dr_live (lo_run l) then with_log [ObsCommitted a c; ObsHanded a c] (on_run (set_queue queue) l)
              else on_run (λ r, set_pending_events (dr_pending r ++ [c]) r)
                     (with_log [ObsCommitted a c] (on_run (set_queue queue) l))).
Proof.
  intros HN. assert (Numbered a (on_run (set_queue queue) l)) by by apply Numbered_run.
  destruct (dr_live _); [|apply Numbered_run; try done]; apply Numbered_log; try done; unfold cancelled_in; set_solver.
Qed.

Lemma Numbered_cancel a l :
  is_terminal (snap_status (dr_snapshot (lo_run l))) = false → snap_status (dr_snapshot (lo_run l)) ≠ RunCancelling →
  Numbered a l →
  Numbered a (with_log [ObsCancelled a]
    (on_run (λ r, set_cancel true (set_run_snapshot (set_status RunCancelling (dr_snapshot r)) r)) l)).
Proof. intros Ht Hc HN. apply Numbered_frame; try done. intros Hst. split_and!; [set_solver|done|done]. Qed.

Lemma Numbered_approval a request_id changed l :
  drop_approval request_id (dr_snapshot (lo_run l)) = Some changed → Numbered a l →
  Numbered a (on_run (λ r, enqueue (MutationChanged changed) (set_run_snapshot changed r)) l).
Proof.
  intros (Hseq & Ht & Hu & Hst & Hcan)%approval_keeps HN. rewrite <-(with_log_nil (on_run _ l)).
  apply Numbered_frame; try done. intros Hin. split_and!; [auto| |auto]. by intros ?%cancelled_in_nil.
Qed.

Lemma Numbered_take a x executions event events snapshot envelope l :
  lo_task l = TaskExecuting x → ex_events x = event :: events → ex_hand x = None →
  stream_snapshot executions event (dr_snapshot (lo_run l)) = (snapshot, envelope) → Numbered a l →
  Numbered a (with_log (ObsNumbered a <$> option_list envelope)
    (with_task (TaskExecuting (set_hand ((λ e, (e, false)) <$> envelope) (set_events_left events x)))
      (on_run (set_run_snapshot snapshot) l))).
Proof.
  intros Ht He Hh (Hth & Htu & Hst & Hcan & Henv)%stream_snapshot_keeps HN. unfold Numbered in *. rewrite Ht in HN.
  rewrite Hh in HN. destruct HN as ([Hs Hseq Hk Hgo Hc] & Ha & Hsent). simpl.
  destruct envelope as [e|]; simpl; rewrite ?app_nil_r; [destruct Henv as (Hls & Hie & Het & Heu & Hes)|].
  - rewrite numbered_app, sent_app. simpl. rewrite app_nil_r. split_and!; [|done|by eexists].
    split; simpl; rewrite ?numbered_app; simpl.
    + apply Streams_snoc; try done; [by rewrite Het, Heu|]. by rewrite Hes, Hls, Hseq, N.add_1_r, Nat2N.inj_succ.
    + rewrite length_app. simpl. rewrite Hls, Hseq. lia.
    + by rewrite Hth, Htu.
    + auto.
    + rewrite cancelled_in_app. intros [Hin|Hin]; [|unfold cancelled_in in Hin; set_solver]. destruct (Hc Hin). auto.
  - split_and!; try done. split; simpl; rewrite ?app_nil_r; [done|by rewrite Henv|by rewrite Hth, Htu|auto|].
    intros Hin. destruct (Hc Hin). auto.
Qed.

Lemma Numbered_finish a x candidate snapshot l :
  lo_task l = TaskExecuting x → ex_hand x = None →
  candidate = terminal_snapshot (ex_accepted x) (dr_cancel (lo_run l)) (ex_ending x) (ex_usage x) (ex_executions x)
                (drop (ex_history_start x) (th_history (ex_session x))) (dr_snapshot (lo_run l)) →
  decided candidate snapshot → Numbered a l →
  Numbered a
    (with_log [ObsNumbered a (terminal_event snapshot)]
      (with_task (TaskDelivering (ex_accepted x) (terminal_event snapshot))
        (on_run (λ r, if ex_accepted x then enqueue (MutationEvent (terminal_event snapshot)) (set_run_snapshot snapshot r)
                        else set_run_snapshot snapshot r) l))).
Proof.
  intros Ht Hh Hcand Hdec HN. unfold Numbered in *. rewrite Ht, Hh in HN.
  destruct HN as ([Hs Hseq Hk Hgo Hc] & Ha & Hsent). simpl.
  assert (dr_key (if ex_accepted x then enqueue (MutationEvent (terminal_event snapshot)) (set_run_snapshot snapshot (lo_run l))
                  else set_run_snapshot snapshot (lo_run l)) = dr_key (lo_run l)) as -> by by destruct (ex_accepted x).
  split.
  - exists (lo_log l), [], candidate, snapshot. split_and!; try done.
    rewrite Hcand. apply terminal_snapshot_ok; try done. intros Hin. by destruct (Hc Hin).
  - exists (numbered (lo_log l)). rewrite numbered_app, sent_app. simpl. by rewrite app_nil_r.
Qed.

Lemma sent_more a (out : bool) event (done before : list RunEvent) :
  done `sublist_of` before →
  done ++ sent (if out then [ObsSent a event] else []) `sublist_of` before ++ [event].
Proof. intros Hs. apply sublist_app; [assumption|]. destruct out; simpl; [reflexivity|apply sublist_nil_l]. Qed.

Lemma Numbered_queue a x event l :
  lo_task l = TaskExecuting x → ex_hand x = Some (event, false) → Numbered a l →
  Numbered a (on_run (enqueue (MutationEvent event)) (with_task (TaskExecuting (set_hand (Some (event, true)) x)) l)).
Proof.
  intros Ht Hh HN. apply Numbered_run; try done. unfold Numbered in *. rewrite Ht, Hh in HN. simpl.
  destruct HN as (? & ? & ?). split_and!; try done. by apply Going_task.
Qed.

Lemma Numbered_send a x event (out : bool) l :
  lo_task l = TaskExecuting x → ex_hand x = Some (event, true) → Numbered a l →
  Numbered a (with_log (if out then [ObsSent a event] else []) (with_task (TaskExecuting (set_hand None x)) l)).
Proof.
  intros Ht Hh HN. unfold Numbered in *. rewrite Ht, Hh in HN. simpl.
  destruct HN as ([] & ? & before & Hn & Hs). rewrite numbered_app, sent_app.
  assert (numbered (if out then [ObsSent a event] else []) = []) as Hno by by destruct out.
  rewrite Hno, app_nil_r. split_and!; try done.
  - split; simpl; rewrite ?numbered_app, ?Hno, ?app_nil_r; try done. rewrite cancelled_in_app.
    intros [|Hin]; [auto|]. destruct out; unfold cancelled_in in Hin; set_solver.
  - rewrite Hn. by apply sent_more.
Qed.

Lemma Numbered_deliver a accepted event (out : bool) outcome l :
  lo_task l = TaskDelivering accepted event → Numbered a l →
  Numbered a (with_log (if out then [ObsSent a event] else [])
    (with_task TaskDone (on_run (set_terminal_delivery (Some outcome)) l))).
Proof.
  intros Ht HN. unfold Numbered in *. rewrite Ht in HN. simpl. destruct HN as (Hc & before & Hn & Hs).
  assert (numbered (if out then [ObsSent a event] else []) = []) as Hno by by destruct out.
  rewrite numbered_app, sent_app, Hno, app_nil_r. split.
  - rewrite Hn. by apply sent_more.
  - right. exists event. by apply Concluded_more.
Qed.

(** The tasks that have numbered nothing yet *)
Lemma Numbered_early a task l :
  match lo_task l with TaskBegin _ _ | TaskJournal _ | TaskAwaiting _ => True | _ => False end →
  match task with TaskBegin _ _ | TaskJournal _ | TaskAwaiting _ | TaskDone => True
  | TaskExecuting x => ex_hand x = None ∧ (ex_accepted x = false → ex_ending x = EndedUnaccepted)
  | TaskDelivering _ _ => False end →
  Numbered a l → Numbered a (with_task task l).
Proof.
  intros Hl Ht HN. unfold Numbered in *. simpl.
  assert (Going l ∧ numbered (lo_log l) = [] ∧ sent (lo_log l) = []) as ([] & Hn & Hs) by by destruct (lo_task l).
  destruct task; try done; try (split_and!; done).
  - destruct Ht as [-> ?]. split_and!; try done. by rewrite Hs, Hn.
  - rewrite Hs, Hn. auto.
Qed.

(** What the registration of a failure leaves in place *)
Lemma Numbered_task_run a task f l : Numbered a (on_run f (with_task task l)) → Numbered a (with_task task (on_run f l)).
Proof. done. Qed.

Lemma local_step_Numbered a l l' : local_step a l l' → Numbered a l → Numbered a l'.
Proof.
  intros Hstep HN. destruct Hstep as [session j l Ht|session f l Ht Hf|session snapshot l Ht|mutation queue l Hq
    |mutation queue c l Hq|queued session l Ht|l Hq Ha|l Ha|l Hst Hc|usage executions l|l|request_id changed l Hd
    |session x l Ht Ha Hh Hacc|x executions event events snapshot envelope l Ht He Hh Hs|x envelope l Ht Hh
    |x envelope out l Ht Hh Hc|x candidate snapshot event l Ht He Hh Hcand Hj Hev|accepted event out outcome l Ht Ho].
  - by apply Numbered_early; [rewrite Ht| |].
  - apply Numbered_task_run, Numbered_run; try (by destruct Hf as [->|[? ->]]).
    apply Numbered_early; [|done|done]. by destruct Ht as [->|[? ->]].
  - apply Numbered_run; try done. by apply Numbered_early; [rewrite Ht| |].
  - by apply Numbered_run.
  - by apply Numbered_commit.
  - apply Numbered_task_run, Numbered_run; try done. by apply Numbered_early; [rewrite Ht| |].
  - destruct (numbered_handed a (merge_sort cursor_le (dr_pending (lo_run l)))) as (? & ? & ?).
    apply Numbered_run; try done. by apply Numbered_log.
  - by apply Numbered_run.
  - by apply Numbered_cancel.
  - rewrite <-(with_log_nil (on_run _ l)). apply Numbered_frame; try done. intros ?. split_and!; [done| |done].
    by intros ?%cancelled_in_nil.
  - by apply Numbered_run.
  - by apply (Numbered_approval _ request_id).
  - apply Numbered_early; [by rewrite Ht|done|done].
  - by eapply Numbered_take.
  - by eapply Numbered_queue.
  - by eapply Numbered_send.
  - subst event. eapply Numbered_finish; try done. destruct (th_journal _); [|by left].
    destruct Hj as [|(f & j' & ? & ?)]; [by right; left|]. right; right. by eexists _, _, _.
  - by apply (Numbered_deliver _ accepted).
Qed.

Lemma local_start_Numbered a l : local_start a l → Numbered a l.
Proof.
  destruct 1. unfold Numbered. simpl.
  destruct (is_some (th_journal session)); (split_and!; [split|done|done]); simpl; try done; try set_solver;
    by intros ?%cancelled_in_nil.
Qed.

(** ** What a run keeps, read off *)

Lemma Terminal_impl key n (P Q : Prop) candidate : (Q → P) → Terminal key n P candidate → Terminal key n Q candidate.
Proof. intros HQ []. split; auto. Qed.

(** A snapshot whose commit failed still agrees with itself. *)
Lemma store_failed_Terminal key n candidate :
  Terminal key n False candidate → Terminal key n False (store_failed_snapshot candidate).
Proof. intros [Hk Hs Hp Hq Hr _]. unfold store_failed_snapshot. split; simpl; try done. by rewrite Hr. Qed.

Lemma Numbered_cases a l :
  Numbered a l →
  sent (lo_log l) `sublist_of` numbered (lo_log l)
  ∧ (Going l ∨ numbered (lo_log l) = [] ∨ ∃ event, Concluded a (dr_key (lo_run l)) (lo_log l) event).
Proof.
  unfold Numbered. destruct (lo_task l) as [| | |x|accepted event|].
  1-3: intros (? & -> & ->); auto.
  - intros (? & _ & Hx). split; [|auto]. destruct (ex_hand x) as [[event queued]|]; [|done].
    destruct Hx as (before & -> & Hs). by apply sublist_inserts_r.
  - intros (? & before & -> & Hs). split; [by apply sublist_inserts_r|]. right; right. by exists event.
  - intros [? [|]]; auto.
Qed.

Lemma Streams_is_stream key events event : Streams key events → event ∈ events → is_stream event = true.
Proof. intros [Hf _] Hin. rewrite Forall_forall in Hf. by apply Hf. Qed.

(** Where the terminal event is *)
Lemma Concluded_terminal a key log event e :
  Concluded a key log event → e ∈ numbered log → is_stream e = false → e = event.
Proof.
  intros (before & after & candidate & snapshot & -> & Hs & Ha & _) Hin He. rewrite numbered_app in Hin.
  simpl in Hin. rewrite Ha in Hin. apply elem_of_app in Hin as [Hin|Hin]; [|set_solver].
  apply (Streams_is_stream key) in Hin; [congruence|done].
Qed.

(** A terminal event that comes after an accepted cancellation says so. *)
Lemma Concluded_after_cancel a key event before after e :
  Concluded a key (before ++ ObsCancelled a :: after) event → e ∈ numbered after → is_stream e = false →
  ∃ candidate snapshot, e = terminal_event snapshot ∧ decided candidate snapshot ∧ snap_status candidate = RunCancelled.
Proof.
  intros Hc He Hs. assert (e = event) as ->.
  { eapply Concluded_terminal; [done| |done]. rewrite numbered_app. simpl. set_solver. }
  destruct Hc as (b & c & candidate & snapshot & Hlog & _ & Hn & -> & [] & Hd).
  exists candidate, snapshot. split_and!; [done..|]. apply tm_cancelled0.
  apply app_eq_inv in Hlog as [(k & -> & Hk)|(k & -> & Hk)].
  - destruct k as [|o k]; [done|]. simplify_eq/=. rewrite numbered_app in Hn. simpl in Hn.
    apply app_eq_nil in Hn as [_ Hn]. rewrite Hn in He. set_solver.
  - destruct k as [|o k]; [done|]. simplify_eq/=. exists a. set_solver.
Qed.
End laws.
