(* ===== verification/RunProjection.v ===== *)
(** * A run among the others

    Every step of the system is a step of one run by itself ([RunSteps.local_step]) and
    leaves the other runs alone, so that what the steps of a run keep holds of every run
    of a reachable server. The last sections say who holds a session. *)

From S2P Require Import Prelude EventJournal Protocol StoreState CoreContext CoreSession ModelStep Coordinator Engine StoreBackend StoreConfig StoreRuntime SessionViews ViewJournal SessionManagement SessionCatalog HistoryArchive ManagementProjection ManagementOps SessionServer Interactions InteractionRecord InteractionServer RunRegistry DaemonRuns RunSteps.

Section projection.
Context `{Externals} `{ToolExternals} `{EngineExternals} `{ManagementExternals} `{ViewExternals} `{SchemaExternals}.
Context `{EventExternals} `{DigestExternals} `{MapOrder} `{RunExternals} `{KeyOrder}.
Context {St : Type} `{!SessionStore St} {J Adapter : Type} `{!Journal J} `{!RunJournal J}.
Context (engine : @AgentEngine J Adapter).

Notation Session := (ThreadSession ToolRegistry Adapter ModelProvider SamplingOptions ContextPolicy J).
Notation Server := (@RunServer St J Adapter).
Notation Local := (@Local J Adapter).
Implicit Types (s : Server) (l : Local) (a b : nat).

(** ** What an operation on one run touches *)

Record Acts a s s' : Prop := {
  ac_next : ds_next s' = ds_next s;
  ac_runs b : b ≠ a → ds_runs s' !! b = ds_runs s !! b;
  ac_tasks b : b ≠ a → ds_tasks s' !! b = ds_tasks s !! b;
  ac_log b : b ≠ a → log_of b s' = log_of b s;
  ac_run : is_Some (ds_runs s' !! a) ↔ is_Some (ds_runs s !! a);
  ac_task : is_Some (ds_tasks s' !! a) ↔ is_Some (ds_tasks s !! a);
  ac_quiet : ds_runs s !! a = None → log_of a s' = log_of a s;
}.

#[global] Instance Acts_preorder a : PreOrder (Acts a).
Proof.
  split.
  - by intros s.
  - intros s1 s2 s3 [N1 R1 T1 L1 r1 t1 q1] [N2 R2 T2 L2 r2 t2 q2]. split.
    + by rewrite N2.
    + intros b Hb. by rewrite R2, R1.
    + intros b Hb. by rewrite T2, T1.
    + intros b Hb. by rewrite L2, L1.
    + by rewrite r2.
    + by rewrite t2.
    + intros Hn. rewrite q2, q1; [done|done|]. apply eq_None_not_Some. rewrite r1. by apply eq_None_not_Some.
Qed.

Lemma Acts_update_run a f s : Acts a s (update_run a f s).
Proof.
  split; try done.
  - intros b Hb. simpl. by rewrite lookup_alter_ne.
  - simpl. rewrite lookup_alter, decide_True by done. apply fmap_is_Some.
Qed.
Lemma Acts_go_on a task s : Acts a s (go_on a task s).
Proof.
  split; try done.
  - intros b Hb. simpl. by rewrite lookup_alter_ne.
  - simpl. rewrite lookup_alter, decide_True by done. apply fmap_is_Some.
Qed.
Lemma log_of_snoc a o s : log_of a (observe_run o s) = log_of a s ++ (if (observed_run o =? a)%nat then [o] else []).
Proof. unfold log_of. simpl. by rewrite List.filter_app. Qed.
Lemma Acts_observe a o s : observed_run o = a → is_Some (ds_runs s !! a) → Acts a s (observe_run o s).
Proof.
  intros Ho Hs. split; try done.
  - intros b Hb. rewrite log_of_snoc. case (Nat.eqb_spec (observed_run o) b); [congruence|by rewrite app_nil_r].
  - intros Hn. destruct Hs. congruence.
Qed.

(** What does not concern the runs *)
Definition Beside s s' : Prop :=
  ds_runs s' = ds_runs s ∧ ds_tasks s' = ds_tasks s ∧ ds_next s' = ds_next s ∧ ds_log s' = ds_log s.
Lemma Acts_beside a s s' : Beside s s' → Acts a s s'.
Proof. intros (Hr & Ht & Hn & Hl). split; unfold log_of; by rewrite ?Hr, ?Ht, ?Hn, ?Hl. Qed.
Lemma local_beside a s s' : Beside s s' → local a s' = local a s.
Proof. intros (Hr & Ht & Hn & Hl). unfold local, log_of. by rewrite Hr, Ht, Hl. Qed.

Lemma Beside_registry g s : Beside s (set_registry g s).
Proof. done. Qed.
Lemma Beside_interactions i s : Beside s (set_interactions i s).
Proof. done. Qed.
Lemma Beside_daemon d s : Beside s (set_daemon d s).
Proof. done. Qed.
Lemma Beside_unlock a session s : Beside s (unlock a session s).
Proof. unfold unlock. by destruct (ds_tasks s !! a) as [[]|]. Qed.

(** ** The run itself *)

Lemma local_update_run a f s : local a (update_run a f s) = on_run f <$> local a s.
Proof. unfold local, log_of. simpl. rewrite lookup_alter, decide_True by done. by destruct (ds_runs s !! a), (ds_tasks s !! a) as [[]|]. Qed.
Lemma local_go_on a task s : local a (go_on a task s) = with_task task <$> local a s.
Proof. unfold local, log_of. simpl. rewrite lookup_alter, decide_True by done. by destruct (ds_runs s !! a), (ds_tasks s !! a) as [[]|]. Qed.
Lemma local_observe a o s : observed_run o = a → local a (observe_run o s) = with_log [o] <$> local a s.
Proof.
  intros Ho. unfold local. rewrite log_of_snoc, Ho, Nat.eqb_refl. simpl.
  by destruct (ds_runs s !! a), (ds_tasks s !! a) as [[]|].
Qed.

Lemma local_Some a s run lock task :
  ds_runs s !! a = Some run → ds_tasks s !! a = Some (lock, task) →
  local a s = Some {| lo_run := run; lo_task := task; lo_log := log_of a s |}.
Proof. unfold local. by intros -> ->. Qed.

(** The run goes on by its own steps, and no other run is touched. *)
Record Moves a s s' : Prop := {
  mv_acts : Acts a s s';
  mv_local l : local a s = Some l → ∃ l', local a s' = Some l' ∧ rtc (local_step a) l l';
}.

#[global] Instance Moves_preorder a : PreOrder (Moves a).
Proof.
  split.
  - intros s. split; [done|]. intros l Hl. by eexists.
  - intros s1 s2 s3 [A1 L1] [A2 L2]. split; [by etrans|]. intros l Hl.
    destruct (L1 l Hl) as (l2 & Hl2 & Hr). destruct (L2 l2 Hl2) as (l3 & Hl3 & Hr'). exists l3. split; [done|by etrans].
Qed.
Lemma Moves_beside a s s' : Beside s s' → Moves a s s'.
Proof. intros Hb. split; [by apply Acts_beside|]. intros l Hl. rewrite (local_beside a s s'); [by eexists|done]. Qed.

Lemma local_registry a g s : local a (set_registry g s) = local a s.
Proof. done. Qed.
Lemma local_interactions a i s : local a (set_interactions i s) = local a s.
Proof. done. Qed.
Lemma local_daemon a d s : local a (set_daemon d s) = local a s.
Proof. done. Qed.
Lemma local_unlock a session s : local a (unlock a session s) = local a s.
Proof. apply local_beside, Beside_unlock. Qed.
Lemma local_committed a c s : local a (observe_run (ObsCommitted a c) s) = with_log [ObsCommitted a c] <$> local a s.
Proof. by apply local_observe. Qed.
Lemma local_handed a c s : local a (observe_run (ObsHanded a c) s) = with_log [ObsHanded a c] <$> local a s.
Proof. by apply local_observe. Qed.
Lemma local_cancelled a s : local a (observe_run (ObsCancelled a) s) = with_log [ObsCancelled a] <$> local a s.
Proof. by apply local_observe. Qed.
Lemma local_numbered a e s : local a (observe_run (ObsNumbered a e) s) = with_log [ObsNumbered a e] <$> local a s.
Proof. by apply local_observe. Qed.
Lemma local_sent a e s : local a (observe_run (ObsSent a e) s) = with_log [ObsSent a e] <$> local a s.
Proof. by apply local_observe. Qed.

(** The record of the run is there throughout. *)
Lemma run_update a f s : is_Some (ds_runs s !! a) → is_Some (ds_runs (update_run a f s) !! a).
Proof. intros. by apply (ac_run a _ _ (Acts_update_run a f s)). Qed.
Lemma run_acts a s s' : Acts a s s' → is_Some (ds_runs s !! a) → is_Some (ds_runs s' !! a).
Proof. intros HA Hs. by apply (ac_run a s s' HA). Qed.

Lemma Acts_hand_over a owner now c s : is_Some (ds_runs s !! a) → Acts a s (hand_over a owner now s c).
Proof. intros Hs. unfold hand_over. etrans; [by apply Acts_beside, Beside_daemon|by apply Acts_observe]. Qed.
Lemma local_hand_over a owner now c s : local a (hand_over a owner now s c) = with_log [ObsHanded a c] <$> local a s.
Proof. unfold hand_over. by rewrite local_handed, local_daemon. Qed.

Lemma with_log_log xs ys l : with_log ys (with_log xs l) = with_log (xs ++ ys) l.
Proof. unfold with_log. simpl. by rewrite app_assoc. Qed.
Lemma with_log_nothing l : with_log [] l = l.
Proof. destruct l. unfold with_log. simpl. by rewrite app_nil_r. Qed.

Lemma hand_over_all a owner now cs s :
  is_Some (ds_runs s !! a) →
  Acts a s (foldl (hand_over a owner now) s cs)
  ∧ local a (foldl (hand_over a owner now) s cs) = with_log (ObsHanded a <$> cs) <$> local a s.
Proof.
  revert s. induction cs as [|c cs IH]; intros s Hs; simpl.
  - split; [done|]. destruct (local a s); simpl; [|done]. by rewrite with_log_nothing.
  - assert (Acts a s (hand_over a owner now s c)) as HA by by apply Acts_hand_over.
    destruct (IH (hand_over a owner now s c)) as [HA' Hl]; [by eapply run_acts|]. split; [by etrans|].
    rewrite Hl, local_hand_over. destruct (local a s); simpl; [|done]. by rewrite with_log_log.
Qed.

(** An operation moves the run when it does so where the run has a task. *)
Lemma Moves_at a s s' :
  Acts a s s' →
  (∀ run lock task, ds_runs s !! a = Some run → ds_tasks s !! a = Some (lock, task) →
     ∃ l', local a s' = Some l' ∧ rtc (local_step a) {| lo_run := run; lo_task := task; lo_log := log_of a s |} l') →
  Moves a s s'.
Proof.
  intros HA Hl. split; [done|]. intros l. unfold local at 1.
  destruct (ds_runs s !! a) as [run|] eqn:Hr; [|done]. destruct (ds_tasks s !! a) as [[lock task]|] eqn:Ht; [|done].
  intros [= <-]. by apply (Hl run lock task).
Qed.
(** .. by one step *)
Lemma Moves_step a s s' f :
  Acts a s s' → local a s' = f <$> local a s →
  (∀ run lock task, ds_runs s !! a = Some run → ds_tasks s !! a = Some (lock, task) →
     local_step a {| lo_run := run; lo_task := task; lo_log := log_of a s |}
                  (f {| lo_run := run; lo_task := task; lo_log := log_of a s |})) →
  Moves a s s'.
Proof.
  intros HA Hl Hf. apply Moves_at; [done|]. intros run lock task Hr Ht. rewrite Hl, (local_Some a s run lock task) by done.
  eexists. split; [done|]. by apply rtc_once, (Hf run lock task).
Qed.

(** ** The operations *)

(** Peels the changes of a run off a state, and reads it back. *)
Ltac acts :=
  lazymatch goal with
  | |- Acts ?a ?s ?s => reflexivity
  | |- Acts ?a _ (update_run ?a ?f ?t) => transitivity t; [acts|apply Acts_update_run]
  | |- Acts ?a _ (go_on ?a ?task ?t) => transitivity t; [acts|apply Acts_go_on]
  | |- Acts ?a _ (set_registry ?g ?t) => transitivity t; [acts|by apply Acts_beside]
  | |- Acts ?a _ (set_interactions ?g ?t) => transitivity t; [acts|by apply Acts_beside]
  | |- Acts ?a _ (set_daemon ?g ?t) => transitivity t; [acts|by apply Acts_beside]
  | |- Acts ?a _ (unlock ?a ?g ?t) => transitivity t; [acts|apply Acts_beside, Beside_unlock]
  | |- Acts ?a ?s (observe_run ?o ?t) =>
      transitivity t; [acts|apply Acts_observe; [done|apply (run_acts a s t); [acts|by eauto]]]
  | |- Acts ?a ?s (hand_over ?a ?owner ?now ?t ?c) =>
      transitivity t; [acts|apply Acts_hand_over, (run_acts a s t); [acts|by eauto]]
  | |- _ => idtac
  end.
Ltac locals :=
  rewrite ?local_numbered, ?local_sent, ?local_committed, ?local_cancelled;
  repeat (rewrite ?local_registry, ?local_interactions, ?local_daemon, ?local_unlock, ?local_hand_over, ?local_go_on,
    ?local_update_run, ?local_numbered, ?local_sent, ?local_committed, ?local_cancelled).

(** What becomes of the record of a run that could not begin *)
Lemma begin_failed_local a session error s :
  ∃ f, Acts a s (begin_failed a session error s)
    ∧ (is_Some (ds_runs s !! a) →
       local a (begin_failed a session error s) = (λ l, with_task TaskDone (on_run f l)) <$> local a s)
    ∧ (f = id ∨ ∃ error, f = λ r, set_terminal_delivery (Some (Ok ())) (set_acceptance (Some false)
                                     (set_preparation (Some (Err error)) r))).
Proof.
  unfold begin_failed. destruct (ds_runs s !! a) as [run|] eqn:Hr; [|exists id; split_and!; [done|by intros []|by left]].
  destruct (th_journal session) as [j|].
  - eexists. split_and!; [acts|intros _; locals; by destruct (local a s)|right; by eexists].
  - exists id. split_and!; [acts|intros _; locals; by destruct (local a s) as [[]|]|by left].
Qed.

Lemma Moves_begin_failed a session session' error s task lock :
  ds_tasks s !! a = Some (lock, task) → task = TaskJournal session' ∨ (∃ queued, task = TaskBegin queued session') →
  Moves a s (begin_failed a session error s).
Proof.
  intros Ht Htask. destruct (begin_failed_local a session error s) as (f & HA & Hl & Hf).
  apply Moves_at; [done|]. intros run lock' task' Hr Ht'. simplify_eq.
  rewrite Hl, (local_Some a s run lock task) by done. eexists. split; [done|].
  by apply rtc_once, (local_failed a session').
Qed.

Lemma Moves_begin_journal a s : Moves a s (begin_journal a s).
Proof.
  unfold begin_journal. destruct (ds_tasks s !! a) as [[lock [| session | | | |]]|] eqn:Ht; try done.
  destruct (ds_runs s !! a) as [run|] eqn:Hr; [|done]. destruct (th_journal session) as [j|] eqn:Hj; [|done].
  destruct (journal_begin _ _ _ j) as [[|error] j'].
  - apply (Moves_step a _ _ (with_task (TaskBegin false (CoreSession.set_journal (Some j') session)))); [acts| |].
    + by locals.
    + intros run' lock' task' Hr' Ht'. simplify_eq. by apply local_journal.
  - eapply Moves_begin_failed; [done|by left].
Qed.

Lemma Moves_enqueue_begin a s : Moves a s (enqueue_begin a s).
Proof.
  unfold enqueue_begin. destruct (ds_tasks s !! a) as [[lock [[] session| | | | |]]|] eqn:Ht; try done.
  destruct (ds_runs s !! a) as [run|] eqn:Hr; [|done].
  eapply (Moves_step a _ _ (λ l, on_run _ (with_task _ l))); [acts| |].
  - locals. by destruct (local a s).
  - intros run' lock' task' Hr' Ht'. simplify_eq. by apply local_begin.
Qed.

(** The change at the head of the queue is taken off it: refused, or committed. *)
Lemma commit_session_event_local a unix_ms now s mutation queue run :
  ds_runs s !! a = Some run → dr_queue run = mutation :: queue →
  let '(answer, s') := commit_session_event a unix_ms now s in
  Acts a s s' ∧
  match answer with
  | Err _ => local a s' = on_run (set_queue queue) <$> local a s
  | Ok _ => ∃ c, local a s' = (λ l,
        if dr_live run then with_log [ObsCommitted a c; ObsHanded a c] (on_run (set_queue queue) l)
        else on_run (λ r, set_pending_events (dr_pending r ++ [c]) r)
               (with_log [ObsCommitted a c] (on_run (set_queue queue) l))) <$> local a s
  end.
Proof.
  intros Hr Hq. unfold commit_session_event. rewrite Hr, Hq.
  destruct (publish_run _ _ _ _ _) as [[c|error] d].
  - split; [destruct (dr_live run); acts|]. exists c. destruct (dr_live run); locals; destruct (local a s); simpl; rewrite ?with_log_log; done.
  - split; [acts|by locals].
Qed.

Lemma Moves_commit_next a unix_ms now s : Moves a s (commit_next a unix_ms now s).
Proof.
  unfold commit_next. destruct (ds_runs s !! a) as [run|] eqn:Hr; simpl; cycle 1.
  { unfold commit_session_event. by rewrite Hr. }
  destruct (dr_queue run) as [|mutation queue] eqn:Hq; simpl.
  { unfold commit_session_event. rewrite Hr, Hq. done. }
  pose proof (commit_session_event_local a unix_ms now s mutation queue run Hr Hq) as Hc.
  destruct (commit_session_event a unix_ms now s) as [answer s1]. destruct Hc as [HA Hl].
  assert (Moves a s s1) as Hm.
  { destruct answer as [[]|error]; [destruct Hl as [c Hl]|]; (eapply Moves_step; [done|exact Hl|]);
      intros run' lock' task' Hr' Ht'; simplify_eq.
    - exact (local_commit a mutation queue c {| lo_run := run; lo_task := task'; lo_log := log_of a s |} Hq).
    - by apply (local_refused a mutation queue). }
  etrans; [exact Hm|]. destruct mutation as [snapshot b| |]; try done.
  destruct (ds_tasks s1 !! a) as [[lock [queued session| | | | |]]|] eqn:Ht1; try done.
  destruct answer as [[]|error].
  - eapply (Moves_step a _ _ (λ l, with_task _ (on_run _ l))); [acts| |].
    + locals. by destruct (local a s1).
    + intros run' lock' task' Hr' Ht'. simplify_eq. by apply (local_ready a queued).
  - eapply Moves_begin_failed; [done|right; by eexists].
Qed.

Lemma Moves_accept a now s s' : deliver_acceptance a now s = Some s' → Moves a s s'.
Proof.
  unfold deliver_acceptance. intros (run & Hr & Hd)%bind_Some. destruct (dr_queue run) eqn:Hq; [|done].
  destruct (dr_acceptance run) eqn:Ha; simplify_eq; [done|].
  destruct (hand_over_all a (dr_owner run) now (merge_sort cursor_le (dr_pending run)) s) as [HA Hl]; [by eexists|].
  eapply (Moves_step a _ _ (λ l, on_run _ (with_log (ObsHanded a <$> merge_sort cursor_le (dr_pending (lo_run l))) l))).
  - etrans; [exact HA|apply Acts_update_run].
  - locals. rewrite Hl. unfold local. rewrite Hr. by destruct (ds_tasks s !! a) as [[]|].
  - intros run' lock' task' Hr' Ht'. simplify_eq. by apply local_accept.
Qed.

Lemma Moves_abandon a s : Moves a s (drop_acceptance a s).
Proof.
  apply Moves_at; [unfold drop_acceptance; acts|]. intros run lock task Hr Ht. unfold drop_acceptance. locals.
  rewrite (local_Some a s run lock task) by done. eexists. split; [done|].
  destruct (dr_acceptance run) eqn:Ha.
  - unfold on_run. simpl. by rewrite Ha.
  - apply rtc_once. pose proof (local_abandon (J := J) (Adapter := Adapter) a
      {| lo_run := run; lo_task := task; lo_log := log_of a s |} Ha) as Hs.
    unfold on_run in *. simpl in *. by rewrite Ha.
Qed.

Lemma Moves_execute env cut why a s : why = EndedCancelled ∨ why = EndedDeadline → Moves a s (begin_execution engine env cut why a s).
Proof.
  intros Hwhy. unfold begin_execution. destruct (ds_tasks s !! a) as [[lock [| |session| | |]]|] eqn:Ht; try done.
  destruct (ds_runs s !! a) as [run|] eqn:Hr; [|done]. destruct (dr_acceptance run) as [[]|] eqn:Ha; [| |done];
    (eapply (Moves_step a _ _ (with_task _)); [acts|by locals|]);
    intros run' lock' task' Hr' Ht'; simplify_eq; eapply local_execute; try done;
    unfold execute_turn; repeat case_match; done.
Qed.

Lemma Moves_take executions a s : Moves a s (take_event executions a s).
Proof.
  unfold take_event. destruct (ds_tasks s !! a) as [[lock [| | |x| |]]|] eqn:Ht; try done.
  destruct (ds_runs s !! a) as [run|] eqn:Hr; [|done].
  destruct (ex_events x) as [|event events] eqn:He; [done|]. destruct (ex_hand x) eqn:Hh; [done|].
  destruct (stream_snapshot executions event (dr_snapshot run)) as [snapshot envelope] eqn:Hs.
  eapply (Moves_step a _ _ (λ l, with_log (ObsNumbered a <$> option_list envelope)
    (with_task (TaskExecuting (set_hand ((λ e, (e, false)) <$> envelope) (set_events_left events x)))
      (on_run (set_run_snapshot snapshot) l)))).
  - destruct envelope; acts.
  - destruct envelope; locals; destruct (local a s); simpl; rewrite ?with_log_nothing; done.
  - intros run' lock' task' Hr' Ht'. simplify_eq. by eapply local_take.
Qed.

Lemma Moves_queue a s : Moves a s (queue_event a s).
Proof.
  unfold queue_event. destruct (ds_tasks s !! a) as [[lock [| | |x| |]]|] eqn:Ht; try done.
  destruct (ex_hand x) as [[envelope []]|] eqn:Hh; [done| |done].
  eapply (Moves_step a _ _ (λ l, on_run _ (with_task _ l))); [acts|locals; by destruct (local a s)|].
  intros run' lock' task' Hr' Ht'. simplify_eq. by apply local_queue.
Qed.

Lemma Moves_send out a s : Moves a s (send_event out a s).
Proof.
  unfold send_event. destruct (ds_tasks s !! a) as [[lock [| | |x| |]]|] eqn:Ht; try done.
  destruct (ds_runs s !! a) as [run|] eqn:Hr; [|done]. destruct (ex_hand x) as [[envelope []]|] eqn:Hh; try done.
  destruct (is_committed envelope run) eqn:Hc; [|done].
  eapply (Moves_step a _ _ (λ l, with_log (if out && negb (dr_cancel run) then [ObsSent a envelope] else [])
    (with_task (TaskExecuting (set_hand None x)) l))).
  - destruct (out && _); acts.
  - destruct (out && _); locals; destruct (local a s); simpl; rewrite ?with_log_nothing; done.
  - intros run' lock' task' Hr' Ht'. simplify_eq. by apply local_send.
Qed.

(** The terminal commit, whatever the journal says *)
Definition publish_terminal a (x : @Execution J Adapter) snapshot session s : Server :=
  let event := {| re_thread_id := snap_thread_id snapshot; re_turn_id := snap_turn_id snapshot;
                  re_seq := snap_last_seq snapshot; re_payload := RunFinished snapshot |} in
  let s := unlock a session (update_run a (set_run_snapshot snapshot) s) in
  let s := if ex_accepted x then update_run a (enqueue (MutationEvent event)) s else s in
  observe_run (ObsNumbered a event) (go_on a (TaskDelivering (ex_accepted x) event) s).

Lemma Moves_publish_terminal a x candidate snapshot session s s' :
  Beside s s' → lo_task <$> local a s = Some (TaskExecuting x) → ex_events x = [] → ex_hand x = None →
  (∀ run, ds_runs s !! a = Some run →
     candidate = terminal_snapshot (ex_accepted x) (dr_cancel run) (ex_ending x) (ex_usage x) (ex_executions x)
                   (drop (ex_history_start x) (th_history (ex_session x))) (dr_snapshot run)) →
  match th_journal (ex_session x) with
  | None => snapshot = candidate
  | Some j => snapshot = store_failed_snapshot candidate
              ∨ ∃ f j', journal_finalize (snap_turn_id candidate) candidate j = (Ok f, j') ∧ snapshot = fin_snapshot f
  end →
  Moves a s (publish_terminal a x snapshot session s').
Proof.
  intros Hb Hx He Hh Hcand Hj. unfold publish_terminal.
  assert (is_Some (ds_runs s' !! a)) as Hrun.
  { destruct Hb as (-> & _). unfold local in Hx. by destruct (ds_runs s !! a). }
  set (event := {| re_payload := RunFinished snapshot |}).
  eapply (Moves_step a _ _ (λ l, with_log [ObsNumbered a event] (with_task (TaskDelivering (ex_accepted x) event) (on_run (λ r,
    if ex_accepted x then enqueue (MutationEvent event) (set_run_snapshot snapshot r) else set_run_snapshot snapshot r) l)))).
  - transitivity s'; [by apply Acts_beside|]. destruct (ex_accepted x); acts.
  - destruct (ex_accepted x); locals; rewrite (local_beside a s s') by done; by destruct (local a s).
  - intros run lock task Hr Ht. rewrite (local_Some a s run lock task) in Hx by done.
    injection Hx as ->. by apply (local_finish a x candidate snapshot event); auto.
Qed.

Lemma Moves_finish now a s : Moves a s (finish_run now a s).
Proof.
  unfold finish_run. destruct (ds_tasks s !! a) as [[lock [| | |x| |]]|] eqn:Ht; try done.
  destruct (ds_runs s !! a) as [run|] eqn:Hr; [|done].
  destruct (ex_events x) eqn:He; [|done]. destruct (ex_hand x) eqn:Hh; [done|].
  destruct (dr_key run) as [thread_id turn_id]. cbv zeta.
  match goal with |- context [terminal_snapshot ?b ?c ?e ?u ?xs ?its ?sn] =>
    set (candidate := terminal_snapshot b c e u xs its sn) end.
  match goal with |- Moves _ _ (let (_, _) := ?m in _) =>
    destruct m as [session snapshot] eqn:Hm end.
  apply (Moves_publish_terminal a x candidate snapshot session); try done.
  - by destruct (ex_ending x).
  - by rewrite (local_Some a s run lock (TaskExecuting x)).
  - intros run' Hr'. by simplify_eq.
  - clearbody candidate. simpl in Hm. destruct (th_journal (ex_session x)) as [j|]; [|by simplify_eq].
    destruct (journal_finalize (snap_turn_id candidate) candidate j) as [[f|e] j'] eqn:Hf; simplify_eq; [|by left].
    right. by eexists _, _.
Qed.

Lemma Moves_deliver out now a s : Moves a s (deliver_terminal out now a s).
Proof.
  unfold deliver_terminal. destruct (ds_tasks s !! a) as [[lock [| | | |accepted event|]]|] eqn:Ht; try done.
  destruct (ds_runs s !! a) as [run|] eqn:Hr; [|done].
  assert (is_Some (ds_runs s !! a)) as Hs by by eexists.
  destruct accepted; [destruct (is_committed event run) eqn:Hc; [|done]|].
  - apply (Moves_step a _ _ (λ l, with_log (if out then [ObsSent a event] else [])
      (with_task TaskDone (on_run (set_terminal_delivery
         (Some (if out then Ok () else Err "Run terminal event could not be delivered"))) l)))).
    + destruct out; acts.
    + destruct out; locals; destruct (local a s); simpl; rewrite ?with_log_nothing; done.
    + intros run' lock' task' Hr' Ht'. simplify_eq. by eapply local_deliver.
  - apply (Moves_step a _ _ (λ l, with_log [] (with_task TaskDone
      (on_run (set_terminal_delivery (Some (Err "Run acceptance was not delivered"))) l)))); [acts| |].
    + locals. destruct (local a s); simpl; rewrite ?with_log_nothing; done.
    + intros run' lock' task' Hr' Ht'. simplify_eq. by apply (local_deliver a false event false).
Qed.

Lemma Moves_cancel now a s : Moves a s (request_cancel a now s).2.
Proof.
  unfold request_cancel. destruct (ds_runs s !! a) as [run|] eqn:Hr; [|done].
  assert (is_Some (ds_runs s !! a)) as Hs by by eexists.
  destruct (_ || _) eqn:Ho; [done|]. apply orb_false_iff in Ho as [Ht Hc%bool_decide_eq_false]. simpl.
  eapply (Moves_step a _ _ (λ l, with_log _ (on_run _ l))); [acts|by locals; destruct (local a s)|].
  intros run' lock' task' Hr' Ht'. simplify_eq. by apply local_cancel.
Qed.

Lemma Moves_update a f s :
  (∀ l, local_step a l (on_run f l)) → Moves a s (update_run a f s).
Proof. intros Hf. apply (Moves_step a _ _ (on_run f)); [acts|by locals|]. intros. apply Hf. Qed.

Lemma Moves_ref key owner cancel progress now s :
  ∃ a, Moves a s (run_ref key owner cancel progress now s).2.
Proof.
  unfold run_ref. destruct (find_run key owner s) as [a|error]; [exists a|by exists 0].
  etrans; [eapply (Moves_update a); intros l; exact (local_progress a progress.1 progress.2 l)|].
  match goal with |- context [request_cancel a now ?s1] => set (s1' := s1) end.
  pose proof (Moves_cancel now a s1') as Hm. destruct cancel; simpl.
  - destruct (request_cancel a now s1') as [changed s2]. simpl in Hm. etrans; [exact Hm|].
    destruct (ds_runs s2 !! a) as [run|] eqn:Hr; [|done]. destruct changed; [|done]. simpl.
    apply (Moves_step a _ _ (on_run (λ r, enqueue (MutationChanged (dr_snapshot r)) r))); [acts| |].
    + locals. unfold local. rewrite Hr. by destruct (ds_tasks s2 !! a) as [[]|].
    + intros run' lock task Hr' Ht. exact (local_changed a _).
  - by case_match.
Qed.

Lemma Moves_approval request_id a s : Moves a s (approval_answered request_id a s).
Proof.
  unfold approval_answered. destruct (ds_runs s !! a) as [run|] eqn:Hr; [|done].
  destruct (drop_approval request_id (dr_snapshot run)) as [changed|] eqn:Hd; [|done].
  eapply (Moves_step a _ _ (on_run _)); [acts|by locals|].
  intros run' lock task Hr' Ht. simplify_eq. by apply (local_approval a request_id).
Qed.

Lemma Beside_janitor policy instant now s : Beside s (janitor_tick policy instant now s).
Proof.
  change (Beside s (retire_runs now (candidates (ds_registry s) policy instant) s)).
  generalize (candidates (ds_registry s) policy instant). intros cs. revert s.
  induction cs as [|c cs IH]; intros s; [done|]. simpl.
  assert (Beside s (retire_candidate now c s).2) as Hc.
  { unfold retire_candidate. destruct (cd_key c) as [thread_id turn_id].
    destruct (interactions_retire_run _ _ _ _ _) as [[] i]; [|done].
    destruct (ManagementOps.retire_run _ _ _ _ _ _) as [[] d]; [|done]. by destruct (registry_retire _ _). }
  destruct Hc as (E1 & E2 & E3 & E4), (IH (retire_candidate now c s).2) as (G1 & G2 & G3 & G4).
  split_and!; by etrans.
Qed.

(** ** The runs of a reachable server *)

(** Addresses that are not in use *)
Definition Unused s : Prop := ∀ a, ds_next s ≤ a → ds_runs s !! a = None ∧ ds_tasks s !! a = None ∧ log_of a s = [].

Lemma Moves_Unused a s s' : Moves a s s' → Unused s → Unused s'.
Proof.
  intros [HA _] HF b Hb. destruct HA as [Hn Hr Ht Hl Hr' Ht' Hq]. rewrite Hn in Hb.
  destruct (HF b Hb) as (E1 & E2 & E3). destruct (decide (b = a)) as [->|Hne].
  - split_and!.
    + apply eq_None_not_Some. rewrite Hr'. by apply eq_None_not_Some.
    + apply eq_None_not_Some. rewrite Ht'. by apply eq_None_not_Some.
    + by rewrite Hq.
  - by rewrite Hr, Ht, Hl.
Qed.

(** A step moves one run, or admits one. *)
Inductive Advances s s' : Prop :=
  | advances_moves a : Moves a s s' → Advances s s'
  | advances_admits l :
      local_start (ds_next s) l → local (ds_next s) s' = (λ l, with_log (log_of (ds_next s) s) l) <$> Some l →
      ds_next s' = S (ds_next s) →
      (∀ a, a ≠ ds_next s → ds_runs s' !! a = ds_runs s !! a ∧ ds_tasks s' !! a = ds_tasks s !! a) →
      (∀ a, log_of a s' = log_of a s) → Advances s s'.

Lemma admit_advances owner params now unix_ms s : Advances s (admit_turn owner params now unix_ms s).2.
Proof.
  unfold admit_turn. destruct (deadline ← _; _) as [[deadline [a|]]|error]; [by apply (advances_moves _ _ 0)| |by apply (advances_moves _ _ 0)].
  destruct (reserve_session params s) as [[[lock session] ordinal]|error]; [|by apply (advances_moves _ _ 0)].
  cbv zeta. destruct (register_run _ _ _ _ _) as [interactions|error]; [|by apply (advances_moves _ _ 0)].
  eapply (advances_admits _ _ _ (start_admitted (ds_next s) owner params deadline ordinal unix_ms session)); try done.
  - unfold local. simpl. by rewrite !lookup_insert, !decide_True by done.
  - intros a Ha. simpl. by rewrite !lookup_insert_ne.
Qed.

Lemma runs_step_advances s s' : runs_step engine s s' → Advances s s'.
Proof.
  destruct 1.
  - apply admit_advances.
  - eapply advances_moves, Moves_begin_journal.
  - eapply advances_moves, Moves_enqueue_begin.
  - eapply advances_moves, Moves_commit_next.
  - by eapply advances_moves, Moves_accept.
  - eapply advances_moves, Moves_abandon.
  - by eapply advances_moves, Moves_execute.
  - eapply advances_moves, Moves_take.
  - eapply advances_moves, Moves_queue.
  - eapply advances_moves, Moves_send.
  - eapply advances_moves, Moves_finish.
  - eapply advances_moves, Moves_deliver.
  - destruct (Moves_ref key owner cancel progress now s) as [a Ha]. by apply (advances_moves _ _ a).
  - eapply advances_moves, Moves_cancel.
  - eapply advances_moves, Moves_approval.
  - apply (advances_moves _ _ 0), Moves_beside, Beside_janitor.
  - by apply (advances_moves _ _ 0), Moves_beside.
  - by apply (advances_moves _ _ 0), Moves_beside.
Qed.

(** Every run has come from its admission by its own steps. *)
Definition Traced s : Prop :=
  Unused s ∧ ∀ a l, local a s = Some l → ∃ l0, local_start a l0 ∧ rtc (local_step a) l0 l.

Lemma Advances_Traced s s' : Advances s s' → Traced s → Traced s'.
Proof.
  intros [a Hm|l Hl Hl' Hn Hother Hlog] [HF HT].
  - split; [by apply (Moves_Unused a s)|]. intros b l Hb. destruct (decide (b = a)) as [->|Hne].
    + destruct (local a s) as [l1|] eqn:Hl1.
      * destruct (HT a l1 Hl1) as (l0 & Hs & Hr). destruct (mv_local _ _ _ Hm l1 Hl1) as (l2 & Hl2 & Hr').
        simplify_eq. exists l0. split; [done|by etrans].
      * exfalso. destruct Hm as [[_ _ _ _ Hr Ht _] _]. unfold local in Hl1, Hb.
        destruct (ds_runs s' !! a) eqn:E1; [|done]. destruct (ds_tasks s' !! a) eqn:E2; [|done].
        destruct Hr as [[run Hr] _]; [by eexists|]. destruct Ht as [[[lock task] Ht] _]; [by eexists|]. by rewrite Hr, Ht in Hl1.
    + apply HT. destruct Hm as [[_ Hr Ht Hlg _ _ _] _]. unfold local in *. by rewrite <-Hr, <-Ht, <-Hlg.
  - split.
    + intros b Hb. rewrite Hn in Hb. destruct (Hother b) as [-> ->]; [lia|]. rewrite Hlog. apply HF. lia.
    + intros b l' Hb. destruct (decide (b = ds_next s)) as [->|Hne].
      * rewrite Hl' in Hb. destruct (HF (ds_next s)) as (_ & _ & Hnil); [done|]. simpl in Hb. rewrite Hnil in Hb.
        simplify_eq. exists l. split; [done|]. by rewrite with_log_nothing.
      * apply HT. destruct (Hother b Hne) as [Hr Ht]. unfold local in *. by rewrite <-Hr, <-Ht, <-Hlog.
Qed.

Lemma reachable_Traced s : reachable engine s → Traced s.
Proof.
  intros (s0 & (_ & Hr & Ht & Hl & _) & Hsteps).
  assert (Traced s0) as H0s.
  { split; [intros a _; unfold log_of; by rewrite Hr, Ht, Hl, !lookup_empty|].
    intros a l. unfold local. by rewrite Hr, lookup_empty. }
  clear Hr Ht Hl. induction Hsteps as [|s1 s2 s3 Hstep _ IH]; [done|].
  apply IH. by eapply Advances_Traced, H0s; apply runs_step_advances.
Qed.

(** What the steps of a run keep holds of every run. *)
Lemma reachable_invariant (P : nat → Local → Prop) s a l :
  (∀ a l, local_start a l → P a l) → (∀ a l l', local_step a l l' → P a l → P a l') →
  reachable engine s → local a s = Some l → P a l.
Proof.
  intros Hstart Hstep [_ HT]%reachable_Traced Hl. destruct (HT a l Hl) as (l0 & Hl0 & Hr).
  apply Hstart in Hl0. clear Hl. induction Hr as [|l1 l2 l3 H12 _ IH]; [done|]. apply IH. by eapply Hstep.
Qed.
End projection.

(** ** Who holds a session

    A run takes the lock of its session when it is admitted and gives it back at its
    commit, so the turns of a session run one after the other; and the registry has the
    records of its runs. *)

Section locks.
Context `{Externals} `{ToolExternals} `{EngineExternals} `{ManagementExternals} `{ViewExternals} `{SchemaExternals}.
Context `{EventExternals} `{DigestExternals} `{MapOrder} `{RunExternals} `{KeyOrder}.
Context {St : Type} `{!SessionStore St} {J Adapter : Type} `{!Journal J} `{!RunJournal J}.
Context (engine : @AgentEngine J Adapter).

Notation Session := (ThreadSession ToolRegistry Adapter ModelProvider SamplingOptions ContextPolicy J).
Notation Server := (@RunServer St J Adapter).
Notation RunTask := (@RunTask J Adapter).
Implicit Types (s : Server) (a b lock : nat) (task : RunTask).

(** The task has the session to itself. *)
Definition holds task : bool :=
  match task with
  | TaskBegin _ _ | TaskJournal _ | TaskAwaiting _ | TaskExecuting _ => true
  | TaskDelivering _ _ | TaskDone => false
  end.

Definition held_by a lock s : Prop := ∃ task, ds_tasks s !! a = Some (lock, task) ∧ holds task = true.

(** A held lock is taken, by one run. *)
Definition Exclusive s : Prop :=
  ∀ a lock, held_by a lock s → ds_locks s !! lock = Some None ∧ ∀ b, held_by b lock s → b = a.

(** The run keeps its lock, or gives it back. *)
Definition Keeps a s s' : Prop :=
  (∀ b lock, held_by b lock s' → held_by b lock s)
  ∧ (ds_locks s' = ds_locks s
     ∨ ∃ lock session, ds_locks s' = <[lock := Some session]> (ds_locks s)
         ∧ held_by a lock s ∧ ¬ held_by a lock s').

Lemma Keeps_Exclusive a s s' : Keeps a s s' → Exclusive s → Exclusive s'.
Proof.
  intros [Hh Hl] HE b lock Hb. destruct (HE b lock (Hh b lock Hb)) as [Hlock Huniq]. split.
  - destruct Hl as [->|(lock' & session & -> & Ha & Hna)]; [done|].
    destruct (decide (lock' = lock)) as [->|Hne]; [|by rewrite lookup_insert_ne].
    exfalso. assert (a = b) as -> by by apply Huniq. done.
  - intros b' Hb'. apply Huniq. by apply Hh.
Qed.

Lemma Keeps_same a s s' : ds_tasks s' = ds_tasks s → ds_locks s' = ds_locks s → Keeps a s s'.
Proof. intros Ht Hl. split; [|by left]. unfold held_by. by rewrite Ht. Qed.

Lemma Keeps_task a lock task task' s s' :
  ds_tasks s !! a = Some (lock, task) → (holds task' = true → holds task = true) →
  ds_tasks s' = ds_tasks (go_on a task' s) → ds_locks s' = ds_locks s → Keeps a s s'.
Proof.
  intros Ht Hh Hs' Hl. split; [|by left]. intros b lock' (t & Hb & Ht'). rewrite Hs' in Hb. simpl in Hb.
  destruct (decide (b = a)) as [->|Hne].
  - rewrite lookup_alter, decide_True, Ht in Hb by done. simplify_eq/=. exists task. auto.
  - rewrite lookup_alter_ne in Hb by done. by exists t.
Qed.

Lemma Keeps_unlock a lock task task' session s s' :
  ds_tasks s !! a = Some (lock, task) → holds task = true → holds task' = false →
  ds_tasks s' = ds_tasks (go_on a task' s) → ds_locks s' = <[lock := Some session]> (ds_locks s) → Keeps a s s'.
Proof.
  intros Ht Hh Hn Hs' Hl. split.
  - apply (Keeps_task a lock task task' s (set_tasks (ds_tasks s') s)); [done|by rewrite Hn|done|done].
  - right. exists lock, session. split_and!; [done|by exists task|]. intros (t & Hb & Hht). rewrite Hs' in Hb. simpl in Hb.
    rewrite lookup_alter, decide_True, Ht in Hb by done. simplify_eq/=. congruence.
Qed.

(** What leaves the tasks and the locks alone *)
Definition Same s s' : Prop := ds_tasks s' = ds_tasks s ∧ ds_locks s' = ds_locks s.
#[local] Instance Same_preorder : PreOrder Same.
Proof. split; [done|]. intros s1 s2 s3 [H1' H2'] [H3' H4']. split; by etrans. Qed.

Lemma Keeps_after a s s1 s' : Same s s1 → Keeps a s1 s' → Keeps a s s'.
Proof. intros [Ht Hl] [Hh HL]. unfold Keeps, held_by in *. by rewrite Ht, Hl in *. Qed.
Lemma Same_Keeps a s s' : Same s s' → Keeps a s s'.
Proof. intros []. by apply Keeps_same. Qed.

Lemma Same_hand_over a owner now cs s : Same s (foldl (hand_over a owner now) s cs).
Proof. revert s. induction cs as [|c cs IH]; intros s; simpl; [done|]. by etrans; [|apply IH]. Qed.

Lemma Same_commit a unix_ms now s : Same s (commit_session_event a unix_ms now s).2.
Proof.
  unfold commit_session_event. destruct (ds_runs s !! a); [|done]. destruct (dr_queue r); [done|].
  destruct (publish_run _ _ _ _ _) as [[c|error] d]; simpl; [|done]. by destruct (dr_live _).
Qed.

Lemma Keeps_begin_failed a lock task session error s :
  ds_tasks s !! a = Some (lock, task) → holds task = true → Keeps a s (begin_failed a session error s).
Proof.
  intros Ht Hh. unfold begin_failed. destruct (ds_runs s !! a) as [run|]; [|by apply Same_Keeps].
  apply (Keeps_unlock a lock task TaskDone session); [done..| |];
    destruct (th_journal session); unfold unlock; simpl; by rewrite Ht.
Qed.

Lemma Keeps_journal a s : Keeps a s (begin_journal a s).
Proof.
  unfold begin_journal. destruct (ds_tasks s !! a) as [[lock [| session | | | |]]|] eqn:Ht; try by apply Same_Keeps.
  destruct (ds_runs s !! a) as [run|]; [|by apply Same_Keeps]. destruct (th_journal session); [|by apply Same_Keeps].
  destruct (journal_begin _ _ _ _) as [[|error] j'].
  - by eapply (Keeps_task a lock).
  - by eapply Keeps_begin_failed.
Qed.

Lemma Keeps_commit a unix_ms now s : Keeps a s (commit_next a unix_ms now s).
Proof.
  unfold commit_next. pose proof (Same_commit a unix_ms now s) as Hs.
  destruct (commit_session_event a unix_ms now s) as [answer s1]. simpl in Hs. apply (Keeps_after _ _ s1); [done|].
  destruct (_ ≫= _) as [[]|]; try by apply Same_Keeps.
  destruct (ds_tasks s1 !! a) as [[lock [queued session| | | | |]]|] eqn:Ht; try by apply Same_Keeps. destruct answer.
  - by eapply (Keeps_task a lock).
  - by eapply Keeps_begin_failed.
Qed.

Lemma Keeps_finish now a s : Keeps a s (finish_run now a s).
Proof.
  unfold finish_run. destruct (ds_tasks s !! a) as [[lock [| | |x| |]]|] eqn:Ht; try by apply Same_Keeps.
  destruct (ds_runs s !! a) as [run|]; [|by apply Same_Keeps].
  destruct (ex_events x); [|by apply Same_Keeps]. destruct (ex_hand x); [by apply Same_Keeps|].
  destruct (dr_key run) as [thread_id turn_id]. cbv zeta.
  match goal with |- Keeps _ _ (let (_, _) := ?m in _) => destruct m as [session snapshot] end.
  eapply (Keeps_unlock a lock (TaskExecuting x) (TaskDelivering (ex_accepted x) _) session); [done..| |];
    unfold unlock; destruct (ex_ending x), (ex_accepted x); simpl; by rewrite ?Ht.
Qed.

(** Steps that change the task alone *)
Ltac keeps_task := eapply Keeps_task; [eassumption| |reflexivity|reflexivity]; done.

Lemma Keeps_enqueue_begin a s : Keeps a s (enqueue_begin a s).
Proof.
  unfold enqueue_begin. destruct (ds_tasks s !! a) as [[lock [[] session| | | | |]]|] eqn:Ht; try by apply Same_Keeps.
  destruct (ds_runs s !! a); [|by apply Same_Keeps]. keeps_task.
Qed.

Lemma Keeps_execute env cut why a s : Keeps a s (begin_execution engine env cut why a s).
Proof.
  unfold begin_execution. destruct (ds_tasks s !! a) as [[lock [| |session| | |]]|] eqn:Ht; try by apply Same_Keeps.
  destruct (ds_runs s !! a) as [run|]; [|by apply Same_Keeps].
  destruct (dr_acceptance run) as [[]|]; [keeps_task..|by apply Same_Keeps].
Qed.

Lemma Keeps_events executions out a s :
  Keeps a s (take_event executions a s) ∧ Keeps a s (queue_event a s) ∧ Keeps a s (send_event out a s).
Proof.
  unfold take_event, queue_event, send_event.
  destruct (ds_tasks s !! a) as [[lock [| | |x| |]]|] eqn:Ht; try (split_and!; by apply Same_Keeps).
  destruct (ds_runs s !! a) as [run|]; destruct (ex_hand x) as [[envelope []]|]; destruct (ex_events x);
    try destruct (stream_snapshot _ _ _) as [? []]; try destruct (is_committed _ _); try destruct (out && _);
    split_and!; try (by apply Same_Keeps); keeps_task.
Qed.

Lemma Keeps_deliver out now a s : Keeps a s (deliver_terminal out now a s).
Proof.
  unfold deliver_terminal. destruct (ds_tasks s !! a) as [[lock [| | | |accepted event|]]|] eqn:Ht; try by apply Same_Keeps.
  destruct (ds_runs s !! a) as [run|]; [|by apply Same_Keeps].
  destruct accepted; [destruct (is_committed event run); [destruct out|by apply Same_Keeps]|]; keeps_task.
Qed.

(** Steps that leave the tasks and the locks alone *)
Lemma Same_accept a now s s' : deliver_acceptance a now s = Some s' → Same s s'.
Proof.
  unfold deliver_acceptance. intros (run & _ & Hd)%bind_Some. destruct (dr_queue run); [|done].
  destruct (dr_acceptance run); simplify_eq; [done|]. etrans; [apply Same_hand_over|done].
Qed.
Lemma Same_cancel a now s : Same s (request_cancel a now s).2.
Proof. unfold request_cancel. destruct (ds_runs s !! a); [|done]. by destruct (_ || _). Qed.
Lemma Same_ref key owner cancel progress now s : Same s (run_ref key owner cancel progress now s).2.
Proof.
  unfold run_ref. destruct (find_run key owner s) as [a|]; [|done]. cbv zeta.
  match goal with |- context [request_cancel a now ?s1] => pose proof (Same_cancel a now s1) as Hs; set (s1' := s1) in * end.
  destruct cancel; [destruct (request_cancel a now s1') as [changed s2]; simpl in Hs|]; case_match; try done.
  destruct changed; done.
Qed.

Lemma admit_Exclusive owner params now unix_ms s : Exclusive s → Exclusive (admit_turn owner params now unix_ms s).2.
Proof.
  intros HE. unfold admit_turn. destruct (deadline ← _; _) as [[deadline [a|]]|error]; try done.
  destruct (reserve_session params s) as [[[lock session] ordinal]|error] eqn:Hres; try done. cbv zeta.
  destruct (register_run _ _ _ _ _) as [interactions|error]; try done.
  assert (ds_locks s !! lock = Some (Some session)) as Hfree.
  { unfold reserve_session in Hres. destruct (ds_sessions s !! _) as [lock'|]; [|done]. simpl in Hres.
    destruct (ds_locks s !! lock') as [[session'|]|] eqn:Hl; try done. simpl in Hres.
    destruct (check_run_admission _ _); [|done]. simpl in Hres. destruct (checked_add _ _); [|done]. by simplify_eq/=. }
  intros b lock' (task & Hb & Hh). simpl in *.
  destruct (decide (b = ds_next s)) as [->|Hne].
  - rewrite lookup_insert, decide_True in Hb by done. simplify_eq. rewrite lookup_insert, decide_True by done. split; [done|].
    intros b' (task' & Hb' & Hh'). simpl in Hb'. destruct (decide (b' = ds_next s)) as [|Hne']; [done|].
    rewrite lookup_insert_ne in Hb' by done. destruct (HE b' lock') as [Hl _]; [by exists task'|]. congruence.
  - rewrite lookup_insert_ne in Hb by done. destruct (HE b lock') as [Hl Hu]; [by exists task|].
    assert (lock ≠ lock') as Hll by congruence. rewrite lookup_insert_ne by done. split; [done|].
    intros b' (task' & Hb' & Hh'). simpl in Hb'. destruct (decide (b' = ds_next s)) as [->|Hne'].
    + rewrite lookup_insert, decide_True in Hb' by done. by simplify_eq.
    + rewrite lookup_insert_ne in Hb' by done. apply Hu. by exists task'.
Qed.

Lemma runs_step_Exclusive s s' : runs_step engine s s' → Exclusive s → Exclusive s'.
Proof.
  destruct 1.
  - apply admit_Exclusive.
  - eapply Keeps_Exclusive, Keeps_journal.
  - eapply Keeps_Exclusive, Keeps_enqueue_begin.
  - eapply Keeps_Exclusive, Keeps_commit.
  - eapply (Keeps_Exclusive a), Same_Keeps, Same_accept. eassumption.
  - by apply (Keeps_Exclusive a), Same_Keeps.
  - eapply Keeps_Exclusive, Keeps_execute.
  - eapply Keeps_Exclusive, (Keeps_events executions true a s).
  - eapply Keeps_Exclusive, (Keeps_events [] true a s).
  - eapply Keeps_Exclusive, (Keeps_events [] _ a s).
  - eapply Keeps_Exclusive, Keeps_finish.
  - eapply Keeps_Exclusive, Keeps_deliver.
  - apply (Keeps_Exclusive 0), Same_Keeps, Same_ref.
  - apply (Keeps_Exclusive 0), Same_Keeps, Same_cancel.
  - apply (Keeps_Exclusive 0), Same_Keeps. unfold approval_answered. destruct (ds_runs s !! a); [|done].
    by destruct (drop_approval _ _).
  - apply (Keeps_Exclusive 0), Same_Keeps. change (Same s (retire_runs now (candidates (ds_registry s) policy instant) s)).
    generalize (candidates (ds_registry s) policy instant). intros cs. revert s. induction cs as [|c cs IH]; intros s; [done|]. simpl. etrans; [|apply IH].
    unfold retire_candidate. destruct (cd_key c). destruct (interactions_retire_run _ _ _ _ _) as [[] i]; [|done].
    destruct (ManagementOps.retire_run _ _ _ _ _ _) as [[] d]; [|done]. by destruct (registry_retire _ _).
  - by apply (Keeps_Exclusive 0), Same_Keeps.
  - intros HE a lock Ha. destruct (HE a lock Ha) as [Hl Hu]. split; [auto|]. intros b Hb. by apply Hu.
Qed.

Lemma reachable_Exclusive s : reachable engine s → Exclusive s.
Proof.
  intros (s0 & (_ & _ & Ht & _ & _) & Hsteps).
  assert (Exclusive s0) as H0s by (intros a lock (task & Ha & _); by rewrite Ht, lookup_empty in Ha).
  clear Ht. induction Hsteps as [|s1 s2 s3 Hstep _ IH]; [done|]. apply IH. by apply (runs_step_Exclusive s1).
Qed.

(** ** Admission *)

Lemma known_run_None owner params s :
  known_run owner params s = Ok None →
  guard_open (ds_lifecycle s) (turn_thread_id params) owner = Ok ()
  ∧ is_expired_run (ds_registry s) (turn_thread_id params, turn_turn_id params) owner = false
  ∧ rg_live (ds_registry s) !! (turn_thread_id params, turn_turn_id params) = None.
Proof.
  unfold known_run. simpl. destruct (guard_open _ _ _) as [[]|]; [|done]. simpl.
  destruct (is_expired_run _ _ _); [done|]. simpl. destruct (rg_live _ !! _); [|done].
  unfold reject_if. by destruct (negb _).
Qed.

Lemma admit_new owner params now unix_ms s a s' :
  admit_turn owner params now unix_ms s = (Ok (StartNew a), s') →
  known_run owner params s = Ok None ∧ a = ds_next s ∧ ds_lifecycle s' = ds_lifecycle s
  ∧ ∃ deadline ordinal session lock,
      reserve_session params s = Ok (lock, session, ordinal)
      ∧ ds_runs s' = <[a := new_run owner params deadline ordinal unix_ms session]> (ds_runs s)
      ∧ ds_registry s' = registry_insert_run (turn_thread_id params, turn_turn_id params)
                           {| arc_ptr := a; arc_owner := owner |} (ds_registry s).
Proof.
  unfold admit_turn. destruct (run_deadline params now) as [deadline|]; [|done]. simpl.
  destruct (known_run owner params s) as [[b|]|]; [done| |done]. simpl.
  destruct (reserve_session params s) as [[[lock session] ordinal]|] eqn:Hr; [|done].
  destruct (register_run _ _ _ _ _); [|done]. intros [= <- <-]. split_and!; try done.
  by exists deadline, ordinal, session, lock.
Qed.

(** A retired run *)
Lemma retired_run now c s s' :
  retire_candidate now c s = (true, s') →
  is_expired_run (ds_registry s') (cd_key c) (arc_owner (cd_run c)) = true ∧ ds_lifecycle s' = ds_lifecycle s.
Proof.
  unfold retire_candidate. destruct (cd_key c) as [thread_id turn_id] eqn:Hk.
  destruct (interactions_retire_run _ _ _ _ _) as [[] i]; [|done]. simpl.
  destruct (ManagementOps.retire_run _ _ _ _ _ _) as [[] d]; [|done]. simpl.
  unfold registry_retire. rewrite Hk. destruct (is_live_run _ _ _); intros [= <-]. split; [|done].
  unfold is_expired_run. simpl. rewrite lookup_insert, decide_True by done. simpl. prove_bool.
Qed.
End locks.
