(* ===== verification/RunIdentity.v ===== *)
(** * The identities of runs

    What the steps of the daemon do to the registry of runs, key by key, and what
    follows for an identity from its admission on: it belongs to the run that was
    admitted, or is known as expired, until it is given up together with its session. *)

From S2P Require Import Prelude EventJournal Protocol StoreState CoreContext CoreSession ModelStep Coordinator Engine StoreBackend StoreConfig StoreRuntime SessionViews ViewJournal SessionManagement SessionCatalog HistoryArchive ManagementProjection ManagementOps SessionServer Interactions InteractionRecord InteractionServer RunRegistry DaemonRuns RunSteps RunProjection.

Section identity.
Context `{Externals} `{ToolExternals} `{EngineExternals} `{ManagementExternals} `{ViewExternals} `{SchemaExternals}.
Context `{EventExternals} `{DigestExternals} `{MapOrder} `{RunExternals} `{KeyOrder}.
Context {St : Type} `{!SessionStore St} {J Adapter : Type} `{!Journal J} `{!RunJournal J}.
Context (engine : @AgentEngine J Adapter).

Notation Server := (@RunServer St J Adapter).
Notation RunTask := (@RunTask J Adapter).
Notation live s key := (rg_live (ds_registry s) !! key).
Notation expired s key := (rg_expired (ds_registry s) !! key).
Notation Local := (@Local J Adapter).
Implicit Types (s : Server) (a : nat) (key : RunKey) (task : RunTask).

(** ** The parameters of a run *)

(** The owner and the parameters of a run are those of its admission. *)
Definition identity_of (l : Local) : string * StartTurnParams := (dr_owner (lo_run l), dr_params (lo_run l)).

Lemma local_step_identity a l l' : local_step a l l' → identity_of l' = identity_of l.
Proof.
  destruct 1; try done.
  - by match goal with Hf : _ = id ∨ _ |- _ => destruct Hf as [->|[error ->]] end.
  - by destruct (dr_live _).
  - by destruct (ex_accepted x).
Qed.

Lemma advances_identity s s' a l :
  Advances s s' → Unused s → local a s = Some l →
  ∃ l', local a s' = Some l' ∧ identity_of l' = identity_of l.
Proof.
  intros [b Hm|l0 _ _ _ Hother Hlog] Hu Hl.
  - destruct (decide (a = b)) as [->|Hne].
    + destruct (mv_local _ _ _ Hm l Hl) as (l' & Hl' & Hr). exists l'. split; [done|].
      clear Hl Hl'. induction Hr as [|l1 l2 l3 H12 _ IH]; [done|]. by rewrite IH, (local_step_identity _ _ _ H12).
    + exists l. split; [|done]. destruct (mv_acts _ _ _ Hm) as [_ Hr Ht Hlg _ _ _]. unfold local in *.
      by rewrite Hr, Ht, Hlg.
  - exists l. split; [|done]. destruct (decide (a = ds_next s)) as [->|Hne].
    + destruct (Hu (ds_next s)) as (Hr & _); [done|]. unfold local in Hl. by rewrite Hr in Hl.
    + destruct (Hother a Hne) as [Hr Ht]. unfold local in *. by rewrite Hr, Ht, Hlog.
Qed.

Lemma reachable_identity s s' a l :
  reachable engine s → rtc (runs_step engine) s s' → local a s = Some l →
  ∃ l', local a s' = Some l' ∧ identity_of l' = identity_of l.
Proof.
  intros Hs Hr. revert l Hs. induction Hr as [|s1 s2 s3 H12 _ IH]; intros l Hs Hl; [by exists l|].
  pose proof (runs_step_advances _ _ _ H12) as Hadv.
  destruct (advances_identity _ _ _ _ Hadv (proj1 (reachable_Traced _ _ Hs)) Hl) as (l2 & Hl2 & E2).
  destruct (IH l2) as (l3 & Hl3 & E3); [|done|].
  - destruct Hs as (s0 & Hs0 & Hrtc). exists s0. split; [done|]. by eapply rtc_r.
  - exists l3. split; [done|by rewrite E3].
Qed.

(** ** The registry, key by key *)

(** The run at [a] had not begun, and was given up. *)
Definition not_begun task : bool := match task with TaskBegin _ _ | TaskJournal _ => true | _ => false end.
Definition begin_gave_up key s s' : Prop :=
  ∃ a lock task run, ds_tasks s !! a = Some (lock, task) ∧ not_begun task = true
    ∧ ds_runs s !! a = Some run ∧ dr_key run = key ∧ ds_tasks s' !! a = Some (lock, TaskDone).

Inductive Rereg key s s' : Prop :=
  | rereg_same : live s' key = live s key → expired s' key = expired s key → Rereg key s s'
  | rereg_admitted arc :
      live s key = None → expired s key ≠ Some (arc_owner arc) →
      live s' key = Some arc → expired s' key = expired s key → Rereg key s s'
  | rereg_retired arc :
      live s key = Some arc → live s' key = None → expired s' key = Some (arc_owner arc) → Rereg key s s'
  | rereg_gave_up :
      begin_gave_up key s s' → live s' key = None → expired s' key = expired s key → Rereg key s s'
  | rereg_removed owner :
      s' = set_registry (remove_session key.1 owner (ds_registry s)) s → Rereg key s s'.

Lemma same_registry key s s' : ds_registry s' = ds_registry s → Rereg key s s'.
Proof. intros Hg. by apply rereg_same; rewrite Hg. Qed.

Lemma rereg_admit key owner params now unix_ms s : Rereg key s (admit_turn owner params now unix_ms s).2.
Proof.
  destruct (admit_turn owner params now unix_ms s) as [[[a|a]|error] s'] eqn:Ha; simpl.
  - destruct (admit_new _ _ _ _ _ _ _ Ha) as (Hk & _ & _ & deadline & ordinal & session & lock & _ & _ & Hg).
    apply known_run_None in Hk as (_ & Hex & Hlive). set (key' := (turn_thread_id params, turn_turn_id params)) in *.
    destruct (decide (key = key')) as [->|Hne].
    + apply (rereg_admitted _ _ _ {| arc_ptr := a; arc_owner := owner |}); rewrite ?Hg; simpl; [done| |by rewrite lookup_insert_eq|done].
      unfold is_expired_run in Hex. intros He. rewrite He in Hex. simpl in Hex.
      apply bool_decide_eq_false in Hex. done.
    + apply rereg_same; rewrite Hg; simpl; [by rewrite lookup_insert_ne|done].
  - apply same_registry. revert Ha. unfold admit_turn. repeat case_match; intros; by simplify_eq.
  - apply same_registry. revert Ha. unfold admit_turn. repeat case_match; intros; by simplify_eq.
Qed.

Lemma rereg_begin_failed key a lock task session error run run1 s s1 :
  ds_registry s1 = ds_registry s → ds_tasks s1 = ds_tasks s → dr_key run1 = dr_key run →
  ds_tasks s !! a = Some (lock, task) → not_begun task = true → ds_runs s !! a = Some run → ds_runs s1 !! a = Some run1 →
  Rereg key s (begin_failed a session error s1).
Proof.
  intros Hg1 Ht1 Hk Ht Hn Hr Hr1. unfold begin_failed. rewrite Hr1.
  match goal with |- Rereg _ _ ?s2 => set (s' := s2) end.
  assert (ds_registry s' = registry_remove_run (dr_key run1) (ds_registry s1)) as Hg
    by (by subst s'; destruct (th_journal session)).
  assert (ds_tasks s' !! a = Some (lock, TaskDone)) as Hd.
  { subst s'. destruct (th_journal session); unfold unlock; simpl; rewrite Ht1, Ht; simpl; by rewrite lookup_alter_eq, Ht1, Ht. }
  clearbody s'. rewrite Hk, Hg1 in Hg. destruct (decide (key = dr_key run)) as [->|Hne].
  - apply rereg_gave_up; rewrite ?Hg; simpl; [|apply lookup_delete_eq|done]. by exists a, lock, task, run.
  - apply rereg_same; rewrite Hg; simpl; [by apply lookup_delete_ne|done].
Qed.

Lemma rereg_journal key a s : Rereg key s (begin_journal a s).
Proof.
  unfold begin_journal. destruct (ds_tasks s !! a) as [[lock [| session | | | |]]|] eqn:Ht; try by apply same_registry.
  destruct (ds_runs s !! a) as [run|] eqn:Hr; [|by apply same_registry]. destruct (th_journal session); [|by apply same_registry].
  destruct (journal_begin _ _ _ _) as [[|error] j'].
  - by apply same_registry.
  - by eapply rereg_begin_failed.
Qed.

(** A commit takes the head off the queue of its run. *)
Lemma commit_frame a unix_ms now s :
  let s1 := (commit_session_event a unix_ms now s).2 in
  ds_registry s1 = ds_registry s ∧ ds_tasks s1 = ds_tasks s
  ∧ (dr_key <$> ds_runs s1 !! a) = (dr_key <$> ds_runs s !! a).
Proof.
  unfold commit_session_event. destruct (ds_runs s !! a) as [run|] eqn:Hr; simpl; [|by rewrite Hr].
  destruct (dr_queue run) as [|m queue]; simpl; [by rewrite Hr|].
  destruct (publish_run _ _ _ _ _) as [[c|error] d]; simpl; [destruct (dr_live run); simpl|];
    by rewrite ?lookup_alter_eq, ?Hr.
Qed.

Lemma rereg_commit key a unix_ms now s : Rereg key s (commit_next a unix_ms now s).
Proof.
  unfold commit_next. pose proof (commit_frame a unix_ms now s) as Hs.
  destruct (ds_runs s !! a) as [run|] eqn:Hr; [|by unfold commit_session_event; rewrite Hr; apply same_registry].
  destruct (commit_session_event a unix_ms now s) as [answer s1]. simpl in Hs. destruct Hs as (Hg & Ht & Hk).
  destruct (_ ≫= _) as [[]|]; try by apply same_registry.
  destruct (ds_tasks s1 !! a) as [[lock [queued session| | | | |]]|] eqn:Ht1; try by apply same_registry.
  destruct answer as [|error]; [by apply same_registry|].
  destruct (ds_runs s1 !! a) as [run1|] eqn:Hr1; [|done]. apply Some_inj in Hk.
  rewrite Ht in Ht1. by eapply (rereg_begin_failed key a lock _ session _ run run1).
Qed.

(** The steps that leave the registry alone *)
Lemma hand_over_registry a owner now cs s : ds_registry (foldl (hand_over a owner now) s cs) = ds_registry s.
Proof. revert s. induction cs as [|c cs IH]; intros s; simpl; [done|]. by rewrite IH. Qed.
Lemma accept_registry a now s s' : deliver_acceptance a now s = Some s' → ds_registry s' = ds_registry s.
Proof.
  unfold deliver_acceptance. intros (run & _ & Hd)%bind_Some. destruct (dr_queue run); [|done].
  destruct (dr_acceptance run); simplify_eq; [done|]. apply hand_over_registry.
Qed.
Lemma cancel_registry a now s : ds_registry (request_cancel a now s).2 = ds_registry s.
Proof. unfold request_cancel. destruct (ds_runs s !! a); [|done]. by destruct (_ || _). Qed.
Lemma ref_registry key owner cancel progress now s : ds_registry (run_ref key owner cancel progress now s).2 = ds_registry s.
Proof.
  unfold run_ref. destruct (find_run key owner s) as [a|]; [|done]. cbv zeta.
  match goal with |- context [request_cancel a now ?s1] => pose proof (cancel_registry a now s1) as Hs; set (s1' := s1) in * end.
  destruct cancel; [destruct (request_cancel a now s1') as [changed s2]; simpl in Hs|]; case_match; try done.
  destruct changed; done.
Qed.
Lemma events_registry executions out a s :
  ds_registry (take_event executions a s) = ds_registry s ∧ ds_registry (queue_event a s) = ds_registry s
  ∧ ds_registry (send_event out a s) = ds_registry s.
Proof.
  unfold take_event, queue_event, send_event.
  destruct (ds_tasks s !! a) as [[lock [| | |x| |]]|]; try done.
  destruct (ds_runs s !! a) as [run|]; destruct (ex_hand x) as [[envelope []]|]; destruct (ex_events x);
    try destruct (stream_snapshot _ _ _) as [? []]; try destruct (is_committed _ _); try destruct (out && _); done.
Qed.
Lemma finish_registry now a s : ds_registry (finish_run now a s) = ds_registry s.
Proof.
  unfold finish_run. destruct (ds_tasks s !! a) as [[lock [| | |x| |]]|] eqn:Ht; try done.
  destruct (ds_runs s !! a) as [run|]; [|done].
  destruct (ex_events x); [|done]. destruct (ex_hand x); [done|].
  destruct (dr_key run) as [thread_id turn_id]. cbv zeta.
  match goal with |- ds_registry (let (_, _) := ?m in _) = _ => destruct m as [session snapshot] end.
  unfold unlock. destruct (ex_ending x), (ex_accepted x); simpl; by rewrite ?Ht.
Qed.
Lemma deliver_registry sent now a s :
  rg_live (ds_registry (deliver_terminal sent now a s)) = rg_live (ds_registry s)
  ∧ rg_expired (ds_registry (deliver_terminal sent now a s)) = rg_expired (ds_registry s).
Proof.
  unfold deliver_terminal. destruct (ds_tasks s !! a) as [[lock [| | | |accepted event|]]|]; try done.
  destruct (ds_runs s !! a) as [run|]; [|done].
  destruct accepted; [destruct (is_committed event run); [destruct sent|]|]; try done.
  simpl. unfold mark_delivered. by destruct (_ && _).
Qed.

(** A candidate is retired, or nothing is. *)
Lemma retire_registry now c s :
  ds_registry (retire_candidate now c s).2 = ds_registry s
  ∨ ds_registry (retire_candidate now c s).2 = (registry_retire (ds_registry s) c).2.
Proof.
  unfold retire_candidate. destruct (cd_key c).
  destruct (interactions_retire_run _ _ _ _ _) as [[] i]; [|by left].
  destruct (ManagementOps.retire_run _ _ _ _ _ _) as [[] d]; [|by left]. simpl.
  right. by destruct (registry_retire _ _).
Qed.

(** What a round of the janitor does to a key of the registry it has started from *)
Definition retired_from (g0 g : RunRegistry) : Prop :=
  ∀ key, (rg_live g !! key = rg_live g0 !! key ∧ rg_expired g !! key = rg_expired g0 !! key)
    ∨ ∃ arc, rg_live g0 !! key = Some arc ∧ rg_live g !! key = None ∧ rg_expired g !! key = Some (arc_owner arc).

Lemma retired_from_step g0 g c :
  rg_live g0 !! cd_key c = Some (cd_run c) → retired_from g0 g → retired_from g0 (registry_retire g c).2.
Proof.
  intros Hc Hg key. unfold registry_retire, is_live_run.
  destruct (rg_live g !! cd_key c) as [current|] eqn:Hl; simpl; [|apply Hg].
  destruct (_ =? _); simpl; [|apply Hg]. destruct (decide (key = cd_key c)) as [->|Hne].
  - right. exists (cd_run c). by rewrite lookup_delete_eq, lookup_insert_eq.
  - rewrite lookup_delete_ne, lookup_insert_ne by done. apply Hg.
Qed.

Lemma retire_runs_registry now g0 cs s :
  (∀ c, c ∈ cs → rg_live g0 !! cd_key c = Some (cd_run c)) → retired_from g0 (ds_registry s) →
  retired_from g0 (ds_registry (retire_runs now cs s)).
Proof.
  revert s. induction cs as [|c cs IH]; intros s Hc Hg; simpl; [done|]. apply IH; [intros; apply Hc; by right|].
  destruct (retire_registry now c s) as [->| ->]; [done|]. apply retired_from_step; [apply Hc; by left|done].
Qed.

Lemma rereg_janitor key policy instant now s : Rereg key s (janitor_tick policy instant now s).
Proof.
  destruct (retire_runs_registry now (ds_registry s) (candidates (ds_registry s) policy instant) s) with key
    as [[Hl He]|(arc & Hl & Hl' & He)].
  - intros c [? _]%elem_of_retirement. done.
  - intros k. by left.
  - by apply rereg_same.
  - by eapply rereg_retired.
Qed.

Lemma runs_step_rereg key s s' : runs_step engine s s' → Rereg key s s'.
Proof.
  destruct 1.
  - apply rereg_admit.
  - apply rereg_journal.
  - apply same_registry. unfold enqueue_begin.
    destruct (ds_tasks s !! a) as [[lock [[] session| | | | |]]|]; try done. by destruct (ds_runs s !! a).
  - apply rereg_commit.
  - by eapply same_registry, accept_registry.
  - by apply same_registry.
  - apply same_registry. unfold begin_execution.
    destruct (ds_tasks s !! a) as [[lock [| |session| | |]]|]; try done.
    destruct (ds_runs s !! a) as [run|]; [|done]. by destruct (dr_acceptance run) as [[]|].
  - apply same_registry, (events_registry executions true a s).
  - apply same_registry, (events_registry [] true a s).
  - apply same_registry, (events_registry [] _ a s).
  - apply same_registry, finish_registry.
  - destruct (deliver_registry sent now a s) as [Hl He]. apply rereg_same; by rewrite ?Hl, ?He.
  - apply same_registry, ref_registry.
  - apply same_registry, cancel_registry.
  - apply same_registry. unfold approval_answered. destruct (ds_runs s !! a); [|done]. by destruct (drop_approval _ _).
  - apply rereg_janitor.
  - destruct (decide (key.1 = thread)) as [<-|Hne]; [by eapply rereg_removed|].
    apply rereg_same; simpl; apply option_eq; intros x; rewrite map_lookup_filter_Some; naive_solver.
  - by apply same_registry.
Qed.

(** A run that is live is not among the expired ones of its owner. *)
Definition Unexpired s : Prop := ∀ key arc, live s key = Some arc → expired s key ≠ Some (arc_owner arc).

Lemma reachable_Unexpired s : reachable engine s → Unexpired s.
Proof.
  intros (s0 & (Hg & _) & Hsteps).
  assert (Unexpired s0) as H0s by (intros key arc Hl; by rewrite Hg in Hl).
  clear Hg. induction Hsteps as [|s1 s2 s3 Hstep _ IH]; [done|]. apply IH. intros key arc Hl.
  destruct (runs_step_rereg key s1 s2 Hstep) as [E1 E2|arc' _ Hne E1 E2|arc' _ E1 _|_ E1 _|owner ->].
  - rewrite E2. apply H0s. by rewrite <-E1.
  - rewrite E2. rewrite E1 in Hl. by simplify_eq.
  - congruence.
  - congruence.
  - simpl in Hl. apply map_lookup_filter_Some in Hl as [Hl _]. simpl. intros [He _]%map_lookup_filter_Some. by apply (H0s key arc).
Qed.

(** ** The life of an identity *)

(** What gives an identity up: its owner's session is removed, the run could not begin,
    or a run of another owner with the same name expires. *)
Inductive Forgets key (owner : string) s s' : Prop :=
  | forgets_session : s' = set_registry (remove_session key.1 owner (ds_registry s)) s → Forgets key owner s s'
  | forgets_failed : begin_gave_up key s s' → Forgets key owner s s'
  | forgets_other arc :
      live s key = Some arc → arc_owner arc ≠ owner → expired s' key = Some (arc_owner arc) → Forgets key owner s s'.

Definition forgotten_between key owner s s' : Prop :=
  ∃ s1 s2, rtc (runs_step engine) s s1 ∧ runs_step engine s1 s2 ∧ rtc (runs_step engine) s2 s' ∧ Forgets key owner s1 s2.

Definition taken key owner a s : Prop :=
  live s key = Some {| arc_ptr := a; arc_owner := owner |} ∨ expired s key = Some owner.

Lemma taken_step key owner a s s' :
  runs_step engine s s' → taken key owner a s → taken key owner a s' ∨ Forgets key owner s s'.
Proof.
  unfold taken. intros Hstep Hk. destruct (runs_step_rereg key s s' Hstep) as [E1 E2|arc Hn _ E1 E2|arc E0 E1 E2|Hgave E1 E2|o Hrem].
  - left. by rewrite E1, E2.
  - left. right. destruct Hk; congruence.
  - destruct (decide (arc_owner arc = owner)) as [<-|Hne]; [left; by right|right]. by eapply forgets_other.
  - right. by apply forgets_failed.
  - destruct (decide (o = owner)) as [->|Hne]; [right; by apply forgets_session|left]. subst s'. simpl.
    destruct Hk as [Hk|Hk]; [left|right]; apply map_lookup_filter_Some; by split; [|right; simpl; congruence].
Qed.

Lemma taken_steps key owner a s s' :
  rtc (runs_step engine) s s' → taken key owner a s → taken key owner a s' ∨ forgotten_between key owner s s'.
Proof.
  intros Hr Ht. revert s' Hr. apply rtc_ind_r; [by left|]. intros s1 s2 Hr Hstep [Hk|(s3 & s4 & ? & ? & ? & ?)].
  - destruct (taken_step _ _ _ _ _ Hstep Hk) as [?|Hf]; [by left|right]. by exists s1, s2.
  - right. exists s3, s4. split_and!; [done|done|by eapply rtc_r|done].
Qed.

(** The admission of a run takes its identity. *)
Lemma admitted_taken s owner params now unix_ms a s' :
  admit_turn owner params now unix_ms s = (Ok (StartNew a), s') →
  taken (turn_thread_id params, turn_turn_id params) owner a s'
  ∧ ∃ l, local a s' = Some l ∧ identity_of l = (owner, params).
Proof.
  intros Hadmit. pose proof (admit_new _ _ _ _ _ _ _ Hadmit) as (_ & Ha & _ & deadline & ordinal & session & lock & _ & Hruns & Hg). split.
  - left. rewrite Hg. simpl. by rewrite lookup_insert_eq.
  - assert (is_Some (ds_tasks s' !! a)) as [[lock' task] Ht].
    { revert Hadmit. unfold admit_turn. destruct (deadline' ← _; _) as [[? [?|]]|?]; [done| |done].
      destruct (reserve_session params s) as [[[? ?] ?]|]; [|done]. cbv zeta.
      destruct (register_run _ _ _ _ _); [|done]. intros [= <- <-]. simpl. by rewrite lookup_insert_eq. }
    eexists. unfold local. rewrite Hruns, Ht, lookup_insert_eq. done.
Qed.

(** The answers while the run is live *)
Lemma live_run_answers s key owner params a l :
  live s key = Some {| arc_ptr := a; arc_owner := owner |} → expired s key ≠ Some owner →
  local a s = Some l → identity_of l = (owner, params) →
  find_run key owner s = Ok a
  ∧ (∀ params' now unix_ms deadline,
       (turn_thread_id params', turn_turn_id params') = key → run_deadline params' now = Ok deadline →
       guard_open (ds_lifecycle s) key.1 owner = Ok () →
       admit_turn owner params' now unix_ms s =
         (if bool_decide (params = params') then Ok (StartJoined a) else Err (invalid_params "RunConflict"), s))
  ∧ ∀ owner' params' now unix_ms outcome s',
      (turn_thread_id params', turn_turn_id params') = key →
      admit_turn owner' params' now unix_ms s = (Ok outcome, s') →
      owner' = owner ∧ params' = params ∧ outcome = StartJoined a ∧ s' = s.
Proof.
  intros Hlive Hnexp Hl Hid.
  assert (is_expired_run (ds_registry s) key owner = false) as Hexp.
  { unfold is_expired_run. destruct (expired s key) as [saved|]; [|done]. simpl. apply bool_decide_eq_false. congruence. }
  assert (dr_params <$> ds_runs s !! a = Some params) as Hp.
  { unfold local in Hl. destruct (ds_runs s !! a); [|done]. destruct (ds_tasks s !! a) as [[]|]; [|done].
    injection Hl as <-. unfold identity_of in Hid. simpl in *. congruence. }
  split_and!.
  - unfold find_run. rewrite Hexp, Hlive. simpl. by rewrite bool_decide_true.
  - intros params' now unix_ms deadline Hkey Hd Hguard. unfold admit_turn. rewrite Hd. simpl. unfold known_run. cbv zeta. rewrite Hkey, Hguard. simpl.
    rewrite Hexp. unfold RunKey in *. rewrite Hlive. simpl. rewrite Hp, (bool_decide_true (owner = owner)) by done. simpl.
    rewrite (bool_decide_ext (Some params = Some params') (params = params')) by naive_solver.
    by destruct (bool_decide _).
  - intros owner' params' now unix_ms outcome s' Hkey. unfold admit_turn. destruct (run_deadline params' now); [|done]. simpl.
    unfold known_run. cbv zeta. rewrite Hkey. unfold RunKey in *. rewrite Hlive. destruct (map_err _ _); [|done]. simpl.
    destruct (is_expired_run _ _ owner'); [done|]. simpl. rewrite Hp.
    destruct (bool_decide_reflect (owner = owner')); [|done]. destruct (bool_decide_reflect (Some params = Some params')); [|done].
    simpl. intros [= <- <-]. split_and!; congruence.
Qed.

(** The answers once it has expired *)
Lemma expired_run_answers s key owner :
  expired s key = Some owner →
  find_run key owner s = Err expired_error
  ∧ ∀ params now unix_ms deadline,
      (turn_thread_id params, turn_turn_id params) = key → run_deadline params now = Ok deadline →
      guard_open (ds_lifecycle s) key.1 owner = Ok () → admit_turn owner params now unix_ms s = (Err expired_error, s).
Proof.
  intros He.
  assert (is_expired_run (ds_registry s) key owner = true) as Hexp.
  { unfold is_expired_run. rewrite He. simpl. by apply bool_decide_eq_true. }
  split; [unfold find_run; by rewrite Hexp|]. intros params now unix_ms deadline Hkey Hd Hguard.
  unfold admit_turn. rewrite Hd. simpl. unfold known_run. cbv zeta. rewrite Hkey, Hguard. simpl. by rewrite Hexp.
Qed.

Lemma reachable_step s s' : reachable engine s → runs_step engine s s' → reachable engine s'.
Proof. intros (s0 & Hs0 & Hr) Hstep. exists s0. split; [done|by eapply rtc_r]. Qed.
Lemma reachable_steps s s' : reachable engine s → rtc (runs_step engine) s s' → reachable engine s'.
Proof. intros (s0 & Hs0 & Hr) Hsteps. exists s0. split; [done|by etrans]. Qed.
End identity.
