(* ===== verification/RunTurn.v ===== *)
(** * What a run leaves of its session

    The engine under the [select!] of [execute_run]: whether its turn returns or is
    dropped, the history of the session is a legal conversation that continues the one
    the run was given. *)

From S2P Require Import Prelude EventJournal Protocol StoreState CoreContext CoreSession ModelStep Coordinator Engine EngineLegal StoreBackend StoreConfig StoreRuntime SessionViews ViewJournal SessionManagement SessionCatalog HistoryArchive ManagementProjection ManagementOps SessionServer Interactions InteractionRecord InteractionServer RunRegistry DaemonRuns RunSteps RunProjection.

Section turn.
Context `{Externals} `{ToolExternals} `{EngineExternals}.
Context {J Adapter : Type} `{!Journal J} `{!JournalSpec J}.
Context (engine : @AgentEngine J Adapter).
Notation Session := (ThreadSession ToolRegistry Adapter ModelProvider SamplingOptions ContextPolicy J).
Implicit Types (session : Session) (run : RunRecord).

Lemma turn_session turn_id context supply schedule order max_steps input (r : @Run J Adapter) :
  let '(out, r') := run_turn_with_context engine turn_id context supply schedule order max_steps input r in
  match run_inner engine turn_id context supply schedule order max_steps input r with
  | (Ok res, r1) => out = Ok res ∧ rn_session r' = rn_session r1
  | (Err e, r1) =>
      out = Err e ∧ rn_session r' = rn_session (close_turn supply (length (th_history (rn_session r))) r1).2
  end.
Proof.
  unfold run_turn_with_context. destruct (run_inner _ _ _ _ _ _ _ _ r) as [[res|e] r1].
  - split; [done|]. apply send_final_session.
  - destruct (close_turn _ _ r1) as [closed r2]. split; [done|]. simpl.
    etrans; [apply send_final_session|apply send_all_session].
Qed.

(** What the turn left behind continues the session: legally, when the model emits the
    messages of a step before its tool calls and the input continues a legal history. *)
Record Continues session input (x : @Execution J Adapter) items : Prop := {
  cn_history : th_history (ex_session x) = th_history session ++ items;
  cn_legal : Orderly engine (th_provider session) → Conversation (th_history session) →
    Conversation (th_history session ++ input) → Conversation (th_history (ex_session x));
  cn_journal : th_journal (ex_session x) = None;
  cn_start : ex_history_start x = length (th_history session);
  cn_defaults : ex_defaults x = th_sampling_options session;
  cn_accepted : ex_accepted x = true;
  cn_hand : ex_hand x = None;
  cn_result res : ex_ending x = EndedResult (Ok res) → items = er_generated_items res;
}.

Lemma run_options_keeps run session :
  th_history (run_options run session) = th_history session
  ∧ th_journal (run_options run session) = th_journal session
  ∧ th_provider (run_options run session) = th_provider session
  ∧ th_adapter (run_options run session) = th_adapter session.
Proof. unfold run_options. by destruct (turn_options _). Qed.

Lemma close_turn_journal supply start (r : @Run J Adapter) :
  th_journal (rn_session r) = None → th_journal (rn_session (close_turn supply start r).2) = None.
Proof. intros Hj. unfold close_turn. rewrite Hj. simpl. done. Qed.

Lemma close_turn_Continues supply p ad before (r : @Run J Adapter) :
  Grown p ad before r →
  let session := rn_session (close_turn supply (length before) r).2 in
  th_journal session = None ∧ (∃ items, th_history session = before ++ items)
  ∧ (Conversation before → OpenTurn p ad before r → Conversation (th_history session)).
Proof.
  intros [h Hat]. pose proof (close_turn_journal supply (length before) r (at_journal _ _ _ _ _ Hat)) as Hj.
  destruct (close_turn supply (length before) r) as [closed r2] eqn:Hclose. split_and!; [done| |].
  - destruct Hat as [Hj' Hh _ _ Hi]. unfold close_turn in Hclose. rewrite Hj' in Hclose.
    unfold close_unanswered_tool_calls in Hclose. injection Hclose as <- <-. simpl.
    rewrite Hh, <-Hi, <-app_assoc. by eexists.
  - intros Hb Ho. by apply (close_turn_legal _ p ad) in Hclose as (Hc & _ & _).
Qed.

Section executed.
Context (env : TurnEnvironment) (cut : option nat) (why : RunEnding) (run : RunRecord) (session : Session).
Context (Hj : th_journal session = None) (Hwhy : ∀ out, why ≠ EndedResult out).

Lemma execute_turn_Continues :
  ∃ items, Continues session (turn_input_items (dr_params run)) (execute_turn engine env run session cut why) items.
Proof.
  destruct (run_options_keeps run session) as (Hh & Hj' & Hp & Ha). rewrite Hj in Hj'.
  unfold execute_turn. rewrite Hh.
  set (r0 := engine_start (run_options run session) cut). set (input := turn_input_items (dr_params run)) in *.
  assert (At (th_provider session) (th_adapter session) (th_history session) (th_history session) r0) as Hat.
  { constructor; simpl; try done. by rewrite app_nil_r. }
  pose proof (run_inner_grows engine (ctx_turn_id (dr_context run)) (dr_context run) (te_supply env) (te_schedule env)
    (te_hash_order env) (th_provider session) (th_adapter session) (th_history session) (turn_max_steps (dr_params run))
    input r0 Hat) as Hgrows.
  pose proof (λ Hord Hb Hin, run_inner_legal engine (ctx_turn_id (dr_context run)) (dr_context run) (te_supply env)
    (te_schedule env) (te_hash_order env) (th_provider session) (th_adapter session) (th_history session)
    (turn_max_steps (dr_params run)) input Hord Hb Hin r0 Hat) as Hinner.
  pose proof (turn_session (ctx_turn_id (dr_context run)) (dr_context run) (te_supply env) (te_schedule env)
    (te_hash_order env) (turn_max_steps (dr_params run)) input r0) as Hturn.
  change (th_history (rn_session r0)) with (th_history (run_options run session)) in Hturn. rewrite Hh in Hturn.
  destruct (run_inner _ _ _ _ _ _ _ _ r0) as [[res|e] inner]; cbn [dropped].
  - destruct Hgrows as (h & Hath & Hres).
    destruct (run_turn_with_context _ _ _ _ _ _ _ _ r0) as [out' r']. destruct Hturn as [-> Hr].
    exists (rn_items inner). split; simpl; rewrite ?Hr; try done.
    + rewrite (at_history _ _ _ _ _ Hath). symmetry. apply Hath.
    + intros Hord Hb Hin. destruct (Hinner Hord Hb Hin) as [(h' & Hath' & Hc & _) _].
      by rewrite (at_history _ _ _ _ _ Hath').
    + apply Hath.
    + intros res' [= <-]. by symmetry.
  - destruct (close_turn_Continues (te_supply env) _ _ _ inner Hgrows) as (Hjn & (items & Hhist) & Hc).
    destruct ((e == run_cancelled) && _).
    + exists items. split; simpl; try done; [by auto|]. intros res Hres. by destruct (Hwhy _ Hres).
    + destruct (run_turn_with_context _ _ _ _ _ _ _ _ r0) as [out' r']. destruct Hturn as [-> Hr].
      exists items. split; simpl; rewrite ?Hr; try done. by auto.
Qed.
End executed.
End turn.

(** ** The terminal snapshot *)

Lemma terminal_snapshot_items accepted cancel ending usage executions items snap :
  let final := terminal_snapshot accepted cancel ending usage executions items snap in
  snap_items final = items ∧ res_items <$> snap_result final = Some items.
Proof. done. Qed.

(** A result that no cancellation overtook *)
Lemma terminal_snapshot_completed accepted res usage executions items snap :
  snap_status snap ≠ RunCancelling →
  let final := terminal_snapshot accepted false (EndedResult (Ok res)) usage executions items snap in
  snap_status final = RunCompleted ∧ snap_usage final = er_total_usage res.
Proof.
  intros Hne. unfold terminal_snapshot, arbitrated. simpl. rewrite orb_false_r.
  rewrite (bool_decide_false (snap_status snap = RunCancelling)) by done. by rewrite andb_false_r.
Qed.

Section commit.
Context {St J Adapter : Type}.
Notation Session := (ThreadSession ToolRegistry Adapter ModelProvider SamplingOptions ContextPolicy J).

Lemma publish_terminal_effects a (x : @Execution J Adapter) snapshot (session : Session) (s : @RunServer St J Adapter) lock task run :
  ds_tasks s !! a = Some (lock, task) → ds_runs s !! a = Some run →
  ds_locks (publish_terminal a x snapshot session s) !! lock = Some (Some session)
  ∧ dr_snapshot <$> ds_runs (publish_terminal a x snapshot session s) !! a = Some snapshot.
Proof.
  intros Ht Hr. unfold publish_terminal, unlock. simpl. rewrite Ht.
  destruct (ex_accepted x); simpl; rewrite lookup_insert, decide_True by done; split; try done;
    rewrite !lookup_alter, ?decide_True by done; by rewrite Hr.
Qed.

(** The commit of a session without a journal *)
Lemma finish_run_plain `{Externals} `{SchemaExternals} `{EventExternals} `{DigestExternals} `{MapOrder} `{!RunJournal J}
    now a (s : @RunServer St J Adapter) lock x run :
  ds_tasks s !! a = Some (lock, TaskExecuting x) → ds_runs s !! a = Some run → ex_events x = [] → ex_hand x = None →
  th_journal (ex_session x) = None →
  ∃ s1, ds_tasks s1 = ds_tasks s ∧ ds_runs s1 = ds_runs s
    ∧ finish_run now a s = publish_terminal a x
        (terminal_snapshot (ex_accepted x) (dr_cancel run) (ex_ending x) (ex_usage x) (ex_executions x)
           (drop (ex_history_start x) (th_history (ex_session x))) (dr_snapshot run))
        (restore_accepted_turns (dr_accepted_ordinal run) (with_options (ex_defaults x) (ex_session x))) s1.
Proof.
  intros Ht Hr He Hh Hj. unfold finish_run. rewrite Ht, Hr, He, Hh. destruct (dr_key run) as [thread_id turn_id]. cbv zeta.
  cbn [th_journal restore_accepted_turns with_options th_history]. rewrite Hj.
  eexists. split; [|split]; [| |reflexivity]; by destruct (ex_ending x).
Qed.
End commit.

(** ** The run in the view of its session *)

(** The parts of a snapshot that the stream events carry, but for the status *)
Record Mirrors (d v : RunSnapshot) : Prop := {
  fo_thread : snap_thread_id v = snap_thread_id d;
  fo_turn : snap_turn_id v = snap_turn_id d;
  fo_seq : snap_last_seq v = snap_last_seq d;
  fo_items : snap_items v = snap_items d;
  fo_pending : snap_pending_approvals v = snap_pending_approvals d;
}.

(** What the event brings is new: neither an item nor a request comes twice. *)
Definition brings_news (event : AgentStreamEvent) (d : RunSnapshot) : Prop :=
  match event with
  | EvItemCompleted _ item => item_id item ∉ item_id <$> snap_items d
  | EvApprovalRequested _ request_id _ _ => request_id ∉ pa_request_id <$> snap_pending_approvals d
  | _ => True
  end.

Lemma existsb_absent {A} (f : A → string) k (l : list A) : k ∉ f <$> l → existsb (λ x, f x == k) l = false.
Proof.
  induction l as [|x l IH]; [done|]. csimpl. rewrite not_elem_of_cons. intros [Hne Hl].
  rewrite IH by done. rewrite bool_decide_false; [done|]. congruence.
Qed.

Lemma update_draft_snapshot id f (run run' : SessionRunView) : update_draft id f run = Ok run' → rv_snapshot run' = rv_snapshot run.
Proof. unfold update_draft, reject_if. by destruct (negb _); intros; simplify_eq/=. Qed.

Lemma apply_stream_Mirrors thread history (run run' : SessionRunView) history' executions event d d' e :
  Mirrors d (rv_snapshot run) → snap_status (rv_snapshot run) = snap_status d → brings_news event d →
  stream_snapshot executions event d = (d', Some e) →
  apply_stream thread history
    (set_view_snapshot (set_last_seq (N.max (snap_last_seq (rv_snapshot run)) (re_seq e)) (rv_snapshot run)) run) event
    = Ok (history', run') →
  Mirrors d' (rv_snapshot run')
  ∧ snap_status (rv_snapshot run') = match event with EvTurnStarted _ _ => RunRunning | _ => snap_status d' end.
Proof.
  intros [Ht Hu Hs Hi Hp] Hst Hn. unfold stream_snapshot.
  assert (snap_last_seq (rv_snapshot run) `max` (snap_last_seq d + 1) = snap_last_seq d + 1)%N as Hmax by lia.
  assert (∀ run1 : SessionRunView, rv_snapshot run1 = set_last_seq (snap_last_seq (rv_snapshot run) `max` (snap_last_seq d + 1)) (rv_snapshot run) →
    Mirrors (set_last_seq (snap_last_seq d + 1) (set_tool_executions executions d)) (rv_snapshot run1)
    ∧ snap_status (rv_snapshot run1) = snap_status d) as Hplain.
  { intros run1 ->. by split; [split|]. }
  destruct event; simpl in *; intros Hd Ha; simplify_eq/=; try (by apply Hplain); try (by split; [split|]);
    try (destruct (update_draft _ _ _) as [run1|] eqn:Hu1; simplify_eq/=; apply update_draft_snapshot in Hu1; by apply Hplain).
  - unfold reject_if in Ha. destruct (negb _); simplify_eq/=. by split; [split|].
  - apply Hplain. by destruct (_ || _).
  - destruct (append_unless_known _ _ _) as [[history1 fresh]|]; simplify_eq/=. split; [split|]; simpl; try done.
    unfold append_canonical_once. by rewrite Hi, existsb_absent.
  - destruct (decide _); simplify_eq/=. split; [split|]; simpl; try done.
    unfold record_approval. by rewrite Hp, existsb_absent.
Qed.
