(* ===== verification/RunGuarantees.v ===== *)
(** * What the runs of the daemon guarantee

    First a sample server with one run, then the theorems.

    A session without a journal, and the life of one of its runs: admitted, begun,
    acknowledged, executed, committed, delivered; and of one that is cancelled. *)

From S2P Require Import Prelude EventJournal Protocol StoreState CoreContext CoreSession ModelStep Coordinator Engine StoreBackend StoreConfig StoreRuntime SessionViews ViewJournal SessionManagement SessionCatalog HistoryArchive ManagementProjection ManagementOps SessionServer Interactions InteractionRecord InteractionServer RunRegistry DaemonRuns RunSteps.
From S2P Require Import Samples CoreGuarantees ViewGuarantees ManagementGuarantees InteractionGuarantees.

#[export] Instance sample_run_externals : RunExternals := {
  debug_failure := λ _, "failure";
  options_to_value := λ _, Null;
  instant_add := λ now span, Some (now + span)%N;
}.
#[export] Instance sample_key_order : KeyOrder := { key_order := elements; key_order_perm := λ s, reflexivity _ }.
(** The journal of the sample sessions, which have none *)
#[export] Instance silent_run_journal : RunJournal () := {
  journal_begin := λ _ _ _ j, (Ok true, j);
  journal_finalize := λ _ _ j, (Err (Invalid "no journal"), j);
}.

Notation SampleServer := (@RunServer MemoryStore () ()).

Definition run_thread : ThreadSession ToolRegistry () ModelProvider SamplingOptions ContextPolicy () :=
  with_id_prompt_and_provider "t" None sample_script sample_registry sample_options
    (λ request, full_history_build request false false).
Definition run_server_0 : SampleServer :=
  {| ds_registry := run_registry_default; ds_runs := ∅; ds_tasks := ∅; ds_next := 0; ds_sessions := {["t" := 0]};
     ds_locks := {[0 := Some run_thread]};
     ds_interactions := after_ok iw_none (interactions_insert "o" "t" true "stream" iw_none);
     ds_lifecycle := wo_lifecycle world_1; ds_daemon := wo_daemon world_1; ds_log := [] |}.

Definition run_params (turn : string) : StartTurnParams :=
  {| turn_thread_id := "t"; turn_turn_id := turn; turn_input_items := [user_text "u1" "hi"]; turn_options := None;
     turn_max_steps := 4; turn_timeout_ms := Some 1000%N |}.
Definition run_environment : TurnEnvironment :=
  {| te_supply := new_ids; te_schedule := sample_schedule; te_hash_order := map_to_list |}.

(** What happens to the server, as a list of steps of the run at address 0. *)
Inductive RunAct :=
  | ActAdmit (turn : string) | ActBegin | ActCommit | ActAccept | ActExecute | ActTake | ActQueue | ActSend
  | ActCancel | ActFinish | ActDeliver | ActTick (now : N).

Definition perform (s : SampleServer) (act : RunAct) : SampleServer :=
  match act with
  | ActAdmit turn => (admit_turn "o" (run_params turn) 50 20 s).2
  | ActBegin => enqueue_begin 0 s
  | ActCommit => commit_next 0 21 22 s
  | ActAccept => default s (deliver_acceptance 0 23 s)
  | ActExecute => begin_execution sample_engine run_environment None EndedCancelled 0 s
  | ActTake => take_event [] 0 s
  | ActQueue => queue_event 0 s
  | ActSend => send_event true 0 s
  | ActCancel => (run_ref ("t", "turn") "o" true (usage_default, []) (λ _, 24%N) s).2
  | ActFinish => finish_run (λ _, 25%N) 0 s
  | ActDeliver => deliver_terminal true 26 0 s
  | ActTick now => janitor_tick {| terminal_ttl_ms := Some 1%N; max_terminal_runs_per_session := Some 8%N |} now 27 s
  end.

Lemma perform_steps acts s : rtc (runs_step sample_engine) s (foldl perform s acts).
Proof.
  revert s. induction acts as [|act acts IH]; intros s; [done|]. simpl. etrans; [|apply IH].
  destruct act; try (apply rtc_once; by econstructor).
  - simpl. destruct (deliver_acceptance 0 23 s) as [s'|] eqn:Ha; [|done]. apply rtc_once. by econstructor.
  - apply rtc_once. apply step_execute. by left.
Qed.

Lemma run_server_0_start : server_start run_server_0.
Proof.
  split_and!; try done. intros l. unfold run_server_0. simpl. intros Hl.
  apply lookup_singleton_Some in Hl as [_ Hl]. done.
Qed.
Lemma acts_reachable acts : reachable sample_engine (foldl perform run_server_0 acts).
Proof. exists run_server_0. split; [apply run_server_0_start|apply perform_steps]. Qed.

(** A run that is executed to its end: every event is taken, committed and sent. *)
Definition after (acts : list RunAct) : SampleServer := foldl perform run_server_0 acts.
Definition act_event : list RunAct := [ActTake; ActQueue; ActCommit; ActSend].
Definition acts_awaiting : list RunAct := [ActAdmit "turn"; ActBegin; ActCommit; ActAccept].
Definition acts_started : list RunAct := acts_awaiting ++ [ActExecute].
Definition acts_end : list RunAct := mjoin (replicate 14 act_event) ++ [ActFinish; ActCommit; ActDeliver].
Definition acts_ended : list RunAct := acts_started ++ acts_end.
Definition acts_cancelled : list RunAct := acts_started ++ act_event ++ act_event ++ [ActCancel; ActCommit] ++ acts_end.

Lemma after_steps acts more : rtc (runs_step sample_engine) (after acts) (after (acts ++ more)).
Proof. unfold after. rewrite foldl_app. apply perform_steps. Qed.
Lemma finished_steps : rtc (runs_step sample_engine) (after [ActAdmit "turn"]) (after acts_ended).
Proof. assert (acts_ended = [ActAdmit "turn"] ++ tail acts_ended) as -> by reflexivity. apply after_steps. Qed.

(** What the server has done *)
Definition observed_kind (o : Observation) : string :=
  match o with
  | ObsCommitted _ _ => "committed" | ObsHanded _ _ => "handed" | ObsCancelled _ => "cancelled"
  | ObsNumbered _ _ => "numbered" | ObsSent _ _ => "sent"
  end.
Definition count_kind (kind : string) (l : @Local () ()) : nat := length (List.filter (λ o, observed_kind o == kind) (lo_log l)).
Definition run_summary (l : @Local () ()) : RunStatus * bool * list nat :=
  (snap_status (dr_snapshot (lo_run l)), dr_live (lo_run l),
   (λ kind, count_kind kind l) <$> ["committed"; "handed"; "cancelled"; "numbered"; "sent"]).

(** The view refuses one event, the delta of a call whose start the model did not
    announce; it is numbered and sent all the same. *)
Example ended_summary : run_summary <$> local 0 (after acts_ended) = Some (RunCompleted, true, [14; 14; 0; 14; 14]).
Proof. vm_compute. reflexivity. Qed.
Example cancelled_summary : run_summary <$> local 0 (after acts_cancelled) = Some (RunCancelled, true, [15; 15; 1; 14; 3]).
Proof. vm_compute. reflexivity. Qed.
Example awaiting_summary :
  run_summary <$> local 0 (after [ActAdmit "turn"; ActBegin; ActCommit]) = Some (RunRunning, false, [1; 0; 0; 0; 0]).
Proof. vm_compute. reflexivity. Qed.

(** A run with a summary *)
Lemma summary_local a (s : SampleServer) summary : run_summary <$> local a s = Some summary → ∃ l, local a s = Some l ∧ run_summary l = summary.
Proof. destruct (local a s) as [l|]; intros Hs; simplify_eq/=. by exists l. Qed.

(** A cancellation that comes before the acknowledgement of the start: while its change
    waits to be committed, [deliver_acceptance] finds the publication locked. *)
Example acceptance_panics :
  deliver_acceptance 0 23 (after [ActAdmit "turn"; ActBegin; ActCommit; ActCancel]) = None
  ∧ is_some (deliver_acceptance 0 23 (after [ActAdmit "turn"; ActBegin; ActCommit; ActCancel; ActCommit])) = true.
Proof. split; vm_compute; reflexivity. Qed.

(** ** Guarantees of the runs

    What a client can rely on while a run lives: its events, its cancellation, when
    others hear of it, whose session it has, what its end reports, and when it is
    forgotten. *)

From S2P Require Import EngineLegal RunProjection RunIdentity RunTurn.

Section runs.
Context `{Externals} `{ToolExternals} `{EngineExternals} `{ManagementExternals} `{ViewExternals} `{SchemaExternals}.
Context `{EventExternals} `{DigestExternals} `{MapOrder} `{RunExternals} `{KeyOrder}.
Context {St : Type} `{!SessionStore St} {J Adapter : Type} `{!Journal J} `{!RunJournal J}.
Context (engine : @AgentEngine J Adapter).

Notation Server := (@RunServer St J Adapter).
Implicit Types (s : Server) (l : @Local J Adapter) (a : nat).

(** ** Events *)

(** C13: however the tasks of the daemon interleave, the events of a run are numbered
    1, 2, .. without a gap; all are stream events of that run except the last, the
    terminal one, which is there at most once. Its snapshot has the next number, a
    terminal status, no pending approval and a result that agrees with it, also when the
    commit to the store failed. Only the journal of a durable session may put another
    snapshot in its place: then it is what the journal's [finalize] answered for such a
    snapshot. The transport gets a subsequence of the events: in order, none twice. *)
Theorem run_events_are_numbered s a l :
  reachable engine s → local a s = Some l →
  sent (lo_log l) `sublist_of` numbered (lo_log l)
  ∧ ∃ stream terminal, numbered (lo_log l) = stream ++ option_list terminal ∧ Streams (dr_key (lo_run l)) stream
      ∧ ∀ event, terminal = Some event → ∃ candidate snapshot,
          event = terminal_event snapshot ∧ Terminal (dr_key (lo_run l)) (length stream) False candidate
          ∧ ((snapshot = candidate ∨ snapshot = store_failed_snapshot candidate)
               ∧ Terminal (dr_key (lo_run l)) (length stream) False snapshot
             ∨ ∃ j f j', journal_finalize (snap_turn_id candidate) candidate j = (Ok f, j') ∧ snapshot = fin_snapshot f).
Proof.
  intros Hs Hl.
  assert (Numbered a l) as HN
    by exact (reachable_invariant engine Numbered s a l local_start_Numbered local_step_Numbered Hs Hl).
  apply Numbered_cases in HN as [Hsent [[]|[Hn|(event & before & after & candidate & snapshot & Hlog & Hst & Ha & He & Ht & Hd)]]];
    (split; [done|]).
  - exists (numbered (lo_log l)), None. simpl. by rewrite app_nil_r.
  - exists [], None. by rewrite Hn.
  - exists (numbered before), (Some event). rewrite Hlog, numbered_app. simpl. rewrite Ha. split_and!; [done..|].
    apply (Terminal_impl _ _ _ False) in Ht; [|done].
    intros e [= <-]. exists candidate, snapshot. split_and!; [done..|].
    destruct Hd as [->|[->|Hd]]; [by auto| |by right]. left. split; [by right|]. by apply store_failed_Terminal.
Qed.

(** C14: a cancellation that the daemon has accepted decides the outcome: while the run
    is still executing it stays cancelling, and if it ends afterwards, its terminal
    snapshot was made with the status Cancelled, even when the engine finished with a
    result in the meantime. *)
Theorem accepted_cancellation_decides s a l before after :
  reachable engine s → local a s = Some l → lo_log l = before ++ ObsCancelled a :: after →
  (∀ x, lo_task l = TaskExecuting x →
     dr_cancel (lo_run l) = true ∧ snap_status (dr_snapshot (lo_run l)) = RunCancelling)
  ∧ ∀ event, event ∈ numbered after → is_stream event = false →
      ∃ candidate snapshot, event = terminal_event snapshot ∧ decided candidate snapshot
        ∧ snap_status candidate = RunCancelled.
Proof.
  intros Hs Hl Hlog.
  assert (Numbered a l) as HN
    by exact (reachable_invariant engine Numbered s a l local_start_Numbered local_step_Numbered Hs Hl).
  split.
  - intros x Hx. unfold Numbered in HN. rewrite Hx in HN. destruct HN as [Hg _]. apply Hg. exists a. rewrite Hlog. set_solver.
  - intros event He Hst. apply Numbered_cases in HN as [_ [Hg|[Hn|(terminal & Hc)]]].
    + assert (is_stream event = true); [|congruence]. apply (Streams_is_stream _ _ _ (go_streams _ Hg)).
      rewrite Hlog, numbered_app. simpl. set_solver.
    + rewrite Hlog, numbered_app in Hn. apply app_eq_nil in Hn as [_ Hn]. simpl in Hn. rewrite Hn in He. set_solver.
    + rewrite Hlog in Hc. by apply (Concluded_after_cancel _ _ _ _ _ _ Hc).
Qed.

(** C17: before the acknowledgement of its start has reached the client, no subscriber
    hears of a run and every change it commits waits; afterwards the subscribers have
    been handed every committed change exactly once, those that waited sorted by their
    cursor and before those that did not. *)
Theorem publication_waits_for_acceptance s a l :
  reachable engine s → local a s = Some l →
  if dr_live (lo_run l)
  then dr_pending (lo_run l) = [] ∧ ∃ waited later,
         committed (lo_log l) = waited ++ later ∧ handed (lo_log l) = merge_sort cursor_le waited ++ later
         ∧ handed (lo_log l) ≡ₚ committed (lo_log l)
  else handed (lo_log l) = [] ∧ dr_pending (lo_run l) = committed (lo_log l).
Proof.
  intros Hs Hl.
  assert (Announced l) as HP by exact (reachable_invariant engine (λ _, Announced) s a l
    local_start_Announced local_step_Announced Hs Hl).
  unfold Announced in HP. destruct (dr_live (lo_run l)); [|done]. destruct HP as (Hp & waited & later & Hc & Hh).
  split; [done|]. exists waited, later. split_and!; [done..|]. by rewrite Hh, Hc, merge_sort_Permutation.
Qed.

(** ** Sessions and identities *)

(** C16: the turns of a session run one after the other: two runs never hold the lock of
    the same session, and while one does, from its admission to its commit, a new turn
    for that session is refused as busy and changes nothing. *)
Theorem sessions_run_one_turn s a lock task :
  reachable engine s → ds_tasks s !! a = Some (lock, task) → holds task = true →
  (∀ b task', ds_tasks s !! b = Some (lock, task') → holds task' = true → b = a)
  ∧ ∀ owner params now unix_ms deadline,
      ds_sessions s !! turn_thread_id params = Some lock → run_deadline params now = Ok deadline →
      known_run owner params s = Ok None →
      admit_turn owner params now unix_ms s = (Err session_busy, s).
Proof.
  intros Hs Ht Hh. destruct (reachable_Exclusive engine s Hs a lock) as [Hl Hu]; [by exists task|]. split.
  - intros b task' Hb Hb'. apply Hu. by exists task'.
  - intros owner params now unix_ms deadline Hss Hd Hk. unfold admit_turn. rewrite Hd. simpl. rewrite Hk. simpl.
    unfold reserve_session. rewrite Hss. simpl. by rewrite Hl.
Qed.

(** C19: the identity of a run is used once. From the admission of a run on, whatever
    the daemon does, one of three things holds. The run is kept, finished or not: a
    reference of its owner finds it, a start of its owner with the same parameters joins
    it, one with other parameters is a conflict, and no other start with this identity
    succeeds. Or the run has expired: both a reference and a start of its owner say so.
    Or the identity was given up on the way: the session of its owner was removed, a run
    of this name could not begin, or a run of another owner with this name expired. *)
Theorem run_identity_is_used_once s0 owner params now unix_ms a s1 s :
  reachable engine s0 → admit_turn owner params now unix_ms s0 = (Ok (StartNew a), s1) → rtc (runs_step engine) s1 s →
  let key := (turn_thread_id params, turn_turn_id params) in
  (find_run key owner s = Ok a
   ∧ (∀ params' now' unix_ms' deadline,
        (turn_thread_id params', turn_turn_id params') = key → run_deadline params' now' = Ok deadline →
        guard_open (ds_lifecycle s) key.1 owner = Ok () →
        admit_turn owner params' now' unix_ms' s =
          (if bool_decide (params = params') then Ok (StartJoined a) else Err (invalid_params "RunConflict"), s))
   ∧ ∀ owner' params' now' unix_ms' outcome s',
       (turn_thread_id params', turn_turn_id params') = key →
       admit_turn owner' params' now' unix_ms' s = (Ok outcome, s') →
       owner' = owner ∧ params' = params ∧ outcome = StartJoined a ∧ s' = s)
  ∨ (find_run key owner s = Err expired_error
     ∧ ∀ params' now' unix_ms' deadline,
         (turn_thread_id params', turn_turn_id params') = key → run_deadline params' now' = Ok deadline →
         guard_open (ds_lifecycle s) key.1 owner = Ok () →
         admit_turn owner params' now' unix_ms' s = (Err expired_error, s))
  ∨ forgotten_between engine key owner s1 s.
Proof.
  intros Hs0 Hadmit Hsteps key.
  assert (reachable engine s1) as Hs1.
  { apply (reachable_step _ s0); [done|]. pose proof (step_admit engine owner params now unix_ms s0) as Hstep. by rewrite Hadmit in Hstep. }
  assert (reachable engine s) as Hs by by eapply reachable_steps.
  destruct (admitted_taken _ _ _ _ _ _ _ Hadmit) as (Ht & l & Hl & Hid).
  destruct (taken_steps engine key owner a s1 s Hsteps Ht) as [[Hlive|Hexp]|Hf]; [left|right; left|by do 2 right].
  - destruct (reachable_identity engine s1 s a l Hs1 Hsteps Hl) as (l' & Hl' & Hid').
    pose proof (reachable_Unexpired engine s Hs key _ Hlive) as Hnexp. simpl in Hnexp.
    rewrite Hid in Hid'. destruct (live_run_answers s key owner params a l' Hlive Hnexp Hl' Hid') as (Hfind & Hjoin & Hother).
    split_and!; [done| |].
    + intros. by eapply Hjoin.
    + intros. by eapply Hother.
  - destruct (expired_run_answers s key owner Hexp) as [Hfind Hstart]. split; [done|]. intros. by eapply Hstart.
Qed.

(** ** The commit *)

(** C15: a finished run reports its turn. However the execution of a session without a
    journal ends, by a result, an error, a cancellation or its deadline, and whatever the
    model did, the session gets its lock back with the conversation the run found,
    followed by exactly the items of the terminal snapshot and of its result. Its options
    are what they were before the run, and the ordinal of the accepted turn is consumed. A
    result that no cancellation overtook is reported as completed, with its items and
    usage. The conversation is legal provided that it was, that the input of the turn
    continued it legally, and that the model emits a step's messages before its tool
    calls. *)
Theorem finished_run_reports_its_turn `{!JournalSpec J} env cut why run session s lock a run' now :
  th_journal session = None → why = EndedCancelled ∨ why = EndedDeadline →
  let x := execute_turn engine env run session cut why in
  ds_tasks s !! a = Some (lock, TaskExecuting (set_events_left [] x)) → ds_runs s !! a = Some run' →
  ∃ session' snapshot,
    ds_locks (finish_run now a s) !! lock = Some (Some session')
    ∧ dr_snapshot <$> ds_runs (finish_run now a s) !! a = Some snapshot
    ∧ th_history session' = th_history session ++ snap_items snapshot
    ∧ res_items <$> snap_result snapshot = Some (snap_items snapshot)
    ∧ is_terminal (snap_status snapshot) = true
    ∧ th_sampling_options session' = th_sampling_options session
    ∧ th_accepted_turns session' = dr_accepted_ordinal run'
    ∧ (∀ res, ex_ending x = EndedResult (Ok res) → dr_cancel run' = false → snap_status (dr_snapshot run') ≠ RunCancelling →
         snap_status snapshot = RunCompleted ∧ snap_items snapshot = er_generated_items res
         ∧ snap_usage snapshot = er_total_usage res)
    ∧ (Orderly engine (th_provider session) → Conversation (th_history session) →
         Conversation (th_history session ++ turn_input_items (dr_params run)) → Conversation (th_history session')).
Proof.
  intros Hj Hwhy x Ht Hr.
  assert (∀ out, why ≠ EndedResult out) as Hne by by (intros out; destruct Hwhy as [->| ->]).
  destruct (execute_turn_Continues engine env cut why run session Hj Hne) as (items & Hcon).
  change (execute_turn engine env run session cut why) with x in Hcon. clearbody x. destruct Hcon.
  destruct (finish_run_plain now a s lock (set_events_left [] x) run' Ht Hr eq_refl cn_hand cn_journal) as (s1 & Hts & Hrs & Hf).
  rewrite Hf. rewrite <-Hts in Ht. rewrite <-Hrs in Hr. clear Hf.
  cbn [ex_accepted ex_ending ex_usage ex_executions ex_history_start ex_session ex_defaults set_events_left].
  match goal with |- context [publish_terminal _ _ ?sn ?se _] => set (snapshot := sn); set (session' := se) end.
  destruct (publish_terminal_effects a (set_events_left [] x) snapshot session' s1 lock _ run' Ht Hr) as [Hlock Hsnap].
  assert (drop (ex_history_start x) (th_history (ex_session x)) = items) as Hitems
    by (by rewrite cn_start, cn_history, drop_app_length).
  assert (snap_items snapshot = items) as Hsi by done.
  exists session', snapshot. rewrite Hsi. split_and!; try done.
  - unfold snapshot. rewrite Hitems. done.
  - apply (terminal_snapshot_ok (ex_accepted x) (dr_cancel run') (ex_ending x) (ex_usage x) (ex_executions x) _ (dr_snapshot run') (snap_thread_id (dr_snapshot run'), snap_turn_id (dr_snapshot run')) (N.to_nat (snap_last_seq (dr_snapshot run'))) False); try done; [lia|by rewrite cn_accepted].
  - intros res Hres Hc Hst. destruct (terminal_snapshot_completed (ex_accepted x) res (ex_usage x) (ex_executions x)
      (drop (ex_history_start x) (th_history (ex_session x))) (dr_snapshot run') Hst) as [H1' H2'].
    unfold snapshot. rewrite Hres, Hc. split_and!; [exact H1'|by apply cn_result|exact H2'].
Qed.
End runs.

(** ** The view of the session *)

(** C18: a client that reduces the events of a session sees the run as the daemon does:
    as long as no item or request comes twice, an event that [publish_stream] numbers and
    that the view accepts takes a view that agrees with the daemon's snapshot to one that
    agrees with its next snapshot on the thread, the turn, the number, the items and the
    pending approvals; and on the status, except that the view lets a turn that starts be
    running, which the daemon does not when the run is already cancelling. *)
Theorem view_follows_run self run event executions d d' e now self' :
  sv_active_run self = Some run → Mirrors d (rv_snapshot run) → snap_status (rv_snapshot run) = snap_status d →
  brings_news event d → stream_snapshot executions event d = (d', Some e) →
  apply_stream_event self e event now = Ok self' →
  ∃ run', sv_active_run self' = Some run' ∧ Mirrors d' (rv_snapshot run')
    ∧ snap_status (rv_snapshot run') = match event with EvTurnStarted _ _ => RunRunning | _ => snap_status d' end.
Proof.
  intros Hrun Hf Hs Hn Hd. unfold apply_stream_event. rewrite Hrun. simpl. unfold reject_if.
  destruct (snap_turn_id _ != _); simpl; [intros; congruence|].
  destruct (stream_turn_id _ != _); simpl; [intros; congruence|].
  match goal with |- (apply_stream ?t ?h ?r ?ev ≫= _) = _ → _ => destruct (apply_stream t h r ev) as [[history' run']|] eqn:Ha end;
    [|done]. intros [= <-]. exists run'. split; [done|].
  by apply (apply_stream_Mirrors _ _ (set_view_updated (N.max (rv_updated_at_ms run) now) run) run' history' executions event d d' e) in Ha.
Qed.

(** ** Retention *)

(** C20: a sweep retires exactly the runs that are due. A live run whose terminal event
    was delivered is due when its time to live is over, or when its session has at least
    the maximum of later deliveries whose time is not; the candidates are those runs,
    each once. Retiring them removes each from the live runs and keeps its identity and
    owner as expired, leaves every other run as it was, and the registry then meets the
    policy: nothing delivered is beyond its time, and no session keeps more than the
    maximum. *)
Theorem sweep_retires_what_is_due `{KeyOrder} registry policy now :
  let swept := candidates registry policy now in
  let after := retire_all swept registry in
  NoDup (cd_key <$> swept)
  ∧ (∀ c, c ∈ swept ↔ rg_live registry !! cd_key c = Some (cd_run c)
       ∧ ∃ at_, rg_delivered registry !! cd_key c = Some at_ ∧ due registry policy now (cd_key c) at_)
  ∧ (∀ c, c ∈ swept → rg_live after !! cd_key c = None
       ∧ is_expired_run after (cd_key c) (arc_owner (cd_run c)) = true)
  ∧ (∀ key, key ∉ cd_key <$> swept →
       rg_live after !! key = rg_live registry !! key ∧ rg_expired after !! key = rg_expired registry !! key)
  ∧ (∀ key at_, rg_delivered after !! key = Some at_ → is_some (rg_live after !! key) = true →
       ttl_over policy now at_ = false)
  ∧ (∀ maximum session, max_terminal_runs_per_session policy = Some maximum →
       (N.of_nat (length (session_runs after policy now session (map_to_list (rg_delivered after)))) <= maximum)%N).
Proof.
  intros swept after. destruct (retire_all_spec swept registry) as [Hout Hin]; [apply candidates_keys_NoDup| |].
  { intros c Hc. by apply elem_of_retirement in Hc as [? _]. }
  destruct (retire_all_meets_policy registry policy now) as [Httl Hmax].
  split_and!; [apply candidates_keys_NoDup|intros c; apply elem_of_retirement| | |done|done].
  - intros c Hc. destruct (Hin c Hc) as (Hl & He & _). split; [done|]. unfold is_expired_run.
    fold after in He. rewrite He. simpl. prove_bool.
  - intros key Hk. by destruct (Hout key Hk) as (? & ? & _).
Qed.

(** ** Witnesses *)

Notation state_after acts := (after acts : @RunServer MemoryStore () ()).

Lemma run_events_are_numbered_witness :
  ∃ l, local 0 (state_after acts_ended) = Some l ∧ run_summary l = (RunCompleted, true, [14; 14; 0; 14; 14])
  ∧ sent (lo_log l) `sublist_of` numbered (lo_log l)
  ∧ ∃ stream terminal, numbered (lo_log l) = stream ++ option_list terminal ∧ Streams (dr_key (lo_run l)) stream
      ∧ ∀ event, terminal = Some event → ∃ candidate snapshot,
          event = terminal_event snapshot ∧ Terminal (dr_key (lo_run l)) (length stream) False candidate
          ∧ ((snapshot = candidate ∨ snapshot = store_failed_snapshot candidate)
               ∧ Terminal (dr_key (lo_run l)) (length stream) False snapshot
             ∨ ∃ j f j', journal_finalize (snap_turn_id candidate) candidate j = (Ok f, j') ∧ snapshot = fin_snapshot f).
Proof.
  destruct (summary_local _ _ _ ended_summary) as (l & Hl & Hs). exists l. split; [exact Hl|]. split; [exact Hs|].
  exact (run_events_are_numbered sample_engine (state_after acts_ended) 0 l (acts_reachable acts_ended) Hl).
Defined.

Lemma cancelled_place :
  (λ l, lo_log l !! 10) <$> local 0 (state_after acts_cancelled) = Some (Some (ObsCancelled 0)).
Proof. vm_compute. reflexivity. Qed.

Lemma accepted_cancellation_decides_witness :
  ∃ l, local 0 (state_after acts_cancelled) = Some l ∧ run_summary l = (RunCancelled, true, [15; 15; 1; 14; 3])
  ∧ (∀ x, lo_task l = TaskExecuting x →
       dr_cancel (lo_run l) = true ∧ snap_status (dr_snapshot (lo_run l)) = RunCancelling)
  ∧ ∀ event, event ∈ numbered (drop 11 (lo_log l)) → is_stream event = false →
      ∃ candidate snapshot, event = terminal_event snapshot ∧ decided candidate snapshot
        ∧ snap_status candidate = RunCancelled.
Proof.
  destruct (summary_local _ _ _ cancelled_summary) as (l & Hl & Hs). exists l. split; [exact Hl|]. split; [exact Hs|].
  apply (accepted_cancellation_decides sample_engine (state_after acts_cancelled) 0 l (take 10 (lo_log l)) (drop 11 (lo_log l))
           (acts_reachable acts_cancelled) Hl).
  symmetry. apply take_drop_middle. pose proof cancelled_place as Hp. rewrite Hl in Hp. by injection Hp.
Defined.

Lemma publication_waits_for_acceptance_witness :
  ∃ l, local 0 (state_after [ActAdmit "turn"; ActBegin; ActCommit]) = Some l
  ∧ run_summary l = (RunRunning, false, [1; 0; 0; 0; 0])
  ∧ if dr_live (lo_run l)
    then dr_pending (lo_run l) = [] ∧ ∃ waited later,
           committed (lo_log l) = waited ++ later ∧ handed (lo_log l) = merge_sort cursor_le waited ++ later
           ∧ handed (lo_log l) ≡ₚ committed (lo_log l)
    else handed (lo_log l) = [] ∧ dr_pending (lo_run l) = committed (lo_log l).
Proof.
  destruct (summary_local _ _ _ awaiting_summary) as (l & Hl & Hs). exists l. split; [exact Hl|]. split; [exact Hs|].
  exact (publication_waits_for_acceptance sample_engine (state_after [ActAdmit "turn"; ActBegin; ActCommit]) 0 l
           (acts_reachable _) Hl).
Defined.

Lemma awaiting_holds :
  (λ '(lock, task), (lock, holds task)) <$> ds_tasks (state_after acts_awaiting) !! 0 = Some (0, true).
Proof. vm_compute. reflexivity. Qed.

Lemma sessions_run_one_turn_witness :
  (∀ b task', ds_tasks (state_after acts_awaiting) !! b = Some (0, task') → holds task' = true → b = 0)
  ∧ admit_turn "o" (run_params "next") 60 30 (state_after acts_awaiting) = (Err session_busy, state_after acts_awaiting).
Proof.
  pose proof awaiting_holds as Hh. destruct (ds_tasks (state_after acts_awaiting) !! 0) as [[lock task]|] eqn:Ht; [|done].
  injection Hh as -> Hh.
  destruct (sessions_run_one_turn sample_engine (state_after acts_awaiting) 0 0 task (acts_reachable _) Ht Hh) as [H1 H2].
  split; [exact H1|]. apply (H2 "o" (run_params "next") 60%N 30%N (Some 1000000060%N)); vm_compute; reflexivity.
Defined.

(** The run has finished and is kept; a janitor that comes later lets it go. *)
Notation run_finished := (state_after acts_ended).
Lemma run_identity_is_used_once_witness :
  find_run ("t", "turn") "o" run_finished = Ok 0
  ∧ find_run ("t", "turn") "o" (perform run_finished (ActTick 1000026)) = Err expired_error
  ∧ ((∀ params' now' unix_ms' deadline,
        (turn_thread_id params', turn_turn_id params') = ("t", "turn") → run_deadline params' now' = Ok deadline →
        guard_open (ds_lifecycle run_finished) "t" "o" = Ok () →
        admit_turn "o" params' now' unix_ms' run_finished =
          (if bool_decide (run_params "turn" = params') then Ok (StartJoined 0) else Err (invalid_params "RunConflict"),
           run_finished))
     ∨ find_run ("t", "turn") "o" run_finished = Err expired_error
     ∨ forgotten_between sample_engine ("t", "turn") "o" (state_after [ActAdmit "turn"]) run_finished).
Proof.
  split; [vm_compute; reflexivity|]. split; [vm_compute; reflexivity|].
  destruct (run_identity_is_used_once sample_engine run_server_0 "o" (run_params "turn") 50 20 0 (state_after [ActAdmit "turn"]) run_finished)
    as [(_ & Hjoin & _)|[[Hexp _]|Hforgot]].
  - exact (acts_reachable []).
  - apply injective_projections; [vm_compute; reflexivity|reflexivity].
  - exact finished_steps.
  - left. exact Hjoin.
  - right. left. exact Hexp.
  - right. right. exact Hforgot.
Defined.

Definition run_record : RunRecord :=
  default (new_run "o" (run_params "turn") None 1 20 run_thread) (ds_runs (state_after acts_awaiting) !! 0).
Notation run_execution := (execute_turn sample_engine run_environment run_record run_thread (Some 14) EndedCancelled).
(** The server when the events of the run have been published *)
Definition run_published : @RunServer MemoryStore () () :=
  set_server_runs {[0 := run_record]} (set_tasks {[0 := (0, TaskExecuting (set_events_left [] run_execution))]} run_server_0).

Lemma finished_run_reports_its_turn_witness :
  (match ex_ending run_execution with EndedCancelled => true | _ => false end) = true
  ∧ ∃ session' snapshot,
    ds_locks (finish_run (λ _, 25%N) 0 run_published) !! 0 = Some (Some session')
    ∧ dr_snapshot <$> ds_runs (finish_run (λ _, 25%N) 0 run_published) !! 0 = Some snapshot
    ∧ th_history session' = th_history run_thread ++ snap_items snapshot
    ∧ is_terminal (snap_status snapshot) = true ∧ Conversation (th_history session').
Proof.
  split; [vm_compute; reflexivity|].
  assert (ds_tasks run_published !! 0 = Some (0, TaskExecuting (set_events_left [] run_execution))) as Ht
    by exact (lookup_singleton_eq 0 _).
  assert (ds_runs run_published !! 0 = Some run_record) as Hr by exact (lookup_singleton_eq 0 _).
  destruct (finished_run_reports_its_turn sample_engine run_environment (Some 14) EndedCancelled run_record run_thread
    run_published 0 0 run_record (λ _, 25%N) eq_refl (or_introl eq_refl) Ht Hr)
    as (session' & snapshot & Hl & Hs & Hh & _ & Hst & _ & _ & _ & Hlegal).
  exists session', snapshot. do 4 (split; [assumption|]). apply Hlegal.
  - apply sample_orderly.
  - apply validate_items_Conversation. vm_compute. reflexivity.
  - apply validate_items_Conversation. vm_compute. reflexivity.
Defined.

Definition viewed_run : SessionSnapshot :=
  with_projection (sv_history view_first) (Some (SessionRunView_new view_run 11)) None view_first.
Definition viewed_event : AgentStreamEvent := EvItemCompleted "turn" view_item.

Definition viewed_after : SessionSnapshot :=
  match apply_stream_event viewed_run (view_event 1 (RunStream viewed_event)) viewed_event 12 with
  | Ok self' => self' | Err _ => viewed_run
  end.

Lemma view_follows_run_witness :
  snap_items (stream_snapshot [] viewed_event view_run).1 = [view_item]
  ∧ ∃ run', sv_active_run viewed_after = Some run' ∧ Mirrors (stream_snapshot [] viewed_event view_run).1 (rv_snapshot run')
    ∧ snap_status (rv_snapshot run') = snap_status (stream_snapshot [] viewed_event view_run).1.
Proof.
  split; [vm_compute; reflexivity|].
  assert (apply_stream_event viewed_run (view_event 1 (RunStream viewed_event)) viewed_event 12 = Ok viewed_after) as Ha
    by (vm_compute; reflexivity).
  assert (stream_snapshot [] viewed_event view_run
          = ((stream_snapshot [] viewed_event view_run).1, Some (view_event 1 (RunStream viewed_event)))) as Hd
    by (vm_compute; reflexivity).
  assert (brings_news viewed_event view_run) as Hn by apply not_elem_of_nil.
  exact (view_follows_run viewed_run (SessionRunView_new view_run 11) viewed_event [] view_run _ _ 12 viewed_after
           eq_refl (Build_Mirrors view_run view_run eq_refl eq_refl eq_refl eq_refl eq_refl) eq_refl Hn Hd Ha).
Defined.
