(* ===== verification/SdkManagement.v ===== *)
(** * The client's side of session management

    [crates/whale-sdk-rust/src/session_management.rs]: the errors an application sees,
    the options and requests of the catalog, the history, the metadata and the second
    view, and the worker of a subscription. As in [SdkViews], a label of the worker is what its [select!]s
    observe, and a request is an argument: the exchange with the daemon. *)

From stdpp Require Import pretty.
From S2P Require Import Prelude Protocol StoreState StoreConfig SessionViews SessionManagement SessionCatalog SdkViews.

Inductive SessionManagementError :=
  | SmSdk (error : SdkError)
  | SmUnsupportedCapability (capability : string)
  | SmInvalidOptions (field message : string)
  | SmSessionUnavailable
  | SmSessionNotOpen (lifecycle : SessionLifecycleState)
  | SmRevisionConflict (expected_view_revision current_view_revision : N) (current : SessionCursorV2)
  | SmListCursorInvalid
  | SmListCursorExpired
  | SmHistoryCursorInvalid
  | SmHistoryStreamReset (requested current : SessionHistoryAnchor)
  | SmHistoryGap (requested floor current_end : SessionHistoryAnchor)
  | SmTombstoneExpired (thread_id : string)
  | SmResourceLimit (resource : string) (actual limit : N) (item_index : option N)
  | SmStorageFailure (outcome_unknown : bool)
  | SmInvalidProjection (message : string).

Abbreviation Answered := (result SessionManagementError).

Definition invalid_option (field message : string) : SessionManagementError := SmInvalidOptions field message.
Definition invalid_projection (message : string) : SessionManagementError := SmInvalidProjection message.

(** ** Errors of a request *)

(** The [JSONRPCError] that arrived; its data is what [serde_json::from_value] makes
    of the [Value]. *)
Record RemoteError := {
  rem_code : Z;
  rem_message : string;
  rem_data : option (result string SessionManagementErrorData);
}.

Inductive InternalRequestError :=
  | RequestSdk (error : SdkError)
  | RequestRemote (error : RemoteError).

Abbreviation Reply := (result InternalRequestError).

(** The [match] of [map_request_error] on the code and the data. *)
Definition typed_error (code : Z) (data : SessionManagementErrorData) : option SessionManagementError :=
  let on (expected : Z) (error : SessionManagementError) := if (code =? expected)%Z then Some error else None in
  match data with
  | DataUnavailable => on SESSION_MANAGEMENT_STATE SmSessionUnavailable
  | DataSessionNotOpen lifecycle => on SESSION_MANAGEMENT_STATE (SmSessionNotOpen lifecycle)
  | DataRevisionConflict expected current cursor => on SESSION_REVISION_CONFLICT (SmRevisionConflict expected current cursor)
  | DataListCursorInvalid => on SESSION_CURSOR_REJECTED SmListCursorInvalid
  | DataListCursorExpired => on SESSION_CURSOR_REJECTED SmListCursorExpired
  | DataHistoryCursorInvalid => on SESSION_CURSOR_REJECTED SmHistoryCursorInvalid
  | DataHistoryStreamReset requested current => on SESSION_CURSOR_REJECTED (SmHistoryStreamReset requested current)
  | DataHistoryGap requested floor current_end => on SESSION_HISTORY_GAP (SmHistoryGap requested floor current_end)
  | DataTombstoneExpired thread_id => on SESSION_MANAGEMENT_STATE (SmTombstoneExpired thread_id)
  | DataResourceLimit resource actual limit item_index =>
      on SESSION_MANAGEMENT_STATE (SmResourceLimit resource actual limit item_index)
  | DataStorageFailure outcome_unknown => on STORE_FAILED (SmStorageFailure outcome_unknown)
  end.

Definition map_request_error (error : InternalRequestError) : SessionManagementError :=
  match error with
  | RequestSdk error => SmSdk error
  | RequestRemote remote =>
      match rem_data remote with
      | None => invalid_projection ("Session management RPC " +:+ pretty (rem_code remote) +:+ " omitted typed error data")
      | Some (Err error) => invalid_projection ("Malformed Session error data: " +:+ error)
      | Some (Ok data) =>
          match ErrorData_validate data with
          | Err message => invalid_projection ("Invalid Session error data: " +:+ message)
          | Ok _ =>
              default (invalid_projection ("Session error data does not match JSON-RPC code " +:+ pretty (rem_code remote)))
                (typed_error (rem_code remote) data)
          end
      end
  end.

(** ** Options *)

Definition DEFAULT_SESSION_LIST_PAGE_LIMIT : N := 64.
Definition DEFAULT_SESSION_HISTORY_PAGE_LIMIT : N := 128.

Definition checked_limit (value maximum : N) (field : string) : Answered N :=
  if (value =? 0)%N || (maximum <? value)%N
  then Err (invalid_option field ("must be between 1 and " +:+ pretty maximum)) else Ok value.

Record SessionListOptions := { slo_cursor : option string; slo_limit : N }.
Definition SessionListOptions_new (limit : N) : Answered SessionListOptions :=
  limit ← checked_limit limit MAX_SESSION_LIST_PAGE_LIMIT "limit";
  Ok {| slo_cursor := None; slo_limit := limit |}.
Definition with_cursor (self : SessionListOptions) (cursor : string) : SessionListOptions :=
  {| slo_cursor := Some cursor; slo_limit := slo_limit self |}.

Record SessionHistoryOptions := {
  sho_before : option SessionHistoryAnchor;
  sho_cursor : option string;
  sho_limit : N;
}.
Definition SessionHistoryOptions_new (limit : N) : Answered SessionHistoryOptions :=
  limit ← checked_limit limit MAX_SESSION_HISTORY_PAGE_LIMIT "limit";
  Ok {| sho_before := None; sho_cursor := None; sho_limit := limit |}.

Definition before (self : SessionHistoryOptions) (anchor : SessionHistoryAnchor) : Answered SessionHistoryOptions :=
  reject_if (is_some (sho_cursor self))
    (invalid_option "before" "history anchor and page cursor are mutually exclusive");;
  map_err (invalid_option "before") (SessionHistoryAnchor_validate anchor);;
  Ok {| sho_before := Some anchor; sho_cursor := sho_cursor self; sho_limit := sho_limit self |}.

(** [cursor.validate()] is [validate_token]. *)
Definition continue_from (self : SessionHistoryOptions) (cursor : string) : Answered SessionHistoryOptions :=
  reject_if (is_some (sho_before self))
    (invalid_option "cursor" "history page cursor and anchor are mutually exclusive");;
  map_err (invalid_option "cursor") (validate_token cursor "Session history page cursor");;
  Ok {| sho_before := sho_before self; sho_cursor := Some cursor; sho_limit := sho_limit self |}.

Record SessionManagementWatchOptions := { mwo_history_limit : N; mwo_subscription : SubscriptionOptions }.
Definition SessionManagementWatchOptions_new (history_limit : N) (subscription : SubscriptionOptions) :
    Answered SessionManagementWatchOptions :=
  history_limit ← checked_limit history_limit MAX_SESSION_HISTORY_LIMIT "history_limit";
  Ok {| mwo_history_limit := history_limit; mwo_subscription := subscription |}.

(** ** Requests

    [initialized] is what [initialize] answers: the advertised capabilities. *)

Definition CAPABILITY_SESSION_CATALOG : string := "session_catalog.v1".
Definition CAPABILITY_SESSION_HISTORY : string := "session_history.v1".
Definition CAPABILITY_SESSION_METADATA_CAS : string := "session_metadata_cas.v1".
Definition CAPABILITY_SESSION_LIFECYCLE_REPLAY : string := "session_lifecycle_replay.v1".

Definition require_management_capability (initialized : result SdkError (list string)) (capability : string) :
    Answered () :=
  capabilities ← map_err SmSdk initialized;
  reject_if (negb (existsb (λ advertised, advertised == capability) capabilities)) (SmUnsupportedCapability capability).

Section requests.
Context `{Externals} `{ManagementExternals}.

Definition list_sessions (initialized : result SdkError (list string)) (options : SessionListOptions)
    (request : ListSessionsParams → Reply ListSessionsResult) : Answered ListSessionsResult :=
  require_management_capability initialized CAPABILITY_SESSION_CATALOG;;
  let params := {| ls_cursor := slo_cursor options; ls_limit := slo_limit options |} in
  map_err (invalid_option "cursor") (ListSessionsParams_validate params);;
  answer ← map_err map_request_error (request params);
  map_err invalid_projection (list_validate_for answer params);;
  Ok answer.

(** [WhaleClient::session_view]; a handle is its thread. *)
Definition session_view (thread_id : string) : Answered string :=
  map_err (invalid_option "thread_id") (GetSessionV2Params_validate {| g2_thread_id := thread_id; g2_history_limit := 1 |});;
  Ok thread_id.

Definition history_page_request (initialized : result SdkError (list string)) (thread_id : string)
    (options : SessionHistoryOptions) (request : GetSessionHistoryParams → Reply GetSessionHistoryResult) :
    Answered GetSessionHistoryResult :=
  require_management_capability initialized CAPABILITY_SESSION_HISTORY;;
  let params := {| gh_thread_id := thread_id; gh_before := sho_before options; gh_cursor := sho_cursor options;
                   gh_limit := sho_limit options |} in
  map_err (invalid_option "history") (GetSessionHistoryParams_validate params);;
  answer ← map_err map_request_error (request params);
  map_err invalid_projection (history_validate_for answer params);;
  Ok answer.

Definition get_session_snapshot_v2 (thread_id : string) (history_limit : N)
    (request : GetSessionV2Params → Reply SessionSnapshotV2) : Answered SessionSnapshotV2 :=
  let params := {| g2_thread_id := thread_id; g2_history_limit := history_limit |} in
  map_err (invalid_option "history_limit") (GetSessionV2Params_validate params);;
  snapshot ← map_err map_request_error (request params);
  map_err invalid_projection (SessionSnapshotV2_validate snapshot);;
  reject_if ((s2_thread_id (v2_summary snapshot) != thread_id) || (hw_capacity (v2_history snapshot) != history_limit))
    (invalid_projection "Daemon returned a V2 snapshot for another Session or history capacity");;
  Ok snapshot.

(** [SessionViewHandle::snapshot] *)
Definition handle_snapshot (initialized : result SdkError (list string)) (thread_id : string)
    (request : GetSessionV2Params → Reply SessionSnapshotV2) : Answered SessionSnapshotV2 :=
  require_management_capability initialized CAPABILITY_SESSION_LIFECYCLE_REPLAY;;
  get_session_snapshot_v2 thread_id 256 request.

Definition get_session_replay_page_v2 (params : SubscribeSessionV2Params) (reply : Reply SubscribeSessionV2Result) :
    Answered SubscribeSessionV2Result :=
  map_err (invalid_option "cursor") (SubscribeSessionV2Params_validate params);;
  answer ← map_err map_request_error reply;
  map_err invalid_projection (subscribe_validate_for answer params);;
  Ok answer.

Definition ensure_session_writable_v2 (lifecycle : option SessionLifecycleState) : Answered () :=
  match lifecycle with
  | Some LifecycleOpen => Ok ()
  | Some lifecycle => Err (SmSessionNotOpen lifecycle)
  | None => Err SmSessionUnavailable
  end.

Definition session_not_open_error (lifecycle : option SessionLifecycleState) : SessionManagementError :=
  match lifecycle with
  | Some LifecycleOpen | None => SmSessionUnavailable
  | Some lifecycle => SmSessionNotOpen lifecycle
  end.

(** [WhaleThread::replace_metadata]: [lifecycle] and [later] are what
    [session_lifecycle_v2] reads before and after the request. *)
Definition replace_metadata (initialized : result SdkError (list string)) (lifecycle later : option SessionLifecycleState)
    (thread_id : string) (expected_view_revision : N) (metadata : Map)
    (request : ReplaceSessionMetadataParams → Reply ReplaceSessionMetadataResult) :
    Answered ReplaceSessionMetadataResult :=
  require_management_capability initialized CAPABILITY_SESSION_METADATA_CAS;;
  ensure_session_writable_v2 lifecycle;;
  let params := {| rm_thread_id := thread_id; rm_expected_view_revision := expected_view_revision;
                   rm_metadata := metadata |} in
  map_err (invalid_option "metadata") (ReplaceSessionMetadataParams_validate params);;
  answer ← match map_err map_request_error (request params) with
           | Err (SmSdk (SdkSessionClosed _)) => Err (session_not_open_error later)
           | answer => answer
           end;
  map_err invalid_projection (metadata_validate_for answer params);;
  Ok answer.

(** ** The worker of a subscription *)

Definition is_next_cursor_v2 (previous next : SessionCursorV2) : bool :=
  same_stream_v2 previous next && is_some_and (checked_add (cv_seq previous) 1) (λ expected, expected == cv_seq next).

Definition is_closed_event_v2 (event : SessionEventEnvelopeV2) : bool :=
  match ev2_payload event with V2LifecycleChanged LifecycleClosed => true | _ => false end.

Definition reason_text (reason : ReplayGapReasonV2) : string :=
  match reason with RetentionV2 => "Retention" | StreamResetV2 => "StreamReset" end.
Definition replay_gap_error (gap : ReplayGapV2) : SessionManagementError :=
  invalid_projection ("V2 Session replay requires a fresh snapshot (" +:+ reason_text (gap2_reason gap) +:+ ")").

Definition StreamItemV2 := Answered SessionEventEnvelopeV2.

(** What ends the loop of [enqueue_event_v2] over the events of a page. *)
Inductive DeliveryV2 := DeliveredV2 | InterruptedV2 | BrokenV2 (message : string).

Fixpoint deliver_page (last : SessionCursorV2) (room : option nat) (events : list SessionEventEnvelopeV2) :
    list SessionEventEnvelopeV2 * SessionCursorV2 * DeliveryV2 :=
  match events with
  | [] => ([], last, DeliveredV2)
  | e :: events =>
      if negb (is_next_cursor_v2 last (ev2_cursor e)) then
        ([], last, BrokenV2 ("V2 replay event is not contiguous after Session cursor " +:+ pretty (cv_seq last)))
      else match room with
           | Some O => ([], last, InterruptedV2)
           | _ => let '(sent, last', d) := deliver_page (ev2_cursor e) (pred <$> room) events in (e :: sent, last', d)
           end
  end.

(** [FinishedV2]: the session's closed event was delivered and the hub unregistered. *)
Inductive WorkerV2 :=
  | RequestingV2 (last : SessionCursorV2) (params : SubscribeSessionV2Params)
  | FollowingV2 (last : SessionCursorV2)
  | StoppedV2 (last : SessionCursorV2)
  | FinishedV2 (last : SessionCursorV2).

Definition worker_cursor_v2 (w : WorkerV2) : SessionCursorV2 :=
  match w with RequestingV2 last _ | FollowingV2 last | StoppedV2 last | FinishedV2 last => last end.

(** [send_worker_error_v2]; [heard] is false when the termination comes first. *)
Definition fail_v2 (heard : bool) (sent : list SessionEventEnvelopeV2) (last : SessionCursorV2)
    (error : SessionManagementError) : list StreamItemV2 * WorkerV2 :=
  ((Ok <$> sent) ++ (if heard then [Err error] else []), StoppedV2 last).

(** One turn of the loop of [replay_fixed_window_v2]. *)
Definition handle_page_v2 (thread_id : string) (page_size : N) (last : SessionCursorV2) (params : SubscribeSessionV2Params)
    (page : SubscribeSessionV2Result) (room : option nat) (heard : bool) : list StreamItemV2 * WorkerV2 :=
  match subscribe_validate_for page params with
  | Err message => fail_v2 heard [] last (invalid_projection message)
  | Ok _ =>
      match page2_gap page with
      | Some gap => fail_v2 heard [] last (replay_gap_error gap)
      | None =>
          if page2_has_more page && (page2_resume_after page == u2_after params) then
            fail_v2 heard [] last (invalid_projection "V2 replay page claimed more events without advancing its cursor")
          else
            let '(sent, last, delivery) := deliver_page last room (page2_events page) in
            match delivery with
            | BrokenV2 message => fail_v2 heard sent last (invalid_projection message)
            | InterruptedV2 => (Ok <$> sent, StoppedV2 last)
            | DeliveredV2 =>
                (Ok <$> sent,
                 if page2_has_more page then
                   RequestingV2 last {| u2_thread_id := thread_id; u2_after := page2_resume_after page;
                                        u2_through := Some (page2_through page); u2_limit := page_size |}
                 else if page2_lifecycle page != LifecycleClosed then FollowingV2 last else FinishedV2 last)
            end
      end
  end.

(** The parameters of the first page of a window. *)
Definition window_params_v2 (thread_id : string) (page_size : N) (last : SessionCursorV2) : SubscribeSessionV2Params :=
  {| u2_thread_id := thread_id; u2_after := last; u2_through := None; u2_limit := page_size |}.

Inductive WorkerLabelV2 :=
  | OnPageV2 (reply : Reply SubscribeSessionV2Result) (room : option nat) (heard : bool)
  | OnEventV2 (event : SessionEventEnvelopeV2) (accepted : bool)
  | OnCatchUpV2
  | OnLaggedV2
  | OnClosedV2
  | OnTerminationV2.

(** [run_subscription_worker_v2] *)
Definition worker_step_v2 (thread_id : string) (page_size : N) (w : WorkerV2) (label : WorkerLabelV2) :
    option (list StreamItemV2 * WorkerV2) :=
  match w, label with
  | RequestingV2 last params, OnPageV2 reply room heard =>
      Some (match get_session_replay_page_v2 params reply with
            | Err error => fail_v2 heard [] last error
            | Ok page => handle_page_v2 thread_id page_size last params page room heard
            end)
  | FollowingV2 last, OnEventV2 event accepted =>
      Some (if same_stream_v2 (ev2_cursor event) last && (cv_seq (ev2_cursor event) <=? cv_seq last)%N
            then ([], FollowingV2 last)
            else if is_next_cursor_v2 last (ev2_cursor event) then
              if accepted
              then ([Ok event], if is_closed_event_v2 event then FinishedV2 (ev2_cursor event)
                                else FollowingV2 (ev2_cursor event))
              else ([], StoppedV2 last)
            else ([], RequestingV2 last (window_params_v2 thread_id page_size last)))
  | FollowingV2 last, (OnCatchUpV2 | OnLaggedV2) =>
      Some ([], RequestingV2 last (window_params_v2 thread_id page_size last))
  | FollowingV2 last, OnClosedV2 => Some ([], StoppedV2 last)
  | (RequestingV2 last _ | FollowingV2 last), OnTerminationV2 => Some ([], StoppedV2 last)
  | _, _ => None
  end.

(** [SessionViewHandle::watch]: [live] is the subscription to the hub. *)
Definition handle_watch (initialized : result SdkError (list string)) (thread_id : string)
    (options : SessionManagementWatchOptions) (live : result SdkError ())
    (request : GetSessionV2Params → Reply SessionSnapshotV2) : Answered (SessionSnapshotV2 * WorkerV2) :=
  require_management_capability initialized CAPABILITY_SESSION_LIFECYCLE_REPLAY;;
  map_err SmSdk live;;
  snapshot ← get_session_snapshot_v2 thread_id (mwo_history_limit options) request;
  let cursor := v2_cursor snapshot in
  Ok (snapshot, RequestingV2 cursor (window_params_v2 thread_id (so_replay_page_size (mwo_subscription options)) cursor)).

(** [SessionViewHandle::subscribe_from]: the worker and the page it starts with. *)
Definition handle_subscribe_from (initialized : result SdkError (list string)) (thread_id : string)
    (cursor : SessionCursorV2) (options : SubscriptionOptions) (live : result SdkError ())
    (request : SubscribeSessionV2Params → Reply SubscribeSessionV2Result) :
    Answered (WorkerV2 * SubscribeSessionV2Result) :=
  require_management_capability initialized CAPABILITY_SESSION_LIFECYCLE_REPLAY;;
  map_err (invalid_option "cursor") (SessionCursorV2_validate cursor);;
  reject_if (cv_thread_id cursor != thread_id) (invalid_option "cursor" "V2 Session cursor belongs to another thread");;
  map_err SmSdk live;;
  let params := window_params_v2 thread_id (so_replay_page_size options) cursor in
  page ← get_session_replay_page_v2 params (request params);
  match page2_gap page with
  | Some gap => Err (replay_gap_error gap)
  | None => Ok (RequestingV2 cursor params, page)
  end.
End requests.

(** ** The stream handed to the application *)

(** [SessionHubTerminationV2] has one constructor, [ConnectionLost]. *)
Definition into_stream_item_v2 (message : string) : option StreamItemV2 := Some (Err (SmSdk (SdkChannelClosed message))).

Record SessionEventStreamV2 := { es2_ended : bool; es2_last_received : option SessionCursorV2 }.

(** What the [select!] of [recv] sees; at the end of the worker the termination is
    read once more. *)
Inductive StreamPollV2 :=
  | PollHubStoppedV2
  | PollTerminationV2
  | PollItemV2 (item : StreamItemV2)
  | PollWorkerEndV2 (termination : option string).

(** One turn of the loop of [SessionEventStreamV2::recv]: [inr] is a returned value. *)
Definition stream_recv_v2 (self : SessionEventStreamV2) (termination : option string) (poll : StreamPollV2) :
    SessionEventStreamV2 * (() + option StreamItemV2) :=
  let ended := {| es2_ended := true; es2_last_received := es2_last_received self |} in
  if es2_ended self then (self, inr None) else
  match termination with
  | Some t => (ended, inr (into_stream_item_v2 t))
  | None =>
      match poll with
      | PollHubStoppedV2 => (ended, inr (Some (Err (SmSdk (SdkChannelClosed "V2 Session event hub stopped")))))
      | PollTerminationV2 => (self, inl ())
      | PollItemV2 (Ok event) =>
          ({| es2_ended := false; es2_last_received := Some (ev2_cursor event) |}, inr (Some (Ok event)))
      | PollItemV2 (Err error) => (ended, inr (Some (Err error)))
      | PollWorkerEndV2 (Some t) => (ended, inr (into_stream_item_v2 t))
      | PollWorkerEndV2 None => (ended, inr None)
      end
  end.
