(* ===== verification/SdkFollowV2.v ===== *)
(** * The daemon's management projection and a subscriber

    The composition of [ManagementProjection] with the worker of [SdkManagement]. The
    log of a projection is everything it has published; the worker's requests are
    answered by the projection as it is by then, while the live channel delivers
    published events in any order, repeated or not at all, and those of later streams
    of the same session. *)

From stdpp Require Import relations.
From S2P Require Import Prelude Protocol StoreState StoreConfig SessionViews ViewJournal ViewLaws SessionManagement SessionCatalog ManagementProjection ManagementLaws SdkViews SdkManagement.

Section follow.
Context `{Externals} `{ManagementExternals} (thread_id : string) (page_size : N).
Implicit Types (p : ManagementProjection) (log : list SessionEventEnvelopeV2) (w : WorkerV2) (out : list StreamItemV2).

(** ** The log of a projection *)

(** A projection as it was created, and after publications and retirements. *)
Inductive Projected : ManagementProjection → list SessionEventEnvelopeV2 → Prop :=
  | projected_start summary persistence history thread stream :
      let cursor := {| cv_thread_id := thread; cv_stream_id := stream; cv_seq := 0 |} in
      let snapshot := SessionSnapshotV2_new summary LifecycleOpen persistence history cursor in
      SessionSnapshotV2_validate snapshot = Ok () →
      Projected {| mp_snapshot := snapshot; mp_journal := []; mp_journal_bytes := 0; mp_replay_floor := cursor;
                   mp_run_identities := ∅ |} []
  | projected_publication p log occurred_at_ms payload run_identity pm :
      Projected p log → prepare_v2 p occurred_at_ms payload run_identity = Ok pm →
      Projected (pm_next pm) (log ++ [pm_envelope pm])
  | projected_retirement p log turn_id identity p' :
      Projected p log → prepare_retire_run_v2 p turn_id identity = Some p' → Projected p' log.

Record LogOk p log : Prop := {
  lo_ok : ProjectionOk p;
  lo_length : cv_seq (mp_cursor p) = N.of_nat (length log);
  lo_events : ∀ i e, log !! i = Some e →
    same_place_v2 (mp_cursor p) (ev2_cursor e) ∧ cv_seq (ev2_cursor e) = N.of_nat (S i);
  lo_journal : j2_envelope <$> mp_journal p = drop (N.to_nat (cv_seq (mp_replay_floor p))) log;
  lo_closed : ∀ i e, log !! i = Some e → is_closed_event_v2 e = true → S i = length log;
  lo_lifecycle : v2_lifecycle (mp_snapshot p) = LifecycleClosed ↔ ∃ e, last log = Some e ∧ is_closed_event_v2 e = true;
}.

(** What is left of the journal is the end of the log. *)
Lemma suffix_of_drop {A} (l : list A) pre rest n :
  l = pre ++ rest → length l = n + length rest → rest = drop n l.
Proof. intros -> Hn. rewrite length_app in Hn. by rewrite drop_app_length' by lia. Qed.

Lemma journal_length p : ProjectionOk p →
  N.of_nat (length (mp_journal p)) = (cv_seq (mp_cursor p) - cv_seq (mp_replay_floor p))%N
  ∧ (cv_seq (mp_replay_floor p) <= cv_seq (mp_cursor p))%N.
Proof. intros [_ _ [_ He _] _ _ _]. rewrite He. lia. Qed.

Lemma log_journal p log pre :
  ProjectionOk p → cv_seq (mp_cursor p) = N.of_nat (length log) → log = pre ++ (j2_envelope <$> mp_journal p) →
  j2_envelope <$> mp_journal p = drop (N.to_nat (cv_seq (mp_replay_floor p))) log.
Proof.
  intros Hok Hlen Hlog. destruct (journal_length _ Hok) as [Hj Hle]. eapply suffix_of_drop; [exact Hlog|].
  rewrite length_fmap. lia.
Qed.

Lemma retained_suffix p e bytes run_id :
  ∃ pre, (j2_envelope <$> mp_journal p) ++ [e] = pre ++ (j2_envelope <$> mp_journal (retain p e bytes run_id)).
Proof.
  unfold retain. destruct (_ <? bytes)%N; simpl; [eexists; by rewrite app_nil_r|].
  destruct (evict_v2 _ _ _) as [[journal' bytes'] floor'] eqn:He. simpl.
  assert (∀ journal b f j' b' f', evict_v2 journal b f = (j', b', f') → ∃ pre, journal = pre ++ j') as Hev.
  { intros journal. induction journal as [|x journal IH]; intros b f j' b' f' Hx; simpl in Hx.
    - injection Hx as <- <- <-. by exists [].
    - destruct (_ || _); [|injection Hx as <- <- <-; by exists []].
      destruct (IH _ _ _ _ _ Hx) as [pre ->]. by exists (x :: pre). }
  destruct (Hev _ _ _ _ _ _ He) as [pre Hpre]. exists (j2_envelope <$> pre).
  by rewrite <-fmap_app, <-Hpre, fmap_app.
Qed.

Lemma publication_LogOk p log ts payload rid pm :
  LogOk p log → prepare_v2 p ts payload rid = Ok pm → LogOk (pm_next pm) (log ++ [pm_envelope pm]).
Proof.
  intros [Hok Hlen Hev Hj Hcl Hlc] Hp. pose proof (prepare_v2_Prepared _ _ _ _ _ Hp) as Hpd.
  pose proof (prepared_ok _ _ _ _ _ Hok Hpd) as Hok'. destruct Hpd as [_ Happ _ _ _ _ (bytes & run_id & Hjr & _)].
  destruct (applied_frame _ _ _ Happ) as (Hcur & _ & _ & _ & _ & Hpay). destruct Happ as [_ _ _ Hopen Hn _].
  apply checked_next_v2_Ok in Hn as (_ & Hpl & Hs & _). fold (mp_cursor p) in Hpl, Hs. fold (mp_cursor (pm_next pm)) in Hcur.
  assert (cv_seq (mp_cursor (pm_next pm)) = N.of_nat (length (log ++ [pm_envelope pm]))) as Hlen'.
  { rewrite Hcur, length_app. simpl. lia. }
  assert (∀ i e, log !! i = Some e → is_closed_event_v2 e = true → False) as Hnone.
  { intros i e Hi He. apply Hopen, Hlc. exists e. split; [|done]. rewrite last_lookup, <-(Hcl _ _ Hi He). done. }
  constructor; try done.
  - rewrite Hcur. intros i e [Hi|[Hi Hx]]%lookup_app_Some.
    + destruct (Hev _ _ Hi) as [Hp1 Hs1]. split; [|done]. etrans; [symmetry; exact Hpl|done].
    + apply list_lookup_singleton_Some in Hx as [? <-]. split; [done|lia].
  - destruct (retained_suffix {| mp_snapshot := mp_snapshot (pm_next pm); mp_journal := mp_journal p;
        mp_journal_bytes := mp_journal_bytes p; mp_replay_floor := mp_replay_floor p;
        mp_run_identities := mp_run_identities p |} (pm_envelope pm) bytes run_id) as [pre Hpre].
    eapply log_journal; [done|done|]. rewrite Hjr.
    rewrite <-(take_drop (N.to_nat (cv_seq (mp_replay_floor p))) log) at 1. rewrite <-Hj, <-app_assoc. simpl in Hpre.
    rewrite Hpre, app_assoc. done.
  - intros i e [Hi|[Hi Hx]]%lookup_app_Some He; [by destruct (Hnone _ _ Hi He)|].
    apply list_lookup_singleton_Some in Hx as [? <-]. rewrite length_app. simpl. lia.
  - rewrite last_snoc. split.
    + intros Hc. exists (pm_envelope pm). split; [done|]. unfold is_closed_event_v2.
      destruct (ev2_payload (pm_envelope pm)); [congruence|congruence|destruct Hpay; congruence|].
      destruct Hpay as (Hl & _). rewrite <-Hl, Hc. done.
    + intros (e & [= <-] & He). unfold is_closed_event_v2 in He.
      destruct (ev2_payload (pm_envelope pm)) as [| | |[]]; try done. by destruct Hpay.
Qed.

Lemma retirement_LogOk p log id i p' : LogOk p log → prepare_retire_run_v2 p id i = Some p' → LogOk p' log.
Proof.
  intros [Hok Hlen Hev Hj Hcl Hlc] Hp. destruct (retire_v2_ok _ _ _ _ Hok Hp) as (Hok' & Hsnap & _).
  assert (mp_cursor p' = mp_cursor p) as Hcur by (unfold mp_cursor; by rewrite Hsnap).
  constructor; rewrite ?Hcur, ?Hsnap; try done.
  assert (∃ pre, mp_journal p = pre ++ mp_journal p') as [pre Hpre].
  { unfold prepare_retire_run_v2 in Hp. destruct (_ || _); [done|].
    destruct (last_of_run_v2 _ _) as [t|]; [|injection Hp as <-; by exists []].
    assert (∀ journal b, ∃ pre, journal = pre ++ (pop_through_v2 t journal b).1) as Hpop.
    { intros journal. induction journal as [|x journal IH]; intros b; simpl; [by exists []|].
      destruct (_ <=? _)%N; [|by exists []]. destruct (IH (b - j2_bytes x)%N) as [pre Hx].
      exists (x :: pre). by rewrite Hx at 1. }
    destruct (Hpop (mp_journal p) (mp_journal_bytes p)) as [pre Hx].
    destruct (pop_through_v2 _ _ _) as [journal bytes]. injection Hp as <-. by exists pre. }
  eapply log_journal; [done|by rewrite Hcur|].
  rewrite <-(take_drop (N.to_nat (cv_seq (mp_replay_floor p))) log) at 1. rewrite <-Hj, Hpre, fmap_app, app_assoc. done.
Qed.

Lemma Projected_LogOk p log : Projected p log → LogOk p log.
Proof.
  induction 1; [|by eapply publication_LogOk|by eapply retirement_LogOk].
  constructor; try done; [by apply initial_projection_ok|split; [done|by intros (? & ? & ?)]].
Qed.

Lemma log_width p log : LogOk p log → (N.of_nat (length log) <= u64_max)%N.
Proof. intros Hl. rewrite <-(lo_length _ _ Hl). apply (pr_width _ (lo_ok _ _ Hl)). Qed.

(** ** What a page says *)

Lemma segment_drop {A} (l : list A) (n a b : N) :
  (n <= a <= b)%N → segment (drop (N.to_nat n) l) (a - n) (b - n) = segment l a b.
Proof. intros Hle. unfold segment. rewrite drop_drop. f_equal; [lia|]. f_equal. lia. Qed.

Lemma fmap_segment {A B} (f : A → B) (l : list A) a b : f <$> segment l a b = segment (f <$> l) a b.
Proof. unfold segment. by rewrite fmap_take, fmap_drop. Qed.

(** The events of a page are a part of the log. *)
Lemma page_segment p log (a t limit : N) :
  LogOk p log → (cv_seq (mp_replay_floor p) <= a <= t)%N → (t <= cv_seq (mp_cursor p))%N →
  page_v2 p a t limit = segment log a (N.min t (a + limit)).
Proof.
  intros [[_ _ Hjo _ _ _] _ _ Hj _ _] Hle Hle'. unfold page_v2.
  rewrite (follows_filter _ _ _ _ _ _ Hjo) by lia.
  rewrite fmap_segment, Hj, segment_drop, take_segment by lia. f_equal. lia.
Qed.

(** The cursor after a part of the log. *)
Lemma segment_end p log (start : SessionCursorV2) (t : N) :
  LogOk p log → same_place_v2 (mp_cursor p) start → (cv_seq start <= t <= N.of_nat (length log))%N →
  let resume := default start (ev2_cursor <$> last (segment log (cv_seq start) t)) in
  same_place_v2 start resume ∧ cv_seq resume = t.
Proof.
  intros Hl Hp Hle resume. subst resume. destruct (decide (t = cv_seq start)) as [->|Hne].
  { rewrite segment_nil by lia. done. }
  destruct (lookup_lt_is_Some_2 log (N.to_nat (t - 1))) as [e He]; [lia|].
  assert (segment log (t - 1) t = [e]) as Hlast.
  { replace t with (t - 1 + 1)%N at 2 by lia. by apply segment_lookup. }
  rewrite (segment_app _ _ (t - 1) t), Hlast, last_snoc by lia. simpl.
  destruct (lo_events _ _ Hl _ _ He) as [Hpe Hs]. split; [etrans; [symmetry; exact Hp|done]|lia].
Qed.

(** A page calls the session closed only at the end of the log of a closed session. *)
Lemma scan_closed journal (through : N) l :
  scan_lifecycle journal through l = LifecycleClosed →
  l = LifecycleClosed ∨ ∃ e, e ∈ journal ∧ (j2_seq e <= through)%N ∧ is_closed_event_v2 (j2_envelope e) = true.
Proof.
  revert l. induction journal as [|x journal IH]; intros l; simpl; [by left|].
  destruct (N.ltb_spec through (j2_seq x)); [by left|]. intros [Hc|(e & He & ? & ?)]%IH.
  - destruct (ev2_payload (j2_envelope x)) eqn:Hx; try by left. right. exists x.
    split_and!; [left|done|]. unfold is_closed_event_v2. by rewrite Hx, Hc.
  - right. exists e. split_and!; [by right|done|done].
Qed.

Lemma lifecycle_at_closed p log (through : N) :
  LogOk p log → (through <= cv_seq (mp_cursor p))%N → lifecycle_at p through = LifecycleClosed →
  through = N.of_nat (length log) ∧ v2_lifecycle (mp_snapshot p) = LifecycleClosed.
Proof.
  intros Hl Hle. pose proof (lo_length _ _ Hl) as Hlen. unfold lifecycle_at.
  destruct (N.eqb_spec through (cv_seq (mp_cursor p))); [by split; [lia|]|].
  intros [?|(e & He & Hs & Hc)]%scan_closed; [done|exfalso].
  assert (j2_envelope e ∈ log) as [i Hi]%list_elem_of_lookup.
  { apply (list_elem_of_fmap_2 j2_envelope) in He. rewrite (lo_journal _ _ Hl) in He.
    apply list_elem_of_lookup in He as [i Hi]. rewrite lookup_drop in Hi. by eapply list_elem_of_lookup_2. }
  pose proof (lo_closed _ _ Hl _ _ Hi Hc). destruct (lo_events _ _ Hl _ _ Hi) as [_ Hsi]. unfold j2_seq in Hs. lia.
Qed.

(** ** Delivery *)

Lemma is_next_cursor_v2_true c c' :
  is_next_cursor_v2 c c' = true ↔ same_place_v2 c c' ∧ cv_seq c' = (cv_seq c + 1)%N ∧ (cv_seq c' <= u64_max)%N.
Proof.
  unfold is_next_cursor_v2. rewrite andb_true_iff, same_stream_v2_true.
  destruct (checked_add (cv_seq c) 1) as [n|] eqn:Hn; simpl.
  - apply checked_add_Some in Hn as [-> ?]. rewrite bool_decide_eq_true. naive_solver lia.
  - apply checked_add_None in Hn. naive_solver lia.
Qed.

(** The worker forwards a part of the log from its cursor on. *)
Lemma deliver_segment p log last room (t : N) sent last' d :
  LogOk p log → same_place_v2 (mp_cursor p) last → (cv_seq last <= t <= N.of_nat (length log))%N →
  deliver_page last room (segment log (cv_seq last) t) = (sent, last', d) →
  sent = segment log (cv_seq last) (cv_seq last') ∧ (cv_seq last <= cv_seq last' <= t)%N ∧ same_place_v2 last last' ∧
  (∀ m, d ≠ BrokenV2 m) ∧ (d = DeliveredV2 → cv_seq last' = t) ∧ (room = None → d = DeliveredV2).
Proof.
  intros Hl. pose proof (log_width _ _ Hl) as Hw. remember (N.to_nat (t - cv_seq last)) as n eqn:Hn.
  revert last room sent last' d Hn. induction n as [|n IH]; intros last room sent last' d Hn Hp Hle Hd.
  { assert (t = cv_seq last) as -> by lia. rewrite segment_nil in Hd by lia. injection Hd as <- <- <-.
    rewrite segment_nil by lia. done. }
  destruct (lookup_lt_is_Some_2 log (N.to_nat (cv_seq last))) as [e He]; [lia|].
  destruct (lo_events _ _ Hl _ _ He) as [Hpe Hse].
  assert (same_place_v2 last (ev2_cursor e)) as Hle' by (etrans; [symmetry; exact Hp|done]).
  rewrite (segment_cons _ _ _ e) in Hd by (done || lia). simpl in Hd.
  rewrite (proj2 (is_next_cursor_v2_true _ _)) in Hd by (split; [done|lia]). simpl in Hd.
  assert (∀ rm, (let '(s, l, dd) := deliver_page (ev2_cursor e) rm (segment log (cv_seq last + 1) t) in (e :: s, l, dd))
    = (sent, last', d) → (room = None → rm = None) →
    sent = segment log (cv_seq last) (cv_seq last') ∧ (cv_seq last <= cv_seq last' <= t)%N ∧ same_place_v2 last last' ∧
    (∀ m, d ≠ BrokenV2 m) ∧ (d = DeliveredV2 → cv_seq last' = t) ∧ (room = None → d = DeliveredV2)) as Hrec.
  { intros rm Hr Hrm. replace (cv_seq last + 1)%N with (cv_seq (ev2_cursor e)) in Hr by lia.
    destruct (deliver_page (ev2_cursor e) rm _) as [[s l] dd] eqn:Hs. injection Hr as <- <- <-.
    destruct (IH (ev2_cursor e) _ _ _ _ ltac:(lia) Hpe ltac:(lia) Hs) as (-> & ? & Hpl & ? & ? & Hroom).
    rewrite (segment_cons log (cv_seq last) (cv_seq l) e) by (done || lia).
    replace (cv_seq last + 1)%N with (cv_seq (ev2_cursor e)) by lia.
    split_and!; first [done|lia|by etrans|by intros ?%Hrm%Hroom]. }
  destruct room as [[|k]|]; [|by eapply Hrec..]. injection Hd as <- <- <-.
  rewrite segment_nil by lia. split_and!; first [done|lia].
Qed.

(** ** The system *)

Record SystemV2 := {
  sy2_projection : ManagementProjection;
  sy2_log : list SessionEventEnvelopeV2;
  sy2_worker : WorkerV2;
  sy2_out : list StreamItemV2;
}.

(** What the network lets the worker see: the daemon's page, or that of a later
    attachment of the session, or an error of the request; any event that was published
    and any of another stream. *)
Inductive observes_v2 p log w : WorkerLabelV2 → Prop :=
  | observes2_page last params page room heard :
      w = RequestingV2 last params → replay_v2 p params = Ok page → observes_v2 p log w (OnPageV2 (Ok page) room heard)
  | observes2_successor last params q page room heard :
      w = RequestingV2 last params → ProjectionOk q → cv_thread_id (mp_cursor q) = cv_thread_id (mp_cursor p) →
      cv_stream_id (mp_cursor q) ≠ cv_stream_id (mp_cursor p) → replay_v2 q params = Ok page →
      observes_v2 p log w (OnPageV2 (Ok page) room heard)
  | observes2_error error room heard : observes_v2 p log w (OnPageV2 (Err error) room heard)
  | observes2_event e accepted : e ∈ log → observes_v2 p log w (OnEventV2 e accepted)
  | observes2_foreign e accepted : ¬ same_place_v2 (mp_cursor p) (ev2_cursor e) → observes_v2 p log w (OnEventV2 e accepted)
  | observes2_catch_up : observes_v2 p log w OnCatchUpV2
  | observes2_lag : observes_v2 p log w OnLaggedV2
  | observes2_close : observes_v2 p log w OnClosedV2
  | observes2_termination : observes_v2 p log w OnTerminationV2.

Inductive system_step_v2 : SystemV2 → SystemV2 → Prop :=
  | daemon_publishes p log w out occurred_at_ms payload run_identity pm :
      prepare_v2 p occurred_at_ms payload run_identity = Ok pm →
      system_step_v2 {| sy2_projection := p; sy2_log := log; sy2_worker := w; sy2_out := out |}
        {| sy2_projection := pm_next pm; sy2_log := log ++ [pm_envelope pm]; sy2_worker := w; sy2_out := out |}
  | daemon_retires p log w out turn_id identity p' :
      prepare_retire_run_v2 p turn_id identity = Some p' →
      system_step_v2 {| sy2_projection := p; sy2_log := log; sy2_worker := w; sy2_out := out |}
        {| sy2_projection := p'; sy2_log := log; sy2_worker := w; sy2_out := out |}
  | worker_moves_v2 p log w out label items w' :
      observes_v2 p log w label → worker_step_v2 thread_id page_size w label = Some (items, w') →
      system_step_v2 {| sy2_projection := p; sy2_log := log; sy2_worker := w; sy2_out := out |}
        {| sy2_projection := p; sy2_log := log; sy2_worker := w'; sy2_out := out ++ items |}.

Definition received_v2 out : list SessionEventEnvelopeV2 :=
  omap (λ item, match item with Ok e => Some e | Err _ => None end) out.
Definition failures_v2 out : list SessionManagementError :=
  omap (λ item, match item with Ok _ => None | Err e => Some e end) out.

Lemma received_v2_Ok events : received_v2 (Ok <$> events) = events.
Proof. induction events as [|e events IH]; [done|]. unfold received_v2 in *. simpl. by f_equal. Qed.
Lemma failures_v2_Ok events : failures_v2 (Ok <$> events) = [].
Proof. by induction events. Qed.

(** The errors an honest daemon can cause. *)
Inductive honest_failure_v2 : SessionManagementError → Prop :=
  | failure2_gap gap : honest_failure_v2 (replay_gap_error gap)
  | failure2_request error : honest_failure_v2 (map_request_error error).

Inductive failures_ok_v2 w : list SessionManagementError → Prop :=
  | no_failure_v2 : failures_ok_v2 w []
  | one_failure_v2 last error : w = StoppedV2 last → honest_failure_v2 error → failures_ok_v2 w [error].

Definition page_size_valid_v2 : Prop := (0 < page_size <= MAX_SESSION_REPLAY_PAGE_LIMIT)%N.

(** A request of the worker. *)
Definition Asks p (w : WorkerV2) : Prop :=
  ∀ last params, w = RequestingV2 last params →
    u2_thread_id params = thread_id ∧ u2_after params = last ∧ u2_limit params = page_size ∧
    ∀ t, u2_through params = Some t → same_place_v2 (mp_cursor p) t ∧ (cv_seq last <= cv_seq t)%N.

Definition Ended p log (w : WorkerV2) : Prop :=
  ∀ last, w = FinishedV2 last → v2_lifecycle (mp_snapshot p) = LifecycleClosed ∧ cv_seq last = N.of_nat (length log).

Record WatchingV2 (start : N) p log w out : Prop := {
  w2_log : LogOk p log;
  w2_thread : cv_thread_id (mp_cursor p) = thread_id;
  w2_place : same_place_v2 (mp_cursor p) (worker_cursor_v2 w);
  w2_bounds : (start <= cv_seq (worker_cursor_v2 w) <= N.of_nat (length log))%N;
  w2_received : received_v2 out = segment log start (cv_seq (worker_cursor_v2 w));
  w2_asks : Asks p w;
  w2_ended : Ended p log w;
  w2_failures : failures_ok_v2 w (failures_v2 out);
}.

Lemma projection_cursor_valid p : ProjectionOk p → SessionCursorV2_validate (mp_cursor p) = Ok ().
Proof. intros Hok. apply snapshot_cursor_valid_v2, (pr_valid _ Hok). Qed.

Lemma asks_valid start p log last params out :
  page_size_valid_v2 → WatchingV2 start p log (RequestingV2 last params) out →
  SubscribeSessionV2Params_validate params = Ok ().
Proof.
  intros Hps [Hl Hth Hp _ _ Ha _ _]. destruct (Ha _ _ eq_refl) as (Htid & <- & Hlim & Hthr). simpl in Hp.
  pose proof (projection_cursor_valid _ (lo_ok _ _ Hl)) as Hv.
  assert (SessionCursorV2_validate (u2_after params) = Ok ()) as Hav by (by rewrite <-(cursor_v2_validate_place _ _ Hp)).
  pose proof Hav as Hid. unfold SessionCursorV2_validate in Hid. apply bind_Ok in Hid as ([] & Hid & _).
  unfold SubscribeSessionV2Params_validate, validate_bounded_limit. unfold page_size_valid_v2 in Hps. destruct Hp as [Hp1 Hp2].
  rewrite Htid, Hlim, <-Hth, Hp1, Hid, Hav. pass_guards.
  - destruct (u2_through params) as [t|]; [|done]. destruct (Hthr t eq_refl) as [Hpt Hle].
    rewrite <-(cursor_v2_validate_place _ _ Hpt), Hv. pass_guards.
    apply same_stream_v2_true. transitivity (mp_cursor p); [by split|done].
  - apply N.eqb_neq. lia.
Qed.

Lemma WatchingV2_publication start p log w out ts payload rid pm :
  WatchingV2 start p log w out → prepare_v2 p ts payload rid = Ok pm →
  WatchingV2 start (pm_next pm) (log ++ [pm_envelope pm]) w out.
Proof.
  intros [Hl Hth Hp Hb Hr Ha He Hf] Hpub. pose proof (publication_LogOk _ _ _ _ _ _ Hl Hpub) as Hl'.
  pose proof (pd_applied _ _ _ _ _ (prepare_v2_Prepared _ _ _ _ _ Hpub)) as Happ.
  destruct (applied_frame _ _ _ Happ) as (Hcur & _). pose proof (ap2_next _ _ _ Happ) as Hn.
  apply checked_next_v2_Ok in Hn as (_ & Hpl & _ & _). fold (mp_cursor p) in Hpl. fold (mp_cursor (pm_next pm)) in Hcur.
  rewrite <-Hcur in Hpl. pose proof (symmetry Hpl) as Hpl'.
  constructor; try done.
  - by destruct Hpl as [<- _].
  - by etrans.
  - rewrite length_app. lia.
  - by rewrite segment_prefix by lia.
  - intros last params Hw. destruct (Ha _ _ Hw) as (? & ? & ? & Hthr). split_and!; try done.
    intros t Ht. destruct (Hthr t Ht). split; [by etrans|done].
  - intros last Hw. destruct (He _ Hw) as [Hc _]. by destruct (ap2_open _ _ _ Happ).
Qed.

Lemma WatchingV2_retirement start p log w out id i p' :
  WatchingV2 start p log w out → prepare_retire_run_v2 p id i = Some p' → WatchingV2 start p' log w out.
Proof.
  intros [Hl Hth Hp Hb Hr Ha He Hf] Hret. pose proof (retirement_LogOk _ _ _ _ _ Hl Hret) as Hl'.
  destruct (retire_v2_ok _ _ _ _ (lo_ok _ _ Hl) Hret) as (_ & Hsnap & _).
  assert (mp_cursor p' = mp_cursor p) as Hcur by (unfold mp_cursor; by rewrite Hsnap).
  constructor; unfold Asks, Ended; rewrite ?Hcur, ?Hsnap; done.
Qed.

(** Appending what the worker emits. *)
Lemma WatchingV2_emit start p log w out sent last w' errors :
  WatchingV2 start p log w out → sent = segment log (cv_seq (worker_cursor_v2 w)) (cv_seq last) →
  (cv_seq (worker_cursor_v2 w) <= cv_seq last <= N.of_nat (length log))%N → same_place_v2 (worker_cursor_v2 w) last →
  worker_cursor_v2 w' = last → (∀ l, w ≠ StoppedV2 l) → Asks p w' → Ended p log w' →
  failures_ok_v2 w' (failures_v2 errors) → received_v2 errors = [] →
  WatchingV2 start p log w' (out ++ (Ok <$> sent) ++ errors).
Proof.
  intros [Hl Hth Hp Hb Hr _ _ Hf] -> Hle Hpl <- Hns Ha He Hf' Hre. constructor; try done; [by etrans|lia| |].
  - unfold received_v2 in *. rewrite !omap_app, Hr, Hre, app_nil_r.
    fold (received_v2 (Ok <$> segment log (cv_seq (worker_cursor_v2 w)) (cv_seq (worker_cursor_v2 w')))).
    rewrite received_v2_Ok. symmetry. apply segment_app. lia.
  - unfold failures_v2 in *. rewrite !omap_app.
    fold (failures_v2 (Ok <$> segment log (cv_seq (worker_cursor_v2 w)) (cv_seq (worker_cursor_v2 w')))).
    rewrite failures_v2_Ok. inversion Hf as [Hx|l e Hw ? Hx]; [done|by destruct (Hns l)].
Qed.

(** A move that delivers nothing. *)
Lemma WatchingV2_quiet start p log w w' out :
  WatchingV2 start p log w out → (∀ l, w ≠ StoppedV2 l) → worker_cursor_v2 w' = worker_cursor_v2 w →
  Asks p w' → Ended p log w' → WatchingV2 start p log w' (out ++ []).
Proof.
  intros Hw Hns Hc Ha He. pose proof (w2_bounds _ _ _ _ _ Hw).
  eapply (WatchingV2_emit _ _ _ _ _ [] (worker_cursor_v2 w) _ []); try done;
    [by rewrite segment_nil by lia|lia|constructor].
Qed.

Lemma fail_WatchingV2 start p log w out heard error items w' :
  WatchingV2 start p log w out → (∀ l, w ≠ StoppedV2 l) → honest_failure_v2 error →
  fail_v2 heard [] (worker_cursor_v2 w) error = (items, w') → WatchingV2 start p log w' (out ++ items).
Proof.
  intros Hw Hns He [= <- <-]. pose proof (w2_bounds _ _ _ _ _ Hw).
  eapply (WatchingV2_emit _ _ _ _ _ [] (worker_cursor_v2 w) _ (if heard then [Err error] else [])); try done;
    [by rewrite segment_nil by lia|lia| |].
  - destruct heard; [by econstructor|constructor].
  - by destruct heard.
Qed.

Lemma window_asks p last : Asks p (RequestingV2 last (window_params_v2 thread_id page_size last)).
Proof. by intros l params [= <- <-]. Qed.

(** A page that continues from the worker's cursor. *)
Lemma page_shape p log params page :
  LogOk p log → cv_thread_id (mp_cursor p) = u2_thread_id params → replay_v2 p params = Ok page → page2_gap page = None →
  let resume := page2_resume_after page in
  subscribe_validate_for page params = Ok () ∧
  page2_events page = segment log (cv_seq (u2_after params)) (cv_seq resume) ∧
  same_place_v2 (u2_after params) resume ∧ same_place_v2 (mp_cursor p) (page2_through page) ∧
  page2_through page = default (mp_cursor p) (u2_through params) ∧
  cv_seq resume = N.min (cv_seq (page2_through page)) (cv_seq (u2_after params) + u2_limit params) ∧
  (cv_seq (u2_after params) <= cv_seq (page2_through page) <= N.of_nat (length log))%N ∧
  page2_lifecycle page = lifecycle_at p (cv_seq (page2_through page)) ∧
  page2_has_more page = (cv_seq resume <? cv_seq (page2_through page))%N.
Proof.
  intros Hl Hth Hr Hgap resume. pose proof (replay_v2_validates _ _ _ (lo_ok _ _ Hl) Hth Hr) as Hv.
  destruct (replay_v2_Answer _ _ _ Hth Hr) as [_ Ha]. pose proof (lo_length _ _ Hl) as Hlen. subst resume.
  destruct Ha as [|through ? ? ->|through events Hp Hpt -> Hle Hc Hev]; [done..|]. simpl.
  rewrite (page_segment _ log) in Hev by (done || lia). subst events.
  pose proof (segment_end p log (u2_after params) (N.min (cv_seq (default (mp_cursor p) (u2_through params)))
    (cv_seq (u2_after params) + u2_limit params)) Hl (symmetry Hp) ltac:(lia)) as [Hpr Hs].
  split; [exact Hv|]. rewrite Hs. split_and!; first [done|by symmetry|lia].
Qed.

Lemma WatchingV2_page start p log last params out page room heard items w' :
  WatchingV2 start p log (RequestingV2 last params) out → replay_v2 p params = Ok page →
  handle_page_v2 thread_id page_size last params page room heard = (items, w') →
  WatchingV2 start p log w' (out ++ items).
Proof.
  intros Hw Hr Hp. pose proof Hw as [Hl Hth Hpl Hb _ Ha _ _]. destruct (Ha _ _ eq_refl) as (Htid & <- & Hlim & _). simpl in *.
  assert (cv_thread_id (mp_cursor p) = u2_thread_id params) as Hth' by congruence.
  pose proof (replay_v2_validates _ _ _ (lo_ok _ _ Hl) Hth' Hr) as Hv. unfold handle_page_v2 in Hp. rewrite Hv in Hp.
  destruct (page2_gap page) as [gap|] eqn:Hgap.
  { eapply fail_WatchingV2; [exact Hw|done|constructor|exact Hp]. }
  destruct (page_shape _ _ _ _ Hl Hth' Hr Hgap) as (_ & Hev & Hpr & Hpt & _ & Hres & Hle & Hlc & Hmore).
  destruct (replay_v2_Answer _ _ _ Hth' Hr) as [Hpv _]. destruct (sub_params_v2_valid _ Hpv) as (_ & _ & Hpos & _).
  rewrite (proj2 (andb_false_iff _ _)) in Hp.
  2:{ rewrite Hmore. destruct (N.ltb_spec (cv_seq (page2_resume_after page)) (cv_seq (page2_through page))); [right|by left].
      apply bool_decide_eq_false. intros Heq%(f_equal cv_seq). lia. }
  destruct (deliver_page _ room (page2_events page)) as [[sent last'] d] eqn:Hd. rewrite Hev in Hd.
  destruct (deliver_segment p log (u2_after params) room (cv_seq (page2_resume_after page)) _ _ _ Hl Hpl ltac:(lia) Hd) as (-> & Hls & Hpl' & Hnb & Hdone & _).
  assert (∀ w0, worker_cursor_v2 w0 = last' → Asks p w0 → Ended p log w0 →
    WatchingV2 start p log w0 (out ++ (Ok <$> segment log (cv_seq (u2_after params)) (cv_seq last')))) as Hemit.
  { intros w0 Hc Ha0 He0. rewrite <-(app_nil_r (Ok <$> _)).
    eapply (WatchingV2_emit _ _ _ _ _ _ last'); [exact Hw|done|simpl; lia|done..|constructor|done]. }
  destruct d; [|by injection Hp as <- <-; apply Hemit|by destruct (Hnb message)].
  injection Hp as <- <-. specialize (Hdone eq_refl).
  assert (page2_resume_after page = last') as Hrl by (apply cursor_v2_eq; [transitivity (u2_after params); [by symmetry|done]|done]).
  apply Hemit; rewrite Hmore; destruct (N.ltb_spec (cv_seq (page2_resume_after page)) (cv_seq (page2_through page))); try done.
  - by destruct (_ != _).
  - intros l q [= <- <-]. simpl. split_and!; try done. intros t [= <-]. split; [done|lia].
  - by destruct (_ != _).
  - destruct (_ != _) eqn:Hn; [done|]. intros l [= <-]. inv_bool. rewrite Hlc in Hn.
    pose proof (lo_length _ _ Hl). destruct (lifecycle_at_closed _ _ (cv_seq (page2_through page)) Hl ltac:(lia) Hn). split; [done|lia].
Qed.

Lemma WatchingV2_worker start p log w out label items w' :
  page_size_valid_v2 → observes_v2 p log w label → worker_step_v2 thread_id page_size w label = Some (items, w') →
  WatchingV2 start p log w out → WatchingV2 start p log w' (out ++ items).
Proof.
  intros Hps Hobs Hstep Hw. pose proof Hw as [Hl Hth Hpl Hb _ Ha _ _].
  destruct w as [last params|last|last|last].
  - pose proof (asks_valid _ _ _ _ _ _ Hps Hw) as Hv. destruct (Ha _ _ eq_refl) as (Htid & Haft & _ & _). simpl in *.
    destruct Hobs as [l q page room heard [= <- <-] Hr|l q p' page room heard [= <- <-] Hok' Ht' Hs' Hr|error room heard| | | | | |];
      simpl in Hstep; try done; apply Some_inj in Hstep; unfold get_session_replay_page_v2 in Hstep; rewrite ?Hv in Hstep; simpl in Hstep.
    + assert (cv_thread_id (mp_cursor p) = u2_thread_id params) as Hth' by congruence.
      rewrite (replay_v2_validates _ _ _ (lo_ok _ _ Hl) Hth' Hr) in Hstep. simpl in Hstep.
      by eapply WatchingV2_page.
    + assert (cv_thread_id (mp_cursor p') = u2_thread_id params) as Hth' by congruence.
      pose proof (replay_v2_validates _ _ _ Hok' Hth' Hr) as Hvp. rewrite Hvp in Hstep. simpl in Hstep.
      unfold handle_page_v2 in Hstep. rewrite Hvp in Hstep. destruct (replay_v2_Answer _ _ _ Hth' Hr) as [_ Hans].
      destruct Hpl as [_ Hpl]. destruct Hans as [|? [_ Hx]|? ? [_ Hx]]; [|by destruct Hs'; congruence..]. simpl in Hstep.
      eapply fail_WatchingV2; [exact Hw|done|constructor|exact Hstep].
    + eapply fail_WatchingV2; [exact Hw|done|apply (failure2_request error)|exact Hstep].
    + injection Hstep as <- <-. by eapply WatchingV2_quiet.
  - assert (Asks p (FollowingV2 last)) as Hf by done.
    destruct label as [| e accepted| | | |]; simpl in Hstep; try done; apply Some_inj in Hstep.
    + destruct (_ && _). { injection Hstep as <- <-. by eapply WatchingV2_quiet. }
      destruct (is_next_cursor_v2 last (ev2_cursor e)) eqn:Hn.
      2:{ injection Hstep as <- <-. eapply WatchingV2_quiet; [exact Hw|done|done|apply window_asks|done]. }
      destruct accepted; injection Hstep as <- <-; [|by eapply WatchingV2_quiet].
      apply is_next_cursor_v2_true in Hn as (Hsp & Hs & _). simpl in *.
      assert (e ∈ log) as [i Hi]%list_elem_of_lookup.
      { inversion Hobs as [| | |? ? Hin| ? ? Hnp| | | |]; [done|]. destruct Hnp. by etrans. }
      destruct (lo_events _ _ Hl _ _ Hi) as [_ Hsi]. pose proof (lookup_lt_Some _ _ _ Hi).
      change [Ok e] with ((Ok <$> [e] : list StreamItemV2) ++ []).
      eapply (WatchingV2_emit _ _ _ _ _ [e] (ev2_cursor e) _ []); [exact Hw| |simpl; lia|done|..]; simpl.
      * rewrite Hs. symmetry. apply segment_lookup. by replace (N.to_nat (cv_seq last)) with i by lia.
      * by destruct (is_closed_event_v2 e).
      * done.
      * by destruct (is_closed_event_v2 e).
      * destruct (is_closed_event_v2 e) eqn:Hc; [|done]. intros l [= <-]. pose proof (lo_closed _ _ Hl _ _ Hi Hc) as Hlast.
        split; [|lia]. apply (lo_lifecycle _ _ Hl). exists e. split; [|done]. by rewrite last_lookup, <-Hlast.
      * constructor.
      * done.
    + injection Hstep as <- <-. eapply WatchingV2_quiet; [exact Hw|done|done|apply window_asks|done].
    + injection Hstep as <- <-. eapply WatchingV2_quiet; [exact Hw|done|done|apply window_asks|done].
    + injection Hstep as <- <-. by eapply WatchingV2_quiet.
    + injection Hstep as <- <-. by eapply WatchingV2_quiet.
  - by destruct label.
  - by destruct label.
Qed.

Lemma WatchingV2_system start x y :
  page_size_valid_v2 → rtc system_step_v2 x y →
  WatchingV2 start (sy2_projection x) (sy2_log x) (sy2_worker x) (sy2_out x) →
  WatchingV2 start (sy2_projection y) (sy2_log y) (sy2_worker y) (sy2_out y).
Proof.
  intros Hps. induction 1 as [|x y z Hs _ IH]; [done|]. intros Hw. apply IH. destruct Hs; simpl in *.
  - by eapply WatchingV2_publication.
  - by eapply WatchingV2_retirement.
  - by eapply WatchingV2_worker.
Qed.

(** A subscription that starts at a position of the log. *)
Definition subscribed_v2 p log (start : SessionCursorV2) : SystemV2 := {|
  sy2_projection := p; sy2_log := log;
  sy2_worker := RequestingV2 start (window_params_v2 thread_id page_size start); sy2_out := [] |}.

Lemma subscribed_WatchingV2 p log start :
  Projected p log → cv_thread_id (mp_cursor p) = thread_id → same_place_v2 (mp_cursor p) start →
  (cv_seq start <= cv_seq (mp_cursor p))%N →
  WatchingV2 (cv_seq start) p log (RequestingV2 start (window_params_v2 thread_id page_size start)) [].
Proof.
  intros Hl%Projected_LogOk Hth Hp Hle. rewrite (lo_length _ _ Hl) in Hle.
  constructor; try done; [simpl; by rewrite segment_nil by lia|apply window_asks|constructor].
Qed.

(** ** A window of pages *)

(** What the worker does with the daemon's answers until the window is complete,
    while the daemon does nothing else. *)
Fixpoint fetch_window_v2 (fuel : nat) p w : list StreamItemV2 * WorkerV2 :=
  match fuel, w with
  | S fuel, RequestingV2 last params =>
      let reply := map_err (λ e, let r := rpc_error e in
        RequestRemote {| rem_code := err_code r; rem_message := err_message r; rem_data := Ok <$> err_data r |}) (replay_v2 p params) in
      match worker_step_v2 thread_id page_size w (OnPageV2 reply None true) with
      | Some (items, w') => let '(more, w'') := fetch_window_v2 fuel p w' in (items ++ more, w'')
      | None => ([], w)
      end
  | _, _ => ([], w)
  end.

(** A request from within the journal is answered with a page. *)
Lemma replay_v2_within p params :
  ProjectionOk p → SubscribeSessionV2Params_validate params = Ok () → same_place_v2 (mp_cursor p) (u2_after params) →
  (cv_seq (mp_replay_floor p) <= cv_seq (u2_after params) <= cv_seq (mp_cursor p))%N →
  (∀ t, u2_through params = Some t → t = mp_cursor p) →
  ∃ page, replay_v2 p params = Ok page ∧ page2_gap page = None.
Proof.
  intros Hok Hv [_ Hp] Hle Hth. unfold replay_v2. rewrite Hv. simpl. rewrite bool_decide_eq_true_2 by done. simpl.
  assert ((cv_seq (mp_cursor p) <? cv_seq (u2_after params))%N = false) as -> by (apply N.ltb_ge; lia).
  assert ((cv_seq (u2_after params) <? cv_seq (mp_replay_floor p))%N = false) as Hfl by (apply N.ltb_ge; lia).
  destruct (u2_through params) as [t|]; simpl.
  - rewrite (Hth t eq_refl), bool_decide_eq_true_2, N.ltb_irrefl, Hfl by done. by eexists.
  - rewrite Hfl. by eexists.
Qed.

(** A page of a window whose end is the projection's cursor. *)
Lemma window_page_v2 p log last params out start :
  page_size_valid_v2 → WatchingV2 start p log (RequestingV2 last params) out →
  (cv_seq (mp_replay_floor p) <= cv_seq last <= cv_seq (mp_cursor p))%N →
  (∀ t, u2_through params = Some t → t = mp_cursor p) →
  ∃ resume, same_place_v2 last resume ∧ cv_seq resume = N.min (cv_seq (mp_cursor p)) (cv_seq last + page_size) ∧
    ∀ f, worker_step_v2 thread_id page_size (RequestingV2 last params) (OnPageV2 (map_err f (replay_v2 p params)) None true)
    = Some (Ok <$> segment log (cv_seq last) (cv_seq resume),
            if (cv_seq resume <? cv_seq (mp_cursor p))%N
            then RequestingV2 resume {| u2_thread_id := thread_id; u2_after := resume;
                                        u2_through := Some (mp_cursor p); u2_limit := page_size |}
            else if v2_lifecycle (mp_snapshot p) != LifecycleClosed then FollowingV2 resume else FinishedV2 resume).
Proof.
  intros Hps Hw Hle Hthr. pose proof (asks_valid _ _ _ _ _ _ Hps Hw) as Hv. pose proof Hw as [Hl Hth Hpl _ _ Ha _ _].
  destruct (Ha _ _ eq_refl) as (Htid & <- & Hlim & _). simpl in Hpl.
  assert (cv_thread_id (mp_cursor p) = u2_thread_id params) as Hth' by congruence.
  destruct (replay_v2_within p params (lo_ok _ _ Hl) Hv Hpl Hle Hthr) as (page & Hr & Hgap).
  destruct (page_shape _ _ _ _ Hl Hth' Hr Hgap) as (Hpv & Hev & Hpr & _ & Hthp & Hres & Hle' & Hlc & Hmore).
  assert (page2_through page = mp_cursor p) as Ht.
  { rewrite Hthp. destruct (u2_through params) as [t|]; [by apply Hthr|done]. }
  rewrite Ht in *. exists (page2_resume_after page). rewrite <-Hlim. split_and!; [done|done|]. intros f. rewrite Hr. simpl.
  unfold get_session_replay_page_v2. rewrite Hv. simpl. rewrite Hpv. simpl. unfold handle_page_v2. rewrite Hpv, Hgap.
  assert (0 < u2_limit params)%N as Hpos by (rewrite Hlim; apply Hps).
  rewrite (proj2 (andb_false_iff _ _)).
  2:{ rewrite Hmore. destruct (N.ltb_spec (cv_seq (page2_resume_after page)) (cv_seq (mp_cursor p))); [right|by left].
      apply bool_decide_eq_false. intros Heq%(f_equal cv_seq). lia. }
  rewrite Hev. destruct (deliver_page _ None _) as [[sent last'] d] eqn:Hd.
  destruct (deliver_segment p log (u2_after params) None (cv_seq (page2_resume_after page)) _ _ _ Hl Hpl ltac:(lia) Hd)
    as (-> & Hls & Hpl' & _ & Hdone & Hd').
  rewrite (Hd' eq_refl) in *. specialize (Hdone eq_refl).
  assert (page2_resume_after page = last') as Hrl by (apply cursor_v2_eq; [transitivity (u2_after params); [by symmetry|done]|done]).
  rewrite Hmore, Hrl, Ht, Hlc, Hlim. unfold lifecycle_at. by rewrite N.eqb_refl.
Qed.

Lemma fetch_window_v2_complete fuel start p log last params out :
  page_size_valid_v2 → WatchingV2 start p log (RequestingV2 last params) out →
  (cv_seq (mp_replay_floor p) <= cv_seq last)%N → (∀ t, u2_through params = Some t → t = mp_cursor p) →
  (cv_seq (mp_cursor p) - cv_seq last < N.of_nat fuel)%N →
  fetch_window_v2 fuel p (RequestingV2 last params)
  = (Ok <$> drop (N.to_nat (cv_seq last)) log,
     if v2_lifecycle (mp_snapshot p) != LifecycleClosed then FollowingV2 (mp_cursor p) else FinishedV2 (mp_cursor p)).
Proof.
  intros Hps. revert last params out. induction fuel as [|fuel IH]; intros last params out Hw Hfl Hthr Hf; [lia|].
  pose proof (lo_length _ _ (w2_log _ _ _ _ _ Hw)) as Hlen. pose proof (w2_bounds _ _ _ _ _ Hw) as Hb. simpl in Hb.
  pose proof (w2_place _ _ _ _ _ Hw) as Hpl. simpl in Hpl. assert (0 < page_size)%N as Hpos by apply Hps.
  destruct (window_page_v2 _ _ _ _ _ _ Hps Hw ltac:(lia) Hthr) as (resume & Hrp & Hrs & Hstep).
  cbn [fetch_window_v2]. rewrite Hstep, <-segment_to_end, <-Hlen.
  destruct (N.ltb_spec (cv_seq resume) (cv_seq (mp_cursor p))) as [Hlt|Hge].
  - assert (observes_v2 p log (RequestingV2 last params)
              (OnPageV2 (map_err RequestSdk (map_err (λ _, SdkEventLagged) (replay_v2 p params))) None true)) as Hobs.
    { destruct (replay_v2 p params) as [page|] eqn:Hr; [by econstructor|constructor]. }
    replace (map_err RequestSdk (map_err (λ _, SdkEventLagged) (replay_v2 p params)))
      with (map_err (λ _, RequestSdk SdkEventLagged) (replay_v2 p params)) in Hobs by (by destruct (replay_v2 p params)).
    pose proof (WatchingV2_worker _ _ _ _ _ _ _ _ Hps Hobs (Hstep _) Hw) as Hw'.
    rewrite (IH _ _ _ Hw') by (done || lia || (simpl; by intros t [= <-])).
    rewrite <-segment_to_end, <-Hlen, <-fmap_app, <-segment_app by lia. done.
  - assert (resume = mp_cursor p) as -> by (apply cursor_v2_eq; [transitivity last; by symmetry|lia]).
    destruct (_ != _); destruct fuel; simpl; by rewrite app_nil_r.
Qed.
End follow.
