(* ===== verification/SdkRuns.v ===== *)
(** * The client's runs

    [crates/whale-sdk-rust/src/run.rs] with the routes of [lib.rs]: the state of an
    accepted turn with its channel of events and its result, the stream an application
    reads, and the registry that routes the daemon's events to the handles. A run is an
    address of the heap, as its [Arc] is. The laws are about one run and its reader under
    any delivery. *)

From S2P Require Import Prelude Protocol SdkViews.

Definition EVENT_CAPACITY : nat := 256.

(** ** One run *)

(** The receiver of the channel: still in the state, taken by [events], or dropped. *)
Inductive Receiver := ReceiverHeld | ReceiverTaken | ReceiverDropped.

Record QueryOwnership := { qo_waiters : N; qo_observed_live : bool; qo_observed_terminal : bool }.

(** [RunState]; [cr_queue] is what the channel holds, [cr_sender] whether the sender is
    still there. *)
Record RunState := {
  cr_thread_id : string;
  cr_turn_id : string;
  cr_sender : bool;
  cr_queue : list RunEvent;
  cr_receiver : Receiver;
  cr_terminal : option (result string RunSnapshot);
  cr_last_seq : N;
  cr_event_route_claimed : bool;
  cr_lagged : bool;
  cr_legacy_events : option (list RunEvent);
  cr_query : option QueryOwnership;
}.

Definition cr_eta (s : RunState) : RunState :=
  {| cr_thread_id := cr_thread_id s; cr_turn_id := cr_turn_id s; cr_sender := cr_sender s; cr_queue := cr_queue s;
     cr_receiver := cr_receiver s; cr_terminal := cr_terminal s; cr_last_seq := cr_last_seq s;
     cr_event_route_claimed := cr_event_route_claimed s; cr_lagged := cr_lagged s;
     cr_legacy_events := cr_legacy_events s; cr_query := cr_query s |}.
Definition set_sender (v : bool) (s : RunState) : RunState := ltac:(update_field cr_eta cr_sender v s).
Definition set_queue (v : list RunEvent) (s : RunState) : RunState := ltac:(update_field cr_eta cr_queue v s).
Definition set_receiver (v : Receiver) (s : RunState) : RunState := ltac:(update_field cr_eta cr_receiver v s).
Definition set_terminal (v : option (result string RunSnapshot)) (s : RunState) : RunState :=
  ltac:(update_field cr_eta cr_terminal v s).
Definition set_last_seq_cr (v : N) (s : RunState) : RunState := ltac:(update_field cr_eta cr_last_seq v s).
Definition set_claimed (v : bool) (s : RunState) : RunState := ltac:(update_field cr_eta cr_event_route_claimed v s).
Definition set_lagged (v : bool) (s : RunState) : RunState := ltac:(update_field cr_eta cr_lagged v s).
Definition set_legacy (v : option (list RunEvent)) (s : RunState) : RunState := ltac:(update_field cr_eta cr_legacy_events v s).
Definition set_query (v : option QueryOwnership) (s : RunState) : RunState := ltac:(update_field cr_eta cr_query v s).

Definition new_inner (thread_id turn_id : string) (query : bool) : RunState :=
  {| cr_thread_id := thread_id; cr_turn_id := turn_id; cr_sender := true; cr_queue := []; cr_receiver := ReceiverHeld;
     cr_terminal := None; cr_last_seq := 0; cr_event_route_claimed := false; cr_lagged := false;
     cr_legacy_events := None;
     cr_query := if query then Some {| qo_waiters := 0; qo_observed_live := false; qo_observed_terminal := false |} else None |}.

Definition buffer_legacy_events (s : RunState) : RunState := set_sender false (set_legacy (Some []) s).
Definition take_legacy_events (s : RunState) : list RunEvent * RunState :=
  (default [] (cr_legacy_events s), set_legacy None s).

(** [terminal.send_if_modified]: the first outcome stays. *)
Definition settle (outcome : result string RunSnapshot) (s : RunState) : RunState :=
  match cr_terminal s with Some _ => s | None => set_terminal (Some outcome) s end.

Definition run_fail (error : string) (s : RunState) : RunState := set_sender false (settle (Err error) s).

Definition run_complete (snapshot : RunSnapshot) (s : RunState) : RunState :=
  if (snap_thread_id snapshot != cr_thread_id s) || (snap_turn_id snapshot != cr_turn_id s) then
    run_fail "Snapshot belongs to another run" s
  else if is_terminal (snap_status snapshot) then
    match snap_result snapshot with
    | None => run_fail "Terminal snapshot has no result" s
    | Some _ => settle (Ok snapshot) s
    end
  else s.

Definition finish_snapshot_only (s : RunState) : RunState := set_sender false s.
Definition pending_query (s : RunState) : bool := is_some (cr_query s) && is_none (cr_terminal s).
Definition claim_event_route (s : RunState) : RunState := set_claimed true s.

Definition is_stream_payload (payload : RunEventPayload) : bool :=
  match payload with RunStream _ => true | RunFinished _ => false end.

(** The sender's part of [accept]: a gap or a full channel drops the sender. *)
Definition send_event (contiguous : bool) (event : RunEvent) (s : RunState) : RunState :=
  let s := if contiguous then s else set_sender false (set_lagged true s) in
  if cr_sender s then
    match cr_receiver s with
    | ReceiverDropped => set_sender false s
    | _ => if bool_decide (length (cr_queue s) < EVENT_CAPACITY) then set_queue (cr_queue s ++ [event]) s
           else set_sender false (set_lagged true s)
    end
  else s.

(** [RunState::accept]; true when the event ends the live route. *)
Definition accept (event : RunEvent) (s : RunState) : bool * RunState :=
  if (re_thread_id event != cr_thread_id s) || (re_turn_id event != cr_turn_id s) then
    (false, run_fail "Event belongs to another run" s)
  else
    let previous := cr_last_seq s in
    let s := set_last_seq_cr (N.max previous (re_seq event)) s in
    if (re_seq event <=? previous)%N then (false, s) else
    let s := if is_stream_payload (re_payload event)
             then set_query ((λ q, {| qo_waiters := qo_waiters q; qo_observed_live := true;
                                      qo_observed_terminal := qo_observed_terminal q |}) <$> cr_query s) s
             else s in
    let s := set_legacy ((λ buffer, buffer ++ [event]) <$> cr_legacy_events s) s in
    let s := send_event (re_seq event =? previous + 1)%N event s in
    match re_payload event with
    | RunStream _ => (false, s)
    | RunFinished snapshot =>
        let s := set_sender false s in
        (true, if (snap_last_seq snapshot != re_seq event) || negb (is_terminal (snap_status snapshot))
               then run_fail "Invalid terminal event" s else run_complete snapshot s)
    end.

(** ** The application's side *)

(** [RunHandle::events] *)
Definition handle_events (s : RunState) : result SdkError () * RunState :=
  match cr_receiver s with
  | ReceiverHeld => (Ok (), set_receiver ReceiverTaken s)
  | _ => (Err SdkAlreadySubscribed, s)
  end.

(** [RunHandle::result]: [None] while it waits. *)
Definition handle_result (s : RunState) : option (result SdkError RunTurnResult) :=
  (λ outcome, match outcome with
              | Ok snapshot => ok_or (snap_result snapshot) (SdkInternal "Terminal snapshot has no result")
              | Err message => Err (SdkChannelClosed message)
              end) <$> cr_terminal s.

(** [RunHandle::snapshot] and [RunHandle::cancel] on the reply of the request. *)
Definition handle_snapshot_reply (reply : result SdkError RunSnapshot) (s : RunState) : result SdkError RunSnapshot * RunState :=
  (reply, match reply with Ok snapshot => run_complete snapshot s | Err _ => s end).

(** [RunEventStream]: between two calls of [recv], and while one waits. *)
Inductive StreamPhase := StreamIdle | StreamWaiting | StreamEnded.

(** The start of [recv]: [Some] when it returns at once. *)
Definition recv_begin (s : RunState) (phase : StreamPhase) : option (result SdkError (option RunEvent)) * StreamPhase :=
  match phase with
  | StreamEnded => (Some (Ok None), StreamEnded)
  | _ => if cr_lagged s then (Some (Err SdkEventLagged), StreamEnded) else (None, StreamWaiting)
  end.

(** The rest of [recv], once the channel has an item or no sender: [None] while it
    waits. *)
Definition recv_finish (s : RunState) : option (result SdkError (option RunEvent) * StreamPhase * RunState) :=
  let received (event : option RunEvent) (s : RunState) :=
    if cr_lagged s then (Err SdkEventLagged, StreamEnded, s) else
    match event with
    | Some event => (Ok (Some event), StreamIdle, s)
    | None =>
        match cr_terminal s with
        | Some (Err message) => (Err (SdkChannelClosed message), StreamEnded, s)
        | _ => (Ok None, StreamEnded, s)
        end
    end in
  match cr_queue s with
  | event :: queue => Some (received (Some event) (set_queue queue s))
  | [] => if cr_sender s then None else Some (received None s)
  end.

(** ** The routes of a connection *)

(** [ClientState::runs] and [run_handles]; [rt_heap] holds the runs some [Arc] keeps. *)
Record Routes := {
  rt_heap : gmap nat RunState;
  rt_runs : gmap string nat;
  rt_handles : gmap string (string * nat);
  rt_next : nat;
}.

Definition on_run (a : nat) (f : RunState → RunState) (t : Routes) : Routes :=
  {| rt_heap := alter f a (rt_heap t); rt_runs := rt_runs t; rt_handles := rt_handles t; rt_next := rt_next t |}.
Definition with_routes (runs : gmap string nat) (t : Routes) : Routes :=
  {| rt_heap := rt_heap t; rt_runs := runs; rt_handles := rt_handles t; rt_next := rt_next t |}.

(** [Arc::new] and [cache_run] *)
Definition new_cached (thread_id turn_id : string) (query : bool) (t : Routes) : nat * Routes :=
  let a := rt_next t in
  (a, {| rt_heap := <[a := new_inner thread_id turn_id query]> (rt_heap t); rt_runs := rt_runs t;
         rt_handles := <[turn_id := (thread_id, a)]> (rt_handles t); rt_next := S a |}).

Definition cached_run (turn_id : string) (t : Routes) : option nat :=
  '(_, a) ← rt_handles t !! turn_id; (λ _, a) <$> rt_heap t !! a.

(** [runs.remove_if(turn_id, |_, current| Arc::ptr_eq(current, state))] *)
Definition remove_route_if_same (turn_id : string) (a : nat) (t : Routes) : Routes :=
  if bool_decide (rt_runs t !! turn_id = Some a) then with_routes (delete turn_id (rt_runs t)) t else t.

(** [start_turn_internal] up to its request: the run and its route. *)
Definition start_route (thread_id turn_id : string) (legacy_buffer : bool) (t : Routes) : nat * Routes :=
  let '(a, t) := new_cached thread_id turn_id false t in
  let t := if legacy_buffer then on_run a buffer_legacy_events t else t in
  (a, with_routes (<[turn_id := a]> (rt_runs t)) t).

(** The drop of a [PendingStartRoute] that was not committed. *)
Definition abandon_start (a : nat) (t : Routes) : Routes :=
  match rt_heap t !! a with
  | Some s => if cr_event_route_claimed s then t else remove_route_if_same (cr_turn_id s) a t
  | None => t
  end.

(** [QueryRouteLease::acquire] *)
Definition acquire (a : nat) (t : Routes) : Routes :=
  on_run a (λ s, set_query ((λ q, {| qo_waiters := qo_waiters q + 1; qo_observed_live := qo_observed_live q;
                                     qo_observed_terminal := qo_observed_terminal q |}) <$> cr_query s) s) t.

(** [QueryRouteLease::observe] *)
Definition observe (a : nat) (snapshot : RunSnapshot) (t : Routes) : Routes :=
  on_run a (λ s,
    if (snap_thread_id snapshot != cr_thread_id s) || (snap_turn_id snapshot != cr_turn_id s) then s else
    set_query ((λ q, if negb (is_terminal (snap_status snapshot))
                     then {| qo_waiters := qo_waiters q; qo_observed_live := true; qo_observed_terminal := qo_observed_terminal q |}
                     else {| qo_waiters := qo_waiters q; qo_observed_live := qo_observed_live q; qo_observed_terminal := true |})
                 <$> cr_query s) s) t.

(** The drop of a [QueryRouteLease]. *)
Definition release (a : nat) (t : Routes) : Routes :=
  match rt_heap t !! a with
  | None => t
  | Some s =>
      match cr_query s with
      | None => t
      | Some q =>
          let waiters := (qo_waiters q - 1)%N in
          let t := on_run a (set_query (Some {| qo_waiters := waiters; qo_observed_live := qo_observed_live q;
                                                qo_observed_terminal := qo_observed_terminal q |})) t in
          if (waiters =? 0)%N && negb (qo_observed_live q) then
            let t := if qo_observed_terminal q then on_run a finish_snapshot_only t else t in
            remove_route_if_same (cr_turn_id s) a t
          else t
      end
  end.

(** The entry of [get_run]: the run a query works on, with its lease. *)
Definition query_route (thread_id turn_id : string) (t : Routes) : nat * Routes :=
  match rt_runs t !! turn_id with
  | Some a => (a, acquire a t)
  | None =>
      match cached_run turn_id t with
      | Some a =>
          let t := acquire a t in
          (a, if default false (pending_query <$> rt_heap t !! a) then with_routes (<[turn_id := a]> (rt_runs t)) t else t)
      | None =>
          let '(a, t) := new_cached thread_id turn_id true t in
          let t := acquire a t in
          (a, with_routes (<[turn_id := a]> (rt_runs t)) t)
      end
  end.

(** [get_run] from the reply of its request on, when the session is open. *)
Definition query_reply (a : nat) (thread_id : string) (reply : result SdkError RunSnapshot) (t : Routes) :
    result SdkError () * Routes :=
  match rt_heap t !! a with
  | Some s =>
      if cr_thread_id s != thread_id then (Err (SdkInternal "Run belongs to another session"), release a t) else
      match reply with
      | Err error => (Err error, release a t)
      | Ok snapshot => (Ok (), release a (observe a snapshot (on_run a (run_complete snapshot) t)))
      end
  | None => (Err (SdkInternal "Run belongs to another session"), t)
  end.

(** The drop of the last [Arc] of a run. *)
Definition drop_run (a : nat) (t : Routes) : Routes :=
  {| rt_heap := delete a (rt_heap t); rt_runs := rt_runs t;
     rt_handles := match rt_heap t !! a with
                   | Some s => if bool_decide (snd <$> rt_handles t !! cr_turn_id s = Some a)
                               then delete (cr_turn_id s) (rt_handles t) else rt_handles t
                   | None => rt_handles t
                   end;
     rt_next := rt_next t |}.

(** [incoming] on a turn event, without the tables of the approvals. *)
Definition route_run_event (event : RunEvent) (t : Routes) : Routes :=
  match rt_runs t !! re_turn_id event with
  | None => t
  | Some a =>
      match rt_heap t !! a with
      | None => t
      | Some s =>
          let s := if (cr_thread_id s == re_thread_id event) && (cr_turn_id s == re_turn_id event) && (0 <? re_seq event)%N
                   then claim_event_route s else s in
          let '(ended, s) := accept event s in
          let t := on_run a (λ _, s) t in
          if ended then remove_route_if_same (cr_turn_id s) a t else t
      end
  end.

(** [disconnect] on the routes. *)
Definition disconnect_runs (message : string) (t : Routes) : Routes :=
  {| rt_heap := map_imap (λ a s, Some (if bool_decide (a ∈ (map_to_list (rt_runs t)).*2)
                                       then run_fail message s else s)) (rt_heap t);
     rt_runs := ∅; rt_handles := ∅; rt_next := rt_next t |}.

(** [release_session] on the routes: the runs of the session fail. *)
Definition release_session_runs (sid message : string) (t : Routes) : Routes :=
  let of_session (a : nat) := bool_decide (cr_thread_id <$> rt_heap t !! a = Some sid) in
  {| rt_heap := map_imap (λ a s, Some (if bool_decide (a ∈ (map_to_list (rt_runs t)).*2) && of_session a
                                       then run_fail message s else s)) (rt_heap t);
     rt_runs := filter (λ route, of_session route.2 = false) (rt_runs t);
     rt_handles := filter (λ handle, handle.2.1 ≠ sid) (rt_handles t); rt_next := rt_next t |}.

(** ** Laws of the client's runs

    What an application reads of a run, against the events the daemon numbered, and the
    routes that lead those events to it. *)

From stdpp Require Import relations.

(** ** One run and its reader *)

Section run.
Context (thread_id turn_id : string) (log : list RunEvent) (final : RunSnapshot).
Implicit Types (s : RunState) (e : RunEvent).

(** The events of a run as its daemon numbers them; only the last can be terminal, and
    then it carries the final snapshot. *)
Record RunLog : Prop := {
  rl_event : ∀ i e, log !! i = Some e →
    re_thread_id e = thread_id ∧ re_turn_id e = turn_id ∧ re_seq e = N.of_nat (S i);
  rl_finished : ∀ i e snapshot, log !! i = Some e → re_payload e = RunFinished snapshot →
    snapshot = final ∧ S i = length log ∧ snap_last_seq snapshot = re_seq e;
  rl_final : snap_thread_id final = thread_id ∧ snap_turn_id final = turn_id ∧ is_terminal (snap_status final) = true
    ∧ is_some (snap_result final) = true;
}.

(** A run, its reader and what the reader has returned. *)
Record Reading := { rd_run : RunState; rd_phase : StreamPhase; rd_out : list (result SdkError (option RunEvent)) }.

(** What can happen to a run: events of the log arrive in any order, repeated or not at
    all; the run fails; a reply carries a snapshot that is not terminal or the final
    one; the last lease of a query whose run has an outcome ends; the application takes,
    reads, abandons a read and drops the stream. *)
Inductive run_step : Reading → Reading → Prop :=
  | step_accept s ph out e :
      e ∈ log →
      run_step {| rd_run := s; rd_phase := ph; rd_out := out |} {| rd_run := (accept e s).2; rd_phase := ph; rd_out := out |}
  | step_fail s ph out message :
      run_step {| rd_run := s; rd_phase := ph; rd_out := out |} {| rd_run := run_fail message s; rd_phase := ph; rd_out := out |}
  | step_reply s ph out snapshot :
      is_terminal (snap_status snapshot) = false ∨ snapshot = final →
      run_step {| rd_run := s; rd_phase := ph; rd_out := out |}
               {| rd_run := (handle_snapshot_reply (Ok snapshot) s).2; rd_phase := ph; rd_out := out |}
  | step_snapshot_only s ph out :
      is_some (cr_terminal s) = true →
      run_step {| rd_run := s; rd_phase := ph; rd_out := out |} {| rd_run := finish_snapshot_only s; rd_phase := ph; rd_out := out |}
  | step_events s out s' :
      handle_events s = (Ok (), s') →
      run_step {| rd_run := s; rd_phase := StreamIdle; rd_out := out |} {| rd_run := s'; rd_phase := StreamIdle; rd_out := out |}
  | step_begin s ph out answer ph' :
      cr_receiver s = ReceiverTaken → ph ≠ StreamWaiting → recv_begin s ph = (answer, ph') →
      run_step {| rd_run := s; rd_phase := ph; rd_out := out |}
               {| rd_run := s; rd_phase := ph'; rd_out := out ++ option_list answer |}
  | step_finish s out answer ph s' :
      cr_receiver s = ReceiverTaken → recv_finish s = Some (answer, ph, s') →
      run_step {| rd_run := s; rd_phase := StreamWaiting; rd_out := out |}
               {| rd_run := s'; rd_phase := ph; rd_out := out ++ [answer] |}
  | step_cancel s out :
      run_step {| rd_run := s; rd_phase := StreamWaiting; rd_out := out |} {| rd_run := s; rd_phase := StreamIdle; rd_out := out |}
  | step_drop s ph out :
      cr_receiver s = ReceiverTaken →
      run_step {| rd_run := s; rd_phase := ph; rd_out := out |}
               {| rd_run := set_receiver ReceiverDropped (set_queue [] s); rd_phase := ph; rd_out := out |}.

Definition run_started : Reading :=
  {| rd_run := new_inner thread_id turn_id false; rd_phase := StreamIdle; rd_out := [] |}.
Definition run_queried : Reading :=
  {| rd_run := new_inner thread_id turn_id true; rd_phase := StreamIdle; rd_out := [] |}.

(** The events the application has read. *)
Definition events_read (out : list (result SdkError (option RunEvent))) : list RunEvent :=
  omap (λ answer, match answer with Ok (Some e) => Some e | _ => None end) out.

(** What an outcome can be. *)
Definition outcome_ok (outcome : result string RunSnapshot) : Prop :=
  match outcome with Ok snapshot => snapshot = final | Err _ => True end.

(** What the reader may have returned beside events: while it is not at its end
    nothing; then an end that says why. *)
Inductive answers_ok s : StreamPhase → list (result SdkError (option RunEvent)) → Prop :=
  | answers_events ph events : ph ≠ StreamEnded → answers_ok s ph (Ok ∘ Some <$> events)
  | answers_lagged events more : cr_lagged s = true →
      answers_ok s StreamEnded ((Ok ∘ Some <$> events) ++ Err SdkEventLagged :: replicate more (Ok None))
  | answers_failed events message more : cr_terminal s = Some (Err message) →
      answers_ok s StreamEnded ((Ok ∘ Some <$> events) ++ Err (SdkChannelClosed message) :: replicate more (Ok None))
  | answers_quiet events more : cr_terminal s = Some (Ok final) →
      answers_ok s StreamEnded ((Ok ∘ Some <$> events) ++ replicate (S more) (Ok None)).

Record ReadingOk (x : Reading) : Prop := {
  ro_thread : cr_thread_id (rd_run x) = thread_id;
  ro_turn : cr_turn_id (rd_run x) = turn_id;
  ro_seq : (cr_last_seq (rd_run x) <= N.of_nat (length log))%N;
  ro_read : events_read (rd_out x) `prefix_of` log;
  ro_live : rd_phase x ≠ StreamEnded → cr_receiver (rd_run x) ≠ ReceiverDropped →
    ∃ n, events_read (rd_out x) ++ cr_queue (rd_run x) = take n log ∧ (n <= N.to_nat (cr_last_seq (rd_run x)))%nat
      ∧ (cr_sender (rd_run x) = true → n = N.to_nat (cr_last_seq (rd_run x)));
  ro_terminal : ∀ outcome, cr_terminal (rd_run x) = Some outcome → outcome_ok outcome;
  ro_sender : cr_sender (rd_run x) = false →
    cr_lagged (rd_run x) = true ∨ cr_receiver (rd_run x) = ReceiverDropped ∨ is_some (cr_terminal (rd_run x)) = true;
  ro_answers : answers_ok (rd_run x) (rd_phase x) (rd_out x);
}.

(** What no operation takes back. *)
Record Grows s s' : Prop := {
  gr_thread : cr_thread_id s' = cr_thread_id s;
  gr_turn : cr_turn_id s' = cr_turn_id s;
  gr_receiver : cr_receiver s' = cr_receiver s;
  gr_lagged : cr_lagged s = true → cr_lagged s' = true;
  gr_terminal : ∀ outcome, cr_terminal s = Some outcome → cr_terminal s' = Some outcome;
  gr_sender : cr_sender s' = true → cr_sender s = true;
}.
#[export] Instance Grows_preorder : PreOrder Grows.
Proof. split; [by split|]. intros s1 s2 s3 [] []. split; try congruence; auto. Qed.

Lemma settle_spec outcome s :
  Grows s (settle outcome s) ∧ cr_queue (settle outcome s) = cr_queue s ∧ cr_last_seq (settle outcome s) = cr_last_seq s ∧
  cr_sender (settle outcome s) = cr_sender s ∧
  ((cr_terminal s = None ∧ cr_terminal (settle outcome s) = Some outcome) ∨
   (is_some (cr_terminal s) = true ∧ cr_terminal (settle outcome s) = cr_terminal s)).
Proof.
  unfold settle. destruct (cr_terminal s) eqn:Ht; simpl; split_and!; try done; [by rewrite Ht; right| |by left].
  split; simpl; congruence.
Qed.

(** The effect of a step that leaves the channel's contents and the sequence alone. *)
Record Quiet s s' : Prop := {
  qu_grows : Grows s s';
  qu_queue : cr_queue s' = cr_queue s;
  qu_seq : cr_last_seq s' = cr_last_seq s;
  qu_terminal : ∀ outcome, cr_terminal s' = Some outcome → cr_terminal s = Some outcome ∨ outcome_ok outcome;
  qu_sender : cr_sender s' = false → cr_sender s = false ∨ is_some (cr_terminal s') = true;
}.
#[export] Instance Quiet_preorder : PreOrder Quiet.
Proof.
  split; [split; (done || tauto || by left)|].
  intros s1 s2 s3 [G1 Q1 S1 T1 F1] [G2 Q2 S2 T2 F2]. split; [by etrans|congruence|congruence| |].
  - intros o [Ho|Ho]%T2; [by apply T1|by right].
  - intros [Hs|Hs]%F2; [|by right]. destruct (F1 Hs) as [|Hsome]; [by left|right].
    destruct (cr_terminal s2) as [o|] eqn:Ho; [|done]. by rewrite (gr_terminal _ _ G2 _ Ho).
Qed.

Lemma settle_Quiet outcome s : outcome_ok outcome → Quiet s (settle outcome s).
Proof.
  intros Ho. destruct (settle_spec outcome s) as (Hg & Hq & Hl & Hs & Ht). split; try done; [|rewrite Hs; by left].
  intros o Heq. destruct Ht as [[_ Ht]|[_ Ht]]; rewrite Ht in Heq; [injection Heq as <-; by right|by left].
Qed.

Lemma run_fail_Quiet message s : Quiet s (run_fail message s).
Proof.
  unfold run_fail. destruct (settle_Quiet (Err message) s I) as [[] Q S T F]. destruct (settle_spec (Err message) s) as (_ & _ & _ & _ & Ht).
  split; simpl; [|done..|].
  - split; simpl; first [congruence|auto].
  - intros _. right. by destruct Ht as [[_ ->]|[? ->]].
Qed.

Lemma run_complete_Quiet snapshot s :
  is_terminal (snap_status snapshot) = false ∨ snapshot = final → Quiet s (run_complete snapshot s).
Proof.
  intros Hs. unfold run_complete. destruct (_ || _); [apply run_fail_Quiet|].
  destruct (is_terminal (snap_status snapshot)) eqn:Ht; [|done]. destruct Hs as [|Hs]; [done|].
  destruct (snap_result snapshot); [by apply settle_Quiet|apply run_fail_Quiet].
Qed.

Lemma run_complete_final s :
  RunLog → cr_thread_id s = thread_id → cr_turn_id s = turn_id → is_some (cr_terminal (run_complete final s)) = true.
Proof.
  intros [_ _ (H1 & H2 & H3 & H4)] Ht Hu. unfold run_complete. rewrite H1, H2, Ht, Hu, !bool_decide_eq_true_2, H3 by done. simpl.
  destruct (snap_result final); [|done]. destruct (settle_spec (Ok final) s) as (_ & _ & _ & _ & Hs).
  by destruct Hs as [[_ ->]|[? ->]].
Qed.

Lemma send_event_spec contiguous e s :
  let s' := send_event contiguous e s in
  Grows s s' ∧ cr_terminal s' = cr_terminal s ∧ cr_last_seq s' = cr_last_seq s ∧
  ((cr_sender s = true ∧ cr_sender s' = true ∧ contiguous = true ∧ cr_queue s' = cr_queue s ++ [e]) ∨
   (cr_sender s' = false ∧ cr_queue s' = cr_queue s ∧
    (cr_sender s = false ∨ cr_lagged s' = true ∨ cr_receiver s = ReceiverDropped))).
Proof.
  unfold send_event. destruct contiguous; simpl.
  - destruct (cr_sender s) eqn:Hs; [|simpl; split_and!; [by split|done..|right; auto]].
    destruct (cr_receiver s) eqn:Hr; try (case_bool_decide); simpl;
      (split_and!; [split; simpl; congruence|done|done|]); first [by left|right; by auto].
  - split_and!; [split; simpl; congruence|done|done|right; auto].
Qed.

(** The effect of an event that is new. *)
Record Accepted e s s' : Prop := {
  ac_grows : Grows s s';
  ac_seq : cr_last_seq s' = re_seq e;
  ac_queue : (cr_queue s' = cr_queue s ++ [e] ∧ cr_sender s = true ∧ re_seq e = (cr_last_seq s + 1)%N)
    ∨ (cr_queue s' = cr_queue s ∧ cr_sender s' = false);
  ac_terminal : ∀ outcome, cr_terminal s' = Some outcome → cr_terminal s = Some outcome ∨ outcome_ok outcome;
  ac_sender : cr_sender s' = false →
    cr_sender s = false ∨ cr_lagged s' = true ∨ cr_receiver s' = ReceiverDropped ∨ is_some (cr_terminal s') = true;
}.

Lemma Accepted_quiet e s s1 s2 : Accepted e s s1 → Quiet s1 s2 → Accepted e s s2.
Proof.
  intros [G1 S1 Q1 T1 F1] [G2 Q2 S2 T2 F2]. split; [by etrans|congruence| | |].
  - rewrite Q2. destruct Q1 as [?|[? Hs]]; [by left|right]. split; [done|].
    destruct (cr_sender s2) eqn:Hs2; [|done]. by rewrite (gr_sender _ _ G2 Hs2) in Hs.
  - intros o [Ho|?]%T2; [by apply T1|by right].
  - rewrite (gr_receiver _ _ G2). intros [Hs|]%F2; [|auto]. destruct (F1 Hs) as [?|[?|[?|Ht]]]; auto.
    + right. left. by apply (gr_lagged _ _ G2).
    + right. right. right. destruct (cr_terminal s1) as [o|] eqn:Ho; [|done]. by rewrite (gr_terminal _ _ G2 _ Ho).
Qed.

(** The bookkeeping of [accept] that the reader does not see. *)
Lemma Grows_fields s s' :
  cr_thread_id s' = cr_thread_id s → cr_turn_id s' = cr_turn_id s → cr_receiver s' = cr_receiver s →
  cr_lagged s' = cr_lagged s → cr_terminal s' = cr_terminal s → cr_sender s' = cr_sender s → Grows s s'.
Proof. split; congruence. Qed.

Lemma accept_effect e s :
  RunLog → e ∈ log → cr_thread_id s = thread_id → cr_turn_id s = turn_id →
  ((re_seq e <= cr_last_seq s)%N ∧ Quiet s (accept e s).2) ∨ ((cr_last_seq s < re_seq e)%N ∧ Accepted e s (accept e s).2).
Proof.
  intros HL [i Hi]%list_elem_of_lookup Ht Hu. destruct (rl_event HL _ _ Hi) as (He1 & He2 & _).
  unfold accept. rewrite He1, He2, Ht, Hu, !bool_decide_eq_true_2 by done. simpl.
  destruct (N.leb_spec (re_seq e) (cr_last_seq s)) as [Hle|Hlt].
  { left. split; [done|]. simpl. rewrite N.max_l by done. split; simpl; first [done|by split|by left|auto]. }
  right. split; [done|]. rewrite N.max_r by lia.
  match goal with |- context [send_event ?b e ?x] => set (t := x); set (c := b); pose proof (send_event_spec c e t) as Hsend end.
  assert (Grows s t ∧ cr_queue t = cr_queue s ∧ cr_last_seq t = re_seq e ∧ cr_sender t = cr_sender s ∧
    cr_terminal t = cr_terminal s ∧ cr_receiver t = cr_receiver s) as (Gt & Qt & St & Et & Tt & Rt).
  { unfold t. destruct (is_stream_payload _); simpl; split_and!; try done; by apply Grows_fields. }
  set (u := send_event c e t) in *. destruct Hsend as (Gu & Tu & Su & Hcase).
  assert (Accepted e s u) as Hacc.
  { split; [by etrans|congruence| | |].
    - rewrite <-Qt, <-Et. destruct Hcase as [(H1 & _ & Hc & Hq)|(? & ? & _)]; [left|by right].
      split_and!; [done|done|]. by apply N.eqb_eq.
    - rewrite Tu, Tt. by left.
    - intros Hf. destruct Hcase as [(_ & H1 & _)|(_ & _ & [?|[?|?]])]; [congruence|left; congruence|auto|].
      right. right. left. by rewrite (gr_receiver _ _ Gu). }
  destruct (re_payload e) as [|snapshot] eqn:Hp; simpl; [done|].
  destruct (rl_finished HL _ _ _ Hi Hp) as (-> & _ & Hs). rewrite Hs, bool_decide_eq_true_2 by done.
  destruct (rl_final HL) as (_ & _ & Hterm & _). rewrite Hterm. simpl.
  pose proof (run_complete_Quiet final (set_sender false u) (or_intror eq_refl)) as [G Q S T F].
  pose proof (run_complete_final (set_sender false u) HL) as Hsome. simpl in Hsome.
  rewrite (gr_thread _ _ Gu), (gr_thread _ _ Gt), (gr_turn _ _ Gu), (gr_turn _ _ Gt) in Hsome. specialize (Hsome Ht Hu).
  destruct Hacc as [Ga Sa Qa Ta Fa].
  assert (Grows s (run_complete final (set_sender false u))) as Gall.
  { transitivity u; [done|]. transitivity (set_sender false u); [|done]. split; simpl; congruence. }
  split; [done|by rewrite S| | |auto].
  - rewrite Q. simpl. destruct Qa as [?|[? Hf]]; [by left|right]. split; [done|].
    destruct (cr_sender (run_complete _ _)) eqn:Hx; [|done]. by apply (gr_sender _ _ G) in Hx.
  - intros o [Ho|?]%T; [by apply Ta|by right].
Qed.

Lemma answers_grow_fields s s' ph out :
  answers_ok s ph out → (cr_lagged s = true → cr_lagged s' = true) →
  (∀ outcome, cr_terminal s = Some outcome → cr_terminal s' = Some outcome) → answers_ok s' ph out.
Proof.
  intros Ha Hl Ht. destruct Ha; [by constructor|constructor; by apply Hl|constructor; by apply Ht|constructor; by apply Ht].
Qed.
Lemma answers_grow s s' ph out : answers_ok s ph out → Grows s s' → answers_ok s' ph out.
Proof. intros Ha [_ _ _ Hl Ht _]. by eapply answers_grow_fields. Qed.

Lemma events_read_app out out' : events_read (out ++ out') = events_read out ++ events_read out'.
Proof. apply omap_app. Qed.
Lemma events_read_nones n : events_read (replicate n (Ok None)) = [].
Proof. induction n; [done|]. simpl. done. Qed.

Lemma ReadingOk_quiet s s' ph out :
  ReadingOk {| rd_run := s; rd_phase := ph; rd_out := out |} → Quiet s s' → 
  ReadingOk {| rd_run := s'; rd_phase := ph; rd_out := out |}.
Proof.
  intros [Rt Ru Rs Rr Rl Rterm Rse Ra] [G Q S T F]. simpl in *. destruct G as [G1 G2 G3 G4 G5 G6] eqn:HG. clear HG.
  split; simpl; try congruence; try done.
  - rewrite Q, S, G3. intros H1 H2. destruct (Rl H1 H2) as (n & Hn & Hle & Hse). exists n. split_and!; [done|done|auto].
  - intros o [Ho|?]%T; [by apply Rterm|done].
  - rewrite G3. intros [Hs|?]%F; [|auto]. destruct (Rse Hs) as [?|[?|Ht]]; auto.
    right. right. destruct (cr_terminal s) as [o|]; [|done]. by rewrite (G5 o eq_refl).
  - by eapply answers_grow.
Qed.

Lemma ReadingOk_accepted e s s' ph out :
  RunLog → e ∈ log → ReadingOk {| rd_run := s; rd_phase := ph; rd_out := out |} →
  (cr_last_seq s < re_seq e)%N → Accepted e s s' → ReadingOk {| rd_run := s'; rd_phase := ph; rd_out := out |}.
Proof.
  intros HL [i Hi]%list_elem_of_lookup [Rt Ru Rs Rr Rl Rterm Rse Ra] Hlt [G S Q T F]. simpl in *.
  destruct (rl_event HL _ _ Hi) as (_ & _ & Hse). pose proof (lookup_lt_Some _ _ _ Hi) as Hlen.
  pose proof (answers_grow _ _ _ _ Ra G) as Ra'. destruct G as [G1 G2 G3 G4 G5 G6].
  split; simpl; try congruence; try done; try lia.
  - rewrite S, G3. intros H1 H2. destruct (Rl H1 H2) as (n & Hn & Hle & Hsn).
    destruct Q as [(-> & Hs & Hnext)|[-> Hs]].
    + specialize (Hsn Hs). exists (Datatypes.S n). split_and!; [|lia|lia].
      rewrite (take_S_r _ _ e) by (rewrite <-Hi; f_equal; lia). by rewrite app_assoc, Hn.
    + exists n. split_and!; [done|lia|by rewrite Hs].
  - intros o [Ho|?]%T; [by apply Rterm|done].
  - rewrite G3 in *. intros [Hs|[?|[?|?]]]%F; auto. destruct (Rse Hs) as [?|[?|Ht]]; auto.
    right. right. destruct (cr_terminal s) as [o|]; [|done]. by rewrite (G5 o eq_refl).
Qed.

(** ** The reader *)

Lemma events_read_events events : events_read (Ok ∘ Some <$> events) = events.
Proof. induction events as [|e events IH]; [done|]. unfold events_read in *. simpl. by f_equal. Qed.

(** An answer of a reader that is not at its end. *)
Lemma answers_open s ph out : answers_ok s ph out → ph ≠ StreamEnded → ∃ events, out = Ok ∘ Some <$> events.
Proof. intros [ph' events| | |] Hne; [by exists events|done..]. Qed.

(** An answer at the end adds nothing. *)
Lemma answers_again s out : answers_ok s StreamEnded out → answers_ok s StreamEnded (out ++ [Ok None]).
Proof.
  inversion 1 as [ph events Hne|events more|events message more|events more]; subst; [done|..].
  - rewrite <-app_assoc. simpl. rewrite <-replicate_cons_app, <-replicate_S. by constructor.
  - rewrite <-app_assoc. simpl. rewrite <-replicate_cons_app, <-replicate_S. by constructor.
  - rewrite <-app_assoc, <-replicate_cons_app, <-replicate_S. by constructor.
Qed.

Lemma ReadingOk_begin s ph out answer ph' :
  recv_begin s ph = (answer, ph') → ph ≠ StreamWaiting →
  ReadingOk {| rd_run := s; rd_phase := ph; rd_out := out |} →
  ReadingOk {| rd_run := s; rd_phase := ph'; rd_out := out ++ option_list answer |}.
Proof.
  intros Hb Hw [Rt Ru Rs Rr Rl Rterm Rse Ra]. simpl in *.
  assert ((ph = StreamEnded ∧ answer = Some (Ok None) ∧ ph' = StreamEnded) ∨
          (ph = StreamIdle ∧ cr_lagged s = true ∧ answer = Some (Err SdkEventLagged) ∧ ph' = StreamEnded) ∨
          (ph = StreamIdle ∧ answer = None ∧ ph' = StreamWaiting)) as [(-> & -> & ->)|[(-> & Hl & -> & ->)|(-> & -> & ->)]].
  { unfold recv_begin in Hb. destruct ph; [|done|by injection Hb as <- <-; first [by left|by right; left|by right; right]].
    destruct (cr_lagged s) eqn:Hl; injection Hb as <- <-; first [by left|by right; left|by right; right]. }
  - simpl. split; simpl; try done; rewrite ?events_read_app, ?app_nil_r; try done. by apply answers_again.
  - simpl. split; simpl; try done; rewrite ?events_read_app, ?app_nil_r; try done.
    destruct (answers_open _ _ _ Ra ltac:(done)) as [events ->]. by apply (answers_lagged s events 0).
  - simpl. rewrite app_nil_r. split; simpl; try done; [by intros _; apply Rl|].
    destruct (answers_open _ _ _ Ra ltac:(done)) as [events ->]. by constructor.
Qed.

Lemma ReadingOk_finish s out answer ph s' :
  cr_receiver s = ReceiverTaken → recv_finish s = Some (answer, ph, s') →
  ReadingOk {| rd_run := s; rd_phase := StreamWaiting; rd_out := out |} →
  ReadingOk {| rd_run := s'; rd_phase := ph; rd_out := out ++ [answer] |}.
Proof.
  intros Hr Hf [Rt Ru Rs Rr Rl Rterm Rse Ra]. simpl in *.
  destruct (Rl ltac:(done) ltac:(by rewrite Hr)) as (n & Hn & Hle & Hsn).
  destruct (answers_open _ _ _ Ra ltac:(done)) as [events Hout].
  unfold recv_finish in Hf. destruct (cr_queue s) as [|e queue] eqn:Hq.
  - destruct (cr_sender s) eqn:Hs; [done|]. injection Hf as Hf.
    assert (∀ answer', (∀ e, answer' ≠ Ok (Some e)) → answers_ok s StreamEnded (out ++ [answer']) →
      ReadingOk {| rd_run := s; rd_phase := StreamEnded; rd_out := out ++ [answer'] |}) as Hend.
    { intros answer' Hne Hans. split; simpl; try done; [|by intros _; apply Rse]. rewrite events_read_app.
      destruct answer' as [[e|]|]; [by destruct (Hne e)|simpl; by rewrite app_nil_r..]. }
    destruct (cr_lagged s) eqn:Hl.
    { injection Hf as <- <- <-. apply Hend; [done|]. subst out. by apply (answers_lagged s events 0). }
    destruct (Rse eq_refl) as [?|[?|Ht]]; [done|congruence|].
    destruct (cr_terminal s) as [[snapshot|message]|] eqn:Hterm; [| |done]; injection Hf as <- <- <-; (apply Hend; [done|]); subst out.
    + apply (answers_quiet s events 0). rewrite Hterm. do 2 f_equal. by apply (Rterm _ eq_refl).
    + by apply (answers_failed s events message 0).
  - injection Hf as Hf. simpl in Hf.
    assert (events_read out ++ [e] `prefix_of` log) as Hpre.
    { exists (queue ++ drop n log). rewrite <-(take_drop n log) at 1. rewrite <-Hn, <-!app_assoc. done. }
    destruct (cr_lagged s) eqn:Hl; injection Hf as <- <- <-; split; simpl; try done; rewrite ?events_read_app; simpl.
    + by rewrite app_nil_r.
    + by left.
    + subst out. by apply (answers_lagged (set_queue queue s) events 0).
    + done.
    + intros _ _. exists n. rewrite <-Hn, <-app_assoc. done.
    + intros Hse. destruct (Rse Hse) as [?|?]; [done|by right].
    + subst out. change [Ok (Some e)] with ((Ok ∘ Some <$> [e]) : list (result SdkError (option RunEvent))).
      rewrite <-fmap_app. by constructor.
Qed.

Lemma run_step_ok x y : RunLog → run_step x y → ReadingOk x → ReadingOk y.
Proof.
  intros HL Hs Hx. destruct Hs as [s ph out e He|s ph out message|s ph out snapshot Hsn|s ph out Ht|s out s' Hev
    |s ph out answer ph' Hr Hw Hb|s out answer ph s' Hr Hf|s out|s ph out Hr].
  - destruct (accept_effect e s HL He (ro_thread _ Hx) (ro_turn _ Hx)) as [[_ Hq]|[Hlt Ha]].
    + by eapply ReadingOk_quiet.
    + by eapply ReadingOk_accepted.
  - eapply ReadingOk_quiet; [done|apply run_fail_Quiet].
  - eapply ReadingOk_quiet; [done|by apply run_complete_Quiet].
  - eapply ReadingOk_quiet; [done|]. unfold finish_snapshot_only. split; simpl; auto. split; simpl; congruence.
  - unfold handle_events in Hev. destruct Hx as [Rt Ru Rs Rr Rl Rterm Rse Ra]. simpl in *.
    destruct (cr_receiver s) eqn:Hr; [|done..]. injection Hev as <-. split; simpl; try done.
    + intros H1 _. by apply Rl.
    + intros Hse. destruct (Rse Hse) as [?|[?|?]]; [by left|done|by right; right].
    + eapply answers_grow_fields; [exact Ra|done..].
  - by eapply ReadingOk_begin.
  - by eapply ReadingOk_finish.
  - destruct Hx as [Rt Ru Rs Rr Rl Rterm Rse Ra]. simpl in *. split; simpl; try done; [by intros _; apply Rl|].
    destruct (answers_open _ _ _ Ra ltac:(done)) as [events ->]. by constructor.
  - destruct Hx as [Rt Ru Rs Rr Rl Rterm Rse Ra]. simpl in *. split; simpl; try done; [by auto|].
    eapply answers_grow_fields; [exact Ra|done..].
Qed.
End run.
