(* ===== verification/SdkRoutes.v ===== *)
(** * The routes of a connection

    The steps of [SdkRuns] on the registry of a connection, with the leases of the
    queries and the starts that wait for their answer. *)

From stdpp Require Import relations gmultiset.
From S2P Require Import Prelude Protocol SdkViews SdkRuns.

Implicit Types (s : RunState) (t : Routes) (q : QueryOwnership).

(** A connection: its routes, a lease for each query that waits, the starts that were
    not answered yet, and those that were accepted. *)
Record Connection := { cn_routes : Routes; cn_leases : gmultiset nat; cn_starts : gset nat; cn_accepted : gset nat }.

Definition no_routes : Routes := {| rt_heap := ∅; rt_runs := ∅; rt_handles := ∅; rt_next := 0 |}.
Definition connected : Connection := {| cn_routes := no_routes; cn_leases := ∅; cn_starts := ∅; cn_accepted := ∅ |}.

Inductive route_step : Connection → Connection → Prop :=
  | route_start t leases starts accepted thread_id turn_id legacy a t' :
      start_route thread_id turn_id legacy t = (a, t') →
      route_step {| cn_routes := t; cn_leases := leases; cn_starts := starts; cn_accepted := accepted |}
                 {| cn_routes := t'; cn_leases := leases; cn_starts := {[a]} ∪ starts; cn_accepted := accepted |}
  | route_accepted t leases starts accepted a :
      a ∈ starts →
      route_step {| cn_routes := t; cn_leases := leases; cn_starts := starts; cn_accepted := accepted |}
                 {| cn_routes := t; cn_leases := leases; cn_starts := starts ∖ {[a]}; cn_accepted := {[a]} ∪ accepted |}
  | route_abandoned t leases starts accepted a :
      a ∈ starts →
      route_step {| cn_routes := t; cn_leases := leases; cn_starts := starts; cn_accepted := accepted |}
                 {| cn_routes := abandon_start a t; cn_leases := leases; cn_starts := starts ∖ {[a]}; cn_accepted := accepted |}
  | route_query t leases starts accepted thread_id turn_id a t' :
      query_route thread_id turn_id t = (a, t') →
      route_step {| cn_routes := t; cn_leases := leases; cn_starts := starts; cn_accepted := accepted |}
                 {| cn_routes := t'; cn_leases := {[+ a +]} ⊎ leases; cn_starts := starts; cn_accepted := accepted |}
  | route_reply t leases starts accepted a thread_id reply :
      a ∈ leases →
      route_step {| cn_routes := t; cn_leases := leases; cn_starts := starts; cn_accepted := accepted |}
                 {| cn_routes := (query_reply a thread_id reply t).2; cn_leases := leases ∖ {[+ a +]};
                    cn_starts := starts; cn_accepted := accepted |}
  | route_cancelled t leases starts accepted a :
      a ∈ leases →
      route_step {| cn_routes := t; cn_leases := leases; cn_starts := starts; cn_accepted := accepted |}
                 {| cn_routes := release a t; cn_leases := leases ∖ {[+ a +]}; cn_starts := starts; cn_accepted := accepted |}
  | route_event t leases starts accepted event :
      route_step {| cn_routes := t; cn_leases := leases; cn_starts := starts; cn_accepted := accepted |}
                 {| cn_routes := route_run_event event t; cn_leases := leases; cn_starts := starts; cn_accepted := accepted |}
  | route_snapshot t leases starts accepted a snapshot :
      route_step {| cn_routes := t; cn_leases := leases; cn_starts := starts; cn_accepted := accepted |}
                 {| cn_routes := on_run a (run_complete snapshot) t; cn_leases := leases; cn_starts := starts; cn_accepted := accepted |}
  | route_session_closed t leases starts accepted sid message :
      route_step {| cn_routes := t; cn_leases := leases; cn_starts := starts; cn_accepted := accepted |}
                 {| cn_routes := release_session_runs sid message t; cn_leases := leases; cn_starts := starts; cn_accepted := accepted |}
  | route_disconnected t leases starts accepted message :
      route_step {| cn_routes := t; cn_leases := leases; cn_starts := starts; cn_accepted := accepted |}
                 {| cn_routes := disconnect_runs message t; cn_leases := leases; cn_starts := starts; cn_accepted := accepted |}
  | route_dropped t leases starts accepted a :
      a ∉ leases → a ∉ starts → (∀ turn_id, rt_runs t !! turn_id ≠ Some a) →
      route_step {| cn_routes := t; cn_leases := leases; cn_starts := starts; cn_accepted := accepted |}
                 {| cn_routes := drop_run a t; cn_leases := leases; cn_starts := starts; cn_accepted := accepted |}.

(** ** The invariant *)

(** A route that only a query has set up is held by a lease, or its run is known to be
    live. *)
Definition held s : Prop := ∀ q, cr_query s = Some q → (0 < qo_waiters q)%N ∨ qo_observed_live q = true.

Record RoutesOk t (leases : gmultiset nat) : Prop := {
  rk_fresh : ∀ a s, rt_heap t !! a = Some s → a < rt_next t;
  rk_route : ∀ turn_id a, rt_runs t !! turn_id = Some a →
    ∃ s, rt_heap t !! a = Some s ∧ cr_turn_id s = turn_id ∧ held s;
  rk_handle : ∀ turn_id thread_id a, rt_handles t !! turn_id = Some (thread_id, a) → a < rt_next t ∧
    ∀ s, rt_heap t !! a = Some s → cr_turn_id s = turn_id ∧ cr_thread_id s = thread_id;
  rk_waiters : ∀ a s q, rt_heap t !! a = Some s → cr_query s = Some q → qo_waiters q = N.of_nat (multiplicity a leases);
  rk_leased : ∀ a, a ∈ leases → is_Some (rt_heap t !! a);
}.

(** A step of a run that keeps its identity, its waiters and what was observed. *)
Definition Keeps s s' : Prop :=
  cr_thread_id s' = cr_thread_id s ∧ cr_turn_id s' = cr_turn_id s ∧
  match cr_query s, cr_query s' with
  | None, None => True
  | Some q, Some q' => qo_waiters q' = qo_waiters q ∧ (qo_observed_live q = true → qo_observed_live q' = true)
  | _, _ => False
  end.
#[export] Instance Keeps_preorder : PreOrder Keeps.
Proof.
  split; [intros s; unfold Keeps; destruct (cr_query s); naive_solver|].
  intros s1 s2 s3 (H1 & H2 & H3) (H4 & H5 & H6). unfold Keeps. split_and!; [congruence..|].
  destruct (cr_query s1), (cr_query s2), (cr_query s3); naive_solver congruence.
Qed.

Lemma Keeps_fields s s' :
  cr_thread_id s' = cr_thread_id s → cr_turn_id s' = cr_turn_id s → cr_query s' = cr_query s → Keeps s s'.
Proof. intros H1 H2 H3. split_and!; [done..|]. rewrite H3. by destruct (cr_query s). Qed.

Lemma settle_Keeps outcome s : Keeps s (settle outcome s).
Proof. unfold settle. destruct (cr_terminal s); by apply Keeps_fields. Qed.
Lemma run_fail_Keeps message s : Keeps s (run_fail message s).
Proof. transitivity (settle (Err message) s); [apply settle_Keeps|by apply Keeps_fields]. Qed.
Lemma run_complete_Keeps snapshot s : Keeps s (run_complete snapshot s).
Proof.
  unfold run_complete. destruct (_ || _); [apply run_fail_Keeps|]. destruct (is_terminal _); [|done].
  destruct (snap_result snapshot); [apply settle_Keeps|apply run_fail_Keeps].
Qed.
Lemma send_event_Keeps c event s : Keeps s (send_event c event s).
Proof.
  unfold send_event. destruct c; simpl; [|by apply Keeps_fields].
  destruct (cr_sender s); [|done]. destruct (cr_receiver s); try case_bool_decide; by apply Keeps_fields.
Qed.
Lemma accept_Keeps event s : Keeps s (accept event s).2.
Proof.
  unfold accept. destruct (_ || _); [apply run_fail_Keeps|]. destruct (_ <=? _)%N; [by apply Keeps_fields|].
  match goal with |- context [send_event ?b event ?x] => assert (Keeps s (send_event b event x)) as Hk;
    [transitivity x; [|apply send_event_Keeps]|set (u := send_event b event x) in *] end.
  { destruct (is_stream_payload _); unfold Keeps; simpl; destruct (cr_query s); naive_solver. }
  destruct (re_payload event) as [|snapshot]; simpl; [done|]. transitivity u; [done|].
  transitivity (set_sender false u); [by apply Keeps_fields|].
  destruct (_ || _); [apply run_fail_Keeps|apply run_complete_Keeps].
Qed.
Lemma held_Keeps s s' : held s → Keeps s s' → held s'.
Proof.
  intros Hh (_ & _ & Hq) q' Hq'. rewrite Hq' in Hq. destruct (cr_query s) as [q|] eqn:H; [|done].
  destruct Hq as [-> Hl]. destruct (Hh q H); auto.
Qed.

(** Any change of the runs that keeps them, and any loss of routes and handles. *)
Lemma RoutesOk_keeps t t' leases :
  RoutesOk t leases → rt_next t' = rt_next t → rt_runs t' ⊆ rt_runs t → rt_handles t' ⊆ rt_handles t →
  (∀ a, match rt_heap t !! a, rt_heap t' !! a with Some s, Some s' => Keeps s s' | None, None => True | _, _ => False end) →
  RoutesOk t' leases.
Proof.
  intros [Hf Hr Hh Hw Hl] Hn Hsr Hsh Hheap.
  assert (∀ a s', rt_heap t' !! a = Some s' → ∃ s, rt_heap t !! a = Some s ∧ Keeps s s') as Hback.
  { intros a s' Hs'. specialize (Hheap a). rewrite Hs' in Hheap. destruct (rt_heap t !! a); [by eexists|done]. }
  assert (∀ a s, rt_heap t !! a = Some s → ∃ s', rt_heap t' !! a = Some s' ∧ Keeps s s') as Hforth.
  { intros a s Hs. specialize (Hheap a). rewrite Hs in Hheap. destruct (rt_heap t' !! a); [by eexists|done]. }
  split.
  - intros a s (s0 & Hs & _)%Hback. rewrite Hn. by eapply Hf.
  - intros turn_id a Ha. destruct (Hr turn_id a) as (s & Hs & Ht & Hheld); [by eapply lookup_weaken|].
    destruct (Hforth _ _ Hs) as (s' & Hs' & Hk). exists s'. split_and!; [done| |by eapply held_Keeps].
    destruct Hk as (_ & -> & _). done.
  - intros turn_id thread_id a Ha. destruct (Hh turn_id thread_id a) as [Hlt Hs]; [by eapply lookup_weaken|].
    rewrite Hn. split; [done|]. intros s' (s & Hs0 & (Hk1 & Hk2 & _))%Hback. rewrite Hk1, Hk2. by apply Hs.
  - intros a s' q' (s & Hs & (_ & _ & Hk))%Hback Hq'. rewrite Hq' in Hk. destruct (cr_query s) as [q|] eqn:Hq; [|done].
    destruct Hk as [-> _]. by eapply Hw.
  - intros a [s Hs]%Hl. destruct (Hforth _ _ Hs) as (s' & Hs' & _). by eexists.
Qed.

Lemma RoutesOk_on_run a f t leases :
  RoutesOk t leases → (∀ s, rt_heap t !! a = Some s → Keeps s (f s)) → RoutesOk (on_run a f t) leases.
Proof.
  intros Hok Hk. eapply RoutesOk_keeps; try done. intros b. simpl. destruct (decide (a = b)) as [<-|Hne].
  - rewrite lookup_alter_eq. destruct (rt_heap t !! a) as [s|] eqn:Hs; [by apply Hk|done].
  - rewrite lookup_alter_ne by done. by destruct (rt_heap t !! b).
Qed.

Lemma RoutesOk_remove turn_id a t leases : RoutesOk t leases → RoutesOk (remove_route_if_same turn_id a t) leases.
Proof.
  intros Hok. unfold remove_route_if_same. case_bool_decide; [|done]. eapply RoutesOk_keeps; try done.
  - simpl. apply delete_subseteq.
  - intros b. simpl. by destruct (rt_heap t !! b).
Qed.

Lemma RoutesOk_insert turn_id a s t leases :
  RoutesOk t leases → rt_heap t !! a = Some s → cr_turn_id s = turn_id → held s →
  RoutesOk (with_routes (<[turn_id := a]> (rt_runs t)) t) leases.
Proof.
  intros [Hf Hr Hh Hw Hl] Hs Ht Hheld. split; simpl; try done.
  intros turn_id' b [[<- <-]|[_ Hb]]%lookup_insert_Some; [by exists s|by apply Hr].
Qed.

Lemma new_cached_ok thread_id turn_id query t leases a t' :
  RoutesOk t leases → new_cached thread_id turn_id query t = (a, t') →
  RoutesOk t' leases ∧ rt_heap t' !! a = Some (new_inner thread_id turn_id query) ∧ rt_runs t' = rt_runs t.
Proof.
  intros [Hf Hr Hh Hw Hl] [= <- <-]. simpl. split; [|split; [by rewrite lookup_insert_eq|done]].
  assert (rt_heap t !! rt_next t = None) as Hnew.
  { destruct (rt_heap t !! rt_next t) as [s|] eqn:Hs; [|done]. apply Hf in Hs. lia. }
  split; simpl.
  - intros b s [[<- _]|[_ Hb]]%lookup_insert_Some; [lia|]. apply Hf in Hb. lia.
  - intros turn_id' b Hb. destruct (Hr _ _ Hb) as (s & Hs & ? & ?). exists s. split; [|done].
    rewrite lookup_insert_ne; [done|]. intros <-. congruence.
  - intros turn_id' thread_id' b [[<- [= <- <-]]|[_ Hb]]%lookup_insert_Some.
    + split; [lia|]. intros s. rewrite lookup_insert_eq. by intros [= <-].
    + destruct (Hh _ _ _ Hb) as [Hlt Hs]. split; [lia|]. intros s. rewrite lookup_insert_ne by lia. apply Hs.
  - intros b s q [[<- <-]|[_ Hb]]%lookup_insert_Some Hq; [|by eapply Hw].
    assert (rt_next t ∉ leases) as Hni by (intros [s Hs]%Hl; congruence).
    apply not_elem_of_multiplicity in Hni. rewrite Hni. destruct query; [|done]. by injection Hq as <-.
  - intros b Hb. rewrite lookup_insert_is_Some'. right. by apply Hl.
Qed.

Lemma acquire_ok a t leases :
  RoutesOk t leases → is_Some (rt_heap t !! a) →
  RoutesOk (acquire a t) ({[+ a +]} ⊎ leases) ∧ ∀ s, rt_heap (acquire a t) !! a = Some s → held s.
Proof.
  intros [Hf Hr Hh Hw Hl] [s0 Hs0]. unfold acquire, on_run. simpl.
  set (f := λ s, set_query ((λ q, {| qo_waiters := qo_waiters q + 1; qo_observed_live := qo_observed_live q;
    qo_observed_terminal := qo_observed_terminal q |}) <$> cr_query s) s).
  assert (∀ b s, alter f a (rt_heap t) !! b = Some s → (b = a ∧ s = f s0) ∨ (b ≠ a ∧ rt_heap t !! b = Some s)) as Hb.
  { intros b s. destruct (decide (b = a)) as [->|Hne].
    - rewrite lookup_alter_eq, Hs0. intros [= <-]. by left.
    - rewrite lookup_alter_ne by done. by right. }
  assert (held (f s0)) as Hheld.
  { intros q. unfold f. simpl. destruct (cr_query s0); [|done]. intros [= <-]. simpl. left. lia. }
  split.
  2:{ intros s [[_ ->]|[? _]]%Hb; done. }
  split; simpl.
  - intros b s [[-> _]|[_ Hs]]%Hb; by eapply Hf.
  - intros turn_id b Hbr. destruct (Hr _ _ Hbr) as (s & Hs & Ht & Hhs). destruct (decide (b = a)) as [->|Hne].
    + rewrite lookup_alter_eq, Hs. exists (f s). by simplify_eq.
    + exists s. by rewrite lookup_alter_ne.
  - intros turn_id thread_id b Hbh. destruct (Hh _ _ _ Hbh) as [Hlt Hs]. split; [done|].
    intros s [[-> ->]|[_ ?]]%Hb; [|by apply Hs]. unfold f. simpl. by apply Hs.
  - intros b s q Hs Hq. rewrite multiplicity_disj_union. destruct (Hb _ _ Hs) as [[-> ->]|[Hne Hs']].
    + rewrite multiplicity_singleton, decide_True by done. unfold f in Hq. simpl in Hq.
      destruct (cr_query s0) as [q0|] eqn:Hq0; [|done]. apply Some_inj in Hq as <-. simpl. rewrite (Hw _ _ _ Hs0 Hq0). lia.
    + rewrite multiplicity_singleton_ne by done. by eapply Hw.
  - intros b Hbl. rewrite lookup_alter_is_Some. apply gmultiset_elem_of_disj_union in Hbl as [->%gmultiset_elem_of_singleton|Hbl];
      [by eexists|by apply Hl].
Qed.

Lemma release_ok a t leases : RoutesOk t leases → a ∈ leases → RoutesOk (release a t) (leases ∖ {[+ a +]}).
Proof.
  intros Hok Ha. pose proof Hok as [Hf Hr Hh Hw Hl]. destruct (Hl _ Ha) as [s Hs]. unfold release. rewrite Hs.
  assert (∀ b, b ≠ a → multiplicity b (leases ∖ {[+ a +]}) = multiplicity b leases) as Hmne.
  { intros b Hne. rewrite multiplicity_difference, multiplicity_singleton_ne by done. lia. }
  assert (∀ b, b ∈ leases ∖ {[+ a +]} → b ∈ leases) as Hsub by multiset_solver.
  destruct (cr_query s) as [q|] eqn:Hq.
  2:{ split; try done; [|by eauto]. intros b s' q' Hs' Hq'. rewrite Hmne; [by eapply Hw|]. intros ->. congruence. }
  pose proof (Hw _ _ _ Hs Hq) as Hwait.
  assert (multiplicity a (leases ∖ {[+ a +]}) = multiplicity a leases - 1) as Hma.
  { rewrite multiplicity_difference, multiplicity_singleton, decide_True by done. done. }
  set (q' := {| qo_waiters := qo_waiters q - 1; qo_observed_live := qo_observed_live q;
                qo_observed_terminal := qo_observed_terminal q |}).
  (* the runs after the lease has gone, with any routes that hold what they lead to *)
  assert (∀ f runs, (∀ x, Keeps x (f x)) → runs ⊆ rt_runs t → (∀ turn_id, runs !! turn_id = Some a → held (set_query (Some q') s)) →
    RoutesOk {| rt_heap := alter (λ x, f (set_query (Some q') x)) a (rt_heap t); rt_runs := runs; rt_handles := rt_handles t;
                rt_next := rt_next t |} (leases ∖ {[+ a +]})) as Hgen.
  { intros f runs Hfk Hrs Hheld. destruct (Hfk (set_query (Some q') s)) as (Hk1 & Hk2 & Hk3). simpl in Hk1, Hk2, Hk3.
    assert (∀ b x, alter (λ x, f (set_query (Some q') x)) a (rt_heap t) !! b = Some x →
      (b = a ∧ x = f (set_query (Some q') s)) ∨ (b ≠ a ∧ rt_heap t !! b = Some x)) as Hb.
    { intros b x. destruct (decide (b = a)) as [->|Hne].
      - rewrite lookup_alter_eq, Hs. intros [= <-]. by left.
      - rewrite lookup_alter_ne by done. by right. }
    split; simpl.
    - intros b x [[-> _]|[_ Hx]]%Hb; by eapply Hf.
    - intros turn_id b Hbr. destruct (Hr turn_id b) as (x & Hx & Ht & Hhx); [by eapply lookup_weaken|].
      destruct (decide (b = a)) as [->|Hne].
      + rewrite lookup_alter_eq, Hx. simplify_eq. eexists. split_and!; [done|done|].
        eapply held_Keeps; [by eapply Hheld|apply Hfk].
      + exists x. by rewrite lookup_alter_ne.
    - intros turn_id thread_id b Hbh. destruct (Hh _ _ _ Hbh) as [Hlt Hx]. split; [done|].
      intros x [[-> ->]|[_ ?]]%Hb; [|by apply Hx]. rewrite Hk1, Hk2. by apply Hx.
    - intros b x q0 [[-> ->]|[Hne Hx]]%Hb Hq0; [|rewrite Hmne by done; by eapply Hw].
      rewrite Hq0 in Hk3. destruct Hk3 as [-> _]. simpl. rewrite Hma. lia.
    - intros b Hbl. rewrite lookup_alter_is_Some. by apply Hl, Hsub. }
  assert (held (set_query (Some q') s) ∨ ((qo_waiters q - 1 =? 0)%N && negb (qo_observed_live q) = true)) as Hcase.
  { destruct (qo_observed_live q) eqn:Hlive; [left; intros ? [= <-]; by right|].
    destruct (N.eqb_spec (qo_waiters q - 1) 0); [by right|left]. intros ? [= <-]. simpl. left. lia. }
  destruct ((qo_waiters q - 1 =? 0)%N && negb (qo_observed_live q)) eqn:Hend.
  - assert (∀ turn_id, delete (cr_turn_id s) (rt_runs t) !! turn_id ≠ Some a) as Hgone.
    { intros turn_id [Hne Hx]%lookup_delete_Some. destruct (Hr _ _ Hx) as (x & Hx' & Ht & _). congruence. }
    assert (∀ f, (∀ x, Keeps x (f x)) → RoutesOk (remove_route_if_same (cr_turn_id s) a
      {| rt_heap := alter (λ x, f (set_query (Some q') x)) a (rt_heap t); rt_runs := rt_runs t;
         rt_handles := rt_handles t; rt_next := rt_next t |}) (leases ∖ {[+ a +]})) as Hrem.
    { intros f Hfk. unfold remove_route_if_same. simpl. case_bool_decide as Hsame.
      - apply Hgen; [done|apply delete_subseteq|]. intros turn_id Hx. by destruct (Hgone turn_id).
      - apply Hgen; [done|done|]. intros turn_id Hx. destruct (Hr _ _ Hx) as (x & Hx' & Ht & _).
        destruct Hsame. by simplify_eq. }
    destruct (qo_observed_terminal q).
    + unfold on_run. simpl. rewrite alter_alter_eq. apply (Hrem finish_snapshot_only). intros x. by apply Keeps_fields.
    + apply (Hrem (λ x, x)). done.
  - apply (Hgen (λ x, x)); [done|done|]. intros _ _. by destruct Hcase.
Qed.

(** ** Every step keeps the invariant *)

Lemma start_route_ok thread_id turn_id legacy t leases a t' :
  RoutesOk t leases → start_route thread_id turn_id legacy t = (a, t') → RoutesOk t' leases.
Proof.
  intros Hok Hs. unfold start_route in Hs. destruct (new_cached _ _ _ _) as [a0 t0] eqn:Hn. injection Hs as <- <-.
  destruct (new_cached_ok _ _ _ _ _ _ _ Hok Hn) as (Hok' & Ha & _). destruct legacy.
  - eapply RoutesOk_insert; [|simpl; by rewrite lookup_alter_eq, Ha|done|done].
    apply RoutesOk_on_run; [done|]. intros s _. by apply Keeps_fields.
  - by eapply RoutesOk_insert.
Qed.

Lemma query_route_ok thread_id turn_id t leases a t' :
  RoutesOk t leases → query_route thread_id turn_id t = (a, t') → RoutesOk t' ({[+ a +]} ⊎ leases).
Proof.
  intros Hok Hq. unfold query_route in Hq. destruct (rt_runs t !! turn_id) as [b|] eqn:Hb.
  { injection Hq as <- <-. destruct (rk_route _ _ Hok _ _ Hb) as (s & Hs & _). by apply acquire_ok. }
  destruct (cached_run turn_id t) as [b|] eqn:Hc.
  - injection Hq as <- <-. unfold cached_run in Hc. apply bind_Some in Hc as ([thread b'] & Hh & [s [Hs [= <-]]]%fmap_Some).
    destruct (rk_handle _ _ Hok _ _ _ Hh) as [_ Hid]. destruct (Hid _ Hs) as [Ht _].
    destruct (acquire_ok b t leases Hok ltac:(by eexists)) as [Hok' Hheld].
    destruct (default false _); [|done].
    destruct (rk_leased _ _ Hok' b ltac:(multiset_solver)) as [s' Hs'].
    eapply (RoutesOk_insert _ _ _ (acquire b t)); [exact Hok'|exact Hs'| |by apply Hheld]. simpl in Hs'. rewrite lookup_alter_eq, Hs in Hs'.
    by injection Hs' as <-.
  - destruct (new_cached _ _ _ _) as [a0 t0] eqn:Hn. injection Hq as <- <-.
    destruct (new_cached_ok _ _ _ _ _ _ _ Hok Hn) as (Hok' & Ha & _).
    destruct (acquire_ok a0 t0 leases Hok' ltac:(by eexists)) as [Hok2 Hheld].
    eapply (RoutesOk_insert _ _ _ (acquire a0 t0)); [done|simpl; by rewrite lookup_alter_eq, Ha|done|].
    apply Hheld. simpl. by rewrite lookup_alter_eq, Ha.
Qed.

Lemma observe_Keeps snapshot s :
  Keeps s (if (snap_thread_id snapshot != cr_thread_id s) || (snap_turn_id snapshot != cr_turn_id s) then s else
    set_query ((λ q, if negb (is_terminal (snap_status snapshot))
      then {| qo_waiters := qo_waiters q; qo_observed_live := true; qo_observed_terminal := qo_observed_terminal q |}
      else {| qo_waiters := qo_waiters q; qo_observed_live := qo_observed_live q; qo_observed_terminal := true |})
    <$> cr_query s) s).
Proof.
  destruct (_ || _); [done|]. split_and!; [done|done|]. simpl. destruct (cr_query s); [|done].
  by destruct (negb _).
Qed.

Lemma query_reply_ok a thread_id reply t leases :
  RoutesOk t leases → a ∈ leases → RoutesOk (query_reply a thread_id reply t).2 (leases ∖ {[+ a +]}).
Proof.
  intros Hok Ha. unfold query_reply. destruct (rk_leased _ _ Hok _ Ha) as [s Hs]. rewrite Hs.
  destruct (_ != _); [by apply release_ok|]. destruct reply as [snapshot|error]; [|by apply release_ok]. simpl.
  apply release_ok; [|done]. apply RoutesOk_on_run; [|intros x _; apply observe_Keeps].
  apply RoutesOk_on_run; [done|]. intros x _. apply run_complete_Keeps.
Qed.

Lemma route_run_event_ok event t leases : RoutesOk t leases → RoutesOk (route_run_event event t) leases.
Proof.
  intros Hok. unfold route_run_event. destruct (rt_runs t !! re_turn_id event) as [a|]; [|done].
  destruct (rt_heap t !! a) as [s|] eqn:Hs; [|done].
  match goal with |- context [accept event ?x] => assert (Keeps s x) as Hk;
    [destruct (_ && _); by apply Keeps_fields|set (u := x) in *] end.
  pose proof (accept_Keeps event u) as Hk'. destruct (accept event u) as [ended v]. simpl in Hk'.
  assert (RoutesOk (on_run a (λ _, v) t) leases) as Hok'.
  { apply RoutesOk_on_run; [done|]. intros x Hx. assert (x = s) as -> by congruence. by transitivity u. }
  destruct ended; [by apply RoutesOk_remove|done].
Qed.

Lemma failed_runs_keep (t : Routes) (f : nat → bool) message a :
  match rt_heap t !! a, map_imap (λ b s, Some (if f b then run_fail message s else s)) (rt_heap t) !! a with
  | Some s, Some s' => Keeps s s' | None, None => True | _, _ => False
  end.
Proof.
  rewrite map_lookup_imap. destruct (rt_heap t !! a) as [s|]; [|done]. simpl. destruct (f a); [apply run_fail_Keeps|done].
Qed.

Lemma drop_run_ok a t leases :
  RoutesOk t leases → a ∉ leases → (∀ turn_id, rt_runs t !! turn_id ≠ Some a) → RoutesOk (drop_run a t) leases.
Proof.
  intros [Hf Hr Hh Hw Hl] Ha Hroute.
  assert (rt_handles (drop_run a t) ⊆ rt_handles t) as Hsub.
  { unfold drop_run. simpl. destruct (rt_heap t !! a); [|done]. case_bool_decide; [apply delete_subseteq|done]. }
  split; simpl.
  - intros b s [_ Hs]%lookup_delete_Some. by eapply Hf.
  - intros turn_id b Hb. destruct (Hr _ _ Hb) as (s & Hs & ? & ?). exists s. split; [|done].
    rewrite lookup_delete_ne; [done|]. intros <-. by destruct (Hroute turn_id).
  - intros turn_id thread_id b Hb. destruct (Hh turn_id thread_id b) as [Hlt Hs]; [by eapply lookup_weaken|].
    split; [done|]. intros s [_ Hx]%lookup_delete_Some. by apply Hs.
  - intros b s q [_ Hs]%lookup_delete_Some. by apply Hw.
  - intros b Hb. rewrite lookup_delete_ne; [by apply Hl|]. intros <-. done.
Qed.

Lemma route_step_ok x y :
  route_step x y → RoutesOk (cn_routes x) (cn_leases x) → RoutesOk (cn_routes y) (cn_leases y).
Proof.
  destruct 1 as [| |t leases starts accepted a Ha| | |t leases starts accepted a Ha| | | | |]; simpl; intros Hok.
  - by eapply start_route_ok.
  - done.
  - unfold abandon_start. destruct (rt_heap t !! a); [|done]. destruct (cr_event_route_claimed _); [done|by apply RoutesOk_remove].
  - by eapply query_route_ok.
  - by apply query_reply_ok.
  - by apply release_ok.
  - by apply route_run_event_ok.
  - apply RoutesOk_on_run; [done|]. intros s _. apply run_complete_Keeps.
  - eapply RoutesOk_keeps; [done|done|apply map_filter_subseteq|apply map_filter_subseteq|].
    intros b. apply failed_runs_keep.
  - eapply RoutesOk_keeps; [done|done|apply map_empty_subseteq|apply map_empty_subseteq|].
    intros b. apply (failed_runs_keep t (λ b, bool_decide (b ∈ (map_to_list (rt_runs t)).*2))).
  - by apply drop_run_ok.
Qed.

Lemma routes_ok x : rtc route_step connected x → RoutesOk (cn_routes x) (cn_leases x).
Proof.
  intros Hr. assert (RoutesOk (cn_routes connected) (cn_leases connected)) as Hok.
  { split; simpl; try (intros *; rewrite lookup_empty; done). intros a Ha. multiset_solver. }
  revert Hok. induction Hr as [|x y z Hs _ IH]; [done|]. intros Hok. apply IH. by eapply route_step_ok.
Qed.

(** ** Who holds the route of a start

    A route that no query has set up belongs to a start that waits for its answer or was
    accepted, or an event of its run has arrived. *)

Definition StartsOk t (started : gset nat) : Prop := ∀ turn_id a s,
  rt_runs t !! turn_id = Some a → rt_heap t !! a = Some s → cr_query s = None →
  a ∈ started ∨ cr_event_route_claimed s = true.

(** A step of a run that does not forget a query or an event. *)
Definition Still s s' : Prop :=
  (cr_query s' = None → cr_query s = None) ∧ (cr_event_route_claimed s = true → cr_event_route_claimed s' = true).
#[export] Instance Still_preorder : PreOrder Still.
Proof. split; [by intros s|]. intros s1 s2 s3 [H1 H2] [H3 H4]. split; auto. Qed.

Lemma Still_fields s s' :
  cr_query s' = cr_query s → cr_event_route_claimed s' = cr_event_route_claimed s → Still s s'.
Proof. intros H1 H2. split; congruence. Qed.
Lemma Still_query (f : QueryOwnership → QueryOwnership) s : Still s (set_query (f <$> cr_query s) s).
Proof. split; [|done]. simpl. by destruct (cr_query s). Qed.

Lemma run_fail_Still message s : Still s (run_fail message s).
Proof. unfold run_fail, settle. by destruct (cr_terminal s). Qed.
Lemma run_complete_Still snapshot s : Still s (run_complete snapshot s).
Proof.
  unfold run_complete, settle. destruct (_ || _); [apply run_fail_Still|]. destruct (is_terminal _); [|done].
  destruct (snap_result snapshot); [by destruct (cr_terminal s)|apply run_fail_Still].
Qed.
Lemma send_event_Still c event s : Still s (send_event c event s).
Proof.
  unfold send_event. destruct c; simpl; [|done]. destruct (cr_sender s); [|done].
  destruct (cr_receiver s); try case_bool_decide; done.
Qed.
Lemma accept_Still event s : Still s (accept event s).2.
Proof.
  unfold accept. destruct (_ || _); [apply run_fail_Still|]. destruct (_ <=? _)%N; [done|].
  match goal with |- context [send_event ?b event ?x] => assert (Still s (send_event b event x)) as Hk;
    [transitivity x; [|apply send_event_Still]|set (u := send_event b event x) in *] end.
  { destruct (is_stream_payload _); [|done]. split; [|done]. simpl. by destruct (cr_query s). }
  destruct (re_payload event) as [|snapshot]; simpl; [done|].
  transitivity (set_sender false u); [done|]. destruct (_ || _); [apply run_fail_Still|apply run_complete_Still].
Qed.

(** Any change of the runs that does not forget, and any loss of routes. *)
Lemma StartsOk_still t t' started :
  StartsOk t started → rt_runs t' ⊆ rt_runs t →
  (∀ a s', rt_heap t' !! a = Some s' → ∃ s, rt_heap t !! a = Some s ∧ Still s s') → StartsOk t' started.
Proof.
  intros Hok Hsub Hheap turn_id a s' Ha Hs' Hq. destruct (Hheap a s' Hs') as (s & Hs & Hn & Hc).
  destruct (Hok turn_id a s) as [?|?]; [by eapply lookup_weaken|done|by apply Hn|by left|right; by apply Hc].
Qed.
Lemma StartsOk_on_run a f t started :
  StartsOk t started → (∀ s, rt_heap t !! a = Some s → Still s (f s)) → StartsOk (on_run a f t) started.
Proof.
  intros Hok Hf. eapply StartsOk_still; [done|done|]. intros b s'. simpl. destruct (decide (a = b)) as [<-|Hne].
  - rewrite lookup_alter_eq. intros (s & Hs & ->)%fmap_Some. exists s. auto.
  - rewrite lookup_alter_ne by done. by exists s'.
Qed.
Lemma StartsOk_remove turn_id a t started : StartsOk t started → StartsOk (remove_route_if_same turn_id a t) started.
Proof.
  intros Hok. unfold remove_route_if_same. case_bool_decide; [|done].
  eapply StartsOk_still; [done|apply delete_subseteq|]. intros b s' Hs'. by exists s'.
Qed.
Lemma StartsOk_insert turn_id a t started :
  StartsOk t started → (∀ s, rt_heap t !! a = Some s → cr_query s = None → a ∈ started) →
  StartsOk (with_routes (<[turn_id := a]> (rt_runs t)) t) started.
Proof.
  intros Hok Ha turn_id' b s Hb Hs Hq. simpl in Hb, Hs.
  apply lookup_insert_Some in Hb as [[<- <-]|[_ Hb]]; [left; by eapply Ha|by eapply Hok].
Qed.
Lemma StartsOk_more t started started' : StartsOk t started → started ⊆ started' → StartsOk t started'.
Proof. intros Hok Hsub turn_id a s Ha Hs Hq. destruct (Hok turn_id a s Ha Hs Hq); [left; set_solver|by right]. Qed.

(** A new run has no route yet. *)
Lemma new_cached_starts thread_id turn_id query t leases started a t' :
  RoutesOk t leases → StartsOk t started → new_cached thread_id turn_id query t = (a, t') → StartsOk t' started.
Proof.
  intros Hr Hok [= <- <-] turn_id' b s Hb Hs Hq. simpl in *. destruct (rk_route _ _ Hr _ _ Hb) as (s0 & Hs0 & _).
  rewrite lookup_insert_ne in Hs; [by eapply Hok|]. intros <-. apply (rk_fresh _ _ Hr) in Hs0. lia.
Qed.

Lemma release_starts a t started : StartsOk t started → StartsOk (release a t) started.
Proof.
  intros Hok. unfold release. destruct (rt_heap t !! a) as [s|] eqn:Hs; [|done].
  destruct (cr_query s) as [q|] eqn:Hq; [|done].
  set (q' := {| qo_waiters := _; qo_observed_live := _; qo_observed_terminal := _ |}).
  assert (StartsOk (on_run a (set_query (Some q')) t) started) as Hok' by by apply StartsOk_on_run.
  destruct (_ && _); [|done]. apply StartsOk_remove. destruct (qo_observed_terminal q); [|done].
  apply StartsOk_on_run; [done|]. intros x _. by apply Still_fields.
Qed.

Lemma acquire_starts a t started : StartsOk t started → StartsOk (acquire a t) started.
Proof. intros Hok. apply StartsOk_on_run; [done|]. intros s _. apply Still_query. Qed.

Lemma start_route_starts thread_id turn_id legacy t leases started a t' :
  RoutesOk t leases → StartsOk t started → start_route thread_id turn_id legacy t = (a, t') → StartsOk t' ({[a]} ∪ started).
Proof.
  intros Hr Hok Hs. unfold start_route in Hs. destruct (new_cached _ _ _ _) as [a0 t0] eqn:Hn. injection Hs as <- <-.
  pose proof (new_cached_starts _ _ _ _ _ _ _ _ Hr Hok Hn) as Hok'.
  apply StartsOk_insert; [|set_solver]. apply (StartsOk_more _ started); [|set_solver].
  destruct legacy; [|done]. apply StartsOk_on_run; [done|]. intros s _. by apply Still_fields.
Qed.

Lemma query_route_starts thread_id turn_id t leases started a t' :
  RoutesOk t leases → StartsOk t started → query_route thread_id turn_id t = (a, t') → StartsOk t' started.
Proof.
  intros Hr Hok Hq. unfold query_route in Hq. destruct (rt_runs t !! turn_id) as [b|].
  { injection Hq as <- <-. by apply acquire_starts. }
  destruct (cached_run turn_id t) as [b|].
  - injection Hq as <- <-. destruct (default false _) eqn:Hp; [|by apply acquire_starts].
    apply (StartsOk_insert _ _ (acquire b t)); [by apply acquire_starts|]. intros s Hs Hnone. simpl in Hs, Hp. rewrite Hs in Hp. simpl in Hp.
    unfold pending_query in Hp. by rewrite Hnone in Hp.
  - destruct (new_cached _ _ _ _) as [a0 t0] eqn:Hn. injection Hq as <- <-.
    destruct (new_cached_ok _ _ _ _ _ _ _ Hr Hn) as (_ & Ha & _).
    apply (StartsOk_insert _ _ (acquire a0 t0)); [by eapply acquire_starts, new_cached_starts|].
    intros s. simpl. rewrite lookup_alter_eq, Ha. by intros [= <-].
Qed.

Lemma query_reply_starts a thread_id reply t started : StartsOk t started → StartsOk (query_reply a thread_id reply t).2 started.
Proof.
  intros Hok. unfold query_reply. destruct (rt_heap t !! a); [|done].
  destruct (_ != _); [by apply release_starts|]. destruct reply as [snapshot|error]; [|by apply release_starts]. simpl.
  apply release_starts, StartsOk_on_run.
  - apply StartsOk_on_run; [done|]. intros x _. apply run_complete_Still.
  - intros x _. destruct (_ || _); [done|]. apply Still_query.
Qed.

(** The route of an abandoned start goes, unless an event of its run has arrived. *)
Lemma abandon_start_starts a t leases started :
  RoutesOk t leases → StartsOk t ({[a]} ∪ started) → StartsOk (abandon_start a t) started.
Proof.
  intros Hr Hok turn_id b s Hb Hs Hq.
  assert (rt_heap (abandon_start a t) = rt_heap t ∧ rt_runs (abandon_start a t) ⊆ rt_runs t) as [Hheap Hruns].
  { unfold abandon_start, remove_route_if_same. destruct (rt_heap t !! a); [|done].
    destruct (cr_event_route_claimed _); [done|]. case_bool_decide; [|done]. simpl. split; [done|apply delete_subseteq]. }
  rewrite Hheap in Hs. pose proof (lookup_weaken _ _ _ _ Hb Hruns) as Hb0.
  destruct (Hok turn_id b s Hb0 Hs Hq) as [[->%elem_of_singleton|Hin]%elem_of_union|Hc]; [|by left|by right].
  right. destruct (cr_event_route_claimed s) eqn:Hc; [done|]. exfalso.
  unfold abandon_start in Hb. rewrite Hs, Hc in Hb.
  destruct (rk_route _ _ Hr _ _ Hb0) as (s0 & Hs0 & <- & _). assert (s0 = s) as -> by congruence.
  unfold remove_route_if_same in Hb. rewrite bool_decide_true in Hb by done. simpl in Hb. by rewrite lookup_delete_eq in Hb.
Qed.

Lemma route_run_event_starts event t started : StartsOk t started → StartsOk (route_run_event event t) started.
Proof.
  intros Hok. unfold route_run_event. destruct (rt_runs t !! re_turn_id event) as [a|]; [|done].
  destruct (rt_heap t !! a) as [s|] eqn:Hs; [|done].
  match goal with |- context [accept event ?x] => assert (Still s x) as Hk;
    [by destruct (_ && _)|set (u := x) in *] end.
  pose proof (accept_Still event u) as Hk'. destruct (accept event u) as [ended v]. simpl in Hk'.
  assert (StartsOk (on_run a (λ _, v) t) started) as Hok'.
  { apply StartsOk_on_run; [done|]. intros x Hx. assert (x = s) as -> by congruence. by transitivity u. }
  destruct ended; [by apply StartsOk_remove|done].
Qed.

Lemma failed_runs_still (t : Routes) (f : nat → bool) message a s' :
  map_imap (λ b s, Some (if f b then run_fail message s else s)) (rt_heap t) !! a = Some s' →
  ∃ s, rt_heap t !! a = Some s ∧ Still s s'.
Proof.
  rewrite map_lookup_imap. intros (s & Hs & [= <-])%bind_Some. exists s. split; [done|].
  destruct (f a); [apply run_fail_Still|done].
Qed.

Definition started x : gset nat := cn_starts x ∪ cn_accepted x.

Lemma route_step_starts x y :
  route_step x y → RoutesOk (cn_routes x) (cn_leases x) →
  StartsOk (cn_routes x) (started x) → StartsOk (cn_routes y) (started y).
Proof.
  unfold started. destruct 1 as [| |t leases starts accepted a Ha| | |t leases starts accepted a Ha| | | | |]; simpl; intros Hr Hok.
  - eapply StartsOk_more; [by eapply start_route_starts|set_solver].
  - eapply StartsOk_more; [done|]. intros b Hb. destruct (decide (a = b)); set_solver.
  - eapply abandon_start_starts; [done|]. eapply StartsOk_more; [done|]. intros b Hb. destruct (decide (a = b)); set_solver.
  - by eapply query_route_starts.
  - by apply query_reply_starts.
  - by apply release_starts.
  - by apply route_run_event_starts.
  - apply StartsOk_on_run; [done|]. intros s _. apply run_complete_Still.
  - eapply StartsOk_still; [done|apply map_filter_subseteq|]. intros b s'. apply failed_runs_still.
  - eapply StartsOk_still; [done|apply map_empty_subseteq|]. intros b s'.
    apply (failed_runs_still t (λ b, bool_decide (b ∈ (map_to_list (rt_runs t)).*2))).
  - eapply StartsOk_still; [done|done|]. intros b s' Hs. simpl in Hs. apply lookup_delete_Some in Hs as [_ Hs]. by exists s'.
Qed.

Lemma starts_ok x : rtc route_step connected x → StartsOk (cn_routes x) (started x).
Proof.
  intros Hr. revert x Hr. apply rtc_ind_r.
  - intros turn_id a s Ha. simpl in Ha. by rewrite lookup_empty in Ha.
  - intros x y Hr Hs IH. eapply route_step_starts; [done|by apply routes_ok|done].
Qed.
