(* ===== verification/SdkSessions.v ===== *)
(** * The sessions of a connection

    [crates/whale-sdk-rust/src/sessions.rs] with the requests, callbacks and tables of
    [lib.rs] and [contexts.rs] that it fences: the phases of a session on the client, the
    close transaction and the release of what belongs to a session. A life cycle is an
    address, as its [Arc] is; a close attempt is its index in the list of attempts, and
    carries the task that completes it. *)

From stdpp Require Import pretty.
From S2P Require Import Prelude Protocol SessionManagement SdkViews.

(** ** Tool packs *)

(** [SessionPackOwner], its packs by their identities. *)
Record SessionPackOwner := { po_packs : list string; po_owned_names : gset string }.

(** What a bound pack does when it is closed and dropped. *)
Record LeaseEnd := { le_outcome : option (result string ()); le_drop_panicked : bool }.

(** [BoundPackLease::close]: [None] as the outcome is a panic. *)
Definition lease_failures (id : string) (end_ : LeaseEnd) : list string :=
  match le_outcome end_ with
  | Some (Ok _) => []
  | Some (Err error) => ["ToolPack " +:+ id +:+ " close failed: " +:+ error]
  | None => ["ToolPack " +:+ id +:+ " close panicked"]
  end ++ (if le_drop_panicked end_ then ["ToolPack " +:+ id +:+ " Drop panicked"] else []).
Definition lease_close (id : string) (end_ : LeaseEnd) : option string :=
  match lease_failures id end_ with [] => None | failures => Some (String.concat "; " failures) end.

(** [SessionPackOwner::close_reverse]: the last pack first. *)
Definition close_reverse (ends : string → LeaseEnd) (self : SessionPackOwner) : list string :=
  omap (λ id, lease_close id (ends id)) (reverse (po_packs self)).

(** ** Errors *)

(** [Display] of [SdkError] *)
Definition sdk_error_text (error : SdkError) : string :=
  match error with
  | SdkProtocolCompatibility m => "Protocol compatibility error: " +:+ m
  | SdkInvalidConfiguration m => "Invalid configuration: " +:+ m
  | SdkIo m => "IO error: " +:+ m
  | SdkJson m => "JSON error: " +:+ m
  | SdkRpc code m => "RPC error (code " +:+ pretty code +:+ "): " +:+ m
  | SdkRunExpired m => "Run expired: " +:+ m
  | SdkLimitExceeded m => "Session limit exceeded: " +:+ m
  | SdkChannelClosed m => "Communication channel closed: " +:+ m
  | SdkSessionClosed m => "SessionClosed: " +:+ m
  | SdkInternal m => "Internal SDK error: " +:+ m
  | SdkEventLagged => "Event consumer fell behind; use snapshot() for the authoritative state"
  | SdkAlreadySubscribed => "This run already has an event consumer"
  | SdkRequestTimeout m => "RPC request timed out: " +:+ m
  end.

(** ** Phases *)

Inductive CloseFailure :=
  | FailureRpc (code : Z) (message : string)
  | FailureUnknown (message : string)
  | FailureLocalResource (message : string).
Definition close_failure_sdk (self : CloseFailure) : SdkError :=
  match self with
  | FailureRpc code message => SdkRpc code message
  | FailureUnknown message => SdkChannelClosed message
  | FailureLocalResource message => SdkInternal message
  end.
Definition CloseOutcome := result CloseFailure bool.

Inductive SessionPhase :=
  | PhasePreparing
  | PhaseOpen
  | PhaseClosing (attempt : nat)
  | PhaseReleasing (attempt : nat)
  | PhaseClosed.
#[export] Instance SessionPhase_eq_dec : EqDecision SessionPhase.
Proof. solve_decision. Defined.

Record SessionLifecycle := {
  sl_phase : SessionPhase;
  sl_released : bool;
  sl_pack_owner : option SessionPackOwner;
  sl_pack_names : gset string;
  sl_provisional : bool;
  sl_provisional_users : nat;
}.
Definition lifecycle_new (provisional : bool) : SessionLifecycle :=
  {| sl_phase := PhaseOpen; sl_released := false; sl_pack_owner := None; sl_pack_names := ∅;
     sl_provisional := provisional; sl_provisional_users := 0 |}.

Definition sl_eta (l : SessionLifecycle) : SessionLifecycle :=
  {| sl_phase := sl_phase l; sl_released := sl_released l; sl_pack_owner := sl_pack_owner l;
     sl_pack_names := sl_pack_names l; sl_provisional := sl_provisional l;
     sl_provisional_users := sl_provisional_users l |}.
Definition set_phase (v : SessionPhase) (l : SessionLifecycle) : SessionLifecycle := ltac:(update_field sl_eta sl_phase v l).
Definition set_released (v : bool) (l : SessionLifecycle) : SessionLifecycle := ltac:(update_field sl_eta sl_released v l).
Definition set_pack_owner (v : option SessionPackOwner) (l : SessionLifecycle) : SessionLifecycle :=
  ltac:(update_field sl_eta sl_pack_owner v l).
Definition set_pack_names (v : gset string) (l : SessionLifecycle) : SessionLifecycle :=
  ltac:(update_field sl_eta sl_pack_names v l).
Definition set_provisional (v : bool) (l : SessionLifecycle) : SessionLifecycle :=
  ltac:(update_field sl_eta sl_provisional v l).
Definition set_users (v : nat) (l : SessionLifecycle) : SessionLifecycle :=
  ltac:(update_field sl_eta sl_provisional_users v l).

(** Where the task of a close attempt is: it waits for the daemon's answer; it has
    fenced the session and waits for its callbacks; it has published its outcome. *)
Inductive CloseStage := StageRequest | StageReleasing (closed : bool) | StageDone (outcome : CloseOutcome).

Record CloseAttempt := { ca_sid : string; ca_lifecycle : nat; ca_stage : CloseStage }.

(** [ScopedCallback] *)
Record ScopedCallback := { sc_session_id : option string; sc_stopped : bool }.

(** The parts of [ClientState] that belong to sessions. [ct_answers] is what the waiting
    requests were sent: an error made here, or the daemon's reply. *)
Record ClientState := {
  ct_lifecycles : gmap nat SessionLifecycle;
  ct_next_lifecycle : nat;
  ct_sessions : gmap string nat;
  ct_attempts : list CloseAttempt;
  ct_closed : bool;
  ct_next_id : N;
  ct_pending : gset N;
  ct_pending_sessions : gmap N string;
  ct_answers : list (N * option SdkError);
  ct_tool_callbacks : gmap string ScopedCallback;
  ct_context_callbacks : gmap string ScopedCallback;
  ct_tools : gmap (string * string) nat;
  ct_tool_bindings : gmap (string * string) nat;
  ct_context_policies : gset string;
  ct_approval_sessions : gmap string string;
  ct_approval_turns : gmap string string;
}.
Definition ClientState_new : ClientState :=
  {| ct_lifecycles := ∅; ct_next_lifecycle := 0; ct_sessions := ∅; ct_attempts := []; ct_closed := false;
     ct_next_id := 1; ct_pending := ∅; ct_pending_sessions := ∅; ct_answers := []; ct_tool_callbacks := ∅;
     ct_context_callbacks := ∅; ct_tools := ∅; ct_tool_bindings := ∅; ct_context_policies := ∅;
     ct_approval_sessions := ∅; ct_approval_turns := ∅ |}.

Definition ct_eta (c : ClientState) : ClientState :=
  {| ct_lifecycles := ct_lifecycles c; ct_next_lifecycle := ct_next_lifecycle c; ct_sessions := ct_sessions c;
     ct_attempts := ct_attempts c; ct_closed := ct_closed c; ct_next_id := ct_next_id c; ct_pending := ct_pending c;
     ct_pending_sessions := ct_pending_sessions c; ct_answers := ct_answers c; ct_tool_callbacks := ct_tool_callbacks c;
     ct_context_callbacks := ct_context_callbacks c; ct_tools := ct_tools c; ct_tool_bindings := ct_tool_bindings c;
     ct_context_policies := ct_context_policies c; ct_approval_sessions := ct_approval_sessions c;
     ct_approval_turns := ct_approval_turns c |}.
Definition set_lifecycles (v : gmap nat SessionLifecycle) (c : ClientState) : ClientState :=
  ltac:(update_field ct_eta ct_lifecycles v c).
Definition set_next_lifecycle (v : nat) (c : ClientState) : ClientState := ltac:(update_field ct_eta ct_next_lifecycle v c).
Definition set_sessions (v : gmap string nat) (c : ClientState) : ClientState := ltac:(update_field ct_eta ct_sessions v c).
Definition set_attempts (v : list CloseAttempt) (c : ClientState) : ClientState := ltac:(update_field ct_eta ct_attempts v c).
Definition set_closed (v : bool) (c : ClientState) : ClientState := ltac:(update_field ct_eta ct_closed v c).
Definition set_next_id (v : N) (c : ClientState) : ClientState := ltac:(update_field ct_eta ct_next_id v c).
Definition set_pending (v : gset N) (c : ClientState) : ClientState := ltac:(update_field ct_eta ct_pending v c).
Definition set_pending_sessions (v : gmap N string) (c : ClientState) : ClientState :=
  ltac:(update_field ct_eta ct_pending_sessions v c).
Definition set_answers (v : list (N * option SdkError)) (c : ClientState) : ClientState :=
  ltac:(update_field ct_eta ct_answers v c).
Definition set_tool_callbacks (v : gmap string ScopedCallback) (c : ClientState) : ClientState :=
  ltac:(update_field ct_eta ct_tool_callbacks v c).
Definition set_context_callbacks (v : gmap string ScopedCallback) (c : ClientState) : ClientState :=
  ltac:(update_field ct_eta ct_context_callbacks v c).
Definition set_tools (v : gmap (string * string) nat) (c : ClientState) : ClientState := ltac:(update_field ct_eta ct_tools v c).
Definition set_tool_bindings (v : gmap (string * string) nat) (c : ClientState) : ClientState :=
  ltac:(update_field ct_eta ct_tool_bindings v c).
Definition set_context_policies (v : gset string) (c : ClientState) : ClientState :=
  ltac:(update_field ct_eta ct_context_policies v c).
Definition set_approval_sessions (v : gmap string string) (c : ClientState) : ClientState :=
  ltac:(update_field ct_eta ct_approval_sessions v c).
Definition set_approval_turns (v : gmap string string) (c : ClientState) : ClientState :=
  ltac:(update_field ct_eta ct_approval_turns v c).

Definition on_lifecycle (a : nat) (f : SessionLifecycle → SessionLifecycle) (c : ClientState) : ClientState :=
  set_lifecycles (alter f a (ct_lifecycles c)) c.
Definition phase_of (a : nat) (c : ClientState) : option SessionPhase := sl_phase <$> ct_lifecycles c !! a.

(** ** Looking up a session *)

Definition add_lifecycle (sid : string) (l : SessionLifecycle) (c : ClientState) : nat * ClientState :=
  let a := ct_next_lifecycle c in
  (a, set_sessions (<[sid := a]> (ct_sessions c))
        (set_next_lifecycle (S a) (set_lifecycles (<[a := l]> (ct_lifecycles c)) c))).

(** [session_lifecycle] *)
Definition session_lifecycle (sid : string) (c : ClientState) : nat * ClientState :=
  match ct_sessions c !! sid with
  | Some a => (a, on_lifecycle a (set_provisional false) c)
  | None => add_lifecycle sid (lifecycle_new false) c
  end.

Definition session_lifecycle_v2 (sid : string) (c : ClientState) : option SessionLifecycleState :=
  a ← ct_sessions c !! sid;
  (λ phase, match phase with
            | PhasePreparing | PhaseOpen => LifecycleOpen
            | PhaseClosing _ | PhaseReleasing _ => LifecycleClosing
            | PhaseClosed => LifecycleClosed
            end) <$> phase_of a c.

(** [with_open_lifecycle]: [f] runs while the phase is locked. *)
Definition with_open_lifecycle {T} (sid : string) (a : nat) (f : ClientState → T * ClientState) (c : ClientState) :
    result SdkError T * ClientState :=
  if ct_closed c then (Err (SdkChannelClosed "Client is closed"), c) else
  if negb (bool_decide (phase_of a c = Some PhaseOpen)) then (Err (SdkSessionClosed sid), c) else
  let '(value, c) := f c in (Ok value, c).

Definition with_session_open {T} (sid : string) (f : ClientState → T * ClientState) (c : ClientState) :
    result SdkError T * ClientState :=
  let '(a, c) := session_lifecycle sid c in with_open_lifecycle sid a f c.

Definition with_existing_session_open {T} (sid : string) (f : ClientState → T * ClientState) (c : ClientState) :
    result SdkError T * ClientState :=
  match ct_sessions c !! sid with
  | None => (Err (SdkSessionClosed sid), c)
  | Some a => with_open_lifecycle sid a f c
  end.

(** [ensure_session_open], without the hub it also sets up. *)
Definition ensure_session_open (sid : string) (c : ClientState) : result SdkError () * ClientState :=
  with_session_open sid (λ c, ((), c)) c.

Definition ensure_dynamic_tool_name_available (sid name : string) (c : ClientState) : result SdkError () :=
  match ct_sessions c !! sid ≫= λ a, ct_lifecycles c !! a with
  | None => Err (SdkSessionClosed sid)
  | Some l =>
      reject_if (ct_closed c) (SdkChannelClosed "Client is closed");;
      reject_if (sl_phase l != PhaseOpen) (SdkSessionClosed sid);;
      reject_if (bool_decide (name ∈ sl_pack_names l))
        (SdkInvalidConfiguration ("Tool '" +:+ name +:+ "' is owned by a ToolPack for Session " +:+ sid))
  end.

Definition is_released_phase (phase : SessionPhase) : bool :=
  match phase with PhaseClosed | PhaseReleasing _ => true | _ => false end.
Definition session_closed (sid : string) (c : ClientState) : bool :=
  is_some_and (ct_sessions c !! sid ≫= λ a, phase_of a c) is_released_phase.

Definition while_session_exists (sid : string) (f : ClientState → ClientState) (c : ClientState) : ClientState :=
  let '(a, c) := session_lifecycle sid c in
  if negb (default true (is_released_phase <$> phase_of a c)) && negb (ct_closed c) then f c else c.

(** ** Preparation *)

Definition prepare_session (sid : string) (c : ClientState) : result SdkError nat * ClientState :=
  let '(a, c) := session_lifecycle sid c in
  if ct_closed c || negb (bool_decide (phase_of a c = Some PhaseOpen)) then (Err (SdkSessionClosed sid), c)
  else (Ok a, on_lifecycle a (set_phase PhasePreparing) c).

Definition finish_preparation (sid : string) (accepted : bool) (c : ClientState) : result SdkError () * ClientState :=
  let '(a, c) := session_lifecycle sid c in
  if ct_closed c || negb (bool_decide (phase_of a c = Some PhasePreparing)) then (Err (SdkSessionClosed sid), c)
  else (Ok (), on_lifecycle a (set_phase (if accepted then PhaseOpen else PhaseClosed)) c).

(** [accept_prepared_session]; the owner stays with the caller when it fails. *)
Definition accept_prepared_session (sid : string) (a : nat) (packs : option SessionPackOwner) (c : ClientState) :
    result SdkError () * ClientState :=
  if ct_sessions c !! sid != Some a then (Err (SdkSessionClosed sid), c) else
  if ct_closed c || negb (bool_decide (phase_of a c = Some PhasePreparing)) then (Err (SdkSessionClosed sid), c) else
  match ct_lifecycles c !! a ≫= sl_pack_owner with
  | Some _ => (Err (SdkInternal "Prepared Session already owns ToolPacks"), c)
  | None =>
      (Ok (), on_lifecycle a (λ l, set_phase PhaseOpen (set_pack_owner packs
         (match packs with Some packs => set_pack_names (po_owned_names packs) l | None => l end))) c)
  end.

Definition remove_session_if_same (sid : string) (a : nat) (c : ClientState) : ClientState :=
  if ct_sessions c !! sid == Some a then set_sessions (delete sid (ct_sessions c)) c else c.

Definition reject_prepared_session (sid : string) (a : nat) (c : ClientState) : ClientState :=
  remove_session_if_same sid a
    (on_lifecycle a (λ l, (if sl_phase l == PhasePreparing then set_phase PhaseClosed else id) (set_released true l)) c).

Definition take_attached_pack_owner (sid : string) (c : ClientState) : option SessionPackOwner * ClientState :=
  match ct_sessions c !! sid with
  | None => (None, c)
  | Some a => (ct_lifecycles c !! a ≫= sl_pack_owner, on_lifecycle a (set_pack_owner None) c)
  end.

(** ** Probes *)

(** [probe_session]: the life cycle and whether the probe is tracked. *)
Definition probe_session (sid : string) (c : ClientState) : nat * bool * ClientState :=
  match ct_sessions c !! sid with
  | Some a =>
      let tracked := default false (sl_provisional <$> ct_lifecycles c !! a) in
      (a, tracked, if tracked then on_lifecycle a (λ l, set_users (S (sl_provisional_users l)) l) c else c)
  | None =>
      let '(a, c) := add_lifecycle sid (set_users 1 (lifecycle_new true)) c in (a, true, c)
  end.

(** [SessionProbe::commit] *)
Definition commit_probe (a : nat) (c : ClientState) : ClientState := on_lifecycle a (set_provisional false) c.

(** The drop of a tracked probe. *)
Definition drop_probe (sid : string) (a : nat) (c : ClientState) : ClientState :=
  let c := on_lifecycle a (λ l, set_users (pred (sl_provisional_users l)) l) c in
  match ct_lifecycles c !! a with
  | Some l => if (sl_provisional_users l =? 0)%nat && sl_provisional l then remove_session_if_same sid a c else c
  | None => c
  end.

(** ** Requests and callbacks *)

(** [request_with_remote_error] up to the point where it waits: the identity of the
    request. *)
Definition request_begin (access : option string) (c : ClientState) : result SdkError N * ClientState :=
  if ct_closed c then (Err (SdkChannelClosed "Client is closed"), c) else
  let insert (c : ClientState) : N * ClientState :=
    let id := ct_next_id c in (id, set_next_id (id + 1) (set_pending ({[id]} ∪ ct_pending c) c)) in
  match access with
  | Some sid => with_existing_session_open sid (λ c,
      let '(id, c) := insert c in (id, set_pending_sessions (<[id := sid]> (ct_pending_sessions c)) c)) c
  | None => let '(id, c) := insert c in (Ok id, c)
  end.

(** The drop of the [PendingGuard]. *)
Definition request_end (id : N) (c : ClientState) : ClientState :=
  set_pending_sessions (delete id (ct_pending_sessions c)) (set_pending (ct_pending c ∖ {[id]}) c).

(** [pending.remove(id)] and the send of an answer to the request that waits. *)
Definition answer_pending (id : N) (answer : option SdkError) (c : ClientState) : ClientState :=
  if bool_decide (id ∈ ct_pending c)
  then set_answers (ct_answers c ++ [(id, answer)]) (set_pending (ct_pending c ∖ {[id]}) c) else c.

(** [insert_invocation] into one of the registries. *)
Definition install_invocation (context : bool) (key : string) (session_id : option string) (c : ClientState) :
    result string () * ClientState :=
  let registry := if context then ct_context_callbacks c else ct_tool_callbacks c in
  match registry !! key with
  | Some _ => (Err "Duplicate host invocation", c)
  | None =>
      let registry := <[key := {| sc_session_id := session_id; sc_stopped := false |}]> registry in
      (Ok (), if context then set_context_callbacks registry c else set_tool_callbacks registry c)
  end.

Definition insert_invocation (context : bool) (key : string) (session_id : option string) (c : ClientState) :
    result string () * ClientState :=
  let install := install_invocation context key session_id in
  match session_id with
  | Some sid =>
      let '(answer, c) := with_session_open sid install c in
      (match answer with Ok answer => answer | Err error => Err (sdk_error_text error) end, c)
  | None => install c
  end.

(** The drop of an [InvocationGuard]. *)
Definition finish_invocation (context : bool) (key : string) (c : ClientState) : ClientState :=
  if context then set_context_callbacks (delete key (ct_context_callbacks c)) c
  else set_tool_callbacks (delete key (ct_tool_callbacks c)) c.

(** The bindings of [register_tool], and what a rejected registration does to them. *)
Definition bind_tool (sid name binding_id : string) (tool : nat) (c : ClientState) :
    result SdkError (option nat) * ClientState :=
  with_session_open sid (λ c,
    (ct_tools c !! (sid, name),
     set_tools (<[(sid, name) := tool]> (ct_tools c)) (set_tool_bindings (<[(sid, binding_id) := tool]> (ct_tool_bindings c)) c))) c.

Definition unbind_tool (sid name binding_id : string) (old : option nat) (c : ClientState) : ClientState :=
  while_session_exists sid (λ c,
    set_tools (if ct_closed c then delete (sid, name) (ct_tools c)
               else partial_alter (λ _, old) (sid, name) (ct_tools c)) c)
    (set_tool_bindings (delete (sid, binding_id) (ct_tool_bindings c)) c).

(** The approval that a turn event announces. *)
Definition note_approval (sid turn_id request_id : string) (c : ClientState) : ClientState :=
  while_session_exists sid (λ c,
    set_approval_sessions (<[request_id := sid]> (ct_approval_sessions c))
      (set_approval_turns (<[request_id := turn_id]> (ct_approval_turns c)) c)) c.

(** ** Release and close *)

Definition stop_callbacks (sid : string) (registry : gmap string ScopedCallback) : gmap string ScopedCallback :=
  (λ callback, if sc_session_id callback == Some sid
               then {| sc_session_id := sc_session_id callback; sc_stopped := true |} else callback) <$> registry.

(** The requests of a session that wait. *)
Definition pending_of (sid : string) (c : ClientState) : list N :=
  (filter (λ entry, entry.2 = sid) (map_to_list (ct_pending_sessions c))).*1.

(** [release_session] up to the point where it waits for the callbacks. *)
Definition release_begin (sid : string) (a : nat) (c : ClientState) : ClientState :=
  let c := on_lifecycle a (set_released true) c in
  let c := foldr (λ id c, answer_pending id (Some (SdkSessionClosed sid))
                            (set_pending_sessions (delete id (ct_pending_sessions c)) c)) c (pending_of sid c) in
  set_context_callbacks (stop_callbacks sid (ct_context_callbacks c))
    (set_tool_callbacks (stop_callbacks sid (ct_tool_callbacks c)) c).

(** Its callbacks have finished. *)
Definition callbacks_finished (sid : string) (c : ClientState) : bool :=
  forallb (λ entry, entry.2.(sc_session_id) != Some sid)
    (map_to_list (ct_tool_callbacks c) ++ map_to_list (ct_context_callbacks c)).

(** The rest of [release_session]: the tables, then the packs. *)
Definition release_end (ends : string → LeaseEnd) (sid : string) (a : nat) (c : ClientState) : list string * ClientState :=
  let c := set_tools (filter (λ entry, entry.1.1 ≠ sid) (ct_tools c)) c in
  let c := set_tool_bindings (filter (λ entry, entry.1.1 ≠ sid) (ct_tool_bindings c)) c in
  let c := set_context_policies (ct_context_policies c ∖ {[sid]}) c in
  let c := set_approval_sessions (filter (λ entry, entry.2 ≠ sid) (ct_approval_sessions c)) c in
  let c := set_approval_turns (filter (λ entry, is_Some (ct_approval_sessions c !! entry.1)) (ct_approval_turns c)) c in
  let owner := ct_lifecycles c !! a ≫= sl_pack_owner in
  (default [] (close_reverse ends <$> owner), on_lifecycle a (set_pack_owner None) c).

(** [emergency_drain_session_packs] *)
Definition emergency_drain_session_packs (c : ClientState) : ClientState :=
  set_lifecycles (map_imap (λ a l,
    Some (if bool_decide (a ∈ (map_to_list (ct_sessions c)).*2)
          then set_pack_owner None (set_phase PhaseClosed (set_released true l)) else l)) (ct_lifecycles c)) c.

(** [disconnect] *)
Definition disconnect (message : string) (c : ClientState) : ClientState :=
  if ct_closed c then c else
  let c := set_closed true c in
  let c := set_answers (ct_answers c ++ ((λ id, (id, Some (SdkChannelClosed message))) <$> elements (ct_pending c))) c in
  let c := set_pending ∅ (set_pending_sessions ∅ c) in
  let c := set_tools ∅ (set_tool_bindings ∅ (set_context_policies ∅ c)) in
  let c := set_approval_sessions ∅ (set_approval_turns ∅ c) in
  let c := set_tool_callbacks ∅ (set_context_callbacks ∅ c) in
  emergency_drain_session_packs c.

Definition set_stage (attempt : nat) (stage : CloseStage) (c : ClientState) : ClientState :=
  set_attempts (alter (λ t, {| ca_sid := ca_sid t; ca_lifecycle := ca_lifecycle t; ca_stage := stage |}) attempt (ct_attempts c)) c.

(** What [close_session] does at once: an answer, or the attempt to wait for and whether
    the caller owns it. *)
Inductive CloseStart := CloseReturns (answer : result SdkError bool) | CloseWaits (attempt : nat) (owner : bool).

Definition CloseSessionParams_validate (thread_id : string) : result string () :=
  reject_if (blank thread_id) "thread_id must not be empty".

Definition close_session (sid : string) (c : ClientState) : CloseStart * ClientState :=
  match CloseSessionParams_validate sid with
  | Err message => (CloseReturns (Err (SdkInvalidConfiguration message)), c)
  | Ok _ =>
      if ct_closed c then (CloseReturns (Err (SdkChannelClosed "Client is closed")), c) else
      let '(a, _, c) := probe_session sid c in
      match phase_of a c with
      | Some PhasePreparing => (CloseReturns (Err (SdkSessionClosed sid)), c)
      | Some (PhaseClosing attempt) | Some (PhaseReleasing attempt) => (CloseWaits attempt false, c)
      | Some PhaseOpen =>
          let attempt := length (ct_attempts c) in
          (CloseWaits attempt true,
           set_attempts (ct_attempts c ++ [{| ca_sid := sid; ca_lifecycle := a; ca_stage := StageRequest |}])
             (on_lifecycle a (set_phase (PhaseClosing attempt)) c))
      | Some PhaseClosed | None => (CloseReturns (Ok false), c)
      end
  end.

(** What a caller that waits returns. *)
Definition close_result (attempt : nat) (owner : bool) (c : ClientState) : option (result SdkError bool) :=
  match ca_stage <$> ct_attempts c !! attempt with
  | Some (StageDone outcome) => Some (map_err close_failure_sdk ((λ closed, owner && closed) <$> outcome))
  | _ => None
  end.

Definition METHOD_NOT_FOUND : Z := -32601.

(** The daemon's answer to the close request: the thread it names and whether it closed
    the session. *)
Definition close_response (attempt : nat) (response : result SdkError (string * bool)) (c : ClientState) :
    option ClientState :=
  task ← ct_attempts c !! attempt;
  match ca_stage task with
  | StageRequest =>
      let sid := ca_sid task in
      let a := ca_lifecycle task in
      let unknown (error : string) :=
        let c := on_lifecycle a (set_phase PhaseClosed) c in
        set_stage attempt (StageDone (Err (FailureUnknown ("Session close outcome unknown: " +:+ error)))) (disconnect "Client closed" c) in
      Some
        match response with
        | Ok (thread_id, closed) =>
            if thread_id == sid then
              let c := if closed then commit_probe a c else c in
              let c := on_lifecycle a (set_phase (PhaseReleasing attempt)) c in
              set_stage attempt (StageReleasing closed) (release_begin sid a c)
            else unknown "Daemon returned a different session identity"
        | Err (SdkRpc code message) =>
            if ((code =? METHOD_NOT_FOUND)%Z || (code =? INVALID_PARAMS)%Z) && negb (ct_closed c) then
              set_stage attempt (StageDone (Err (FailureRpc code message))) (on_lifecycle a (set_phase PhaseOpen) c)
            else unknown (sdk_error_text (SdkRpc code message))
        | Err error => unknown (sdk_error_text error)
        end
  | _ => None
  end.

(** The callbacks of the session have finished. *)
Definition close_released (ends : string → LeaseEnd) (attempt : nat) (c : ClientState) : option ClientState :=
  task ← ct_attempts c !! attempt;
  match ca_stage task with
  | StageReleasing closed =>
      if callbacks_finished (ca_sid task) c then
        let '(failures, c) := release_end ends (ca_sid task) (ca_lifecycle task) c in
        let c := on_lifecycle (ca_lifecycle task) (set_phase PhaseClosed) c in
        Some (set_stage attempt (StageDone
          (match failures with
           | [] => Ok closed
           | _ => Err (FailureLocalResource ("Session " +:+ ca_sid task +:+ " closed with ToolPack cleanup failures: "
                                               +:+ String.concat "; " failures))
           end)) c)
      else None
  | _ => None
  end.
