(* ===== verification/SdkSessionLaws.v ===== *)
(** * Laws of the client's sessions

    The steps of a connection's sessions, and the invariant that ties the phases to the
    close attempts and keeps everything out of a session whose close was acknowledged. *)

From stdpp Require Import relations.
From S2P Require Import Prelude Protocol SessionManagement SdkViews SdkSessions.

Implicit Types (c : ClientState) (a : nat) (sid : string).

(** ** Steps *)

Inductive client_step : ClientState → ClientState → Prop :=
  | client_prepare sid c : client_step c (prepare_session sid c).2
  | client_finish_preparation sid accepted c : client_step c (finish_preparation sid accepted c).2
  | client_accept_prepared sid a packs c : client_step c (accept_prepared_session sid a packs c).2
  | client_reject_prepared sid a c : client_step c (reject_prepared_session sid a c)
  | client_take_packs sid c : client_step c (take_attached_pack_owner sid c).2
  | client_ensure_open sid c : client_step c (ensure_session_open sid c).2
  | client_probe sid c : client_step c (probe_session sid c).2
  | client_commit_probe a c : client_step c (commit_probe a c)
  | client_drop_probe sid a c : client_step c (drop_probe sid a c)
  | client_request access c : client_step c (request_begin access c).2
  | client_request_end id c : client_step c (request_end id c)
  | client_reply id answer c : client_step c (answer_pending id answer c)
  | client_invocation context key session_id c : client_step c (insert_invocation context key session_id c).2
  | client_invoked context key c : client_step c (finish_invocation context key c)
  | client_bind sid name binding_id tool c : client_step c (bind_tool sid name binding_id tool c).2
  | client_unbind sid name binding_id old c : client_step c (unbind_tool sid name binding_id old c)
  | client_approval sid turn_id request_id c : client_step c (note_approval sid turn_id request_id c)
  | client_close sid c : client_step c (close_session sid c).2
  | client_close_response attempt response c c' : close_response attempt response c = Some c' → client_step c c'
  | client_close_released ends attempt c c' : close_released ends attempt c = Some c' → client_step c c'
  | client_disconnect message c : client_step c (disconnect message c).

(** ** Phases and attempts *)

(** The daemon has acknowledged the close. *)
Definition acknowledged (stage : CloseStage) : bool :=
  match stage with
  | StageReleasing _ | StageDone (Ok _) | StageDone (Err (FailureLocalResource _)) => true
  | _ => false
  end.
Definition is_done (stage : CloseStage) : bool := match stage with StageDone _ => true | _ => false end.

Record PhasesOk c : Prop := {
  po_fresh : ∀ a, is_Some (phase_of a c) → a < ct_next_lifecycle c;
  po_sessions : ∀ sid a, ct_sessions c !! sid = Some a → is_Some (phase_of a c);
  po_injective : ∀ sid sid' a, ct_sessions c !! sid = Some a → ct_sessions c !! sid' = Some a → sid = sid';
  po_attempts : ∀ i t, ct_attempts c !! i = Some t → is_Some (phase_of (ca_lifecycle t) c) ∧
    ∀ sid, ct_sessions c !! sid = Some (ca_lifecycle t) → sid = ca_sid t;
  po_closing : ∀ a i, phase_of a c = Some (PhaseClosing i) →
    ∃ t, ct_attempts c !! i = Some t ∧ ca_lifecycle t = a ∧ ca_stage t = StageRequest;
  po_releasing : ∀ a i, phase_of a c = Some (PhaseReleasing i) →
    ∃ t closed, ct_attempts c !! i = Some t ∧ ca_lifecycle t = a ∧ ca_stage t = StageReleasing closed;
  po_stage : ct_closed c = false → ∀ i t, ct_attempts c !! i = Some t →
    match ca_stage t with
    | StageRequest => phase_of (ca_lifecycle t) c = Some (PhaseClosing i)
    | StageReleasing _ => phase_of (ca_lifecycle t) c = Some (PhaseReleasing i)
    | StageDone _ => acknowledged (ca_stage t) = true → phase_of (ca_lifecycle t) c = Some PhaseClosed
    end;
}.

(** A step that moves no phase; it may add an open session. *)
Record Same c c' : Prop := {
  sm_phase : ∀ a p, phase_of a c = Some p → phase_of a c' = Some p;
  sm_new : ∀ a, is_Some (phase_of a c') → is_Some (phase_of a c) ∨
    (ct_next_lifecycle c <= a < ct_next_lifecycle c' ∧ phase_of a c' = Some PhaseOpen);
  sm_next : ct_next_lifecycle c <= ct_next_lifecycle c';
  sm_sessions : ∀ sid a, ct_sessions c' !! sid = Some a → ct_sessions c !! sid = Some a ∨
    (ct_next_lifecycle c <= a ∧ is_Some (phase_of a c'));
  sm_injective : ∀ sid sid' a, ct_next_lifecycle c <= a →
    ct_sessions c' !! sid = Some a → ct_sessions c' !! sid' = Some a → sid = sid';
  sm_attempts : ct_attempts c' = ct_attempts c;
  sm_closed : ct_closed c' = ct_closed c;
}.

Lemma Same_ok c c' : PhasesOk c → Same c c' → PhasesOk c'.
Proof.
  intros [Pf Ps Pi Pa Pc Pr Pst] [Sp Sn Snx Ss Si Sa Scl].
  assert (∀ sid a, ct_sessions c' !! sid = Some a → a < ct_next_lifecycle c → ct_sessions c !! sid = Some a) as Hold.
  { intros sid a [?|[? _]]%Ss ?; [done|lia]. }
  assert (∀ a p, phase_of a c' = Some p → p ≠ PhaseOpen → phase_of a c = Some p) as Hback.
  { intros a p Hp Hne. destruct (Sn a ltac:(by eexists)) as [[p0 Hp0]|[_ ?]]; [|congruence].
    rewrite (Sp _ _ Hp0) in Hp. congruence. }
  split; rewrite ?Sa, ?Scl.
  - intros a [?%Pf|[[_ ?] _]]%Sn; lia.
  - intros sid a [[p Hp]%Ps|[_ ?]]%Ss; [rewrite (Sp _ _ Hp); by eexists|done].
  - intros sid sid' a H1 H2. destruct (decide (a < ct_next_lifecycle c)); [|eapply Si; [|done..]; lia].
    eapply Pi; by apply Hold.
  - intros i t Ht. destruct (Pa _ _ Ht) as [[p Hp] Hsid]. split; [rewrite (Sp _ _ Hp); by eexists|].
    intros sid Hs. apply Hsid, Hold; [done|]. apply Pf. by eexists.
  - intros a i Hp. apply Pc, Hback; done.
  - intros a i Hp. apply Pr, Hback; done.
  - intros Hcl i t Ht. specialize (Pst Hcl i t Ht). destruct (ca_stage t); [by apply Sp..|]. intros Hack. by apply Sp, Pst.
Qed.

Lemma Same_refl c : PhasesOk c → Same c c.
Proof. intros [_ _ Pi _ _ _ _]. split; auto. intros sid sid' a _. apply Pi. Qed.

Lemma Same_trans c1 c2 c3 : Same c1 c2 → Same c2 c3 → Same c1 c3.
Proof.
  intros [Sp Sn Snx Ss Si Sa Scl] [Tp Tn Tnx Ts Ti Ta Tcl].
  split; [by auto| |lia| | |congruence|congruence].
  - intros a [[p Hp]|[[? ?] ?]]%Tn; [|right; split; [lia|done]].
    destruct (Sn a ltac:(by eexists)) as [?|[[? ?] Ho]]; [by left|right]. split; [lia|by apply Tp].
  - intros sid a [Hs|[? ?]]%Ts; [|right; split; [lia|done]].
    apply Ss in Hs as [?|[? [p Hp]]]; [by left|right]. split; [done|]. rewrite (Tp _ _ Hp). by eexists.
  - intros sid sid' a Hle H1 H2. destruct (decide (ct_next_lifecycle c2 <= a)) as [|Hlt]; [by eapply Ti|].
    apply Ts in H1 as [H1|[? _]]; [|lia]. apply Ts in H2 as [H2|[? _]]; [|lia]. by eapply Si.
Qed.

(** A step on the tables. *)
Lemma Same_fields c c' :
  ct_lifecycles c' = ct_lifecycles c → ct_next_lifecycle c' = ct_next_lifecycle c → ct_sessions c' ⊆ ct_sessions c →
  ct_attempts c' = ct_attempts c → ct_closed c' = ct_closed c → PhasesOk c → Same c c'.
Proof.
  intros Hl Hn Hs Ha Hc [Pf Ps Pi _ _ _ _]. assert (∀ a, phase_of a c' = phase_of a c) as Hp by (intros a; unfold phase_of; by rewrite Hl).
  split; rewrite ?Hn; try done.
  - intros a p. by rewrite Hp.
  - intros a. rewrite Hp. by left.
  - intros sid a Hsid. left. by eapply lookup_weaken.
  - intros sid sid' a Hle H1 H2. eapply Pi; by eapply lookup_weaken.
Qed.

Lemma phase_on_lifecycle a f b c :
  phase_of b (on_lifecycle a f c) = if decide (a = b) then (λ l, sl_phase (f l)) <$> ct_lifecycles c !! b else phase_of b c.
Proof.
  unfold phase_of, on_lifecycle. simpl. rewrite lookup_alter. case_decide; [subst|done].
  by destruct (ct_lifecycles c !! b).
Qed.

Lemma phase_kept a f b c : (∀ l, sl_phase (f l) = sl_phase l) → phase_of b (on_lifecycle a f c) = phase_of b c.
Proof.
  intros Hf. rewrite phase_on_lifecycle. case_decide; [|done]. unfold phase_of. destruct (ct_lifecycles c !! b); [|done].
  simpl. by rewrite Hf.
Qed.

(** A change of a life cycle that keeps its phase. *)
Lemma Same_on_lifecycle a f c : (∀ l, sl_phase (f l) = sl_phase l) → PhasesOk c → Same c (on_lifecycle a f c).
Proof.
  intros Hf [Pf Ps Pi _ _ _ _]. split; try done.
  - intros b p. by rewrite (phase_kept _ _ _ _ Hf).
  - intros b. rewrite (phase_kept _ _ _ _ Hf). by left.
  - intros sid b. by left.
  - intros sid sid' b _. apply Pi.
Qed.

Lemma Same_add sid l c : sl_phase l = PhaseOpen → ct_sessions c !! sid = None → PhasesOk c → Same c (add_lifecycle sid l c).2.
Proof.
  intros Hl Hnone [Pf Ps Pi _ _ _ _]. unfold add_lifecycle. simpl. split; simpl; try done; try lia.
  - intros a p Hp. unfold phase_of in *. simpl. rewrite lookup_insert_ne; [done|].
    assert (a < ct_next_lifecycle c) by (apply Pf; by eexists). lia.
  - intros a. unfold phase_of. simpl. destruct (decide (ct_next_lifecycle c = a)) as [<-|Hne].
    + intros _. right. rewrite lookup_insert_eq. simpl. rewrite Hl. split; [lia|done].
    + rewrite lookup_insert_ne by done. by left.
  - intros sid' a [[<- <-]|[_ Ha]]%lookup_insert_Some; [right|by left]. split; [done|].
    unfold phase_of. simpl. rewrite lookup_insert_eq. by eexists.
  - intros s s' a Hle H1 H2.
    assert (∀ s0, <[sid := ct_next_lifecycle c]> (ct_sessions c) !! s0 = Some a → s0 = sid) as Hs.
    { intros s0 [[<- _]|[_ Ha]]%lookup_insert_Some; [done|]. apply Ps, Pf in Ha. lia. }
    by rewrite (Hs _ H1), (Hs _ H2).
Qed.

Lemma session_lifecycle_Same sid c : PhasesOk c → Same c (session_lifecycle sid c).2.
Proof.
  intros Hok. unfold session_lifecycle. destruct (ct_sessions c !! sid) eqn:Hs; [by apply Same_on_lifecycle|by apply Same_add].
Qed.

(** A session that [session_lifecycle] answers for is registered. *)
Lemma session_lifecycle_registered sid c a c' : session_lifecycle sid c = (a, c') → ct_sessions c' !! sid = Some a.
Proof.
  unfold session_lifecycle. destruct (ct_sessions c !! sid) eqn:Hs; [by intros [= <- <-]|].
  unfold add_lifecycle. intros [= <- <-]. simpl. by rewrite lookup_insert_eq.
Qed.

(** ** Moves of a phase *)

Definition idle (p : SessionPhase) : bool :=
  match p with PhasePreparing | PhaseOpen | PhaseClosed => true | _ => false end.

Lemma move_ok a f p p' c :
  PhasesOk c → phase_of a c = Some p → idle p = true → idle p' = true → (p = PhaseClosed → p' = PhaseClosed) →
  phase_of a (on_lifecycle a f c) = Some p' → PhasesOk (on_lifecycle a f c).
Proof.
  intros [Pf Ps Pi Pa Pc Pr Pst] Hp Hi Hi' Hcl Hf.
  assert (∀ b, phase_of b (on_lifecycle a f c) = if decide (a = b) then Some p' else phase_of b c) as Hph.
  { intros b. case_decide; [by subst b|]. rewrite phase_on_lifecycle. by case_decide. }
  assert (∀ b, is_Some (phase_of b (on_lifecycle a f c)) ↔ is_Some (phase_of b c)) as Hsome.
  { intros b. rewrite Hph. case_decide; [subst b; rewrite Hp|done]. by split; eexists. }
  split; simpl.
  - intros b ?%Hsome. by apply Pf.
  - intros sid b ?%Ps. by apply Hsome.
  - apply Pi.
  - intros i t Ht. destruct (Pa _ _ Ht). by rewrite Hsome.
  - intros b i. rewrite Hph. case_decide; [by intros [= ->]|apply Pc].
  - intros b i. rewrite Hph. case_decide; [by intros [= ->]|apply Pr].
  - intros Hclosed i t Ht. specialize (Pst Hclosed i t Ht). rewrite Hph. case_decide as Hd; [|done].
    rewrite <-Hd, Hp in Pst. destruct (ca_stage t); [by injection Pst as ->..|].
    intros Hack. f_equal. apply Hcl. by injection (Pst Hack).
Qed.

(** The task of an attempt moves on: its stage and the phase of its life cycle change
    together. *)
Lemma task_ok i t stage p' c c' :
  PhasesOk c → ct_attempts c !! i = Some t → is_done (ca_stage t) = false →
  (∀ b, phase_of b c' = if decide (ca_lifecycle t = b) then Some p' else phase_of b c) →
  ct_next_lifecycle c' = ct_next_lifecycle c → ct_sessions c' ⊆ ct_sessions c → ct_closed c' = ct_closed c →
  ct_attempts c' = alter (λ t, {| ca_sid := ca_sid t; ca_lifecycle := ca_lifecycle t; ca_stage := stage |}) i (ct_attempts c) →
  match stage with
  | StageRequest => False
  | StageReleasing _ => p' = PhaseReleasing i
  | StageDone _ => idle p' = true ∧ (acknowledged stage = true → p' = PhaseClosed)
  end → PhasesOk c'.
Proof.
  intros [Pf Ps Pi Pa Pc Pr Pst] Ht Hnd Hph Hnext Hsub Hcl Hatt Hstage.
  assert (∀ b, is_Some (phase_of b c') ↔ is_Some (phase_of b c)) as Hsome.
  { intros b. rewrite Hph. case_decide; [subst b|done]. destruct (Pa _ _ Ht) as [? _]. split; [done|by eexists]. }
  assert (∀ j u, ct_attempts c' !! j = Some u → ∃ u0, ct_attempts c !! j = Some u0 ∧ ca_sid u = ca_sid u0 ∧
    ca_lifecycle u = ca_lifecycle u0 ∧ (j = i → ca_stage u = stage) ∧ (j ≠ i → u = u0)) as Hback.
  { intros j u Hu. rewrite Hatt in Hu. destruct (decide (j = i)) as [->|Hne].
    - rewrite list_lookup_alter_eq, Ht in Hu. injection Hu as <-. by exists t.
    - rewrite list_lookup_alter_ne in Hu by done. by exists u. }
  assert (∀ j u, j ≠ i → ct_attempts c !! j = Some u → ct_attempts c' !! j = Some u) as Hkeep.
  { intros j u Hne Hu. rewrite Hatt. by rewrite list_lookup_alter_ne. }
  assert (ct_attempts c' !! i = Some {| ca_sid := ca_sid t; ca_lifecycle := ca_lifecycle t; ca_stage := stage |}) as Hi.
  { by rewrite Hatt, list_lookup_alter_eq, Ht. }
  split; rewrite ?Hnext, ?Hcl.
  - intros b ?%Hsome. by apply Pf.
  - intros sid b Hs. apply Hsome, (Ps sid). by eapply lookup_weaken.
  - intros s s' b H1 H2. eapply Pi; by eapply lookup_weaken.
  - intros j u Hu. destruct (Hback _ _ Hu) as (u0 & Hu0 & Hs & Hl & _). rewrite Hsome, Hs, Hl.
    destruct (Pa _ _ Hu0) as [? Hsid]. split; [done|]. intros sid Hss. apply Hsid. by eapply lookup_weaken.
  - intros b j. rewrite Hph. case_decide as Hd.
    + intros [= ->]. destruct stage; [done|done|]. by destruct Hstage.
    + intros Hp. destruct (Pc _ _ Hp) as (u & Hu & Hl & Hst). exists u. split; [|done]. apply Hkeep; [|done].
      intros ->. congruence.
  - intros b j. rewrite Hph. case_decide as Hd.
    + intros [= ->]. destruct stage as [|closed|]; [done| |by destruct Hstage]. injection Hstage as ->.
      eexists _, closed. by split_and!.
    + intros Hp. destruct (Pr _ _ Hp) as (u & closed & Hu & Hl & Hst). exists u, closed. split; [|done]. apply Hkeep; [|done].
      intros ->. congruence.
  - intros Hclosed j u Hu. destruct (decide (j = i)) as [->|Hne].
    + rewrite Hi in Hu. injection Hu as <-. simpl. rewrite Hph, decide_True by done.
      destruct stage; [done|by rewrite Hstage|]. intros Hack. f_equal. by apply Hstage.
    + destruct (Hback _ _ Hu) as (u0 & Hu0 & _ & _ & _ & Heq). specialize (Heq Hne) as ->.
      pose proof (Pst Hclosed _ _ Hu0) as Hpu. pose proof (Pst Hclosed _ _ Ht) as Hpt. rewrite Hph.
      case_decide as Hd; [|done]. rewrite <-Hd in Hpu.
      destruct (ca_stage t); [| |done]; rewrite Hpt in Hpu; destruct (ca_stage u0);
        first [congruence|intros Hack; specialize (Hpu Hack); congruence].
Qed.

(** The connection is lost. *)
Lemma lost_ok c c' :
  PhasesOk c → (∀ a, phase_of a c' = phase_of a c ∨ (phase_of a c' = Some PhaseClosed ∧ is_Some (phase_of a c))) →
  ct_next_lifecycle c' = ct_next_lifecycle c → ct_sessions c' = ct_sessions c → ct_attempts c' = ct_attempts c →
  ct_closed c' = true → PhasesOk c'.
Proof.
  intros [Pf Ps Pi Pa Pc Pr Pst] Hph Hnext Hs Ha Hcl.
  assert (∀ b, is_Some (phase_of b c') ↔ is_Some (phase_of b c)) as Hsome.
  { intros b. destruct (Hph b) as [->|[-> ?]]; [done|]. split; [done|by eexists]. }
  split; rewrite ?Hnext, ?Hs, ?Ha, ?Hcl; try done.
  - intros b ?%Hsome. by apply Pf.
  - intros sid b ?%Ps. by apply Hsome.
  - intros i t Ht. rewrite Hsome. exact (Pa _ _ Ht).
  - intros b i Hp. destruct (Hph b) as [Hx|[Hx _]]; [|congruence]. rewrite Hx in Hp. by apply Pc.
  - intros b i Hp. destruct (Hph b) as [Hx|[Hx _]]; [|congruence]. rewrite Hx in Hp. by apply Pr.
Qed.

Lemma phase_set a f p c :
  is_Some (phase_of a c) → (∀ l, sl_phase (f l) = p) → phase_of a (on_lifecycle a f c) = Some p.
Proof.
  intros Hs Hf. rewrite phase_on_lifecycle, decide_True by done. unfold phase_of in Hs.
  destruct (ct_lifecycles c !! a) as [l|]; [|by destruct Hs]. simpl. by rewrite Hf.
Qed.

Lemma fields_ok c c' :
  ct_lifecycles c' = ct_lifecycles c → ct_next_lifecycle c' = ct_next_lifecycle c → ct_sessions c' ⊆ ct_sessions c →
  ct_attempts c' = ct_attempts c → ct_closed c' = ct_closed c → PhasesOk c → PhasesOk c'.
Proof. intros. eapply Same_ok; [done|by apply Same_fields]. Qed.

Lemma remove_session_ok sid a c : PhasesOk c → PhasesOk (remove_session_if_same sid a c).
Proof.
  intros Hok. unfold remove_session_if_same. case_bool_decide; [|done]. apply (fields_ok c); try done. apply delete_subseteq.
Qed.

Section opened.
Context {T : Type} (f : ClientState → T * ClientState) (Hf : ∀ c, PhasesOk c → Same c (f c).2).

Lemma with_open_Same sid a c : PhasesOk c → Same c (with_open_lifecycle sid a f c).2.
Proof.
  intros Hok. unfold with_open_lifecycle. destruct (ct_closed c); [by apply Same_refl|].
  destruct (negb _); [by apply Same_refl|]. specialize (Hf c Hok). by destruct (f c).
Qed.
Lemma with_session_open_Same sid c : PhasesOk c → Same c (with_session_open sid f c).2.
Proof.
  intros Hok. unfold with_session_open. pose proof (session_lifecycle_Same sid c Hok) as Hs.
  destruct (session_lifecycle sid c) as [a c1]. simpl in Hs. eapply Same_trans; [exact Hs|].
  apply with_open_Same. by eapply Same_ok.
Qed.
Lemma with_existing_session_open_Same sid c : PhasesOk c → Same c (with_existing_session_open sid f c).2.
Proof.
  intros Hok. unfold with_existing_session_open. destruct (ct_sessions c !! sid); [by apply with_open_Same|by apply Same_refl].
Qed.
End opened.

Lemma while_session_exists_Same sid f c :
  (∀ c, PhasesOk c → Same c (f c)) → PhasesOk c → Same c (while_session_exists sid f c).
Proof.
  intros Hf Hok. unfold while_session_exists. pose proof (session_lifecycle_Same sid c Hok) as Hs.
  destruct (session_lifecycle sid c) as [a c1]. simpl in Hs. pose proof (Same_ok _ _ Hok Hs) as Hok1.
  destruct (_ && _); [|done]. eapply Same_trans; [exact Hs|by apply Hf].
Qed.

(** A step that only uses the tables. *)
Ltac same_tables := intros; apply Same_fields; done.

Lemma request_begin_Same access c : PhasesOk c → Same c (request_begin access c).2.
Proof.
  intros Hok. unfold request_begin. destruct (ct_closed c); [by apply Same_refl|]. destruct access as [sid|]; [|same_tables].
  apply with_existing_session_open_Same; [same_tables|done].
Qed.

Lemma insert_invocation_Same context key session_id c : PhasesOk c → Same c (insert_invocation context key session_id c).2.
Proof.
  intros Hok. unfold insert_invocation. set (install := install_invocation _ _ _).
  assert (∀ c0, PhasesOk c0 → Same c0 (install c0).2) as Hi.
  { intros c0 Hok0. unfold install, install_invocation. destruct (_ !! key); [by apply Same_refl|]. destruct context; same_tables. }
  destruct session_id as [sid|]; [|by apply Hi].
  pose proof (with_session_open_Same install Hi sid c Hok) as Hs.
  destruct (with_session_open sid install c) as [[|] c1]; done.
Qed.

Lemma bind_tool_Same sid name binding_id tool c : PhasesOk c → Same c (bind_tool sid name binding_id tool c).2.
Proof. intros Hok. apply with_session_open_Same; [same_tables|done]. Qed.
Lemma unbind_tool_Same sid name binding_id old c : PhasesOk c → Same c (unbind_tool sid name binding_id old c).
Proof.
  intros Hok. unfold unbind_tool. set (c1 := set_tool_bindings _ c). assert (Same c c1) as Hs by same_tables.
  eapply Same_trans; [exact Hs|]. apply while_session_exists_Same; [same_tables|by eapply Same_ok].
Qed.
Lemma note_approval_Same sid turn_id request_id c : PhasesOk c → Same c (note_approval sid turn_id request_id c).
Proof. intros Hok. apply while_session_exists_Same; [same_tables|done]. Qed.

Lemma probe_session_Same sid c : PhasesOk c → Same c (probe_session sid c).2.
Proof.
  intros Hok. unfold probe_session. destruct (ct_sessions c !! sid) as [a|] eqn:Hs.
  - destruct (default false _); [by apply Same_on_lifecycle|by apply Same_refl].
  - pose proof (Same_add sid (set_users 1 (lifecycle_new true)) c eq_refl Hs Hok) as Hsame.
    by destruct (add_lifecycle _ _ _).
Qed.
Lemma probe_session_registered sid c a tracked c' : probe_session sid c = (a, tracked, c') → ct_sessions c' !! sid = Some a.
Proof.
  unfold probe_session. destruct (ct_sessions c !! sid) as [b|] eqn:Hs.
  - destruct (default false _); by intros [= <- <- <-].
  - unfold add_lifecycle. intros [= <- <- <-]. simpl. by rewrite lookup_insert_eq.
Qed.

(** A close attempt begins. *)
Lemma begin_ok sid a c :
  PhasesOk c → ct_sessions c !! sid = Some a → phase_of a c = Some PhaseOpen →
  PhasesOk (set_attempts (ct_attempts c ++ [{| ca_sid := sid; ca_lifecycle := a; ca_stage := StageRequest |}])
              (on_lifecycle a (set_phase (PhaseClosing (length (ct_attempts c)))) c)).
Proof.
  intros [Pf Ps Pi Pa Pc Pr Pst] Hsid Hp. set (n := length (ct_attempts c)). set (t := {| ca_sid := sid; ca_lifecycle := a; ca_stage := StageRequest |}).
  set (c' := set_attempts _ _).
  assert (∀ b, phase_of b c' = if decide (a = b) then Some (PhaseClosing n) else phase_of b c) as Hph.
  { intros b. case_decide; [subst b; apply (phase_set a _ _ c); [by rewrite Hp; eexists|done]|].
    change (phase_of b c') with (phase_of b (on_lifecycle a (set_phase (PhaseClosing n)) c)). rewrite phase_on_lifecycle. by case_decide. }
  assert (∀ b, is_Some (phase_of b c') ↔ is_Some (phase_of b c)) as Hsome.
  { intros b. rewrite Hph. case_decide; [subst b; rewrite Hp|done]. by split; eexists. }
  assert (∀ i u, ct_attempts c' !! i = Some u → ct_attempts c !! i = Some u ∨ (i = n ∧ u = t)) as Hback.
  { intros i u [Hu|[Hi Hx]]%lookup_app_Some; [by left|right]. apply list_lookup_singleton_Some in Hx as [? <-].
    split; [unfold n; lia|done]. }
  assert (∀ i u, ct_attempts c !! i = Some u → ct_attempts c' !! i = Some u) as Hkeep by (intros; by apply lookup_app_l_Some).
  split.
  - intros b ?%Hsome. by apply Pf.
  - intros s b Hs. apply Hsome. by apply (Ps s).
  - apply Pi.
  - intros i u [Hu|[-> ->]]%Hback; [rewrite Hsome; by apply (Pa i)|]. simpl. rewrite Hsome, Hp. split; [by eexists|].
    intros s Hs. by eapply Pi.
  - intros b i. rewrite Hph. case_decide as Hd.
    + intros [= <-]. exists t. split_and!; [|done..]. unfold c'. simpl. rewrite lookup_app_r by (unfold n; lia).
      by rewrite Nat.sub_diag.
    + intros (u & Hu & ?)%Pc. exists u. split; [by apply Hkeep|done].
  - intros b i. rewrite Hph. case_decide; [done|]. intros (u & closed & Hu & ?)%Pr. exists u, closed. split; [by apply Hkeep|done].
  - intros Hclosed i u [Hu|[-> ->]]%Hback; rewrite Hph; simpl; [|by rewrite decide_True].
    specialize (Pst Hclosed _ _ Hu). case_decide as Hd; [|done]. rewrite <-Hd, Hp in Pst.
    destruct (ca_stage u); [done|done|]. intros Hack. by specialize (Pst Hack).
Qed.

(** ** The structure of every step *)

Lemma phase_is a c (p : SessionPhase) : negb (bool_decide (phase_of a c = Some p)) = false → phase_of a c = Some p.
Proof. intros H%negb_false_iff. by apply bool_decide_eq_true in H. Qed.

Lemma prepare_ok sid c : PhasesOk c → PhasesOk (prepare_session sid c).2.
Proof.
  intros Hok. unfold prepare_session. pose proof (session_lifecycle_Same sid c Hok) as Hs.
  destruct (session_lifecycle sid c) as [a c1]. simpl in Hs. pose proof (Same_ok _ _ Hok Hs) as Hok1.
  destruct (_ || _) eqn:Hg; [done|]. apply orb_false_iff in Hg as [_ Hp%phase_is]. simpl.
  eapply (move_ok _ _ _ PhasePreparing); try done. apply phase_set; [by rewrite Hp; eexists|done].
Qed.

Lemma finish_preparation_ok sid accepted c : PhasesOk c → PhasesOk (finish_preparation sid accepted c).2.
Proof.
  intros Hok. unfold finish_preparation. pose proof (session_lifecycle_Same sid c Hok) as Hs.
  destruct (session_lifecycle sid c) as [a c1]. simpl in Hs. pose proof (Same_ok _ _ Hok Hs) as Hok1.
  destruct (_ || _) eqn:Hg; [done|]. apply orb_false_iff in Hg as [_ Hp%phase_is]. simpl.
  eapply (move_ok _ _ _ (if accepted then PhaseOpen else PhaseClosed)); try done; [by destruct accepted|].
  apply phase_set; [by rewrite Hp; eexists|done].
Qed.

Lemma accept_prepared_ok sid a packs c : PhasesOk c → PhasesOk (accept_prepared_session sid a packs c).2.
Proof.
  intros Hok. unfold accept_prepared_session. destruct (_ != _); [done|].
  destruct (_ || _) eqn:Hg; [done|]. apply orb_false_iff in Hg as [_ Hp%phase_is].
  destruct (_ ≫= sl_pack_owner); [done|]. simpl.
  eapply (move_ok _ _ _ PhaseOpen); try done. apply phase_set; [by rewrite Hp; eexists|done].
Qed.

Lemma reject_prepared_ok sid a c : PhasesOk c → PhasesOk (reject_prepared_session sid a c).
Proof.
  intros Hok. unfold reject_prepared_session. apply remove_session_ok.
  destruct (ct_lifecycles c !! a) as [l|] eqn:Hl.
  - destruct (decide (sl_phase l = PhasePreparing)) as [Hp|Hp].
    + eapply (move_ok _ _ PhasePreparing PhaseClosed); try done.
      * unfold phase_of. by rewrite Hl, <-Hp.
      * rewrite phase_on_lifecycle, decide_True, Hl by done. simpl. by rewrite Hp, bool_decide_eq_true_2.
    + eapply Same_ok; [exact Hok|]. destruct Hok as [Pf Ps Pi _ _ _ _].
      assert (∀ b, phase_of b (on_lifecycle a (λ l0, (if sl_phase l0 == PhasePreparing then set_phase PhaseClosed else id)
        (set_released true l0)) c) = phase_of b c) as Hph.
      { intros b. rewrite phase_on_lifecycle. case_decide; [subst b|done]. unfold phase_of. rewrite Hl. simpl.
        by rewrite bool_decide_eq_false_2. }
      split; simpl; try done.
      * intros b p. by rewrite Hph.
      * intros b. rewrite Hph. by left.
      * intros s b. by left.
      * intros s s' b _. apply Pi.
  - apply (fields_ok c); try done. simpl. unfold on_lifecycle. simpl. by apply alter_id'.
Qed.

Lemma drop_probe_ok sid a c : PhasesOk c → PhasesOk (drop_probe sid a c).
Proof.
  intros Hok. unfold drop_probe.
  set (c1 := on_lifecycle a _ c). assert (PhasesOk c1) as Hok1 by (eapply Same_ok; [exact Hok|by apply Same_on_lifecycle]).
  destruct (ct_lifecycles c1 !! a); [|done]. destruct (_ && _); [by apply remove_session_ok|done].
Qed.

Lemma close_session_ok sid c : PhasesOk c → PhasesOk (close_session sid c).2.
Proof.
  intros Hok. unfold close_session. destruct (CloseSessionParams_validate sid) as [u|]; [|done]. destruct (ct_closed c); [done|].
  pose proof (probe_session_Same sid c Hok) as Hs. destruct (probe_session sid c) as [[a tracked] c1] eqn:Hp. simpl in Hs.
  pose proof (Same_ok _ _ Hok Hs) as Hok1. pose proof (probe_session_registered _ _ _ _ _ Hp) as Hr.
  destruct (phase_of a c1) as [[]|] eqn:Hph; try done. by apply begin_ok.
Qed.

Lemma release_begin_fields sid a c :
  let c' := release_begin sid a c in
  ct_lifecycles c' = ct_lifecycles (on_lifecycle a (set_released true) c) ∧ ct_next_lifecycle c' = ct_next_lifecycle c ∧
  ct_sessions c' = ct_sessions c ∧ ct_attempts c' = ct_attempts c ∧ ct_closed c' = ct_closed c.
Proof.
  unfold release_begin. simpl. generalize (pending_of sid (on_lifecycle a (set_released true) c)) as ids. intros ids.
  induction ids as [|id ids IH]; [done|]. simpl. unfold answer_pending. by case_bool_decide.
Qed.

Lemma phase_release_begin sid a b c : phase_of b (release_begin sid a c) = phase_of b c.
Proof.
  destruct (release_begin_fields sid a c) as (Hl & _). unfold phase_of at 1. rewrite Hl. by apply phase_kept.
Qed.

Lemma disconnect_fields message c :
  let c' := disconnect message c in
  ct_next_lifecycle c' = ct_next_lifecycle c ∧ ct_sessions c' = ct_sessions c ∧ ct_attempts c' = ct_attempts c ∧
  ct_closed c' = true ∧
  ∀ a, phase_of a c' = phase_of a c ∨ (phase_of a c' = Some PhaseClosed ∧ is_Some (phase_of a c)).
Proof.
  unfold disconnect. destruct (ct_closed c) eqn:Hc; simpl; [split_and!; by auto|]. split_and!; try done. intros a.
  unfold emergency_drain_session_packs, phase_of. simpl. rewrite map_lookup_imap.
  destruct (ct_lifecycles c !! a) as [l|]; simpl; [|by left]. case_bool_decide; [right|by left]. split; [done|by eexists].
Qed.

Lemma disconnect_ok message c : PhasesOk c → PhasesOk (disconnect message c).
Proof. intros Hok. destruct (disconnect_fields message c) as (? & ? & ? & ? & ?). by eapply lost_ok. Qed.

Lemma phase_set_stage i stage c a : phase_of a (set_stage i stage c) = phase_of a c.
Proof. done. Qed.

(** A task that leaves its attempt with the phase set. *)
Lemma task_phase_ok i t stage p' c :
  PhasesOk c → ct_attempts c !! i = Some t → is_done (ca_stage t) = false →
  match stage with
  | StageRequest => False
  | StageReleasing _ => p' = PhaseReleasing i
  | StageDone _ => idle p' = true ∧ (acknowledged stage = true → p' = PhaseClosed)
  end → PhasesOk (set_stage i stage (on_lifecycle (ca_lifecycle t) (set_phase p') c)).
Proof.
  intros Hok Ht Hd Hst. eapply (task_ok i t stage p' c); try done. intros b. rewrite phase_set_stage.
  case_decide; [subst b; apply phase_set; [by apply (po_attempts _ Hok i)|done]|]. rewrite phase_on_lifecycle. by case_decide.
Qed.

Lemma set_stage_disconnect i stage message c a :
  PhasesOk (set_stage i stage c) → PhasesOk (set_stage i stage (disconnect message c)).
Proof.
  intros Hok. destruct (disconnect_fields message c) as (Hn & Hs & Ha & Hc & Hp).
  eapply (lost_ok (set_stage i stage c)); [done|exact Hp|exact Hn|exact Hs| |exact Hc].
  unfold set_stage. simpl. by rewrite Ha.
Qed.

Lemma close_response_ok i response c c' : close_response i response c = Some c' → PhasesOk c → PhasesOk c'.
Proof.
  unfold close_response. intros Hc Hok. apply bind_Some in Hc as (t & Ht & Hc).
  destruct (ca_stage t) eqn:Hst; [|done..]. apply Some_inj in Hc. assert (is_done (ca_stage t) = false) as Hd by by rewrite Hst.
  assert (∀ error, PhasesOk (set_stage i (StageDone (Err (FailureUnknown error)))
    (disconnect "Client closed" (on_lifecycle (ca_lifecycle t) (set_phase PhaseClosed) c)))) as Hunknown.
  { intros error. apply (set_stage_disconnect _ _ _ _ 0). by apply task_phase_ok. }
  destruct response as [[thread_id closed]|error].
  - destruct (thread_id == ca_sid t); [|rewrite <-Hc; apply Hunknown].
    set (c1 := if closed then commit_probe (ca_lifecycle t) c else c) in *.
    assert (PhasesOk c1 ∧ ct_attempts c1 !! i = Some t) as [Hok1 Ht1].
    { unfold c1. destruct closed; [|done]. split; [|done]. eapply Same_ok; [exact Hok|by apply Same_on_lifecycle]. }
    rewrite <-Hc. destruct (release_begin_fields (ca_sid t) (ca_lifecycle t)
      (on_lifecycle (ca_lifecycle t) (set_phase (PhaseReleasing i)) c1)) as (_ & Hn & Hs & Ha & Hcl).
    eapply (task_ok i t (StageReleasing closed) (PhaseReleasing i) c1); try done.
    + intros b. rewrite phase_set_stage, phase_release_begin. case_decide; [subst b; apply phase_set; [by apply (po_attempts _ Hok1 i)|done]|].
      rewrite phase_on_lifecycle. by case_decide.
    + exact (reflexive_eq (R := (⊆)) _ _ Hs).
    + exact (f_equal (alter _ i) Ha).
  - destruct error; try (rewrite <-Hc; apply Hunknown).
    destruct (_ && _); rewrite <-Hc; [by apply task_phase_ok|apply Hunknown].
Qed.

Lemma release_end_fields ends sid a c :
  let c' := (release_end ends sid a c).2 in
  ct_lifecycles c' = ct_lifecycles (on_lifecycle a (set_pack_owner None) c) ∧ ct_next_lifecycle c' = ct_next_lifecycle c ∧
  ct_sessions c' = ct_sessions c ∧ ct_attempts c' = ct_attempts c ∧ ct_closed c' = ct_closed c.
Proof. done. Qed.

Lemma close_released_ok ends i c c' : close_released ends i c = Some c' → PhasesOk c → PhasesOk c'.
Proof.
  unfold close_released. intros Hc Hok. apply bind_Some in Hc as (t & Ht & Hc).
  destruct (ca_stage t) as [|closed|] eqn:Hst; [done| |done]. destruct (callbacks_finished _ _); [|done].
  destruct (release_end_fields ends (ca_sid t) (ca_lifecycle t) c) as (Hl & Hn & Hs & Ha & Hcl).
  destruct (release_end _ _ _ _) as [failures c1]. simpl in Hl, Hn, Hs, Ha, Hcl.
  assert (PhasesOk c1) as Hok1.
  { apply (fields_ok (on_lifecycle (ca_lifecycle t) (set_pack_owner None) c)); try done; [by rewrite Hs|].
    eapply Same_ok; [exact Hok|by apply Same_on_lifecycle]. }
  injection Hc as <-. apply task_phase_ok; [done|by rewrite Ha|by rewrite Hst|by destruct failures].
Qed.

Lemma client_step_phases c c' : client_step c c' → PhasesOk c → PhasesOk c'.
Proof.
  destruct 1; intros Hok.
  - by apply prepare_ok.
  - by apply finish_preparation_ok.
  - by apply accept_prepared_ok.
  - by apply reject_prepared_ok.
  - unfold take_attached_pack_owner. destruct (ct_sessions c !! sid); [|done].
    eapply Same_ok; [exact Hok|by apply Same_on_lifecycle].
  - eapply Same_ok; [exact Hok|]. apply with_session_open_Same; [|done]. intros. by apply Same_refl.
  - eapply Same_ok; [exact Hok|by apply probe_session_Same].
  - eapply Same_ok; [exact Hok|by apply Same_on_lifecycle].
  - by apply drop_probe_ok.
  - eapply Same_ok; [exact Hok|by apply request_begin_Same].
  - by apply (fields_ok c).
  - unfold answer_pending. case_bool_decide; [by apply (fields_ok c)|done].
  - eapply Same_ok; [exact Hok|by apply insert_invocation_Same].
  - destruct context; by apply (fields_ok c).
  - eapply Same_ok; [exact Hok|by apply bind_tool_Same].
  - eapply Same_ok; [exact Hok|by apply unbind_tool_Same].
  - eapply Same_ok; [exact Hok|by apply note_approval_Same].
  - by apply close_session_ok.
  - by eapply close_response_ok.
  - by eapply close_released_ok.
  - by apply disconnect_ok.
Qed.

(** ** What a session still has *)

Definition registry_of (context : bool) c : gmap string ScopedCallback :=
  if context then ct_context_callbacks c else ct_tool_callbacks c.

(** A request waits; a callback runs that was not stopped; a callback is registered; a
    tool is bound. *)
Definition Waiting sid c : Prop := ∃ id, ct_pending_sessions c !! id = Some sid.
Definition Active sid c : Prop := ∃ context key callback, registry_of context c !! key = Some callback ∧
  sc_session_id callback = Some sid ∧ sc_stopped callback = false.
Definition Called sid c : Prop := ∃ context key callback, registry_of context c !! key = Some callback ∧
  sc_session_id callback = Some sid.
Definition Tooled sid c : Prop := ∃ name,
  is_Some (ct_tools c !! (sid, name)) ∨ is_Some (ct_tool_bindings c !! (sid, name)).

Record NoGain sid c c' : Prop := {
  ng_waiting : Waiting sid c' → Waiting sid c;
  ng_active : Active sid c' → Active sid c;
  ng_called : Called sid c' → Called sid c;
  ng_tooled : Tooled sid c' → Tooled sid c;
}.
#[export] Instance NoGain_preorder sid : PreOrder (NoGain sid).
Proof. split; [by split|]. intros c1 c2 c3 [] []. split; auto. Qed.

Lemma NoGain_fields sid c c' :
  ct_pending_sessions c' ⊆ ct_pending_sessions c → ct_tool_callbacks c' ⊆ ct_tool_callbacks c →
  ct_context_callbacks c' ⊆ ct_context_callbacks c → ct_tools c' ⊆ ct_tools c → ct_tool_bindings c' ⊆ ct_tool_bindings c →
  NoGain sid c c'.
Proof.
  intros Hp Ht Hc Hto Hb.
  assert (∀ context key callback, registry_of context c' !! key = Some callback → registry_of context c !! key = Some callback) as Hreg.
  { intros context key callback Hk. unfold registry_of in *. destruct context; by eapply lookup_weaken. }
  split.
  - intros [id Hid]. exists id. by eapply lookup_weaken.
  - intros (context & key & callback & Hk & ?). exists context, key, callback. auto.
  - intros (context & key & callback & Hk & ?). exists context, key, callback. auto.
  - intros [name [[x Hx]|[x Hx]]]; exists name; [left|right]; exists x; by eapply lookup_weaken.
Qed.

(** A session that can still be entered. *)
Definition Enterable sid c : Prop :=
  ct_closed c = false ∧
  (ct_sessions c !! sid = None ∨ ∃ a p, ct_sessions c !! sid = Some a ∧ phase_of a c = Some p ∧ is_released_phase p = false).

Definition QuietOk c : Prop := ∀ i t, ct_attempts c !! i = Some t → acknowledged (ca_stage t) = true →
  ct_sessions c !! ca_sid t = Some (ca_lifecycle t) →
  ¬ Waiting (ca_sid t) c ∧ ¬ Active (ca_sid t) c ∧
  (is_done (ca_stage t) = true → ¬ Called (ca_sid t) c ∧ ¬ Tooled (ca_sid t) c).

Lemma acknowledged_not_enterable c i t :
  PhasesOk c → ct_attempts c !! i = Some t → acknowledged (ca_stage t) = true →
  ct_sessions c !! ca_sid t = Some (ca_lifecycle t) → ¬ Enterable (ca_sid t) c.
Proof.
  intros Hok Ht Hack Hs [Hcl [?|(a & p & Ha & Hp & Hr)]]; [congruence|]. pose proof (po_stage _ Hok Hcl _ _ Ht) as Hst.
  assert (a = ca_lifecycle t) as -> by congruence. destruct (ca_stage t); [done| |].
  - rewrite Hst in Hp. by injection Hp as <-.
  - rewrite (Hst Hack) in Hp. by injection Hp as <-.
Qed.

(** A session that cannot be entered refuses what would enter it. *)
Lemma fenced_open {T} sid a (f : ClientState → T * ClientState) c :
  ct_sessions c !! sid = Some a → ¬ Enterable sid c → is_err (with_open_lifecycle sid a f c).1 = true.
Proof.
  intros Hs Hn. unfold with_open_lifecycle. destruct (ct_closed c) eqn:Hcl; [done|].
  case_bool_decide as Hp; [|done]. destruct Hn. split; [done|]. right. by exists a, PhaseOpen.
Qed.

Lemma fenced_existing {T} sid a (f : ClientState → T * ClientState) c :
  ct_sessions c !! sid = Some a → ¬ Enterable sid c → is_err (with_existing_session_open sid f c).1 = true.
Proof. intros Hs Hn. unfold with_existing_session_open. rewrite Hs. by apply fenced_open. Qed.

Lemma fenced_session {T} sid a (f : ClientState → T * ClientState) c :
  ct_sessions c !! sid = Some a → ¬ Enterable sid c → is_err (with_session_open sid f c).1 = true.
Proof.
  intros Hs Hn. unfold with_session_open, session_lifecycle. rewrite Hs. apply fenced_open; [done|].
  intros [Hcl [?|(b & p & Hb & Hp & Hr)]]; [simpl in *; congruence|]. rewrite phase_kept in Hp by done. destruct Hn.
  split; [done|]. right. by exists b, p.
Qed.

(** A session that cannot be entered gets no second owner of its close. *)
Lemma fenced_close sid a c attempt :
  ct_sessions c !! sid = Some a → ¬ Enterable sid c → (close_session sid c).1 ≠ CloseWaits attempt true.
Proof.
  intros Hs Hn. unfold close_session. destruct (CloseSessionParams_validate sid); [|done].
  destruct (ct_closed c) eqn:Hcl; [done|]. unfold probe_session. rewrite Hs.
  match goal with |- context [phase_of a ?x] => set (c1 := x) end.
  assert (phase_of a c1 = phase_of a c) as -> by (unfold c1; destruct (default _ _); [by apply phase_kept|done]).
  destruct (phase_of a c) as [[]|] eqn:Hp; try done. destruct Hn. split; [done|]. right. by exists a, PhaseOpen.
Qed.

Lemma quiet_step c c' :
  PhasesOk c → QuietOk c →
  (∀ i t, ct_attempts c' !! i = Some t → acknowledged (ca_stage t) = true → ct_attempts c !! i = Some t) →
  (∀ sid a, ct_sessions c' !! sid = Some a → ct_sessions c !! sid = Some a ∨ ct_next_lifecycle c <= a) →
  (∀ sid, Enterable sid c ∨ NoGain sid c c') → QuietOk c'.
Proof.
  intros Hok Hq Ha Hs Hg i t Ht Hack Hsid. apply Ha in Ht; [|done].
  assert (ct_sessions c !! ca_sid t = Some (ca_lifecycle t)) as Hsid0.
  { destruct (Hs _ _ Hsid) as [?|Hle]; [done|]. destruct (po_attempts _ Hok _ _ Ht) as [?%(po_fresh _ Hok) _]. lia. }
  destruct (Hq _ _ Ht Hack Hsid0) as (Hw & Hact & Hdone). destruct (Hg (ca_sid t)) as [He|[Gw Ga Gc Gt]].
  - by destruct (acknowledged_not_enterable _ _ _ Hok Ht Hack Hsid0).
  - split_and!; [by intros ?%Gw|by intros ?%Ga|]. intros [? ?]%Hdone. split; [by intros ?%Gc|by intros ?%Gt].
Qed.

(** A step of [Same] that gains nothing for a session that cannot be entered. *)
Lemma quiet_same c c' :
  PhasesOk c → QuietOk c → Same c c' → (∀ sid, Enterable sid c ∨ NoGain sid c c') → QuietOk c'.
Proof.
  intros Hok Hq [_ _ _ Ss _ Sa _] Hg. eapply quiet_step; [done|done| | |done].
  - by rewrite Sa.
  - intros sid a [?|[? _]]%Ss; auto.
Qed.

Lemma session_lifecycle_tables sid c : ∀ s, NoGain s c (session_lifecycle sid c).2.
Proof. intros s. unfold session_lifecycle. by destruct (ct_sessions c !! sid); apply NoGain_fields. Qed.

(** Before the lookup the session could be entered as well. *)
Lemma enter_before sid c a c1 p :
  session_lifecycle sid c = (a, c1) → ct_closed c1 = false → phase_of a c1 = Some p → is_released_phase p = false →
  Enterable sid c.
Proof.
  unfold session_lifecycle. destruct (ct_sessions c !! sid) as [b|] eqn:Hs.
  - intros [= <- <-] Hcl Hp Hr. split; [done|right]. exists b, p. rewrite phase_kept in Hp by done. done.
  - unfold add_lifecycle. intros [= <- <-] Hcl _ _. split; [done|by left].
Qed.

Section entering.
Context {T : Type} (sid : string) (f : ClientState → T * ClientState).
Hypothesis (Hf : ∀ c s, s ≠ sid → NoGain s c (f c).2).

Lemma with_open_gain a c s :
  (ct_closed c = false ∧ phase_of a c = Some PhaseOpen ∧ s = sid) ∨ NoGain s c (with_open_lifecycle sid a f c).2.
Proof.
  unfold with_open_lifecycle. destruct (ct_closed c) eqn:Hcl; [by right|]. destruct (negb _) eqn:Hp; [by right|].
  apply phase_is in Hp. destruct (decide (s = sid)) as [->|Hne]; [by left|right]. specialize (Hf c s Hne). by destruct (f c).
Qed.

Lemma with_session_open_gain c s : Enterable s c ∨ NoGain s c (with_session_open sid f c).2.
Proof.
  unfold with_session_open. pose proof (session_lifecycle_tables sid c s) as Hg.
  destruct (session_lifecycle sid c) as [a c1] eqn:Hl. simpl in Hg.
  destruct (with_open_gain a c1 s) as [(Hcl & Hp & ->)|?]; [left; by eapply enter_before|right; by etrans].
Qed.

Lemma with_existing_session_open_gain c s : Enterable s c ∨ NoGain s c (with_existing_session_open sid f c).2.
Proof.
  unfold with_existing_session_open. destruct (ct_sessions c !! sid) as [a|] eqn:Hs; [|by right].
  destruct (with_open_gain a c s) as [(Hcl & Hp & ->)|?]; [left|by right]. split; [done|right]. by exists a, PhaseOpen.
Qed.
End entering.

Lemma while_session_exists_gain sid f c s :
  (∀ c s, s ≠ sid → NoGain s c (f c)) → Enterable s c ∨ NoGain s c (while_session_exists sid f c).
Proof.
  intros Hf. unfold while_session_exists. pose proof (session_lifecycle_tables sid c s) as Hg.
  destruct (session_lifecycle sid c) as [a c1] eqn:Hl. simpl in Hg.
  destruct (_ && _) eqn:Hopen; [|by right]. apply andb_true_iff in Hopen as [Hp%negb_true_iff Hcl%negb_true_iff].
  destruct (phase_of a c1) as [p|] eqn:Hph; [|done]. simpl in Hp.
  destruct (decide (s = sid)) as [->|Hne]; [left; by eapply enter_before|right]. etrans; [exact Hg|by apply Hf].
Qed.
