(* ===== verification/SdkSessionFence.v ===== *)
(** * The fence around a closed session

    What the steps of a connection can add to a session, and that nothing is added to one
    whose close was acknowledged. *)

From stdpp Require Import relations.
From S2P Require Import Prelude Protocol SessionManagement SdkViews SdkSessions SdkSessionLaws.

Implicit Types (c : ClientState) (a : nat) (sid : string).

(** ** What each operation adds *)

Lemma insert_pending_gain sid id pending c s : s ≠ sid → pending ⊆ ct_pending_sessions c →
  NoGain s c (set_pending_sessions (<[id := sid]> pending) c).
Proof.
  intros Hne Hsub. split; [|done..]. intros [id' Hid]. simpl in Hid.
  apply lookup_insert_Some in Hid as [[_ <-]|[_ Hid]]; [done|]. exists id'. by eapply lookup_weaken.
Qed.

Lemma request_begin_gain access c s : Enterable s c ∨ NoGain s c (request_begin access c).2.
Proof.
  unfold request_begin. destruct (ct_closed c); [by right|]. destruct access as [sid|]; [|right; by apply NoGain_fields].
  apply with_existing_session_open_gain. intros c0 s0 Hne. simpl.
  match goal with |- NoGain _ _ (set_pending_sessions _ ?x) => transitivity x; [by apply NoGain_fields|] end.
  by apply insert_pending_gain.
Qed.

Lemma install_invocation_gain context key session_id c s :
  session_id ≠ Some s → NoGain s c (install_invocation context key session_id c).2.
Proof.
  intros Hne. unfold install_invocation. destruct (_ !! key) eqn:Hk; [done|]. simpl. set (c' := if context then _ else _).
  assert (∀ ctx k cb, registry_of ctx c' !! k = Some cb → sc_session_id cb = Some s → registry_of ctx c !! k = Some cb) as Hreg.
  { intros ctx k cb Hcb Hs. unfold registry_of, c' in *. destruct ctx, context; simpl in *; try done;
      apply lookup_insert_Some in Hcb as [[_ <-]|[_ ?]]; done. }
  split.
  - by destruct context.
  - intros (ctx & k & cb & Hcb & Hs & Hst). exists ctx, k, cb. split; [by apply Hreg|done].
  - intros (ctx & k & cb & Hcb & Hs). exists ctx, k, cb. split; [by apply Hreg|done].
  - by destruct context.
Qed.

Lemma insert_invocation_gain context key session_id c s : Enterable s c ∨ NoGain s c (insert_invocation context key session_id c).2.
Proof.
  unfold insert_invocation. destruct session_id as [sid|]; [|right; by apply install_invocation_gain].
  assert (∀ c0 s0, s0 ≠ sid → NoGain s0 c0 (install_invocation context key (Some sid) c0).2) as Hi.
  { intros c0 s0 Hne. apply install_invocation_gain. congruence. }
  pose proof (with_session_open_gain sid _ Hi c s) as Hg. by destruct (with_session_open _ _ _) as [[|] c1].
Qed.

Lemma tools_gain sid c c' s :
  s ≠ sid → ct_pending_sessions c' = ct_pending_sessions c → ct_tool_callbacks c' = ct_tool_callbacks c →
  ct_context_callbacks c' = ct_context_callbacks c →
  (∀ name, is_Some (ct_tools c' !! (s, name)) → is_Some (ct_tools c !! (s, name))) →
  (∀ name, is_Some (ct_tool_bindings c' !! (s, name)) → is_Some (ct_tool_bindings c !! (s, name))) → NoGain s c c'.
Proof.
  intros _ Hp Ht Hc Hto Hb. split.
  - unfold Waiting. by rewrite Hp.
  - unfold Active, registry_of. by rewrite Ht, Hc.
  - unfold Called, registry_of. by rewrite Ht, Hc.
  - intros [name [?|?]]; exists name; [left; by apply Hto|right; by apply Hb].
Qed.

Lemma bind_tool_gain sid name binding_id tool c s : Enterable s c ∨ NoGain s c (bind_tool sid name binding_id tool c).2.
Proof.
  apply with_session_open_gain. intros c0 s0 Hne. apply (tools_gain sid); try done; intros n; simpl;
    rewrite lookup_insert_ne; congruence.
Qed.

Lemma unbind_tool_gain sid name binding_id old c s : Enterable s c ∨ NoGain s c (unbind_tool sid name binding_id old c).
Proof.
  unfold unbind_tool. set (c1 := set_tool_bindings _ c).
  assert (NoGain s c c1) as H1 by (apply NoGain_fields; try done; apply delete_subseteq).
  destruct (while_session_exists_gain sid (λ c0, set_tools (if ct_closed c0 then delete (sid, name) (ct_tools c0)
    else partial_alter (λ _, old) (sid, name) (ct_tools c0)) c0) c1 s) as [He|?]; [|by left|right; by etrans].
  intros c0 s0 Hne. apply (tools_gain sid); try done. intros n. simpl. destruct (ct_closed c0).
  - rewrite lookup_delete_ne; congruence.
  - rewrite lookup_partial_alter_ne; congruence.
Qed.

Lemma note_approval_gain sid turn_id request_id c s : Enterable s c ∨ NoGain s c (note_approval sid turn_id request_id c).
Proof. apply while_session_exists_gain. intros c0 s0 _. by apply NoGain_fields. Qed.

Lemma disconnect_gain message c s : NoGain s c (disconnect message c).
Proof.
  unfold disconnect. destruct (ct_closed c); [done|]. apply NoGain_fields; apply map_empty_subseteq.
Qed.

Lemma stop_callbacks_Some sid registry key callback :
  stop_callbacks sid registry !! key = Some callback →
  ∃ before, registry !! key = Some before ∧ sc_session_id callback = sc_session_id before ∧
    (sc_stopped callback = false → sc_stopped before = false ∧ sc_session_id callback ≠ Some sid).
Proof.
  unfold stop_callbacks. rewrite lookup_fmap. intros (before & Hb & ->)%fmap_Some. exists before. split; [done|].
  case_bool_decide; [done|]. split; [done|]. by split.
Qed.

(** The start of a release. *)
Lemma release_begin_tables sid a c :
  let c' := release_begin sid a c in
  (∀ id s, ct_pending_sessions c' !! id = Some s ↔ ct_pending_sessions c !! id = Some s ∧ s ≠ sid) ∧
  ct_tool_callbacks c' = stop_callbacks sid (ct_tool_callbacks c) ∧
  ct_context_callbacks c' = stop_callbacks sid (ct_context_callbacks c) ∧
  ct_tools c' = ct_tools c ∧ ct_tool_bindings c' = ct_tool_bindings c.
Proof.
  unfold release_begin. simpl. set (c0 := on_lifecycle a (set_released true) c).
  assert (∀ id, id ∈ pending_of sid c0 ↔ ct_pending_sessions c !! id = Some sid) as Hids.
  { intros id. unfold pending_of. rewrite list_elem_of_fmap. setoid_rewrite list_elem_of_filter.
    setoid_rewrite elem_of_map_to_list'. split.
    - intros ([id' s] & -> & <- & Hid). done.
    - intros Hid. by exists (id, sid). }
  assert (∀ ids, let c' := foldr (λ id c1, answer_pending id (Some (SdkSessionClosed sid))
      (set_pending_sessions (delete id (ct_pending_sessions c1)) c1)) c0 ids in
    (∀ id s, ct_pending_sessions c' !! id = Some s ↔ ct_pending_sessions c !! id = Some s ∧ id ∉ ids) ∧
    ct_tool_callbacks c' = ct_tool_callbacks c ∧ ct_context_callbacks c' = ct_context_callbacks c ∧
    ct_tools c' = ct_tools c ∧ ct_tool_bindings c' = ct_tool_bindings c) as Hfold.
  { intros ids. induction ids as [|id ids (IH & IHrest)]; simpl.
    - split; [|done]. intros id s. split; [|by intros [? _]]. intros Hid. split; [done|set_solver].
    - set (c1 := foldr _ c0 ids) in *.
      assert (ct_pending_sessions (answer_pending id (Some (SdkSessionClosed sid))
        (set_pending_sessions (delete id (ct_pending_sessions c1)) c1)) = delete id (ct_pending_sessions c1)) as Hp.
      { unfold answer_pending. by case_bool_decide. }
      split; [|unfold answer_pending; by case_bool_decide]. intros id' s. rewrite Hp, lookup_delete_Some, IH, not_elem_of_cons.
      naive_solver. }
  destruct (Hfold (pending_of sid c0)) as (Hp & -> & -> & -> & ->). split; [|done]. intros id s. rewrite Hp, Hids.
  split; intros [Hid Hne]; (split; [done|congruence]).
Qed.

Lemma release_begin_quiet sid a c : ¬ Waiting sid (release_begin sid a c) ∧ ¬ Active sid (release_begin sid a c).
Proof.
  destruct (release_begin_tables sid a c) as (Hp & Ht & Hc & _). split.
  - by intros [id [_ ?]%Hp].
  - intros (context & key & callback & Hk & Hs & Hst). unfold registry_of in Hk. rewrite Ht, Hc in Hk.
    destruct context; apply stop_callbacks_Some in Hk as (before & _ & _ & Hne); by destruct (Hne Hst).
Qed.

Lemma release_begin_gain sid a c s : NoGain s c (release_begin sid a c).
Proof.
  destruct (release_begin_tables sid a c) as (Hp & Ht & Hc & Hto & Hb).
  assert (∀ context key callback, registry_of context (release_begin sid a c) !! key = Some callback →
    ∃ before, registry_of context c !! key = Some before ∧ sc_session_id callback = sc_session_id before ∧
      (sc_stopped callback = false → sc_stopped before = false)) as Hreg.
  { intros context key callback Hk. unfold registry_of in *. rewrite Ht, Hc in Hk.
    destruct context; apply stop_callbacks_Some in Hk as (before & ? & ? & Hst); exists before; (split_and!; [done|done|]);
      intros ?%Hst; tauto. }
  split.
  - intros [id [? _]%Hp]. by exists id.
  - intros (context & key & callback & (before & Hk & Hs & Hst)%Hreg & Hs' & Hst'). exists context, key, before.
    split_and!; [done|congruence|auto].
  - intros (context & key & callback & (before & Hk & Hs & Hst)%Hreg & Hs'). exists context, key, before.
    split_and!; [done|congruence].
  - unfold Tooled. by rewrite Hto, Hb.
Qed.

(** The end of a release. *)
Lemma release_end_gain ends sid a c s : NoGain s c (release_end ends sid a c).2.
Proof. apply NoGain_fields; simpl; try done; apply map_filter_subseteq. Qed.

Lemma release_end_tools ends sid a c : ¬ Tooled sid (release_end ends sid a c).2.
Proof.
  intros [name [[x Hx]|[x Hx]]]; simpl in Hx; by apply map_lookup_filter_Some in Hx as [_ Hx].
Qed.

Lemma callbacks_finished_called sid c : callbacks_finished sid c = true → ¬ Called sid c.
Proof.
  unfold callbacks_finished. rewrite forallb_forall. intros Hall (context & key & callback & Hk & Hs).
  specialize (Hall (key, callback)). rewrite in_app_iff, <-!list_elem_of_In in Hall. rewrite !elem_of_map_to_list in Hall.
  simpl in Hall. rewrite bool_decide_eq_true_2 in Hall by done. destruct context; simpl in Hk; discriminate Hall; auto.
Qed.

(** ** The fence holds *)

(** A step that leaves the attempts and only forgets sessions. *)
Lemma quiet_frame c c' :
  PhasesOk c → QuietOk c → ct_attempts c' = ct_attempts c → ct_sessions c' ⊆ ct_sessions c →
  (∀ s, Enterable s c ∨ NoGain s c c') → QuietOk c'.
Proof.
  intros Hok Hq Ha Hs Hg. eapply quiet_step; [done|done|by rewrite Ha| |done].
  intros sid a Hsid. left. by eapply lookup_weaken.
Qed.

Lemma lifecycle_steps_quiet c c' :
  PhasesOk c → QuietOk c → ct_attempts c' = ct_attempts c →
  (∀ sid a, ct_sessions c' !! sid = Some a → ct_sessions c !! sid = Some a ∨ ct_next_lifecycle c <= a) →
  (∀ s, NoGain s c c') → QuietOk c'.
Proof. intros Hok Hq Ha Hs Hg. eapply quiet_step; [done|done|by rewrite Ha|done|]. intros s. right. apply Hg. Qed.

Lemma session_lifecycle_quiet sid c a c1 f :
  session_lifecycle sid c = (a, c1) → PhasesOk c → QuietOk c → QuietOk (on_lifecycle a f c1) ∧ QuietOk c1.
Proof.
  intros Hl Hok Hq. pose proof (session_lifecycle_Same sid c Hok) as [_ _ _ Ss _ Sa _].
  pose proof (session_lifecycle_tables sid c) as Hg. rewrite Hl in Ss, Sa, Hg. simpl in *.
  assert (∀ s b, ct_sessions c1 !! s = Some b → ct_sessions c !! s = Some b ∨ ct_next_lifecycle c <= b) as Hs.
  { intros s b [?|[? _]]%Ss; auto. }
  split; (eapply lifecycle_steps_quiet; [exact Hok|exact Hq|exact Sa|exact Hs|]); intros s; [|exact (Hg s)].
  transitivity c1; [exact (Hg s)|done].
Qed.

Lemma remove_session_sub sid a c : ct_sessions (remove_session_if_same sid a c) ⊆ ct_sessions c.
Proof. unfold remove_session_if_same. case_bool_decide; [apply delete_subseteq|done]. Qed.
Lemma remove_session_rest sid a c s :
  NoGain s c (remove_session_if_same sid a c) ∧ ct_attempts (remove_session_if_same sid a c) = ct_attempts c.
Proof. unfold remove_session_if_same. case_bool_decide; by split. Qed.

Lemma set_stage_lookup i stage c j :
  ct_attempts (set_stage i stage c) !! j =
  (if decide (i = j) then (λ t, {| ca_sid := ca_sid t; ca_lifecycle := ca_lifecycle t; ca_stage := stage |}) <$> ct_attempts c !! j
   else ct_attempts c !! j).
Proof. unfold set_stage. simpl. rewrite list_lookup_alter. case_decide; [by subst|done]. Qed.

(** A task that publishes a failure that is not acknowledged. *)
Lemma failed_quiet i t stage c c1 :
  PhasesOk c → QuietOk c → ct_attempts c !! i = Some t → acknowledged stage = false →
  ct_attempts c1 = ct_attempts c → ct_sessions c1 = ct_sessions c → (∀ s, NoGain s c c1) → QuietOk (set_stage i stage c1).
Proof.
  intros Hok Hq Ht Hack Ha Hs Hg. eapply quiet_step; [done|done| | |].
  - intros j u Hu Hacku. rewrite set_stage_lookup, Ha in Hu. case_decide; [subst j|done].
    rewrite Ht in Hu. injection Hu as <-. simpl in Hacku. congruence.
  - intros sid a Hsid. left. rewrite <-Hs. exact Hsid.
  - intros s. right. transitivity c1; [apply Hg|by apply NoGain_fields].
Qed.

Lemma close_response_quiet i response c c' :
  close_response i response c = Some c' → PhasesOk c → QuietOk c → QuietOk c'.
Proof.
  unfold close_response. intros Hc Hok Hq. apply bind_Some in Hc as (t & Ht & Hc).
  destruct (ca_stage t) eqn:Hst; [|done..]. apply Some_inj in Hc.
  assert (∀ error, QuietOk (set_stage i (StageDone (Err (FailureUnknown error)))
    (disconnect "Client closed" (on_lifecycle (ca_lifecycle t) (set_phase PhaseClosed) c)))) as Hunknown.
  { intros error. set (c1 := on_lifecycle _ _ c). destruct (disconnect_fields "Client closed" c1) as (_ & Hs & Ha & _).
    eapply (failed_quiet i t _ c); try done. intros s. transitivity c1; [done|apply disconnect_gain]. }
  destruct response as [[thread_id closed]|error].
  - destruct (thread_id == ca_sid t); [|rewrite <-Hc; apply Hunknown].
    set (c1 := on_lifecycle (ca_lifecycle t) (set_phase (PhaseReleasing i)) (if closed then commit_probe (ca_lifecycle t) c else c)) in Hc.
    assert (ct_attempts c1 = ct_attempts c ∧ ct_sessions c1 = ct_sessions c ∧ ∀ s, NoGain s c c1) as (Ha1 & Hs1 & Hg1)
      by (unfold c1; by destruct closed).
    destruct (release_begin_fields (ca_sid t) (ca_lifecycle t) c1) as (_ & _ & Hs & Ha & _).
    destruct (release_begin_quiet (ca_sid t) (ca_lifecycle t) c1) as [Hw Hact].
    rewrite <-Hc. intros j u Hu Hack Hsid. rewrite set_stage_lookup, Ha, Ha1 in Hu. case_decide as Hd.
    + subst j. rewrite Ht in Hu. injection Hu as <-. split_and!; [exact Hw|exact Hact|done].
    + assert (ct_sessions c !! ca_sid u = Some (ca_lifecycle u)) as Hsid0 by (rewrite <-Hs1, <-Hs; exact Hsid).
      destruct (Hq _ _ Hu Hack Hsid0) as (Hw0 & Ha0 & Hd0).
      assert (NoGain (ca_sid u) c (release_begin (ca_sid t) (ca_lifecycle t) c1)) as [Gw Ga Gc Gt]
        by (transitivity c1; [done|apply release_begin_gain]).
      split_and!; [by intros ?%Gw|by intros ?%Ga|]. intros [? ?]%Hd0. split; [by intros ?%Gc|by intros ?%Gt].
  - destruct error; try (rewrite <-Hc; apply Hunknown).
    destruct (_ && _); rewrite <-Hc; [by eapply (failed_quiet i t _ c)|apply Hunknown].
Qed.

Lemma close_released_quiet ends i c c' : close_released ends i c = Some c' → PhasesOk c → QuietOk c → QuietOk c'.
Proof.
  unfold close_released. intros Hc Hok Hq. apply bind_Some in Hc as (t & Ht & Hc).
  destruct (ca_stage t) as [|closed|] eqn:Hst; [done| |done]. destruct (callbacks_finished _ _) eqn:Hfin; [|done].
  destruct (release_end_fields ends (ca_sid t) (ca_lifecycle t) c) as (_ & _ & Hs & Ha & _).
  pose proof (release_end_gain ends (ca_sid t) (ca_lifecycle t) c) as Hg.
  pose proof (release_end_tools ends (ca_sid t) (ca_lifecycle t) c) as Htl.
  destruct (release_end _ _ _ _) as [failures c1]. simpl in *. injection Hc as <-.
  intros j u Hu Hack Hsid. rewrite set_stage_lookup in Hu. change (ct_attempts (on_lifecycle _ _ c1)) with (ct_attempts c1) in Hu.
  rewrite Ha in Hu. case_decide as Hd.
  - subst j. rewrite Ht in Hu. injection Hu as <-. simpl in Hack.
    assert (ct_sessions c !! ca_sid t = Some (ca_lifecycle t)) as Hsid0 by (rewrite <-Hs; exact Hsid).
    destruct (Hq _ _ Ht ltac:(by rewrite Hst) Hsid0) as (Hw0 & Ha0 & _). destruct (Hg (ca_sid t)) as [Gw Ga Gc _].
    split_and!; [by intros ?%Gw|by intros ?%Ga|]. intros _. split; [|done].
    intros ?%Gc. by eapply callbacks_finished_called.
  - assert (ct_sessions c !! ca_sid u = Some (ca_lifecycle u)) as Hsid0 by (rewrite <-Hs; exact Hsid).
    destruct (Hq _ _ Hu Hack Hsid0) as (Hw0 & Ha0 & Hd0). destruct (Hg (ca_sid u)) as [Gw Ga Gc Gt].
    split_and!; [by intros ?%Gw|by intros ?%Ga|]. intros [? ?]%Hd0. split; [by intros ?%Gc|by intros ?%Gt].
Qed.

Lemma close_session_quiet sid c : PhasesOk c → QuietOk c → QuietOk (close_session sid c).2.
Proof.
  intros Hok Hq. unfold close_session. destruct (CloseSessionParams_validate sid) as [u|]; [|done]. destruct (ct_closed c); [done|].
  pose proof (probe_session_Same sid c Hok) as Hs. assert (∀ s, NoGain s c (probe_session sid c).2) as Hg.
  { intros s. unfold probe_session. destruct (ct_sessions c !! sid); [|by apply NoGain_fields]. by destruct (default false _). }
  destruct (probe_session sid c) as [[a tracked] c1]. simpl in Hs, Hg.
  assert (QuietOk c1) as Hq1 by (apply (quiet_same c); [done|done|done|by right]).
  pose proof (Same_ok _ _ Hok Hs) as Hok1. destruct (phase_of a c1) as [[]|]; try done.
  eapply quiet_step; [exact Hok1|exact Hq1| |by left|by right].
  intros i t [Hi|[_ Hx]]%lookup_app_Some Hack; [done|]. apply list_lookup_singleton_Some in Hx as [_ <-]. done.
Qed.

Lemma client_step_quiet c c' : client_step c c' → PhasesOk c → QuietOk c → QuietOk c'.
Proof.
  destruct 1; intros Hok Hq.
  - unfold prepare_session. destruct (session_lifecycle sid c) as [a c1] eqn:Hl.
    destruct (session_lifecycle_quiet _ _ _ _ (set_phase PhasePreparing) Hl Hok Hq). by destruct (_ || _).
  - unfold finish_preparation. destruct (session_lifecycle sid c) as [a c1] eqn:Hl.
    destruct (session_lifecycle_quiet _ _ _ _ (set_phase (if accepted then PhaseOpen else PhaseClosed)) Hl Hok Hq).
    by destruct (_ || _).
  - unfold accept_prepared_session. destruct (_ != _); [done|]. destruct (_ || _); [done|].
    destruct (_ ≫= sl_pack_owner); [done|]. by apply (quiet_frame c); [..|right].
  - unfold reject_prepared_session. set (c1 := on_lifecycle a _ c). apply (quiet_frame c); [done|done| | |].
    + by rewrite (proj2 (remove_session_rest sid a c1 sid)).
    + exact (remove_session_sub sid a c1).
    + intros s. right. transitivity c1; [by apply NoGain_fields|apply remove_session_rest].
  - unfold take_attached_pack_owner. destruct (ct_sessions c !! sid); [|done]. by apply (quiet_frame c); [..|right].
  - apply (quiet_same c); [done|done|apply with_session_open_Same; [|done]; intros; by apply Same_refl|].
    apply with_session_open_gain. done.
  - apply (quiet_same c); [done|done|by apply probe_session_Same|]. intros s. right. unfold probe_session.
    destruct (ct_sessions c !! sid); [|by apply NoGain_fields]. by destruct (default false _).
  - by apply (quiet_frame c); [..|right].
  - unfold drop_probe. set (c1 := on_lifecycle a _ c).
    assert (QuietOk c1) as Hq1 by (by apply (quiet_frame c); [..|right]).
    destruct (ct_lifecycles c1 !! a) as [l|]; [|done]. destruct (_ && _); [|done].
    apply (quiet_frame c); [done|done| | |].
    + by rewrite (proj2 (remove_session_rest sid a c1 sid)).
    + exact (remove_session_sub sid a c1).
    + intros s. right. transitivity c1; [by apply NoGain_fields|apply remove_session_rest].
  - apply (quiet_same c); [done|done|by apply request_begin_Same|]. apply request_begin_gain.
  - apply (quiet_frame c); [done..|]. intros s. right. apply NoGain_fields; try done. apply delete_subseteq.
  - unfold answer_pending. case_bool_decide; [|done]. by apply (quiet_frame c); [..|right].
  - apply (quiet_same c); [done|done|by apply insert_invocation_Same|]. apply insert_invocation_gain.
  - apply (quiet_frame c); [done|done|by destruct context|by destruct context|]. intros s. right.
    destruct context; apply NoGain_fields; try done; apply delete_subseteq.
  - apply (quiet_same c); [done|done|by apply bind_tool_Same|]. apply bind_tool_gain.
  - apply (quiet_same c); [done|done|by apply unbind_tool_Same|]. apply unbind_tool_gain.
  - apply (quiet_same c); [done|done|by apply note_approval_Same|]. apply note_approval_gain.
  - by apply close_session_quiet.
  - by eapply close_response_quiet.
  - by eapply close_released_quiet.
  - destruct (disconnect_fields message c) as (_ & Hs & Ha & _).
    apply (quiet_frame c); [done|done|done|by rewrite Hs|]. intros s. right. apply disconnect_gain.
Qed.

Lemma reachable_ok c : rtc client_step ClientState_new c → PhasesOk c ∧ QuietOk c.
Proof.
  intros Hr. assert (PhasesOk ClientState_new ∧ QuietOk ClientState_new) as Hnew.
  { split; [|by intros i t Ht]. split; simpl; try done. by intros a [p Hp]. }
  revert Hnew. induction Hr as [|x y z Hs _ IH]; [done|]. intros [Hok Hq]. apply IH. split.
  - by eapply client_step_phases.
  - by eapply client_step_quiet.
Qed.

(** ** Attempts are decided once *)

Definition grows (ts ts' : list CloseAttempt) : Prop := ∀ i t, ts !! i = Some t →
  ∃ t', ts' !! i = Some t' ∧ ca_sid t' = ca_sid t ∧ ca_lifecycle t' = ca_lifecycle t ∧
    (acknowledged (ca_stage t) = true → acknowledged (ca_stage t') = true) ∧
    (is_done (ca_stage t) = true → t' = t).
#[export] Instance grows_preorder : PreOrder grows.
Proof.
  split; [intros ts i t Ht; by exists t|]. intros ts1 ts2 ts3 H1 H2 i t Ht.
  destruct (H1 _ _ Ht) as (t2 & Ht2 & Hs2 & Hl2 & Ha2 & Hd2). destruct (H2 _ _ Ht2) as (t3 & Ht3 & Hs3 & Hl3 & Ha3 & Hd3).
  exists t3. split_and!; [done|congruence|congruence|auto|]. intros Hd. rewrite (Hd2 Hd) in Hd3. auto.
Qed.

Lemma grows_stage i t stage ts :
  ts !! i = Some t → is_done (ca_stage t) = false → (acknowledged (ca_stage t) = true → acknowledged stage = true) →
  grows ts (alter (λ t, {| ca_sid := ca_sid t; ca_lifecycle := ca_lifecycle t; ca_stage := stage |}) i ts).
Proof.
  intros Ht Hnd Hack j u Hu. rewrite list_lookup_alter. case_decide as Hd; [subst j|by exists u].
  rewrite Ht in Hu |- *. injection Hu as <-. eexists. split; [done|]. simpl. split_and!; [done|done|done|congruence].
Qed.

Lemma client_step_grows c c' : client_step c c' → PhasesOk c → grows (ct_attempts c) (ct_attempts c').
Proof.
  intros Hstep Hok. destruct Hstep; try done.
  - unfold prepare_session. pose proof (sm_attempts _ _ (session_lifecycle_Same sid c Hok)) as Ha.
    destruct (session_lifecycle sid c) as [a c1]. simpl in Ha. by destruct (_ || _); simpl; rewrite Ha.
  - unfold finish_preparation. pose proof (sm_attempts _ _ (session_lifecycle_Same sid c Hok)) as Ha.
    destruct (session_lifecycle sid c) as [a c1]. simpl in Ha. by destruct (_ || _); simpl; rewrite Ha.
  - unfold accept_prepared_session. destruct (_ != _); [done|]. destruct (_ || _); [done|]. by destruct (_ ≫= sl_pack_owner).
  - destruct (remove_session_rest sid a (on_lifecycle a (λ l, (if sl_phase l == PhasePreparing then set_phase PhaseClosed
      else id) (set_released true l)) c) sid) as [_ Ha]. unfold reject_prepared_session. by rewrite Ha.
  - unfold take_attached_pack_owner. by destruct (ct_sessions c !! sid).
  - assert (Same c (ensure_session_open sid c).2) as Hs
      by (apply with_session_open_Same; [intros; by apply Same_refl|done]). by rewrite (sm_attempts _ _ Hs).
  - by rewrite (sm_attempts _ _ (probe_session_Same sid c Hok)).
  - unfold drop_probe. set (c1 := on_lifecycle a _ c). destruct (ct_lifecycles c1 !! a); [|done]. destruct (_ && _); [|done].
    destruct (remove_session_rest sid a c1 sid) as [_ Ha]. by rewrite Ha.
  - by rewrite (sm_attempts _ _ (request_begin_Same access c Hok)).
  - unfold answer_pending. by case_bool_decide.
  - by rewrite (sm_attempts _ _ (insert_invocation_Same context key session_id c Hok)).
  - by destruct context.
  - by rewrite (sm_attempts _ _ (bind_tool_Same sid name binding_id tool c Hok)).
  - by rewrite (sm_attempts _ _ (unbind_tool_Same sid name binding_id old c Hok)).
  - by rewrite (sm_attempts _ _ (note_approval_Same sid turn_id request_id c Hok)).
  - unfold close_session. destruct (CloseSessionParams_validate sid) as [u|]; [|done]. destruct (ct_closed c); [done|].
    pose proof (sm_attempts _ _ (probe_session_Same sid c Hok)) as Ha. destruct (probe_session sid c) as [[a tracked] c1].
    simpl in Ha. destruct (phase_of a c1) as [[]|]; simpl; rewrite ?Ha; try done.
    intros i t Ht. exists t. split_and!; [by apply lookup_app_l_Some|done..].
  - rename H into Hc. unfold close_response in Hc. apply bind_Some in Hc as (t & Ht & Hc). destruct (ca_stage t) eqn:Hst; [|done..].
    apply Some_inj in Hc. subst c'.
    assert (∀ stage c1, ct_attempts c1 = ct_attempts c → grows (ct_attempts c) (ct_attempts (set_stage attempt stage c1))) as Hg.
    { intros stage c1 Ha. unfold set_stage. simpl. rewrite Ha. apply (grows_stage _ t); rewrite ?Hst; done. }
    assert (∀ m c1, ct_attempts (disconnect m c1) = ct_attempts c1) as Hd by (intros m c1; apply (disconnect_fields m c1)).
    assert (∀ s b c1, ct_attempts (release_begin s b c1) = ct_attempts c1) as Hr by (intros s b c1; apply (release_begin_fields s b c1)).
    destruct response as [[thread_id closed]|[]]; try (apply Hg; by rewrite Hd).
    + case_bool_decide; apply Hg; [rewrite Hr; by destruct closed|by rewrite Hd].
    + destruct (_ && _); apply Hg; [done|by rewrite Hd].
  - rename H into Hc. unfold close_released in Hc. apply bind_Some in Hc as (t & Ht & Hc).
    destruct (ca_stage t) as [|closed|] eqn:Hst; [done| |done]. destruct (callbacks_finished _ _); [|done].
    destruct (release_end_fields ends (ca_sid t) (ca_lifecycle t) c) as (_ & _ & _ & Ha & _).
    destruct (release_end _ _ _ _) as [failures c1]. simpl in Ha. injection Hc as <-. unfold set_stage. simpl. rewrite Ha.
    apply (grows_stage _ t); rewrite ?Hst; try done. by destruct failures.
  - destruct (disconnect_fields message c) as (_ & _ & Ha & _). by rewrite Ha.
Qed.

Lemma steps_grow c c' : rtc client_step c c' → PhasesOk c → grows (ct_attempts c) (ct_attempts c') ∧ PhasesOk c'.
Proof.
  induction 1 as [|x y z Hs _ IH]; [done|]. intros Hok. destruct (IH (client_step_phases _ _ Hs Hok)) as [Hg Hok'].
  split; [|done]. transitivity (ct_attempts y); [by apply client_step_grows|done].
Qed.
