(* ===== verification/SdkGuarantees.v ===== *)
(** * What the client guarantees

    First sample data for the witnesses, then the theorems.

    A subscriber of a session that runs a turn and closes, the reader of a run that
    finishes, and a connection that closes a session. *)

From stdpp Require Import relations gmultiset.
From S2P Require Import Prelude Protocol StoreState StoreConfig Samples SessionViews ViewGuarantees SessionManagement SessionCatalog ManagementProjection ManagementLaws ManagementGuarantees SdkViews SdkManagement SdkFollowV2 SdkRuns SdkRoutes SdkSessions SdkSessionLaws.

(** ** A subscriber *)

(** What the daemon and the network do next; a page is the daemon's answer, an event is
    named by its place in the log. *)
Inductive ActionV2 :=
  | PublishV2 (payload : SessionEventPayloadV2) (run_identity : option (string * nat))
  | RetireV2 (turn_id : string) (identity : nat)
  | AnswerV2
  | DeliverV2 (index : nat)
  | LagV2.

Section script.
Context (thread_id : string) (page_size : N).

Definition hear (label : WorkerLabelV2) (x : SystemV2) : option SystemV2 :=
  '(items, w) ← worker_step_v2 thread_id page_size (sy2_worker x) label;
  Some {| sy2_projection := sy2_projection x; sy2_log := sy2_log x; sy2_worker := w; sy2_out := sy2_out x ++ items |}.

Definition act (action : ActionV2) (x : SystemV2) : option SystemV2 :=
  match action with
  | PublishV2 payload run_identity =>
      match prepare_v2 (sy2_projection x) 20 payload run_identity with
      | Ok pm => Some {| sy2_projection := pm_next pm; sy2_log := sy2_log x ++ [pm_envelope pm];
                         sy2_worker := sy2_worker x; sy2_out := sy2_out x |}
      | Err _ => None
      end
  | RetireV2 turn_id identity =>
      p ← prepare_retire_run_v2 (sy2_projection x) turn_id identity;
      Some {| sy2_projection := p; sy2_log := sy2_log x; sy2_worker := sy2_worker x; sy2_out := sy2_out x |}
  | AnswerV2 =>
      match sy2_worker x with
      | RequestingV2 _ params =>
          match replay_v2 (sy2_projection x) params with Ok page => hear (OnPageV2 (Ok page) None true) x | Err _ => None end
      | _ => None
      end
  | DeliverV2 index => e ← sy2_log x !! index; hear (OnEventV2 e true) x
  | LagV2 => hear OnLaggedV2 x
  end.

Fixpoint act_all (actions : list ActionV2) (x : SystemV2) : option SystemV2 :=
  match actions with [] => Some x | action :: actions => act action x ≫= act_all actions end.

Lemma hear_step label x y :
  hear label x = Some y → observes_v2 (sy2_projection x) (sy2_log x) (sy2_worker x) label →
  system_step_v2 thread_id page_size x y.
Proof.
  intros Hy Ho. unfold hear in Hy. destruct (worker_step_v2 _ _ _ _) as [[items w]|] eqn:Hs; [|done].
  injection Hy as <-. destruct x. by eapply worker_moves_v2.
Qed.

Lemma act_step action x y : act action x = Some y → system_step_v2 thread_id page_size x y.
Proof.
  intros Ha. destruct action as [payload rid|turn_id identity| |index|]; simpl in Ha.
  - destruct (prepare_v2 _ _ _ _) eqn:Hp; [|done]. injection Ha as <-. destruct x. by eapply daemon_publishes.
  - destruct (prepare_retire_run_v2 _ _ _) eqn:Hp; [|done]. injection Ha as <-. destruct x. by eapply daemon_retires.
  - destruct (sy2_worker x) eqn:Hw; [|done..]. destruct (replay_v2 _ _) eqn:Hr; [|done].
    eapply hear_step; [done|]. by eapply observes2_page.
  - apply bind_Some in Ha as (e & He & Ha). eapply hear_step; [done|]. apply observes2_event. by eapply list_elem_of_lookup_2.
  - eapply hear_step; [done|constructor].
Qed.

Lemma act_all_steps actions x y : act_all actions x = Some y → rtc (system_step_v2 thread_id page_size) x y.
Proof.
  revert x. induction actions as [|action actions IH]; intros x Hx; simpl in Hx; [injection Hx as <-; done|].
  apply bind_Some in Hx as (z & Hz & Hx). eapply rtc_l; [by eapply act_step|by apply IH].
Qed.
End script.

(** The session of [closing_0] to [closing_5], watched from its start with pages of one
    event: the turn begins and is delivered live, two events pass while the worker lags
    behind and are fetched in two pages, the turn is retired, the session closes. *)
Definition watched_0 : SystemV2 := subscribed_v2 "t" 1 closing_0 [] (place_v2 0).
Definition watched_actions : list ActionV2 :=
  [AnswerV2; PublishV2 (V2RunChanged (SessionRunView_new view_run 11)) (Some ("turn", 7)); DeliverV2 0;
   PublishV2 (V2LifecycleChanged LifecycleClosing) None; LagV2;
   PublishV2 (V2RunEvent (view_event 1 (RunFinished closing_finished))) None; AnswerV2; AnswerV2;
   RetireV2 "turn" 7; PublishV2 (V2LifecycleChanged LifecycleClosed) None; DeliverV2 3].
Definition watched : SystemV2 := default watched_0 (act_all "t" 1 watched_actions watched_0).

Lemma watched_steps : rtc (system_step_v2 "t" 1) watched_0 watched.
Proof. apply (act_all_steps _ _ watched_actions). vm_compute. reflexivity. Qed.

(** ** A run and its reader *)

Definition run_result : RunTurnResult :=
  {| res_turn_id := "turn"; res_thread_id := "t"; res_status := TurnStatusCompleted; res_items := []; res_usage := usage_default |}.
Definition run_final : RunSnapshot :=
  {| snap_tool_executions := []; snap_thread_id := "t"; snap_turn_id := "turn"; snap_status := RunCompleted;
     snap_items := []; snap_usage := usage_default; snap_pending_approvals := []; snap_last_seq := 2;
     snap_result := Some run_result; snap_error := None |}.
Definition run_first : RunEvent := view_event 1 (RunStream (EvItemStarted "turn" "item" "message" None)).
Definition run_last : RunEvent := view_event 2 (RunFinished run_final).
Definition run_log : list RunEvent := [run_first; run_last].

(** The application reads both events and then the end of the stream; the first event
    comes twice. *)
Definition run_read : Reading :=
  {| rd_run := set_queue [] (accept run_last (set_queue [] (accept run_first (accept run_first
                 (set_receiver ReceiverTaken (new_inner "t" "turn" false))).2).2)).2;
     rd_phase := StreamEnded; rd_out := [Ok (Some run_first); Ok (Some run_last); Ok None] |}.

Lemma run_log_ok : RunLog "t" "turn" run_log run_final.
Proof.
  split; [| |by split_and!].
  - intros [|[|i]] e He; [..|by destruct i]; injection He as <-; by split_and!.
  - intros [|[|i]] e snapshot He Hp; [..|by destruct i]; injection He as <-; [done|]. injection Hp as <-. by split_and!.
Qed.

Lemma run_read_steps : rtc (run_step run_log run_final) (run_started "t" "turn") run_read.
Proof.
  eapply rtc_l; [apply step_events; reflexivity|].
  eapply rtc_l; [apply (step_accept _ _ _ _ _ run_first); left|].
  eapply rtc_l; [apply step_begin; [reflexivity|discriminate|vm_compute; reflexivity]|].
  eapply rtc_l; [apply (step_accept _ _ _ _ _ run_first); left|].
  eapply rtc_l; [apply step_finish; [reflexivity|vm_compute; reflexivity]|].
  eapply rtc_l; [apply (step_accept _ _ _ _ _ run_last); right; left|].
  eapply rtc_l; [apply step_begin; [reflexivity|discriminate|vm_compute; reflexivity]|].
  eapply rtc_l; [apply step_finish; [reflexivity|vm_compute; reflexivity]|].
  eapply rtc_l; [apply step_begin; [reflexivity|discriminate|vm_compute; reflexivity]|].
  eapply rtc_l; [apply step_finish; [reflexivity|vm_compute; reflexivity]|].
  vm_compute. reflexivity.
Qed.

(** ** The routes of a connection *)

(** A query for a turn that nothing is known of; an event shows that the turn is live;
    the query is cancelled. *)
Definition routes_queried : Connection :=
  {| cn_routes := (query_route "t" "turn" no_routes).2; cn_leases := {[+ 0 +]} ⊎ ∅; cn_starts := ∅; cn_accepted := ∅ |}.
Definition routes_live : Connection :=
  {| cn_routes := release 0 (route_run_event run_first (cn_routes routes_queried));
     cn_leases := ({[+ 0 +]} ⊎ ∅) ∖ {[+ 0 +]}; cn_starts := ∅; cn_accepted := ∅ |}.

Lemma routes_live_steps : rtc route_step connected routes_live.
Proof.
  eapply rtc_l; [exact (route_query no_routes ∅ ∅ ∅ "t" "turn" 0 _ eq_refl)|].
  eapply rtc_l; [exact (route_event _ _ _ _ run_first)|].
  apply rtc_once, route_cancelled. multiset_solver.
Qed.

(** ** A session that is closed *)

Definition client_open : ClientState :=
  let c := (ensure_session_open "t" ClientState_new).2 in
  let c := (request_begin (Some "t") c).2 in
  let c := (insert_invocation false "call" (Some "t") c).2 in
  (bind_tool "t" "tool" "binding" 7 c).2.
Definition client_closing : ClientState := (close_session "t" client_open).2.
Definition client_releasing : ClientState := default client_closing (close_response 0 (Ok ("t", true)) client_closing).
Definition no_packs (_ : string) : LeaseEnd := {| le_outcome := Some (Ok ()); le_drop_panicked := false |}.
Definition client_left : ClientState := finish_invocation false "call" client_releasing.
Definition client_closed : ClientState := default client_left (close_released no_packs 0 client_left).

Lemma client_releasing_steps : rtc client_step ClientState_new client_releasing.
Proof.
  eapply rtc_l; [apply (client_ensure_open "t")|]. eapply rtc_l; [apply (client_request (Some "t"))|].
  eapply rtc_l; [apply (client_invocation false "call" (Some "t"))|].
  eapply rtc_l; [apply (client_bind "t" "tool" "binding" 7)|].
  eapply rtc_l; [apply (client_close "t")|].
  apply rtc_once, (client_close_response 0 (Ok ("t", true))). vm_compute. reflexivity.
Qed.
Lemma client_closed_steps : rtc client_step client_releasing client_closed.
Proof.
  eapply rtc_l; [apply (client_invoked false "call")|].
  apply rtc_once, (client_close_released no_packs 0). vm_compute. reflexivity.
Qed.

(** ** What the client guarantees

    The properties of the client's subscriptions, runs, routes and close transactions,
    each with a concrete instance. *)

From S2P Require Import ViewLaws SdkSessionFence.

(** ** Subscriptions of session management *)

(** C23: A subscriber of a session's management events, started at a position of its
    stream, receives every published event exactly once and in order up to its cursor,
    although the daemon publishes and retires runs between any two of its requests, the
    live channel loses, repeats and reorders events, and later attachments of the same
    session answer and publish too. Its stream reports at most one error, as its last
    item, and only a required fresh snapshot or a failed request; and when its worker
    calls the session finished, the session is closed and everything from the start
    position on was received. *)
Theorem subscribers_v2_see_every_event `{Externals, ManagementExternals} thread_id page_size p log start y :
  page_size_valid_v2 page_size → Projected p log → cv_thread_id (mp_cursor p) = thread_id →
  same_place_v2 (mp_cursor p) start → (cv_seq start <= cv_seq (mp_cursor p))%N →
  rtc (system_step_v2 thread_id page_size) (subscribed_v2 thread_id page_size p log start) y →
  let w := sy2_worker y in
  received_v2 (sy2_out y) = segment (sy2_log y) (cv_seq start) (cv_seq (worker_cursor_v2 w)) ∧
  (cv_seq start <= cv_seq (worker_cursor_v2 w) <= N.of_nat (length (sy2_log y)))%N ∧
  failures_ok_v2 w (failures_v2 (sy2_out y)) ∧
  (∀ last, w = FinishedV2 last →
    v2_lifecycle (mp_snapshot (sy2_projection y)) = LifecycleClosed ∧
    received_v2 (sy2_out y) = drop (N.to_nat (cv_seq start)) (sy2_log y)).
Proof.
  intros Hps Hp Ht Hpl Hle Hrtc w. subst w.
  pose proof (subscribed_WatchingV2 thread_id page_size p log start Hp Ht Hpl Hle) as Hw.
  destruct (WatchingV2_system _ _ _ _ _ Hps Hrtc Hw) as [_ _ _ Hb Hr _ He Hf].
  split_and!; [done|apply Hb|apply Hb|done|]. intros last Hlast. destruct (He _ Hlast) as [Hc Hn]. split; [done|].
  rewrite Hr, Hlast. simpl. by rewrite Hn, segment_to_end.
Qed.

Lemma subscribers_v2_see_every_event_witness :
  v2_lifecycle (mp_snapshot (sy2_projection watched)) = LifecycleClosed ∧ received_v2 (sy2_out watched) = sy2_log watched ∧
  length (sy2_log watched) = 4 ∧ failures_v2 (sy2_out watched) = [].
Proof.
  destruct (subscribers_v2_see_every_event "t" 1 closing_0 [] (place_v2 0) watched) as (_ & _ & _ & Hend).
  - split; vm_compute; congruence.
  - apply (projected_start (SessionSummaryV2_new "t" 10) Ephemeral
      {| hw_items := []; hw_start_index := 0; hw_total_items := 0; hw_capacity := 1024 |} "t" "s2"). vm_compute. reflexivity.
  - reflexivity.
  - split; reflexivity.
  - vm_compute. congruence.
  - exact watched_steps.
  - destruct (Hend (place_v2 4) ltac:(vm_compute; reflexivity)) as [Hc Hr].
    split; [exact Hc|]. split; [exact Hr|]. split; vm_compute; reflexivity.
Defined.

(** ** Runs *)

Lemma run_steps_ok thread_id turn_id log final x y :
  RunLog thread_id turn_id log final → rtc (run_step log final) x y →
  ReadingOk thread_id turn_id log final x → ReadingOk thread_id turn_id log final y.
Proof. intros Hl. induction 1 as [|x y z Hs _ IH]; [done|]. intros Hx. by eapply IH, run_step_ok. Qed.

Lemma run_start_ok thread_id turn_id log final query :
  ReadingOk thread_id turn_id log final
    {| rd_run := new_inner thread_id turn_id query; rd_phase := StreamIdle; rd_out := [] |}.
Proof.
  split; simpl; try done; [lia|apply prefix_nil| |apply (answers_events _ _ StreamIdle []); done].
  intros _ _. exists 0. split_and!; [done|lia|done].
Qed.

(** An outcome stays. *)
Lemma run_step_terminal thread_id turn_id log final x y outcome :
  RunLog thread_id turn_id log final → run_step log final x y → ReadingOk thread_id turn_id log final x →
  cr_terminal (rd_run x) = Some outcome → cr_terminal (rd_run y) = Some outcome.
Proof.
  intros HL Hs Hx. destruct Hs as [s ph out e He|s ph out message|s ph out snapshot Hsn|s ph out _|s out s' Hev
    |s ph out answer ph' _ _ _|s out answer ph s' _ Hf|s out|s ph out _]; simpl.
  - destruct (accept_effect _ _ _ _ e s HL He (ro_thread _ _ _ _ _ Hx) (ro_turn _ _ _ _ _ Hx)) as [[_ [Hg _ _ _ _]]|[_ [Hg _ _ _ _]]];
      apply (gr_terminal _ _ Hg).
  - apply (gr_terminal _ _ (qu_grows _ _ _ (run_fail_Quiet final message s))).
  - apply (gr_terminal _ _ (qu_grows _ _ _ (run_complete_Quiet final snapshot s Hsn))).
  - done.
  - unfold handle_events in Hev. by destruct (cr_receiver s); [|done..]; injection Hev as <-.
  - done.
  - unfold recv_finish in Hf. destruct (cr_queue s) as [|e queue]; [destruct (cr_sender s); [done|]|];
      injection Hf as Hf; repeat case_match; simplify_eq/=; congruence.
  - done.
  - done.
Qed.

Lemma run_steps_terminal thread_id turn_id log final x y outcome :
  RunLog thread_id turn_id log final → rtc (run_step log final) x y → ReadingOk thread_id turn_id log final x →
  cr_terminal (rd_run x) = Some outcome → cr_terminal (rd_run y) = Some outcome.
Proof.
  intros Hl. induction 1 as [|x y z Hs _ IH]; [done|]. intros Hx Ho. apply IH; [by eapply run_step_ok|].
  by eapply run_step_terminal.
Qed.

(** C24: The reader of a run, started or queried, returns the events the daemon numbered
    exactly once, in order and without a hole, although they arrive in any order,
    repeated or not at all and the channel is bounded; then it says why it ended: it
    fell behind, the run failed, or the run has its final snapshot. The result of the
    run is that of the final snapshot or the reason why the channel closed, and once
    there is one it stays. *)
Theorem run_reader_follows_its_run thread_id turn_id log final query x y :
  RunLog thread_id turn_id log final →
  rtc (run_step log final) {| rd_run := new_inner thread_id turn_id query; rd_phase := StreamIdle; rd_out := [] |} x →
  rtc (run_step log final) x y →
  events_read (rd_out x) `prefix_of` log ∧
  answers_ok final (rd_run x) (rd_phase x) (rd_out x) ∧
  ∀ answer, handle_result (rd_run x) = Some answer →
    (Ok <$> snap_result final = Some answer ∨ ∃ message, answer = Err (SdkChannelClosed message)) ∧
    handle_result (rd_run y) = Some answer.
Proof.
  intros Hl Hx Hy. pose proof (run_steps_ok _ _ _ _ _ _ Hl Hx (run_start_ok _ _ _ _ _)) as Hok.
  split_and!; [apply (ro_read _ _ _ _ _ Hok)|apply (ro_answers _ _ _ _ _ Hok)|].
  unfold handle_result. intros answer (outcome & Ho & ->)%fmap_Some.
  rewrite (run_steps_terminal _ _ _ _ _ _ _ Hl Hy Hok Ho). split; [|done].
  pose proof (ro_terminal _ _ _ _ _ Hok _ Ho) as Hout. destruct outcome as [snapshot|message]; [|right; by eexists].
  simpl in Hout. subst snapshot. left. destruct (rl_final _ _ _ _ Hl) as (_ & _ & _ & Hr).
  by destruct (snap_result final).
Qed.

Lemma run_reader_follows_its_run_witness :
  handle_result (rd_run run_read) = Some (Ok run_result) ∧ events_read (rd_out run_read) `prefix_of` run_log.
Proof.
  destruct (run_reader_follows_its_run "t" "turn" run_log run_final false run_read run_read run_log_ok run_read_steps (rtc_refl _ _))
    as (Hp & _ & Ha).
  split; [|exact Hp]. apply (proj2 (Ha (Ok run_result) ltac:(vm_compute; reflexivity))).
Defined.

(** C25: Every route of a connection leads to a run of that turn for which there is a
    reason. If a start has set the run up, its request still waits for the answer or was
    accepted, or an event of the run has arrived: the route of a start that was refused
    or given up is gone. If only queries have, one of them still waits, or an event or a
    reply has shown that the turn is live; its count of waiters is the number of queries
    that wait. A cached handle never names the run of another turn or session. *)
Theorem routes_lead_to_their_runs x turn_id a :
  rtc route_step connected x → rt_runs (cn_routes x) !! turn_id = Some a →
  ∃ s, rt_heap (cn_routes x) !! a = Some s ∧ cr_turn_id s = turn_id ∧
    (cr_query s = None → a ∈ cn_starts x ∨ a ∈ cn_accepted x ∨ cr_event_route_claimed s = true) ∧
    (∀ q, cr_query s = Some q → qo_waiters q = N.of_nat (multiplicity a (cn_leases x)) ∧
      (a ∈ cn_leases x ∨ qo_observed_live q = true)) ∧
    (∀ turn_id' thread_id, rt_handles (cn_routes x) !! turn_id' = Some (thread_id, a) →
      turn_id' = turn_id ∧ cr_thread_id s = thread_id).
Proof.
  intros Hr Ha. destruct (routes_ok _ Hr) as [_ Hroute Hhandle Hwait _].
  destruct (Hroute _ _ Ha) as (s & Hs & Ht & Hheld). exists s. split_and!; [done|done| | |].
  - intros Hq. destruct (starts_ok _ Hr _ _ _ Ha Hs Hq) as [?|?]; [unfold started in *; set_solver|by do 2 right].
  - intros q Hq. pose proof (Hwait _ _ _ Hs Hq) as Hw. split; [done|]. destruct (Hheld _ Hq) as [?|?]; [left|by right].
    apply elem_of_multiplicity. lia.
  - intros turn_id' thread_id Hh. destruct (Hhandle _ _ _ Hh) as [_ Hid]. destruct (Hid _ Hs). by split; [congruence|].
Qed.

Lemma routes_lead_to_their_runs_witness :
  ∃ s, rt_heap (cn_routes routes_live) !! 0 = Some s ∧ cr_turn_id s = "turn" ∧
    cr_query s = Some {| qo_waiters := 0; qo_observed_live := true; qo_observed_terminal := false |}.
Proof.
  destruct (routes_lead_to_their_runs routes_live "turn" 0 routes_live_steps ltac:(vm_compute; reflexivity)) as (s & Hs & Ht & _ & _ & _).
  exists s. split; [exact Hs|]. split; [exact Ht|].
  assert (cr_query <$> rt_heap (cn_routes routes_live) !! 0
    = Some (Some {| qo_waiters := 0; qo_observed_live := true; qo_observed_terminal := false |})) as Hq by (vm_compute; reflexivity).
  rewrite Hs in Hq. exact (Some_inj _ _ Hq).
Defined.

(** ** Closing a session *)

(** C22: Once the daemon has acknowledged the close of a session, the close stays
    acknowledged and an answer its callers got is the answer later callers of the
    attempt get; and as long as the client knows the session, no request of it waits,
    every callback of it was told to stop, nothing enters it again (a request, a
    callback, a tool and a second close are refused), and when the close is done no
    callback is registered and no tool is bound, whatever else happens on the
    connection. *)
Theorem acknowledged_close_is_final c c' i t :
  rtc client_step ClientState_new c → ct_attempts c !! i = Some t → acknowledged (ca_stage t) = true →
  rtc client_step c c' →
  let sid := ca_sid t in
  ∃ t', ct_attempts c' !! i = Some t' ∧ ca_sid t' = sid ∧ acknowledged (ca_stage t') = true ∧
    (∀ owner answer, close_result i owner c = Some answer → close_result i owner c' = Some answer) ∧
    (ct_sessions c' !! sid = Some (ca_lifecycle t) →
      ¬ Waiting sid c' ∧ ¬ Active sid c' ∧ (is_done (ca_stage t') = true → ¬ Called sid c' ∧ ¬ Tooled sid c') ∧
      is_err (request_begin (Some sid) c').1 = true ∧
      (∀ context key, is_err (insert_invocation context key (Some sid) c').1 = true) ∧
      (∀ name binding_id tool, is_err (bind_tool sid name binding_id tool c').1 = true) ∧
      (∀ attempt, (close_session sid c').1 ≠ CloseWaits attempt true)).
Proof.
  intros Hr Ht Hack Hs sid. destruct (reachable_ok _ Hr) as [Hok _]. destruct (steps_grow _ _ Hs Hok) as [Hg Hok'].
  destruct (Hg _ _ Ht) as (t' & Ht' & Hsid & Hlc & Hack' & Hdone). specialize (Hack' Hack). exists t'.
  split_and!; [done..| |].
  - intros owner answer. unfold close_result. rewrite Ht, Ht'. simpl. destruct (ca_stage t) eqn:Hst; [done..|].
    rewrite (Hdone eq_refl), Hst. done.
  - intros Hk. assert (rtc client_step ClientState_new c') as [_ Hq]%reachable_ok by (by etrans).
    assert (¬ Enterable sid c') as Hn.
    { unfold sid. rewrite <-Hsid. eapply acknowledged_not_enterable; [exact Hok'|exact Ht'|done|]. by rewrite Hsid, Hlc. }
    destruct (Hq _ _ Ht' Hack') as (Hw & Ha & Hd); [by rewrite Hsid, Hlc|]. rewrite Hsid in Hw, Ha, Hd.
    split_and!; [done..| | | |].
    + unfold request_begin. destruct (ct_closed c'); [done|]. by apply (fenced_existing _ (ca_lifecycle t)).
    + intros context key. unfold insert_invocation.
      pose proof (fenced_session sid (ca_lifecycle t) (install_invocation context key (Some sid)) c' Hk Hn) as Hf.
      by destruct (with_session_open _ _ _) as [[answer|error] c1].
    + intros name binding_id tool. unfold bind_tool. by apply (fenced_session _ (ca_lifecycle t)).
    + intros attempt. by apply (fenced_close _ (ca_lifecycle t)).
Qed.

Lemma acknowledged_close_is_final_witness :
  close_result 0 true client_closed = Some (Ok true) ∧ ¬ Called "t" client_closed ∧ ¬ Tooled "t" client_closed ∧
  is_err (request_begin (Some "t") client_closed).1 = true.
Proof.
  destruct (acknowledged_close_is_final client_releasing client_closed 0 {| ca_sid := "t"; ca_lifecycle := 0; ca_stage := StageReleasing true |}
    client_releasing_steps ltac:(vm_compute; reflexivity) eq_refl client_closed_steps) as (t' & Ht' & _ & _ & _ & Hfence).
  destruct (Hfence ltac:(vm_compute; reflexivity)) as (_ & _ & Hd & He & _).
  assert (is_done (ca_stage t') = true) as Hdone.
  { assert (is_done ∘ ca_stage <$> ct_attempts client_closed !! 0 = Some true) as Hst by (vm_compute; reflexivity).
    rewrite Ht' in Hst. exact (Some_inj _ _ Hst). }
  destruct (Hd Hdone) as [Hc Htool]. split; [vm_compute; reflexivity|]. split; [exact Hc|]. split; [exact Htool|exact He].
Defined.
