(* ===== verification/SdkInteractions.v ===== *)
(** * The client's side of interactions

    [crates/whale-sdk-rust/src/interactions.rs]: options, the checks around every
    request, the subscription worker with its stream, and the responses that the client
    makes of approval decisions. As in [SdkViews] a label of the worker is what its
    [select!]s observe, and [open] is the answer of [with_existing_session_open]. *)

From stdpp Require Import pretty.
From S2P Require Import Prelude Protocol StoreState Interactions InteractionServer SdkViews.

Inductive InteractionViewError :=
  | IvSdk (error : SdkError)
  | IvUnsupportedCapability (capability : string)
  | IvNotEnabled (thread_id : string)
  | IvInvalidCursor (message : string)
  | IvResyncRequired (gap : InteractionReplayGap) (snapshot : InteractionSnapshot)
  | IvInvalidProjection (message : string).

Definition DEFAULT_INTERACTION_REPLAY_PAGE_LIMIT : N := 128.
Definition DEFAULT_INTERACTION_SUBSCRIBER_OUTPUT_CAPACITY : N := 64.
Definition CAPABILITY_INTERACTIONS : string := "interactions.v1".

(** ** Options *)

Record InteractionSubscriptionOptions := { iso_output_capacity : N; iso_replay_page_limit : N }.

Definition interaction_configuration (message : string) : InteractionViewError := IvSdk (SdkInvalidConfiguration message).

Definition InteractionSubscriptionOptions_new (output_capacity replay_page_limit : N) :
    result InteractionViewError InteractionSubscriptionOptions :=
  map_err interaction_configuration (validate_interaction_subscriber_output_capacity output_capacity);;
  map_err interaction_configuration (validate_interaction_replay_page_limit replay_page_limit);;
  Ok {| iso_output_capacity := output_capacity; iso_replay_page_limit := replay_page_limit |}.

(** The [expect] of the default options does not panic. *)
Lemma default_interaction_options :
  is_ok (InteractionSubscriptionOptions_new DEFAULT_INTERACTION_SUBSCRIBER_OUTPUT_CAPACITY DEFAULT_INTERACTION_REPLAY_PAGE_LIMIT) = true.
Proof. reflexivity. Qed.

(** ** Requests *)

Definition advertises_interactions (capabilities : list string) : bool :=
  existsb (λ capability, capability == CAPABILITY_INTERACTIONS) capabilities.

Definition require_interaction_capability (initialized : result SdkError (list string)) : result InteractionViewError () :=
  capabilities ← map_err IvSdk initialized;
  reject_if (negb (advertises_interactions capabilities)) (IvUnsupportedCapability CAPABILITY_INTERACTIONS).

Definition require_interaction_session (initialized : result SdkError (list string)) (open : result SdkError ()) (enabled : bool)
    (thread_id : string) : result SdkError () :=
  capabilities ← initialized;
  reject_if (negb (advertises_interactions capabilities))
    (SdkProtocolCompatibility "Daemon does not advertise interactions.v1");;
  open;;
  reject_if (negb enabled) (SdkInvalidConfiguration ("Interactions are not enabled for Session " +:+ thread_id)).

Definition require_interaction_view (initialized : result SdkError (list string)) (open : result SdkError ()) (enabled : bool)
    (thread_id : string) : result InteractionViewError () :=
  require_interaction_capability initialized;;
  map_err IvSdk open;;
  reject_if (negb enabled) (IvNotEnabled thread_id).

(** [subscribe_interaction_events], up to the hub. *)
Definition subscribe_interaction_events (open : result SdkError ()) (enabled : bool) (thread_id : string) :
    result InteractionViewError () :=
  map_err IvSdk open;; reject_if (negb enabled) (IvNotEnabled thread_id).

Section requests.
Context `{Externals}.

Definition get_interaction_snapshot (thread_id : string) (reply : result SdkError InteractionSnapshot) :
    result InteractionViewError InteractionSnapshot :=
  snapshot ← map_err IvSdk reply;
  map_err IvInvalidProjection (InteractionSnapshot_validate snapshot);;
  reject_if (is_thread_id snapshot != thread_id)
    (IvInvalidProjection "Daemon returned an Interaction snapshot for another Session");;
  Ok snapshot.

Definition interaction_replay_error (error : SdkError) : InteractionViewError :=
  match error with
  | SdkRpc code message => if (code =? INVALID_PARAMS)%Z then IvInvalidCursor message else IvSdk (SdkRpc code message)
  | error => IvSdk error
  end.

Definition get_interaction_replay_page (params : SubscribeInteractionsParams)
    (reply : result SdkError SubscribeInteractionsResult) : result InteractionViewError SubscribeInteractionsResult :=
  page ← map_err interaction_replay_error reply;
  map_err IvInvalidProjection (replay_valid_for page params);;
  Ok page.

(** [WhaleClient::respond_interaction]; the answer is the identity and [resolved]. *)
Definition client_respond_interaction (session : result SdkError ()) (thread_id turn_id request_id : string) (response : Value)
    (request : RespondInteractionParams → result SdkError (string * bool)) : result SdkError bool :=
  params ← map_err SdkInvalidConfiguration (RespondInteractionParams_new thread_id turn_id request_id response);
  session;;
  '(answered, resolved) ← request params;
  map_err SdkInternal (RespondInteractionResult_validate answered);;
  reject_if (answered != request_id) (SdkInternal "Daemon returned a different Interaction response identity");;
  Ok resolved.

(** [WhaleThread::interaction_snapshot] *)
Definition interaction_snapshot (initialized : result SdkError (list string)) (open : result SdkError ()) (enabled : bool)
    (thread_id : string) (reply : result SdkError InteractionSnapshot) : result InteractionViewError InteractionSnapshot :=
  require_interaction_view initialized open enabled thread_id;;
  get_interaction_snapshot thread_id reply.

(** [RunHandle::pending_interactions] *)
Definition pending_interactions (session : result SdkError ()) (thread_id turn_id : string)
    (reply : result SdkError TurnInteractionSnapshot) : result SdkError TurnInteractionSnapshot :=
  session;;
  map_err SdkInvalidConfiguration (GetTurnInteractionsParams_validate thread_id turn_id);;
  snapshot ← reply;
  map_err SdkInternal (TurnInteractionSnapshot_validate snapshot);;
  reject_if ((ts_thread_id snapshot != thread_id) || (ts_turn_id snapshot != turn_id))
    (SdkInternal "Daemon returned an Interaction snapshot for another Run");;
  Ok snapshot.

(** ** The worker of a subscription *)

Definition is_next_interaction (previous next : InteractionCursor) : bool :=
  in_same_stream previous next && is_some_and (checked_add (ic_seq previous) 1) (λ expected, expected == ic_seq next).

Definition InteractionItem := result InteractionViewError InteractionEventEnvelope.

(** What ends the loop over the events of a page; [room] counts the events that the
    output takes before the stream is dropped or terminated. *)
Inductive InteractionDelivery := InteractionsDelivered | InteractionsInterrupted | InteractionsBroken (message : string).

Fixpoint deliver_interactions (last : InteractionCursor) (room : option nat) (events : list InteractionEventEnvelope) :
    list InteractionEventEnvelope * InteractionCursor * InteractionDelivery :=
  match events with
  | [] => ([], last, InteractionsDelivered)
  | e :: events =>
      if negb (is_next_interaction last (ie_cursor e)) then
        ([], last, InteractionsBroken ("Interaction replay event is not contiguous after cursor " +:+ pretty (ic_seq last)))
      else match room with
           | Some O => ([], last, InteractionsInterrupted)
           | _ => let '(sent, last', d) := deliver_interactions (ie_cursor e) (pred <$> room) events in (e :: sent, last', d)
           end
  end.

(** [InteractionResync]: a gap was reported and the snapshot is being fetched. *)
Inductive InteractionWorker :=
  | InteractionRequesting (last : InteractionCursor) (params : SubscribeInteractionsParams)
  | InteractionResync (last : InteractionCursor) (gap : InteractionReplayGap)
  | InteractionFollowing (last : InteractionCursor)
  | InteractionStopped (last : InteractionCursor).

Definition interaction_cursor (w : InteractionWorker) : InteractionCursor :=
  match w with
  | InteractionRequesting last _ | InteractionResync last _ | InteractionFollowing last | InteractionStopped last => last
  end.

(** [send_worker_error] *)
Definition interaction_fail (heard : bool) (sent : list InteractionEventEnvelope) (last : InteractionCursor)
    (error : InteractionViewError) : list InteractionItem * InteractionWorker :=
  ((Ok <$> sent) ++ (if heard then [Err error] else []), InteractionStopped last).

Definition interaction_window (thread_id : string) (page_limit : N) (last : InteractionCursor) : SubscribeInteractionsParams :=
  {| si_thread_id := thread_id; si_after := last; si_through := None; si_limit := page_limit |}.

(** One turn of the loop of [replay_fixed_window]. *)
Definition handle_interaction_page (thread_id : string) (page_limit : N) (last : InteractionCursor)
    (params : SubscribeInteractionsParams) (page : SubscribeInteractionsResult) (room : option nat) (heard : bool) :
    list InteractionItem * InteractionWorker :=
  match replay_valid_for page params with
  | Err message => interaction_fail heard [] last (IvInvalidProjection message)
  | Ok _ =>
      match sr_gap page with
      | Some gap => ([], InteractionResync last gap)
      | None =>
          if sr_has_more page && (sr_resume_after page == si_after params) then
            interaction_fail heard [] last (IvInvalidProjection "Interaction replay claimed more events without advancing")
          else
            let '(sent, last, delivery) := deliver_interactions last room (sr_events page) in
            match delivery with
            | InteractionsBroken message => interaction_fail heard sent last (IvInvalidProjection message)
            | InteractionsInterrupted => (Ok <$> sent, InteractionStopped last)
            | InteractionsDelivered =>
                (Ok <$> sent,
                 if sr_has_more page then
                   InteractionRequesting last {| si_thread_id := thread_id; si_after := sr_resume_after page;
                                                 si_through := Some (sr_through page); si_limit := page_limit |}
                 else InteractionFollowing last)
            end
      end
  end.

Inductive InteractionLabel :=
  | InteractionPage (reply : result SdkError SubscribeInteractionsResult) (room : option nat) (heard : bool)
  | InteractionSnapshotFetched (reply : result SdkError InteractionSnapshot) (heard : bool)
  | InteractionEvent (event : InteractionEventEnvelope) (accepted : bool)
  | InteractionLagged
  | InteractionHubClosed
  | InteractionTerminated.

(** [run_subscription_worker] *)
Definition interaction_worker_step (thread_id : string) (page_limit : N) (w : InteractionWorker) (label : InteractionLabel) :
    option (list InteractionItem * InteractionWorker) :=
  match w, label with
  | InteractionRequesting last params, InteractionPage reply room heard =>
      Some (match get_interaction_replay_page params reply with
            | Err error => interaction_fail heard [] last error
            | Ok page => handle_interaction_page thread_id page_limit last params page room heard
            end)
  | InteractionResync last gap, InteractionSnapshotFetched reply heard =>
      Some (interaction_fail heard [] last
              (match get_interaction_snapshot thread_id reply with
               | Err error => error
               | Ok snapshot => IvResyncRequired gap snapshot
               end))
  | InteractionFollowing last, InteractionEvent event accepted =>
      Some (if in_same_stream (ie_cursor event) last && (ic_seq (ie_cursor event) <=? ic_seq last)%N
            then ([], InteractionFollowing last)
            else if is_next_interaction last (ie_cursor event) then
              if accepted then ([Ok event], InteractionFollowing (ie_cursor event)) else ([], InteractionStopped last)
            else ([], InteractionRequesting last (interaction_window thread_id page_limit last)))
  | InteractionFollowing last, InteractionLagged =>
      Some ([], InteractionRequesting last (interaction_window thread_id page_limit last))
  | InteractionFollowing last, InteractionHubClosed => Some ([], InteractionStopped last)
  | (InteractionRequesting last _ | InteractionFollowing last), InteractionTerminated => Some ([], InteractionStopped last)
  | _, _ => None
  end.

(** [WhaleThread::watch_interactions] *)
Definition watch_interactions (initialized : result SdkError (list string)) (open : result SdkError ()) (enabled : bool)
    (thread_id : string) (options : InteractionSubscriptionOptions) (reply : result SdkError InteractionSnapshot) :
    result InteractionViewError (InteractionSnapshot * InteractionWorker) :=
  require_interaction_view initialized open enabled thread_id;;
  subscribe_interaction_events open enabled thread_id;;
  snapshot ← get_interaction_snapshot thread_id reply;
  Ok (snapshot, InteractionRequesting (is_cursor snapshot)
                  (interaction_window thread_id (iso_replay_page_limit options) (is_cursor snapshot))).

(** [WhaleThread::subscribe_interactions_from]: the worker and the page it starts with. *)
Definition subscribe_interactions_from (initialized : result SdkError (list string)) (open : result SdkError ()) (enabled : bool)
    (thread_id : string) (cursor : InteractionCursor) (options : InteractionSubscriptionOptions)
    (request : SubscribeInteractionsParams → result SdkError SubscribeInteractionsResult)
    (reply : result SdkError InteractionSnapshot) :
    result InteractionViewError (InteractionWorker * SubscribeInteractionsResult) :=
  map_err IvInvalidCursor (InteractionCursor_validate cursor);;
  reject_if (ic_thread_id cursor != thread_id) (IvInvalidCursor "Interaction cursor belongs to another Session");;
  require_interaction_view initialized open enabled thread_id;;
  subscribe_interaction_events open enabled thread_id;;
  let params := interaction_window thread_id (iso_replay_page_limit options) cursor in
  page ← get_interaction_replay_page params (request params);
  match sr_gap page with
  | Some gap => snapshot ← get_interaction_snapshot thread_id reply; Err (IvResyncRequired gap snapshot)
  | None => Ok (InteractionRequesting cursor params, page)
  end.
End requests.

(** ** The stream handed to the application *)

Inductive InteractionHubTermination := HubSessionClosed | HubConnectionLost (message : string).

Definition termination_item (self : InteractionHubTermination) : option InteractionItem :=
  match self with HubSessionClosed => None | HubConnectionLost message => Some (Err (IvSdk (SdkChannelClosed message))) end.

Record InteractionEventStream := { ies_ended : bool; ies_last_received : option InteractionCursor }.

Inductive InteractionPoll :=
  | InteractionHubStopped
  | InteractionTerminationSeen
  | InteractionItemSeen (item : InteractionItem)
  | InteractionWorkerEnded (termination : option InteractionHubTermination).

(** One turn of the loop of [InteractionEventStream::recv]: [inr] is a returned value. *)
Definition interaction_recv (self : InteractionEventStream) (termination : option InteractionHubTermination)
    (poll : InteractionPoll) : InteractionEventStream * (() + option InteractionItem) :=
  let ended := {| ies_ended := true; ies_last_received := ies_last_received self |} in
  if ies_ended self then (self, inr None) else
  match termination with
  | Some t => (ended, inr (termination_item t))
  | None =>
      match poll with
      | InteractionHubStopped => (ended, inr (Some (Err (IvSdk (SdkChannelClosed "Interaction event hub stopped")))))
      | InteractionTerminationSeen => (self, inl ())
      | InteractionItemSeen (Ok event) =>
          ({| ies_ended := false; ies_last_received := Some (ie_cursor event) |}, inr (Some (Ok event)))
      | InteractionItemSeen (Err error) => (ended, inr (Some (Err error)))
      | InteractionWorkerEnded termination => (ended, inr (termination ≫= termination_item))
      end
  end.

(** ** Approval decisions *)

Definition decision_text (decision : RunApprovalDecision) : string :=
  match decision with ApproveRun => "approve" | RejectRun => "reject" | ModifyRunArguments => "modify_arguments" end.

Definition run_approval_response (decision : RunApprovalDecision) (arguments : option Value) (feedback : option string) : Value :=
  let response := {["decision" := Str (decision_text decision)]} in
  let response := match arguments with Some arguments => <["arguments" := arguments]> response | None => response end in
  Object match feedback with Some feedback => <["feedback" := Str feedback]> response | None => response end.

(** [legacy_approval_response]; [approve] is the older [ApprovalDecision]. *)
Definition legacy_approval_response (approve : bool) (feedback : option string) : Value :=
  run_approval_response (if approve then ApproveRun else RejectRun) None feedback.

(** ** What the worker hands over *)

(** A chain of events from a cursor to another. *)
Fixpoint chained (start : InteractionCursor) (events : list InteractionEventEnvelope) (end_ : InteractionCursor) : Prop :=
  match events with
  | [] => end_ = start
  | e :: events => is_next_interaction start (ie_cursor e) = true ∧ chained (ie_cursor e) events end_
  end.

Lemma chained_app start events mid events' end_ :
  chained start events mid → chained mid events' end_ → chained start (events ++ events') end_.
Proof.
  revert start. induction events as [|e events IH]; intros start; simpl; [by intros ->|]. intros [? ?] ?. split; [done|by apply IH].
Qed.

Lemma deliver_chained last room events sent last' d :
  deliver_interactions last room events = (sent, last', d) → chained last sent last'.
Proof.
  revert last room sent last' d. induction events as [|e events IH]; intros last room sent last' d Hd; simpl in Hd; [by injection Hd as <- <- <-|].
  destruct (is_next_interaction _ _) eqn:Hn; simpl in Hd; [|by injection Hd as <- <- <-].
  assert (∀ rm, (let '(s, l, dd) := deliver_interactions (ie_cursor e) rm events in (e :: s, l, dd)) = (sent, last', d) →
    chained last sent last') as Hrec.
  { intros rm. destruct (deliver_interactions (ie_cursor e) rm events) as [[s l] dd] eqn:Hs. intros [= <- <- <-].
    split; [done|by eapply IH]. }
  destruct room as [[|n]|]; [by injection Hd as <- <- <-|by eapply Hrec..].
Qed.

Section contiguous.
Context `{Externals} (thread_id : string) (page_limit : N).

Fixpoint hear_interactions (labels : list InteractionLabel) (w : InteractionWorker) : option (list InteractionItem * InteractionWorker) :=
  match labels with
  | [] => Some ([], w)
  | label :: labels =>
      '(items, w) ← interaction_worker_step thread_id page_limit w label;
      '(more, w) ← hear_interactions labels w;
      Some (items ++ more, w)
  end.

(** What a resynchronisation error shows was validated. *)
Definition failure_checked (error : InteractionViewError) : Prop :=
  match error with
  | IvResyncRequired gap snapshot =>
      InteractionReplayGap_validate gap = Ok () ∧ InteractionSnapshot_validate snapshot = Ok () ∧ is_thread_id snapshot = thread_id
  | _ => True
  end.

Inductive handed_over (last last' : InteractionCursor) (w : InteractionWorker) : list InteractionItem → Prop :=
  | handed_events events : chained last events last' → handed_over last last' w (Ok <$> events)
  | handed_failure events error : chained last events last' → w = InteractionStopped last' → failure_checked error →
      handed_over last last' w ((Ok <$> events) ++ [Err error]).

(** The gap a resynchronisation waits with was validated. *)
Definition resync_checked (w : InteractionWorker) : Prop :=
  match w with InteractionResync _ gap => InteractionReplayGap_validate gap = Ok () | _ => True end.

Lemma fail_handed_over heard sent last last' error items w :
  interaction_fail heard sent last' error = (items, w) → chained last sent last' → failure_checked error →
  handed_over last (interaction_cursor w) w items ∧ resync_checked w.
Proof.
  intros [= <- <-] Hc He. split; [|done]. destruct heard; [by constructor|]. rewrite app_nil_r. by constructor.
Qed.

Lemma replay_error_checked error : failure_checked (interaction_replay_error error).
Proof. by destruct error; simpl; try destruct (_ =? _)%Z. Qed.

Lemma replay_valid_gap page params gap :
  replay_valid_for page params = Ok () → sr_gap page = Some gap → InteractionReplayGap_validate gap = Ok ().
Proof.
  unfold replay_valid_for. intros Hv Hg. do 4 apply bind_Ok in Hv as ([] & _ & Hv). rewrite Hg in Hv.
  by apply bind_Ok in Hv as ([] & Hv & _).
Qed.

Lemma worker_step_handed_over w label items w' :
  interaction_worker_step thread_id page_limit w label = Some (items, w') → resync_checked w →
  handed_over (interaction_cursor w) (interaction_cursor w') w' items ∧ resync_checked w'.
Proof.
  assert (∀ last w0, interaction_cursor w0 = last → resync_checked w0 →
    handed_over last (interaction_cursor w0) w0 [] ∧ resync_checked w0) as Hquiet.
  { intros last w0 <- Hc. split; [by apply (handed_events _ _ _ [])|done]. }
  intros Hs Hw. destruct w as [last params|last gap|last|last], label as [reply room heard|reply heard|event accepted| | |];
    simpl in Hs; try done; apply Some_inj in Hs.
  - destruct (get_interaction_replay_page params reply) as [page|error] eqn:Hp; unfold get_interaction_replay_page in Hp.
    2:{ eapply fail_handed_over; [exact Hs|done|]. destruct reply as [page|e]; simpl in Hp; [|injection Hp as <-; apply replay_error_checked].
        by destruct (replay_valid_for page params); simpl in Hp; [|injection Hp as <-]. }
    unfold handle_interaction_page in Hs. destruct (replay_valid_for page params) as [[]|message] eqn:Hv; [|by eapply fail_handed_over].
    destruct (sr_gap page) as [gap|] eqn:Hg; [injection Hs as <- <-; apply Hquiet; [done|by eapply replay_valid_gap]|].
    destruct (_ && _); [by eapply fail_handed_over|].
    destruct (deliver_interactions last room (sr_events page)) as [[sent last'] d] eqn:Hd. apply deliver_chained in Hd.
    destruct d; [|injection Hs as <- <-; split; [by constructor|done]|by eapply fail_handed_over].
    injection Hs as <- <-. destruct (sr_has_more page); (split; [by constructor|done]).
  - injection Hs as <- <-. by apply Hquiet.
  - eapply fail_handed_over; [exact Hs|done|]. destruct (get_interaction_snapshot thread_id reply) as [snapshot|error] eqn:Hg;
      unfold get_interaction_snapshot in Hg.
    + apply bind_Ok in Hg as (s & _ & Hg). apply bind_Ok in Hg as ([] & Hv%map_err_Ok & Hg). apply bind_Ok in Hg as ([] & Hr & Hg).
      injection Hg as <-. apply reject_if_Ok in Hr. by inv_bool.
    + destruct reply as [s|e]; simpl in Hg; [|by injection Hg as <-].
      destruct (InteractionSnapshot_validate s); simpl in Hg; [|by injection Hg as <-].
      unfold reject_if in Hg. destruct (_ != _); simpl in Hg; [by injection Hg as <-|done].
  - destruct (_ && _); [injection Hs as <- <-; by apply Hquiet|].
    destruct (is_next_interaction last (ie_cursor event)) eqn:Hn; [|injection Hs as <- <-; by apply Hquiet].
    destruct accepted; injection Hs as <- <-; [|by apply Hquiet]. split; [|done].
    change [Ok event] with (Ok <$> [event] : list InteractionItem). by constructor.
  - injection Hs as <- <-. by apply Hquiet.
  - injection Hs as <- <-. by apply Hquiet.
  - injection Hs as <- <-. by apply Hquiet.
Qed.

Lemma stopped_is_silent labels last items w :
  hear_interactions labels (InteractionStopped last) = Some (items, w) → items = [] ∧ w = InteractionStopped last.
Proof. destruct labels as [|[] labels]; simpl; [by intros [= <- <-]|done..]. Qed.

(** Whatever the daemon and the network do, what a subscription hands over is contiguous
    from its start cursor on, with at most one error as its last item. *)
Lemma interactions_are_contiguous labels w items w' :
  hear_interactions labels w = Some (items, w') → resync_checked w →
  handed_over (interaction_cursor w) (interaction_cursor w') w' items.
Proof.
  revert w items. induction labels as [|label labels IH]; intros w items Hs Hw; simpl in Hs.
  { injection Hs as <- <-. by apply (handed_events _ _ _ []). }
  apply bind_Some in Hs as ([items1 w1] & Hs & Hm). simpl in Hm. apply bind_Some in Hm as ([more w2] & Hm & [= <- <-]).
  destruct (worker_step_handed_over _ _ _ _ Hs Hw) as [Hh Hw1]. pose proof (IH _ _ Hm Hw1) as Hh'.
  destruct Hh as [events Hc|events error Hc Hst He].
  - destruct Hh' as [events' Hc'|events' error Hc' Hst He].
    + rewrite <-fmap_app. constructor. by eapply chained_app.
    + rewrite app_assoc, <-fmap_app. constructor; [by eapply chained_app|done..].
  - rewrite Hst in Hm. apply stopped_is_silent in Hm as [-> ->]. rewrite app_nil_r. by constructor.
Qed.
End contiguous.
