(* ===== verification/Approvals.v ===== *)
(** * The approval gate of the core

    [crates/whale-core/src/approval.rs]: requests that wait for a decision, on a channel
    of their own or through the interaction bridge, and the translation of decisions
    into responses and back. The laws follow: the gate with its waiting requests, what is
    read back of a decision, and that decisions arrive. *)

From S2P Require Import Prelude Protocol StoreState CoreSession Coordinator Interactions InteractionServer.

(** ** The gate *)

(** The channel of a legacy request: it waits; it holds the decision; its sender is
    gone; its receiver is gone. *)
Inductive ApprovalChannel := ChannelWaits | ChannelHolds (decision : ApprovalDecision) | SenderGone | ReceiverGone.

Inductive PendingApproval := PendingLegacy (channel : nat) | PendingBridged (context : RunContextInfo).

Record ApprovalGate := {
  ag_pending : gmap string PendingApproval;
  ag_channels : gmap nat ApprovalChannel;
  ag_next : nat;
}.
Definition ApprovalGate_new : ApprovalGate := {| ag_pending := ∅; ag_channels := ∅; ag_next := 0 |}.

Definition on_channel (c : nat) (f : ApprovalChannel → ApprovalChannel) (g : ApprovalGate) : ApprovalGate :=
  {| ag_pending := ag_pending g; ag_channels := alter f c (ag_channels g); ag_next := ag_next g |}.
Definition drop_sender (channel : ApprovalChannel) : ApprovalChannel :=
  match channel with ChannelWaits => SenderGone | _ => channel end.

(** [pending_approvals.remove]; the sender of a removed entry is dropped. *)
Definition remove_pending (request_id : string) (g : ApprovalGate) : ApprovalGate :=
  let g' := {| ag_pending := delete request_id (ag_pending g); ag_channels := ag_channels g; ag_next := ag_next g |} in
  match ag_pending g !! request_id with
  | Some (PendingLegacy c) => on_channel c drop_sender g'
  | _ => g'
  end.

(** [pending_approvals.insert]; it drops what was there. *)
Definition insert_pending (request_id : string) (pending : PendingApproval) (g : ApprovalGate) : ApprovalGate :=
  let g := remove_pending request_id g in
  {| ag_pending := <[request_id := pending]> (ag_pending g); ag_channels := ag_channels g; ag_next := ag_next g |}.

(** [request_approval] up to the send of its event: the channel it waits on. *)
Definition request_approval (request_id : string) (g : ApprovalGate) : nat * ApprovalGate :=
  let c := ag_next g in
  (c, insert_pending request_id (PendingLegacy c)
        {| ag_pending := ag_pending g; ag_channels := <[c := ChannelWaits]> (ag_channels g); ag_next := S c |}).

(** What [rx.await] gives: [None] while it waits. *)
Definition await_decision (request_id : string) (c : nat) (g : ApprovalGate) : option (result CoreError ApprovalDecision) :=
  match ag_channels g !! c with
  | Some (ChannelHolds decision) => Some (Ok decision)
  | Some SenderGone => Some (Err (ApprovalChannelClosed request_id))
  | _ => None
  end.

(** The end of a request, whatever it returns: the drop of the [PendingApprovalCleanup]
    and of the receiver. *)
Definition end_request (request_id : string) (c : nat) (g : ApprovalGate) : ApprovalGate :=
  on_channel c (λ _, ReceiverGone) (remove_pending request_id g).

(** [resolve_approval] looks the request up, and for a legacy one removes it only if it
    still is one; the lookup and the removal are two steps. *)
Definition resolve_target (request_id : string) (g : ApprovalGate) : option PendingApproval := ag_pending g !! request_id.

Definition resolve_legacy (request_id : string) (decision : ApprovalDecision) (g : ApprovalGate) : bool * ApprovalGate :=
  match ag_pending g !! request_id with
  | Some (PendingLegacy c) =>
      let g := {| ag_pending := delete request_id (ag_pending g); ag_channels := ag_channels g; ag_next := ag_next g |} in
      match ag_channels g !! c with
      | Some ChannelWaits => (true, on_channel c (λ _, ChannelHolds decision) g)
      | _ => (false, g)
      end
  | _ => (false, g)
  end.

(** ** Decisions as responses *)

Definition approval_decision_response (decision : ApprovalDecision) : Value :=
  match decision with
  | Accept => Object {["decision" := Str "approve"]}
  | Deny reason =>
      let response := {["decision" := Str "reject"]} in
      Object match reason with Some reason => <["feedback" := Str reason]> response | None => response end
  | ModifyArguments arguments => Object {["decision" := Str "modify_arguments"; "arguments" := arguments]}
  end.

Definition constant (text : string) : Value := Object {["const" := Str text]}.
Definition required (keys : list string) : Value := Array (Str <$> keys).
Definition tool_approval_response_schema : Value :=
  let text := Object {["type" := Str "string"]} in
  Object {[
    "$schema" := Str "https://json-schema.org/draft/2020-12/schema";
    "oneOf" := Array [
      Object {["type" := Str "object"; "properties" := Object {["decision" := constant "approve"]};
               "required" := required ["decision"]; "additionalProperties" := Bool false]};
      Object {["type" := Str "object";
               "properties" := Object {["decision" := constant "reject"; "feedback" := text]};
               "required" := required ["decision"]; "additionalProperties" := Bool false]};
      Object {["type" := Str "object";
               "properties" := Object {["decision" := constant "modify_arguments"; "arguments" := Object ∅; "feedback" := text]};
               "required" := required ["decision"; "arguments"]; "additionalProperties" := Bool false]}]
  ]}.

(** What that schema says of a value. *)
Definition only_keys (keys : list string) (m : Map) : bool := forallb (λ entry, bool_decide (entry.1 ∈ keys)) (map_to_list m).
Definition text_or_missing (v : option Value) : bool := match v with Some (Str _) | None => true | _ => false end.
Definition approval_shape (v : Value) : bool :=
  match v with
  | Object m =>
      let decision := m !! "decision" in
      (bool_decide (decision = Some (Str "approve")) && only_keys ["decision"] m)
      || (bool_decide (decision = Some (Str "reject")) && only_keys ["decision"; "feedback"] m
          && text_or_missing (m !! "feedback"))
      || (bool_decide (decision = Some (Str "modify_arguments")) && only_keys ["decision"; "arguments"; "feedback"] m
          && is_some (m !! "arguments") && text_or_missing (m !! "feedback"))
  | _ => false
  end.

Section responses.
Context `{Externals}.

(** [tool_call] is the item as JSON. *)
Definition tool_approval_request (tool_call : result string Value) (original_arguments : Value) (reason : option string) :
    result CoreError InteractionRequest :=
  tool_call ← map_err CoreJson tool_call;
  let payload := <["original_arguments" := original_arguments]> {["tool_call" := tool_call]} in
  let payload := match reason with Some reason => <["reason" := Str reason]> payload | None => payload end in
  map_err InteractionRequestInvalid
    (InteractionRequest_new KIND_TOOL_APPROVAL "Tool approval" (Object payload) (Some tool_approval_response_schema)).

(** What [serde] makes of an object as a [ToolApprovalResponse]: the variant without
    fields ignores what it does not know, the others refuse it. *)
Definition optional_text (v : option Value) : option (option string) :=
  match v with None | Some Null => Some None | Some (Str text) => Some (Some text) | _ => None end.
Definition decode_response (m : Map) : option ApprovalDecision :=
  match m !! "decision" with
  | Some (Str "approve") => Some Accept
  | Some (Str "reject") =>
      if only_keys ["decision"; "feedback"] m then Deny <$> optional_text (m !! "feedback") else None
  | Some (Str "modify_arguments") =>
      if only_keys ["decision"; "arguments"; "feedback"] m
      then optional_text (m !! "feedback") ≫= λ _, ModifyArguments <$> m !! "arguments" else None
  | _ => None
  end.

Context `{SchemaExternals} (serde_error : Value → string).

(** Of the other values the schema of the request has let none through. *)
Definition parse_tool_approval_response (value : Value) : result CoreError ApprovalDecision :=
  ok_or (match value with Object m => decode_response m | _ => None end) (InteractionResponseInvalid (serde_error value)).

(** [request_approval_with_context] from the answer of its ticket on. *)
Definition receive_approval (request : InteractionRequest) (value : Value) : result CoreError ApprovalDecision :=
  validate_interaction_response request value;;
  parse_tool_approval_response value.

(** What the bridge and the channels answer while [request_approval_with_context] waits:
    the run is cancelled, or the call returns. *)
Inductive Awaited {T} := AwaitCancelled | AwaitReturned (answer : result CoreError T).
Arguments Awaited : clear implicits.

Definition awaited {T} (a : Awaited T) : result CoreError T :=
  match a with AwaitCancelled => Err (InteractionCancelled "Run was cancelled") | AwaitReturned answer => answer end.

(** The bridged [request_approval_with_context]: the identity of the ticket, the send of
    the event, and the answer of the ticket; the boolean says whether [bridge.clear] was
    called. Its entry in the gate comes with [insert_pending] after the ticket and goes
    with [remove_pending] at the end. *)
Definition request_approval_with_context (request_id : string) (tool_call : result string Value) (original_arguments : Value)
    (reason : option string) (ticket : Awaited string) (sent : Awaited ()) (response : Awaited Value) :
    result CoreError ApprovalDecision * bool :=
  match (request ← tool_approval_request tool_call original_arguments reason;
         validate_interaction_request request;;
         ticket_id ← awaited ticket;
         reject_if (ticket_id != request_id) (InteractionUnavailable
           ("Interaction bridge returned ticket '" +:+ ticket_id +:+ "' for request '" +:+ request_id +:+ "'"));;
         Ok request) with
  | Err error => (Err error, false)
  | Ok request =>
      match sent with
      | AwaitCancelled => (Err (InteractionCancelled "Run was cancelled"), false)
      | AwaitReturned (Err _) => (Err EventChannelClosed, true)
      | AwaitReturned (Ok _) => (value ← awaited response; receive_approval request value, false)
      end
  end.
End responses.

(** ** Laws of approvals

    The gate with its waiting requests: every decision is taken once. And what becomes
    of a decision on its way from the client through the daemon to the core. *)

From stdpp Require Import relations.
From S2P Require Import SdkViews SdkInteractions.

(** ** The gate *)

(** The gate, the requests that wait by their channels, the decisions whose resolver was
    told that they count, and what the requests returned. *)
Record GateWorld := {
  gw_gate : ApprovalGate;
  gw_tasks : gmap nat string;
  gw_told : list (nat * ApprovalDecision);
  gw_got : list (nat * result CoreError ApprovalDecision);
}.
Definition gate_world : GateWorld := {| gw_gate := ApprovalGate_new; gw_tasks := ∅; gw_told := []; gw_got := [] |}.

Inductive gate_step : GateWorld → GateWorld → Prop :=
  | gate_request g tasks told got request_id c g' :
      request_approval request_id g = (c, g') →
      gate_step {| gw_gate := g; gw_tasks := tasks; gw_told := told; gw_got := got |}
                {| gw_gate := g'; gw_tasks := <[c := request_id]> tasks; gw_told := told; gw_got := got |}
  | gate_resolve g tasks told got request_id decision c g' :
      resolve_target request_id g = Some (PendingLegacy c) → resolve_legacy request_id decision g = (true, g') →
      gate_step {| gw_gate := g; gw_tasks := tasks; gw_told := told; gw_got := got |}
                {| gw_gate := g'; gw_tasks := tasks; gw_told := told ++ [(c, decision)]; gw_got := got |}
  | gate_refuse g tasks told got request_id decision g' :
      resolve_legacy request_id decision g = (false, g') →
      gate_step {| gw_gate := g; gw_tasks := tasks; gw_told := told; gw_got := got |}
                {| gw_gate := g'; gw_tasks := tasks; gw_told := told; gw_got := got |}
  | gate_answer g tasks told got request_id c answer :
      tasks !! c = Some request_id → await_decision request_id c g = Some answer →
      gate_step {| gw_gate := g; gw_tasks := tasks; gw_told := told; gw_got := got |}
                {| gw_gate := end_request request_id c g; gw_tasks := delete c tasks; gw_told := told; gw_got := got ++ [(c, answer)] |}
  | gate_abandon g tasks told got request_id c :
      tasks !! c = Some request_id →
      gate_step {| gw_gate := g; gw_tasks := tasks; gw_told := told; gw_got := got |}
                {| gw_gate := end_request request_id c g; gw_tasks := delete c tasks; gw_told := told; gw_got := got |}.

Record GateOk (x : GateWorld) : Prop := {
  go_fresh : ∀ c, is_Some (ag_channels (gw_gate x) !! c) → c < ag_next (gw_gate x);
  go_pending : ∀ request_id c, ag_pending (gw_gate x) !! request_id = Some (PendingLegacy c) →
    ag_channels (gw_gate x) !! c = Some ChannelWaits ∧ gw_tasks x !! c = Some request_id;
  go_task : ∀ c request_id, gw_tasks x !! c = Some request_id → ∃ channel, ag_channels (gw_gate x) !! c = Some channel ∧
    channel ≠ ReceiverGone ∧
    (channel = ChannelWaits → ag_pending (gw_gate x) !! request_id = Some (PendingLegacy c));
  go_holds : ∀ c decision, ag_channels (gw_gate x) !! c = Some (ChannelHolds decision) → (c, decision) ∈ gw_told x;
  go_told : ∀ c decision, (c, decision) ∈ gw_told x →
    ag_channels (gw_gate x) !! c = Some (ChannelHolds decision) ∨ ag_channels (gw_gate x) !! c = Some ReceiverGone;
  go_once : NoDup (gw_told x).*1;
  go_got : ∀ c decision, (c, Ok decision) ∈ gw_got x → (c, decision) ∈ gw_told x;
}.

(** Whether a request waits on a channel. *)
Definition waits_on (c : nat) (pending : option PendingApproval) : bool :=
  match pending with Some (PendingLegacy c') => bool_decide (c = c') | _ => false end.
Lemma waits_on_true c pending : waits_on c pending = true ↔ pending = Some (PendingLegacy c).
Proof. destruct pending as [[c'|context]|]; simpl; [rewrite bool_decide_eq_true|..]; naive_solver. Qed.

(** The removal of an entry drops the sender of the request that waited there, if any. *)
Lemma remove_pending_spec request_id g :
  ag_pending (remove_pending request_id g) = delete request_id (ag_pending g) ∧
  ag_next (remove_pending request_id g) = ag_next g ∧
  ∀ c, ag_channels (remove_pending request_id g) !! c
    = if waits_on c (ag_pending g !! request_id) then drop_sender <$> ag_channels g !! c
      else ag_channels g !! c.
Proof.
  unfold remove_pending. destruct (ag_pending g !! request_id) as [[c|context]|]; simpl; (split_and!; [done|done|]);
    intros c'; [|done..].
  rewrite lookup_alter. case_decide as Hd; case_bool_decide; try done; congruence.
Qed.

(** What a removal keeps. *)
Lemma remove_pending_ok x request_id :
  GateOk x → GateOk {| gw_gate := remove_pending request_id (gw_gate x); gw_tasks := gw_tasks x;
                       gw_told := gw_told x; gw_got := gw_got x |}.
Proof.
  intros [Hf Hp Ht Hh Ho Hn Hg]. destruct (remove_pending_spec request_id (gw_gate x)) as (Hrp & Hrn & Hrc).
  split; simpl; try done; rewrite ?Hrn, ?Hrp.
  - intros c. rewrite Hrc. destruct (waits_on _ _); [rewrite fmap_is_Some|]; apply Hf.
  - intros id c [Hne Hid]%lookup_delete_Some. destruct (Hp _ _ Hid) as [Hc Htask]. rewrite Hrc.
    destruct (waits_on _ _) eqn:Hd; [|done]. apply waits_on_true in Hd. destruct (Hp _ _ Hd) as [_ Htask']. congruence.
  - intros c id Hid. destruct (Ht _ _ Hid) as (channel & Hc & Hr & Hw). rewrite Hrc. destruct (waits_on _ _) eqn:Hd.
    + rewrite Hc. exists (drop_sender channel). split_and!; [done|by destruct channel|by destruct channel].
    + exists channel. split_and!; [done|done|]. intros Hcw. rewrite lookup_delete_ne; [by apply Hw|].
      intros ->. by rewrite (proj2 (waits_on_true _ _) (Hw Hcw)) in Hd.
  - intros c d. rewrite Hrc. destruct (waits_on _ _); [|apply Hh]. intros (channel & Hc & Hd)%fmap_Some.
    destruct channel; try done. injection Hd as <-. by apply Hh.
  - intros c d Hd. rewrite Hrc. destruct (waits_on _ _); [|by apply Ho]. destruct (Ho _ _ Hd) as [->| ->]; [by left|by right].
Qed.

(** A request that ends. *)
Lemma end_request_ok g tasks told got got' request_id c :
  GateOk {| gw_gate := g; gw_tasks := tasks; gw_told := told; gw_got := got |} → tasks !! c = Some request_id →
  (∀ c' d, (c', Ok d) ∈ got' → (c', Ok d) ∈ got ∨ (c', d) ∈ told) →
  GateOk {| gw_gate := end_request request_id c g; gw_tasks := delete c tasks; gw_told := told; gw_got := got' |}.
Proof.
  intros Hok Htk Hgot. pose proof (remove_pending_ok _ request_id Hok) as [Hf Hp Ht Hh Ho Hn Hg].
  destruct (remove_pending_spec request_id g) as (Hrp & _). simpl in *.
  split; simpl; try done.
  - intros c'. rewrite lookup_alter_is_Some. apply Hf.
  - intros id c' Hid. destruct (Hp _ _ Hid) as [Hc Htask]. assert (c' ≠ c) as Hne.
    { intros ->. rewrite Hrp in Hid. apply lookup_delete_Some in Hid as [Hx _]. congruence. }
    by rewrite lookup_alter_ne, lookup_delete_ne.
  - intros c' id [Hne Hid]%lookup_delete_Some. destruct (Ht _ _ Hid) as (channel & Hc & ?). exists channel. by rewrite lookup_alter_ne.
  - intros c' d. destruct (decide (c = c')) as [<-|Hne]; [|rewrite lookup_alter_ne by done; apply Hh].
    rewrite lookup_alter_eq. by destruct (ag_channels (remove_pending request_id g) !! c).
  - intros c' d Hd. destruct (decide (c = c')) as [<-|Hne]; [|rewrite lookup_alter_ne by done; by apply Ho].
    right. rewrite lookup_alter_eq. by destruct (Ho _ _ Hd) as [->| ->].
  - intros c' d [?|?]%Hgot; auto.
Qed.

Lemma gate_step_ok x y : gate_step x y → GateOk x → GateOk y.
Proof.
  destruct 1 as [g tasks told got request_id c g' Hr|g tasks told got request_id decision c g' Hrt Hr
    |g tasks told got request_id decision g' Hr|g tasks told got request_id c answer Htk Ha|g tasks told got request_id c Htk]; intros Hok.
  - unfold request_approval, insert_pending in Hr. injection Hr as <- <-.
    pose proof Hok as [Hf _ _ _ _ _ _]. simpl in Hf.
    assert (ag_channels g !! ag_next g = None) as Hnew.
    { destruct (ag_channels g !! ag_next g) eqn:Hc; [|done]. specialize (Hf (ag_next g) ltac:(by eexists)). lia. }
    pose proof (remove_pending_ok _ request_id Hok) as [Hf' Hp Ht Hh Ho Hn Hg]. simpl in *.
    match goal with |- context [remove_pending request_id ?g1] => destruct (remove_pending_spec request_id g1) as (Hrp & Hrn & Hrc) end.
    destruct (remove_pending_spec request_id g) as (Hrp0 & Hrn0 & Hrc0). simpl in *.
    assert (∀ c, c ≠ ag_next g → ag_channels (remove_pending request_id {| ag_pending := ag_pending g;
      ag_channels := <[ag_next g := ChannelWaits]> (ag_channels g); ag_next := S (ag_next g) |}) !! c
      = ag_channels (remove_pending request_id g) !! c) as Hold.
    { intros c Hne. rewrite Hrc, Hrc0, lookup_insert_ne by done. done. }
    assert (ag_channels (remove_pending request_id {| ag_pending := ag_pending g;
      ag_channels := <[ag_next g := ChannelWaits]> (ag_channels g); ag_next := S (ag_next g) |}) !! ag_next g
      = Some ChannelWaits) as Hthis.
    { rewrite Hrc, lookup_insert_eq. destruct (waits_on _ _) eqn:Hd; [|done]. apply waits_on_true, (go_pending _ Hok) in Hd as [Hd _]. simpl in Hd. congruence. }
    assert (ag_channels (remove_pending request_id g) !! ag_next g = None) as Hnone.
    { rewrite Hrc0, Hnew. by destruct (waits_on _ _). }
    assert (tasks !! ag_next g = None) as Hnt.
    { destruct (tasks !! ag_next g) eqn:Hc; [|done]. destruct (Ht _ _ Hc) as (? & Hx & _). congruence. }
    split; simpl; try done; rewrite ?Hrn.
    + intros c Hc. destruct (decide (c = ag_next g)) as [->|Hne]; [lia|]. rewrite Hold in Hc by done. apply Hf' in Hc. rewrite Hrn0 in Hc. lia.
    + intros id c. rewrite Hrp, <-Hrp0. intros [[<- [= <-]]|[Hne Hid]]%lookup_insert_Some; [by rewrite lookup_insert_eq|].
      destruct (Hp _ _ Hid) as [Hc Htask]. assert (c ≠ ag_next g) by congruence. rewrite Hold, lookup_insert_ne by done. done.
    + intros c id [[<- <-]|[Hne Hid]]%lookup_insert_Some; [exists ChannelWaits; by rewrite lookup_insert_eq|].
      destruct (Ht _ _ Hid) as (channel & Hc & ? & Hw). exists channel. rewrite Hold by done. split_and!; [done|done|].
      intros Hcw. rewrite Hrp, <-Hrp0. rewrite lookup_insert_ne; [by apply Hw|]. intros <-.
      specialize (Hw Hcw). by rewrite Hrp0, lookup_delete_eq in Hw.
    + intros c d. destruct (decide (c = ag_next g)) as [->|Hne]; [congruence|]. rewrite Hold by done. apply Hh.
    + intros c d Hd. destruct (Ho _ _ Hd) as [Hc|Hc]; (assert (c ≠ ag_next g) by congruence; rewrite Hold by done; auto).
  - unfold resolve_target in Hrt. unfold resolve_legacy in Hr. rewrite Hrt in Hr. simpl in Hr.
    destruct Hok as [Hf Hp Ht Hh Ho Hn Hg]. simpl in *. destruct (Hp _ _ Hrt) as [Hc Htask]. rewrite Hc in Hr. injection Hr as <-.
    split; simpl; try done.
    + intros c'. rewrite lookup_alter_is_Some. apply Hf.
    + intros id c' [Hne Hid]%lookup_delete_Some. destruct (Hp _ _ Hid) as [Hc' Htask']. rewrite lookup_alter_ne; [done|]. intros <-. congruence.
    + intros c' id Hid. destruct (Ht _ _ Hid) as (channel & Hc' & Hr & Hw). destruct (decide (c = c')) as [<-|Hne].
      * exists (ChannelHolds decision). by rewrite lookup_alter_eq, Hc.
      * exists channel. rewrite lookup_alter_ne by done. split_and!; [done|done|]. intros Hcw. rewrite lookup_delete_ne; [by apply Hw|].
        intros <-. specialize (Hw Hcw). congruence.
    + intros c' d. destruct (decide (c = c')) as [<-|Hne].
      * rewrite lookup_alter_eq, Hc. intros [= <-]. apply elem_of_app. right. by left.
      * rewrite lookup_alter_ne by done. intros Hd. apply elem_of_app. left. by apply Hh.
    + intros c' d [Hd|Hd]%elem_of_app.
      * destruct (Ho _ _ Hd) as [Hx|Hx]; (rewrite lookup_alter_ne by (intros <-; congruence)); auto.
      * apply list_elem_of_singleton in Hd. injection Hd as -> ->. left. by rewrite lookup_alter_eq, Hc.
    + rewrite fmap_app. apply NoDup_app. split_and!; [done| |apply NoDup_singleton].
      intros c' ([c0 d0] & -> & Hd)%list_elem_of_fmap Hc'. apply list_elem_of_singleton in Hc'. simpl in Hc'. subst c0.
      destruct (Ho _ _ Hd); congruence.
    + intros c' d Hd. apply elem_of_app. left. by apply Hg.
  - unfold resolve_legacy in Hr. destruct (ag_pending g !! request_id) as [[c|context]|] eqn:Hrt; simpl in Hr; [|by injection Hr as <-..].
    destruct (go_pending _ Hok _ _ Hrt) as [Hc _]. simpl in Hc. by rewrite Hc in Hr.
  - eapply end_request_ok; [exact Hok|done|]. intros c' d [Hd|Hd]%elem_of_app; [by left|right].
    apply list_elem_of_singleton in Hd. injection Hd as -> <-. unfold await_decision in Ha.
    destruct (ag_channels g !! c) as [[]|] eqn:Hc; try done. injection Ha as ->. by apply (go_holds _ Hok).
  - eapply end_request_ok; [exact Hok|done|]. intros c' d Hd. by left.
Qed.

(** Whatever happens at the gate, at most one decision of a request counts, the request
    returns no other, and while it waits any decision can be made, and arrives. *)
Definition gate_delivers x : Prop :=
  NoDup (gw_told x).*1 ∧ (∀ c decision, (c, Ok decision) ∈ gw_got x → (c, decision) ∈ gw_told x) ∧
  (∀ c request_id, gw_tasks x !! c = Some request_id → await_decision request_id c (gw_gate x) = None →
     ∀ decision, ∃ g, resolve_legacy request_id decision (gw_gate x) = (true, g)
       ∧ await_decision request_id c g = Some (Ok decision)).

Lemma gate_decides_once x : rtc gate_step gate_world x → gate_delivers x.
Proof.
  intros Hr. assert (GateOk x) as [Hf Hp Ht Hh Ho Hn Hg].
  { assert (GateOk gate_world) as Hok.
    { split; simpl; try done; [by intros c [? ?]|by intros c d ?%not_elem_of_nil|by apply NoDup_nil|by intros c d ?%not_elem_of_nil]. }
    revert Hok. induction Hr as [|x y z Hs _ IH]; [done|]. intros Hok. by eapply IH, gate_step_ok. }
  split_and!; [done|done|]. intros c id Hid Ha d. destruct (Ht _ _ Hid) as (channel & Hc & Hne & Hw).
  unfold await_decision in Ha. rewrite Hc in Ha. destruct channel; try done.
  unfold resolve_legacy. rewrite (Hw eq_refl). simpl. rewrite Hc. eexists. split; [done|].
  unfold await_decision. simpl. by rewrite lookup_alter_eq, Hc.
Qed.

(** ** Decisions on their way *)

(** What a JSON Schema validator says of the schema of tool approvals. *)
Class ApprovalSchema `{SchemaExternals} : Prop := {
  approval_schema_compiles : schema_compiles tool_approval_response_schema = Ok ();
  approval_schema_accepts v : schema_accepts tool_approval_response_schema v = approval_shape v;
}.

(** What the daemon makes of a decision. *)
Definition decision_meaning (decision : RunApprovalDecision) (arguments : option Value) (feedback : option string) :
    ApprovalDecision :=
  match decision with
  | ApproveRun => Accept
  | RejectRun => Deny feedback
  | ModifyRunArguments => ModifyArguments (default Null arguments)
  end.

(** The decisions whose response, as the client makes it, fits the schema. *)
Definition client_fits (decision : RunApprovalDecision) (arguments : option Value) (feedback : option string) : bool :=
  match decision with
  | ApproveRun => is_none arguments && is_none feedback
  | RejectRun => is_none arguments
  | ModifyRunArguments => is_some arguments
  end.

Section responses.
Context `{Externals, ApprovalSchema} (serde_error : Value → string).

Definition response_fits (value : Value) : Prop :=
  validate_json_size value "Interaction response" MAX_INTERACTION_RESPONSE_BYTES = Ok ().

Lemma tool_approval_request_schema tool_call arguments reason request :
  tool_approval_request tool_call arguments reason = Ok request → iq_response_schema request = Some tool_approval_response_schema.
Proof.
  unfold tool_approval_request. intros Hr. apply bind_Ok in Hr as (item & _ & Hr). apply map_err_Ok in Hr.
  unfold InteractionRequest_new in Hr. apply bind_Ok in Hr as ([] & _ & Hr). by injection Hr as <-.
Qed.

Lemma validate_response_spec request value schema :
  iq_response_schema request = Some schema → schema_compiles schema = Ok () → response_fits value →
  validate_interaction_response request value = reject_if (negb (schema_accepts schema value))
    (InteractionResponseInvalid "Interaction response does not match response_schema").
Proof.
  intros Hs Hc Hf. unfold validate_interaction_response, InteractionResponse_new, InteractionResponse_validate.
  assert (validate_bounded_identity "response-validation" "request_id" = Ok ()) as Hid by (vm_compute; reflexivity).
  cbn [ip_response_request_id ip_response]. rewrite Hid, Hf, Hs. simpl. by rewrite Hc.
Qed.

Lemma receive_approval_spec request value :
  iq_response_schema request = Some tool_approval_response_schema → response_fits value →
  receive_approval serde_error request value
  = if approval_shape value then parse_tool_approval_response serde_error value
    else Err (InteractionResponseInvalid "Interaction response does not match response_schema").
Proof.
  intros Hs Hf. unfold receive_approval.
  rewrite (validate_response_spec _ _ _ Hs approval_schema_compiles Hf), approval_schema_accepts.
  by destruct (approval_shape value).
Qed.

(** A decision is received only of a response that the schema accepts. *)
Lemma receive_approval_Ok request value tool_call original reason d :
  tool_approval_request tool_call original reason = Ok request → receive_approval serde_error request value = Ok d →
  approval_shape value = true ∧ parse_tool_approval_response serde_error value = Ok d.
Proof.
  intros Hs%tool_approval_request_schema Hr. unfold receive_approval in Hr.
  apply bind_Ok in Hr as ([] & Hv & Hr). split; [|done].
  unfold validate_interaction_response in Hv. rewrite Hs in Hv.
  apply bind_Ok in Hv as (? & _ & Hv). apply bind_Ok in Hv as (? & _ & Hv).
  apply reject_if_Ok, negb_false_iff in Hv. by rewrite approval_schema_accepts in Hv.
Qed.

Lemma parse_client_response decision arguments feedback :
  (if approval_shape (run_approval_response decision arguments feedback)
   then parse_tool_approval_response serde_error (run_approval_response decision arguments feedback)
   else Err (InteractionResponseInvalid "Interaction response does not match response_schema"))
  = if client_fits decision arguments feedback then Ok (decision_meaning decision arguments feedback)
    else Err (InteractionResponseInvalid "Interaction response does not match response_schema").
Proof. destruct decision, arguments, feedback; vm_compute; reflexivity. Qed.

Lemma parse_daemon_response decision arguments feedback value :
  typed_response decision arguments feedback = Ok value →
  approval_shape value = true ∧
  parse_tool_approval_response serde_error value = Ok (decision_meaning decision arguments feedback).
Proof.
  destruct decision, arguments as [arguments|], feedback as [feedback|]; intros Hv; try done; injection Hv as <-;
    split; vm_compute; reflexivity.
Qed.

Lemma parse_core_response decision :
  approval_shape (approval_decision_response decision) = true ∧
  parse_tool_approval_response serde_error (approval_decision_response decision) = Ok decision.
Proof. destruct decision as [|[reason|]|arguments]; split; vm_compute; reflexivity. Qed.

(** The decision that a bridged request returns is that of a valid response to it. *)
Lemma bridged_answer request_id tool_call original reason ticket sent response d :
  (request_approval_with_context serde_error request_id tool_call original reason ticket sent response).1 = Ok d →
  ticket = AwaitReturned (Ok request_id) ∧ sent = AwaitReturned (Ok ()) ∧
  ∃ request value, tool_approval_request tool_call original reason = Ok request ∧ response = AwaitReturned (Ok value) ∧
    receive_approval serde_error request value = Ok d.
Proof.
  unfold request_approval_with_context. destruct (_ ≫= _) as [request|error] eqn:Hr; [|done].
  apply bind_Ok in Hr as (request' & Hreq & Hr). apply bind_Ok in Hr as ([] & _ & Hr).
  apply bind_Ok in Hr as (id & Hticket & Hr). apply bind_Ok in Hr as ([] & Hid & Hr). injection Hr as ->.
  apply reject_if_Ok, negb_false_iff, bool_decide_eq_true in Hid. subst id.
  destruct ticket as [|ticket]; [done|]. simpl in Hticket. subst ticket.
  destruct sent as [|[[]|error]]; [done| |done]. intros Hd. split_and!; [done|done|].
  apply bind_Ok in Hd as (value & Hv & Hd). destruct response as [|response]; [done|]. simpl in Hv. subst response.
  by exists request, value.
Qed.

(** The answer once the request is out and the bridge has returned a response *)
Lemma bridged_receives request_id tool_call original reason request value :
  tool_approval_request tool_call original reason = Ok request → validate_interaction_request request = Ok () →
  request_approval_with_context serde_error request_id tool_call original reason
    (AwaitReturned (Ok request_id)) (AwaitReturned (Ok ())) (AwaitReturned (Ok value))
  = (receive_approval serde_error request value, false).
Proof.
  intros Hr Hv. unfold request_approval_with_context. rewrite Hr. simpl. rewrite Hv. simpl.
  by rewrite (bool_decide_true (request_id = request_id)).
Qed.
End responses.

(** ** What approvals guarantee

    The way of a decision from the client to the tool call that waits for it, with a
    concrete instance. *)

From stdpp Require Import relations.
From S2P Require Import Samples.

(** ** Sample data *)

(** A validator that knows the schema of tool approvals. *)
Definition approval_schemas : SchemaExternals := {|
  schema_compiles _ := Ok ();
  schema_accepts schema value := if bool_decide (schema = tool_approval_response_schema) then approval_shape value else true;
|}.
Lemma approval_schemas_ok : @ApprovalSchema approval_schemas.
Proof. split; [done|]. intros v. simpl. by rewrite bool_decide_eq_true_2. Qed.

Definition asked_approval : InteractionRequest :=
  {| iq_kind := KIND_TOOL_APPROVAL; iq_title := "Tool approval";
     iq_payload := Object {["tool_call" := Object ∅; "original_arguments" := Object ∅]};
     iq_response_schema := Some tool_approval_response_schema |}.

(** ** Decisions arrive *)

(** C27: The decision that is made on a tool call is the one its request returns. At the
    gate, whatever requests, resolvers and abandoned requests do, at most one decision
    of a request counts, a request returns no decision but that, and as long as one
    waits any decision can be made and is what it then receives. Through the interaction
    bridge a request returns a decision only if its ticket has its own identity, its
    event was sent and the bridge returned a response that its schema accepts. If that
    response is at most 64 KiB, then the one made by the core's own resolver reads back as
    its decision, and so do every response that the daemon builds of a run approval and
    those the client builds of an approval without arguments and feedback, a rejection
    without arguments and a modification with its arguments; no response that the client
    builds is ever read as another decision than the one it was built of. *)
Theorem approval_decisions_arrive `{Externals, SchemaExternals, !ApprovalSchema} serde_error :
  (∀ x, rtc gate_step gate_world x → gate_delivers x) ∧
  ∀ request_id tool_call original reason ticket sent response,
    let answer := (request_approval_with_context serde_error request_id tool_call original reason ticket sent response).1 in
    (∀ d, answer = Ok d →
       ticket = AwaitReturned (Ok request_id) ∧ sent = AwaitReturned (Ok ()) ∧
       ∃ value, response = AwaitReturned (Ok value) ∧ approval_shape value = true
         ∧ parse_tool_approval_response serde_error value = Ok d) ∧
    (∀ request value,
       tool_approval_request tool_call original reason = Ok request → validate_interaction_request request = Ok () →
       ticket = AwaitReturned (Ok request_id) → sent = AwaitReturned (Ok ()) → response = AwaitReturned (Ok value) →
       response_fits value →
       (∀ d, value = approval_decision_response d → answer = Ok d) ∧
       (∀ decision arguments feedback,
          typed_response decision arguments feedback = Ok value
          ∨ value = run_approval_response decision arguments feedback ∧ client_fits decision arguments feedback = true →
          answer = Ok (decision_meaning decision arguments feedback))) ∧
    (∀ decision arguments feedback d,
       response = AwaitReturned (Ok (run_approval_response decision arguments feedback)) → answer = Ok d →
       d = decision_meaning decision arguments feedback).
Proof.
  split; [exact gate_decides_once|]. intros request_id tool_call original reason ticket sent response answer. split_and!.
  - intros d Hd. destruct (bridged_answer _ _ _ _ _ _ _ _ _ Hd) as (? & ? & request & value & Hr & ? & Hrec).
    split_and!; [done|done|]. exists value. split; [done|]. by apply (receive_approval_Ok serde_error request value tool_call original reason).
  - intros request value Hr Hv -> -> -> Hf. subst answer. rewrite (bridged_receives _ _ _ _ _ request) by done. simpl.
    rewrite receive_approval_spec by (done || by eapply tool_approval_request_schema). split.
    + intros d ->. by destruct (parse_core_response serde_error d) as [-> ->].
    + intros decision arguments feedback [Ht|[-> Hc]].
      * by destruct (parse_daemon_response serde_error _ _ _ _ Ht) as [-> ->].
      * by rewrite parse_client_response, Hc.
  - intros decision arguments feedback d -> Hd.
    destruct (bridged_answer _ _ _ _ _ _ _ _ _ Hd) as (_ & _ & request & value & Hr & [= <-] & Hrec).
    destruct (receive_approval_Ok serde_error _ _ _ _ _ _ Hr Hrec) as [Hshape Hparse].
    pose proof (parse_client_response serde_error decision arguments feedback) as Hp. rewrite Hshape, Hparse in Hp.
    destruct (client_fits _ _ _); [by injection Hp|done].
Qed.

(** An approval as the client makes it, accepted *)
Notation asked response :=
  (@request_approval_with_context sample_externals approval_schemas (λ _, "") "r1" (Ok (Object ∅)) (Object ∅) None
     (AwaitReturned (Ok "r1")) (AwaitReturned (Ok ())) (AwaitReturned (Ok response))).
Lemma approval_decisions_arrive_witness :
  (asked (run_approval_response ApproveRun None None)).1 = Ok Accept ∧
  (asked (approval_decision_response (Deny (Some "no")))).1 = Ok (Deny (Some "no")).
Proof.
  destruct (@approval_decisions_arrive sample_externals approval_schemas approval_schemas_ok (λ _, "")) as [_ Hbridge].
  split.
  - destruct (Hbridge "r1" (Ok (Object ∅)) (Object ∅) None (AwaitReturned (Ok "r1")) (AwaitReturned (Ok ()))
      (AwaitReturned (Ok (run_approval_response ApproveRun None None)))) as (_ & Harrive & _).
    destruct (Harrive asked_approval (run_approval_response ApproveRun None None)) as [_ Hmade];
      [vm_compute; reflexivity..|]. apply (Hmade ApproveRun None None). right. split; reflexivity.
  - destruct (Hbridge "r1" (Ok (Object ∅)) (Object ∅) None (AwaitReturned (Ok "r1")) (AwaitReturned (Ok ()))
      (AwaitReturned (Ok (approval_decision_response (Deny (Some "no")))))) as (_ & Harrive & _).
    destruct (Harrive asked_approval (approval_decision_response (Deny (Some "no")))) as [Hmade _];
      [vm_compute; reflexivity..|]. by apply Hmade.
Defined.

(** The specification shows an approval with a note ([approval.resolve]); through the
    interactions the client's response to it is refused. *)
Example noted_approval_refused :
  client_fits ApproveRun None (Some "fine") = false ∧
  (asked (run_approval_response ApproveRun None (Some "fine"))).1
  = Err (InteractionResponseInvalid "Interaction response does not match response_schema").
Proof. split; vm_compute; reflexivity. Qed.
